(* ===== verification/_CoqProject ===== *)
-Q . S2P
Prelude.v
GoLib.v
GoNet.v
Checksum.v
Packets.v
VirtTun.v
RelayPool.v
PeerStore.v
Offline.v
GoPath.v
FileFrame.v
FileTransfer.v
IrohWire.v
IrohRelay.v
Iptunnel.v
Events.v
PubSub.v
DDLog.v
Protocols.v
Pbtunnel.v
UdpConn.v
Bridge.v
SoftunWire.v
Softun.v
LoPortMap.v
Turn.v
TurnPeer.v
Push.v
RelayManager.v
IoCopy.v
Remote.v
HostAddrs.v
Gossip.v
GoEncoding.v
Trackers.v
Discovery.v
RestApi.v
Scope.v
ConnLimiter.v
RcLimits.v
ResourceManager.v
ResourceStreams.v
ResourceHistory.v
GoHeap.v
AddrBook.v
MemAddrBook.v
DialLimiter.v
DialRank.v
Dialer.v
DialWorker.v
Envelope.v
CircuitWire.v
RelayService.v
RelayCopy.v
CircuitClient.v
ConnMgr.v
Decay.v
