(* ===== verification/Prelude.v ===== *)
(** * peerscale: a verification library

    peerscale is a peer-to-peer virtual network in Go on top of libp2p.  A node
    captures IP packets with a kernel tun device (src/fbvirtun) or a user-space one
    (src/softun), carries them to other nodes over libp2p streams (src/iptunnel), and
    keeps what it needs to reach them: a pool of relays, a peer database, statistics of
    stable peers, the addresses it advertises, whether it is online (src/p2put).  It
    also transfers files and speaks the iroh relay protocol (src/p2put).  It runs on its own
    copy of go-libp2p (src/myvendor/go-libp2p), parts of which every connection goes
    through.  This library models these parts as executable Gallina definitions,
    translated from the source, and proves what makes them correct.

    ** How the code is translated

    A Go function that can fail returns a [res]: a value, an error, or a panic, kept
    apart.  State is passed explicitly: each part has a record with the fields of its
    Go structures, an operation maps records to records, and objects that are shared
    between tables, queues and goroutines (bridges, flows, streams, carriers) live in a
    store and are named by a key or an index.  A lock held over a whole operation makes
    it one atomic step; where the code unlocks in between, the interleaving is modelled
    (the insertion and the pruning of [RelayPool.Add], the reader of a flow that was
    replaced).  Integers are [Z] with the wrap-around of their width written where it
    can happen; bytes are [Z] below 256; [float64] is the binary64 of the Standard
    Library; strings are [string]; Go maps are [gmap], and a [range] over a map visits
    it in an order given by the class [MapRange], for which every theorem is proved;
    [sort.Slice] is the class [GoSort].  Time is in nanoseconds and an argument.  Code
    outside src/ (the TCP of vtcp, zstd, SHA-256, the key derivation and signatures,
    multiaddresses, libp2p streams, the operating system) is a parameter, with what is
    relied on as a named hypothesis ([vtcp_laws], [zstd_works]).

    ** The files

    - Prelude: results, machine integers, byte strings and their windows, fixed-width
      encodings, the hint databases and tactics ([len], [window], [bytes_lit]).
    - GoLib: time, ranging over maps, sorting, [float64].
    - GoNet: decimal numbers, IP addresses as text, host:port pairs, CRC-64.
    - GoPath: [filepath.Base], [Clean] and [Join].
    - Checksum: the Internet checksum of fbvirtun/virtun.go, against RFC 1071.
    - Packets: the packet builders and in-place ICMP writers of fbvirtun.
    - VirtTun: the kernel tun device (fbvirtun/virtun.go, virtun_tcp.go, virtun_udp.go,
      virtun_icmp.go): [tunStep] is one turn of [tunReadLoop]; [step] adds what the
      goroutines do (replies, closures, cleanups); [run] is a sequence of them.
    - RelayPool: p2put/relaypool.go, every operation; [run_ops] is a history.
    - PeerStore: the modules [PeerDB] (p2put/peerdb.go), [StablePeers]
      (stable_peers.go) and [AddrManager] (addrmgr.go).
    - Offline: the detector of p2put/offline.go.
    - FileFrame: frames, bitmap, data frames and the choice of the compression
      (p2put/relayfile.go, filecomp.go).
    - FileTransfer: [HandleFileStream] and [receiveLoop] as a machine over frames,
      [SendFile] as a program over a stream, and the two joined ([world]).
    - IrohWire: integers, datagrams and handshake of p2put/irohrelay.go.
    - IrohRelay: its streams, managers, pool, and the connection with its keep-alive; the
      relays between two nodes are the class [Relay] of IrohWire.
    - Iptunnel: the hubs and carriers of src/iptunnel.
    - Events: the event buffers of p2put/utapi.go and the polling clients of restapi.go;
      [Bus.step] is an event from either source, a poll, or a turn of a waiting client.
    - PubSub: duplicate suppression, forwarding and publishing of p2put/pso_nopubsub.go;
      [act_step] is one access of [isMsgSeen] to the shared table, and in the module
      [Concurrent] [conc_step] one access of one of many handlers that run together on
      many nodes.
    - DDLog: the merging logger of src/dlog.
    - Protocols: the protocol registry of p2put/user_protocols.go.
    - Pbtunnel: what src/pbtunnel dials, datagrams on a stream, and the module [Drift]
      with the sessions of [DriftServer]: [step] is a step of the listening loop, of the
      goroutine of a session, or of the sweep.
    - UdpConn: the connection type [p2pUdpConn] of pbtunnel, access by access.
    - Bridge: the copy loops of pbtunnel and of its HTTP proxy, and pipes.
    - SoftunWire: the packets src/softun builds; pktkit, slirp and vtcp as classes.
    - Softun: addresses, routing, refused connections, echo and datagram listeners of
      src/softun; vclient is an argument.
    - LoPortMap: the table of softun_loportmap.go.
    - Turn: a TURN server of p2put/turnpool.go and the goroutines that keep it, step by
      step: [connect], [connectWithBackoff], [runLoop], [shutdown], [acceptProc],
      [reallocate]; [run] is an interleaving of them.
    - TurnPeer: the modules [Peer] (p2put/turnpeer.go) and [Pool] (the tables of
      turnpool.go).
    - Push: the exchange of peers of p2put/pushid.go, both ends, and the reconnection of
      mydiscovery.go; [run] is a network of nodes and the messages between them.
    - RelayManager: [relayPoolManager] of p2put/libp2p_bs.go; [tick] is one of its turns.
    - IoCopy: [Pipe] of p2put/iocopy.go; [pstep] is a turn of a copy, the end of one, or
      the return.
    - Remote: the modules [Echo] (src/pbecho) and [Exec] (src/pbexec), both ends, with the
      parts of UTF-8 and [TrimSpace] they use.
    - HostAddrs: the modules [Filters] (p2put/utils.go), [Peerstore] and [Suber]
      (libp2p_bs.go) and [Dns] (multidns.go).
    - Gossip: the variant of publish/subscribe on libp2p-pubsub (p2put/pso_pubsub.go):
      the module [Topics] joins and leaves topics, access by access, [Flow] follows a
      message from the mesh to the peers outside the topic.
    - GoEncoding: the base64 and hexadecimal of the Go library.
    - Trackers: the modules [Jami] and [Proxy] (jamitracker.go, jamidhtproxy.go), [Ipfs]
      (mydiscovery.go) and [KV], the key-value store on either of proxy and DHT.
    - Discovery: the discovery rounds of mydiscovery.go and libp2p_bs_dht.go and the
      module [Fixer] (fixconn.go).
    - RestApi: the handlers of restapi.go that are not about events, the listings and the
      callbacks of utapi.go.
    - Scope, ConnLimiter, RcLimits, ResourceManager: the resource manager the node
      configures (p2put/config.go; myvendor/go-libp2p, p2p/host/resource-manager): the scopes
      and their counters (scope.go), the connections per address (conn_limiter.go), the
      limits and their scaling (limit.go, limit_defaults.go), and the manager that opens,
      attaches, closes and collects (rcmgr.go).  ResourceStreams and ResourceHistory hold
      the proofs about it; [step] there is one operation, [history] any sequence of them.
    - GoHeap, AddrBook, MemAddrBook: Go's [container/heap] against an interface of stores
      that keep the place of each entry ([HeapInterface]), and the address book of the
      peer store (p2p/host/peerstore/pstoremem/addr_book.go): its heap of expirations,
      then its operations and their histories.
    - DialLimiter, DialRank, Dialer, DialWorker: dialling in the swarm (p2p/net/swarm): the
      tokens of limiter.go, the delays of dial_ranker.go, black holes, back-off and the
      single worker per peer (black_hole_detector.go, swarm_dial.go, dial_sync.go), and
      the worker with its queue (dial_worker.go), an event at a time.
    - Envelope: signed envelopes, peer records and vouchers (core/record,
      core/peer/record.go).
    - CircuitWire, RelayService, RelayCopy, CircuitClient: relayed connections
      (p2p/protocol/circuitv2): the messages, the relay with its reservations and
      circuits, the copying of data, and the client against that relay.
    - ConnMgr, Decay: the connection manager (p2p/net/connmgr): tags, protection, trims and
      emergencies, then tags that decay and the histories of both ([reachable]).

    The packets [VirtTun] builds are those of [Packets], whose checksums are those of
    [Checksum]; [Softun] sends the packets of [SoftunWire] and derives addresses as
    [VirtTun] does; [FileTransfer] sends the frames and data frames of [FileFrame] and
    writes to the paths of [GoPath]; [IrohRelay] sends and parses the datagrams of
    [IrohWire]; [Pbtunnel] registers its handlers with [Protocols].  [Push] merges into the
    peer database of [PeerStore], sends what its address manager advertises, and adds to
    the permissions of [TurnPeer]; [RelayManager] moves the pool of [RelayPool] and tells
    the address manager; [IoCopy] is specified by the pipes of [Bridge].  [Discovery] finds
    peers through the trackers of [Trackers], whose values are encoded with [GoEncoding].
    [ResourceManager] works on a store of the scopes of [Scope], with the limits of
    [RcLimits], and asks [ConnLimiter] before it opens a connection.  [AddrBook] instantiates
    the heap of [GoHeap], and [MemAddrBook] keeps the signed records of a peer beside its
    addresses; [DialWorker] queues addresses with the delays of [DialRank];
    [RelayService] and [CircuitClient] exchange the messages of [CircuitWire], and vouchers
    in the envelopes of [Envelope]; [Decay] changes the values by which [ConnMgr] sorts.

    ** What the theorems show

    Each property is numbered C1, C2, ... in its doc comment.

    - Invariants over all histories: the NAT tables of the tun device
      ([virtun_run_wf]), the relay pool ([pool_invariant], [pool_capacity]), the stable
      peers ([stable_table_ok]), the stream tables ([iroh_run_wf], [stream_ids_fresh]),
      the hubs ([tunnel_hub_ok]), the listeners of the user-space device
      ([udp_table_ok], [loportmap_ok]), the sessions of the tunnel ([drift_sessions]), the
      accounts of the resource manager ([accounts_balance]: an open scope counts what is held
      at it and below it; [idle_counts_nothing], [idle_collected], [charged_scopes_open],
      [refused_connection_no_trace]), the connections per address ([conn_limiter_exact]),
      the address book ([address_book_ok], [collection_exact]), the workers that dial
      ([one_worker_per_peer], [requests_accounted], [dial_limits]), the circuits of a relay
      ([circuits_counted], [reservations_limited]), the connection manager
      ([manager_consistent], [bounded_tag], [protection_exact]).
    - Refinement: the copy loops are two pipes ([bridge_refines_pipes], and with half-close
      [pipe_half_close]), the merging
      logger is a plain log ([ddlog_lossless]), registering before the host exists is
      registering on it ([protocols_replay]).
    - Interleaving: duplicate suppression under concurrent calls and sweeps
      ([deliver_once], [dedup_window]; [dedup_race] is what sweeps can do), the datagram
      connection under concurrent users ([udpconn_never_reconnects]), joining and leaving
      topics ([topic_never_left]; [topic_stays_lost] and [stale_unsubscribe] are what can go
      wrong), the sessions of the tunnel ([drift_sessions]), the TURN server under its
      goroutines as long as no allocation is reset ([turn_lifecycle]; [turn_races] and
      [turn_leak] are what can go wrong).
    - Networks: a sighting that is passed on does not get newer, and a silent peer vanishes
      from every node ([gossip_no_refresh]); one exchange ([push_exchange]); a message that
      leaves the mesh ([published_forwarded], [delivered_twice]); client and relay agree
      ([reservation_accepted], [handshake_agrees]), and what verifies was signed
      ([consumed_was_sealed], [voucher_authentic]).
    - End to end: a file of any size arrives whole ([transfer_completes]) and a receiver
      leaves a checked file or none ([receive_all_or_nothing], [save_path_in_dir]);
      written stream data arrives as the datagrams that carry it, in order if the relays
      keep their order ([write_delivered]; [relays_reorder] if they do not); a datagram
      written at one node is read at another ([datagram_delivered]); a dialled port is the
      port reached ([dial_target]).
    - Functional behaviour: routing of connections and datagrams ([tcp_syn_routed],
      [udp_reply_written], [hairpin_written], [refused_connections]), pruning and
      selection of relays ([prune_spec], [selectN_best], [select_sound],
      [failures_demote_and_open]), the peer database and the advertised addresses, the
      debounce of the offline detector, cleanups and reapers ([udp_cleanup_exact],
      [tunnel_reap]), the relay manager ([relay_tick]), remote commands ([exec_answer]),
      the private ranges ([isPrivateIP_ranges]), the file of known peers
      ([peerstore_roundtrip]), the bootstrap list ([collectNodes_spec]), what trackers find
      ([jami_roundtrip], [jami_failover], [search_sound]), limits ([config_roundtrip],
      [scale_monotone], [checkMemory_spec], [my_limits_values]), the order of dialling
      ([ranked_groups], [relay_beside_private]), relayed data ([relay_exact]), which connections a trim closes
      ([trim_safe], [trim_settles], [force_trim_unprotected]), whom discovery dials ([v6_dials],
      [findAndConnect_spec]), the listings ([collectTopics_spec]).
    - Wire formats: packets and checksums against the RFCs, and round trips.
    - Termination and totality: an iteration of the read loop returns, no access to a
      packet being out of its range ([tun_step_total]), a tunnel write ends ([tunnel_write];
      [inbound_carrier_written]), a stop ends the loop of a TURN server that takes it
      ([turn_stops]), bootstrap names resolve if they do not loop
      ([resolve_ends], [resolve_loops]), the connection fixer ends ([dofix_ends]), no request
      to dial is stuck ([no_request_stuck]), a decaying value ends ([fixed_decay]).
    - Where the code does something else than it means to, the theorem says what it
      does: IPv6 checksums ([packets6_checksum_rejected]), resets
      ([rst_segment_rfc793]), short ICMP requests ([icmp_error4_written]), pruning under
      a race ([prune_over_capacity]), panics from a remote peer ([remote_panics],
      [handshake_outcomes]), lost first data ([write_delivered]), streams that cannot be
      closed ([close_lifecycle]), pings that stop ([keepalive_spec]), a backlog that is
      never sent ([poll_answers]), half-closed connections ([bridge_eof], [pipe_full_close]), datagrams to
      oneself ([self_datagram_lost]), sightings from the future ([future_sighting_sticks]),
      relays that are never replaced ([relay_manager_starves]) or stay advertised
      ([closed_relay_advertised], [removed_circuits_advertised]), a failed write that is
      forgotten ([failed_write_forgotten]), values that are put where nobody looks
      ([kv_over_dht]), callbacks that are taken for each other ([closures_collide]), limits
      that are exceeded ([fd_limit_exceeded], [self_circuit_exceeds],
      [reservation_uncounted]), emergencies that close too few ([force_trim_short],
      [force_trim_twice]), values that never decay ([orphan_stays], [expire_never]).

    ** Fuel and bounds

    [SendFile] recurses on fuel; two more than the number of batches of eight chunks is
    proved enough.  [foldCarry] takes two rounds for any packet.  [leb128] takes at most
    ten turns for a 64-bit value.  [Write] recurses on the length of what is left.
    [write_loop] has the 48 attempts of the code.  [Softun.routeWrite] recurses on the
    nesting of the calls between the stack and its handler; one level is enough for a
    stack whose answers are for other nodes.  [writen] ends within the length of its
    buffer ([writen_ends]), and [udp_down] within the number of datagrams.
    [resolveDNSAddrFully] recurses on fuel, more than the rank of the name is proved enough;
    [json_text] and [TrimSpace] on the length of the text, of which each turn takes a byte.
    [dofix] has one turn per sixteen seconds of its time, and two more.  A span charges its
    owner, whose address is smaller: [chargeScope] and [returnScope] have as fuel one more
    than the address.

    ** What is left out

    Pure I/O and glue: set-up commands of the tun devices, the assembly of libp2p options,
    the start of the DHT.  Of the vendored libp2p: transports and security, identify, hole
    punching, reachability and the addresses of the host, the search for relays, HTTP, and
    of the swarm everything but dialling.  Of circuits the memory reserved for streams,
    deadlines and metrics; of dialling the resolution of addresses and the transports.
    The removal of a temporary file ([os.Remove]) is taken to succeed.
    Within the modelled parts: progress callbacks and the polling loop of [ReceiveFile], the permissions a
    TURN server is asked for, the start and stop of goroutines (but in [Turn]), the text
    form of JSON (but for [json_text]), logging.  Resource exhaustion and data races inside
    one operation are outside the model. *)

From Stdlib Require Export ZArith Lia.
From stdpp Require Export prelude gmap strings list fin_maps numbers.
Export list_basics.list list_relations.list list_monad.list list_misc.list list_numbers.list.

#[global] Open Scope Z_scope.

(** ** Results of Go code

    A Go function either returns, returns an error value, or panics.  The three
    outcomes are kept apart: [Fail] carries the text of the error, [Panic] stops
    the goroutine and carries nothing. *)
Inductive res (A : Type) : Type :=
  | Ok (a : A)
  | Fail (e : string)
  | Panic.
Arguments Ok {A} a.
Arguments Fail {A} e.
Arguments Panic {A}.

Definition rbind {A B} (r : res A) (k : A -> res B) : res B :=
  match r with Ok a => k a | Fail e => Fail e | Panic => Panic end.

Declare Scope go_scope.
Delimit Scope go_scope with go.
Notation "'let!' x ':=' r 'in' k" := (rbind r (fun x => k))
  (at level 200, x pattern, r at level 100, k at level 200) : go_scope.
#[global] Open Scope go_scope.

Lemma rbind_Ok {A B} (r : res A) (k : A -> res B) b :
  rbind r k = Ok b <-> exists a, r = Ok a /\ k a = Ok b.
Proof. destruct r; simpl; naive_solver. Qed.

Definition is_ok {A} (r : res A) : bool := match r with Ok _ => true | _ => false end.

(** What [r] returned satisfies [P] (and [r] returned). *)
Definition returns {A} (r : res A) (P : A -> Prop) : Prop := exists a, r = Ok a /\ P a.

Lemma is_ok_returns {A} (r : res A) (P : A -> Prop) :
  is_ok r = true -> (forall a, r = Ok a -> P a) -> returns r P.
Proof. destruct r as [a| |]; [|done..]. intros _ H. exists a. auto. Qed.

(** The value of a call that returned. *)
Definition the {A} (d : A) (r : res A) : A := match r with Ok a => a | _ => d end.

Lemma the_Ok {A} (d : A) r : is_ok r = true -> r = Ok (the d r).
Proof. by destruct r. Qed.

Lemma Ok_inj {A} (a b : A) : Ok a = Ok b -> a = b.
Proof. congruence. Qed.

(** ** Machine integers

    Go integers are modelled by [Z] with the wrap-around of their width. *)
Definition wrapu (w x : Z) : Z := x mod 2 ^ w.
Definition wraps (w x : Z) : Z := (x + 2 ^ (w - 1)) mod 2 ^ w - 2 ^ (w - 1).

Lemma wrapu_range w x : 0 <= w -> 0 <= wrapu w x < 2 ^ w.
Proof. intros Hw. apply Z.mod_pos_bound. lia. Qed.

Lemma wrapu_small w x : 0 <= x < 2 ^ w -> wrapu w x = x.
Proof. apply Z.mod_small. Qed.

Lemma wraps_range w x : 0 < w -> - 2 ^ (w - 1) <= wraps w x < 2 ^ (w - 1).
Proof.
  intros Hw. unfold wraps.
  assert (2 ^ w = 2 * 2 ^ (w - 1)) by (rewrite <- Z.pow_succ_r by lia; f_equal; lia).
  assert (0 < 2 ^ (w - 1)) by lia.
  pose proof (Z.mod_pos_bound (x + 2 ^ (w - 1)) (2 ^ w)). lia.
Qed.

Lemma wraps_small w x : 0 < w -> - 2 ^ (w - 1) <= x < 2 ^ (w - 1) -> wraps w x = x.
Proof.
  intros Hw Hx. unfold wraps.
  assert (2 ^ w = 2 * 2 ^ (w - 1)) by (rewrite <- Z.pow_succ_r by lia; f_equal; lia).
  rewrite Z.mod_small; lia.
Qed.

Lemma wraps_add_l w a b : 0 < w -> wraps w (wraps w a + b) = wraps w (a + b).
Proof.
  intros Hw. unfold wraps. f_equal.
  replace ((a + 2 ^ (w - 1)) mod 2 ^ w - 2 ^ (w - 1) + b + 2 ^ (w - 1)) with ((a + 2 ^ (w - 1)) mod 2 ^ w + b) by lia.
  rewrite Zplus_mod_idemp_l. f_equal. lia.
Qed.

(** Bits put above the bits of [a]. *)
Lemma land_shiftl_0 a b n : 0 <= a < 2 ^ n -> 0 <= n -> Z.land a (Z.shiftl b n) = 0.
Proof.
  intros Ha Hn. apply Z.bits_inj'. intros i Hi.
  rewrite Z.land_spec, Z.bits_0, Z.shiftl_spec by lia.
  destruct (Z.lt_ge_cases i n) as [H|H].
  - by rewrite (Z.testbit_neg_r b), andb_false_r by lia.
  - destruct (Z.eq_dec a 0) as [->|Hne]; [by rewrite Z.bits_0|].
    rewrite (Z.bits_above_log2 a i); [done|lia|].
    apply Z.log2_lt_pow2; [lia|]. apply Z.lt_le_trans with (2 ^ n); [lia|].
    apply Z.pow_le_mono_r; lia.
Qed.

Lemma lor_shiftl_add a b n :
  0 <= a < 2 ^ n -> 0 <= n -> Z.lor a (Z.shiftl b n) = a + b * 2 ^ n.
Proof.
  intros Ha Hn. pose proof (land_shiftl_0 a b n Ha Hn) as H.
  rewrite <- Z.lxor_lor, <- Z.add_nocarry_lxor by done. by rewrite Z.shiftl_mul_pow2.
Qed.

(** ** Byte strings *)
Notation bytes := (list Z).

Definition is_byte (b : Z) : Prop := 0 <= b < 256.
Definition is_bytes (l : bytes) : Prop := Forall is_byte l.

#[global] Instance is_byte_dec b : Decision (is_byte b).
Proof. unfold is_byte. apply _. Defined.

#[global] Instance is_bytes_dec l : Decision (is_bytes l).
Proof. unfold is_bytes. apply _. Defined.

Definition zlen {A} (l : list A) : Z := Z.of_nat (length l).

Lemma zlen_nonneg {A} (l : list A) : 0 <= zlen l.
Proof. unfold zlen. lia. Qed.
Lemma zlen_app {A} (l k : list A) : zlen (l ++ k) = zlen l + zlen k.
Proof. unfold zlen. rewrite length_app. lia. Qed.
Lemma zlen_cons {A} (a : A) l : zlen (a :: l) = 1 + zlen l.
Proof. unfold zlen. simpl length. lia. Qed.
Lemma zlen_nil {A} : zlen (@nil A) = 0.
Proof. reflexivity. Qed.

Lemma is_bytes_app l k : is_bytes (l ++ k) <-> is_bytes l /\ is_bytes k.
Proof. apply Forall_app. Qed.
Lemma is_bytes_take n l : is_bytes l -> is_bytes (take n l).
Proof. apply Forall_take. Qed.
Lemma is_bytes_drop n l : is_bytes l -> is_bytes (drop n l).
Proof. apply Forall_drop. Qed.
Lemma is_bytes_lookup l i b : is_bytes l -> l !! i = Some b -> is_byte b.
Proof. intros H Hi. exact (Forall_lookup_1 _ _ _ _ H Hi). Qed.
Lemma is_bytes_replicate n b : is_byte b -> is_bytes (replicate n b).
Proof. intros H. apply Forall_replicate, H. Qed.

(** [l[i:i+n]], for indices the code has checked. *)
Definition sub (l : bytes) (i n : nat) : bytes := take n (drop i l).

(** [copy(l[off:], bs)] for [off + len(bs) <= len(l)]. *)
Definition put_at (off : nat) (bs l : bytes) : bytes :=
  take off l ++ bs ++ drop (off + length bs) l.

(** [l[i]] for an index the code has checked (0 outside). *)
Definition at_ (l : bytes) (i : nat) : Z := nth i l 0.

Lemma length_sub l i n : (i + n <= length l)%nat -> length (sub l i n) = n.
Proof. intros H. unfold sub. rewrite length_take, length_drop. lia. Qed.

Lemma length_put_at off bs l :
  (off + length bs <= length l)%nat -> length (put_at off bs l) = length l.
Proof.
  intros H. unfold put_at. rewrite !length_app, length_take, length_drop. lia.
Qed.

Lemma is_bytes_sub l i n : is_bytes l -> is_bytes (sub l i n).
Proof. intros H. apply is_bytes_take, is_bytes_drop, H. Qed.

Lemma is_bytes_put_at off bs l : is_bytes bs -> is_bytes l -> is_bytes (put_at off bs l).
Proof.
  intros Hb Hl. unfold put_at. rewrite !is_bytes_app.
  repeat split; auto using is_bytes_take, is_bytes_drop.
Qed.

Lemma put_at_app_l off bs l k :
  (off + length bs <= length l)%nat -> put_at off bs (l ++ k) = put_at off bs l ++ k.
Proof.
  intros H. unfold put_at.
  rewrite take_app_le, drop_app_le by lia. by rewrite <- !app_assoc.
Qed.

Lemma sub_put_at_same off bs l :
  (off + length bs <= length l)%nat -> sub (put_at off bs l) off (length bs) = bs.
Proof.
  intros H. unfold sub, put_at.
  rewrite drop_app_length' by (rewrite length_take; lia).
  by rewrite take_app_length.
Qed.

Lemma sub_put_at_eq off bs l n :
  n = length bs -> (off + n <= length l)%nat -> sub (put_at off bs l) off n = bs.
Proof. intros -> H. by apply sub_put_at_same. Qed.

Lemma sub_put_at_before off bs l i n :
  (i + n <= off)%nat -> (off <= length l)%nat -> sub (put_at off bs l) i n = sub l i n.
Proof.
  intros H1 H2. unfold sub, put_at.
  rewrite drop_app_le, take_app_le by (rewrite ?length_drop, ?length_take; lia).
  rewrite !take_drop_commute, take_take. repeat f_equal. lia.
Qed.

Lemma sub_put_at_after off bs l i n :
  (off + length bs <= i)%nat -> (off + length bs <= length l)%nat ->
  sub (put_at off bs l) i n = sub l i n.
Proof.
  intros H1 H2. unfold sub, put_at. f_equal.
  rewrite app_assoc, drop_app_ge by (rewrite length_app, length_take; lia).
  rewrite drop_drop. f_equal. rewrite length_app, length_take. lia.
Qed.

Lemma sub_put_at_inside off bs l i n :
  (i <= off)%nat -> (off + length bs <= i + n)%nat -> (i + n <= length l)%nat ->
  sub (put_at off bs l) i n = put_at (off - i) bs (sub l i n).
Proof.
  intros H1 H2 H3. unfold sub, put_at.
  rewrite drop_app_le by (rewrite length_take; lia).
  rewrite skipn_firstn_comm.
  rewrite take_app_ge by (rewrite length_take, length_drop; lia).
  rewrite take_app_ge by (rewrite !length_take, length_drop; lia).
  rewrite length_take, length_drop. f_equal; [|f_equal].
  - rewrite take_take. f_equal. lia.
  - rewrite skipn_firstn_comm, drop_drop. f_equal; [lia|]. f_equal. lia.
Qed.

Lemma take_sub l n : take n l = sub l 0 n.
Proof. done. Qed.

(** ** Fixed-width encodings ([encoding/binary]) *)
Fixpoint be_bytes (n : nat) (v : Z) : bytes :=
  match n with
  | O => []
  | S m => (v / 256 ^ Z.of_nat m) mod 256 :: be_bytes m v
  end.

Fixpoint be_val (l : bytes) : Z :=
  match l with
  | [] => 0
  | b :: r => b * 256 ^ zlen r + be_val r
  end.

(** Little-endian encodings are the big-endian ones reversed. *)
Definition le_bytes (n : nat) (v : Z) : bytes := reverse (be_bytes n v).
Definition le_val (l : bytes) : Z := be_val (reverse l).

Lemma length_be_bytes n v : length (be_bytes n v) = n.
Proof. induction n; simpl; auto. Qed.
Lemma length_le_bytes n v : length (le_bytes n v) = n.
Proof. unfold le_bytes. by rewrite length_reverse, length_be_bytes. Qed.

Lemma is_bytes_be_bytes n v : is_bytes (be_bytes n v).
Proof.
  induction n; simpl; constructor; auto. apply Z.mod_pos_bound. lia.
Qed.
Lemma is_bytes_reverse l : is_bytes l -> is_bytes (reverse l).
Proof. intros H. by apply Forall_reverse. Qed.
Lemma is_bytes_le_bytes n v : is_bytes (le_bytes n v).
Proof. apply is_bytes_reverse, is_bytes_be_bytes. Qed.

Lemma be_val_be_bytes n v : be_val (be_bytes n v) = v mod 256 ^ Z.of_nat n.
Proof.
  induction n as [|n IH]; simpl be_bytes; simpl be_val.
  - by rewrite Z.mod_1_r.
  - rewrite IH. unfold zlen. rewrite length_be_bytes.
    replace (256 ^ Z.of_nat (S n)) with (256 ^ Z.of_nat n * 256)
      by (rewrite Nat2Z.inj_succ, Z.pow_succ_r; lia).
    rewrite Z.rem_mul_r by lia. lia.
Qed.

Lemma be_val_bound l : is_bytes l -> 0 <= be_val l < 256 ^ zlen l.
Proof.
  induction 1 as [|b l Hb Hl IH]; simpl be_val; [unfold zlen; simpl; lia|].
  rewrite zlen_cons, Z.pow_add_r by (pose proof (zlen_nonneg l); lia).
  unfold is_byte in Hb. nia.
Qed.

Lemma be_bytes_mod_add n v k : be_bytes n (v + k * 256 ^ Z.of_nat n) = be_bytes n v.
Proof.
  revert v k. induction n as [|n IH]; intros v k; simpl; [done|]. f_equal.
  - replace (256 ^ Z.of_nat (S n)) with (256 ^ Z.of_nat n * 256)
      by (rewrite Nat2Z.inj_succ, Z.pow_succ_r; lia).
    rewrite (Z.mul_comm (256 ^ _) 256), Z.mul_assoc, Z.div_add, Z.mod_add by lia. done.
  - rewrite Nat2Z.inj_succ, Z.pow_succ_r, Z.mul_assoc by lia. apply IH.
Qed.

Lemma be_bytes_be_val l : is_bytes l -> be_bytes (length l) (be_val l) = l.
Proof.
  induction 1 as [|b l Hb Hl IH]; simpl; [done|].
  pose proof (be_val_bound l Hl). unfold zlen in *. unfold is_byte in Hb. f_equal.
  - rewrite Z.div_add_l, (Z.div_small (be_val l)), Z.add_0_r by lia.
    by apply Z.mod_small.
  - rewrite Z.add_comm, be_bytes_mod_add. apply IH.
Qed.

Lemma be_val_be_bytes_small n v :
  0 <= v < 256 ^ Z.of_nat n -> be_val (be_bytes n v) = v.
Proof. intros H. rewrite be_val_be_bytes. by apply Z.mod_small. Qed.
Lemma le_val_le_bytes_small n v :
  0 <= v < 256 ^ Z.of_nat n -> le_val (le_bytes n v) = v.
Proof.
  intros H. unfold le_val, le_bytes. rewrite reverse_involutive.
  by apply be_val_be_bytes_small.
Qed.

(** Lengths without side conditions, for rewriting. *)
Lemma length_put_at_gen off bs l :
  length (put_at off bs l) =
  (off `min` length l + (length bs + (length l - (off + length bs))))%nat.
Proof. unfold put_at. by rewrite !length_app, length_take, length_drop. Qed.
Lemma length_sub_gen l i n : length (sub l i n) = (n `min` (length l - i))%nat.
Proof. unfold sub. by rewrite length_take, length_drop. Qed.

Lemma at_sub l i n j : (j < n)%nat -> at_ (sub l i n) j = at_ l (i + j).
Proof.
  intros H. unfold at_, sub. rewrite !nth_lookup, lookup_take_lt by done.
  by rewrite lookup_drop.
Qed.

Lemma at_put_at_inside off bs l i :
  (off <= i)%nat -> (i < off + length bs)%nat -> (off <= length l)%nat ->
  at_ (put_at off bs l) i = at_ bs (i - off).
Proof.
  intros H1 H2 H3. unfold at_, put_at.
  rewrite app_nth2 by (rewrite length_take; lia).
  rewrite app_nth1 by (rewrite length_take; lia).
  f_equal. rewrite length_take. lia.
Qed.

Lemma at_put_at_outside off bs l i :
  (i < off \/ off + length bs <= i)%nat -> (off + length bs <= length l)%nat ->
  at_ (put_at off bs l) i = at_ l i.
Proof.
  intros H H3. rewrite <- (Nat.add_0_r i), <- !(at_sub _ i 1 0) by lia.
  destruct H; [rewrite sub_put_at_before by lia|rewrite sub_put_at_after by lia]; done.
Qed.

(** ** Maps *)
Lemma insert_alter `{Countable K} {A} (m : gmap K A) p a g :
  m !! p = Some a -> <[p := g a]> m = alter g p m.
Proof.
  intros Hp. apply map_eq. intros q. destruct (decide (p = q)) as [<-|].
  - by rewrite lookup_alter_eq, Hp, lookup_insert_eq.
  - by rewrite lookup_alter_ne, lookup_insert_ne.
Qed.

Lemma size_alter `{Countable K} {A} (m : gmap K A) p g : size (alter g p m) = size m.
Proof.
  destruct (m !! p) as [a|] eqn:E.
  - rewrite <- (insert_alter _ _ _ _ E). apply map_size_insert_Some. by exists a.
  - f_equal. apply map_eq. intros q. destruct (decide (p = q)) as [<-|].
    + by rewrite lookup_alter_eq, E.
    + by rewrite lookup_alter_ne.
Qed.

Create HintDb wire.
#[export] Hint Resolve is_bytes_be_bytes is_bytes_le_bytes is_bytes_take is_bytes_drop
  is_bytes_sub is_bytes_put_at is_bytes_reverse : wire.
#[export] Hint Rewrite @length_app @length_be_bytes @length_le_bytes @length_take
  @length_drop @length_replicate length_put_at_gen length_sub_gen : wire.

(** Normalises the lengths of byte strings in the goal, then closes by [lia]. *)
Ltac len := repeat (progress (autorewrite with wire; simpl length)); try lia.

(** The same with the lengths in the hypotheses. *)
Ltac len_all := repeat (progress (autorewrite with wire in *; simpl length in *)); try lia.

(** Reads of a window of a buffer after a write: the write is before, after, equal
    to or inside the window. *)
Ltac window :=
  repeat first
    [ rewrite sub_put_at_before by len
    | rewrite sub_put_at_after by len
    | rewrite at_put_at_outside by len
    | rewrite sub_put_at_eq by len ].

(** Literal byte strings. *)
Ltac bytes_lit :=
  unfold is_bytes;
  repeat first [apply Forall_nil_2 | apply Forall_cons_2; [unfold is_byte in *; lia|]].
