(* ===== verification/GoLib.v ===== *)
(** * The Go runtime and standard library, as far as the program uses them

    Time and durations ([time]), the order in which a [range] over a map visits
    it, [sort.Slice], and [float64] arithmetic.  The places where the Go
    specification leaves a choice (map iteration, the order [sort.Slice] gives to
    equivalent elements) are type classes: every theorem holds for every
    instance, and the instances at the end of each section show the laws can be
    met and let the definitions compute. *)

From Stdlib Require Import SpecFloat Sorting.Sorted.
From S2P Require Import Prelude.

(** ** Time

    A [time.Time] is the number of nanoseconds since Go's zero time (January 1 of
    year 1), a [time.Duration] an [int64] number of nanoseconds.  [Time.Sub]
    saturates, which is what makes [time.Since] of a zero time the maximal
    duration. *)
Definition min_int64 : Z := - 2 ^ 63.
Definition max_int64 : Z := 2 ^ 63 - 1.

Definition zero_time : Z := 0.
Definition time_is_zero (t : Z) : bool := t =? zero_time.
Definition time_sub (a b : Z) : Z := Z.max min_int64 (Z.min max_int64 (a - b)).
Definition time_before (a b : Z) : bool := a <? b.
Definition time_after (a b : Z) : bool := b <? a.

Definition nanosecond : Z := 1.
Definition millisecond : Z := 1000000.
Definition second : Z := 1000000000.
Definition minute : Z := 60 * second.

(** [Time.Unix] and [time.Unix(s, 0)]. *)
Definition unix_epoch : Z := 62135596800 * second.
Definition Unix (t : Z) : Z := (t - unix_epoch) / second.
Definition from_unix (s : Z) : Z := unix_epoch + s * second.

Lemma unix_floor t : from_unix (Unix t) <= t < from_unix (Unix t) + second.
Proof.
  unfold from_unix, Unix, second. pose proof (Z.div_mod (t - unix_epoch) 1000000000).
  pose proof (Z.mod_pos_bound (t - unix_epoch) 1000000000). lia.
Qed.

Lemma unix_from_unix s : Unix (from_unix s) = s.
Proof. unfold Unix, from_unix, second. rewrite Z.add_simpl_l. by apply Z.div_mul. Qed.

(** A present-day time, for examples: January 2025. *)
Definition epoch : Z := 63871200000 * second.

Lemma time_sub_small a b : min_int64 <= a - b <= max_int64 -> time_sub a b = a - b.
Proof. unfold time_sub. lia. Qed.
Lemma time_sub_mono a b c : a <= b -> time_sub a c <= time_sub b c.
Proof. unfold time_sub. lia. Qed.
Lemma time_sub_gt a b d : min_int64 <= d < max_int64 -> (d < time_sub a b <-> d < a - b).
Proof. unfold time_sub. lia. Qed.

(** ** Ranging over a map

    [range_map site m] is the sequence of entries the [range] statement number
    [site] visits; the language promises each entry once, in any order. *)
Class MapRange := {
  range_map : forall {K V} `{Countable K}, nat -> gmap K V -> list (K * V);
  range_map_perm : forall {K V} `{Countable K} site (m : gmap K V),
    Permutation (range_map site m) (map_to_list m)
}.

#[refine] Definition map_to_list_range : MapRange :=
  {| range_map K V _ _ _ m := map_to_list m |}.
Proof. intros. reflexivity. Defined.

Section range.
Context `{MapRange} {K V : Type} `{Countable K}.
Implicit Types m : gmap K V.

Lemma elem_of_range site m k v : (k, v) ∈ range_map site m <-> m !! k = Some v.
Proof. rewrite range_map_perm. apply elem_of_map_to_list. Qed.

Lemma NoDup_range_keys site m : NoDup (range_map site m).*1.
Proof. rewrite range_map_perm. apply NoDup_fst_map_to_list. Qed.

Lemma length_range site m : length (range_map site m) = size m.
Proof. rewrite range_map_perm. apply length_map_to_list. Qed.
End range.

(** ** [sort.Slice]

    [less] is a strict weak order on the elements satisfying [P]. *)
Record strict_weak {A} (P : A -> Prop) (less : A -> A -> bool) : Prop := {
  sw_irrefl : forall a, P a -> less a a = false;
  sw_trans : forall a b c, P a -> P b -> P c ->
    less a b = true -> less b c = true -> less a c = true;
  sw_neg_trans : forall a b c, P a -> P b -> P c ->
    less b a = false -> less c b = false -> less c a = false
}.

Class GoSort := {
  sort_slice : forall {A}, (A -> A -> bool) -> list A -> list A;
  sort_slice_perm : forall {A} (less : A -> A -> bool) l,
    Permutation (sort_slice less l) l;
  sort_slice_sorted : forall {A} (P : A -> Prop) (less : A -> A -> bool) l,
    strict_weak P less -> Forall P l ->
    StronglySorted (fun a b => less b a = false) (sort_slice less l)
}.

Section insertion.
Context {A : Type} (less : A -> A -> bool).

Fixpoint insert_sorted (x : A) (l : list A) : list A :=
  match l with
  | [] => [x]
  | y :: r => if less y x then y :: insert_sorted x r else x :: y :: r
  end.

Fixpoint insertion_sort (l : list A) : list A :=
  match l with
  | [] => []
  | x :: r => insert_sorted x (insertion_sort r)
  end.

Lemma insert_sorted_perm x l : Permutation (insert_sorted x l) (x :: l).
Proof.
  induction l as [|y r IH]; simpl; [done|].
  destruct (less y x); [|done]. rewrite IH. apply perm_swap.
Qed.

Lemma insertion_sort_perm l : Permutation (insertion_sort l) l.
Proof.
  induction l as [|x r IH]; simpl; [done|]. by rewrite insert_sorted_perm, IH.
Qed.

Lemma insert_sorted_sorted (P : A -> Prop) x l :
  strict_weak P less -> P x -> Forall P l ->
  StronglySorted (fun a b => less b a = false) l ->
  StronglySorted (fun a b => less b a = false) (insert_sorted x l).
Proof.
  intros Hw Hx HP Hs. induction Hs as [|y r Hr IH Hy]; simpl; [repeat constructor|].
  apply Forall_cons_1 in HP as [HPy HPr].
  destruct (less y x) eqn:E.
  - constructor; [auto|].
    rewrite insert_sorted_perm. constructor; [|done].
    destruct (less x y) eqn:E2; [|done].
    pose proof (sw_trans _ _ Hw _ _ _ HPy Hx HPy E E2).
    pose proof (sw_irrefl _ _ Hw _ HPy). congruence.
  - constructor; [by constructor|]. constructor; [done|].
    rewrite Forall_forall in Hy |- *. intros z Hz.
    rewrite Forall_forall in HPr.
    apply (sw_neg_trans _ _ Hw x y z); auto.
Qed.

Lemma insertion_sort_sorted (P : A -> Prop) l :
  strict_weak P less -> Forall P l ->
  StronglySorted (fun a b => less b a = false) (insertion_sort l).
Proof.
  intros Hw HP. induction HP as [|x r Hx Hr IH]; simpl; [constructor|].
  apply (insert_sorted_sorted P); auto. by rewrite insertion_sort_perm.
Qed.
End insertion.

Definition insertion_go_sort : GoSort :=
  {| sort_slice := @insertion_sort;
     sort_slice_perm := @insertion_sort_perm;
     sort_slice_sorted A P less l := @insertion_sort_sorted A less P l |}.

Section sorting.
Context `{GoSort} {A : Type}.

Lemma elem_of_sort_slice (less : A -> A -> bool) l x :
  x ∈ sort_slice less l <-> x ∈ l.
Proof. by rewrite sort_slice_perm. Qed.

Lemma length_sort_slice (less : A -> A -> bool) l :
  length (sort_slice less l) = length l.
Proof. by rewrite sort_slice_perm. Qed.

(** Whatever is cut off a sorted slice is not below what is kept. *)
Lemma sort_slice_split (P : A -> Prop) (less : A -> A -> bool) l n x y :
  strict_weak P less -> Forall P l ->
  x ∈ take n (sort_slice less l) -> y ∈ drop n (sort_slice less l) ->
  less y x = false.
Proof.
  intros Hw HP Hx Hy.
  pose proof (sort_slice_sorted P less l Hw HP) as Hs.
  rewrite <- (take_drop n (sort_slice less l)) in Hs.
  revert Hs Hx Hy.
  generalize (take n (sort_slice less l)) as l1, (drop n (sort_slice less l)) as l2.
  intros l1 l2 Hs Hx Hy. induction l1 as [|a l1 IH]; [by apply elem_of_nil in Hx|].
  simpl in Hs. inversion Hs as [|? ? Hs' Hall]; subst.
  apply elem_of_cons in Hx as [->|Hx]; [|by apply IH].
  rewrite Forall_forall in Hall. apply Hall. apply elem_of_app. by right.
Qed.
End sorting.

(** Comparing integer keys is a strict weak order. *)
Lemma strict_weak_Z {A} (key : A -> Z) :
  strict_weak (fun _ => True) (fun a b => key a <? key b).
Proof. split; intros; lia. Qed.

(** ** [float64]

    IEEE 754 binary64 with round to nearest even, by the executable
    specification of the Standard Library. *)
Abbreviation float64 := spec_float.
Definition fadd : float64 -> float64 -> float64 := SFadd 53 1024.
Definition fsub : float64 -> float64 -> float64 := SFsub 53 1024.
Definition fmul : float64 -> float64 -> float64 := SFmul 53 1024.
Definition fdiv : float64 -> float64 -> float64 := SFdiv 53 1024.
Definition flt : float64 -> float64 -> bool := SFltb.
Definition fle : float64 -> float64 -> bool := SFleb.
Definition feq : float64 -> float64 -> bool := SFeqb.

(** [float64(z)] for an integer [z]. *)
Definition fof_int (z : Z) : float64 := binary_normalize 53 1024 z 0 false.

(** The constant [num/den]: the quotient of two exactly representable integers
    is the correctly rounded constant. *)
Definition fconst (num den : Z) : float64 := fdiv (fof_int num) (fof_int den).

Definition fzero : float64 := S754_zero false.
Definition fone : float64 := fof_int 1.

(** [math.Min]: NaN and signed zeros as documented. *)
Definition fmin (a b : float64) : float64 :=
  match a, b with
  | S754_nan, _ | _, S754_nan => S754_nan
  | S754_zero sa, S754_zero sb => S754_zero (sa || sb)
  | _, _ => if flt b a then b else a
  end.

(** Conversion to an integer: truncation towards zero. *)
Definition ftrunc (f : float64) : Z :=
  match f with
  | S754_finite s m e => (if s then Z.opp else id) (Z.shiftl (Zpos m) e)
  | _ => 0
  end.

(** [int(math.Ceil(f))]. *)
Definition fceil (f : float64) : Z :=
  match f with
  | S754_finite true m e => - Z.shiftl (Zpos m) e
  | S754_finite false m e => - Z.shiftl (Zneg m) e
  | _ => 0
  end.

Definition not_nan (f : float64) : Prop := f <> S754_nan.

(** On numbers that are not NaN, [<] is a strict weak order. *)
Lemma flt_strict_weak {A} (key : A -> float64) :
  strict_weak (fun a => not_nan (key a)) (fun a b => flt (key a) (key b)).
Proof.
  unfold flt, SFltb, not_nan.
  split.
  - intros a Ha. destruct (key a) as [[]|[]| |[] m e]; simpl; try done.
    all: rewrite Z.compare_refl, Pos.compare_cont_refl; done.
  - intros a b c _ _ _.
    destruct (key a) as [[]|[]| |[] ma ea], (key b) as [[]|[]| |[] mb eb],
      (key c) as [[]|[]| |[] mc ec]; simpl; try done.
    all: change (Pos.compare_cont Eq ma mb) with (Pos.compare ma mb);
      change (Pos.compare_cont Eq mb mc) with (Pos.compare mb mc);
      change (Pos.compare_cont Eq ma mc) with (Pos.compare ma mc).
    all: destruct (Z.compare_spec ea eb), (Z.compare_spec eb ec), (Z.compare_spec ea ec);
      try (exfalso; lia); try done;
      destruct (Pos.compare_spec ma mb), (Pos.compare_spec mb mc),
        (Pos.compare_spec ma mc); simpl; try done; exfalso; lia.
  - intros a b c Ha Hb Hc.
    destruct (key a) as [[]|[]| |[] ma ea], (key b) as [[]|[]| |[] mb eb],
      (key c) as [[]|[]| |[] mc ec]; simpl; try done.
    all: change (Pos.compare_cont Eq mb ma) with (Pos.compare mb ma);
      change (Pos.compare_cont Eq mc mb) with (Pos.compare mc mb);
      change (Pos.compare_cont Eq mc ma) with (Pos.compare mc ma).
    all: destruct (Z.compare_spec eb ea), (Z.compare_spec ec eb), (Z.compare_spec ec ea);
      try (exfalso; lia); try done;
      destruct (Pos.compare_spec mb ma), (Pos.compare_spec mc mb),
        (Pos.compare_spec mc ma); simpl; try done; exfalso; lia.
Qed.

(** Reversing a strict weak order (the source sorts descending with [>]). *)
Lemma strict_weak_flip {A} (P : A -> Prop) less :
  strict_weak P less -> strict_weak P (fun a b => less b a).
Proof.
  intros Hw. split.
  - apply Hw.
  - intros a b c Ha Hb Hc Hab Hbc. apply (sw_trans _ _ Hw c b a); auto.
  - intros a b c Ha Hb Hc Hab Hbc. apply (sw_neg_trans _ _ Hw c b a); auto.
Qed.

(** ** Deleting while ranging: what is left is the entries that do not satisfy the test. *)
Section sweep.
Context `{MapRange} {K V : Type} `{Countable K} (P : V -> bool).
Implicit Types m : gmap K V.

Definition sweep (m : gmap K V) (l : list (K * V)) : gmap K V :=
  foldl (fun m e => if P e.2 then delete e.1 m else m) m l.

Lemma lookup_sweep m l k :
  sweep m l !! k = if existsb (fun e => bool_decide (e.1 = k) && P e.2) l then None else m !! k.
Proof.
  revert m. induction l as [|[k' v] l IH]; intros m; [done|]. unfold sweep in *. cbn [foldl existsb fst snd].
  rewrite IH. destruct (bool_decide_reflect (k' = k)) as [->|Hne]; cbn [andb].
  - destruct (P v); cbn [orb]; [|done]. rewrite lookup_delete_eq. by case_match.
  - cbn [orb]. case_match; [done|]. destruct (P v); [|done]. by rewrite lookup_delete_ne.
Qed.

Lemma sweep_range_lookup site m k :
  sweep m (range_map site m) !! k =
  match m !! k with Some v => if P v then None else Some v | None => None end.
Proof.
  rewrite lookup_sweep. destruct (m !! k) as [v|] eqn:Em; [|by case_match].
  assert (existsb (fun e => bool_decide (e.1 = k) && P e.2) (range_map site m) = P v) as ->; [|done].
  destruct (P v) eqn:Ep.
  - apply existsb_exists. exists (k, v). rewrite <- list_elem_of_In, elem_of_range. cbn.
    by rewrite bool_decide_true, Ep.
  - destruct (existsb _ _) eqn:E; [|done]. apply existsb_exists in E as ([k' v'] & Hin & E).
    rewrite <- list_elem_of_In, elem_of_range in Hin. cbn in E. apply andb_true_iff in E as [Ek Ev].
    apply bool_decide_eq_true in Ek. subst k'. congruence.
Qed.

Lemma sweep_range site m : sweep m (range_map site m) = filter (fun p => P p.2 = false) m.
Proof.
  apply map_eq. intros k. rewrite sweep_range_lookup, map_lookup_filter.
  destruct (m !! k) as [v|]; [|done]. cbn.
  destruct (P v); cbn; rewrite ?option_guard_True, ?option_guard_False by congruence; done.
Qed.
End sweep.

Lemma size_filter `{Countable K} {V} (P : K * V -> Prop) `{forall x, Decision (P x)} (m : gmap K V) :
  size (filter P m) = length (filter P (map_to_list m)).
Proof.
  rewrite map_filter_alt, <- length_map_to_list. apply Permutation_length, map_to_list_to_map.
  eapply sublist_NoDup; [apply (NoDup_fst_map_to_list m)|]. apply fmap_sublist, sublist_filter.
Qed.

(** ** Sums over a map *)

Section msum.
Context `{Countable K} {A : Type}.
Implicit Types (g : K -> A -> Z) (h : gmap K A).

Definition msum g h : Z := map_fold (fun k s acc => g k s + acc) 0 h.

Lemma msum_insert_new g h a s : h !! a = None -> msum g (<[a := s]> h) = g a s + msum g h.
Proof. intros Hm. unfold msum. rewrite map_fold_insert_L; [done|intros; lia|done]. Qed.

Lemma msum_delete g h a s : h !! a = Some s -> msum g h = g a s + msum g (delete a h).
Proof.
  intros Hm. rewrite <-(insert_delete_id h a s Hm) at 1. apply msum_insert_new. apply lookup_delete_eq.
Qed.

Lemma msum_update g h a s s' : h !! a = Some s -> msum g (<[a := s']> h) = msum g h - g a s + g a s'.
Proof.
  intros Hm. rewrite (msum_delete g h a s Hm), <-insert_delete_eq.
  rewrite msum_insert_new by apply lookup_delete_eq. lia.
Qed.

Lemma msum_ext g g' h : (forall k s, h !! k = Some s -> g k s = g' k s) -> msum g h = msum g' h.
Proof.
  induction h as [|k s h Hk IH] using map_ind; intros Hf; [done|].
  rewrite !msum_insert_new by done. rewrite (Hf k s) by apply lookup_insert_eq. f_equal.
  apply IH. intros k' s' Hk'. apply Hf. rewrite lookup_insert_ne; [done|]. intros ->. congruence.
Qed.

Lemma msum_ext_but g g' h a s : h !! a = Some s ->
  (forall k s', k <> a -> h !! k = Some s' -> g k s' = g' k s') ->
  msum g' h = msum g h - g a s + g' a s.
Proof.
  intros Hm Hext. rewrite (msum_delete g h a s Hm), (msum_delete g' h a s Hm).
  rewrite (msum_ext g g' (delete a h)); [lia|]. intros k s' [Hne Hk]%lookup_delete_Some. by apply Hext.
Qed.

Lemma msum_nonneg g h : (forall k s, h !! k = Some s -> 0 <= g k s) -> 0 <= msum g h.
Proof.
  induction h as [|k s h Hk IH] using map_ind; intros Hf; [done|].
  rewrite msum_insert_new by done. pose proof (Hf k s (lookup_insert_eq _ _ _)).
  assert (0 <= msum g h); [|lia]. apply IH. intros k' s' Hk'. apply Hf.
  rewrite lookup_insert_ne; [done|]. intros ->. congruence.
Qed.

Lemma msum_ge g h a s : h !! a = Some s -> (forall k s, h !! k = Some s -> 0 <= g k s) -> g a s <= msum g h.
Proof.
  intros Hm Hn. rewrite (msum_delete g h a s Hm).
  assert (0 <= msum g (delete a h)); [|lia]. apply msum_nonneg. intros k s' [_ Hk]%lookup_delete_Some. eauto.
Qed.

Lemma msum_zero g h : (forall k s, h !! k = Some s -> g k s = 0) -> msum g h = 0.
Proof.
  intros Hm. rewrite (msum_ext g (fun _ _ => 0) h Hm). clear Hm.
  induction h as [|k s h Hk IH] using map_ind; [done|]. rewrite msum_insert_new by done. lia.
Qed.

Lemma msum_put (g : K -> A -> Z) (m : gmap K A) k x :
  msum g (<[k := x]> m) = msum g m - match m !! k with Some y => g k y | None => 0 end + g k x.
Proof.
  destruct (m !! k) as [y|] eqn:E; [by rewrite (msum_update _ _ _ _ x E)|]. rewrite msum_insert_new by done. lia.
Qed.

Lemma msum_le (g g' : K -> A -> Z) (m : gmap K A) :
  (forall k x, m !! k = Some x -> g k x <= g' k x) -> msum g m <= msum g' m.
Proof.
  induction m as [|k x m Hk IH] using map_ind; intros Hm; [done|]. rewrite !msum_insert_new by done.
  assert (g k x <= g' k x) by (apply Hm, lookup_insert_eq). assert (msum g m <= msum g' m); [|lia].
  apply IH. intros k' x' Hk'. apply Hm. rewrite lookup_insert_ne; [done|]. congruence.
Qed.

Lemma msum_remove (g : K -> A -> Z) (m : gmap K A) k :
  msum g (delete k m) = msum g m - match m !! k with Some y => g k y | None => 0 end.
Proof.
  destruct (m !! k) as [y|] eqn:E; [rewrite (msum_delete _ m k y E); lia|]. rewrite delete_id by done. lia.
Qed.

Lemma msum_list (g : K -> A -> Z) (m : gmap K A) :
  msum g m = foldr (fun e n => g e.1 e.2 + n) 0 (map_to_list m).
Proof. unfold msum. rewrite map_fold_foldr. induction (map_to_list m) as [|[k a] l IH]; [done|]. simpl. by rewrite IH. Qed.
End msum.
