(* ===== verification/GoNet.v ===== *)
(** * Go's [net], [strconv] and [hash/crc64], as far as the program uses them

    Decimal numbers, the text form of IP addresses, [net.JoinHostPort] and
    [net.SplitHostPort], the predicates of [net.IP], and the CRC of
    [crc64.Checksum] with the ECMA table. *)

From Stdlib Require Import Ascii.
From stdpp Require Import pretty.
From S2P Require Import Prelude.

(** ** Decimal numbers *)
Definition utoa (v : Z) : string := pretty (Z.to_N v).

Definition is_digit (c : Ascii.ascii) : Prop :=
  match Ascii.is_nat c with Some _ => True | None => False end.

Fixpoint all_chars (P : Ascii.ascii -> Prop) (s : string) : Prop :=
  match s with EmptyString => True | String c r => P c /\ all_chars P r end.

Lemma all_chars_app P s t : all_chars P (s +:+ t) <-> all_chars P s /\ all_chars P t.
Proof. induction s as [|c s IH]; simpl; [tauto|]. rewrite IH. tauto. Qed.

Lemma all_chars_impl (P Q : Ascii.ascii -> Prop) s :
  (forall c, P c -> Q c) -> all_chars P s -> all_chars Q s.
Proof. intros H. induction s; simpl; naive_solver. Qed.

Lemma pretty_char_digit x : is_digit (pretty_N_char x).
Proof. unfold pretty_N_char. repeat case_match; exact I. Qed.

Lemma utoa_digits v : all_chars is_digit (utoa v).
Proof.
  assert (forall x s, all_chars is_digit s -> all_chars is_digit (pretty_N_go x s)) as H.
  { intros x. induction (N.lt_wf_0 x) as [x _ IH]. intros s Hs.
    destruct (decide (x = 0)%N) as [->|]; [done|].
    rewrite pretty_N_go_step by lia. apply IH; [apply N.div_lt; lia|].
    split; [apply pretty_char_digit|done]. }
  unfold utoa, pretty, pretty_N. case_decide; [by repeat split|]. by apply H.
Qed.

Lemma utoa_inj v w : 0 <= v -> 0 <= w -> utoa v = utoa w -> v = w.
Proof. intros Hv Hw E. unfold utoa in E. apply pretty_N_inj in E. lia. Qed.

(** ** Strings *)
Definition colon : Ascii.ascii := ":"%char.

Fixpoint has_char (c : Ascii.ascii) (s : string) : bool :=
  match s with EmptyString => false | String d r => Ascii.eqb c d || has_char c r end.

(** Cuts at the last occurrence of [c]. *)
Fixpoint cut_last (c : Ascii.ascii) (s : string) : option (string * string) :=
  match s with
  | EmptyString => None
  | String d r =>
      match cut_last c r with
      | Some (a, b) => Some (String d a, b)
      | None => if Ascii.eqb c d then Some (EmptyString, r) else None
      end
  end.

(** Cuts at the first occurrence of [c]. *)
Fixpoint cut_first (c : Ascii.ascii) (s : string) : option (string * string) :=
  match s with
  | EmptyString => None
  | String d r =>
      if Ascii.eqb c d then Some (EmptyString, r)
      else match cut_first c r with
           | Some (a, b) => Some (String d a, b)
           | None => None
           end
  end.

Lemma cut_last_app c s t :
  has_char c t = false -> cut_last c (s +:+ String c t) = Some (s, t).
Proof.
  intros H. assert (cut_last c t = None) as E.
  { clear s. induction t as [|d t IH]; simpl in *; [done|].
    apply orb_false_iff in H as [-> H]. by rewrite IH. }
  induction s as [|d s IH].
  - change ("" +:+ String c t) with (String c t). simpl.
    by rewrite E, Ascii.eqb_refl.
  - change (String d s +:+ String c t) with (String d (s +:+ String c t)). simpl.
    by rewrite IH.
Qed.

Lemma has_char_app c s t : has_char c (s +:+ t) = has_char c s || has_char c t.
Proof.
  induction s as [|d s IH]; [done|].
  change (String d s +:+ t) with (String d (s +:+ t)). simpl. by rewrite IH, orb_assoc.
Qed.

Lemma has_char_digits c s : ~ is_digit c -> all_chars is_digit s -> has_char c s = false.
Proof.
  intros Hc. induction s as [|d s IH]; simpl; [done|]. intros [Hd Hs].
  rewrite IH by done. destruct (Ascii.eqb_spec c d) as [->|]; [done|done].
Qed.

Lemma has_char_utoa c v : ~ is_digit c -> has_char c (utoa v) = false.
Proof. intros Hc. apply has_char_digits; [done|apply utoa_digits]. Qed.

Fixpoint has_prefix (p s : string) : bool :=
  match p, s with
  | EmptyString, _ => true
  | String a p, String b s => Ascii.eqb a b && has_prefix p s
  | String _ _, EmptyString => false
  end.

(** [strings.Contains]. *)
Fixpoint contains (p s : string) : bool :=
  has_prefix p s ||
  match s with EmptyString => false | String _ r => contains p r end.

Lemma has_prefix_spec p s : has_prefix p s = true <-> exists r, s = p +:+ r.
Proof.
  revert s. induction p as [|a p IH]; intros s; simpl.
  - split; [|done]. intros _. by exists s.
  - destruct s as [|b s].
    + split; [done|]. by intros [r Hr].
    + rewrite andb_true_iff, IH. split.
      * intros [E [r ->]]. apply Ascii.eqb_eq in E as ->. by exists r.
      * intros [r Hr]. change (String b s = String a (p +:+ r)) in Hr.
        simplify_eq. split; [apply Ascii.eqb_refl|by exists r].
Qed.

(** ** Addresses

    An [IP] is its bytes, 4 or 16 of them. *)
Definition v4_in_v6_prefix : bytes := [0; 0; 0; 0; 0; 0; 0; 0; 0; 0; 255; 255].

(** [IP.To4]. *)
Definition to4 (ip : bytes) : option bytes :=
  if (length ip =? 4)%nat then Some ip
  else if (length ip =? 16)%nat && bool_decide (take 12 ip = v4_in_v6_prefix)
  then Some (drop 12 ip)
  else None.

Definition ip_equal (a b : bytes) : bool :=
  match to4 a, to4 b with
  | Some x, Some y => bool_decide (x = y)
  | None, None => bool_decide (a = b)
  | _, _ => false
  end.

Definition ip4_string (ip : bytes) : string :=
  utoa (at_ ip 0) +:+ "." +:+ utoa (at_ ip 1) +:+ "." +:+
  utoa (at_ ip 2) +:+ "." +:+ utoa (at_ ip 3).

Definition hex_digit (v : Z) : Ascii.ascii :=
  Ascii.ascii_of_N (Z.to_N (if v <? 10 then 48 + v else 87 + v)).

(** A 16-bit group in lower-case hexadecimal without leading zeros. *)
Definition hex16 (v : Z) : string :=
  let d i := String (hex_digit (v / 16 ^ i mod 16)) EmptyString in
  (if 4096 <=? v then d 3 else "") +:+ (if 256 <=? v then d 2 else "") +:+
  (if 16 <=? v then d 1 else "") +:+ d 0.

Definition groups (ip : bytes) : list Z :=
  map (fun i => at_ ip (2 * i) * 256 + at_ ip (2 * i + 1)) (seq 0 8).

(** Length of the run of zero groups at the head. *)
Fixpoint zero_run (g : list Z) : nat :=
  match g with x :: r => if x =? 0 then S (zero_run r) else O | [] => O end.

(** First longest run of at least two zero groups: its start and length. *)
Fixpoint best_run (i : nat) (g : list Z) (best : nat * nat) : nat * nat :=
  match g with
  | [] => best
  | _ :: r =>
      let n := zero_run g in
      best_run (S i) r (if (2 <=? n)%nat && (best.2 <? n)%nat then (i, n) else best)
  end.

Fixpoint join_groups (i : nat) (g : list Z) (run : nat * nat) : string :=
  match g with
  | [] => ""
  | x :: r =>
      if (0 <? run.2)%nat && (i =? run.1)%nat then "::" +:+ join_groups (S i) r run
      else if (run.1 <? i)%nat && (i <? run.1 + run.2)%nat then join_groups (S i) r run
      else (if (i =? 0)%nat || ((0 <? run.2)%nat && (i =? run.1 + run.2)%nat) then "" else ":")
           +:+ hex16 x +:+ join_groups (S i) r run
  end.

(** [IP.String]. *)
Definition ip_string (ip : bytes) : string :=
  match to4 ip with
  | Some a => ip4_string a
  | None => join_groups 0 (groups ip) (best_run 0 (groups ip) (0%nat, 0%nat))
  end.

Definition is_multicast (ip : bytes) : bool :=
  match to4 ip with
  | Some a => Z.land (at_ a 0) 0xf0 =? 0xe0
  | None => at_ ip 0 =? 0xff
  end.

Definition is_loopback (ip : bytes) : bool :=
  match to4 ip with
  | Some a => at_ a 0 =? 127
  | None => bool_decide (ip = replicate 15 0 ++ [1])
  end.

Definition is_link_local (ip : bytes) : bool :=
  match to4 ip with
  | Some a => (at_ a 0 =? 169) && (at_ a 1 =? 254)
  | None => (at_ ip 0 =? 0xfe) && (Z.land (at_ ip 1) 0xc0 =? 0x80)
  end.

Example ip_string_ex :
  ip_string [10; 0; 0; 97] = "10.0.0.97" /\
  ip_string [0xfd; 0; 0; 0; 0; 0; 0; 0; 0; 0; 0; 0; 0; 0; 0; 0x61] = "fd00::61" /\
  ip_string (replicate 15 0 ++ [1]) = "::1" /\
  ip_string [0x20; 0x01; 0x0d; 0xb8; 0; 0; 0; 1; 0; 0; 0; 0; 0; 0; 0xab; 0xcd] = "2001:db8:0:1::abcd" /\
  ip_string (replicate 10 0 ++ [255; 255; 10; 0; 0; 5]) = "10.0.0.5".
Proof. by vm_compute. Qed.

(** ** Host and port *)
Definition JoinHostPort (host port : string) : string :=
  if has_char colon host || has_char "%"%char host
  then "[" +:+ host +:+ "]:" +:+ port
  else host +:+ ":" +:+ port.

Definition no_brackets (s : string) : bool :=
  negb (has_char "["%char s) && negb (has_char "]"%char s).

(** [net.SplitHostPort]; the text of the error is not modelled further than its
    reason. *)
Definition SplitHostPort (hostport : string) : res (string * string) :=
  match cut_last colon hostport with
  | None => Fail "missing port in address"
  | Some (before, port) =>
      match before with
      | String "["%char inner =>
          match cut_first "]"%char hostport with
          | None => Fail "missing ']' in address"
          | Some (_, rest) =>
              match rest with
              | EmptyString => Fail "missing port in address"
              | String ":"%char p =>
                  match cut_first "]"%char inner with
                  | Some (host, EmptyString) =>
                      if no_brackets host && no_brackets port then Ok (host, port)
                      else Fail "unexpected '[' in address"
                  | _ => Fail "too many colons in address"
                  end
              | _ => Fail "missing port in address"
              end
          end
      | _ =>
          if has_char colon before then Fail "too many colons in address"
          else if no_brackets before && no_brackets port then Ok (before, port)
          else Fail "unexpected '[' in address"
      end
  end.

Lemma has_char_ip4 c ip : ~ is_digit c -> c <> "."%char -> has_char c (ip4_string ip) = false.
Proof.
  intros Hc Hd. unfold ip4_string.
  rewrite !has_char_app, !has_char_utoa by done. simpl.
  destruct (Ascii.eqb_spec c "."%char); done.
Qed.

(** Splitting what [JoinHostPort] made of a host without colons and a port number
    gives both back. *)
Lemma SplitHostPort_Join host port :
  has_char colon host = false -> has_char "%"%char host = false ->
  no_brackets host = true -> all_chars is_digit port ->
  SplitHostPort (JoinHostPort host port) = Ok (host, port).
Proof.
  intros Hc Hp Hb Hd. unfold JoinHostPort. rewrite Hc, Hp. simpl.
  unfold SplitHostPort. change (":" +:+ port) with (String colon port).
  rewrite cut_last_app by (apply has_char_digits; [exact id|done]).
  assert (no_brackets port = true) as Hq.
  { unfold no_brackets. by rewrite !has_char_digits by (exact id || done). }
  destruct host as [|a host].
  - by rewrite Hq.
  - unfold no_brackets in Hb. rewrite andb_true_iff, !negb_true_iff in Hb. destruct Hb as [Hb1 Hb2].
    assert (Ascii.eqb "["%char a = false) as Ha by (simpl in Hb1; by apply orb_false_iff in Hb1 as [? _]).
    rewrite Hc, Hq.
    assert (no_brackets (String a host) = true) as ->
      by (unfold no_brackets; by rewrite Hb1, Hb2).
    destruct a as [[] [] [] [] [] [] [] []]; try reflexivity. done.
Qed.

(** ** CRC-64 (ECMA polynomial, reflected, complemented before and after) *)
Definition ecma : Z := 0xC96C5795D7870F42.

Definition crc_bit (c : Z) : Z :=
  if Z.odd c then Z.lxor (Z.shiftr c 1) ecma else Z.shiftr c 1.

Definition crc_byte (c b : Z) : Z := Nat.iter 8 crc_bit (Z.lxor c b).

Definition crc64 (data : bytes) : Z :=
  Z.lxor (foldl crc_byte (2 ^ 64 - 1) data) (2 ^ 64 - 1).

Definition string_bytes (s : string) : bytes :=
  map (fun c => Z.of_N (Ascii.N_of_ascii c)) (String.list_ascii_of_string s).

(** The check value of the catalogue of CRC algorithms (CRC-64/XZ). *)
Example crc64_check : crc64 (string_bytes "123456789") = 0x995DC9BBDF1939FA.
Proof. by vm_compute. Qed.

Lemma lxor_range w a b :
  0 <= w -> 0 <= a < 2 ^ w -> 0 <= b < 2 ^ w -> 0 <= Z.lxor a b < 2 ^ w.
Proof.
  intros Hw Ha Hb.
  assert (0 <= Z.lxor a b) by (apply Z.lxor_nonneg; lia). split; [done|].
  destruct (Z.eq_dec (Z.lxor a b) 0) as [->|]; [lia|].
  apply Z.log2_lt_pow2; [lia|].
  apply Z.le_lt_trans with (Z.max (Z.log2 a) (Z.log2 b)); [apply Z.log2_lxor; lia|].
  destruct (Z.eq_dec a 0) as [->|], (Z.eq_dec b 0) as [->|]; try done.
  - change (Z.log2 0) with 0.
    assert (Z.log2 b < w) by (apply Z.log2_lt_pow2; lia). pose proof (Z.log2_nonneg b). lia.
  - change (Z.log2 0) with 0.
    assert (Z.log2 a < w) by (apply Z.log2_lt_pow2; lia). pose proof (Z.log2_nonneg a). lia.
  - apply Z.max_lub_lt; apply Z.log2_lt_pow2; lia.
Qed.

Lemma crc_bit_range c : 0 <= c < 2 ^ 64 -> 0 <= crc_bit c < 2 ^ 64.
Proof.
  intros Hc. assert (0 <= Z.shiftr c 1 < 2 ^ 64).
  { rewrite Z.shiftr_div_pow2 by lia. change (2 ^ 1) with 2.
    split; [apply Z.div_pos; lia|]. apply Z.div_lt_upper_bound; lia. }
  unfold crc_bit. destruct (Z.odd c); [|done].
  apply lxor_range; [lia|done|]. unfold ecma. lia.
Qed.

Lemma crc_byte_range c b : 0 <= c < 2 ^ 64 -> is_byte b -> 0 <= crc_byte c b < 2 ^ 64.
Proof.
  intros Hc Hb. unfold is_byte in Hb. unfold crc_byte.
  assert (0 <= Z.lxor c b < 2 ^ 64) as H by (apply lxor_range; lia).
  revert H. generalize (Z.lxor c b). intros x H.
  do 8 (apply crc_bit_range). done.
Qed.

Lemma crc64_range data : is_bytes data -> 0 <= crc64 data < 2 ^ 64.
Proof.
  intros H. unfold crc64. apply lxor_range; [lia| |lia].
  assert (0 <= 2 ^ 64 - 1 < 2 ^ 64) as Hc by lia. revert Hc. generalize (2 ^ 64 - 1).
  induction H as [|b l Hb Hl IH]; intros c Hc; simpl; [done|].
  apply IH. by apply crc_byte_range.
Qed.

Lemma is_bytes_string s : is_bytes (string_bytes s).
Proof.
  unfold string_bytes, is_bytes. apply Forall_map, Forall_true.
  intros c. simpl. unfold is_byte.
  destruct c as [[] [] [] [] [] [] [] []]; vm_compute; split; congruence.
Qed.

(** ** [strconv.Atoi] and [strings.Index] *)

(** The value of a string of decimal digits, after the digits of [acc]. *)
Fixpoint parse_dec (s : string) (acc : Z) : option Z :=
  match s with
  | EmptyString => Some acc
  | String c r => match Ascii.is_nat c with
                  | Some d => parse_dec r (10 * acc + Z.of_nat d)
                  | None => None
                  end
  end.

Definition parse_digits (s : string) : option Z :=
  match s with EmptyString => None | _ => parse_dec s 0 end.

(** [strconv.Atoi] on a 64-bit machine. *)
Definition Atoi (s : string) : option Z :=
  let in_range v := if (- 2 ^ 63 <=? v) && (v <? 2 ^ 63) then Some v else None in
  match s with
  | String c r =>
      if Ascii.eqb c "-"%char then match parse_digits r with Some v => in_range (- v) | None => None end
      else if Ascii.eqb c "+"%char then match parse_digits r with Some v => in_range v | None => None end
      else match parse_digits s with Some v => in_range v | None => None end
  | EmptyString => None
  end.

Definition itoa (v : Z) : string := if v <? 0 then "-" +:+ utoa (- v) else utoa v.

Fixpoint sdrop (n : nat) (s : string) : string :=
  match n, s with S n, String _ r => sdrop n r | _, _ => s end.

(** What follows the first occurrence of [p] in [s] ([strings.Index]). *)
Fixpoint after_first (p s : string) : option string :=
  if has_prefix p s then Some (sdrop (String.length p) s)
  else match s with EmptyString => None | String _ r => after_first p r end.

Lemma is_nat_pretty d : (d < 10)%N -> Ascii.is_nat (pretty_N_char d) = Some (N.to_nat d).
Proof.
  intros Hd. assert (d ∈ [0;1;2;3;4;5;6;7;8;9]%N) as Hin.
  { rewrite !elem_of_cons. lia. }
  revert Hin. rewrite !elem_of_cons, elem_of_nil.
  intros [->|[->|[->|[->|[->|[->|[->|[->|[->|[->|[]]]]]]]]]]]; reflexivity.
Qed.

Lemma parse_dec_pretty x : forall s, parse_dec (pretty_N_go x s) 0 = parse_dec s (Z.of_N x).
Proof.
  induction (N.lt_wf_0 x) as [x _ IH]. intros s.
  destruct (decide (x = 0)%N) as [->|Hx]; [done|].
  rewrite pretty_N_go_step by lia. rewrite IH by (apply N.div_lt; lia). cbn [parse_dec].
  rewrite is_nat_pretty by (apply N.mod_lt; lia). f_equal.
  rewrite N_nat_Z, N2Z.inj_div, N2Z.inj_mod. pose proof (Z.div_mod (Z.of_N x) 10). lia.
Qed.

Lemma parse_digits_utoa v : 0 <= v -> parse_digits (utoa v) = Some v.
Proof.
  intros Hv. assert (parse_dec (utoa v) 0 = Some v) as H.
  { unfold utoa, pretty, pretty_N. case_decide as E; [cbn; f_equal; lia|].
    rewrite parse_dec_pretty. cbn. f_equal. lia. }
  unfold parse_digits. destruct (utoa v) eqn:E; [|done].
  exfalso. revert E. unfold utoa, pretty, pretty_N. case_decide; [done|].
  intros E. assert (forall x s, s <> "" -> pretty_N_go x s <> "") as Hne.
  { intros x. induction (N.lt_wf_0 x) as [x _ IH]. intros s Hs.
    destruct (decide (x = 0)%N) as [->|]; [done|]. rewrite pretty_N_go_step by lia.
    apply IH; [apply N.div_lt; lia|done]. }
  rewrite pretty_N_go_step in E by lia. by apply Hne in E.
Qed.

Lemma Atoi_utoa v : 0 <= v < 2 ^ 63 -> Atoi (utoa v) = Some v.
Proof.
  intros Hv. pose proof (parse_digits_utoa v ltac:(lia)) as Hp. pose proof (utoa_digits v) as Hd.
  unfold Atoi. destruct (utoa v) as [|c r] eqn:E; [done|].
  destruct (Ascii.eqb_spec c "-") as [->|]; [by destruct Hd|].
  destruct (Ascii.eqb_spec c "+") as [->|]; [by destruct Hd|].
  rewrite Hp, (proj2 (Z.leb_le _ _)), (proj2 (Z.ltb_lt _ _)) by lia. done.
Qed.
