(* ===== verification/Checksum.v ===== *)
(** * Internet checksums of the kernel tun device (src/fbvirtun/virtun.go)

    The one's complement sum, its two-step carry fold, the IPv4 and IPv6 pseudo
    headers, and RFC 1071 as the specification they are compared with. *)

From S2P Require Import Prelude.

(** ** The code *)

(** [uint32(a)<<8 | uint32(b)]. *)
Definition word16 (a b : Z) : Z := Z.lor (Z.shiftl a 8) b.

(** The accumulation loop over [data], a [uint32] accumulator. *)
Fixpoint sumWords (sum : Z) (data : bytes) : Z :=
  match data with
  | a :: b :: r => sumWords (wrapu 32 (sum + word16 a b)) r
  | [a] => wrapu 32 (sum + Z.shiftl a 8)
  | [] => sum
  end.

(** [for sum > 0xffff { sum = (sum >> 16) + (sum & 0xffff) }]: [None] when
    [fuel] iterations do not finish it. *)
Fixpoint foldCarry (fuel : nat) (sum : Z) : option Z :=
  if sum <=? 65535 then Some sum
  else match fuel with
       | O => None
       | S n => foldCarry n (wrapu 32 (Z.shiftr sum 16 + Z.land sum 65535))
       end.

(** Two iterations finish the loop for every [uint32] ([foldCarry_terminates]). *)
Definition foldFuel : nat := 2.

(** [^uint16(sum)] after the loop. *)
Definition complement16 (sum : Z) : Z := 65535 - wrapu 16 sum.

Definition onesComplementSumFold (data : bytes) (initial : Z) : Z :=
  match foldCarry foldFuel (sumWords initial data) with
  | Some s => complement16 s
  | None => 0
  end.

Definition onesComplementSum (data : bytes) : Z :=
  match foldCarry foldFuel (sumWords 0 data) with
  | Some s => complement16 s
  | None => 0
  end.

Definition pseudoChecksum (src dst : bytes) (proto totalLen : Z) : Z :=
  wrapu 32 (word16 (at_ src 0) (at_ src 1) + word16 (at_ src 2) (at_ src 3) +
            word16 (at_ dst 0) (at_ dst 1) + word16 (at_ dst 2) (at_ dst 3) +
            proto + totalLen).

(** The eight 16-bit words of an IPv6 address: [for i := 0; i < 16; i += 2]. *)
Fixpoint sumAddr (i : nat) (sum : Z) (a : bytes) : Z :=
  match i with
  | O => sum
  | S n => sumAddr n (wrapu 32 (sum + word16 (at_ a 0) (at_ a 1))) (drop 2 a)
  end.

Definition pseudoChecksum6 (src dst : bytes) (proto totalLen : Z) : Z :=
  let sum := sumAddr 8 0 src in
  let sum := sumAddr 8 sum dst in
  let len32 := be_bytes 4 totalLen in
  let sum := wrapu 32 (sum + word16 (at_ len32 0) (at_ len32 1)) in
  let sum := wrapu 32 (sum + 0) in
  wrapu 32 (sum + proto).

(** ** The specification: RFC 1071

    The data is a sequence of 16-bit words, an odd last byte padded with a zero;
    they are added in one's complement arithmetic. *)
Fixpoint words (data : bytes) : list Z :=
  match data with
  | a :: b :: r => a * 256 + b :: words r
  | [a] => [a * 256]
  | [] => []
  end.

Definition ocAdd (x y : Z) : Z := let s := x + y in if 65535 <? s then s - 65535 else s.
Definition rfc1071 (ws : list Z) : Z := 65535 - foldl ocAdd 0 ws.

(** The receiver's check: the one's complement sum of everything, checksum field
    included, is all ones. *)
Definition verifies (ws : list Z) : Prop := rfc1071 ws = 0.

(** The pseudo headers as the RFCs give them: RFC 793 (4 + 4 + 1 + 1 + 2 bytes)
    and RFC 8200, section 8.1 (16 + 16 + 4 + 3 + 1 bytes). *)
Definition pseudo4_words (src dst : bytes) (proto len : Z) : list Z :=
  words (src ++ dst ++ [0; proto] ++ be_bytes 2 len).
Definition pseudo6_words (src dst : bytes) (proto len : Z) : list Z :=
  words (src ++ dst ++ be_bytes 4 len ++ [0; 0; 0; proto]).

(** ** Sums *)
Definition wsum (ws : list Z) : Z := foldr Z.add 0 ws.

(** The representative of [s] modulo 65535 that the carry fold reaches: 0 only
    for 0. *)
Definition norm16 (s : Z) : Z := if s =? 0 then 0 else (s - 1) mod 65535 + 1.

Lemma norm16_range s : 0 <= s -> 0 <= norm16 s <= 65535.
Proof. intros H. unfold norm16. case_match; [lia|]. pose proof (Z.mod_pos_bound (s - 1) 65535 ltac:(lia)). lia. Qed.

Lemma norm16_small s : 0 <= s <= 65535 -> norm16 s = s.
Proof. intros H. unfold norm16. case_match; [lia|]. rewrite Z.mod_small; lia. Qed.

Lemma norm16_add s k : 0 < s -> 0 <= k -> norm16 (s + k * 65535) = norm16 s.
Proof.
  intros Hs Hk. unfold norm16. case_match; [lia|]. case_match; [lia|].
  replace (s + k * 65535 - 1) with (s - 1 + k * 65535) by lia. by rewrite Z.mod_add.
Qed.

Lemma norm16_norm x y : 0 <= x -> 0 <= y -> norm16 (norm16 x + y) = norm16 (x + y).
Proof.
  intros Hx Hy. unfold norm16 at 2. case_match; [f_equal; lia|].
  pose proof (Z_div_mod_eq_full (x - 1) 65535). pose proof (Z.mod_pos_bound (x - 1) 65535 ltac:(lia)).
  rewrite <- (norm16_add _ ((x - 1) / 65535)) by lia. f_equal. lia.
Qed.

(** A checksum chosen to complete a sum completes it to all ones. *)
Lemma norm16_complete s : 0 <= s -> norm16 (s + (65535 - norm16 s)) = 65535.
Proof.
  intros Hs. pose proof (norm16_range s Hs).
  replace (s + (65535 - norm16 s)) with (65535 + (s - norm16 s) / 65535 * 65535).
  - rewrite norm16_add; [reflexivity|lia|]. apply Z.div_pos; [|lia].
    unfold norm16. case_match; [lia|]. pose proof (Z.mod_le (s - 1) 65535). lia.
  - unfold norm16. case_match; [assert (s = 0) as -> by lia; reflexivity|].
    replace (s - ((s - 1) mod 65535 + 1)) with ((s - 1) / 65535 * 65535)
      by (pose proof (Z_div_mod_eq_full (s - 1) 65535); lia).
    rewrite Z.div_mul by lia. pose proof (Z_div_mod_eq_full (s - 1) 65535). lia.
Qed.

Lemma norm16_all_ones s : 0 <= s -> norm16 s = 65535 -> s mod 65535 = 0 /\ 0 < s.
Proof.
  intros Hs. unfold norm16. case_match; [lia|]. intros E. split; [|lia].
  replace s with (65534 + 1 + (s - 1) / 65535 * 65535)
    by (pose proof (Z_div_mod_eq_full (s - 1) 65535); lia).
  rewrite Z.mod_add by lia. reflexivity.
Qed.

Lemma wsum_app u v : wsum (u ++ v) = wsum u + wsum v.
Proof. unfold wsum. induction u; simpl; lia. Qed.

Lemma wsum_nonneg ws : Forall (fun w => 0 <= w) ws -> 0 <= wsum ws.
Proof. unfold wsum. induction 1; simpl; lia. Qed.

Lemma ocAdd_norm x y :
  0 <= x <= 65535 -> 0 <= y <= 65535 -> ocAdd x y = norm16 (x + y).
Proof.
  intros Hx Hy. unfold ocAdd. case_match.
  - replace (x + y) with (x + y - 65535 + 1 * 65535) at 2 by lia.
    rewrite norm16_add, norm16_small by lia. lia.
  - rewrite norm16_small; lia.
Qed.

Lemma foldl_ocAdd ws x :
  0 <= x <= 65535 -> Forall (fun w => 0 <= w <= 65535) ws ->
  foldl ocAdd x ws = norm16 (x + wsum ws).
Proof.
  intros Hx Hws. revert x Hx.
  induction Hws as [|w ws Hw Hws IH]; intros x Hx; cbn [foldl foldr wsum].
  - unfold wsum. simpl. rewrite Z.add_0_r, norm16_small; lia.
  - assert (0 <= wsum ws) by (apply wsum_nonneg; eapply Forall_impl; [done|]; simpl; lia).
    rewrite IH, ocAdd_norm by (rewrite ?ocAdd_norm by lia; try apply norm16_range; lia).
    rewrite norm16_norm by lia. f_equal. unfold wsum. simpl. lia.
Qed.

Lemma rfc1071_norm ws :
  Forall (fun w => 0 <= w <= 65535) ws -> rfc1071 ws = 65535 - norm16 (wsum ws).
Proof. intros H. unfold rfc1071. rewrite foldl_ocAdd by (done || lia). done. Qed.

Lemma verifies_norm ws :
  Forall (fun w => 0 <= w <= 65535) ws -> verifies ws <-> norm16 (wsum ws) = 65535.
Proof. intros H. unfold verifies. rewrite rfc1071_norm by done. lia. Qed.

(** ** Words of byte strings *)

Lemma words_ind (P : bytes -> Prop) :
  P [] -> (forall a, P [a]) -> (forall a b r, P r -> P (a :: b :: r)) -> forall l, P l.
Proof.
  intros H0 H1 H2 l. cut (P l /\ forall a, P (a :: l)); [tauto|].
  induction l as [|x l [IH1 IH2]]; split; auto.
Qed.

Lemma words_bound l : is_bytes l -> Forall (fun w => 0 <= w <= 65535) (words l).
Proof.
  induction l as [|a|a b r IH] using words_ind; simpl; intros H; [done| |].
  - inversion H as [|? ? Ha]; subst. unfold is_byte in Ha. repeat constructor; lia.
  - inversion H as [|? ? Ha H2]; inversion H2 as [|? ? Hb]; subst.
    unfold is_byte in Ha, Hb. constructor; [lia|auto].
Qed.

Lemma wsum_words_bound l : is_bytes l -> 0 <= wsum (words l) <= 32768 * zlen l + 32768.
Proof.
  unfold zlen, wsum.
  induction l as [|a|a b r IH] using words_ind; simpl words; intros H; [simpl; lia| |].
  - inversion H as [|? ? Ha]; subst. unfold is_byte in Ha. simpl. lia.
  - inversion H as [|? ? Ha H2]; inversion H2 as [|? ? Hb]; subst.
    unfold is_byte in Ha, Hb. simpl. specialize (IH ltac:(done)). lia.
Qed.

Lemma words_app u v : Nat.Even (length u) -> words (u ++ v) = words u ++ words v.
Proof.
  induction u as [|a|a b r IH] using words_ind; simpl; intros [k Hk]; [done|lia|].
  f_equal. apply IH. exists (pred k). lia.
Qed.

Lemma word16_bytes a b : 0 <= a -> is_byte b -> word16 a b = a * 256 + b.
Proof.
  intros Ha Hb. unfold word16, is_byte in *.
  rewrite Z.shiftl_mul_pow2 by lia. change (2 ^ 8) with 256.
  rewrite <- Z.add_lor_land.
  enough (Z.land (a * 256) b = 0) by lia.
  apply Z.bits_inj'. intros n Hn. rewrite Z.land_spec, Z.bits_0.
  destruct (Z.ltb_spec n 8).
  - change 256 with (2 ^ 8). by rewrite Z.mul_pow2_bits_low.
  - destruct (Z.eq_dec b 0) as [->|]; [by rewrite Z.bits_0, andb_false_r|].
    rewrite (Z.bits_above_log2 b), andb_false_r; [done|lia|].
    apply Z.log2_lt_pow2; [lia|].
    apply Z.lt_le_trans with (2 ^ 8); [lia|]. by apply Z.pow_le_mono_r; lia.
Qed.

Lemma sumWords_eq l s :
  is_bytes l -> 0 <= s -> s + 32768 * zlen l + 32768 < 2 ^ 32 ->
  sumWords s l = s + wsum (words l).
Proof.
  revert s. unfold zlen.
  induction l as [|a|a b r IH] using words_ind; intros s Hl Hs Hb; simpl sumWords.
  - unfold wsum. simpl. lia.
  - inversion Hl as [|? ? Ha]; subst. unfold is_byte in Ha. simpl length in Hb.
    rewrite Z.shiftl_mul_pow2, wrapu_small by lia. unfold wsum. simpl. lia.
  - inversion Hl as [|? ? Ha H2]; inversion H2 as [|? ? Hb']; subst.
    simpl length in Hb. unfold is_byte in Ha.
    rewrite word16_bytes by (done || lia). unfold is_byte in Hb'.
    rewrite wrapu_small by lia. rewrite IH by (done || lia).
    unfold wsum. simpl. lia.
Qed.

(** The carry loop ends within two iterations for every [uint32], and computes
    the one's complement representative. *)
Lemma foldCarry_terminates s :
  0 <= s < 2 ^ 32 -> foldCarry foldFuel s = Some (norm16 s).
Proof.
  assert (Hstep : forall x, 65535 < x < 2 ^ 32 ->
    let y := Z.shiftr x 16 + Z.land x 65535 in
    wrapu 32 y = y /\ 0 < y <= 131070 /\ norm16 y = norm16 x /\
    (x <= 131070 -> y <= 65535)).
  { intros x Hx y. subst y.
    assert (Z.land x 65535 = x mod 2 ^ 16) as -> by (apply (Z.land_ones x 16); lia).
    rewrite Z.shiftr_div_pow2 by lia.
    pose proof (Z_div_mod_eq_full x (2 ^ 16)) as E.
    pose proof (Z.mod_pos_bound x (2 ^ 16) ltac:(lia)).
    pose proof (Z.div_pos x (2 ^ 16)). 
    set (q := x / 2 ^ 16) in *. set (m := x mod 2 ^ 16) in *.
    change (2 ^ 16) with 65536 in *. change (2 ^ 32) with 4294967296 in *.
    clearbody q m. assert (0 < q < 65536) by lia.
    repeat split; try lia.
    - apply wrapu_small. lia.
    - rewrite <- (norm16_add (q + m) q) by lia. f_equal. lia. }
  intros Hs. unfold foldFuel. cbn [foldCarry].
  destruct (Z.leb_spec s 65535); [by rewrite norm16_small by lia|].
  destruct (Hstep s ltac:(lia)) as (-> & Hy & Hn & _).
  set (y := Z.shiftr s 16 + Z.land s 65535) in *.
  destruct (Z.leb_spec y 65535); [by rewrite <- Hn, norm16_small by lia|].
  destruct (Hstep y ltac:(lia)) as (-> & Hz & Hn' & Hle).
  specialize (Hle ltac:(lia)).
  destruct (Z.leb_spec (Z.shiftr y 16 + Z.land y 65535) 65535); [|lia].
  rewrite <- Hn, <- Hn', norm16_small by lia. done.
Qed.

Lemma onesComplementSumFold_norm data init :
  is_bytes data -> 0 <= init -> init + 32768 * zlen data + 32768 < 2 ^ 32 ->
  onesComplementSumFold data init = 65535 - norm16 (init + wsum (words data)).
Proof.
  intros Hd Hi Hb. pose proof (wsum_words_bound data Hd).
  unfold onesComplementSumFold. rewrite sumWords_eq by done.
  rewrite foldCarry_terminates by lia.
  unfold complement16. pose proof (norm16_range (init + wsum (words data)) ltac:(lia)).
  rewrite wrapu_small; lia.
Qed.

Lemma onesComplementSum_norm data :
  is_bytes data -> 32768 * zlen data + 32768 < 2 ^ 32 ->
  onesComplementSum data = 65535 - norm16 (wsum (words data)).
Proof.
  intros Hd Hb. change (onesComplementSum data) with (onesComplementSumFold data 0).
  by rewrite onesComplementSumFold_norm by (done || lia).
Qed.

Lemma onesComplementSumFold_range data init :
  is_bytes data -> 0 <= init -> init + 32768 * zlen data + 32768 < 2 ^ 32 ->
  0 <= onesComplementSumFold data init <= 65535.
Proof.
  intros Hd Hi Hb. rewrite onesComplementSumFold_norm by done.
  pose proof (wsum_words_bound data Hd).
  pose proof (norm16_range (init + wsum (words data)) ltac:(lia)). lia.
Qed.

(** ** Writing a checksum into its field *)

Lemma words_put_at o a b l :
  Nat.Even o -> (o + 2 <= length l)%nat ->
  words (put_at o [a; b] l) = words (take o l) ++ (a * 256 + b) :: words (drop (o + 2) l).
Proof.
  intros He Hl. unfold put_at. rewrite words_app by (rewrite length_take; by replace (o `min` length l)%nat with o by lia).
  done.
Qed.

Lemma wsum_words_put_at o a b l :
  Nat.Even o -> (o + 2 <= length l)%nat ->
  wsum (words (put_at o [a; b] l)) = wsum (words (put_at o [0; 0] l)) + (a * 256 + b).
Proof. intros He Hl. rewrite !words_put_at, !wsum_app by done. unfold wsum. simpl. lia. Qed.

Lemma be_bytes_2 c : be_bytes 2 c = [(c / 256) mod 256; c mod 256].
Proof. simpl. by rewrite Z.div_1_r. Qed.

Lemma wsum_words_put_be o c l :
  Nat.Even o -> (o + 2 <= length l)%nat -> 0 <= c < 65536 ->
  wsum (words (put_at o (be_bytes 2 c) l)) = wsum (words (put_at o [0; 0] l)) + c.
Proof.
  intros He Hl Hc. rewrite be_bytes_2, wsum_words_put_at by done.
  rewrite (Z.mod_small (c / 256)) by (split; [apply Z.div_pos|apply Z.div_lt_upper_bound]; lia).
  pose proof (Z_div_mod_eq_full c 256). lia.
Qed.

(** The sum of [pre] (the pseudo header) and of the data with a cleared field,
    complemented and stored in the field, verifies. *)
Lemma checksum_field_verifies pre o l c :
  Forall (fun w => 0 <= w <= 65535) pre -> is_bytes l ->
  Nat.Even o -> (o + 2 <= length l)%nat ->
  c = 65535 - norm16 (wsum pre + wsum (words (put_at o [0; 0] l))) ->
  verifies (pre ++ words (put_at o (be_bytes 2 c) l)).
Proof.
  intros Hpre Hl He Ho ->.
  assert (is_bytes (put_at o [0; 0] l)) as H0.
  { apply is_bytes_put_at; [|done]. bytes_lit. }
  pose proof (wsum_words_bound _ H0).
  assert (0 <= wsum pre).
  { apply wsum_nonneg. eapply Forall_impl; [exact Hpre|]. simpl. lia. }
  set (S := wsum pre + wsum (words (put_at o [0; 0] l))).
  pose proof (norm16_range S ltac:(lia)).
  rewrite verifies_norm.
  - rewrite wsum_app, wsum_words_put_be by (done || lia).
    rewrite Z.add_assoc. fold S. apply norm16_complete. lia.
  - apply Forall_app. split; [done|]. apply words_bound. auto with wire.
Qed.

(** ** Pseudo headers *)

Lemma word16_at a l i :
  is_bytes l -> (i < length l)%nat -> 0 <= a -> word16 a (at_ l i) = a * 256 + at_ l i.
Proof.
  intros Hl Hi Ha. apply word16_bytes; [done|].
  unfold at_. eapply Forall_forall in Hl; [exact Hl|].
  apply list_elem_of_In, nth_In. lia.
Qed.

Definition ip4 (a : bytes) : Prop := length a = 4%nat /\ is_bytes a.
Definition ip6 (a : bytes) : Prop := length a = 16%nat /\ is_bytes a.

(** Takes an address of known length apart into its bytes. *)
Ltac explode a :=
  repeat (destruct a as [|? a]; simpl length in *; try lia).

Lemma wsum_pseudo4 src dst proto len :
  ip4 src -> ip4 dst -> is_byte proto -> 0 <= len <= 65535 ->
  pseudoChecksum src dst proto len = wsum (pseudo4_words src dst proto len) /\
  0 <= pseudoChecksum src dst proto len <= 6 * 65535.
Proof.
  intros [Ls Hs] [Ld Hd] Hp Hlen. unfold is_byte in Hp.
  explode src. explode dst.
  unfold is_bytes in Hs, Hd. rewrite !Forall_cons in Hs, Hd.
  destruct Hs as (S0 & S1 & S2 & S3 & _), Hd as (D0 & D1 & D2 & D3 & _).
  unfold pseudoChecksum, pseudo4_words, at_. rewrite be_bytes_2. cbn [nth app words].
  rewrite !word16_bytes by (done || (unfold is_byte in *; lia)).
  unfold is_byte in *.
  rewrite (Z.mod_small (len / 256)) by (split; [apply Z.div_pos|apply Z.div_lt_upper_bound]; lia).
  pose proof (Z_div_mod_eq_full len 256).
  rewrite wrapu_small by lia. unfold wsum. cbn [foldr]. lia.
Qed.

Lemma sumAddr_eq n a s :
  is_bytes a -> length a = (2 * n)%nat -> 0 <= s -> s + 65536 * Z.of_nat n < 2 ^ 32 ->
  sumAddr n s a = s + wsum (words a).
Proof.
  revert a s. induction n as [|n IH]; intros a s Ha Hl Hs Hb.
  - destruct a; [|simpl in Hl; lia]. unfold wsum. simpl. lia.
  - destruct a as [|x [|y r]]; simpl in Hl; try lia.
    inversion Ha as [|? ? Hx H2]; inversion H2 as [|? ? Hy Hr]; subst.
    cbn [sumAddr drop at_ nth words]. unfold is_byte in Hx.
    rewrite word16_bytes by (done || lia). unfold is_byte in Hy.
    rewrite wrapu_small by lia. change (drop 0 r) with r. rewrite IH by (done || lia).
    unfold wsum. cbn [foldr]. lia.
Qed.

(** The IPv6 pseudo header of the code adds the upper half of the 32-bit length,
    which is zero, in place of the length. *)
Lemma pseudoChecksum6_eq src dst proto len :
  ip6 src -> ip6 dst -> is_byte proto -> 0 <= len <= 65535 ->
  pseudoChecksum6 src dst proto len = wsum (words src) + wsum (words dst) + proto /\
  0 <= pseudoChecksum6 src dst proto len <= 19 * 65535.
Proof.
  intros [Ls Hs] [Ld Hd] Hp Hlen. unfold is_byte in Hp.
  pose proof (wsum_words_bound src Hs) as Bs. pose proof (wsum_words_bound dst Hd) as Bd.
  unfold zlen in Bs, Bd. rewrite Ls in Bs. rewrite Ld in Bd.
  assert (E : word16 (at_ (be_bytes 4 len) 0) (at_ (be_bytes 4 len) 1) = 0).
  { unfold at_. cbn [be_bytes nth].
    rewrite (Z.div_small len (256 ^ Z.of_nat 3)), (Z.div_small len (256 ^ Z.of_nat 2)) by lia.
    reflexivity. }
  unfold pseudoChecksum6. rewrite E.
  rewrite (sumAddr_eq 8 src) by (done || lia).
  rewrite (sumAddr_eq 8 dst) by (done || lia).
  rewrite !Z.add_0_r.
  rewrite !(wrapu_small 32 (0 + _ + _)) by lia.
  rewrite wrapu_small by lia. lia.
Qed.

Lemma wsum_pseudo6 src dst proto len :
  ip6 src -> ip6 dst -> is_byte proto -> 0 <= len <= 65535 ->
  wsum (pseudo6_words src dst proto len) = pseudoChecksum6 src dst proto len + len /\
  Forall (fun w => 0 <= w <= 65535) (pseudo6_words src dst proto len).
Proof.
  intros Hs Hd Hp Hlen.
  destruct (pseudoChecksum6_eq src dst proto len) as [-> _]; try done.
  destruct Hs as [Ls Hs], Hd as [Ld Hd]. unfold is_byte in Hp.
  split.
  - unfold pseudo6_words.
    rewrite !words_app by (exists 8%nat; lia).
    rewrite !wsum_app.
    enough (wsum (words (be_bytes 4 len ++ [0; 0; 0; proto])) = proto + len) by lia.
    cbn [be_bytes app words].
    rewrite (Z.div_small len (256 ^ Z.of_nat 3)), (Z.div_small len (256 ^ Z.of_nat 2)) by lia.
    change (256 ^ Z.of_nat 1) with 256. change (256 ^ Z.of_nat 0) with 1.
    rewrite Z.div_1_r, (Z.mod_small (len / 256))
      by (split; [apply Z.div_pos|apply Z.div_lt_upper_bound]; lia).
    pose proof (Z_div_mod_eq_full len 256). unfold wsum. cbn [foldr]. change (0 mod 256) with 0. lia.
  - apply words_bound. rewrite !is_bytes_app. repeat split; auto with wire.
    bytes_lit.
Qed.

(** ** What the checksum functions compute *)

(** [onesComplementSum] is the RFC 1071 checksum of the data, for every data
    that fits an IP packet. *)
Theorem onesComplementSum_rfc1071 data :
  is_bytes data -> zlen data <= 65535 ->
  onesComplementSum data = rfc1071 (words data).
Proof.
  intros Hd Hl. rewrite onesComplementSum_norm, rfc1071_norm by (done || lia || by apply words_bound).
  done.
Qed.

(** Over the sum of the IPv4 pseudo header, [onesComplementSumFold] is the RFC 793
    transport checksum. *)
Theorem transport4_rfc793 src dst proto data :
  ip4 src -> ip4 dst -> is_byte proto -> is_bytes data -> zlen data <= 65535 ->
  onesComplementSumFold data (pseudoChecksum src dst proto (zlen data)) =
  rfc1071 (pseudo4_words src dst proto (zlen data) ++ words data).
Proof.
  intros Hs Hd Hp Hb Hl. pose proof (zlen_nonneg data).
  destruct (wsum_pseudo4 src dst proto (zlen data)) as [E B]; try done.
  rewrite onesComplementSumFold_norm by (done || lia).
  rewrite rfc1071_norm, wsum_app, E; [done|].
  apply Forall_app. split; [|by apply words_bound].
  apply words_bound. destruct Hs, Hd.
  rewrite !is_bytes_app. repeat split; auto with wire. bytes_lit.
Qed.

Lemma pseudo4_bound src dst proto len :
  ip4 src -> ip4 dst -> is_byte proto ->
  Forall (fun w => 0 <= w <= 65535) (pseudo4_words src dst proto len).
Proof.
  intros [_ Hs] [_ Hd] Hp. apply words_bound.
  rewrite !is_bytes_app. repeat split; auto with wire. bytes_lit.
Qed.

Lemma onesComplementSum_rfc1071_witness :
  onesComplementSum [0x45; 0; 0; 0x73; 1] = rfc1071 (words [0x45; 0; 0; 0x73; 1]).
Proof. apply onesComplementSum_rfc1071; [bytes_lit|vm_compute; congruence]. Defined.

Lemma transport4_rfc793_witness :
  onesComplementSumFold [1; 2; 3] (pseudoChecksum [10; 0; 0; 1] [10; 0; 0; 2] 17 (zlen [1; 2; 3])) =
  rfc1071 (pseudo4_words [10; 0; 0; 1] [10; 0; 0; 2] 17 (zlen [1; 2; 3]) ++ words [1; 2; 3]).
Proof.
  apply transport4_rfc793; [split; [done|bytes_lit]..|unfold is_byte; lia|bytes_lit|vm_compute; congruence].
Defined.
