(* ===== verification/Packets.v ===== *)
(** * IP packets the kernel tun device builds (src/fbvirtun)

    The IPv4 and IPv6 packet builders of virtun_tcp.go and virtun_udp.go, the
    in-place ICMP writers of virtun_icmp.go and the checksum fix-ups of
    virtun.go.  An index or a slice expression out of range is a [Panic]: [need k n]
    stands before the reads and writes of the first [k] bytes of a slice of [n], where
    [n] is the length of the slice for an index and for [s[i:]], its capacity for
    [s[i:j]]. *)

From S2P Require Import Prelude Checksum.

(** The bounds check of the runtime. *)
Definition need (k n : nat) : res unit := if (k <=? n)%nat then Ok tt else Panic.

Lemma need_ok k n : (k <= n)%nat -> need k n = Ok tt.
Proof. intros Hk. unfold need. by destruct (Nat.leb_spec k n); [|lia]. Qed.

Lemma need_panic k n : (n < k)%nat -> need k n = Panic.
Proof. intros Hk. unfold need. by destruct (Nat.leb_spec k n); [lia|]. Qed.

(** Code behind a bounds check that returned. *)
Lemma need_bind {A} k n (f : unit -> res A) a : rbind (need k n) f = Ok a -> (k <= n)%nat /\ f tt = Ok a.
Proof. unfold need. destruct (Nat.leb_spec k n); [done|done]. Qed.

(** Passes the checks whose bound follows from the context. *)
Ltac in_range := repeat (rewrite need_ok by lia; cbn [rbind]).

(** The bounds checks of a run that returned are behind it. *)
Ltac checked E := repeat (apply need_bind in E as [_ E]).

Definition protoTCP : Z := 6.
Definition protoUDP : Z := 17.
Definition protoICMP : Z := 1.
Definition protoICMPv6 : Z := 58.

(** ** Builders

    [buildPacket4] and [buildUDP4] are the same code with the protocol number and
    the offset of the checksum field changed ([16:18] and [6:8]); so are
    [buildPacket6] and [buildUDP6]. *)
Definition header4 (proto totalLen : Z) (srcIP dstIP : bytes) : bytes :=
  let ip := replicate 20 0 in
  let ip := put_at 0 [0x45] ip in
  let ip := put_at 2 (be_bytes 2 totalLen) ip in
  let ip := put_at 8 [64] ip in
  let ip := put_at 9 [proto] ip in
  let ip := put_at 12 srcIP ip in
  let ip := put_at 16 dstIP ip in
  let ip := put_at 10 (be_bytes 2 0) ip in
  put_at 10 (be_bytes 2 (onesComplementSum ip)) ip.

Definition header6 (proto payLen : Z) (srcIP dstIP : bytes) : bytes :=
  let ip := replicate 40 0 in
  let ip := put_at 0 [0x60] ip in
  let ip := put_at 4 (be_bytes 2 payLen) ip in
  let ip := put_at 6 [proto] ip in
  let ip := put_at 7 [64] ip in
  let ip := put_at 8 srcIP ip in
  put_at 24 dstIP ip.

(** The transport part: the checksum field at [off] is cleared, the checksum over
    the pseudo sum [psum] computed and stored. *)
Definition sealL4 (off : nat) (psum : Z) (seg : bytes) : bytes :=
  let c := put_at off (be_bytes 2 0) seg in
  put_at off (be_bytes 2 (onesComplementSumFold c psum)) c.

Definition build4 (proto : Z) (off : nat) (srcIP dstIP seg : bytes) : res bytes :=
  let ip := header4 proto (20 + zlen seg) srcIP dstIP in
  if (length seg <? off + 2)%nat then Panic
  else Ok (ip ++ sealL4 off (pseudoChecksum srcIP dstIP proto (wrapu 16 (zlen seg))) seg).

Definition build6 (proto : Z) (off : nat) (srcIP dstIP seg : bytes) : res bytes :=
  let ip := header6 proto (zlen seg) srcIP dstIP in
  if (length seg <? off + 2)%nat then Panic
  else Ok (ip ++ sealL4 off (pseudoChecksum6 srcIP dstIP proto (wrapu 16 (zlen seg))) seg).

Definition buildPacket4 : bytes -> bytes -> bytes -> res bytes := build4 protoTCP 16.
Definition buildPacket6 : bytes -> bytes -> bytes -> res bytes := build6 protoTCP 16.
Definition buildUDP4 : bytes -> bytes -> bytes -> res bytes := build4 protoUDP 6.
Definition buildUDP6 : bytes -> bytes -> bytes -> res bytes := build6 protoUDP 6.

(** ** In-place writers

    They work on the read buffer: [buf] is the buffer from the start of the
    packet to the end of its capacity, [n] the length of the packet. *)
Definition fixIPChecksum (buf : bytes) (n : nat) : res bytes :=
  let! _ := need 12 n in
  let ihl := Z.to_nat (Z.land (at_ buf 0) 15 * 4) in
  let buf := put_at 10 [0; 0] buf in
  let! _ := need ihl (length buf) in
  Ok (put_at 10 (be_bytes 2 (onesComplementSum (sub buf 0 ihl))) buf).

(** [fixTCPChecksum] and [fixUDPChecksum] on [pkt] of length [n]: [min] is the
    length of the transport header, [off] the offset of its checksum. *)
Definition fixL4Checksum (proto : Z) (minlen off : nat) (buf : bytes) (n ihl : nat) : res bytes :=
  if (n <? ihl + minlen)%nat then Ok buf
  else
    let totalLen := wrapu 16 (Z.of_nat n - Z.of_nat ihl) in
    let! _ := need (ihl + off + 2) n in
    let! _ := need 20 (length buf) in
    let buf := put_at (ihl + off) [0; 0] buf in
    let psum := pseudoChecksum (sub buf 12 4) (sub buf 16 4) proto totalLen in
    let csum := onesComplementSumFold (sub buf ihl (n - ihl)) psum in
    Ok (put_at (ihl + off) (be_bytes 2 csum) buf).

Definition fixTCPChecksum : bytes -> nat -> nat -> res bytes := fixL4Checksum protoTCP 20 16.
Definition fixUDPChecksum : bytes -> nat -> nat -> res bytes := fixL4Checksum protoUDP 8 6.

Definition swap4 (buf : bytes) : bytes :=
  let tmp := sub buf 12 4 in
  let buf := put_at 12 (sub buf 16 4) buf in
  put_at 16 tmp buf.

Definition swap6 (buf : bytes) : bytes :=
  let tmp := sub buf 8 16 in
  let buf := put_at 8 (sub buf 24 16) buf in
  put_at 24 tmp buf.

(** [copy(pkt[off:], bs)] with [len(pkt) = n]: [pkt[off:]] panics past the end of
    the packet, and [copy] stops at it. *)
Definition copyAt (n off : nat) (bs buf : bytes) : res bytes :=
  let! _ := need off n in Ok (put_at off (take (n - off) bs) buf).

Definition writeICMPEchoReply4 (buf : bytes) (n ihl : nat) : res bytes :=
  let! _ := need 20 (length buf) in
  let buf := swap4 buf in
  let! _ := need (ihl + 4) n in
  let buf := put_at ihl [0; 0; 0; 0] buf in
  let csum := onesComplementSum (sub buf ihl (n - ihl)) in
  fixIPChecksum (put_at (ihl + 2) (be_bytes 2 csum) buf) n.

(** [writeICMPDestUnreach4] (type 3) and [writeICMPTimeExceed4] (type 11). *)
Definition writeICMPError4 (typ : Z) (buf : bytes) (n ihl : nat) (code : Z) : res bytes :=
  let! _ := need (ihl + 8) (length buf) in
  let origHdr := sub buf 0 ihl in
  let origIcmp := sub buf ihl 8 in
  let! _ := need 20 (length buf) in
  let buf := swap4 buf in
  let! _ := need (ihl + 8) n in
  let totalLen := (ihl + 8 + ihl + 8)%nat in
  let buf := put_at 2 (be_bytes 2 (Z.of_nat totalLen)) buf in
  let buf := put_at ihl [typ; code; 0; 0; 0; 0; 0; 0] buf in
  let! buf := copyAt n (ihl + 8) origHdr buf in
  let! buf := copyAt n (ihl + 8 + ihl) origIcmp buf in
  let icmpLen := (8 + ihl + 8)%nat in
  let! _ := need (ihl + icmpLen) (length buf) in
  let buf := put_at (ihl + 2) [0; 0] buf in
  let csum := onesComplementSum (sub buf ihl icmpLen) in
  fixIPChecksum (put_at (ihl + 2) (be_bytes 2 csum) buf) n.

Definition writeICMPDestUnreach4 := writeICMPError4 3.
Definition writeICMPTimeExceed4 := writeICMPError4 11.

Definition writeICMPEchoReply6 (buf : bytes) (n : nat) : res bytes :=
  let! _ := need 40 (length buf) in
  let buf := swap6 buf in
  let! _ := need 44 n in
  let buf := put_at 40 [129; 0; 0; 0] buf in
  let icmp := sub buf 40 (n - 40) in
  let psum := pseudoChecksum6 (sub buf 8 16) (sub buf 24 16) protoICMPv6
                (wrapu 16 (zlen icmp)) in
  Ok (put_at 42 (be_bytes 2 (onesComplementSumFold icmp psum)) buf).

(** [writeICMPDestUnreach6] (type 1) and [writeICMPTimeExceed6] (type 3). *)
Definition writeICMPError6 (typ : Z) (buf : bytes) (n : nat) (code : Z) : res bytes :=
  let! _ := need 48 (length buf) in
  let origHdr := sub buf 0 40 in
  let origIcmp := sub buf 40 8 in
  let buf := swap6 buf in
  let! _ := need 48 n in
  let payLen := 56%nat in
  let buf := put_at 4 (be_bytes 2 (Z.of_nat payLen)) buf in
  let buf := put_at 40 [typ; code; 0; 0; 0; 0; 0; 0] buf in
  let! buf := copyAt n 48 origHdr buf in
  let! buf := copyAt n 88 origIcmp buf in
  let! _ := need 96 (length buf) in
  let buf := put_at 42 [0; 0] buf in
  let icmp := sub buf 40 56 in
  let psum := pseudoChecksum6 (sub buf 8 16) (sub buf 24 16) protoICMPv6 56 in
  Ok (put_at 42 (be_bytes 2 (onesComplementSumFold icmp psum)) buf).

Definition writeICMPDestUnreach6 := writeICMPError6 1.
Definition writeICMPTimeExceed6 := writeICMPError6 3.

(** ** Sealing: the transport checksum of a built packet *)

Lemma length_sealL4 off psum seg :
  (off + 2 <= length seg)%nat -> length (sealL4 off psum seg) = length seg.
Proof. intros H. unfold sealL4. rewrite !length_put_at; len. Qed.

Lemma is_bytes_zero2 : is_bytes [0; 0].
Proof. bytes_lit. Qed.
#[export] Hint Resolve is_bytes_zero2 : wire.

Lemma put_at_twice off bs cs l :
  length bs = length cs -> (off + length cs <= length l)%nat ->
  put_at off bs (put_at off cs l) = put_at off bs l.
Proof.
  intros E H. unfold put_at.
  rewrite take_app_le, take_take by (rewrite length_take; lia).
  f_equal; [f_equal; lia|]. f_equal.
  rewrite app_assoc, drop_app_ge by (rewrite length_app, length_take; lia).
  rewrite length_app, length_take, drop_drop. f_equal. lia.
Qed.

Lemma sealL4_eq off psum seg :
  (off + 2 <= length seg)%nat ->
  sealL4 off psum seg =
  put_at off (be_bytes 2 (onesComplementSumFold (put_at off [0; 0] seg) psum)) seg.
Proof.
  intros H. unfold sealL4. change (be_bytes 2 0) with [0; 0]. by rewrite put_at_twice by len.
Qed.

Lemma sealL4_verifies off pre seg :
  Forall (fun w => 0 <= w <= 65535) pre -> is_bytes seg -> Nat.Even off ->
  (off + 2 <= length seg)%nat -> zlen seg <= 65535 -> wsum pre <= 20 * 65535 ->
  verifies (pre ++ words (sealL4 off (wsum pre) seg)).
Proof.
  intros Hp Hs He Ho Hl Hw. rewrite sealL4_eq by done.
  apply checksum_field_verifies; try done.
  assert (0 <= wsum pre).
  { apply wsum_nonneg. eapply Forall_impl; [exact Hp|]. simpl. lia. }
  unfold zlen in *. apply onesComplementSumFold_norm; auto with wire.
  unfold zlen. rewrite length_put_at; len.
Qed.

Lemma sealL4_outside off psum seg :
  (off + 2 <= length seg)%nat ->
  take off (sealL4 off psum seg) = take off seg /\
  drop (off + 2) (sealL4 off psum seg) = drop (off + 2) seg.
Proof.
  intros H. rewrite sealL4_eq by done. unfold put_at. rewrite length_be_bytes.
  split.
  - rewrite take_app_le, take_take by (rewrite length_take; lia). f_equal. lia.
  - rewrite app_assoc, drop_app_ge by len. rewrite drop_drop. f_equal. len.
Qed.

Lemma is_bytes_sealL4 off psum seg : is_bytes seg -> is_bytes (sealL4 off psum seg).
Proof. intros H. unfold sealL4. auto with wire. Qed.

(** ** Headers *)

Lemma header4_spec proto total src dst :
  ip4 src -> ip4 dst -> is_byte proto ->
  let h := header4 proto total src dst in
  length h = 20%nat /\ is_bytes h /\ verifies (words h) /\
  at_ h 0 = 0x45 /\ sub h 2 2 = be_bytes 2 total /\ at_ h 9 = proto /\
  sub h 12 4 = src /\ sub h 16 4 = dst.
Proof.
  intros [Ls Hs] [Ld Hd] Hp h.
  set (h0 := [0x45; 0; (total / 256) mod 256; total mod 256; 0; 0; 0; 0; 64; proto; 0; 0]
             ++ src ++ dst).
  assert (h = put_at 10 (be_bytes 2 (onesComplementSum h0)) h0) as E.
  { subst h h0. unfold header4. rewrite (be_bytes_2 total). change (be_bytes 2 0) with [0; 0].
    explode src. explode dst. reflexivity. }
  assert (is_bytes h0) as H0.
  { unfold h0. rewrite !is_bytes_app. repeat split; try done.
    pose proof (is_bytes_be_bytes 2 total) as Hb. rewrite be_bytes_2 in Hb.
    unfold is_bytes in Hb. rewrite !Forall_cons in Hb. destruct Hb as (? & ? & _). bytes_lit. }
  assert (length h0 = 20%nat) as L0 by (unfold h0; len).
  assert (put_at 10 [0; 0] h0 = h0) as Z0.
  { unfold h0. explode src. explode dst. reflexivity. }
  clearbody h. subst h. split; [rewrite length_put_at; len|].
  split; [auto with wire|]. split.
  { change (words (put_at 10 (be_bytes 2 (onesComplementSum h0)) h0))
      with ([] ++ words (put_at 10 (be_bytes 2 (onesComplementSum h0)) h0)).
    apply checksum_field_verifies; try done; [by exists 5%nat|lia|].
    rewrite Z0. change (wsum []) with 0. rewrite Z.add_0_l.
    apply onesComplementSum_norm; [done|]. unfold zlen. lia. }
  generalize (onesComplementSum h0). intros c. rewrite !be_bytes_2.
  unfold h0. explode src. explode dst. repeat split.
Qed.

Lemma header6_spec proto pay src dst :
  ip6 src -> ip6 dst -> is_byte proto ->
  let h := header6 proto pay src dst in
  length h = 40%nat /\ is_bytes h /\
  at_ h 0 = 0x60 /\ sub h 4 2 = be_bytes 2 pay /\ at_ h 6 = proto /\
  sub h 8 16 = src /\ sub h 24 16 = dst.
Proof.
  intros [Ls Hs] [Ld Hd] Hp h.
  assert (h = [0x60; 0; 0; 0; (pay / 256) mod 256; pay mod 256; proto; 64] ++ src ++ dst) as E.
  { subst h. unfold header6. rewrite be_bytes_2. explode src. explode dst. reflexivity. }
  clearbody h. subst h. split; [len|]. split.
  { rewrite !is_bytes_app. repeat split; try done.
    pose proof (is_bytes_be_bytes 2 pay) as Hb. rewrite be_bytes_2 in Hb.
    unfold is_bytes in Hb. rewrite !Forall_cons in Hb. destruct Hb as (? & ? & _). bytes_lit. }
  rewrite be_bytes_2. explode src. explode dst. repeat split.
Qed.

(** ** Built packets *)

(** [l4] is [seg] except for the two checksum bytes at [off]. *)
Definition carries (off : nat) (seg l4 : bytes) : Prop :=
  length l4 = length seg /\ take off l4 = take off seg /\
  drop (off + 2) l4 = drop (off + 2) seg.

(** A receiver accepts [pkt] as an IPv4 packet from [src] to [dst] carrying [seg]:
    version and header length, total length, protocol, addresses, and both
    checksums. *)
Record valid4 (proto : Z) (off : nat) (src dst seg pkt : bytes) : Prop := {
  v4_version : at_ pkt 0 = 0x45;
  v4_length : be_val (sub pkt 2 2) = zlen pkt;
  v4_proto : at_ pkt 9 = proto;
  v4_src : sub pkt 12 4 = src;
  v4_dst : sub pkt 16 4 = dst;
  v4_header : verifies (words (take 20 pkt));
  v4_payload : carries off seg (drop 20 pkt);
  v4_checksum : verifies (pseudo4_words src dst proto (zlen seg) ++ words (drop 20 pkt))
}.

(** The same for IPv6, whose header has no checksum; [len] is the length the
    pseudo header states. *)
Record valid6 (proto : Z) (off : nat) (src dst seg : bytes) (len : Z) (pkt : bytes) : Prop := {
  v6_version : at_ pkt 0 = 0x60;
  v6_length : be_val (sub pkt 4 2) = zlen pkt - 40;
  v6_proto : at_ pkt 6 = proto;
  v6_src : sub pkt 8 16 = src;
  v6_dst : sub pkt 24 16 = dst;
  v6_payload : carries off seg (drop 40 pkt);
  v6_checksum : verifies (pseudo6_words src dst proto len ++ words (drop 40 pkt))
}.

Lemma at_app_l l k i : (i < length l)%nat -> at_ (l ++ k) i = at_ l i.
Proof. intros H. unfold at_. by apply app_nth1. Qed.

Lemma sub_app_l l k i n : (i + n <= length l)%nat -> sub (l ++ k) i n = sub l i n.
Proof.
  intros H. unfold sub. rewrite drop_app_le by lia.
  rewrite take_app_le by (rewrite length_drop; lia). done.
Qed.

Lemma be_val_be_bytes_2 v : 0 <= v <= 65535 -> be_val (be_bytes 2 v) = v.
Proof. intros H. apply be_val_be_bytes_small. change (256 ^ Z.of_nat 2) with 65536. lia. Qed.

Lemma carries_sealL4 off psum seg :
  (off + 2 <= length seg)%nat -> carries off seg (sealL4 off psum seg).
Proof.
  intros H. destruct (sealL4_outside off psum seg H).
  split; [by apply length_sealL4|done].
Qed.

Lemma build4_valid proto off src dst seg :
  ip4 src -> ip4 dst -> is_byte proto -> is_bytes seg -> 20 + zlen seg <= 65535 ->
  Nat.Even off -> (off + 2 <= length seg)%nat ->
  exists pkt, build4 proto off src dst seg = Ok pkt /\ valid4 proto off src dst seg pkt.
Proof.
  intros Hs Hd Hp Hb Hl He Ho. pose proof (zlen_nonneg seg).
  unfold build4. destruct (Nat.ltb_spec (length seg) (off + 2)); [lia|].
  eexists; split; [reflexivity|].
  rewrite (wrapu_small 16) by lia.
  destruct (header4_spec proto (20 + zlen seg) src dst Hs Hd Hp)
    as (L & _ & Hv & F0 & F2 & F9 & F12 & F16).
  set (h := header4 _ _ _ _) in *. clearbody h.
  destruct (wsum_pseudo4 src dst proto (zlen seg)) as [E Bd]; try done; [lia|].
  assert (forall x, take 20 (h ++ x) = h) as Et.
  { intros x. rewrite take_app_le, take_ge by lia. done. }
  assert (forall x, drop 20 (h ++ x) = x) as Ed.
  { intros x. rewrite <- L. apply drop_app_length. }
  split; rewrite ?Et, ?Ed, ?at_app_l, ?sub_app_l by lia; try done.
  - rewrite F2, be_val_be_bytes_2 by lia. rewrite zlen_app. unfold zlen in *.
    rewrite length_sealL4 by done. lia.
  - by apply carries_sealL4.
  - rewrite E. apply sealL4_verifies; try done; try lia.
    by apply pseudo4_bound.
Qed.

(** The TCP and UDP packets the device writes into the kernel over IPv4 are valid:
    the lengths, the addresses, the header checksum and the transport checksum
    are right, and the segment is carried unchanged. *)
Theorem packets4_valid src dst seg :
  ip4 src -> ip4 dst -> is_bytes seg -> 20 + zlen seg <= 65535 ->
  ((18 <= length seg)%nat ->
   exists pkt, buildPacket4 src dst seg = Ok pkt /\ valid4 protoTCP 16 src dst seg pkt) /\
  ((8 <= length seg)%nat ->
   exists pkt, buildUDP4 src dst seg = Ok pkt /\ valid4 protoUDP 6 src dst seg pkt).
Proof.
  intros Hs Hd Hb Hl. split; intros Ho; apply build4_valid; try done;
    try (unfold is_byte, protoTCP, protoUDP; lia); [by exists 8%nat|by exists 3%nat].
Qed.

Lemma build6_valid0 proto off src dst seg :
  ip6 src -> ip6 dst -> is_byte proto -> is_bytes seg -> zlen seg <= 65535 ->
  Nat.Even off -> (off + 2 <= length seg)%nat ->
  exists pkt, build6 proto off src dst seg = Ok pkt /\ valid6 proto off src dst seg 0 pkt.
Proof.
  intros Hs Hd Hp Hb Hl He Ho. pose proof (zlen_nonneg seg).
  unfold build6. destruct (Nat.ltb_spec (length seg) (off + 2)); [lia|].
  eexists; split; [reflexivity|].
  rewrite (wrapu_small 16) by lia.
  destruct (header6_spec proto (zlen seg) src dst Hs Hd Hp)
    as (L & _ & F0 & F4 & F6 & F8 & F24).
  set (h := header6 _ _ _ _) in *. clearbody h.
  destruct (wsum_pseudo6 src dst proto 0) as [E Bd]; try done.
  destruct (pseudoChecksum6_eq src dst proto 0) as [E0 B0]; try done.
  destruct (pseudoChecksum6_eq src dst proto (zlen seg)) as [E1 _]; try done.
  assert (forall x, drop 40 (h ++ x) = x) as Ed.
  { intros x. rewrite <- L. apply drop_app_length. }
  split; rewrite ?Ed, ?at_app_l, ?sub_app_l by lia; try done.
  - rewrite F4, be_val_be_bytes_2 by lia. rewrite zlen_app. unfold zlen in *.
    rewrite length_sealL4 by done. lia.
  - by apply carries_sealL4.
  - rewrite E1, <- E0. replace (pseudoChecksum6 src dst proto 0)
      with (wsum (pseudo6_words src dst proto 0)) by lia.
    apply sealL4_verifies; try done; lia.
Qed.

Lemma valid6_len_unique proto off src dst seg len pkt :
  ip6 src -> ip6 dst -> is_byte proto -> is_bytes (drop 40 pkt) -> 0 < len < 65535 ->
  valid6 proto off src dst seg 0 pkt -> ~ valid6 proto off src dst seg len pkt.
Proof.
  intros Hs Hd Hp Hb Hl V0 V.
  apply v6_checksum in V0, V.
  destruct (wsum_pseudo6 src dst proto 0) as [E0 B0]; try done.
  destruct (wsum_pseudo6 src dst proto len) as [E B]; try done; [lia|].
  destruct (pseudoChecksum6_eq src dst proto 0) as [C0 R0]; try done.
  destruct (pseudoChecksum6_eq src dst proto len) as [C R]; try done; [lia|].
  pose proof (wsum_words_bound _ Hb).
  rewrite verifies_norm, wsum_app in V0, V
    by (apply Forall_app; split; [done|by apply words_bound]).
  apply norm16_all_ones in V0, V; try lia.
  destruct V0 as [V0 _], V as [V _].
  rewrite E0, Z.add_0_r in V0. rewrite E, C, <- C0 in V.
  set (s := pseudoChecksum6 src dst proto 0 + wsum (words (drop 40 pkt))) in *.
  replace (pseudoChecksum6 src dst proto 0 + len + wsum (words (drop 40 pkt)))
    with (s + len) in V by lia.
  rewrite <- Z.add_mod_idemp_l, V0, Z.add_0_l, Z.mod_small in V by lia. lia.
Qed.

(** The IPv6 builders compute a checksum the receiver rejects: it is the checksum
    for a pseudo header stating length 0, because [pseudoChecksum6] adds the upper
    half of the 32-bit length only.  For no segment does the packet verify against
    the pseudo header of RFC 8200, which states the segment's length. *)
Theorem packets6_checksum_rejected src dst seg :
  ip6 src -> ip6 dst -> is_bytes seg -> zlen seg < 65535 ->
  ((18 <= length seg)%nat ->
   exists pkt, buildPacket6 src dst seg = Ok pkt /\
     valid6 protoTCP 16 src dst seg 0 pkt /\
     ~ verifies (pseudo6_words src dst protoTCP (zlen seg) ++ words (drop 40 pkt))) /\
  ((8 <= length seg)%nat ->
   exists pkt, buildUDP6 src dst seg = Ok pkt /\
     valid6 protoUDP 6 src dst seg 0 pkt /\
     ~ verifies (pseudo6_words src dst protoUDP (zlen seg) ++ words (drop 40 pkt))).
Proof.
  assert (forall proto off, is_byte proto -> Nat.Even off ->
    ip6 src -> ip6 dst -> is_bytes seg -> zlen seg < 65535 -> (off + 2 <= length seg)%nat ->
    exists pkt, build6 proto off src dst seg = Ok pkt /\
      valid6 proto off src dst seg 0 pkt /\
      ~ verifies (pseudo6_words src dst proto (zlen seg) ++ words (drop 40 pkt))) as Hg.
  { intros proto off Hp He Hs Hd Hb Hl Ho.
    destruct (build6_valid0 proto off src dst seg) as (pkt & E & V); try done; [lia|].
    exists pkt. split; [done|]. split; [done|]. intros Hv.
    assert (is_bytes (drop 40 pkt)) as Hk.
    { unfold build6 in E. destruct (_ <? _)%nat; [done|]. apply Ok_inj in E as <-.
      destruct (header6_spec proto (zlen seg) src dst Hs Hd Hp) as (_ & Hh & _).
      apply is_bytes_drop, is_bytes_app. split; [done|]. by apply is_bytes_sealL4. }
    destruct V. apply (valid6_len_unique proto off src dst seg (zlen seg) pkt);
      try done; unfold zlen in *; lia. }
  intros Hs Hd Hb Hl.
  split; intros Ho; apply Hg; try done;
    try (unfold is_byte, protoTCP, protoUDP; lia); [by exists 8%nat|by exists 3%nat].
Qed.

(** ** ICMP errors over IPv4 *)

(** [fixIPChecksum] makes the header verify and touches only bytes 10 and 11. *)
Lemma fixIPChecksum_spec buf ihl :
  is_bytes buf -> ihl = Z.to_nat (Z.land (at_ buf 0) 15 * 4) ->
  (12 <= ihl <= length buf)%nat -> Nat.Even ihl -> (ihl <= 60)%nat ->
  forall m, (12 <= m)%nat -> exists out, fixIPChecksum buf m = Ok out /\ length out = length buf /\ is_bytes out /\
    verifies (words (sub out 0 ihl)) /\
    (forall i n, (12 <= i)%nat -> sub out i n = sub buf i n) /\
    (forall i n, (i + n <= 10)%nat -> sub out i n = sub buf i n).
Proof.
  intros Hb Hi Hl He H60 m Hm. unfold fixIPChecksum. rewrite <- Hi. in_range. rewrite need_ok by len. cbn [rbind].
  eexists; split; [reflexivity|].
  rewrite put_at_twice by len.
  split; [len|]. split; [auto with wire|]. split.
  - rewrite sub_put_at_inside by len.
    change (words (put_at (10 - 0) ?x ?y)) with ([] ++ words (put_at 10 x y)).
    apply checksum_field_verifies; [done|auto with wire|exists 5%nat; reflexivity|len|].
    change (wsum []) with 0. rewrite Z.add_0_l.
    rewrite onesComplementSum_norm; [|auto with wire|unfold zlen; len].
    rewrite sub_put_at_inside by len. done.
  - split; intros i n Hin; window; done.
Qed.

Lemma swap4_spec buf :
  is_bytes buf -> (20 <= length buf)%nat ->
  length (swap4 buf) = length buf /\ is_bytes (swap4 buf) /\
  sub (swap4 buf) 12 4 = sub buf 16 4 /\ sub (swap4 buf) 16 4 = sub buf 12 4 /\
  (forall i n, (20 <= i)%nat -> sub (swap4 buf) i n = sub buf i n) /\
  (forall i n, (i + n <= 12)%nat -> sub (swap4 buf) i n = sub buf i n).
Proof.
  intros Hb Hl. unfold swap4.
  split; [len|]. split; [auto with wire|]. repeat split; intros; window; done.
Qed.

Lemma header4_len_even x : Nat.Even (Z.to_nat (Z.land x 15 * 4)).
Proof.
  exists (Z.to_nat (Z.land x 15 * 2)).
  pose proof (proj2 (Z.land_nonneg x 15) ltac:(lia)). lia.
Qed.

(** An ICMP error is written over the packet that caused it. *)
Record icmp_error4 (typ code : Z) (buf : bytes) (ihl : nat) (out : bytes) : Prop := {
  ie4_length : be_val (sub out 2 2) = Z.of_nat (2 * ihl + 16);
  ie4_src : sub out 12 4 = sub buf 16 4;
  ie4_dst : sub out 16 4 = sub buf 12 4;
  ie4_type : sub out ihl 2 = [typ; code];
  ie4_quote : sub out (ihl + 8) (ihl + 8) = sub buf 0 (ihl + 8);
  ie4_header : verifies (words (sub out 0 ihl));
  ie4_icmp : verifies (words (sub out ihl (ihl + 16)))
}.

Lemma sub_split l i n m : sub l i (n + m) = sub l i n ++ sub l (i + n) m.
Proof. unfold sub. by rewrite <- take_take_drop, drop_drop. Qed.

Lemma at_0_take l k : take 1 l = take 1 k -> at_ l 0 = at_ k 0.
Proof. destruct l, k; simpl; intros E; by simplify_eq. Qed.

(** The last steps of every IPv4 ICMP writer: the checksum of the [k] ICMP bytes is
    stored, then the header is fixed up. *)
Lemma icmp4_sealed b ihl k :
  is_bytes b -> ihl = Z.to_nat (Z.land (at_ b 0) 15 * 4) -> (20 <= ihl <= 60)%nat ->
  (4 <= k)%nat -> (ihl + k <= length b)%nat -> zlen b <= 65535 ->
  let b0 := put_at (ihl + 2) [0; 0] b in
  let csum := onesComplementSum (sub b0 ihl k) in
  forall m, (12 <= m)%nat -> exists out, fixIPChecksum (put_at (ihl + 2) (be_bytes 2 csum) b0) m = Ok out /\
    length out = length b /\
    verifies (words (sub out 0 ihl)) /\ verifies (words (sub out ihl k)) /\
    (forall i n, (i + n <= 10)%nat -> sub out i n = sub b i n) /\
    (forall i n, (12 <= i)%nat -> (i + n <= ihl + 2)%nat -> sub out i n = sub b i n) /\
    (forall i n, (ihl + 4 <= i)%nat -> sub out i n = sub b i n).
Proof.
  intros Hb Hi Hl Hk Hlen Hz b0 csum m Hm. unfold zlen in Hz.
  pose proof (header4_len_even (at_ b 0)) as He. rewrite <- Hi in He.
  assert (put_at (ihl + 2) (be_bytes 2 csum) b0 = put_at (ihl + 2) (be_bytes 2 csum) b) as ->
    by (unfold b0; rewrite put_at_twice by len; done).
  destruct (fixIPChecksum_spec (put_at (ihl + 2) (be_bytes 2 csum) b) ihl) with (m := m)
    as (out & E & L & _ & Hv & Hge & Hle);
    [auto with wire|window; done|len|done|lia|done|].
  exists out. split; [exact E|]. split; [rewrite L; len|]. split; [exact Hv|].
  split; [|split; [|split]].
  - rewrite Hge, sub_put_at_inside by len.
    replace (ihl + 2 - ihl)%nat with 2%nat by lia.
    change (words ?x) with ([] ++ words x).
    apply checksum_field_verifies; [done|auto with wire|by exists 1%nat|len|].
    change (wsum []) with 0. rewrite Z.add_0_l. unfold csum, b0.
    rewrite onesComplementSum_norm; [|auto with wire|unfold zlen; len].
    rewrite sub_put_at_inside by len.
    by replace (ihl + 2 - ihl)%nat with 2%nat by lia.
  - intros i n H. rewrite Hle by lia. window. done.
  - intros i n H1 H2. rewrite Hge by lia. window. done.
  - intros i n H. rewrite Hge by lia. window. done.
Qed.

Lemma writeICMPError4_spec typ code buf n ihl :
  is_bytes buf -> zlen buf <= 65535 -> is_byte typ -> is_byte code ->
  ihl = Z.to_nat (Z.land (at_ buf 0) 15 * 4) -> (20 <= ihl)%nat ->
  (2 * ihl + 16 <= n <= length buf)%nat ->
  exists out, writeICMPError4 typ buf n ihl code = Ok out /\
    icmp_error4 typ code buf ihl out.
Proof.
  intros Hb Hl Ht Hc Hi H20 Hn. unfold zlen in Hl.
  pose proof (header4_len_even (at_ buf 0)) as He. rewrite <- Hi in He.
  assert (ihl <= 60)%nat as H60.
  { subst ihl.
    assert (Z.land (at_ buf 0) 15 = (at_ buf 0) mod 2 ^ 4) as -> by (apply (Z.land_ones _ 4); lia).
    pose proof (Z.mod_pos_bound (at_ buf 0) (2 ^ 4)). lia. }
  destruct (swap4_spec buf Hb ltac:(lia)) as (L1 & B1 & S12 & S16 & Sge & Sle).
  assert (take 1 (swap4 buf) = take 1 buf) as S0 by apply (Sle 0%nat 1%nat ltac:(lia)).
  unfold writeICMPError4, copyAt.
  set (b1 := swap4 buf) in *. clearbody b1. in_range.
  rewrite !take_ge by len.
  set (b5 := put_at (ihl + 8 + ihl) (sub buf ihl 8) _).
  assert (length b5 = length buf) as L5 by (unfold b5; len).
  assert (is_bytes b5) as B5.
  { unfold b5. repeat apply is_bytes_put_at; auto with wire. bytes_lit. }
  assert (at_ b5 0 = at_ buf 0) as A0.
  { unfold b5. window. by apply at_0_take. }
  assert (sub b5 2 2 = be_bytes 2 (Z.of_nat (ihl + 8 + ihl + 8))) as F2.
  { unfold b5. window. done. }
  assert (forall i k, (12 <= i)%nat -> (i + k <= ihl)%nat -> sub b5 i k = sub b1 i k) as F12.
  { intros i k Hk1 Hk2. unfold b5. window. done. }
  assert (sub b5 ihl 8 = [typ; code; 0; 0; 0; 0; 0; 0]) as F8.
  { unfold b5. window. done. }
  assert (sub b5 (ihl + 8) (ihl + 8) = sub buf 0 (ihl + 8)) as Fq.
  { rewrite !sub_split. unfold b5. window. done. }
  clearbody b5.
  in_range.
  destruct (icmp4_sealed b5 ihl (8 + ihl + 8)) with (m := n) as (out & E & L & Hv & Hi4 & Hlo & Hmid & Hhi);
    [done|by rewrite A0|lia|lia|lia|unfold zlen; lia|lia|].
  exists out. split; [exact E|]. split.
  - rewrite Hlo, F2 by lia. rewrite be_val_be_bytes_2 by lia. lia.
  - by rewrite Hmid, F12 by lia.
  - by rewrite Hmid, F12 by lia.
  - rewrite Hmid by lia. change 8%nat with (2 + 6)%nat in F8 at 1. rewrite (sub_split b5 ihl 2 6) in F8.
    assert (length (sub b5 ihl 2) = 2%nat) as L2 by len.
    destruct (sub b5 ihl 2) as [|x [|y [|]]]; try done. by simplify_eq/=.
  - by rewrite Hhi by lia.
  - done.
  - replace (ihl + 16)%nat with (8 + ihl + 8)%nat by lia. done.
Qed.

(** The error the device answers an unroutable echo request with (destination
    unreachable, time exceeded) is written over the request, addressed back to its
    sender, quotes its header and first 8 bytes, and both its checksums verify, as
    long as the request leaves room for the quotation.  With less room than that (an
    echo request of fewer than [ihl] data bytes) the slice expression
    [pkt[ihl+8+ihl:]] is out of range and the read loop panics. *)
Theorem icmp_error4_written typ code buf n ihl :
  is_bytes buf -> zlen buf <= 65535 -> is_byte typ -> is_byte code ->
  ihl = Z.to_nat (Z.land (at_ buf 0) 15 * 4) -> (20 <= ihl)%nat ->
  (n <= length buf)%nat ->
  ((2 * ihl + 16 <= n)%nat ->
   exists out, writeICMPError4 typ buf n ihl code = Ok out /\ icmp_error4 typ code buf ihl out) /\
  ((n < 2 * ihl + 8)%nat -> writeICMPError4 typ buf n ihl code = Panic).
Proof.
  intros Hb Hl Ht Hc Hi H20 Hn. split.
  - intros Hr. by apply writeICMPError4_spec.
  - intros Hr. unfold writeICMPError4, copyAt.
    destruct (need (ihl + 8) (length buf)) as [[]| |] eqn:E1; [|by unfold need in E1; case_match|done].
    cbn [rbind]. destruct (need 20 (length buf)) as [[]| |] eqn:E2; [|by unfold need in E2; case_match|done].
    cbn [rbind]. destruct (need (ihl + 8) n) as [[]| |] eqn:E3; [|by unfold need in E3; case_match|done].
    cbn [rbind]. by rewrite (need_panic (ihl + 8 + ihl) n) by lia.
Qed.


(** The echo reply: addresses reversed, type and code 0, identifier, sequence
    number and data as in the request, both checksums right. *)
Record echo_reply4 (buf : bytes) (n ihl : nat) (out : bytes) : Prop := {
  er4_src : sub out 12 4 = sub buf 16 4;
  er4_dst : sub out 16 4 = sub buf 12 4;
  er4_type : sub out ihl 2 = [0; 0];
  er4_data : sub out (ihl + 4) (n - ihl - 4) = sub buf (ihl + 4) (n - ihl - 4);
  er4_header : verifies (words (sub out 0 ihl));
  er4_icmp : verifies (words (sub out ihl (n - ihl)))
}.

Lemma ihl_bound x : (Z.to_nat (Z.land x 15 * 4) <= 60)%nat.
Proof.
  assert (Z.land x 15 = x mod 2 ^ 4) as -> by (apply (Z.land_ones _ 4); lia).
  pose proof (Z.mod_pos_bound x (2 ^ 4)). lia.
Qed.

Lemma sub_put_at_prefix off bs l n :
  (n <= length bs)%nat -> (off + length bs <= length l)%nat ->
  sub (put_at off bs l) off n = take n bs.
Proof.
  intros H1 H2. unfold sub, put_at. rewrite drop_app_length' by len.
  by rewrite take_app_le by lia.
Qed.

Lemma writeICMPEchoReply4_spec buf n ihl :
  is_bytes buf -> zlen buf <= 65535 ->
  ihl = Z.to_nat (Z.land (at_ buf 0) 15 * 4) -> (20 <= ihl)%nat ->
  (ihl + 8 <= n <= length buf)%nat ->
  exists out, writeICMPEchoReply4 buf n ihl = Ok out /\ echo_reply4 buf n ihl out.
Proof.
  intros Hb Hl Hi H20 Hn. unfold zlen in Hl.
  pose proof (ihl_bound (at_ buf 0)) as H60. rewrite <- Hi in H60.
  destruct (swap4_spec buf Hb ltac:(lia)) as (L1 & B1 & S12 & S16 & Sge & Sle).
  assert (take 1 (swap4 buf) = take 1 buf) as S0 by apply (Sle 0%nat 1%nat ltac:(lia)).
  unfold writeICMPEchoReply4.
  set (b1 := swap4 buf) in *. clearbody b1. in_range.
  set (b2 := put_at ihl [0; 0; 0; 0] b1).
  assert (put_at (ihl + 2) [0; 0] b2 = b2) as Z2.
  { unfold b2, put_at. change (length [0; 0]) with 2%nat. change (length [0; 0; 0; 0]) with 4%nat.
    rewrite take_app_ge, drop_app_ge by len.
    replace (ihl + 2 - length (take ihl b1))%nat with 2%nat by len.
    replace (ihl + 2 + 2 - length (take ihl b1))%nat with 4%nat by len.
    by rewrite <- app_assoc. }
  assert (at_ b2 0 = at_ buf 0) as A0.
  { unfold b2. window. by apply at_0_take. }
  destruct (icmp4_sealed b2 ihl (n - ihl)) with (m := n) as (out & E & L & Hv & Hi4 & Hlo & Hmid & Hhi);
    [unfold b2; apply is_bytes_put_at; [bytes_lit|exact B1]| |lia|lia|unfold b2; len|unfold zlen, b2; len|lia|].
  { by rewrite A0. }
  rewrite Z2 in E. exists out. split; [exact E|]. split; try done.
  - rewrite Hmid by lia. unfold b2. window. done.
  - rewrite Hmid by lia. unfold b2. window. done.
  - rewrite Hmid by lia. unfold b2. rewrite sub_put_at_prefix by len. done.
  - rewrite Hhi by lia. unfold b2. window. apply Sge. lia.
Qed.

(** The echo reply the device writes for a reachable peer is the request with its
    addresses reversed, type 0, the identifier, sequence number and data untouched,
    and an IP and an ICMP checksum that verify. *)
Theorem echo_reply4_written buf n ihl :
  is_bytes buf -> zlen buf <= 65535 ->
  ihl = Z.to_nat (Z.land (at_ buf 0) 15 * 4) -> (20 <= ihl)%nat ->
  (ihl + 8 <= n <= length buf)%nat ->
  exists out, writeICMPEchoReply4 buf n ihl = Ok out /\ echo_reply4 buf n ihl out.
Proof. apply writeICMPEchoReply4_spec. Qed.

(** The IPv6 error needs 96 bytes of packet. *)
Lemma writeICMPError6_ok typ buf n code :
  (96 <= n <= length buf)%nat -> exists out, writeICMPError6 typ buf n code = Ok out.
Proof.
  intros Hn. unfold writeICMPError6, copyAt.
  assert (length (swap6 buf) = length buf) as L1 by (unfold swap6; len).
  set (b1 := swap6 buf) in *. clearbody b1.
  in_range.
  set (b2 := put_at 40 _ _). assert (length b2 = length buf) as L2 by (unfold b2; len). clearbody b2.
  set (b3 := put_at 48 _ _). assert (length b3 = length buf) as L3 by (unfold b3; len). clearbody b3.
  set (b4 := put_at 88 _ _). assert (length b4 = length buf) as L4 by (unfold b4; len). clearbody b4.
  in_range. by eexists.
Qed.

Lemma writeICMPEchoReply6_ok buf n :
  (44 <= n <= length buf)%nat -> exists out, writeICMPEchoReply6 buf n = Ok out.
Proof. intros Hn. unfold writeICMPEchoReply6. in_range. by eexists. Qed.

(** ** Checksums of hairpinned packets *)

(** [fixTCPChecksum] and [fixUDPChecksum] make the transport checksum verify and
    touch nothing before the transport header. *)
Lemma fixL4Checksum_spec proto minlen off buf n ihl :
  is_bytes buf -> is_byte proto -> Nat.Even off -> (off + 2 <= minlen)%nat ->
  (20 <= ihl)%nat -> (ihl + minlen <= n <= length buf)%nat -> Z.of_nat (n - ihl) <= 65535 ->
  exists out, fixL4Checksum proto minlen off buf n ihl = Ok out /\ length out = length buf /\
  verifies (pseudo4_words (sub out 12 4) (sub out 16 4) proto (Z.of_nat (n - ihl)) ++
            words (sub out ihl (n - ihl))) /\
  (forall i k, (i + k <= ihl + off)%nat -> sub out i k = sub buf i k).
Proof.
  intros Hb Hp He Ho H20 Hn Hl. unfold fixL4Checksum.
  destruct (Nat.ltb_spec n (ihl + minlen)); [lia|]. in_range. eexists. split; [reflexivity|].
  rewrite put_at_twice by len.
  split; [len|]. split; [|intros i k Hk; by window].
  rewrite !(sub_put_at_before _ _ _ _ 4) by len. rewrite sub_put_at_inside by len.
  replace (ihl + off - ihl)%nat with off by lia.
  assert (ip4 (sub buf 12 4)) as H12 by (split; [len|auto with wire]).
  assert (ip4 (sub buf 16 4)) as H16 by (split; [len|auto with wire]).
  destruct (wsum_pseudo4 _ _ proto (Z.of_nat (n - ihl)) H12 H16 Hp ltac:(lia)) as [E B].
  assert (wrapu 16 (Z.of_nat n - Z.of_nat ihl) = Z.of_nat (n - ihl)) as ->
    by (rewrite wrapu_small; lia).
  apply checksum_field_verifies; [by apply pseudo4_bound|auto with wire|done|len|].
  rewrite sub_put_at_inside by len. replace (ihl + off - ihl)%nat with off by lia.
  rewrite <- E. apply onesComplementSumFold_norm; [auto with wire|lia|unfold zlen; len].
Qed.

(** ** Witnesses *)
Lemma packets4_valid_witness :
  let seg := be_bytes 2 53 ++ be_bytes 2 5000 ++ be_bytes 2 9 ++ [0; 0; 7] in
  exists pkt, buildUDP4 [10; 0; 0; 1] [10; 0; 0; 2] seg = Ok pkt /\
    valid4 protoUDP 6 [10; 0; 0; 1] [10; 0; 0; 2] seg pkt.
Proof.
  apply packets4_valid; [split; [done|bytes_lit]..| |vm_compute; congruence|vm_compute; lia].
  apply (bool_decide_unpack _). vm_compute. exact I.
Defined.

Lemma packets6_checksum_rejected_witness :
  let src := replicate 15 0 ++ [1] in let dst := replicate 15 0 ++ [2] in
  let seg := be_bytes 2 53 ++ be_bytes 2 5000 ++ be_bytes 2 9 ++ [0; 0; 7] in
  exists pkt, buildUDP6 src dst seg = Ok pkt /\ valid6 protoUDP 6 src dst seg 0 pkt /\
    ~ verifies (pseudo6_words src dst protoUDP (zlen seg) ++ words (drop 40 pkt)).
Proof.
  intros src dst seg. apply packets6_checksum_rejected.
  1-2: split; [done|]. 1-3: apply (bool_decide_unpack _); vm_compute; exact I.
  - vm_compute. congruence.
  - vm_compute. lia.
Defined.

(** An echo request with [k] bytes of data. *)
Definition example_echo (k : nat) : bytes :=
  header4 protoICMP (28 + Z.of_nat k) [10; 0; 0; 2] [10; 0; 0; 9] ++
  [8; 0; 0; 0; 0; 1; 0; 1] ++ replicate k 0x61.

Lemma icmp_error4_written_witness :
  (exists out, writeICMPError4 3 (example_echo 56) 84 20 1 = Ok out /\
     icmp_error4 3 1 (example_echo 56) 20 out) /\
  writeICMPError4 3 (example_echo 8) 36 20 1 = Panic.
Proof.
  split; apply icmp_error4_written;
    try (apply (bool_decide_unpack _); vm_compute; exact I); vm_compute; (lia || congruence).
Defined.

Lemma echo_reply4_written_witness :
  exists out, writeICMPEchoReply4 (example_echo 56) 84 20 = Ok out /\
    echo_reply4 (example_echo 56) 84 20 out.
Proof.
  apply echo_reply4_written;
    try (apply (bool_decide_unpack _); vm_compute; exact I); vm_compute; (lia || congruence).
Defined.
