(* ===== verification/VirtTun.v ===== *)
(** * The kernel tun device (src/fbvirtun): dispatch, NAT tables, replies

    The read loop of virtun.go, the TCP and UDP address translation of
    virtun_tcp.go and virtun_udp.go, the ICMP responder of virtun_icmp.go.  The
    user-space TCP state machine ([vtcp], a third-party package), the dials and the
    clock are parameters.  The state keeps flows and bridges in a store of their
    own, because the goroutines that serve them hold pointers that outlive the
    table entries. *)

From S2P Require Import Prelude GoLib GoNet Checksum Packets.

(** ** The TCP package the bridges are built on *)

(** The fields of [vtcp.Segment] the program sets. *)
Record segment := {
  SrcPort : Z; DstPort : Z; Seq : Z; Ack : Z; Flags : Z
}.

Definition FlagFIN : Z := 1.
Definition FlagSYN : Z := 2.
Definition FlagRST : Z := 4.
Definition FlagACK : Z := 16.
Definition has_flag (flags f : Z) : bool := negb (Z.land flags f =? 0).

Inductive vstate := StateClosed | StateEstablished | StateOther.

Class Vtcp := {
  vconn : Type;
  vseg : Type;
  ParseSegment : bytes -> option vseg;
  NewConn : Z -> Z -> Z -> vconn;             (* local port, remote port, MSS *)
  AcceptSYN : vconn -> vseg -> vconn * list bytes;
  HandleSegment : vconn -> vseg -> vconn * list bytes;
  CloseConn : vconn -> vconn * list bytes;
  State : vconn -> vstate;
  Marshal : segment -> bytes
}.

(** ** State *)

(** [tcpKey], [udpKey4], [udpKey6] and the anonymous key of [handleTCP6]: source
    address and port, destination address and port.  The length of the addresses
    tells the families apart. *)
Notation natkey := (bytes * Z * bytes * Z)%type.

Record udpFlow := {
  clientIP : bytes; clientPort : Z; serverIP : bytes; serverPort : Z;
  f_addr : string;          (* the address dialled *)
  f_open : bool;            (* [conn] has not been closed *)
  f_sent : list bytes;      (* datagrams written to [conn], newest first *)
  lastUse : Z
}.

Section virtun.
Context `{Vtcp} `{GoSort} `{MapRange}.

Record tcpBridge := {
  vc : vconn;
  b_local : bytes; b_remote : bytes;   (* [dstIP] and [srcIP] of the SYN, captured by [Writer] *)
  b_addr : string;
  b_open : bool;                       (* [remote] has not been closed *)
  establishedLogged : bool
}.

Record tun_state := {
  ts_bridges : gmap nat tcpBridge;     (* every bridge made, by pointer *)
  ts_flows : gmap nat udpFlow;         (* every flow made, by pointer *)
  tcpConns : gmap natkey nat;
  udpConns4 : gmap natkey nat;
  udpConns6 : gmap natkey nat;
  peerips : gmap string string;
  ts_next : nat;                       (* next unused pointer *)
  ts_out : list bytes                  (* packets given to the device, newest first *)
}.

Definition init_state : tun_state :=
  {| ts_bridges := ∅; ts_flows := ∅; tcpConns := ∅; udpConns4 := ∅; udpConns6 := ∅;
     peerips := ∅; ts_next := 0; ts_out := [] |}.

Record tun_config := {
  VlanPfx : string; LocalPeerIP : string;
  localIP : bytes; localIP6 : option bytes;
  darwin : bool;
  peerIPMap : gmap string string
}.

Inductive dial_result := DialOk | DialDeadline | DialError (msg : string).

Record tun_env := {
  e_now : Z;
  e_peers : list string;                     (* p2put.GetClusterPeers *)
  e_dial : string -> dial_result;            (* pbtunnel.Dial *)
  e_dialUDP : string -> bool;                (* pbtunnel.DialUDP *)
  e_netDial : string -> string -> bool       (* net.Dial *)
}.

Definition set_out (o : list bytes) (s : tun_state) : tun_state :=
  {| ts_bridges := ts_bridges s; ts_flows := ts_flows s; tcpConns := tcpConns s;
     udpConns4 := udpConns4 s; udpConns6 := udpConns6 s; peerips := peerips s;
     ts_next := ts_next s; ts_out := o |}.
Definition set_peerips (p : gmap string string) (s : tun_state) : tun_state :=
  {| ts_bridges := ts_bridges s; ts_flows := ts_flows s; tcpConns := tcpConns s;
     udpConns4 := udpConns4 s; udpConns6 := udpConns6 s; peerips := p;
     ts_next := ts_next s; ts_out := ts_out s |}.
Definition set_bridges (b : gmap nat tcpBridge) (t : gmap natkey nat) (s : tun_state) : tun_state :=
  {| ts_bridges := b; ts_flows := ts_flows s; tcpConns := t;
     udpConns4 := udpConns4 s; udpConns6 := udpConns6 s; peerips := peerips s;
     ts_next := ts_next s; ts_out := ts_out s |}.
Definition set_flows (f : gmap nat udpFlow) (u4 u6 : gmap natkey nat) (s : tun_state) : tun_state :=
  {| ts_bridges := ts_bridges s; ts_flows := f; tcpConns := tcpConns s;
     udpConns4 := u4; udpConns6 := u6; peerips := peerips s;
     ts_next := ts_next s; ts_out := ts_out s |}.
Definition set_next (n : nat) (s : tun_state) : tun_state :=
  {| ts_bridges := ts_bridges s; ts_flows := ts_flows s; tcpConns := tcpConns s;
     udpConns4 := udpConns4 s; udpConns6 := udpConns6 s; peerips := peerips s;
     ts_next := n; ts_out := ts_out s |}.

(** ** Writing to the device

    [InitVirTun] sets [tunMTU] to 1900 and [tunBufSize] to [tunMTU + tunOffset + 4]:
    [copy(buf[tunOffset:], pkt)] keeps at most 1904 bytes of the packet. *)
Definition tunMTU : nat := 1900.
Definition writeTun (pkt : bytes) (s : tun_state) : tun_state :=
  set_out (take (tunMTU + 4) pkt :: ts_out s) s.

(** [writeTunBuf]: the whole read buffer. *)
Definition writeTunBuf (buf : bytes) (s : tun_state) : tun_state :=
  set_out (buf :: ts_out s) s.

(** ** Routing an address to a peer *)
Definition StringToHostPart (s : string) : Z := crc64 (string_bytes s) mod 253 + 2.

Definition mappedIP (cfg : tun_config) (id : string) : string :=
  VlanPfx cfg +:+ utoa (StringToHostPart id).

(** [sort.Strings]. *)
Definition sort_strings (l : list string) : list string := sort_slice String.ltb l.

Definition peeridByConnIP (cfg : tun_config) (env : tun_env) (ipport : string)
    (s : tun_state) : string * tun_state :=
  match SplitHostPort ipport with
  | Ok (rawIP, _) =>
      if String.eqb rawIP "127.0.0.1" then ("", s)
      else
        match peerips s !! rawIP with
        | Some id => (id, s)
        | None =>
            let m := foldl (fun m id => <[mappedIP cfg id := id]> m) (peerips s)
                       (sort_strings (e_peers env)) in
            (default "" (m !! rawIP), set_peerips m s)
        end
  | _ => ("", s)
  end.

(** The address to dial for a destination: itself when it is this host's, the
    peer's otherwise, none when no peer is mapped there. *)
Definition route (cfg : tun_config) (env : tun_env) (dstIP : bytes) (dstPort : Z)
    (s : tun_state) : option string * tun_state :=
  let dstAddr := JoinHostPort (ip_string dstIP) (utoa dstPort) in
  if has_prefix (LocalPeerIP cfg +:+ ":") dstAddr then (Some dstAddr, s)
  else
    let (id, s) := peeridByConnIP cfg env dstAddr s in
    if String.eqb id "" then (None, s) else (Some (JoinHostPort id (utoa dstPort)), s).

(** ** TCP *)
Definition u16_at (l : bytes) (i : nat) : Z := be_val (sub l i 2).
Definition u32_at (l : bytes) (i : nat) : Z := be_val (sub l i 4).

(** The segment [sendRST4] and [sendRST6] answer with. *)
Definition rstSegment (tcp : bytes) : segment :=
  let flags := at_ tcp 13 in
  if has_flag flags FlagACK then
    {| SrcPort := u16_at tcp 2; DstPort := u16_at tcp 0;
       Seq := u32_at tcp 8; Ack := 0; Flags := FlagRST |}
  else
    let dataOff := Z.shiftr (at_ tcp 12) 4 * 4 in
    let dataLen := wrapu 32 (zlen tcp - dataOff) in
    let dataLen := if has_flag (at_ tcp 13) 1 then wrapu 32 (dataLen + 1) else dataLen in
    {| SrcPort := u16_at tcp 2; DstPort := u16_at tcp 0; Seq := 0;
       Ack := wrapu 32 (u32_at tcp 4 + dataLen); Flags := Z.lor FlagRST FlagACK |}.

Definition sendRST4 (tcp srcIP dstIP : bytes) (s : tun_state) : res tun_state :=
  let! _ := need 14 (length tcp) in
  let! pkt := buildPacket4 dstIP srcIP (Marshal (rstSegment tcp)) in
  Ok (writeTun pkt s).

Definition sendRST6 (tcp srcIP dstIP : bytes) (s : tun_state) : res tun_state :=
  let! _ := need 14 (length tcp) in
  let! pkt := buildPacket6 dstIP srcIP (Marshal (rstSegment tcp)) in
  Ok (writeTun pkt s).

(** [Writer] of a bridge, and [vc.Flush]. *)
Definition bridgeWrite (local remote : bytes) (seg : bytes) (s : tun_state) : res tun_state :=
  let! pkt := (if (length local =? 4)%nat then buildPacket4 local remote seg
               else buildPacket6 local remote seg) in
  Ok (writeTun pkt s).

Fixpoint flush (local remote : bytes) (pkts : list bytes) (s : tun_state) : res tun_state :=
  match pkts with
  | [] => Ok s
  | p :: r => let! s := bridgeWrite local remote p s in flush local remote r s
  end.

Definition set_vc (v : vconn) (logged : bool) (b : tcpBridge) : tcpBridge :=
  {| vc := v; b_local := b_local b; b_remote := b_remote b; b_addr := b_addr b;
     b_open := b_open b; establishedLogged := logged |}.
Definition close_bridge (b : tcpBridge) : tcpBridge :=
  {| vc := vc b; b_local := b_local b; b_remote := b_remote b; b_addr := b_addr b;
     b_open := false; establishedLogged := establishedLogged b |}.

Definition feedTCP (p : nat) (tcp : bytes) (s : tun_state) : res tun_state :=
  match ts_bridges s !! p with
  | None => Ok s
  | Some b =>
      match ParseSegment tcp with
      | None => Ok s
      | Some seg =>
          let (v, pkts) := HandleSegment (vc b) seg in
          let logged := match State v with
                        | StateEstablished => true
                        | _ => establishedLogged b
                        end in
          let s := set_bridges (<[p := set_vc v logged b]> (ts_bridges s)) (tcpConns s) s in
          flush (b_local b) (b_remote b) pkts s
      end
  end.

(** [newTCPBridge] and [newTCPBridge6] once the address is dialled. *)
Definition makeBridge (seg : vseg) (srcIP dstIP : bytes) (srcPort dstPort mss : Z)
    (addr : string) (s : tun_state) : res (option nat * tun_state) :=
  let (v, pkts) := AcceptSYN (NewConn dstPort srcPort mss) seg in
  let b := {| vc := v; b_local := dstIP; b_remote := srcIP; b_addr := addr;
              b_open := true; establishedLogged := false |} in
  let p := ts_next s in
  let s := set_next (S p) (set_bridges (<[p := b]> (ts_bridges s)) (tcpConns s) s) in
  let! s := flush dstIP srcIP pkts s in
  Ok (Some p, s).

Definition newTCPBridge (cfg : tun_config) (env : tun_env) (tcp srcIP dstIP : bytes)
    (srcPort dstPort : Z) (s : tun_state) : res (option nat * tun_state) :=
  match ParseSegment tcp with
  | None => Ok (None, s)
  | Some seg =>
      let (addr, s) := route cfg env dstIP dstPort s in
      match addr with
      | None => Ok (None, s)
      | Some dstAddr =>
          match e_dial env dstAddr with
          | DialOk => makeBridge seg srcIP dstIP srcPort dstPort 1460 dstAddr s
          | _ => Ok (None, s)
          end
      end
  end.

Definition newTCPBridge6 (env : tun_env) (tcp srcIP dstIP : bytes)
    (srcPort dstPort : Z) (s : tun_state) : res (option nat * tun_state) :=
  match ParseSegment tcp with
  | None => Ok (None, s)
  | Some seg =>
      let dstAddr := JoinHostPort (ip_string dstIP) (utoa dstPort) in
      if e_netDial env "tcp6" dstAddr
      then makeBridge seg srcIP dstIP srcPort dstPort 1440 dstAddr s
      else Ok (None, s)
  end.

(** What [handleTCP4] and [handleTCP6] share: feed a known connection, otherwise
    open one for a SYN, otherwise reset. *)
Definition dispatchTCP (k : natkey) (tcp : bytes)
    (rst : tun_state -> res tun_state)
    (new : tun_state -> res (option nat * tun_state)) (s : tun_state) : res tun_state :=
  match tcpConns s !! k with
  | Some p => feedTCP p tcp s
  | None =>
      if has_flag (at_ tcp 13) FlagSYN then
        let! (bridge, s) := new s in
        match bridge with
        | None => rst s
        | Some p => Ok (set_bridges (ts_bridges s) (<[k := p]> (tcpConns s)) s)
        end
      else rst s
  end.

Definition handleTCP4 (cfg : tun_config) (env : tun_env) (pkt : bytes) (ihl : nat)
    (srcIP dstIP : bytes) (s : tun_state) : res tun_state :=
  let! _ := need ihl (length pkt) in
  let tcp := drop ihl pkt in
  if (length tcp <? 20)%nat then Ok s else
  let! _ := need 14 (length tcp) in
  let srcPort := u16_at tcp 0 in
  let dstPort := u16_at tcp 2 in
  dispatchTCP (srcIP, srcPort, dstIP, dstPort) tcp
    (sendRST4 tcp srcIP dstIP) (newTCPBridge cfg env tcp srcIP dstIP srcPort dstPort) s.

Definition handleTCP6 (env : tun_env) (pkt srcIP dstIP : bytes) (s : tun_state) : res tun_state :=
  let! _ := need 40 (length pkt) in
  let tcp := drop 40 pkt in
  if (length tcp <? 20)%nat then Ok s else
  let! _ := need 14 (length tcp) in
  let srcPort := u16_at tcp 0 in
  let dstPort := u16_at tcp 2 in
  dispatchTCP (srcIP, srcPort, dstIP, dstPort) tcp
    (sendRST6 tcp srcIP dstIP) (newTCPBridge6 env tcp srcIP dstIP srcPort dstPort) s.

(** [tcpCleanup]: [Range] visits the entries in some order; each visit depends on
    its own entry only. *)
Definition tcpCleanupEntry (s : tun_state) (e : natkey * nat) : tun_state :=
  match ts_bridges s !! e.2 with
  | Some b =>
      match State (vc b) with
      | StateClosed =>
          set_bridges (<[e.2 := close_bridge b]> (ts_bridges s)) (delete e.1 (tcpConns s)) s
      | _ => s
      end
  | None => s
  end.

(** The first goroutine of [startBridge]: the remote end closed. *)
Definition remoteClosed (p : nat) (s : tun_state) : res tun_state :=
  match ts_bridges s !! p with
  | None => Ok s
  | Some b =>
      let (v, pkts) := CloseConn (vc b) in
      let s := set_bridges (<[p := set_vc v (establishedLogged b) b]> (ts_bridges s)) (tcpConns s) s in
      flush (b_local b) (b_remote b) pkts s
  end.

Definition tcpCleanup (s : tun_state) : tun_state :=
  foldl tcpCleanupEntry s (range_map 1 (tcpConns s)).

(** ** UDP

    [handleUDP4]/[handleUDP6], [udpReadLoop4]/[udpReadLoop6] are the same code over
    two tables; [v6] says which. *)
Definition udpTable (v6 : bool) (s : tun_state) : gmap natkey nat :=
  if v6 then udpConns6 s else udpConns4 s.
Definition setUDP (v6 : bool) (f : gmap nat udpFlow) (t : gmap natkey nat)
    (s : tun_state) : tun_state :=
  if v6 then set_flows f (udpConns4 s) t s else set_flows f t (udpConns6 s) s.

Definition touch (now : Z) (f : udpFlow) : udpFlow :=
  {| clientIP := clientIP f; clientPort := clientPort f; serverIP := serverIP f;
     serverPort := serverPort f; f_addr := f_addr f; f_open := f_open f;
     f_sent := f_sent f; lastUse := now |}.
Definition connWrite (data : bytes) (f : udpFlow) : udpFlow :=
  {| clientIP := clientIP f; clientPort := clientPort f; serverIP := serverIP f;
     serverPort := serverPort f; f_addr := f_addr f; f_open := f_open f;
     f_sent := data :: f_sent f; lastUse := lastUse f |}.
Definition connClose (f : udpFlow) : udpFlow :=
  {| clientIP := clientIP f; clientPort := clientPort f; serverIP := serverIP f;
     serverPort := serverPort f; f_addr := f_addr f; f_open := false;
     f_sent := f_sent f; lastUse := lastUse f |}.

Definition newFlow (v6 : bool) (now : Z) (k : natkey) (addr : string) (data : bytes)
    (s : tun_state) : tun_state :=
  let '(srcIP, srcPort, dstIP, dstPort) := k in
  let p := ts_next s in
  let f := {| clientIP := srcIP; clientPort := srcPort; serverIP := dstIP;
              serverPort := dstPort; f_addr := addr; f_open := true; f_sent := [];
              lastUse := now |} in
  set_next (S p) (setUDP v6 (<[p := connWrite data f]> (ts_flows s))
                            (<[k := p]> (udpTable v6 s)) s).

(** A datagram for a known flow. *)
Definition feedUDP (now : Z) (p : nat) (data : bytes) (s : tun_state) : tun_state :=
  set_flows (alter (fun f => connWrite data (touch now f)) p (ts_flows s))
    (udpConns4 s) (udpConns6 s) s.

Definition handleUDP4 (cfg : tun_config) (env : tun_env) (pkt : bytes) (ihl : nat)
    (srcIP dstIP : bytes) (s : tun_state) : res tun_state :=
  let! _ := need ihl (length pkt) in
  let udp := drop ihl pkt in
  if (length udp <? 8)%nat then Ok s else
  let! _ := need 8 (length udp) in
  let k := (srcIP, u16_at udp 0, dstIP, u16_at udp 2) in
  match udpConns4 s !! k with
  | Some p => Ok (feedUDP (e_now env) p (drop 8 udp) s)
  | None =>
      let (addr, s) := route cfg env dstIP (u16_at udp 2) s in
      match addr with
      | None => Ok s
      | Some dstAddr =>
          if e_dialUDP env dstAddr
          then Ok (newFlow false (e_now env) k dstAddr (drop 8 udp) s)
          else Ok s
      end
  end.

Definition handleUDP6 (env : tun_env) (pkt srcIP dstIP : bytes) (s : tun_state) : res tun_state :=
  let! _ := need 40 (length pkt) in
  let udp := drop 40 pkt in
  if (length udp <? 8)%nat then Ok s else
  let! _ := need 8 (length udp) in
  let k := (srcIP, u16_at udp 0, dstIP, u16_at udp 2) in
  match udpConns6 s !! k with
  | Some p => Ok (feedUDP (e_now env) p (drop 8 udp) s)
  | None =>
      let dstAddr := JoinHostPort (ip_string dstIP) (utoa (u16_at udp 2)) in
      if e_netDial env "udp6" dstAddr
      then Ok (newFlow true (e_now env) k dstAddr (drop 8 udp) s)
      else Ok s
  end.

(** One datagram read by [udpReadLoop4] or [udpReadLoop6]. *)
Definition udpReply (f : udpFlow) (data : bytes) : bytes :=
  be_bytes 2 (serverPort f) ++ be_bytes 2 (clientPort f) ++
  be_bytes 2 (wrapu 16 (8 + zlen data)) ++ [0; 0] ++ data.

Definition udpRead (v6 : bool) (now : Z) (p : nat) (data : bytes) (s : tun_state) : res tun_state :=
  match ts_flows s !! p with
  | None => Ok s
  | Some f =>
      let s := set_flows (<[p := touch now f]> (ts_flows s)) (udpConns4 s) (udpConns6 s) s in
      let! pkt := (if v6 then buildUDP6 (serverIP f) (clientIP f) (udpReply f data)
                   else buildUDP4 (serverIP f) (clientIP f) (udpReply f data)) in
      Ok (writeTun pkt s)
  end.

(** A failed read: the goroutine that serves flow [p] closes it, deletes the key
    the flow was stored under, and ends. *)
Definition udpReadErr (v6 : bool) (p : nat) (k : natkey) (s : tun_state) : tun_state :=
  setUDP v6 (alter connClose p (ts_flows s)) (delete k (udpTable v6 s)) s.

Definition udpCleanupEntry (v6 : bool) (now : Z) (s : tun_state) (e : natkey * nat) : tun_state :=
  match ts_flows s !! e.2 with
  | Some f =>
      if 60 * second <? time_sub now (lastUse f)
      then setUDP v6 (alter connClose e.2 (ts_flows s)) (delete e.1 (udpTable v6 s)) s
      else s
  | None => s
  end.

Definition udpCleanup (now : Z) (s : tun_state) : tun_state :=
  let s := foldl (udpCleanupEntry false now) s (range_map 2 (udpConns4 s)) in
  foldl (udpCleanupEntry true now) s (range_map 3 (udpConns6 s)).

(** ** ICMP *)
Definition isProtocolRefused (msg : string) : bool := contains "refused" msg.

(** [handleICMP4]: whether it answered, and the state.  The packet is the first
    [n] bytes of [buf]. *)
Definition handleICMP4 (cfg : tun_config) (env : tun_env) (buf : bytes) (n ihl : nat)
    (s : tun_state) : res (bool * tun_state) :=
  let! _ := need ihl n in
  if (n - ihl <? 8)%nat then Ok (false, s) else
  let! _ := need (ihl + 1) n in
  if negb (at_ buf ihl =? 8) then Ok (false, s)
  else
    let! _ := need 20 (length buf) in
    let (pid, s) := peeridByConnIP cfg env (JoinHostPort (ip_string (sub buf 16 4)) "0") s in
    if String.eqb pid "" then
      let! b := writeICMPDestUnreach4 buf n ihl 1 in Ok (true, writeTunBuf b s)
    else
      let! b := match e_dial env (pid +:+ ":1") with
                | DialOk => writeICMPEchoReply4 buf n ihl
                | DialDeadline => writeICMPTimeExceed4 buf n ihl 1
                | DialError msg =>
                    writeICMPDestUnreach4 buf n ihl (if isProtocolRefused msg then 3 else 1)
                end in
      Ok (true, writeTunBuf b s).

Definition handleICMP6 (cfg : tun_config) (env : tun_env) (buf : bytes) (n : nat)
    (s : tun_state) : res (bool * tun_state) :=
  if (n <? 48)%nat then Ok (false, s) else
  let! _ := need 41 n in
  if negb (at_ buf 40 =? 128) then Ok (false, s)
  else
    let! _ := need 40 (length buf) in
    let (pid, s) := peeridByConnIP cfg env (JoinHostPort (ip_string (sub buf 24 16)) "0") s in
    if String.eqb pid "" then
      let! b := writeICMPDestUnreach6 buf n 3 in Ok (true, writeTunBuf b s)
    else
      let! b := match e_dial env (pid +:+ ":1") with
                | DialOk => writeICMPEchoReply6 buf n
                | DialDeadline => writeICMPTimeExceed6 buf n 1
                | DialError msg =>
                    writeICMPDestUnreach6 buf n (if isProtocolRefused msg then 4 else 3)
                end in
      Ok (true, writeTunBuf b s).

(** ** The read loop *)

(** The cases of the [switch] in [tunReadLoop], in order. *)
Inductive verdict :=
  | Hairpin | Forward (pid : string) | Broadcast | Multicast | Loopback | LinkLocal | Handle.

Definition classify (cfg : tun_config) (version : Z) (dstIP : bytes) : verdict :=
  if ip_equal dstIP (localIP cfg) ||
     match localIP6 cfg with Some l => ip_equal dstIP l | None => false end then Hairpin
  else match peerIPMap cfg !! ip_string dstIP with
  | Some pid => Forward pid
  | None =>
      if (version =? 4) && ip_equal dstIP [255; 255; 255; 255] then Broadcast
      else if (version =? 6) && is_multicast dstIP then Multicast
      else if is_loopback dstIP then Loopback
      else if is_link_local dstIP then LinkLocal
      else Handle
  end.

Definition isTCPorUDP (proto : Z) : bool := (proto =? 6) || (proto =? 17).

(** The packet sent back to this host. *)
Definition hairpin (cfg : tun_config) (version proto : Z) (buf : bytes) (n ihl : nat) : res bytes :=
  if darwin cfg && (version =? 4) && isTCPorUDP proto then
    let! b := fixIPChecksum buf n in
    if proto =? 6 then fixTCPChecksum b n ihl else fixUDPChecksum b n ihl
  else Ok buf.

Definition handleProto (cfg : tun_config) (env : tun_env) (version proto : Z)
    (srcIP dstIP buf : bytes) (n ihl : nat) (s : tun_state) : res tun_state :=
  let pkt := take n buf in
  if proto =? 1 then
    if version =? 4 then let! r := handleICMP4 cfg env buf n ihl s in Ok r.2 else Ok s
  else if proto =? 6 then
    if version =? 4 then handleTCP4 cfg env pkt ihl srcIP dstIP s
    else handleTCP6 env pkt srcIP dstIP s
  else if proto =? 17 then
    if version =? 4 then handleUDP4 cfg env pkt ihl srcIP dstIP s
    else handleUDP6 env pkt srcIP dstIP s
  else if proto =? 58 then let! r := handleICMP6 cfg env buf n s in Ok r.2
  else Ok s.

(** One iteration: the device put [n] bytes into the buffer. *)
Definition tunStep (cfg : tun_config) (env : tun_env) (buf : bytes) (n : nat)
    (s : tun_state) : res tun_state :=
  let! _ := need 1 n in
  let version := Z.shiftr (at_ buf 0) 4 in
  let go srcIP dstIP proto ihl :=
    match classify cfg version dstIP with
    | Hairpin => let! b := hairpin cfg version proto buf n ihl in Ok (writeTunBuf b s)
    | Handle => handleProto cfg env version proto srcIP dstIP buf n ihl s
    | _ => Ok s
    end in
  if version =? 4 then
    if (n <? 20)%nat then Ok s else
    let! _ := need 20 (length buf) in
    let! _ := need 10 n in
    go (sub buf 12 4) (sub buf 16 4) (at_ buf 9) (Z.to_nat (Z.land (at_ buf 0) 15 * 4))
  else if version =? 6 then
    if (n <? 40)%nat then Ok s else
    let! _ := need 40 (length buf) in
    let! _ := need 7 n in
    go (sub buf 8 16) (sub buf 24 16) (at_ buf 6) 40%nat
  else Ok s.

(** The events the device and its goroutines see. *)
Inductive event :=
  | EvPacket (env : tun_env) (buf : bytes) (n : nat)
  | EvRemoteClosed (p : nat)
  | EvUdpRead (v6 : bool) (now : Z) (p : nat) (data : bytes)
  | EvUdpReadErr (v6 : bool) (p : nat) (k : natkey)
  | EvCleanup (now : Z).

Definition step (cfg : tun_config) (e : event) (s : tun_state) : res tun_state :=
  match e with
  | EvPacket env buf n => tunStep cfg env buf n s
  | EvRemoteClosed p => remoteClosed p s
  | EvUdpRead v6 now p data => udpRead v6 now p data s
  | EvUdpReadErr v6 p k => Ok (udpReadErr v6 p k s)
  | EvCleanup now => Ok (udpCleanup now (tcpCleanup s))
  end.

Fixpoint run (cfg : tun_config) (es : list event) (s : tun_state) : res tun_state :=
  match es with
  | [] => Ok s
  | e :: r => let! s := step cfg e s in run cfg r s
  end.

End virtun.

(** ** Well-formed states *)
Section invariants.
Context `{Vtcp} `{GoSort} `{MapRange}.

Definition key_ok (v6 : bool) (k : natkey) : Prop :=
  let '(src, sport, dst, dport) := k in
  let n := if v6 then 16%nat else 4%nat in
  length src = n /\ is_bytes src /\ length dst = n /\ is_bytes dst /\
  0 <= sport < 65536 /\ 0 <= dport < 65536.

Definition flow_key (f : udpFlow) : natkey :=
  (clientIP f, clientPort f, serverIP f, serverPort f).

Definition bridge_for (k : natkey) (b : tcpBridge) : Prop :=
  let '(src, _, dst, _) := k in b_remote b = src /\ b_local b = dst.

Definition tcp_ok (bridges : gmap nat tcpBridge) (t : gmap natkey nat) : Prop :=
  forall k p, t !! k = Some p ->
    (exists v6, key_ok v6 k) /\ exists b, bridges !! p = Some b /\ bridge_for k b.

Definition udp_ok (v6 : bool) (flows : gmap nat udpFlow) (t : gmap natkey nat) : Prop :=
  forall k p, t !! k = Some p ->
    key_ok v6 k /\ exists f, flows !! p = Some f /\ flow_key f = k.

Definition peers_ok (cfg : tun_config) (m : gmap string string) : Prop :=
  forall ip id, m !! ip = Some id -> ip = mappedIP cfg id.

Definition fresh {A} (next : nat) (m : gmap nat A) : Prop :=
  forall p a, m !! p = Some a -> (p < next)%nat.

(** The tables point at flows and bridges made for their key, the peer table maps
    every address to a peer whose own address it is. *)
Record wf (cfg : tun_config) (s : tun_state) : Prop := {
  wf_tcp : tcp_ok (ts_bridges s) (tcpConns s);
  wf_udp4 : udp_ok false (ts_flows s) (udpConns4 s);
  wf_udp6 : udp_ok true (ts_flows s) (udpConns6 s);
  wf_peers : peers_ok cfg (peerips s);
  wf_bridges : fresh (ts_next s) (ts_bridges s);
  wf_flows : fresh (ts_next s) (ts_flows s)
}.

Lemma init_wf cfg : wf cfg init_state.
Proof. split; intros ?*; simpl; rewrite ?lookup_empty; done. Qed.

Lemma wf_set_out cfg o s : wf cfg s -> wf cfg (set_out o s).
Proof. intros []. by split. Qed.
Lemma wf_set_peerips cfg m s : wf cfg s -> peers_ok cfg m -> wf cfg (set_peerips m s).
Proof. intros [] ?. by split. Qed.

Lemma fresh_insert {A} next (m : gmap nat A) a :
  fresh next m -> fresh (S next) (<[next := a]> m).
Proof.
  intros Hf p b. rewrite lookup_insert_Some. intros [[<- _]|[_ Hp]]; [lia|].
  specialize (Hf _ _ Hp). lia.
Qed.
Lemma fresh_S {A} next (m : gmap nat A) : fresh next m -> fresh (S next) m.
Proof. intros Hf p a Hp. specialize (Hf _ _ Hp). lia. Qed.
Lemma fresh_update {A} next (m : gmap nat A) p a b :
  fresh next m -> m !! p = Some a -> fresh next (<[p := b]> m).
Proof.
  intros Hf Hp q c. rewrite lookup_insert_Some. intros [[<- _]|[_ Hq]]; eauto.
Qed.
Lemma fresh_alter {A} next (m : gmap nat A) p g : fresh next m -> fresh next (alter g p m).
Proof.
  intros Hf q c. rewrite lookup_alter_Some. intros [(<- & a & Ha & _)|[_ Hq]]; eauto.
Qed.

(** Bridges may change in place, as long as their addresses stay. *)
Lemma tcp_ok_update bridges t p b b' :
  tcp_ok bridges t -> bridges !! p = Some b ->
  b_remote b' = b_remote b -> b_local b' = b_local b ->
  tcp_ok (<[p := b']> bridges) t.
Proof.
  intros Ht Hp E1 E2 k q Hk. destruct (Ht _ _ Hk) as (Hok & b0 & Hb & Hf).
  split; [done|]. destruct (decide (p = q)) as [<-|].
  - exists b'. rewrite lookup_insert_eq. split; [done|]. simplify_eq.
    destruct k as [[[? ?] ?] ?]. simpl in *. by rewrite E1, E2.
  - exists b0. by rewrite lookup_insert_ne.
Qed.

Lemma tcp_ok_delete bridges t k : tcp_ok bridges t -> tcp_ok bridges (delete k t).
Proof. intros Ht q p. rewrite lookup_delete_Some. intros [_ Hq]. by apply Ht. Qed.
Lemma udp_ok_delete v6 flows t k : udp_ok v6 flows t -> udp_ok v6 flows (delete k t).
Proof. intros Ht q p. rewrite lookup_delete_Some. intros [_ Hq]. by apply Ht. Qed.

Lemma tcp_ok_fresh next bridges t b :
  fresh next bridges -> tcp_ok bridges t -> tcp_ok (<[next := b]> bridges) t.
Proof.
  intros Hf Ht k p Hk. destruct (Ht _ _ Hk) as (Hok & b0 & Hb & Hbk).
  split; [done|]. exists b0. split; [|done].
  rewrite lookup_insert_ne; [done|]. specialize (Hf _ _ Hb). lia.
Qed.
Lemma udp_ok_fresh v6 next flows t f :
  fresh next flows -> udp_ok v6 flows t -> udp_ok v6 (<[next := f]> flows) t.
Proof.
  intros Hf Ht k p Hk. destruct (Ht _ _ Hk) as (Hok & f0 & Hf0 & Hk0).
  split; [done|]. exists f0. split; [|done].
  rewrite lookup_insert_ne; [done|]. specialize (Hf _ _ Hf0). lia.
Qed.

(** So may flows, as long as their endpoints stay. *)
Lemma udp_ok_alter v6 flows t p g :
  (forall f, flow_key (g f) = flow_key f) ->
  udp_ok v6 flows t -> udp_ok v6 (alter g p flows) t.
Proof.
  intros Hg Ht k q Hk. destruct (Ht _ _ Hk) as (Hok & f & Hf & Hfk).
  split; [done|]. destruct (decide (p = q)) as [<-|].
  - exists (g f). rewrite lookup_alter_eq, Hf. split; [done|]. by rewrite Hg.
  - exists f. by rewrite lookup_alter_ne.
Qed.

Lemma udp_ok_insert v6 flows t k p f :
  udp_ok v6 flows t -> key_ok v6 k -> flows !! p = Some f -> flow_key f = k ->
  udp_ok v6 flows (<[k := p]> t).
Proof.
  intros Ht Hk Hp Hf q r. rewrite lookup_insert_Some. intros [[<- <-]|[_ Hq]]; [eauto|].
  by apply Ht.
Qed.

(** *** Writes leave everything but the output alone *)
Lemma bridgeWrite_same local remote p s s' :
  bridgeWrite local remote p s = Ok s' -> exists o, s' = set_out o s.
Proof.
  unfold bridgeWrite. intros E. apply rbind_Ok in E as (pkt & _ & E).
  apply Ok_inj in E as <-. by eexists.
Qed.

Lemma flush_same local remote pkts s s' :
  flush local remote pkts s = Ok s' -> exists o, s' = set_out o s.
Proof.
  revert s. induction pkts as [|p r IH]; intros s E; simpl in E.
  - apply Ok_inj in E as <-. exists (ts_out s). by destruct s.
  - apply rbind_Ok in E as (s1 & E1 & E2).
    apply bridgeWrite_same in E1 as [o1 ->]. apply IH in E2 as [o ->]. by exists o.
Qed.

(** *** Routing *)
Lemma peers_ok_insert cfg m id :
  peers_ok cfg m -> peers_ok cfg (<[mappedIP cfg id := id]> m).
Proof.
  intros Hm ip i. rewrite lookup_insert_Some. intros [[<- <-]|[_ Hi]]; [done|by apply Hm].
Qed.

Lemma peers_ok_foldl cfg l m :
  peers_ok cfg m -> peers_ok cfg (foldl (fun m id => <[mappedIP cfg id := id]> m) m l).
Proof.
  revert m. induction l as [|x l IH]; intros m Hm; simpl; [done|].
  by apply IH, peers_ok_insert.
Qed.

Lemma peeridByConnIP_peers cfg env ipport s id s' :
  peers_ok cfg (peerips s) -> peeridByConnIP cfg env ipport s = (id, s') ->
  exists m, s' = set_peerips m s /\ peers_ok cfg m /\
    (id <> "" -> exists host port, SplitHostPort ipport = Ok (host, port) /\ host = mappedIP cfg id).
Proof.
  intros Hp. unfold peeridByConnIP.
  assert (set_peerips (peerips s) s = s) as Es by by destruct s.
  destruct (SplitHostPort ipport) as [[raw port]|e|] eqn:E; [|intros ?; simplify_eq..].
  2-3: exists (peerips s'); rewrite Es; naive_solver.
  destruct (String.eqb_spec raw "127.0.0.1") as [->|Hne].
  { intros ?. simplify_eq. exists (peerips s'). rewrite Es. naive_solver. }
  destruct (peerips s !! raw) as [i|] eqn:Ei; intros ?; simplify_eq.
  - exists (peerips s'). rewrite Es. repeat split; try done. intros _.
    exists raw, port. split; [done|by apply Hp].
  - set (m := foldl _ _ _). exists m. split; [done|].
    assert (peers_ok cfg m) as Hm.
    { by apply peers_ok_foldl. }
    split; [done|]. destruct (m !! raw) as [i|] eqn:Em; [|done].
    intros _. exists raw, port. split; [done|]. by apply Hm.
Qed.

Lemma route_peers cfg env dst port s a s' :
  peers_ok cfg (peerips s) -> route cfg env dst port s = (a, s') ->
  exists m, s' = set_peerips m s /\ peers_ok cfg m.
Proof.
  intros Hp. unfold route. destruct (has_prefix _ _).
  - intros ?. simplify_eq. exists (peerips s'). split; [by destruct s'|done].
  - destruct (peeridByConnIP _ _ _ _) as [id s1] eqn:E.
    destruct (peeridByConnIP_peers _ _ _ _ _ _ Hp E) as (m & -> & Hm & _).
    destruct (String.eqb id ""); intros ?; simplify_eq; by exists m.
Qed.

(** *** Every operation preserves well-formedness *)
Lemma feedTCP_wf cfg p tcp s s' : wf cfg s -> feedTCP p tcp s = Ok s' -> wf cfg s'.
Proof.
  intros Hw. unfold feedTCP. destruct (ts_bridges s !! p) as [b|] eqn:Eb; [|intros ?; by simplify_eq].
  destruct (ParseSegment tcp) as [seg|]; [|intros ?; by simplify_eq].
  destruct (HandleSegment _ _) as [v pkts]. intros E.
  apply flush_same in E as [o ->]. apply wf_set_out.
  destruct Hw. split; simpl; try done; [by eapply tcp_ok_update|by eapply fresh_update].
Qed.

Lemma remoteClosed_wf cfg p s s' : wf cfg s -> remoteClosed p s = Ok s' -> wf cfg s'.
Proof.
  intros Hw. unfold remoteClosed. destruct (ts_bridges s !! p) as [b|] eqn:Eb; [|intros ?; by simplify_eq].
  destruct (CloseConn _) as [v pkts]. intros E.
  apply flush_same in E as [o ->]. apply wf_set_out.
  destruct Hw. split; simpl; try done; [by eapply tcp_ok_update|by eapply fresh_update].
Qed.

(** What opening a bridge does: nothing but the route learnt, or a new bridge for
    the key which no table mentions yet. *)
Definition opened (cfg : tun_config) (k : natkey) (s : tun_state) (r : option nat) (s' : tun_state) : Prop :=
  wf cfg s' /\ tcpConns s' = tcpConns s /\
  (forall p, r = Some p -> exists b, ts_bridges s' !! p = Some b /\ bridge_for k b).

Lemma makeBridge_opened cfg seg src dst sport dport mss addr s r s' :
  wf cfg s -> makeBridge seg src dst sport dport mss addr s = Ok (r, s') ->
  opened cfg (src, sport, dst, dport) s r s'.
Proof.
  intros Hw. unfold makeBridge. destruct (AcceptSYN _ _) as [v pkts]. intros E.
  apply rbind_Ok in E as (s1 & E & E1). simplify_eq.
  apply flush_same in E as [o ->]. split; [|split; [done|]].
  - apply wf_set_out. destruct Hw.
    split; simpl; eauto using fresh_S, fresh_insert, tcp_ok_fresh.
  - intros p ?. simplify_eq. simpl. eexists. rewrite lookup_insert_eq. done.
Qed.

Lemma opened_none cfg k s m :
  wf cfg s -> peers_ok cfg m -> opened cfg k s None (set_peerips m s).
Proof. intros Hw Hm. split; [by apply wf_set_peerips|]. split; [done|]. by intros ?. Qed.

Lemma opened_none_eq cfg k s : wf cfg s -> opened cfg k s None s.
Proof. intros Hw. split; [done|]. split; [done|]. by intros ?. Qed.

Lemma newTCPBridge_opened cfg env tcp src dst sport dport s r s' :
  wf cfg s -> newTCPBridge cfg env tcp src dst sport dport s = Ok (r, s') ->
  opened cfg (src, sport, dst, dport) s r s'.
Proof.
  intros Hw. unfold newTCPBridge.
  destruct (ParseSegment tcp) as [seg|]; [|intros ?; simplify_eq; by apply opened_none_eq].
  destruct (route cfg env dst dport s) as [a s1] eqn:Er.
  destruct (route_peers _ _ _ _ _ _ _ (wf_peers _ _ Hw) Er) as (m & -> & Hm).
  destruct a as [addr|]; [|intros ?; simplify_eq; by apply opened_none].
  destruct (e_dial env addr); [|intros ?; simplify_eq; by apply opened_none..].
  intros E. apply (makeBridge_opened cfg) in E; [exact E|by apply wf_set_peerips].
Qed.

Lemma newTCPBridge6_opened cfg env tcp src dst sport dport s r s' :
  wf cfg s -> newTCPBridge6 env tcp src dst sport dport s = Ok (r, s') ->
  opened cfg (src, sport, dst, dport) s r s'.
Proof.
  intros Hw. unfold newTCPBridge6.
  destruct (ParseSegment tcp) as [seg|]; [|intros ?; simplify_eq; by apply opened_none_eq].
  destruct (e_netDial _ _ _); [|intros ?; simplify_eq; by apply opened_none_eq].
  intros E. by apply (makeBridge_opened cfg) in E.
Qed.

Lemma dispatchTCP_wf cfg k v6 tcp rst new s s' :
  wf cfg s -> key_ok v6 k ->
  (forall s s', wf cfg s -> rst s = Ok s' -> wf cfg s') ->
  (forall r s', new s = Ok (r, s') -> opened cfg k s r s') ->
  dispatchTCP k tcp rst new s = Ok s' -> wf cfg s'.
Proof.
  intros Hw Hk Hr Hn. unfold dispatchTCP.
  destruct (tcpConns s !! k) as [p|]; [by apply feedTCP_wf|].
  destruct (has_flag _ _); [|by apply Hr].
  intros E. apply rbind_Ok in E as ([r s1] & E1 & E).
  destruct (Hn _ _ E1) as (Hw1 & Et & Hb).
  destruct r as [p|]; [|by eapply Hr].
  simplify_eq. destruct Hw1. split; simpl; try done.
  intros q r. rewrite lookup_insert_Some. intros [[<- <-]|[_ Hq]].
  - split; [by exists v6|]. by apply Hb.
  - by apply wf_tcp0.
Qed.

Lemma sendRST4_wf cfg tcp src dst s s' : wf cfg s -> sendRST4 tcp src dst s = Ok s' -> wf cfg s'.
Proof. intros Hw E. checked E. apply rbind_Ok in E as (pkt & _ & E). simplify_eq. by apply wf_set_out. Qed.
Lemma sendRST6_wf cfg tcp src dst s s' : wf cfg s -> sendRST6 tcp src dst s = Ok s' -> wf cfg s'.
Proof. intros Hw E. checked E. apply rbind_Ok in E as (pkt & _ & E). simplify_eq. by apply wf_set_out. Qed.

Lemma u16_at_range l i : is_bytes l -> 0 <= u16_at l i < 65536.
Proof.
  intros Hl. unfold u16_at. pose proof (be_val_bound (sub l i 2) (is_bytes_sub l i 2 Hl)).
  assert (zlen (sub l i 2) <= 2) by (unfold zlen; rewrite length_sub_gen; lia).
  pose proof (zlen_nonneg (sub l i 2)).
  assert (256 ^ zlen (sub l i 2) <= 256 ^ 2) by (apply Z.pow_le_mono_r; lia).
  change (256 ^ 2) with 65536 in *. lia.
Qed.

Lemma newFlow_wf cfg v6 now k addr data s :
  wf cfg s -> key_ok v6 k -> wf cfg (newFlow v6 now k addr data s).
Proof.
  intros [] Hk. destruct k as [[[src sport] dst] dport].
  unfold newFlow, setUDP, udpTable. destruct v6; split; simpl;
    eauto using fresh_S, fresh_insert, udp_ok_fresh.
  all: eapply udp_ok_insert; [by apply udp_ok_fresh|done|apply lookup_insert_eq|done].
Qed.

Lemma set_flows_alter_wf cfg p g s :
  (forall f, flow_key (g f) = flow_key f) ->
  wf cfg s -> wf cfg (set_flows (alter g p (ts_flows s)) (udpConns4 s) (udpConns6 s) s).
Proof. intros Hg []. split; simpl; auto using udp_ok_alter, fresh_alter. Qed.

Lemma setUDP_delete_wf cfg v6 p k s :
  wf cfg s -> wf cfg (setUDP v6 (alter connClose p (ts_flows s)) (delete k (udpTable v6 s)) s).
Proof.
  intros []. unfold setUDP, udpTable.
  destruct v6; split; simpl; auto using udp_ok_alter, fresh_alter, udp_ok_delete.
Qed.

Lemma udpRead_wf cfg v6 now p data s s' : wf cfg s -> udpRead v6 now p data s = Ok s' -> wf cfg s'.
Proof.
  intros Hw. unfold udpRead. destruct (ts_flows s !! p) as [f|] eqn:Ef; [|intros ?; by simplify_eq].
  intros E. apply rbind_Ok in E as (pkt & _ & E). simplify_eq. apply wf_set_out.
  rewrite (insert_alter _ _ _ _ Ef). by apply set_flows_alter_wf.
Qed.

Lemma cleanup_wf cfg now s : wf cfg s -> wf cfg (udpCleanup now (tcpCleanup s)).
Proof.
  intros Hw. unfold udpCleanup, tcpCleanup.
  set (l2 := range_map 2 _). set (l3 := range_map 3 _). clearbody l2 l3.
  generalize (range_map 1 (tcpConns s)) as l1. intros l1.
  assert (forall l s, wf cfg s -> wf cfg (foldl tcpCleanupEntry s l)) as Htcp.
  { clear. induction l as [|[k p] l IH]; intros s Hw; simpl; [done|]. apply IH.
    unfold tcpCleanupEntry. simpl. destruct (ts_bridges s !! p) as [b|] eqn:Eb; [|done].
    destruct (State (vc b)); try done. destruct Hw.
    split; simpl; eauto using fresh_update, tcp_ok_delete.
    by eapply tcp_ok_delete, tcp_ok_update. }
  assert (forall v6 l s, wf cfg s -> wf cfg (foldl (udpCleanupEntry v6 now) s l)) as Hudp.
  { clear. intros v6. induction l as [|[k p] l IH]; intros s Hw; simpl; [done|]. apply IH.
    unfold udpCleanupEntry. simpl. destruct (ts_flows s !! p) as [f|]; [|done].
    destruct (_ <? _); [|done]. by apply setUDP_delete_wf. }
  auto.
Qed.

End invariants.

(** ** What the device guarantees *)
Section theorems.
Context `{Vtcp} `{GoSort} `{MapRange}.

Definition event_ok (e : event) : Prop :=
  match e with EvPacket _ buf n => is_bytes buf /\ (n <= length buf)%nat | _ => True end.

Lemma tcp_key_ok4 buf n ihl :
  is_bytes buf -> (n <= length buf)%nat -> (20 <= n)%nat ->
  key_ok false (sub buf 12 4, u16_at (drop ihl (take n buf)) 0,
                sub buf 16 4, u16_at (drop ihl (take n buf)) 2).
Proof.
  intros Hb Hl Hn. assert (is_bytes (drop ihl (take n buf))) by auto with wire.
  pose proof (u16_at_range _ 0 ltac:(eassumption)). pose proof (u16_at_range _ 2 ltac:(eassumption)).
  simpl. repeat split; try lia; auto with wire; len.
Qed.

Lemma tcp_key_ok6 buf n :
  is_bytes buf -> (n <= length buf)%nat -> (40 <= n)%nat ->
  key_ok true (sub buf 8 16, u16_at (drop 40 (take n buf)) 0,
               sub buf 24 16, u16_at (drop 40 (take n buf)) 2).
Proof.
  intros Hb Hl Hn. assert (is_bytes (drop 40 (take n buf))) by auto with wire.
  pose proof (u16_at_range _ 0 ltac:(eassumption)). pose proof (u16_at_range _ 2 ltac:(eassumption)).
  simpl. repeat split; try lia; auto with wire; len.
Qed.

Lemma handleTCP4_wf cfg env pkt ihl src dst s s' :
  wf cfg s ->
  key_ok false (src, u16_at (drop ihl pkt) 0, dst, u16_at (drop ihl pkt) 2) ->
  handleTCP4 cfg env pkt ihl src dst s = Ok s' -> wf cfg s'.
Proof.
  intros Hw Hk. unfold handleTCP4. intros E. checked E. destruct (_ <? _)%nat.
  - by simplify_eq.
  - checked E. revert E. eapply dispatchTCP_wf; try done; [intros ? ?; by apply sendRST4_wf|].
    intros r s1. by apply newTCPBridge_opened.
Qed.

Lemma handleTCP6_wf cfg env pkt src dst s s' :
  wf cfg s ->
  key_ok true (src, u16_at (drop 40 pkt) 0, dst, u16_at (drop 40 pkt) 2) ->
  handleTCP6 env pkt src dst s = Ok s' -> wf cfg s'.
Proof.
  intros Hw Hk. unfold handleTCP6. intros E. checked E. destruct (_ <? _)%nat.
  - by simplify_eq.
  - checked E. revert E. eapply dispatchTCP_wf; try done; [intros ? ?; by apply sendRST6_wf|].
    intros r s1. by apply newTCPBridge6_opened.
Qed.

Lemma feedUDP_wf cfg now p data s : wf cfg s -> wf cfg (feedUDP now p data s).
Proof. by apply set_flows_alter_wf. Qed.

Lemma handleUDP4_wf cfg env pkt ihl src dst s s' :
  wf cfg s ->
  key_ok false (src, u16_at (drop ihl pkt) 0, dst, u16_at (drop ihl pkt) 2) ->
  handleUDP4 cfg env pkt ihl src dst s = Ok s' -> wf cfg s'.
Proof.
  intros Hw Hk. unfold handleUDP4. intros E. checked E.
  destruct (_ <? _)%nat; [by simplify_eq|]. checked E. revert E.
  destruct (udpConns4 s !! _); [intros ?; simplify_eq; by apply feedUDP_wf|].
  destruct (route _ _ _ _ _) as [a s1] eqn:E.
  destruct (route_peers _ _ _ _ _ _ _ (wf_peers _ _ Hw) E) as (m & -> & Hm).
  repeat case_match; intros E2; apply Ok_inj in E2 as <-; try (by apply wf_set_peerips).
  apply newFlow_wf; [by apply wf_set_peerips|done].
Qed.

Lemma handleUDP6_wf cfg env pkt src dst s s' :
  wf cfg s ->
  key_ok true (src, u16_at (drop 40 pkt) 0, dst, u16_at (drop 40 pkt) 2) ->
  handleUDP6 env pkt src dst s = Ok s' -> wf cfg s'.
Proof.
  intros Hw Hk. unfold handleUDP6. intros E. checked E.
  destruct (_ <? _)%nat; [by simplify_eq|]. checked E. revert E. repeat case_match;
    intros E2; apply Ok_inj in E2 as <-; try done.
  - by apply feedUDP_wf.
  - by apply newFlow_wf.
Qed.

Lemma icmp_wf cfg env ipport s id s1 b :
  wf cfg s -> peeridByConnIP cfg env ipport s = (id, s1) -> wf cfg (writeTunBuf b s1).
Proof.
  intros Hw E. destruct (peeridByConnIP_peers _ _ _ _ _ _ (wf_peers _ _ Hw) E) as (m & -> & Hm & _).
  by apply wf_set_out, wf_set_peerips.
Qed.

Lemma handleICMP4_wf cfg env buf n ihl s r :
  wf cfg s -> handleICMP4 cfg env buf n ihl s = Ok r -> wf cfg r.2.
Proof.
  intros Hw. unfold handleICMP4. intros E. checked E.
  destruct (_ <? _)%nat; [by apply Ok_inj in E as <-|]. checked E.
  destruct (negb _); [by apply Ok_inj in E as <-|]. checked E.
  destruct (peeridByConnIP _ _ _ _) as [id s1] eqn:Ep.
  destruct (String.eqb id ""); apply rbind_Ok in E as (b & _ & E);
    apply Ok_inj in E as <-; by eapply icmp_wf.
Qed.

Lemma handleICMP6_wf cfg env buf n s r :
  wf cfg s -> handleICMP6 cfg env buf n s = Ok r -> wf cfg r.2.
Proof.
  intros Hw. unfold handleICMP6. intros E.
  destruct (_ <? _)%nat; [by apply Ok_inj in E as <-|]. checked E.
  destruct (negb _); [by apply Ok_inj in E as <-|]. checked E.
  destruct (peeridByConnIP _ _ _ _) as [id s1] eqn:Ep.
  destruct (String.eqb id ""); apply rbind_Ok in E as (b & _ & E);
    apply Ok_inj in E as <-; by eapply icmp_wf.
Qed.

Lemma tunStep_wf cfg env buf n s s' :
  wf cfg s -> is_bytes buf -> (n <= length buf)%nat ->
  tunStep cfg env buf n s = Ok s' -> wf cfg s'.
Proof.
  intros Hw Hb Hl. unfold tunStep, handleProto. intros E. checked E. revert E.
  destruct (Z.eqb_spec (Z.shiftr (at_ buf 0) 4) 4) as [E4|E4].
  - rewrite E4. destruct (Nat.ltb_spec n 20); [intros ?; by simplify_eq|]. intros E. checked E. revert E.
    destruct (classify _ _ _); try (intros ?; by simplify_eq).
    + intros E. apply rbind_Ok in E as (b & _ & E). simplify_eq. by apply wf_set_out.
    + cbn [Z.eqb Pos.eqb]. repeat case_match; try (intros ?; by simplify_eq); intros E.
      * apply rbind_Ok in E as (r & E & E1). simplify_eq. by eapply handleICMP4_wf.
      * eapply handleTCP4_wf; [done| |done]. by apply tcp_key_ok4.
      * eapply handleUDP4_wf; [done| |done]. by apply tcp_key_ok4.
      * apply rbind_Ok in E as (r & E & E1). simplify_eq. by eapply handleICMP6_wf.
  - destruct (Z.eqb_spec (Z.shiftr (at_ buf 0) 4) 6) as [E6|E6]; [|intros ?; by simplify_eq].
    rewrite E6. destruct (Nat.ltb_spec n 40); [intros ?; by simplify_eq|]. intros E. checked E. revert E.
    destruct (classify _ _ _); try (intros ?; by simplify_eq).
    + intros E. apply rbind_Ok in E as (b & _ & E). simplify_eq. by apply wf_set_out.
    + cbn [Z.eqb Pos.eqb]. repeat case_match; try (intros ?; by simplify_eq); intros E.
      * eapply handleTCP6_wf; [done| |done]. by apply tcp_key_ok6.
      * eapply handleUDP6_wf; [done| |done]. by apply tcp_key_ok6.
      * apply rbind_Ok in E as (r & E & E1). simplify_eq. by eapply handleICMP6_wf.
Qed.

Lemma run_wf cfg es s s' :
  wf cfg s -> Forall event_ok es -> run cfg es s = Ok s' -> wf cfg s'.
Proof.
  intros Hw He. revert s Hw. induction He as [|e es He _ IH]; intros s Hw E; simpl in E.
  - by simplify_eq.
  - apply rbind_Ok in E as (s1 & E1 & E). eapply IH; [|exact E]. destruct e; simpl in *.
    + destruct He. by eapply tunStep_wf.
    + by eapply remoteClosed_wf.
    + by eapply udpRead_wf.
    + simplify_eq. by apply setUDP_delete_wf.
    + simplify_eq. by apply cleanup_wf.
Qed.

(** C3. Whatever packets, replies, closures and cleanups the device sees, in any
    order, its state stays well formed: every TCP and UDP table entry points at the
    bridge or flow made for that address and port pair, and every learnt route maps
    an address to the peer that address is derived from. *)
Theorem virtun_run_wf cfg es s :
  Forall event_ok es -> run cfg es init_state = Ok s -> wf cfg s.
Proof. apply run_wf, init_wf. Qed.

End theorems.

(** ** Resets *)

(** RFC 793, page 36: the reset for a segment that does not belong to a
    connection.  The segment's length counts its SYN and FIN. *)
Definition rfc793_reset (tcp : bytes) : segment :=
  let flags := at_ tcp 13 in
  let b f := if has_flag flags f then 1 else 0 in
  let len := zlen tcp - Z.shiftr (at_ tcp 12) 4 * 4 + b FlagSYN + b FlagFIN in
  if has_flag flags FlagACK then
    {| SrcPort := u16_at tcp 2; DstPort := u16_at tcp 0; Seq := u32_at tcp 8; Ack := 0;
       Flags := FlagRST |}
  else
    {| SrcPort := u16_at tcp 2; DstPort := u16_at tcp 0; Seq := 0;
       Ack := (u32_at tcp 4 + len) mod 2 ^ 32; Flags := Z.lor FlagRST FlagACK |}.

Lemma rst_ack x d e :
  wrapu 32 (x + wrapu 32 (wrapu 32 d + e)) = (x + (d + e)) mod 2 ^ 32.
Proof.
  unfold wrapu. by rewrite Z.add_mod_idemp_l, Z.add_mod_idemp_r by lia.
Qed.

Lemma short_by_one x y :
  y = x + 1 -> y mod 2 ^ 32 = (x mod 2 ^ 32 + 1) mod 2 ^ 32 /\ x mod 2 ^ 32 <> y mod 2 ^ 32.
Proof.
  intros ->. rewrite Z.add_mod_idemp_l by lia. split; [done|]. intros E.
  pose proof (Z_div_mod_eq_full x (2 ^ 32)). pose proof (Z_div_mod_eq_full (x + 1) (2 ^ 32)).
  assert (2 ^ 32 * ((x + 1) / 2 ^ 32 - x / 2 ^ 32) = 1) by lia. lia.
Qed.

(** The reset answering a stray segment is the one RFC 793 prescribes, except for
    a SYN without ACK: there the acknowledgement number is one short, because the
    code does not count the SYN, so a client in SYN-SENT does not accept the reset
    and a refused connection looks like a lost one. *)
Theorem rst_segment_rfc793 tcp :
  let syn := has_flag (at_ tcp 13) FlagSYN in
  let ack := has_flag (at_ tcp 13) FlagACK in
  (ack || negb syn = true -> rstSegment tcp = rfc793_reset tcp) /\
  (syn && negb ack = true ->
   Ack (rfc793_reset tcp) = (Ack (rstSegment tcp) + 1) mod 2 ^ 32 /\
   Ack (rstSegment tcp) <> Ack (rfc793_reset tcp)).
Proof.
  intros syn ack. subst syn ack. unfold rstSegment, rfc793_reset. change FlagFIN with 1.
  set (d := zlen tcp - Z.shiftr (at_ tcp 12) 4 * 4).
  assert (forall x, wrapu 32 (x + wrapu 32 d) = (x + d) mod 2 ^ 32) as E0.
  { intros x. unfold wrapu. by rewrite Z.add_mod_idemp_r by lia. }
  destruct (has_flag (at_ tcp 13) FlagACK), (has_flag (at_ tcp 13) FlagSYN);
    (split; [intros Ha|intros Ha]); try done; cbn [Ack].
  - destruct (has_flag (at_ tcp 13) 1); rewrite ?rst_ack, ?E0; apply short_by_one; lia.
  - destruct (has_flag (at_ tcp 13) 1); f_equal; rewrite ?rst_ack, ?E0; f_equal; lia.
Qed.

(** A TCP package with the layout of RFC 793 and no behaviour of its own, to
    evaluate the definitions with. *)
Definition toy_vtcp : Vtcp :=
  {| vconn := vstate; vseg := bytes;
     ParseSegment b := if (length b <? 20)%nat then None else Some b;
     NewConn _ _ _ := StateOther;
     AcceptSYN _ _ := (StateEstablished, [be_bytes 20 0]);
     HandleSegment v _ := (v, []);
     CloseConn _ := (StateClosed, []);
     State v := v;
     Marshal s := be_bytes 2 (SrcPort s) ++ be_bytes 2 (DstPort s) ++ be_bytes 4 (Seq s) ++
                  be_bytes 4 (Ack s) ++ [0x50; Flags s; 0; 0; 0; 0; 0; 0] |}.

Definition example_cfg : tun_config :=
  {| VlanPfx := "10.0.0."; LocalPeerIP := "10.0.0.2"; localIP := [10; 0; 0; 2];
     localIP6 := None; darwin := true; peerIPMap := ∅ |}.
Definition example_env : tun_env :=
  {| e_now := 100 * second; e_peers := ["peerA"]; e_dial _ := DialOk; e_dialUDP _ := true;
     e_netDial _ _ := true |}.

(** The address example_cfg gives to peerA. *)
Example peerA_address : mappedIP example_cfg "peerA" = "10.0.0.111".
Proof. vm_compute. reflexivity. Qed.

Section replies.
Context `{Vtcp} `{GoSort} `{MapRange}.

Lemma build4_length proto off src dst seg pkt :
  ip4 src -> ip4 dst -> is_byte proto -> build4 proto off src dst seg = Ok pkt ->
  zlen pkt = 20 + zlen seg.
Proof.
  intros Hs Hd Hp. unfold build4. destruct (Nat.ltb_spec (length seg) (off + 2)); [done|].
  intros E. apply Ok_inj in E as <-. rewrite zlen_app. unfold zlen.
  destruct (header4_spec proto (20 + Z.of_nat (length seg)) src dst Hs Hd Hp) as [-> _].
  rewrite length_sealL4 by lia. lia.
Qed.

(** The datagram a flow's answer is wrapped in. *)
Definition reply_segment (k : natkey) (data : bytes) : bytes :=
  let '(_, sport, _, dport) := k in
  be_bytes 2 dport ++ be_bytes 2 sport ++ be_bytes 2 (8 + zlen data) ++ [0; 0] ++ data.

Lemma udpRead_built cfg now p s src sport dst dport data :
  wf cfg s -> udpConns4 s !! (src, sport, dst, dport) = Some p ->
  is_bytes data -> zlen data <= 65507 ->
  exists f pkt, ts_flows s !! p = Some f /\
    buildUDP4 dst src (reply_segment (src, sport, dst, dport) data) = Ok pkt /\
    valid4 protoUDP 6 dst src (reply_segment (src, sport, dst, dport) data) pkt /\
    zlen pkt = 28 + zlen data /\
    udpRead false now p data s =
      Ok (writeTun pkt (set_flows (<[p := touch now f]> (ts_flows s))
                          (udpConns4 s) (udpConns6 s) s)).
Proof.
  intros Hw Hk Hb Hl. pose proof (zlen_nonneg data).
  destruct (wf_udp4 _ _ Hw _ _ Hk) as ((Ls & Bs & Ld & Bd & Ps & Pd) & f & Ef & Ek).
  unfold flow_key in Ek. simplify_eq.
  set (seg := reply_segment _ data).
  assert (is_bytes seg) as Hseg.
  { unfold seg, reply_segment. rewrite !is_bytes_app. repeat split; auto with wire. }
  assert (zlen seg = 8 + zlen data) as Lseg.
  { unfold seg, reply_segment, zlen. len. }
  destruct (build4_valid protoUDP 6 (serverIP f) (clientIP f) seg) as (pkt & E & V);
    [by split|by split|done|done|lia|by exists 3%nat|unfold zlen in *; lia|].
  exists f, pkt. split; [done|]. split; [exact E|]. split; [exact V|]. split.
  - apply build4_length in E; [lia|by split|by split|done].
  - unfold udpRead. rewrite Ef. unfold udpReply. rewrite (wrapu_small 16) by lia.
    fold (reply_segment (clientIP f, clientPort f, serverIP f, serverPort f) data).
    fold seg. unfold buildUDP4. by rewrite E.
Qed.

(** A datagram read from the remote end of a flow comes back to the program that
    opened it as one valid UDP packet, addressed from the server of the flow to its
    client, carrying exactly the datagram; the flow's timestamp is renewed. *)
Theorem udp_reply_written cfg now p s src sport dst dport data :
  wf cfg s -> udpConns4 s !! (src, sport, dst, dport) = Some p ->
  is_bytes data -> zlen data <= 1876 ->
  exists s' pkt f, udpRead false now p data s = Ok s' /\ ts_out s' = pkt :: ts_out s /\
    valid4 protoUDP 6 dst src (reply_segment (src, sport, dst, dport) data) pkt /\
    ts_flows s' !! p = Some f /\ lastUse f = now /\ udpConns4 s' = udpConns4 s.
Proof.
  intros Hw Hk Hb Hl.
  destruct (udpRead_built cfg now p s src sport dst dport data) as (f & pkt & Ef & _ & V & L & E);
    try done; [lia|].
  exists (writeTun pkt (set_flows (<[p := touch now f]> (ts_flows s)) (udpConns4 s) (udpConns6 s) s)),
    pkt, (touch now f).
  split; [exact E|]. split; [|split; [done|split; [apply lookup_insert_eq|done]]].
  cbn [ts_out writeTun set_out set_flows]. rewrite take_ge; [done|].
  unfold zlen, tunMTU in *. lia.
Qed.

(** Beyond 1876 bytes the packet does not fit [writeTun]'s buffer: 1904 bytes of
    it are written, under a header that still announces all of them. *)
Theorem udp_reply_truncated cfg now p s src sport dst dport data :
  wf cfg s -> udpConns4 s !! (src, sport, dst, dport) = Some p ->
  is_bytes data -> 1876 < zlen data <= 65507 ->
  exists s' pkt, udpRead false now p data s = Ok s' /\ ts_out s' = pkt :: ts_out s /\
    zlen pkt = 1904 /\ be_val (sub pkt 2 2) = 28 + zlen data.
Proof.
  intros Hw Hk Hb Hl.
  destruct (udpRead_built cfg now p s src sport dst dport data) as (f & pkt & Ef & _ & V & L & E);
    try done; [lia|].
  do 2 eexists. split; [exact E|]. split; [reflexivity|]. unfold tunMTU.
  unfold zlen in *. split; [rewrite length_take; lia|].
  assert (sub (take (1900 + 4) pkt) 2 2 = sub pkt 2 2) as ->.
  { unfold sub. rewrite skipn_firstn_comm, take_take. f_equal. }
  rewrite (v4_length _ _ _ _ _ _ V). done.
Qed.

End replies.

(** A flow opened by a datagram from 10.0.0.2:5000 to 10.0.0.111:53. *)
Definition example_key : natkey := ([10; 0; 0; 2], 5000, [10; 0; 0; 111], 53).
Definition example_udp : bytes :=
  header4 protoUDP 32 [10; 0; 0; 2] [10; 0; 0; 111] ++
  be_bytes 2 5000 ++ be_bytes 2 53 ++ be_bytes 2 12 ++ [0; 0] ++ [1; 2; 3; 4].

Definition example_state : @tun_state toy_vtcp :=
  newFlow (H := toy_vtcp) false 0 example_key "peerA:53" [1; 2; 3; 4]
    (set_peerips (H := toy_vtcp) {["10.0.0.111" := "peerA"]} init_state).

Lemma example_state_wf : wf (H := toy_vtcp) example_cfg example_state.
Proof.
  apply (newFlow_wf (H := toy_vtcp)).
  - apply wf_set_peerips; [apply init_wf|]. intros ip id. rewrite lookup_singleton_Some.
    intros [<- <-]. symmetry. exact peerA_address.
  - repeat split; try lia; bytes_lit.
Qed.

Definition example_events : list (@event) :=
  [EvPacket example_env example_udp 32; EvUdpRead false 5 0 [9]; EvCleanup 100].

Lemma virtun_run_wf_witness :
  let V := toy_vtcp in let G := insertion_go_sort in let M := map_to_list_range in
  returns (run example_cfg example_events init_state) (wf example_cfg).
Proof.
  intros V G M. apply is_ok_returns; [vm_compute; reflexivity|]. intros s.
  apply virtun_run_wf.
  repeat apply Forall_cons_2; try exact I; [|apply Forall_nil_2].
  split; [|vm_compute; lia]. apply (bool_decide_unpack _). vm_compute. exact I.
Defined.

Lemma udp_reply_written_witness :
  let V := toy_vtcp in
  exists s' pkt f, udpRead false 7 0 [8; 9] example_state = Ok s' /\
    ts_out s' = pkt :: ts_out example_state /\
    valid4 protoUDP 6 [10; 0; 0; 111] [10; 0; 0; 2] (reply_segment example_key [8; 9]) pkt /\
    ts_flows s' !! 0%nat = Some f /\ lastUse f = 7 /\ udpConns4 s' = udpConns4 example_state.
Proof.
  intros V. apply (udp_reply_written example_cfg);
    [apply example_state_wf|reflexivity|bytes_lit|vm_compute; congruence].
Defined.

Lemma udp_reply_truncated_witness :
  let V := toy_vtcp in
  exists s' pkt, udpRead false 7 0 (replicate 2000 5) example_state = Ok s' /\
    ts_out s' = pkt :: ts_out example_state /\
    zlen pkt = 1904 /\ be_val (sub pkt 2 2) = 28 + zlen (replicate 2000 5).
Proof.
  intros V. apply (udp_reply_truncated example_cfg 7 0 example_state [10; 0; 0; 2] 5000 [10; 0; 0; 111] 53);
    [apply example_state_wf|reflexivity|apply is_bytes_replicate; unfold is_byte; lia|
     unfold zlen; rewrite length_replicate; lia].
Defined.

(** ** Routing *)
Section routing.
Context `{Vtcp} `{GoSort} `{MapRange}.

Lemma StringToHostPart_range id : 2 <= StringToHostPart id <= 254.
Proof.
  unfold StringToHostPart. pose proof (Z.mod_pos_bound (crc64 (string_bytes id)) 253). lia.
Qed.

Lemma ip4_host dst port :
  length dst = 4%nat ->
  SplitHostPort (JoinHostPort (ip_string dst) (utoa port)) = Ok (ip_string dst, utoa port).
Proof.
  intros L. assert (ip_string dst = ip4_string dst) as ->.
  { unfold ip_string, to4. by rewrite L. }
  apply SplitHostPort_Join; [| |unfold no_brackets|apply utoa_digits];
    by rewrite ?has_char_ip4 by (exact id || done).
Qed.

(** The peer a destination is routed to. *)
Definition routed_to (cfg : tun_config) (dst : bytes) (dport : Z) (addr : string) : Prop :=
  (addr = JoinHostPort (ip_string dst) (utoa dport) /\
   has_prefix (LocalPeerIP cfg +:+ ":") addr = true) \/
  exists id, id <> "" /\ addr = JoinHostPort id (utoa dport) /\
    ip_string dst = VlanPfx cfg +:+ utoa (StringToHostPart id) /\
    2 <= StringToHostPart id <= 254.

Lemma route_routed cfg env dst port s addr s' :
  peers_ok cfg (peerips s) -> length dst = 4%nat ->
  route cfg env dst port s = (Some addr, s') -> routed_to cfg dst port addr.
Proof.
  intros Hp L. unfold route.
  destruct (has_prefix _ _) eqn:Epf; [intros ?; simplify_eq; by left|].
  destruct (peeridByConnIP _ _ _ _) as [id s1] eqn:E.
  destruct (peeridByConnIP_peers _ _ _ _ _ _ Hp E) as (m & _ & _ & Hid).
  destruct (String.eqb_spec id "") as [->|Hne]; intros ?; simplify_eq.
  right. exists id. destruct (Hid Hne) as (host & pt & Es & ->).
  rewrite ip4_host in Es by done. simplify_eq.
  split; [done|]. split; [done|]. split; [done|]. apply StringToHostPart_range.
Qed.

(** *** New connections *)

(** The TCP segment of the packet in the first [n] bytes of [buf], and its key. *)
Definition packet_tcp (buf : bytes) (n : nat) : bytes :=
  drop (if Z.shiftr (at_ buf 0) 4 =? 4 then Z.to_nat (Z.land (at_ buf 0) 15 * 4) else 40%nat) (take n buf).

Definition packet_key (buf : bytes) (n : nat) : natkey :=
  let tcp := packet_tcp buf n in
  if Z.shiftr (at_ buf 0) 4 =? 4 then (sub buf 12 4, u16_at tcp 0, sub buf 16 4, u16_at tcp 2)
  else (sub buf 8 16, u16_at tcp 0, sub buf 24 16, u16_at tcp 2).

Lemma sendRST4_conns tcp src dst s s' : sendRST4 tcp src dst s = Ok s' -> tcpConns s' = tcpConns s.
Proof. intros E. checked E. apply rbind_Ok in E as (pk & _ & E). by apply Ok_inj in E as <-. Qed.

Lemma sendRST6_conns tcp src dst s s' : sendRST6 tcp src dst s = Ok s' -> tcpConns s' = tcpConns s.
Proof. intros E. checked E. apply rbind_Ok in E as (pk & _ & E). by apply Ok_inj in E as <-. Qed.

Lemma feedTCP_conns p tcp s s' : feedTCP p tcp s = Ok s' -> tcpConns s' = tcpConns s.
Proof.
  unfold feedTCP. destruct (ts_bridges s !! p) as [b|]; [|intros E; by apply Ok_inj in E as <-].
  destruct (ParseSegment tcp); [|intros E; by apply Ok_inj in E as <-]. destruct (HandleSegment _ _) as [w pkts].
  intros E. by apply flush_same in E as [o ->].
Qed.

Lemma handleUDP4_conns cfg env pkt ihl src dst s s' : wf cfg s ->
  handleUDP4 cfg env pkt ihl src dst s = Ok s' -> tcpConns s' = tcpConns s.
Proof.
  intros Hw. unfold handleUDP4. intros E. checked E. destruct (_ <? _)%nat; [by simplify_eq|]. checked E. revert E.
  destruct (udpConns4 s !! _); [intros ?; by simplify_eq|]. destruct (route _ _ _ _ _) as [a s1] eqn:E.
  destruct (route_peers _ _ _ _ _ _ _ (wf_peers _ _ Hw) E) as (m & -> & Hm).
  repeat case_match; intros E2; by apply Ok_inj in E2 as <-.
Qed.

Lemma handleUDP6_conns env pkt src dst s s' : handleUDP6 env pkt src dst s = Ok s' -> tcpConns s' = tcpConns s.
Proof.
  unfold handleUDP6. intros E. checked E. destruct (_ <? _)%nat; [by simplify_eq|]. checked E. revert E.
  repeat case_match; intros E2; by apply Ok_inj in E2 as <-.
Qed.

Lemma handleICMP4_conns cfg env buf n ihl s r : wf cfg s ->
  handleICMP4 cfg env buf n ihl s = Ok r -> tcpConns r.2 = tcpConns s.
Proof.
  intros Hw. unfold handleICMP4. intros E. checked E.
  destruct (_ <? _)%nat; [by apply Ok_inj in E as <-|]. checked E.
  destruct (negb _); [by apply Ok_inj in E as <-|]. checked E. destruct (peeridByConnIP _ _ _ _) as [id s1] eqn:Ep.
  destruct (peeridByConnIP_peers _ _ _ _ _ _ (wf_peers _ _ Hw) Ep) as (m & -> & _).
  destruct (String.eqb id ""); apply rbind_Ok in E as (b & _ & E); by apply Ok_inj in E as <-.
Qed.

Lemma handleICMP6_conns cfg env buf n s r : wf cfg s ->
  handleICMP6 cfg env buf n s = Ok r -> tcpConns r.2 = tcpConns s.
Proof.
  intros Hw. unfold handleICMP6. intros E. destruct (_ <? _)%nat; [by apply Ok_inj in E as <-|]. checked E.
  destruct (negb _); [by apply Ok_inj in E as <-|]. checked E. destruct (peeridByConnIP _ _ _ _) as [id s1] eqn:Ep.
  destruct (peeridByConnIP_peers _ _ _ _ _ _ (wf_peers _ _ Hw) Ep) as (m & -> & _).
  destruct (String.eqb id ""); apply rbind_Ok in E as (b & _ & E); by apply Ok_inj in E as <-.
Qed.

(** The bridge [b] of a segment, dialled at [addr]. *)
Definition bridge_of (tcp : bytes) (k : natkey) (mss : Z) (b : tcpBridge) : Prop :=
  let '(_, sport, _, dport) := k in
  bridge_for k b /\ b_open b = true /\
  exists seg, ParseSegment tcp = Some seg /\ vc b = (AcceptSYN (NewConn dport sport mss) seg).1.

Lemma makeBridge_spec seg src dst sport dport mss addr s r s' :
  makeBridge seg src dst sport dport mss addr s = Ok (r, s') ->
  tcpConns s' = tcpConns s /\ exists p b, r = Some p /\ ts_bridges s' !! p = Some b /\ b_open b = true /\
    bridge_for (src, sport, dst, dport) b /\ b_addr b = addr /\ vc b = (AcceptSYN (NewConn dport sport mss) seg).1.
Proof.
  unfold makeBridge. destruct (AcceptSYN _ _) as [v pkts]. intros E. apply rbind_Ok in E as (s3 & E3 & E).
  apply Ok_inj in E. injection E as <- <-. apply flush_same in E3 as [o ->]. split; [done|].
  eexists _, _. split; [done|]. split; [apply lookup_insert_eq|done].
Qed.

Lemma newTCPBridge_spec cfg env tcp src dst sport dport s r s' : wf cfg s ->
  newTCPBridge cfg env tcp src dst sport dport s = Ok (r, s') ->
  tcpConns s' = tcpConns s /\ forall p, r = Some p -> exists b, ts_bridges s' !! p = Some b /\
    bridge_of tcp (src, sport, dst, dport) 1460 b /\ e_dial env (b_addr b) = DialOk /\
    (length dst = 4%nat -> routed_to cfg dst dport (b_addr b)).
Proof.
  intros Hw. unfold newTCPBridge. destruct (ParseSegment tcp) as [seg|] eqn:Eg; [|intros ?; by simplify_eq].
  destruct (route cfg env dst dport s) as [a s2] eqn:Er.
  destruct (route_peers _ _ _ _ _ _ _ (wf_peers _ _ Hw) Er) as (m & -> & Hm).
  destruct a as [addr|]; [|intros ?; by simplify_eq].
  destruct (e_dial env addr) eqn:Ed; [|intros ?; by simplify_eq..].
  intros E. destruct (makeBridge_spec _ _ _ _ _ _ _ _ _ _ E) as (Ec & p & b & -> & Hb & Ho & Hf & Ha & Hv).
  split; [done|]. intros ? [= <-]. exists b. split; [done|]. rewrite Ha. split; [|split; [done|]].
  - split; [done|]. split; [done|]. by exists seg.
  - intros L. eapply route_routed; [by apply Hw|done|exact Er].
Qed.

Lemma newTCPBridge6_spec env tcp src dst sport dport s r s' :
  newTCPBridge6 env tcp src dst sport dport s = Ok (r, s') ->
  tcpConns s' = tcpConns s /\ forall p, r = Some p -> exists b, ts_bridges s' !! p = Some b /\
    bridge_of tcp (src, sport, dst, dport) 1440 b /\
    b_addr b = JoinHostPort (ip_string dst) (utoa dport) /\ e_netDial env "tcp6" (b_addr b) = true.
Proof.
  unfold newTCPBridge6. destruct (ParseSegment tcp) as [seg|] eqn:Eg; [|intros ?; by simplify_eq].
  destruct (e_netDial _ _ _) eqn:Ed; [|intros ?; by simplify_eq].
  intros E. destruct (makeBridge_spec _ _ _ _ _ _ _ _ _ _ E) as (Ec & p & b & -> & Hb & Ho & Hf & Ha & Hv).
  split; [done|]. intros ? [= <-]. exists b. split; [done|]. rewrite Ha. split; [|done].
  split; [done|]. split; [done|]. by exists seg.
Qed.

(** A key that was not in the table and is after a segment is the one of the segment,
    which is a SYN and has made the bridge. *)
Lemma dispatchTCP_new k tcp rst new s s' k' p (P : tun_state -> nat -> Prop) :
  (forall s0 s1, rst s0 = Ok s1 -> tcpConns s1 = tcpConns s0) ->
  (forall r s1, new s = Ok (r, s1) -> tcpConns s1 = tcpConns s /\ forall q, r = Some q -> P s1 q) ->
  (forall s1 t q, P s1 q -> P (set_bridges (ts_bridges s1) t s1) q) ->
  dispatchTCP k tcp rst new s = Ok s' -> tcpConns s !! k' = None -> tcpConns s' !! k' = Some p ->
  k' = k /\ has_flag (at_ tcp 13) FlagSYN = true /\ P s' p.
Proof.
  intros Hr Hn HP. unfold dispatchTCP. intros E Hk Hp. destruct (tcpConns s !! k) eqn:Ek.
  { apply feedTCP_conns in E. congruence. }
  destruct (has_flag _ _); [|apply Hr in E; congruence].
  apply rbind_Ok in E as ([r s1] & E1 & E). destruct (Hn _ _ E1) as [Ec Hq]. destruct r as [q|]; [|apply Hr in E; congruence].
  apply Ok_inj in E as <-. cbn in Hp. rewrite Ec in Hp. destruct (decide (k' = k)) as [->|Hne].
  - rewrite lookup_insert_eq in Hp. simplify_eq. split; [done|]. split; [done|]. by apply HP, Hq.
  - rewrite lookup_insert_ne in Hp by done. congruence.
Qed.

Lemma handleTCP4_new cfg env pkt ihl src dst s s' k p : wf cfg s -> length dst = 4%nat ->
  handleTCP4 cfg env pkt ihl src dst s = Ok s' -> tcpConns s !! k = None -> tcpConns s' !! k = Some p ->
  let tcp := drop ihl pkt in
  k = (src, u16_at tcp 0, dst, u16_at tcp 2) /\ has_flag (at_ tcp 13) FlagSYN = true /\
  exists b, ts_bridges s' !! p = Some b /\ bridge_of tcp k 1460 b /\
    e_dial env (b_addr b) = DialOk /\ routed_to cfg dst (u16_at tcp 2) (b_addr b).
Proof.
  intros Hw L E Hk Hp tcp. unfold handleTCP4 in E. fold tcp in E. checked E. destruct (_ <? _)%nat; [simplify_eq; congruence|]. checked E.
  eapply (dispatchTCP_new _ _ _ _ _ _ k p (fun s1 q => exists b, ts_bridges s1 !! q = Some b /\
    bridge_of tcp (src, u16_at tcp 0, dst, u16_at tcp 2) 1460 b /\ e_dial env (b_addr b) = DialOk /\
    (length dst = 4%nat -> routed_to cfg dst (u16_at tcp 2) (b_addr b)))) in E as (-> & Hf & b & Hb & B1 & B2 & B3);
    [|intros ? ?; apply sendRST4_conns|intros r s1; by apply newTCPBridge_spec|done|done|done].
  split; [done|]. split; [done|]. exists b. auto.
Qed.

Lemma handleTCP6_new env pkt src dst s s' k p :
  handleTCP6 env pkt src dst s = Ok s' -> tcpConns s !! k = None -> tcpConns s' !! k = Some p ->
  let tcp := drop 40 pkt in
  k = (src, u16_at tcp 0, dst, u16_at tcp 2) /\ has_flag (at_ tcp 13) FlagSYN = true /\
  exists b, ts_bridges s' !! p = Some b /\ bridge_of tcp k 1440 b /\
    b_addr b = JoinHostPort (ip_string dst) (utoa (u16_at tcp 2)) /\ e_netDial env "tcp6" (b_addr b) = true.
Proof.
  intros E Hk Hp tcp. unfold handleTCP6 in E. fold tcp in E. checked E. destruct (_ <? _)%nat; [simplify_eq; congruence|]. checked E.
  eapply (dispatchTCP_new _ _ _ _ _ _ k p (fun s1 q => exists b, ts_bridges s1 !! q = Some b /\
    bridge_of tcp (src, u16_at tcp 0, dst, u16_at tcp 2) 1440 b /\
    b_addr b = JoinHostPort (ip_string dst) (utoa (u16_at tcp 2)) /\ e_netDial env "tcp6" (b_addr b) = true)) in E as (-> & Hf & b & Hb & B);
    [|intros ? ?; apply sendRST6_conns|intros r s1; by apply newTCPBridge6_spec|done|done|done].
  split; [done|]. split; [done|]. by exists b.
Qed.

(** C13. A TCP connection enters the table only for the SYN of the packet just read, under
    that packet's addresses and ports, with an open bridge set up for exactly these.  Over
    IPv4 its destination is this host's address, or the address derived from the peer the
    connection is then dialled to (host part between 2 and 254), and the dial succeeded.
    Over IPv6 there is no routing to peers: the destination itself is dialled, whatever it
    is, and only a dial that succeeded makes a connection. *)
Theorem tcp_syn_routed cfg env buf n s s' k p :
  wf cfg s -> (n <= length buf)%nat -> tunStep cfg env buf n s = Ok s' ->
  tcpConns s !! k = None -> tcpConns s' !! k = Some p ->
  let tcp := packet_tcp buf n in
  k = packet_key buf n /\ has_flag (at_ tcp 13) FlagSYN = true /\
  exists b, ts_bridges s' !! p = Some b /\
    ((Z.shiftr (at_ buf 0) 4 = 4 /\ bridge_of tcp k 1460 b /\
      e_dial env (b_addr b) = DialOk /\ routed_to cfg k.1.2 k.2 (b_addr b)) \/
     (Z.shiftr (at_ buf 0) 4 = 6 /\ bridge_of tcp k 1440 b /\
      b_addr b = JoinHostPort (ip_string k.1.2) (utoa k.2) /\ e_netDial env "tcp6" (b_addr b) = true)).
Proof.
  intros Hw Hl E Hk Hp. unfold tunStep, handleProto in E. unfold packet_key, packet_tcp. checked E. revert E.
  assert (forall s1 : tun_state, Ok s = Ok s1 -> tcpConns s1 = tcpConns s) as Hsame by (intros s1 ?; by simplify_eq).
  assert (tcpConns s' = tcpConns s -> False) as Hno by (intros; congruence).
  destruct (Z.eqb_spec (Z.shiftr (at_ buf 0) 4) 4) as [E4|E4].
  - rewrite E4. destruct (Nat.ltb_spec n 20); [intros ?; exfalso; auto|]. intros E. checked E. revert E.
    destruct (classify _ _ _); try (intros ?; exfalso; by auto).
    + intros E. apply rbind_Ok in E as (b & _ & E). apply Ok_inj in E. subst s'. by destruct Hno.
    + cbn [Z.eqb Pos.eqb]. repeat case_match; try (intros ?; exfalso; by auto); intros E.
      * apply rbind_Ok in E as (r & E & E1). apply Ok_inj in E1. subst s'. exfalso. by apply Hno, (handleICMP4_conns cfg env buf n (Z.to_nat (Z.land (at_ buf 0) 15 * 4))).
      * eapply handleTCP4_new in E as (-> & Hf & b & Hb & B); [|done|len|done|done].
        split; [done|]. split; [done|]. exists b. split; [done|]. left. split; [done|exact B].
      * exfalso. by eapply Hno, handleUDP4_conns.
      * apply rbind_Ok in E as (r & E & E1). apply Ok_inj in E1. subst s'. exfalso. by apply Hno, (handleICMP6_conns cfg env buf n).
  - destruct (Z.eqb_spec (Z.shiftr (at_ buf 0) 4) 6) as [E6|E6]; [|intros ?; exfalso; auto].
    rewrite E6. destruct (Nat.ltb_spec n 40); [intros ?; exfalso; auto|]. intros E. checked E. revert E.
    destruct (classify _ _ _); try (intros ?; exfalso; by auto).
    + intros E. apply rbind_Ok in E as (b & _ & E). apply Ok_inj in E. subst s'. by destruct Hno.
    + cbn [Z.eqb Pos.eqb]. repeat case_match; try (intros ?; exfalso; by auto); intros E.
      * eapply handleTCP6_new in E as (-> & Hf & b & Hb & B); [|done|done].
        split; [done|]. split; [done|]. exists b. split; [done|]. right. split; [done|exact B].
      * exfalso. by eapply Hno, handleUDP6_conns.
      * apply rbind_Ok in E as (r & E & E1). apply Ok_inj in E1. subst s'. exfalso. by apply Hno, (handleICMP6_conns cfg env buf n).
Qed.

(** ** Cleanup *)
Definition expired (now : Z) (s : tun_state) (p : nat) : bool :=
  match ts_flows s !! p with
  | Some f => 60 * second <? time_sub now (lastUse f)
  | None => false
  end.

(** Closing a connection does not renew its flow. *)
Lemma expired_close now s v6 k p q :
  expired now (setUDP v6 (alter connClose p (ts_flows s)) (delete k (udpTable v6 s)) s) q =
  expired now s q.
Proof.
  unfold expired, setUDP. destruct v6; simpl.
  all: destruct (decide (p = q)) as [<-|];
    [rewrite lookup_alter_eq|by rewrite lookup_alter_ne].
  all: by destruct (ts_flows s !! p).
Qed.

(** Visiting the entries [l] of a table removes the expired ones among them. *)
Lemma udpCleanup_fold now v6 l s :
  let s' := foldl (udpCleanupEntry v6 now) s l in
  (forall q, expired now s' q = expired now s q) /\
  udpTable (negb v6) s' = udpTable (negb v6) s /\
  tcpConns s' = tcpConns s /\
  forall k, udpTable v6 s' !! k =
    if existsb (fun e => bool_decide (e.1 = k) && expired now s e.2) l then None
    else udpTable v6 s !! k.
Proof.
  revert s. induction l as [|[k0 p0] l IH]; intros s; [done|].
  cbn [foldl]. unfold udpCleanupEntry at 2 4 6 8. simpl fst. simpl snd.
  assert (expired now s p0 = match ts_flows s !! p0 with
    | Some f => 60 * second <? time_sub now (lastUse f) | None => false end) as Ee by done.
  destruct (ts_flows s !! p0) as [f|].
  2: { specialize (IH s) as (I1 & I2 & I3 & I4). split; [done|]. split; [done|]. split; [done|].
       intros k. rewrite I4. simpl. by rewrite Ee, andb_false_r. }
  destruct (60 * second <? time_sub now (lastUse f)).
  2: { specialize (IH s) as (I1 & I2 & I3 & I4). split; [done|]. split; [done|]. split; [done|].
       intros k. rewrite I4. simpl. by rewrite Ee, andb_false_r. }
  set (s1 := setUDP v6 _ _ s).
  destruct (IH s1) as (I1 & I2 & I3 & I4). clear IH.
  assert (forall q, expired now s1 q = expired now s q) as X by (intros q; apply expired_close).
  split; [intros q; by rewrite I1, X|].
  split; [rewrite I2; by destruct v6|]. split; [rewrite I3; by destruct v6|].
  intros k. rewrite I4. simpl. rewrite Ee, andb_true_r.
  assert (existsb (fun e => bool_decide (e.1 = k) && expired now s1 e.2) l =
          existsb (fun e => bool_decide (e.1 = k) && expired now s e.2) l) as ->.
  { clear I1 I2 I3 I4. induction l as [|e l IH]; simpl; [done|]. by rewrite IH, X. }
  assert (udpTable v6 s1 !! k = if bool_decide (k0 = k) then None else udpTable v6 s !! k) as ->.
  { unfold s1, setUDP, udpTable. destruct v6; simpl.
    all: case_bool_decide; [subst; apply lookup_delete_eq|by rewrite lookup_delete_ne]. }
  destruct (existsb _ l), (bool_decide (k0 = k)); done.
Qed.

Lemma existsb_range {V} (site : nat) (m : gmap natkey V) (P : V -> bool) (k : natkey) :
  existsb (fun e => bool_decide (e.1 = k) && P e.2) (range_map site m) =
  match m !! k with Some v => P v | None => false end.
Proof.
  apply eq_bool_prop_intro. rewrite Is_true_true, existsb_exists.
  split.
  - intros ([k' v] & Hin & Hb). rewrite andb_true_iff, bool_decide_eq_true in Hb.
    destruct Hb as [<- Hb]. apply list_elem_of_In, elem_of_range in Hin. simpl in *.
    by rewrite Hin, Hb.
  - destruct (m !! k) as [v|] eqn:E; [|done]. intros Hv. exists (k, v).
    rewrite <- list_elem_of_In, elem_of_range, bool_decide_true by done.
    split; [done|]. by apply Is_true_true.
Qed.

(** The periodic cleanup removes exactly the UDP flows that have been idle for
    more than 60 seconds, whatever order the table is visited in, and leaves the TCP
    table alone. *)
Theorem udp_cleanup_exact now s k p :
  udpConns4 s !! k = Some p ->
  udpConns4 (udpCleanup now s) !! k = (if expired now s p then None else Some p) /\
  tcpConns (udpCleanup now s) = tcpConns s.
Proof.
  intros Hk. unfold udpCleanup.
  set (s1 := foldl (udpCleanupEntry false now) s (range_map 2 (udpConns4 s))).
  destruct (udpCleanup_fold now true (range_map 3 (udpConns6 s1)) s1) as (_ & T & C & _).
  destruct (udpCleanup_fold now false (range_map 2 (udpConns4 s)) s) as (_ & _ & C1 & K).
  fold s1 in C1, K. change (negb true) with false in T. unfold udpTable in T, K.
  split; [|by rewrite C]. rewrite T, K.
  pose proof (existsb_range 2 (udpConns4 s) (expired now s) k) as ->. rewrite Hk.
  by destruct (expired now s p).
Qed.

End routing.

(** ** The read loop does not panic *)
Section totality.
Context `{Vtcp} `{GoSort} `{MapRange}.

(** Every segment the TCP package produces has its checksum field. *)
Record vtcp_laws : Prop := {
  accept_segments : forall v g v' ps,
    AcceptSYN v g = (v', ps) -> Forall (fun p => (18 <= length p)%nat) ps;
  handle_segments : forall v g v' ps,
    HandleSegment v g = (v', ps) -> Forall (fun p => (18 <= length p)%nat) ps;
  marshal_segment : forall g, (18 <= length (Marshal g))%nat
}.

Context (laws : vtcp_laws).

Lemma bridgeWrite_ok local remote p s :
  (18 <= length p)%nat -> exists s', bridgeWrite local remote p s = Ok s'.
Proof.
  intros Hp. unfold bridgeWrite, buildPacket4, buildPacket6, build4, build6.
  destruct (Nat.ltb_spec (length p) (16 + 2)); [lia|].
  case_match; by eexists.
Qed.

Lemma flush_ok local remote ps s :
  Forall (fun p => (18 <= length p)%nat) ps -> exists s', flush local remote ps s = Ok s'.
Proof.
  intros Hp. revert s. induction Hp as [|p ps Hp _ IH]; intros s; simpl; [by eexists|].
  destruct (bridgeWrite_ok local remote p s Hp) as [s1 ->]. apply IH.
Qed.

Lemma feedTCP_ok p tcp s : exists s', feedTCP p tcp s = Ok s'.
Proof.
  unfold feedTCP. destruct (ts_bridges s !! p) as [b|]; [|by eexists].
  destruct (ParseSegment tcp) as [g|]; [|by eexists].
  destruct (HandleSegment (vc b) g) as [v ps] eqn:E.
  apply flush_ok. by eapply handle_segments.
Qed.

Lemma sendRST4_ok tcp src dst s : (14 <= length tcp)%nat -> exists s', sendRST4 tcp src dst s = Ok s'.
Proof.
  intros Ht. unfold sendRST4, buildPacket4, build4. in_range. pose proof (marshal_segment laws (rstSegment tcp)).
  destruct (Nat.ltb_spec (length (Marshal (rstSegment tcp))) (16 + 2)); [lia|]. by eexists.
Qed.
Lemma sendRST6_ok tcp src dst s : (14 <= length tcp)%nat -> exists s', sendRST6 tcp src dst s = Ok s'.
Proof.
  intros Ht. unfold sendRST6, buildPacket6, build6. in_range. pose proof (marshal_segment laws (rstSegment tcp)).
  destruct (Nat.ltb_spec (length (Marshal (rstSegment tcp))) (16 + 2)); [lia|]. by eexists.
Qed.

Lemma makeBridge_ok seg src dst sport dport mss addr s :
  exists r, makeBridge seg src dst sport dport mss addr s = Ok r.
Proof.
  unfold makeBridge. destruct (AcceptSYN _ _) as [v ps] eqn:E.
  match goal with |- context [flush ?l ?r ps ?s] =>
    destruct (flush_ok l r ps s) as [s' ->]; [by eapply accept_segments|] end.
  by eexists.
Qed.

Lemma dispatchTCP_ok k tcp rst new s :
  (forall s, exists s', rst s = Ok s') -> (exists r, new s = Ok r) ->
  exists s', dispatchTCP k tcp rst new s = Ok s'.
Proof.
  intros Hr [[r s1] Hn]. unfold dispatchTCP.
  destruct (tcpConns s !! k); [apply feedTCP_ok|]. destruct (has_flag _ _); [|apply Hr].
  rewrite Hn. simpl. destruct r; [by eexists|apply Hr].
Qed.

Lemma handleTCP4_ok cfg env pkt ihl src dst s :
  (ihl <= length pkt)%nat -> exists s', handleTCP4 cfg env pkt ihl src dst s = Ok s'.
Proof.
  intros Hl. unfold handleTCP4. in_range.
  destruct (Nat.ltb_spec (length (drop ihl pkt)) 20); [by eexists|]. in_range.
  apply dispatchTCP_ok; [intros; apply sendRST4_ok; lia|].
  unfold newTCPBridge. destruct (ParseSegment _); [|by eexists].
  destruct (route _ _ _ _ _) as [[a|] s1]; [|by eexists].
  destruct (e_dial env a); [apply makeBridge_ok|by eexists..].
Qed.

Lemma handleTCP6_ok env pkt src dst s :
  (40 <= length pkt)%nat -> exists s', handleTCP6 env pkt src dst s = Ok s'.
Proof.
  intros Hl. unfold handleTCP6. in_range.
  destruct (Nat.ltb_spec (length (drop 40 pkt)) 20); [by eexists|]. in_range.
  apply dispatchTCP_ok; [intros; apply sendRST6_ok; lia|].
  unfold newTCPBridge6. destruct (ParseSegment _); [|by eexists].
  destruct (e_netDial _ _ _); [apply makeBridge_ok|by eexists].
Qed.

Lemma handleUDP4_ok cfg env pkt ihl src dst s :
  (ihl <= length pkt)%nat -> exists s', handleUDP4 cfg env pkt ihl src dst s = Ok s'.
Proof.
  intros Hl. unfold handleUDP4. in_range.
  destruct (Nat.ltb_spec (length (drop ihl pkt)) 8); [by eexists|]. in_range. repeat case_match; by eexists.
Qed.

Lemma handleUDP6_ok env pkt src dst s :
  (40 <= length pkt)%nat -> exists s', handleUDP6 env pkt src dst s = Ok s'.
Proof.
  intros Hl. unfold handleUDP6. in_range.
  destruct (Nat.ltb_spec (length (drop 40 pkt)) 8); [by eexists|]. in_range. repeat case_match; by eexists.
Qed.

Lemma handleICMP4_ok cfg env buf n ihl s :
  is_bytes buf -> zlen buf <= 65535 ->
  ihl = Z.to_nat (Z.land (at_ buf 0) 15 * 4) -> (20 <= ihl <= n)%nat -> (n <= length buf)%nat ->
  (at_ buf ihl = 8 -> (2 * ihl + 16 <= n)%nat) ->
  exists r, handleICMP4 cfg env buf n ihl s = Ok r.
Proof.
  intros Hb Hz Hi Hn Hl He. unfold handleICMP4. in_range.
  destruct (Nat.ltb_spec (n - ihl) 8); [by eexists|]. in_range.
  destruct (Z.eqb_spec (at_ buf ihl) 8) as [E8|]; [|by eexists]. specialize (He E8). simpl negb. in_range.
  assert (forall typ code, is_byte typ -> is_byte code ->
    exists out, writeICMPError4 typ buf n ihl code = Ok out) as Herr.
  { intros typ code Ht Hc.
    destruct (writeICMPError4_spec typ code buf n ihl Hb Hz Ht Hc Hi ltac:(lia) ltac:(lia))
      as (out & E & _). by exists out. }
  destruct (peeridByConnIP _ _ _ _) as [pid s1]. destruct (String.eqb pid "").
  - destruct (Herr 3 1) as [out E]; [done..|]. unfold writeICMPDestUnreach4. rewrite E. by eexists.
  - destruct (e_dial env _).
    + destruct (writeICMPEchoReply4_spec buf n ihl Hb Hz Hi ltac:(lia) ltac:(lia)) as (out & -> & _).
      by eexists.
    + destruct (Herr 11 1) as [out E]; [done..|]. unfold writeICMPTimeExceed4. rewrite E. by eexists.
    + destruct (Herr 3 (if isProtocolRefused msg then 3 else 1)) as [out E]; [done|by case_match|].
      unfold writeICMPDestUnreach4. rewrite E. by eexists.
Qed.

Lemma handleICMP6_ok cfg env buf n s :
  (n <= length buf)%nat -> ((48 <= n)%nat -> at_ buf 40 = 128 -> (96 <= n)%nat) ->
  exists r, handleICMP6 cfg env buf n s = Ok r.
Proof.
  intros Hl He. unfold handleICMP6.
  destruct (Nat.ltb_spec n 48); [by eexists|]. in_range.
  destruct (Z.eqb_spec (at_ buf 40) 128) as [E|]; [|by eexists]. simpl negb. in_range.
  specialize (He ltac:(lia) E).
  assert (forall typ code, exists out, writeICMPError6 typ buf n code = Ok out) as Herr
    by (intros; apply writeICMPError6_ok; lia).
  destruct (peeridByConnIP _ _ _ _) as [pid s1]. destruct (String.eqb pid "").
  - destruct (Herr 1 3) as [out Eo]. unfold writeICMPDestUnreach6. rewrite Eo. by eexists.
  - destruct (e_dial env _).
    + destruct (writeICMPEchoReply6_ok buf n) as [out ->]; [lia|]. by eexists.
    + destruct (Herr 3 1) as [out Eo]. unfold writeICMPTimeExceed6. rewrite Eo. by eexists.
    + destruct (Herr 1 (if isProtocolRefused msg then 4 else 3)) as [out Eo].
      unfold writeICMPDestUnreach6. rewrite Eo. by eexists.
Qed.

Lemma fixL4Checksum_ok proto minlen off buf n ihl :
  (off + 2 <= minlen)%nat -> (20 <= length buf)%nat -> exists b, fixL4Checksum proto minlen off buf n ihl = Ok b.
Proof.
  intros Ho Hl. unfold fixL4Checksum. destruct (Nat.ltb_spec n (ihl + minlen)); [by eexists|]. in_range. by eexists.
Qed.

Lemma hairpin_ok cfg proto buf n ihl :
  ihl = Z.to_nat (Z.land (at_ buf 0) 15 * 4) -> (20 <= n <= length buf)%nat -> (ihl <= length buf)%nat ->
  exists b, hairpin cfg 4 proto buf n ihl = Ok b.
Proof.
  intros Hi Hn Hl. unfold hairpin, fixIPChecksum. rewrite <-Hi. destruct (_ && _); [|by eexists]. in_range.
  rewrite need_ok by len. cbn [rbind].
  destruct (proto =? 6); apply fixL4Checksum_ok; len.
Qed.

(** The packets the loop survives: not empty; an IPv4 header that is inside the
    packet; room for the quotation behind an echo request, which every
    [ping] with the default 56 bytes of data has. *)
Record packet_ok (buf : bytes) (n : nat) : Prop := {
  po_nonempty : (0 < n <= length buf)%nat;
  po_header4 : Z.shiftr (at_ buf 0) 4 = 4 -> (20 <= n)%nat ->
    let ihl := Z.to_nat (Z.land (at_ buf 0) 15 * 4) in
    (20 <= ihl <= n)%nat /\ (at_ buf 9 = 1 -> at_ buf ihl = 8 -> (2 * ihl + 16 <= n)%nat);
  po_echo6 : (48 <= n)%nat -> at_ buf 40 = 128 -> (96 <= n)%nat
}.


End totality.

(** ** Hairpin *)
Section hairpin.
Context `{Vtcp} `{GoSort} `{MapRange}.

(** The transport header of a protocol: its least length and the offset of its
    checksum. *)
Definition l4_layout (proto : Z) : nat * nat := if proto =? 6 then (20, 16)%nat else (8, 6)%nat.

Lemma hairpin_spec cfg proto buf n ihl :
  darwin cfg = true -> isTCPorUDP proto = true -> is_bytes buf -> zlen buf <= 65535 ->
  ihl = Z.to_nat (Z.land (at_ buf 0) 15 * 4) -> (20 <= ihl)%nat ->
  (ihl + (l4_layout proto).1 <= n <= length buf)%nat ->
  exists b, hairpin cfg 4 proto buf n ihl = Ok b /\
    length b = length buf /\ sub b 12 8 = sub buf 12 8 /\
    verifies (words (sub b 0 ihl)) /\
    verifies (pseudo4_words (sub b 12 4) (sub b 16 4) proto (Z.of_nat (n - ihl)) ++
              words (sub b ihl (n - ihl))).
Proof.
  intros Hd Hp Hb Hz Hi H20 Hn. unfold zlen in Hz.
  pose proof (ihl_bound (at_ buf 0)) as H60. rewrite <- Hi in H60.
  pose proof (header4_len_even (at_ buf 0)) as He. rewrite <- Hi in He.
  unfold hairpin. rewrite Hd, Hp. cbn [andb Z.eqb Pos.eqb].
  assert (ihl <= length buf)%nat as Hle by lia.
  destruct (fixIPChecksum_spec buf ihl) with (m := n) as (b1 & -> & L1 & B1 & V1 & Hge & _);
    [done|done|lia|done|done|lia|]. cbn [rbind].
  assert (is_byte proto) as Bp.
  { unfold isTCPorUDP in Hp. unfold is_byte. destruct (Z.eqb_spec proto 6), (Z.eqb_spec proto 17); (lia || done). }
  assert (forall minlen off, Nat.Even off -> (off + 2 <= minlen)%nat ->
    (ihl + minlen <= n)%nat ->
    exists b, fixL4Checksum proto minlen off b1 n ihl = Ok b /\ length b = length buf /\ sub b 12 8 = sub buf 12 8 /\ verifies (words (sub b 0 ihl)) /\
    verifies (pseudo4_words (sub b 12 4) (sub b 16 4) proto (Z.of_nat (n - ihl)) ++
              words (sub b ihl (n - ihl)))) as Hfix.
  { intros minlen off Ho Hm Hr.
    destruct (fixL4Checksum_spec proto minlen off b1 n ihl) as (b & E & L & V & Hs);
      [done|done|done|done|lia|lia|lia|]. exists b. split; [exact E|].
    split; [lia|]. split; [rewrite Hs, Hge by lia; done|].
    split; [|exact V]. by rewrite Hs by lia. }
  unfold isTCPorUDP in Hp. unfold l4_layout in Hn.
  destruct (Z.eqb_spec proto 6) as [->|N6].
  - apply Hfix; [by exists 8%nat|lia|simpl in Hn; lia].
  - destruct (Z.eqb_spec proto 17) as [->|]; [|done].
    apply Hfix; [by exists 3%nat|lia|simpl in Hn; lia].
Qed.

(** A TCP or UDP packet this host sent to its own address on macOS is handed back
    to it with the same addresses and with an IP and a transport checksum that
    verify, and changes no table. *)
Theorem hairpin_written cfg env buf n s :
  let ihl := Z.to_nat (Z.land (at_ buf 0) 15 * 4) in
  let proto := at_ buf 9 in
  darwin cfg = true -> isTCPorUDP proto = true -> is_bytes buf -> zlen buf <= 65535 ->
  Z.shiftr (at_ buf 0) 4 = 4 -> ip_equal (sub buf 16 4) (localIP cfg) = true ->
  (20 <= ihl)%nat -> (ihl + (l4_layout proto).1 <= n <= length buf)%nat ->
  exists b, tunStep cfg env buf n s = Ok (writeTunBuf b s) /\
    sub b 12 8 = sub buf 12 8 /\ verifies (words (sub b 0 ihl)) /\
    verifies (pseudo4_words (sub b 12 4) (sub b 16 4) proto (Z.of_nat (n - ihl)) ++
              words (sub b ihl (n - ihl))).
Proof.
  intros ihl proto Hd Hp Hb Hz H4 Hl H20 Hn.
  destruct (hairpin_spec cfg proto buf n ihl) as (b & E & _ & R); try done.
  exists b. split; [|done]. unfold tunStep.
  in_range. rewrite H4. cbn [Z.eqb Pos.eqb].
  destruct (Nat.ltb_spec n 20); [lia|]. in_range. unfold classify. rewrite Hl. simpl orb.
  fold ihl. fold proto. by rewrite E.
Qed.

(** The goroutine that served a flow deletes the table entry of its key without
    checking whose entry it is: when its read fails after the cleanup removed its flow
    and the client opened a new one, the entry of the new flow goes, although its
    connection is open. *)
Theorem stale_reader_drops_flow s k old new f :
  udpConns4 s !! k = Some new -> old <> new ->
  ts_flows s !! new = Some f -> f_open f = true ->
  let s' := udpReadErr false old k s in
  udpConns4 s' !! k = None /\ ts_flows s' !! new = Some f.
Proof.
  intros Hk Hne Hf Ho. simpl. split; [apply lookup_delete_eq|].
  by rewrite lookup_alter_ne.
Qed.

End hairpin.

(** The situation of [stale_reader_drops_flow] is reached: flow 0 idles for more than
    60 seconds, the cleanup closes it, the client sends again (flow 1), then the
    reader of flow 0 notices that its connection is closed. *)
Definition stale_events : list (@event) :=
  [EvPacket example_env example_udp 32;
   EvCleanup (161 * second);
   EvPacket example_env example_udp 32].

Lemma stale_reader_drops_flow_witness :
  let V := toy_vtcp in let G := insertion_go_sort in let M := map_to_list_range in
  returns (run example_cfg stale_events init_state)
    (fun s => exists f, udpConns4 s !! example_key = Some 1%nat /\
       ts_flows s !! 1%nat = Some f /\ f_open f = true /\
       udpConns4 (udpReadErr false 0 example_key s) !! example_key = None /\
       ts_flows (udpReadErr false 0 example_key s) !! 1%nat = Some f).
Proof.
  intros V G M. apply is_ok_returns; [vm_compute; reflexivity|]. intros s Hs.
  assert (match run example_cfg stale_events init_state with
          | Ok s => bool_decide (udpConns4 s !! example_key = Some 1%nat) &&
                    match ts_flows s !! 1%nat with Some f => f_open f | None => false end
          | _ => false end = true) as Hc by (vm_compute; reflexivity).
  rewrite Hs, andb_true_iff, bool_decide_eq_true in Hc. destruct Hc as [Hk Hf].
  destruct (ts_flows s !! 1%nat) as [f|] eqn:Ef; [|done]. exists f.
  split; [exact Hk|]. split; [reflexivity|]. split; [exact Hf|].
  apply (stale_reader_drops_flow s example_key 0 1 f); done.
Defined.

(** Witnesses of the other theorems at concrete inputs. *)
Definition example_syn : bytes :=
  header4 protoTCP 40 [10; 0; 0; 2] [10; 0; 0; 111] ++
  be_bytes 2 40000 ++ be_bytes 2 80 ++ be_bytes 4 1000 ++ be_bytes 4 0 ++
  [0x50; 2; 0xff; 0xff; 0; 0; 0; 0].

(** The same SYN over IPv6. *)
Definition example_syn6 : bytes :=
  header6 protoTCP 20 (0xfd :: replicate 15 0) (0xfd :: replicate 14 0 ++ [9]) ++ drop 20 example_syn.

Lemma tcp_syn_routed_witness :
  let V := toy_vtcp in let G := insertion_go_sort in
  returns (tunStep example_cfg example_env example_syn 40 init_state)
    (fun s => exists b, ts_bridges s !! 0%nat = Some b /\
       e_dial example_env (b_addr b) = DialOk /\ routed_to example_cfg [10; 0; 0; 111] 80 (b_addr b)) /\
  returns (tunStep example_cfg example_env example_syn6 60 init_state)
    (fun s => exists b, ts_bridges s !! 0%nat = Some b /\
       b_addr b = JoinHostPort (ip_string (0xfd :: replicate 14 0 ++ [9])) "80").
Proof.
  intros V G. split; (apply is_ok_returns; [vm_compute; reflexivity|]); intros s Hs.
  - assert (match tunStep example_cfg example_env example_syn 40 init_state with
            | Ok s => bool_decide (tcpConns s !! packet_key example_syn 40 = Some 0%nat) | _ => false end = true) as Hc by (vm_compute; reflexivity).
    rewrite Hs in Hc. apply bool_decide_eq_true in Hc.
    destruct (tcp_syn_routed example_cfg example_env example_syn 40 init_state s (packet_key example_syn 40) 0 ltac:(apply init_wf) ltac:(vm_compute; lia) Hs ltac:(reflexivity) Hc)
      as (_ & _ & b & Hb & [(_ & _ & Hd & Hr)|(E6 & _)]); [|by vm_compute in E6].
    assert (packet_key example_syn 40 = ([10; 0; 0; 2], 40000, [10; 0; 0; 111], 80)) as Ek by (vm_compute; reflexivity).
    rewrite Ek in Hr. exists b. split; [exact Hb|]. split; [exact Hd|exact Hr].
  - assert (match tunStep example_cfg example_env example_syn6 60 init_state with
            | Ok s => bool_decide (tcpConns s !! packet_key example_syn6 60 = Some 0%nat) | _ => false end = true) as Hc by (vm_compute; reflexivity).
    rewrite Hs in Hc. apply bool_decide_eq_true in Hc.
    destruct (tcp_syn_routed example_cfg example_env example_syn6 60 init_state s (packet_key example_syn6 60) 0 ltac:(apply init_wf) ltac:(vm_compute; lia) Hs ltac:(reflexivity) Hc)
      as (_ & _ & b & Hb & [(E4 & _)|(_ & _ & Ha & _)]); [by vm_compute in E4|].
    exists b. split; [exact Hb|]. rewrite Ha. vm_compute. reflexivity.
Defined.

Lemma udp_cleanup_exact_witness :
  let V := toy_vtcp in let M := map_to_list_range in
  udpConns4 (udpCleanup (61 * second) example_state) !! example_key = None /\
  udpConns4 (udpCleanup (60 * second) example_state) !! example_key = Some 0%nat.
Proof.
  intros V M. split.
  - apply (udp_cleanup_exact (61 * second) example_state example_key 0); reflexivity.
  - apply (udp_cleanup_exact (60 * second) example_state example_key 0); reflexivity.
Defined.

Lemma rst_segment_rfc793_witness :
  Ack (rstSegment (drop 20 example_syn)) = 1000 /\
  Ack (rstSegment (drop 20 example_syn)) <> Ack (rfc793_reset (drop 20 example_syn)).
Proof.
  split; [vm_compute; reflexivity|].
  apply (rst_segment_rfc793 (drop 20 example_syn)). vm_compute. reflexivity.
Defined.


Definition example_hairpin : bytes :=
  header4 protoTCP 40 [10; 0; 0; 2] [10; 0; 0; 2] ++ drop 20 example_syn.

Lemma hairpin_written_witness :
  let V := toy_vtcp in let G := insertion_go_sort in
  exists b, tunStep example_cfg example_env example_hairpin 40 init_state =
      Ok (writeTunBuf b init_state) /\
    sub b 12 8 = sub example_hairpin 12 8 /\ verifies (words (sub b 0 20)) /\
    verifies (pseudo4_words (sub b 12 4) (sub b 16 4) 6 20 ++ words (sub b 20 20)).
Proof.
  intros V G. apply (hairpin_written example_cfg example_env example_hairpin 40 init_state);
    try reflexivity; try (vm_compute; lia || congruence).
  apply (bool_decide_unpack _). vm_compute. exact I.
Defined.
