(* ===== verification/RelayPool.v ===== *)
(** * The two-tier relay pool (src/p2put/relaypool.go)

    Scores, tiers and eviction of relay peers.  Peer ids and addresses are strings;
    the multiaddr parser is a parameter of [Add].  An operation reads the clock once
    ([now]); what [time.Now] returns inside one call is taken to be one instant.
    Scores are IEEE doubles. *)

From stdpp Require Import pretty.
From S2P Require Import Prelude GoLib.

Definition probationMax : Z := 10.
Definition poolHighWater : Z := 50.
Definition poolLowWater : Z := 40.
Definition demoteThreshold : Z := 3.

Inductive errType := errOK | errRateLimited | errFailed.

(** What [classifyError] can see of an error: [errors.Is(err, network.ErrReset)], a
    [*client.ReservationError] and whether its status is RESERVATION_REFUSED. *)
Inductive relay_error := ErrNil | ErrReset | ErrReservation (refused : bool) | ErrOther.

Definition classifyError (err : relay_error) : errType :=
  match err with
  | ErrNil => errOK
  | ErrReset => errRateLimited
  | ErrReservation true => errRateLimited
  | ErrReservation false => errFailed
  | ErrOther => errFailed
  end.

Record WeightConfig := {
  wSuccess : float64; wLatency : float64; wDataLimit : float64;
  wDurationLimit : float64; wTTL : float64; wUptime : float64
}.

Definition defaultWeights : WeightConfig :=
  {| wSuccess := fconst 35 100; wLatency := fconst 20 100; wDataLimit := fconst 15 100;
     wDurationLimit := fconst 15 100; wTTL := fconst 10 100; wUptime := fconst 5 100 |}.

Record RelayItem := {
  PeerID : string; Addr : string;
  inMain : bool;
  successScore : float64;
  avgRTT : Z;
  limitDuration : Z;
  limitData : Z;
  rateLimitHits : Z;
  consecutiveFails : Z;
  circuitOpen : bool;
  reservationExpires : Z;
  connectedSince : Z;
  lastResult : Z
}.

Record RelayPool := {
  items : gmap string RelayItem;
  config : WeightConfig;
  protected : gmap string bool;
  managed : gset string;
  lowWater : Z;
  highWater : Z
}.

Record RelayPoolStats := {
  Total : Z; Healthy : Z; CircuitOpen : Z; AvgScore : float64; ProbationCnt : Z; MainCnt : Z
}.

Definition zero_weights (c : WeightConfig) : bool :=
  feq (wSuccess c) fzero && feq (wLatency c) fzero && feq (wDataLimit c) fzero &&
  feq (wDurationLimit c) fzero && feq (wTTL c) fzero && feq (wUptime c) fzero.

Definition NewRelayPool (cfg : WeightConfig) : RelayPool :=
  {| items := ∅; config := if zero_weights cfg then defaultWeights else cfg;
     protected := ∅; managed := ∅; lowWater := poolLowWater; highWater := poolHighWater |}.

Definition set_items (m : gmap string RelayItem) (p : RelayPool) : RelayPool :=
  {| items := m; config := config p; protected := protected p; managed := managed p;
     lowWater := lowWater p; highWater := highWater p |}.
Definition set_protected (m : gmap string bool) (p : RelayPool) : RelayPool :=
  {| items := items p; config := config p; protected := m; managed := managed p;
     lowWater := lowWater p; highWater := highWater p |}.
Definition set_managed (m : gset string) (p : RelayPool) : RelayPool :=
  {| items := items p; config := config p; protected := protected p; managed := m;
     lowWater := lowWater p; highWater := highWater p |}.
Definition set_config (c : WeightConfig) (p : RelayPool) : RelayPool :=
  {| items := items p; config := c; protected := protected p; managed := managed p;
     lowWater := lowWater p; highWater := highWater p |}.

(** ** Scores *)
Definition ema (old newVal alpha : float64) : float64 :=
  fadd (fmul alpha newVal) (fmul (fsub fone alpha) old).

Definition emaRTT (old newVal : Z) (alpha : float64) : Z :=
  ftrunc (fadd (fmul alpha (fof_int newVal)) (fmul (fsub fone alpha) (fof_int old))).

Definition calcLatency (rtt : Z) : float64 :=
  if rtt =? 0 then fconst 1 2
  else if rtt <? 50 * millisecond then fone
  else if 2000 * millisecond <? rtt then fconst 1 10
  else fsub fone (fmul (fdiv (fof_int (rtt - 50 * millisecond)) (fof_int (1950 * millisecond)))
                       (fconst 9 10)).

Definition calcDataLimit (data : Z) : float64 :=
  if data =? 0 then fconst 1 2
  else fmin (fdiv (fof_int data) (fof_int (128 * 1024))) fone.

Definition calcDurationLimit (dur : Z) : float64 :=
  if dur =? 0 then fconst 1 2
  else fmin (fdiv (fof_int dur) (fof_int (2 * minute))) fone.

Definition calcTTL (now expires : Z) : float64 :=
  let remaining := time_sub expires now in
  if remaining <? 0 then fzero
  else if 10 * minute <? remaining then fone
  else fdiv (fof_int remaining) (fof_int (10 * minute)).

Definition calcUptime (now since : Z) : float64 :=
  let d := time_sub now since in
  if 5 * minute <? d then fone
  else if d <? 10 * second then fconst 3 10
  else fadd (fconst 3 10)
            (fmul (fdiv (fof_int (d - 10 * second)) (fof_int (290 * second))) (fconst 7 10)).

Definition calcScore (now : Z) (c : WeightConfig) (item : RelayItem) : float64 :=
  if circuitOpen item then fzero
  else
    let s := fmul (wSuccess c) (successScore item) in
    let s := fadd s (fmul (wLatency c) (calcLatency (avgRTT item))) in
    let s := fadd s (fmul (wDataLimit c) (calcDataLimit (limitData item))) in
    let s := fadd s (fmul (wDurationLimit c) (calcDurationLimit (limitDuration item))) in
    let s := fadd s (fmul (wTTL c) (calcTTL now (reservationExpires item))) in
    fadd s (fmul (wUptime c) (calcUptime now (connectedSince item))).

Section pool.
Context `{GoSort} `{MapRange}.

(** ** Eviction *)

(** [delete(p.items, pid); delete(p.protected, pid)]. *)
Definition evict_one (pid : string) (p : RelayPool) : RelayPool :=
  set_protected (delete pid (protected p)) (set_items (delete pid (items p)) p).

(** [for _, pid := range l { if n <= 0 { break }; delete...; n-- }]: what is left of
    the quota, and the pool. *)
Fixpoint evict (n : Z) (l : list string) (p : RelayPool) : Z * RelayPool :=
  match l with
  | [] => (n, p)
  | pid :: r => if n <=? 0 then (n, p) else evict (n - 1) r (evict_one pid p)
  end.

Definition tier (main : bool) (site : nat) (p : RelayPool) : list string :=
  (filter (fun e => inMain e.2 = main) (range_map site (items p))).*1.

Definition since (p : RelayPool) (pid : string) : Z :=
  match items p !! pid with Some i => connectedSince i | None => 0 end.

Definition fifo (p : RelayPool) (l : list string) : list string :=
  sort_slice (fun a b => time_before (since p a) (since p b)) l.

Notation kv := (string * float64)%type.

(** Round 1 of the main tier: not protected, no result in the last five minutes. *)
Definition recent (now : Z) (i : RelayItem) : bool := time_sub now (lastResult i) <? 5 * minute.

Definition candidates (now : Z) (p : RelayPool) (mainPids : list string) : list kv :=
  omap (fun pid =>
    match items p !! pid with
    | Some item =>
        if default false (protected p !! pid) then None
        else if recent now item then None
        else Some (pid, calcScore now (config p) item)
    | None => None
    end) mainPids.

(** [int(math.Ceil(float64(len(candidates)) * 0.20))]. *)
Definition topK (n : nat) : Z := fceil (fmul (fof_int (Z.of_nat n)) (fconst 1 5)).

(** Round 2: the best fifth by score is kept. *)
Definition protect_top (l : list kv) : list kv :=
  let k := topK (length l) in
  if (0 <? k) && (k <? zlen l)
  then drop (Z.to_nat k) (sort_slice (fun a b => flt b.2 a.2) l)
  else if zlen l <=? k then [] else l.

(** Round 3: the ten longest connected are kept. *)
Definition protect_uptime (p : RelayPool) (l : list kv) : list kv :=
  if (0 <? length l)%nat then
    let k := (10 `min` length l)%nat in
    if (k <? length l)%nat
    then drop k (sort_slice (fun a b => time_before (since p a.1) (since p b.1)) l)
    else []
  else l.

Definition main_victims (now : Z) (p : RelayPool) (mainPids : list string) : list string :=
  (sort_slice (fun a b => flt a.2 b.2)
     (protect_uptime p (protect_top (candidates now p mainPids)))).*1.

(** The quotas of the two tiers. *)
Definition quotas (need nprob nmain : Z) : Z * Z :=
  let ep := need / 2 in
  let em := need - ep in
  let '(ep, em) := if nprob <? ep then (nprob, em + (ep - nprob)) else (ep, em) in
  if nmain <? em then (ep + (em - nmain), nmain) else (ep, em).

Definition prune (now : Z) (p : RelayPool) : RelayPool :=
  if Z.of_nat (size (items p)) <=? highWater p then p
  else
    let need := Z.of_nat (size (items p)) - lowWater p in
    let probationPids := tier false 1 p in
    let mainPids := tier true 1 p in
    let '(ep, em) := quotas need (zlen probationPids) (zlen mainPids) in
    let p := if 0 <? ep then (evict ep (fifo p probationPids) p).2 else p in
    if 0 <? em then
      let '(em, p) := evict em (main_victims now p mainPids) p in
      if 0 <? em then (evict em (fifo p (tier false 2 p)) p).2 else p
    else p.

(** ** Operations *)
Section add.
(** Parses the address of a relay: the peer id and the address without it. *)
Context (parseRelayAddr : string -> option (string * string)).

Definition new_item (now : Z) (pid addr : string) : RelayItem :=
  {| PeerID := pid; Addr := addr; inMain := false; successScore := fconst 70 100;
     avgRTT := 0; limitDuration := 0; limitData := 0; rateLimitHits := 0;
     consecutiveFails := 0; circuitOpen := false; reservationExpires := zero_time;
     connectedSince := now; lastResult := zero_time |}.

Definition Add (now : Z) (ai : string) (p : RelayPool) : RelayPool :=
  match parseRelayAddr ai with
  | None => p
  | Some (pid, addr) =>
      match items p !! pid with
      | Some _ => p
      | None => prune now (set_items (<[pid := new_item now pid addr]> (items p)) p)
      end
  end.
End add.

Definition Remove (pid : string) (p : RelayPool) : RelayPool :=
  set_managed (managed p ∖ {[pid]})
    (set_protected (delete pid (protected p)) (set_items (delete pid (items p)) p)).

Definition Protect (pid : string) (p : RelayPool) : RelayPool :=
  set_protected (<[pid := true]> (protected p)) p.
Definition Unprotect (pid : string) (p : RelayPool) : RelayPool :=
  set_protected (delete pid (protected p)) p.
Definition AddManaged (pids : list string) (p : RelayPool) : RelayPool :=
  set_managed (foldl (fun m pid => {[pid]} ∪ m) (managed p) pids) p.
Definition RemoveManaged (pids : list string) (p : RelayPool) : RelayPool :=
  set_managed (foldl (fun m pid => m ∖ {[pid]}) (managed p) pids) p.

Definition IsCircuitOpen (pid : string) (p : RelayPool) : bool :=
  match items p !! pid with Some item => circuitOpen item | None => false end.

(** The effect of a result on its item. *)
Definition apply_result (now : Z) (e : errType) (i : RelayItem) : RelayItem :=
  match e with
  | errOK =>
      {| PeerID := PeerID i; Addr := Addr i; inMain := true;
         successScore := ema (successScore i) fone (fconst 3 10);
         avgRTT := avgRTT i; limitDuration := limitDuration i; limitData := limitData i;
         rateLimitHits := rateLimitHits i; consecutiveFails := 0; circuitOpen := false;
         reservationExpires := reservationExpires i; connectedSince := connectedSince i;
         lastResult := now |}
  | errRateLimited =>
      {| PeerID := PeerID i; Addr := Addr i; inMain := inMain i;
         successScore := ema (successScore i) fzero (fconst 5 10);
         avgRTT := avgRTT i; limitDuration := limitDuration i; limitData := limitData i;
         rateLimitHits := rateLimitHits i + 1; consecutiveFails := consecutiveFails i;
         circuitOpen := circuitOpen i;
         reservationExpires := reservationExpires i; connectedSince := connectedSince i;
         lastResult := now |}
  | errFailed =>
      let fails := consecutiveFails i + 1 in
      let demote := inMain i && (demoteThreshold <=? fails) in
      {| PeerID := PeerID i; Addr := Addr i; inMain := inMain i && negb demote;
         successScore := if demote then fconst 70 100
                         else ema (successScore i) fzero (fconst 3 10);
         avgRTT := avgRTT i; limitDuration := limitDuration i; limitData := limitData i;
         rateLimitHits := rateLimitHits i; consecutiveFails := fails;
         circuitOpen := circuitOpen i || (5 <=? fails);
         reservationExpires := reservationExpires i; connectedSince := connectedSince i;
         lastResult := now |}
  end.

Definition RecordResult (now : Z) (pid : string) (err : relay_error) (p : RelayPool) : RelayPool :=
  match items p !! pid with
  | None => p
  | Some item =>
      prune now (set_items (<[pid := apply_result now (classifyError err) item]> (items p)) p)
  end.

Definition with_limits (dur data : Z) (i : RelayItem) : RelayItem :=
  {| PeerID := PeerID i; Addr := Addr i; inMain := inMain i; successScore := successScore i;
     avgRTT := avgRTT i; limitDuration := dur; limitData := data;
     rateLimitHits := rateLimitHits i; consecutiveFails := consecutiveFails i;
     circuitOpen := circuitOpen i; reservationExpires := reservationExpires i;
     connectedSince := connectedSince i; lastResult := lastResult i |}.
Definition with_expiry (expires : Z) (i : RelayItem) : RelayItem :=
  {| PeerID := PeerID i; Addr := Addr i; inMain := inMain i; successScore := successScore i;
     avgRTT := avgRTT i; limitDuration := limitDuration i; limitData := limitData i;
     rateLimitHits := rateLimitHits i; consecutiveFails := consecutiveFails i;
     circuitOpen := circuitOpen i; reservationExpires := expires;
     connectedSince := connectedSince i; lastResult := lastResult i |}.
Definition with_ping (rtt : Z) (i : RelayItem) : RelayItem :=
  {| PeerID := PeerID i; Addr := Addr i; inMain := inMain i;
     successScore := ema (successScore i) fone (fconst 3 10);
     avgRTT := emaRTT (avgRTT i) rtt (fconst 3 10);
     limitDuration := limitDuration i; limitData := limitData i;
     rateLimitHits := rateLimitHits i; consecutiveFails := 0;
     circuitOpen := circuitOpen i; reservationExpires := reservationExpires i;
     connectedSince := connectedSince i; lastResult := lastResult i |}.

Definition SetRelayLimits (pid : string) (dur data : Z) (p : RelayPool) : RelayPool :=
  set_items (alter (with_limits dur data) pid (items p)) p.
Definition SetReservationTTL (pid : string) (expires : Z) (p : RelayPool) : RelayPool :=
  set_items (alter (with_expiry expires) pid (items p)) p.

Definition SetWeights (w : WeightConfig) (p : RelayPool) : RelayPool := set_config w p.
Definition SetWeight (factor : Z) (value : float64) (p : RelayPool) : RelayPool :=
  let value := if flt value fzero then fzero else value in
  let value := if flt fone value then fone else value in
  let c := config p in
  let set a b d e f g :=
    set_config {| wSuccess := a; wLatency := b; wDataLimit := d;
                  wDurationLimit := e; wTTL := f; wUptime := g |} p in
  match factor with
  | 0 => set value (wLatency c) (wDataLimit c) (wDurationLimit c) (wTTL c) (wUptime c)
  | 1 => set (wSuccess c) value (wDataLimit c) (wDurationLimit c) (wTTL c) (wUptime c)
  | 2 => set (wSuccess c) (wLatency c) value (wDurationLimit c) (wTTL c) (wUptime c)
  | 3 => set (wSuccess c) (wLatency c) (wDataLimit c) value (wTTL c) (wUptime c)
  | 4 => set (wSuccess c) (wLatency c) (wDataLimit c) (wDurationLimit c) value (wUptime c)
  | 5 => set (wSuccess c) (wLatency c) (wDataLimit c) (wDurationLimit c) (wTTL c) value
  | _ => p
  end.

(** The relays that are not circuit-open, with their scores, in the order of a
    [range] over the pool. *)
Record entry := { e_pid : string; e_score : float64; e_addr : string }.

Definition entries (now : Z) (site : nat) (p : RelayPool) : list entry :=
  omap (fun kv : string * RelayItem =>
    if circuitOpen kv.2 then None
    else Some {| e_pid := kv.1; e_score := calcScore now (config p) kv.2; e_addr := Addr kv.2 |})
    (range_map site (items p)).

(** The roulette wheel: [for _, e := range entries { r -= e.score; if r <= 0 {...} }]. *)
Fixpoint spin (r : float64) (l : list entry) : option string :=
  match l with
  | [] => None
  | e :: rest =>
      let r := fsub r (e_score e) in
      if fle r fzero then Some (e_addr e) else spin r rest
  end.

(** [Select] with the random numbers it draws: the first [rand.Float64], the index
    [rand.Intn(n)] picks for a given [n], and the second [rand.Float64]. *)
Definition Select (now : Z) (r1 : float64) (idx : nat -> nat) (r2 : float64) (p : RelayPool) :
    option string :=
  let l := entries now 3 p in
  match l with
  | [] => None
  | _ =>
      if flt r1 (fconst 1 10) then e_addr <$> l !! idx (length l)
      else
        let total := foldl (fun t e => fadd t (e_score e)) fzero l in
        if feq total fzero then e_addr <$> l !! idx (length l)
        else match spin (fmul r2 total) l with
             | Some a => Some a
             | None => e_addr <$> last l
             end
  end.

(** [make([]peer.AddrInfo, n)] panics for a negative [n]. *)
Definition SelectN (now : Z) (n : Z) (p : RelayPool) : res (list (string * string)) :=
  let l := sort_slice (fun a b => flt (e_score b) (e_score a)) (entries now 4 p) in
  let n := if zlen l <? n then zlen l else n in
  if n <? 0 then Panic
  else Ok ((fun e => (e_pid e, e_addr e)) <$> take (Z.to_nat n) l).

(** One tick of [StartHealthCheck]: the targets, and what a ping result does. *)
Definition healthTargets (connected : string -> bool) (p : RelayPool) : list string :=
  (filter (fun e => circuitOpen e.2 = false /\ connected e.1 = true) (range_map 5 (items p))).*1.

Definition pingResult (now : Z) (pid : string) (r : Z + relay_error) (p : RelayPool) : RelayPool :=
  match r with
  | inl rtt => set_items (alter (with_ping rtt) pid (items p)) p
  | inr err => RecordResult now pid err p
  end.

Definition healthTick (now : Z) (connected : string -> bool) (ping : string -> Z + relay_error)
    (p : RelayPool) : RelayPool :=
  foldl (fun p pid => pingResult now pid (ping pid) p) p (healthTargets connected p).

Definition count (P : RelayItem -> bool) (p : RelayPool) : Z :=
  zlen (filter (fun e : string * RelayItem => P e.2 = true) (range_map 6 (items p))).

Definition Stats (now : Z) (p : RelayPool) : RelayPoolStats :=
  let total := Z.of_nat (size (items p)) in
  let sum := foldl (fun t e => fadd t (calcScore now (config p) e.2)) fzero
               (range_map 6 (items p)) in
  {| Total := total;
     Healthy := count (fun i => negb (circuitOpen i)) p;
     CircuitOpen := count circuitOpen p;
     AvgScore := if 0 <? total then fdiv sum (fof_int total) else fzero;
     ProbationCnt := count (fun i => negb (inMain i)) p;
     MainCnt := count inMain p |}.

End pool.

(** ** Evicting *)
Section eviction.
Context `{GoSort} `{MapRange}.

(** All of [l] removed. *)
Definition evict_all (l : list string) (p : RelayPool) : RelayPool :=
  foldl (fun p pid => evict_one pid p) p l.

Lemma evict_take n l p :
  evict n l p = (n - zlen (take (Z.to_nat n) l), evict_all (take (Z.to_nat n) l) p).
Proof.
  revert n p. induction l as [|pid l IH]; intros n p; simpl.
  - rewrite take_nil. unfold zlen. simpl. f_equal. lia.
  - destruct (Z.leb_spec n 0).
    + rewrite Z2Nat.nonpos by lia. simpl. rewrite zlen_nil. f_equal. lia.
    + rewrite IH. replace (Z.to_nat n) with (S (Z.to_nat (n - 1))) by lia. simpl.
      rewrite zlen_cons. f_equal. lia.
Qed.

Lemma evict_all_config l p :
  config (evict_all l p) = config p /\ lowWater (evict_all l p) = lowWater p /\
  highWater (evict_all l p) = highWater p /\ managed (evict_all l p) = managed p.
Proof. revert p. induction l as [|pid l IH]; intros p; simpl; [done|]. apply (IH (evict_one pid p)). Qed.

Lemma evict_all_items l p pid :
  items (evict_all l p) !! pid = if decide (pid ∈ l) then None else items p !! pid.
Proof.
  revert p. induction l as [|x l IH]; intros p; simpl; [done|].
  rewrite IH. simpl. destruct (decide (pid ∈ l)), (decide (pid ∈ x :: l)) as [Hin|Hin]; try done.
  - set_solver.
  - apply elem_of_cons in Hin as [->|]; [apply lookup_delete_eq|done].
  - apply lookup_delete_ne. set_solver.
Qed.

Lemma evict_all_protected l p pid :
  protected (evict_all l p) !! pid = if decide (pid ∈ l) then None else protected p !! pid.
Proof.
  revert p. induction l as [|x l IH]; intros p; simpl; [done|].
  rewrite IH. simpl. destruct (decide (pid ∈ l)), (decide (pid ∈ x :: l)) as [Hin|Hin]; try done.
  - set_solver.
  - apply elem_of_cons in Hin as [->|]; [apply lookup_delete_eq|done].
  - apply lookup_delete_ne. set_solver.
Qed.

Lemma evict_all_size l p :
  NoDup l -> (forall pid, pid ∈ l -> is_Some (items p !! pid)) ->
  (size (items (evict_all l p)) + length l = size (items p))%nat.
Proof.
  intros Hl. revert p. induction Hl as [|x l Hx Hl IH]; intros p Hp; simpl; [lia|].
  assert (is_Some (items p !! x)) as [i Hi] by (apply Hp; set_solver).
  specialize (IH (evict_one x p)). simpl in IH.
  rewrite map_size_delete_Some in IH by eauto.
  assert (0 < size (items p))%nat.
  { apply Nat.neq_0_lt_0. intros E. apply map_size_empty_inv in E.
    by rewrite E, lookup_empty in Hi. }
  enough (size (items (evict_all l (evict_one x p))) + length l = pred (size (items p)))%nat by lia.
  apply IH. intros pid Hpid. rewrite lookup_delete_ne by set_solver. apply Hp. set_solver.
Qed.

(** ** The tiers *)
Lemma elem_of_tier main site p pid :
  pid ∈ tier main site p <-> exists i, items p !! pid = Some i /\ inMain i = main.
Proof.
  unfold tier. rewrite list_elem_of_fmap. split.
  - intros ([x i] & -> & Hin). apply list_elem_of_filter in Hin as [Hm Hin].
    apply elem_of_range in Hin. eauto.
  - intros (i & Hi & Hm). exists (pid, i). split; [done|].
    apply list_elem_of_filter. split; [done|]. by apply elem_of_range.
Qed.

Lemma NoDup_tier main site p : NoDup (tier main site p).
Proof.
  unfold tier. pose proof (NoDup_range_keys site (items p)) as Hn. revert Hn.
  generalize (range_map site (items p)). intros l.
  induction l as [|[x i] l IH]; intros Hn; [constructor|].
  rewrite fmap_cons in Hn. apply NoDup_cons in Hn as [Hx Hn].
  rewrite filter_cons. case_decide; [|auto]. rewrite fmap_cons.
  constructor; [|auto]. intros Hin. apply Hx.
  apply list_elem_of_fmap in Hin as (y & -> & Hy). apply list_elem_of_filter in Hy as [_ Hy].
  apply list_elem_of_fmap. eauto.
Qed.

Lemma tiers_size site p :
  zlen (tier false site p) + zlen (tier true site p) = Z.of_nat (size (items p)).
Proof.
  unfold tier, zlen. rewrite !length_fmap. rewrite <- (length_range site (items p)).
  induction (range_map site (items p)) as [|[x i] l IH]; [done|].
  rewrite !filter_cons. simpl. destruct (inMain i); simpl; lia.
Qed.

Lemma fifo_perm p l : Permutation (fifo p l) l.
Proof. apply sort_slice_perm. Qed.

Lemma NoDup_fifo p l : NoDup l -> NoDup (fifo p l).
Proof. by rewrite fifo_perm. Qed.

(** What is cut off a FIFO was connected no later than what stays. *)
Lemma fifo_order p l n a b :
  a ∈ take n (fifo p l) -> b ∈ drop n (fifo p l) -> since p a <= since p b.
Proof.
  intros Ha Hb.
  pose proof (sort_slice_split (fun _ => True) (fun a b => time_before (since p a) (since p b))
    l n a b) as Hs.
  unfold time_before in Hs. apply Z.ltb_ge, Hs; try done.
  - apply strict_weak_Z.
  - by apply Forall_true.
Qed.

(** ** Candidates of the main tier *)
Lemma elem_of_candidates now p l pid s :
  (pid, s) ∈ candidates now p l ->
  pid ∈ l /\ exists i, items p !! pid = Some i /\
    default false (protected p !! pid) = false /\ recent now i = false.
Proof.
  unfold candidates. rewrite list_elem_of_omap. intros (x & Hx & E).
  destruct (items p !! x) as [i|] eqn:Ei; [|done].
  destruct (default false _) eqn:Ep; [done|]. destruct (recent now i) eqn:Er; [done|].
  simplify_eq. eauto.
Qed.

Lemma candidates_keys now p l : NoDup l -> NoDup (candidates now p l).*1.
Proof.
  intros Hl. unfold candidates. induction Hl as [|x l Hx Hl IH]; simpl; [constructor|].
  destruct (match items p !! x with Some _ => _ | None => _ end) as [[y s]|] eqn:E; [|done].
  assert (y = x) as ->.
  { destruct (items p !! x); [|done]. by repeat case_match; simplify_eq. }
  simpl. constructor; [|done]. intros Hin. apply Hx.
  apply list_elem_of_fmap in Hin as ([z t] & -> & Hz). simpl.
  fold (candidates now p l) in Hz. by apply elem_of_candidates in Hz as [? _].
Qed.

(** The protection rounds only drop candidates. *)
Lemma NoDup_keys_drop {A B} n (l : list (A * B)) : NoDup l.*1 -> NoDup (drop n l).*1.
Proof.
  rewrite <- (take_drop n l) at 1. rewrite fmap_app. intros Hn. by apply NoDup_app in Hn as (_ & _ & ?).
Qed.

Definition subkeys {A B} (l k : list (A * B)) : Prop := forall x, x ∈ l -> x ∈ k.

Lemma sorted_drop {A B} (less : A * B -> A * B -> bool) n l :
  subkeys (drop n (sort_slice less l)) l /\
  (NoDup l.*1 -> NoDup (drop n (sort_slice less l)).*1).
Proof.
  split.
  - intros x Hx. rewrite <- (elem_of_sort_slice less). rewrite <- (take_drop n (sort_slice less l)).
    apply elem_of_app. by right.
  - intros Hn. apply NoDup_keys_drop. by rewrite sort_slice_perm.
Qed.

Lemma protect_top_sub l :
  subkeys (protect_top l) l /\ (NoDup l.*1 -> NoDup (protect_top l).*1).
Proof.
  unfold protect_top. destruct (_ && _); [apply sorted_drop|].
  destruct (_ <=? _); [|done]. split; [intros x Hx; by apply elem_of_nil in Hx|constructor].
Qed.

Lemma protect_uptime_sub p l :
  subkeys (protect_uptime p l) l /\ (NoDup l.*1 -> NoDup (protect_uptime p l).*1).
Proof.
  unfold protect_uptime. destruct (_ <? _)%nat; [|done].
  destruct (_ <? _)%nat; [apply sorted_drop|].
  split; [intros x Hx; by apply elem_of_nil in Hx|constructor].
Qed.

Lemma main_victims_spec now p l :
  NoDup l ->
  NoDup (main_victims now p l) /\
  forall pid, pid ∈ main_victims now p l ->
    pid ∈ l /\ exists i, items p !! pid = Some i /\
      default false (protected p !! pid) = false /\ recent now i = false.
Proof.
  intros Hl. unfold main_victims.
  destruct (protect_top_sub (candidates now p l)) as [S1 N1].
  destruct (protect_uptime_sub p (protect_top (candidates now p l))) as [S2 N2].
  split.
  - rewrite sort_slice_perm. by apply N2, N1, candidates_keys.
  - intros pid Hp. apply list_elem_of_fmap in Hp as ([x s] & -> & Hx).
    apply elem_of_sort_slice, S2, S1 in Hx. by eapply elem_of_candidates.
Qed.

End eviction.

(** ** What pruning removes *)
Section pruning.
Context `{GoSort} `{MapRange}.

Lemma quotas_spec need np nm ep em :
  0 <= need <= np + nm -> 0 <= np -> 0 <= nm -> quotas need np nm = (ep, em) ->
  ep + em = need /\ 0 <= ep <= np /\ 0 <= em <= nm.
Proof.
  intros Hn Hp Hm. unfold quotas.
  assert (0 <= need / 2 <= need)
    by (pose proof (Z_div_mod_eq_full need 2); pose proof (Z.mod_pos_bound need 2); lia).
  destruct (Z.ltb_spec np (need / 2)).
  - destruct (Z.ltb_spec nm (need - need / 2 + (need / 2 - np))); intros ?; simplify_eq; lia.
  - destruct (Z.ltb_spec nm (need - need / 2)); intros ?; simplify_eq; lia.
Qed.

Lemma elem_of_take_in {A} (x : A) n l : x ∈ take n l -> x ∈ l.
Proof. intros Hx. rewrite <- (take_drop n l). apply elem_of_app. by left. Qed.
Lemma NoDup_take_of {A} n (l : list A) : NoDup l -> NoDup (take n l).
Proof. rewrite <- (take_drop n l) at 1. intros Hn. by apply NoDup_app in Hn as [? _]. Qed.

Lemma evict_all_app l k p : evict_all (l ++ k) p = evict_all k (evict_all l p).
Proof. apply foldl_app. Qed.

Lemma evict_guard n l p :
  (if 0 <? n then (evict n l p).2 else p) = evict_all (take (Z.to_nat n) l) p.
Proof.
  rewrite evict_take. destruct (Z.ltb_spec 0 n); [done|]. by rewrite Z2Nat.nonpos by lia.
Qed.

(** The peers [L] an eviction may take from [p]. *)
Record evictable (now : Z) (p : RelayPool) (L : list string) : Prop := {
  ev_nodup : NoDup L;
  ev_dom : forall pid, pid ∈ L -> is_Some (items p !! pid);
  ev_main : forall pid i, pid ∈ L -> items p !! pid = Some i -> inMain i = true ->
    default false (protected p !! pid) = false /\ recent now i = false;
  ev_fifo : forall a b i j, a ∈ L -> b ∉ L -> items p !! a = Some i -> items p !! b = Some j ->
    inMain i = false -> inMain j = false -> connectedSince i <= connectedSince j
}.

Lemma since_lookup p pid i : items p !! pid = Some i -> since p pid = connectedSince i.
Proof. unfold since. by intros ->. Qed.

(** One FIFO step: the oldest of the probation tier. *)
Lemma fifo_evictable now p site n :
  evictable now p (take n (fifo p (tier false site p))).
Proof.
  set (F := fifo p (tier false site p)).
  assert (forall pid, pid ∈ F -> exists i, items p !! pid = Some i /\ inMain i = false) as HF.
  { intros pid Hp. unfold F in Hp. rewrite fifo_perm in Hp. by apply elem_of_tier in Hp. }
  assert (forall pid, pid ∈ take n F -> pid ∈ F) as Ht by (intros pid; apply elem_of_take_in).
  split.
  - apply NoDup_take_of, NoDup_fifo, NoDup_tier.
  - intros pid Hp. destruct (HF _ (Ht _ Hp)) as (i & -> & _). eauto.
  - intros pid i Hp Hi Hm. destruct (HF _ (Ht _ Hp)) as (j & Hj & Hf). congruence.
  - intros a b i j Ha Hb Hi Hj Mi Mj.
    rewrite <- (since_lookup p a), <- (since_lookup p b) by done.
    apply (fifo_order p (tier false site p) n); [done|].
    assert (b ∈ F) as HbF by (unfold F; rewrite fifo_perm; apply elem_of_tier; eauto).
    rewrite <- (take_drop n F) in HbF. apply elem_of_app in HbF as [|]; [done|done].
Qed.

(** Evictions compose: what is evictable after an eviction, on top of it. *)
Lemma evictable_app now p L K :
  evictable now p L -> evictable now (evict_all L p) K ->
  (forall a i, a ∈ L -> items p !! a = Some i -> inMain i = false ->
     forall b j, b ∉ L -> items p !! b = Some j -> inMain j = false ->
     connectedSince i <= connectedSince j) ->
  evictable now p (L ++ K).
Proof.
  intros HL HK Hf.
  assert (forall pid i, pid ∈ K -> items p !! pid = Some i ->
    pid ∉ L /\ items (evict_all L p) !! pid = Some i) as Hin.
  { intros pid i Hp Hi. destruct (ev_dom _ _ _ HK pid Hp) as [j Hj].
    rewrite evict_all_items in Hj |- *. by destruct (decide (pid ∈ L)). }
  split.
  - apply NoDup_app. split; [apply HL|]. split; [|apply HK].
    intros x Hx Hx'. destruct (ev_dom _ _ _ HK x Hx') as [j Hj].
    rewrite evict_all_items, decide_True in Hj by done. done.
  - intros pid. rewrite elem_of_app. intros [Hp|Hp]; [by apply HL|].
    destruct (ev_dom _ _ _ HK pid Hp) as [j Hj]. rewrite evict_all_items in Hj.
    destruct (decide _); [done|eauto].
  - intros pid i. rewrite elem_of_app. intros [Hp|Hp] Hi Hm; [by eapply HL|].
    destruct (Hin pid i Hp Hi) as [Hn Hi'].
    destruct (ev_main _ _ _ HK pid i Hp Hi' Hm) as [Hpr Hr]. split; [|done].
    by rewrite evict_all_protected, decide_False in Hpr by done.
  - intros a b i j. rewrite !elem_of_app. intros [Ha|Ha] Hb Hi Hj Mi Mj.
    + apply (Hf a i Ha Hi Mi b j); [tauto|done|done].
    + destruct (Hin a i Ha Hi) as [_ Hi'].
      apply (ev_fifo _ _ _ HK a b i j); [exact Ha|tauto|exact Hi'| |done|done].
      by rewrite evict_all_items, decide_False by tauto.
Qed.

Lemma length_take_exact {A} n (l : list A) : (n <= length l)%nat -> length (take n l) = n.
Proof. rewrite length_take. lia. Qed.

(** The main step: candidates that survive the protection rounds. *)
Lemma victims_evictable now p l n :
  NoDup l -> (forall pid, pid ∈ l -> exists i, items p !! pid = Some i /\ inMain i = true) ->
  evictable now p (take n (main_victims now p l)).
Proof.
  intros Hl HM. destruct (main_victims_spec now p l Hl) as [HN HV].
  assert (forall pid, pid ∈ take n (main_victims now p l) -> pid ∈ main_victims now p l) as Ht.
  { intros pid. apply elem_of_take_in. }
  split.
  - by apply NoDup_take_of.
  - intros pid Hp. destruct (HV _ (Ht _ Hp)) as (_ & i & Hi & _). eauto.
  - intros pid i Hp Hi _. destruct (HV _ (Ht _ Hp)) as (_ & j & Hj & ?). by simplify_eq.
  - intros a b i j Ha _ Hi _ Mi _. destruct (HV _ (Ht _ Ha)) as (Hin & _).
    destruct (HM _ Hin) as (k & Hk & Mk). congruence.
Qed.

(** Pruning an over-full pool removes an evictable list no longer than the excess
    over the low-water mark, and exactly as long unless the probation tier is
    empty afterwards. *)
Lemma prune_shape now p :
  0 <= lowWater p -> lowWater p <= highWater p < Z.of_nat (size (items p)) ->
  exists L, prune now p = evict_all L p /\ evictable now p L /\
    zlen L <= Z.of_nat (size (items p)) - lowWater p /\
    (zlen L = Z.of_nat (size (items p)) - lowWater p \/
     forall pid i, items (prune now p) !! pid = Some i -> inMain i = true).
Proof.
  intros Hlow Hhigh. unfold prune.
  destruct (Z.leb_spec (Z.of_nat (size (items p))) (highWater p)); [lia|].
  set (need := Z.of_nat (size (items p)) - lowWater p).
  pose proof (tiers_size 1 p) as Hts. pose proof (zlen_nonneg (tier false 1 p)).
  pose proof (zlen_nonneg (tier true 1 p)).
  destruct (quotas need _ _) as [ep em] eqn:Eq.
  destruct (quotas_spec need (zlen (tier false 1 p)) (zlen (tier true 1 p)) ep em) as (Es & Hep & Hem);
    [lia..|done|]. clear Eq.
  rewrite evict_guard. set (L1 := take (Z.to_nat ep) (fifo p (tier false 1 p))).
  assert (evictable now p L1) as V1 by apply fifo_evictable.
  assert (zlen L1 = ep) as Z1.
  { unfold L1, zlen in *. rewrite length_take_exact; [lia|].
    rewrite (Permutation_length (fifo_perm p _)). lia. }
  destruct (Z.ltb_spec 0 em) as [Hem0|Hem0].
  2: { exists L1. split; [done|]. split; [done|]. unfold need in *. split; [lia|left; lia]. }
  rewrite evict_take. set (p1 := evict_all L1 p).
  set (L2 := take (Z.to_nat em) (main_victims now p1 (tier true 1 p))).
  assert (evictable now p1 L2) as V2.
  { apply victims_evictable; [apply NoDup_tier|]. intros pid Hp.
    apply elem_of_tier in Hp as (i & Hi & Mi). exists i. split; [|done].
    unfold p1. rewrite evict_all_items, decide_False; [done|]. intros Hin.
    assert (pid ∈ tier false 1 p) as Hf.
    { rewrite <- (fifo_perm p). by eapply elem_of_take_in. }
    apply elem_of_tier in Hf as (j & Hj & Mj). congruence. }
  assert (evictable now p (L1 ++ L2)) as V12.
  { apply evictable_app; [done|done|]. intros a i Ha Hi Mi b j Hb Hj Mj.
    by apply (ev_fifo _ _ _ V1 a b). }
  assert (zlen L2 <= em) as Z2 by (unfold L2, zlen; rewrite length_take; lia).
  destruct (Z.ltb_spec 0 (em - zlen L2)) as [Hr|Hr].
  2: { exists (L1 ++ L2). rewrite evict_all_app. split; [done|]. split; [done|].
       rewrite zlen_app. unfold need in *. split; [lia|left; lia]. }
  rewrite evict_take. simpl. set (p2 := evict_all L2 p1).
  set (L3 := take (Z.to_nat (em - zlen L2)) (fifo p2 (tier false 2 p2))).
  assert (evictable now p2 L3) as V3 by apply fifo_evictable.
  assert (p2 = evict_all (L1 ++ L2) p) as E12 by (by rewrite evict_all_app).
  assert (forall pid, pid ∈ L2 -> exists i, items p !! pid = Some i /\ inMain i = true) as HL2.
  { intros pid Hp. destruct (main_victims_spec now p1 _ (NoDup_tier true 1 p)) as [_ HV].
    destruct (HV pid) as [Hin _].
    - by eapply elem_of_take_in.
    - by apply elem_of_tier in Hin. }
  exists ((L1 ++ L2) ++ L3). rewrite (evict_all_app (L1 ++ L2)), <- E12. split; [done|]. split.
  - apply evictable_app; [done|by rewrite <- E12|].
    intros a i. rewrite elem_of_app. intros [Ha|Ha] Hi Mi b j Hb Hj Mj.
    + apply (ev_fifo _ _ _ V1 a b); try done. set_solver.
    + destruct (HL2 a Ha) as (k & Hk & Mk). congruence.
  - assert (zlen L3 <= em - zlen L2) as Z3
      by (unfold L3; unfold zlen at 1; rewrite length_take; lia).
    rewrite !zlen_app. unfold need in *. split; [lia|].
    destruct (decide (zlen L3 = em - zlen L2)) as [|Hlt]; [left; lia|right].
    intros pid i. rewrite evict_all_items. destruct (decide (pid ∈ L3)) as [|Hn]; [done|].
    intros Hi. destruct (inMain i) eqn:Mi; [done|]. destruct Hn.
    assert (pid ∈ fifo p2 (tier false 2 p2)) as Hin
      by (rewrite fifo_perm; apply elem_of_tier; eauto).
    unfold L3. rewrite take_ge; [done|].
    destruct (Nat.le_gt_cases (length (fifo p2 (tier false 2 p2))) (Z.to_nat (em - zlen L2)));
      [done|].
    destruct Hlt. unfold L3. unfold zlen at 1. rewrite length_take. lia.
Qed.

End pruning.

(** ** Guarantees *)
Section guarantees.
Context `{GoSort} `{MapRange}.

(** The items are stored under their peer id; a main item is not failing and its
    circuit is closed; five consecutive failures open the circuit. *)
Definition item_ok (pid : string) (i : RelayItem) : Prop :=
  PeerID i = pid /\ 0 <= consecutiveFails i /\
  (inMain i = true -> consecutiveFails i < demoteThreshold /\ circuitOpen i = false) /\
  (5 <= consecutiveFails i -> circuitOpen i = true).

Definition pool_ok (p : RelayPool) : Prop :=
  map_Forall item_ok (items p) /\ 0 <= lowWater p <= highWater p.

Inductive op :=
  | OpAdd (parse : string -> option (string * string)) (ai : string)
  | OpRemove (pid : string)
  | OpProtect (pid : string)
  | OpUnprotect (pid : string)
  | OpAddManaged (pids : list string)
  | OpRemoveManaged (pids : list string)
  | OpResult (pid : string) (err : relay_error)
  | OpPing (pid : string) (r : Z + relay_error)
  | OpLimits (pid : string) (dur data : Z)
  | OpTTL (pid : string) (expires : Z)
  | OpWeights (w : WeightConfig)
  | OpWeight (factor : Z) (value : float64).

Definition apply_op (now : Z) (o : op) (p : RelayPool) : RelayPool :=
  match o with
  | OpAdd parse ai => Add parse now ai p
  | OpRemove pid => Remove pid p
  | OpProtect pid => Protect pid p
  | OpUnprotect pid => Unprotect pid p
  | OpAddManaged pids => AddManaged pids p
  | OpRemoveManaged pids => RemoveManaged pids p
  | OpResult pid err => RecordResult now pid err p
  | OpPing pid r => pingResult now pid r p
  | OpLimits pid dur data => SetRelayLimits pid dur data p
  | OpTTL pid expires => SetReservationTTL pid expires p
  | OpWeights w => SetWeights w p
  | OpWeight factor value => SetWeight factor value p
  end.

Definition run_ops (l : list (Z * op)) (p : RelayPool) : RelayPool :=
  foldl (fun p o => apply_op o.1 o.2 p) p l.

Lemma prune_sub now p pid i :
  0 <= lowWater p <= highWater p ->
  items (prune now p) !! pid = Some i -> items p !! pid = Some i.
Proof.
  intros Hw. destruct (Z.lt_ge_cases (highWater p) (Z.of_nat (size (items p)))) as [Hlt|Hle].
  - destruct (prune_shape now p) as (L & -> & _); [lia..|].
    rewrite evict_all_items. by destruct (decide _).
  - unfold prune. destruct (Z.leb_spec (Z.of_nat (size (items p))) (highWater p)); [done|lia].
Qed.

Lemma prune_config now p :
  0 <= lowWater p <= highWater p ->
  config (prune now p) = config p /\ lowWater (prune now p) = lowWater p /\
  highWater (prune now p) = highWater p /\ managed (prune now p) = managed p.
Proof.
  intros Hw. destruct (Z.lt_ge_cases (highWater p) (Z.of_nat (size (items p)))) as [Hlt|Hle].
  - destruct (prune_shape now p) as (L & -> & _); [lia..|]. apply evict_all_config.
  - unfold prune. destruct (Z.leb_spec (Z.of_nat (size (items p))) (highWater p)); [done|lia].
Qed.

Lemma prune_ok now p : pool_ok p -> pool_ok (prune now p).
Proof.
  intros [Hi Hw]. destruct (prune_config now p Hw) as (_ & El & Eh & _).
  split; [|by rewrite El, Eh]. intros pid i Hp. apply Hi. by eapply prune_sub.
Qed.

Lemma pool_ok_insert p pid i :
  pool_ok p -> item_ok pid i -> pool_ok (set_items (<[pid := i]> (items p)) p).
Proof. intros [Hi Hw] Hok. split; [|done]. by apply map_Forall_insert_2. Qed.

Lemma pool_ok_alter p pid g :
  pool_ok p -> (forall i, item_ok pid i -> item_ok pid (g i)) ->
  pool_ok (set_items (alter g pid (items p)) p).
Proof.
  intros [Hi Hw] Hg. split; [|done]. intros q j. simpl. rewrite lookup_alter_Some.
  intros [(<- & i & Hp & ->)|[_ Hq]]; [apply Hg|]; by apply Hi.
Qed.

Lemma pool_ok_delete p pid : pool_ok p -> pool_ok (set_items (delete pid (items p)) p).
Proof. intros [Hi Hw]. split; [|done]. by apply map_Forall_delete. Qed.

Lemma apply_result_ok now e pid i : item_ok pid i -> item_ok pid (apply_result now e i).
Proof.
  intros (Hp & Hf & Hm & Ho). unfold item_ok, demoteThreshold in *.
  destruct e; simpl; (split; [done|]); [lia| |].
  - done.
  - split; [lia|]. destruct (inMain i) eqn:Mi; simpl.
    + destruct (Hm eq_refl) as [Hlt Hc]. rewrite Hc. unfold demoteThreshold.
      destruct (Z.leb_spec 3 (consecutiveFails i + 1)); simpl.
      * split; [done|]. intros H5. destruct (Z.leb_spec 5 (consecutiveFails i + 1)); [done|lia].
      * destruct (Z.leb_spec 5 (consecutiveFails i + 1)); [lia|]. split; [by split|lia].
    + split; [done|]. intros H5.
      destruct (Z.leb_spec 5 (consecutiveFails i + 1)); [apply orb_true_r|lia].
Qed.

Lemma RecordResult_ok now pid err p : pool_ok p -> pool_ok (RecordResult now pid err p).
Proof.
  intros Hp. unfold RecordResult. destruct (items p !! pid) as [i|] eqn:Ei; [|done].
  apply prune_ok, pool_ok_insert; [done|]. apply apply_result_ok. by apply Hp.
Qed.

Lemma apply_op_ok now o p : pool_ok p -> pool_ok (apply_op now o p).
Proof.
  intros Hp. destruct o; simpl.
  - unfold Add. destruct (parse ai) as [[pid addr]|]; [|done].
    destruct (items p !! pid); [done|]. apply prune_ok, pool_ok_insert; [done|].
    unfold item_ok. simpl. repeat split; try done; lia.
  - destruct Hp as [Hi Hw]. split; [|done]. by apply map_Forall_delete.
  - done.
  - done.
  - done.
  - done.
  - by apply RecordResult_ok.
  - destruct r; simpl; [|by apply RecordResult_ok]. apply pool_ok_alter; [done|].
    intros i (Hk & Hf & Hm & Ho). unfold item_ok, with_ping, demoteThreshold; simpl.
    split; [done|]. split; [lia|]. split; [|lia]. intros Mi. split; [lia|]. by apply Hm.
  - by apply pool_ok_alter.
  - by apply pool_ok_alter.
  - done.
  - unfold SetWeight. by repeat case_match.
Qed.

Lemma pool_invariant_nil cfg : pool_ok (NewRelayPool cfg).
Proof. split; [apply map_Forall_empty|simpl; unfold poolLowWater, poolHighWater; lia]. Qed.

Lemma run_ops_ok l p : pool_ok p -> pool_ok (run_ops l p).
Proof.
  revert p. unfold run_ops. induction l as [|o l IH]; intros p Hp; simpl; [done|].
  by apply IH, apply_op_ok.
Qed.

(** C9. In every pool built by any sequence of operations each relay is stored under
    its own id, a relay of the main tier has failed fewer than three times in a row
    and its circuit is closed, and a relay that failed five times in a row has its
    circuit open. *)
Theorem pool_invariant cfg l : pool_ok (run_ops l (NewRelayPool cfg)).
Proof. apply run_ops_ok, pool_invariant_nil. Qed.

(** Pruning leaves a pool within its high-water mark alone.  Above it, it only
    removes relays: never below the low-water mark; down to it exactly unless no
    probation relay is left; no main relay that is protected or had a result in the
    last five minutes; and no probation relay while one connected earlier stays. *)
Theorem prune_spec now p :
  0 <= lowWater p <= highWater p ->
  let n := Z.of_nat (size (items p)) in
  let p' := prune now p in
  (n <= highWater p -> p' = p) /\
  (highWater p < n ->
   lowWater p <= Z.of_nat (size (items p')) /\
   (Z.of_nat (size (items p')) = lowWater p \/
    forall pid i, items p' !! pid = Some i -> inMain i = true) /\
   (forall pid i, items p' !! pid = Some i -> items p !! pid = Some i) /\
   (forall pid i, items p !! pid = Some i -> items p' !! pid = None -> inMain i = true ->
      default false (protected p !! pid) = false /\ recent now i = false) /\
   (forall a b i j, items p !! a = Some i -> items p' !! a = None -> inMain i = false ->
      items p' !! b = Some j -> inMain j = false -> connectedSince i <= connectedSince j)).
Proof.
  intros Hw n p'. split.
  - intros Hn. unfold p', prune. destruct (Z.leb_spec (Z.of_nat (size (items p))) (highWater p)); [done|lia].
  - intros Hn. destruct (prune_shape now p) as (L & E & V & Hl & Hr); [lia..|].
    subst p'. rewrite E in *.
    pose proof (evict_all_size L p (ev_nodup _ _ _ V) (ev_dom _ _ _ V)) as Hs.
    assert (forall pid i, items p !! pid = Some i -> items (evict_all L p) !! pid = None -> pid ∈ L) as Hin.
    { intros pid i Hi. rewrite evict_all_items. destruct (decide _); [done|congruence]. }
    assert (forall pid i, items (evict_all L p) !! pid = Some i -> items p !! pid = Some i /\ pid ∉ L) as Hout.
    { intros pid i. rewrite evict_all_items. by destruct (decide _). }
    subst n. unfold zlen in *. split; [lia|]. split; [destruct Hr; [left; lia|by right]|].
    split; [intros pid i Hi; by apply Hout|]. split.
    + intros pid i Hi Hn' Mi. apply (ev_main _ _ _ V pid i); eauto.
    + intros a b i j Hi Hn' Mi Hj Mj. destruct (Hout b j Hj) as [Hj' Hb].
      apply (ev_fifo _ _ _ V a b i j); eauto.
Qed.

Definition within (p : RelayPool) : Prop := Z.of_nat (size (items p)) <= highWater p.

Lemma prune_within now p : 0 <= lowWater p <= highWater p -> within p -> prune now p = p.
Proof.
  intros Hw Hs. unfold prune. unfold within in Hs.
  destruct (Z.leb_spec (Z.of_nat (size (items p))) (highWater p)); [done|lia].
Qed.

(** Adding one probation relay to a pool within its capacity and pruning gives a
    pool within its capacity: the newcomer itself can always be evicted. *)
Lemma prune_add_within now p pid i :
  pool_ok p -> within p -> items p !! pid = None -> inMain i = false ->
  within (prune now (set_items (<[pid := i]> (items p)) p)).
Proof.
  intros [_ Hw] Hs Hn Mi. unfold within in Hs. set (q := set_items _ p).
  assert (Z.of_nat (size (items q)) = Z.of_nat (size (items p)) + 1) as Hq.
  { unfold q. simpl. rewrite map_size_insert_None by done. lia. }
  assert (0 <= lowWater q <= highWater q) as Hwq by done.
  destruct (Z.lt_ge_cases (highWater q) (Z.of_nat (size (items q)))) as [Hlt|Hle].
  2: { rewrite prune_within; [exact Hle|done|exact Hle]. }
  destruct (prune_shape now q) as (L & E & V & Hl & Hr); [lia..|].
  pose proof (evict_all_size L q (ev_nodup _ _ _ V) (ev_dom _ _ _ V)) as Hz.
  unfold within. rewrite E. destruct (evict_all_config L q) as (_ & _ & -> & _).
  unfold zlen in *. change (highWater q) with (highWater p) in *.
  destruct Hr as [Hr|Hr]; [lia|].
  enough (0 < length L)%nat by lia. destruct L as [|x L]; [|simpl; lia]. exfalso.
  rewrite E in Hr. specialize (Hr pid i). simpl in Hr. rewrite lookup_insert_eq in Hr.
  rewrite Hr in Mi; done.
Qed.

Lemma RecordResult_within now pid err p : pool_ok p -> within p -> within (RecordResult now pid err p).
Proof.
  intros Hp Hs. unfold RecordResult. destruct (items p !! pid) as [i|] eqn:Ei; [|done].
  rewrite prune_within; unfold within in *; simpl; [|apply Hp|]; by rewrite map_size_insert_Some by eauto.
Qed.

Lemma apply_op_within now o p : pool_ok p -> within p -> within (apply_op now o p).
Proof.
  intros Hp Hs. destruct o; simpl; try exact Hs.
  - unfold Add. destruct (parse ai) as [[pid addr]|]; [|done].
    destruct (items p !! pid) eqn:Ei; [done|]. by apply prune_add_within.
  - unfold within in *. simpl. rewrite map_size_delete.
    destruct (items p !! pid); simpl; lia.
  - by apply RecordResult_within.
  - destruct r; simpl; [|by apply RecordResult_within].
    unfold within in *. simpl. by rewrite size_alter.
  - unfold within in *. simpl. by rewrite size_alter.
  - unfold within in *. simpl. by rewrite size_alter.
  - unfold SetWeight. by repeat case_match.
Qed.

Lemma prune_high now p : 0 <= lowWater p <= highWater p -> highWater (prune now p) = highWater p.
Proof. intros Hw. by destruct (prune_config now p Hw) as (_ & _ & E & _). Qed.

Lemma RecordResult_high now pid err p :
  pool_ok p -> highWater (RecordResult now pid err p) = highWater p.
Proof. intros [_ Hw]. unfold RecordResult. case_match; [|done]. by rewrite prune_high. Qed.

Lemma apply_op_high now o p : pool_ok p -> highWater (apply_op now o p) = highWater p.
Proof.
  intros Hp. destruct o; simpl; try done.
  - unfold Add. repeat case_match; try done. rewrite prune_high; [done|apply Hp].
  - by apply RecordResult_high.
  - destruct r; simpl; [done|]. by apply RecordResult_high.
  - unfold SetWeight. by repeat case_match.
Qed.

(** No sequence of operations takes the pool over its documented capacity of 50
    relays, for every order of map iteration and every sorting algorithm. *)
Theorem pool_capacity cfg l :
  Z.of_nat (size (items (run_ops l (NewRelayPool cfg)))) <= poolHighWater.
Proof.
  assert (forall p, pool_ok p -> within p -> within (run_ops l p) /\
    highWater (run_ops l p) = highWater p) as Hrun.
  { unfold run_ops. induction l as [|o l IH]; intros p Hp Hs; simpl; [done|].
    assert (highWater (apply_op o.1 o.2 p) = highWater p) as Eh.
    { by apply apply_op_high. }
    rewrite <- Eh. apply IH; [by apply apply_op_ok|by apply apply_op_within]. }
  destruct (Hrun (NewRelayPool cfg)) as [Hs Eh].
  - apply (pool_invariant_nil cfg).
  - unfold within. simpl. rewrite map_size_empty. unfold poolHighWater. lia.
  - unfold within in Hs. by rewrite Eh in Hs.
Qed.

(** [prune] alone does not bound the pool: [Add] and [RecordResult] release the
    lock before they call it, and once every relay is in the main tier and protected
    or recently active there is nothing it evicts, however large the pool. *)
Theorem prune_over_capacity now p :
  0 <= lowWater p <= highWater p ->
  (forall pid i, items p !! pid = Some i ->
     inMain i = true /\ (default false (protected p !! pid) = true \/ recent now i = true)) ->
  items (prune now p) = items p.
Proof.
  intros Hw Hall. destruct (Z.lt_ge_cases (highWater p) (Z.of_nat (size (items p)))) as [Hlt|Hle].
  - destruct (prune_shape now p) as (L & E & V & _); [lia..|]. rewrite E.
    destruct L as [|x L]; [done|]. exfalso.
    destruct (ev_dom _ _ _ V x) as [i Hi]; [set_solver|].
    destruct (Hall x i Hi) as [Mi Hk].
    destruct (ev_main _ _ _ V x i) as [Hp Hr]; [set_solver|done|done|].
    destruct Hk; congruence.
  - by rewrite prune_within.
Qed.

(** [n] failed pushes in a row. *)
Definition fail_times (now : Z) (pid : string) (n : nat) (p : RelayPool) : RelayPool :=
  Nat.iter n (RecordResult now pid ErrOther) p.

Lemma record_within now pid err p i :
  Z.of_nat (size (items p)) <= highWater p -> items p !! pid = Some i ->
  RecordResult now pid err p =
    set_items (<[pid := apply_result now (classifyError err) i]> (items p)) p.
Proof.
  intros Hs Hi. unfold RecordResult. rewrite Hi. unfold prune. cbn [items set_items highWater].
  rewrite map_size_insert_Some by eauto.
  destruct (Z.leb_spec (Z.of_nat (size (items p))) (highWater p)); [done|lia].
Qed.

(** C31. The demotion and circuit-breaker rules: after [n] consecutive failures a
    proven relay is still in the main tier iff [n < 3] and its circuit is open iff
    [5 <= n]; one success then promotes it and closes the circuit. *)
Theorem failures_demote_and_open now pid n p i :
  Z.of_nat (size (items p)) <= highWater p -> items p !! pid = Some i ->
  inMain i = true -> circuitOpen i = false -> consecutiveFails i = 0 ->
  exists j, items (fail_times now pid n p) !! pid = Some j /\
    inMain j = (Z.of_nat n <? 3) /\ circuitOpen j = (5 <=? Z.of_nat n) /\
    consecutiveFails j = Z.of_nat n /\
    exists k, items (RecordResult now pid ErrNil (fail_times now pid n p)) !! pid = Some k /\
      inMain k = true /\ circuitOpen k = false /\ consecutiveFails k = 0.
Proof.
  intros Hs Hi Mi Co Cf.
  assert (exists j, items (fail_times now pid n p) !! pid = Some j /\
    size (items (fail_times now pid n p)) = size (items p) /\
    highWater (fail_times now pid n p) = highWater p /\
    inMain j = (Z.of_nat n <? 3) /\ circuitOpen j = (5 <=? Z.of_nat n) /\
    consecutiveFails j = Z.of_nat n) as (j & Hj & Ej & Eh & Mj & Cj & Fj).
  { induction n as [|n (j & Hj & Ej & Eh & Mj & Cj & Fj)]; [by exists i|].
    change (fail_times now pid (S n) p)
      with (RecordResult now pid ErrOther (fail_times now pid n p)).
    rewrite (record_within _ _ _ _ j) by (done || lia). cbn [items set_items highWater].
    eexists. split; [apply lookup_insert_eq|]. rewrite map_size_insert_Some by eauto.
    split; [done|]. split; [done|]. cbn. rewrite Mj, Cj, Fj. unfold demoteThreshold.
    destruct (Z.ltb_spec (Z.of_nat n) 3), (Z.leb_spec 3 (Z.of_nat n + 1)),
      (Z.leb_spec 5 (Z.of_nat n)), (Z.leb_spec 5 (Z.of_nat n + 1));
      destruct (Z.ltb_spec (Z.of_nat (S n)) 3), (Z.leb_spec 5 (Z.of_nat (S n)));
      (split; [|split]); simpl; (lia || done). }
  exists j. repeat (split; [done|]).
  rewrite (record_within _ _ _ _ j) by (done || lia). cbn [items set_items].
  eexists. split; [apply lookup_insert_eq|done].
Qed.

(** *** Selection *)
Lemma elem_of_entries now site p e :
  e ∈ entries now site p <->
  exists i, items p !! e_pid e = Some i /\ circuitOpen i = false /\
    e_score e = calcScore now (config p) i /\ e_addr e = Addr i.
Proof.
  unfold entries. rewrite list_elem_of_omap. split.
  - intros ([x i] & Hx & E). apply elem_of_range in Hx. simpl in E.
    destruct (circuitOpen i) eqn:Eo; simplify_eq. simpl. eauto.
  - intros (i & Hi & Ho & Hs & Ha). exists (e_pid e, i). split; [by apply elem_of_range|].
    simpl. rewrite Ho. destruct e. simpl in *. by subst.
Qed.

Lemma NoDup_entries now site p : NoDup (e_pid <$> entries now site p).
Proof.
  unfold entries. pose proof (NoDup_range_keys site (items p)) as Hn. revert Hn.
  generalize (range_map site (items p)). intros l.
  induction l as [|[x i] l IH]; intros Hn; [constructor|].
  rewrite fmap_cons in Hn. apply NoDup_cons in Hn as [Hx Hn]. simpl in *.
  destruct (circuitOpen i); simpl; [auto|]. constructor; [|auto]. intros Hin. apply Hx.
  apply list_elem_of_fmap in Hin as (e & -> & He).
  apply list_elem_of_omap in He as ([y j] & Hy & E). simpl in E.
  destruct (circuitOpen j); simplify_eq. apply list_elem_of_fmap. by exists (y, j).
Qed.

Lemma spin_addr r l a : spin r l = Some a -> exists e, e ∈ l /\ a = e_addr e.
Proof.
  revert r. induction l as [|e l IH]; intros r; simpl; [done|].
  destruct (fle _ _); [intros ?; simplify_eq; exists e; set_solver|].
  intros E. destruct (IH _ E) as (x & Hx & ->). exists x. set_solver.
Qed.

(** [Select] gives the address of a relay of the pool whose circuit is not open,
    whatever random numbers are drawn, and gives none only when there is no such
    relay. *)
Theorem select_sound now r1 idx r2 p :
  (forall n, (0 < n)%nat -> (idx n < n)%nat) ->
  match Select now r1 idx r2 p with
  | Some a => exists pid i, items p !! pid = Some i /\ circuitOpen i = false /\ Addr i = a
  | None => forall pid i, items p !! pid = Some i -> circuitOpen i = true
  end.
Proof.
  intros Hidx. unfold Select.
  pose proof (elem_of_entries now 3 p) as He.
  destruct (entries now 3 p) as [|e0 l] eqn:El.
  { intros pid i Hi. destruct (circuitOpen i) eqn:Eo; [done|].
    specialize (He {| e_pid := pid; e_score := calcScore now (config p) i; e_addr := Addr i |}).
    destruct He as [_ He]. apply elem_of_nil in He; [done|]. simpl. eauto. }
  assert (forall e, e ∈ e0 :: l -> exists pid i, items p !! pid = Some i /\
    circuitOpen i = false /\ Addr i = e_addr e) as Hgood.
  { intros e Hin. apply He in Hin as (i & Hi & Ho & _ & Ha). eauto. }
  assert (exists e, (e0 :: l) !! idx (length (e0 :: l)) = Some e) as [ei Ei].
  { apply lookup_lt_is_Some. apply Hidx. simpl. lia. }
  assert (ei ∈ e0 :: l) as Hei by (by eapply list_elem_of_lookup_2).
  destruct (flt r1 _); [rewrite Ei; by apply Hgood|].
  destruct (feq _ _); [rewrite Ei; by apply Hgood|].
  destruct (spin _ _) as [a|] eqn:Es.
  - apply spin_addr in Es as (e & Hin & ->). by apply Hgood.
  - destruct (last (e0 :: l)) as [e|] eqn:Ela; [|by apply last_None in Ela].
    simpl. apply Hgood. apply last_Some in Ela as [l' ->]. set_solver.
Qed.

(** [SelectN] gives as many distinct relays with a closed circuit as asked for and
    available, best scores first: no relay left out scores higher than one chosen. *)
Theorem selectN_best now n p :
  0 <= n ->
  (forall e, e ∈ entries now 4 p -> not_nan (e_score e)) ->
  exists l, SelectN now n p = Ok l /\
    zlen l = Z.min n (zlen (entries now 4 p)) /\ NoDup l.*1 /\
    (forall pid a, (pid, a) ∈ l ->
       exists i, items p !! pid = Some i /\ circuitOpen i = false /\ Addr i = a) /\
    (forall pid a i q j, (pid, a) ∈ l -> items p !! pid = Some i ->
       items p !! q = Some j -> circuitOpen j = false -> q ∉ l.*1 ->
       flt (calcScore now (config p) i) (calcScore now (config p) j) = false).
Proof.
  intros Hn Hnan. unfold SelectN.
  set (less := fun a b => flt (e_score b) (e_score a)).
  set (S := sort_slice less (entries now 4 p)).
  assert (Permutation S (entries now 4 p)) as HP by apply sort_slice_perm.
  assert (zlen S = zlen (entries now 4 p)) as HZ by (unfold zlen; by rewrite HP).
  set (n' := if zlen S <? n then zlen S else n).
  assert (n' = Z.min n (zlen S)) as En by (unfold n'; destruct (Z.ltb_spec (zlen S) n); lia).
  pose proof (zlen_nonneg S). destruct (Z.ltb_spec n' 0); [lia|].
  eexists. split; [reflexivity|]. assert (exists k, k = Z.to_nat n' /\ zlen (take k S) = n') as (k & <- & Lk).
  { eexists. split; [reflexivity|]. unfold zlen. rewrite length_take. unfold zlen in *. lia. }
  set (T := take k S).
  split; [unfold T, zlen in *; rewrite length_fmap; lia|].
  assert (((fun e => (e_pid e, e_addr e)) <$> T).*1 = e_pid <$> T) as Ek
    by (by rewrite <- list_fmap_compose).
  assert (NoDup (e_pid <$> S)) as HN by (rewrite HP; apply NoDup_entries).
  split; [|split].
  - rewrite Ek. unfold T. rewrite fmap_take. by apply NoDup_take_of.
  - intros pid a Hin. apply list_elem_of_fmap in Hin as (e & ? & He). simplify_eq.
    apply elem_of_take_in in He. rewrite HP in He. apply elem_of_entries in He as (i & ? & ? & ? & ?).
    eauto.
  - intros pid a i q j Hin Hi Hj Ho Hq. rewrite Ek in Hq.
    apply list_elem_of_fmap in Hin as (e & ? & He). simplify_eq.
    set (f := {| e_pid := q; e_score := calcScore now (config p) j; e_addr := Addr j |}).
    assert (f ∈ S) as Hf by (rewrite HP; apply elem_of_entries; eauto).
    rewrite <- (take_drop k S) in Hf. apply elem_of_app in Hf as [Hf|Hf].
    { destruct Hq. apply list_elem_of_fmap. by exists f. }
    pose proof (elem_of_take_in _ _ _ He) as He'. rewrite HP in He'.
    apply elem_of_entries in He' as (i' & Hi' & _ & Es & _). simplify_eq.
    rewrite <- Es. apply (sort_slice_split (fun e => not_nan (e_score e)) less
      (entries now 4 p) k e f); [|by apply Forall_forall|exact He|exact Hf].
    apply strict_weak_flip, flt_strict_weak.
Qed.

(** *** Statistics *)
Lemma count_split (P : RelayItem -> bool) p :
  count P p + count (fun i => negb (P i)) p = Z.of_nat (size (items p)).
Proof.
  unfold count, zlen. rewrite <- (length_range 6 (items p)).
  induction (range_map 6 (items p)) as [|[x i] l IH]; [done|].
  rewrite !filter_cons. simpl. destruct (P i); simpl; lia.
Qed.

(** The counters of [Stats] add up: every relay is counted in one tier and once as
    healthy or circuit-open. *)
Theorem stats_add_up now p :
  let s := Stats now p in
  Total s = Z.of_nat (size (items p)) /\ ProbationCnt s + MainCnt s = Total s /\
  Healthy s + CircuitOpen s = Total s.
Proof.
  simpl. split; [done|]. pose proof (count_split inMain p). pose proof (count_split circuitOpen p).
  lia.
Qed.

End guarantees.

(** ** Concrete pools *)

(** [n] relays, each proven by a successful push at time [now]. *)
Definition proven (n : nat) (now : Z) : list (Z * op) :=
  concat (map (fun k => let id := String.append "relay" (pretty k) in
    [(now, OpAdd (fun a => Some (a, "/ip4/1.2.3.4")) id); (now, OpResult id ErrNil)]) (seq 0 n)).

(** [n] relays on probation, connected one after the other. *)
Definition unproven (n : nat) : list (Z * op) :=
  map (fun k => (Z.of_nat k * second, OpAdd (fun a => Some (a, "/ip4/1.2.3.4"))
    (String.append "relay" (pretty k)))) (seq 1 n).

Section examples.
#[local] Instance G : GoSort := insertion_go_sort.
#[local] Instance M : MapRange := map_to_list_range.

Definition pool_of (l : list (Z * op)) : RelayPool := run_ops l (NewRelayPool defaultWeights).

(** The interleaving that exceeds the capacity: the 51st relay is inserted by [Add],
    proven by [RecordResult] in another goroutine, and only then comes [Add]'s
    [prune]. *)
Definition raced : RelayPool :=
  let p := pool_of (proven 50 second) in
  RecordResult second "late" ErrNil
    (set_items (<["late" := new_item second "late" "/ip4/5.6.7.8"]> (items p)) p).

Lemma prune_over_capacity_witness :
  Z.of_nat (size (items raced)) = 51 /\ items (prune second raced) = items raced.
Proof.
  split; [vm_compute; reflexivity|]. apply prune_over_capacity.
  - vm_compute. split; congruence.
  - assert (bool_decide (map_Forall (fun _ i => inMain i = true /\ recent second i = true)
      (items raced)) = true) as Hb by (vm_compute; reflexivity).
    apply bool_decide_eq_true in Hb. intros pid i Hi.
    destruct (Hb pid i Hi) as [Hm Hr]. split; [exact Hm|by right].
Defined.

(** The 51st probation relay makes the pool drop to 40. *)
Lemma prune_spec_witness :
  let p := set_items (<["late" := new_item (99 * second) "late" "/ip4/5.6.7.8"]>
             (items (pool_of (unproven 50)))) (pool_of (unproven 50)) in
  Z.of_nat (size (items p)) = 51 /\
  lowWater p <= Z.of_nat (size (items (prune (99 * second) p))).
Proof.
  intros p. split; [vm_compute; reflexivity|].
  destruct (prune_spec (99 * second) p) as [_ Hs]; [vm_compute; split; congruence|].
  destruct Hs as [Hl _]; [vm_compute; reflexivity|]. exact Hl.
Defined.

Lemma failures_demote_and_open_witness :
  let p := pool_of (proven 1 second) in
  exists j, items (fail_times second "relay0" 4 p) !! "relay0" = Some j /\
    inMain j = false /\ circuitOpen j = false /\ consecutiveFails j = 4 /\
    exists k, items (RecordResult second "relay0" ErrNil (fail_times second "relay0" 4 p)) !! "relay0" = Some k /\
      inMain k = true /\ circuitOpen k = false /\ consecutiveFails k = 0.
Proof.
  intros p. destruct (items p !! "relay0") as [i|] eqn:Ei; [|vm_compute in Ei; congruence].
  apply (failures_demote_and_open second "relay0" 4 p i).
  - vm_compute. congruence.
  - exact Ei.
  - vm_compute in Ei. by injection Ei as <-.
  - vm_compute in Ei. by injection Ei as <-.
  - vm_compute in Ei. by injection Ei as <-.
Defined.

Lemma select_sound_witness :
  let p := pool_of (proven 3 second) in
  match Select second (fconst 1 2) (fun _ => 0%nat) (fconst 1 3) p with
  | Some a => exists pid i, items p !! pid = Some i /\ circuitOpen i = false /\ Addr i = a
  | None => forall pid i, items p !! pid = Some i -> circuitOpen i = true
  end.
Proof. intros p. apply select_sound. intros n Hn. exact Hn. Defined.

Lemma selectN_best_witness :
  let p := pool_of (proven 3 second) in
  exists l, SelectN second 2 p = Ok l /\ zlen l = 2 /\ NoDup l.*1.
Proof.
  intros p. destruct (selectN_best second 2 p) as (l & E & Z & N & _).
  - lia.
  - assert (forallb (fun e => match e_score e with SpecFloat.S754_nan => false | _ => true end)
      (entries second 4 p) = true) as Hb by (vm_compute; reflexivity).
    rewrite forallb_forall in Hb. intros e He. apply list_elem_of_In, Hb in He.
    unfold not_nan. by destruct (e_score e).
  - exists l. split; [exact E|]. split; [|exact N]. rewrite Z. vm_compute. reflexivity.
Defined.

End examples.
