(* ===== verification/PeerStore.v ===== *)
(** * What is known about other peers (src/p2put)

    [Module PeerDB] is peerdb.go (last sightings with a time to live), [Module
    StablePeers] stable_peers.go (connection statistics of at most 32 peers),
    [Module AddrManager] addrmgr.go with [mergeAddrs] of libp2p_bs.go (the addresses
    this host advertises).  Multiaddrs are a type of their own with a text form;
    which relay a circuit address goes through is a parameter. *)

From stdpp Require Import pretty.
From S2P Require Import Prelude GoLib.

(** ** Sightings *)
Module PeerDB.

Record PeerRecord := { PeerID : string; Addrs : list string; SeenAt : Z }.
Record PeerDB := { peers : gmap string PeerRecord; ttl : Z }.

Definition NewPeerDB (ttl : Z) : PeerDB := {| peers := ∅; ttl := ttl |}.

Definition Update (pid : string) (addrs : list string) (seenAt : Z) (db : PeerDB) : PeerDB :=
  match peers db !! pid with
  | Some existing =>
      if negb (time_after seenAt (SeenAt existing)) then db
      else {| peers := <[pid := {| PeerID := pid; Addrs := addrs; SeenAt := seenAt |}]> (peers db);
              ttl := ttl db |}
  | None =>
      {| peers := <[pid := {| PeerID := pid; Addrs := addrs; SeenAt := seenAt |}]> (peers db);
         ttl := ttl db |}
  end.

Definition stale (now : Z) (db : PeerDB) (r : PeerRecord) : bool :=
  ttl db <? time_sub now (SeenAt r).

Definition Get (now : Z) (pid : string) (db : PeerDB) : option PeerRecord :=
  match peers db !! pid with
  | None => None
  | Some r => if stale now db r then None else Some r
  end.

Section list.
Context `{MapRange}.

Definition List (now : Z) (db : PeerDB) : list PeerRecord :=
  omap (fun e : string * PeerRecord => if stale now db e.2 then None else Some e.2)
    (range_map 11 (peers db)).

Definition ListIDs (now : Z) (db : PeerDB) : list string :=
  omap (fun e : string * PeerRecord => if stale now db e.2 then None else Some (PeerID e.2))
    (range_map 12 (peers db)).

(** One tick of [cleanup]. *)
Definition cleanup (now : Z) (db : PeerDB) : PeerDB :=
  {| peers := foldl (fun m (e : string * PeerRecord) =>
                if stale now db e.2 then delete e.1 m else m)
                (peers db) (range_map 13 (peers db));
     ttl := ttl db |}.
End list.

Inductive op := OpUpdate (pid : string) (addrs : list string) (seenAt : Z) | OpCleanup (now : Z).

Section theorems.
Context `{MapRange}.

Definition apply_op (db : PeerDB) (o : op) : PeerDB :=
  match o with
  | OpUpdate pid addrs seenAt => Update pid addrs seenAt db
  | OpCleanup now => cleanup now db
  end.

Lemma cleanup_lookup now db pid :
  peers (cleanup now db) !! pid =
  match peers db !! pid with
  | Some r => if stale now db r then None else Some r
  | None => None
  end.
Proof.
  unfold cleanup. cbn [peers]. fold (sweep (stale now db) (peers db) (range_map 13 (peers db))).
  apply sweep_range_lookup.
Qed.

(** The record of a peer is stored under its id. *)
Definition keyed (db : PeerDB) : Prop := map_Forall (fun pid r => PeerID r = pid) (peers db).

Lemma apply_op_keyed db o : keyed db -> keyed (apply_op db o).
Proof.
  intros Hk. destruct o; simpl.
  - unfold Update. repeat case_match; try done; by apply map_Forall_insert_2.
  - intros x r. rewrite cleanup_lookup. destruct (peers db !! x) as [r'|] eqn:E; [|done].
    destruct (stale _ _ _); intros ?; simplify_eq. by apply Hk.
Qed.

(** The latest sighting among the updates of [pid] in [l], with the one on record
    before them. *)
Definition latest (pid : string) (start : option Z) (l : list op) : option Z :=
  foldl (fun t o => match o with
    | OpUpdate p _ s => if String.eqb p pid
                        then Some (match t with Some t => Z.max t s | None => s end) else t
    | OpCleanup _ => t
    end) start l.

Lemma Update_seen pid addrs s db q :
  SeenAt <$> peers (Update pid addrs s db) !! q =
  if String.eqb pid q
  then Some (match SeenAt <$> peers db !! q with Some t => Z.max t s | None => s end)
  else SeenAt <$> peers db !! q.
Proof.
  unfold Update, time_after. destruct (String.eqb_spec pid q) as [<-|Hne].
  - destruct (peers db !! pid) as [r|] eqn:E; simpl; [|by rewrite lookup_insert_eq].
    destruct (Z.ltb_spec (SeenAt r) s); simpl.
    + rewrite lookup_insert_eq. simpl. f_equal. lia.
    + rewrite E. simpl. f_equal. lia.
  - repeat case_match; try done; simpl; by rewrite lookup_insert_ne.
Qed.

(** The database answers with the latest sighting of a peer, whatever the order
    in which sightings arrive: after any sequence of updates the record carries the
    maximal time seen; [Get] returns it exactly while it is within the time to live;
    [ListIDs] lists exactly the peers [Get] finds; and a cleanup changes no later
    answer. *)
Theorem peerdb_latest t l now pid :
  let db := foldl apply_op (NewPeerDB t) l in
  (Forall (fun o => match o with OpUpdate _ _ _ => True | OpCleanup _ => False end) l ->
   SeenAt <$> peers db !! pid = latest pid None l) /\
  (forall r, Get now pid db = Some r <->
     peers db !! pid = Some r /\ time_sub now (SeenAt r) <= t) /\
  (pid ∈ ListIDs now db <-> is_Some (Get now pid db)) /\
  (forall now', now' <= now -> Get now pid (cleanup now' db) = Get now pid db).
Proof.
  intros db.
  assert (ttl db = t) as Ht.
  { subst db. enough (forall d, ttl (foldl apply_op d l) = ttl d) as -> by done.
    induction l as [|o l IH]; intros d; simpl; [done|]. rewrite IH.
    destruct o; simpl; [|done]. unfold Update. by repeat case_match. }
  assert (keyed db) as Hk.
  { subst db. assert (keyed (NewPeerDB t)) as Hn by apply map_Forall_empty.
    revert Hn. generalize (NewPeerDB t). clear.
    induction l as [|o l IH]; intros d Hd; simpl; [done|]. by apply IH, apply_op_keyed. }
  split; [|split; [|split]].
  - intros Hl. subst db.
    enough (forall d, SeenAt <$> peers (foldl apply_op d l) !! pid =
                      latest pid (SeenAt <$> peers d !! pid) l) as -> by done.
    clear Ht Hk. induction Hl as [|o l Ho _ IH]; intros d; simpl; [done|].
    rewrite IH. destruct o; [|done]. simpl. f_equal. apply Update_seen.
  - intros r. unfold Get, stale. rewrite Ht. destruct (peers db !! pid) as [r'|]; [|naive_solver].
    destruct (Z.ltb_spec t (time_sub now (SeenAt r'))); split; intros E; simplify_eq; try done.
    + destruct E as [E1 E2]. simplify_eq. lia.
    + by destruct E.
  - unfold ListIDs, Get. rewrite list_elem_of_omap. split.
    + intros ([x r] & Hin & E). apply elem_of_range in Hin. simpl in E.
      destruct (stale now db r) eqn:Es; simplify_eq.
      rewrite (Hk x r Hin), Hin, Es. eauto.
    + intros [r Hr]. destruct (peers db !! pid) as [r'|] eqn:E; [|done].
      exists (pid, r'). split; [by apply elem_of_range|]. simpl.
      destruct (stale now db r'); [done|]. by rewrite (Hk pid r' E).
  - intros now' Hle. unfold Get. rewrite cleanup_lookup.
    destruct (peers db !! pid) as [r|]; [|done]. unfold stale. change (ttl (cleanup now' db)) with (ttl db).
    destruct (Z.ltb_spec (ttl db) (time_sub now' (SeenAt r))); [|done].
    pose proof (time_sub_mono now' now (SeenAt r) Hle).
    destruct (Z.ltb_spec (ttl db) (time_sub now (SeenAt r))); [done|lia].
Qed.
End theorems.
End PeerDB.

(** ** Connection statistics *)
Module StablePeers.

Definition maxStablePeers : Z := 32.

Record stableInfo := {
  firstSeen : Z; onlineSince : Z; totalOnline : Z; lastSeen : Z;
  connCount : Z; disconnCount : Z; avgLatency : Z
}.

Section stable.
Context `{MapRange} `{GoSort} (isBootstrapPeer : string -> bool).
Notation peers := (gmap string stableInfo).

(** When a peer was last known about: [lastSeen], or [firstSeen] while it is zero. *)
Definition last_known (si : stableInfo) : Z :=
  if time_is_zero (lastSeen si) then firstSeen si else lastSeen si.

(** The loop of [evictOne]: the victim so far and its time. *)
Definition victim_step (v : option (string * Z)) (e : string * stableInfo) : option (string * Z) :=
  match v with
  | None => Some (e.1, last_known e.2)
  | Some (_, oldest) => if time_before (last_known e.2) oldest then Some (e.1, last_known e.2) else v
  end.

Definition evictOne (m : peers) : peers :=
  match foldl victim_step None (range_map 14 m) with
  | Some (victim, _) => delete victim m
  | None => m
  end.

Definition connected (now : Z) (si : stableInfo) : stableInfo :=
  {| firstSeen := firstSeen si;
     onlineSince := if time_is_zero (onlineSince si) then now else onlineSince si;
     totalOnline := totalOnline si; lastSeen := lastSeen si;
     connCount := connCount si + 1; disconnCount := disconnCount si;
     avgLatency := avgLatency si |}.

Definition disconnected (now : Z) (si : stableInfo) : stableInfo :=
  {| firstSeen := firstSeen si;
     onlineSince := zero_time;
     totalOnline := if time_is_zero (onlineSince si) then totalOnline si
                    else wraps 64 (totalOnline si + time_sub now (onlineSince si));
     lastSeen := now;
     connCount := connCount si; disconnCount := disconnCount si + 1;
     avgLatency := avgLatency si |}.

Inductive Connectedness := Connected | NotConnected | OtherState.

Definition handlePeerConnectednessChanged (now : Z) (peer : string) (c : Connectedness)
    (m : peers) : peers :=
  if isBootstrapPeer peer then m
  else
    match c with
    | Connected =>
        match m !! peer with
        | Some si => <[peer := connected now si]> m
        | None =>
            let m := if maxStablePeers <=? Z.of_nat (size m) then evictOne m else m in
            <[peer := {| firstSeen := now; onlineSince := now; totalOnline := 0;
                         lastSeen := zero_time; connCount := 1; disconnCount := 0;
                         avgLatency := 0 |}]> m
        end
    | NotConnected =>
        match m !! peer with
        | Some si => <[peer := disconnected now si]> m
        | None => m
        end
    | OtherState => m
    end.

Definition updatePeerLatency (pid : string) (elapsed : Z) (m : peers) : peers :=
  if isBootstrapPeer pid then m
  else
    match m !! pid with
    | None => m
    | Some si =>
        let l := if connCount si <=? 1 then elapsed
                 else ftrunc (fadd (fmul (fof_int elapsed) (fconst 3 10))
                                   (fmul (fof_int (avgLatency si)) (fconst 7 10))) in
        <[pid := {| firstSeen := firstSeen si; onlineSince := onlineSince si;
                    totalOnline := totalOnline si; lastSeen := lastSeen si;
                    connCount := connCount si; disconnCount := disconnCount si;
                    avgLatency := l |}]> m
    end.

Definition peerScore (si : stableInfo) : float64 :=
  let score := fzero in
  let score := if time_is_zero (onlineSince si) then score else fadd score (fof_int 100) in
  let total := connCount si + disconnCount si in
  let score := if 0 <? total
    then fadd score (fmul (fdiv (fof_int (connCount si)) (fof_int total)) (fof_int 50))
    else score in
  if (0 <? avgLatency si) && (avgLatency si <? 10 * second)
  then fadd score (fmul (fsub fone (fdiv (fof_int (avgLatency si)) (fof_int (10 * second))))
                        (fof_int 50))
  else score.

(** [CollectStablePeers], without the formatting of the entries: the peers by
    descending time online. *)
Definition CollectStablePeers (m : peers) : list (string * stableInfo) :=
  sort_slice (fun a b => totalOnline b.2 <? totalOnline a.2) (range_map 15 m).

Inductive event :=
  | EvConn (peer : string) (c : Connectedness)
  | EvLatency (peer : string) (elapsed : Z).

Definition step (now : Z) (e : event) (m : peers) : peers :=
  match e with
  | EvConn p c => handlePeerConnectednessChanged now p c m
  | EvLatency p l => updatePeerLatency p l m
  end.

(** *** Eviction *)
Lemma victim_fold l v :
  match foldl victim_step v l with
  | Some (x, t) =>
      ((exists si, (x, si) ∈ l /\ t = last_known si) \/ v = Some (x, t)) /\
      (forall y si, (y, si) ∈ l -> t <= last_known si) /\
      (forall x0 t0, v = Some (x0, t0) -> t <= t0)
  | None => v = None /\ l = []
  end.
Proof.
  revert v. induction l as [|[y si] l IH]; intros v; simpl.
  { destruct v as [[x t]|]; [|done]. split; [by right|]. split.
    - intros ? ? Hin. by apply elem_of_nil in Hin.
    - intros ? ? ?. simplify_eq. lia. }
  specialize (IH (victim_step v (y, si))).
  destruct (foldl victim_step _ l) as [[x t]|].
  2: { destruct IH as [IH _]. unfold victim_step in IH. by repeat case_match. }
  destruct IH as (Hx & Hl & Hv). unfold victim_step, time_before in *. simpl in *.
  split; [|split].
  - destruct Hx as [(s & Hin & ->)|Hx]; [left; exists s; split; [by apply list_elem_of_further|done]|].
    destruct v as [[x0 t0]|]; [|simplify_eq; left; exists si; split; [apply list_elem_of_here|done]].
    destruct (Z.ltb_spec (last_known si) t0); simplify_eq; [left|by right].
    exists si. split; [apply list_elem_of_here|done].
  - intros z s. rewrite elem_of_cons. intros [Hz|Hz]; [|by eapply Hl]. simplify_eq.
    destruct v as [[x0 t0]|]; [|by eapply Hv].
    destruct (Z.ltb_spec (last_known si) t0) as [Hlt|Hge]; [by eapply Hv|].
    specialize (Hv x0 t0 eq_refl). lia.
  - intros x0 t0 ->. destruct (Z.ltb_spec (last_known si) t0) as [Hlt|Hge].
    + specialize (Hv y (last_known si) eq_refl). lia.
    + by eapply Hv.
Qed.

(** [evictOne] removes one peer, and none of the others was known about earlier. *)
Lemma evictOne_spec m :
  m <> ∅ -> exists x si, m !! x = Some si /\ evictOne m = delete x m /\
    forall y sj, m !! y = Some sj -> last_known si <= last_known sj.
Proof.
  intros Hm. unfold evictOne. pose proof (victim_fold (range_map 14 m) None) as Hv.
  destruct (foldl victim_step None _) as [[x t]|].
  - destruct Hv as ([(si & Hin & ->)|] & Hl & _); [|done].
    apply elem_of_range in Hin. exists x, si. split; [done|]. split; [done|].
    intros y sj Hy. apply (Hl y sj). by apply elem_of_range.
  - destruct Hv as [_ He]. destruct Hm. apply map_size_empty_inv.
    by rewrite <- (length_range 14 m), He.
Qed.

(** *** Invariants *)

(** At time [t] of a history that begins at [b]: a peer has been online no longer
    than it has been known. *)
Definition info_ok (b t : Z) (si : stableInfo) : Prop :=
  b <= firstSeen si /\ 0 <= totalOnline si /\
  firstSeen si + totalOnline si <= t /\
  (onlineSince si = zero_time \/
   0 < onlineSince si <= t /\ firstSeen si + totalOnline si <= onlineSince si) /\
  (lastSeen si = zero_time \/ firstSeen si + totalOnline si <= lastSeen si <= t) /\
  1 <= connCount si /\ 0 <= disconnCount si.

Definition table_ok (b t : Z) (m : peers) : Prop :=
  map_Forall (fun _ si => info_ok b t si) m /\ Z.of_nat (size m) <= maxStablePeers.

Lemma info_ok_mono b t t' si : t <= t' -> info_ok b t si -> info_ok b t' si.
Proof. unfold info_ok. intros ?. naive_solver lia. Qed.

Lemma connected_ok b t si :
  0 < b <= t -> info_ok b t si -> info_ok b t (connected t si).
Proof.
  intros Ht (H1 & H2 & H3 & H4 & H5 & H6 & H7). unfold info_ok, connected, time_is_zero. simpl.
  repeat split; try done; try lia. unfold zero_time in *.
  destruct (Z.eqb_spec (onlineSince si) 0); [right; lia|]. destruct H4; [lia|by right].
Qed.

Lemma disconnected_ok b t si :
  0 < b <= t -> t - b < 2 ^ 62 -> info_ok b t si -> info_ok b t (disconnected t si).
Proof.
  intros Ht Hb (H1 & H2 & H3 & H4 & H5 & H6 & H7). unfold info_ok, disconnected, time_is_zero.
  simpl. unfold zero_time in *.
  assert (0 <= (if onlineSince si =? 0 then totalOnline si
    else wraps 64 (totalOnline si + time_sub t (onlineSince si))) /\
    firstSeen si + (if onlineSince si =? 0 then totalOnline si
    else wraps 64 (totalOnline si + time_sub t (onlineSince si))) <= t) as [A B].
  { destruct (Z.eqb_spec (onlineSince si) 0); [lia|]. destruct H4 as [|[H4 H4']]; [lia|].
    rewrite time_sub_small by (unfold min_int64, max_int64; lia).
    rewrite wraps_small by lia. lia. }
  repeat split; try done; try lia; right; lia.
Qed.

Lemma step_ok b t t' e m :
  0 < b <= t -> t <= t' -> t' - b < 2 ^ 62 -> table_ok b t m -> table_ok b t' (step t' e m).
Proof.
  intros Hb Ht Ht' [Hm Hs].
  assert (map_Forall (fun _ si => info_ok b t' si) m) as Hm'.
  { eapply map_Forall_impl; [exact Hm|]. intros ? ?. apply info_ok_mono. lia. }
  destruct e as [p c|p l]; simpl.
  - unfold handlePeerConnectednessChanged. destruct (isBootstrapPeer p); [done|].
    destruct c; [| |done].
    + destruct (m !! p) as [si|] eqn:E.
      * split; [|by rewrite map_size_insert_Some by eauto]. apply map_Forall_insert_2; [|done].
        apply connected_ok; [lia|]. by apply (Hm' p).
      * assert (info_ok b t' {| firstSeen := t'; onlineSince := t'; totalOnline := 0;
           lastSeen := zero_time; connCount := 1; disconnCount := 0; avgLatency := 0 |}) as Hn.
        { unfold info_ok, zero_time. simpl. split_and!; try lia; by left. }
        destruct (Z.leb_spec maxStablePeers (Z.of_nat (size m))).
        -- destruct (evictOne_spec m) as (x & si & Hx & -> & _).
           { intros ->. rewrite map_size_empty in *. unfold maxStablePeers in *. lia. }
           split; [apply map_Forall_insert_2; [done|by apply map_Forall_delete]|].
           rewrite map_size_insert_None, map_size_delete_Some by
             (eauto || (rewrite lookup_delete_None; by right)).
           assert (0 < size m)%nat; [|lia]. apply Nat.neq_0_lt_0. intros Hz.
           apply map_size_empty_inv in Hz. by rewrite Hz, lookup_empty in Hx.
        -- split; [by apply map_Forall_insert_2|].
           rewrite map_size_insert_None by done. unfold maxStablePeers in *. lia.
    + destruct (m !! p) as [si|] eqn:E; [|done].
      split; [|by rewrite map_size_insert_Some by eauto]. apply map_Forall_insert_2; [|done].
      apply disconnected_ok; [lia|lia|]. by apply (Hm' p).
  - unfold updatePeerLatency. destruct (isBootstrapPeer p); [done|].
    destruct (m !! p) as [si|] eqn:E; [|done].
    split; [|by rewrite map_size_insert_Some by eauto]. apply map_Forall_insert_2; [|done].
    exact (Hm' p si E).
Qed.

Fixpoint run (t : Z) (l : list (Z * event)) (m : peers) : peers :=
  match l with [] => m | (d, e) :: r => run (t + d) r (step (t + d) e m) end.

Definition finish (t : Z) (l : list (Z * event)) : Z := t + foldr (fun e => Z.add e.1) 0 l.

Lemma run_ok b l u m :
  0 < b <= u -> Forall (fun e => 0 <= e.1) l -> finish u l < b + 2 ^ 62 ->
  table_ok b u m -> table_ok b (finish u l) (run u l m).
Proof.
  intros Hb Hl. unfold finish. revert u m Hb. induction Hl as [|[d e] l Hd Hl IH]; intros u m Hb Hf Hm; simpl in *.
  - by rewrite Z.add_0_r.
  - assert (0 <= foldr (fun e => Z.add e.1) 0 l).
    { clear -Hl. induction Hl; simpl; lia. }
    rewrite Z.add_assoc in Hf |- *. apply IH; [lia|done|].
    apply (step_ok b u); [lia|lia|lia|done].
Qed.

(** Over any history of connects, disconnects and latency reports with a clock
    that does not run backwards, at most 32 peers are tracked, and a peer's
    accumulated time online is never negative and never exceeds the time since it
    was first seen. *)
Theorem stable_table_ok t l :
  0 < t -> Forall (fun e => 0 <= e.1) l -> finish t l < t + 2 ^ 62 ->
  table_ok t (finish t l) (run t l ∅).
Proof.
  intros Ht Hl Hf. apply run_ok; [lia|done|done|].
  split; [apply map_Forall_empty|]. rewrite map_size_empty. unfold maxStablePeers. lia.
Qed.

(** When the table is full, a newly connected peer replaces the one known about
    longest ago; this is the peer with the oldest [lastSeen], but a peer that has
    been connected without interruption counts with the time of its first
    connection, so it goes before peers that have since disconnected. *)
Theorem evict_longest_unseen now p m :
  isBootstrapPeer p = false -> m !! p = None -> maxStablePeers <= Z.of_nat (size m) ->
  exists x si, m !! x = Some si /\
    handlePeerConnectednessChanged now p Connected m =
      <[p := {| firstSeen := now; onlineSince := now; totalOnline := 0; lastSeen := zero_time;
                connCount := 1; disconnCount := 0; avgLatency := 0 |}]> (delete x m) /\
    forall y sj, m !! y = Some sj -> last_known si <= last_known sj.
Proof.
  intros Hb Hp Hs. unfold handlePeerConnectednessChanged. rewrite Hb, Hp.
  destruct (Z.leb_spec maxStablePeers (Z.of_nat (size m))); [|lia].
  destruct (evictOne_spec m) as (x & si & Hx & -> & Hmin).
  { intros ->. rewrite map_size_empty in *. unfold maxStablePeers in *. lia. }
  by exists x, si.
Qed.

End stable.
End StablePeers.

(** ** Advertised addresses *)
Module AddrManager.

Section addrs.
Context `{MapRange} {A : Type} (addr_string : A -> string).
(** [extractRelayPeerID]: the relay of a circuit address, or an error. *)
Context (extractRelayPeerID : A -> res string).

Record relayVouch := { addrs : list A; expiration : Z }.
Record AddrManager := {
  localAddrs : list A; relayCircuitAddrs : list A; relayVouches : gmap string relayVouch
}.

Definition NewAddrManager : AddrManager :=
  {| localAddrs := []; relayCircuitAddrs := []; relayVouches := ∅ |}.

Definition SetLocal (l : list A) (m : AddrManager) : AddrManager :=
  {| localAddrs := l; relayCircuitAddrs := relayCircuitAddrs m; relayVouches := relayVouches m |}.
Definition SetRelayCircuit (l : list A) (m : AddrManager) : AddrManager :=
  match l with
  | [] => m
  | _ => {| localAddrs := localAddrs m; relayCircuitAddrs := l; relayVouches := relayVouches m |}
  end.
Definition SetRelayVouch (id : string) (l : list A) (expiry : Z) (m : AddrManager) : AddrManager :=
  {| localAddrs := localAddrs m; relayCircuitAddrs := relayCircuitAddrs m;
     relayVouches := <[id := {| addrs := l; expiration := expiry |}]> (relayVouches m) |}.

(** One of the two loops of [mergeAddrs]: the keys seen and the addresses kept. *)
Definition merge_step (st : gset string * list A) (a : A) : gset string * list A :=
  let key := addr_string a in
  if decide (key ∈ st.1) then st else ({[key]} ∪ st.1, st.2 ++ [a]).

Definition mergeAddrs (existing incoming : list A) : list A :=
  (foldl merge_step (foldl merge_step (∅, []) existing) incoming).2.

Definition live (now : Z) (v : relayVouch) : bool := time_before now (expiration v).

(** A circuit address is kept unless its relay's vouch has expired. *)
Definition circuit_valid (now : Z) (m : AddrManager) (a : A) : bool :=
  match extractRelayPeerID a with
  | Ok relay =>
      match relayVouches m !! relay with
      | Some v => live now v
      | None => true
      end
  | _ => true
  end.

Definition GetAll (now : Z) (m : AddrManager) : list A * AddrManager :=
  let valid := filter (fun a => circuit_valid now m a = true) (relayCircuitAddrs m) in
  let out := mergeAddrs (localAddrs m) valid in
  let '(out, vouches) :=
    foldl (fun (st : list A * gmap string relayVouch) (e : string * relayVouch) =>
      if live now e.2 then (mergeAddrs st.1 (addrs e.2), st.2)
      else (st.1, delete e.1 st.2)) (out, relayVouches m) (range_map 16 (relayVouches m)) in
  (out, {| localAddrs := localAddrs m; relayCircuitAddrs := valid; relayVouches := vouches |}).

(** *** Merging *)
Definition merge_inv (st : gset string * list A) : Prop :=
  NoDup (addr_string <$> st.2) /\ forall k, k ∈ st.1 <-> k ∈ addr_string <$> st.2.

Lemma merge_step_spec st a :
  merge_inv st -> merge_inv (merge_step st a) /\
  (forall k, k ∈ addr_string <$> (merge_step st a).2 <->
     k ∈ addr_string <$> st.2 \/ k = addr_string a) /\
  (forall x, x ∈ (merge_step st a).2 -> x ∈ st.2 \/ x = a).
Proof.
  intros [Hn Hk]. unfold merge_step. destruct (decide _) as [Hin|Hin].
  - split; [done|]. split; [|tauto]. intros k. split; [tauto|]. intros [? | ->]; [done|]. by apply Hk.
  - split; [|split].
    + split; simpl.
      * rewrite fmap_app. apply NoDup_app. split; [done|]. split; [|apply NoDup_singleton].
        intros k Hk1 Hk2. change (addr_string <$> [a]) with [addr_string a] in Hk2.
        apply list_elem_of_singleton in Hk2 as ->. by apply Hin, Hk.
      * intros k. rewrite fmap_app, elem_of_app, elem_of_union, elem_of_singleton, Hk.
        change (addr_string <$> [a]) with [addr_string a]. rewrite list_elem_of_singleton. tauto.
    + intros k. simpl. rewrite fmap_app, elem_of_app.
      change (addr_string <$> [a]) with [addr_string a]. rewrite list_elem_of_singleton. tauto.
    + intros x. simpl. rewrite elem_of_app, list_elem_of_singleton. tauto.
Qed.

Lemma merge_fold l st :
  merge_inv st -> merge_inv (foldl merge_step st l) /\
  (forall k, k ∈ addr_string <$> (foldl merge_step st l).2 <->
     k ∈ addr_string <$> st.2 \/ k ∈ addr_string <$> l) /\
  (forall x, x ∈ (foldl merge_step st l).2 -> x ∈ st.2 \/ x ∈ l).
Proof.
  revert st. induction l as [|a l IH]; intros st Hi; simpl.
  - split; [done|]. split; [|tauto]. intros k. rewrite elem_of_nil. tauto.
  - destruct (merge_step_spec st a Hi) as (Hi' & Hk & Hx).
    destruct (IH _ Hi') as (I & K & X). split; [done|]. split.
    + intros k. rewrite K, Hk, elem_of_cons. tauto.
    + intros x Hin. apply X in Hin as [Hin|Hin]; [apply Hx in Hin as [? | ->]|]; set_solver.
Qed.

Lemma mergeAddrs_spec l1 l2 :
  NoDup (addr_string <$> mergeAddrs l1 l2) /\
  (forall k, k ∈ addr_string <$> mergeAddrs l1 l2 <->
     k ∈ addr_string <$> l1 \/ k ∈ addr_string <$> l2) /\
  (forall x, x ∈ mergeAddrs l1 l2 -> x ∈ l1 \/ x ∈ l2).
Proof.
  unfold mergeAddrs.
  assert (merge_inv (∅, [])) as H0 by (split; [constructor|set_solver]).
  destruct (merge_fold l1 _ H0) as (I1 & K1 & X1).
  destruct (merge_fold l2 _ I1) as (I2 & K2 & X2).
  split; [apply I2|]. split.
  - intros k. rewrite K2, K1. simpl. set_solver.
  - intros x Hx. apply X2 in Hx as [Hx|Hx]; [|by right]. apply X1 in Hx as [Hx|Hx]; [set_solver|by left].
Qed.

(** *** The advertised set *)

(** The addresses [GetAll] is to give at [now]. *)
Definition advertised (now : Z) (m : AddrManager) (k : string) : Prop :=
  k ∈ addr_string <$> localAddrs m \/
  (exists a, a ∈ relayCircuitAddrs m /\ circuit_valid now m a = true /\ k = addr_string a) \/
  exists id v, relayVouches m !! id = Some v /\ live now v = true /\ k ∈ addr_string <$> addrs v.

Lemma vouch_fold now l out vs out' vs' :
  NoDup (addr_string <$> out) ->
  foldl (fun (st : list A * gmap string relayVouch) (e : string * relayVouch) =>
      if live now e.2 then (mergeAddrs st.1 (addrs e.2), st.2)
      else (st.1, delete e.1 st.2)) (out, vs) l = (out', vs') ->
  NoDup (addr_string <$> out') /\
  (forall k, k ∈ addr_string <$> out' <->
     k ∈ addr_string <$> out \/
     exists id v, (id, v) ∈ l /\ live now v = true /\ k ∈ addr_string <$> addrs v) /\
  vs' = foldl (fun m e => if negb (live now e.2) then delete e.1 m else m) vs l.
Proof.
  revert out vs. induction l as [|[id v] l IH]; intros out vs Hn E; simpl in *.
  - simplify_eq. split; [done|]. split; [|done]. intros k. split; [by left|].
    intros [|(? & ? & Hin & _)]; [done|by apply elem_of_nil in Hin].
  - destruct (live now v) eqn:El; simpl.
    + destruct (mergeAddrs_spec out (addrs v)) as (Nm & Km & _).
      destruct (IH _ _ Nm E) as (Nd & K & Ev). split; [done|]. split; [|done].
      intros k. rewrite K, Km. split.
      * intros [[|]|(i & w & ? & ? & ?)]; [by left|right; exists id, v; set_solver|].
        right. exists i, w. set_solver.
      * intros [|(i & w & Hin & Hl & Hk)]; [tauto|].
        apply elem_of_cons in Hin as [?|Hin]; [simplify_eq; tauto|right; eauto].
    + destruct (IH _ _ Hn E) as (Nd & K & Ev). split; [done|]. split; [|done].
      intros k. rewrite K. split.
      * intros [|(i & w & ? & ? & ?)]; [by left|right; exists i, w; set_solver].
      * intros [|(i & w & Hin & Hl & Hk)]; [tauto|].
        apply elem_of_cons in Hin as [?|Hin]; [simplify_eq; congruence|right; eauto].
Qed.

(** The advertised addresses are, without repetition, exactly the local ones, the
    circuit addresses whose relay is not known to have lapsed, and the addresses
    vouched for by relays whose vouch is live; lapsed vouches and the circuit
    addresses through them are forgotten, live ones are kept, and asking again at
    the same time gives the same set. *)
Theorem advertised_addrs now m out m' :
  GetAll now m = (out, m') ->
  NoDup (addr_string <$> out) /\
  (forall k, k ∈ addr_string <$> out <-> advertised now m k) /\
  (forall id, relayVouches m' !! id =
     match relayVouches m !! id with
     | Some v => if live now v then Some v else None
     | None => None
     end) /\
  (forall k, advertised now m' k <-> advertised now m k).
Proof.
  unfold GetAll.
  destruct (foldl _ _ _) as [o vs] eqn:E. intros Eq. simplify_eq.
  set (valid := filter (fun a => circuit_valid now m a = true) (relayCircuitAddrs m)) in *.
  destruct (mergeAddrs_spec (localAddrs m) valid) as (Nm & Km & _).
  destruct (vouch_fold _ _ _ _ _ _ Nm E) as (Nd & K & Ev).
  assert (forall id, vs !! id = match relayVouches m !! id with
     | Some v => if live now v then Some v else None | None => None end) as Hvs.
  { intros id. rewrite Ev. fold (sweep (fun v => negb (live now v)) (relayVouches m) (range_map 16 (relayVouches m))).
    rewrite sweep_range_lookup. destruct (relayVouches m !! id) as [v|]; [|done]. by destruct (live now v). }
  assert (forall a, a ∈ valid <-> a ∈ relayCircuitAddrs m /\ circuit_valid now m a = true) as Hva.
  { intros a. unfold valid. rewrite list_elem_of_filter. tauto. }
  split; [done|]. split; [|split; [done|]].
  - intros k. rewrite K, Km. unfold advertised. split.
    + intros [[Hk|Hk]|(i & v & Hin & Hl & Hk)]; [by left| |].
      * apply list_elem_of_fmap in Hk as (a & -> & Ha). apply Hva in Ha as [? ?]. right. left. eauto.
      * right. right. exists i, v. by apply elem_of_range in Hin.
    + intros [Hk|[(a & Ha & Hv & ->)|(i & v & Hi & Hl & Hk)]]; [tauto| |].
      * left. right. apply list_elem_of_fmap. exists a. split; [done|]. by apply Hva.
      * right. exists i, v. split; [by apply elem_of_range|done].
  - assert (forall a, circuit_valid now m a = true ->
      circuit_valid now {| localAddrs := localAddrs m; relayCircuitAddrs := valid; relayVouches := vs |} a = true) as Hc.
    { intros a. unfold circuit_valid. simpl. destruct (extractRelayPeerID a) as [r| |]; [|done..].
      rewrite Hvs. destruct (relayVouches m !! r) as [v|]; [|done]. intros Hl. by rewrite Hl. }
    intros k. unfold advertised. simpl. split.
    + intros [|[(a & Ha & Hv & ->)|(i & v & Hi & Hl & Hk)]]; [by left| |].
      * apply Hva in Ha as [? ?]. right. left. eauto.
      * right. right. rewrite Hvs in Hi. exists i, v.
        destruct (relayVouches m !! i) as [w|]; [|done]. by destruct (live now w); simplify_eq.
    + intros [|[(a & Ha & Hv & ->)|(i & v & Hi & Hl & Hk)]]; [by left| |].
      * right. left. exists a. split; [by apply Hva|]. split; [by apply Hc|done].
      * right. right. exists i, v. by rewrite Hvs, Hi, Hl.
Qed.

End addrs.
End AddrManager.

(** ** Witnesses *)
Section witnesses.
#[local] Instance range_witness : MapRange := map_to_list_range.

Lemma peerdb_latest_witness :
  let l := [PeerDB.OpUpdate "a" ["x"] 9; PeerDB.OpUpdate "b" [] 7; PeerDB.OpUpdate "a" ["y"] 5] in
  PeerDB.SeenAt <$> PeerDB.peers (foldl PeerDB.apply_op (PeerDB.NewPeerDB minute) l) !! "a" = Some 9.
Proof.
  intros l. rewrite (proj1 (PeerDB.peerdb_latest minute l 10 "a")); [reflexivity|].
  repeat constructor.
Defined.

Definition stable_history : list (Z * StablePeers.event) :=
  [(second, StablePeers.EvConn "a" StablePeers.Connected);
   (5 * second, StablePeers.EvLatency "a" (20 * millisecond));
   (7 * second, StablePeers.EvConn "a" StablePeers.NotConnected)].

Lemma stable_table_ok_witness :
  StablePeers.table_ok epoch (epoch + 13 * second)
    (StablePeers.run (fun _ => false) epoch stable_history ∅).
Proof.
  apply (StablePeers.stable_table_ok (fun _ => false) epoch stable_history).
  - reflexivity.
  - repeat (apply Forall_cons_2; [unfold second; simpl; lia|]). apply Forall_nil_2.
  - vm_compute. reflexivity.
Defined.

(** 32 peers, connected one second after the other. *)
Definition full_table : gmap string StablePeers.stableInfo :=
  StablePeers.run (fun _ => false) 0
    (map (fun k => (second, StablePeers.EvConn (String.append "p" (pretty k)) StablePeers.Connected))
       (seq 0 32)) ∅.

Lemma evict_longest_unseen_witness :
  exists x si, full_table !! x = Some si /\
    StablePeers.handlePeerConnectednessChanged (fun _ => false) minute "new" StablePeers.Connected full_table =
      <["new" := {| StablePeers.firstSeen := minute; StablePeers.onlineSince := minute;
                    StablePeers.totalOnline := 0; StablePeers.lastSeen := zero_time;
                    StablePeers.connCount := 1; StablePeers.disconnCount := 0;
                    StablePeers.avgLatency := 0 |}]> (delete x full_table) /\
    forall y sj, full_table !! y = Some sj -> StablePeers.last_known si <= StablePeers.last_known sj.
Proof.
  apply (StablePeers.evict_longest_unseen (fun _ => false) minute "new" full_table).
  - reflexivity.
  - vm_compute. reflexivity.
  - vm_compute. congruence.
Defined.

Definition relay_of (a : string) : res string :=
  if String.eqb a "via-r" then Ok "r" else Fail "not a relay address".

Lemma advertised_addrs_witness :
  let m := AddrManager.SetRelayVouch "r" ["vouched"] 10 (AddrManager.SetRelayCircuit ["via-r"]
             (AddrManager.SetLocal ["here"; "here"] AddrManager.NewAddrManager)) in
  let r := AddrManager.GetAll (fun a => a) relay_of 20 m in
  r.1 = ["here"] /\
  forall k, k ∈ (fun a => a) <$> r.1 <-> AddrManager.advertised (fun a => a) relay_of 20 m k.
Proof.
  intros m r. split; [vm_compute; reflexivity|].
  apply (AddrManager.advertised_addrs (fun a => a) relay_of 20 m r.1 r.2). apply surjective_pairing.
Defined.
End witnesses.
