(* ===== verification/Offline.v ===== *)
(** * The offline detector (src/p2put/offline.go)

    Every 1.5 s the detector looks at the connections of the host and moves between
    offline and online with a confirmation time of three ticks. *)

From Stdlib Require Import Sorting.Sorted.
From S2P Require Import Prelude GoLib.

Inductive OfflineState := StateOffline | StateOnline.

#[global] Instance OfflineState_eq_dec : EqDecision OfflineState.
Proof. solve_decision. Defined.

Definition evaluateTick : Z := 1500 * millisecond.
Definition stickCount : Z := 3.
Definition confirmDur : Z := evaluateTick * stickCount.

Inductive direction := DirUnknown | DirInbound | DirOutbound.

Record OfflineDetector := {
  state : OfflineState;
  lastTransitionTime : Z;
  goodSince : Z;
  badSince : Z
}.

Definition NewOfflineDetector (now : Z) : OfflineDetector :=
  {| state := StateOffline; lastTransitionTime := now;
     goodSince := zero_time; badSince := zero_time |}.

(** One outbound and one inbound connection count at most. *)
Definition active (conns : list direction) : Z :=
  (if existsb (fun d => match d with DirOutbound => true | _ => false end) conns then 1 else 0) +
  (if existsb (fun d => match d with DirInbound => true | _ => false end) conns then 1 else 0).

(** [evaluate]: the detector afterwards and the state [OnChange] is called with. *)
Definition evaluate (now : Z) (conns : list direction) (d : OfflineDetector) :
    OfflineDetector * option OfflineState :=
  let '(good, bad) :=
    if 0 <? active conns
    then (if time_is_zero (goodSince d) then now else goodSince d, zero_time)
    else (zero_time, if time_is_zero (badSince d) then now else badSince d) in
  let target :=
    if negb (time_is_zero good) && (confirmDur <=? time_sub now good) then StateOnline
    else if negb (time_is_zero bad) && (confirmDur <=? time_sub now bad) then StateOffline
    else state d in
  if decide (target = state d)
  then ({| state := state d; lastTransitionTime := lastTransitionTime d;
           goodSince := good; badSince := bad |}, None)
  else ({| state := target; lastTransitionTime := now; goodSince := good; badSince := bad |},
        Some target).

Definition isOnline (d : OfflineDetector) : bool :=
  match state d with StateOnline => true | StateOffline => false end.

(** ** Histories *)

(** An observation: the time of a tick and whether there was a connection. *)
Notation obs := (Z * bool)%type.

Definition conns_of (a : bool) : list direction := if a then [DirInbound] else [].

Definition observe (d : OfflineDetector) (o : obs) : OfflineDetector :=
  (evaluate o.1 (conns_of o.2) d).1.

(** [evaluate] depends on the connections only through whether there is one with a
    direction. *)
Lemma evaluate_conns now conns d :
  evaluate now conns d = evaluate now (conns_of (0 <? active conns)) d.
Proof. unfold evaluate. by destruct (0 <? active conns). Qed.

Definition target_of (a : bool) : OfflineState := if a then StateOnline else StateOffline.

(** The last observations all agree on [a] and span the confirmation time. *)
Definition confirmed (a : bool) (l : list obs) : Prop :=
  exists l1 t l2 t', l = l1 ++ (t, a) :: l2 /\ Forall (fun o => o.2 = a) l2 /\
    last ((t, a) :: l2) = Some (t', a) /\ confirmDur <= t' - t.

(** The clock does not run backwards, and the history spans less than 2^62 ns (146
    years), so that differences of times are exact. *)
Definition clock_ok (l : list obs) : Prop :=
  StronglySorted Z.le l.*1 /\ exists b, 0 < b /\ Forall (fun t => b <= t < b + 2 ^ 62) l.*1.

(** The start of the current run of equal observations. *)
Definition run_step (c : option (bool * Z)) (o : obs) : option (bool * Z) :=
  match c with
  | Some (a, g) => if Bool.eqb a o.2 then c else Some (o.2, o.1)
  | None => Some (o.2, o.1)
  end.
Definition run_start (l : list obs) : option (bool * Z) := foldl run_step None l.

(** The detector's two times are the start of the current run, on its side. *)
Definition times_ok (c : option (bool * Z)) (d : OfflineDetector) : Prop :=
  match c with
  | None => goodSince d = zero_time /\ badSince d = zero_time
  | Some (true, g) => goodSince d = g /\ badSince d = zero_time /\ 0 < g
  | Some (false, g) => badSince d = g /\ goodSince d = zero_time /\ 0 < g
  end.

Lemma observe_times c d o :
  0 < o.1 -> times_ok c d -> times_ok (run_step c o) (observe d o).
Proof.
  destruct o as [t a]. unfold observe, evaluate, time_is_zero, zero_time. simpl. intros Ht Hc.
  destruct a; simpl.
  - destruct (decide _); simpl;
      (destruct c as [[[] g]|]; simpl in *; unfold zero_time in *;
       [destruct Hc as (E1 & E2 & Hg)|destruct Hc as (E1 & E2 & Hg)|destruct Hc as (E1 & E2)];
       rewrite ?E1, ?E2; split_and!; try done; by destruct (Z.eqb_spec g 0); [lia|]).
  - destruct (decide _); simpl;
      (destruct c as [[[] g]|]; simpl in *; unfold zero_time in *;
       [destruct Hc as (E1 & E2 & Hg)|destruct Hc as (E1 & E2 & Hg)|destruct Hc as (E1 & E2)];
       rewrite ?E1, ?E2; split_and!; try done; by destruct (Z.eqb_spec g 0); [lia|]).
Qed.

(** The new state in terms of the run that includes the new observation. *)
Lemma observe_state c d t a g :
  0 < g <= t -> t - g < 2 ^ 62 -> times_ok c d -> run_step c (t, a) = Some (a, g) ->
  state (observe d (t, a)) = if confirmDur <=? t - g then target_of a else state d.
Proof.
  intros Hg Ht Hc Hr. unfold observe, evaluate, time_is_zero, zero_time. simpl.
  assert (forall x, x = t \/ x = g -> time_sub t x = t - x) as Hsub.
  { intros x Hx. apply time_sub_small. unfold min_int64, max_int64. lia. }
  destruct a; simpl.
  - assert ((if goodSince d =? 0 then t else goodSince d) = g) as ->.
    { destruct c as [[[] g']|]; simpl in *; unfold zero_time in *; simplify_eq.
      - destruct Hc as (-> & _ & ?). destruct (Z.eqb_spec g 0); lia.
      - destruct Hc as (_ & -> & ?). done.
      - by destruct Hc as (-> & _). }
    destruct (Z.eqb_spec g 0); [lia|]. simpl. rewrite Hsub by tauto.
    destruct (Z.leb_spec confirmDur (t - g)); simpl; by destruct (decide _).
  - assert ((if badSince d =? 0 then t else badSince d) = g) as ->.
    { destruct c as [[[] g']|]; simpl in *; unfold zero_time in *; simplify_eq.
      - destruct Hc as (_ & -> & ?). done.
      - destruct Hc as (-> & _ & ?). destruct (Z.eqb_spec g 0); lia.
      - by destruct Hc as (_ & ->). }
    destruct (Z.eqb_spec g 0); [lia|]. simpl. rewrite Hsub by tauto.
    destruct (Z.leb_spec confirmDur (t - g)); simpl; by destruct (decide _).
Qed.

Lemma foldl_times l c d :
  Forall (fun t => 0 < t) l.*1 -> times_ok c d ->
  times_ok (foldl run_step c l) (foldl observe d l).
Proof.
  revert c d. induction l as [|o l IH]; intros c d Hl Hc; [done|]. simpl.
  rewrite fmap_cons in Hl. apply Forall_cons_1 in Hl as [Ho Hl].
  apply IH; [done|]. by apply observe_times.
Qed.

(** [run_start] is where the maximal run of equal observations at the end starts. *)
Lemma run_start_spec l a g :
  run_start l = Some (a, g) ->
  exists l1 l2, l = l1 ++ (g, a) :: l2 /\ Forall (fun o => o.2 = a) l2 /\
    (l1 = [] \/ exists t, last l1 = Some (t, negb a)).
Proof.
  unfold run_start. induction l as [|[t b] l IH] using rev_ind; [done|].
  rewrite foldl_app. simpl.
  destruct (foldl run_step None l) as [[b' g']|] eqn:E; simpl.
  - destruct (Bool.eqb b' b) eqn:Eb; intros ?; simplify_eq.
    + apply eqb_prop in Eb as ->. destruct (IH eq_refl) as (l1 & l2 & -> & Hl2 & Hl1).
      exists l1, (l2 ++ [(t, b)]). rewrite <- app_assoc. split; [done|]. split; [|done].
      apply Forall_app. by repeat constructor.
    + exists l, []. split; [done|]. split; [constructor|]. right.
      assert (b' = negb a) as Eb' by (by destruct b', a). subst b'.
      clear IH. destruct l as [|[t' c] l' _] using rev_ind; [done|].
      exists t'. rewrite last_snoc. rewrite foldl_app in E. simpl in E. f_equal. f_equal.
      destruct (foldl run_step None l') as [[b'' g'']|]; simpl in E; [|by simplify_eq].
      destruct (Bool.eqb b'' c) eqn:Ec; simplify_eq; [|done].
      by apply eqb_prop in Ec.
  - intros ?. simplify_eq. exists l, []. split; [done|]. split; [constructor|].
    destruct l as [|[t' c] l' _] using rev_ind; [by left|].
    rewrite foldl_app in E. simpl in E.
    destruct (foldl run_step None l') as [[b'' g'']|]; simpl in E; [|done].
    by destruct (Bool.eqb b'' c).
Qed.

Lemma sorted_app_le (l1 l2 : list Z) x y :
  StronglySorted Z.le (l1 ++ l2) -> x ∈ l1 -> y ∈ l2 -> x <= y.
Proof.
  induction l1 as [|z l1 IH]; simpl; intros Hs Hx Hy; [by apply elem_of_nil in Hx|].
  inversion Hs as [|? ? Hs' Hall]; subst. apply elem_of_cons in Hx as [->|Hx]; [|by apply IH].
  rewrite Forall_forall in Hall. apply Hall. set_solver.
Qed.

(** A run of equal observations at the end starts no earlier than the maximal one. *)
Lemma run_start_maximal l1 t a l2 g :
  StronglySorted Z.le (l1 ++ (t, a) :: l2).*1 -> Forall (fun o => o.2 = a) l2 ->
  run_start (l1 ++ (t, a) :: l2) = Some (a, g) -> g <= t.
Proof.
  intros Hs Hl2 Hr. unfold run_start in Hr. rewrite foldl_app in Hr. simpl in Hr.
  assert (forall c, foldl run_step (Some (a, c)) l2 = Some (a, c)) as Hk.
  { clear -Hl2. induction Hl2 as [|[u b] l2 Hb Hl2 IH]; intros c; simpl in *; [done|]. subst b.
    rewrite Bool.eqb_reflx. apply IH. }
  destruct (foldl run_step None l1) as [[b g']|] eqn:E; simpl in Hr.
  - destruct (Bool.eqb b a) eqn:Eb.
    + apply eqb_prop in Eb as ->. rewrite Hk in Hr. simplify_eq.
      apply run_start_spec in E as (m1 & m2 & -> & _ & _).
      rewrite fmap_app in Hs. eapply sorted_app_le; [exact Hs| |].
      * rewrite fmap_app. apply elem_of_app. right. apply list_elem_of_here.
      * apply list_elem_of_here.
    + rewrite Hk in Hr. simplify_eq. lia.
  - rewrite Hk in Hr. simplify_eq. lia.
Qed.

Lemma run_start_last l t a : exists g, run_start (l ++ [(t, a)]) = Some (a, g).
Proof.
  unfold run_start. rewrite foldl_app. simpl.
  destruct (foldl run_step None l) as [[b g]|]; simpl; [|by eexists].
  destruct (Bool.eqb b a) eqn:E; [apply eqb_prop in E as ->|]; by eexists.
Qed.

Lemma confirmed_iff l t a g :
  clock_ok (l ++ [(t, a)]) -> run_start (l ++ [(t, a)]) = Some (a, g) ->
  (confirmed a (l ++ [(t, a)]) <-> confirmDur <= t - g).
Proof.
  intros [Hs _] Hr. split.
  - intros (l1 & u & l2 & u' & E & Hl2 & Hlast & Hd).
    assert (u' = t) as ->.
    { assert (last (l ++ [(t, a)]) = Some (t, a)) as E1 by apply last_snoc.
      rewrite E, last_app, Hlast in E1. by simplify_eq. }
    rewrite E in Hs, Hr. pose proof (run_start_maximal l1 u a l2 g Hs Hl2 Hr). lia.
  - intros Hd. destruct (run_start_spec _ _ _ Hr) as (l1 & l2 & E & Hl2 & _).
    exists l1, g, l2, t. split; [done|]. split; [done|]. split; [|done].
    assert (last (l ++ [(t, a)]) = Some (t, a)) as E1 by apply last_snoc.
    rewrite E, last_app in E1.
    destruct (last ((g, a) :: l2)) eqn:El; [done|]. by apply last_None in El.
Qed.

(** The detector debounces: after every tick its state is the one the ticks agree
    on if the last ticks agree for the confirmation time of 4.5 s, and otherwise
    what it was before; [OnChange] is called exactly when the state changes, with
    the new state. *)
Theorem offline_debounce t0 l t a :
  clock_ok (l ++ [(t, a)]) ->
  let before := foldl observe (NewOfflineDetector t0) l in
  let after := evaluate t (conns_of a) before in
  (confirmed a (l ++ [(t, a)]) -> state after.1 = target_of a) /\
  (~ confirmed a (l ++ [(t, a)]) -> state after.1 = state before) /\
  (after.2 = if decide (state after.1 = state before) then None else Some (state after.1)).
Proof.
  intros Hc before after. pose proof Hc as [Hs (b & Hb & Hp)].
  rewrite fmap_app in Hp. apply Forall_app in Hp as [Hpl Hpt].
  apply Forall_cons_1 in Hpt as [Hpt _]. simpl in Hpt.
  destruct (run_start_last l t a) as [g Hg].
  assert (times_ok (run_start l) before) as Ht.
  { apply foldl_times; [|done]. eapply Forall_impl; [exact Hpl|]. simpl. lia. }
  assert (b <= g <= t) as Hgt.
  { destruct (run_start_spec _ _ _ Hg) as (l1 & l2 & E & _).
    assert (g ∈ (l ++ [(t, a)]).*1) as Hin.
    { rewrite E, fmap_app. apply elem_of_app. right. apply list_elem_of_here. }
    rewrite fmap_app in Hin. apply elem_of_app in Hin as [Hin|Hin].
    - rewrite Forall_forall in Hpl. specialize (Hpl g Hin). split; [lia|].
      rewrite fmap_app in Hs. eapply sorted_app_le; [exact Hs|exact Hin|]. apply list_elem_of_here.
    - change ([(t, a)].*1) with [t] in Hin. apply list_elem_of_singleton in Hin as ->. lia. }
  assert (state after.1 = if confirmDur <=? t - g then target_of a else state before) as Est.
  { unfold run_start in Hg. rewrite foldl_app in Hg.
    apply (observe_state (run_start l) before t a g); [lia|lia|done|done]. }
  split; [|split].
  - intros H. pose proof (proj1 (confirmed_iff l t a g Hc Hg) H) as Hd. rewrite Est.
    destruct (Z.leb_spec confirmDur (t - g)); [done|lia].
  - intros H. rewrite Est. destruct (Z.leb_spec confirmDur (t - g)); [|done].
    destruct H. by apply (proj2 (confirmed_iff l t a g Hc Hg)).
  - subst after. clear. unfold evaluate. destruct (0 <? _); simpl.
    all: destruct (decide _); simpl; [by rewrite decide_True|by rewrite decide_False].
Qed.

Definition example_ticks : list obs :=
  [(epoch, true); (epoch + evaluateTick, true); (epoch + 2 * evaluateTick, true)].

Lemma offline_debounce_witness :
  state (evaluate (epoch + 3 * evaluateTick) (conns_of true)
    (foldl observe (NewOfflineDetector 0) example_ticks)).1 = StateOnline.
Proof.
  apply (offline_debounce 0 example_ticks (epoch + 3 * evaluateTick) true).
  - split.
    + vm_compute. repeat constructor; congruence.
    + exists epoch. split; [reflexivity|]. apply (bool_decide_unpack _). vm_compute. exact I.
  - exists [], epoch, (tail example_ticks ++ [(epoch + 3 * evaluateTick, true)]),
      (epoch + 3 * evaluateTick).
    split; [reflexivity|]. split; [repeat constructor|]. split; [reflexivity|].
    vm_compute. congruence.
Defined.
