(* ===== verification/GoPath.v ===== *)
(** * Go's [path/filepath] on Unix, as far as the program uses it

    [Base], [Clean] and [Join] of two elements.  A path is its elements between
    slashes; cleaning runs through them with the stack of those kept. *)

From Stdlib Require Import Ascii.
From S2P Require Import Prelude GoNet.

Definition slash : Ascii.ascii := "/"%char.

(** [strings.Split(s, "/")]. *)
Fixpoint elems (s : string) : list string :=
  match s with
  | EmptyString => [""]
  | String ch r =>
      if Ascii.eqb slash ch then "" :: elems r
      else match elems r with e :: l => String ch e :: l | [] => [String ch ""] end
  end.

(** [filepath.Base]: the last element, trailing slashes apart. *)
Definition Base (p : string) : string :=
  if String.eqb p "" then "."
  else match last (filter (fun e => e <> "") (elems p)) with Some e => e | None => "/" end.

(** The elements [filepath.Clean] keeps, on top of those in [st] (latest first). *)
Fixpoint clean (rooted : bool) (st l : list string) : list string :=
  match l with
  | [] => rev st
  | e :: l =>
      if String.eqb e "" || String.eqb e "." then clean rooted st l
      else if String.eqb e ".." then
        match st with
        | t :: st' => if String.eqb t ".." then clean rooted (".." :: st) l else clean rooted st' l
        | [] => if rooted then clean rooted [] l else clean rooted [".."] l
        end
      else clean rooted (e :: st) l
  end.

Fixpoint join_slash (l : list string) : string :=
  match l with
  | [] => ""
  | [e] => e
  | e :: l => e +:+ "/" +:+ join_slash l
  end.

Definition show_path (rooted : bool) (l : list string) : string :=
  let r := (if rooted then "/" else "") +:+ join_slash l in
  if String.eqb r "" then "." else r.

Definition path_elems (p : string) : list string := clean (has_prefix "/" p) [] (elems p).
Definition Clean (p : string) : string := show_path (has_prefix "/" p) (path_elems p).

(** [filepath.Join(d, b)]. *)
Definition Join (d b : string) : string :=
  if String.eqb d "" then if String.eqb b "" then "" else Clean b
  else Clean (d +:+ "/" +:+ b).

(** ** Splitting *)
Lemma string_app_assoc (a b d : string) : (a +:+ b) +:+ d = a +:+ b +:+ d.
Proof.
  induction a as [|x a IH]; [done|].
  change (String x ((a +:+ b) +:+ d) = String x (a +:+ b +:+ d)). by rewrite IH.
Qed.

Lemma elems_cons s : exists e l, elems s = e :: l.
Proof.
  induction s as [|ch s (e & l & IH)]; cbn [elems]; [by eexists _, _|].
  destruct (Ascii.eqb slash ch); [by eexists _, _|]. rewrite IH. by eexists _, _.
Qed.

Lemma elems_app_slash s t : elems (s +:+ String slash t) = elems s ++ elems t.
Proof.
  induction s as [|ch s IH]; [done|].
  change (String ch s +:+ String slash t) with (String ch (s +:+ String slash t)).
  cbn [elems]. rewrite IH. destruct (Ascii.eqb slash ch); [done|].
  by destruct (elems_cons s) as (e & l & ->).
Qed.

Lemma elems_no_slash s : has_char slash s = false -> elems s = [s].
Proof.
  induction s as [|ch s IH]; [done|]. cbn [has_char elems].
  intros [E H]%orb_false_iff. by rewrite E, IH.
Qed.

Lemma elems_slash_free s : Forall (fun e => has_char slash e = false) (elems s).
Proof.
  induction s as [|ch s IH]; [by repeat constructor|]. cbn [elems].
  destruct (Ascii.eqb slash ch) eqn:E; [by constructor|].
  destruct IH as [|e l He Hl]; [|constructor; [|done]]; cbn [has_char]; rewrite ?E, ?He;
    repeat constructor; cbn [has_char]; by rewrite E.
Qed.

(** [Base] gives one element, and is idempotent. *)
Lemma Base_one p : Base p = "/" \/ (Base p <> "" /\ has_char slash (Base p) = false).
Proof.
  unfold Base. destruct (String.eqb_spec p "") as [->|Hp]; [by right|].
  destruct (last _) as [e|] eqn:E; [|by left]. right.
  apply last_Some_elem_of in E. apply list_elem_of_filter in E as [He Hin]. split; [done|].
  pose proof (elems_slash_free p) as H. rewrite Forall_forall in H. by apply H.
Qed.

Lemma Base_idem p : Base (Base p) = Base p.
Proof.
  destruct (Base_one p) as [->|[Hne Hs]]; [done|]. unfold Base at 1.
  apply String.eqb_neq in Hne as E. rewrite E, elems_no_slash by done.
  rewrite filter_cons. case_decide; [|done]. done.
Qed.

(** ** Cleaning *)
Lemma clean_app rooted st l k :
  clean rooted st (l ++ k) = clean rooted (rev (clean rooted st l)) k.
Proof.
  revert st. induction l as [|e l IH]; intros st; cbn [clean app].
  - by rewrite rev_involutive.
  - destruct (_ || _); [apply IH|]. destruct (String.eqb e ".."); [|apply IH].
    destruct st as [|t st]; [destruct rooted; apply IH|]. destruct (String.eqb t ".."); apply IH.
Qed.

(** An ordinary file name. *)
Definition plain_name (b : string) : Prop :=
  has_char slash b = false /\ b <> "" /\ b <> "." /\ b <> "..".

#[global] Instance plain_name_dec b : Decision (plain_name b).
Proof. unfold plain_name. apply _. Defined.

Lemma has_prefix_slash_app d b : d <> "" -> has_prefix "/" (d +:+ b) = has_prefix "/" d.
Proof. by destruct d. Qed.

Lemma Join_elems d b :
  d <> "" ->
  path_elems (d +:+ "/" +:+ b) = clean (has_prefix "/" d) (rev (path_elems d)) (elems b).
Proof.
  intros Hd. unfold path_elems. rewrite has_prefix_slash_app by done.
  change ("/" +:+ b) with (String slash b). by rewrite elems_app_slash, clean_app.
Qed.

(** A plain name is put in the directory. *)
Lemma Join_plain d b :
  d <> "" -> plain_name b -> Join d b = show_path (has_prefix "/" d) (path_elems d ++ [b]).
Proof.
  intros Hd (Hs & H1 & H2 & H3). unfold Join. apply String.eqb_neq in Hd as E. rewrite E.
  unfold Clean. rewrite has_prefix_slash_app, Join_elems, elems_no_slash by done. cbn [clean].
  apply String.eqb_neq in H1 as ->, H2 as ->, H3 as ->. cbn [orb]. simpl rev.
  by rewrite rev_involutive.
Qed.

Lemma join_slash_snoc l b s : join_slash (l ++ [b]) +:+ s = join_slash (l ++ [b +:+ s]).
Proof.
  induction l as [|e l IH]; [done|].
  destruct l as [|e' l]; cbn [app join_slash] in *; rewrite !string_app_assoc; [done|].
  by rewrite <- IH.
Qed.

Lemma string_app_nonempty a b : b <> "" -> a +:+ b <> "".
Proof. by destruct a. Qed.

Lemma join_slash_nonempty l b : b <> "" -> join_slash (l ++ [b]) <> "".
Proof.
  intros Hb. induction l as [|e l IH]; [done|]. destruct l as [|e' l]; cbn [app join_slash].
  - by apply string_app_nonempty.
  - by apply string_app_nonempty.
Qed.

(** A suffix of a path goes to its last element. *)
Lemma show_path_suffix rooted l b s :
  b <> "" -> show_path rooted (l ++ [b]) +:+ s = show_path rooted (l ++ [b +:+ s]).
Proof.
  intros Hb. unfold show_path.
  assert (b +:+ s <> "") as Hbs by (by destruct b).
  assert (forall b', b' <> "" -> String.eqb ((if rooted then "/" else "") +:+ join_slash (l ++ [b'])) "" = false) as H.
  { intros b' Hb'. apply String.eqb_neq, string_app_nonempty. by apply join_slash_nonempty. }
  rewrite !H by done. by rewrite string_app_assoc, join_slash_snoc.
Qed.

Example base_1 : map Base [""; "a/b.txt"; "a/b/"; "///"; "../.."; "x"] = ["."; "b.txt"; "b"; "/"; ".."; "x"].
Proof. reflexivity. Qed.
Example clean_1 : map Clean ["a//b/./c/.."; "/../a"; "../../x"; "a/.."; "/"] = ["a/b"; "/a"; "../../x"; "."; "/"].
Proof. reflexivity. Qed.
