(* ===== verification/FileFrame.v ===== *)
(** * File transfer: frames, data frames, the chunk bitmap, compression detection

    The framing and bitmap of src/p2put/relayfile.go and the data-frame packing and
    compression heuristics of src/p2put/filecomp.go.  The zstd library and
    [math.Log2] are parameters. *)

From Stdlib Require Import Ascii.
From S2P Require Import Prelude GoLib GoNet.

Definition frameTypeInit : Z := 0.
Definition frameTypeAccept : Z := 1.
Definition frameTypeReject : Z := 2.
Definition frameTypeData : Z := 3.
Definition frameTypeAck : Z := 4.
Definition frameTypeFin : Z := 5.
Definition frameTypeDone : Z := 6.
Definition frameTypeError : Z := 7.
Definition frameTypeCancel : Z := 8.

Definition chunkSize : Z := 65536.
Definition ackBatch : Z := 8.

(** ** Frames *)

(** The bytes [frameWrite] writes. *)
Definition frameWrite (typ : Z) (payload : bytes) : bytes :=
  be_bytes 4 (wrapu 32 (zlen payload)) ++ [typ] ++ payload.

(** [io.ReadFull] of [n] bytes: what is read and what remains. *)
Definition readFull (n : nat) (r : bytes) : res (bytes * bytes) :=
  if (length r <? n)%nat then Fail "unexpected EOF" else Ok (take n r, drop n r).

Definition with_prefix {A} (msg : string) (r : res A) : res A :=
  match r with Fail e => Fail (msg +:+ e) | _ => r end.

Definition frameRead (r : bytes) : res (Z * bytes * bytes) :=
  let! (lenBytes, r) := with_prefix "read frame len: " (readFull 4 r) in
  let plen := be_val lenBytes in
  let! (typBuf, r) := with_prefix "read frame type: " (readFull 1 r) in
  let! (payload, r) := with_prefix "read frame payload: " (readFull (Z.to_nat plen) r) in
  Ok (at_ typBuf 0, payload, r).

Lemma readFull_app l r : readFull (length l) (l ++ r) = Ok (l, r).
Proof.
  unfold readFull. rewrite length_app.
  destruct (Nat.ltb_spec (length l + length r) (length l)); [lia|].
  by rewrite take_app_length, drop_app_length.
Qed.

Lemma readFull_app_eq n l r : n = length l -> readFull n (l ++ r) = Ok (l, r).
Proof. intros ->. apply readFull_app. Qed.

Lemma frameRead_Write typ payload rest :
  zlen payload < 2 ^ 32 ->
  frameRead (frameWrite typ payload ++ rest) = Ok (typ, payload, rest).
Proof.
  intros Hl. pose proof (zlen_nonneg payload). unfold frameRead, frameWrite.
  rewrite <- !app_assoc, wrapu_small by lia.
  rewrite (readFull_app_eq 4) by (by rewrite length_be_bytes). cbn [with_prefix rbind].
  rewrite (readFull_app_eq 1 [typ]) by done. cbn [with_prefix rbind].
  rewrite be_val_be_bytes_small by (change (256 ^ Z.of_nat 4) with (2 ^ 32); lia).
  rewrite readFull_app_eq by (unfold zlen; lia). done.
Qed.

Lemma readFull_short n r : (length r < n)%nat -> readFull n r = Fail "unexpected EOF".
Proof. intros H. unfold readFull. destruct (Nat.ltb_spec (length r) n); [done|lia]. Qed.

(** A proper prefix of a frame is not a frame. *)
Lemma frameRead_prefix typ payload k :
  zlen payload < 2 ^ 32 -> (k < length (frameWrite typ payload))%nat ->
  exists e, frameRead (take k (frameWrite typ payload)) = Fail e.
Proof.
  intros Hl Hk. pose proof (zlen_nonneg payload). unfold frameWrite in *.
  set (h := be_bytes 4 (wrapu 32 (zlen payload))) in *.
  assert (length h = 4%nat) as Lh by apply length_be_bytes.
  rewrite !length_app, Lh in Hk. simpl in Hk. unfold frameRead.
  destruct (Nat.lt_ge_cases k 4) as [H4|H4].
  { rewrite readFull_short by (rewrite length_take; lia). by eexists. }
  rewrite take_app_ge, Lh by lia. rewrite (readFull_app_eq 4) by done. cbn [with_prefix rbind].
  destruct (Nat.lt_ge_cases k 5) as [H5|H5].
  { replace (k - 4)%nat with 0%nat by lia. by eexists. }
  replace (k - 4)%nat with (S (k - 5)) by lia. simpl take.
  change (typ :: take (k - 5) payload) with ([typ] ++ take (k - 5) payload).
  rewrite (readFull_app_eq 1 [typ]) by done. cbn [with_prefix rbind].
  assert (be_val h = zlen payload) as ->.
  { unfold h. rewrite wrapu_small by lia.
    apply be_val_be_bytes_small. change (256 ^ Z.of_nat 4) with (2 ^ 32). lia. }
  rewrite readFull_short by (rewrite length_take; unfold zlen; lia). by eexists.
Qed.

(** Reading frames until the stream ends: all frames, or the error. *)
Fixpoint readAll (fuel : nat) (r : bytes) : res (list (Z * bytes)) :=
  match fuel with
  | O => Fail "fuel"
  | S n =>
      match r with
      | [] => Ok []
      | _ => let! (typ, payload, r) := frameRead r in
             let! l := readAll n r in Ok ((typ, payload) :: l)
      end
  end.

Definition writeAll (l : list (Z * bytes)) : bytes :=
  concat (map (fun f => frameWrite f.1 f.2) l).

Lemma frameWrite_cons t p rest : exists b r, frameWrite t p ++ rest = b :: r.
Proof. unfold frameWrite. cbn [be_bytes app]. by eexists _, _. Qed.

(** A stream of frames is read back as it was written, frame by frame, and a
    stream cut anywhere inside a frame is an error, not a shorter frame. *)
Theorem frames_roundtrip l typ payload k :
  Forall (fun f => zlen f.2 < 2 ^ 32) l -> zlen payload < 2 ^ 32 ->
  readAll (S (length l)) (writeAll l) = Ok l /\
  ((0 < k < length (frameWrite typ payload))%nat ->
   exists e, readAll (S (S (length l))) (writeAll l ++ take k (frameWrite typ payload)) = Fail e).
Proof.
  intros Hl Hp.
  assert (forall n rest, readAll (length l + n) (writeAll l ++ rest) =
    let! l' := readAll n rest in Ok (l ++ l')) as Hr.
  { intros n rest. induction Hl as [|[t p] l Ht Hl IH]; [simpl; by destruct (readAll n rest)|].
    cbn [length Nat.add readAll writeAll map concat fst snd].
    fold (writeAll l). rewrite <- app_assoc.
    destruct (frameWrite_cons t p (writeAll l ++ rest)) as (b & r & E).
    rewrite E at 1. rewrite frameRead_Write by done. cbn [rbind].
    rewrite IH. by destruct (readAll n rest). }
  split.
  - specialize (Hr 1%nat []). rewrite app_nil_r in Hr. rewrite Nat.add_1_r in Hr. rewrite Hr.
    simpl. by rewrite app_nil_r.
  - intros Hk. specialize (Hr 2%nat (take k (frameWrite typ payload))).
    rewrite (Nat.add_comm _ 2) in Hr. simpl Nat.add in Hr. rewrite Hr.
    destruct (frameRead_prefix typ payload k) as [e E]; [done|lia|].
    cbn [readAll]. destruct (take k _) as [|b r] eqn:Et.
    { exfalso. apply (f_equal length) in Et. rewrite length_take in Et. simpl in Et. lia. }
    rewrite E. by eexists.
Qed.

(** ** The bitmap of received chunks

    64-bit words; a negative sequence number takes Go's truncated division, and an
    index below zero panics. *)
Definition bitmapHas (bitmap : list Z) (seq : Z) : res bool :=
  let idx := Z.quot seq 64 in
  if Z.of_nat (length bitmap) <=? idx then Ok false
  else if idx <? 0 then Panic
  else
    (* uint(seq % 64) of a negative remainder is at least 2^63: the shift gives 0 *)
    let bit := if Z.rem seq 64 <? 0 then 0 else Z.shiftl 1 (Z.rem seq 64) in
    Ok (negb (Z.land (nth (Z.to_nat idx) bitmap 0) bit =? 0)).

Definition bitmapSet (bitmap : list Z) (seq : Z) : res (list Z) :=
  let idx := Z.quot seq 64 in
  if idx <? Z.of_nat (length bitmap) then
    if idx <? 0 then Panic
    else
      let bit := if Z.rem seq 64 <? 0 then 0 else Z.shiftl 1 (Z.rem seq 64) in
      Ok (<[Z.to_nat idx := Z.lor (nth (Z.to_nat idx) bitmap 0) bit]> bitmap)
  else Ok bitmap.

(** [for seq := 0; seq < limit; seq++ { if !bitmapHas... return seq }; return limit]. *)
Fixpoint maxContinuous (n : nat) (seq : Z) (bitmap : list Z) : Z :=
  match n with
  | O => seq
  | S m => match bitmapHas bitmap seq with
           | Ok true => maxContinuous m (seq + 1) bitmap
           | _ => seq
           end
  end.

Definition bitmapMaxContinuous (bitmap : list Z) (limit : Z) : Z :=
  if limit <=? 0 then limit else maxContinuous (Z.to_nat limit) 0 bitmap.

(** [make([]uint64, (total+63)/64)] for [total > 0], nil otherwise. *)
Definition newBitmap (total : Z) : list Z :=
  if 0 <? total then replicate (Z.to_nat (Z.quot (total + 63) 64)) 0 else [].

(** Membership. *)
Definition in_bitmap (bitmap : list Z) (seq : Z) : bool :=
  Z.testbit (nth (Z.to_nat (seq / 64)) bitmap 0) (seq mod 64).

Lemma land_bit x i : 0 <= i -> negb (Z.land x (Z.shiftl 1 i) =? 0) = Z.testbit x i.
Proof.
  intros Hi. destruct (Z.testbit x i) eqn:E.
  - apply negb_true_iff, Z.eqb_neq. intros H.
    assert (Z.testbit (Z.land x (Z.shiftl 1 i)) i = true) as Hb.
    { rewrite Z.land_spec, E, Z.shiftl_spec, Z.sub_diag by lia. done. }
    by rewrite H, Z.bits_0 in Hb.
  - apply negb_false_iff, Z.eqb_eq. apply Z.bits_inj'. intros n Hn.
    rewrite Z.land_spec, Z.bits_0, Z.shiftl_spec by lia.
    destruct (Z.eq_dec n i) as [->|Hne]; [by rewrite E|].
    destruct (Z.lt_ge_cases (n - i) 0) as [Hlt|Hge].
    + by rewrite (Z.testbit_neg_r 1), andb_false_r.
    + change 1 with (2 ^ 0). rewrite Z.pow2_bits_false by lia. by rewrite andb_false_r.
Qed.

Lemma bitmapHas_nonneg b seq : 0 <= seq -> bitmapHas b seq = Ok (in_bitmap b seq).
Proof.
  intros Hs. unfold bitmapHas, in_bitmap.
  rewrite Z.quot_div_nonneg, Z.rem_mod_nonneg by lia.
  assert (0 <= seq / 64) by (apply Z.div_pos; lia).
  pose proof (Z.mod_pos_bound seq 64 ltac:(lia)).
  destruct (Z.leb_spec (Z.of_nat (length b)) (seq / 64)) as [Hle|Hlt].
  - by rewrite nth_overflow, Z.bits_0 by lia.
  - destruct (Z.ltb_spec (seq / 64) 0); [lia|].
    destruct (Z.ltb_spec (seq mod 64) 0); [lia|]. by rewrite land_bit by lia.
Qed.

Lemma bitmapSet_nonneg b seq :
  0 <= seq < 64 * Z.of_nat (length b) ->
  exists b', bitmapSet b seq = Ok b' /\ length b' = length b /\
    forall s, 0 <= s -> in_bitmap b' s = in_bitmap b s || (s =? seq).
Proof.
  intros Hs. unfold bitmapSet. rewrite Z.quot_div_nonneg, Z.rem_mod_nonneg by lia.
  assert (0 <= seq / 64) by (apply Z.div_pos; lia).
  assert (seq / 64 < Z.of_nat (length b)) by (apply Z.div_lt_upper_bound; lia).
  pose proof (Z.mod_pos_bound seq 64 ltac:(lia)).
  destruct (Z.ltb_spec (seq / 64) (Z.of_nat (length b))); [|lia].
  destruct (Z.ltb_spec (seq / 64) 0); [lia|]. destruct (Z.ltb_spec (seq mod 64) 0); [lia|].
  eexists. split; [reflexivity|]. split; [by rewrite length_insert|].
  intros s Hs0. unfold in_bitmap. pose proof (Z.mod_pos_bound s 64 ltac:(lia)).
  assert (0 <= s / 64) by (apply Z.div_pos; lia).
  rewrite !nth_lookup. destruct (decide (s / 64 = seq / 64)) as [E|E].
  - rewrite E. rewrite list_lookup_insert_eq by lia. cbn [from_option id].
    rewrite Z.lor_spec, Z.shiftl_spec by lia. f_equal.
    destruct (Z.eqb_spec s seq) as [->|Hne]; [by rewrite Z.sub_diag|].
    assert (s mod 64 <> seq mod 64).
    { intros Em. apply Hne. rewrite (Z_div_mod_eq_full s 64), (Z_div_mod_eq_full seq 64). lia. }
    destruct (Z.lt_ge_cases (s mod 64 - seq mod 64) 0).
    + by apply Z.testbit_neg_r.
    + change 1 with (2 ^ 0). apply Z.pow2_bits_false. lia.
  - rewrite list_lookup_insert_ne by lia.
    destruct (Z.eqb_spec s seq) as [->|]; [done|]. by rewrite orb_false_r.
Qed.

Lemma maxContinuous_spec n s b :
  0 <= s ->
  s <= maxContinuous n s b <= s + Z.of_nat n /\
  (forall x, s <= x < maxContinuous n s b -> in_bitmap b x = true) /\
  (maxContinuous n s b < s + Z.of_nat n -> in_bitmap b (maxContinuous n s b) = false).
Proof.
  revert s. induction n as [|n IH]; intros s Hs; cbn [maxContinuous].
  - split; [lia|]. split; [intros; lia|lia].
  - rewrite bitmapHas_nonneg by done. destruct (in_bitmap b s) eqn:E.
    + destruct (IH (s + 1)) as (H1 & H2 & H3); [lia|]. split; [lia|]. split.
      * intros x Hx. destruct (Z.eq_dec x s) as [->|]; [done|]. apply H2. lia.
      * intros H. apply H3. lia.
    + split; [lia|]. split; [intros; lia|done].
Qed.

Lemma newBitmap_length total : 0 < total -> total <= 64 * Z.of_nat (length (newBitmap total)).
Proof.
  intros Ht. unfold newBitmap. destruct (Z.ltb_spec 0 total); [|lia].
  rewrite length_replicate, Z.quot_div_nonneg by lia.
  pose proof (Z_div_mod_eq_full (total + 63) 64). pose proof (Z.mod_pos_bound (total + 63) 64 ltac:(lia)).
  assert (0 <= (total + 63) / 64) by (apply Z.div_pos; lia). lia.
Qed.

Lemma newBitmap_empty total s : 0 <= s -> in_bitmap (newBitmap total) s = false.
Proof.
  intros Hs. unfold in_bitmap, newBitmap. destruct (0 <? total); rewrite nth_lookup.
  - rewrite lookup_replicate || idtac. destruct (replicate _ 0 !! _) as [x|] eqn:E; [|apply Z.bits_0].
    apply lookup_replicate in E as [-> _]. apply Z.bits_0.
  - apply Z.bits_0.
Qed.

(** Setting the chunks of a list one after the other. *)
Fixpoint setAll (l : list Z) (b : list Z) : res (list Z) :=
  match l with
  | [] => Ok b
  | s :: r => let! b := bitmapSet b s in setAll r b
  end.

(** The bitmap is a set of chunk numbers: after recording any chunks of a file in
    any order, exactly those are reported as received, and the acknowledged number
    is the least chunk that is missing. *)
Theorem bitmap_spec total l :
  0 < total -> Forall (fun s => 0 <= s < total) l ->
  exists b, setAll l (newBitmap total) = Ok b /\
    (forall s, 0 <= s -> bitmapHas b s = Ok (bool_decide (s ∈ l))) /\
    let m := bitmapMaxContinuous b total in
    0 <= m <= total /\ (forall s, 0 <= s < m -> s ∈ l) /\ (m < total -> m ∉ l).
Proof.
  intros Ht Hl. pose proof (newBitmap_length total Ht) as HL.
  assert (forall b, total <= 64 * Z.of_nat (length b) ->
    exists b', setAll l b = Ok b' /\
      forall s, 0 <= s -> in_bitmap b' s = in_bitmap b s || bool_decide (s ∈ l)) as Hset.
  { clear HL. induction Hl as [|x l Hx Hl IH]; intros b Hb; simpl.
    - exists b. split; [done|]. intros s Hs. by rewrite orb_false_r.
    - destruct (bitmapSet_nonneg b x) as (b1 & -> & L1 & E1); [lia|]. cbn [rbind].
      destruct (IH b1) as (b2 & -> & E2); [lia|]. exists b2. split; [done|].
      intros s Hs. rewrite E2, E1 by done. rewrite <- orb_assoc. f_equal.
      destruct (Z.eqb_spec s x) as [->|Hne].
      + symmetry. apply bool_decide_eq_true_2. apply list_elem_of_here.
      + simpl. apply bool_decide_ext. set_solver. }
  destruct (Hset _ HL) as (b & E & Hb). exists b. split; [done|].
  assert (forall s, 0 <= s -> in_bitmap b s = bool_decide (s ∈ l)) as Hin.
  { intros s Hs. by rewrite Hb, newBitmap_empty by done. }
  split; [intros s Hs; by rewrite bitmapHas_nonneg, Hin by done|].
  unfold bitmapMaxContinuous. destruct (Z.leb_spec total 0); [lia|].
  destruct (maxContinuous_spec (Z.to_nat total) 0 b) as (H1 & H2 & H3); [lia|].
  rewrite Z2Nat.id in H1, H3 by lia. split; [lia|]. split.
  - intros s Hs. specialize (H2 s Hs). rewrite Hin in H2 by lia. by apply bool_decide_eq_true in H2.
  - intros Hm. specialize (H3 Hm). rewrite Hin in H3 by lia. by apply bool_decide_eq_false in H3.
Qed.

(** ** Data frames *)
Section zstd.
(** The zstd library: what a writer produced for a block ([None] when it cannot be
    created), and the first bytes a reader decodes. *)
Context (zstd_encode : bytes -> option bytes) (zstd_decode : bytes -> nat -> res bytes).

Definition zstdCompressBlock (src : bytes) : bytes :=
  match src with [] => [] | _ => default [] (zstd_encode src) end.

Definition zstdDecompressBlock (src : bytes) (uncompLen : Z) : res bytes :=
  match src with [] => Ok [] | _ => zstd_decode src (Z.to_nat uncompLen) end.

Definition packDataFrame (seq : Z) (data : bytes) (compression : string) : bytes :=
  if String.eqb compression "zstd" then
    be_bytes 8 (wrapu 64 seq) ++ be_bytes 4 (wrapu 32 (zlen data)) ++ zstdCompressBlock data
  else be_bytes 8 (wrapu 64 seq) ++ data.

Definition unpackDataFrame (payload : bytes) (compression : string) : res (Z * bytes) :=
  if (length payload <? 8)%nat then Fail "unexpected EOF"
  else
    let seq := wraps 64 (be_val (take 8 payload)) in
    if String.eqb compression "zstd" then
      if (length payload <? 12)%nat then Fail "unexpected EOF"
      else
        let uncompLen := be_val (sub payload 8 4) in
        let! data := zstdDecompressBlock (drop 12 payload) uncompLen in Ok (seq, data)
    else Ok (seq, drop 8 payload).

(** What a working compressor does: it compresses every non-empty block to
    something, which decodes to the block. *)
Definition zstd_works : Prop :=
  forall data, data <> [] -> exists c, zstd_encode data = Some c /\ c <> [] /\
    zstd_decode c (length data) = Ok data.

Lemma wraps_wrapu_64 x : - 2 ^ 63 <= x < 2 ^ 63 -> wraps 64 (wrapu 64 x) = x.
Proof.
  intros Hx. unfold wraps, wrapu. rewrite Z.add_mod_idemp_l by lia.
  fold (wraps 64 x). by apply wraps_small.
Qed.

Lemma unpack_pack seq data compression :
  zstd_works -> - 2 ^ 63 <= seq < 2 ^ 63 -> zlen data < 2 ^ 32 ->
  unpackDataFrame (packDataFrame seq data compression) compression = Ok (seq, data).
Proof.
  intros Hz Hs Hd. pose proof (zlen_nonneg data). unfold unpackDataFrame, packDataFrame.
  pose proof (wrapu_range 64 seq ltac:(lia)).
  assert (be_val (be_bytes 8 (wrapu 64 seq)) = wrapu 64 seq) as Eseq.
  { apply be_val_be_bytes_small. by change (256 ^ Z.of_nat 8) with (2 ^ 64). }
  destruct (String.eqb compression "zstd").
  - rewrite !length_app, !length_be_bytes.
    destruct (Nat.ltb_spec (8 + (4 + length (zstdCompressBlock data))) 8); [lia|].
    destruct (Nat.ltb_spec (8 + (4 + length (zstdCompressBlock data))) 12); [lia|].
    rewrite take_app_length' by (by rewrite length_be_bytes).
    rewrite Eseq, wraps_wrapu_64 by done.
    assert (drop 12 (be_bytes 8 (wrapu 64 seq) ++ be_bytes 4 (wrapu 32 (zlen data)) ++
              zstdCompressBlock data) = zstdCompressBlock data) as ->
      by (rewrite app_assoc; apply drop_app_length'; rewrite length_app, !length_be_bytes; done).
    unfold sub. rewrite drop_app_length', take_app_length' by (by rewrite length_be_bytes).
    rewrite wrapu_small by lia.
    rewrite be_val_be_bytes_small by (change (256 ^ Z.of_nat 4) with (2 ^ 32); lia).
    destruct data as [|x data]; [done|].
    destruct (Hz (x :: data)) as (c & Ec & Hc & Edec); [done|].
    unfold zstdCompressBlock, zstdDecompressBlock. rewrite Ec. cbn [default].
    destruct c as [|y c]; [done|]. unfold zlen. rewrite Nat2Z.id. unfold id. by rewrite Edec.
  - rewrite length_app, length_be_bytes. destruct (Nat.ltb_spec (8 + length data) 8); [lia|].
    rewrite take_app_length', drop_app_length' by (by rewrite length_be_bytes).
    by rewrite Eseq, wraps_wrapu_64.
Qed.

(** Unpacking a packed data frame gives back its sequence number and its data,
    compressed or not. *)
Theorem data_frame_roundtrip seq data compression :
  zstd_works -> - 2 ^ 63 <= seq < 2 ^ 63 -> zlen data < 2 ^ 32 ->
  unpackDataFrame (packDataFrame seq data compression) compression = Ok (seq, data).
Proof. apply unpack_pack. Qed.

(** ** Choosing the compression *)
Inductive CompressMode := CompressAuto | CompressOn | CompressOff.

Definition magicHeaders : list (string * bytes) :=
  [("gzip", [0x1F; 0x8B]);
   ("zstd", [0x28; 0xB5; 0x2F; 0xFD]);
   ("lz4", [0x04; 0x22; 0x4D; 0x18]);
   ("xz", [0xFD; 0x37; 0x7A; 0x58; 0x5A; 0x00]);
   ("bzip2", [0x42; 0x5A; 0x68]);
   ("7z", [0x37; 0x7A; 0xBC; 0xAF; 0x27; 0x1C]);
   ("png", [0x89; 0x50; 0x4E; 0x47]);
   ("jpeg", [0xFF; 0xD8; 0xFF]);
   ("webp", [0x52; 0x49; 0x46; 0x46]);
   ("gif", [0x47; 0x49; 0x46; 0x38]);
   ("zip", [0x50; 0x4B; 0x03; 0x04]);
   ("rar", [0x52; 0x61; 0x72; 0x21; 0x1A; 0x07]);
   ("mp3", [0xFF; 0xFB]);
   ("mp4", [0x00; 0x00; 0x00; 0x18; 0x66; 0x74; 0x79; 0x70]);
   ("avi", [0x52; 0x49; 0x46; 0x46])].

Definition compressedExts : list string :=
  [".jpg"; ".jpeg"; ".png"; ".gif"; ".webp"; ".mp4"; ".avi"; ".mkv"; ".mov";
   ".mp3"; ".aac"; ".flac"; ".ogg"; ".wav"; ".zip"; ".gz"; ".zst"; ".bz2"; ".xz";
   ".7z"; ".rar"].

Definition hasMagicHeader (sample : bytes) : bool :=
  existsb (fun e : string * bytes =>
    if (length e.2 <=? length sample)%nat
    then bool_decide (take (length e.2) sample = e.2) else false) magicHeaders.

(** [math.Log2]. *)
Context (log2 : float64 -> float64).

Definition freq (sample : bytes) (b : Z) : Z := zlen (filter (fun x => x = b) sample).

Definition calcEntropy (sample : bytes) : float64 :=
  match sample with
  | [] => fzero
  | _ =>
      let n := fof_int (zlen sample) in
      foldl (fun h b =>
        let c := freq sample b in
        if 0 <? c then let p := fdiv (fof_int c) n in fsub h (fmul p (log2 p)) else h)
        fzero (map Z.of_nat (seq 0 256))
  end.

Definition compressionRatio (sample : bytes) : float64 :=
  match zstdCompressBlock sample with
  | [] => fone
  | c => fdiv (fof_int (zlen c)) (fof_int (zlen sample))
  end.

(** [detectCompression] on a file given by its lower-case extension and the sample
    [readSample] read from it. *)
Definition detectCompression (mode : CompressMode) (ext : string) (sample : bytes) : string :=
  match mode with
  | CompressOn => "zstd"
  | CompressOff => "none"
  | CompressAuto =>
      if existsb (String.eqb ext) compressedExts then "none"
      else match sample with
      | [] => "none"
      | _ =>
          if hasMagicHeader sample then "none"
          else
            let entropy := calcEntropy sample in
            if fle (fconst 15 2) entropy then "none"
            else if fle entropy (fof_int 6) then "zstd"
            else if flt (compressionRatio sample) (fconst 85 100) then "zstd" else "none"
      end
  end.

End zstd.

(** A stand-in for the compressor: the block itself behind one byte. *)
Definition toy_encode (b : bytes) : option bytes := Some (0 :: b).
Definition toy_decode (b : bytes) (n : nat) : res bytes := Ok (take n (drop 1 b)).

Lemma toy_works : zstd_works toy_encode toy_decode.
Proof.
  intros data Hd. exists (0 :: data). split; [done|]. split; [done|].
  unfold toy_decode. change (drop 1 (0 :: data)) with data. by rewrite take_ge.
Qed.

Lemma frames_roundtrip_witness :
  readAll 3 (writeAll [(3, [1; 2]); (5, [])]) = Ok [(3, [1; 2]); (5, [])] /\
  exists e, readAll 4 (writeAll [(3, [1; 2]); (5, [])] ++ take 5 (frameWrite 4 [9])) = Fail e.
Proof.
  split; apply (frames_roundtrip [(3, [1; 2]); (5, [])] 4 [9] 5);
    try (repeat constructor); vm_compute; (lia || congruence).
Defined.

Lemma bitmap_spec_witness :
  exists b, setAll [0; 1; 70] (newBitmap 100) = Ok b /\
    (forall s, 0 <= s -> bitmapHas b s = Ok (bool_decide (s ∈ [0; 1; 70]))).
Proof.
  destruct (bitmap_spec 100 [0; 1; 70]) as (b & E & H & _).
  - lia.
  - repeat constructor; lia.
  - exists b. split; [exact E|exact H].
Defined.

Lemma data_frame_roundtrip_witness :
  unpackDataFrame toy_decode (packDataFrame toy_encode 7 [1; 2; 3] "zstd") "zstd" = Ok (7, [1; 2; 3]).
Proof. apply (data_frame_roundtrip toy_encode toy_decode); [apply toy_works|lia|vm_compute; congruence]. Defined.
