(* ===== verification/FileTransfer.v ===== *)
(** * File transfer: the receiver and the sender (src/p2put/relayfile.go)

    [HandleFileStream] with [receiveLoop] and [cleanupSession] as a machine that
    consumes frames, [SendFile] as a program over a stream.  Frames carry raw bytes
    or JSON values; the text form of JSON, SHA-256 and the compressor are parameters;
    the file system is a map from paths to contents and
    the outcome of its operations is an argument. *)

From S2P Require Import Prelude GoLib GoNet GoPath FileFrame.

(** ** Payloads *)
Inductive jval := JNum (z : Z) | JStr (s : string) | JBool (b : bool).

(** Raw bytes, a JSON object with the keys the program writes, or the JSON string
    that [json.Marshal] makes of a byte slice. *)
Inductive payload := PRaw (b : bytes) | PObj (o : list (string * jval)) | PStr (s : string).

Record frame := { f_typ : Z; f_payload : payload }.

Fixpoint field (k : string) (o : list (string * jval)) : option jval :=
  match o with
  | [] => None
  | (x, v) :: r => if String.eqb x k then Some v else field k r
  end.

(** [json.Unmarshal] into a struct field: absent keys leave the zero value. *)
Definition num_field (k : string) (p : payload) : option Z :=
  match p with
  | PObj o => match field k o with None => Some 0 | Some (JNum z) => Some z | Some _ => None end
  | _ => None
  end.
Definition str_field (k : string) (p : payload) : option string :=
  match p with
  | PObj o => match field k o with None => Some "" | Some (JStr s) => Some s | Some _ => None end
  | _ => None
  end.
Definition bool_field (k : string) (p : payload) : option bool :=
  match p with
  | PObj o => match field k o with None => Some false | Some (JBool b) => Some b | Some _ => None end
  | _ => None
  end.

Record init_msg := {
  i_name : string; i_size : Z; i_chunk : Z; i_total : Z; i_checksum : string;
  i_offset : Z; i_compression : string
}.

Definition init_payload (i : init_msg) : payload :=
  PObj [("name", JStr (i_name i)); ("size", JNum (i_size i)); ("chunk_size", JNum (i_chunk i));
        ("total_chunks", JNum (i_total i)); ("checksum", JStr (i_checksum i));
        ("offset", JNum (i_offset i)); ("compression", JStr (i_compression i))].

Definition decode_init (p : payload) : option init_msg :=
  name ← str_field "name" p; size ← num_field "size" p; chunk ← num_field "chunk_size" p;
  total ← num_field "total_chunks" p; checksum ← str_field "checksum" p;
  offset ← num_field "offset" p; compression ← str_field "compression" p;
  Some {| i_name := name; i_size := size; i_chunk := chunk; i_total := total;
          i_checksum := checksum; i_offset := offset; i_compression := compression |}.

(** [readJSONFrame] on the next frame of a stream ([None]: the read failed).  An
    error frame whose payload is a JSON string, which is what [writeJSONFrame] makes
    of [mustJSON(...)], leaves the reason empty. *)
Definition readJSONFrame {A} (expected : Z) (decode : payload -> option A) (f : option frame) : res A :=
  match f with
  | None => Fail "read frame"
  | Some f =>
      if f_typ f =? frameTypeError then
        Fail ("remote error: " +:+ default "" (str_field "Reason" (f_payload f)))
      else if f_typ f =? frameTypeCancel then
        Fail ("remote cancelled: " +:+ default "" (str_field "Reason" (f_payload f)))
      else if negb (f_typ f =? expected) then Fail "unexpected frame type"
      else match decode (f_payload f) with Some a => Ok a | None => Fail "json" end
  end.

Definition reason (r : string) : payload := PObj [("Reason", JStr r)].

Section transfer.
Context (text : payload -> bytes) (sha256 : bytes -> string)
        (zstd_encode : bytes -> option bytes) (zstd_decode : bytes -> nat -> res bytes).

Notation fs := (gmap string bytes).

Definition raw (p : payload) : bytes := match p with PRaw b => b | _ => text p end.

(** ** The receiver *)
Inductive session_state := StTransfer | StDone | StError | StCancelled.

Record session := {
  s_savePath : string; s_tmpPath : string;
  s_size : Z; s_chunk : Z; s_total : Z; s_checksum : string; s_compression : string;
  s_state : session_state;
  s_bitmap : list Z; s_doneBytes : Z;
  s_pos : Z;                    (* position of the open temporary file *)
  s_lastAck : Z; s_startSeq : Z
}.

(** How the operating system answers: the error texts, and whether a reply can be
    written to the stream. *)
Record io := {
  io_mkdir : option string; io_create : option string; io_write : option string;
  io_rename : option string; io_send : bool
}.

Definition io_good : io :=
  {| io_mkdir := None; io_create := None; io_write := None; io_rename := None; io_send := true |}.

(** [file.Write] at a position; a gap reads as zeros. *)
Definition write_at (pos : Z) (data content : bytes) : bytes :=
  let p := Z.to_nat pos in
  take p content ++ replicate (p - length content) 0 ++ data ++ drop (p + length data) content.

(** [make([]uint64, (total+63)/64)] with Go's wrap-around. *)
Definition makeBitmap (total : Z) : res (list Z) :=
  if 0 <? total then
    let n := Z.quot (wraps 64 (total + 63)) 64 in
    if n <? 0 then Panic else Ok (replicate (Z.to_nat n) 0)
  else Ok [].

(** [for i := 0; i < written && i < total; i++ { bitmapSet(bitmap, i) }]. *)
Fixpoint setFirst (n : nat) (i : Z) (b : list Z) : res (list Z) :=
  match n with O => Ok b | S m => let! b := bitmapSet b i in setFirst m (i + 1) b end.

Inductive handled :=
  | Returned (replies : list frame) (m : fs)
  | Session (s : session) (replies : list frame) (m : fs).

(** [HandleFileStream] up to [receiveLoop]. *)
Definition HandleFileStream (o : io) (recvDir : string) (f : option frame) (m : fs) : res handled :=
  match readJSONFrame frameTypeInit decode_init f with
  | Fail _ => Ok (Returned [] m)
  | Panic => Panic
  | Ok init =>
      let safeName := Base (i_name init) in
      let saveDir := if String.eqb recvDir "" then "." else recvDir in
      match io_mkdir o with
      | Some e => Ok (Returned [{| f_typ := frameTypeReject; f_payload := reason e |}] m)
      | None =>
          let finalPath := Join saveDir safeName in
          let tmpPath := finalPath +:+ ".relayfile.part" in
          let! bitmap := makeBitmap (i_total init) in
          let! (opened, doneBytes, startSeq, bitmap) :=
            (if 0 <? i_offset init then
               match m !! tmpPath with
               | Some c =>
                   if i_chunk init =? 0 then Panic
                   else
                     let written := Z.quot (zlen c) (i_chunk init) in
                     let written := if Z.rem (zlen c) (i_chunk init) =? 0 then written
                                    else written + 1 in
                     let! b := setFirst (Z.to_nat (Z.min written (i_total init))) 0 bitmap in
                     Ok (true, zlen c, written, b)
               | None => Ok (false, 0, 0, bitmap)
               end
             else Ok (false, 0, 0, bitmap)) in
          let create := if (opened : bool) then None else io_create o in
          match create with
          | Some e => Ok (Returned [{| f_typ := frameTypeReject; f_payload := reason e |}] m)
          | None =>
              let m := if opened then m else <[tmpPath := []]> m in
              let resumeOffset := bitmapMaxContinuous bitmap (i_total init) in
              let startSeq := if startSeq <? resumeOffset then resumeOffset else startSeq in
              let seek := wraps 64 (startSeq * i_chunk init) in
              if io_send o then
                Ok (Session
                  {| s_savePath := finalPath; s_tmpPath := tmpPath; s_size := i_size init;
                     s_chunk := i_chunk init; s_total := i_total init;
                     s_checksum := i_checksum init;
                     s_compression := if String.eqb (i_compression init) "zstd" then "zstd" else "none";
                     s_state := StTransfer; s_bitmap := bitmap; s_doneBytes := doneBytes;
                     s_pos := if seek <? 0 then 0 else seek;
                     s_lastAck := startSeq; s_startSeq := startSeq |}
                  [{| f_typ := frameTypeAccept; f_payload := PObj [("offset", JNum startSeq)] |}] m)
              else Ok (Returned [] (delete tmpPath m))
          end
      end
  end.

Definition with_state (st : session_state) (s : session) : session :=
  {| s_savePath := s_savePath s; s_tmpPath := s_tmpPath s; s_size := s_size s;
     s_chunk := s_chunk s; s_total := s_total s; s_checksum := s_checksum s;
     s_compression := s_compression s; s_state := st; s_bitmap := s_bitmap s;
     s_doneBytes := s_doneBytes s; s_pos := s_pos s; s_lastAck := s_lastAck s;
     s_startSeq := s_startSeq s |}.
Definition with_done (n : Z) (s : session) : session :=
  {| s_savePath := s_savePath s; s_tmpPath := s_tmpPath s; s_size := s_size s;
     s_chunk := s_chunk s; s_total := s_total s; s_checksum := s_checksum s;
     s_compression := s_compression s; s_state := s_state s; s_bitmap := s_bitmap s;
     s_doneBytes := n; s_pos := s_pos s; s_lastAck := s_lastAck s;
     s_startSeq := s_startSeq s |}.
Definition with_chunk (b : list Z) (n pos : Z) (s : session) : session :=
  {| s_savePath := s_savePath s; s_tmpPath := s_tmpPath s; s_size := s_size s;
     s_chunk := s_chunk s; s_total := s_total s; s_checksum := s_checksum s;
     s_compression := s_compression s; s_state := s_state s; s_bitmap := b;
     s_doneBytes := n; s_pos := pos; s_lastAck := s_lastAck s;
     s_startSeq := s_startSeq s |}.
Definition with_ack (a : Z) (s : session) : session :=
  {| s_savePath := s_savePath s; s_tmpPath := s_tmpPath s; s_size := s_size s;
     s_chunk := s_chunk s; s_total := s_total s; s_checksum := s_checksum s;
     s_compression := s_compression s; s_state := s_state s; s_bitmap := s_bitmap s;
     s_doneBytes := s_doneBytes s; s_pos := s_pos s; s_lastAck := a;
     s_startSeq := s_startSeq s |}.

(** [cleanupSession]: nothing for a session that has ended.  The code ignores what
    [os.Remove] answers; here the removal of the session's own temporary file succeeds. *)
Definition cleanupSession (s : session) (m : fs) : session * fs :=
  match s_state s with
  | StTransfer => (with_state StError s, delete (s_tmpPath s) m)
  | _ => (s, m)
  end.

(** [verifyFileHash]. *)
Definition verifyFileHash (m : fs) (path checksum : string) : res unit :=
  if negb (has_prefix "sha256:" checksum) then Fail "unknown checksum format"
  else match m !! path with
  | None => Fail "open"
  | Some c => if String.eqb ("sha256:" +:+ sha256 c) checksum then Ok tt else Fail "checksum mismatch"
  end.

(** One iteration of [receiveLoop]: whether it goes on, the replies, the session and
    the files. *)
Record rstate := { r_go : bool; r_replies : list frame; r_session : session; r_fs : fs }.

Definition stop (replies : list frame) (sm : session * fs) : rstate :=
  {| r_go := false; r_replies := replies; r_session := sm.1; r_fs := sm.2 |}.
Definition go_on (replies : list frame) (s : session) (m : fs) : rstate :=
  {| r_go := true; r_replies := replies; r_session := s; r_fs := m |}.

(** [writeJSONFrame(s, frameTypeError, mustJSON(...))]: a JSON string, not an object. *)
Definition error_frame (e : string) : frame := {| f_typ := frameTypeError; f_payload := PStr e |}.

(** After a data frame: acknowledge when a batch or the file is complete. *)
Definition acknowledge (o : io) (s : session) (m : fs) : rstate :=
  let newSeq := bitmapMaxContinuous (s_bitmap s) (s_total s) in
  if ((ackBatch <=? newSeq - s_lastAck s) || (s_total s <=? newSeq)) && (s_lastAck s <? newSeq)
  then
    if io_send o
    then go_on [{| f_typ := frameTypeAck; f_payload := PObj [("cs", JNum (newSeq - 1))] |}]
           (with_ack newSeq s) m
    else stop [] (cleanupSession s m)
  else go_on [] s m.

Definition receiveStep (o : io) (f : option frame) (s : session) (m : fs) : res rstate :=
  match f with
  | None => Ok (stop [] (cleanupSession s m))
  | Some f =>
      if f_typ f =? frameTypeCancel then Ok (stop [] (cleanupSession s m))
      else if f_typ f =? frameTypeError then Ok (stop [] (cleanupSession s m))
      else if f_typ f =? frameTypeData then
        match unpackDataFrame zstd_decode (raw (f_payload f)) (s_compression s) with
        | Panic => Panic
        | Fail e => Ok (stop [error_frame e] (cleanupSession s m))
        | Ok (dataSeq, chunkData) =>
            let! has := bitmapHas (s_bitmap s) dataSeq in
            if (has : bool) then Ok (acknowledge o s m)
            else
              match io_write o with
              | Some e => Ok (stop [error_frame e] (cleanupSession s m))
              | None =>
                  let m := alter (write_at (s_pos s) chunkData) (s_tmpPath s) m in
                  let! b := bitmapSet (s_bitmap s) dataSeq in
                  Ok (acknowledge o
                        (with_chunk b (s_doneBytes s + zlen chunkData)
                           (s_pos s + zlen chunkData) s) m)
              end
        end
      else if f_typ f =? frameTypeFin then
        let checksum := default "" (str_field "checksum" (f_payload f)) in
        if negb (String.eqb checksum (s_checksum s))
        then Ok (stop [error_frame "checksum mismatch"] (cleanupSession s m))
        else
          match verifyFileHash m (s_tmpPath s) (s_checksum s) with
          | Panic => Panic
          | Fail e => Ok (stop [error_frame e] (cleanupSession s m))
          | Ok _ =>
              match io_rename o, m !! s_tmpPath s with
              | Some e, _ => Ok (stop [error_frame e] (cleanupSession s m))
              | None, None => Ok (stop [error_frame "rename"] (cleanupSession s m))
              | None, Some c =>
                  let m := <[s_savePath s := c]> (delete (s_tmpPath s) m) in
                  let s := with_state StDone (with_done (s_size s) s) in
                  if io_send o
                  then Ok (stop [{| f_typ := frameTypeDone; f_payload := PObj [("ok", JBool true)] |}] (s, m))
                  else Ok (stop [] (cleanupSession s m))
              end
          end
      else Ok (go_on [] s m)
  end.

(** [CancelFileSession] on a receiving session, from another goroutine: the loop does
    not look at the state. *)
Definition CancelFileSession (s : session) : session := with_state StCancelled s.

(** A run of the receiver over the frames of a stream, with cancellations between
    them; the end of the list is the read error that ends the loop. *)
Inductive event := EFrame (f : frame) | ECancel.

Fixpoint receiveLoop (ios : nat -> io) (i : nat) (l : list event) (s : session) (m : fs) : res rstate :=
  match l with
  | [] => receiveStep (ios i) None s m
  | EFrame f :: r =>
      let! st := receiveStep (ios i) (Some f) s m in
      if r_go st then receiveLoop ios (S i) r (r_session st) (r_fs st) else Ok st
  | ECancel :: r => receiveLoop ios (S i) r (CancelFileSession s) m
  end.

(** ** The sender *)
Section sender.
(** The stream: writing a frame, reading the next one, opening a new stream. *)
Context {W : Type} (send : frame -> W -> option W) (recvFrame : W -> option frame * W)
        (reopen : W -> option W) (cancelled : W -> bool).
Context (localPath : string) (content : bytes) (compression : string).

Definition fileSize : Z := zlen content.
Definition totalChunks : Z :=
  let n := Z.quot fileSize chunkSize in
  if Z.rem fileSize chunkSize =? 0 then n else n + 1.
Definition checksum : string := "sha256:" +:+ sha256 content.

Definition the_init (offset : Z) : init_msg :=
  {| i_name := Base localPath; i_size := fileSize; i_chunk := chunkSize; i_total := totalChunks;
     i_checksum := checksum; i_offset := offset; i_compression := compression |}.

(** [file.Seek(seq*chunkSize, io.SeekStart)]: a negative offset is an error and
    leaves the position. *)
Definition seek (pos : nat) (seq : Z) : nat :=
  let p := wraps 64 (seq * chunkSize) in if p <? 0 then pos else Z.to_nat p.

(** [file.Read(buf)] at position [pos]; a regular file fills the buffer up to its end. *)
Definition file_read (pos : nat) : bytes := take (Z.to_nat chunkSize) (drop pos content).

(** The inner loop: at most [n] chunks from [seq] on; [None] when a write fails. *)
Fixpoint sendChunks (n : nat) (seq : Z) (pos : nat) (w : W) : option (Z * nat * W) :=
  match n with
  | O => Some (seq, pos, w)
  | S n =>
      let data := file_read pos in
      match data with
      | [] => Some (seq, pos, w)
      | _ =>
          match send {| f_typ := frameTypeData;
                        f_payload := PRaw (packDataFrame zstd_encode seq data compression) |} w with
          | None => None
          | Some w => sendChunks n (seq + 1) (pos + length data) w
          end
      end
  end.

Lemma sendChunks_S n seq pos w data :
  file_read pos = data -> data <> [] ->
  sendChunks (S n) seq pos w =
  match send {| f_typ := frameTypeData;
                f_payload := PRaw (packDataFrame zstd_encode seq data compression) |} w with
  | None => None
  | Some w => sendChunks n (seq + 1) (pos + length data) w
  end.
Proof. cbn [sendChunks]. generalize (file_read pos). intros ? -> H. by destruct data. Qed.

Definition finish (w : W) : res W :=
  match send {| f_typ := frameTypeFin;
                f_payload := PObj [("total_chunks", JNum totalChunks); ("checksum", JStr checksum)] |} w with
  | None => Fail "write fin"
  | Some w =>
      let (f, w) := recvFrame w in
      let! _ := with_prefix "read done: " (readJSONFrame frameTypeDone (bool_field "ok") f) in Ok w
  end.

(** The labels of [SendFile]: [initRetry], and the head of the chunk loop. *)
Inductive label := InitRetry (offset : Z) | Chunks (seq : Z) (pos : nat).

Fixpoint SendFile (fuel : nat) (l : label) (w : W) : res W :=
  match fuel with
  | O => Fail "fuel"
  | S fuel =>
      match l with
      | InitRetry offset =>
          match send {| f_typ := frameTypeInit; f_payload := init_payload (the_init offset) |} w with
          | None => Fail "write init"
          | Some w =>
              let (f, w) := recvFrame w in
              let! offset := with_prefix "read accept: " (readJSONFrame frameTypeAccept (num_field "offset") f) in
              SendFile fuel (Chunks offset (seek 0 offset)) w
          end
      | Chunks seq pos =>
          if seq <? totalChunks then
            if cancelled w then Fail "context canceled"
            else
              let batchEnd := if totalChunks <? seq + ackBatch then totalChunks else seq + ackBatch in
              match sendChunks (Z.to_nat (batchEnd - seq)) seq pos w with
              | None => Fail "write data"
              | Some (seq, pos, w) =>
                  let (f, w) := recvFrame w in
                  match readJSONFrame frameTypeAck (num_field "cs") f with
                  | Ok cs => SendFile fuel (Chunks (cs + 1) (seek pos (cs + 1))) w
                  | _ => match reopen w with
                         | None => Fail "reconnect"
                         | Some w => SendFile fuel (InitRetry seq) w
                         end
                  end
              end
          else finish w
      end
  end.
End sender.

(** ** The receiver leaves a whole, checked file or none *)

(** What a session has, and what it may have done to the files since [m0]. *)
Definition outcome (s0 : session) (m0 : fs) (st : session_state) (m : fs) : Prop :=
  match st with
  | StTransfer => m !! s_savePath s0 = m0 !! s_savePath s0
  | StDone => m !! s_tmpPath s0 = None /\
              exists c, m !! s_savePath s0 = Some c /\ "sha256:" +:+ sha256 c = s_checksum s0
  | StError => m !! s_tmpPath s0 = None /\ m !! s_savePath s0 = m0 !! s_savePath s0
  | StCancelled => m !! s_savePath s0 = m0 !! s_savePath s0
  end.

Definition running (st : session_state) : Prop := st = StTransfer \/ st = StCancelled.

Record same_session (s s' : session) : Prop := {
  ss_save : s_savePath s' = s_savePath s;
  ss_tmp : s_tmpPath s' = s_tmpPath s;
  ss_sum : s_checksum s' = s_checksum s
}.

Definition step_ok (s0 : session) (m0 m : fs) (st : rstate) : Prop :=
  same_session s0 (r_session st) /\
  outcome s0 m0 (s_state (r_session st)) (r_fs st) /\
  (r_go st = true -> running (s_state (r_session st))) /\
  (r_go st = false -> s_state (r_session st) <> StTransfer) /\
  (forall p, p <> s_tmpPath s0 -> p <> s_savePath s0 -> r_fs st !! p = m !! p).

Lemma verifyFileHash_Ok m path sum u :
  verifyFileHash m path sum = Ok u -> exists c, m !! path = Some c /\ "sha256:" +:+ sha256 c = sum.
Proof.
  unfold verifyFileHash. destruct (has_prefix _ _); [|done]. cbn [negb].
  destruct (m !! path) as [c|]; [|done].
  destruct (String.eqb_spec ("sha256:" +:+ sha256 c) sum) as [E|]; [|done]. intros _. by exists c.
Qed.

Lemma running_outcome s m0 st m :
  running st -> (outcome s m0 st m <-> m !! s_savePath s = m0 !! s_savePath s).
Proof. by intros [-> | ->]. Qed.

Lemma step_error s m0 m replies :
  running (s_state s) -> s_savePath s <> s_tmpPath s ->
  m !! s_savePath s = m0 !! s_savePath s ->
  step_ok s m0 m (stop replies (cleanupSession s m)).
Proof.
  intros [Hs|Hs] Hne Hm; unfold cleanupSession; rewrite Hs; (split; [by split|]); simpl.
  - split; [by rewrite lookup_delete_eq, lookup_delete_ne|]. split; [done|]. split; [done|].
    intros p Hp _. by rewrite lookup_delete_ne.
  - by rewrite Hs.
Qed.

Lemma step_continue s s' m0 m m' replies :
  running (s_state s') -> same_session s s' ->
  m' !! s_savePath s = m0 !! s_savePath s ->
  (forall p, p <> s_tmpPath s -> p <> s_savePath s -> m' !! p = m !! p) ->
  step_ok s m0 m (go_on replies s' m').
Proof.
  intros Hs Hss Hm Hp. split; [done|]. simpl. split; [by apply running_outcome|done].
Qed.

Lemma step_ok_same s s' m0 m m' st :
  same_session s s' -> (forall p, p <> s_tmpPath s -> p <> s_savePath s -> m' !! p = m !! p) ->
  step_ok s' m0 m' st -> step_ok s m0 m st.
Proof.
  intros [E1 E2 E3] Hp ([F1 F2 F3] & Ho & Hg & Hs & Hf).
  rewrite E1 in F1. rewrite E2 in F2. rewrite E3 in F3.
  split; [by split|]. split; [|split; [done|split; [done|]]].
  - unfold outcome in *. by rewrite E1, E2, E3 in Ho.
  - intros p H1 H2. rewrite <- (Hp p H1 H2). apply Hf; congruence.
Qed.

Lemma acknowledge_ok o s m0 m :
  running (s_state s) -> s_savePath s <> s_tmpPath s ->
  m !! s_savePath s = m0 !! s_savePath s -> step_ok s m0 m (acknowledge o s m).
Proof.
  intros Hs Hne Hm. unfold acknowledge. destruct (_ && _).
  - destruct (io_send o); [|by apply step_error].
    apply step_continue; [done|by split|done|done].
  - apply step_continue; [done|by split|done|done].
Qed.

Lemma receiveStep_ok o f s m0 m st :
  running (s_state s) -> s_savePath s <> s_tmpPath s ->
  m !! s_savePath s = m0 !! s_savePath s ->
  receiveStep o f s m = Ok st -> step_ok s m0 m st.
Proof.
  intros Hs Hne Hm. unfold receiveStep.
  destruct f as [f|]; [|intros [= <-]; by apply step_error].
  destruct (_ =? _); [intros [= <-]; by apply step_error|].
  destruct (_ =? _); [intros [= <-]; by apply step_error|].
  destruct (_ =? _).
  - destruct (unpackDataFrame _ _ _) as [[q d]|e|]; [|intros [= <-]; by apply step_error|done].
    intros ([] & _ & E)%rbind_Ok.
    + apply Ok_inj in E as <-. by apply acknowledge_ok.
    + destruct (io_write o); [apply Ok_inj in E as <-; by apply step_error|].
      apply rbind_Ok in E as (b & _ & E). apply Ok_inj in E as <-.
      eapply step_ok_same with (m' := alter _ (s_tmpPath s) m); [|intros p Hp _; by rewrite lookup_alter_ne|].
      2: { apply acknowledge_ok; [done|done|]. cbn [with_chunk s_savePath]. by rewrite lookup_alter_ne. }
      by split.
  - destruct (_ =? _); [|intros [= <-]; by apply step_continue; [|split|..]].
    destruct (negb _); [intros [= <-]; by apply step_error|].
    destruct (verifyFileHash _ _ _) as [u|e|] eqn:Ev; [|intros [= <-]; by apply step_error|done].
    apply verifyFileHash_Ok in Ev as (c & Ec & Esum). rewrite Ec.
    destruct (io_rename o); [intros [= <-]; by apply step_error|].
    intros E. assert (r_session st = with_state StDone (with_done (s_size s) s) /\
      r_fs st = <[s_savePath s := c]> (delete (s_tmpPath s) m) /\ r_go st = false) as (E1 & E2 & E3)
      by (destruct (io_send o); apply Ok_inj in E as <-; done).
    split; [rewrite E1; by split|]. rewrite E1, E2, E3. cbn [outcome with_state with_done s_state].
    split; [split|split; [done|split; [done|]]].
    + by rewrite lookup_insert_ne, lookup_delete_eq.
    + exists c. by rewrite lookup_insert_eq.
    + intros p H1 H2. by rewrite lookup_insert_ne, lookup_delete_ne.
Qed.

Lemma receiveLoop_ok ios i l s m0 m st :
  running (s_state s) -> s_savePath s <> s_tmpPath s ->
  m !! s_savePath s = m0 !! s_savePath s ->
  receiveLoop ios i l s m = Ok st -> step_ok s m0 m st /\ r_go st = false.
Proof.
  revert i s m. induction l as [|[f|] l IH]; intros i s m Hs Hne Hm; cbn [receiveLoop].
  - intros E. split; [by eapply receiveStep_ok|]. by apply Ok_inj in E as <-.
  - intros (st1 & E1 & E)%rbind_Ok.
    pose proof (receiveStep_ok _ _ _ _ _ _ Hs Hne Hm E1) as Hok.
    destruct (r_go st1) eqn:Hgo; [|apply Ok_inj in E as <-; done].
    destruct Hok as (Hss & Ho & Hg & _ & Hf). specialize (Hg Hgo).
    apply running_outcome in Ho; [|done]. destruct Hss as [A1 A2 A3].
    apply IH in E as [E Hend]; [|done|congruence|by rewrite A1].
    split; [|done]. eapply step_ok_same; [|exact Hf|exact E]. by split.
  - intros E. apply IH in E as [E Hend]; [|by right|done|done].
    split; [|done]. eapply step_ok_same; [|done|exact E]. by split.
Qed.

(** Only [CancelFileSession] makes a session cancelled. *)
Lemma receiveStep_cancelled o f s m st :
  receiveStep o f s m = Ok st -> s_state (r_session st) = StCancelled -> s_state s = StCancelled.
Proof.
  assert (forall r, s_state (r_session (stop r (cleanupSession s m))) = StCancelled ->
    s_state s = StCancelled) as Hstop.
  { intros r. unfold cleanupSession. by destruct (s_state s) eqn:E; simpl; rewrite ?E. }
  assert (forall s' m', s_state s' = s_state s ->
    s_state (r_session (acknowledge o s' m')) = StCancelled -> s_state s = StCancelled) as Hack.
  { intros s' m' <-. unfold acknowledge, cleanupSession.
    destruct (_ && _); [|done]. destruct (io_send o); [done|].
    by destruct (s_state s') eqn:E; simpl; rewrite ?E. }
  unfold receiveStep. destruct f as [f|]; [|intros [= <-]; apply Hstop].
  destruct (_ =? _); [intros [= <-]; apply Hstop|].
  destruct (_ =? _); [intros [= <-]; apply Hstop|]. destruct (_ =? _).
  - destruct (unpackDataFrame _ _ _) as [[q d]|e|]; [|intros [= <-]; apply Hstop|done].
    intros ([] & _ & E)%rbind_Ok; [apply Ok_inj in E as <-; by apply Hack|].
    destruct (io_write o); [apply Ok_inj in E as <-; apply Hstop|].
    apply rbind_Ok in E as (b & _ & E). apply Ok_inj in E as <-. by apply Hack.
  - destruct (_ =? _); [|by intros [= <-]].
    destruct (negb _); [intros [= <-]; apply Hstop|].
    destruct (verifyFileHash _ _ _); [|intros [= <-]; apply Hstop|done].
    destruct (io_rename o); [intros [= <-]; apply Hstop|].
    destruct (m !! s_tmpPath s); [|intros [= <-]; apply Hstop].
    destruct (io_send o); by intros [= <-].
Qed.

Lemma receiveLoop_cancelled ios i l s m st :
  receiveLoop ios i l s m = Ok st -> s_state (r_session st) = StCancelled ->
  s_state s = StCancelled \/ ECancel ∈ l.
Proof.
  revert i s m. induction l as [|[f|] l IH]; intros i s m; cbn [receiveLoop].
  - intros E Hc. left. by eapply receiveStep_cancelled.
  - intros (st1 & E1 & E)%rbind_Ok Hc. destruct (r_go st1).
    + destruct (IH _ _ _ E Hc) as [H|H]; [left; by eapply receiveStep_cancelled|].
      right. by apply list_elem_of_further.
    + apply Ok_inj in E as <-. left. by eapply receiveStep_cancelled.
  - intros _ _. right. apply list_elem_of_here.
Qed.

(** A whole incoming stream: the initial frame, then the others. *)
Definition serveFile (ios : nat -> io) (recvDir : string) (f : option frame) (l : list event) (m : fs)
  : res (option session * fs) :=
  let! h := HandleFileStream (ios O) recvDir f m in
  match h with
  | Returned _ m => Ok (None, m)
  | Session s _ m =>
      let! st := receiveLoop ios 1 l s m in Ok (Some (r_session st), r_fs st)
  end.

Lemma str_length_app s1 s2 : String.length (s1 +:+ s2) = (String.length s1 + String.length s2)%nat.
Proof. induction s1; simpl; auto. Qed.

Lemma part_ne s : s <> s +:+ ".relayfile.part".
Proof.
  intros H. apply (f_equal String.length) in H. rewrite str_length_app in H. simpl in H. lia.
Qed.

Lemma HandleFileStream_session o d f m s replies m' :
  HandleFileStream o d f m = Ok (Session s replies m') ->
  s_state s = StTransfer /\ s_tmpPath s = s_savePath s +:+ ".relayfile.part" /\
  (forall p, p <> s_tmpPath s -> m' !! p = m !! p).
Proof.
  unfold HandleFileStream. destruct (readJSONFrame _ _ _) as [i|e|]; [|done..].
  destruct (io_mkdir o); [done|].
  intros (b & _ & ([[[op db] ss] b'] & _ & E)%rbind_Ok)%rbind_Ok.
  destruct (if op then None else io_create o); [done|]. destruct (io_send o); [|done].
  apply Ok_inj in E. injection E as <- _ <-. cbn [s_state s_tmpPath s_savePath].
  split; [done|]. split; [done|]. intros p Hp. destruct op; [done|]. by rewrite lookup_insert_ne.
Qed.

Lemma HandleFileStream_returned o d f m replies m' :
  HandleFileStream o d f m = Ok (Returned replies m') ->
  forall p, m' !! p = m !! p \/
    (m' !! p = None /\ exists q, p = q +:+ ".relayfile.part").
Proof.
  unfold HandleFileStream. destruct (readJSONFrame _ _ _) as [i|e|]; [|intros [= _ <-]; by left|done].
  destruct (io_mkdir o); [intros [= _ <-]; by left|].
  intros (b & _ & ([[[op db] ss] b'] & _ & E)%rbind_Ok)%rbind_Ok.
  destruct (if op then None else io_create o); [apply Ok_inj in E; injection E as _ <-; by left|].
  destruct (io_send o); [done|]. apply Ok_inj in E. injection E as _ <-.
  intros p. match goal with |- delete ?t _ !! p = _ \/ _ => destruct (decide (p = t)) as [->|Hne] end.
  - right. rewrite lookup_delete_eq. split; [done|]. by eexists.
  - left. rewrite lookup_delete_ne by done. destruct op; [done|]. by rewrite lookup_insert_ne.
Qed.

(** C2. Whatever frames arrive and however the file operations turn out, an incoming
    transfer that ended has either put at its destination a file with the announced
    checksum, its temporary file gone, or left the destination as it was, its
    temporary file removed except when it was cancelled; no other file is touched. *)
Theorem receive_all_or_nothing ios d f l m s m' :
  serveFile ios d f l m = Ok (Some s, m') ->
  (forall p, p <> s_tmpPath s -> p <> s_savePath s -> m' !! p = m !! p) /\
  match s_state s with
  | StDone => m' !! s_tmpPath s = None /\
      exists c, m' !! s_savePath s = Some c /\ "sha256:" +:+ sha256 c = s_checksum s
  | StError => m' !! s_tmpPath s = None /\ m' !! s_savePath s = m !! s_savePath s
  | StCancelled => ECancel ∈ l /\ m' !! s_savePath s = m !! s_savePath s
  | StTransfer => False
  end.
Proof.
  intros (h & EH & E)%rbind_Ok. destruct h as [r1 m1|s1 r1 m1]; [done|].
  apply HandleFileStream_session in EH as (Hst & Htmp & Hm1).
  apply rbind_Ok in E as (st & E & E'). apply Ok_inj in E'. injection E' as <- <-.
  assert (s_savePath s1 <> s_tmpPath s1) as Hne by (rewrite Htmp; apply part_ne).
  pose proof (receiveLoop_cancelled _ _ _ _ _ _ E) as Hc.
  apply receiveLoop_ok with (m0 := m1) in E as [(Hss & Ho & Hg & Hs & Hf) Hend]; [|by left|done..].
  destruct Hss as [A1 A2 A3]. rewrite A1, A2, A3. specialize (Hs Hend).
  unfold outcome in Ho. rewrite (Hm1 (s_savePath s1)) in Ho by done.
  split; [intros p H1 H2; by rewrite Hf, Hm1|].
  destruct (s_state (r_session st)); [done|done|done|]. split; [|done].
  destruct (Hc eq_refl) as [Hc'|Hc']; [congruence|done].
Qed.

(** ** Sender and receiver together

    A stream whose frames are handled by the peer's receiver as they are written;
    its replies wait in the inbox of the sender. *)
Inductive peer_state := Idle | Receiving (s : session) | Ended.

Record world := { w_peer : peer_state; w_fs : fs; w_inbox : list frame }.

Context (recvDir : string).

Definition deliver (f : frame) (w : world) : option world :=
  match w_peer w with
  | Idle =>
      match HandleFileStream io_good recvDir (Some f) (w_fs w) with
      | Ok (Session s replies m) =>
          Some {| w_peer := Receiving s; w_fs := m; w_inbox := w_inbox w ++ replies |}
      | Ok (Returned replies m) => Some {| w_peer := Ended; w_fs := m; w_inbox := w_inbox w ++ replies |}
      | _ => Some {| w_peer := Ended; w_fs := w_fs w; w_inbox := w_inbox w |}
      end
  | Receiving s =>
      match receiveStep io_good (Some f) s (w_fs w) with
      | Ok st => Some {| w_peer := if r_go st then Receiving (r_session st) else Ended;
                         w_fs := r_fs st; w_inbox := w_inbox w ++ r_replies st |}
      | _ => Some {| w_peer := Ended; w_fs := w_fs w; w_inbox := w_inbox w |}
      end
  | Ended => None
  end.

Definition next (w : world) : option frame * world :=
  match w_inbox w with
  | [] => (None, w)
  | f :: r => (Some f, {| w_peer := w_peer w; w_fs := w_fs w; w_inbox := r |})
  end.

(** A new stream: the receiver of the old one sees its end. *)
Definition restart (w : world) : option world :=
  let m := match w_peer w with
           | Receiving s => (cleanupSession s (w_fs w)).2
           | _ => w_fs w
           end in
  Some {| w_peer := Idle; w_fs := m; w_inbox := [] |}.

Section exchange.
Context (localPath : string) (content : bytes) (compression : string).
Context (Hzstd : zstd_works zstd_encode zstd_decode) (Hlen : zlen content < 2 ^ 62).

Notation c := (Z.to_nat chunkSize).
Notation total := (totalChunks content).
Notation savePath := (Join (if String.eqb recvDir "" then "." else recvDir) (Base localPath)).
Notation tmpPath := (savePath +:+ ".relayfile.part").

Lemma total_bounds :
  0 <= total /\ (total - 1) * chunkSize < zlen content <= total * chunkSize \/
  (total = 0 /\ content = []).
Proof.
  unfold totalChunks, fileSize. pose proof (zlen_nonneg content) as H.
  rewrite Z.quot_div_nonneg, Z.rem_mod_nonneg by (unfold chunkSize; lia).
  pose proof (Z_div_mod_eq_full (zlen content) chunkSize) as E.
  pose proof (Z.mod_pos_bound (zlen content) chunkSize ltac:(done)) as B.
  assert (0 <= zlen content / chunkSize) by (apply Z.div_pos; [done|unfold chunkSize; lia]).
  unfold chunkSize in *.
  destruct (Z.eqb_spec (zlen content mod 65536) 0) as [E0|E0]; [|left; lia].
  destruct (Z.eq_dec (zlen content) 0) as [L0|L0]; [|left; lia].
  right. rewrite L0. split; [done|]. unfold zlen in L0. destruct content; [done|simpl in L0; lia].
Qed.

Lemma total_nonneg : 0 <= total.
Proof. destruct total_bounds as [H|[-> _]]; lia. Qed.

Lemma total_small : total < 2 ^ 62.
Proof.
  destruct total_bounds as [H|[-> _]]; [|lia]. unfold chunkSize in *. lia.
Qed.

(** The receiver after the first [seq] chunks, having acknowledged [a] of them. *)
Record received (seq a : Z) (s : session) (m : fs) : Prop := {
  rc_save : s_savePath s = savePath;
  rc_tmp : s_tmpPath s = tmpPath;
  rc_total : s_total s = total;
  rc_sum : s_checksum s = checksum content;
  rc_comp : s_compression s = (if String.eqb compression "zstd" then "zstd" else "none");
  rc_state : s_state s = StTransfer;
  rc_map : total <= 64 * Z.of_nat (length (s_bitmap s));
  rc_bits : forall x, 0 <= x -> in_bitmap (s_bitmap s) x = (x <? seq);
  rc_pos : s_pos s = zlen (take (Z.to_nat (seq * chunkSize)) content);
  rc_file : m !! tmpPath = Some (take (Z.to_nat (seq * chunkSize)) content);
  rc_ack : s_lastAck s = a
}.

Lemma maxContinuous_prefix b seq :
  0 <= seq <= total -> (forall x, 0 <= x -> in_bitmap b x = (x <? seq)) ->
  bitmapMaxContinuous b total = seq.
Proof.
  intros Hs Hb. unfold bitmapMaxContinuous.
  destruct (Z.leb_spec total 0); [lia|].
  destruct (maxContinuous_spec (Z.to_nat total) 0 b) as (H1 & H2 & H3); [lia|].
  set (n := maxContinuous _ _ _) in *. clearbody n.
  destruct (Z.lt_trichotomy n seq) as [Hlt|[->|Hgt]]; [|done|].
  - specialize (H3 ltac:(lia)). rewrite Hb in H3 by lia. lia.
  - specialize (H2 seq ltac:(lia)). rewrite Hb in H2 by lia. lia.
Qed.

Lemma unpack_packed seq data :
  0 <= seq < 2 ^ 63 -> zlen data < 2 ^ 32 ->
  unpackDataFrame zstd_decode (packDataFrame zstd_encode seq data compression)
    (if String.eqb compression "zstd" then "zstd" else "none") = Ok (seq, data).
Proof.
  intros Hs Hd. destruct (String.eqb_spec compression "zstd") as [->|Hne].
  - apply unpack_pack; [done|lia|done].
  - assert (packDataFrame zstd_encode seq data compression =
      packDataFrame zstd_encode seq data "none") as ->.
    { unfold packDataFrame. by apply String.eqb_neq in Hne as ->. }
    apply unpack_pack; [done|lia|done].
Qed.

Lemma write_at_end data p l :
  p = zlen l -> write_at p data l = l ++ data.
Proof.
  intros ->. unfold write_at, zlen. rewrite Nat2Z.id, Nat.sub_diag, take_ge, drop_ge by lia.
  simpl. by rewrite app_nil_r.
Qed.

Lemma makeBitmap_total : makeBitmap total = Ok (newBitmap total).
Proof.
  pose proof total_nonneg. pose proof total_small. unfold makeBitmap, newBitmap.
  destruct (Z.ltb_spec 0 total); [|done]. rewrite wraps_small by lia.
  rewrite Z.quot_div_nonneg by lia.
  assert (0 <= (total + 63) / 64) by (apply Z.div_pos; lia).
  by destruct (Z.ltb_spec ((total + 63) / 64) 0); [lia|].
Qed.

Lemma decode_init_payload i : decode_init (init_payload i) = Some i.
Proof. by destruct i. Qed.

(** The receiver accepts the initial frame of a fresh transfer. *)
Lemma accept_init w :
  w_peer w = Idle -> w_inbox w = [] ->
  exists s m,
    deliver {| f_typ := frameTypeInit; f_payload := init_payload (the_init localPath content compression 0) |} w =
      Some {| w_peer := Receiving s; w_fs := m;
              w_inbox := [{| f_typ := frameTypeAccept; f_payload := PObj [("offset", JNum 0)] |}] |} /\
    received 0 0 s m.
Proof.
  intros Hp Hi. unfold deliver. rewrite Hp, Hi. unfold HandleFileStream, readJSONFrame.
  cbn [f_typ f_payload frameTypeInit Z.eqb frameTypeError frameTypeCancel negb].
  rewrite decode_init_payload. cbn [io_good io_mkdir io_create io_send the_init i_name i_size i_chunk
    i_total i_checksum i_offset i_compression Z.ltb Z.compare rbind].
  rewrite makeBitmap_total. cbn [rbind].
  assert (bitmapMaxContinuous (newBitmap total) total = 0) as Hmax.
  { apply maxContinuous_prefix; [pose proof total_nonneg; lia|].
    intros x Hx. rewrite newBitmap_empty by done. by destruct (Z.ltb_spec x 0); [lia|]. }
  rewrite Hmax. cbn [Z.ltb Z.compare io_good io_send].
  eexists _, _. split; [reflexivity|].
  split; cbn [s_savePath s_tmpPath s_total s_checksum s_compression s_state s_bitmap s_pos s_lastAck]; try done.
  - by rewrite Base_idem.
  - by rewrite Base_idem.
  - destruct (Z.le_gt_cases total 0) as [H|H]; [pose proof total_nonneg; lia|by apply newBitmap_length].
  - intros x Hx. rewrite newBitmap_empty by done. by destruct (Z.ltb_spec x 0); [lia|].
  - by rewrite Base_idem, lookup_insert_eq.
Qed.

(** Chunk [seq] of the file. *)
Definition chunk (seq : Z) : bytes := file_read content (Z.to_nat (seq * chunkSize)).

Lemma take_chunk seq :
  0 <= seq -> take (Z.to_nat ((seq + 1) * chunkSize)) content =
              take (Z.to_nat (seq * chunkSize)) content ++ chunk seq.
Proof.
  intros Hs. unfold chunk, file_read.
  replace (Z.to_nat ((seq + 1) * chunkSize)) with (Z.to_nat (seq * chunkSize) + c)%nat
    by (unfold chunkSize; lia).
  symmetry. apply take_take_drop.
Qed.

Lemma chunk_length seq :
  0 <= seq -> zlen (chunk seq) = Z.max 0 (Z.min chunkSize (zlen content - seq * chunkSize)).
Proof.
  intros Hs. unfold chunk, file_read, zlen. rewrite length_take, length_drop.
  assert (0 < chunkSize) as H by done. revert H. generalize chunkSize as k. intros k H.
  rewrite Nat2Z.inj_min, Z2Nat.id by lia. nia.
Qed.

Lemma chunk_nonempty seq : 0 <= seq < total -> exists b r, chunk seq = b :: r.
Proof.
  intros Hs. pose proof (chunk_length seq ltac:(lia)) as E.
  destruct (chunk seq) as [|b r]; [|by eexists _, _]. exfalso. rewrite zlen_nil in E.
  destruct total_bounds as [H|[H _]]; [|lia].
  assert (0 < chunkSize) as Hk by done. revert Hk E H. generalize chunkSize as k. intros. nia.
Qed.

Lemma chunk_not_nil seq : 0 <= seq < total -> chunk seq <> [].
Proof. intros Hs E. destruct (chunk_nonempty seq Hs) as (b & r & Ec). congruence. Qed.

Lemma chunk_small seq : 0 <= seq -> zlen (chunk seq) < 2 ^ 32.
Proof.
  intros Hs. rewrite chunk_length by done. assert (chunkSize < 2 ^ 32) by done. lia.
Qed.

Definition data_frame (seq : Z) : frame :=
  {| f_typ := frameTypeData; f_payload := PRaw (packDataFrame zstd_encode seq (chunk seq) compression) |}.
Definition ack_frame (seq : Z) : frame :=
  {| f_typ := frameTypeAck; f_payload := PObj [("cs", JNum (seq - 1))] |}.

(** The receiver takes the next chunk; it acknowledges the last one of a batch or of
    the file. *)
Lemma take_data seq a w s :
  0 <= a <= seq -> seq < total -> w_peer w = Receiving s -> received seq a s (w_fs w) ->
  let full := (ackBatch <=? seq + 1 - a) || (total <=? seq + 1) in
  exists s' m',
    deliver (data_frame seq) w =
      Some {| w_peer := Receiving s'; w_fs := m';
              w_inbox := w_inbox w ++ (if full then [ack_frame (seq + 1)] else []) |} /\
    received (seq + 1) (if full then seq + 1 else a) s' m'.
Proof.
  intros Ha Hs Hp R full. pose proof total_small.
  unfold deliver. rewrite Hp. unfold receiveStep, data_frame.
  cbn [f_typ f_payload frameTypeData frameTypeCancel frameTypeError Z.eqb Pos.eqb raw].
  rewrite (rc_comp _ _ _ _ R), unpack_packed by (lia || (apply chunk_small; lia)).
  rewrite bitmapHas_nonneg, (rc_bits _ _ _ _ R) by lia. cbn [rbind].
  destruct (Z.ltb_spec seq seq); [lia|]. cbn [io_good io_write].
  destruct (bitmapSet_nonneg (s_bitmap s) seq) as (b & -> & Lb & Eb).
  { pose proof (rc_map _ _ _ _ R). lia. }
  cbn [rbind]. unfold acknowledge. cbn [with_chunk s_bitmap s_total s_lastAck].
  rewrite (rc_total _ _ _ _ R), (rc_ack _ _ _ _ R).
  assert (forall x, 0 <= x -> in_bitmap b x = (x <? seq + 1)) as Hb.
  { intros x Hx. rewrite Eb, (rc_bits _ _ _ _ R) by done. lia. }
  rewrite (maxContinuous_prefix b (seq + 1)) by (lia || exact Hb).
  assert (a <? seq + 1 = true) as -> by lia. fold full. rewrite andb_true_r.
  set (s1 := with_chunk b _ _ s). set (m1 := alter _ _ _).
  assert (forall a', received (seq + 1) a' (with_ack a' s1) m1) as R1.
  { intros a'. destruct R as [R1 R2 R3 R4 R5 R6 R7 R8 R9 R10 R11]. split; try done.
    - cbn [s1 with_ack with_chunk s_bitmap]. by rewrite Lb.
    - cbn [s1 with_ack with_chunk s_pos]. rewrite take_chunk, zlen_app by lia. lia.
    - unfold m1. rewrite R2, lookup_alter_eq, R10. cbn [fmap option_fmap option_map].
      f_equal. rewrite take_chunk by lia. by apply write_at_end. }
  destruct full; cbn [io_good io_send].
  - eexists _, _. split; [reflexivity|]. apply R1.
  - eexists _, _. split; [reflexivity|].
    replace s1 with (with_ack a s1); [apply R1|]. unfold s1, with_ack, with_chunk. simpl.
    by rewrite (rc_ack _ _ _ _ R).
Qed.

Lemma total_chunks_end seq :
  0 <= seq -> total <= seq -> take (Z.to_nat (seq * chunkSize)) content = content.
Proof.
  intros H0 Hs. apply take_ge. pose proof total_bounds as Hb.
  assert (0 < chunkSize) as Hk by done. revert Hk Hb. generalize chunkSize as k.
  intros k Hk [H|[_ ->]]; [unfold zlen in H; nia|apply Nat.le_0_l].
Qed.

Lemma full_chunk seq : 0 <= seq -> seq + 1 < total -> zlen (chunk seq) = chunkSize.
Proof.
  intros H0 Hs. rewrite chunk_length by done. destruct total_bounds as [H|[H _]]; [|lia].
  assert (0 < chunkSize) as Hk by done. revert Hk H. generalize chunkSize as k. intros. nia.
Qed.

Lemma advance (k s : Z) (l : bytes) :
  0 < k -> 0 <= s -> zlen l = k -> (Z.to_nat (s * k) + length l)%nat = Z.to_nat ((s + 1) * k).
Proof. unfold zlen. nia. Qed.

Lemma next_pos seq :
  0 <= seq -> seq + 1 < total ->
  (Z.to_nat (seq * chunkSize) + length (chunk seq))%nat = Z.to_nat ((seq + 1) * chunkSize).
Proof. intros H0 Hs. by apply advance, full_chunk. Qed.

Lemma sendChunks_step n seq w :
  0 <= seq < total ->
  sendChunks deliver content compression (S n) seq (Z.to_nat (seq * chunkSize)) w =
  match deliver (data_frame seq) w with
  | None => None
  | Some w => sendChunks deliver content compression n (seq + 1)
                (Z.to_nat (seq * chunkSize) + length (chunk seq)) w
  end.
Proof.
  intros Hs. destruct (chunk_nonempty seq Hs) as (b & r & Ec).
  exact (sendChunks_S _ _ _ _ _ _ _ (chunk seq) eq_refl (chunk_not_nil seq Hs)).
Qed.

Lemma send_batch n a seq w s :
  (0 < n)%nat -> 0 <= a <= seq -> seq + Z.of_nat n = Z.min (a + ackBatch) total ->
  w_peer w = Receiving s -> received seq a s (w_fs w) -> w_inbox w = [] ->
  let e := seq + Z.of_nat n in
  exists pos' s' m',
    sendChunks deliver content compression n seq (Z.to_nat (seq * chunkSize)) w =
      Some (e, pos', {| w_peer := Receiving s'; w_fs := m'; w_inbox := [ack_frame e] |}) /\
    received e e s' m'.
Proof.
  revert seq w s. induction n as [|n IH]; intros seq w s Hn Ha He Hp R Hi; [lia|].
  assert (seq < total) as Hlt by lia. rewrite sendChunks_step by lia.
  destruct (take_data seq a w s Ha Hlt Hp R) as (s' & m' & -> & R').
  rewrite Hi, app_nil_l in *. destruct n as [|n].
  - change (Z.of_nat 1) with 1 in *.
    assert ((ackBatch <=? seq + 1 - a) || (total <=? seq + 1) = true) as Hf.
    { apply orb_true_iff. rewrite !Z.leb_le. lia. }
    rewrite Hf in R' |- *. eexists _, s', m'. by split.
  - assert ((ackBatch <=? seq + 1 - a) || (total <=? seq + 1) = false) as Hf.
    { apply orb_false_iff. rewrite !Z.leb_gt. lia. }
    rewrite Hf in R' |- *.
    rewrite next_pos by lia.
    destruct (IH (seq + 1) {| w_peer := Receiving s'; w_fs := m'; w_inbox := [] |} s')
      as (pos' & s2 & m2 & E & R2); [lia|lia|lia|done|exact R'|done|].
    rewrite E. replace (seq + Z.of_nat (S (S n))) with (seq + 1 + Z.of_nat (S n)) by lia.
    by eexists _, _, _.
Qed.

(** The end of the transfer: the receiver checks the file and moves it to its
    destination. *)
Lemma finish_ok w s a :
  w_peer w = Receiving s -> received total a s (w_fs w) -> w_inbox w = [] ->
  exists w', finish deliver next content w = Ok w' /\ w_fs w' !! savePath = Some content.
Proof.
  intros Hp R Hi. destruct R as [R1 R2 R3 R4 R5 R6 R7 R8 R9 R10 R11].
  rewrite total_chunks_end in R10 by (pose proof total_nonneg; lia).
  unfold finish, deliver. rewrite Hp. unfold receiveStep.
  cbn [f_typ f_payload frameTypeData frameTypeFin frameTypeCancel frameTypeError Z.eqb Pos.eqb].
  replace (default "" (str_field "checksum" _)) with (checksum content) by reflexivity.
  rewrite R4, String.eqb_refl. cbn [negb].
  assert (verifyFileHash (w_fs w) (s_tmpPath s) (checksum content) = Ok tt) as ->.
  { unfold verifyFileHash.
    replace (has_prefix "sha256:" (checksum content)) with true
      by (symmetry; apply has_prefix_spec; by eexists).
    cbn [negb]. rewrite R2, R10. unfold checksum. by rewrite String.eqb_refl. }
  rewrite R2, R10. cbn [io_good io_rename io_send r_go r_session r_fs r_replies stop fst snd].
  rewrite Hi. cbn [app next w_inbox].
  eexists. split; [reflexivity|]. cbn [w_fs]. by rewrite R1, lookup_insert_eq.
Qed.

Lemma seek_small pos seq : 0 <= seq <= total -> seek pos seq = Z.to_nat (seq * chunkSize).
Proof.
  intros Hs. unfold seek.
  assert (0 <= seq * chunkSize < 2 ^ 63) as H.
  { destruct total_bounds as [H|[H _]]; [|rewrite H in Hs; replace seq with 0 by lia; done].
    assert (0 < chunkSize < 2 ^ 20) as Hk by done. revert Hk H. generalize chunkSize as k. intros. nia. }
  rewrite wraps_small by lia. by destruct (Z.ltb_spec (seq * chunkSize) 0); [lia|].
Qed.

Lemma send_loop fuel seq w s :
  0 <= seq <= total -> total - seq <= ackBatch * Z.of_nat fuel ->
  w_peer w = Receiving s -> received seq seq s (w_fs w) -> w_inbox w = [] ->
  exists w', SendFile deliver next restart (fun _ => false) localPath content compression (S fuel)
      (Chunks seq (Z.to_nat (seq * chunkSize))) w = Ok w' /\ w_fs w' !! savePath = Some content.
Proof.
  revert seq w s. induction fuel as [|fuel IH]; intros seq w s Hs Hf Hp R Hi; cbn [SendFile].
  - destruct (Z.ltb_spec seq total); [lia|]. replace seq with total in R by lia.
    by eapply finish_ok.
  - destruct (Z.ltb_spec seq total) as [Hlt|Hge].
    2: { replace seq with total in R by lia. by eapply finish_ok. }
    set (e := if total <? seq + ackBatch then total else seq + ackBatch).
    assert (e = Z.min (seq + ackBatch) total) as He by (unfold e; destruct (Z.ltb_spec total (seq + ackBatch)); lia).
    clearbody e. assert (seq < e) as Hse by (unfold ackBatch in *; lia).
    destruct (send_batch (Z.to_nat (e - seq)) seq seq w s) as (pos' & s' & m' & E & R'); [lia|lia|lia|done..|].
    rewrite E. replace (seq + Z.of_nat (Z.to_nat (e - seq))) with e in R' |- * by lia.
    cbn [next w_inbox w_peer w_fs].
    replace (readJSONFrame frameTypeAck (num_field "cs") (Some (ack_frame e))) with (Ok (e - 1)) by reflexivity.
    replace (e - 1 + 1) with e by lia. rewrite seek_small by lia.
    eapply IH; [lia| |reflexivity|exact R'|done]. unfold ackBatch in *. lia.
Qed.

(** C1. A file of any size arrives whole: when no file operation fails and the
    receiver is new to it, the sender's loop ends without error and the receiver has
    the sender's bytes at the destination, compressed on the way or not. *)
Theorem transfer_completes w :
  w_peer w = Idle -> w_inbox w = [] ->
  let batches := Z.to_nat (zlen content / (ackBatch * chunkSize) + 1) in
  exists w', SendFile deliver next restart (fun _ => false) localPath content compression
      (S (S batches)) (InitRetry 0) w = Ok w' /\
    w_fs w' !! savePath = Some content.
Proof.
  intros Hp Hi batches. destruct (accept_init w Hp Hi) as (s & m & E & R).
  remember (S batches) as fuel eqn:Ef. cbn [SendFile]. rewrite E. cbn [next w_inbox].
  change (with_prefix _ _) with (@Ok Z 0). cbn [rbind].
  rewrite seek_small by (pose proof total_nonneg; lia). rewrite Ef.
  eapply send_loop; [pose proof total_nonneg; lia| |reflexivity|exact R|reflexivity].
  assert (0 <= zlen content / (ackBatch * chunkSize)) as H0
    by (apply Z.div_pos; [apply zlen_nonneg|done]).
  unfold batches. rewrite Z2Nat.id by lia.
  pose proof (Z_div_mod_eq_full (zlen content) (ackBatch * chunkSize)) as Ed.
  pose proof (Z.mod_pos_bound (zlen content) (ackBatch * chunkSize) ltac:(done)) as B.
  destruct total_bounds as [H|[H _]]; [|rewrite H; unfold ackBatch, chunkSize in *; lia].
  unfold ackBatch, chunkSize in *. lia.
Qed.
End exchange.

(** ** Where a transfer writes, and the messages that stop the program *)
Definition saveDir : string := if String.eqb recvDir "" then "." else recvDir.

(** A transfer whose announced name has an ordinary last element writes only in
    the receive directory: its temporary file and its destination are the directory's
    elements followed by one more, whatever directories the name contains. *)
Theorem save_path_in_dir o f init m s replies m' :
  f_typ f = frameTypeInit -> decode_init (f_payload f) = Some init -> plain_name (Base (i_name init)) ->
  HandleFileStream o recvDir (Some f) m = Ok (Session s replies m') ->
  let d := has_prefix "/" saveDir in
  s_savePath s = show_path d (path_elems saveDir ++ [Base (i_name init)]) /\
  s_tmpPath s = show_path d (path_elems saveDir ++ [Base (i_name init) +:+ ".relayfile.part"]) /\
  forall p, p <> s_tmpPath s -> m' !! p = m !! p.
Proof.
  intros Hf Hd Hb E d. pose proof (HandleFileStream_session _ _ _ _ _ _ _ E) as (_ & Htmp & Hm).
  assert (s_savePath s = Join saveDir (Base (i_name init))) as Es.
  { revert E. unfold HandleFileStream, readJSONFrame. rewrite Hf.
    cbn [frameTypeInit frameTypeError frameTypeCancel Z.eqb negb]. rewrite Hd. fold saveDir.
    destruct (io_mkdir o); [done|].
    intros (b & _ & ([[[op db] ss] b'] & _ & E)%rbind_Ok)%rbind_Ok.
    destruct (if op then None else io_create o); [done|]. destruct (io_send o); [|done].
    apply Ok_inj in E. injection E as <- _ _. reflexivity. }
  assert (saveDir <> "") as Hne.
  { unfold saveDir. by destruct (String.eqb_spec recvDir ""). }
  rewrite Htmp, Es, Join_plain by done. split; [done|].
  split; [|rewrite Htmp, Es, Join_plain in Hm by done; exact Hm].
  apply show_path_suffix. by destruct Hb as (_ & ? & _).
Qed.

(** Two messages of a remote peer stop the receiving program instead of ending
    the transfer: a data frame whose chunk number is -64 or less, and an initial frame
    that resumes an existing file with a chunk size of 0. *)
Theorem remote_panics o (f g : frame) s m q data init :
  f_typ f = frameTypeData -> unpackDataFrame zstd_decode (raw (f_payload f)) (s_compression s) = Ok (q, data) ->
  q <= -64 ->
  f_typ g = frameTypeInit -> decode_init (f_payload g) = Some init ->
  i_chunk init = 0 -> 0 < i_offset init -> 0 <= i_total init < 2 ^ 62 -> io_mkdir o = None ->
  is_Some (m !! (Join saveDir (Base (i_name init)) +:+ ".relayfile.part")) ->
  receiveStep o (Some f) s m = Panic /\ HandleFileStream o recvDir (Some g) m = Panic.
Proof.
  intros Hf Hu Hq Hg Hd Hc Ho Ht Hmk [c Hm]. split.
  - unfold receiveStep. rewrite Hf. cbn [frameTypeData frameTypeCancel frameTypeError Z.eqb Pos.eqb].
    rewrite Hu. unfold bitmapHas.
    assert (Z.quot q 64 < 0) as Hneg.
    { pose proof (Z.quot_rem' q 64). pose proof (Z.rem_bound_pos_neg q 64 ltac:(lia) ltac:(lia)). lia. }
    destruct (Z.leb_spec (Z.of_nat (length (s_bitmap s))) (Z.quot q 64)); [lia|].
    by destruct (Z.ltb_spec (Z.quot q 64) 0); [|lia].
  - unfold HandleFileStream, readJSONFrame. rewrite Hg.
    cbn [frameTypeInit frameTypeError frameTypeCancel Z.eqb negb]. rewrite Hd, Hmk. fold saveDir.
    assert (makeBitmap (i_total init) = Ok (newBitmap (i_total init))) as ->.
    { unfold makeBitmap, newBitmap. destruct (Z.ltb_spec 0 (i_total init)); [|done].
      rewrite wraps_small, Z.quot_div_nonneg by lia.
      assert (0 <= (i_total init + 63) / 64) by (apply Z.div_pos; lia).
      by destruct (Z.ltb_spec ((i_total init + 63) / 64) 0); [lia|]. }
    cbn [rbind]. destruct (Z.ltb_spec 0 (i_offset init)); [|lia]. by rewrite Hm, Hc.
Qed.

End transfer.

(** ** The theorems at concrete inputs *)
Definition toy_text (p : payload) : bytes := match p with PRaw b => b | _ => [] end.
(** A stand-in for SHA-256: the length and the first byte. *)
Definition toy_hash (b : bytes) : string := utoa (zlen b) +:+ "-" +:+ utoa (at_ b 0).

Definition a_file : bytes := replicate 20 7.
Definition an_init (name : string) (chunk offset : Z) : frame :=
  {| f_typ := frameTypeInit;
     f_payload := init_payload {| i_name := name; i_size := 20; i_chunk := chunk; i_total := 1;
       i_checksum := "sha256:" +:+ toy_hash a_file; i_offset := offset; i_compression := "zstd" |} |}.
Definition a_fin : frame :=
  {| f_typ := frameTypeFin; f_payload := PObj [("checksum", JStr ("sha256:" +:+ toy_hash a_file))] |}.
Definition a_data : frame :=
  {| f_typ := frameTypeData; f_payload := PRaw (packDataFrame toy_encode 0 a_file "zstd") |}.

Definition served (l : list event) : res (option session * gmap string bytes) :=
  serveFile toy_text toy_hash toy_decode (fun _ => io_good) "in" (Some (an_init "d/x" 65536 0)) l ∅.

Definition served_state (l : list event) (st : session_state) : bool :=
  match served l with
  | Ok (Some s, _) => match s_state s, st with
                      | StDone, StDone | StError, StError | StCancelled, StCancelled => true
                      | _, _ => false end
  | _ => false
  end.

Lemma receive_all_or_nothing_witness :
  exists s m', served [EFrame a_data; EFrame a_fin] = Ok (Some s, m') /\
    s_state s = StDone /\ exists c, m' !! s_savePath s = Some c /\ "sha256:" +:+ toy_hash c = s_checksum s.
Proof.
  assert (served_state [EFrame a_data; EFrame a_fin] StDone = true) as H by (vm_compute; reflexivity).
  unfold served_state in H. destruct (served _) as [[[s|] m']| |] eqn:E; try discriminate H.
  exists s, m'. split; [reflexivity|].
  pose proof (receive_all_or_nothing _ _ _ _ _ _ _ _ _ _ E) as [_ R].
  destruct (s_state s); try discriminate H. split; [reflexivity|]. apply R.
Defined.

Definition fresh_world : world := {| w_peer := Idle; w_fs := ∅; w_inbox := [] |}.

Lemma transfer_completes_witness :
  exists w', SendFile toy_hash toy_encode (deliver toy_text toy_hash toy_decode "in")
      next restart (fun _ => false) "d/x" a_file "zstd" 3 (InitRetry 0) fresh_world = Ok w' /\
    w_fs w' !! Join "in" "x" = Some a_file.
Proof.
  apply (transfer_completes toy_text toy_hash toy_encode toy_decode "in" "d/x" a_file "zstd" toy_works
    ltac:(vm_compute; reflexivity) fresh_world eq_refl eq_refl).
Defined.

Definition is_session (r : res handled) : bool :=
  match r with Ok (Session _ _ _) => true | _ => false end.

Lemma is_session_ex r : is_session r = true -> exists s replies m', r = Ok (Session s replies m').
Proof. destruct r as [[|s replies m']| |]; try discriminate. intros _. by exists s, replies, m'. Qed.

Lemma plain_x : plain_name (Base "../../etc/x").
Proof. split; [vm_compute; reflexivity|split; [|split]]; vm_compute; discriminate. Qed.

Lemma save_path_in_dir_witness :
  exists s replies m',
    HandleFileStream io_good "in" (Some (an_init "../../etc/x" 65536 0)) ∅ = Ok (Session s replies m') /\
    s_savePath s = "in/x" /\ s_tmpPath s = "in/x.relayfile.part".
Proof.
  destruct (is_session_ex (HandleFileStream io_good "in" (Some (an_init "../../etc/x" 65536 0)) ∅))
    as (s & r & m' & E); [vm_compute; reflexivity|]. exists s, r, m'. split; [exact E|].
  destruct (save_path_in_dir "in" io_good (an_init "../../etc/x" 65536 0)
    {| i_name := "../../etc/x"; i_size := 20; i_chunk := 65536; i_total := 1;
       i_checksum := "sha256:" +:+ toy_hash a_file; i_offset := 0; i_compression := "zstd" |}
    ∅ s r m' eq_refl eq_refl plain_x E) as (E1 & E2 & _).
  split; [exact E1|exact E2].
Defined.

(** The name [..] is the exception: the temporary file is a sibling of the receive
    directory. *)
Lemma parent_name_escapes :
  match HandleFileStream io_good "/srv/in" (Some (an_init ".." 65536 0)) ∅ with
  | Ok (Session s _ _) => s_tmpPath s
  | _ => ""
  end = "/srv.relayfile.part".
Proof. vm_compute. reflexivity. Qed.

Definition neg_data : frame :=
  {| f_typ := frameTypeData; f_payload := PRaw (packDataFrame toy_encode (-64) [1] "none") |}.
Definition a_session : session :=
  {| s_savePath := "in/y"; s_tmpPath := "in/y.relayfile.part"; s_size := 20; s_chunk := 65536;
     s_total := 1; s_checksum := ""; s_compression := "none"; s_state := StTransfer;
     s_bitmap := [0]; s_doneBytes := 0; s_pos := 0; s_lastAck := 0; s_startSeq := 0 |}.

Lemma remote_panics_witness :
  receiveStep toy_text toy_hash toy_decode io_good (Some neg_data) a_session {["in/x.relayfile.part" := []]} = Panic /\
  HandleFileStream io_good "in" (Some (an_init "x" 0 1)) {["in/x.relayfile.part" := []]} = Panic.
Proof.
  apply (remote_panics toy_text toy_hash toy_decode "in" io_good neg_data (an_init "x" 0 1) a_session
    {["in/x.relayfile.part" := []]} (-64) [1]
    {| i_name := "x"; i_size := 20; i_chunk := 0; i_total := 1;
       i_checksum := "sha256:" +:+ toy_hash a_file; i_offset := 1; i_compression := "zstd" |});
    try reflexivity; try lia; [cbn [i_total]; lia|exists []; reflexivity].
Defined.
