(* ===== verification/IrohWire.v ===== *)
(** * The iroh relay protocol: integers, frames, handshake (src/p2put/irohrelay.go)

    Variable-length integers, the datagrams that carry stream frames, and the client
    side of the handshake.  Key derivation and signing are parameters. *)

From S2P Require Import Prelude GoLib GoNet.

Definition streamIDBase : Z := 1000.
Definition maxDatagramPayload : Z := 64000.

Definition hsServerChallenge : Z := 0.
Definition hsClientAuth : Z := 1.
Definition hsServerConfirmsAuth : Z := 2.
Definition hsServerDeniesAuth : Z := 3.

Definition frameClientToRelayDatagram : Z := 4.
Definition frameRelayToClientDatagram : Z := 6.
Definition frameRelayToClientDatagramBatch : Z := 7.
Definition frameEndpointGone : Z := 8.
Definition framePing : Z := 9.
Definition framePong : Z := 10.

Definition flagDATA : Z := 0.
Definition flagCLOSE : Z := 1.
Definition flagRESET : Z := 2.

(** ** Integers *)
Definition byte_of (v : Z) : Z := wrapu 8 v.

Definition appendVarInt (buf : bytes) (v : Z) : bytes :=
  if v <=? 63 then buf ++ [byte_of v]
  else if v <=? 16383 then
    buf ++ [Z.lor (byte_of (Z.shiftr v 8)) 0x40; byte_of v]
  else if v <=? 1073741823 then
    buf ++ [Z.lor (byte_of (Z.shiftr v 24)) 0x80; byte_of (Z.shiftr v 16);
            byte_of (Z.shiftr v 8); byte_of v]
  else
    buf ++ [Z.lor (byte_of (Z.shiftr v 56)) 0xC0; byte_of (Z.shiftr v 48);
            byte_of (Z.shiftr v 40); byte_of (Z.shiftr v 32); byte_of (Z.shiftr v 24);
            byte_of (Z.shiftr v 16); byte_of (Z.shiftr v 8); byte_of v].

(** The loop of [appendLEB128]; a 64-bit value takes at most ten turns. *)
Fixpoint leb128 (fuel : nat) (v : Z) : bytes :=
  match fuel with
  | O => []
  | S fuel =>
      let b := Z.land v 0x7F in
      let v := Z.shiftr v 7 in
      if negb (v =? 0) then Z.lor b 0x80 :: leb128 fuel v else [b]
  end.
Definition appendLEB128 (buf : bytes) (v : Z) : bytes := buf ++ leb128 10 v.

(** The loop of [consumeLEB128] at index [i]: a shift by 64 or more gives 0. *)
Fixpoint consume_from (i : Z) (v : Z) (buf : bytes) : res (Z * Z) :=
  match buf with
  | [] => Fail "unexpected EOF"
  | b :: r =>
      let v := Z.lor v (wrapu 64 (Z.shiftl (Z.land b 0x7F) (7 * i))) in
      if Z.land b 0x80 =? 0 then Ok (v, i + 1) else consume_from (i + 1) v r
  end.
Definition consumeLEB128 (buf : bytes) : res (Z * Z) := consume_from 0 0 buf.

(** A variable-length integer as QUIC reads it: the two high bits of the first byte
    give the length, the rest is big-endian. *)
Definition varint_length (b : Z) : nat := Nat.pow 2 (Z.to_nat (Z.shiftr b 6)).
Definition varint_value (l : bytes) : Z :=
  match l with b :: r => Z.land b 0x3F * 256 ^ zlen r + be_val r | [] => 0 end.

Lemma land_127 x : Z.land x 0x7F = x mod 128.
Proof. exact (Z.land_ones x 7 ltac:(lia)). Qed.
Lemma land_63 x : Z.land x 0x3F = x mod 64.
Proof. exact (Z.land_ones x 6 ltac:(lia)). Qed.

Lemma lor_128 b : 0 <= b < 128 -> Z.lor b 0x80 = b + 128.
Proof. intros H. change 0x80 with (Z.shiftl 1 7) at 1. by rewrite lor_shiftl_add by lia. Qed.

Lemma land_128_small b : 0 <= b < 128 -> Z.land b 0x80 = 0.
Proof. intros H. exact (land_shiftl_0 b 1 7 H ltac:(lia)). Qed.

Lemma land_128_more b : 0 <= b < 128 -> Z.land (Z.lor b 0x80) 0x80 = 0x80.
Proof. intros H. by rewrite Z.land_lor_distr_l, land_128_small by done. Qed.

Lemma consume_leb fuel i acc v rest :
  0 <= i -> 0 <= acc < 2 ^ (7 * i) -> 0 <= v -> v < 2 ^ (7 * Z.of_nat fuel) -> (0 < fuel)%nat ->
  v * 2 ^ (7 * i) < 2 ^ 64 ->
  consume_from i acc (leb128 fuel v ++ rest) =
  Ok (acc + v * 2 ^ (7 * i), i + zlen (leb128 fuel v)).
Proof.
  revert i acc v. induction fuel as [|fuel IH]; intros i acc v Hi Hacc Hv Hf H0 Hlt; [lia|].
  cbn [leb128]. rewrite land_127, (Z.shiftr_div_pow2 v 7) by lia. change (2 ^ 7) with 128.
  pose proof (Z_div_mod_eq_full v 128) as E. pose proof (Z.mod_pos_bound v 128 ltac:(lia)) as B.
  set (q := v / 128) in *. set (r := v mod 128) in *. clearbody q r.
  assert (0 <= q) by lia. assert (0 < 2 ^ (7 * i)) by lia.
  assert (Z.lor acc (wrapu 64 (Z.shiftl r (7 * i))) = acc + r * 2 ^ (7 * i)) as Ea.
  { rewrite wrapu_small; [by apply lor_shiftl_add; lia|]. rewrite Z.shiftl_mul_pow2 by lia. nia. }
  destruct (Z.eqb_spec q 0) as [Hq|Hq]; cbn [negb app consume_from].
  - rewrite land_127, (Z.mod_small r) by lia. rewrite Ea, land_128_small by done. cbn [Z.eqb].
    rewrite zlen_cons, zlen_nil.
    replace v with r by lia. by replace (i + (1 + 0)) with (i + 1) by lia.
  - rewrite land_128_more by done. cbn [Z.eqb].
    replace (Z.land (Z.lor r 128) 127) with r
      by (rewrite Z.land_lor_distr_l, land_127, (Z.mod_small r) by lia; symmetry; apply Z.lor_0_r).
    rewrite Ea. replace (7 * (i + 1)) with (7 * i + 7) in * by lia.
    rewrite IH.
    + rewrite zlen_cons. replace (7 * (i + 1)) with (7 * i + 7) by lia.
      rewrite Z.pow_add_r by lia. change (2 ^ 7) with 128.
      set (z := zlen _). replace (i + (1 + z)) with (i + 1 + z) by lia.
      by replace (acc + v * 2 ^ (7 * i)) with (acc + r * 2 ^ (7 * i) + q * (2 ^ (7 * i) * 128)) by nia.
    + lia.
    + replace (7 * (i + 1)) with (7 * i + 7) by lia. rewrite Z.pow_add_r by lia.
      change (2 ^ 7) with 128. nia.
    + lia.
    + rewrite Nat2Z.inj_succ in Hf. replace (7 * Z.succ (Z.of_nat fuel)) with (7 * Z.of_nat fuel + 7) in Hf by lia.
      rewrite Z.pow_add_r in Hf by lia. change (2 ^ 7) with 128 in Hf. lia.
    + destruct fuel; [|lia]. change (2 ^ (7 * Z.of_nat 1)) with 128 in Hf. lia.
    + replace (7 * (i + 1)) with (7 * i + 7) by lia. rewrite Z.pow_add_r by lia.
      change (2 ^ 7) with 128. nia.
Qed.

(** Bytes with the continuation bit only: more are needed. *)
Lemma consume_prefix k fuel i acc v :
  0 <= v -> (k < length (leb128 fuel v))%nat -> consume_from i acc (take k (leb128 fuel v)) = Fail "unexpected EOF".
Proof.
  revert k i acc v. induction fuel as [|fuel IH]; intros k i acc v Hv Hk; [simpl in Hk; lia|].
  cbn [leb128] in *. destruct k as [|k]; [done|].
  destruct (negb _); cbn [length take] in *; [|lia]. cbn [consume_from].
  rewrite land_127, land_128_more by (apply Z.mod_pos_bound; lia). cbn [Z.eqb].
  apply IH; [by apply Z.shiftr_nonneg|lia].
Qed.

Lemma consume_append v rest :
  0 <= v < 2 ^ 64 ->
  consumeLEB128 (appendLEB128 [] v ++ rest) = Ok (v, zlen (appendLEB128 [] v)).
Proof.
  intros Hv. unfold consumeLEB128, appendLEB128. rewrite !app_nil_l. rewrite consume_leb.
  - do 2 f_equal. change (2 ^ (7 * 0)) with 1. lia.
  - lia.
  - change (2 ^ (7 * 0)) with 1. lia.
  - lia.
  - apply Z.lt_le_trans with (2 ^ 64); [lia|]. by vm_compute.
  - lia.
  - change (2 ^ (7 * 0)) with 1. lia.
Qed.

Lemma leb128_length n v : 1 <= zlen (leb128 (S n) v) <= Z.of_nat (S n).
Proof.
  revert v. induction n as [|n IH]; intros v; cbn [leb128].
  - by destruct (negb _).
  - destruct (negb _); rewrite zlen_cons; [|rewrite zlen_nil; lia].
    specialize (IH (Z.shiftr v 7)). cbn [leb128] in IH. lia.
Qed.

(** LEB128: every 64-bit value is read back from its encoding, which takes at most
    ten bytes, and from no proper prefix of it. *)
Theorem leb128_roundtrip buf v rest k :
  0 <= v < 2 ^ 64 ->
  appendLEB128 buf v = buf ++ leb128 10 v /\ 1 <= zlen (leb128 10 v) <= 10 /\
  consumeLEB128 (appendLEB128 [] v ++ rest) = Ok (v, zlen (appendLEB128 [] v)) /\
  ((k < length (appendLEB128 [] v))%nat ->
   consumeLEB128 (take k (appendLEB128 [] v)) = Fail "unexpected EOF").
Proof.
  intros Hv. split; [done|]. split; [apply (leb128_length 9)|]. split; [by apply consume_append|].
  unfold consumeLEB128, appendLEB128. rewrite app_nil_l. apply consume_prefix. lia.
Qed.

Lemma first_byte x t k :
  0 <= x -> (t = Z.shiftl k 6) -> 0 <= k -> (x < 64 \/ k = 3) -> x < 256 ->
  Z.shiftr (Z.lor x t) 6 = k /\ Z.land (Z.lor x t) 0x3F = x mod 64.
Proof.
  intros Hx -> Hk Hor H256. rewrite Z.shiftr_lor, Z.shiftr_shiftl_l, Z.sub_diag, Z.shiftl_0_r by lia.
  rewrite Z.land_lor_distr_l, !land_63. split.
  - rewrite Z.shiftr_div_pow2 by lia. change (2 ^ 6) with 64.
    destruct Hor as [H| ->]; [by rewrite Z.div_small by lia|].
    pose proof (Z_div_mod_eq_full x 64). pose proof (Z.mod_pos_bound x 64 ltac:(lia)).
    assert (x / 64 = 0 \/ x / 64 = 1 \/ x / 64 = 2 \/ x / 64 = 3) as [->|[->|[->| ->]]] by lia; done.
  - rewrite Z.shiftl_mul_pow2 by lia. change (2 ^ 6) with 64. rewrite Z.mod_mul, Z.lor_0_r by lia. done.
Qed.

Lemma varint_bytes v m k :
  0 <= v -> 0 <= k < 4 -> S m = Nat.pow 2 (Z.to_nat k) ->
  (v / 256 ^ Z.of_nat m < 64 \/ k = 3) ->
  let b := Z.lor ((v / 256 ^ Z.of_nat m) mod 256) (Z.shiftl k 6) in
  is_byte b /\ varint_length b = S m /\ varint_value (b :: be_bytes m v) = v mod (64 * 256 ^ Z.of_nat m).
Proof.
  intros Hv Hk Hm Hor b. set (x := v / 256 ^ Z.of_nat m) in *.
  assert (0 <= x) by (apply Z.div_pos; lia).
  pose proof (Z.mod_pos_bound x 256 ltac:(lia)) as Bx.
  destruct (first_byte (x mod 256) (Z.shiftl k 6) k) as [E1 E2]; [lia|done|lia| |lia|].
  { destruct Hor as [H1|H1]; [left; rewrite Z.mod_small; lia|by right]. }
  fold b in E1, E2. split; [|split].
  - unfold is_byte. split; [apply Z.lor_nonneg; rewrite Z.shiftl_nonneg; lia|].
    rewrite Z.shiftr_div_pow2 in E1 by lia. change (2 ^ 6) with 64 in E1.
    pose proof (Z_div_mod_eq_full b 64). pose proof (Z.mod_pos_bound b 64 ltac:(lia)). lia.
  - unfold varint_length. by rewrite E1, Hm.
  - unfold varint_value. rewrite E2, be_val_be_bytes. unfold zlen. rewrite length_be_bytes.
    rewrite (Z.mul_comm 64), Z.rem_mul_r by lia. fold x.
    replace ((x mod 256) mod 64) with (x mod 64); [lia|].
    change 256 with (64 * 4). rewrite Z.rem_mul_r by lia.
    rewrite (Z.mul_comm 64), Z.mod_add, Z.mod_mod by lia. done.
Qed.

(** The variable-length integers are those of QUIC: the first byte tells their
    length, and they carry the value, modulo 2^62 for the values that do not fit. *)
Theorem varint_quic buf v :
  0 <= v < 2 ^ 64 ->
  exists b r, appendVarInt buf v = buf ++ b :: r /\ is_byte b /\
    varint_length b = length (b :: r) /\ varint_value (b :: r) = v mod 2 ^ 62.
Proof.
  intros Hv.
  assert (exists m k, 0 <= k < 4 /\ S m = Nat.pow 2 (Z.to_nat k) /\
    (v / 256 ^ Z.of_nat m < 64 \/ k = 3) /\ v mod (64 * 256 ^ Z.of_nat m) = v mod 2 ^ 62 /\
    appendVarInt buf v =
      buf ++ Z.lor ((v / 256 ^ Z.of_nat m) mod 256) (Z.shiftl k 6) :: be_bytes m v)
    as (m & k & Hk & Hm & Hor & Emod & ->).
  { assert (forall b, 0 <= v < b -> b <= 2 ^ 62 -> v mod b = v mod 2 ^ 62) as Hmod
      by (intros b H1 H2; rewrite !Z.mod_small; lia).
    unfold appendVarInt, byte_of, wrapu. rewrite !Z.shiftr_div_pow2 by lia.
    destruct (Z.leb_spec v 63); [|destruct (Z.leb_spec v 16383); [|destruct (Z.leb_spec v 1073741823)]].
    - exists 0%nat, 0. split; [lia|]. split; [done|]. change (256 ^ Z.of_nat 0) with 1.
      rewrite Z.div_1_r. split; [lia|]. split; [apply Hmod; lia|].
      change (Z.shiftl 0 6) with 0. by rewrite Z.lor_0_r.
    - exists 1%nat, 1. split; [lia|]. split; [done|]. change (256 ^ Z.of_nat 1) with 256.
      split; [left; apply Z.div_lt_upper_bound; lia|]. split; [apply Hmod; lia|].
      cbn [be_bytes]. by rewrite Z.div_1_r.
    - exists 3%nat, 2. split; [lia|]. split; [done|]. change (256 ^ Z.of_nat 3) with 16777216.
      split; [left; apply Z.div_lt_upper_bound; lia|]. split; [apply Hmod; lia|].
      cbn [be_bytes]. by rewrite Z.div_1_r.
    - exists 7%nat, 3. split; [lia|]. split; [done|]. split; [by right|]. split; [done|].
      cbn [be_bytes]. by rewrite Z.div_1_r. }
  destruct (varint_bytes v m k ltac:(lia) Hk Hm Hor) as (H1 & H2 & H3).
  eexists _, _. split; [reflexivity|]. split; [exact H1|]. split; [|by rewrite <- Emod].
  rewrite H2. simpl. by rewrite length_be_bytes.
Qed.

(** ** Datagrams *)

(** The frame of [Write], [Close], [Reset] and [sendRESET]. *)
Definition streamFrame (sid flag : Z) (data : bytes) : bytes := le_bytes 8 sid ++ [flag] ++ data.

(** The message of [sendDatagram]. *)
Definition sendDatagramMsg (remotePub payload : bytes) : bytes :=
  [frameClientToRelayDatagram] ++ remotePub ++ [0] ++ payload.

(** What [handleRecvDatagram] passes to [dispatchStreamFrame]. *)
Definition handleRecvDatagram (body : bytes) : option (bytes * Z * Z * bytes) :=
  if (length body <? 33)%nat then None
  else
    let src := take 32 body in
    let payload := drop 33 body in
    if (length payload <? 9)%nat then None
    else Some (src, le_val (take 8 payload), at_ payload 8, drop 9 payload).

(** What the relay makes of a message of the client [src].  The relay is not part of the
    program; the law is the layout of the frame RelayToClientDatagram, the one
    [handleRecvDatagram] reads: the key of the sender instead of the receiver's. *)
Class Relay := {
  relayed : bytes -> bytes -> bytes;
  relayed_datagram : forall src dst payload, length src = 32%nat -> length dst = 32%nat ->
    relayed src (sendDatagramMsg dst payload) = frameRelayToClientDatagram :: src ++ [0] ++ payload
}.

Lemma length_streamFrame sid flag data : length (streamFrame sid flag data) = (9 + length data)%nat.
Proof. unfold streamFrame. rewrite !length_app, length_le_bytes. simpl. lia. Qed.

Lemma handleRecv_streamFrame src sid flag data :
  length src = 32%nat -> 0 <= sid < 2 ^ 64 ->
  handleRecvDatagram (src ++ [0] ++ streamFrame sid flag data) = Some (src, sid, flag, data).
Proof.
  intros Ls Hsid. unfold handleRecvDatagram.
  assert (drop 33 (src ++ [0] ++ streamFrame sid flag data) = streamFrame sid flag data) as ->
    by (rewrite app_assoc; apply drop_app_length'; rewrite length_app, Ls; done).
  rewrite (take_app_length' src) by done. rewrite !length_app, Ls, length_streamFrame.
  destruct (Nat.ltb_spec (32 + (length [0] + (9 + length data))) 33); [lia|].
  destruct (Nat.ltb_spec (9 + length data) 9); [lia|].
  assert (take 8 (streamFrame sid flag data) = le_bytes 8 sid) as ->
    by (apply take_app_length'; by rewrite length_le_bytes).
  rewrite le_val_le_bytes_small by (change (256 ^ Z.of_nat 8) with (2 ^ 64); lia).
  assert (drop 9 (streamFrame sid flag data) = data) as ->
    by (unfold streamFrame; rewrite app_assoc; apply drop_app_length'; rewrite length_app, length_le_bytes; done).
  replace (at_ (streamFrame sid flag data) 8) with flag; [done|].
  unfold at_, streamFrame. by rewrite app_nth2, length_le_bytes by (rewrite length_le_bytes; lia).
Qed.

(** A relay that changes the type and the key. *)
#[refine] Definition example_relay : Relay :=
  {| relayed src msg := [frameRelayToClientDatagram] ++ src ++ drop 33 msg |}.
Proof.
  intros src dst payload _ Ld. unfold sendDatagramMsg. cbn [app skipn]. do 2 f_equal. by apply drop_app_length'.
Defined.

(** A stream frame sent as a datagram and passed on by the relay is received with
    the key of its sender, its stream number, flag and data; what is too short to be
    a stream frame is dropped. *)
Theorem datagram_roundtrip `{Relay} src dst sid flag data k :
  length src = 32%nat -> length dst = 32%nat -> 0 <= sid < 2 ^ 64 ->
  let body := drop 1 (relayed src (sendDatagramMsg dst (streamFrame sid flag data))) in
  handleRecvDatagram body = Some (src, sid, flag, data) /\
  ((k < 42)%nat -> handleRecvDatagram (take k body) = None).
Proof.
  intros Ls Ld Hsid body. unfold body. rewrite relayed_datagram by done. cbn [skipn].
  split; [by apply handleRecv_streamFrame|].
  intros Hk. unfold handleRecvDatagram. rewrite drop_0, length_drop, length_take.
  set (l := length _). 
  destruct (Nat.ltb_spec (k `min` l) 33); [done|].
  destruct (Nat.ltb_spec (k `min` l - 33) 9); [done|lia].
Qed.

(** ** The handshake

    [cap] is the capacity of the slice a message is read into, at least its length. *)
Section handshake.
Context (DeriveKey : string -> bytes -> bytes) (Sign : bytes -> bytes) (localPub : bytes).

Definition domainSepChallenge : string := "iroh-relay handshake v1 challenge signature".

Definition clientAuth (challenge : bytes) : bytes :=
  appendLEB128 ([hsClientAuth] ++ localPub) 64 ++ Sign (DeriveKey domainSepChallenge challenge).

(** [msg[lo:hi]] of a message in a buffer. *)
Definition slice_cap (buf : bytes) (lo hi : Z) : res bytes :=
  if (0 <=? lo) && (lo <=? hi) && (hi <=? zlen buf)
  then Ok (sub buf (Z.to_nat lo) (Z.to_nat (hi - lo))) else Panic.

(** [handshake] on what the server sends ([None]: the read fails) and on whether the
    answer could be written: what was sent, and the outcome.  [slack] is the rest of
    the buffer of the second message. *)
Definition handshake (msg1 : option bytes) (written : bool) (msg2 : option bytes) (slack : bytes)
  : list bytes * res unit :=
  match msg1 with
  | None => ([], Fail "read ServerChallenge")
  | Some msg =>
      if (length msg <? 17)%nat || negb (at_ msg 0 =? hsServerChallenge) then
        ([], match msg with [] => Panic | _ => Fail "expected ServerChallenge" end)
      else
        let auth := clientAuth (sub msg 1 16) in
        if negb written then ([], Fail "send ClientAuth")
        else ([auth],
          match msg2 with
          | None => Fail "read auth response"
          | Some [] => Fail "empty auth response"
          | Some (t :: body) =>
              if t =? hsServerConfirmsAuth then Ok tt
              else if t =? hsServerDeniesAuth then
                match consumeLEB128 body with
                | Ok (reasonLen, n) =>
                    let! reason := slice_cap (t :: body ++ slack) (1 + n) (wraps 64 (1 + n + wraps 64 reasonLen)) in
                    Fail "server denied auth"
                | Fail _ => Fail "parse denial"
                | Panic => Panic
                end
              else Fail "unexpected auth response type"
          end)
  end.

(** The handshake succeeds exactly when the server sends a challenge and then a
    confirmation, having sent the key, the length and the signature over the derived
    challenge; a server stops the program with an empty first message, or with a
    denial whose reason is longer than the message. *)
Theorem handshake_outcomes msg1 written msg2 slack sent r :
  handshake msg1 written msg2 slack = (sent, r) ->
  (r = Ok tt <->
   exists ch rest body, msg1 = Some (hsServerChallenge :: ch ++ rest) /\ length ch = 16%nat /\
     written = true /\ msg2 = Some (hsServerConfirmsAuth :: body)) /\
  (forall a, a ∈ sent -> exists ch rest,
     msg1 = Some (hsServerChallenge :: ch ++ rest) /\ length ch = 16%nat /\
     a = [hsClientAuth] ++ localPub ++ [64] ++ Sign (DeriveKey domainSepChallenge ch)) /\
  (msg1 = Some [] -> r = Panic) /\
  (forall ch rest reasonLen tl, msg1 = Some (hsServerChallenge :: ch ++ rest) -> length ch = 16%nat ->
     written = true -> msg2 = Some (hsServerDeniesAuth :: appendLEB128 [] reasonLen ++ tl) ->
     0 <= reasonLen < 2 ^ 31 -> zlen tl + zlen slack < reasonLen -> r = Panic).
Proof.
  intros E.
  assert (forall ch rest, msg1 = Some (hsServerChallenge :: ch ++ rest) -> length ch = 16%nat ->
    (length (hsServerChallenge :: ch ++ rest) <? 17)%nat ||
      negb (at_ (hsServerChallenge :: ch ++ rest) 0 =? hsServerChallenge) = false) as Hch.
  { intros ch rest _ L. simpl length. rewrite length_app, L.
    by destruct (Nat.ltb_spec (S (16 + length rest)) 17); [lia|]. }
  split; [split|split; [|split]].
  - intros ->. unfold handshake in E. destruct msg1 as [msg|]; [|done].
    destruct ((length msg <? 17)%nat || negb (at_ msg 0 =? hsServerChallenge)) eqn:G.
    { by destruct msg. }
    apply orb_false_iff in G as [G1 G2]. apply Nat.ltb_ge in G1.
    apply negb_false_iff, Z.eqb_eq in G2. destruct msg as [|c msg]; [simpl in G1; lia|].
    change (at_ (c :: msg) 0) with c in G2. subst c. simpl in G1.
    destruct written; [|done]. cbn [negb] in E. injection E as _ E.
    destruct msg2 as [[|t body]|]; [done| |done].
    destruct (Z.eqb_spec t hsServerConfirmsAuth) as [->|].
    + exists (take 16 msg), (drop 16 msg), body. rewrite take_drop, length_take.
      repeat split. lia.
    + destruct (_ =? _); [|done]. destruct (consumeLEB128 body) as [[? ?]| |]; [|done..].
      by apply rbind_Ok in E as (? & _ & ?).
  - intros (ch & rest & body & -> & L & -> & ->). unfold handshake in E.
    rewrite (Hch ch rest) in E by done. by injection E as _ <-.
  - intros a Ha. unfold handshake in E. destruct msg1 as [msg|]; [|injection E as <- _; set_solver].
    destruct ((length msg <? 17)%nat || negb (at_ msg 0 =? hsServerChallenge)) eqn:G.
    { injection E as <- _. set_solver. }
    apply orb_false_iff in G as [G1 G2]. apply Nat.ltb_ge in G1.
    apply negb_false_iff, Z.eqb_eq in G2. destruct msg as [|c msg]; [simpl in G1; lia|].
    change (at_ (c :: msg) 0) with c in G2. subst c. simpl in G1.
    destruct written; [|injection E as <- _; set_solver]. injection E as <- _.
    apply list_elem_of_singleton in Ha as ->.
    exists (take 16 msg), (drop 16 msg). rewrite take_drop, length_take.
    split; [done|]. split; [lia|]. unfold clientAuth, appendLEB128. by rewrite <- !app_assoc.
  - intros ->. by injection E as _ <-.
  - intros ch rest n tl -> L -> -> Hn Hlt. unfold handshake in E. rewrite (Hch ch rest) in E by done.
    cbn [negb] in E. injection E as _ <-.
    change (hsServerDeniesAuth =? hsServerConfirmsAuth) with false.
    change (hsServerDeniesAuth =? hsServerDeniesAuth) with true. cbn match.
    rewrite (consume_append n tl) by lia. pose proof (leb128_length 9 n) as B. cbn match.
    unfold slice_cap. change (appendLEB128 [] n) with (leb128 10 n) in *.
    set (z := zlen (leb128 10 n)) in *.
    rewrite (wraps_small 64 n), (wraps_small 64 (1 + z + n)) by lia.
    rewrite zlen_cons, !zlen_app. fold z. 
    destruct (Z.leb_spec (1 + z + n) (1 + (z + zlen tl + zlen slack))); [lia|].
    by rewrite andb_false_r.
Qed.
End handshake.

(** ** The theorems at concrete inputs *)
Lemma leb128_roundtrip_witness :
  consumeLEB128 (appendLEB128 [] 300) = Ok (300, 2) /\ consumeLEB128 [0xAC] = Fail "unexpected EOF".
Proof.
  destruct (leb128_roundtrip [] 300 [] 1 ltac:(lia)) as (_ & _ & H1 & H2).
  split; [exact H1|apply H2; vm_compute; lia].
Defined.

Lemma varint_quic_witness :
  exists b r, appendVarInt [] 15293 = b :: r /\ varint_value (b :: r) = 15293.
Proof.
  destruct (varint_quic [] 15293 ltac:(lia)) as (b & r & E & _ & _ & H). exists b, r. split; [exact E|exact H].
Defined.

Lemma datagram_roundtrip_witness :
  let R := example_relay in handleRecvDatagram (drop 1 (relayed (replicate 32 7)
    (sendDatagramMsg (replicate 32 8) (streamFrame 1001 flagDATA [1; 2])))) =
  Some (replicate 32 7, 1001, flagDATA, [1; 2]).
Proof. intros R. apply (datagram_roundtrip (replicate 32 7) (replicate 32 8) 1001 flagDATA [1; 2] 0); [reflexivity|reflexivity|lia]. Defined.

Definition toy_kdf (s : string) (b : bytes) : bytes := b.
Definition toy_sign (b : bytes) : bytes := replicate 64 (at_ b 0).

Lemma handshake_outcomes_witness :
  let challenge := replicate 16 5 in
  (handshake toy_kdf toy_sign (replicate 32 1) (Some (0 :: challenge ++ [])) true (Some [2]) []).2 = Ok tt /\
  (handshake toy_kdf toy_sign (replicate 32 1) (Some []) true None []).2 = Panic /\
  (handshake toy_kdf toy_sign (replicate 32 1) (Some (0 :: challenge ++ [])) true (Some [3; 9]) []).2 = Panic.
Proof.
  intros challenge. split; [|split].
  - destruct (handshake toy_kdf toy_sign (replicate 32 1) (Some (0 :: challenge ++ [])) true (Some [2]) []) as [s r] eqn:E.
    apply (handshake_outcomes _ _ _ _ _ _ _ _ _ E). by exists challenge, [], [].
  - destruct (handshake toy_kdf toy_sign (replicate 32 1) (Some []) true None []) as [s r] eqn:E.
    by apply (handshake_outcomes _ _ _ _ _ _ _ _ _ E).
  - destruct (handshake toy_kdf toy_sign (replicate 32 1) (Some (0 :: challenge ++ [])) true (Some [3; 9]) []) as [s r] eqn:E.
    destruct (handshake_outcomes _ _ _ _ _ _ _ _ _ E) as (_ & _ & _ & H).
    by apply (H challenge [] 9 []).
Defined.
