(* ===== verification/IrohRelay.v ===== *)
(** * The iroh relay client: streams over datagrams (src/p2put/irohrelay.go)

    A pool holds connections to relay servers and, for each peer, a manager of
    streams; a stream is an object shared by the manager's table, the accept queue
    and the program, so streams live in a store and are named by their index in it.
    Each operation is one atomic step (the code's locks are held over less; the
    goroutine that sends a reset runs at once). *)

From S2P Require Import Prelude GoLib GoNet IrohWire.

(** [bytes.Compare(a, b) < 0]. *)
Fixpoint bytes_lt (a b : bytes) : bool :=
  match a, b with
  | _, [] => false
  | [], _ => true
  | x :: a, y :: b => if x <? y then true else if y <? x then false else bytes_lt a b
  end.

Inductive IrohRelayState :=
  | IrohRelayDisconnected | IrohRelayConnecting | IrohRelayAuthenticating
  | IrohRelayAlive | IrohRelayReconnecting.

Definition state_string (s : IrohRelayState) : string :=
  match s with
  | IrohRelayDisconnected => "disconnected"
  | IrohRelayConnecting => "connecting"
  | IrohRelayAuthenticating => "authenticating"
  | IrohRelayAlive => "alive"
  | IrohRelayReconnecting => "reconnecting"
  end.

Definition is_alive (s : IrohRelayState) : bool :=
  match s with IrohRelayAlive => true | _ => false end.

(** ** Streams *)
Record IrohRelayStream := {
  st_id : Z; st_remote : bytes; rxBuf : bytes; closed : bool; reset : bool
}.

Definition newStream (id : Z) (remote : bytes) : IrohRelayStream :=
  {| st_id := id; st_remote := remote; rxBuf := []; closed := false; reset := false |}.

Definition set_rx (b : bytes) (s : IrohRelayStream) : IrohRelayStream :=
  {| st_id := st_id s; st_remote := st_remote s; rxBuf := b; closed := closed s; reset := reset s |}.
Definition set_closed (s : IrohRelayStream) : IrohRelayStream :=
  {| st_id := st_id s; st_remote := st_remote s; rxBuf := rxBuf s; closed := true; reset := reset s |}.
Definition set_reset (s : IrohRelayStream) : IrohRelayStream :=
  {| st_id := st_id s; st_remote := st_remote s; rxBuf := []; closed := closed s; reset := true |}.

(** [IrohRelayStream.dispatch]. *)
Definition dispatch (flags : Z) (data : bytes) (s : IrohRelayStream) : IrohRelayStream :=
  if flags =? flagRESET then set_reset s
  else if flags =? flagCLOSE then set_closed s
  else if flags =? flagDATA then set_rx (rxBuf s ++ data) s
  else s.

(** [Read] into a slice of [n] bytes; [Blocked]: it waits. *)
Inductive read_result := Blocked | Data (b : bytes) | EOF | ErrClosed.

Definition Read (n : nat) (s : IrohRelayStream) : read_result * IrohRelayStream :=
  match rxBuf s with
  | [] => if reset s then (ErrClosed, s) else if closed s then (EOF, s) else (Blocked, s)
  | b => (Data (take n b), set_rx (drop n b) s)
  end.

(** ** Managers, connections, the pool *)
Record peerStreamManager := {
  remotePub : bytes; oddBit : Z; nextID : Z; streams : gmap Z nat
}.

(** A connection as [sendTo] sees it: its state, its socket ([None]: closed, else
    whether a write succeeds) and the bytes counted. *)
Record rconn := { c_state : IrohRelayState; c_ws : option bool; c_tx : Z }.

Record IrohRelayPool := {
  localPub : bytes;
  pmap : gmap bytes peerStreamManager;
  heap : list IrohRelayStream;
  acceptCh : list nat;
  relays : gmap string rconn;
  wire : list (string * bytes);      (* what the sockets were given, in order *)
  ranges : nat                       (* how often [sendTo] has gone over [relays] *)
}.

Definition acceptCap : nat := 64.

Definition set_pmap v (p : IrohRelayPool) :=
  {| localPub := localPub p; pmap := v; heap := heap p; acceptCh := acceptCh p;
     relays := relays p; wire := wire p; ranges := ranges p |}.
Definition set_heap v (p : IrohRelayPool) :=
  {| localPub := localPub p; pmap := pmap p; heap := v; acceptCh := acceptCh p;
     relays := relays p; wire := wire p; ranges := ranges p |}.
Definition set_accept v (p : IrohRelayPool) :=
  {| localPub := localPub p; pmap := pmap p; heap := heap p; acceptCh := v;
     relays := relays p; wire := wire p; ranges := ranges p |}.
Definition set_relays v (p : IrohRelayPool) :=
  {| localPub := localPub p; pmap := pmap p; heap := heap p; acceptCh := acceptCh p;
     relays := v; wire := wire p; ranges := ranges p |}.
Definition set_wire v (p : IrohRelayPool) :=
  {| localPub := localPub p; pmap := pmap p; heap := heap p; acceptCh := acceptCh p;
     relays := relays p; wire := v; ranges := ranges p |}.
Definition set_ranges v (p : IrohRelayPool) :=
  {| localPub := localPub p; pmap := pmap p; heap := heap p; acceptCh := acceptCh p;
     relays := relays p; wire := wire p; ranges := v |}.

Definition set_streams v (m : peerStreamManager) :=
  {| remotePub := remotePub m; oddBit := oddBit m; nextID := nextID m; streams := v |}.

Definition NewIrohRelayPool (pub : bytes) : IrohRelayPool :=
  {| localPub := pub; pmap := ∅; heap := []; acceptCh := []; relays := ∅; wire := []; ranges := 0 |}.

Definition newPeerStreamManager (p : IrohRelayPool) (remote : bytes) : peerStreamManager :=
  {| remotePub := remote; oddBit := if bytes_lt (localPub p) remote then 1 else 0;
     nextID := streamIDBase; streams := ∅ |}.

(** [allocID]. *)
Definition allocID (m : peerStreamManager) : Z * peerStreamManager :=
  let next := wrapu 64 (nextID m + 2) in
  (Z.lor (wrapu 64 (next - 2)) (oddBit m),
   {| remotePub := remotePub m; oddBit := oddBit m; nextID := next; streams := streams m |}).

Section pool.
Context `{MapRange}.

(** [sendTo]: the first connection that is alive, in the order of the map, which is another
    one each time. *)
Fixpoint sendTo_in (l : list (string * rconn)) (remote frame : bytes) (p : IrohRelayPool)
  : option string * IrohRelayPool :=
  match l with
  | [] => (Some "no alive relay to send", p)
  | (url, c) :: l =>
      if negb (is_alive (c_state c)) then sendTo_in l remote frame p
      else match c_ws c with
      | None => (Some "ws closed", p)
      | Some false => (Some "write", p)
      | Some true =>
          (None, set_relays (<[url := {| c_state := c_state c; c_ws := c_ws c;
                                         c_tx := c_tx c + zlen frame |}]> (relays p))
                   (set_wire (wire p ++ [(url, sendDatagramMsg remote frame)]) p))
      end
  end.
Definition sendTo (remote frame : bytes) (p : IrohRelayPool) : option string * IrohRelayPool :=
  sendTo_in (range_map (2 + ranges p) (relays p)) remote frame (set_ranges (S (ranges p)) p).

Definition removeStream (remote : bytes) (sid : Z) (p : IrohRelayPool) : IrohRelayPool :=
  set_pmap (alter (fun m => set_streams (delete sid (streams m)) m) remote (pmap p)) p.

(** [Write]: one datagram per 64000 bytes; the bytes sent, the error. *)
Fixpoint Write (fuel : nat) (r : nat) (b : bytes) (p : IrohRelayPool) : Z * option string * IrohRelayPool :=
  match fuel, heap p !! r, b with
  | S fuel, Some s, _ :: _ =>
      let chunk := take (Z.to_nat maxDatagramPayload) b in
      match sendTo (st_remote s) (streamFrame (st_id s) flagDATA chunk) p with
      | (Some e, p) => (0, Some e, p)
      | (None, p) =>
          let '(n, e, p) := Write fuel r (drop (length chunk) b) p in (zlen chunk + n, e, p)
      end
  | _, _, _ => (0, None, p)
  end.

Definition Close (r : nat) (p : IrohRelayPool) : option string * IrohRelayPool :=
  match heap p !! r with
  | None => (None, p)
  | Some s =>
      if closed s then (Some "use of closed network connection", p)
      else
        let p := set_heap (alter set_closed r (heap p)) p in
        let p := (sendTo (st_remote s) (streamFrame (st_id s) flagCLOSE []) p).2 in
        (None, removeStream (st_remote s) (st_id s) p)
  end.

Definition Reset (r : nat) (p : IrohRelayPool) : IrohRelayPool :=
  match heap p !! r with
  | None => p
  | Some s =>
      let p := set_heap (alter set_reset r (heap p)) p in
      let p := (sendTo (st_remote s) (streamFrame (st_id s) flagRESET []) p).2 in
      removeStream (st_remote s) (st_id s) p
  end.

Definition sendRESET (remote : bytes) (sid : Z) (p : IrohRelayPool) : IrohRelayPool :=
  (sendTo remote (streamFrame sid flagRESET []) p).2.

(** The manager of a peer, made when there is none. *)
Definition manager (remote : bytes) (p : IrohRelayPool) : peerStreamManager :=
  default (newPeerStreamManager p remote) (pmap p !! remote).
Definition set_manager (remote : bytes) (m : peerStreamManager) (p : IrohRelayPool) : IrohRelayPool :=
  set_pmap (<[remote := m]> (pmap p)) p.

Definition OpenStream (remote : bytes) (p : IrohRelayPool) : nat * Z * IrohRelayPool :=
  let '(sid, m) := allocID (manager remote p) in
  let r := length (heap p) in
  (r, sid, set_manager remote (set_streams (<[sid := r]> (streams m)) m)
             (set_heap (heap p ++ [newStream sid remote]) p)).

Definition AcceptStream (p : IrohRelayPool) : option nat * IrohRelayPool :=
  match acceptCh p with
  | [] => (None, p)
  | r :: l => (Some r, set_accept l p)
  end.

(** [dispatchStreamFrame] with the manager's [dispatch]. *)
Definition dispatchStreamFrame (src : bytes) (sid flags : Z) (data : bytes) (p : IrohRelayPool) : IrohRelayPool :=
  let m := manager src p in
  let p := set_manager src m p in
  match streams m !! sid with
  | Some r => set_heap (alter (dispatch flags data) r (heap p)) p
  | None =>
      if negb (flags =? flagDATA) then p
      else
        let r := length (heap p) in
        let p := set_heap (heap p ++ [newStream sid src]) p in
        if (length (acceptCh p) <? acceptCap)%nat
        then set_accept (acceptCh p ++ [r])
               (set_manager src (set_streams (<[sid := r]> (streams m)) m) p)
        else sendRESET src sid p
  end.

Definition peerGone (pubkey : bytes) (p : IrohRelayPool) : IrohRelayPool :=
  match pmap p !! pubkey with
  | None => p
  | Some m =>
      let p := set_pmap (delete pubkey (pmap p)) p in
      set_heap (foldl (fun h e => alter (dispatch flagRESET []) e.2 h) (heap p) (range_map 1 (streams m))) p
  end.

Definition AddRelay (url : string) (c : rconn) (p : IrohRelayPool) : res IrohRelayPool :=
  match relays p !! url with
  | Some _ => Fail "already added"
  | None => Ok (set_relays (<[url := c]> (relays p)) p)
  end.
Definition RemoveRelay (url : string) (p : IrohRelayPool) : IrohRelayPool :=
  set_relays (delete url (relays p)) p.

(** A message from a relay, as [readLoop] handles the frames that concern streams. *)
Definition recvFrame (msg : bytes) (p : IrohRelayPool) : IrohRelayPool :=
  match msg with
  | [] => p
  | t :: body =>
      if (t =? frameRelayToClientDatagram) || (t =? frameRelayToClientDatagramBatch) then
        match handleRecvDatagram body with
        | Some (src, sid, flags, data) => dispatchStreamFrame src sid flags data p
        | None => p
        end
      else if t =? frameEndpointGone then
        if (32 <=? length body)%nat then peerGone (take 32 body) p else p
      else p
  end.

(** ** The steps *)
Inductive op :=
  | OOpen (remote : bytes) | OAccept | ORead (r n : nat) | OWrite (r : nat) (b : bytes)
  | OClose (r : nat) | OReset (r : nat) | ORecv (msg : bytes)
  | OAddRelay (url : string) (c : rconn) | ORemoveRelay (url : string)
  | ORelay (url : string) (c : rconn).   (* a connection changes its state *)

Definition step (o : op) (p : IrohRelayPool) : IrohRelayPool :=
  match o with
  | OOpen remote => (OpenStream remote p).2
  | OAccept => (AcceptStream p).2
  | ORead r n => set_heap (alter (fun s => (Read n s).2) r (heap p)) p
  | OWrite r b => (Write (length b) r b p).2
  | OClose r => (Close r p).2
  | OReset r => Reset r p
  | ORecv msg => recvFrame msg p
  | OAddRelay url c => match AddRelay url c p with Ok p => p | _ => p end
  | ORemoveRelay url => RemoveRelay url p
  | ORelay url c => set_relays (alter (fun _ => c) url (relays p)) p
  end.

Definition run (l : list op) (p : IrohRelayPool) : IrohRelayPool := foldl (fun p o => step o p) p l.

(** ** Well-formed pools *)
Definition odd_bit (local remote : bytes) : Z := if bytes_lt local remote then 1 else 0.

(** The object [r] is the stream [sid] of [remote]. *)
Definition names (h : list IrohRelayStream) (r : nat) (remote : bytes) (sid : Z) : Prop :=
  exists s, h !! r = Some s /\ st_id s = sid /\ st_remote s = remote.

Record wf_manager (local : bytes) (h : list IrohRelayStream) (remote : bytes) (m : peerStreamManager) : Prop := {
  wm_remote : remotePub m = remote;
  wm_odd : oddBit m = odd_bit local remote;
  wm_next : 0 <= nextID m < 2 ^ 64 /\ nextID m mod 2 = 0;
  wm_streams : forall sid r, streams m !! sid = Some r -> names h r remote sid
}.

Record wf (p : IrohRelayPool) : Prop := {
  wf_managers : forall remote m, pmap p !! remote = Some m -> wf_manager (localPub p) (heap p) remote m;
  wf_accept : Forall (fun r => (r < length (heap p))%nat) (acceptCh p)
}.

(** The objects of [h] are still there in [h'], under their names. *)
Definition kept (h h' : list IrohRelayStream) : Prop :=
  (length h <= length h')%nat /\ forall r remote sid, names h r remote sid -> names h' r remote sid.

Lemma kept_refl h : kept h h.
Proof. by split. Qed.
Lemma kept_trans h1 h2 h3 : kept h1 h2 -> kept h2 h3 -> kept h1 h3.
Proof. intros [H1 H2] [H3 H4]. split; [lia|auto]. Qed.

Lemma kept_alter (f : IrohRelayStream -> IrohRelayStream) r h :
  (forall s, st_id (f s) = st_id s /\ st_remote (f s) = st_remote s) -> kept h (alter f r h).
Proof.
  intros Hf. split; [by rewrite length_alter|]. intros r' remote sid (s & Hs & <- & <-).
  destruct (decide (r = r')) as [<-|Hne].
  - exists (f s). rewrite list_lookup_alter_eq, Hs. by destruct (Hf s).
  - exists s. by rewrite list_lookup_alter_ne.
Qed.

Lemma kept_snoc h s : kept h (h ++ [s]).
Proof.
  split; [rewrite length_app; lia|]. intros r remote sid (s' & Hs & ? & ?).
  exists s'. by rewrite (lookup_app_l_Some _ _ _ _ Hs).
Qed.

Lemma dispatch_names flags data s :
  st_id (dispatch flags data s) = st_id s /\ st_remote (dispatch flags data s) = st_remote s.
Proof. unfold dispatch. by repeat case_match. Qed.
Lemma Read_names n s : st_id (Read n s).2 = st_id s /\ st_remote (Read n s).2 = st_remote s.
Proof. unfold Read. by repeat case_match. Qed.

Lemma wf_manager_kept local h h' remote m :
  kept h h' -> wf_manager local h remote m -> wf_manager local h' remote m.
Proof. intros [_ Hk] [H1 H2 H3 H4]. split; auto. Qed.

Lemma wf_set_heap h p : kept (heap p) h -> wf p -> wf (set_heap h p).
Proof.
  intros Hk [H1 H2]. split; cbn [set_heap pmap localPub heap acceptCh].
  - intros remote m Hm. eapply wf_manager_kept; eauto.
  - eapply Forall_impl; [exact H2|]. simpl. destruct Hk as [Hl _]. lia.
Qed.

(** What [sendTo] changes. *)
Definition same_streams (p q : IrohRelayPool) : Prop :=
  localPub q = localPub p /\ pmap q = pmap p /\ heap q = heap p /\ acceptCh q = acceptCh p.

Lemma same_streams_trans p q s : same_streams p q -> same_streams q s -> same_streams p s.
Proof. unfold same_streams. intuition congruence. Qed.

Lemma wf_same p q : same_streams p q -> wf p -> wf q.
Proof. intros (E1 & E2 & E3 & E4) [H1 H2]. split; rewrite ?E1, ?E2, ?E3, ?E4; auto. Qed.

Lemma sendTo_same remote frame p : same_streams p (sendTo remote frame p).2.
Proof.
  unfold sendTo. induction (range_map (2 + ranges p) (relays p)) as [|[url c] l IH]; [done|]. cbn [sendTo_in].
  destruct (negb _); [done|]. by destruct (c_ws c) as [[]|].
Qed.

Lemma Write_same fuel r b p : same_streams p (Write fuel r b p).2.
Proof.
  revert b p. induction fuel as [|fuel IH]; intros b p; [done|]. cbn [Write].
  destruct (heap p !! r) as [s|]; [|done]. destruct b as [|x b]; [done|].
  pose proof (sendTo_same (st_remote s)
    (streamFrame (st_id s) flagDATA (take (Z.to_nat maxDatagramPayload) (x :: b))) p) as Hs.
  destruct (sendTo _ _ p) as [[e|] q]; [done|].
  specialize (IH (drop (length (take (Z.to_nat maxDatagramPayload) (x :: b))) (x :: b)) q).
  destruct (Write fuel r _ q) as [[n e] q']. by eapply same_streams_trans.
Qed.

Lemma wf_removeStream remote sid p : wf p -> wf (removeStream remote sid p).
Proof.
  intros [H1 H2]. split; [|done]. intros k m. cbn [removeStream set_pmap pmap localPub heap].
  destruct (decide (remote = k)) as [<-|Hne]; [|rewrite lookup_alter_ne by done; apply H1].
  rewrite lookup_alter_eq. destruct (pmap p !! remote) as [m0|] eqn:E; [|done]. intros [= <-].
  destruct (H1 _ _ E) as [A1 A2 A3 A4]. split; [done..|].
  cbn [set_streams streams]. intros s r [_ Hs]%lookup_delete_Some. by apply A4.
Qed.

Lemma wf_new_manager remote p : wf_manager (localPub p) (heap p) remote (newPeerStreamManager p remote).
Proof. split; [done|done|by vm_compute|]. intros sid r Hr. cbn in Hr. by rewrite lookup_empty in Hr. Qed.

Lemma wf_manager_of remote p : wf p -> wf_manager (localPub p) (heap p) remote (manager remote p).
Proof.
  intros [H1 _]. unfold manager. destruct (pmap p !! remote) as [m|] eqn:E; [by apply H1|].
  apply wf_new_manager.
Qed.

Lemma wf_set_manager remote m p :
  wf p -> wf_manager (localPub p) (heap p) remote m -> wf (set_manager remote m p).
Proof.
  intros [H1 H2] Hm. split; [|done]. intros k m'. cbn [set_manager set_pmap pmap localPub heap].
  destruct (decide (remote = k)) as [<-|Hne].
  - rewrite lookup_insert_eq. by intros [= <-].
  - rewrite lookup_insert_ne by done. apply H1.
Qed.

Lemma names_last h s : names (h ++ [s]) (length h) (st_remote s) (st_id s).
Proof. exists s. split; [|done]. by rewrite lookup_app_r, Nat.sub_diag by lia. Qed.

Lemma wf_add_stream local h remote m sid s :
  wf_manager local h remote m -> st_id s = sid -> st_remote s = remote ->
  wf_manager local (h ++ [s]) remote (set_streams (<[sid := length h]> (streams m)) m).
Proof.
  intros [A1 A2 A3 A4] <- <-. split; [done..|]. cbn [set_streams streams].
  intros x r. destruct (decide (st_id s = x)) as [<-|Hne].
  - rewrite lookup_insert_eq. intros [= <-]. apply names_last.
  - rewrite lookup_insert_ne by done. intros Hr. apply kept_snoc. by apply A4.
Qed.

Lemma wf_allocID local h remote m :
  wf_manager local h remote m -> wf_manager local h remote (allocID m).2.
Proof.
  intros [A1 A2 [A3 A5] A4]. split; [done|done| |done]. cbn [allocID snd nextID].
  split; [apply wrapu_range; lia|]. unfold wrapu.
  rewrite <- (Z.add_0_l (_ mod 2 ^ 64)) at 1. rewrite Z.add_0_l.
  replace (2 ^ 64) with (2 * 2 ^ 63) by lia.
  rewrite Z.rem_mul_r by lia. rewrite (Z.mul_comm 2), Z.mod_add, Z.mod_mod by lia.
  rewrite Z.add_mod, A5 by lia. done.
Qed.

Lemma wf_OpenStream remote p : wf p -> wf (OpenStream remote p).2.
Proof.
  intros Hw. unfold OpenStream.
  pose proof (wf_allocID _ _ _ _ (wf_manager_of remote p Hw)) as Hm.
  destruct (allocID (manager remote p)) as [sid m] eqn:E. cbn [snd] in *.
  apply wf_set_manager; [apply wf_set_heap; [apply kept_snoc|done]|].
  cbn [set_heap localPub heap]. by apply wf_add_stream.
Qed.

Lemma wf_dispatch src sid flags data p : wf p -> wf (dispatchStreamFrame src sid flags data p).
Proof.
  intros Hw. unfold dispatchStreamFrame. pose proof (wf_manager_of src p Hw) as Hm.
  set (m := manager src p) in *. pose proof (wf_set_manager src m p Hw Hm) as Hw1.
  set (p1 := set_manager src m p) in *.
  destruct (streams m !! sid) as [r|].
  - apply wf_set_heap; [|done]. apply kept_alter. intros s. apply dispatch_names.
  - destruct (negb _); [done|].
    assert (wf (set_heap (heap p1 ++ [newStream sid src]) p1)) as Hw2
      by (apply wf_set_heap; [apply kept_snoc|done]).
    case_match.
    + assert (wf (set_manager src (set_streams (<[sid := length (heap p1)]> (streams m)) m)
                   (set_heap (heap p1 ++ [newStream sid src]) p1))) as [H1 H2]
        by (apply wf_set_manager; [done|]; by apply wf_add_stream).
      split; [exact H1|]. cbn [set_accept acceptCh heap set_manager set_pmap set_heap] in *.
      apply Forall_app. split; [done|]. constructor; [|constructor]. rewrite length_app. simpl. lia.
    + eapply wf_same; [apply sendTo_same|done].
Qed.

Lemma kept_reset_all l h : kept h (foldl (fun h e => alter (dispatch flagRESET []) (e : Z * nat).2 h) h l).
Proof.
  revert h. induction l as [|e l IH]; intros h; cbn [foldl]; [apply kept_refl|].
  eapply kept_trans; [|apply IH]. apply kept_alter. intros s. apply dispatch_names.
Qed.

Lemma wf_peerGone k p : wf p -> wf (peerGone k p).
Proof.
  intros Hw. unfold peerGone. destruct (pmap p !! k) as [m|]; [|done].
  apply wf_set_heap; [apply kept_reset_all|]. destruct Hw as [H1 H2]. split; [|done].
  intros k' m'. cbn [set_pmap pmap]. intros [_ Hk]%lookup_delete_Some. by apply H1.
Qed.

Lemma wf_step o p : wf p -> wf (step o p).
Proof.
  intros Hw. destruct o; cbn [step].
  - by apply wf_OpenStream.
  - unfold AcceptStream. destruct Hw as [H1 H2]. destruct (acceptCh p) as [|r l] eqn:E; [split; [exact H1|cbn [snd]; rewrite E; constructor]|].
    split; [done|]. by apply Forall_cons_1 in H2 as [_ H2].
  - apply wf_set_heap; [|done]. apply kept_alter. intros s. apply Read_names.
  - eapply wf_same; [apply Write_same|done].
  - unfold Close. destruct (heap p !! r) as [s|]; [|done]. destruct (closed s); [done|]. cbn [snd].
    apply wf_removeStream. eapply wf_same; [apply sendTo_same|].
    apply wf_set_heap; [|done]. by apply kept_alter.
  - unfold Reset. destruct (heap p !! r) as [s|]; [|done].
    apply wf_removeStream. eapply wf_same; [apply sendTo_same|].
    apply wf_set_heap; [|done]. by apply kept_alter.
  - unfold recvFrame. destruct msg as [|t body]; [done|]. destruct (_ || _).
    + destruct (handleRecvDatagram body) as [[[[src sid] fl] data]|]; [by apply wf_dispatch|done].
    + destruct (_ =? _); [|done]. destruct (_ <=? _)%nat; [by apply wf_peerGone|done].
  - unfold AddRelay. destruct (relays p !! url); [done|]. eapply wf_same; [|exact Hw]; done.
  - eapply wf_same; [|exact Hw]; done.
  - eapply wf_same; [|exact Hw]; done.
Qed.

Lemma wf_new pub : wf (NewIrohRelayPool pub).
Proof. split; [|by constructor]. intros k m Hm. cbn in Hm. by rewrite lookup_empty in Hm. Qed.

Lemma wf_run l p : wf p -> wf (run l p).
Proof. revert p. induction l as [|o l IH]; intros p Hw; [done|]. apply IH. by apply wf_step. Qed.

Lemma step_local o p : localPub (step o p) = localPub p.
Proof.
  assert (forall remote frame q, localPub (sendTo remote frame q).2 = localPub q) as Hs
    by (intros remote frame q; apply sendTo_same).
  destruct o; cbn [step]; try done.
  - unfold AcceptStream. by destruct (acceptCh p).
  - apply Write_same.
  - unfold Close. destruct (heap p !! r) as [s|]; [|done]. destruct (closed s); [done|].
    cbn [snd removeStream set_pmap localPub]. by rewrite Hs.
  - unfold Reset. destruct (heap p !! r) as [s|]; [|done].
    cbn [removeStream set_pmap localPub]. by rewrite Hs.
  - unfold recvFrame. destruct msg as [|t body]; [done|]. destruct (_ || _).
    + destruct (handleRecvDatagram body) as [[[[src sid] fl] data]|]; [|done].
      unfold dispatchStreamFrame. destruct (streams (manager src p) !! sid); [done|].
      destruct (negb _); [done|]. case_match; [done|]. unfold sendRESET. by rewrite Hs.
    + destruct (_ =? _); [|done]. destruct (_ <=? _)%nat; [|done].
      unfold peerGone. by destruct (pmap p !! _).
  - unfold AddRelay. by destruct (relays p !! url).
Qed.

Lemma run_local l p : localPub (run l p) = localPub p.
Proof. revert p. induction l as [|o l IH]; intros p; [done|]. cbn [run foldl]. rewrite <- (step_local o p). apply IH. Qed.

(** However streams are opened, used and closed and whatever the relays send, every
    entry of a peer's table is the stream of that number with that peer, every queued
    stream exists, and the table of a peer numbers the local streams with the parity
    the two keys determine. *)
Theorem iroh_run_wf pub l :
  let p := run l (NewIrohRelayPool pub) in
  localPub p = pub /\
  (forall remote m sid r, pmap p !! remote = Some m -> streams m !! sid = Some r ->
     exists s, heap p !! r = Some s /\ st_id s = sid /\ st_remote s = remote) /\
  (forall r, r ∈ acceptCh p -> is_Some (heap p !! r)) /\
  (forall remote m, pmap p !! remote = Some m ->
     oddBit m = odd_bit pub remote /\ nextID m mod 2 = 0).
Proof.
  intros p. pose proof (wf_run l _ (wf_new pub)) as [H1 H2]. fold p in H1, H2.
  pose proof (run_local l (NewIrohRelayPool pub)) as El. fold p in El. cbn [NewIrohRelayPool localPub] in El.
  split; [done|]. rewrite El in H1. split; [|split].
  - intros remote m sid r Hm Hr. by apply (wm_streams _ _ _ _ (H1 _ _ Hm)).
  - intros r Hr. rewrite Forall_forall in H2. apply lookup_lt_is_Some. by apply H2.
  - intros remote m Hm. split; [by apply (wm_odd _ _ _ _ (H1 _ _ Hm))|by apply (wm_next _ _ _ _ (H1 _ _ Hm))].
Qed.

(** ** Stream numbers *)

(** The numbers given out for streams to [remote] in a run, the latest first. *)
Definition given (remote : bytes) (o : op) (p : IrohRelayPool) : list Z :=
  match o with
  | OOpen k => if decide (k = remote) then [(OpenStream k p).1.2] else []
  | _ => []
  end.

Fixpoint given_run (remote : bytes) (l : list op) (p : IrohRelayPool) (h : list Z) : list Z :=
  match l with [] => h | o :: l => given_run remote l (step o p) (given remote o p ++ h) end.

(** The message with which a relay reports that [remote] is gone. *)
Definition gone_msg (remote msg : bytes) : Prop :=
  match msg with
  | t :: body => t = frameEndpointGone /\ (32 <= length body)%nat /\ take 32 body = remote
  | [] => False
  end.

(** A peer that follows the protocol sends on a number of our parity only after it was
    given out, [h] being those given out so far.  The counter is far from wrapping, and no
    relay reports the peer as gone. *)
Definition honest (remote : bytes) (h : list Z) (o : op) (p : IrohRelayPool) : Prop :=
  match o with
  | OOpen k => k = remote -> nextID (manager remote p) < 2 ^ 63
  | ORecv msg => ~ gone_msg remote msg /\
      forall t body sid fl data, msg = t :: body -> handleRecvDatagram body = Some (remote, sid, fl, data) ->
        sid mod 2 = odd_bit (localPub p) remote -> sid ∈ h
  | _ => True
  end.

Fixpoint honest_run (remote : bytes) (l : list op) (p : IrohRelayPool) (h : list Z) : Prop :=
  match l with
  | [] => True
  | o :: l => honest remote h o p /\ honest_run remote l (step o p) (given remote o p ++ h)
  end.

(** The counter is beyond the numbers given out and those of our parity in use. *)
Record numbered (remote : bytes) (h : list Z) (m : peerStreamManager) : Prop := {
  nb_base : streamIDBase <= nextID m;
  nb_given : forall sid, sid ∈ h -> sid < nextID m;
  nb_used : forall sid r, streams m !! sid = Some r -> sid mod 2 = oddBit m -> sid < nextID m
}.

Lemma odd_bit_01 a b : odd_bit a b = 0 \/ odd_bit a b = 1.
Proof. unfold odd_bit. destruct (bytes_lt a b); auto. Qed.

Lemma allocID_spec local h remote m :
  wf_manager local h remote m -> nextID m < 2 ^ 63 ->
  (allocID m).1 = nextID m + odd_bit local remote /\ nextID (allocID m).2 = nextID m + 2.
Proof.
  intros [_ Ho [Hn He] _] Hlt. cbn [allocID fst snd nextID]. rewrite Ho.
  rewrite (wrapu_small 64 (nextID m + 2)) by lia.
  replace (nextID m + 2 - 2) with (nextID m) by lia. rewrite wrapu_small by lia. split; [|done].
  replace (nextID m) with (Z.shiftl (nextID m / 2) 1)
    by (rewrite Z.shiftl_mul_pow2 by lia; pose proof (Z_div_mod_eq_full (nextID m) 2); lia).
  rewrite Z.lor_comm, lor_shiftl_add, Z.shiftl_mul_pow2 by (destruct (odd_bit_01 local remote); lia). lia.
Qed.

Lemma manager_same p q remote : pmap q = pmap p -> localPub q = localPub p -> manager remote q = manager remote p.
Proof. intros E1 E2. unfold manager, newPeerStreamManager. by rewrite E1, E2. Qed.

Lemma manager_same_streams p q remote : same_streams p q -> manager remote q = manager remote p.
Proof. intros (E1 & E2 & _). by apply manager_same. Qed.

Lemma manager_set remote m p : manager remote (set_manager remote m p) = m.
Proof. unfold manager, set_manager, set_pmap. simpl. by rewrite lookup_insert_eq. Qed.

Lemma manager_set_ne remote k m p : k <> remote -> manager remote (set_manager k m p) = manager remote p.
Proof. intros Hne. unfold manager, set_manager, set_pmap. simpl. by rewrite lookup_insert_ne. Qed.

Lemma numbered_fewer remote h m m' :
  nextID m' = nextID m -> oddBit m' = oddBit m -> (forall sid r, streams m' !! sid = Some r -> streams m !! sid = Some r) ->
  numbered remote h m -> numbered remote h m'.
Proof. intros E1 E2 E3 [H1 H2 H3]. split; rewrite ?E1, ?E2; eauto. Qed.

Lemma numbered_removeStream remote k sid h p :
  numbered remote h (manager remote p) -> numbered remote h (manager remote (removeStream k sid p)).
Proof.
  unfold manager, removeStream, set_pmap. cbn [pmap]. destruct (decide (k = remote)) as [->|Hne]; [|by rewrite lookup_alter_ne].
  rewrite lookup_alter_eq. destruct (pmap p !! remote) as [m|]; [|done]. cbn [fmap option_fmap option_map default id].
  apply numbered_fewer; [done|done|]. cbn [set_streams streams]. by intros x r [_ Hr]%lookup_delete_Some.
Qed.

Lemma numbered_dispatch remote src sid fl data h p :
  numbered remote h (manager remote p) ->
  (src = remote -> sid mod 2 = oddBit (manager remote p) -> sid < nextID (manager remote p)) ->
  numbered remote h (manager remote (dispatchStreamFrame src sid fl data p)).
Proof.
  intros Hn Hs. unfold dispatchStreamFrame. set (m := manager src p) in *.
  assert (numbered remote h (manager remote (set_manager src m p))) as Hn1.
  { destruct (decide (src = remote)) as [->|Hne]; [by rewrite manager_set|by rewrite manager_set_ne]. }
  destruct (streams m !! sid) as [r|]; [done|]. destruct (negb _); [done|]. case_match.
  - set (p1 := set_heap _ _). change (manager remote (set_accept ?l ?q)) with (manager remote q).
    destruct (decide (src = remote)) as [->|Hne]; [|rewrite manager_set_ne by done; exact Hn1].
    rewrite manager_set. destruct Hn as [H1 H2 H3]. fold m in H1, H2, H3, Hs. split; cbn [set_streams streams oddBit nextID]; [done|done|].
    intros x r'. destruct (decide (sid = x)) as [<-|Hne]; [auto|]. rewrite lookup_insert_ne by done. apply H3.
  - unfold sendRESET. rewrite (manager_same_streams _ _ remote (sendTo_same _ _ _)). exact Hn1.
Qed.

Lemma numbered_peerGone remote k h p : k <> remote ->
  numbered remote h (manager remote p) -> numbered remote h (manager remote (peerGone k p)).
Proof.
  intros Hne Hn. unfold peerGone. destruct (pmap p !! k) as [m|]; [|done].
  unfold manager in *. cbn [set_heap set_pmap pmap]. by rewrite lookup_delete_ne.
Qed.

Lemma numbered_open remote h p : wf p -> nextID (manager remote p) < 2 ^ 63 -> numbered remote h (manager remote p) ->
  numbered remote ((OpenStream remote p).1.2 :: h) (manager remote (OpenStream remote p).2).
Proof.
  intros Hw Hlt [H1 H2 H3]. unfold OpenStream.
  pose proof (allocID_spec _ _ _ _ (wf_manager_of remote p Hw) Hlt) as [E1 E2]. set (m := manager remote p) in *.
  assert (streams (allocID m).2 = streams m /\ oddBit (allocID m).2 = oddBit m) as [E3 E4] by done.
  destruct (allocID m) as [sid m1]. cbn [fst snd] in *. rewrite manager_set.
  assert (sid < nextID m + 2) as Hsid by (destruct (odd_bit_01 (localPub p) remote); lia).
  split; cbn [set_streams streams oddBit nextID]; rewrite ?E2; [lia| |].
  - intros x [->|Hx]%elem_of_cons; [done|]. specialize (H2 _ Hx). lia.
  - intros x r. rewrite E3, E4. destruct (decide (sid = x)) as [<-|Hne]; [done|].
    rewrite lookup_insert_ne by done. intros Hr Hx. specialize (H3 _ _ Hr Hx). lia.
Qed.

Lemma numbered_recv remote h msg p : wf p -> honest remote h (ORecv msg) p ->
  numbered remote h (manager remote p) -> numbered remote h (manager remote (recvFrame msg p)).
Proof.
  intros Hw [Hg Hd] Hn. unfold recvFrame. destruct msg as [|t body]; [done|].
  destruct (_ || _).
  - destruct (handleRecvDatagram body) as [[[[src sid] fl] data]|] eqn:Er; [|done].
    apply numbered_dispatch; [done|]. intros -> Hs. rewrite (wm_odd _ _ _ _ (wf_manager_of remote p Hw)) in Hs.
    eapply (nb_given _ _ _ Hn), Hd; [done|exact Er|done].
  - destruct (Z.eqb_spec t frameEndpointGone) as [->|]; [|done]. destruct (Nat.leb_spec 32 (length body)); [|done].
    apply numbered_peerGone; [|done]. intros Ek. by apply Hg.
Qed.

Lemma numbered_step remote o h p : wf p -> honest remote h o p ->
  numbered remote h (manager remote p) -> numbered remote (given remote o p ++ h) (manager remote (step o p)).
Proof.
  intros Hw Ho Hn. destruct o; cbn [step given] in *; try exact Hn.
  - case_decide as Ek; [subst remote0; by apply numbered_open; [done|apply Ho|]|].
    unfold OpenStream. destruct (allocID _) as [sid m]. cbn [snd]. by rewrite manager_set_ne.
  - unfold AcceptStream. by destruct (acceptCh p).
  - cbn [app]. by rewrite (manager_same_streams _ _ remote (Write_same _ _ _ _)).
  - unfold Close. destruct (heap p !! r) as [s|]; [|done]. destruct (closed s); [done|].
    apply numbered_removeStream. by rewrite (manager_same_streams _ _ remote (sendTo_same _ _ _)).
  - unfold Reset. destruct (heap p !! r) as [s|]; [|done].
    apply numbered_removeStream. by rewrite (manager_same_streams _ _ remote (sendTo_same _ _ _)).
  - by apply numbered_recv.
  - unfold AddRelay. by destruct (relays p !! url).
Qed.

Lemma numbered_run remote l h p : wf p -> honest_run remote l p h ->
  numbered remote h (manager remote p) -> numbered remote (given_run remote l p h) (manager remote (run l p)).
Proof.
  revert p h. induction l as [|o l IH]; intros p h Hw Hh Hn; [done|]. destruct Hh as [Ho Hh].
  cbn [run foldl given_run]. apply IH; [by apply wf_step|done|by apply numbered_step].
Qed.

Lemma bytes_lt_antisym a b : bytes_lt a b = true -> bytes_lt b a = true -> False.
Proof.
  revert b. induction a as [|x a IH]; intros [|y b]; simpl; try discriminate.
  destruct (Z.ltb_spec x y), (Z.ltb_spec y x); try lia; try discriminate. apply IH.
Qed.
Lemma bytes_lt_total a b : bytes_lt a b = false -> bytes_lt b a = false -> a = b.
Proof.
  revert b. induction a as [|x a IH]; intros [|y b]; simpl; try discriminate; [done|].
  destruct (Z.ltb_spec x y), (Z.ltb_spec y x); try lia; try discriminate.
  intros E1 E2. f_equal; [lia|by apply IH].
Qed.

Lemma odd_bit_other a b : a <> b -> odd_bit a b + odd_bit b a = 1.
Proof.
  intros Hne. unfold odd_bit.
  destruct (bytes_lt a b) eqn:E1, (bytes_lt b a) eqn:E2; try done.
  - exfalso. by eapply bytes_lt_antisym.
  - exfalso. apply Hne. by apply bytes_lt_total.
Qed.

(** The number, and the entry, of a new stream. *)
Lemma OpenStream_number remote p : wf p -> nextID (manager remote p) < 2 ^ 63 ->
  let sid := (OpenStream remote p).1.2 in
  sid = nextID (manager remote p) + odd_bit (localPub p) remote /\ sid mod 2 = odd_bit (localPub p) remote.
Proof.
  intros Hw Hn. pose proof (wf_manager_of remote p Hw) as Hm.
  pose proof (allocID_spec _ _ _ _ Hm Hn) as [E1 _]. pose proof (wm_next _ _ _ _ Hm) as [_ Hev].
  unfold OpenStream. destruct (allocID (manager remote p)) as [sid m1]. cbn [fst snd] in *. split; [done|].
  rewrite E1, Z.add_mod, Hev, Z.add_0_l, Z.mod_mod by lia.
  apply Z.mod_small. destruct (odd_bit_01 (localPub p) remote); lia.
Qed.

Lemma OpenStream_entry remote p : let '(r, sid, q) := OpenStream remote p in
  r = length (heap p) /\ heap q !! r = Some (newStream sid remote) /\ streams (manager remote q) !! sid = Some r.
Proof.
  unfold OpenStream. destruct (allocID (manager remote p)) as [sid m1]. split; [done|]. split.
  - cbn [set_manager set_pmap set_heap heap]. by rewrite lookup_app_r, Nat.sub_diag by lia.
  - rewrite manager_set. cbn [set_streams streams]. by rewrite lookup_insert_eq.
Qed.

(** C15. With a peer that follows the protocol, and that no relay has reported as gone, a new
    stream to it gets a number that was never given out before and that no stream of that peer has, from
    1000 on, of the parity the keys determine; the peer's own numbers have the other
    parity, so the two sides never choose the same one.  After a report the numbers
    start again ([number_given_out_again]). *)
Theorem stream_ids_fresh pub l remote :
  let p0 := NewIrohRelayPool pub in
  honest_run remote l p0 [] ->
  let p := run l p0 in
  nextID (manager remote p) < 2 ^ 63 ->
  let '(r, sid, q) := OpenStream remote p in
  (sid ∉ given_run remote l p0 []) /\ streams (manager remote p) !! sid = None /\ r = length (heap p) /\
  heap q !! r = Some (newStream sid remote) /\ streams (manager remote q) !! sid = Some r /\
  streamIDBase <= sid /\ sid mod 2 = odd_bit pub remote /\
  (pub <> remote -> forall q' l', let p' := run l' (NewIrohRelayPool remote) in
     OpenStream pub p' = q' -> nextID (manager pub p') < 2 ^ 63 -> q'.1.2 <> sid).
Proof.
  intros p0 Hh p Hn. pose proof (wf_run l _ (wf_new pub)) as Hw. fold p0 in Hw. fold p in Hw.
  assert (numbered remote (given_run remote l p0 []) (manager remote p)) as [H1 H2 H3].
  { apply numbered_run; [apply wf_new|done|]. split; [done|by intros sid ?%elem_of_nil|].
    intros sid r Hr. change (streams (manager remote p0)) with (∅ : gmap Z nat) in Hr. by rewrite lookup_empty in Hr. }
  assert (localPub p = pub) as El by (unfold p; by rewrite run_local).
  pose proof (OpenStream_number remote p Hw Hn) as (E1 & Hpar). rewrite El in Hpar, E1.
  pose proof (wm_odd _ _ _ _ (wf_manager_of remote p Hw)) as Hodd. rewrite El in Hodd.
  pose proof (OpenStream_entry remote p) as HE.
  destruct (OpenStream remote p) as [[r sid] q]. cbn [fst snd] in *. destruct HE as (E2 & E3 & E4).
  split_and!; try done.
  - intros Hg. specialize (H2 _ Hg). destruct (odd_bit_01 pub remote); lia.
  - destruct (streams (manager remote p) !! sid) as [r'|] eqn:Es; [|done].
    specialize (H3 _ _ Es ltac:(congruence)). destruct (odd_bit_01 pub remote); lia.
  - destruct (odd_bit_01 pub remote); lia.
  - intros Hne q' l' <- Hn' Heq. pose proof (wf_run l' _ (wf_new remote)) as Hw'.
    pose proof (OpenStream_number pub _ Hw' Hn') as (_ & Hpar'). rewrite run_local in Hpar'. cbn [NewIrohRelayPool localPub] in Hpar'.
    pose proof (odd_bit_other pub remote Hne) as Hoo. rewrite Heq, Hpar in Hpar'. lia.
Qed.

(** ** Delivery *)

(** Some connection is alive, and those that are alive can be written to. *)
Definition healthy (p : IrohRelayPool) : Prop :=
  (exists url c, relays p !! url = Some c /\ is_alive (c_state c) = true) /\
  (forall url c, relays p !! url = Some c -> is_alive (c_state c) = true -> c_ws c = Some true).

Lemma sendTo_healthy remote frame p :
  healthy p ->
  exists url q, sendTo remote frame p = (None, q) /\ healthy q /\
    wire q = wire p ++ [(url, sendDatagramMsg remote frame)].
Proof.
  intros [(u0 & c0 & E0 & A0) Hw]. unfold sendTo.
  assert (exists l, l = range_map (2 + ranges p) (relays p)) as [l El] by eauto. rewrite <- El.
  assert (forall url c, (url, c) ∈ l -> relays p !! url = Some c) as Hl
    by (intros url c Hin; subst l; by apply (elem_of_range (2 + ranges p))).
  assert ((u0, c0) ∈ l) as Hin by (subst l; by apply (elem_of_range (2 + ranges p))). clear El.
  induction l as [|[url c] l IH]; [by apply elem_of_nil in Hin|]. cbn [sendTo_in].
  destruct (is_alive (c_state c)) eqn:Ea; cbn [negb].
  - assert (relays p !! url = Some c) as Eu by (apply Hl, list_elem_of_here).
    rewrite (Hw url c Eu Ea). eexists url, _. split; [reflexivity|]. split; [|done].
    split; cbn [set_relays set_wire set_ranges relays].
    + eexists url, _. rewrite lookup_insert_eq. split; [reflexivity|]. exact Ea.
    + intros u d. destruct (decide (url = u)) as [<-|Hne].
      * rewrite lookup_insert_eq. by intros [= <-] _.
      * rewrite lookup_insert_ne by done. apply Hw.
  - apply IH; [intros url' c' H'; apply Hl; by apply list_elem_of_further|].
    apply elem_of_cons in Hin as [[= -> ->]|Hin]; [congruence|done].
Qed.

(** The data of the datagrams [Write] sends. *)
Fixpoint chunks (n fuel : nat) (b : bytes) : list bytes :=
  match fuel, b with
  | S fuel, _ :: _ => take n b :: chunks n fuel (drop (length (take n b)) b)
  | _, _ => []
  end.

Lemma chunks_concat n fuel b : (0 < n)%nat -> (length b <= fuel)%nat -> concat (chunks n fuel b) = b.
Proof.
  intros Hn. revert b. induction fuel as [|fuel IH]; intros b Hb.
  - by destruct b; [|simpl in Hb; lia].
  - destruct b as [|x b]; [done|]. cbn [chunks concat].
    rewrite IH by (rewrite length_drop, length_take; simpl in *; lia).
    rewrite length_take. destruct (Nat.le_gt_cases n (length (x :: b))).
    + by rewrite Nat.min_l, take_drop by lia.
    + rewrite Nat.min_r, take_ge, drop_ge, app_nil_r by lia. done.
Qed.

Lemma chunks_bound n fuel b : Forall (fun d => zlen d <= Z.of_nat n) (chunks n fuel b).
Proof.
  revert b. induction fuel as [|fuel IH]; intros b; [constructor|]. destruct b as [|x b]; [constructor|].
  cbn [chunks]. constructor; [|apply IH]. unfold zlen. rewrite length_take. lia.
Qed.

Lemma zlen_take_drop n (l : bytes) : zlen (take n l) + zlen (drop (length (take n l)) l) = zlen l.
Proof. unfold zlen. rewrite length_drop, length_take. lia. Qed.

Notation maxData := (Z.to_nat maxDatagramPayload).

Lemma Write_healthy fuel r s b p :
  healthy p -> heap p !! r = Some s -> (length b <= fuel)%nat ->
  exists q ms, Write fuel r b p = (zlen b, None, q) /\ healthy q /\ wire q = wire p ++ ms /\
    ms.*2 = map (fun d => sendDatagramMsg (st_remote s) (streamFrame (st_id s) flagDATA d))
              (chunks maxData fuel b).
Proof.
  revert b p. induction fuel as [|fuel IH]; intros b p Hp Hs Hb.
  - destruct b; [|simpl in Hb; lia]. exists p, []. by rewrite app_nil_r.
  - cbn [Write chunks]. rewrite Hs. destruct b as [|x b]; [exists p, []; by rewrite app_nil_r|].
    assert (0 < maxData)%nat as Hmax by (unfold maxDatagramPayload; lia).
    revert Hmax IH. generalize maxData as n. intros n Hn IH.
    destruct (sendTo_healthy (st_remote s) (streamFrame (st_id s) flagDATA (take n (x :: b))) p Hp)
      as (url & q & E & Hq & Ew).
    pose proof (sendTo_same (st_remote s) (streamFrame (st_id s) flagDATA (take n (x :: b))) p) as (_ & _ & Eh & _).
    rewrite E in Eh |- *. cbn [snd] in Eh.
    assert (length (drop (length (take n (x :: b))) (x :: b)) <= fuel)%nat as Hl
      by (rewrite length_drop, length_take; simpl length in *; lia).
    destruct (IH (drop (length (take n (x :: b))) (x :: b)) q Hq ltac:(by rewrite Eh) Hl) as (q' & ms & E' & Hq' & Ew' & Ems).
    rewrite E'. exists q', ((url, sendDatagramMsg (st_remote s) (streamFrame (st_id s) flagDATA (take n (x :: b)))) :: ms).
    split; [|split; [done|split]].
    + by rewrite zlen_take_drop.
    + by rewrite Ew', Ew, <- app_assoc.
    + cbn [map fmap list_fmap]. by rewrite <- Ems.
Qed.

Context {network : Relay}.

(** The receiving side: what the relays have passed on, in the order of its arrival.  Each
    message has come through the connection with the relay it was given to. *)
Definition receive (src : bytes) (l : list (string * bytes)) (q : IrohRelayPool) : IrohRelayPool :=
  foldl (fun q m => recvFrame (relayed src m.2) q) q l.

(** The messages [ms] arrive as [l]: all of them, those through one relay in their order,
    those through different relays in any. *)
Definition arrives (ms l : list (string * bytes)) : Prop :=
  Permutation l ms /\ forall url : string, filter (fun m => m.1 = url) l = filter (fun m => m.1 = url) ms.

Definition data_msg (dst : bytes) (sid : Z) (d : bytes) : bytes := sendDatagramMsg dst (streamFrame sid flagDATA d).

Lemma recv_data src dst sid d q :
  length src = 32%nat -> length dst = 32%nat -> 0 <= sid < 2 ^ 64 ->
  recvFrame (relayed src (data_msg dst sid d)) q = dispatchStreamFrame src sid flagDATA d q.
Proof.
  intros Ls Ld Hs. unfold data_msg. rewrite relayed_datagram by done. unfold recvFrame.
  change (frameRelayToClientDatagram =? frameRelayToClientDatagram) with true. cbn [orb].
  by rewrite handleRecv_streamFrame.
Qed.

Lemma receive_known src dst sid l ds q r t :
  length src = 32%nat -> length dst = 32%nat -> 0 <= sid < 2 ^ 64 ->
  l.*2 = map (data_msg dst sid) ds ->
  streams (manager src q) !! sid = Some r -> heap q !! r = Some t ->
  let q' := receive src l q in
  heap q' !! r = Some (set_rx (rxBuf t ++ concat ds) t) /\
  streams (manager src q') !! sid = Some r /\ acceptCh q' = acceptCh q.
Proof.
  intros Ls Ld Hs. revert l q t. induction ds as [|d ds IH]; intros [|[u m] l] q t El Hm Ht; try done.
  - cbn. rewrite app_nil_r. by destruct t.
  - injection El as -> El. cbn [receive foldl snd]. rewrite recv_data by done.
    set (q1 := dispatchStreamFrame src sid flagDATA d q).
    assert (q1 = set_heap (alter (dispatch flagDATA d) r (heap q)) (set_manager src (manager src q) q)) as E1
      by (unfold q1, dispatchStreamFrame; by rewrite Hm).
    assert (heap q1 !! r = Some (set_rx (rxBuf t ++ d) t)) as H1
      by (rewrite E1; cbn [set_heap heap]; by rewrite list_lookup_alter_eq, Ht).
    assert (streams (manager src q1) !! sid = Some r) as H2.
    { rewrite E1. change (manager src (set_heap ?h ?p)) with (manager src p). by rewrite manager_set. }
    destruct (IH l q1 _ El H2 H1) as (H3 & H4 & H5). fold (receive src l q1).
    split; [|split; [done|]].
    + rewrite H3. cbn [concat]. rewrite app_assoc. by destruct t.
    + rewrite H5, E1. done.
Qed.

Lemma dispatch_new src sid d q :
  streams (manager src q) !! sid = None -> (length (acceptCh q) < acceptCap)%nat ->
  let q' := dispatchStreamFrame src sid flagDATA d q in
  heap q' !! length (heap q) = Some (newStream sid src) /\
  streams (manager src q') !! sid = Some (length (heap q)) /\
  acceptCh q' = acceptCh q ++ [length (heap q)].
Proof.
  intros Hn Hr q'. unfold q', dispatchStreamFrame. rewrite Hn.
  change (flagDATA =? flagDATA) with true. cbn [negb]. apply Nat.ltb_lt in Hr as Hb.
  change (acceptCh (set_heap _ (set_manager _ _ q))) with (acceptCh q). rewrite Hb.
  split; [|split; [|done]].
  - cbn [set_accept set_manager set_pmap set_heap heap]. by rewrite lookup_app_r, Nat.sub_diag by lia.
  - change (manager src (set_accept ?l ?p)) with (manager src p). rewrite manager_set.
    cbn [set_streams streams]. by rewrite lookup_insert_eq.
Qed.

Lemma receive_unknown src dst sid l d ds q :
  length src = 32%nat -> length dst = 32%nat -> 0 <= sid < 2 ^ 64 ->
  l.*2 = map (data_msg dst sid) (d :: ds) ->
  streams (manager src q) !! sid = None -> (length (acceptCh q) < acceptCap)%nat ->
  let q' := receive src l q in
  exists r t, acceptCh q' = acceptCh q ++ [r] /\ streams (manager src q') !! sid = Some r /\
    heap q' !! r = Some t /\ rxBuf t = concat ds.
Proof.
  intros Ls Ld Hs El Hn Hroom. destruct l as [|[u m] l]; [done|]. injection El as -> El.
  cbn [receive foldl snd]. rewrite recv_data by done.
  destruct (dispatch_new src sid d q Hn Hroom) as (H1 & H2 & H3).
  destruct (receive_known src dst sid l ds _ _ _ Ls Ld Hs El H2 H1) as (H4 & H5 & H6).
  fold (receive src l (dispatchStreamFrame src sid flagDATA d q)).
  eexists _, _. split; [by rewrite H6, H3|]. split; [done|]. split; [done|]. done.
Qed.

(** Through one relay nothing changes places. *)
Lemma arrives_one_relay ms l url : arrives ms l -> Forall (fun m : string * bytes => m.1 = url) ms -> l = ms.
Proof.
  intros [HP Hf] Hu. assert (forall k : list (string * bytes), Forall (fun m => m.1 = url) k -> filter (fun m => m.1 = url) k = k) as Hid.
  { induction 1 as [|m k Hm Hk IH]; [done|]. rewrite filter_cons_True by done. by rewrite IH. }
  rewrite <-(Hid l), <-(Hid ms) by (done || by rewrite HP). apply Hf.
Qed.

(** What has arrived is the data of the datagrams, in some order. *)
Lemma arrives_data f (ds : list bytes) ms l : arrives ms l -> ms.*2 = map f ds ->
  exists ds' : list bytes, Permutation ds' ds /\ (l.*2 = map f ds' :> list bytes) /\ (l = ms -> ds' = ds).
Proof.
  intros [HP _] Em. destruct (decide (l = ms)) as [->|Hne]; [by exists ds|].
  assert (Permutation l.*2 (map f ds)) as HP2 by (by rewrite HP, Em).
  apply Permutation_map_inv in HP2 as (ds' & E & HP'). exists ds'. split; [by symmetry|]. by split.
Qed.

Lemma chunks_one n b : b <> [] -> (length b <= n)%nat -> chunks n (length b) b = [b].
Proof.
  intros Hb Hn. destruct b as [|x b]; [done|]. cbn [length chunks].
  rewrite (take_ge (x :: b)) by done. rewrite drop_ge by (simpl; lia). by destruct (length b).
Qed.

(** C10. Writing [b] while relays work gives [zlen b] and hands the relays its datagrams, of
    64000 bytes each and in order, each to whichever connection comes first in the map.  If
    they all arrive, those through one relay in order, the stream on the other side gets
    their data in the order of arrival: [b] itself if they went through one relay or are but one,
    some permutation of the pieces if not ([relays_reorder]).  If the other side does not
    know the stream yet, the stream it queues lacks the data of the datagram that comes
    first. *)
Theorem write_delivered p q r s b :
  healthy p -> heap p !! r = Some s -> st_remote s = localPub q ->
  length (localPub p) = 32%nat -> length (localPub q) = 32%nat -> 0 <= st_id s < 2 ^ 64 ->
  b <> [] ->
  exists p' ms ds, Write (length b) r b p = (zlen b, None, p') /\ wire p' = wire p ++ ms /\
    ms.*2 = map (data_msg (localPub q) (st_id s)) ds /\ concat ds = b /\
    Forall (fun d => zlen d <= maxDatagramPayload) ds /\
    forall l, arrives ms l ->
      exists ds', Permutation ds' ds /\
        ((exists url, Forall (fun m => m.1 = url) ms) -> ds' = ds) /\ (zlen b <= maxDatagramPayload -> ds' = [b]) /\
        let q' := receive (localPub p) l q in
        (forall r' t, streams (manager (localPub p) q) !! st_id s = Some r' -> heap q !! r' = Some t ->
           heap q' !! r' = Some (set_rx (rxBuf t ++ concat ds') t)) /\
        (streams (manager (localPub p) q) !! st_id s = None -> (length (acceptCh q) < acceptCap)%nat ->
           exists r' t', acceptCh q' = acceptCh q ++ [r'] /\
             streams (manager (localPub p) q') !! st_id s = Some r' /\
             heap q' !! r' = Some t' /\ rxBuf t' = concat (tail ds')).
Proof.
  intros Hp Hs Er Lp Lq Hid Hb.
  destruct (Write_healthy (length b) r s b p Hp Hs ltac:(lia)) as (p' & ms & E & _ & Ew & Ems).
  assert (0 < maxData)%nat as Hmax by (unfold maxDatagramPayload; lia).
  assert (Z.of_nat maxData = maxDatagramPayload) as Hz by (unfold maxDatagramPayload; lia).
  rewrite <-Hz. clear Hz. revert Ems Hmax. rewrite Er. fold (data_msg (localPub q) (st_id s)). generalize maxData as n. intros n Ems Hn.
  exists p', ms, (chunks n (length b) b). split; [done|]. split; [done|]. split; [done|].
  split; [by apply chunks_concat|]. split; [apply chunks_bound|]. intros l Hl.
  destruct (arrives_data _ _ _ _ Hl Ems) as (ds' & HP & El & Hsame). exists ds'. split; [done|].
  split; [|split; [|split]].
  - intros [url Hu]. apply Hsame. by eapply arrives_one_relay.
  - intros Hz. assert (chunks n (length b) b = [b]) as Ec by (apply chunks_one; [done|unfold zlen in Hz; lia]).
    rewrite Ec in HP. by apply Permutation_singleton_r in HP.
  - intros r' t Hr' Ht. by apply (receive_known _ (localPub q) (st_id s) l ds').
  - intros Hnone Hroom. destruct ds' as [|d ds'].
    + apply Permutation_nil in HP. destruct b as [|x b]; [done|]. discriminate HP.
    + by apply (receive_unknown _ (localPub q) (st_id s) l d).
Qed.

(** ** Closing *)

(** The entry of a peer's table. *)
Definition entry (remote : bytes) (sid : Z) (p : IrohRelayPool) : option nat :=
  streams (manager remote p) !! sid.

Lemma entry_removeStream remote sid p : entry remote sid (removeStream remote sid p) = None.
Proof.
  unfold entry, manager, removeStream. cbn [set_pmap pmap]. rewrite lookup_alter_eq.
  destruct (pmap p !! remote) as [m|]; cbn.
  - by rewrite lookup_delete_eq.
  - by rewrite lookup_empty.
Qed.

(** Closing a stream the peer has not closed forgets its number, so that data still
    on its way opens a new stream on the closing side, which is queued for accepting;
    closing a stream the peer has closed is an error, sends nothing and leaves the
    stream in the table for good. *)
Theorem close_lifecycle p r s data :
  wf p -> heap p !! r = Some s -> entry (st_remote s) (st_id s) p = Some r ->
  (closed s = false -> (length (acceptCh p) < acceptCap)%nat ->
     let p1 := (Close r p).2 in
     (Close r p).1 = None /\ heap p1 !! r = Some (set_closed s) /\ entry (st_remote s) (st_id s) p1 = None /\
     let p2 := dispatchStreamFrame (st_remote s) (st_id s) flagDATA data p1 in
     exists r', (r <> r') /\ entry (st_remote s) (st_id s) p2 = Some r' /\
       acceptCh p2 = acceptCh p ++ [r'] /\ heap p2 !! r' = Some (newStream (st_id s) (st_remote s))) /\
  (let p1 := dispatchStreamFrame (st_remote s) (st_id s) flagCLOSE [] p in
   (Close r p1).1 = Some "use of closed network connection" /\ (Close r p1).2 = p1 /\
   entry (st_remote s) (st_id s) p1 = Some r).
Proof.
  intros Hw Hs He. split.
  - intros Hc Hroom p1.
    set (p0 := set_heap (alter set_closed r (heap p)) p).
    pose proof (sendTo_same (st_remote s) (streamFrame (st_id s) flagCLOSE []) p0) as (E1 & E2 & E3 & E4).
    set (p0' := (sendTo (st_remote s) (streamFrame (st_id s) flagCLOSE []) p0).2) in *.
    assert (Close r p = (None, removeStream (st_remote s) (st_id s) p0')) as Ec
      by (unfold Close; by rewrite Hs, Hc).
    assert (p1 = removeStream (st_remote s) (st_id s) p0') as Ep by (unfold p1; by rewrite Ec).
    assert (heap p1 = alter set_closed r (heap p)) as Eh by (rewrite Ep; cbn [removeStream set_pmap heap]; by rewrite E3).
    assert (acceptCh p1 = acceptCh p) as Ea by (rewrite Ep; cbn [removeStream set_pmap acceptCh]; by rewrite E4).
    assert (entry (st_remote s) (st_id s) p1 = None) as En by (rewrite Ep; apply entry_removeStream).
    rewrite Ec. split; [done|]. split; [by rewrite Eh, list_lookup_alter_eq, Hs|]. split; [done|].
    destruct (dispatch_new (st_remote s) (st_id s) data p1 En ltac:(by rewrite Ea)) as (H1 & H2 & H3).
    exists (length (heap p1)). split; [|split; [done|split; [by rewrite H3, Ea|done]]].
    apply lookup_lt_Some in Hs. rewrite Eh, length_alter. lia.
  - intros p1.
    assert (p1 = set_heap (alter set_closed r (heap p)) (set_manager (st_remote s) (manager (st_remote s) p) p)) as Ep
      by (unfold p1, dispatchStreamFrame; unfold entry in He; by rewrite He).
    assert (heap p1 !! r = Some (set_closed s)) as H1
      by (rewrite Ep; cbn [set_heap heap]; by rewrite list_lookup_alter_eq, Hs).
    unfold Close. rewrite H1. cbn [set_closed closed]. split; [done|]. split; [done|].
    unfold entry. rewrite Ep. change (manager ?k (set_heap ?h ?q)) with (manager k q). by rewrite manager_set.
Qed.

End pool.

(** ** The connection: keep-alive and reconnection

    [runLoop], [connect], [connectWithBackoff] and the liveness part of [readLoop] on
    one connection. *)
Definition relayPingInterval : Z := 9 * second.

Record irohRelayConn := {
  rc_state : IrohRelayState; rc_ws : bool;
  lastRecv : Z; pingSeq : Z; pendingPing : Z; lastPong : Z; pongCnt : Z;
  rc_sent : list (Z * bytes)          (* the frames written, over all sockets *)
}.

Definition newRelayConn (now : Z) : irohRelayConn :=
  {| rc_state := IrohRelayDisconnected; rc_ws := false; lastRecv := now; pingSeq := 0;
     pendingPing := 0; lastPong := now; pongCnt := 0; rc_sent := [] |}.

Definition with_conn (st : IrohRelayState) (ws : bool) (rc : irohRelayConn) : irohRelayConn :=
  {| rc_state := st; rc_ws := ws; lastRecv := lastRecv rc; pingSeq := pingSeq rc;
     pendingPing := pendingPing rc; lastPong := lastPong rc; pongCnt := pongCnt rc; rc_sent := rc_sent rc |}.

Definition shutdown (rc : irohRelayConn) : irohRelayConn := with_conn IrohRelayDisconnected false rc.

(** How [connect] can end. *)
Inductive dial := DialFails | HandshakeFails | Connected.

Definition connect (now : Z) (d : dial) (rc : irohRelayConn) : irohRelayConn :=
  match d with
  | DialFails => with_conn IrohRelayDisconnected (rc_ws rc) rc
  | HandshakeFails => with_conn IrohRelayDisconnected true rc
  | Connected =>
      {| rc_state := IrohRelayAlive; rc_ws := true; lastRecv := now; pingSeq := pingSeq rc;
         pendingPing := pendingPing rc; lastPong := lastPong rc; pongCnt := pongCnt rc; rc_sent := rc_sent rc |}
  end.

(** The waits of [connectWithBackoff] over the outcomes of its attempts. *)
Fixpoint connectWithBackoff (backoff : Z) (l : list (Z * dial)) (rc : irohRelayConn) : list Z * irohRelayConn :=
  match l with
  | [] => ([], rc)
  | (now, d) :: l =>
      let rc := connect now d rc in
      if is_alive (rc_state rc) then ([], rc)
      else
        let next := if 60 * second <? backoff * 2 then 60 * second else backoff * 2 in
        let '(w, rc) := connectWithBackoff next l rc in (backoff :: w, rc)
  end.

(** [writeFrame]; [ok]: the socket takes the message. *)
Definition writeFrame (tag : Z) (payload : bytes) (ok : bool) (rc : irohRelayConn) : bool * irohRelayConn :=
  if rc_ws rc && ok then
    (true, {| rc_state := rc_state rc; rc_ws := rc_ws rc; lastRecv := lastRecv rc; pingSeq := pingSeq rc;
              pendingPing := pendingPing rc; lastPong := lastPong rc; pongCnt := pongCnt rc;
              rc_sent := rc_sent rc ++ [(tag, payload)] |})
  else (false, rc).

Definition with_ping (seq : Z) (rc : irohRelayConn) : irohRelayConn :=
  {| rc_state := rc_state rc; rc_ws := rc_ws rc; lastRecv := lastRecv rc; pingSeq := seq;
     pendingPing := seq; lastPong := lastPong rc; pongCnt := pongCnt rc; rc_sent := rc_sent rc |}.

(** The keep-alive case of [runLoop]. *)
Definition keepAlive (now : Z) (ok : bool) (rc : irohRelayConn) : irohRelayConn :=
  if relayPingInterval * 3 <? time_sub now (lastRecv rc) then shutdown rc
  else if negb (pendingPing rc =? 0) then rc
  else
    let seq := wrapu 64 (pingSeq rc + 1) in
    let (written, rc) := writeFrame framePing (le_bytes 8 seq) ok (with_ping seq rc) in
    if written then rc else shutdown rc.

(** The part of [readLoop] that concerns the connection. *)
Definition received (now : Z) (msg : bytes) (ok : bool) (rc : irohRelayConn) : irohRelayConn :=
  match msg with
  | [] => rc
  | t :: body =>
      let rc := {| rc_state := rc_state rc; rc_ws := rc_ws rc; lastRecv := now; pingSeq := pingSeq rc;
                   pendingPing := pendingPing rc; lastPong := lastPong rc; pongCnt := pongCnt rc;
                   rc_sent := rc_sent rc |} in
      if t =? framePing then (writeFrame framePong body ok rc).2
      else if t =? framePong then
        if (8 <=? length body)%nat then
          {| rc_state := rc_state rc; rc_ws := rc_ws rc; lastRecv := now; pingSeq := pingSeq rc;
             pendingPing := if le_val (take 8 body) =? pendingPing rc then 0 else pendingPing rc;
             lastPong := now; pongCnt := pongCnt rc + 1; rc_sent := rc_sent rc |}
        else rc
      else rc
  end.

Inductive conn_event :=
  | EvTick (now : Z) (ok : bool)
  | EvMsg (now : Z) (msg : bytes) (ok : bool)
  | EvReconnect                       (* the reader saw the end of the socket *)
  | EvAttempt (now : Z) (d : dial).

Definition conn_step (e : conn_event) (rc : irohRelayConn) : irohRelayConn :=
  match e with
  | EvTick now ok => if is_alive (rc_state rc) then keepAlive now ok rc else rc
  | EvMsg now msg ok => if rc_ws rc then received now msg ok rc else rc
  | EvReconnect => shutdown rc
  | EvAttempt now d => if is_alive (rc_state rc) then rc else connect now d (shutdown rc)
  end.
Definition conn_run (l : list conn_event) (rc : irohRelayConn) : irohRelayConn :=
  foldl (fun rc e => conn_step e rc) rc l.

Definition pings (rc : irohRelayConn) : list (Z * bytes) := filter (fun f => f.1 = framePing) (rc_sent rc).

(** The event is the answer to the ping with number [seq]. *)
Definition answers (seq : Z) (e : conn_event) : bool :=
  match e with
  | EvMsg _ (t :: body) _ => (t =? framePong) && (8 <=? length body)%nat && (le_val (take 8 body) =? seq)
  | _ => false
  end.

Lemma writeFrame_pong body ok rc :
  let rc' := (writeFrame framePong body ok rc).2 in
  pendingPing rc' = pendingPing rc /\ pings rc' = pings rc /\ pingSeq rc' = pingSeq rc.
Proof.
  unfold writeFrame. destruct (_ && _); [|done]. split; [done|]. split; [|done].
  unfold pings. cbn [snd rc_sent]. rewrite filter_app. rewrite (filter_cons_False _ (framePong, body)) by done.
  by rewrite filter_nil, app_nil_r.
Qed.

Lemma conn_step_pending e rc :
  pendingPing rc <> 0 -> answers (pendingPing rc) e = false ->
  pendingPing (conn_step e rc) = pendingPing rc /\ pings (conn_step e rc) = pings rc.
Proof.
  intros Hp Ha. destruct e as [now ok|now msg ok| |now d]; cbn [conn_step].
  - destruct (is_alive _); [|done]. unfold keepAlive. destruct (_ <? _); [done|].
    apply Z.eqb_neq in Hp as ->. done.
  - destruct (rc_ws rc); [|done]. destruct msg as [|t body]; [done|]. cbn [answers received] in *.
    destruct (t =? framePing) eqn:Et.
    + match goal with |- context [writeFrame framePong body ok ?x] =>
        destruct (writeFrame_pong body ok x) as (E1 & E2 & _) end.
      by rewrite E1, E2.
    + destruct (t =? framePong); [|done]. destruct (8 <=? length body)%nat; [|done].
      cbn [andb] in Ha. split; [|done]. cbn [pendingPing]. by rewrite Ha.
  - done.
  - destruct (is_alive _); [done|]. by destruct d.
Qed.

(** The keep-alive: silence of more than 27 seconds shuts the connection down; else
    a ping with the next number goes out when none is outstanding, and its answer
    clears it.  A ping that stays unanswered stops all later ones, also after any
    number of reconnections: its number is never reset. *)
Theorem keepalive_spec rc now ok l :
  (relayPingInterval * 3 < now - lastRecv rc ->
     rc_state (keepAlive now ok rc) = IrohRelayDisconnected /\ rc_ws (keepAlive now ok rc) = false) /\
  (min_int64 <= now - lastRecv rc <= relayPingInterval * 3 -> pendingPing rc = 0 -> rc_ws rc = true ->
     0 <= pingSeq rc < 2 ^ 63 ->
     let rc' := keepAlive now true rc in let seq := pingSeq rc + 1 in
     pings rc' = pings rc ++ [(framePing, le_bytes 8 seq)] /\ pendingPing rc' = seq /\
     pendingPing (received now (framePong :: le_bytes 8 seq) ok rc') = 0) /\
  (pendingPing rc <> 0 -> Forall (fun e => answers (pendingPing rc) e = false) l ->
     pendingPing (conn_run l rc) = pendingPing rc /\ pings (conn_run l rc) = pings rc).
Proof.
  split; [|split].
  - intros Hs. unfold keepAlive.
    assert (relayPingInterval * 3 <? time_sub now (lastRecv rc) = true) as ->.
    { apply Z.ltb_lt. apply time_sub_gt; [by split|done]. }
    done.
  - intros Hs Hp Hws Hseq rc' seq. unfold rc', keepAlive.
    assert (relayPingInterval * 3 <? time_sub now (lastRecv rc) = false) as ->.
    { apply Z.ltb_ge. rewrite time_sub_small; [lia|]. split; [lia|].
      assert (relayPingInterval * 3 <= max_int64) by done. lia. }
    rewrite Hp. cbn [Z.eqb negb]. rewrite wrapu_small by lia. fold seq.
    unfold writeFrame. cbn [with_ping rc_ws]. rewrite Hws. cbn [andb].
    split; [|split; [done|]].
    + unfold pings. cbn [rc_sent with_ping]. rewrite filter_app.
      by rewrite (filter_cons_True _ (framePing, le_bytes 8 seq)).
    + unfold received. change (framePong =? framePing) with false. change (framePong =? framePong) with true.
      cbn match. rewrite length_le_bytes. cbn [Nat.leb]. cbn [pendingPing].
      rewrite take_ge by (by rewrite length_le_bytes).
      rewrite le_val_le_bytes_small by (change (256 ^ Z.of_nat 8) with (2 ^ 64); lia).
      by rewrite Z.eqb_refl.
  - revert rc. induction l as [|e l IH]; intros rc Hp Hl; [done|].
    apply Forall_cons_1 in Hl as [He Hl]. cbn [conn_run foldl].
    destruct (conn_step_pending e rc Hp He) as [E1 E2].
    destruct (IH (conn_step e rc)) as [E3 E4]; [by rewrite E1|by rewrite E1|].
    unfold conn_run in *. by rewrite E3, E4.
Qed.

(** The waits double from one second up to a minute. *)
Lemma backoff_waits l rc k :
  Forall (fun a => a.2 <> Connected) l -> 0 <= k ->
  forall i w, (connectWithBackoff (Z.min (60 * second) (2 ^ k * second)) l rc).1 !! i = Some w ->
  w = Z.min (60 * second) (2 ^ (k + Z.of_nat i) * second).
Proof.
  intros Hl. revert rc k. induction Hl as [|[now d] l Hd Hl IH]; intros rc k Hk i w; [done|].
  cbn [connectWithBackoff]. destruct (is_alive _) eqn:Ea; [by destruct d|].
  assert ((if 60 * second <? Z.min (60 * second) (2 ^ k * second) * 2 then 60 * second
           else Z.min (60 * second) (2 ^ k * second) * 2) = Z.min (60 * second) (2 ^ (k + 1) * second)) as ->.
  { rewrite Z.pow_add_r by lia. change (2 ^ 1) with 2. unfold second.
    assert (1 <= 2 ^ k) by lia.
    destruct (Z.ltb_spec (60 * 1000000000) (Z.min (60 * 1000000000) (2 ^ k * 1000000000) * 2)); lia. }
  specialize (IH (connect now d rc) (k + 1) ltac:(lia)).
  destruct (connectWithBackoff _ l _) as [ws rc'] eqn:E. cbn [fst] in *.
  destruct i as [|i]; cbn [lookup list_lookup].
  - intros [= <-]. by rewrite Z.add_0_r.
  - intros Hw. rewrite (IH i w Hw). do 3 f_equal. lia.
Qed.

(** ** The theorems at concrete inputs *)
Definition key (n : Z) : bytes := replicate 32 n.
#[local] Existing Instance map_to_list_range.

Definition up : rconn := {| c_state := IrohRelayAlive; c_ws := Some true; c_tx := 0 |}.

(** A pool with one working relay and one open stream to the peer [b]. *)
Definition one_stream (a b : Z) : IrohRelayPool :=
  run [OAddRelay "r" up; OOpen (key b)] (NewIrohRelayPool (key a)).

(** A peer that answers on the stream that was opened to it. *)
Lemma stream_ids_fresh_witness :
  let R := example_relay in
  let l := [OAddRelay "r" up; OOpen (key 2); ORecv (relayed (key 2) (data_msg (key 1) 1001 [7]))] in
  let '(r, sid, q) := OpenStream (key 2) (run l (NewIrohRelayPool (key 1))) in
  (sid ∉ [1001]) /\ streamIDBase <= sid /\ sid mod 2 = 1.
Proof.
  intros R l. pose proof (stream_ids_fresh (key 1) l (key 2)) as H. cbv zeta in H.
  assert (given_run (key 2) l (NewIrohRelayPool (key 1)) [] = [1001]) as Eg by (vm_compute; reflexivity). rewrite Eg in H.
  destruct (OpenStream (key 2) (run l (NewIrohRelayPool (key 1)))) as [[r sid] q].
  destruct H as (H1 & _ & _ & _ & _ & H5 & H6 & _); [|vm_compute; reflexivity|by split; [|split]].
  split; [exact I|]. split; [intros _; vm_compute; reflexivity|]. split; [|exact I]. split.
  - cbn. intros (Ht & _). discriminate Ht.
  - intros t body sid' fl data [= <- <-] Er _. vm_compute in Er. injection Er as <- _ _. vm_compute. by left.
Defined.

(** After the relay has reported the peer as gone its table is a new one, whose counter is
    at its start: a peer that still writes to the stream 1001, which was opened to it, makes a new
    stream of that number, and the next stream to be opened is 1001 again and takes its
    place in the table. *)
Theorem number_given_out_again :
  let R := example_relay in
  let opened := [OAddRelay "r" up; OOpen (key 2)] in
  let p := run (opened ++ [ORecv (frameEndpointGone :: key 2); ORecv (relayed (key 2) (data_msg (key 1) 1001 [7]))])
             (NewIrohRelayPool (key 1)) in
  given_run (key 2) opened (NewIrohRelayPool (key 1)) [] = [1001] /\
  is_Some (streams (manager (key 2) p) !! 1001) /\ (OpenStream (key 2) p).1.2 = 1001.
Proof. intros R opened p. split; [vm_compute; reflexivity|]. split; [|vm_compute; reflexivity]. exists 1%nat. vm_compute. reflexivity. Qed.

Lemma one_stream_healthy a b : healthy (one_stream a b).
Proof.
  split.
  - exists "r", up. split; [reflexivity|reflexivity].
  - intros url c Hc _. change (relays (one_stream a b)) with (<["r" := up]> (∅ : gmap string rconn)) in Hc.
    apply lookup_insert_Some in Hc as [[_ <-]|[_ Hc]]; [reflexivity|]. by rewrite lookup_empty in Hc.
Qed.

Definition greeting : bytes := [104; 105].

Lemma write_delivered_witness :
  let R := example_relay in
  exists p' (ms : list (string * bytes)), Write 2 0 greeting (one_stream 1 2) = (2, None, p') /\
    let q' := receive (key 1) ms (NewIrohRelayPool (key 2)) in
    exists r' t', acceptCh q' = [r'] /\ heap q' !! r' = Some t' /\ rxBuf t' = [].
Proof.
  intros R. destruct (write_delivered (one_stream 1 2) (NewIrohRelayPool (key 2)) 0 (newStream 1001 (key 2)) greeting
    (one_stream_healthy 1 2) eq_refl eq_refl eq_refl eq_refl
    ltac:(vm_compute; split; [discriminate|reflexivity]) ltac:(discriminate)) as (p' & ms & ds & E & _ & _ & Eb & _ & H).
  exists p', ms. split; [exact E|].
  destruct (H ms ltac:(split; [reflexivity|done])) as (ds' & _ & _ & Hone & _ & Hnew).
  specialize (Hone ltac:(vm_compute; discriminate)) as ->.
  destruct (Hnew eq_refl ltac:(vm_compute; lia)) as (r' & t' & H1 & _ & H3 & H4).
  exists r', t'. split; [exact H1|split; [exact H3|exact H4]].
Defined.

(** The map in its order and in the other one, alternately. *)
#[refine] Definition flip_range : MapRange :=
  {| range_map K V _ _ site m := if Nat.even site then map_to_list m else rev (map_to_list m) |}.
Proof. intros. destruct (Nat.even site); [done|]. by rewrite <-Permutation_rev. Defined.

(** With two relays the datagrams of one [Write] can go through different ones, and the
    second can arrive first: the peer, which knows the stream, reads the end of the data before
    its beginning. *)
Definition two_relays : IrohRelayPool :=
  let M := flip_range in run [OAddRelay "r1" up; OAddRelay "r2" up; OOpen (key 2)] (NewIrohRelayPool (key 1)).
Definition two_pieces : bytes := replicate 64000 1 ++ [2].
Definition knows_stream : IrohRelayPool :=
  let M := flip_range in let R := example_relay in run [ORecv (relayed (key 1) (data_msg (key 2) 1001 [0]))] (NewIrohRelayPool (key 2)).

Theorem relays_reorder :
  let M := flip_range in let R := example_relay in
  let ms := wire (Write 64001 0 two_pieces two_relays).2 in
  arrives ms (rev ms) /\ rxBuf <$> heap knows_stream !! 0%nat = Some [] /\
  rxBuf <$> heap (receive (key 1) (rev ms) knows_stream) !! 0%nat = Some ([2] ++ replicate 64000 1).
Proof.
  intros M R ms. assert (ms.*1 = ["r1"; "r2"]) as Hu by (apply (bool_decide_unpack _); vm_compute; exact I).
  split; [|split; [vm_compute; reflexivity|apply (bool_decide_unpack _); vm_compute; exact I]].
  clearbody ms. split; [symmetry; apply Permutation_rev|]. intros url.
  destruct ms as [|[u1 m1] [|[u2 m2] [|]]]; try done. injection Hu as -> ->. cbn [rev app].
  rewrite !filter_cons, !filter_nil. cbn [fst]. destruct (decide ("r1" = url)), (decide ("r2" = url)); congruence.
Qed.

Lemma close_lifecycle_witness :
  let p := one_stream 1 2 in
  (Close 0 p).1 = None /\
  (exists r', (0%nat <> r') /\ entry (key 2) 1001 (dispatchStreamFrame (key 2) 1001 flagDATA [1] (Close 0 p).2) = Some r') /\
  entry (key 2) 1001 (Close 0 (dispatchStreamFrame (key 2) 1001 flagCLOSE [] p)).2 = Some 0%nat.
Proof.
  destruct (close_lifecycle (one_stream 1 2) 0 (newStream 1001 (key 2)) [1]
    (wf_run _ _ (wf_new (key 1))) eq_refl eq_refl) as [H1 H2].
  destruct (H1 eq_refl ltac:(vm_compute; lia)) as (E1 & _ & _ & r' & E2 & E3 & _).
  destruct H2 as (_ & E4 & E5). cbn [newStream st_remote st_id] in E4, E5.
  split; [exact E1|]. split; [exists r'; split; [exact E2|exact E3]|]. by rewrite E4.
Defined.

(** A ping goes out, the socket dies, and the connection after it never pings. *)
Lemma keepalive_spec_witness :
  let rc := conn_step (EvAttempt epoch Connected) (newRelayConn epoch) in
  let rc1 := keepAlive (epoch + 9 * second) true rc in
  pings rc1 = [(framePing, le_bytes 8 1)] /\
  pings (conn_run [EvReconnect; EvAttempt (epoch + 10 * second) Connected; EvTick (epoch + 19 * second) true] rc1)
    = pings rc1.
Proof.
  set (rc := conn_step (EvAttempt epoch Connected) (newRelayConn epoch)).
  set (rc1 := keepAlive (epoch + 9 * second) true rc).
  destruct (keepalive_spec rc (epoch + 9 * second) true []) as (_ & H & _).
  destruct (H ltac:(vm_compute; split; discriminate) eq_refl eq_refl
    ltac:(vm_compute; split; [discriminate|reflexivity])) as (E1 & _ & _).
  destruct (keepalive_spec rc1 epoch true
    [EvReconnect; EvAttempt (epoch + 10 * second) Connected; EvTick (epoch + 19 * second) true]) as (_ & _ & H2).
  destruct (H2 ltac:(vm_compute; discriminate) ltac:(repeat constructor)) as [_ E2].
  split; [exact E1|exact E2].
Defined.
