(* ===== verification/Iptunnel.v ===== *)
(** * The packet tunnel between peers (src/iptunnel/hub.go, iptunnel.go, reaper.go)

    A hub holds the carrier streams to one peer.  Carriers are shared objects: the
    hub's list, the goroutine that pumps a carrier and a write under way name them by
    their index in a store.  What the network does (which writes fail, whether a
    stream opens) is an argument of each operation. *)

From S2P Require Import Prelude GoLib.

Definition carrierIdle : Z := 5 * minute.
Definition hubIdle : Z := 2 * minute.

Inductive Direction := DirUnknown | DirInbound | DirOutbound.
#[global] Instance Direction_eq_dec : EqDecision Direction.
Proof. solve_decision. Defined.

Record tunnelCarrier := { direction : Direction; dead : bool; created : Z; stream_closed : bool }.

Record tunnelHub := {
  carriers : list nat; opening : bool; lastUse : Z; reattached : Z
}.

(** A hub with the store of carriers, what was written to them, and the number of
    stream openings started in the background. *)
Record hub_state := {
  hub : tunnelHub; store : list tunnelCarrier; out : list (nat * bytes); spawned : nat
}.

Definition newHub : tunnelHub := {| carriers := []; opening := false; lastUse := zero_time; reattached := 0 |}.
Definition new_state : hub_state := {| hub := newHub; store := []; out := []; spawned := 0 |}.

Definition set_dead (c : tunnelCarrier) : tunnelCarrier :=
  {| direction := direction c; dead := true; created := created c; stream_closed := stream_closed c |}.
Definition set_detached (c : tunnelCarrier) : tunnelCarrier :=
  {| direction := direction c; dead := true; created := created c; stream_closed := true |}.

Definition with_hub (h : tunnelHub) (st : hub_state) : hub_state :=
  {| hub := h; store := store st; out := out st; spawned := spawned st |}.
Definition with_store (s : list tunnelCarrier) (st : hub_state) : hub_state :=
  {| hub := hub st; store := s; out := out st; spawned := spawned st |}.
Definition with_carriers (l : list nat) (h : tunnelHub) : tunnelHub :=
  {| carriers := l; opening := opening h; lastUse := lastUse h; reattached := reattached h |}.
Definition with_opening (b : bool) (h : tunnelHub) : tunnelHub :=
  {| carriers := carriers h; opening := b; lastUse := lastUse h; reattached := reattached h |}.
Definition with_lastUse (t : Z) (h : tunnelHub) : tunnelHub :=
  {| carriers := carriers h; opening := opening h; lastUse := t; reattached := reattached h |}.

(** [c.dead.Load()]. *)
Definition is_dead (s : list tunnelCarrier) (c : nat) : bool :=
  match s !! c with Some x => dead x | None => true end.
Definition has_dir (s : list tunnelCarrier) (d : Direction) (c : nat) : bool :=
  match s !! c with Some x => bool_decide (direction x = d) | None => false end.

(** The loop of [attach] over the carriers: those kept, and the store with the live
    ones of the same direction marked dead. *)
Fixpoint displace (d : Direction) (l : list nat) (s : list tunnelCarrier) : list nat * list tunnelCarrier :=
  match l with
  | [] => ([], s)
  | old :: l =>
      if has_dir s d old && negb (is_dead s old) then displace d l (alter set_dead old s)
      else let '(live, s) := displace d l s in (old :: live, s)
  end.

(** [attach] of a stream of direction [d]. *)
Definition attach (now : Z) (d : Direction) (st : hub_state) : hub_state :=
  let h := hub st in
  let '(live, s) := displace d (carriers h) (store st) in
  {| hub := {| carriers := live ++ [length s]; opening := opening h; lastUse := now;
               reattached := reattached h + 1 |};
     store := s ++ [{| direction := d; dead := false; created := now; stream_closed := false |}];
     out := out st; spawned := spawned st |}.

(** Removes the first occurrence. *)
Fixpoint remove_first (c : nat) (l : list nat) : list nat :=
  match l with [] => [] | x :: l => if Nat.eqb x c then l else x :: remove_first c l end.

(** [maybeOpenLocked(reason, false)]: a goroutine opens a stream. *)
Definition maybeOpenAsync (st : hub_state) : hub_state :=
  if opening (hub st) then st
  else {| hub := with_opening true (hub st); store := store st; out := out st; spawned := S (spawned st) |}.

(** [openPeerStreamSync], from the answer of [OpenStream] on. *)
Definition opened (now : Z) (answer : option Direction) (st : hub_state) : hub_state :=
  let st := match answer with Some d => attach now d st | None => st end in
  with_hub (with_opening false (hub st)) st.

(** [maybeOpenLocked(reason, true)]. *)
Definition maybeOpenSync (now : Z) (answer : option Direction) (st : hub_state) : hub_state :=
  if opening (hub st) then st else opened now answer (with_hub (with_opening true (hub st)) st).

Definition detach (c : nat) (st : hub_state) : hub_state :=
  let h := hub st in
  let s := alter set_dead c (store st) in
  let found := existsb (Nat.eqb c) (carriers h) in
  let st := with_store s (with_hub (with_carriers (remove_first c (carriers h)) h) st) in
  let st := if found then maybeOpenAsync st else st in
  with_store (alter set_detached c (store st)) st.

(** [pump]: what one read does ([None]: an error that is not a timeout), given
    whether a sink is registered; the packets handed to the sink. *)
Definition pump_read (sink : bool) (c : nat) (msg : option bytes) (st : hub_state) : list bytes * hub_state :=
  match msg with
  | Some pkt => (if sink then [pkt] else [], st)
  | None => ([], detach c st)
  end.

(** ** Writing *)

(** The network during one attempt: the clock, the coin, the carriers whose first
    and second writes fail, and the answer to opening a stream. *)
Record attempt := {
  a_now : Z; a_flip : bool; a_fail : nat -> bool; a_fail2 : nat -> bool; a_open : option Direction
}.

Definition log_write (fails : bool) (c : nat) (pkt : bytes) (st : hub_state) : hub_state :=
  if fails then st
  else {| hub := hub st; store := store st; out := out st ++ [(c, pkt)]; spawned := spawned st |}.

(** The loop over the live carriers: whether the packet was written. *)
Fixpoint tryCarriers (a : attempt) (live : list nat) (pkt : bytes) (st : hub_state) : bool * hub_state :=
  match live with
  | [] => (false, st)
  | c :: rest =>
      if a_fail a c then tryCarriers a rest pkt (with_store (alter set_dead c (store st)) st)
      else
        let st := log_write false c pkt st in
        match rest with
        | c2 :: _ =>
            if (zlen pkt <? 100)
            then (true, log_write (a_fail2 a c2) c2 pkt (log_write (a_fail2 a c) c pkt st))
            else (true, st)
        | [] => (true, st)
        end
  end.

Definition live_carriers (st : hub_state) : list nat :=
  filter (fun c => is_dead (store st) c = false) (carriers (hub st)).

(** One turn after [rerunit]: [true] when [write] returns nil. *)
Definition write_attempt (a : attempt) (pkt : bytes) (st : hub_state) : bool * hub_state :=
  let st := with_hub (with_lastUse (a_now a) (hub st)) st in
  let live := live_carriers st in
  let live := if a_flip a then reverse live else live in
  match live with
  | [] => (false, maybeOpenSync (a_now a) (a_open a) st)
  | _ =>
      let '(ok, st) := tryCarriers a live pkt st in
      if ok then (true, st) else (false, maybeOpenSync (a_now a) (a_open a) st)
  end.

(** [write] with [n] turns left. *)
Fixpoint write_loop (n : nat) (env : nat -> attempt) (i : nat) (pkt : bytes) (st : hub_state)
  : res unit * hub_state :=
  match n with
  | O => (Fail "max retries execeed for carrier reconn", st)
  | S n =>
      let '(ok, st) := write_attempt (env i) pkt st in
      if ok then (Ok tt, st) else write_loop n env (S i) pkt st
  end.
Definition write (env : nat -> attempt) (pkt : bytes) (st : hub_state) : res unit * hub_state :=
  write_loop 48 env 0 pkt st.

(** ** All hubs *)
Notation hub_map := (gmap string hub_state).

Definition hubFor (peerID : string) (m : hub_map) : hub_state * hub_map :=
  match m !! peerID with
  | Some h => (h, m)
  | None => (new_state, <[peerID := new_state]> m)
  end.

Definition WriteToPeer (env : nat -> attempt) (peerID : string) (pkt : bytes) (m : hub_map) : res unit * hub_map :=
  let '(h, m) := hubFor peerID m in
  let '(r, h) := write env pkt h in (r, <[peerID := h]> m).

(** [handleStream]; [reject]: what [ShouldReject] says. *)
Definition handleStream (reject : bool) (now : Z) (peerID : string) (d : Direction) (m : hub_map) : hub_map :=
  if reject then m
  else let '(h, m) := hubFor peerID m in <[peerID := attach now d h]> m.

(** A tick of the reaper. *)
Definition hub_busy (h : hub_state) : bool :=
  opening (hub h) || existsb (fun c => negb (is_dead (store h) c)) (carriers (hub h)).
Definition hub_idle (now : Z) (h : hub_state) : bool := hubIdle <? time_sub now (lastUse (hub h)).
Definition reap (now : Z) (m : hub_map) : hub_map :=
  filter (fun e => negb (negb (hub_busy e.2) && hub_idle now e.2) = true) m.

(** ** Carriers of a hub *)
Definition is_live (s : list tunnelCarrier) (c : nat) : Prop := exists x, s !! c = Some x /\ dead x = false.

Lemma is_dead_false s c : is_dead s c = false <-> is_live s c.
Proof.
  unfold is_dead, is_live. destruct (s !! c) as [x|]; [|naive_solver]. naive_solver.
Qed.

(** Every live carrier is in the hub's list, once, and there is at most one live
    carrier of each direction. *)
Record hub_ok (st : hub_state) : Prop := {
  ho_nodup : NoDup (carriers (hub st));
  ho_bound : Forall (fun c => (c < length (store st))%nat) (carriers (hub st));
  ho_live : forall c, is_live (store st) c -> c ∈ carriers (hub st);
  ho_dir : forall c1 c2 x1 x2, store st !! c1 = Some x1 -> store st !! c2 = Some x2 ->
    dead x1 = false -> dead x2 = false -> direction x1 = direction x2 -> c1 = c2
}.

Definition displaced (d : Direction) (s : list tunnelCarrier) (c : nat) : bool :=
  has_dir s d c && negb (is_dead s c).

Lemma displaced_alter d s c old :
  c <> old -> displaced d (alter set_dead old s) c = displaced d s c.
Proof.
  intros Hne. unfold displaced, has_dir, is_dead. by rewrite list_lookup_alter_ne.
Qed.

Lemma displace_spec d l s :
  NoDup l -> forall live s', displace d l s = (live, s') ->
  length s' = length s /\ NoDup live /\
  (forall c, c ∈ live <-> c ∈ l /\ displaced d s c = false) /\
  (forall c, c ∈ l -> displaced d s c = true -> s' !! c = set_dead <$> s !! c) /\
  (forall c, ~ (c ∈ l /\ displaced d s c = true) -> s' !! c = s !! c).
Proof.
  intros Hnd. revert s. induction Hnd as [|old l Hold Hnd IH]; intros s live s' E; cbn [displace] in E.
  - injection E as <- <-. split; [done|]. split; [constructor|]. split; [set_solver|]. split; [set_solver|done].
  - fold (displaced d s old) in E. destruct (displaced d s old) eqn:Ed.
    + destruct (IH _ _ _ E) as (H1 & H2 & H3 & H4 & H5). rewrite length_alter in H1.
      assert (forall c, c ∈ l -> displaced d (alter set_dead old s) c = displaced d s c) as Hd
        by (intros c Hc; apply displaced_alter; intros ->; contradiction).
      split; [done|]. split; [done|]. split; [|split].
      * intros c. rewrite H3, elem_of_cons. split; [|intros [[->|Hc] Hf]; [congruence|by rewrite Hd]].
        intros [Hc Hf]. rewrite Hd in Hf by done. by split; [right|].
      * intros c Hc Hf. apply elem_of_cons in Hc as [->|Hc].
        -- rewrite H5 by (intros [? _]; contradiction). apply list_lookup_alter_eq.
        -- rewrite H4 by (rewrite ?Hd; done). rewrite list_lookup_alter_ne; [done|]. by intros ->.
      * intros c Hn. assert (c <> old) as Hne by (intros ->; apply Hn; by split; [apply list_elem_of_here|]).
        rewrite H5; [by rewrite list_lookup_alter_ne|].
        intros [Hc Hf]. rewrite Hd in Hf by done. apply Hn. by split; [apply list_elem_of_further|].
    + destruct (displace d l s) as [live0 s0] eqn:E0. injection E as <- <-.
      destruct (IH _ _ _ E0) as (H1 & H2 & H3 & H4 & H5). split; [done|]. split; [|split; [|split]].
      * constructor; [|done]. intros Hin. by apply H3 in Hin as [? _].
      * intros c. rewrite !elem_of_cons, H3. naive_solver.
      * intros c Hc Hf. apply elem_of_cons in Hc as [->|Hc]; [congruence|by apply H4].
      * intros c Hn. apply H5. intros [Hc Hf]. apply Hn. by split; [apply list_elem_of_further|].
Qed.

Lemma attach_ok now d st : hub_ok st -> hub_ok (attach now d st).
Proof.
  intros [H1 H2 H3 H4]. unfold attach. destruct (displace d (carriers (hub st)) (store st)) as [live s] eqn:E.
  destruct (displace_spec d _ _ H1 _ _ E) as (L1 & L2 & L3 & L4 & L5).
  rewrite Forall_forall in H2.
  assert (forall c x, s !! c = Some x -> dead x = false ->
    store st !! c = Some x /\ displaced d (store st) c = false) as Hlive.
  { intros c x Hx Hd. destruct (displaced d (store st) c) eqn:Ed.
    - assert (is_live (store st) c) as Hl.
      { unfold displaced in Ed. apply andb_true_iff in Ed as [_ Ed]. by apply negb_true_iff, is_dead_false in Ed. }
      rewrite L4 in Hx by auto. destruct (store st !! c) as [y|]; [|done].
      injection Hx as <-. done.
    - split; [|done]. rewrite L5 in Hx; [done|]. intros [_ ?]. congruence. }
  assert (forall c x, s !! c = Some x -> dead x = false -> direction x <> d) as Hnd.
  { intros c x Hx Hd Hdir. destruct (Hlive c x Hx Hd) as [Hs Hf].
    unfold displaced, has_dir, is_dead in Hf. rewrite Hs, Hd, bool_decide_true in Hf; done. }
  split; cbn [hub store carriers].
  - apply NoDup_app. split; [done|]. split; [|apply NoDup_singleton].
    intros c Hc Hin. apply list_elem_of_singleton in Hin as ->. apply L3 in Hc as [Hc _].
    specialize (H2 _ Hc). simpl in H2. lia.
  - apply Forall_forall. intros c Hc. rewrite length_app. simpl.
    apply elem_of_app in Hc as [Hc|Hc%list_elem_of_singleton]; [|lia].
    apply L3 in Hc as [Hc _]. specialize (H2 _ Hc). simpl in H2. lia.
  - intros c (x & Hx & Hd). apply elem_of_app. apply lookup_app_Some in Hx as [Hx|[Hlen Hx]].
    + left. destruct (Hlive c x Hx Hd) as [Hs Hf]. apply L3. split; [|done]. apply H3. by exists x.
    + right. apply list_lookup_singleton_Some in Hx as [Hx _]. apply list_elem_of_singleton. lia.
  - intros c1 c2 x1 x2 Hx1 Hx2 D1 D2 Hdir.
    apply lookup_app_Some in Hx1 as [Hx1|[Hl1 Hx1]]; apply lookup_app_Some in Hx2 as [Hx2|[Hl2 Hx2]].
    + destruct (Hlive _ _ Hx1 D1) as [Hs1 _], (Hlive _ _ Hx2 D2) as [Hs2 _]. by eapply H4.
    + apply list_lookup_singleton_Some in Hx2 as [_ <-]. exfalso. by apply (Hnd c1 x1).
    + apply list_lookup_singleton_Some in Hx1 as [_ <-]. exfalso. by apply (Hnd c2 x2).
    + apply list_lookup_singleton_Some in Hx1 as [? _], Hx2 as [? _]. lia.
Qed.

(** Killing a carrier. *)
Lemma kill_ok (f : tunnelCarrier -> tunnelCarrier) c st :
  (forall x, dead (f x) = true) -> hub_ok st -> hub_ok (with_store (alter f c (store st)) st).
Proof.
  intros Hf [H1 H2 H3 H4].
  assert (forall c' x, alter f c (store st) !! c' = Some x -> dead x = false -> store st !! c' = Some x) as Hl.
  { intros c' x Hx Hd. destruct (decide (c = c')) as [<-|Hne].
    - rewrite list_lookup_alter_eq in Hx. destruct (store st !! c) as [y|]; [|done].
      injection Hx as <-. by rewrite Hf in Hd.
    - by rewrite list_lookup_alter_ne in Hx. }
  split; cbn [with_store hub store]; [done| | |].
  - by rewrite length_alter.
  - intros c' (x & Hx & Hd). apply H3. exists x. auto.
  - intros c1 c2 x1 x2 Hx1 Hx2 D1 D2. apply (H4 c1 c2 x1 x2); auto.
Qed.

Lemma hub_ok_ext st st' :
  carriers (hub st') = carriers (hub st) -> store st' = store st -> hub_ok st -> hub_ok st'.
Proof. intros E1 E2 [H1 H2 H3 H4]. split; rewrite ?E1, ?E2; auto. Qed.

Lemma remove_first_spec c l : NoDup l -> NoDup (remove_first c l) /\ forall x, x ∈ remove_first c l <-> x ∈ l /\ x <> c.
Proof.
  induction 1 as [|y l Hy Hl [IH1 IH2]]; cbn [remove_first]; [split; [constructor|set_solver]|].
  destruct (Nat.eqb_spec y c) as [->|Hne].
  - split; [done|]. intros x. rewrite elem_of_cons. split; [|naive_solver].
    intros Hx. split; [by right|]. by intros ->.
  - split; [constructor; [by rewrite IH2; intros [? _]|done]|].
    intros x. rewrite !elem_of_cons, IH2. naive_solver.
Qed.

Lemma detach_ok c st : hub_ok st -> hub_ok (detach c st).
Proof.
  intros Hok. apply (kill_ok set_dead c) in Hok; [|done].
  apply (kill_ok set_detached c) in Hok; [|done]. destruct Hok as [H1 H2 H3 H4].
  cbn [with_store hub store] in *. destruct (remove_first_spec c _ H1) as [R1 R2].
  set (s := alter set_detached c (alter set_dead c (store st))) in *.
  assert (forall st', carriers (hub st') = remove_first c (carriers (hub st)) -> store st' = s -> hub_ok st') as Hst.
  { intros st' E1 E2. split; rewrite ?E1, ?E2; [done| | |done].
    - rewrite Forall_forall in *. intros x Hx. apply H2. by apply R2 in Hx as [? _].
    - intros c' Hc'. apply R2. split; [by apply H3|]. intros ->. destruct Hc' as (x & Hx & Hd).
      unfold s in Hx. rewrite !list_lookup_alter_eq in Hx. destruct (store st !! c); [|done]. by injection Hx as <-. }
  unfold detach, maybeOpenAsync. destruct (existsb _ _); [cbn; destruct (opening (hub st))|]; by apply Hst.
Qed.

Lemma opened_ok now ans st : hub_ok st -> hub_ok (opened now ans st).
Proof.
  intros Hok. unfold opened.
  assert (hub_ok (match ans with Some d => attach now d st | None => st end)) as H
    by (destruct ans; [by apply attach_ok|done]).
  revert H. generalize (match ans with Some d => attach now d st | None => st end).
  intros st' H. by apply (hub_ok_ext st').
Qed.

Lemma maybeOpenSync_ok now ans st : hub_ok st -> hub_ok (maybeOpenSync now ans st).
Proof.
  intros Hok. unfold maybeOpenSync. destruct (opening _); [done|]. apply opened_ok.
  by apply (hub_ok_ext st).
Qed.

Lemma tryCarriers_ok a live pkt st : hub_ok st -> hub_ok (tryCarriers a live pkt st).2.
Proof.
  revert st. induction live as [|c rest IH]; intros st Hok; [done|]. cbn [tryCarriers].
  destruct (a_fail a c); [by apply IH, kill_ok|]. unfold log_write.
  repeat case_match; by apply (hub_ok_ext st).
Qed.

Lemma write_attempt_ok a pkt st : hub_ok st -> hub_ok (write_attempt a pkt st).2.
Proof.
  intros Hok. unfold write_attempt.
  assert (hub_ok (with_hub (with_lastUse (a_now a) (hub st)) st)) as Hok1 by (by apply (hub_ok_ext st)).
  set (st1 := with_hub _ st) in *.
  destruct (if a_flip a then reverse (live_carriers st1) else live_carriers st1) as [|c l];
    [by apply maybeOpenSync_ok|].
  pose proof (tryCarriers_ok a (c :: l) pkt st1 Hok1) as Ht.
  destruct (tryCarriers a (c :: l) pkt st1) as [[] st2]; [done|by apply maybeOpenSync_ok].
Qed.

Lemma write_loop_ok n env i pkt st : hub_ok st -> hub_ok (write_loop n env i pkt st).2.
Proof.
  revert i st. induction n as [|n IH]; intros i st Hok; [done|]. cbn [write_loop].
  pose proof (write_attempt_ok (env i) pkt st Hok) as Ha.
  destruct (write_attempt (env i) pkt st) as [[] st']; [done|by apply IH].
Qed.

Inductive hub_event :=
  | EvAttach (now : Z) (d : Direction) | EvPump (sink : bool) (c : nat) (msg : option bytes)
  | EvOpened (now : Z) (answer : option Direction) | EvWrite (env : nat -> attempt) (pkt : bytes).

Definition hub_step (st : hub_state) (e : hub_event) : hub_state :=
  match e with
  | EvAttach now d => attach now d st
  | EvPump sink c msg => (pump_read sink c msg st).2
  | EvOpened now ans => opened now ans st
  | EvWrite env pkt => (write env pkt st).2
  end.

(** C30. However streams arrive, fail and are reopened and packets are written, a hub's
    list has every live carrier exactly once and never two live carriers of the same
    direction, so that there are at most three. *)
Theorem tunnel_hub_ok l :
  let st := foldl hub_step new_state l in
  NoDup (carriers (hub st)) /\
  (forall c, is_live (store st) c -> c ∈ carriers (hub st)) /\
  (forall c1 c2 x1 x2, store st !! c1 = Some x1 -> store st !! c2 = Some x2 ->
     dead x1 = false -> dead x2 = false -> direction x1 = direction x2 -> c1 = c2) /\
  (length (live_carriers st) <= 3)%nat.
Proof.
  intros st. assert (hub_ok st) as [H1 H2 H3 H4].
  { unfold st. assert (hub_ok new_state) as H0.
    { split; cbn; [constructor|constructor| |].
      - intros c (x & Hx & _). by rewrite lookup_nil in Hx.
      - intros c1 c2 x1 x2 Hx. by rewrite lookup_nil in Hx. }
    revert H0. generalize new_state. induction l as [|e l IH]; intros s Hs; [done|]. apply IH.
    destruct e as [now d|sink c [pkt|]|now ans|env pkt]; cbn [hub_step pump_read snd].
    - by apply attach_ok.
    - done.
    - by apply detach_ok.
    - by apply opened_ok.
    - by apply write_loop_ok. }
  split; [done|]. split; [done|]. split; [done|].
  set (dir_of c := match store st !! c with Some x => direction x | None => DirUnknown end).
  assert (NoDup (map dir_of (live_carriers st))) as Hnd.
  { apply NoDup_fmap_2_strong; [|by apply NoDup_filter].
    intros c1 c2 [L1 _]%list_elem_of_filter [L2 _]%list_elem_of_filter E.
    apply is_dead_false in L1 as (x1 & X1 & D1), L2 as (x2 & X2 & D2).
    unfold dir_of in E. rewrite X1, X2 in E. by eapply H4. }
  rewrite <- (length_map dir_of). change 3%nat with (length [DirUnknown; DirInbound; DirOutbound]).
  apply submseteq_length, NoDup_submseteq; [done|].
  intros [] _; set_solver.
Qed.

(** ** Writing a packet *)
Lemma tryCarriers_out a live pkt st ok st' :
  tryCarriers a live pkt st = (ok, st') ->
  exists l, out st' = out st ++ map (fun c => (c, pkt)) l /\ (forall c, c ∈ l -> c ∈ live) /\
    (ok = false -> l = []) /\ (ok = true -> (1 <= length l <= 3)%nat /\ (100 <= zlen pkt -> length l = 1%nat)) /\
    (ok = true <-> existsb (fun c => negb (a_fail a c)) live = true) /\
    opening (hub st') = opening (hub st).
Proof.
  revert st. induction live as [|c rest IH]; intros st E; cbn [tryCarriers] in E.
  { injection E as <- <-. exists []. rewrite app_nil_r. split; [done|]. split; [done|]. by repeat split. }
  cbn [existsb]. destruct (a_fail a c) eqn:Ef.
  - destruct (IH _ E) as (l & H1 & H2 & H3 & H4 & H5 & H6). exists l. split; [done|].
    split; [intros x Hx; right; by apply H2|]. by repeat split; try apply H5; try apply H4.
  - cbn [negb orb].
    assert (forall k, k = [c] \/ k = [c; c] \/ (exists c2 r2, rest = c2 :: r2 /\ (k = [c; c2] \/ k = [c; c; c2])) ->
      forall x, x ∈ k -> x ∈ c :: rest) as Hin.
    { intros k [-> | [-> | (c2 & r2 & -> & [-> | ->])]]; set_solver. }
    destruct rest as [|c2 rest].
    { injection E as <- <-. exists [c]. split; [done|]. split; [by apply Hin; left|]. repeat split; simpl; lia. }
    destruct (Z.ltb_spec (zlen pkt) 100) as [Hl|Hl].
    + injection E as <- <-. unfold log_write.
      destruct (a_fail2 a c), (a_fail2 a c2); cbn [out hub opening].
      * exists [c]. split; [done|]. split; [by apply Hin; left|]. repeat split; simpl; lia.
      * exists [c; c2]. split; [by rewrite <- app_assoc|]. split; [apply Hin; right; right; eauto|]. repeat split; simpl; lia.
      * exists [c; c]. split; [by rewrite <- app_assoc|]. split; [apply Hin; auto|]. repeat split; simpl; lia.
      * exists [c; c; c2]. split; [by rewrite <- !app_assoc|]. split; [apply Hin; right; right; eauto 6|]. repeat split; simpl; lia.
    + injection E as <- <-. exists [c]. split; [done|]. split; [by apply Hin; left|]. repeat split; simpl; lia.
Qed.

Lemma maybeOpenSync_spec now ans st :
  let st' := maybeOpenSync now ans st in
  out st' = out st /\
  (opening (hub st) = false -> opening (hub st') = false /\ (is_Some ans -> exists c, c ∈ live_carriers st')).
Proof.
  unfold maybeOpenSync. destruct (opening (hub st)) eqn:Eo; [done|]. unfold opened.
  destruct ans as [d|]; [|split; [done|]; intros _; split; [done|]; by intros []].
  unfold attach. cbn [with_hub hub store carriers with_opening].
  destruct (displace d (carriers (hub st)) (store st)) as [live s]. split; [done|].
  intros _. split; [done|]. intros _. exists (length s).
  apply list_elem_of_filter. cbn [with_hub hub store carriers with_opening]. split.
  - unfold is_dead. by rewrite lookup_app_r, Nat.sub_diag by lia.
  - apply elem_of_app. right. by apply list_elem_of_singleton.
Qed.

Lemma existsb_elem {A} (f : A -> bool) l : existsb f l = true <-> exists x, x ∈ l /\ f x = true.
Proof. rewrite existsb_exists. by setoid_rewrite list_elem_of_In. Qed.

Definition deliverable (a : attempt) (st : hub_state) : Prop :=
  exists c, c ∈ live_carriers st /\ a_fail a c = false.

Lemma write_attempt_spec a pkt st ok st' :
  write_attempt a pkt st = (ok, st') ->
  (exists l, out st' = out st ++ map (fun c => (c, pkt)) l /\ (forall c, c ∈ l -> c ∈ live_carriers st) /\
    (ok = false -> l = []) /\ (ok = true -> (1 <= length l <= 3)%nat /\ (100 <= zlen pkt -> length l = 1%nat))) /\
  (ok = true <-> deliverable a st) /\
  (opening (hub st) = false -> opening (hub st') = false /\
     (ok = false -> is_Some (a_open a) -> exists c, c ∈ live_carriers st')).
Proof.
  intros E. unfold write_attempt in E.
  set (st1 := with_hub (with_lastUse (a_now a) (hub st)) st) in *.
  assert (live_carriers st1 = live_carriers st) as El by done. rewrite El in E.
  set (live := if a_flip a then reverse (live_carriers st) else live_carriers st) in *.
  assert (forall c, c ∈ live <-> c ∈ live_carriers st) as Hlive
    by (intros c; unfold live; destruct (a_flip a); [apply elem_of_reverse|done]).
  assert (deliverable a st <-> existsb (fun c => negb (a_fail a c)) live = true) as Hd.
  { rewrite existsb_elem. unfold deliverable.
    split; intros (c & Hc & Hf); exists c; (split; [destruct (Hlive c); auto|by apply negb_true_iff]). }
  pose proof (tryCarriers_out a live pkt st1) as Ht.
  destruct live as [|c0 rest] eqn:Elive.
  - injection E as <- <-. destruct (maybeOpenSync_spec (a_now a) (a_open a) st1) as [H1 H2].
    split; [|split].
    + exists []. rewrite H1, app_nil_r. split; [done|]. split; [by intros c ?%elem_of_nil|]. by split.
    + rewrite Hd. done.
    + intros Ho. destruct (H2 Ho) as [H3 H4]. by split.
  - destruct (tryCarriers a (c0 :: rest) pkt st1) as [ok2 st2] eqn:Et.
    destruct (Ht _ _ eq_refl) as (l & T1 & T2 & T3 & T4 & T5 & T6).
    destruct ok2; injection E as <- <-.
    + split; [exists l; split; [done|]; split; [intros c Hc; by apply Hlive, T2|by split]|].
      split; [by rewrite Hd|]. intros Ho. by rewrite T6.
    + destruct (maybeOpenSync_spec (a_now a) (a_open a) st2) as [H1 H2].
      split; [exists l; rewrite H1; split; [done|]; split; [intros c Hc; by apply Hlive, T2|by split]|].
      split; [by rewrite Hd|]. intros Ho. destruct (H2 ltac:(by rewrite T6)) as [H3 H4]. by split.
Qed.

Lemma write_loop_spec n env i pkt st r st' :
  write_loop n env i pkt st = (r, st') ->
  (r = Ok tt \/ r = Fail "max retries execeed for carrier reconn") /\
  (exists l, out st' = out st ++ map (fun c => (c, pkt)) l /\ (r <> Ok tt -> l = []) /\
    (r = Ok tt -> (1 <= length l <= 3)%nat /\ (100 <= zlen pkt -> length l = 1%nat))) /\
  (opening (hub st) = false ->
   (exists j, (j < n)%nat /\ is_Some (a_open (env (i + j)%nat)) /\ (S j < n)%nat /\
      forall c, a_fail (env (i + S j)%nat) c = false) -> r = Ok tt).
Proof.
  revert i st. induction n as [|n IH]; intros i st E; cbn [write_loop] in E.
  - injection E as <- <-. split; [by right|]. split; [exists []; by rewrite app_nil_r|].
    intros _ (j & Hj & _). lia.
  - destruct (write_attempt (env i) pkt st) as [ok st1] eqn:Ea.
    destruct (write_attempt_spec _ _ _ _ _ Ea) as ((l & A1 & _ & A3 & A4) & A5 & A6).
    destruct ok.
    + injection E as <- <-. split; [by left|]. split; [exists l; split; [done|]; split; [done|intros _; by apply A4]|done].
    + destruct (IH _ _ E) as (B1 & (l2 & B2 & B3 & B4) & B5). split; [done|]. split.
      * exists l2. rewrite B2, A1, (A3 eq_refl). cbn. by rewrite app_nil_r.
      * intros Ho (j & Hj & Hopen & HSj & Hfail). destruct (A6 Ho) as [Ho1 Hlive].
        destruct j as [|j].
        -- rewrite Nat.add_0_r in Hopen. destruct (Hlive eq_refl Hopen) as [c Hc].
           destruct n as [|n]; [lia|]. cbn [write_loop] in E.
           destruct (write_attempt (env (S i)) pkt st1) as [ok2 st2] eqn:Ea2.
           destruct (write_attempt_spec _ _ _ _ _ Ea2) as (_ & C5 & _).
           assert (ok2 = true) as ->.
           { apply C5. exists c. split; [done|]. replace (i + 1)%nat with (S i) in Hfail by lia. apply Hfail. }
           by injection E as <- _.
        -- apply B5; [done|]. exists j. replace (S i + j)%nat with (i + S j)%nat by lia.
           replace (S i + S j)%nat with (i + S (S j))%nat by lia. repeat split; [lia|done|lia|done].
Qed.


(** A tick of the reaper removes exactly the hubs that have no live carrier, are
    opening none and have been unused for more than two minutes; the packet layer
    then starts over with a new hub. *)
Theorem tunnel_reap now m peer :
  reap now m !! peer =
    match m !! peer with
    | Some h => if negb (hub_busy h) && hub_idle now h then None else Some h
    | None => None
    end /\
  (forall h, m !! peer = Some h -> live_carriers h <> [] -> reap now m !! peer = Some h) /\
  (forall h, m !! peer = Some h -> 0 <= now - lastUse (hub h) <= hubIdle -> reap now m !! peer = Some h) /\
  (forall h, m !! peer = Some h -> live_carriers h = [] -> opening (hub h) = false ->
     hubIdle < now - lastUse (hub h) -> hubFor peer (reap now m) = (new_state, <[peer := new_state]> (reap now m))).
Proof.
  assert (reap now m !! peer =
    match m !! peer with
    | Some h => if negb (hub_busy h) && hub_idle now h then None else Some h
    | None => None
    end) as E.
  { unfold reap. destruct (m !! peer) as [h|] eqn:Em.
    - destruct (negb (hub_busy h) && hub_idle now h) eqn:Eb.
      + apply map_lookup_filter_None. right. intros h' Hh. assert (h' = h) as -> by congruence. simpl.
        by rewrite Eb.
      + apply map_lookup_filter_Some. simpl. by rewrite Eb.
    - apply map_lookup_filter_None. by left. }
  assert (forall h, existsb (fun c => negb (is_dead (store h) c)) (carriers (hub h)) = true <-> live_carriers h <> []) as Hb.
  { intros h. rewrite existsb_elem. unfold live_carriers. setoid_rewrite negb_true_iff. split.
    - intros (c & Hc & Hd) Hf. assert (c ∈ filter (fun c => is_dead (store h) c = false) (carriers (hub h))) as Hin
        by (by apply list_elem_of_filter). rewrite Hf in Hin. by apply elem_of_nil in Hin.
    - intros Hf. destruct (filter _ _) as [|c l] eqn:El; [done|]. exists c.
      assert (c ∈ filter (fun c => is_dead (store h) c = false) (carriers (hub h))) as Hin
        by (rewrite El; apply list_elem_of_here). apply list_elem_of_filter in Hin as [? ?]. by split. }
  split; [done|]. split; [|split].
  - intros h Hm Hl. rewrite E, Hm. apply Hb in Hl. unfold hub_busy. by rewrite Hl, orb_true_r.
  - intros h Hm Hl. rewrite E, Hm. unfold hub_idle. rewrite time_sub_small by (unfold hubIdle, minute, second, min_int64, max_int64 in *; lia).
    destruct (Z.ltb_spec hubIdle (now - lastUse (hub h))); [lia|]. by rewrite andb_false_r.
  - intros h Hm Hl Ho Hi. unfold hubFor. rewrite E, Hm.
    assert (hub_busy h = false) as ->.
    { unfold hub_busy. rewrite Ho. cbn [orb]. destruct (existsb _ _) eqn:Ex; [|done]. by apply Hb in Ex. }
    unfold hub_idle. assert (hubIdle <? time_sub now (lastUse (hub h)) = true) as ->; [|done].
    apply Z.ltb_lt, time_sub_gt; [by split|done].
Qed.

(** ** The theorems at concrete inputs *)
Definition calm (open : option Direction) : attempt :=
  {| a_now := epoch; a_flip := false; a_fail := fun _ => false; a_fail2 := fun _ => false; a_open := open |}.


(** A stream the peer has opened is written to, also if there is no other. *)
Theorem inbound_carrier_written :
  let r := write (fun _ => calm None) [1; 2; 3] (attach epoch DirInbound new_state) in
  r.1 = Ok tt /\ out r.2 <> [].
Proof. vm_compute. split; [reflexivity|discriminate]. Qed.

Lemma tunnel_reap_witness :
  reap (epoch + 3 * minute) {["p" := with_hub (with_lastUse epoch newHub) new_state]} !! "p" = None /\
  reap (epoch + minute) {["p" := with_hub (with_lastUse epoch newHub) new_state]} !! "p"
    = Some (with_hub (with_lastUse epoch newHub) new_state).
Proof.
  split.
  - destruct (tunnel_reap (epoch + 3 * minute) {["p" := with_hub (with_lastUse epoch newHub) new_state]} "p") as [-> _].
    reflexivity.
  - apply (tunnel_reap (epoch + minute) {["p" := with_hub (with_lastUse epoch newHub) new_state]} "p");
      [reflexivity|]. vm_compute. split; discriminate.
Defined.
