(* ===== verification/Events.v ===== *)
(** * The event buffers and the polling clients

    Module [EventBuffer]: the ring buffer of each topic in src/p2put/utapi.go ([push],
    [replay]) and the backlog [onEvents] of restapi.go takes from them.  Module [Bus]:
    the clients that wait in [onEvents], each with a channel of 128 events, and the two
    ways an event reaches them, [broadcastLoop] (utapi.go) and [topicListener]
    (pso_pubsub.go). *)

From Stdlib Require Import Sorted.
From S2P Require Import Prelude GoLib GoNet.

(** ** The event buffer *)
Module EventBuffer.
Section event.
Context {V : Type}.

Record Event := { EventID : Z; Type_ : string; Topic : string; Value : V }.

Definition eventBufCap : nat := 128.
Definition maxCap : nat := 0.

Record eventBuffer := { events : list Event; lastID : Z }.
Definition newBuffer : eventBuffer := {| events := []; lastID := 0 |}.

Definition with_id (id : Z) (e : Event) : Event :=
  {| EventID := id; Type_ := Type_ e; Topic := Topic e; Value := Value e |}.

(** [push] at the time [now], in nanoseconds of Unix time. *)
Definition push (now : Z) (evt : Event) (eb : eventBuffer) : eventBuffer :=
  let id := if now <=? lastID eb then lastID eb + 1 else now in
  let l := events eb ++ [with_id id evt] in
  {| events := if (eventBufCap <? length l)%nat then drop (length l - eventBufCap) l else l;
     lastID := id |}.

Definition replay (afterID : Z) (eb : eventBuffer) : list Event :=
  filter (fun e => afterID < EventID e) (events eb).

Definition hasTopic (topics : list string) (topic : string) : bool :=
  existsb (fun t => String.eqb t topic) topics.

(** [pushToBuf]: one buffer per topic. *)
Definition pushToBuf (now : Z) (evt : Event) (m : gmap string eventBuffer) : gmap string eventBuffer :=
  <[Topic evt := push now evt (default newBuffer (m !! Topic evt))]> m.

(** The events [onEvents] takes from the buffers for a poll. *)
Definition backlog `{GoSort} (topics : list string) (after : Z) (m : gmap string eventBuffer) : list Event :=
  let evs := concat (map (fun t => match m !! t with Some eb => replay after eb | None => [] end)
                         (topics ++ [""])) in
  let evs := sort_slice (fun a b => EventID a <? EventID b) evs in
  if (maxCap <? length evs)%nat then take maxCap evs else evs.

Definition pushes (l : list (Z * Event)) (eb : eventBuffer) : eventBuffer :=
  foldl (fun eb p => push p.1 p.2 eb) eb l.

(** The numbers [push] gives, without the bound on the buffer. *)
Fixpoint numbered (last : Z) (l : list (Z * Event)) : list Event :=
  match l with
  | [] => []
  | (now, e) :: l =>
      let id := if now <=? last then last + 1 else now in with_id id e :: numbered id l
  end.

Definition last_n (n : nat) {A} (l : list A) : list A := drop (length l - n) l.

Lemma last_n_snoc n {A} (l : list A) x : (0 < n)%nat -> last_n n (last_n n l ++ [x]) = last_n n (l ++ [x]).
Proof.
  intros Hn. unfold last_n. rewrite !length_app, length_drop. simpl.
  destruct (Nat.le_gt_cases (length l) n).
  - replace (length l - n)%nat with 0%nat by lia. rewrite drop_0. f_equal. lia.
  - rewrite !drop_app_le by (rewrite ?length_drop; lia). rewrite drop_drop. do 2 f_equal. lia.
Qed.

Lemma numbered_app last l1 l2 :
  numbered last (l1 ++ l2) =
  numbered last l1 ++ numbered (lastID (pushes l1 {| events := []; lastID := last |})) l2.
Proof.
  revert last. induction l1 as [|[now e] l1 IH]; intros last; [done|]. cbn [app numbered pushes foldl fst snd].
  rewrite IH. simpl app at 2. f_equal. f_equal. f_equal.
  assert (forall l eb1 eb2, lastID eb1 = lastID eb2 -> lastID (pushes l eb1) = lastID (pushes l eb2)) as H.
  { clear. induction l as [|[n e] l IH]; intros eb1 eb2 E; [done|]. apply IH. unfold push. simpl. by rewrite E. }
  by apply H.
Qed.

Lemma pushes_last l eb : lastID (pushes l eb) = lastID (pushes l {| events := []; lastID := lastID eb |}).
Proof.
  assert (forall l eb1 eb2, lastID eb1 = lastID eb2 -> lastID (pushes l eb1) = lastID (pushes l eb2)) as H.
  { clear. induction l as [|[n e] l IH]; intros eb1 eb2 E; [done|]. apply IH. unfold push. simpl. by rewrite E. }
  by apply H.
Qed.

Lemma pushes_events l eb :
  (length (events eb) <= eventBufCap)%nat ->
  events (pushes l eb) = last_n eventBufCap (events eb ++ numbered (lastID eb) l).
Proof.
  revert eb. induction l as [|[now e] l IH]; intros eb Hl.
  - simpl. rewrite app_nil_r. unfold last_n. by replace (length (events eb) - eventBufCap)%nat with 0%nat by lia.
  - cbn [pushes foldl fst snd numbered]. fold (pushes l (push now e eb)).
    set (id := if now <=? lastID eb then lastID eb + 1 else now).
    assert (events (push now e eb) = last_n eventBufCap (events eb ++ [with_id id e])) as Ee.
    { unfold push. fold id. cbn [events]. unfold last_n.
      destruct (Nat.ltb_spec eventBufCap (length (events eb ++ [with_id id e]))); [done|].
      replace (length (events eb ++ [with_id id e]) - eventBufCap)%nat with 0%nat by lia. done. }
    rewrite IH, Ee.
    + change (lastID (push now e eb)) with id.
      replace (events eb ++ with_id id e :: numbered id l) with ((events eb ++ [with_id id e]) ++ numbered id l)
        by (by rewrite <- app_assoc).
      generalize (events eb ++ [with_id id e]) as a, (numbered id l) as b. intros a b.
      unfold last_n. rewrite !length_app, length_drop.
      destruct (Nat.le_gt_cases (length a) eventBufCap).
      * replace (length a - eventBufCap)%nat with 0%nat by lia. by rewrite Nat.sub_0_r, drop_0.
      * rewrite <- (drop_app_le a b) by lia. rewrite drop_drop. f_equal. lia.
    + rewrite Ee. unfold last_n. rewrite length_drop. lia.
Qed.

Lemma numbered_above last l : Forall (fun e => last < EventID e) (numbered last l).
Proof.
  revert last. induction l as [|[now e] l IH]; intros last; [constructor|]. cbn [numbered].
  set (id := if now <=? last then last + 1 else now).
  assert (last < id) by (unfold id; destruct (Z.leb_spec now last); lia).
  constructor; [done|]. eapply Forall_impl; [apply IH|]. simpl. lia.
Qed.

Lemma numbered_below last l :
  Forall (fun e => EventID e <= lastID (pushes l {| events := []; lastID := last |})) (numbered last l) /\
  last <= lastID (pushes l {| events := []; lastID := last |}).
Proof.
  revert last. induction l as [|[now e] l IH]; intros last; [split; [constructor|done]|].
  cbn [numbered pushes foldl fst snd]. fold (pushes l (push now e {| events := []; lastID := last |})).
  rewrite pushes_last. change (lastID (push now e {| events := []; lastID := last |}))
    with (if now <=? last then last + 1 else now).
  set (id := if now <=? last then last + 1 else now) in *.
  assert (last < id) by (unfold id; destruct (Z.leb_spec now last); lia).
  destruct (IH id) as [H1 H2]. split; [by constructor|lia].
Qed.

Lemma numbered_sorted last l : StronglySorted (fun a b => EventID a < EventID b) (numbered last l).
Proof.
  revert last. induction l as [|[now e] l IH]; intros last; [constructor|]. cbn [numbered].
  constructor; [apply IH|]. apply numbered_above.
Qed.

Lemma length_numbered last l : length (numbered last l) = length l.
Proof. revert last. induction l as [|[now e] l IH]; intros last; [done|]. cbn [numbered length]. by rewrite IH. Qed.

Lemma backlog_nil `{GoSort} ts after m : backlog ts after m = [].
Proof.
  unfold backlog. set (evs := sort_slice _ _).
  destruct (Nat.ltb_spec maxCap (length evs)); [done|].
  unfold maxCap in *. destruct evs; [done|simpl in *; lia].
Qed.

(** Whatever the clock does, the events of a topic get strictly increasing numbers,
    the buffer holds the last 128 in order, and a client that asks for what came after
    the last number of the buffer misses nothing as long as at most 128 events came in
    between.  But the answer to a poll is cut to [maxCap], which is 0: nothing of the
    backlog is ever sent. *)
Theorem replay_complete l1 l2 :
  (length l2 <= eventBufCap)%nat ->
  let eb1 := pushes l1 newBuffer in let eb2 := pushes (l1 ++ l2) newBuffer in
  StronglySorted (fun a b => EventID a < EventID b) (events eb2) /\
  events eb2 = last_n eventBufCap (numbered 0 (l1 ++ l2)) /\
  replay (lastID eb1) eb2 = numbered (lastID eb1) l2 /\
  (forall `{GoSort} topics after m, backlog topics after m = []).
Proof.
  intros Hl eb1 eb2.
  assert (events eb2 = last_n eventBufCap (numbered 0 (l1 ++ l2))) as Ee
    by (unfold eb2; by rewrite pushes_events by (simpl; lia)).
  split; [|split; [done|split]].
  - rewrite Ee. unfold last_n. pose proof (numbered_sorted 0 (l1 ++ l2)) as Hs. revert Hs.
    rewrite <- (take_drop (length (numbered 0 (l1 ++ l2)) - eventBufCap) (numbered 0 (l1 ++ l2))) at 1.
    generalize (take (length (numbered 0 (l1 ++ l2)) - eventBufCap) (numbered 0 (l1 ++ l2))).
    intros k. induction k as [|x k IH]; [done|]. intros Hs. apply IH. by inversion Hs.
  - unfold replay. rewrite Ee. rewrite numbered_app. fold newBuffer. fold eb1.
    set (a := numbered 0 l1). set (b := numbered (lastID eb1) l2).
    assert (length b = length l2) as Lb by apply length_numbered.
    assert (exists k, last_n eventBufCap (a ++ b) = drop k a ++ b) as [k ->].
    { exists (length a + length b - eventBufCap)%nat. unfold last_n. rewrite length_app.
      rewrite drop_app_le by lia. done. }
    rewrite filter_app.
    assert (filter (fun e => lastID eb1 < EventID e) (drop k a) = []) as ->.
    { destruct (numbered_below 0 l1) as [Hb _]. fold newBuffer in Hb. fold eb1 in Hb. fold a in Hb.
      apply (Forall_drop _ k) in Hb. induction Hb as [|x r Hx Hr IH]; [done|].
      rewrite filter_cons_False by lia. exact IH. }
    assert (Forall (fun e => lastID eb1 < EventID e) b) as Hb by apply numbered_above.
    rewrite app_nil_l. clear Lb. induction Hb as [|x r Hx Hr IH]; [done|].
    rewrite filter_cons_True by done. f_equal. exact IH.
  - intros HS topics after m. apply backlog_nil.
Qed.
End event.
End EventBuffer.

(** ** The bus: clients that poll

    A client is a call of [onEvents] that is waiting: its channel, the topics it asked
    for (empty: no entry in [clientTopics]), the events collected so far and the point of
    the function it is at. *)
Module Bus.
Import EventBuffer.
Section bus.
Context {V : Type} `{GoSort}.

Inductive phase := Drain | First | Collect_more.
Inductive reply := Events (l : list (Event (V:=V))) | TimeoutReply | NoReply.

Record client := { queue : list (Event (V:=V)); topics : list string; got : list (Event (V:=V)); at_phase : phase }.
Record bus := { clients : gmap nat client; topicBuf : gmap string (eventBuffer (V:=V)) }.

Definition chanCap : nat := 128.
Definition maxAnswer : nat := 20.

(** [ch <- evt] with a default case. *)
Definition offer (evt : Event) (c : client) : client :=
  if (length (queue c) <? chanCap)%nat
  then {| queue := queue c ++ [evt]; topics := topics c; got := got c; at_phase := at_phase c |}
  else c.

Definition fireClients (evt : Event) (b : bus) : bus :=
  {| clients := offer evt <$> clients b; topicBuf := topicBuf b |}.

(** The part of [topicListener] that hands an event to the clients: only those that
    named the topic. *)
Definition fireTopic (topic : string) (evt : Event) (b : bus) : bus :=
  {| clients := (fun c => if hasTopic (topics c) topic then offer evt c else c) <$> clients b;
     topicBuf := topicBuf b |}.

Definition buffered (now : Z) (evt : Event) (b : bus) : bus :=
  {| clients := clients b; topicBuf := pushToBuf now evt (topicBuf b) |}.

(** One turn of [broadcastLoop]: [now] is the time of the number given to the event,
    [now'] the time of [push]. *)
Definition broadcast (now now' : Z) (raw : Event) (b : bus) : bus :=
  let evt := with_id now raw in buffered now' evt (fireClients evt b).

Definition listened (now now' : Z) (topic : string) (raw : Event) (b : bus) : bus :=
  let evt := with_id now raw in buffered now' evt (fireTopic topic evt b).

Definition set_client (c : nat) (cl : client) (b : bus) : bus :=
  {| clients := <[c := cl]> (clients b); topicBuf := topicBuf b |}.
Definition close_client (c : nat) (b : bus) : bus :=
  {| clients := delete c (clients b); topicBuf := topicBuf b |}.

(** [onEvents] up to the first [select]. *)
Definition open_poll (c : nat) (ts : list string) (after : Z) (b : bus) : bus * option reply :=
  let evs := backlog ts after (topicBuf b) in
  if (0 <? length evs)%nat then (close_client c b, Some (Events evs))
  else (set_client c {| queue := []; topics := ts; got := []; at_phase := Drain |} b, None).

(** What can wake a [select] besides an event of the channel: a [default], the timers,
    the request that is cancelled. *)
Inductive wake := Take | Elapsed | Done.

Definition finish (c : nat) (r : reply) (b : bus) : bus * option reply := (close_client c b, Some r).

Definition take_one (c : nat) (cl : client) (ph : phase) (b : bus) : bus * option reply :=
  match queue cl with
  | e :: q => (set_client c {| queue := q; topics := topics cl; got := got cl ++ [e]; at_phase := ph |} b, None)
  | [] => (b, None)
  end.

Definition goto (c : nat) (cl : client) (ph : phase) (b : bus) : bus * option reply :=
  (set_client c {| queue := queue cl; topics := topics cl; got := got cl; at_phase := ph |} b, None).

Definition poll_turn (c : nat) (w : wake) (b : bus) : bus * option reply :=
  match clients b !! c with
  | None => (b, None)
  | Some cl =>
      let full := negb (length (got cl) <? maxAnswer)%nat in
      match at_phase cl with
      | Drain =>
          if full then finish c (Events (got cl)) b
          else match queue cl with
               | _ :: _ => take_one c cl Drain b
               | [] => goto c cl (if (0 <? length (got cl))%nat then Collect_more else First) b
               end
      | First =>
          match w with
          | Take => take_one c cl Collect_more b
          | Elapsed => finish c TimeoutReply b
          | Done => finish c NoReply b
          end
      | Collect_more =>
          if full then finish c (Events (got cl)) b
          else match w with
               | Take => take_one c cl Collect_more b
               | Elapsed => finish c (Events (got cl)) b
               | Done => finish c NoReply b
               end
      end
  end.

Inductive op :=
  | Open (c : nat) (ts : list string) (after : Z)
  | Broadcast (now now' : Z) (raw : Event (V:=V))
  | Listen (now now' : Z) (topic : string) (raw : Event (V:=V))
  | Turn (c : nat) (w : wake).

Definition step (b : bus) (o : op) : bus * option (nat * reply) :=
  match o with
  | Open c ts after => let (b, r) := open_poll c ts after b in (b, pair c <$> r)
  | Broadcast now now' raw => (broadcast now now' raw b, None)
  | Listen now now' topic raw => (listened now now' topic raw b, None)
  | Turn c w => let (b, r) := poll_turn c w b in (b, pair c <$> r)
  end.

(** The states after each step and the answers, in order. *)
Fixpoint run (b : bus) (l : list op) : bus * list (nat * reply) :=
  match l with
  | [] => (b, [])
  | o :: l => let (b, r) := step b o in let (b', rs) := run b l in (b', option_list r ++ rs)
  end.

(** The events an operation offers to a client that named the topics [ts]. *)
Definition offered (ts : list string) (o : op) : list Event :=
  match o with
  | Broadcast now _ raw => [with_id now raw]
  | Listen now _ topic raw => if hasTopic ts topic then [with_id now raw] else []
  | _ => []
  end.

Definition opens (c : nat) (o : op) : bool := match o with Open c' _ _ => Nat.eqb c c' | _ => false end.

(** *** What a client is answered *)
Definition answers (c : nat) (rs : list (nat * reply)) : list reply :=
  snd <$> filter (fun p => p.1 = c) rs.

Lemma answers_other c c' (r : option reply) : c' <> c -> answers c (option_list (pair c' <$> r)) = [].
Proof. intros Hne. destruct r; [|done]. unfold answers. cbn. by rewrite decide_False. Qed.
Lemma answers_same c r : answers c [(c, r)] = [r].
Proof. unfold answers. cbn. by rewrite decide_True. Qed.
Lemma answers_app c l k : answers c (l ++ k) = answers c l ++ answers c k.
Proof. unfold answers. by rewrite filter_app, fmap_app. Qed.

Definition offers (ts : list string) (l : list op) : list (Event (V:=V)) := concat (map (offered ts) l).

Definition held (cl : client) : list (Event (V:=V)) := got cl ++ queue cl.

Definition client_ok (cl : client) : Prop :=
  (length (got cl) <= maxAnswer)%nat /\ (length (queue cl) <= chanCap)%nat /\
  match at_phase cl with Drain => True | First => got cl = [] | Collect_more => got cl <> [] end.

(** [cl'] is [cl] after the events [off] were offered: it holds some of them, all when
    they fit in the channel, and what it collected is still there. *)
Record grown (cl : client) (off : list (Event (V:=V))) (cl' : client) : Prop := {
  grown_topics : topics cl' = topics cl;
  grown_sublist : held cl' `sublist_of` held cl ++ off;
  grown_all : (length (queue cl) + length off <= chanCap)%nat -> held cl' = held cl ++ off;
  grown_queue : (length (queue cl') <= length (queue cl) + length off)%nat;
  grown_ok : client_ok cl -> client_ok cl'
}.

Lemma grown_refl cl : grown cl [] cl.
Proof. split; rewrite ?app_nil_r; auto with lia. Qed.

Lemma grown_trans cl off cl' off' cl'' :
  grown cl off cl' -> grown cl' off' cl'' -> grown cl (off ++ off') cl''.
Proof.
  intros [T1 S1 A1 Q1 O1] [T2 S2 A2 Q2 O2]. split.
  - congruence.
  - rewrite app_assoc. etrans; [exact S2|]. by apply sublist_app.
  - rewrite length_app. intros Hl. rewrite A2, A1, app_assoc by lia. done.
  - rewrite length_app. lia.
  - auto.
Qed.

Lemma grown_offer evt cl : grown cl [evt] (offer evt cl).
Proof.
  unfold offer. destruct (Nat.ltb_spec (length (queue cl)) chanCap) as [Hl|Hl].
  - split; unfold held, client_ok; cbn; rewrite ?length_app; cbn; intros; rewrite ?app_assoc; try done; try lia.
    destruct H0 as (? & ? & ?). split_and!; [done|lia|done].
  - split; cbn; try done; try lia. unfold held. apply sublist_inserts_r. done.
Qed.

Lemma grown_same_held cl cl' :
  topics cl' = topics cl -> held cl' = held cl -> (length (queue cl') <= length (queue cl))%nat ->
  (client_ok cl -> client_ok cl') -> grown cl [] cl'.
Proof. intros T Hh Q O. split; rewrite ?app_nil_r, ?Hh; auto with lia. Qed.

(** One operation, seen by the client [c]: it goes on waiting, or it is answered. *)
Lemma step_client b o c cl :
  clients b !! c = Some cl -> client_ok cl -> opens c o = false ->
  (exists cl', clients (step b o).1 !! c = Some cl' /\ grown cl (offered (topics cl) o) cl' /\
     answers c (option_list (step b o).2) = []) \/
  (clients (step b o).1 !! c = None /\ offered (topics cl) o = [] /\
   exists r, answers c (option_list (step b o).2) = [r] /\
     forall l, r = Events l -> l = got cl /\ l <> []).
Proof.
  intros Hc (G1 & G2 & G3) Ho. destruct o as [c' ts after|now now' raw|now now' topic raw|c' w]; cbn in Ho |- *.
  - apply Nat.eqb_neq in Ho. left. exists cl. unfold open_poll.
    destruct (Nat.ltb_spec 0 (length (backlog ts after (topicBuf b)))); cbn [fst snd];
      (split; [cbn; by simplify_map_eq|split; [apply grown_refl|by apply answers_other]]).
  - left. exists (offer (with_id now raw) cl). rewrite lookup_fmap, Hc. split; [done|].
    split; [apply grown_offer|done].
  - left. rewrite lookup_fmap, Hc. eexists. split; [reflexivity|]. split; [|done].
    destruct (hasTopic (topics cl) topic); [apply grown_offer|apply grown_refl].
  - unfold poll_turn. destruct (decide (c' = c)) as [->|Hne].
    2: { left. exists cl. destruct (clients b !! c') as [cl'|] eqn:Ec'.
         2: { split; [by cbn|]. split; [apply grown_refl|done]. }
         match goal with |- context [let (_, _) := ?x in _] => destruct x as [b' r] eqn:E end.
         cbn [fst snd]. split; [|split; [apply grown_refl|by apply answers_other]].
         revert E. unfold finish, take_one, goto. repeat case_match; intros [= <- <-]; cbn; by simplify_map_eq. }
    rewrite Hc.
    assert (forall r, (forall l, r = Events l -> l = got cl /\ l <> []) ->
      clients (finish c r b).1 !! c = None /\ offered (topics cl) (Turn c w) = [] /\
      exists r', answers c (option_list (pair c <$> (finish c r b).2)) = [r'] /\
        forall l, r' = Events l -> l = got cl /\ l <> []) as Hfin.
    { intros r Hr. cbn. split; [by simplify_map_eq|]. split; [done|]. exists r.
      split; [|done]. apply answers_same. }
    assert (forall ph e q, ph <> First -> queue cl = e :: q -> (length (got cl) < maxAnswer)%nat ->
      grown cl [] {| queue := q; topics := topics cl; got := got cl ++ [e]; at_phase := ph |}) as Htake.
    { intros ph e q Hp Eq Hl. apply grown_same_held; [done| |cbn; rewrite Eq; cbn; lia|].
      - unfold held. cbn. rewrite Eq. by rewrite <- app_assoc.
      - intros _. unfold client_ok. cbn. rewrite length_app. cbn. rewrite Eq in G2. cbn in G2.
        split_and!; [lia|lia|]. destruct ph; [done..|]. intros E. by apply app_eq_nil in E as [_ ?]. }
    assert (Hgot : negb (length (got cl) <? maxAnswer)%nat = true -> got cl <> []).
    { destruct (Nat.ltb_spec (length (got cl)) maxAnswer); [done|].
      intros _ E. rewrite E in *. cbn in *. unfold maxAnswer in *. lia. }
    assert (forall ph, match ph with Drain => True | First => got cl = [] | Collect_more => got cl <> [] end ->
      grown cl [] {| queue := queue cl; topics := topics cl; got := got cl; at_phase := ph |}) as Hgoto.
    { intros ph Hp. apply grown_same_held; [done|done|done|]. intros _. by split_and!. }
    destruct (at_phase cl) eqn:Eph.
    + destruct (negb (length (got cl) <? maxAnswer)%nat) eqn:Ef.
      * right. apply Hfin. intros l [= <-]. auto.
      * left. destruct (queue cl) as [|e q] eqn:Eq; unfold goto, take_one; rewrite ?Eq; cbn;
          (eexists; split; [by simplify_map_eq|split; [|done]]).
        -- apply Hgoto. destruct (got cl); cbn; done.
        -- apply Htake; [done|done|]. destruct (Nat.ltb_spec (length (got cl)) maxAnswer); [lia|done].
    + destruct w.
      * left. unfold take_one. destruct (queue cl) as [|e q] eqn:Eq; cbn;
          (eexists; split; [by simplify_map_eq|split; [|done]]); [apply grown_refl|].
        apply Htake; [done|done|]. rewrite G3. unfold maxAnswer. cbn. lia.
      * right. apply Hfin. done.
      * right. apply Hfin. done.
    + destruct (negb (length (got cl) <? maxAnswer)%nat) eqn:Ef.
      * right. apply Hfin. intros l [= <-]. auto.
      * destruct w.
        -- left. unfold take_one. destruct (queue cl) as [|e q] eqn:Eq; cbn;
             (eexists; split; [by simplify_map_eq|split; [|done]]); [apply grown_refl|].
           apply Htake; [done|done|]. destruct (Nat.ltb_spec (length (got cl)) maxAnswer); [lia|done].
        -- right. apply Hfin. intros l [= <-]. auto.
        -- right. apply Hfin. done.
Qed.

Lemma step_closed b o c :
  clients b !! c = None -> opens c o = false ->
  clients (step b o).1 !! c = None /\ answers c (option_list (step b o).2) = [].
Proof.
  intros Hc Ho. destruct o as [c' ts after|now now' raw|now now' topic raw|c' w]; cbn in Ho |- *.
  - apply Nat.eqb_neq in Ho. unfold open_poll.
    destruct (Nat.ltb_spec 0 (length (backlog ts after (topicBuf b)))); cbn [fst snd];
      (split; [cbn; by simplify_map_eq|by apply answers_other]).
  - by rewrite lookup_fmap, Hc.
  - by rewrite lookup_fmap, Hc.
  - unfold poll_turn. destruct (clients b !! c') as [cl'|] eqn:Ec'; [|by cbn].
    assert (c' <> c) by congruence.
    match goal with |- context [let (_, _) := ?x in _] => destruct x as [b' r] eqn:E end.
    cbn [fst snd]. split; [|by apply answers_other].
    revert E. unfold finish, take_one, goto. repeat case_match; intros [= <- <-]; cbn; by simplify_map_eq.
Qed.

Definition no_open (c : nat) (l : list op) : bool := forallb (fun o => negb (opens c o)) l.

Lemma run_cons b o l : run b (o :: l) = ((run (step b o).1 l).1, option_list (step b o).2 ++ (run (step b o).1 l).2).
Proof. cbn. destruct (step b o) as [b' r]. cbn. by destruct (run b' l). Qed.

Lemma run_closed c l b : no_open c l = true -> clients b !! c = None -> answers c (run b l).2 = [].
Proof.
  revert b. induction l as [|o l IH]; intros b Hl Hc; [done|].
  cbn in Hl. apply andb_true_iff in Hl as [Ho Hl]. apply negb_true_iff in Ho.
  destruct (step_closed b o c Hc Ho) as [Hn Ha].
  rewrite run_cons. cbn [snd]. by rewrite answers_app, Ha, IH.
Qed.

Lemma run_client c l b cl :
  clients b !! c = Some cl -> client_ok cl -> no_open c l = true ->
  (exists cl', clients (run b l).1 !! c = Some cl' /\ grown cl (offers (topics cl) l) cl' /\
     answers c (run b l).2 = []) \/
  (exists l1 l2 cl' r, l = l1 ++ l2 /\ grown cl (offers (topics cl) l1) cl' /\
     answers c (run b l).2 = [r] /\ forall evs, r = Events evs -> evs = got cl' /\ evs <> []).
Proof.
  revert b cl. induction l as [|o l IH]; intros b cl Hc Hok Hl.
  - left. exists cl. split; [done|]. split; [apply grown_refl|done].
  - cbn in Hl. apply andb_true_iff in Hl as [Ho Hl]. apply negb_true_iff in Ho.
    rewrite run_cons. cbn [fst snd]. rewrite answers_app.
    destruct (step_client b o c cl Hc Hok Ho) as [(cl1 & H1 & G1 & ->)|(H1 & Eo & r & -> & Hr)].
    + destruct (IH _ _ H1 (grown_ok _ _ _ G1 Hok) Hl) as [(cl2 & H2 & G2 & ->)|(l1 & l2 & cl2 & r & -> & G2 & -> & Hr)].
      * left. exists cl2. split; [done|]. split; [|done]. rewrite (grown_topics _ _ _ G1) in G2.
        exact (grown_trans _ _ _ _ _ G1 G2).
      * right. exists (o :: l1), l2, cl2, r. split; [done|]. split; [|done].
        rewrite (grown_topics _ _ _ G1) in G2. exact (grown_trans _ _ _ _ _ G1 G2).
    + right. exists [], (o :: l), cl, r. split; [done|]. split; [apply grown_refl|].
      by rewrite (run_closed c l _ Hl H1).
Qed.

(** C37. A client that polls waits for new events, whatever number it says it has seen:
    the backlog is never used.  It is answered at most once, with at most 20 events, all
    offered to it since it called, in the order they came; none is skipped as long as at
    most 128 were offered (its channel holds no more, and drops what does not fit); a client
    that waits still holds what it was offered, under the same bound all of it.  An event published
    while the client is not waiting is never answered. *)
Theorem poll_answers b c ts after l :
  no_open c l = true ->
  let b0 := set_client c {| queue := []; topics := ts; got := []; at_phase := Drain |} b in
  let off := offers ts l in
  open_poll c ts after b = (b0, None) /\
  match answers c (run b0 l).2 with
  | [] => exists cl, clients (run b0 l).1 !! c = Some cl /\ held cl `sublist_of` off /\
            ((length off <= chanCap)%nat -> held cl = off)
  | [r] => forall evs, r = Events evs ->
            evs <> [] /\ (length evs <= maxAnswer)%nat /\ evs `sublist_of` off /\
            ((length off <= chanCap)%nat -> evs `prefix_of` off)
  | _ => False
  end.
Proof.
  intros Hl b0 off. split; [by unfold open_poll; rewrite (backlog_nil ts after (topicBuf b))|].
  set (cl := {| queue := []; topics := ts; got := []; at_phase := Drain |}).
  assert (clients b0 !! c = Some cl) as Hc by (cbn; by simplify_map_eq).
  assert (client_ok cl) as Hok by (split_and!; cbn; lia).
  destruct (run_client c l b0 cl Hc Hok Hl) as [(cl' & H1 & [_ S1 A1 _ _] & ->)|(l1 & l2 & cl' & r & -> & [_ S1 A1 _ O1] & -> & Hr)].
  - exists cl'. auto.
  - intros evs E. destruct (Hr evs E) as [-> Hne]. destruct (O1 Hok) as (G & _).
    unfold off, offers. rewrite map_app, concat_app. split_and!; [done|done| |].
    + etrans; [|apply sublist_inserts_r; exact S1]. unfold held. apply sublist_inserts_r. done.
    + rewrite length_app. intros Hlen. cbn [queue cl length] in A1. cbn [held got queue cl app] in A1.
      change (topics cl) with ts in A1. unfold offers in A1. rewrite <- A1 by (unfold offers; cbn; lia).
      unfold held. rewrite <- app_assoc. by exists (queue cl' ++ concat (map (offered ts) l2)).
Qed.
End bus.
End Bus.

(** ** A poll of a client that asks for one topic while two events come in. *)
Definition w_event (t : string) : EventBuffer.Event (V:=unit) :=
  {| EventBuffer.EventID := 0; EventBuffer.Type_ := "pubsub"; EventBuffer.Topic := t; EventBuffer.Value := tt |}.

Lemma poll_answers_witness :
  let GS := insertion_go_sort in
  let b := {| Bus.clients := ∅; Bus.topicBuf := ∅ |} in
  let l := [Bus.Listen 5 6 "b" (w_event "b"); Bus.Broadcast 7 8 (w_event "a");
            Bus.Turn 0 Bus.Take; Bus.Turn 0 Bus.Take; Bus.Turn 0 Bus.Elapsed] in
  let b0 := Bus.set_client 0%nat {| Bus.queue := []; Bus.topics := ["a"]; Bus.got := []; Bus.at_phase := Bus.Drain |} b in
  Bus.no_open (V:=unit) 0 l = true /\
  Bus.answers 0 (Bus.run b0 l).2 = [Bus.Events [EventBuffer.with_id 7 (w_event "a")]] /\
  Bus.open_poll 0 ["a"] 3 b = (b0, None).
Proof.
  intros GS b l b0. split; [reflexivity|]. split; [vm_compute; reflexivity|].
  exact (proj1 (Bus.poll_answers b 0 ["a"] 3 l eq_refl)).
Defined.

Lemma replay_complete_witness :
  let GS := insertion_go_sort in
  let l1 := [(5, w_event "a"); (5, w_event "a")] in let l2 := [(3, w_event "a")] in
  map EventBuffer.EventID (EventBuffer.replay 6 (EventBuffer.pushes (l1 ++ l2) EventBuffer.newBuffer)) = [7].
Proof.
  intros GS l1 l2.
  assert (length l2 <= EventBuffer.eventBufCap)%nat as Hl by (unfold EventBuffer.eventBufCap; cbn; lia).
  exact (f_equal (map EventBuffer.EventID) (proj1 (proj2 (proj2 (EventBuffer.replay_complete l1 l2 Hl))))).
Defined.
