(* ===== verification/PubSub.v ===== *)
(** * Duplicate suppression of forwarded messages

    src/p2put/pso_nopubsub.go (the build without libp2p-pubsub; [isMsgSeen] and the
    stream handler are the same in pso_pubsub.go): the table of message numbers seen, the
    handler of a forwarded message, and [PublishTopic].  [isMsgSeen] takes no lock, so
    its accesses to the table are modelled one by one as well ([act]). *)

From S2P Require Import Prelude GoLib GoNet.

Definition dedupTTL : Z := 10 * minute.
Definition dedupMaxSize : Z := 2000.
Definition maxPublishSize : Z := 2 ^ 20.

(** [seenMsgIDs] and [dedupCount]; a message number is a string of bytes. *)
Record dedup := { seenMsgIDs : gmap bytes Z; dedupCount : Z }.
Definition newDedup : dedup := {| seenMsgIDs := ∅; dedupCount := 0 |}.

(** ** The accesses of [isMsgSeen] *)

(** [seenMsgIDs.LoadOrStore(msgID, time.Now())], [now] being the time read. *)
Definition loadOrStore (id : bytes) (now : Z) (d : dedup) : bool * dedup :=
  match seenMsgIDs d !! id with
  | Some _ => (true, d)
  | None => (false, {| seenMsgIDs := <[id := now]> (seenMsgIDs d); dedupCount := dedupCount d |})
  end.

Definition addCount (d : dedup) : dedup :=
  {| seenMsgIDs := seenMsgIDs d; dedupCount := wraps 32 (dedupCount d + 1) |}.
Definition resetCount (d : dedup) : dedup := {| seenMsgIDs := seenMsgIDs d; dedupCount := 0 |}.

(** The function the sweep calls on an entry. *)
Definition sweepOne (now : Z) (d : dedup) (p : bytes * Z) : dedup :=
  if dedupTTL <? time_sub now p.2
  then {| seenMsgIDs := delete p.1 (seenMsgIDs d); dedupCount := dedupCount d |}
  else addCount d.

(** The whole of [isMsgSeen], when nothing runs in between. *)
Definition isMsgSeen `{MapRange} (msgID : bytes) (now : Z) (d : dedup) : bool * dedup :=
  let (loaded, d) := loadOrStore msgID now d in
  if loaded then (true, d)
  else let d := addCount d in
       if dedupMaxSize <=? dedupCount d
       then (false, foldl (sweepOne now) (resetCount d) (range_map 0 (seenMsgIDs d)))
       else (false, d).

(** Any number of calls may be in progress, each at some access.  A sweep visits an
    entry with the value [at_] that [Range] loaded, a moment before. *)
Inductive act :=
  | Load (id : bytes) (now : Z)
  | Add
  | Reset
  | Visit (id : bytes) (at_ now : Z).

Definition act_step (d : dedup) (a : act) : dedup * option (bytes * bool) :=
  match a with
  | Load id now => let (b, d) := loadOrStore id now d in (d, Some (id, b))
  | Add => (addCount d, None)
  | Reset => (resetCount d, None)
  | Visit id at_ now => (sweepOne now d (id, at_), None)
  end.

Fixpoint act_run (d : dedup) (l : list (Z * act)) : dedup :=
  match l with [] => d | (_, a) :: l => act_run (act_step d a).1 l end.

(** Times are read before they are used, and the clock does not go back. *)
Fixpoint act_sched (clock : Z) (l : list (Z * act)) : Prop :=
  match l with
  | [] => True
  | (t, a) :: l =>
      clock <= t /\ match a with Load _ now | Visit _ _ now => now <= t | _ => True end /\ act_sched t l
  end.

(** What the calls learn from the table, in order. *)
Fixpoint act_answers (d : dedup) (l : list (Z * act)) : list (bytes * bool) :=
  match l with [] => [] | (_, a) :: l => option_list (act_step d a).2 ++ act_answers (act_step d a).1 l end.

(** ** Messages *)
Record pubsubFwdMsg := { From : bytes; Data : bytes; Seqno : bytes; Topic : string }.

Definition fwdMsgID (msg : pubsubFwdMsg) : bytes := From msg ++ Seqno msg.

(** An event sent to [rawChan]: the message and the node it came from. *)
Record PubsubEvent := { ev_msg : pubsubFwdMsg; ReceivedFrom : bytes }.

(** [handlePubSubFwdStream] after [ReadMsg] and [json.Unmarshal] ([None]: one of them
    failed).  The log line reads eight bytes of the sequence number. *)
Definition handlePubSubFwdStream `{MapRange} (now : Z) (pid : bytes) (m : option pubsubFwdMsg) (d : dedup)
    : res (dedup * option PubsubEvent) :=
  match m with
  | None => Ok (d, None)
  | Some msg =>
      let (seen, d) := isMsgSeen (fwdMsgID msg) now d in
      if seen then Ok (d, None)
      else if (length (Seqno msg) <? 8)%nat then Panic
      else Ok (d, Some {| ev_msg := msg; ReceivedFrom := pid |})
  end.

(** [PublishTopic] at the time [now]; for each peer of the database, whether a stream
    opens and whether the message is written. *)
Definition PublishTopic `{MapRange} (ready : bool) (self : bytes) (now : Z) (topic : string) (data : bytes)
    (peers : list (bool * bool)) (d : dedup) : dedup * option PubsubEvent * option string :=
  if negb ready then (d, None, Some "libp2p not ready")
  else if maxPublishSize <? zlen data then (d, None, Some "payload too large")
  else
    let msg := {| From := self; Data := data; Seqno := be_bytes 8 now; Topic := topic |} in
    let d := (isMsgSeen (fwdMsgID msg) now d).2 in
    let ev := {| ev_msg := msg; ReceivedFrom := self |} in
    match peers with
    | [] => (d, Some ev, Some "no peers 0")
    | _ => let okN := length (filter (fun p => p.1 && p.2 = true) peers) in
           (d, Some ev, if (okN =? 0)%nat then Some "no peers" else None)
    end.

(** ** The table *)

(** What an access does to the entry of [id]: it stays, or it is stored now, or it is
    deleted by a visit that found the value it compared too old. *)
Lemma act_entry d a id :
  seenMsgIDs (act_step d a).1 !! id = seenMsgIDs d !! id \/
  (exists now, a = Load id now /\ seenMsgIDs d !! id = None /\ seenMsgIDs (act_step d a).1 !! id = Some now) \/
  (exists at_ now, a = Visit id at_ now /\ dedupTTL < time_sub now at_ /\ seenMsgIDs (act_step d a).1 !! id = None).
Proof.
  destruct a as [k now| | |k at_ now]; cbn; [|by left|by left|].
  - unfold loadOrStore. destruct (seenMsgIDs d !! k) eqn:E; cbn; [by left|].
    destruct (decide (k = id)) as [->|Hne]; [|left; by rewrite lookup_insert_ne].
    right. left. exists now. by rewrite lookup_insert_eq.
  - unfold sweepOne. cbn. destruct (Z.ltb_spec dedupTTL (time_sub now at_)); [|by left]. cbn.
    destruct (decide (k = id)) as [->|Hne]; [|left; by rewrite lookup_delete_ne].
    right. right. exists at_, now. by rewrite lookup_delete_eq.
Qed.

Lemma act_run_app d l k : act_run d (l ++ k) = act_run (act_run d l) k.
Proof. revert d. induction l as [|[t a] l IH]; intros d; [done|]. cbn. apply IH. Qed.

(** Every visit compares the value that is in the table when it deletes. *)
Definition visits_current (d : dedup) (a : act) : Prop :=
  match a with Visit id at_ _ => forall t, seenMsgIDs d !! id = Some t -> t = at_ | _ => True end.

Fixpoint no_overlap (d : dedup) (l : list (Z * act)) : Prop :=
  match l with [] => True | (_, a) :: l => visits_current d a /\ no_overlap (act_step d a).1 l end.

Lemma no_overlap_app d l k : no_overlap d (l ++ k) <-> no_overlap d l /\ no_overlap (act_run d l) k.
Proof. revert d. induction l as [|[t a] l IH]; intros d; cbn; [tauto|]. rewrite IH. tauto. Qed.

Lemma clock_cons (clock t : Z) (a : act) (l : list (Z * act)) : default clock (fst <$> last ((t, a) :: l)) = default t (fst <$> last l).
Proof.
  destruct l as [|p l]; [done|]. rewrite last_cons_cons. destruct (last (p :: l)) eqn:E; [done|].
  by apply last_None in E.
Qed.

Lemma sched_app clock l k :
  act_sched clock (l ++ k) <-> act_sched clock l /\ act_sched (default clock (fst <$> last l)) k.
Proof.
  revert clock. induction l as [|[t a] l IH]; intros clock; [cbn; tauto|].
  cbn [app act_sched]. rewrite IH, clock_cons. tauto.
Qed.

Lemma kept_or_expired id n1 l : forall d clock,
  act_sched clock l -> no_overlap d l ->
  n1 <= clock ->
  seenMsgIDs d !! id = Some n1 \/ dedupTTL < clock - n1 ->
  seenMsgIDs (act_run d l) !! id = Some n1 \/ dedupTTL < default clock (fst <$> last l) - n1.
Proof.
  induction l as [|[t a] l IH]; intros d clock Hs Hn Hc Hd; [exact Hd|].
  cbn [act_sched no_overlap act_run] in *. destruct Hs as (Ht & Hok & Hs). destruct Hn as [Hv Hn].
  rewrite clock_cons.
  apply IH; [done|done|lia|].
  destruct Hd as [Hd|Hd]; [|right; lia].
  destruct (act_entry d a id) as [E|[(now & -> & E & _)|(at_ & now & -> & Hold & E)]].
  - left. congruence.
  - congruence.
  - right. cbn in Hv. rewrite (Hv _ Hd) in *.
    apply time_sub_gt in Hold; [lia|unfold dedupTTL, minute, second, min_int64, max_int64; lia].
Qed.

(** However the calls of [isMsgSeen] interleave, as long as no entry is deleted and
    stored again between the two accesses of a sweep, a message that was answered as new
    is answered as new again only when more than ten minutes have passed since the first
    call read the clock; and a message that was never seen is answered as new. *)
Theorem dedup_window d clock l1 id t1 n1 l2 t2 n2 :
  let l := l1 ++ (t1, Load id n1) :: l2 ++ [(t2, Load id n2)] in
  act_sched clock l -> no_overlap d l ->
  let d1 := act_run d l1 in let d2 := act_run d (l1 ++ (t1, Load id n1) :: l2) in
  (seenMsgIDs d1 !! id = None -> (loadOrStore id n1 d1).1 = false) /\
  ((loadOrStore id n1 d1).1 = false -> (loadOrStore id n2 d2).1 = false -> dedupTTL < t2 - n1).
Proof.
  intros l Hs Hn d1 d2. split.
  { unfold loadOrStore. by intros ->. }
  intros F1 F2. unfold l in *.
  apply no_overlap_app in Hn as [_ Hn]. fold d1 in Hn. destruct Hn as [_ Hn]. apply no_overlap_app in Hn as [Hn _].
  apply sched_app in Hs as [_ Hs]. destruct Hs as (_ & Hn1 & Hs).
  apply sched_app in Hs as [Hs Ht2]. destruct Ht2 as (Ht2 & _ & _).
  destruct (kept_or_expired id n1 l2 _ t1 Hs Hn Hn1) as [Hk|Hk].
  - left. cbn. destruct (loadOrStore id n1 d1) as [b d'] eqn:E. cbn in F1. subst b.
    unfold loadOrStore in E. case_match; simplify_eq. cbn. by rewrite lookup_insert_eq.
  - exfalso. revert F2. unfold d2. rewrite act_run_app. cbn [act_run]. fold d1.
    unfold loadOrStore at 1. by rewrite Hk.
  - lia.
Qed.

(** Two sweeps at once can break this: both load an entry that is too old, one deletes
    it, the message comes again and is stored, and the other deletes the new entry.  The
    message is then new a second time, two nanoseconds later. *)
Theorem dedup_race :
  exists l id, act_sched 0 l /\ act_answers newDedup l = [(id, false); (id, false); (id, false)] /\
    last l = Some (dedupTTL + 4, Load id (dedupTTL + 4)) /\ In (dedupTTL + 2, Load id (dedupTTL + 2)) l.
Proof.
  exists [(0, Load [1] 0); (0, Add); (dedupTTL + 1, Visit [1] 0 (dedupTTL + 1));
          (dedupTTL + 2, Load [1] (dedupTTL + 2)); (dedupTTL + 3, Visit [1] 0 (dedupTTL + 1));
          (dedupTTL + 4, Load [1] (dedupTTL + 4))], [1].
  split; [unfold dedupTTL, minute, second; cbn; lia|]. split; [reflexivity|]. split; [reflexivity|]. cbn. tauto.
Qed.

(** ** A call with nothing in between is a sequence of accesses *)
Section atomic.
Context `{MapRange}.

Definition visits (now : Z) (l : list (bytes * Z)) : list (Z * act) := map (fun p => (now, Visit p.1 p.2 now)) l.

Definition call_acts (id : bytes) (now : Z) (d : dedup) : list (Z * act) :=
  let '(loaded, d) := loadOrStore id now d in
  (now, Load id now) ::
  if loaded then []
  else (now, Add) ::
       if dedupMaxSize <=? dedupCount (addCount d)
       then (now, Reset) :: visits now (range_map 0 (seenMsgIDs d)) else [].

Lemma act_run_visits now l d : act_run d (visits now l) = foldl (sweepOne now) d l.
Proof. revert d. induction l as [|[k t] l IH]; intros d; [done|]. cbn. apply IH. Qed.

Lemma isMsgSeen_acts id now d :
  isMsgSeen id now d = ((loadOrStore id now d).1, act_run d (call_acts id now d)).
Proof.
  unfold isMsgSeen, call_acts. destruct (loadOrStore id now d) as [b d1] eqn:E.
  cbn [act_run act_step fst]. rewrite E. destruct b; [done|]. cbn [act_run act_step fst].
  destruct (dedupMaxSize <=? dedupCount (addCount d1)); [|done].
  cbn [act_run act_step fst]. by rewrite act_run_visits.
Qed.

Lemma sched_call id now d : act_sched now (call_acts id now d).
Proof.
  assert (forall l, act_sched now (visits now l)) as Hv.
  { induction l as [|p l IH]; [done|]. cbn. auto using Z.le_refl. }
  unfold call_acts. destruct (loadOrStore id now d) as [[] d1]; cbn [act_sched]; [auto using Z.le_refl|].
  destruct (dedupMaxSize <=? dedupCount (addCount d1)); cbn [act_sched]; auto 10 using Z.le_refl.
Qed.

Lemma no_overlap_visits now l d :
  NoDup l.*1 -> (forall k t, (k, t) ∈ l -> seenMsgIDs d !! k = Some t) -> no_overlap d (visits now l).
Proof.
  revert d. induction l as [|[k t] l IH]; intros d Hn Hl; [done|]. apply NoDup_cons in Hn as [Hk Hn]. cbn.
  split. { intros t' Ht. rewrite (Hl k t) in Ht by set_solver. by simplify_eq. }
  apply IH; [done|]. intros k' t' Hin. rewrite <- (Hl k' t') by set_solver. unfold sweepOne. cbn.
  destruct (dedupTTL <? time_sub now t); [|done]. cbn. apply lookup_delete_ne. intros ->.
  apply Hk. apply list_elem_of_fmap. by exists (k', t').
Qed.

Lemma no_overlap_call id now d : no_overlap d (call_acts id now d).
Proof.
  unfold call_acts. destruct (loadOrStore id now d) as [b d1] eqn:E. cbn [no_overlap act_step]. rewrite E. cbn [fst].
  split; [exact I|]. destruct b; [exact I|]. cbn [no_overlap act_step fst]. split; [exact I|].
  destruct (dedupMaxSize <=? dedupCount (addCount d1)); [|exact I]. cbn [no_overlap act_step fst]. split; [exact I|].
  apply no_overlap_visits; [apply NoDup_range_keys|]. intros k t Hin. by apply elem_of_range in Hin.
Qed.

Lemma clock_call id now d : default now (fst <$> last (call_acts id now d)) = now.
Proof.
  unfold call_acts. destruct (loadOrStore id now d) as [b d1].
  destruct b; [done|]. destruct (dedupMaxSize <=? dedupCount (addCount d1)); [|done].
  rewrite !clock_cons. induction (range_map 0 (seenMsgIDs d1)) as [|p l IH]; [done|].
  cbn [visits map]. rewrite clock_cons. exact IH.
Qed.

(** The table after an atomic call. *)
Definition counted (d : dedup) : Prop := dedupCount d = Z.of_nat (size (seenMsgIDs d)).

Lemma foldl_sweepOne now l d :
  0 <= dedupCount d -> dedupCount d + zlen l < 2 ^ 31 ->
  seenMsgIDs (foldl (sweepOne now) d l) = sweep (fun t => dedupTTL <? time_sub now t) (seenMsgIDs d) l /\
  dedupCount (foldl (sweepOne now) d l) =
    dedupCount d + zlen (filter (fun p => (dedupTTL <? time_sub now p.2) = false) l).
Proof.
  revert d. induction l as [|[k t] l IH]; intros d H0 Hl; [cbn; unfold zlen; cbn; split; [done|lia]|].
  rewrite zlen_cons in Hl. pose proof (zlen_nonneg l). cbn [foldl]. unfold sweep. cbn [foldl fst snd].
  rewrite filter_cons. cbn [fst snd]. unfold sweepOne at 2 4. cbn [fst snd].
  destruct (dedupTTL <? time_sub now t) eqn:E.
  - rewrite decide_False by done.
    destruct (IH {| seenMsgIDs := delete k (seenMsgIDs d); dedupCount := dedupCount d |}) as [E1 E2]; [cbn; lia..|].
    split; [exact E1|exact E2].
  - rewrite decide_True, zlen_cons by done.
    assert (dedupCount (addCount d) = dedupCount d + 1) as Ec by (cbn; apply wraps_small; lia).
    destruct (IH (addCount d)) as [E1 E2]; [lia|lia|]. split; [exact E1|]. rewrite E2. lia.
Qed.

Lemma isMsgSeen_table id now d b d' :
  isMsgSeen id now d = (b, d') -> counted d -> Z.of_nat (size (seenMsgIDs d)) < 2 ^ 31 - 1 ->
  (b = true <-> is_Some (seenMsgIDs d !! id)) /\ counted d' /\
  (forall k, seenMsgIDs d' !! k =
     if decide (k = id) then Some (default now (seenMsgIDs d !! id))
     else match seenMsgIDs d !! k with
          | Some t => if negb b && (dedupMaxSize <=? Z.of_nat (size (seenMsgIDs d)) + 1) && (dedupTTL <? time_sub now t)
                      then None else Some t
          | None => None
          end).
Proof.
  intros E Hc Hs. unfold isMsgSeen, loadOrStore in E.
  destruct (seenMsgIDs d !! id) as [t|] eqn:Ei.
  - simplify_eq. split; [naive_solver|]. split; [done|]. intros k. cbn.
    destruct (decide (k = id)) as [->|]; [done|]. by destruct (seenMsgIDs d' !! k).
  - set (d1 := addCount _) in E.
    assert (size (seenMsgIDs d1) = S (size (seenMsgIDs d))) as Es by (cbn; by rewrite map_size_insert_None).
    assert (counted d1) as Hc1.
    { unfold counted. rewrite Es. cbn. rewrite Hc, wraps_small by lia. lia. }
    assert (forall k, seenMsgIDs d1 !! k = if decide (k = id) then Some now else seenMsgIDs d !! k) as Hl1.
    { intros k. cbn. destruct (decide (k = id)) as [->|]; [by rewrite lookup_insert_eq|by rewrite lookup_insert_ne]. }
    replace (dedupCount d1) with (Z.of_nat (size (seenMsgIDs d)) + 1) in E by (rewrite Hc1, Es; lia).
    destruct (dedupMaxSize <=? Z.of_nat (size (seenMsgIDs d)) + 1) eqn:Em; simplify_eq.
    + split; [naive_solver|]. pose proof (length_range 0 (seenMsgIDs d1)) as Hlen.
      destruct (foldl_sweepOne now (range_map 0 (seenMsgIDs d1)) (resetCount d1)) as [E1 E2];
        [cbn; lia|unfold zlen; rewrite Hlen, Es; cbn; lia|].
      cbn [resetCount seenMsgIDs dedupCount] in E1, E2. split.
      * unfold counted. rewrite E1, E2. fold (seenMsgIDs d1). rewrite sweep_range.
        rewrite size_filter. unfold zlen. rewrite Z.add_0_l. f_equal.
        apply Permutation_length. by rewrite range_map_perm.
      * intros k. rewrite E1. rewrite sweep_range_lookup, Hl1. destruct (decide (k = id)) as [->|]; [|done].
        cbn. replace (time_sub now now) with 0 by (unfold time_sub, min_int64, max_int64; lia). done.
    + split; [naive_solver|]. split; [done|]. intros k. rewrite Hl1.
      destruct (decide (k = id)); [done|]. by destruct (seenMsgIDs d !! k).
Qed.

(** ** A node *)
Inductive call :=
  | Fwd (pid : bytes) (m : option pubsubFwdMsg)
  | Pub (ready : bool) (self : bytes) (topic : string) (data : bytes) (peers : list (bool * bool)).

Definition node_step (now : Z) (c : call) (d : dedup) : res (dedup * option PubsubEvent) :=
  match c with
  | Fwd pid m => handlePubSubFwdStream now pid m d
  | Pub ready self topic data peers => let '(d, e, _) := PublishTopic ready self now topic data peers d in Ok (d, e)
  end.

Fixpoint node_run (d : dedup) (l : list (Z * call)) : res dedup :=
  match l with
  | [] => Ok d
  | (now, c) :: l => let! (d, _) := node_step now c d in node_run d l
  end.

Fixpoint sorted_from (clock : Z) (l : list (Z * call)) : Prop :=
  match l with [] => True | (t, _) :: l => clock <= t /\ sorted_from t l end.

(** The accesses of one step, all at its time. *)
Record accesses (now : Z) (d : dedup) (k : list (Z * act)) (d' : dedup) : Prop := {
  acc_run : d' = act_run d k;
  acc_sched : act_sched now k;
  acc_current : no_overlap d k;
  acc_clock : default now (fst <$> last k) = now
}.

Lemma accesses_nil now d : accesses now d [] d.
Proof. by split. Qed.

Lemma accesses_call id now d : accesses now d (call_acts id now d) (isMsgSeen id now d).2.
Proof. split; [by rewrite isMsgSeen_acts|apply sched_call|apply no_overlap_call|apply clock_call]. Qed.

Lemma node_step_accesses now c d d' e : node_step now c d = Ok (d', e) -> exists k, accesses now d k d'.
Proof.
  destruct c as [pid [m|]|ready self topic data peers]; cbn [node_step handlePubSubFwdStream].
  - pose proof (accesses_call (fwdMsgID m) now d) as Ha. destruct (isMsgSeen (fwdMsgID m) now d) as [[] d1]; cbn in Ha.
    + intros [= <- <-]. eauto.
    + destruct (length (Seqno m) <? 8)%nat; [done|]. intros [= <- <-]. eauto.
  - intros [= <- <-]. eauto using accesses_nil.
  - unfold PublishTopic. destruct ready; cbn; [|intros [= <- <-]; eauto using accesses_nil].
    destruct (maxPublishSize <? zlen data); [intros [= <- <-]; eauto using accesses_nil|].
    set (m := {| From := self; Data := data; Seqno := be_bytes 8 now; Topic := topic |}).
    pose proof (accesses_call (fwdMsgID m) now d) as Ha.
    destruct peers; intros [= <- <-]; eauto.
Qed.

Lemma node_run_entry id n1 l : forall d clock d',
  sorted_from clock l -> node_run d l = Ok d' -> n1 <= clock ->
  seenMsgIDs d !! id = Some n1 \/ dedupTTL < clock - n1 ->
  exists clock', clock <= clock' /\ (forall t, sorted_from clock (l ++ [t]) -> clock' <= t.1) /\
    (seenMsgIDs d' !! id = Some n1 \/ dedupTTL < clock' - n1).
Proof.
  induction l as [|[t c] l IH]; intros d clock d' Hs Hr Hc Hd.
  - cbn in Hr. simplify_eq. exists clock. split; [lia|]. split; [|exact Hd]. intros [t c] [? _]. cbn. lia.
  - cbn in Hs, Hr. destruct Hs as [Ht Hs]. destruct (node_step t c d) as [[d1 e]| |] eqn:E; [|done..].
    cbn in Hr. destruct (node_step_accesses _ _ _ _ _ E) as [k [-> Ks Kc Kl]].
    destruct (kept_or_expired id n1 k d t Ks Kc) as [Hk|Hk]; [lia|destruct Hd; [by left|right; lia]| |].
    + destruct (IH _ t d' Hs Hr) as (c' & ? & Hlast & ?); [lia|by left|]. exists c'. split; [lia|]. split; [|assumption].
      intros p [_ Hp]. auto.
    + rewrite Kl in Hk.
      destruct (IH _ t d' Hs Hr) as (c' & ? & Hlast & ?); [lia|by right|]. exists c'. split; [lia|]. split; [|assumption].
      intros p [_ Hp]. auto.
Qed.

(** The event of a step carries a message the step looked up in the table. *)
Lemma node_step_event now c d d' ev :
  node_step now c d = Ok (d', Some ev) -> d' = (isMsgSeen (fwdMsgID (ev_msg ev)) now d).2.
Proof.
  destruct c as [pid [m|]|ready self topic data peers]; cbn [node_step handlePubSubFwdStream]; [|done|].
  - destruct (isMsgSeen (fwdMsgID m) now d) as [[] d1] eqn:E; [done|].
    destruct (length (Seqno m) <? 8)%nat; [done|]. intros [= <- <-]. cbn. by rewrite E.
  - unfold PublishTopic. destruct ready; [|done]. cbn. destruct (maxPublishSize <? zlen data); [done|].
    destruct peers; by intros [= <- <-].
Qed.

Lemma isMsgSeen_stored id now d : seenMsgIDs d !! id = None -> seenMsgIDs (isMsgSeen id now d).2 !! id = Some now.
Proof.
  intros Hid. pose proof (accesses_call id now d) as [Hrun _ Hc _]. rewrite Hrun.
  unfold call_acts, loadOrStore in *. rewrite Hid in *. cbn [act_run act_step] in *.
  unfold loadOrStore in *. rewrite Hid in *. cbn [no_overlap act_step fst] in Hc. unfold loadOrStore in Hc. rewrite Hid in Hc.
  cbn [fst] in *. set (d1 := {| seenMsgIDs := _ |}) in *.
  assert (seenMsgIDs d1 !! id = Some now) as H1 by (cbn; by rewrite lookup_insert_eq).
  cbn [act_run act_step fst]. destruct (dedupMaxSize <=? dedupCount (addCount d1)); [|done].
  cbn [act_run act_step fst]. rewrite act_run_visits.
  assert (forall l dd, seenMsgIDs dd !! id = Some now -> (forall t, (id, t) ∈ l -> t = now) ->
    seenMsgIDs (foldl (sweepOne now) dd l) !! id = Some now) as Hf.
  { induction l as [|[k t] l IH]; intros dd Hd Hl; [done|]. cbn. apply IH; [|set_solver].
    unfold sweepOne. cbn. destruct (Z.ltb_spec dedupTTL (time_sub now t)) as [Hold|]; [|done].
    cbn. rewrite lookup_delete_ne; [done|]. intros ->. rewrite (Hl t) in Hold by set_solver.
    unfold time_sub, dedupTTL, minute, second, min_int64, max_int64 in Hold. lia. }
  apply Hf; [done|]. intros t Hin. apply elem_of_range in Hin. congruence.
Qed.

(** The calls one after another: after a node delivered or published a message it had
    not seen, the handler delivers a message of the same number only when more than ten
    minutes have passed, whatever was received and published in between.  What the
    handler does depends on the table alone, and a message it has not seen with a
    sequence number of less than eight bytes makes it panic. *)
Theorem deliver_once_alone d n1 c1 d1 ev1 l d2 n2 pid m d3 ev2 :
  seenMsgIDs d !! fwdMsgID (ev_msg ev1) = None ->
  node_step n1 c1 d = Ok (d1, Some ev1) ->
  sorted_from n1 (l ++ [(n2, Fwd pid (Some m))]) ->
  node_run d1 l = Ok d2 ->
  node_step n2 (Fwd pid (Some m)) d2 = Ok (d3, Some ev2) ->
  ev2 = {| ev_msg := m; ReceivedFrom := pid |} /\
  (fwdMsgID m = fwdMsgID (ev_msg ev1) -> dedupTTL < n2 - n1) /\
  (forall now pid' m' dd, handlePubSubFwdStream now pid' (Some m') dd = Panic <->
     seenMsgIDs dd !! fwdMsgID m' = None /\ (length (Seqno m') < 8)%nat).
Proof.
  intros Hnew Hs1 Hsort Hrun Hs2. split; [|split].
  - cbn [node_step handlePubSubFwdStream] in Hs2. destruct (isMsgSeen (fwdMsgID m) n2 d2) as [[] dd]; [done|].
    destruct (length (Seqno m) <? 8)%nat; [done|]. by simplify_eq.
  - intros Hid. apply node_step_event in Hs1 as ->.
    pose proof (isMsgSeen_stored _ n1 d Hnew) as Hst. rewrite <- Hid in Hst.
    assert (sorted_from n1 l) as Hl.
    { revert Hsort. clear. revert n1. induction l as [|[t c] l IH]; intros n1; [done|]. cbn. intros [? ?]. auto. }
    destruct (node_run_entry (fwdMsgID m) n1 l _ n1 d2 Hl Hrun) as (c' & Hc & Hlast & [Hk|Hk]); [lia|left; by rewrite Hid in *| |].
    + exfalso. cbn [node_step handlePubSubFwdStream] in Hs2. rewrite isMsgSeen_acts in Hs2. unfold loadOrStore in Hs2. by rewrite Hk in Hs2.
    + apply Hlast in Hsort. cbn in Hsort. lia.
  - intros now pid' m' dd. unfold handlePubSubFwdStream. rewrite isMsgSeen_acts. unfold loadOrStore.
    destruct (seenMsgIDs dd !! fwdMsgID m') eqn:E; cbn [fst]; [naive_solver|].
    destruct (Nat.ltb_spec (length (Seqno m')) 8); naive_solver lia.
Qed.
End atomic.

Definition w_msg (b : Z) : pubsubFwdMsg := {| From := [b]; Data := []; Seqno := be_bytes 8 b; Topic := "t" |}.
Definition w_table : dedup := {| seenMsgIDs := ∅; dedupCount := 1998 |}.

Lemma deliver_once_alone_witness :
  let M := map_to_list_range in
  let ok := fun r : res (dedup * option PubsubEvent) => match r with Ok (d, _) => d | _ => newDedup end in
  let d1 := ok (node_step 0 (Fwd [7] (Some (w_msg 1))) w_table) in
  let d2 := ok (node_step (dedupTTL + 1) (Fwd [7] (Some (w_msg 2))) d1) in
  dedupTTL < dedupTTL + 2 - 0.
Proof.
  intros M ok d1 d2.
  refine (proj1 (proj2 (deliver_once_alone w_table 0 (Fwd [7] (Some (w_msg 1))) d1 {| ev_msg := w_msg 1; ReceivedFrom := [7] |}
    [(dedupTTL + 1, Fwd [7] (Some (w_msg 2)))] d2 (dedupTTL + 2) [8] (w_msg 1)
    (ok (node_step (dedupTTL + 2) (Fwd [8] (Some (w_msg 1))) d2)) {| ev_msg := w_msg 1; ReceivedFrom := [8] |}
    _ _ _ _ _)) eq_refl);
    [reflexivity|vm_compute; reflexivity| |vm_compute; reflexivity|vm_compute; reflexivity].
  unfold dedupTTL, minute, second. cbn. lia.
Defined.

Lemma dedup_window_witness :
  let l2 := [(0, Add); (dedupTTL + 1, Visit [1] 0 (dedupTTL + 1))] in dedupTTL < dedupTTL + 2 - 0.
Proof.
  intros l2.
  refine (proj2 (dedup_window newDedup 0 [] [1] 0 0 l2 (dedupTTL + 2) (dedupTTL + 2) _ _) _ _);
    [unfold l2, dedupTTL, minute, second; cbn; lia| |reflexivity|reflexivity].
  cbn. repeat split. intros t [= <-]. done.
Defined.

(** ** Handlers at once

    Every stream has its goroutine, and so has every caller of [PublishTopic]: each runs
    [isMsgSeen] access by access, the others in between, and then sends its event.  What a
    forwarder does with a stream before ([ReadMsg], [json.Unmarshal]) ends in [Arrive]. *)
Module Concurrent.

(** Where a goroutine is: before its [LoadOrStore], its [Add], its [Store(0)], in its
    [Range], before its event, or at its end. *)
Inductive pc := AtLoad | AtAdd | AtReset | AtRange | AtEvent | Ended.

(** [h_own]: it publishes; the answer of [isMsgSeen] is not used then. *)
Record handler := { h_own : bool; h_from : bytes; h_msg : pubsubFwdMsg; h_pc : pc }.
Definition at_pc (c : pc) (h : handler) : handler :=
  {| h_own := h_own h; h_from := h_from h; h_msg := h_msg h; h_pc := c |}.

Record node := { table : dedup; handlers : list handler; delivered : list (nat * PubsubEvent); crashed : bool }.
Definition newNode : node := {| table := newDedup; handlers := []; delivered := []; crashed := false |}.

Inductive event := Arrive (own : bool) (from : bytes) (m : pubsubFwdMsg) | Access (i : nat) (a : act) | RangeEnd (i : nat) | Send (i : nat).

(** Where the goroutine is after its access [a] to the table [d]; [None]: it is not its turn
    to do that. *)
Definition next (d : dedup) (h : handler) (a : act) : option pc :=
  match h_pc h, a with
  | AtLoad, Load id now =>
      if decide (id = fwdMsgID (h_msg h))
      then Some (if (loadOrStore id now d).1 then (if h_own h then AtEvent else Ended) else AtAdd) else None
  | AtAdd, Add => Some (if dedupMaxSize <=? dedupCount (addCount d) then AtReset else AtEvent)
  | AtReset, Reset => Some AtRange
  | AtRange, Visit _ _ _ => Some AtRange
  | _, _ => None
  end.

Definition move (i : nat) (c : pc) (n : node) : node :=
  {| table := table n; handlers := alter (at_pc c) i (handlers n); delivered := delivered n; crashed := crashed n |}.

Definition conc_step (n : node) (e : event) : option node :=
  if crashed n then None else
  match e with
  | Arrive own from m =>
      Some {| table := table n; handlers := handlers n ++ [{| h_own := own; h_from := from; h_msg := m; h_pc := AtLoad |}];
              delivered := delivered n; crashed := false |}
  | Access i a =>
      h ← handlers n !! i; c ← next (table n) h a;
      Some (move i c {| table := (act_step (table n) a).1; handlers := handlers n; delivered := delivered n; crashed := false |})
  | RangeEnd i =>
      h ← handlers n !! i; match h_pc h with AtRange => Some (move i AtEvent n) | _ => None end
  | Send i =>
      h ← handlers n !! i;
      match h_pc h with
      | AtEvent =>
          if negb (h_own h) && (length (Seqno (h_msg h)) <? 8)%nat
          then Some {| table := table n; handlers := handlers n; delivered := delivered n; crashed := true |}
          else Some (move i Ended {| table := table n; handlers := handlers n;
                 delivered := delivered n ++ [(i, {| ev_msg := h_msg h; ReceivedFrom := h_from h |})]; crashed := false |})
      | _ => None
      end
  end.

Fixpoint conc_run (n : node) (l : list (Z * event)) : option node :=
  match l with [] => Some n | (_, e) :: l => n ← conc_step n e; conc_run n l end.

(** The accesses to the table, in their order. *)
Definition accesses_of (l : list (Z * event)) : list (Z * act) :=
  omap (fun e => match e.2 with Access _ a => Some (e.1, a) | _ => None end) l.

(** The goroutine [i] loads its number at [t], with the time [now], and it is new. *)
Definition found_new (l : list (Z * event)) (i : nat) (id : bytes) (t now : Z) : Prop :=
  exists l1 l2, l = l1 ++ (t, Access i (Load id now)) :: l2 /\
    (loadOrStore id now (act_run newDedup (accesses_of l1))).1 = false.

Lemma accesses_app l k : accesses_of (l ++ k) = accesses_of l ++ accesses_of k.
Proof. unfold accesses_of. by rewrite omap_app. Qed.

Lemma conc_run_app n l k : conc_run n (l ++ k) = n' ← conc_run n l; conc_run n' k.
Proof.
  revert n. induction l as [|[t e] l IH]; intros n; [done|]. cbn. destruct (conc_step n e); [|done]. apply IH.
Qed.

Lemma found_new_app l k i id t now : found_new l i id t now -> found_new (l ++ k) i id t now.
Proof. intros (l1 & l2 & -> & H). exists l1, (l2 ++ k). by rewrite <-app_assoc. Qed.

(** A forwarder past its load, and not at its end, has found its number new; whatever was
    delivered is at its end. *)
Record run_ok (l : list (Z * event)) (n : node) : Prop := {
  ro_table : table n = act_run newDedup (accesses_of l);
  ro_new : forall i h, handlers n !! i = Some h -> h_own h = false ->
    match h_pc h with AtLoad | Ended => True | _ => exists t now, found_new l i (fwdMsgID (h_msg h)) t now end;
  ro_delivered : forall i ev, (i, ev) ∈ delivered n -> exists h, handlers n !! i = Some h /\ h_pc h = Ended /\
    ev = {| ev_msg := h_msg h; ReceivedFrom := h_from h |} /\
    (h_own h = false -> exists t now, found_new l i (fwdMsgID (h_msg h)) t now);
  ro_once : NoDup (delivered n).*1
}.

Lemma run_ok_move l x i h c n :
  run_ok l n -> accesses_of [x] = [] -> handlers n !! i = Some h -> h_pc h <> AtLoad -> h_pc h <> Ended ->
  run_ok (l ++ [x]) (move i c n).
Proof.
  intros [H1 H2 H3 H4] Ex Hi Hl He. split; cbn [move table handlers delivered].
  - by rewrite accesses_app, Ex, app_nil_r.
  - intros k h'. destruct (decide (i = k)) as [<-|Hne].
    + rewrite list_lookup_alter_eq, Hi. intros [= <-] Ho. cbn in *. specialize (H2 i h Hi Ho).
      assert (exists t now, found_new l i (fwdMsgID (h_msg h)) t now) as (t & now & Hf) by (by destruct (h_pc h)).
      apply found_new_app with (k := [x]) in Hf. destruct c; eauto.
    + rewrite list_lookup_alter_ne by done. intros Hk Ho. specialize (H2 k h' Hk Ho).
      destruct (h_pc h'); try done; destruct H2 as (t & now & Hf); eauto using found_new_app.
  - intros k ev Hev. destruct (H3 k ev Hev) as (h' & Hk & Hend & Ee & Hf). exists h'.
    assert (i <> k) by (intros ->; congruence). rewrite list_lookup_alter_ne by done. split_and!; try done.
    intros Ho. destruct (Hf Ho) as (t & now & Hf'). eauto using found_new_app.
  - done.
Qed.

Lemma run_ok_step l t e n n' : run_ok l n -> conc_step n e = Some n' -> run_ok (l ++ [(t, e)]) n'.
Proof.
  intros Hn E. unfold conc_step in E. destruct (crashed n); [done|]. destruct e as [own from m|i a|i|i].
  - injection E as <-. destruct Hn as [H1 H2 H3 H4]. split; cbn [table handlers delivered].
    + rewrite accesses_app. cbn. by rewrite app_nil_r.
    + intros k h [Hk|(Hlen & Hk)]%lookup_app_Some Ho.
      * specialize (H2 k h Hk Ho). destruct (h_pc h); try done; destruct H2 as (t' & now & Hf); eauto using found_new_app.
      * apply list_lookup_singleton_Some in Hk as [_ <-]. done.
    + intros k ev Hev. destruct (H3 k ev Hev) as (h & Hk & Hend & Ee & Hf). exists h.
      rewrite (lookup_app_l_Some _ _ _ _ Hk). split_and!; try done.
      intros Ho. destruct (Hf Ho) as (t' & now & Hf'). eauto using found_new_app.
    + done.
  - destruct (handlers n !! i) as [h|] eqn:Hi; [|done]. cbn in E. destruct (next (table n) h a) as [c|] eqn:En; [|done].
    injection E as <-. destruct Hn as [H1 H2 H3 H4].
    assert (h_pc h <> Ended) as Hend by (intros Hp; unfold next in En; by rewrite Hp in En).
    split; cbn [move table handlers delivered].
    + rewrite accesses_app, act_run_app, <-H1. done.
    + intros k h'. destruct (decide (i = k)) as [<-|Hne].
      * rewrite list_lookup_alter_eq, Hi. intros [= <-] Ho. cbn in *. specialize (H2 i h Hi Ho). unfold next in En.
        destruct (h_pc h) eqn:Hp, a; try done; simplify_eq.
        -- case_decide as Eid; [|done]. simplify_eq. rewrite Ho. destruct (loadOrStore (fwdMsgID (h_msg h)) now (table n)).1 eqn:El; [done|].
           exists t, now, l, []. by rewrite <-H1.
        -- destruct H2 as (t' & now & Hf). case_match; eauto using found_new_app.
        -- destruct H2 as (t' & now & Hf). eauto using found_new_app.
        -- destruct H2 as (t' & now' & Hf). eauto using found_new_app.
      * rewrite list_lookup_alter_ne by done. intros Hk Ho. specialize (H2 k h' Hk Ho).
        destruct (h_pc h'); try done; destruct H2 as (t' & now & Hf); eauto using found_new_app.
    + intros k ev Hev. destruct (H3 k ev Hev) as (h' & Hk & Hend' & Ee & Hf). exists h'.
      assert (i <> k) by (intros ->; congruence). rewrite list_lookup_alter_ne by done. split_and!; try done.
      intros Ho. destruct (Hf Ho) as (t' & now & Hf'). eauto using found_new_app.
    + done.
  - destruct (handlers n !! i) as [h|] eqn:Hi; [|done]. cbn in E. destruct (h_pc h) eqn:Hp; try done. injection E as <-.
    apply (run_ok_move l _ i h); try done; congruence.
  - destruct (handlers n !! i) as [h|] eqn:Hi; [|done]. cbn in E. destruct (h_pc h) eqn:Hp; try done.
    destruct (_ && _); injection E as <-.
    + destruct Hn as [H1 H2 H3 H4]. split; cbn [table handlers delivered]; [by rewrite accesses_app, app_nil_r| | |done].
      * intros k h' Hk Ho. specialize (H2 k h' Hk Ho). destruct (h_pc h'); try done; destruct H2 as (t' & now & Hf); eauto using found_new_app.
      * intros k ev Hev. destruct (H3 k ev Hev) as (h' & Hk & Hend & Ee & Hf). exists h'. split_and!; try done.
        intros Ho. destruct (Hf Ho) as (t' & now & Hf'). eauto using found_new_app.
    + assert (h_pc h <> AtLoad /\ h_pc h <> Ended) as [Hp1 Hp2] by (by rewrite Hp).
      pose proof (run_ok_move l (t, Send i) i h Ended n Hn eq_refl Hi Hp1 Hp2) as [M1 M2 M3 M4].
      split; cbn [move table handlers delivered] in *; [done|done| |].
      * intros k ev [Hev|Hev]%elem_of_app; [by apply M3|]. apply list_elem_of_singleton in Hev as [= -> ->].
        exists (at_pc Ended h). rewrite list_lookup_alter_eq, Hi. split_and!; try done. intros Ho. cbn in *.
        pose proof (ro_new _ _ Hn i h Hi Ho) as Hf. rewrite Hp in Hf. destruct Hf as (t' & now & Hf). eauto using found_new_app.
      * rewrite fmap_app. apply NoDup_app. split; [done|]. split; [|apply NoDup_singleton].
        intros x Hx Hx'. cbn in Hx'. apply list_elem_of_singleton in Hx'. subst x. apply list_elem_of_fmap in Hx as ([k ev] & -> & Hev). cbn in *.
        destruct (ro_delivered _ _ Hn k ev Hev) as (h' & Hk & Hend & _). rewrite Hi in Hk. congruence.
Qed.

Lemma run_ok_run l n : conc_run newNode l = Some n -> run_ok l n.
Proof.
  revert n. induction l as [|[t e] l IH] using rev_ind; intros n E.
  - injection E as <-. split; cbn; [done|by intros ? ? ?|by intros ? ? ?%elem_of_nil|constructor].
  - rewrite conc_run_app in E. destruct (conc_run newNode l) as [n0|] eqn:E0; [|done]. cbn in E.
    destruct (conc_step n0 e) as [n1|] eqn:E1; [|done]. injection E as <-. by eapply run_ok_step; [apply IH|].
Qed.

(** Two goroutines that found one number new did so more than ten minutes apart. *)
Definition far_apart (l : list (Z * event)) (i j : nat) (id : bytes) : Prop :=
  forall t1 n1 t2 n2, found_new l i id t1 n1 -> found_new l j id t2 n2 -> dedupTTL < t2 - n1 \/ dedupTTL < t1 - n2.

Lemma found_after l1 t1 i id n1 l2 t2 j n2 l3 :
  let l := l1 ++ (t1, Access i (Load id n1)) :: l2 ++ (t2, Access j (Load id n2)) :: l3 in
  act_sched 0 (accesses_of l) -> no_overlap newDedup (accesses_of l) ->
  (loadOrStore id n1 (act_run newDedup (accesses_of l1))).1 = false ->
  (loadOrStore id n2 (act_run newDedup (accesses_of (l1 ++ (t1, Access i (Load id n1)) :: l2)))).1 = false ->
  dedupTTL < t2 - n1.
Proof.
  intros l Hs Hn F1 F2. unfold l in *. rewrite !accesses_app in *. cbn [accesses_of omap list_omap fst snd] in *.
  fold (accesses_of l2) in *. fold (accesses_of (l2 ++ (t2, Access j (Load id n2)) :: l3)) in *. rewrite accesses_app in *.
  cbn [accesses_of omap list_omap fst snd] in *. fold (accesses_of l2) (accesses_of l3) in *.
  apply sched_app in Hs as [_ (_ & Hn1 & Hs)]. apply sched_app in Hs as [Hs (Ht2 & _ & _)].
  apply no_overlap_app in Hn as [_ [_ Hn]]. apply no_overlap_app in Hn as [Hn _].
  set (d1 := act_run newDedup (accesses_of l1)) in *.
  destruct (kept_or_expired id n1 (accesses_of l2) (act_step d1 (Load id n1)).1 t1 Hs Hn Hn1) as [Hk|Hk]; [| |lia].
  - left. cbn. unfold loadOrStore in F1 |- *. destruct (seenMsgIDs d1 !! id); [done|]. cbn. by rewrite lookup_insert_eq.
  - exfalso. revert F2. rewrite act_run_app. cbn [act_run]. fold d1. unfold loadOrStore at 1. by rewrite Hk.
Qed.

Lemma found_new_far l i j id : i <> j ->
  act_sched 0 (accesses_of l) -> no_overlap newDedup (accesses_of l) -> far_apart l i j id.
Proof.
  intros Hij Hs Hn t1 n1 t2 n2 (l1 & l2 & E1 & F1) (k1 & k2 & E2 & F2).
  assert (l1 ++ (t1, Access i (Load id n1)) :: l2 = k1 ++ (t2, Access j (Load id n2)) :: k2) as E by congruence.
  apply app_eq_inv in E as [(m & -> & E)|(m & -> & E)].
  - destruct m as [|x m]; [exfalso; cbn in E; injection E; congruence|]. injection E as <- ->. right.
    rewrite E1 in Hs, Hn. rewrite <-app_assoc in Hs, Hn. cbn [app] in Hs, Hn. by eapply found_after.
  - destruct m as [|x m]; [exfalso; cbn in E; injection E; congruence|]. injection E as <- ->. left.
    rewrite E2 in Hs, Hn. rewrite <-app_assoc in Hs, Hn. cbn [app] in Hs, Hn. by eapply found_after.
Qed.


(** Two forwarders of one message at once: the second comes between the accesses of the
    first, and only the first sends it. *)
Definition twice : list (Z * event) :=
  [(0, Arrive false [7] (w_msg 1)); (0, Arrive false [8] (w_msg 1)); (1, Access 0 (Load (fwdMsgID (w_msg 1)) 1));
   (2, Access 1 (Load (fwdMsgID (w_msg 1)) 1)); (3, Access 0 Add); (4, Send 0)].

End Concurrent.
