(* ===== verification/DDLog.v ===== *)
(** * The logger that merges repeated messages

    src/dlog/ddlog.go.  The entries are objects that the logger and the functions given to
    the timer share, so they live in a heap and are named by an index.  The timer
    (bep/debounce) calls a function it was given about a second after it was given; that
    it drops the earlier ones is not relied on: here any function it was ever given may be
    called at any moment, and more than once ([Fire]). *)

From S2P Require Import Prelude GoLib GoNet GoPath.

Section logger.
(** [now.Format("15:04:05")] *)
Context (clock : Z -> string).

Definition debounceDelay : Z := second.

Record ddEntry := { firstFull : string; count : Z; firstAt : Z }.

Record DDLogger := {
  curKey : string;
  cur : option nat;
  gen : Z;
  heap : list ddEntry;
  armed : list (Z * nat);       (* the functions given to the timer: gen, entry *)
  printed : list ddEntry        (* the entries [printEntry] was called on, as they were *)
}.

Definition newDDLogger : DDLogger :=
  {| curKey := ""; cur := None; gen := 0; heap := []; armed := []; printed := [] |}.

(** The line [printEntry] writes. *)
Definition printLine (e : ddEntry) : string :=
  if 1 <? count e then firstFull e +:+ " [x" +:+ utoa (count e) +:+ "]" else firstFull e.

Definition printEntry (i : nat) (d : DDLogger) : DDLogger :=
  {| curKey := curKey d; cur := cur d; gen := gen d; heap := heap d; armed := armed d;
     printed := printed d ++ option_list (heap d !! i) |}.

Definition clear (d : DDLogger) : DDLogger :=
  {| curKey := ""; cur := None; gen := gen d; heap := heap d; armed := armed d; printed := printed d |}.

(** The next generation, and a timer for the entry [i]. *)
Definition arm (i : nat) (d : DDLogger) : DDLogger :=
  let g := wrapu 64 (gen d + 1) in
  {| curKey := curKey d; cur := cur d; gen := g; heap := heap d; armed := armed d ++ [(g, i)]; printed := printed d |}.

Definition logKey (file : string) (line : Z) (msg : string) : string :=
  file +:+ ":" +:+ utoa line +:+ ": " +:+ msg.

(** [Printf] at the time [now], for the message [msg] of the caller's [file] and [line]. *)
Definition Printf (shortfile : bool) (file : string) (line : Z) (msg : string) (now : Z) (d : DDLogger) : res DDLogger :=
  let file := if shortfile then Base file else file in
  let key := logKey file line msg in
  let full := clock now +:+ " " +:+ logKey file line msg in
  let start (d : DDLogger) :=
    let d := match cur d with Some i => printEntry i d | None => d end in
    let i := length (heap d) in
    arm i {| curKey := key; cur := Some i; gen := gen d;
             heap := heap d ++ [{| firstFull := full; count := 1; firstAt := now |}];
             armed := armed d; printed := printed d |} in
  if String.eqb key (curKey d) then
    match cur d with
    | None => Panic
    | Some i =>
        match heap d !! i with
        | None => Panic
        | Some e =>
            if time_sub now (firstAt e) <? debounceDelay then
              Ok (arm i {| curKey := curKey d; cur := cur d; gen := gen d;
                           heap := <[i := {| firstFull := firstFull e; count := count e + 1; firstAt := firstAt e |}]> (heap d);
                           armed := armed d; printed := printed d |})
            else Ok (start d)
        end
    end
  else Ok (start d).

Definition flush (g : Z) (entry : nat) (d : DDLogger) : DDLogger :=
  if negb (g =? gen d) || negb (bool_decide (cur d = Some entry)) then d
  else clear (printEntry entry d).

Definition ExitFlush (d : DDLogger) : DDLogger :=
  match cur d with Some i => clear (printEntry i d) | None => d end.

Inductive op :=
  | Log (shortfile : bool) (file : string) (line : Z) (msg : string) (now : Z)
  | Fire (n : nat)
  | Exit.

Definition step (o : op) (d : DDLogger) : res DDLogger :=
  match o with
  | Log sf file line msg now => Printf sf file line msg now d
  | Fire n => Ok (match armed d !! n with Some (g, i) => flush g i d | None => d end)
  | Exit => Ok (ExitFlush d)
  end.

Fixpoint run (l : list op) (d : DDLogger) : res DDLogger :=
  match l with [] => Ok d | o :: l => let! d := step o d in run l d end.

(** ** The log without merging: the time and the key of each call. *)
Definition plain (o : op) : list (Z * string) :=
  match o with
  | Log sf file line msg now => [(now, logKey (if sf then Base file else file) line msg)]
  | _ => []
  end.

Definition pending (d : DDLogger) : list ddEntry :=
  match cur d with Some i => option_list (heap d !! i) | None => [] end.

(** The entry [e] stands for the calls [g]: the line of the first, the number of calls,
    all of the same place and message, less than a second after the first. *)
Definition stands_for (e : ddEntry) (g : list (Z * string)) : Prop :=
  match g with
  | [] => False
  | (t, k) :: r =>
      firstAt e = t /\ firstFull e = clock t +:+ " " +:+ k /\ count e = zlen g /\
      Forall (fun p => p.2 = k /\ p.1 - t < debounceDelay) r
  end.

(** The printed entries, and the pending one, stand for the calls of [log] in order; the
    timer armed last is for the pending entry. *)
Definition covers (log : list (Z * string)) (d : DDLogger) : Prop :=
  exists gs, Forall2 stands_for (printed d) gs /\
  match cur d with
  | None => log = concat gs /\ curKey d = ""
  | Some i =>
      last (armed d) = Some (gen d, i) /\
      exists e t r, heap d !! i = Some e /\ stands_for e ((t, curKey d) :: r) /\
        log = concat gs ++ (t, curKey d) :: r
  end.

Lemma logKey_nonempty file line msg : logKey file line msg <> "".
Proof. unfold logKey. destruct file; discriminate. Qed.

Lemma covers_print log d i :
  covers log d -> cur d = Some i ->
  exists gs, Forall2 stands_for (printed (printEntry i d)) gs /\ log = concat gs.
Proof.
  intros (gs & Hp & Hc) E. rewrite E in Hc. destruct Hc as (_ & e & t & r & He & Hs & ->).
  exists (gs ++ [(t, curKey d) :: r]). cbn [printEntry printed]. rewrite He. cbn [option_list].
  split; [by apply Forall2_app; [|constructor]|]. rewrite concat_app. cbn. by rewrite app_nil_r.
Qed.

(** What is left when the pending entry, if any, has been printed. *)
Lemma covers_flushed log d d1 :
  covers log d -> d1 = match cur d with Some i => printEntry i d | None => d end ->
  heap d1 = heap d /\ exists gs, Forall2 stands_for (printed d1) gs /\ log = concat gs.
Proof.
  intros Hc ->. destruct (cur d) as [i|] eqn:E.
  - split; [done|]. by apply covers_print.
  - split; [done|]. destruct Hc as (gs & Hp & Hc). rewrite E in Hc. exists gs. by destruct Hc.
Qed.

Lemma covers_clear log d i : covers log d -> cur d = Some i -> covers log (clear (printEntry i d)).
Proof.
  intros Hc E. destruct (covers_print _ _ _ Hc E) as (gs & Hp & Hl). exists gs. by cbn.
Qed.

Lemma covers_step log o d : covers log d -> exists d', step o d = Ok d' /\ covers (log ++ plain o) d'.
Proof.
  intros Hc. destruct o as [sf file line msg now|n|]; cbn [step plain].
  - unfold Printf. set (f := if sf then Base file else file). set (key := logKey f line msg).
    set (d1 := match cur d with Some i => printEntry i d | None => d end).
    assert (covers (log ++ [(now, key)])
      (arm (length (heap d1))
         {| curKey := key; cur := Some (length (heap d1)); gen := gen d1;
            heap := heap d1 ++ [{| firstFull := clock now +:+ " " +:+ key; count := 1; firstAt := now |}];
            armed := armed d1; printed := printed d1 |})) as Hstart.
    { destruct (covers_flushed _ _ d1 Hc eq_refl) as (_ & gs & Hp & ->). exists gs. cbn.
      split; [done|]. split; [by rewrite last_snoc|].
      eexists _, now, []. split; [by apply list_lookup_middle|]. by repeat split. }
    destruct (String.eqb_spec key (curKey d)) as [Ek|Ek]; [|eauto].
    pose proof Hc as (gs & Hp & Hcur). destruct (cur d) as [i|] eqn:Ecur.
    + destruct Hcur as (Hlast & e & t & r & He & Hs & Hlog). rewrite He.
      destruct (Z.ltb_spec (time_sub now (firstAt e)) debounceDelay) as [Ht|Ht]; [|eauto].
      eexists. split; [reflexivity|]. exists gs. cbn. split; [done|]. split; [by rewrite last_snoc|].
      eexists _, t, (r ++ [(now, key)]).
      split; [apply list_lookup_insert_eq; by eapply lookup_lt_Some|].
      destruct Hs as (Hat & Hf & Hn & Hr). rewrite Hat in Ht. split.
      * repeat split; [done|done| |].
        -- cbn [count]. rewrite Hn. rewrite app_comm_cons, zlen_app. by f_equal.
        -- apply Forall_app. split; [done|]. constructor; [|done]. cbn. split; [done|].
           unfold time_sub, debounceDelay, second, min_int64, max_int64 in *. lia.
      * rewrite Hlog, <- app_assoc. done.
    + destruct Hcur as [_ Hk]. rewrite Hk in Ek. by apply logKey_nonempty in Ek.
  - rewrite app_nil_r. eexists. split; [reflexivity|]. destruct (armed d !! n) as [[g i]|]; [|done].
    unfold flush. destruct (g =? gen d); [|done]. cbn [negb orb].
    destruct (bool_decide_reflect (cur d = Some i)) as [E|E]; [|done]. by apply covers_clear.
  - rewrite app_nil_r. eexists. split; [reflexivity|]. unfold ExitFlush.
    destruct (cur d) as [i|] eqn:E; [|done]. by apply covers_clear.
Qed.

Lemma covers_run l : forall log d, covers log d ->
  exists d', run l d = Ok d' /\ covers (log ++ concat (map plain l)) d'.
Proof.
  induction l as [|o l IH]; intros log d Hc; cbn [run map concat].
  - exists d. by rewrite app_nil_r.
  - destruct (covers_step log o d Hc) as (d1 & -> & Hc1). cbn [rbind].
    destruct (IH _ _ Hc1) as (d' & Hr & Hc'). exists d'. by rewrite app_assoc.
Qed.

Lemma covers_pending log d : covers log d ->
  exists gs, Forall2 stands_for (printed d ++ pending d) gs /\ log = concat gs.
Proof.
  intros Hc. pose proof Hc as (gs & Hp & Hcur). unfold pending. destruct (cur d) as [i|] eqn:E.
  - exact (covers_print _ _ _ Hc E).
  - exists gs. rewrite app_nil_r. by destruct Hcur.
Qed.

(** C28. Merging loses nothing: whatever is logged, whichever timers fire, in whatever
    order and however late, the logger does not fail, and the entries printed, with the
    one still pending, stand for the calls in order: each entry is the line of a call with
    the number of calls it stands for, all of the same place and message and less than a
    second after it.  Nothing is pending after the timer that was armed last has fired, or
    after [ExitFlush]. *)
Theorem ddlog_lossless l :
  exists d gs, run l newDDLogger = Ok d /\
    Forall2 stands_for (printed d ++ pending d) gs /\ concat (map plain l) = concat gs /\
    (forall o, o = Exit \/ o = Fire (pred (length (armed d))) ->
       exists d', step o d = Ok d' /\ printed d' = printed d ++ pending d /\ pending d' = []).
Proof.
  assert (covers [] newDDLogger) as H0 by (by exists []).
  destruct (covers_run l _ _ H0) as (d & Hr & Hc). exists d.
  destruct (covers_pending _ _ Hc) as (gs & Hp & Hl). exists gs.
  split; [done|]. split; [done|]. split; [done|].
  destruct Hc as (gs' & _ & Hcur). unfold pending.
  intros o [->| ->]; eexists; (split; [reflexivity|]).
  - unfold ExitFlush. destruct (cur d) as [i|] eqn:E; [done|]. by rewrite E, app_nil_r.
  - rewrite <- last_lookup. destruct (cur d) as [i|] eqn:E.
    + destruct Hcur as [-> _]. unfold flush. by rewrite Z.eqb_refl, E, bool_decide_true.
    + destruct (last (armed d)) as [[g i]|]; [|by rewrite E, app_nil_r].
      unfold flush. rewrite E, bool_decide_false, orb_true_r by done. by rewrite E, app_nil_r.
Qed.
End logger.

(** Three calls merged, a timer that was overtaken, and another message. *)
Example merge_three :
  let c := fun _ => "12:00:00" in
  let at_ t := Log true "/src/a.go" 7 "up" t in
  match run c [at_ 0; at_ (second / 2); Fire 0; at_ (second - 1); Fire 2; at_ (3 * second); Log true "b.go" 9 "down" (3 * second)]
          newDDLogger with
  | Ok d => map printLine (printed d) = ["12:00:00 a.go:7: up [x3]"; "12:00:00 a.go:7: up"] /\
            map printLine (pending d) = ["12:00:00 b.go:9: down"]
  | _ => False
  end.
Proof. vm_compute. by split. Qed.
