(* ===== verification/Protocols.v ===== *)
(** * The registry of protocols

    src/p2put/user_protocols.go.  The libp2p host is third-party code: what the program
    does to it is the sequence of calls it makes ([hostCall]), and what the host then
    serves is what its documentation says ([serving]): a handler set for a protocol
    replaces the one set before under the same name, and a removal removes it. *)

From S2P Require Import Prelude GoLib GoNet GoPath.

Definition baseProtocolPath : string := "/d2hub/".

(** [strings.TrimPrefix(name, "/")] *)
Definition trimSlash (s : string) : string :=
  match s with
  | String c r => if Ascii.eqb slash c then r else s
  | EmptyString => s
  end.

(** [strings.HasSuffix(s, "/")] *)
Fixpoint endsSlash (s : string) : bool :=
  match s with
  | EmptyString => false
  | String c EmptyString => Ascii.eqb slash c
  | String _ r => endsSlash r
  end.

Definition fullProtoID (name : string) : string := baseProtocolPath +:+ trimSlash name.

Section registry.
Context {H : Type}.

Inductive hostCall :=
  | SetStreamHandler (pid : string) (h : H)
  | SetStreamHandlerMatch (pid : string) (prefix : string) (h : H)
  | RemoveStreamHandler (pid : string).

(** [registry], and the calls made to the host, if there is one. *)
Record protocols := { registry : gmap string H; calls : option (list hostCall) }.

Definition noProtocols : protocols := {| registry := ∅; calls := None |}.

Definition tell (c : hostCall) (p : option (list hostCall)) : option (list hostCall) :=
  (fun l => l ++ [c]) <$> p.

(** The name of the registry entry. *)
Definition registryKey (name : string) (wildcard : bool) : res string :=
  if wildcard then
    match cut_last slash name with
    | Some (String c a, _) => Ok (fullProtoID (String c a +:+ "/"))
    | _ => Fail "wildcard protocol must contain '/' to determine base prefix"
    end
  else Ok (fullProtoID name).

Definition setHandler (pid : string) (wildcard : bool) (h : H) : hostCall :=
  if wildcard then SetStreamHandlerMatch pid pid h else SetStreamHandler pid h.

Definition RegisterProtocol (name : string) (handler : H) (wildcard : bool) (p : protocols) : res protocols :=
  let! pid := registryKey name wildcard in
  match registry p !! pid with
  | Some _ => Fail "protocol already registered"
  | None => Ok {| registry := <[pid := handler]> (registry p); calls := tell (setHandler pid wildcard handler) (calls p) |}
  end.

Definition MustRegisterProtocol (name : string) (handler : H) (wildcard : bool) (p : protocols) : res protocols :=
  match RegisterProtocol name handler wildcard p with Fail _ => Panic | r => r end.

Definition UnregisterProtocol (name : string) (p : protocols) : protocols :=
  let pid := fullProtoID name in
  {| registry := delete pid (registry p); calls := tell (RemoveStreamHandler pid) (calls p) |}.

(** [replayProtocols] on a new host. *)
Definition replayProtocols `{MapRange} (p : protocols) : protocols :=
  {| registry := registry p;
     calls := Some (map (fun e => setHandler e.1 (endsSlash e.1) e.2) (range_map 0 (registry p))) |}.

(** What the host serves: under each name, whether it compares prefixes, and the handler. *)
Definition serve_step (m : gmap string (option string * H)) (c : hostCall) : gmap string (option string * H) :=
  match c with
  | SetStreamHandler pid h => <[pid := (None, h)]> m
  | SetStreamHandlerMatch pid prefix h => <[pid := (Some prefix, h)]> m
  | RemoveStreamHandler pid => delete pid m
  end.
Definition serving (l : list hostCall) : gmap string (option string * H) := foldl serve_step ∅ l.

(** A stream for the protocol [proto] goes to [h]. *)
Definition serves (l : list hostCall) (proto : string) (h : H) : Prop :=
  exists pid, serving l !! pid = Some (None, h) /\ proto = pid \/
    exists prefix, serving l !! pid = Some (Some prefix, h) /\ has_prefix prefix proto = true.

(** ** Operations *)
Inductive op :=
  | Register (name : string) (h : H) (wildcard : bool)
  | Unregister (name : string).

(** An error leaves the registry as it was. *)
Definition step (o : op) (p : protocols) : protocols :=
  match o with
  | Register name h wildcard => match RegisterProtocol name h wildcard p with Ok p => p | _ => p end
  | Unregister name => UnregisterProtocol name p
  end.

Definition run (l : list op) (p : protocols) : protocols := foldl (fun p o => step o p) p l.

(** A handler registered without the wildcard whose name ends in a slash. *)
Definition exact_dir (o : op) : bool :=
  match o with Register name _ false => endsSlash (fullProtoID name) | _ => false end.

(** What the registry says the host serves. *)
Definition expected (m : gmap string H) : gmap string (option string * H) :=
  map_imap (fun pid h => Some (if endsSlash pid then Some pid else None, h)) m.
End registry.
Arguments hostCall : clear implicits.
Arguments protocols : clear implicits.
Arguments op : clear implicits.
#[local] Arguments serving : simpl never.
#[local] Arguments expected : simpl never.

(** ** Strings *)
Lemma endsSlash_app_r s t : t <> "" -> endsSlash (s +:+ t) = endsSlash t.
Proof.
  intros Ht. induction s as [|c s IH]; [done|]. rewrite <- IH. change (String c s +:+ t) with (String c (s +:+ t)).
  assert (s +:+ t <> "") as Hne by by apply string_app_nonempty. revert Hne. generalize (s +:+ t).
  intros [|d u]; done.
Qed.

Lemma endsSlash_app s : endsSlash (s +:+ "/") = true.
Proof. by rewrite endsSlash_app_r. Qed.

Lemma endsSlash_key name pid : registryKey name true = Ok pid -> endsSlash pid = true.
Proof.
  unfold registryKey. destruct (cut_last slash name) as [[[|c a] b]|]; [done| |done]. intros [= <-].
  unfold fullProtoID.
  change (trimSlash (String c a +:+ "/")) with (if Ascii.eqb slash c then a +:+ "/" else String c a +:+ "/").
  assert (forall u, endsSlash (baseProtocolPath +:+ (u +:+ "/")) = true) as Hu.
  { intros u. rewrite endsSlash_app_r by by apply string_app_nonempty. apply endsSlash_app. }
  destruct (Ascii.eqb slash c); apply Hu.
Qed.

(** ** What the host serves is what the registry says *)
Section proofs.
Context {H : Type}.
Implicit Types p : protocols H.

(** The calls of [p], if a host exists, serve what the registry expects. *)
Definition synced p : Prop :=
  match calls p with Some l => serving l = expected (registry p) | None => True end.

Lemma serving_snoc (l : list (hostCall H)) c : serving (l ++ [c]) = serve_step (serving l) c.
Proof. unfold serving. by rewrite foldl_app. Qed.

Definition entry (pid : string) (h : H) : option string * H := (if endsSlash pid then Some pid else None, h).

Lemma expected_empty : expected (∅ : gmap string H) = ∅.
Proof. apply map_imap_empty. Qed.
Lemma expected_insert pid h (m : gmap string H) : expected (<[pid := h]> m) = <[pid := entry pid h]> (expected m).
Proof. unfold expected. by rewrite map_imap_insert_Some with (y := entry pid h). Qed.
Lemma expected_delete pid (m : gmap string H) : expected (delete pid m) = delete pid (expected m).
Proof. unfold expected. by rewrite map_imap_delete. Qed.
Lemma lookup_expected pid (m : gmap string H) : expected m !! pid = entry pid <$> m !! pid.
Proof. unfold expected. rewrite map_lookup_imap. by destruct (m !! pid). Qed.
Lemma serve_setHandler m pid (h : H) : serve_step m (setHandler pid (endsSlash pid) h) = <[pid := entry pid h]> m.
Proof. unfold setHandler, entry. by destruct (endsSlash pid). Qed.

Lemma synced_register o p : exact_dir o = false -> synced p -> synced (step o p).
Proof.
  unfold synced. intros Hd Hp. destruct o as [name h w|name]; cbn [step].
  - unfold RegisterProtocol. destruct (registryKey name w) as [pid| |] eqn:Ek; cbn [rbind]; [|done..].
    destruct (registry p !! pid) eqn:Er; [done|]. cbn. destruct (calls p) as [l|]; [|done]. cbn.
    rewrite serving_snoc, Hp, expected_insert.
    assert (endsSlash pid = w) as Ew.
    { destruct w; [by eapply endsSlash_key|]. cbn in Ek. by simplify_eq. }
    rewrite <- Ew. apply serve_setHandler.
  - cbn. destruct (calls p) as [l|]; [|done]. cbn. rewrite serving_snoc, Hp. by rewrite expected_delete.
Qed.

Lemma synced_run l p : Forall (fun o => exact_dir o = false) l -> synced p -> synced (run l p).
Proof.
  intros Hl. revert p. induction Hl as [|o l Ho Hl IH]; intros p Hp; [done|]. cbn. apply IH. by apply synced_register.
Qed.

Lemma serving_replay `{MapRange} p : synced (replayProtocols p).
Proof.
  unfold synced, replayProtocols. cbn. unfold serving.
  assert (forall (l : list (string * H)) m, NoDup l.*1 ->
    foldl serve_step m (map (fun e => setHandler e.1 (endsSlash e.1) e.2) l) =
    expected (list_to_map l : gmap string H) ∪ m) as Hf.
  { induction l as [|[pid h] l IH]; intros m Hn; cbn [map foldl].
    - by rewrite list_to_map_nil, expected_empty, (left_id_L ∅ (∪)).
    - apply NoDup_cons in Hn as [Hpid Hn]. rewrite IH by done. cbn [fst snd].
      rewrite serve_setHandler, list_to_map_cons, expected_insert, <- insert_union_l, insert_union_r; [done|].
      by rewrite lookup_expected, not_elem_of_list_to_map_1. }
  rewrite Hf by apply NoDup_range_keys. rewrite (right_id_L ∅ (∪)). f_equal.
  rewrite <- (list_to_map_to_list (registry p)) at 2.
  apply list_to_map_proper; [apply NoDup_range_keys|]. apply range_map_perm.
Qed.

(** A protocol may be registered before the libp2p host exists or after: as long as no
    name without the wildcard ends in a slash, the host serves the same handlers, under
    the same names and prefixes, when every registration was made on it as when they are
    replayed on it at its creation, in whatever order the registry is visited; these are
    the handlers of the registry, and a duplicate registration changes nothing. *)
Theorem protocols_replay `{MapRange} l p :
  Forall (fun o : op H => exact_dir o = false) l ->
  let early := replayProtocols (run l noProtocols) in
  let late := run l {| registry := ∅; calls := Some [] |} in
  registry late = registry early /\
  (forall cl ce, calls late = Some cl -> calls early = Some ce ->
     serving cl = serving ce /\
     forall pid, serving cl !! pid = entry pid <$> registry late !! pid) /\
  (forall name h w, match RegisterProtocol name h w p with
     | Ok p' => exists pid, registryKey name w = Ok pid /\ registry p !! pid = None /\ registry p' = <[pid := h]> (registry p)
     | Fail _ => match registryKey name w with Ok pid => is_Some (registry p !! pid) | _ => w = true end
     | Panic => False
     end).
Proof.
  intros Hl early late.
  assert (forall c, registry (run l {| registry := ∅; calls := c |}) = registry (run l noProtocols)) as Hreg.
  { intros c. unfold noProtocols. generalize (∅ : gmap string H) as m, (@None (list (hostCall H))) as c'. clear.
    revert c. induction l as [|o l IH]; intros c m c'; [done|]. cbn.
    assert (exists m' c1 c2, step o {| registry := m; calls := c |} = {| registry := m'; calls := c1 |} /\
      step o {| registry := m; calls := c' |} = {| registry := m'; calls := c2 |}) as (m' & c1 & c2 & -> & ->); [|apply IH].
    destruct o as [name h w|name]; cbn; [|eauto 6]. unfold RegisterProtocol.
    destruct (registryKey name w) as [pid| |]; cbn; [|eauto 6..]. destruct (m !! pid); cbn; eauto 6. }
  assert (registry late = registry early) as Er by apply Hreg.
  split; [done|]. split.
  - intros cl ce Hcl Hce.
    assert (synced late) as Hs by by apply synced_run.
    pose proof (serving_replay (run l noProtocols)) as Hr. fold early in Hr.
    unfold synced in Hs, Hr. rewrite Hcl in Hs. rewrite Hce in Hr. rewrite Hs, Hr, Er. split; [done|].
    intros pid. by rewrite lookup_expected.
  - intros name h w. unfold RegisterProtocol. destruct (registryKey name w) as [pid|e|] eqn:Ek; cbn [rbind].
    + destruct (registry p !! pid) eqn:Ep; eauto.
    + by destruct w.
    + unfold registryKey in Ek. by repeat case_match.
Qed.
End proofs.

(** A protocol registered with the wildcard is registered under its directory, and
    unregistering it by its name removes nothing. *)
Example wildcard_stays :
  let p := run [Register "tunnel/1.0" 1%Z true; Unregister "tunnel/1.0"] {| registry := ∅; calls := Some [] |} in
  registry p !! "/d2hub/tunnel/" = Some 1%Z /\
  forall cl, calls p = Some cl -> serves cl "/d2hub/tunnel/1.09339" 1%Z.
Proof.
  split; [reflexivity|]. intros cl [= <-]. exists "/d2hub/tunnel/". right. exists "/d2hub/tunnel/".
  by split.
Qed.

Lemma protocols_replay_witness :
  let M := map_to_list_range in
  let l := [Register "tunnel/1.0" 1%Z true; Register "/push/1.0" 2%Z false; Register "tunnel/2.0" 3%Z true] in
  Forall (fun o : op Z => exact_dir o = false) l /\
  registry (run l {| registry := ∅; calls := Some [] |}) = registry (replayProtocols (run l noProtocols)).
Proof.
  intros M l. assert (Forall (fun o : op Z => exact_dir o = false) l) as Hl by (repeat constructor).
  split; [exact Hl|]. exact (proj1 (protocols_replay l noProtocols Hl)).
Defined.
