(* ===== verification/Pbtunnel.v ===== *)
(** * Application tunnels: names, datagrams, sessions

    src/pbtunnel/pbtunnel.go and [writen] of httpproxy.go.  A peer is dialled by its id and
    an optional port; the port travels in the name of the protocol, and the other side
    reads the address of the local service from it ([targetAddr]).  Datagrams travel on a
    stream behind a two-byte length.  [DriftServer] keeps a session for each local sender
    of datagrams.  The copy loops of TCP are in [Bridge], the reconnecting datagram
    connection in [UdpConn]. *)

From S2P Require Import Prelude GoLib GoNet GoPath Protocols.

(** ** Names and ports *)
Definition tunnelProto : string := "tunnel/1.0".
Definition udpTunnelProto : string := "udptunnel/1.0".
Definition udpBufSize : Z := 65535.

(** [targetAddr(proto)] with the two settings of the package. *)
Definition targetAddr (tunnelTarget : string) (tunnelPort : Z) (proto : option string) : res string :=
  if negb (String.eqb tunnelTarget "") then Ok tunnelTarget
  else
    let! port := match proto with
                 | None => Ok tunnelPort
                 | Some proto =>
                     match after_first tunnelProto proto with
                     | None => Panic
                     | Some suffix =>
                         if String.eqb suffix "" || String.eqb suffix "0" then Ok tunnelPort
                         else match Atoi suffix with Some n => Ok n | None => Panic end
                     end
                 end in
    Ok ("127.0.0.1:" +:+ itoa port).

(** [strings.Split(s, ":")] *)
Fixpoint split_colon (s : string) : list string :=
  match s with
  | EmptyString => [EmptyString]
  | String c r =>
      if Ascii.eqb colon c then EmptyString :: split_colon r
      else match split_colon r with
           | e :: l => String c e :: l
           | [] => [String c EmptyString]
           end
  end.

(** The peer and the protocol [Dial] and [DialUDP] give to [OpenStream]. *)
Definition dialNames (proto : string) (tunnelPort : Z) (peerID : string) : res (string * string) :=
  match split_colon peerID with
  | [id; port] => Ok (id, proto +:+ port)
  | [_] => Ok (peerID, proto +:+ itoa tunnelPort)
  | _ => Panic
  end.
Definition Dial : Z -> string -> res (string * string) := dialNames tunnelProto.
Definition DialUDP : Z -> string -> res (string * string) := dialNames udpTunnelProto.

(** The protocol of the streams [DriftServer] opens, for a connection ([handleP2x]) and
    for a sender of datagrams ([newUDPSession]); the random port is computed and dropped. *)
Definition driftProto (rand : Z) : string :=
  let rdport := (rand / 2) mod (65535 - 21) + 21 in
  let rdproto := tunnelProto +:+ utoa rdport in
  tunnelProto.
Definition driftUDPProto (rand : Z) : string :=
  let rdport := (rand / 2) mod (65535 - 21) + 21 in
  let rdproto := udpTunnelProto +:+ utoa rdport in
  tunnelProto.

Inductive tunnelHandler := HandleTunnel | HandleUDPTunnel.

(** [init] *)
Definition register_tunnels (p : protocols tunnelHandler) : res (protocols tunnelHandler) :=
  let! p := MustRegisterProtocol tunnelProto HandleTunnel true p in
  MustRegisterProtocol udpTunnelProto HandleUDPTunnel true p.

Lemma split_colon_none s : has_char colon s = false -> split_colon s = [s].
Proof.
  induction s as [|c s IH]; [done|]. cbn [has_char split_colon]. intros H.
  apply orb_false_iff in H as [-> H]. by rewrite IH.
Qed.

Lemma split_colon_app s t : has_char colon s = false -> split_colon (s +:+ String colon t) = s :: split_colon t.
Proof.
  induction s as [|c s IH]; intros H; [done|]. cbn [has_char] in H. apply orb_false_iff in H as [Hc H].
  change (String c s +:+ String colon t) with (String c (s +:+ String colon t)). cbn [split_colon].
  by rewrite Hc, IH.
Qed.

Lemma after_first_tunnel s : after_first tunnelProto (fullProtoID (tunnelProto +:+ s)) = Some s.
Proof. reflexivity. Qed.
Lemma after_first_udp s : after_first tunnelProto (fullProtoID (udpTunnelProto +:+ s)) = Some s.
Proof. reflexivity. Qed.

Lemma targetAddr_port tunnelPort proto v :
  after_first tunnelProto proto = Some (utoa v) -> 0 <= v < 2 ^ 63 ->
  targetAddr "" tunnelPort (Some proto) = Ok ("127.0.0.1:" +:+ itoa (if v =? 0 then tunnelPort else v)).
Proof.
  intros E Hv. unfold targetAddr. cbn [String.eqb negb]. rewrite E.
  destruct (String.eqb_spec (utoa v) "") as [Ev|_].
  { pose proof (Atoi_utoa v Hv) as Ha. by rewrite Ev in Ha. }
  destruct (String.eqb_spec (utoa v) "0") as [Ev|Ev]; cbn [orb].
  - apply (utoa_inj v 0) in Ev as ->; [|lia..]. done.
  - rewrite Atoi_utoa by done. cbn [rbind]. destruct (Z.eqb_spec v 0) as [->|]; [done|done].
Qed.

(** The calls the registration of the two tunnels makes on a host. *)
Definition tunnel_calls : list (hostCall tunnelHandler) :=
  [SetStreamHandlerMatch "/d2hub/tunnel/" "/d2hub/tunnel/" HandleTunnel;
   SetStreamHandlerMatch "/d2hub/udptunnel/" "/d2hub/udptunnel/" HandleUDPTunnel].

Lemma register_tunnels_calls :
  exists p, register_tunnels {| registry := ∅; calls := Some [] |} = Ok p /\ calls p = Some tunnel_calls.
Proof. eexists. split; reflexivity. Qed.

Lemma serves_tunnels proto h :
  serves tunnel_calls proto h <->
  h = HandleTunnel /\ has_prefix "/d2hub/tunnel/" proto = true \/
  h = HandleUDPTunnel /\ has_prefix "/d2hub/udptunnel/" proto = true.
Proof.
  unfold serves. change (serving tunnel_calls) with
    (<["/d2hub/udptunnel/" := (Some "/d2hub/udptunnel/", HandleUDPTunnel)]>
      (<["/d2hub/tunnel/" := (Some "/d2hub/tunnel/", HandleTunnel)]> (∅ : gmap string (option string * tunnelHandler)))).
  split.
  - intros [pid [[E _]|(prefix & E & Hp)]];
      apply lookup_insert_Some in E as [[_ E]|[_ E]]; simplify_eq; auto;
      apply lookup_insert_Some in E as [[_ E]|[_ E]]; simplify_eq; auto.
  - intros [[-> Hp]|[-> Hp]].
    + exists "/d2hub/tunnel/". right. exists "/d2hub/tunnel/". by split.
    + exists "/d2hub/udptunnel/". right. exists "/d2hub/udptunnel/". by split.
Qed.

(** What the other side does with a stream opened for [proto]: the handler that gets it
    and the local address it dials. *)
Definition reaches (tunnelPort : Z) (proto : string) (h : tunnelHandler) (addr : res string) : Prop :=
  (forall h', serves tunnel_calls (fullProtoID proto) h' <-> h' = h) /\
  targetAddr "" tunnelPort (Some (fullProtoID proto)) = addr.

Lemma reaches_tunnel tp s addr :
  targetAddr "" tp (Some (fullProtoID (tunnelProto +:+ s))) = addr -> reaches tp (tunnelProto +:+ s) HandleTunnel addr.
Proof.
  intros Ha. split; [|done]. intros h. rewrite serves_tunnels.
  change (has_prefix "/d2hub/udptunnel/" (fullProtoID (tunnelProto +:+ s))) with false.
  change (has_prefix "/d2hub/tunnel/" (fullProtoID (tunnelProto +:+ s))) with true. naive_solver.
Qed.

Lemma reaches_udp tp s addr :
  targetAddr "" tp (Some (fullProtoID (udpTunnelProto +:+ s))) = addr ->
  reaches tp (udpTunnelProto +:+ s) HandleUDPTunnel addr.
Proof.
  intros Ha. split; [|done]. intros h. rewrite serves_tunnels.
  change (has_prefix "/d2hub/udptunnel/" (fullProtoID (udpTunnelProto +:+ s))) with true.
  change (has_prefix "/d2hub/tunnel/" (fullProtoID (udpTunnelProto +:+ s))) with false. naive_solver.
Qed.

Definition loopback (port : Z) : res string := Ok ("127.0.0.1:" +:+ itoa port).

(** Dialling id:port reaches, at the peer, the handler of the right kind, which dials
    that port of the loopback interface; port 0 is the peer's own default port, and
    without a port the dialler's default is used.  The sessions of [DriftServer] for
    datagrams reach the handler of connections: its datagrams are written, length and all,
    into a TCP connection.  A stream opened under a tunnel prefix with anything but a
    number after "tunnel/1.0" makes the peer panic. *)
Theorem dial_target id port tp tp' :
  has_char colon id = false -> 0 <= port < 2 ^ 63 -> 0 <= tp < 2 ^ 63 ->
  (exists proto, Dial tp (id +:+ ":" +:+ utoa port) = Ok (id, proto) /\
     reaches tp' proto HandleTunnel (loopback (if port =? 0 then tp' else port))) /\
  (exists proto, DialUDP tp (id +:+ ":" +:+ utoa port) = Ok (id, proto) /\
     reaches tp' proto HandleUDPTunnel (loopback (if port =? 0 then tp' else port))) /\
  (exists proto, Dial tp id = Ok (id, proto) /\ reaches tp' proto HandleTunnel (loopback (if tp =? 0 then tp' else tp))) /\
  (forall r, reaches tp' (driftProto r) HandleTunnel (loopback tp')) /\
  (forall r, reaches tp' (driftUDPProto r) HandleTunnel (loopback tp')) /\
  (forall proto, targetAddr "" tp' (Some proto) = Panic <->
     forall s, after_first tunnelProto proto = Some s -> s <> "" /\ Atoi s = None).
Proof.
  intros Hid Hport Htp.
  assert (forall v, 0 <= v -> split_colon (id +:+ ":" +:+ utoa v) = [id; utoa v]) as Hsplit.
  { intros v Hv. change (id +:+ ":" +:+ utoa v) with (id +:+ String colon (utoa v)).
    rewrite split_colon_app, split_colon_none; [done| |done]. apply has_char_utoa. by intros []. }
  split_and!.
  - eexists. unfold Dial, dialNames. rewrite Hsplit by lia. split; [reflexivity|].
    by apply reaches_tunnel, targetAddr_port.
  - eexists. unfold DialUDP, dialNames. rewrite Hsplit by lia. split; [reflexivity|].
    by apply reaches_udp, targetAddr_port.
  - eexists. unfold Dial, dialNames. rewrite split_colon_none by done. split; [reflexivity|].
    unfold itoa. rewrite (proj2 (Z.ltb_ge tp 0)) by lia. by apply reaches_tunnel, targetAddr_port.
  - intros r. by apply (reaches_tunnel tp' "").
  - intros r. by apply (reaches_tunnel tp' "").
  - intros proto. unfold targetAddr. cbn [String.eqb negb].
    destruct (after_first tunnelProto proto) as [s|]; cbn [rbind]; [|by split].
    destruct (String.eqb_spec s "") as [->|Hs]; cbn [orb rbind].
    { split; [done|]. intros H. by destruct (H "" eq_refl). }
    destruct (String.eqb_spec s "0") as [->|Hs0]; cbn [rbind].
    { split; [done|]. intros H. by destruct (H "0" eq_refl). }
    destruct (Atoi s) eqn:Ea; cbn [rbind].
    { split; [done|]. intros H. destruct (H s eq_refl). congruence. }
    split; [|done]. intros _ s' [= <-]. done.
Qed.

Lemma dial_target_witness :
  has_char colon "12D3Koo" = false /\ exists proto, Dial 9229 "12D3Koo:9339" = Ok ("12D3Koo", proto) /\
    reaches 80 proto HandleTunnel (loopback 9339).
Proof.
  split; [reflexivity|]. exact (proj1 (dial_target "12D3Koo" 9339 9229 80 eq_refl ltac:(lia) ltac:(lia))).
Defined.

(** ** Datagrams on a stream *)

(** [writen] over a writer: what [Write] returns (how much, whether an error) and its next
    state. *)
Section writen.
Context {W : Type} (Write : W -> bytes -> Z * bool * W).

Fixpoint writen (fuel : nat) (dst : W) (buf : bytes) (wn : Z) : option (Z * bool * W) :=
  match fuel with
  | O => None
  | S fuel =>
      match buf with
      | [] => Some (wn, false, dst)
      | _ =>
          let '(w, err, dst) := Write dst buf in
          if err then Some (wn + w, true, dst)
          else writen fuel dst (drop (Z.to_nat w) buf) (wn + w)
      end
  end.

(** A writer makes progress or fails, and does not write more than it is given. *)
Definition writer_ok : Prop :=
  forall dst buf, buf <> [] -> let '(w, err, _) := Write dst buf in 0 <= w <= zlen buf /\ (err = false -> 0 < w).

Lemma writen_ends dst buf wn fuel :
  writer_ok -> (length buf < fuel)%nat ->
  exists n err dst', writen fuel dst buf wn = Some (wn + n, err, dst') /\ 0 <= n <= zlen buf /\ (err = false -> n = zlen buf).
Proof.
  intros Hw. revert dst buf wn. induction fuel as [|fuel IH]; intros dst buf wn Hf; [lia|].
  cbn [writen]. destruct buf as [|b buf].
  - exists 0, false, dst. split; [by rewrite Z.add_0_r|]. unfold zlen. cbn. lia.
  - specialize (Hw dst (b :: buf) ltac:(done)). destruct (Write dst (b :: buf)) as [[w err] dst'].
    destruct Hw as [Hn Hp]. destruct err; [exists w, true, dst'; done|].
    specialize (Hp eq_refl). unfold zlen in Hn.
    destruct (IH dst' (drop (Z.to_nat w) (b :: buf)) (wn + w)) as (n & err & dst'' & -> & Hr & He);
      [rewrite length_drop; lia|].
    unfold zlen in *. rewrite length_drop in *. exists (w + n), err, dst''.
    split; [by rewrite Z.add_assoc|]. split; [lia|]. intros E. specialize (He E). lia.
Qed.
End writen.

(** The bytes of a datagram on a stream: [PutUint16] of its length, and its data. *)
Definition frame (data : bytes) : bytes := be_bytes 2 (zlen data) ++ data.

(** Two [io.ReadFull]s on a stream that holds the bytes [s] and then ends. *)
Definition readFrame (s : bytes) : option (bytes * bytes) :=
  if (length s <? 2)%nat then None
  else
    let n := Z.to_nat (be_val (take 2 s)) in
    let r := drop 2 s in
    if (length r <? n)%nat then None else Some (take n r, drop n r).

(** The loop of [handleUDPTunnel] from the stream to the socket, and of a session of
    [DriftServer]: the datagrams written to a socket that takes them all. *)
Fixpoint udp_down (fuel : nat) (s : bytes) : list bytes :=
  match fuel with
  | O => []
  | S fuel => match readFrame s with Some (d, r) => d :: udp_down fuel r | None => [] end
  end.

(** The loop from the socket to the stream over what [Read] returns (the data, whether an
    error); an empty datagram is not sent. *)
Fixpoint udp_up (reads : list (bytes * bool)) (s : bytes) : bytes :=
  match reads with
  | [] => s
  | (d, rerr) :: reads =>
      let s := if 0 <? zlen d then s ++ frame d else s in
      if rerr then s else udp_up reads s
  end.

(** [implRead] on a buffer of capacity [cap]. *)
Definition implRead (cap : Z) (s : bytes) : res (bytes * bytes) :=
  match readFrame s with
  | None => Fail "EOF"
  | Some (d, r) => if cap <? zlen d then Panic else Ok (d, r)
  end.

Lemma length_frame d : length (frame d) = (2 + length d)%nat.
Proof. unfold frame. by rewrite length_app, length_be_bytes. Qed.

Lemma readFrame_frame d r : readFrame (frame d ++ r) =
  let n := Z.to_nat (zlen d mod 65536) in
  Some (take n (d ++ r), drop n (d ++ r)).
Proof.
  unfold readFrame, frame. rewrite <- app_assoc.
  rewrite (proj2 (Nat.ltb_ge _ _)) by (rewrite length_app, length_be_bytes; lia).
  rewrite take_app_length', drop_app_length' by (by rewrite length_be_bytes).
  rewrite be_val_be_bytes. change (256 ^ Z.of_nat 2) with 65536. cbn zeta.
  rewrite (proj2 (Nat.ltb_ge _ _)); [done|]. rewrite length_app. unfold zlen.
  pose proof (Z.mod_le (Z.of_nat (length d)) 65536 ltac:(lia) ltac:(lia)). lia.
Qed.

Lemma readFrame_short d k : zlen d < 65536 -> (k < length (frame d))%nat -> readFrame (take k (frame d)) = None.
Proof.
  intros Hd Hk. rewrite length_frame in Hk. unfold readFrame. rewrite length_take, length_frame.
  destruct (Nat.ltb_spec (k `min` (2 + length d)) 2) as [|H2]; [done|].
  rewrite take_take. replace (2 `min` k)%nat with 2%nat by lia.
  assert (take 2 (frame d) = be_bytes 2 (zlen d)) as ->
    by (unfold frame; by rewrite take_app_length' by (by rewrite length_be_bytes)).
  rewrite be_val_be_bytes. change (256 ^ Z.of_nat 2) with 65536.
  rewrite Z.mod_small by (unfold zlen in *; lia). rewrite length_drop, length_take, length_frame.
  rewrite (proj2 (Nat.ltb_lt _ _)); [done|]. unfold zlen. lia.
Qed.

Lemma udp_down_frames ds k : forall fuel,
  Forall (fun d => zlen d < 65536) ds ->
  (k <= length (concat (map frame ds)))%nat -> (length ds < fuel)%nat ->
  udp_down fuel (take k (concat (map frame ds))) `prefix_of` ds /\
  (k = length (concat (map frame ds)) -> udp_down fuel (take k (concat (map frame ds))) = ds).
Proof.
  revert k. induction ds as [|d ds IH]; intros k fuel Hds Hk Hf.
  - cbn in *. destruct fuel; [lia|]. cbn. rewrite take_nil. done.
  - apply Forall_cons_1 in Hds as [Hd Hds]. destruct fuel as [|fuel]; [lia|]. cbn [map concat length] in *.
    cbn [udp_down]. destruct (Nat.lt_ge_cases k (length (frame d))) as [Hs|Hs].
    + rewrite take_app_le by lia. rewrite readFrame_short by done. split; [apply prefix_nil|].
      rewrite length_app. rewrite length_frame in *. lia.
    + rewrite take_app_ge, readFrame_frame by lia. rewrite length_app in Hk.
      rewrite Z.mod_small by (unfold zlen in *; lia). cbn zeta.
      rewrite take_app_length', drop_app_length' by (unfold zlen; lia).
      destruct (IH (k - length (frame d))%nat fuel Hds) as [Hp He]; [lia|lia|].
      split; [by apply prefix_cons|]. intros E. f_equal. apply He. rewrite length_app in E. lia.
Qed.

(** Datagrams survive the stream: what comes out is what went in, and when the stream
    ends anywhere before, the whole datagrams that were in it come out, never a part of
    one or two together.  Only empty datagrams are not sent.  The length has 16 bits: a
    longer datagram written by [implWrite] comes out cut to its length modulo 65536.  And
    [implRead] panics when the peer sends more than the caller's buffer holds, as it can
    to the 65507 bytes of the tun device. *)
Theorem udp_framing ds k :
  Forall (fun d => zlen d <= udpBufSize) ds ->
  let s := udp_up (map (fun d => (d, false)) ds) [] in
  let sent := filter (fun d => d <> []) ds in
  udp_down (S (length s)) s = sent /\
  udp_down (S (length s)) (take k s) `prefix_of` sent /\
  (forall d r, 65536 <= zlen d -> readFrame (frame d ++ r) =
     Some (take (Z.to_nat (zlen d mod 65536)) d, drop (Z.to_nat (zlen d mod 65536)) d ++ r)) /\
  (forall d r, 65507 < zlen d <= 65535 -> implRead 65507 (frame d ++ r) = Panic).
Proof.
  intros Hds s sent.
  assert (s = concat (map frame sent)) as Es.
  { unfold s, sent. assert (forall a, udp_up (map (fun d => (d, false)) ds) a = a ++ concat (map frame (filter (fun d => d <> []) ds))) as ->; [|done].
    clear. induction ds as [|d ds IH]; intros a; cbn [map udp_up]; [by rewrite app_nil_r|].
    rewrite IH, filter_cons. destruct d as [|b d]; cbn [decide].
    - by rewrite decide_False by (intros []; done).
    - rewrite decide_True, (proj2 (Z.ltb_lt _ _)) by (done || (rewrite zlen_cons; pose proof (zlen_nonneg d); lia)).
      cbn [map concat]. by rewrite app_assoc. }
  assert (Forall (fun d => zlen d < 65536) sent) as Hsent.
  { apply Forall_forall. intros d Hd. apply list_elem_of_filter in Hd as [_ Hd].
    rewrite Forall_forall in Hds. specialize (Hds d Hd). unfold udpBufSize in Hds. lia. }
  assert (length sent <= length s)%nat as Hlen.
  { rewrite Es. clear. induction sent as [|d l IH]; [done|]. cbn [map concat length]. rewrite length_app, length_frame. lia. }
  assert (forall k, (k <= length s)%nat -> udp_down (S (length s)) (take k s) `prefix_of` sent /\
    (k = length s -> udp_down (S (length s)) (take k s) = sent)) as Hdown.
  { intros j Hj. pose proof (udp_down_frames sent j (S (length s)) Hsent) as H. rewrite <- Es in H. apply H; lia. }
  assert (udp_down (S (length s)) s = sent) as Hall.
  { rewrite <- (firstn_all s) at 2. by apply Hdown. }
  split; [done|]. split; [|split].
  - destruct (Nat.le_gt_cases k (length s)); [by apply Hdown|]. by rewrite take_ge, Hall by lia.
  - intros d r Hd. rewrite readFrame_frame. cbn zeta.
    pose proof (Z.mod_pos_bound (zlen d) 65536 ltac:(lia)). unfold zlen in *.
    by rewrite take_app_le, drop_app_le by lia.
  - intros d r Hd. unfold implRead. rewrite readFrame_frame. cbn zeta.
    rewrite Z.mod_small by lia. rewrite take_app_length' by (unfold zlen; lia).
    rewrite (proj2 (Z.ltb_lt _ _)) by lia. done.
Qed.

Lemma udp_framing_witness :
  let ds := [[1; 2]; []; [3]] in
  Forall (fun d => zlen d <= udpBufSize) ds /\
  udp_down 8 (udp_up (map (fun d => (d, false)) ds) []) = [[1; 2]; [3]].
Proof.
  intros ds. assert (Forall (fun d => zlen d <= udpBufSize) ds) as H by (repeat constructor; by vm_compute).
  split; [exact H|]. exact (proj1 (udp_framing ds 5 H)).
Defined.

(** ** The datagram sessions of [DriftServer]

    A session lives in a heap, named by an index: the goroutine that reads its stream keeps
    it after the table dropped it.  [ListenUDP], the goroutines of the sessions, [reapUDP]
    and [SwitchPeer] run together; a step ends where a lock is released, a stream is opened
    or closed, or something is written. *)
Module Drift.
Section drift.
Context `{MapRange}.

(** What the goroutine of a session does: it reads the stream; it has written a reply and
    is about to take the lock; it has returned. *)
Inductive reader := Reading | Answered | Returned.

Record udpSession := {
  remoteAddr : string;
  peer : string;            (* the peer and the protocol its stream was opened for *)
  proto : string;
  sent : list bytes;        (* the frames written to the stream *)
  received : list bytes;    (* the datagrams read from it *)
  closed : bool;            (* [stream.Close] and [cancel] were called *)
  goroutine : reader;
  lastUse : Z
}.

(** Where the loop of [ListenUDP] is. *)
Inductive listener :=
  | LRead                                        (* in [ReadFrom] *)
  | LOpen (key : string) (data : bytes)          (* in [newUDPSession], before [OpenStream] *)
  | LInsert (key : string) (data : bytes) (i : nat)   (* before it enters the session it made *)
  | LWrite (key : string) (data : bytes) (i : nat)    (* in [writen] *)
  | LRemove (key : string)                       (* in [removeUDPSession], before the lock *)
  | LClose (i : nat).                            (* before it closes what it removed *)

(** [handled]: the datagrams the loop has read and is done with; [toLocal]: the calls of
    [udpConn.WriteTo], with the session whose goroutine made them. *)
Record DriftServer := {
  peerID : string;
  udpTimeout : Z;
  udpSessions : gmap string nat;
  heap : list udpSession;
  loop : listener;
  handled : list (string * bytes);
  toLocal : list (nat * (string * bytes))
}.

Definition NewDriftServer (peer : string) : DriftServer :=
  {| peerID := peer; udpTimeout := 5 * minute; udpSessions := ∅; heap := []; loop := LRead; handled := []; toLocal := [] |}.

Definition SwitchPeer (peer : string) (s : DriftServer) : DriftServer :=
  {| peerID := peer; udpTimeout := udpTimeout s; udpSessions := udpSessions s; heap := heap s; loop := loop s;
     handled := handled s; toLocal := toLocal s |}.

Definition set_sessions (m : gmap string nat) (h : list udpSession) (s : DriftServer) : DriftServer :=
  {| peerID := peerID s; udpTimeout := udpTimeout s; udpSessions := m; heap := h; loop := loop s;
     handled := handled s; toLocal := toLocal s |}.
Definition set_heap (h : list udpSession) (s : DriftServer) : DriftServer := set_sessions (udpSessions s) h s.
Definition goto (l : listener) (s : DriftServer) : DriftServer :=
  {| peerID := peerID s; udpTimeout := udpTimeout s; udpSessions := udpSessions s; heap := heap s; loop := l;
     handled := handled s; toLocal := toLocal s |}.
Definition handle (key : string) (data : bytes) (s : DriftServer) : DriftServer :=
  {| peerID := peerID s; udpTimeout := udpTimeout s; udpSessions := udpSessions s; heap := heap s; loop := loop s;
     handled := handled s ++ [(key, data)]; toLocal := toLocal s |}.
Definition writeTo (i : nat) (addr : string) (data : bytes) (s : DriftServer) : DriftServer :=
  {| peerID := peerID s; udpTimeout := udpTimeout s; udpSessions := udpSessions s; heap := heap s; loop := loop s;
     handled := handled s; toLocal := toLocal s ++ [(i, (addr, data))] |}.

Definition touch (now : Z) (x : udpSession) : udpSession :=
  {| remoteAddr := remoteAddr x; peer := peer x; proto := proto x; sent := sent x; received := received x;
     closed := closed x; goroutine := goroutine x; lastUse := now |}.
Definition put_frame (f : bytes) (x : udpSession) : udpSession :=
  {| remoteAddr := remoteAddr x; peer := peer x; proto := proto x; sent := sent x ++ [f]; received := received x;
     closed := closed x; goroutine := goroutine x; lastUse := lastUse x |}.
Definition close (x : udpSession) : udpSession :=
  {| remoteAddr := remoteAddr x; peer := peer x; proto := proto x; sent := sent x; received := received x;
     closed := true; goroutine := goroutine x; lastUse := lastUse x |}.
Definition read (l : list bytes) (r : reader) (x : udpSession) : udpSession :=
  {| remoteAddr := remoteAddr x; peer := peer x; proto := proto x; sent := sent x; received := received x ++ l;
     closed := closed x; goroutine := r; lastUse := lastUse x |}.

(** [newUDPSession]; [opens]: the stream opens. *)
Definition newUDPSession (now rand : Z) (opens : bool) (s : DriftServer) : DriftServer :=
  match loop s with
  | LOpen key data =>
      if negb opens then goto LRead (handle key data s)
      else goto (LInsert key data (length (heap s)))
             (set_heap (heap s ++ [{| remoteAddr := key; peer := peerID s; proto := driftUDPProto rand; sent := []; received := [];
                                      closed := false; goroutine := Reading; lastUse := now |}]) s)
  | LInsert key data i => goto (LWrite key data i) (set_sessions (<[key := i]> (udpSessions s)) (heap s) s)
  | _ => s
  end.

Definition removeUDPSession (s : DriftServer) : DriftServer :=
  match loop s with
  | LRemove key =>
      match udpSessions s !! key with
      | Some i => goto (LClose i) (set_sessions (delete key (udpSessions s)) (heap s) s)
      | None => goto LRead s
      end
  | LClose i => goto LRead (set_heap (alter close i (heap s)) s)
  | _ => s
  end.

(** [ListenUDP]: a datagram comes, and its sender is looked up; *)
Definition readFrom (now : Z) (key : string) (data : bytes) (s : DriftServer) : DriftServer :=
  match loop s with
  | LRead =>
      match udpSessions s !! key with
      | Some i => goto (LWrite key data i) (set_heap (alter (touch now) i (heap s)) s)
      | None => goto (LOpen key data) s
      end
  | _ => s
  end.

(** the next step of the loop, if it is not waiting for a datagram; [ok]: the stream opens,
    or [writen] reports no error. *)
Definition listenUDP (now rand : Z) (ok : bool) (s : DriftServer) : DriftServer :=
  match loop s with
  | LRead => s
  | LOpen _ _ | LInsert _ _ _ => newUDPSession now rand ok s
  | LWrite key data i =>
      if ok then goto LRead (handle key data (set_heap (alter (put_frame (frame data)) i (heap s)) s))
      else goto (LRemove key) (handle key data s)
  | LRemove _ | LClose _ => removeUDPSession s
  end.

(** A step of the goroutine of the session [i]: a datagram read, and whether [WriteTo]
    succeeds ([None]: reading fails); then the lock. *)
Definition readUDP (now : Z) (i : nat) (data : option bytes) (writes : bool) (s : DriftServer) : DriftServer :=
  match heap s !! i with
  | Some x =>
      match goroutine x, data with
      | Returned, _ => s
      | Reading, None => set_heap (alter (read [] Returned) i (heap s)) s
      | Reading, Some d =>
          if writes then writeTo i (remoteAddr x) d (set_heap (alter (read [d] Answered) i (heap s)) s)
          else set_heap (alter (read [d] Returned) i (heap s)) s
      | Answered, _ =>
          let h := alter (read [] Reading) i (heap s) in
          set_heap (if bool_decide (udpSessions s !! remoteAddr x = Some i) then alter (touch now) i h else h) s
      end
  | None => s
  end.

(** A tick of [reapUDP], under the lock. *)
Definition idle (now : Z) (s : DriftServer) (i : nat) : bool :=
  match heap s !! i with Some x => udpTimeout s <? time_sub now (lastUse x) | None => false end.
Definition reapUDP (now : Z) (s : DriftServer) : DriftServer :=
  let l := range_map 0 (udpSessions s) in
  set_sessions (sweep (idle now s) (udpSessions s) l)
    (foldl (fun h e => if idle now s e.2 then alter close e.2 h else h) (heap s) l) s.

Inductive op :=
  | Switch (peer : string)
  | FromLocal (now : Z) (key : string) (data : bytes)
  | Listen (now rand : Z) (ok : bool)
  | FromStream (now : Z) (i : nat) (data : option bytes) (writes : bool)
  | Tick (now : Z).

Definition step (s : DriftServer) (o : op) : DriftServer :=
  match o with
  | Switch p => SwitchPeer p s
  | FromLocal now key data => readFrom now key data s
  | Listen now rand ok => listenUDP now rand ok s
  | FromStream now i data writes => readUDP now i data writes s
  | Tick now => reapUDP now s
  end.
Definition run (l : list op) (s : DriftServer) : DriftServer := foldl step s l.

(** The datagrams of a sender, and the replies of a session. *)
Definition from_sender (key : string) (l : list (string * bytes)) : list bytes :=
  omap (fun e => if bool_decide (e.1 = key) then Some e.2 else None) l.
Definition replies (i : nat) (l : list (nat * (string * bytes))) : list (string * bytes) :=
  omap (fun e => if bool_decide (e.1 = i) then Some e.2 else None) l.

#[local] Arguments from_sender : simpl never.
#[local] Arguments replies : simpl never.

(** The session the loop holds and the table does not. *)
Definition holding (l : listener) : option nat := match l with LInsert _ _ i | LClose i => Some i | _ => None end.

(** The table names open sessions of the sender it is keyed by; a session that is open is in
    the table, or the loop is about to enter or to close it; streams carry frames of
    datagrams of the sender of their session, in order; and what a session has read went to
    its sender, in order, the last datagram apart if [WriteTo] failed on it. *)
Record wf (s : DriftServer) : Prop := {
  wf_table : forall key i, udpSessions s !! key = Some i -> exists x, heap s !! i = Some x /\ remoteAddr x = key /\ closed x = false;
  wf_open : forall i x, heap s !! i = Some x -> closed x = false ->
    udpSessions s !! remoteAddr x = Some i \/ holding (loop s) = Some i;
  wf_proto : forall i x, heap s !! i = Some x -> proto x = tunnelProto;
  wf_sent : forall i x, heap s !! i = Some x -> sent x `sublist_of` map frame (from_sender (remoteAddr x) (handled s));
  wf_replies : forall i x, heap s !! i = Some x -> exists q,
    map (pair (remoteAddr x)) (received x) = replies i (toLocal s) ++ q /\
    (q = [] \/ goroutine x = Returned /\ length q = 1%nat);
  wf_senders : forall i, (length (heap s) <= i)%nat -> replies i (toLocal s) = []
}.

(** What the loop relies on. *)
Definition loop_ok (s : DriftServer) : Prop :=
  match loop s with
  | LRead | LRemove _ => True
  | LOpen key _ => udpSessions s !! key = None
  | LInsert key _ i => udpSessions s !! key = None /\ exists x, heap s !! i = Some x /\ remoteAddr x = key /\ closed x = false
  | LWrite key _ i => exists x, heap s !! i = Some x /\ remoteAddr x = key
  | LClose i => exists x, heap s !! i = Some x /\ udpSessions s !! remoteAddr x = None
  end.
Definition inv (s : DriftServer) : Prop := wf s /\ loop_ok s.

(** *** Sessions keep what names them *)

(** A change of a session that keeps all but its times. *)
Record mild (x y : udpSession) : Prop := {
  mild_addr : remoteAddr y = remoteAddr x;
  mild_proto : proto y = proto x;
  mild_closed : closed y = closed x;
  mild_sent : sent y = sent x;
  mild_received : received y = received x;
  mild_goroutine : goroutine y = goroutine x
}.

Lemma alter_lookup (f : udpSession -> udpSession) (i : nat) (h : list udpSession) (j : nat) y :
  alter f i h !! j = Some y <-> exists x, h !! j = Some x /\ y = (if decide (i = j) then f x else x).
Proof.
  destruct (decide (i = j)) as [->|Hne].
  - rewrite list_lookup_alter_eq. destruct (h !! j); naive_solver.
  - rewrite list_lookup_alter_ne by done. naive_solver.
Qed.

Lemma from_sender_app key l1 l2 : from_sender key (l1 ++ l2) = from_sender key l1 ++ from_sender key l2.
Proof. apply omap_app. Qed.
Lemma replies_app i l1 l2 : replies i (l1 ++ l2) = replies i l1 ++ replies i l2.
Proof. apply omap_app. Qed.

Lemma from_one k key d : from_sender k [(key, d)] = if bool_decide (key = k) then [d] else [].
Proof. unfold from_sender. cbn. by destruct (bool_decide (key = k)). Qed.
Lemma replies_one i j p : replies i [(j, p)] = if bool_decide (j = i) then [p] else [].
Proof. unfold replies. cbn. by destruct (bool_decide (j = i)). Qed.

Lemma loop_ok_alter f i s :
  (forall x, remoteAddr (f x) = remoteAddr x) -> (forall x, closed (f x) = closed x) ->
  loop_ok s -> loop_ok (set_heap (alter f i (heap s)) s).
Proof.
  intros Hr Hc. unfold loop_ok. cbn. intros L.
  assert (forall j x, heap s !! j = Some x -> exists y, alter f i (heap s) !! j = Some y /\ remoteAddr y = remoteAddr x /\ closed y = closed x) as Hd.
  { intros j x Hx. eexists. split; [apply alter_lookup; eauto|]. destruct (decide (i = j)); [by rewrite Hr, Hc|done]. }
  destruct (loop s) as [| |key d j|key d j| |j]; [done|done| | |done|].
  - destruct L as (? & x & Hx & ? & ?). destruct (Hd _ _ Hx) as (y & Hy & ? & ?). split; [done|]. exists y. split_and!; congruence.
  - destruct L as (x & Hx & ?). destruct (Hd _ _ Hx) as (y & Hy & ? & ?). exists y. split; congruence.
  - destruct L as (x & Hx & ?). destruct (Hd _ _ Hx) as (y & Hy & E & ?). exists y. split; [done|]. by rewrite E.
Qed.

(** A session changes in what the table does not depend on; its replies are looked at apart. *)
Lemma wf_alter f i s t :
  (forall x, remoteAddr (f x) = remoteAddr x /\ proto (f x) = proto x /\ closed (f x) = closed x /\ sent (f x) = sent x) ->
  (forall x, heap s !! i = Some x -> exists q, map (pair (remoteAddr x)) (received (f x)) = replies i t ++ q /\
     (q = [] \/ goroutine (f x) = Returned /\ length q = 1%nat)) ->
  (forall j, j <> i \/ heap s !! i = None -> replies j t = replies j (toLocal s)) ->
  wf s -> wf {| peerID := peerID s; udpTimeout := udpTimeout s; udpSessions := udpSessions s; heap := alter f i (heap s);
                loop := loop s; handled := handled s; toLocal := t |}.
Proof.
  intros Hf Hi Ht [W1 W2 W3 W4 W5 W6].
  assert (forall j y, alter f i (heap s) !! j = Some y -> exists x, heap s !! j = Some x /\
    remoteAddr y = remoteAddr x /\ proto y = proto x /\ closed y = closed x /\ sent y = sent x) as Hup.
  { intros j y (x & Hx & ->)%alter_lookup. exists x. split; [done|]. by destruct (decide (i = j)); [apply Hf|]. }
  split; cbn.
  - intros key j Hk. destruct (W1 key j Hk) as (x & Hx & Ha & Hc). eexists. split; [apply alter_lookup; eauto|].
    destruct (Hf x) as (? & ? & ? & ?). destruct (decide (i = j)); split; congruence.
  - intros j y Hy Hc. destruct (Hup _ _ Hy) as (x & Hx & -> & _ & E & _). apply W2; [done|congruence].
  - intros j y Hy. destruct (Hup _ _ Hy) as (x & Hx & _ & -> & _). eauto.
  - intros j y Hy. destruct (Hup _ _ Hy) as (x & Hx & -> & _ & _ & ->). eauto.
  - intros j y (x & Hx & ->)%alter_lookup. destruct (decide (i = j)) as [<-|Hne].
    + destruct (Hf x) as (-> & _). by apply Hi.
    + rewrite (Ht j) by auto. by apply W5.
  - intros j Hj. rewrite length_alter in Hj. destruct (decide (j = i)) as [->|Hne].
    + rewrite Ht; [by apply W6|]. right. by apply lookup_ge_None_2.
    + rewrite Ht by auto. by apply W6.
Qed.

(** The sessions [c] is true of are closed, and they leave the table. *)
Lemma wf_close (c : nat -> bool) m h s :
  wf s ->
  (forall key, m !! key = match udpSessions s !! key with Some i => if c i then None else Some i | None => None end) ->
  (forall j, h !! j = (fun x => if c j && bool_decide (udpSessions s !! remoteAddr x = Some j) then close x else x) <$> heap s !! j) ->
  wf (set_sessions m h s).
Proof.
  intros [W1 W2 W3 W4 W5 W6] Hm Hh.
  assert (forall j y, h !! j = Some y -> exists x, heap s !! j = Some x /\
     y = (if c j && bool_decide (udpSessions s !! remoteAddr x = Some j) then close x else x)) as Hup.
  { intros j y Hy. rewrite Hh in Hy. by apply fmap_Some in Hy as (x & Hx & ->); eauto. }
  split; cbn.
  - intros key i Hk. rewrite Hm in Hk. destruct (udpSessions s !! key) as [j|] eqn:Ej; [|done].
    destruct (c j) eqn:Ec; [done|]. simplify_eq. destruct (W1 key i Ej) as (x & Hx & ? & ?).
    exists x. by rewrite Hh, Hx, Ec.
  - intros j y Hy Hc. destruct (Hup j y Hy) as (x & Hx & E).
    assert (remoteAddr y = remoteAddr x) as -> by (subst y; by case_match).
    destruct (c j) eqn:Ec; cbn [andb] in E.
    + case_bool_decide as Hb; subst y; [done|]. destruct (W2 j x Hx Hc) as [?|?]; [done|by right].
    + subst y. destruct (W2 j x Hx Hc) as [E|?]; [|by right]. left. by rewrite Hm, E, Ec.
  - intros j y Hy. destruct (Hup j y Hy) as (x & Hx & ->). case_match; cbn; eauto.
  - intros j y Hy. destruct (Hup j y Hy) as (x & Hx & ->). case_match; cbn; by apply (W4 j).
  - intros j y Hy. destruct (Hup j y Hy) as (x & Hx & ->). case_match; cbn; by apply W5.
  - intros j Hj. apply W6. apply lookup_ge_None_1. apply lookup_ge_None_2 in Hj. rewrite Hh in Hj. by destruct (heap s !! j).
Qed.

(** Only what the loop holds depends on where it is. *)
Lemma wf_goto l s :
  (forall i, holding (loop s) = Some i -> holding l = Some i \/
     forall x, heap s !! i = Some x -> closed x = false -> udpSessions s !! remoteAddr x = Some i) ->
  wf s -> wf (goto l s).
Proof.
  intros Hl [W1 W2 W3 W4 W5 W6]. split; cbn; try done. intros i x Hx Hc.
  destruct (W2 i x Hx Hc) as [?|Hh]; [by left|]. destruct (Hl i Hh) as [?|Ht]; [by right|left; eauto].
Qed.

Lemma wf_handle key data s : wf s -> wf (handle key data s).
Proof.
  intros [W1 W2 W3 W4 W5 W6]. split; cbn; try done. intros i x Hx. rewrite from_sender_app, map_app.
  apply sublist_inserts_r. eauto.
Qed.

Lemma inv_read_from now key data s : inv s -> inv (readFrom now key data s).
Proof.
  intros [W L]. unfold readFrom. destruct (loop s) eqn:El; try by split.
  destruct (udpSessions s !! key) as [i|] eqn:Ek.
  - split.
    + apply wf_goto; [cbn; by rewrite El|]. apply (wf_alter (touch now) i s (toLocal s)); try done.
      intros x Hx. exact (wf_replies _ W i x Hx).
    + cbn. destruct (wf_table _ W _ _ Ek) as (x & Hx & Ha & _). eexists. split; [apply alter_lookup; eauto|].
      by rewrite decide_True.
  - split; [apply wf_goto; [by rewrite El|done]|done].
Qed.

Lemma inv_new_session now rand opens s : inv s -> inv (newUDPSession now rand opens s).
Proof.
  intros [W L]. unfold newUDPSession. unfold loop_ok in L. destruct (loop s) as [|key d|key d i| | |] eqn:El; try (split; [done|by unfold loop_ok; rewrite El]).
  - destruct opens; cbn [negb].
    2: { split; [|done]. apply wf_goto; [cbn; by rewrite El|by apply wf_handle]. }
    destruct W as [W1 W2 W3 W4 W5 W6].
    set (x0 := {| remoteAddr := key; peer := _ |}).
    assert (forall j y, (heap s ++ [x0]) !! j = Some y -> heap s !! j = Some y \/ j = length (heap s) /\ y = x0) as Hup.
    { intros j y Hy. apply lookup_app_Some in Hy as [Hy|[Hj Hy]]; [by left|].
      apply list_lookup_singleton_Some in Hy as [Hj' <-]. right. split; [lia|done]. }
    split.
    + split; cbn.
      * intros k j Hj. destruct (W1 k j Hj) as (x & Hx & ? & ?). exists x. split; [by apply lookup_app_l_Some|done].
      * intros j y Hy Hc. destruct (Hup j y Hy) as [Hx|[-> ->]]; [|by right].
        destruct (W2 j y Hx Hc) as [?|Hh]; [by left|]. by rewrite El in Hh.
      * intros j y Hy. destruct (Hup j y Hy) as [Hx|[-> ->]]; [by eauto|done].
      * intros j y Hy. destruct (Hup j y Hy) as [Hx|[-> ->]]; [by eauto|apply sublist_nil_l].
      * intros j y Hy. destruct (Hup j y Hy) as [Hx|[-> ->]]; [by eauto|]. exists []. split; [|by left].
        cbn. by rewrite W6.
      * intros j Hj. apply W6. rewrite length_app in Hj. lia.
    + cbn. split; [done|]. exists x0. by rewrite list_lookup_middle.
  - destruct L as (Hn & x & Hx & Ha & Hc). destruct W as [W1 W2 W3 W4 W5 W6]. split.
    + split; cbn; try done.
      * intros k j Hj. apply lookup_insert_Some in Hj as [[<- <-]|[Hne Hj]]; [by exists x|by apply W1].
      * intros j y Hy Hyc. left. destruct (W2 j y Hy Hyc) as [E|E].
        -- rewrite lookup_insert_ne; [done|]. congruence.
        -- rewrite El in E. injection E as <-. simplify_eq. apply lookup_insert_eq.
    + cbn. by exists x.
Qed.

Lemma inv_remove s : inv s -> inv (removeUDPSession s).
Proof.
  intros [W L]. unfold removeUDPSession. unfold loop_ok in L.
  destruct (loop s) as [| | | |key|i] eqn:El; try (split; [done|by unfold loop_ok; rewrite El]).
  - destruct (udpSessions s !! key) as [i|] eqn:Ek.
    2: { split; [|done]. apply wf_goto; [by rewrite El|done]. }
    destruct (wf_table _ W _ _ Ek) as (x & Hx & Ha & Hc). destruct W as [W1 W2 W3 W4 W5 W6]. split.
    + split; cbn; try done.
      * intros k j Hj. apply lookup_delete_Some in Hj as [_ Hj]. by apply W1.
      * intros j y Hy Hyc. destruct (W2 j y Hy Hyc) as [E|E]; [|by rewrite El in E].
        destruct (decide (remoteAddr y = key)) as [Heq|Hne]; [right; rewrite Heq in E; cbn; congruence|left].
        by rewrite lookup_delete_ne.
    + cbn. exists x. split; [done|]. rewrite Ha. apply lookup_delete_eq.
  - destruct L as (x & Hx & Hn). split; [|done]. destruct W as [W1 W2 W3 W4 W5 W6]. split; cbn.
    + intros key j Hj. destruct (W1 key j Hj) as (y & Hy & Ha & Hc). exists y. split; [|done].
      rewrite list_lookup_alter_ne; [done|]. intros ->. congruence.
    + intros j y (z & Hz & ->)%alter_lookup Hc. destruct (decide (i = j)); [done|].
      destruct (W2 j z Hz Hc) as [?|E]; [by left|]. rewrite El in E. injection E as ->. done.
    + intros j y (z & Hz & ->)%alter_lookup. destruct (decide (i = j)); cbn; by eapply W3.
    + intros j y (z & Hz & ->)%alter_lookup. destruct (decide (i = j)); cbn; by apply (W4 j).
    + intros j y (z & Hz & ->)%alter_lookup. destruct (decide (i = j)); cbn; by apply W5.
    + intros j Hj. rewrite length_alter in Hj. by apply W6.
Qed.

Lemma inv_listen now rand ok s : inv s -> inv (listenUDP now rand ok s).
Proof.
  intros I. unfold listenUDP. destruct (loop s) as [| | |key d i| |] eqn:El;
    [done|by apply inv_new_session|by apply inv_new_session| |by apply inv_remove|by apply inv_remove].
  destruct I as [W L]. unfold loop_ok in L. rewrite El in L. destruct L as (x & Hx & Ha). destruct ok.
  - split; [|done]. apply wf_goto; [cbn; by rewrite El|]. destruct W as [W1 W2 W3 W4 W5 W6]. split; cbn.
    + intros k j Hj. destruct (W1 k j Hj) as (y & Hy & ? & ?). eexists. split; [apply alter_lookup; eauto|].
      by destruct (decide (i = j)).
    + intros j y (z & Hz & ->)%alter_lookup. destruct (decide (i = j)); cbn; by apply W2.
    + intros j y (z & Hz & ->)%alter_lookup. destruct (decide (i = j)); cbn; by eapply W3.
    + intros j y (z & Hz & ->)%alter_lookup. rewrite from_sender_app, map_app. destruct (decide (i = j)) as [<-|]; cbn.
      * simplify_eq. rewrite from_one, bool_decide_true by done. apply sublist_app; [by eauto|done].
      * apply sublist_inserts_r. eauto.
    + intros j y (z & Hz & ->)%alter_lookup. destruct (decide (i = j)); cbn; by apply W5.
    + intros j Hj. rewrite length_alter in Hj. by apply W6.
  - split; [|done]. apply wf_goto; [cbn; by rewrite El|by apply wf_handle].
Qed.

Lemma inv_read_stream now i data writes s : inv s -> inv (readUDP now i data writes s).
Proof.
  intros [W L]. unfold readUDP. destruct (heap s !! i) as [x|] eqn:Hx; [|done].
  destruct (wf_replies _ W i x Hx) as (q & Hq & Hr).
  assert (forall l r t, (forall y, heap s !! i = Some y -> exists q, map (pair (remoteAddr y)) (received y ++ l) = replies i t ++ q /\
      (q = [] \/ r = Returned /\ length q = 1%nat)) ->
    (forall j, j <> i \/ heap s !! i = None -> replies j t = replies j (toLocal s)) ->
    wf {| peerID := peerID s; udpTimeout := udpTimeout s; udpSessions := udpSessions s; heap := alter (read l r) i (heap s);
          loop := loop s; handled := handled s; toLocal := t |}) as Hw by (intros l r t H1 H2; by apply wf_alter).
  assert (forall l r, loop_ok (set_heap (alter (read l r) i (heap s)) s)) as Hl by (intros l r; by apply loop_ok_alter).
  destruct (goroutine x) eqn:Eg; [destruct data as [d|]; [destruct writes|]| |done].
  - assert (q = []) as -> by (destruct Hr as [?|[? _]]; done). split; [|exact (Hl [d] Answered)].
    apply (Hw [d] Answered).
    + intros y Hy. simplify_eq. exists []. split; [|by left]. rewrite map_app, Hq, !app_nil_r, replies_app, replies_one.
      by rewrite bool_decide_true.
    + intros j [Hne|Hn]; [|congruence]. rewrite replies_app, replies_one, bool_decide_false by done. by rewrite app_nil_r.
  - assert (q = []) as -> by (destruct Hr as [?|[? _]]; done). split; [|exact (Hl [d] Returned)].
    apply (Hw [d] Returned); [|done]. intros y Hy. simplify_eq. eexists. split; [by rewrite map_app, Hq, app_nil_r|by right].
  - assert (q = []) as -> by (destruct Hr as [?|[? _]]; done). split; [|exact (Hl [] Returned)].
    apply (Hw [] Returned); [|done]. intros y Hy. simplify_eq. exists []. rewrite !app_nil_r. split; [by rewrite Hq, app_nil_r|by left].
  - assert (q = []) as -> by (destruct Hr as [?|[? _]]; done).
    assert (inv (set_heap (alter (read [] Reading) i (heap s)) s)) as [W1 L1].
    { split; [|exact (Hl [] Reading)]. apply (Hw [] Reading); [|done]. intros y Hy. simplify_eq. exists [].
      rewrite !app_nil_r. split; [by rewrite Hq, app_nil_r|by left]. }
    case_bool_decide; [|by split]. set (s1 := set_heap (alter (read [] Reading) i (heap s)) s) in *. split.
    + apply (wf_alter (touch now) i s1 (toLocal s1)); try done. intros y Hy. exact (wf_replies _ W1 i y Hy).
    + exact (loop_ok_alter (touch now) i s1 (fun _ => eq_refl) (fun _ => eq_refl) L1).
Qed.

Lemma reap_heap (P : nat -> bool) (l : list (string * nat)) (h : list udpSession) (j : nat) :
  foldl (fun h e => if P (e : string * nat).2 then alter close e.2 h else h) h l !! j =
  (fun x => if P j && existsb (fun e => bool_decide (e.2 = j)) l then close x else x) <$> h !! j.
Proof.
  revert h. induction l as [|[k i] l IH]; intros h; cbn [foldl existsb snd].
  - rewrite andb_false_r. by destruct (h !! j).
  - rewrite IH. destruct (decide (i = j)) as [->|Hne].
    + rewrite bool_decide_true by done. cbn [orb]. destruct (P j); cbn [andb]; [|done].
      rewrite list_lookup_alter_eq. destruct (h !! j) as [x|]; [|done]. cbn. by destruct (existsb _ l).
    + rewrite (bool_decide_false (i = j)) by done. cbn [orb]. destruct (P i); [|done]. by rewrite list_lookup_alter_ne.
Qed.

Lemma reap_touched s j x : wf s -> heap s !! j = Some x ->
  existsb (fun e => bool_decide (e.2 = j)) (range_map 0 (udpSessions s)) = bool_decide (udpSessions s !! remoteAddr x = Some j).
Proof.
  intros W Hx. destruct (existsb _ _) eqn:E; case_bool_decide as Hb; [done| | |done].
  - apply existsb_exists in E as ([k i] & Hin & Hi). apply bool_decide_eq_true in Hi. cbn in Hi. subst i.
    apply list_elem_of_In, elem_of_range in Hin. destruct (wf_table _ W _ _ Hin) as (x' & Hx' & Ha & _).
    exfalso. apply Hb. congruence.
  - exfalso. apply not_true_iff_false in E. apply E, existsb_exists. exists (remoteAddr x, j).
    rewrite <- list_elem_of_In, elem_of_range. cbn. by rewrite bool_decide_true.
Qed.

Lemma reap_lookup now s j : wf s -> heap (reapUDP now s) !! j =
  (fun x => if idle now s j && bool_decide (udpSessions s !! remoteAddr x = Some j) then close x else x) <$> heap s !! j.
Proof.
  intros W. cbn. rewrite reap_heap. destruct (heap s !! j) as [x|] eqn:Hx; [|done]. cbn. f_equal.
  by rewrite (reap_touched s j x W Hx).
Qed.

Lemma inv_reap now s : inv s -> inv (reapUDP now s).
Proof.
  intros [W L]. assert (forall key, udpSessions (reapUDP now s) !! key =
    match udpSessions s !! key with Some i => if idle now s i then None else Some i | None => None end) as Hm
    by (intros key; apply sweep_range_lookup).
  split; [apply (wf_close (idle now s)); [done|exact Hm|intros j; by apply reap_lookup]|].
  assert (forall j x, heap s !! j = Some x -> udpSessions s !! remoteAddr x = None -> heap (reapUDP now s) !! j = Some x) as Hout.
  { intros j x Hx Hn. rewrite reap_lookup, Hx by done. cbn. by rewrite Hn, andb_false_r. }
  assert (forall j x, heap s !! j = Some x -> exists y, heap (reapUDP now s) !! j = Some y /\ remoteAddr y = remoteAddr x) as Hup.
  { intros j x Hx. rewrite reap_lookup, Hx by done. eexists. split; [done|]. by case_match. }
  unfold loop_ok in *. change (loop (reapUDP now s)) with (loop s).
  destruct (loop s) as [|key d|key d j|key d j| |j]; try done.
  - by rewrite Hm, L.
  - destruct L as (Hn & x & Hx & Ha & Hc). rewrite Hm, Hn. split; [done|]. exists x.
    split; [apply Hout; [done|congruence]|done].
  - destruct L as (x & Hx & Ha). destruct (Hup j x Hx) as (y & Hy & E). exists y. split; [done|congruence].
  - destruct L as (x & Hx & Hn). exists x. split; [by apply Hout|]. by rewrite Hm, Hn.
Qed.

Lemma inv_step s o : inv s -> inv (step s o).
Proof.
  intros I. destruct o; cbn [step]; [|by apply inv_read_from|by apply inv_listen|by apply inv_read_stream|by apply inv_reap].
  destruct I as [[W1 W2 W3 W4 W5 W6] L]. by split.
Qed.

Lemma inv_sessions l peer : inv (run l (NewDriftServer peer)).
Proof.
  unfold run. assert (inv (NewDriftServer peer)) as I0 by (by split; [split|]). revert I0.
  generalize (NewDriftServer peer). induction l as [|o l IH]; intros s0 I0; [done|]. cbn. by apply IH, inv_step.
Qed.

(** Whose datagram the loop deals with. *)
Definition sender (s : DriftServer) : option string :=
  match loop s with
  | LRead => None
  | LOpen key _ | LInsert key _ _ | LWrite key _ _ | LRemove key => Some key
  | LClose i => remoteAddr <$> heap s !! i
  end.

Lemma listen_others now rand ok s j x :
  inv s -> heap s !! j = Some x -> sender s <> Some (remoteAddr x) -> heap (listenUDP now rand ok s) !! j = Some x.
Proof.
  intros [W L] Hx. unfold sender, listenUDP, newUDPSession, removeUDPSession. unfold loop_ok in L.
  destruct (loop s) as [|key d|key d i|key d i|key|i] eqn:El; intros Hs; [done| |done| | |].
  - destruct ok; [|done]. cbn. by apply lookup_app_l_Some.
  - destruct L as (y & Hy & Ha). destruct ok; [|done]. cbn. rewrite list_lookup_alter_ne; [done|]. intros ->. congruence.
  - by destruct (udpSessions s !! key).
  - destruct L as (y & Hy & _). cbn. rewrite list_lookup_alter_ne; [done|]. intros ->. rewrite Hx in Hs. done.
Qed.

(** Left alone, a turn of the loop that can open and write its stream writes the datagram. *)
Lemma listen_alone now rand key data s :
  inv s -> loop s = LRead ->
  let s' := Nat.iter 3 (listenUDP now rand true) (readFrom now key data s) in
  loop s' = LRead /\ exists i x, udpSessions s' !! key = Some i /\ heap s' !! i = Some x /\ remoteAddr x = key /\
    last (sent x) = Some (frame data).
Proof.
  intros [W L] El. unfold readFrom. rewrite El. destruct (udpSessions s !! key) as [i|] eqn:Ek.
  - destruct (wf_table _ W _ _ Ek) as (x & Hx & Ha & _).
    cbn -[alter lookup frame]. split; [done|]. exists i. eexists. split; [done|].
    rewrite !list_lookup_alter_eq, Hx. split; [done|]. split; [done|]. cbn. apply last_snoc.
  - cbn -[alter lookup frame app]. split; [done|]. eexists _, _. split; [apply lookup_insert_eq|].
    rewrite list_lookup_alter_eq, list_lookup_middle by done. split; [done|]. split; [done|]. done.
Qed.

End drift.
End Drift.
