(* ===== verification/UdpConn.v ===== *)
(** * The reconnecting datagram connection of pbtunnel

    [p2pUdpConn] of src/pbtunnel/pbtunnel.go: an atomic pointer to the stream ([holder]),
    an atomic flag ([closed]) and a mutex that [getStream] and the handling of a reset take
    but [Close] does not.  The goroutines that use the connection interleave at these
    accesses; streams are named by the order in which they were opened. *)

From S2P Require Import Prelude GoLib.

(** Where a goroutine is. *)
Inductive pc :=
  | Idle                  (* in no operation, or about to load [holder] *)
  | Connecting            (* in [connectOverStream], the mutex released *)
  | Connected (s : nat)   (* a stream opened, about to take the mutex *)
  | ConnFailed
  | Storing (s : nat)     (* in [getStream], all tests passed, about to store *)
  | Closing.              (* in [Close], the flag set, about to swap the pointer *)

Record conn := {
  holder : option nat;
  closed : bool;
  mu : option nat;             (* the goroutine that holds the mutex between two accesses *)
  opened : nat;                (* streams opened so far *)
  sclosed : list nat;          (* streams [Close] was called on *)
  dropped : list nat;          (* streams let go after they were reset *)
  pcs : gmap nat pc
}.

(** [DialUDP] *)
Definition DialUDP_conn : conn :=
  {| holder := Some 0%nat; closed := false; mu := None; opened := 1; sclosed := []; dropped := []; pcs := ∅ |}.

Definition at_pc (t : nat) (c : conn) : pc := default Idle (pcs c !! t).

(** What an access may tell its caller: the stream to use, or an error. *)
Inductive outcome := UseStream (s : nat) | Err (e : string).

Inductive act :=
  | Get                   (* [getStream] up to the release of the mutex, or the load of [holder] *)
  | Open (ok : bool)      (* [connectOverStream] returns *)
  | Decide                (* [getStream] after it took the mutex again, up to the store *)
  | Store
  | CloseFlag             (* the first line of [Close] *)
  | CloseSwap             (* the rest of [Close] *)
  | Reset.                (* [Read] or [Write] after "stream reset" *)

Definition goto (t : nat) (p : pc) (c : conn) : conn :=
  {| holder := holder c; closed := closed c; mu := mu c; opened := opened c; sclosed := sclosed c;
     dropped := dropped c; pcs := <[t := p]> (pcs c) |}.
Definition set_holder (h : option nat) (c : conn) : conn :=
  {| holder := h; closed := closed c; mu := mu c; opened := opened c; sclosed := sclosed c;
     dropped := dropped c; pcs := pcs c |}.
Definition set_closed (c : conn) : conn :=
  {| holder := holder c; closed := true; mu := mu c; opened := opened c; sclosed := sclosed c;
     dropped := dropped c; pcs := pcs c |}.
Definition set_mu (m : option nat) (c : conn) : conn :=
  {| holder := holder c; closed := closed c; mu := m; opened := opened c; sclosed := sclosed c;
     dropped := dropped c; pcs := pcs c |}.
Definition open_one (c : conn) : conn :=
  {| holder := holder c; closed := closed c; mu := mu c; opened := S (opened c); sclosed := sclosed c;
     dropped := dropped c; pcs := pcs c |}.
Definition close_stream (s : nat) (c : conn) : conn :=
  {| holder := holder c; closed := closed c; mu := mu c; opened := opened c; sclosed := sclosed c ++ [s];
     dropped := dropped c; pcs := pcs c |}.
Definition drop_stream (s : option nat) (c : conn) : conn :=
  {| holder := holder c; closed := closed c; mu := mu c; opened := opened c; sclosed := sclosed c;
     dropped := dropped c ++ option_list s; pcs := pcs c |}.

(** [getStream], its first critical section. *)
Definition getStream1 (t : nat) (c : conn) : conn * option outcome :=
  match holder c with
  | Some h => (c, Some (UseStream h))
  | None => if closed c then (c, Some (Err "closed")) else (goto t Connecting c, None)
  end.

(** [getStream], its second critical section, up to the store of the pointer. *)
Definition getStream2 (t : nat) (got : option nat) (c : conn) : conn * option outcome :=
  match got with
  | None => (goto t Idle (set_closed c), Some (Err "connect"))
  | Some s =>
      if closed c then (goto t Idle (close_stream s c), Some (Err "closed"))
      else match holder c with
           | Some h => (goto t Idle (close_stream s c), Some (UseStream h))
           | None => (goto t (Storing s) (set_mu (Some t) c), None)
           end
  end.

(** [Close] after it set the flag. *)
Definition closeSwap (t : nat) (c : conn) : conn :=
  let c' := goto t Idle (set_holder None c) in
  match holder c with Some h => close_stream h c' | None => c' end.

(** [Read] and [Write] after an error "stream reset", before they try again. *)
Definition afterReset (c : conn) : conn := set_holder None (set_closed (drop_stream (holder c) c)).

(** One access by the goroutine [t]; [None] when it is not the next thing it does, or the
    mutex is held. *)
Definition step (c : conn) (t : nat) (a : act) : option (conn * option outcome) :=
  match a, at_pc t c with
  | Get, Idle => if mu c then None else Some (getStream1 t c)
  | Open true, Connecting => Some (goto t (Connected (opened c)) (open_one c), None)
  | Open false, Connecting => Some (goto t ConnFailed c, None)
  | Decide, Connected s => if mu c then None else Some (getStream2 t (Some s) c)
  | Decide, ConnFailed => if mu c then None else Some (getStream2 t None c)
  | Store, Storing s => Some (goto t Idle (set_mu None (set_holder (Some s) c)), Some (UseStream s))
  | CloseFlag, Idle => Some (goto t Closing (set_closed c), None)
  | CloseSwap, Closing => Some (closeSwap t c, None)
  | Reset, Idle =>
      if mu c then None else Some (afterReset c, None)
  | _, _ => None
  end.

Fixpoint run (c : conn) (l : list (nat * act)) : option (conn * list (nat * outcome)) :=
  match l with
  | [] => Some (c, [])
  | (t, a) :: l =>
      match step c t a with
      | None => None
      | Some (c, o) => match run c l with
                       | None => None
                       | Some (c, os) => Some (c, (pair t <$> option_list o) ++ os)
                       end
      end
  end.

(** ** What can be reached from [DialUDP] *)

(** The only stream is the first one; it is held until the connection is closed. *)
Record one_stream (c : conn) : Prop := {
  os_opened : opened c = 1%nat;
  os_holder : holder c = Some 0%nat \/ holder c = None /\ closed c = true;
  os_pcs : forall t, at_pc t c = Idle \/ at_pc t c = Closing /\ closed c = true;
  os_mu : mu c = None
}.

Lemma at_goto t t' p c : at_pc t' (goto t p c) = if decide (t = t') then p else at_pc t' c.
Proof.
  unfold at_pc, goto. cbn. destruct (decide (t = t')) as [->|]; [by rewrite lookup_insert_eq|by rewrite lookup_insert_ne].
Qed.

(** An access tells its caller the first stream, or that the connection is closed; and
    what is closed stays closed, without a stream. *)
Lemma one_stream_step c t a c' o :
  one_stream c -> step c t a = Some (c', o) ->
  one_stream c' /\
  (o = None \/ o = Some (UseStream 0) \/ o = Some (Err "closed")) /\
  (holder c = None -> holder c' = None /\ o <> Some (UseStream 0)) /\
  (a = Reset -> holder c' = None /\ closed c' = true).
Proof.
  intros [H1 H2 H3 H4] Hs. unfold step in Hs.
  destruct a as [|[]| | | | |]; destruct (at_pc t c) eqn:Ep; try done;
    try (destruct (H3 t) as [E|[E _]]; congruence).
  - rewrite H4 in Hs. unfold getStream1 in Hs. destruct H2 as [E|[E Ec]]; rewrite E in Hs; [|rewrite Ec in Hs];
      simplify_eq; (split; [split; auto|]); rewrite ?E; naive_solver.
  - simplify_eq. split; [|naive_solver]. split; cbn; [done|naive_solver| |done].
    intros t'. change (at_pc t' (goto t Closing (set_closed c)) = Idle \/
      at_pc t' (goto t Closing (set_closed c)) = Closing /\ true = true).
    rewrite at_goto. destruct (decide (t = t')); [auto|]. destruct (H3 t') as [E|[E _]]; auto.
  - assert (closed c = true) as Ec by (destruct (H3 t) as [E|[_ E]]; congruence).
    assert (one_stream (goto t Idle (set_holder None c))) as Ho.
    { split; cbn; [done|auto| |done]. intros t'.
      change (at_pc t' (goto t Idle (set_holder None c)) = Idle \/
        at_pc t' (goto t Idle (set_holder None c)) = Closing /\ closed c = true).
      rewrite at_goto. destruct (decide (t = t')); [auto|]. destruct (H3 t') as [E|[E _]]; auto. }
    unfold closeSwap in Hs. destruct (holder c) as [h|] eqn:Eh; simplify_eq; (split; [|naive_solver]); [|done].
    destruct Ho as [O1 O2 O3 O4]. by split.
  - rewrite H4 in Hs. simplify_eq. split; [|naive_solver]. split; cbn; [done|auto| |done].
    intros t'. destruct (H3 t') as [E|[E _]]; auto.
Qed.

Lemma one_stream_run l : forall c c' os,
  one_stream c -> run c l = Some (c', os) ->
  one_stream c' /\
  (forall t o, (t, o) ∈ os -> o = UseStream 0 \/ o = Err "closed") /\
  (holder c = None -> holder c' = None /\ forall t o, (t, o) ∈ os -> o = Err "closed").
Proof.
  induction l as [|[t a] l IH]; intros c c' os Hc Hr; cbn in Hr.
  - simplify_eq. split; [done|]. split; [set_solver|]. intros ?. split; [done|set_solver].
  - destruct (step c t a) as [[c1 o]|] eqn:Es; [|done].
    destruct (run c1 l) as [[c2 os2]|] eqn:Er; [|done]. simplify_eq.
    destruct (one_stream_step _ _ _ _ _ Hc Es) as (Hc1 & Ho & Hn & _).
    destruct (IH _ _ _ Hc1 Er) as (Hc2 & Hos & Hn2). split; [done|]. split.
    + intros t' o'. rewrite elem_of_app. intros [Hin|Hin]; [|eauto].
      destruct o as [o|]; cbn in Hin; [|set_solver]. apply list_elem_of_singleton in Hin. simplify_eq. naive_solver.
    + intros E. destruct (Hn E) as [E1 Ho1]. destruct (Hn2 E1) as [E2 Ho2]. split; [done|].
      intros t' o'. rewrite elem_of_app. intros [Hin|Hin]; [|eauto].
      destruct o as [o|]; cbn in Hin; [|set_solver]. apply list_elem_of_singleton in Hin. simplify_eq. naive_solver.
Qed.

(** A datagram connection never reconnects.  However its users interleave, no second
    stream is ever opened: the pointer is empty only when the connection is closed, and
    the handling of a reset closes it before it tries again.  So after the first reset (or
    [Close]) every user is told "closed", and the second attempt of [Read] and [Write]
    always fails. *)
Theorem udpconn_never_reconnects l1 t l2 c1 os1 c2 o c3 os3 :
  run DialUDP_conn l1 = Some (c1, os1) ->
  step c1 t Reset = Some (c2, o) ->
  run c2 l2 = Some (c3, os3) ->
  opened c3 = 1%nat /\ holder c3 = None /\ closed c3 = true /\
  (forall t' o', (t', o') ∈ os1 -> o' = UseStream 0 \/ o' = Err "closed") /\
  (forall t' o', (t', o') ∈ os3 -> o' = Err "closed").
Proof.
  intros Hr1 Hs Hr2.
  assert (one_stream DialUDP_conn) as H0 by (split; cbn; auto).
  destruct (one_stream_run _ _ _ _ H0 Hr1) as (Hc1 & Hos1 & _).
  destruct (one_stream_step _ _ _ _ _ Hc1 Hs) as (Hc2 & _ & _ & Hres).
  destruct (Hres eq_refl) as [Hh2 Hcl2].
  destruct (one_stream_run _ _ _ _ Hc2 Hr2) as ([O1 O2 O3 O4] & _ & Hn).
  destruct (Hn Hh2) as [Hh3 Hos3]. split_and!; try done. destruct O2 as [E|[_ E]]; [congruence|done].
Qed.

(** The reader uses the stream, it is reset while another goroutine closes the
    connection, and the reader tries again. *)
Lemma udpconn_witness :
  exists c3 os3, run DialUDP_conn [(1%nat, Get); (2%nat, CloseFlag)] <> None /\ os3 = [(1%nat, Err "closed")] /\
    opened c3 = 1%nat /\ holder c3 = None.
Proof.
  eexists _, _. split; [discriminate|]. split; [reflexivity|].
  refine (let H := udpconn_never_reconnects [(1%nat, Get); (2%nat, CloseFlag)] 1%nat [(2%nat, CloseSwap); (1%nat, Get)]
    _ _ _ _ _ _ eq_refl eq_refl eq_refl in conj (proj1 H) (proj1 (proj2 H))).
Defined.
