(* ===== verification/Bridge.v ===== *)
(** * The copy loops between two connections

    [handleTunnel] and [handleP2x] of src/pbtunnel/pbtunnel.go and [serveConnect] of
    httpproxy.go run the same two loops between a local connection and a remote one; they
    differ in what they close when a loop returns and in whether a read that timed out is
    tried again ([config]).  A turn of a loop is one [Read], with what [writen] then wrote. *)

From S2P Require Import Prelude.

Definition bufSize : Z := 3072.

Record config := {
  retry : bool;          (* a timeout is not the end *)
  up_half : bool;        (* [CloseWrite] on the remote when reading the local one fails *)
  up_closes : bool;      (* the loop to the remote closes it when it returns *)
  down_closes : bool     (* the loop to the local one closes it when it returns *)
}.

(** The socket is the local connection, the stream the remote one. *)
Definition handleTunnel : config := {| retry := true; up_half := false; up_closes := false; down_closes := true |}.
Definition handleP2x : config := {| retry := false; up_half := true; up_closes := true; down_closes := true |}.
(** The client is the local connection, the target the remote one. *)
Definition serveConnect : config := {| retry := true; up_half := false; up_closes := true; down_closes := true |}.

(** A connection: what was delivered to it, and whether it was closed on this side. *)
Record end_ := { delivered : bytes; closed : bool; wclosed : bool }.

Record bridge := {
  local : end_; remote : end_;
  up : bool; down : bool;       (* the loops that still run *)
  toRemote : Z; toLocal : Z     (* bytes written to the remote end and to the local one: [localSent] and
                                   [localRecv] of [handleTunnel], which [handleP2x] names the other way round *)
}.

Definition fresh : end_ := {| delivered := []; closed := false; wclosed := false |}.
Definition start : bridge := {| local := fresh; remote := fresh; up := true; down := true; toRemote := 0; toLocal := 0 |}.

Inductive readErr := NoErr | Timeout | Failed.

(** A turn: what [Read] returned, and how much of it [writen] wrote. *)
Record turn := { chunk : bytes; rerr : readErr; wn : Z }.

Inductive op := Up (t : turn) | Down (t : turn) | Wait.

Definition deliver (d : bytes) (e : end_) : end_ :=
  {| delivered := delivered e ++ d; closed := closed e; wclosed := wclosed e |}.
Definition close_end (b : bool) (e : end_) : end_ :=
  {| delivered := delivered e; closed := closed e || b; wclosed := wclosed e || b |}.
Definition half_close (b : bool) (e : end_) : end_ :=
  {| delivered := delivered e; closed := closed e; wclosed := wclosed e || b |}.

Definition written (t : turn) : bytes := take (Z.to_nat (wn t)) (chunk t).
Definition short (t : turn) : bool := (0 <? zlen (chunk t)) && negb (wn t =? zlen (chunk t)).

(** Whether the loop returns after the turn. *)
Definition ends (c : config) (t : turn) : bool :=
  short t || match rerr t with NoErr => false | Timeout => negb (retry c) | Failed => true end.

Definition upTurn (c : config) (t : turn) (b : bridge) : bridge :=
  let r := deliver (written t) (remote b) in
  let fails := negb (short t) && match rerr t with NoErr => false | Timeout => negb (retry c) | Failed => true end in
  {| local := local b;
     remote := close_end (ends c t && up_closes c) (half_close (fails && up_half c) r);
     up := negb (ends c t); down := down b;
     toRemote := toRemote b + (if 0 <? zlen (chunk t) then wn t else 0); toLocal := toLocal b |}.

Definition downTurn (c : config) (t : turn) (b : bridge) : bridge :=
  {| local := close_end (ends c t && down_closes c) (deliver (written t) (local b));
     remote := remote b; up := up b; down := negb (ends c t);
     toRemote := toRemote b; toLocal := toLocal b + (if 0 <? zlen (chunk t) then wn t else 0) |}.

(** [wg.Wait] returns when both loops have, and the deferred calls close both ends. *)
Definition step (c : config) (b : bridge) (o : op) : bridge :=
  match o with
  | Up t => if up b then upTurn c t b else b
  | Down t => if down b then downTurn c t b else b
  | Wait => if up b || down b then b
            else {| local := close_end true (local b); remote := close_end true (remote b); up := up b; down := down b;
                    toRemote := toRemote b; toLocal := toLocal b |}
  end.

Definition run (c : config) (l : list op) (b : bridge) : bridge := foldl (step c) b l.

(** What connections promise: [Read] fills at most the buffer, [writen] writes a part of
    what it is given, and a connection closed on this side neither gives nor takes data
    and fails to read. *)
Definition turn_ok (src dst : end_) (t : turn) : Prop :=
  zlen (chunk t) <= bufSize /\ 0 <= wn t <= zlen (chunk t) /\
  (closed src = true -> chunk t = [] /\ rerr t = Failed) /\ (closed dst = true -> wn t = 0).

Definition op_ok (b : bridge) (o : op) : Prop :=
  match o with
  | Up t => up b = true -> turn_ok (local b) (remote b) t
  | Down t => down b = true -> turn_ok (remote b) (local b) t
  | Wait => True
  end.

Fixpoint ops_ok (c : config) (b : bridge) (l : list op) : Prop :=
  match l with [] => True | o :: l => op_ok b o /\ ops_ok c (step c b o) l end.

(** ** The specification: two pipes

    What was put into a pipe, what came out of it, and whether it is broken: a pipe that
    is not broken delivers what it is given. *)
Record pipe := { put : bytes; out : bytes; broken : bool }.
Definition empty_pipe : pipe := {| put := []; out := []; broken := false |}.

(** A pipe takes data and delivers it, or delivers a part of it and breaks; a broken pipe
    takes nothing. *)
Inductive pipe_step : pipe -> pipe -> Prop :=
  | pipe_whole p d : broken p = false -> pipe_step p {| put := put p ++ d; out := out p ++ d; broken := false |}
  | pipe_break p d k : broken p = false -> pipe_step p {| put := put p ++ d; out := out p ++ take k d; broken := true |}.

(** The pipe of a direction of the bridge: what was read while its loop ran. *)
Definition up_pipe (b : bridge) (p : pipe) : Prop :=
  out p = delivered (remote b) /\ toRemote b = zlen (out p) /\ broken p = negb (up b).
Definition down_pipe (b : bridge) (p : pipe) : Prop :=
  out p = delivered (local b) /\ toLocal b = zlen (out p) /\ broken p = negb (down b).

Lemma zlen_written t : 0 <= wn t <= zlen (chunk t) -> zlen (written t) = if 0 <? zlen (chunk t) then wn t else 0.
Proof.
  intros H. unfold written, zlen in *. rewrite length_take.
  destruct (Z.ltb_spec 0 (Z.of_nat (length (chunk t)))); lia.
Qed.

Lemma written_all t : short t = false -> written t = chunk t.
Proof.
  unfold short, written. intros H. apply take_ge.
  destruct (Z.ltb_spec 0 (zlen (chunk t))) as [Hl|Hl]; cbn [andb] in H.
  - apply negb_false_iff, Z.eqb_eq in H. rewrite H. unfold zlen. lia.
  - unfold zlen in *. lia.
Qed.

(** Delivering a turn is a step of the pipe. *)
Lemma pipe_turn c t p :
  broken p = false ->
  pipe_step p {| put := put p ++ chunk t; out := out p ++ written t; broken := ends c t |}.
Proof.
  intros Hp. destruct (ends c t) eqn:E.
  - by apply pipe_break.
  - apply orb_false_iff in E as [Es _]. rewrite written_all by done. by apply pipe_whole.
Qed.

Definition pipes_step := rtc pipe_step.

(** The data of a direction. *)
Definition ups (o : op) (b : bridge) : bytes := match o with Up t => if up b then chunk t else [] | _ => [] end.
Definition downs (o : op) (b : bridge) : bytes := match o with Down t => if down b then chunk t else [] | _ => [] end.

Lemma bridge_step c b o pu pd :
  op_ok b o -> up_pipe b pu -> down_pipe b pd ->
  exists pu' pd', pipes_step pu pu' /\ pipes_step pd pd' /\ up_pipe (step c b o) pu' /\ down_pipe (step c b o) pd' /\
    put pu' = put pu ++ ups o b /\ put pd' = put pd ++ downs o b.
Proof.
  intros Hok Hu Hd. destruct o as [t|t|]; cbn [step ups downs].
  - destruct (Sumbool.sumbool_of_bool (up b)) as [Eu|Eu]; rewrite Eu.
    2: { exists pu, pd. rewrite !app_nil_r. unfold pipes_step. split_and!; first [reflexivity|done]. }
    destruct (Hok Eu) as (_ & Hw & _). destruct Hu as (U1 & U2 & U3). rewrite Eu in U3.
    exists {| put := put pu ++ chunk t; out := out pu ++ written t; broken := ends c t |}, pd.
    rewrite app_nil_r. split; [by apply rtc_once, pipe_turn|]. split; [reflexivity|]. split; [|done].
    split_and!; cbn [out broken upTurn remote close_end half_close deliver delivered toRemote up];
      [by rewrite U1|by rewrite zlen_app, zlen_written, U2|by rewrite negb_involutive].
  - destruct (Sumbool.sumbool_of_bool (down b)) as [Ed|Ed]; rewrite Ed.
    2: { exists pu, pd. rewrite !app_nil_r. unfold pipes_step. split_and!; first [reflexivity|done]. }
    destruct (Hok Ed) as (_ & Hw & _). destruct Hd as (D1 & D2 & D3). rewrite Ed in D3.
    exists pu, {| put := put pd ++ chunk t; out := out pd ++ written t; broken := ends c t |}.
    rewrite app_nil_r. split; [reflexivity|]. split; [by apply rtc_once, pipe_turn|]. split; [done|]. split; [|done].
    split_and!; cbn [out broken downTurn local close_end deliver delivered toLocal down];
      [by rewrite D1|by rewrite zlen_app, zlen_written, D2|by rewrite negb_involutive].
  - exists pu, pd. rewrite !app_nil_r. unfold pipes_step.
    destruct (up b || down b); split_and!; first [reflexivity|done].
Qed.

(** A pipe that runs from empty delivers a beginning of what it was given, and all of it
    until it breaks. *)
Lemma pipe_runs p : pipes_step empty_pipe p -> out p `prefix_of` put p /\ (broken p = false -> out p = put p).
Proof.
  intros H. assert (forall q, pipes_step q p -> (out q `prefix_of` put q /\ (broken q = false -> out q = put q)) ->
    out p `prefix_of` put p /\ (broken p = false -> out p = put p)) as Hg; [|by apply (Hg empty_pipe)].
  clear H. intros q H. induction H as [|q r p Hs _ IH]; [done|]. intros [_ Hq]. apply IH.
  destruct Hs as [q d Hb|q d k Hb]; cbn; rewrite (Hq Hb); [done|]. split; [|done].
  apply prefix_app. apply prefix_take.
Qed.

Fixpoint all_ups (c : config) (b : bridge) (l : list op) : bytes :=
  match l with [] => [] | o :: l => ups o b ++ all_ups c (step c b o) l end.
Fixpoint all_downs (c : config) (b : bridge) (l : list op) : bytes :=
  match l with [] => [] | o :: l => downs o b ++ all_downs c (step c b o) l end.

Lemma bridge_run c l : forall b pu pd,
  ops_ok c b l -> up_pipe b pu -> down_pipe b pd ->
  exists pu' pd', pipes_step pu pu' /\ pipes_step pd pd' /\ up_pipe (run c l b) pu' /\ down_pipe (run c l b) pd' /\
    put pu' = put pu ++ all_ups c b l /\ put pd' = put pd ++ all_downs c b l.
Proof.
  induction l as [|o l IH]; intros b pu pd Hok Hu Hd.
  - exists pu, pd. cbn. rewrite !app_nil_r. unfold pipes_step. split_and!; first [reflexivity|done].
  - destruct Hok as [Ho Hok]. destruct (bridge_step c b o pu pd Ho Hu Hd) as (p1 & q1 & S1 & T1 & U1 & D1 & E1 & F1).
    destruct (IH (step c b o) p1 q1 Hok U1 D1) as (p2 & q2 & S2 & T2 & U2 & D2 & E2 & F2).
    exists p2, q2. split; [by etrans|]. split; [by etrans|]. cbn. rewrite E2, E1, F2, F1, <- !app_assoc. by split_and!.
Qed.

(** C4. The bridge implements two pipes: each step of its loops is a step of the pipe of
    its direction or none.  So at any moment what each end was given is a beginning of
    what was read from the other, in order, and all of it while the loop runs, and the
    counters count it. *)
Theorem bridge_refines_pipes c l :
  ops_ok c start l ->
  let b := run c l start in
  (exists pu pd, pipes_step empty_pipe pu /\ pipes_step empty_pipe pd /\ up_pipe b pu /\ down_pipe b pd /\
     put pu = all_ups c start l /\ put pd = all_downs c start l) /\
  delivered (remote b) `prefix_of` all_ups c start l /\ delivered (local b) `prefix_of` all_downs c start l /\
  (up b = true -> delivered (remote b) = all_ups c start l) /\
  (down b = true -> delivered (local b) = all_downs c start l) /\
  toRemote b = zlen (delivered (remote b)) /\ toLocal b = zlen (delivered (local b)).
Proof.
  intros Hok b.
  destruct (bridge_run c l start empty_pipe empty_pipe Hok) as (pu & pd & Su & Sd & (U1 & U2 & U3) & (D1 & D2 & D3) & Pu & Pd);
    [by split_and!|by split_and!|]. fold b in U1, U2, U3, D1, D2, D3.
  destruct (pipe_runs pu Su) as [Au Bu]. destruct (pipe_runs pd Sd) as [Ad Bd]. cbn in Pu, Pd.
  split; [exists pu, pd; by split_and!|]. rewrite <- Pu, <- Pd, <- U1, <- D1. split; [done|]. split; [done|].
  split. { intros E. apply Bu. by rewrite U3, E. }
  split. { intros E. apply Bd. by rewrite D3, E. }
  done.
Qed.

(** What the turns of the loop to the remote leave of the other direction. *)
Definition no_down (l : list op) : Prop := Forall (fun o => match o with Down _ => False | _ => True end) l.
Definition no_up (l : list op) : Prop := Forall (fun o => match o with Up _ => False | _ => True end) l.

(** What the end of one direction does to the other.  In [handleTunnel], when the
    local service ends its side the stream stays open, whatever is read from it later,
    until reading the stream fails too: the other peer is never told.  In [handleP2x],
    when the local client ends its side the stream is closed both ways at once: what the
    peer still sends is lost, although [CloseWrite] was called first. *)
Theorem bridge_eof b t l :
  up b = true -> down b = true -> closed (remote b) = false -> closed (local b) = false ->
  rerr t = Failed -> 0 <= wn t <= zlen (chunk t) ->
  (no_down l ->
     let b' := run handleTunnel (Up t :: l) b in
     up b' = false /\ closed (remote b') = false /\ closed (local b') = false) /\
  (no_up l -> ops_ok handleP2x b (Up t :: l) ->
     let b' := run handleP2x (Up t :: l) b in
     closed (remote b') = true /\ delivered (local b') = delivered (local b)).
Proof.
  intros Hu Hd Hr Hl Hf Hw.
  assert (forall c, ends c t = true) as He by (intros c; unfold ends; rewrite Hf; by rewrite orb_true_r).
  split.
  - intros Hno. cbn [run foldl step]. rewrite Hu. unfold upTurn. rewrite He. cbn.
    rewrite andb_false_r. set (b1 := {| local := _ |}).
    assert (up b1 = false /\ down b1 = true /\ closed (remote b1) = false /\ closed (local b1) = false) as H1.
    { cbn. by rewrite Hr. }
    clearbody b1. revert b1 H1. induction Hno as [|o l Ho Hno IH]; intros b1 (H1 & H2 & H3 & H4); [done|].
    cbn [foldl]. apply IH. destruct o as [t'|t'|]; [|done|]; cbn [step]; rewrite H1; [done|]. cbn. by rewrite H2.
  - intros Hno [_ Hok]. cbn [run foldl].
    assert (up (step handleP2x b (Up t)) = false /\ closed (remote (step handleP2x b (Up t))) = true /\
      delivered (local (step handleP2x b (Up t))) = delivered (local b)) as H1.
    { cbn [step]. rewrite Hu. unfold upTurn. rewrite He. cbn. by rewrite orb_true_r. }
    revert Hok H1. generalize (step handleP2x b (Up t)) as b1.
    induction Hno as [|o l Ho Hno IH]; intros b1 Hok (H1 & H2 & H3); [done|].
    destruct Hok as [Ho' Hok]. cbn [foldl]. apply IH; [done|]. destruct o as [t'|t'|]; [done| |]; cbn [step].
    + destruct (down b1) eqn:Ed; [|done]. destruct (Ho' Ed) as (_ & _ & Hc & _). destruct (Hc H2) as [Ec _].
      split_and!; [done|done|]. cbn. unfold written. by rewrite Ec, take_nil, app_nil_r.
    + destruct (up b1 || down b1); [done|]. split_and!; [done|cbn; by rewrite orb_true_r|done].
Qed.

(** A request of three bytes and its end, while the answer is on its way. *)
Lemma bridge_eof_witness :
  let t := {| chunk := [1; 2; 3]; rerr := Failed; wn := 3 |} in
  let l := [Down {| chunk := []; rerr := Failed; wn := 0 |}; Wait] in
  delivered (remote (run handleP2x (Up t :: l) start)) = [1; 2; 3] /\
  delivered (local (run handleP2x (Up t :: l) start)) = [].
Proof.
  intros t l. split; [reflexivity|].
  refine (proj2 (proj2 (bridge_eof start t l eq_refl eq_refl eq_refl eq_refl eq_refl _) _ _)).
  - cbn. unfold zlen. cbn. lia.
  - by repeat constructor.
  - cbn. unfold turn_ok, zlen, bufSize. cbn. repeat split; intros; try done; lia.
Defined.

Lemma bridge_refines_pipes_witness :
  let l := [Up {| chunk := [1; 2]; rerr := NoErr; wn := 2 |}; Down {| chunk := [9; 8]; rerr := NoErr; wn := 1 |}] in
  ops_ok handleTunnel start l /\ delivered (local (run handleTunnel l start)) `prefix_of` [9; 8].
Proof.
  intros l. assert (ops_ok handleTunnel start l) as H.
  { cbn. unfold turn_ok, zlen, bufSize. cbn. repeat split; intros; try done; lia. }
  split; [exact H|]. exact (proj1 (proj2 (proj2 (bridge_refines_pipes handleTunnel l H)))).
Defined.
