(* ===== verification/SoftunWire.v ===== *)
(** * Packets of the user-space tun device

    The builders of src/softun (softun_tcp.go: [wrapIPv4], [wrapIPv6], [buildRST];
    softun_icmp.go: the echo replies; the datagram part of [WriteTo] in softun_udp.go).
    The packages pktkit (accessors of a packet), slirp (checksums) and vtcp (segments) are
    third-party: classes of functions, with what they document as laws. *)

From S2P Require Import Prelude GoLib GoNet Checksum Packets VirtTun.

(** ** The third-party packages *)

(** [pktkit.Packet]: the accessors of an IP packet.  Addresses are 4 or 16 bytes. *)
Class Pktkit := {
  IsValid : bytes -> bool;
  IsBroadcast : bytes -> bool;
  IsMulticast : bytes -> bool;
  Version : bytes -> Z;
  IPProtocol : bytes -> Z;
  SrcAddr : bytes -> bytes;
  DstAddr : bytes -> bytes;
  Payload : bytes -> bytes;
  IPv4HeaderLen : bytes -> nat
}.

(** What the accessors read of a packet with a header of 20 or 40 bytes that states its
    own length: the fields of RFC 791 and RFC 8200.  The broadcast address is all ones or
    not of this network. *)
Record pktkit_laws (P : Pktkit) : Prop := {
  pk_v4 : forall p, at_ p 0 = 0x45 -> (20 <= length p)%nat -> be_val (sub p 2 2) = zlen p ->
    IsValid p = true /\ Version p = 4 /\ IPProtocol p = at_ p 9 /\ SrcAddr p = sub p 12 4 /\ DstAddr p = sub p 16 4 /\
    Payload p = drop 20 p /\ IPv4HeaderLen p = 20%nat;
  pk_v6 : forall p, at_ p 0 = 0x60 -> (40 <= length p)%nat -> be_val (sub p 4 2) = zlen p - 40 ->
    at_ p 6 = protoTCP \/ at_ p 6 = protoUDP \/ at_ p 6 = protoICMPv6 ->
    IsValid p = true /\ Version p = 6 /\ IPProtocol p = at_ p 6 /\ SrcAddr p = sub p 8 16 /\ DstAddr p = sub p 24 16 /\
    Payload p = drop 40 p;
  pk_unicast : forall p, IsValid p = true ->
    (at_ (DstAddr p) 0 = 10 /\ at_ (DstAddr p) 3 <> 255 /\ length (DstAddr p) = 4%nat) \/
    (at_ (DstAddr p) 0 = 0xfd /\ length (DstAddr p) = 16%nat) ->
    IsBroadcast p = false /\ IsMulticast p = false
}.

(** The checksum functions of slirp and pktkit. *)
Class Slirp := {
  IPChecksum : bytes -> Z;
  TCPChecksum : bytes -> bytes -> bytes -> Z;
  UDPChecksum : bytes -> bytes -> bytes -> Z;
  IPv6Checksum : bytes -> bytes -> Z -> Z -> bytes -> Z;
  PktChecksum : bytes -> Z
}.

(** They are the checksum of RFC 1071, over the pseudo headers of RFC 793 and RFC 8200; a
    UDP checksum of zero may be given as its other form, all ones (RFC 768). *)
Record slirp_laws (S : Slirp) : Prop := {
  sl_ip : forall h, is_bytes h -> zlen h <= 65535 -> IPChecksum h = rfc1071 (words h);
  sl_pkt : forall h, is_bytes h -> zlen h <= 65535 -> PktChecksum h = rfc1071 (words h);
  sl_tcp : forall s d l, ip4 s -> ip4 d -> is_bytes l -> zlen l <= 65535 ->
    TCPChecksum s d l = rfc1071 (pseudo4_words s d protoTCP (zlen l) ++ words l);
  sl_udp : forall s d l, ip4 s -> ip4 d -> is_bytes l -> zlen l <= 65535 ->
    let c := rfc1071 (pseudo4_words s d protoUDP (zlen l) ++ words l) in
    UDPChecksum s d l = c \/ c = 0 /\ UDPChecksum s d l = 65535;
  sl_v6 : forall s d proto l, ip6 s -> ip6 d -> is_byte proto -> is_bytes l -> zlen l <= 65535 ->
    let c := rfc1071 (pseudo6_words s d proto (zlen l) ++ words l) in
    IPv6Checksum s d proto (zlen l) l = c \/ c = 0 /\ IPv6Checksum s d proto (zlen l) l = 65535
}.

(** [vtcp]: a parsed segment, its length in sequence space, and [Segment.Marshal]. *)
Class VtcpSeg := {
  pseg : Type;
  ParseSegment : bytes -> option pseg;
  seg_fields : pseg -> segment;
  SegLen : pseg -> Z;
  MarshalSeg : segment -> bytes
}.

Definition flag_len (flags f : Z) : Z := if has_flag flags f then 1 else 0.

(** [ParseSegment] reads the fields of RFC 793; the length in sequence space counts the
    data, the SYN and the FIN. *)
Record vtcp_seg_laws (C : VtcpSeg) : Prop := {
  sg_parse : forall pl g, (20 <= length pl)%nat -> ParseSegment pl = Some g ->
    seg_fields g = {| SrcPort := u16_at pl 0; DstPort := u16_at pl 2; Seq := u32_at pl 4; Ack := u32_at pl 8; Flags := at_ pl 13 |} /\
    SegLen g = zlen pl - Z.shiftr (at_ pl 12) 4 * 4 + flag_len (at_ pl 13) FlagSYN + flag_len (at_ pl 13) FlagFIN
}.

Section builders.
Context `{Pktkit, Slirp, VtcpSeg}.

(** ** Builders *)
Definition fillChecksum4 (s4 d4 : bytes) (proto : Z) (l4 : bytes) : bytes :=
  if (proto =? protoTCP) && (18 <=? zlen l4) then
    let l4 := put_at 16 (be_bytes 2 0) l4 in put_at 16 (be_bytes 2 (TCPChecksum s4 d4 l4)) l4
  else if (proto =? protoUDP) && (8 <=? zlen l4) then
    let l4 := put_at 6 (be_bytes 2 0) l4 in put_at 6 (be_bytes 2 (UDPChecksum s4 d4 l4)) l4
  else l4.

Definition fillChecksum6 (s6 d6 : bytes) (proto : Z) (l4 : bytes) : bytes :=
  if (proto =? protoTCP) && (18 <=? zlen l4) then
    let l4 := put_at 16 (be_bytes 2 0) l4 in
    put_at 16 (be_bytes 2 (IPv6Checksum s6 d6 proto (wrapu 32 (zlen l4)) l4)) l4
  else if (proto =? protoUDP) && (8 <=? zlen l4) then
    let l4 := put_at 6 (be_bytes 2 0) l4 in
    put_at 6 (be_bytes 2 (IPv6Checksum s6 d6 proto (wrapu 32 (zlen l4)) l4)) l4
  else l4.

Definition wrapIPv4 (srcIP dstIP : bytes) (proto : Z) (l4 : bytes) : bytes :=
  let total := 20 + zlen l4 in
  let hdr := replicate 20 0 in
  let hdr := put_at 0 [0x45] hdr in
  let hdr := put_at 2 (be_bytes 2 total) hdr in
  let hdr := put_at 8 [64] hdr in
  let hdr := put_at 9 [proto] hdr in
  let hdr := put_at 12 srcIP hdr in
  let hdr := put_at 16 dstIP hdr in
  let hdr := put_at 10 (be_bytes 2 (IPChecksum hdr)) hdr in
  hdr ++ fillChecksum4 srcIP dstIP proto l4.

Definition wrapIPv6 (srcIP dstIP : bytes) (proto : Z) (l4 : bytes) : bytes :=
  let hdr := replicate 40 0 in
  let hdr := put_at 0 [0x60] hdr in
  let hdr := put_at 4 (be_bytes 2 (zlen l4)) hdr in
  let hdr := put_at 6 [proto] hdr in
  let hdr := put_at 7 [64] hdr in
  let hdr := put_at 8 srcIP hdr in
  let hdr := put_at 24 dstIP hdr in
  hdr ++ fillChecksum6 srcIP dstIP proto l4.

(** The segment [buildRST] sends back for [seg]. *)
Definition rstSegment (seg : pseg) : segment :=
  let f := seg_fields seg in
  if has_flag (Flags f) FlagACK
  then {| SrcPort := DstPort f; DstPort := SrcPort f; Seq := Ack f; Ack := 0; Flags := FlagRST |}
  else {| SrcPort := DstPort f; DstPort := SrcPort f; Seq := 0; Ack := wrapu 32 (Seq f + SegLen seg);
          Flags := Z.lor FlagRST FlagACK |}.

Definition buildRST (req : bytes) : option bytes :=
  let pl := Payload req in
  if zlen pl <? 20 then None
  else match ParseSegment pl with
       | None => None
       | Some seg =>
           let body := MarshalSeg (rstSegment seg) in
           if Version req =? 4 then Some (wrapIPv4 (DstAddr req) (SrcAddr req) protoTCP body)
           else if Version req =? 6 then Some (wrapIPv6 (DstAddr req) (SrcAddr req) protoTCP body)
           else None
       end.

Definition buildICMPv4Reply (req : bytes) : option bytes :=
  let icmp := drop (IPv4HeaderLen req) req in
  if (zlen icmp <? 8) || negb (at_ icmp 0 =? 8) then None
  else
    let reply := put_at 0 [0] icmp in
    let reply := put_at 1 [0] reply in
    let reply := put_at 2 (be_bytes 2 0) reply in
    let reply := put_at 2 (be_bytes 2 (PktChecksum reply)) reply in
    Some (wrapIPv4 (DstAddr req) (SrcAddr req) protoICMP reply).

Definition buildICMPv6Reply (req : bytes) : option bytes :=
  let icmp := Payload req in
  if (zlen icmp <? 8) || negb (at_ icmp 0 =? 128) then None
  else
    let reply := put_at 0 [129] icmp in
    let reply := put_at 1 [0] reply in
    let reply := put_at 2 (be_bytes 2 0) reply in
    let cs := IPv6Checksum (DstAddr req) (SrcAddr req) protoICMPv6 (wrapu 32 (zlen reply)) reply in
    let reply := put_at 2 (be_bytes 2 cs) reply in
    Some (wrapIPv6 (DstAddr req) (SrcAddr req) protoICMPv6 reply).

(** The UDP header and payload [WriteTo] builds; the checksum is filled in later. *)
Definition udpPayload (srcPort dstPort : Z) (p : bytes) : bytes :=
  be_bytes 2 srcPort ++ be_bytes 2 dstPort ++ be_bytes 2 (8 + zlen p) ++ [0; 0] ++ p.
End builders.

(** ** The packets are valid *)

(** The checksum stored in its field verifies, in either of its forms. *)
Lemma stored_verifies pre o l c :
  Forall (fun w => 0 <= w <= 65535) pre -> is_bytes l -> Nat.Even o -> (o + 2 <= length l)%nat ->
  (let r := rfc1071 (pre ++ words (put_at o [0; 0] l)) in c = r \/ r = 0 /\ c = 65535) ->
  verifies (pre ++ words (put_at o (be_bytes 2 c) l)).
Proof.
  intros Hpre Hl He Ho Hc.
  assert (is_bytes (put_at o [0; 0] l)) as H0 by auto with wire.
  assert (rfc1071 (pre ++ words (put_at o [0; 0] l)) = 65535 - norm16 (wsum pre + wsum (words (put_at o [0; 0] l)))) as Er.
  { rewrite rfc1071_norm, wsum_app; [done|]. apply Forall_app. split; [done|by apply words_bound]. }
  destruct Hc as [->|[Hz ->]]; [by apply checksum_field_verifies|].
  rewrite Er in Hz. pose proof (wsum_words_bound _ H0).
  assert (0 <= wsum pre) by (apply wsum_nonneg; eapply Forall_impl; [exact Hpre|]; simpl; lia).
  rewrite verifies_norm.
  - rewrite wsum_app, wsum_words_put_be by (done || lia). rewrite Z.add_assoc.
    rewrite (norm16_add _ 1); [lia| |lia].
    destruct (Z.eq_dec (wsum pre + wsum (words (put_at o [0; 0] l))) 0) as [E|]; [|lia].
    rewrite E in Hz. done.
  - apply Forall_app. split; [done|]. apply words_bound. auto with wire.
Qed.

Lemma pseudo6_bound src dst proto len : ip6 src -> ip6 dst -> is_byte proto ->
  Forall (fun w => 0 <= w <= 65535) (pseudo6_words src dst proto len).
Proof.
  intros [_ Hs] [_ Hd] Hp. apply words_bound.
  rewrite !is_bytes_app. repeat split; auto with wire. bytes_lit.
Qed.

Section valid.
Context `{P : Pktkit, S : Slirp, C : VtcpSeg} (laws : slirp_laws S).

(** The protocols that have a checksum, and where. *)
Definition l4_field (proto : Z) (off : nat) (l4 : bytes) : Prop :=
  proto = protoTCP /\ off = 16%nat /\ (18 <= length l4)%nat \/
  proto = protoUDP /\ off = 6%nat /\ (8 <= length l4)%nat.

Lemma l4_field_facts proto off l4 : l4_field proto off l4 ->
  is_byte proto /\ Nat.Even off /\ (off + 2 <= length l4)%nat.
Proof.
  intros [(-> & -> & Hl)|(-> & -> & Hl)]; (split; [unfold is_byte, protoTCP, protoUDP; lia|]);
    (split; [|lia]); [by exists 8%nat|by exists 3%nat].
Qed.

Lemma fillChecksum4_sealed src dst proto off l4 :
  l4_field proto off l4 -> ip4 src -> ip4 dst -> is_bytes l4 -> zlen l4 <= 65535 ->
  exists c, fillChecksum4 src dst proto l4 = put_at off (be_bytes 2 c) l4 /\
    verifies (pseudo4_words src dst proto (zlen l4) ++ words (put_at off (be_bytes 2 c) l4)).
Proof.
  intros Hf Hs Hd Hb Hl. destruct (l4_field_facts _ _ _ Hf) as (Hp & He & Ho).
  assert (is_bytes (put_at off [0; 0] l4)) as H0 by auto with wire.
  assert (zlen (put_at off [0; 0] l4) = zlen l4) as Hz by (unfold zlen; rewrite length_put_at; len).
  unfold fillChecksum4. change (be_bytes 2 0) with [0; 0].
  destruct Hf as [(-> & -> & Hn)|(-> & -> & Hn)]; unfold protoTCP, protoUDP in *; cbn [Z.eqb Pos.eqb andb].
  - rewrite (proj2 (Z.leb_le 18 _)) by (unfold zlen; lia). eexists. rewrite put_at_twice by len.
    split; [reflexivity|]. apply stored_verifies; [by apply pseudo4_bound|done..|]. left.
    rewrite (sl_tcp _ laws) by (done || lia). by rewrite Hz.
  - rewrite (proj2 (Z.leb_le 8 _)) by (unfold zlen; lia). eexists. rewrite put_at_twice by len.
    split; [reflexivity|]. apply stored_verifies; [by apply pseudo4_bound|done..|].
    pose proof (sl_udp _ laws src dst (put_at 6 [0; 0] l4) Hs Hd H0 ltac:(lia)) as Hu. rewrite Hz in Hu. exact Hu.
Qed.

Lemma fillChecksum6_sealed src dst proto off l4 :
  l4_field proto off l4 -> ip6 src -> ip6 dst -> is_bytes l4 -> zlen l4 <= 65535 ->
  exists c, fillChecksum6 src dst proto l4 = put_at off (be_bytes 2 c) l4 /\
    verifies (pseudo6_words src dst proto (zlen l4) ++ words (put_at off (be_bytes 2 c) l4)).
Proof.
  intros Hf Hs Hd Hb Hl. destruct (l4_field_facts _ _ _ Hf) as (Hp & He & Ho). pose proof (zlen_nonneg l4).
  assert (is_bytes (put_at off [0; 0] l4)) as H0 by auto with wire.
  assert (zlen (put_at off [0; 0] l4) = zlen l4) as Hz by (unfold zlen; rewrite length_put_at; len).
  pose proof (sl_v6 _ laws src dst proto (put_at off [0; 0] l4) Hs Hd Hp H0 ltac:(lia)) as Hv. rewrite Hz in Hv.
  assert (exists c, put_at off (be_bytes 2 (IPv6Checksum src dst proto (wrapu 32 (zlen (put_at off [0; 0] l4))) (put_at off [0; 0] l4)))
      (put_at off [0; 0] l4) = put_at off (be_bytes 2 c) l4 /\
    verifies (pseudo6_words src dst proto (zlen l4) ++ words (put_at off (be_bytes 2 c) l4))) as Hg.
  { rewrite Hz, wrapu_small by lia. eexists. rewrite put_at_twice by len.
    split; [reflexivity|]. apply stored_verifies; [by apply pseudo6_bound|done..|]. exact Hv. }
  unfold fillChecksum6. change (be_bytes 2 0) with [0; 0].
  destruct Hf as [(-> & -> & Hn)|(-> & -> & Hn)]; unfold protoTCP, protoUDP in *; cbn [Z.eqb Pos.eqb andb];
    rewrite (proj2 (Z.leb_le _ _)) by (unfold zlen; lia); exact Hg.
Qed.

(** The header [wrapIPv4] puts in front. *)
Lemma wrapIPv4_header src dst proto l4 :
  ip4 src -> ip4 dst -> is_byte proto ->
  exists h, wrapIPv4 src dst proto l4 = h ++ fillChecksum4 src dst proto l4 /\
    length h = 20%nat /\ is_bytes h /\ verifies (words h) /\ at_ h 0 = 0x45 /\ sub h 2 2 = be_bytes 2 (20 + zlen l4) /\
    at_ h 9 = proto /\ sub h 12 4 = src /\ sub h 16 4 = dst.
Proof.
  intros [Ls Hs] [Ld Hd] Hp. set (total := 20 + zlen l4).
  set (h0 := [0x45; 0; (total / 256) mod 256; total mod 256; 0; 0; 0; 0; 64; proto; 0; 0] ++ src ++ dst).
  assert (is_bytes h0) as H0.
  { unfold h0. rewrite !is_bytes_app. repeat split; try done.
    pose proof (is_bytes_be_bytes 2 total) as Hb. rewrite be_bytes_2 in Hb.
    unfold is_bytes in Hb. rewrite !Forall_cons in Hb. destruct Hb as (? & ? & _). bytes_lit. }
  assert (length h0 = 20%nat) as L0 by (unfold h0; len).
  exists (put_at 10 (be_bytes 2 (IPChecksum h0)) h0). split.
  { unfold wrapIPv4. fold total. rewrite (be_bytes_2 total). f_equal.
    unfold h0. explode src. explode dst. reflexivity. }
  assert (put_at 10 [0; 0] h0 = h0) as Z0 by (unfold h0; explode src; explode dst; reflexivity).
  split; [rewrite length_put_at; len|]. split; [auto with wire|]. split.
  { change (words (put_at 10 (be_bytes 2 (IPChecksum h0)) h0))
      with ([] ++ words (put_at 10 (be_bytes 2 (IPChecksum h0)) h0)).
    apply stored_verifies; [done|done|by exists 5%nat|lia|]. rewrite Z0. left.
    apply (sl_ip _ laws); [done|]. unfold zlen. lia. }
  generalize (IPChecksum h0). intros c. rewrite !be_bytes_2. unfold h0. explode src. explode dst. repeat split.
Qed.

Lemma wrapIPv6_header src dst proto l4 :
  ip6 src -> ip6 dst -> is_byte proto ->
  exists h, wrapIPv6 src dst proto l4 = h ++ fillChecksum6 src dst proto l4 /\
    length h = 40%nat /\ is_bytes h /\ at_ h 0 = 0x60 /\ sub h 4 2 = be_bytes 2 (zlen l4) /\
    at_ h 6 = proto /\ sub h 8 16 = src /\ sub h 24 16 = dst.
Proof.
  intros Hs Hd Hp. exists (header6 proto (zlen l4) src dst). split; [reflexivity|].
  apply (header6_spec proto (zlen l4) src dst Hs Hd Hp).
Qed.

Lemma carries_put off c l4 : (off + 2 <= length l4)%nat -> carries off l4 (put_at off (be_bytes 2 c) l4).
Proof.
  intros H. unfold carries, put_at. rewrite length_be_bytes. split; [len|]. split.
  - rewrite take_app_le, take_take by len. f_equal. lia.
  - rewrite app_assoc, drop_app_ge by len. rewrite drop_drop. f_equal. len.
Qed.

(** The TCP and UDP packets of the user-space device are valid, over IPv4 and over
    IPv6: lengths, protocol, addresses, header checksum and transport checksum are those
    the RFCs ask for, and the segment is carried unchanged but for its checksum. *)
Theorem softun_packets_valid proto off l4 :
  l4_field proto off l4 -> is_bytes l4 -> zlen l4 <= 65515 ->
  (forall src dst, ip4 src -> ip4 dst -> valid4 proto off src dst l4 (wrapIPv4 src dst proto l4)) /\
  (forall src dst, ip6 src -> ip6 dst -> valid6 proto off src dst l4 (zlen l4) (wrapIPv6 src dst proto l4)).
Proof.
  intros Hf Hb Hl. destruct (l4_field_facts _ _ _ Hf) as (Hp & He & Ho). pose proof (zlen_nonneg l4).
  split; intros src dst Hs Hd.
  - destruct (wrapIPv4_header src dst proto l4 Hs Hd Hp) as (h & -> & L & _ & Hv & F0 & F2 & F9 & F12 & F16).
    destruct (fillChecksum4_sealed src dst proto off l4 Hf Hs Hd Hb ltac:(lia)) as (c & -> & Hc).
    assert (zlen (put_at off (be_bytes 2 c) l4) = zlen l4) as Hz by (unfold zlen; rewrite length_put_at; len).
    split; rewrite ?take_app_length', ?drop_app_length', ?at_app_l, ?sub_app_l by lia; try done.
    + rewrite F2, be_val_be_bytes_2 by lia. rewrite zlen_app, Hz. unfold zlen. lia.
    + by apply carries_put.
  - destruct (wrapIPv6_header src dst proto l4 Hs Hd Hp) as (h & -> & L & _ & F0 & F4 & F6 & F8 & F24).
    destruct (fillChecksum6_sealed src dst proto off l4 Hf Hs Hd Hb ltac:(lia)) as (c & -> & Hc).
    assert (zlen (put_at off (be_bytes 2 c) l4) = zlen l4) as Hz by (unfold zlen; rewrite length_put_at; len).
    split; rewrite ?take_app_length', ?drop_app_length', ?at_app_l, ?sub_app_l by lia; try done.
    + rewrite F4, be_val_be_bytes_2 by lia. rewrite zlen_app, Hz. unfold zlen. lia.
    + by apply carries_put.
Qed.
End valid.

(** The reset of the user-space device is the one RFC 793 prescribes, also for a SYN. *)
Lemma rstSegment_rfc793 `{C : VtcpSeg} pl g :
  vtcp_seg_laws C -> (20 <= length pl)%nat -> ParseSegment pl = Some g -> rstSegment g = rfc793_reset pl.
Proof.
  intros laws Hl Hg. destruct (sg_parse _ laws pl g Hl Hg) as [Ef Es].
  unfold rstSegment, rfc793_reset. rewrite Ef, Es. cbn [Flags SrcPort DstPort Seq Ack].
  destruct (has_flag (at_ pl 13) FlagACK); reflexivity.
Qed.

(** ** Instances: plain readings of the headers, to compute with *)
Definition plain_v4 (p : bytes) : bool := (at_ p 0 =? 0x45) && (20 <=? zlen p) && (be_val (sub p 2 2) =? zlen p).
Definition plain_v6 (p : bytes) : bool := (at_ p 0 =? 0x60) && (40 <=? zlen p) && (be_val (sub p 4 2) =? zlen p - 40).

#[global] Instance plain_pktkit : Pktkit := {
  IsValid p := plain_v4 p || plain_v6 p;
  IsBroadcast p := plain_v4 p && bool_decide (sub p 16 4 = [255; 255; 255; 255]);
  IsMulticast p := is_multicast (if plain_v4 p then sub p 16 4 else sub p 24 16);
  Version p := if plain_v4 p then 4 else if plain_v6 p then 6 else 0;
  IPProtocol p := if plain_v4 p then at_ p 9 else at_ p 6;
  SrcAddr p := if plain_v4 p then sub p 12 4 else sub p 8 16;
  DstAddr p := if plain_v4 p then sub p 16 4 else sub p 24 16;
  Payload p := if plain_v4 p then drop 20 p else drop 40 p;
  IPv4HeaderLen p := 20%nat
}.

#[local] Arguments plain_v4 : simpl never.
#[local] Arguments plain_v6 : simpl never.

Lemma plain_pktkit_laws : pktkit_laws plain_pktkit.
Proof.
  split; cbn [IsValid IsBroadcast IsMulticast Version IPProtocol SrcAddr DstAddr Payload IPv4HeaderLen plain_pktkit].
  - intros p Hv Hl Hn. assert (plain_v4 p = true) as ->; [|split_and!; reflexivity]. unfold plain_v4. rewrite Hv, Hn.
    rewrite (proj2 (Z.leb_le _ _)), !Z.eqb_refl by (unfold zlen; lia). done.
  - intros p Hv Hl Hn _. assert (plain_v4 p = false) as -> by (unfold plain_v4; by rewrite Hv).
    assert (plain_v6 p = true) as ->; [|split_and!; reflexivity]. unfold plain_v6. rewrite Hv, Hn.
    rewrite (proj2 (Z.leb_le _ _)), !Z.eqb_refl by (unfold zlen; lia). done.
  - intros p Hv.
    assert (plain_v4 p = false -> length (sub p 24 16) = 16%nat) as H16.
    { intros E. rewrite E in Hv. cbn in Hv. unfold plain_v6 in Hv. rewrite !andb_true_iff, Z.leb_le in Hv.
      apply length_sub. unfold zlen in Hv. lia. }
    destruct (plain_v4 p); cbn [andb]; unfold is_multicast, to4.
    + assert (length (sub p 16 4) <= 4)%nat by (unfold sub; rewrite length_take; lia).
      intros [(E & _ & L)|(_ & L)]; [|lia]. rewrite L. cbn. rewrite E.
      split; [|done]. apply bool_decide_eq_false. intros E2. by rewrite E2 in E.
    + specialize (H16 eq_refl). intros [(_ & _ & L)|(E & L)]; [lia|]. split; [done|]. rewrite L. cbn.
      rewrite bool_decide_false; [by rewrite E|].
      intros E2. destruct (sub p 24 16) as [|a l]; [done|]. cbn in E. subst a. discriminate.
Qed.

(** The one's complement checksum of the words. *)
#[global] Instance rfc_slirp : Slirp := {
  IPChecksum h := rfc1071 (words h);
  TCPChecksum s d l := rfc1071 (pseudo4_words s d protoTCP (zlen l) ++ words l);
  UDPChecksum s d l :=
    let c := rfc1071 (pseudo4_words s d protoUDP (zlen l) ++ words l) in if c =? 0 then 65535 else c;
  IPv6Checksum s d proto len l := rfc1071 (pseudo6_words s d proto len ++ words l);
  PktChecksum h := rfc1071 (words h)
}.

Lemma rfc_slirp_laws : slirp_laws rfc_slirp.
Proof. split; try done; [|by left]. intros s d l _ _ _ _. cbn. case_match; [right|left]; lia. Qed.

(** The fields of a segment and the length of its data. *)
Definition plain_parse (p : bytes) : option (segment * Z) :=
  if (length p <? 20)%nat then None
  else Some ({| SrcPort := u16_at p 0; DstPort := u16_at p 2; Seq := u32_at p 4; Ack := u32_at p 8; Flags := at_ p 13 |},
             zlen p - Z.shiftr (at_ p 12) 4 * 4).

#[global] Instance plain_vtcp : VtcpSeg := {
  pseg := segment * Z;
  ParseSegment := plain_parse;
  seg_fields s := s.1;
  SegLen s := s.2 + (if has_flag (Flags s.1) FlagSYN then 1 else 0) + (if has_flag (Flags s.1) FlagFIN then 1 else 0);
  MarshalSeg s :=
    be_bytes 2 (SrcPort s) ++ be_bytes 2 (DstPort s) ++ be_bytes 4 (Seq s) ++ be_bytes 4 (Ack s) ++
    [0x50; Flags s] ++ replicate 6 0
}.

Lemma plain_vtcp_laws : vtcp_seg_laws plain_vtcp.
Proof. split; cbn; unfold plain_parse. intros pl g Hl. rewrite (proj2 (Nat.ltb_ge _ _)) by done. intros [= <-]. done. Qed.

Lemma softun_packets_valid_witness :
  let l4 := udpPayload 53 9000 [1; 2; 3] in
  l4_field protoUDP 6 l4 /\ valid4 protoUDP 6 [10; 0; 0; 2] [10; 0; 0; 3] l4 (wrapIPv4 [10; 0; 0; 2] [10; 0; 0; 3] protoUDP l4).
Proof.
  intros l4. assert (l4_field protoUDP 6 l4) as Hf by (right; split; [done|]; split; [done|cbn; lia]).
  assert (is_bytes l4) as Hb by (apply (bool_decide_unpack _); by vm_compute).
  assert (zlen l4 <= 65515) as Hl by (by vm_compute).
  assert (ip4 [10; 0; 0; 2] /\ ip4 [10; 0; 0; 3]) as [Hs Hd] by (split; (split; [done|bytes_lit])).
  split; [exact Hf|].
  exact (proj1 (softun_packets_valid rfc_slirp_laws protoUDP 6 l4 Hf Hb Hl) _ _ Hs Hd).
Defined.
