(* ===== verification/Softun.v ===== *)
(** * The user-space tun device

    src/softun: routing (softun.go), refused connections (softun_tcp.go), datagrams
    (softun_udp.go) and echo requests (softun_icmp.go).  The TCP/IP stack is vclient, a
    third-party package: [stackSend] is [softTun.Send], with the packets the stack hands to
    the handler [routeWrite] before it returns, and [ensurePort] is what
    [ensureLoPortMapPort] (module [LoPortMap]) does to the stack.  [WriteToPeer] is the
    transport, modelled in [Iptunnel]: here it is the list of packets given to it and
    whether it takes them. *)

From S2P Require Import Prelude GoLib GoNet Checksum Packets VirtTun SoftunWire.

Definition vlanpfx : string := "10.0.0.".
Definition ipv6pfx : string := "fd00::".

(** ** Virtual addresses *)
Definition hostPart (id : string) : Z := StringToHostPart id.

(** [LocalIP] and [LocalIPv6] of a peer id, as addresses; an empty id has no IPv6 one. *)
Definition virt4 (id : string) : bytes := [10; 0; 0; hostPart id].
Definition virt6 (id : string) : bytes := 0xfd :: replicate 14 0 ++ [hostPart id].

Definition vlanContains4 (a : bytes) : bool :=
  (length a =? 4)%nat && (at_ a 0 =? 10) && (at_ a 1 =? 0) && (at_ a 2 =? 0).
Definition is4in6 (a : bytes) : bool := (length a =? 16)%nat && bool_decide (take 12 a = v4_in_v6_prefix).
Definition vlanContains6 (a : bytes) : bool :=
  (length a =? 16)%nat && negb (is4in6 a) && bool_decide (take 8 a = [0xfd; 0; 0; 0; 0; 0; 0; 0]).

(** [netip.Addr.String]: an IPv4 address mapped to IPv6 keeps its prefix. *)
Definition addr_text (a : bytes) : string := if is4in6 a then "::ffff:" +:+ ip_string a else ip_string a.

(** The two keys of a peer in [peerIPs]. *)
Definition key4 (id : string) : string := vlanpfx +:+ utoa (hostPart id).
Definition key6 (id : string) : string := ipv6pfx +:+ hex16 (hostPart id).

(** [peerIDByVirtAddr], with what [GetClusterPeers] returns. *)
Definition learn (m : gmap string string) (ids : list string) : gmap string string :=
  foldl (fun m id => <[key6 id := id]> (<[key4 id := id]> m)) m ids.
Definition peerIDByVirtAddr (cluster : list string) (addr : bytes) (m : gmap string string) : string * gmap string string :=
  let key := addr_text addr in
  match m !! key with
  | Some id => (id, m)
  | None => let m := learn m cluster in (default "" (m !! key), m)
  end.

(** ** Pending connections *)
Record synKey := { sk_remote : bytes; sk_remotePort : Z; sk_localPort : Z }.

#[global] Instance synKey_eq_dec : EqDecision synKey.
Proof. solve_decision. Defined.
#[global] Instance synKey_countable : Countable synKey.
Proof.
  refine (inj_countable' (fun k => (sk_remote k, sk_remotePort k, sk_localPort k))
    (fun '(a, b, c) => {| sk_remote := a; sk_remotePort := b; sk_localPort := c |}) _).
  by intros [].
Defined.

Definition synTTL : Z := 30 * second.

Section softun.
Context `{P : Pktkit, SL : Slirp, C : VtcpSeg}.

Definition port_at (pl : bytes) (i : nat) : Z := be_val (sub pl i 2).

Definition synKeyForPacket (pkt : bytes) : option synKey :=
  let pl := Payload pkt in
  if (length pl <? 4)%nat then None
  else Some {| sk_remote := SrcAddr pkt; sk_remotePort := port_at pl 0; sk_localPort := port_at pl 2 |}.

Definition synAckKeyFromPacket (pkt : bytes) : option synKey :=
  let pl := Payload pkt in
  if (length pl <? 4)%nat then None
  else Some {| sk_remote := DstAddr pkt; sk_remotePort := port_at pl 2; sk_localPort := port_at pl 0 |}.

Definition tcpFlags (pkt : bytes) : option Z :=
  let pl := Payload pkt in if (length pl <? 14)%nat then None else Some (at_ pl 13).

Definition isSynOnly (pkt : bytes) : bool :=
  match tcpFlags pkt with Some f => has_flag f FlagSYN && negb (has_flag f FlagACK) | None => false end.

Definition isSynAck (pkt : bytes) : bool :=
  (IPProtocol pkt =? protoTCP) &&
  match tcpFlags pkt with
  | Some f => Z.land f (Z.lor FlagSYN FlagACK) =? Z.lor FlagSYN FlagACK
  | None => false
  end.

(** The key of the marker an outbound packet drops, if any. *)
Definition clears (pkt : bytes) : option synKey := if isSynAck pkt then synAckKeyFromPacket pkt else None.

Definition takeSynPending (k : synKey) (m : gmap synKey Z) : bool * gmap synKey Z :=
  match m !! k with Some _ => (true, delete k m) | None => (false, m) end.

Definition clearSynPendingForPacket (pkt : bytes) (m : gmap synKey Z) : gmap synKey Z :=
  match clears pkt with Some k => (takeSynPending k m).2 | None => m end.

Definition reapSynPending `{MapRange} (now : Z) (m : gmap synKey Z) : gmap synKey Z :=
  sweep (fun at_ => synTTL <? time_sub now at_) m (range_map 0 m).

(** ** Datagram listeners *)
Definition recvCap : nat := 64.
Record udpDatagram := { dg_data : bytes; dg_ip : bytes; dg_port : Z }.
Record udpListener := { l_port : Z; recvCh : list udpDatagram; l_closed : bool }.

(** ** The device *)
Context {S : Type}.
Record softun := {
  localPeerID : string;
  peerIPs : gmap string string;
  synPend : gmap synKey Z;
  udpListeners : gmap Z nat;
  listeners : list udpListener;      (* the objects the table and the callers share *)
  stack : S;
  toPeer : list (string * bytes)     (* the packets given to [WriteToPeer] *)
}.

Definition set_route (m : gmap string string) (out : list (string * bytes)) (t : softun) : softun :=
  {| localPeerID := localPeerID t; peerIPs := m; synPend := synPend t; udpListeners := udpListeners t;
     listeners := listeners t; stack := stack t; toPeer := out |}.
Definition set_pend (m : gmap synKey Z) (t : softun) : softun :=
  {| localPeerID := localPeerID t; peerIPs := peerIPs t; synPend := m; udpListeners := udpListeners t;
     listeners := listeners t; stack := stack t; toPeer := toPeer t |}.
Definition set_udp (m : gmap Z nat) (l : list udpListener) (t : softun) : softun :=
  {| localPeerID := localPeerID t; peerIPs := peerIPs t; synPend := synPend t; udpListeners := m;
     listeners := l; stack := stack t; toPeer := toPeer t |}.
Definition set_stack (s : S) (t : softun) : softun :=
  {| localPeerID := localPeerID t; peerIPs := peerIPs t; synPend := synPend t; udpListeners := udpListeners t;
     listeners := listeners t; stack := s; toPeer := toPeer t |}.

Definition isLocalAddr (t : softun) (a : bytes) : bool :=
  bool_decide (a = virt4 (localPeerID t)) ||
  negb (String.eqb (localPeerID t) "") && bool_decide (a = virt6 (localPeerID t)).

Context (cluster : list string).
Context (peerTakes : string -> bytes -> bool).
Context (stackSend : S -> bytes -> S * list bytes).
Context (ensurePort : Z -> S -> S).

(** [routeToPeer]: whether it reports an error, and the device after it. *)
Definition routeToPeer (pkt dst : bytes) (t : softun) : bool * softun :=
  let (pid, m) := peerIDByVirtAddr cluster dst (peerIPs t) in
  if String.eqb pid "" then (false, set_route m (toPeer t) t)
  else (negb (peerTakes pid pkt), set_route m (toPeer t ++ [(pid, pkt)]) t).

(** The part of [routeWrite] for a destination that is not this node. *)
Definition routeAway (pkt : bytes) (t : softun) : bool * softun :=
  let dst := DstAddr pkt in
  if (length dst =? 4)%nat then if vlanContains4 dst then routeToPeer pkt dst t else (false, t)
  else if vlanContains6 dst then routeToPeer pkt dst t else (false, t).

(** [hairpin], where [send] is [softTun.Send]. *)
Definition hairpin (send : bytes -> softun -> option softun) (now : Z) (pkt : bytes) (t : softun) : option (bool * softun) :=
  let sent p t := match send p t with Some t => Some (false, t) | None => None end in
  match (if (IPProtocol pkt =? protoTCP) && isSynOnly pkt then synKeyForPacket pkt else None) with
  | Some k =>
      let t := set_stack (ensurePort (sk_localPort k) (stack t)) t in
      match send pkt (set_pend (<[k := now]> (synPend t)) t) with
      | None => None
      | Some t =>
          let (pending, m) := takeSynPending k (synPend t) in
          let t := set_pend m t in
          match (if pending then buildRST pkt else None) with Some rst => sent rst t | None => Some (false, t) end
      end
  | None => sent pkt t
  end.

(** [routeWrite], and [softTun.Send], which calls it with the packets the stack emits.
    The nesting is bounded by [fuel]; [None]: it was not enough. *)
Fixpoint routeWrite (fuel : nat) (now : Z) (pkt : bytes) (t : softun) : option (bool * softun) :=
  match fuel with
  | O => None
  | Datatypes.S fuel =>
      let send (p : bytes) (t : softun) : option softun :=
        let (s, es) := stackSend (stack t) p in
        foldl (fun r e => match r with
                          | Some t => match routeWrite fuel now e t with Some (_, t) => Some t | None => None end
                          | None => None
                          end) (Some (set_stack s t)) es in
      if negb (IsValid pkt) then Some (false, t)
      else if IsBroadcast pkt || IsMulticast pkt then Some (false, t)
      else
        let t := set_pend (clearSynPendingForPacket pkt (synPend t)) t in
        if isLocalAddr t (DstAddr pkt) then hairpin send now pkt t else Some (routeAway pkt t)
  end.

(** [softTun.Send] from outside the stack. *)
Definition Send (fuel : nat) (now : Z) (p : bytes) (t : softun) : option softun :=
  let (s, es) := stackSend (stack t) p in
  foldl (fun r e => match r with
                    | Some t => match routeWrite fuel now e t with Some (_, t) => Some t | None => None end
                    | None => None
                    end) (Some (set_stack s t)) es.

(** [handleInboundTCP]: whether the packet was consumed. *)
Definition handleInboundTCP (fuel : nat) (now : Z) (pkt : bytes) (t : softun) : option (bool * softun) :=
  if negb (isSynOnly pkt) then Some (false, t)
  else match synKeyForPacket pkt with
       | None => Some (false, t)
       | Some k =>
           let t := set_stack (ensurePort (sk_localPort k) (stack t)) t in
           match Send fuel now pkt (set_pend (<[k := now]> (synPend t)) t) with
           | None => None
           | Some t =>
               let (pending, m) := takeSynPending k (synPend t) in
               let t := set_pend m t in
               match (if pending then buildRST pkt else None) with
               | Some rst => match routeWrite fuel now rst t with Some (_, t) => Some (true, t) | None => None end
               | None => Some (true, t)
               end
           end
       end.

(** What becomes of a packet for this node.  A full channel blocks [handleInboundUDP]
    until the listener is read or closed: [Blocked]. *)
Inductive delivery := Passed (t : softun) | Consumed (t : softun) | Blocked (i : nat) (d : udpDatagram).

Definition handleInboundUDP (pkt : bytes) (t : softun) : delivery :=
  let pl := Payload pkt in
  if (length pl <? 8)%nat then Passed t
  else match udpListeners t !! port_at pl 2 with
       | None => Passed t
       | Some i =>
           let udpLen := port_at pl 4 in
           if (udpLen <? 8) || (zlen pl <? udpLen) then Consumed t
           else
             let d := {| dg_data := sub pl 8 (Z.to_nat (udpLen - 8)); dg_ip := SrcAddr pkt; dg_port := port_at pl 0 |} in
             match listeners t !! i with
             | None => Passed t
             | Some l =>
                 if (length (recvCh l) <? recvCap)%nat then
                   Consumed (set_udp (udpListeners t)
                     (<[i := {| l_port := l_port l; recvCh := recvCh l ++ [d]; l_closed := l_closed l |}]> (listeners t)) t)
                 else if l_closed l then Consumed t else Blocked i d
             end
       end.

Definition handleInboundICMP (fuel : nat) (now : Z) (pkt : bytes) (t : softun) : option (bool * softun) :=
  let pl := Payload pkt in
  let answer (reply : option bytes) :=
    match reply with
    | Some r => match routeWrite fuel now r t with Some (_, t) => Some (true, t) | None => None end
    | None => Some (true, t)
    end in
  if Version pkt =? 4 then
    if (length pl <? 8)%nat || negb (at_ pl 0 =? 8) then Some (false, t) else answer (buildICMPv4Reply pkt)
  else if Version pkt =? 6 then
    if (length pl <? 8)%nat || negb (at_ pl 0 =? 128) then Some (false, t) else answer (buildICMPv6Reply pkt)
  else Some (false, t).

Definition handleInbound (fuel : nat) (now : Z) (pkt : bytes) (t : softun) : option delivery :=
  let verdict (r : option (bool * softun)) :=
    match r with Some (true, t) => Some (Consumed t) | Some (false, t) => Some (Passed t) | None => None end in
  if negb (IsValid pkt) || negb (isLocalAddr t (DstAddr pkt)) then Some (Passed t)
  else if (IPProtocol pkt =? protoICMP) || (IPProtocol pkt =? protoICMPv6) then verdict (handleInboundICMP fuel now pkt t)
  else if IPProtocol pkt =? protoUDP then Some (handleInboundUDP pkt t)
  else if IPProtocol pkt =? protoTCP then verdict (handleInboundTCP fuel now pkt t)
  else Some (Passed t).

(** [softunSink.Inbound] once the addresses are set. *)
Definition Inbound (fuel : nat) (now : Z) (pkt : bytes) (t : softun) : option (softun + nat * udpDatagram) :=
  match handleInbound fuel now pkt t with
  | None => None
  | Some (Consumed t) => Some (inl t)
  | Some (Blocked i d) => Some (inr (i, d))
  | Some (Passed t) => option_map inl (Send fuel now pkt t)
  end.

(** ** The listener's methods *)
Definition ListenUDP (port : Z) (t : softun) : res (nat * softun) :=
  match udpListeners t !! port with
  | Some _ => Fail "softun: address already in use"
  | None =>
      let i := length (listeners t) in
      Ok (i, set_udp (<[port := i]> (udpListeners t))
               (listeners t ++ [{| l_port := port; recvCh := []; l_closed := false |}]) t)
  end.

(** [ReadFrom] when it does not block ([None]): with a datagram and the close signal both
    there, [select] may take either ([prefer_close]). *)
Definition ReadFrom (prefer_close : bool) (cap : Z) (i : nat) (t : softun) : option (res (bytes * bytes * Z) * softun) :=
  match listeners t !! i with
  | None => None
  | Some l =>
      match recvCh l with
      | d :: q =>
          if l_closed l && prefer_close then Some (Fail "use of closed network connection", t)
          else Some (Ok (take (Z.to_nat cap) (dg_data d), dg_ip d, dg_port d),
                     set_udp (udpListeners t) (<[i := {| l_port := l_port l; recvCh := q; l_closed := l_closed l |}]> (listeners t)) t)
      | [] => if l_closed l then Some (Fail "use of closed network connection", t) else None
      end
  end.

(** [Close], which runs once. *)
Definition CloseUDP (i : nat) (t : softun) : softun :=
  match listeners t !! i with
  | Some l => if l_closed l then t
              else set_udp (delete (l_port l) (udpListeners t))
                     (<[i := {| l_port := l_port l; recvCh := recvCh l; l_closed := true |}]> (listeners t)) t
  | None => t
  end.

(** [WriteTo] the address [ip]:[port] (the empty list: no address); [fuel] is for [routeWrite]. *)
Definition WriteTo (fuel : nat) (now : Z) (i : nat) (p ip : bytes) (port : Z) (t : softun) : option (res Z * softun) :=
  match listeners t !! i with
  | None => None
  | Some l =>
      if bool_decide (ip = []) then Some (Fail "softun: missing destination IP", t)
      else
        let payload := udpPayload (l_port l) port p in
        let send pkt := match routeWrite fuel now pkt t with
                        | None => None
                        | Some (true, t) => Some (Fail "write to peer", t)
                        | Some (false, t) => Some (Ok (zlen p), t)
                        end in
        match to4 ip with
        | Some ip4 => send (wrapIPv4 (virt4 (localPeerID t)) ip4 protoUDP payload)
        | None =>
            if String.eqb (localPeerID t) "" then Some (Fail "softun: local IPv6 address not configured", t)
            else if negb (length ip =? 16)%nat then Some (Panic, t)
            else send (wrapIPv6 (virt6 (localPeerID t)) ip protoUDP payload)
        end
  end.
End softun.
Arguments softun : clear implicits.

(** ** Addresses and their keys *)
Lemma hostPart_range id : 2 <= hostPart id <= 254.
Proof. unfold hostPart, StringToHostPart. pose proof (Z.mod_pos_bound (crc64 (string_bytes id)) 253). lia. Qed.

Lemma addr_text_virt4 id : addr_text (virt4 id) = key4 id.
Proof. reflexivity. Qed.

Lemma key4_inj id id' : key4 id = key4 id' -> hostPart id = hostPart id'.
Proof.
  intros E. pose proof (hostPart_range id). pose proof (hostPart_range id').
  apply utoa_inj; [lia..|]. unfold key4, vlanpfx in E. cbn in E. by simplify_eq.
Qed.

Lemma key4_key6 id id' : key4 id <> key6 id'.
Proof. discriminate. Qed.

(** The entries of the table are peers with the address they are stored under. *)
Definition cache_ok (m : gmap string string) : Prop :=
  forall key id, m !! key = Some id -> id <> "" -> key = key4 id \/ key = key6 id.

Lemma learn_ok m ids : cache_ok m -> cache_ok (learn m ids).
Proof.
  unfold learn. revert m. induction ids as [|id ids IH]; intros m Hm; [done|]. cbn. apply IH.
  intros key id' Hk Hne. apply lookup_insert_Some in Hk as [[<- <-]|[_ Hk]]; [by right|].
  apply lookup_insert_Some in Hk as [[<- <-]|[_ Hk]]; [by left|]. eauto.
Qed.

Lemma learn_key4 m ids id :
  (exists id', id' ∈ ids /\ hostPart id' = hostPart id) ->
  exists id', id' ∈ ids /\ hostPart id' = hostPart id /\ learn m ids !! key4 id = Some id'.
Proof.
  unfold learn. revert m. induction ids as [|x ids IH] using rev_ind; intros m (y & Hy & Ey); [set_solver|].
  rewrite foldl_app. cbn. rewrite lookup_insert_ne by (intros E; by apply (key4_key6 id x)).
  destruct (decide (hostPart x = hostPart id)) as [E|E].
  - exists x. split; [set_solver|]. split; [done|].
    assert (key4 x = key4 id) as -> by (unfold key4; by rewrite E). by rewrite lookup_insert_eq.
  - rewrite lookup_insert_ne by (intros E'; by apply E, key4_inj).
    apply elem_of_app in Hy as [Hy|Hy]; [|apply list_elem_of_singleton in Hy; congruence].
    destruct (IH m) as (z & Hz & Ez & Hl); [eauto|]. exists z. split; [set_solver|]. by split.
Qed.

(** A packet for a virtual address goes to a peer that has it. *)
Lemma route_owner cluster id m pid m' :
  peerIDByVirtAddr cluster (virt4 id) m = (pid, m') -> cache_ok m ->
  cache_ok m' /\ (pid <> "" -> hostPart pid = hostPart id) /\
  (id ∈ cluster -> "" ∉ cluster -> map_Forall (fun _ i => i <> "") m -> pid <> "").
Proof.
  unfold peerIDByVirtAddr. rewrite addr_text_virt4. intros E Hm.
  assert (forall mm i, cache_ok mm -> mm !! key4 id = Some i -> i <> "" -> hostPart i = hostPart id) as Hown.
  { intros mm i Hmm Hi Hne. destruct (Hmm _ _ Hi Hne) as [Ek|Ek]; [symmetry; by apply key4_inj|by apply key4_key6 in Ek]. }
  destruct (m !! key4 id) as [i|] eqn:Ei; simplify_eq.
  - split; [done|]. split; [by eapply Hown|]. intros _ _ Hf. by apply Hf in Ei.
  - pose proof (learn_ok m cluster Hm) as Hl. split; [done|]. split.
    + destruct (learn m cluster !! key4 id) as [i|] eqn:El; cbn; [by eapply Hown|done].
    + intros Hin Hno _. destruct (learn_key4 m cluster id) as (i & Hi & _ & ->); [eauto|]. cbn. intros ->. done.
Qed.

Lemma vlanContains4_virt id : vlanContains4 (virt4 id) = true.
Proof. reflexivity. Qed.

Section theorems.
Context `{P : Pktkit, SL : Slirp, C : VtcpSeg} {S : Type}.
Context (cluster : list string) (peerTakes : string -> bytes -> bool).
Context (stackSend : S -> bytes -> S * list bytes) (ensurePort : Z -> S -> S).
Notation softun := (softun S).
Notation routeWrite' := (routeWrite cluster peerTakes stackSend ensurePort).
Notation handleInboundTCP' := (handleInboundTCP cluster peerTakes stackSend ensurePort).
Notation Inbound' := (Inbound cluster peerTakes stackSend ensurePort).
Notation WriteTo' := (WriteTo cluster peerTakes stackSend ensurePort).

(** [routeWrite] of a packet that is not for this node. *)
Definition routable (e : bytes) : bool := IsValid e && negb (IsBroadcast e || IsMulticast e).
Definition away (t : softun) (e : bytes) : softun :=
  if routable e then (routeAway cluster peerTakes e (set_pend (clearSynPendingForPacket e (synPend t)) t)).2 else t.

Lemma routeAway_keeps e (t : softun) :
  localPeerID (routeAway cluster peerTakes e t).2 = localPeerID t /\ synPend (routeAway cluster peerTakes e t).2 = synPend t /\
  stack (routeAway cluster peerTakes e t).2 = stack t /\ listeners (routeAway cluster peerTakes e t).2 = listeners t /\
  udpListeners (routeAway cluster peerTakes e t).2 = udpListeners t.
Proof.
  unfold routeAway, routeToPeer. destruct (peerIDByVirtAddr cluster (DstAddr e) (peerIPs t)) as [pid m].
  repeat case_match; by split_and!.
Qed.

Lemma away_keeps (t : softun) e :
  localPeerID (away t e) = localPeerID t /\ stack (away t e) = stack t /\
  listeners (away t e) = listeners t /\ udpListeners (away t e) = udpListeners t.
Proof.
  unfold away. destruct (routable e); [|done].
  destruct (routeAway_keeps e (set_pend (clearSynPendingForPacket e (synPend t)) t)) as (-> & _ & -> & -> & ->). done.
Qed.

Lemma routeWrite_away fuel now e (t : softun) :
  isLocalAddr t (DstAddr e) = false -> exists b, routeWrite' (Datatypes.S fuel) now e t = Some (b, away t e).
Proof.
  intros Hl. cbn [routeWrite]. unfold away, routable.
  destruct (IsValid e); cbn [negb andb]; [|eauto]. destruct (IsBroadcast e || IsMulticast e); cbn [negb andb]; [eauto|].
  unfold isLocalAddr in *. cbn [localPeerID set_pend]. rewrite Hl.
  destruct (routeAway cluster peerTakes e _) as [b u]. by exists b.
Qed.

(** What a packet leaves of a pending marker. *)
Lemma away_pend (t : softun) e k :
  synPend (away t e) !! k = if routable e && bool_decide (clears e = Some k) then None else synPend t !! k.
Proof.
  unfold away. destruct (routable e); cbn [andb]; [|done].
  destruct (routeAway_keeps e (set_pend (clearSynPendingForPacket e (synPend t)) t)) as (_ & -> & _). cbn.
  unfold clearSynPendingForPacket. destruct (clears e) as [k'|]; [|done].
  unfold takeSynPending. case_bool_decide as Hk.
  - simplify_eq. destruct (synPend t !! k) eqn:E; cbn; [apply lookup_delete_eq|done].
  - destruct (synPend t !! k') eqn:E; cbn; [|done]. apply lookup_delete_ne. congruence.
Qed.

Definition answered (es : list bytes) (k : synKey) : bool :=
  existsb (fun e => routable e && bool_decide (clears e = Some k)) es.

Lemma fold_away fuel now es : forall t,
  Forall (fun e => isLocalAddr t (DstAddr e) = false) es ->
  foldl (fun r e => match r with
                    | Some t => match routeWrite' (Datatypes.S fuel) now e t with Some (_, t) => Some t | None => None end
                    | None => None
                    end) (Some t) es = Some (foldl away t es) /\
  localPeerID (foldl away t es) = localPeerID t /\ stack (foldl away t es) = stack t /\
  forall k, synPend (foldl away t es) !! k = if answered es k then None else synPend t !! k.
Proof.
  induction es as [|e es IH]; intros t Hes; [done|]. apply Forall_cons_1 in Hes as [He Hes].
  destruct (routeWrite_away fuel now e t He) as [b Eb].
  destruct (away_keeps t e) as (K1 & K2 & _). cbn [foldl]. rewrite Eb.
  destruct (IH (away t e)) as (-> & -> & -> & Hk).
  { eapply Forall_impl; [exact Hes|]. intros e'. unfold isLocalAddr. by rewrite K1. }
  split_and!; [done|done|done|]. intros k. rewrite Hk, away_pend. unfold answered. cbn [existsb].
  destruct (routable e && bool_decide (clears e = Some k)), (existsb _ es); done.
Qed.

(** A connection request from another node: the stack gets it, with the port map's
    listener if there is one; when the stack answers with a SYN-ACK for that connection
    before [Send] returns, no reset is sent, and when it does not, the reset RFC 793
    prescribes goes back to the node.  Either way nothing is left pending for the
    connection, and of the others only those the stack answered are touched. *)
Theorem refused_connections fuel now pkt (t : softun) k s' es :
  vtcp_seg_laws C ->
  isSynOnly pkt = true -> synKeyForPacket pkt = Some k -> (20 <= length (Payload pkt))%nat ->
  ParseSegment (Payload pkt) <> None -> Version pkt = 4 ->
  stackSend (ensurePort (sk_localPort k) (stack t)) pkt = (s', es) ->
  Forall (fun e => isLocalAddr t (DstAddr e) = false) es ->
  let rst := wrapIPv4 (DstAddr pkt) (SrcAddr pkt) protoTCP (MarshalSeg (rfc793_reset (Payload pkt))) in
  isLocalAddr t (DstAddr rst) = false ->
  exists t', handleInboundTCP' (Datatypes.S fuel) now pkt t = Some (true, t') /\
    let routed := foldl away (set_stack s' (set_pend (<[k := now]> (synPend t)) t)) es in
    (if answered es k then t' = set_pend (synPend routed) routed
     else t' = away (set_pend (delete k (synPend routed)) routed) rst) /\
    synPend t' !! k = None /\
    forall k', k' <> k -> isSynAck rst = false ->
      synPend t' !! k' = if answered es k' then None else synPend t !! k'.
Proof.
  intros vlaws Hsyn Hk Hlen Hparse Hver Hsend Hes rst Hrst.
  unfold handleInboundTCP. rewrite Hsyn, Hk. cbn [negb]. unfold Send. cbn [stack set_stack set_pend synPend].
  rewrite Hsend. set (t1 := set_stack s' (set_pend (<[k := now]> (synPend t)) t)).
  change (set_stack s' _) with t1.
  destruct (fold_away fuel now es t1) as (-> & El & _ & Hp).
  { eapply Forall_impl; [exact Hes|]. done. }
  set (routed := foldl away t1 es) in *.
  assert (buildRST pkt = Some rst) as Erst.
  { unfold buildRST. rewrite (proj2 (Z.ltb_ge _ _)) by (unfold zlen; lia).
    destruct (ParseSegment (Payload pkt)) as [g|] eqn:Eg; [|done]. rewrite Hver. cbn [Z.eqb Pos.eqb].
    by rewrite (rstSegment_rfc793 _ g vlaws Hlen Eg). }
  assert (forall k', synPend t1 !! k' = if decide (k' = k) then Some now else synPend t !! k') as H1.
  { intros k'. cbn. destruct (decide (k' = k)) as [->|]; [by rewrite lookup_insert_eq|by rewrite lookup_insert_ne]. }
  unfold takeSynPending. rewrite Hp, H1, decide_True by done.
  destruct (answered es k) eqn:Ea.
  - eexists. split; [reflexivity|]. split; [done|]. cbn. rewrite Hp, Ea. split; [done|].
    intros k' Hne _. rewrite Hp, H1, decide_False by done. done.
  - rewrite Erst. set (t2 := set_pend (delete k (synPend routed)) routed).
    assert (isLocalAddr t2 (DstAddr rst) = false) as Hl2.
    { unfold isLocalAddr in *. cbn [t2 localPeerID set_pend]. by rewrite El. }
    destruct (routeWrite_away fuel now rst t2 Hl2) as [b ->].
    eexists. split; [reflexivity|]. split; [done|]. rewrite away_pend.
    split. { cbn. rewrite lookup_delete_eq. by case_match. }
    intros k' Hne Hns. rewrite away_pend. unfold clears. rewrite Hns. cbn [andb bool_decide].
    rewrite bool_decide_false, andb_false_r by done. cbn. rewrite lookup_delete_ne by done.
    rewrite Hp, H1, decide_False by done. done.
Qed.

(** ** Datagrams *)

(** The datagram [WriteTo] sends, as a receiver reads it. *)
Lemma udp_packet_reads src dst a port p :
  pktkit_laws P -> slirp_laws SL -> ip4 src -> ip4 dst -> 0 <= a <= 65535 -> 0 <= port <= 65535 ->
  is_bytes p -> zlen p <= 65507 ->
  let pkt := wrapIPv4 src dst protoUDP (udpPayload a port p) in
  IsValid pkt = true /\ IPProtocol pkt = protoUDP /\ SrcAddr pkt = src /\ DstAddr pkt = dst /\
  zlen (Payload pkt) = 8 + zlen p /\ port_at (Payload pkt) 0 = a /\ port_at (Payload pkt) 2 = port /\
  port_at (Payload pkt) 4 = 8 + zlen p /\ sub (Payload pkt) 8 (length p) = p.
Proof.
  intros pk sl Hs Hd Ha Hport Hp Hl pkt. pose proof (zlen_nonneg p).
  set (l4 := udpPayload a port p) in *.
  assert (length l4 = 8 + length p)%nat as Ll by (unfold l4, udpPayload; len).
  assert (is_bytes l4) as Hb.
  { unfold l4, udpPayload. rewrite !is_bytes_app. repeat split; auto with wire. }
  assert (l4_field protoUDP 6 l4) as Hf by (right; split; [done|]; split; [done|lia]).
  assert (zlen l4 = 8 + zlen p) as Hz by (unfold zlen; lia).
  destruct (wrapIPv4_header sl src dst protoUDP l4 Hs Hd ltac:(unfold is_byte, protoUDP; lia))
    as (h & E & L & _ & _ & F0 & F2 & F9 & F12 & F16).
  destruct (fillChecksum4_sealed sl src dst protoUDP 6 l4 Hf Hs Hd Hb ltac:(lia)) as (c & E4 & _).
  set (q := put_at 6 (be_bytes 2 c) l4) in *.
  assert (length q = length l4) as Lq by (unfold q; rewrite length_put_at; len).
  assert (pkt = h ++ q) as Ep by (unfold pkt; by rewrite E, E4).
  destruct (pk_v4 _ pk pkt) as (V1 & V2 & V3 & V4 & V5 & V6 & _); rewrite ?Ep.
  - by rewrite at_app_l by lia.
  - rewrite length_app. lia.
  - rewrite sub_app_l, F2, be_val_be_bytes_2 by lia. rewrite zlen_app. unfold zlen in *. lia.
  - rewrite Ep in V3, V4, V5, V6. rewrite at_app_l in V3 by lia. rewrite sub_app_l in V4, V5 by lia.
    rewrite drop_app_length' in V6 by lia. rewrite <- Ep in V3, V4, V5, V6. rewrite <- Ep.
    rewrite V3, V4, V5, V6.
    assert (forall i, (i + 2 <= 6)%nat -> sub q i 2 = sub l4 i 2) as Hq.
    { intros i Hi. unfold q. by rewrite sub_put_at_before by (rewrite ?length_be_bytes; lia). }
    unfold port_at. rewrite !Hq by lia.
    assert (sub l4 0 2 = be_bytes 2 a /\ sub l4 2 2 = be_bytes 2 port /\ sub l4 4 2 = be_bytes 2 (8 + zlen p)) as (-> & -> & ->).
    { unfold l4, udpPayload. rewrite !be_bytes_2. done. }
    rewrite !be_val_be_bytes_2 by lia.
    assert (sub q 8 (length p) = p) as ->.
    { unfold q. rewrite sub_put_at_after by (rewrite ?length_be_bytes; lia).
      unfold l4, udpPayload, sub. rewrite !be_bytes_2. cbn. apply firstn_all. }
    split_and!; try done; unfold zlen in *; lia.
Qed.

Lemma virt4_ip4 id : ip4 (virt4 id).
Proof. split; [done|]. pose proof (hostPart_range id). unfold virt4. bytes_lit. Qed.

(** C11. A datagram written to another node's virtual address and port goes to a peer that
    has that address, and when the packet arrives at a node of that address with a
    listener on the port whose channel is not full, exactly that listener gets the data,
    with the writer's virtual address and port to answer to; nothing else changes there. *)
Theorem datagram_delivered fuel now (ta tb : softun) cl2 pt2 (ss2 : S -> bytes -> S * list bytes) ep2 i la j lb p port :
  pktkit_laws P -> slirp_laws SL ->
  hostPart (localPeerID ta) <> hostPart (localPeerID tb) ->
  localPeerID tb ∈ cluster -> "" ∉ cluster -> cache_ok (peerIPs ta) -> map_Forall (fun _ id => id <> "") (peerIPs ta) ->
  listeners ta !! i = Some la -> 0 <= l_port la <= 65535 -> 0 <= port <= 65535 -> is_bytes p -> zlen p <= 65507 ->
  udpListeners tb !! port = Some j -> listeners tb !! j = Some lb -> (length (recvCh lb) < recvCap)%nat ->
  exists pid pkt r ta',
    WriteTo' (Datatypes.S fuel) now i p (virt4 (localPeerID tb)) port ta = Some (r, ta') /\
    r = (if peerTakes pid pkt then Ok (zlen p) else Fail "write to peer") /\
    toPeer ta' = toPeer ta ++ [(pid, pkt)] /\ hostPart pid = hostPart (localPeerID tb) /\ cache_ok (peerIPs ta') /\
    Inbound cl2 pt2 ss2 ep2 fuel now pkt tb = Some (inl (set_udp (udpListeners tb)
      (<[j := {| l_port := l_port lb;
                 recvCh := recvCh lb ++ [{| dg_data := p; dg_ip := virt4 (localPeerID ta); dg_port := l_port la |}];
                 l_closed := l_closed lb |}]> (listeners tb)) tb)).
Proof.
  intros pk sl Hne Hin Hno Hcache Hfull Hi Hla Hport Hp Hl Htab Hj Hroom.
  set (dst := virt4 (localPeerID tb)). set (src := virt4 (localPeerID ta)).
  set (pkt := wrapIPv4 src dst protoUDP (udpPayload (l_port la) port p)).
  destruct (udp_packet_reads src dst (l_port la) port p) as (R1 & R2 & R3 & R4 & R5 & R6 & R7 & R8 & R9);
    try done; try apply virt4_ip4. fold pkt in R1, R2, R3, R4, R5, R6, R7, R8, R9.
  assert (isLocalAddr ta dst = false) as Hnl.
  { unfold isLocalAddr. rewrite !bool_decide_false; [by rewrite andb_false_r|discriminate|].
    unfold dst, virt4. intros [= E]. congruence. }
  assert (routable pkt = true) as Hr.
  { unfold routable. rewrite R1. destruct (pk_unicast _ pk pkt R1) as [-> ->]; [|done].
    left. rewrite R4. split; [done|]. split; [|done]. cbn. pose proof (hostPart_range (localPeerID tb)). lia. }
  destruct (routeWrite_away fuel now pkt ta) as [b0 Erw]; [by rewrite R4|].
  cbn [routeWrite] in Erw.
  destruct (peerIDByVirtAddr cluster dst (peerIPs ta)) as [pid m'] eqn:Epid.
  destruct (route_owner _ _ _ _ _ Epid Hcache) as (Hc' & Hown & Hsome).
  specialize (Hsome Hin Hno Hfull). specialize (Hown Hsome).
  assert (clears pkt = None) as Ecl.
  { unfold clears, isSynAck. by rewrite R2. }
  assert (routeWrite' (Datatypes.S fuel) now pkt ta = Some (negb (peerTakes pid pkt), set_route m' (toPeer ta ++ [(pid, pkt)]) (set_pend (synPend ta) ta))) as Erw2.
  { cbn [routeWrite]. unfold routable in Hr. rewrite R1 in Hr. cbn [andb] in Hr. apply negb_true_iff in Hr.
    rewrite R1, Hr, R4. cbn [negb]. unfold clearSynPendingForPacket. rewrite Ecl.
    assert (isLocalAddr (set_pend (synPend ta) ta) dst = false) as -> by exact Hnl.
    unfold routeAway, routeToPeer. rewrite R4. cbn [length dst virt4 Nat.eqb]. fold dst.
    change (vlanContains4 dst) with true. cbn [peerIPs set_pend]. rewrite Epid.
    destruct (String.eqb_spec pid ""); [done|]. done. }
  exists pid, pkt, (if peerTakes pid pkt then Ok (zlen p) else Fail "write to peer"),
    (set_route m' (toPeer ta ++ [(pid, pkt)]) (set_pend (synPend ta) ta)).
  split.
  { unfold WriteTo. rewrite Hi. rewrite bool_decide_false by done.
    change (to4 dst) with (Some dst). cbv zeta beta iota. fold src. fold pkt. rewrite Erw2. by destruct (peerTakes pid pkt). }
  split; [done|]. split; [done|]. split; [done|]. split; [done|].
  unfold Inbound, handleInbound. rewrite R1, R4. cbn [negb orb].
  assert (isLocalAddr tb dst = true) as -> by (unfold isLocalAddr; by rewrite bool_decide_true). cbn [negb].
  rewrite R2. change (protoUDP =? protoICMP) with false. change (protoUDP =? protoICMPv6) with false.
  change (protoUDP =? protoUDP) with true. cbn [orb].
  unfold handleInboundUDP. rewrite (proj2 (Nat.ltb_ge _ _)) by (unfold zlen in *; lia).
  rewrite R7, Htab, R8, R5, (proj2 (Z.ltb_ge _ _)), (proj2 (Z.ltb_ge _ _)) by (pose proof (zlen_nonneg p); lia).
  cbn [orb]. rewrite Hj, (proj2 (Nat.ltb_lt _ _)) by done. rewrite R6, R3.
  replace (Z.to_nat (8 + zlen p - 8)) with (length p) by (unfold zlen; lia). by rewrite R9.
Qed.

(** A datagram written to the node's own virtual address is given to the stack, which has
    no datagram sockets, and no listener of the node gets it. *)
Theorem self_datagram_lost fuel now (t : softun) i la p port s' es :
  pktkit_laws P -> slirp_laws SL ->
  listeners t !! i = Some la -> 0 <= l_port la <= 65535 -> 0 <= port <= 65535 -> is_bytes p -> zlen p <= 65507 ->
  stackSend (stack t) (wrapIPv4 (virt4 (localPeerID t)) (virt4 (localPeerID t)) protoUDP (udpPayload (l_port la) port p)) = (s', es) ->
  es = [] ->
  exists t', WriteTo' (Datatypes.S fuel) now i p (virt4 (localPeerID t)) port t = Some (Ok (zlen p), t') /\
    listeners t' = listeners t /\ toPeer t' = toPeer t.
Proof.
  intros pk sl Hi Hla Hport Hp Hl Hsend ->. set (a := virt4 (localPeerID t)) in *.
  set (pkt := wrapIPv4 a a protoUDP _) in *.
  destruct (udp_packet_reads a a (l_port la) port p) as (R1 & R2 & R3 & R4 & _); try done; try apply virt4_ip4.
  fold pkt in R1, R2, R3, R4.
  unfold WriteTo. rewrite Hi, bool_decide_false by done. change (to4 a) with (Some a). cbv zeta beta iota. fold a. fold pkt.
  cbn [routeWrite]. rewrite R1. cbn [negb].
  destruct (pk_unicast _ pk pkt R1) as [-> ->].
  { left. rewrite R4. split; [done|]. split; [|done]. cbn. pose proof (hostPart_range (localPeerID t)). lia. }
  cbn [orb]. rewrite R4.
  assert (forall m, isLocalAddr (set_pend m t) a = true) as Hloc
    by (intros m; unfold isLocalAddr; cbn [localPeerID set_pend]; by rewrite bool_decide_true).
  rewrite Hloc. unfold hairpin. rewrite R2. change (protoUDP =? protoTCP) with false. cbn [andb stack set_pend]. rewrite Hsend. cbn.
  eexists. split; [reflexivity|]. done.
Qed.
End theorems.

(** ** The table of listeners *)
Section listeners.
Context `{P : Pktkit} {S : Type}.
Notation softun := (softun S).

Inductive udp_op := Bind (port : Z) | Unbind (i : nat) | Arrive (pkt : bytes) | Recv (prefer_close : bool) (cap : Z) (i : nat).

Definition udp_step (t : softun) (o : udp_op) : softun :=
  match o with
  | Bind port => match ListenUDP port t with Ok (_, t) => t | _ => t end
  | Unbind i => CloseUDP i t
  | Arrive pkt => match handleInboundUDP pkt t with Consumed t => t | _ => t end
  | Recv pc cap i => match ReadFrom pc cap i t with Some (_, t) => t | None => t end
  end.
Definition udp_run (l : list udp_op) (t : softun) : softun := foldl udp_step t l.

Record udp_ok (t : softun) : Prop := {
  uk_table : forall port i, udpListeners t !! port = Some i <->
    exists l, listeners t !! i = Some l /\ l_port l = port /\ l_closed l = false;
  uk_queue : forall i l, listeners t !! i = Some l -> (length (recvCh l) <= recvCap)%nat
}.

(** A listener changed in its channel only. *)
Lemma udp_ok_recv t i l q :
  udp_ok t -> listeners t !! i = Some l -> (length q <= recvCap)%nat ->
  udp_ok (set_udp (udpListeners t) (<[i := {| l_port := l_port l; recvCh := q; l_closed := l_closed l |}]> (listeners t)) t).
Proof.
  intros [Ht Hq] Hi Hlen. pose proof (lookup_lt_Some _ _ _ Hi) as Hlt. split; cbn.
  - intros port j. rewrite Ht. destruct (decide (i = j)) as [->|Hne].
    + rewrite list_lookup_insert_eq by done. rewrite Hi. split.
      * intros (l' & [= <-] & ? & ?). by eexists.
      * intros (l' & [= <-] & ? & ?). by eexists.
    + by rewrite list_lookup_insert_ne.
  - intros j l' Hj. destruct (decide (i = j)) as [->|Hne].
    + rewrite list_lookup_insert_eq in Hj by done. by simplify_eq.
    + rewrite list_lookup_insert_ne in Hj by done. eauto.
Qed.

Lemma udp_ok_step t o : udp_ok t -> udp_ok (udp_step t o).
Proof.
  intros Hok. pose proof Hok as [Ht Hq]. destruct o as [port|i|pkt|pc cap i]; cbn [udp_step].
  - unfold ListenUDP. destruct (udpListeners t !! port) as [k|] eqn:E; [done|]. split; cbn.
    + intros port' j. split.
      * intros Hj. apply lookup_insert_Some in Hj as [[<- <-]|[Hne Hj]].
        -- eexists. split; [by apply list_lookup_middle|done].
        -- apply Ht in Hj as (l & Hl & ? & ?). exists l. split; [by apply lookup_app_l_Some|done].
      * intros (l & Hl & Hp & Hc). apply lookup_app_Some in Hl as [Hl|[Hj Hl]].
        -- assert (udpListeners t !! port' = Some j) as Hj by (apply Ht; eauto).
           rewrite lookup_insert_ne; [done|]. congruence.
        -- apply list_lookup_singleton_Some in Hl as [Hj' <-]. cbn in Hp. subst port'.
           assert (j = length (listeners t)) as -> by lia. apply lookup_insert_eq.
    + intros j l Hl. apply lookup_app_Some in Hl as [Hl|[_ Hl]]; [eauto|].
      apply list_lookup_singleton_Some in Hl as [_ <-]. cbn. unfold recvCap. lia.
  - unfold CloseUDP. destruct (listeners t !! i) as [l|] eqn:Hi; [|done]. destruct (l_closed l) eqn:Hc; [done|].
    pose proof (lookup_lt_Some _ _ _ Hi) as Hlt.
    assert (udpListeners t !! l_port l = Some i) as Hti by (apply Ht; eauto). split; cbn.
    + intros port j. split.
      * intros Hj. apply lookup_delete_Some in Hj as [Hne Hj]. pose proof Hj as Hj'.
        apply Ht in Hj' as (l' & Hl' & Hp' & ?). exists l'. split; [|done]. rewrite list_lookup_insert_ne; [done|].
        intros ->. rewrite Hi in Hl'. by simplify_eq.
      * intros (l' & Hl' & Hp' & Hc'). destruct (decide (i = j)) as [->|Hne].
        -- rewrite list_lookup_insert_eq in Hl' by done. by simplify_eq.
        -- rewrite list_lookup_insert_ne in Hl' by done.
           assert (udpListeners t !! port = Some j) as Hj by (apply Ht; eauto).
           rewrite lookup_delete_ne; [done|]. congruence.
    + intros j l' Hl'. destruct (decide (i = j)) as [->|Hne].
      * rewrite list_lookup_insert_eq in Hl' by done. simplify_eq. by apply (Hq j l).
      * rewrite list_lookup_insert_ne in Hl' by done. eauto.
  - unfold handleInboundUDP. destruct (length (Payload pkt) <? 8)%nat; [done|].
    destruct (udpListeners t !! port_at (Payload pkt) 2) as [i|] eqn:Ei; [|done].
    destruct (_ || _); [done|]. destruct (listeners t !! i) as [l|] eqn:Hi; [|done].
    destruct (Nat.ltb_spec (length (recvCh l)) recvCap); [|by destruct (l_closed l)].
    apply udp_ok_recv; [done|done|]. rewrite length_app. cbn. lia.
  - unfold ReadFrom. destruct (listeners t !! i) as [l|] eqn:Hi; [|done].
    destruct (recvCh l) as [|d q] eqn:Eq; [by destruct (l_closed l)|]. destruct (l_closed l && pc); [done|].
    apply udp_ok_recv; [done|done|]. pose proof (Hq i l Hi) as Hlen. rewrite Eq in Hlen. cbn in Hlen. lia.
Qed.

(** Whatever is bound, closed, received and read, the table names exactly the open
    listeners, each under its port, and no channel holds more than 64 datagrams.  So a
    port can be bound exactly when no open listener has it, and a closed one can be bound
    again. *)
Theorem udp_table_ok l (t0 : softun) :
  udpListeners t0 = ∅ -> listeners t0 = [] ->
  let t := udp_run l t0 in
  udp_ok t /\
  (forall port, is_ok (ListenUDP port t) = true <->
     ~ exists i x, listeners t !! i = Some x /\ l_port x = port /\ l_closed x = false) /\
  (forall i x, listeners t !! i = Some x -> l_closed x = false -> is_ok (ListenUDP (l_port x) (CloseUDP i t)) = true).
Proof.
  intros E1 E2 t.
  assert (udp_ok t) as Hok.
  { assert (udp_ok t0) as H0.
    { split; rewrite ?E1, ?E2; [|done]. intros port i. rewrite lookup_empty. split; [done|]. by intros (? & ? & _). }
    unfold t, udp_run. clear E1 E2 t. revert t0 H0. induction l as [|o l IH]; intros t0 H0; [done|]. by apply IH, udp_ok_step. }
  split; [done|]. destruct Hok as [Ht Hq]. split.
  - intros port. unfold ListenUDP. destruct (udpListeners t !! port) as [i|] eqn:E; cbn.
    + split; [done|]. intros H. destruct H. apply Ht in E as (x & ?). by exists i, x.
    + split; [|done]. intros _ (i & x & Hx). assert (udpListeners t !! port = Some i) by (apply Ht; eauto). congruence.
  - intros i x Hi Hc. unfold CloseUDP. rewrite Hi, Hc. unfold ListenUDP. cbn. by rewrite lookup_delete_eq.
Qed.
End listeners.

(** ** Two nodes, and a connection request to a closed port *)
Definition w_softun (id : string) : softun unit :=
  {| localPeerID := id; peerIPs := ∅; synPend := ∅; udpListeners := {[9000 := 0%nat]};
     listeners := [{| l_port := 9000; recvCh := []; l_closed := false |}]; stack := tt; toPeer := [] |}.
Definition closed_stack (s : unit) (p : bytes) : unit * list bytes := (s, []).

Lemma datagram_delivered_witness :
  exists pid pkt r ta',
    WriteTo ["nodeA"; "nodeB"] (fun _ _ => true) closed_stack (fun _ s => s) 1 0 0 [104; 105] (virt4 "nodeB") 9000
      (w_softun "nodeA") = Some (r, ta') /\
    hostPart pid = hostPart "nodeB" /\
    exists tb', Inbound ["nodeA"; "nodeB"] (fun _ _ => true) closed_stack (fun _ s => s) 0 0 pkt (w_softun "nodeB") = Some (inl tb').
Proof.
  destruct (datagram_delivered ["nodeA"; "nodeB"] (fun _ _ => true) closed_stack (fun _ s => s) 0 0
    (w_softun "nodeA") (w_softun "nodeB") ["nodeA"; "nodeB"] (fun _ _ => true) closed_stack (fun _ s => s) 0
    {| l_port := 9000; recvCh := []; l_closed := false |} 0 {| l_port := 9000; recvCh := []; l_closed := false |} [104; 105] 9000)
    as (pid & pkt & r & ta' & H1 & _ & _ & H2 & _ & H3);
    [apply plain_pktkit_laws|apply rfc_slirp_laws|vm_compute; congruence|set_solver|set_solver|done|done|done|cbn; lia|lia
    |bytes_lit|vm_compute; congruence|done|done|cbn; unfold recvCap; lia|].
  exists pid, pkt, r, ta'. split; [exact H1|]. split; [exact H2|]. eexists. exact H3.
Defined.

Definition w_syn : bytes :=
  wrapIPv4 (virt4 "nodeA") (virt4 "nodeB") protoTCP
    (be_bytes 2 40000 ++ be_bytes 2 80 ++ be_bytes 4 1000 ++ be_bytes 4 0 ++ [0x50; 2; 0xff; 0xff; 0; 0; 0; 0]).

Lemma refused_connections_witness :
  exists t', handleInboundTCP ["nodeA"; "nodeB"] (fun _ _ => true) closed_stack (fun _ s => s) 1 0 w_syn (w_softun "nodeB") =
    Some (true, t') /\ synPend t' !! {| sk_remote := virt4 "nodeA"; sk_remotePort := 40000; sk_localPort := 80 |} = None.
Proof.
  destruct (refused_connections ["nodeA"; "nodeB"] (fun _ _ => true) closed_stack (fun _ s => s) 0 0 w_syn (w_softun "nodeB")
    {| sk_remote := virt4 "nodeA"; sk_remotePort := 40000; sk_localPort := 80 |} tt []) as (t' & H1 & _ & H2 & _);
    [apply plain_vtcp_laws|vm_compute; reflexivity|vm_compute; reflexivity|apply Nat.leb_le; vm_compute; reflexivity
    |vm_compute; discriminate|vm_compute; reflexivity|reflexivity|done|vm_compute; reflexivity|].
  exists t'. split; [exact H1|exact H2].
Defined.

Lemma self_datagram_lost_witness :
  exists t', WriteTo ["nodeA"] (fun _ _ => true) closed_stack (fun _ s => s) 1 0 0 [1] (virt4 "nodeA") 9000 (w_softun "nodeA") =
    Some (Ok (zlen [1]), t') /\ listeners t' = listeners (w_softun "nodeA").
Proof.
  destruct (self_datagram_lost ["nodeA"] (fun _ _ => true) closed_stack (fun _ s => s) 0 0 (w_softun "nodeA") 0
    {| l_port := 9000; recvCh := []; l_closed := false |} [1] 9000 tt []) as (t' & H1 & H2 & _);
    [apply plain_pktkit_laws|apply rfc_slirp_laws|reflexivity|cbn; lia|lia|bytes_lit|vm_compute; congruence|reflexivity|reflexivity|].
  exists t'. split; [exact H1|exact H2].
Defined.

Lemma udp_table_ok_witness :
  let t0 := {| localPeerID := "n"; peerIPs := ∅; synPend := ∅; udpListeners := ∅; listeners := []; stack := tt; toPeer := [] |} in
  is_ok (ListenUDP 53 (CloseUDP 0 (udp_run [Bind 53; Bind 53] t0))) = true.
Proof.
  intros t0. refine (proj2 (proj2 (udp_table_ok [Bind 53; Bind 53] t0 eq_refl eq_refl)) 0%nat
    {| l_port := 53; recvCh := []; l_closed := false |} _ _); vm_compute; reflexivity.
Defined.
