(* ===== verification/LoPortMap.v ===== *)
(** * The loopback port map of the user-space device

    src/softun/softun_loportmap.go.  A listener of the virtual stack is an object that its
    table entry and its accept loop share; [net.DialTimeout] of the loopback port and
    [softTun.Listen] are outside the program: whether they succeed is an argument. *)

From S2P Require Import Prelude GoLib.

Definition lpmTTL : Z := 5 * minute.

Record lpmEntry := { ln : nat; lastTouched : Z }.
#[global] Instance lpmEntry_eq_dec : EqDecision lpmEntry. Proof. solve_decision. Defined.

(** A listener of the stack: its port and whether it was closed.  The accept loop of a
    listener ends when it is closed. *)
Record listener := { ln_port : Z; ln_closed : bool }.

Record portmap := {
  lpmEnabled : bool;
  lpmListeners : gmap Z lpmEntry;
  opened : list listener
}.

Definition no_map : portmap := {| lpmEnabled := false; lpmListeners := ∅; opened := [] |}.

Definition close_ln (l : listener) : listener := {| ln_port := ln_port l; ln_closed := true |}.

Section portmap.
Context `{MapRange}.

Definition EnableLoPortMap (m : portmap) : portmap :=
  {| lpmEnabled := true; lpmListeners := lpmListeners m; opened := opened m |}.

Definition close_all (l : list (Z * lpmEntry)) (o : list listener) : list listener :=
  foldl (fun o e => alter close_ln (ln e.2) o) o l.

Definition DisableLoPortMap (m : portmap) : portmap :=
  {| lpmEnabled := false; lpmListeners := ∅; opened := close_all (range_map 0 (lpmListeners m)) (opened m) |}.

Definition ensureLoPortMapPort (now port : Z) (probe listen : bool) (m : portmap) : bool * portmap :=
  if negb (lpmEnabled m) then (false, m)
  else match lpmListeners m !! port with
       | Some e => (true, {| lpmEnabled := true; lpmListeners := <[port := {| ln := ln e; lastTouched := now |}]> (lpmListeners m);
                             opened := opened m |})
       | None =>
           if negb probe then (false, m)
           else if negb listen then (false, m)
           else (true, {| lpmEnabled := true;
                          lpmListeners := <[port := {| ln := length (opened m); lastTouched := now |}]> (lpmListeners m);
                          opened := opened m ++ [{| ln_port := port; ln_closed := false |}] |})
       end.

Definition idle (now : Z) (e : lpmEntry) : bool := negb (time_sub now (lastTouched e) <=? lpmTTL).

Definition reapLoPortMap (now : Z) (m : portmap) : portmap :=
  let l := range_map 1 (lpmListeners m) in
  {| lpmEnabled := lpmEnabled m; lpmListeners := sweep (idle now) (lpmListeners m) l;
     opened := close_all (filter (fun e => idle now e.2 = true) l) (opened m) |}.

Inductive op :=
  | Enable | Disable
  | Ensure (now port : Z) (probe listen : bool)
  | Reap (now : Z).

Definition step (m : portmap) (o : op) : portmap :=
  match o with
  | Enable => EnableLoPortMap m
  | Disable => DisableLoPortMap m
  | Ensure now port probe listen => (ensureLoPortMapPort now port probe listen m).2
  | Reap now => reapLoPortMap now m
  end.
Definition run (l : list op) (m : portmap) : portmap := foldl step m l.

(** The table names the open listeners, each under its port and once, and there are none
    when the map is disabled. *)
Record ok (m : portmap) : Prop := {
  ok_table : forall port e, lpmListeners m !! port = Some e -> opened m !! ln e = Some {| ln_port := port; ln_closed := false |};
  ok_open : forall i l, opened m !! i = Some l -> ln_closed l = false ->
    exists e, lpmListeners m !! ln_port l = Some e /\ ln e = i;
  ok_disabled : lpmEnabled m = false -> lpmListeners m = ∅
}.

Lemma close_all_lookup l (o : list listener) (i : nat) :
  close_all l o !! i = (fun x => if existsb (fun e => bool_decide (ln e.2 = i)) l then close_ln x else x) <$> o !! i.
Proof.
  unfold close_all. revert o. induction l as [|[p e] l IH]; intros o; cbn [foldl existsb snd].
  - by destruct (o !! i).
  - rewrite IH. destruct (decide (ln e = i)) as [->|Hne].
    + rewrite bool_decide_true by done. cbn [orb]. rewrite list_lookup_alter_eq.
      destruct (o !! i) as [x|]; [|done]. cbn. by destruct (existsb _ l).
    + rewrite (bool_decide_false (ln e = i)) by done. cbn [orb]. by rewrite list_lookup_alter_ne.
Qed.

(** A listener of the table is closed when its entry is among those visited. *)
Lemma close_listed m l port e :
  ok m -> (forall p e', (p, e') ∈ l -> lpmListeners m !! p = Some e') -> lpmListeners m !! port = Some e ->
  existsb (fun e' => bool_decide (ln e'.2 = ln e)) l = bool_decide ((port, e) ∈ l).
Proof.
  intros Hok Hl Hp. destruct (existsb _ l) eqn:E; case_bool_decide as Hin; [done| | |done].
  - apply existsb_exists in E as ([p' e'] & Hin' & Eq). apply bool_decide_eq_true in Eq. cbn in Eq.
    apply list_elem_of_In in Hin'. pose proof (ok_table _ Hok _ _ (Hl _ _ Hin')) as T1.
    pose proof (ok_table _ Hok _ _ Hp) as T2. rewrite Eq, T2 in T1. simplify_eq.
    rewrite (Hl _ _ Hin') in Hp. by simplify_eq.
  - exfalso. apply not_true_iff_false in E. apply E, existsb_exists. exists (port, e).
    split; [by apply list_elem_of_In|]. by apply bool_decide_true.
Qed.

(** Closing the listeners of the entries that leave the table. *)
Lemma ok_close m (c : lpmEntry -> bool) l tbl en :
  ok m -> (forall p e, (p, e) ∈ l <-> lpmListeners m !! p = Some e /\ c e = true) ->
  (forall p, tbl !! p = match lpmListeners m !! p with Some e => if c e then None else Some e | None => None end) ->
  (en = false -> tbl = ∅) ->
  ok {| lpmEnabled := en; lpmListeners := tbl; opened := close_all l (opened m) |}.
Proof.
  intros Hok Hl Htbl Hen.
  assert (forall p e, (p, e) ∈ l -> lpmListeners m !! p = Some e) as Hl' by (intros p e Hin; by apply Hl).
  split; cbn; [| |exact Hen].
  - intros port e He. rewrite Htbl in He. destruct (lpmListeners m !! port) as [e'|] eqn:Ep; [|done].
    destruct (c e') eqn:Ec; [done|]. simplify_eq. rewrite close_all_lookup, (ok_table _ Hok _ _ Ep). cbn.
    rewrite (close_listed m l port e Hok Hl' Ep), bool_decide_false; [done|]. intros [_ Hc]%Hl. congruence.
  - intros i x Hi Hc. rewrite close_all_lookup in Hi. apply fmap_Some in Hi as (y & Hy & ->).
    destruct (existsb _ l) eqn:Ex; [done|]. destruct (ok_open _ Hok i y Hy Hc) as (e & He & <-).
    exists e. split; [|done]. rewrite Htbl, He. rewrite (close_listed m l _ e Hok Hl' He) in Ex.
    apply bool_decide_eq_false in Ex. destruct (c e) eqn:Ec; [|done]. exfalso. by apply Ex, Hl.
Qed.

Lemma ok_step m o : ok m -> ok (step m o).
Proof.
  intros Hok. pose proof Hok as [T O D]. destruct o as [| |now port probe listen|now]; cbn [step].
  - by split.
  - apply (ok_close m (fun _ => true)); [done| | |done].
    + intros p e. rewrite elem_of_range. tauto.
    + intros p. rewrite lookup_empty. by case_match.
  - unfold ensureLoPortMapPort. destruct (lpmEnabled m) eqn:Een; cbn [negb]; [|done].
    destruct (lpmListeners m !! port) as [e|] eqn:Ep.
    + split; cbn; [| |done].
      * intros p e' He. apply lookup_insert_Some in He as [[<- <-]|[_ He]]; cbn [ln]; by apply T.
      * intros i l Hi Hc. destruct (O i l Hi Hc) as (e' & He & Ei). destruct (decide (ln_port l = port)) as [Hp|Hne].
        -- eexists. rewrite Hp, lookup_insert_eq. rewrite Hp, Ep in He. split; [done|]. cbn. congruence.
        -- exists e'. by rewrite lookup_insert_ne.
    + destruct probe; cbn [negb]; [|done]. destruct listen; cbn [negb]; [|done]. split; cbn; [| |done].
      * intros p e' He. apply lookup_insert_Some in He as [[<- <-]|[_ He]]; [by apply list_lookup_middle|].
        apply lookup_app_l_Some. by apply T.
      * intros i l Hi Hc. apply lookup_app_Some in Hi as [Hi|[Hj Hi]].
        -- destruct (O i l Hi Hc) as (e' & He & Ei). exists e'. split; [|done].
           rewrite lookup_insert_ne; [done|]. congruence.
        -- apply list_lookup_singleton_Some in Hi as [Hi' <-]. cbn. eexists. rewrite lookup_insert_eq.
           split; [done|]. cbn. lia.
  - apply (ok_close m (idle now)); [done| |apply sweep_range_lookup|].
    + intros p e. rewrite list_elem_of_filter, elem_of_range. tauto.
    + intros E. apply D in E. apply map_eq. intros p. by rewrite sweep_range_lookup, E, lookup_empty.
Qed.

(** Whatever is enabled, disabled, asked for and swept: the open listeners are exactly
    those of the table, one per port, and there is none while the map is disabled.  A port
    is served when it has a listener or its loopback service answers a probe and the port
    is free; a listener that exists serves without a new probe, so requests alone keep the
    listener of a service that has gone.  A sweep drops the listeners untouched for more
    than five minutes and no other. *)
Theorem loportmap_ok l :
  let m := run l no_map in
  ok m /\
  (forall now port probe listen,
     (ensureLoPortMapPort now port probe listen m).1 =
       lpmEnabled m && (bool_decide (is_Some (lpmListeners m !! port)) || probe && listen) /\
     ((ensureLoPortMapPort now port probe listen m).1 = true ->
        exists e, lpmListeners (ensureLoPortMapPort now port probe listen m).2 !! port = Some e /\ lastTouched e = now)) /\
  (forall now port, lpmListeners (reapLoPortMap now m) !! port =
     match lpmListeners m !! port with
     | Some e => if lpmTTL <? time_sub now (lastTouched e) then None else Some e
     | None => None
     end).
Proof.
  intros m. assert (ok m) as Hok.
  { unfold m, run. assert (ok no_map) as H0 by (by split). revert H0. generalize no_map.
    induction l as [|o l IH]; intros m0 H0; [done|]. by apply IH, ok_step. }
  split; [done|]. split.
  - intros now port probe listen. unfold ensureLoPortMapPort.
    destruct (lpmEnabled m); cbn [negb andb]; [|done].
    destruct (lpmListeners m !! port) as [e|] eqn:E.
    + rewrite bool_decide_true by eauto. split; [done|]. intros _. eexists. cbn. by rewrite lookup_insert_eq.
    + rewrite bool_decide_false by (intros [? ?]; done). cbn [orb].
      destruct probe, listen; cbn; (split; [done|]); try done. intros _. eexists. by rewrite lookup_insert_eq.
  - intros now port. cbn. rewrite sweep_range_lookup. destruct (lpmListeners m !! port) as [e|]; [|done].
    unfold idle. rewrite <- Z.ltb_antisym. done.
Qed.
End portmap.
