(* ===== verification/Turn.v ===== *)
(** * A TURN server and the goroutines that keep it

    src/p2put/turnpool.go: [runLoop] connects, watches and reconnects a server;
    [acceptProc] accepts connections on its allocation and, when the server resets it,
    allocates again ([reallocate]).  The two run at once and share the [turnServer]: their
    code is cut into steps where it blocks and where what another goroutine does in
    between matters, and the steps of all goroutines interleave.  What the TURN client (pion) and the network answer is the
    [outcome] of a step, and arbitrary.  A goroutine reads its channels when it is started.
    Connections, clients and allocations are numbered, and so are channels; [live] are the
    ones not closed yet.  Permissions, statistics and accepted connections are left out. *)

From S2P Require Import Prelude GoLib.

Inductive TurnState :=
  | TurnDisconnected | TurnConnecting | TurnAuthenticating | TurnAllocating | TurnAlive | TurnReconnecting.

#[global] Instance TurnState_eq_dec : EqDecision TurnState.
Proof. solve_decision. Defined.

Record turnServer := {
  state : TurnState;
  client : option nat; conn : option nat;
  alloc : option nat; relayAddr : option nat;   (* an address is that of its allocation *)
  stunFailCount : Z; portFailCount : Z;
  peer : option nat;                            (* a [TurnPeer] is its stop channel *)
  stopCh : bool;                                (* closed *)
  acceptStopCh : nat; reconnectNow : nat;
  (* the heap *)
  fresh : nat;
  live : gset nat;
  livePeers : gset nat;
  closedCh : gset nat
}.

(** [newTurnServer] *)
Definition newTurnServer : turnServer :=
  {| state := TurnDisconnected; client := None; conn := None; alloc := None; relayAddr := None;
     stunFailCount := 0; portFailCount := 0; peer := None; stopCh := false; acceptStopCh := 0; reconnectNow := 1;
     fresh := 2; live := ∅; livePeers := ∅; closedCh := ∅ |}.

(** ** Accesses *)
Definition setState (st : TurnState) (t : turnServer) : turnServer :=
  {| state := st; client := client t; conn := conn t; alloc := alloc t; relayAddr := relayAddr t;
     stunFailCount := stunFailCount t; portFailCount := portFailCount t; peer := peer t; stopCh := stopCh t;
     acceptStopCh := acceptStopCh t; reconnectNow := reconnectNow t;
     fresh := fresh t; live := live t; livePeers := livePeers t; closedCh := closedCh t |}.
(** The fields under [resourceMu]; an allocation goes with its address. *)
Definition set_resources (cl cn al : option nat) (t : turnServer) : turnServer :=
  {| state := state t; client := cl; conn := cn; alloc := al; relayAddr := al;
     stunFailCount := stunFailCount t; portFailCount := portFailCount t; peer := peer t; stopCh := stopCh t;
     acceptStopCh := acceptStopCh t; reconnectNow := reconnectNow t;
     fresh := fresh t; live := live t; livePeers := livePeers t; closedCh := closedCh t |}.
Definition set_fails (n m : Z) (t : turnServer) : turnServer :=
  {| state := state t; client := client t; conn := conn t; alloc := alloc t; relayAddr := relayAddr t;
     stunFailCount := n; portFailCount := m; peer := peer t; stopCh := stopCh t;
     acceptStopCh := acceptStopCh t; reconnectNow := reconnectNow t;
     fresh := fresh t; live := live t; livePeers := livePeers t; closedCh := closedCh t |}.
Definition set_peer (p : option nat) (lp : gset nat) (t : turnServer) : turnServer :=
  {| state := state t; client := client t; conn := conn t; alloc := alloc t; relayAddr := relayAddr t;
     stunFailCount := stunFailCount t; portFailCount := portFailCount t; peer := p; stopCh := stopCh t;
     acceptStopCh := acceptStopCh t; reconnectNow := reconnectNow t;
     fresh := fresh t; live := live t; livePeers := lp; closedCh := closedCh t |}.
Definition set_channels (a r : nat) (t : turnServer) : turnServer :=
  {| state := state t; client := client t; conn := conn t; alloc := alloc t; relayAddr := relayAddr t;
     stunFailCount := stunFailCount t; portFailCount := portFailCount t; peer := peer t; stopCh := stopCh t;
     acceptStopCh := a; reconnectNow := r;
     fresh := fresh t; live := live t; livePeers := livePeers t; closedCh := closedCh t |}.
Definition set_heap (n : nat) (l ch : gset nat) (t : turnServer) : turnServer :=
  {| state := state t; client := client t; conn := conn t; alloc := alloc t; relayAddr := relayAddr t;
     stunFailCount := stunFailCount t; portFailCount := portFailCount t; peer := peer t; stopCh := stopCh t;
     acceptStopCh := acceptStopCh t; reconnectNow := reconnectNow t;
     fresh := n; live := l; livePeers := livePeers t; closedCh := ch |}.
Definition set_stop (t : turnServer) : turnServer :=
  {| state := state t; client := client t; conn := conn t; alloc := alloc t; relayAddr := relayAddr t;
     stunFailCount := stunFailCount t; portFailCount := portFailCount t; peer := peer t; stopCh := true;
     acceptStopCh := acceptStopCh t; reconnectNow := reconnectNow t;
     fresh := fresh t; live := live t; livePeers := livePeers t; closedCh := closedCh t |}.

(** A connection, a client or an allocation is opened: it is the number [fresh t]. *)
Definition open (t : turnServer) : turnServer := set_heap (S (fresh t)) ({[ fresh t ]} ∪ live t) (closedCh t) t.
Definition close (l : gset nat) (t : turnServer) : turnServer := set_heap (fresh t) (live t ∖ l) (closedCh t) t.
Definition ids (o : option nat) : gset nat := match o with Some i => {[ i ]} | None => ∅ end.

(** [close] of a channel, which panics on a closed one. *)
Definition close_ch (c : nat) (t : turnServer) : res turnServer :=
  if bool_decide (c ∈ closedCh t) then Panic else Ok (set_heap (fresh t) (live t) ({[ c ]} ∪ closedCh t) t).
Definition is_closed (c : nat) (t : turnServer) : bool := bool_decide (c ∈ closedCh t).

(** [ts.peer.Stop], and a new peer that is started. *)
Definition stopPeer (t : turnServer) : res turnServer :=
  match peer t with
  | None => Ok t
  | Some p => let! t := close_ch p t in Ok (set_peer (peer t) (livePeers t ∖ {[ p ]}) t)
  end.
Definition startPeer (t : turnServer) : turnServer :=
  set_heap (S (fresh t)) (live t) (closedCh t) (set_peer (Some (fresh t)) ({[ fresh t ]} ∪ livePeers t) t).

(** ** The goroutines *)

(** Why [shutdown] is called: the state is not [TurnAlive], a stop, a reconnection. *)
Inductive why := WTop | WStop | WReconnect.

(** Where [runLoop] is.  [b] is the backoff of [connectWithBackoff], [None] in the first
    [connect]; the numbers are the local variables conn, c and alloc of [connect]. *)
Inductive rpc :=
  | RStart (b : option Z)                 (* at the start of [connect] *)
  | RDial (b : option Z)                  (* waiting for the dial *)
  | RClient (b : option Z) (cn : nat)     (* creating the client *)
  | RAlloc (b : option Z) (cn cl : nat)   (* in [AllocateTCP] *)
  | RAlive (b : option Z) (cn cl al : nat)
  | RBind (b : option Z) (cn cl al : nat) (* in [SendBindingRequest] *)
  | RUndo (b : option Z) (cn cl al : nat) (* it failed *)
  | RPeer (b : option Z)                  (* before [NewTurnPeer] *)
  | RAfter (b : option Z)                 (* [connect] has returned *)
  | RWait (backoff : Z)
  | RTop                                  (* at the head of the loop *)
  | RDown1 (w : why) | RDownP (w : why) | RDown2 (w : why) | RDown3 (w : why) | RDown4 (w : why)   (* in [shutdown] *)
  | RCheck                                (* before the test of [stopCh] *)
  | RSelect
  | RTick                                 (* in [stunCtrlKeepMappedPort] *)
  | REnd.

(** Where an [acceptProc] is; [stop] and [rec] are its channels. *)
Inductive apc :=
  | AAccept (stop rec : nat)              (* at the head of its loop *)
  | ABlocked (stop rec : nat)             (* in [AcceptTCP] *)
  | AFatal (rec : nat)                    (* about to close [rec] *)
  | ARealloc                              (* [reallocate]: about to take the client *)
  | AAllocating (rc cl : nat)             (* about to set [TurnAllocating] *)
  | AAllocate (rc cl : nat)               (* in [AllocateTCP] *)
  | ANoAlloc (rc : nat)                   (* it failed: about to drop the old one *)
  | ASignal (rc : nat)                    (* about to ask for a reconnection *)
  | AStopOld (al : nat)                   (* about to test [acceptStopCh] *)
  | AStopOld2 (al : nat)                  (* about to close it *)
  | ANew (al : nat)                       (* about to replace it *)
  | AStore (al : nat)
  | ABind                                 (* in [SendBindingRequest] *)
  | APeer                                 (* about to stop the peer *)
  | ANewPeer
  | ALocal                                (* about to read the local address again *)
  | AAlive
  | AEnd.

(** [orphans]: the connections of a dial that ended after [connect] had returned. *)
Record sys := { ts : turnServer; pc : rpc; procs : list apc; orphans : gset nat }.

(** [start] of a new server. *)
Definition start : sys := {| ts := newTurnServer; pc := RStart None; procs := []; orphans := ∅ |}.

Inductive outcome :=
  | Good | Bad                 (* success, failure *)
  | StopSeen | StopOrphan      (* [stopCh] is taken; [StopOrphan]: and the dial succeeds later *)
  | Reconnect | Tick           (* the other cases of the [select] of [runLoop] *)
  | Timeout | Fatal | ConnReset.   (* of [AcceptTCP] *)

#[global] Instance outcome_eq_dec : EqDecision outcome.
Proof. solve_decision. Defined.

Definition goto (p : rpc) (t : turnServer) (s : sys) : res sys :=
  Ok {| ts := t; pc := p; procs := procs s; orphans := orphans s |}.

Definition maxBackoff : Z := 60 * second.

(** The steps of [runLoop], by the function it is in: [connect], *)
Definition connect (o : outcome) (s : sys) : res sys :=
  let t := ts s in
  match pc s with
  | RStart b =>
      let a := fresh t in
      goto (RDial b) (setState TurnConnecting (set_channels a (S a) (set_heap (S (S a)) (live t) (closedCh t) t))) s
  | RDial b =>
      match o with
      | StopSeen => if stopCh t then goto (RAfter b) t s else Ok s
      | StopOrphan => if stopCh t then
            Ok {| ts := set_heap (S (fresh t)) (live t) (closedCh t) t; pc := RAfter b; procs := procs s;
                  orphans := {[ fresh t ]} ∪ orphans s |} else Ok s
      | Good => goto (RClient b (fresh t)) (setState TurnAuthenticating (open t)) s
      | _ => goto (RAfter b) (setState TurnDisconnected t) s
      end
  | RClient b cn =>
      match o with
      | Good => goto (RAlloc b cn (fresh t)) (setState TurnAllocating (open t)) s
      | _ => goto (RAfter b) (close {[ cn ]} (setState TurnDisconnected t)) s
      end
  | RAlloc b cn cl =>
      match o with
      | Good =>
          let al := fresh t in
          let t := set_fails 0 0 (set_resources (Some cl) (Some cn) (Some al) (open t)) in
          Ok {| ts := t; pc := RAlive b cn cl al; procs := procs s ++ [AAccept (acceptStopCh t) (reconnectNow t)];
                orphans := orphans s |}
      | _ => goto (RAfter b) (close {[ cn; cl ]} (setState TurnDisconnected t)) s
      end
  | RAlive b cn cl al => goto (RBind b cn cl al) (setState TurnAlive t) s
  | RBind b cn cl al =>
      match o with
      | Good => goto (RPeer b) t s
      | _ => goto (RUndo b cn cl al) (setState TurnDisconnected t) s
      end
  | RUndo b cn cl al => goto (RAfter b) (set_resources None None None (close {[ cn; cl; al ]} t)) s
  | RPeer b => goto (RAfter b) (startPeer t) s
  | _ => Ok s
  end.

(** [connectWithBackoff] (and the first lines of [runLoop]) after [connect], *)
Definition connectWithBackoff (o : outcome) (s : sys) : res sys :=
  let t := ts s in
  match pc s with
  | RAfter None => goto RTop t s
  | RAfter (Some d) => goto (if bool_decide (state t = TurnAlive) then RTop else RWait d) t s
  | RWait d =>
      match o with
      | StopSeen => if stopCh t then goto RTop t s else Ok s
      | _ => goto (RStart (Some (if maxBackoff <? d * 2 then maxBackoff else d * 2))) t s
      end
  | _ => Ok s
  end.

Definition stunCtrlKeepMappedPort (o : outcome) (s : sys) : res sys :=
  let t := ts s in
  match pc s with
  | RTick =>
      match client t, o with
      | None, _ => Panic
      | Some _, Good => goto RTop (set_fails 0 (portFailCount t) t) s
      | Some _, _ =>
          let n := stunFailCount t + 1 in
          goto RTop ((if 2 <=? n then setState TurnDisconnected else id) (set_fails n (portFailCount t) t)) s
      end
  | _ => Ok s
  end.

Definition shutdown (s : sys) : res sys :=
  let t := ts s in
  match pc s with
  | RDown1 w =>
      let! t := stopPeer (setState TurnDisconnected t) in goto (RDownP w) t s
  | RDownP w => goto (RDown2 w) (set_peer None (livePeers t) t) s
  | RDown2 w => goto (if is_closed (acceptStopCh t) t then RDown4 w else RDown3 w) t s
  | RDown3 w => let! t := close_ch (acceptStopCh t) t in goto (RDown4 w) t s
  | RDown4 w =>
      goto (match w with WTop => RCheck | WStop => REnd | WReconnect => RTop end)
        (set_resources None None None (close (ids (alloc t) ∪ ids (client t) ∪ ids (conn t)) t)) s
  | _ => Ok s
  end.

(** and the loop itself. *)
Definition runLoop (o : outcome) (s : sys) : res sys :=
  let t := ts s in
  match pc s with
  | RTop => goto (if bool_decide (state t = TurnAlive) then RSelect else RDown1 WTop) t s
  | RSelect =>
      match o with
      | StopSeen => if stopCh t then goto (RDown1 WStop) t s else Ok s
      | Reconnect => if is_closed (reconnectNow t) t then goto (RDown1 WReconnect) t s else Ok s
      | Tick => goto RTick t s
      | _ => Ok s
      end
  | RCheck => goto (if stopCh t then REnd else RStart (Some second)) t s
  | _ => Ok s
  end.

Definition runStep (o : outcome) (s : sys) : res sys :=
  match pc s with
  | RStart _ | RDial _ | RClient _ _ | RAlloc _ _ _ | RAlive _ _ _ _ | RBind _ _ _ _ | RUndo _ _ _ _ | RPeer _ => connect o s
  | RAfter _ | RWait _ => connectWithBackoff o s
  | RTick => stunCtrlKeepMappedPort o s
  | RDown1 _ | RDownP _ | RDown2 _ | RDown3 _ | RDown4 _ => shutdown s
  | RTop | RCheck | RSelect => runLoop o s
  | REnd => Ok s
  end.

Definition set_proc (i : nat) (p : apc) (t : turnServer) (s : sys) : res sys :=
  Ok {| ts := t; pc := pc s; procs := <[i := p]> (procs s); orphans := orphans s |}.

(** The steps of the [acceptProc] number [i], which is at [p]: in the function itself, *)
Definition acceptProc (i : nat) (p : apc) (o : outcome) (s : sys) : res sys :=
  let t := ts s in
  match p with
  | AAccept stop rec =>
      if is_closed stop t then set_proc i AEnd t s
      else match alloc t with None => set_proc i AEnd t s | Some _ => set_proc i (ABlocked stop rec) t s end
  | ABlocked stop rec =>
      match o with
      | Good | Timeout => set_proc i (AAccept stop rec) t s
      | _ =>
          if is_closed stop t then set_proc i AEnd t s
          else match o with
               | Fatal => set_proc i (AFatal rec) (setState TurnDisconnected t) s
               | ConnReset => set_proc i ARealloc t s
               | _ => set_proc i (AAccept stop rec) t s
               end
      end
  | AFatal rec => let! t := close_ch rec t in set_proc i AEnd t s
  | _ => Ok s
  end.

(** and in [reallocate]. *)
Definition reallocate (i : nat) (p : apc) (o : outcome) (s : sys) : res sys :=
  let t := ts s in
  match p with
  | ARealloc =>
      match client t with
      | None => set_proc i AEnd t s
      | Some cl => set_proc i (AAllocating (reconnectNow t) cl) (close (ids (alloc t)) t) s
      end
  | AAllocating rc cl => set_proc i (AAllocate rc cl) (setState TurnAllocating t) s
  | AAllocate rc cl =>
      match o with
      | Good => set_proc i (AStopOld (fresh t)) (open t) s
      | _ => set_proc i (ANoAlloc rc) (setState TurnDisconnected t) s
      end
  | ANoAlloc rc => set_proc i (ASignal rc) (set_resources (client t) (conn t) None t) s
  | ASignal rc =>
      if is_closed (acceptStopCh t) t then set_proc i AEnd t s
      else let! t := close_ch rc t in set_proc i AEnd t s
  | AStopOld al => set_proc i (if is_closed (acceptStopCh t) t then ANew al else AStopOld2 al) t s
  | AStopOld2 al => let! t := close_ch (acceptStopCh t) t in set_proc i (ANew al) t s
  | ANew al =>
      set_proc i (AStore al) (set_channels (fresh t) (reconnectNow t) (set_heap (S (fresh t)) (live t) (closedCh t) t)) s
  | AStore al =>
      let t := set_fails 0 0 (set_resources (client t) (conn t) (Some al) t) in
      Ok {| ts := t; pc := pc s; procs := <[i := ABind]> (procs s) ++ [AAccept (acceptStopCh t) (reconnectNow t)];
            orphans := orphans s |}
  | ABind =>
      match o with
      | Good => match conn t with None => Panic | Some _ => set_proc i APeer t s end
      | _ => set_proc i AEnd (setState TurnDisconnected t) s
      end
  | APeer => let! t := stopPeer t in set_proc i ANewPeer t s
  | ANewPeer => set_proc i ALocal (startPeer t) s
  | ALocal => match conn t with None => Panic | Some _ => set_proc i AAlive t s end
  | AAlive => set_proc i AEnd (setState TurnAlive t) s
  | _ => Ok s
  end.

Definition procStep (i : nat) (o : outcome) (s : sys) : res sys :=
  match procs s !! i with
  | None | Some AEnd => Ok s
  | Some ((AAccept _ _ | ABlocked _ _ | AFatal _) as p) => acceptProc i p o s
  | Some p => reallocate i p o s
  end.

Inductive act := Stop | Run (o : outcome) | Proc (i : nat) (o : outcome).
#[global] Instance act_eq_dec : EqDecision act.
Proof. solve_decision. Defined.

Definition step (s : sys) (a : act) : res sys :=
  match a with
  | Stop => if stopCh (ts s) then Panic
            else Ok {| ts := set_stop (ts s); pc := pc s; procs := procs s; orphans := orphans s |}
  | Run o => runStep o s
  | Proc i o => procStep i o s
  end.

Fixpoint run (l : list act) (s : sys) : res sys :=
  match l with [] => Ok s | a :: l => let! s := step s a in run l s end.

(** ** Without [reallocate]

    [quiet]: no server resets an allocation.  [calm]: besides, no accept process fails for
    good while [runLoop] is in [connect] after it has stored the allocation. *)
Definition quiet (a : act) : bool := match a with Proc _ ConnReset => false | _ => true end.
Definition in_connect (p : rpc) : bool :=
  match p with RAlive _ _ _ _ | RBind _ _ _ _ | RUndo _ _ _ _ | RPeer _ | RAfter _ => true | _ => false end.
Definition calm (s : sys) (a : act) : bool :=
  quiet a && match a with Proc _ Fatal => negb (in_connect (pc s)) | _ => true end.

(** The channel an accept process may still close. *)
Definition rec_of (p : apc) : option nat :=
  match p with AAccept _ rec | ABlocked _ rec | AFatal rec => Some rec | _ => None end.
Definition accepting (p : apc) : bool :=
  match p with AAccept _ _ | ABlocked _ _ | AFatal _ | AEnd => true | _ => false end.

Definition full (t : turnServer) : bool :=
  match client t, conn t, alloc t with Some _, Some _, Some _ => true | _, _, _ => false end.

(** The channel [reconnectNow] has no process yet. *)
Definition new_rec (s : sys) : Prop :=
  let t := ts s in
  reconnectNow t ∉ closedCh t /\ reconnectNow t <> acceptStopCh t /\ peer t <> Some (reconnectNow t) /\
  forall (i : nat) p, procs s !! i = Some p -> rec_of p <> Some (reconnectNow t).

(** What [runLoop] relies on where it is. *)
Definition pc_ok (s : sys) : Prop :=
  let t := ts s in
  match pc s with
  | RDial _ | RClient _ _ | RAlloc _ _ _ => new_rec s /\ state t <> TurnAlive
  | RAlive _ _ _ _ | RBind _ _ _ _ | RSelect | RTick => full t = true
  | RPeer _ | RAfter _ | RTop => state t = TurnAlive -> full t = true
  | RUndo _ _ _ _ | RWait _ | RDownP _ | RDown2 _ | RDown4 _ => state t <> TurnAlive
  | RDown3 _ => state t <> TurnAlive /\ acceptStopCh t ∉ closedCh t
  | RDown1 _ | RCheck | REnd | RStart _ => True
  end.

Definition peer_stopped (p : rpc) : bool := match p with RDownP _ => true | _ => false end.

(** The processes accept, each has a channel of its own to close, nothing else closes
    that one, and what [runLoop] may close is open. *)
Record inv (s : sys) : Prop := {
  inv_accepting : forall (i : nat) p, procs s !! i = Some p -> accepting p = true;
  inv_recs : forall (i : nat) p rc, procs s !! i = Some p -> rec_of p = Some rc ->
    rc ∉ closedCh (ts s) /\ (rc < fresh (ts s))%nat /\ rc <> acceptStopCh (ts s) /\ peer (ts s) <> Some rc;
  inv_distinct : forall (i j : nat) p q rc, procs s !! i = Some p -> procs s !! j = Some q ->
    rec_of p = Some rc -> rec_of q = Some rc -> i = j;
  inv_peer : forall p, peer (ts s) = Some p ->
    (p < fresh (ts s))%nat /\ p <> acceptStopCh (ts s) /\ (peer_stopped (pc s) = false -> p ∉ closedCh (ts s));
  inv_fresh : (acceptStopCh (ts s) < fresh (ts s))%nat /\ (reconnectNow (ts s) < fresh (ts s))%nat /\
    forall c, c ∈ closedCh (ts s) -> (c < fresh (ts s))%nat;
  inv_pc : pc_ok s
}.

Lemma inv_start : inv start.
Proof. split; cbn; try done; [lia..|]. set_solver. Qed.

(** Steps that leave the channels and the processes alone. *)
Lemma inv_frame s s' :
  inv s -> procs s' = procs s -> closedCh (ts s') = closedCh (ts s) -> acceptStopCh (ts s') = acceptStopCh (ts s) ->
  reconnectNow (ts s') = reconnectNow (ts s) -> peer (ts s') = peer (ts s) -> (fresh (ts s) <= fresh (ts s'))%nat ->
  peer_stopped (pc s) = false -> pc_ok s' -> inv s'.
Proof.
  intros [I1 I2 I3 I4 I5 I6] E1 E2 E3 E4 E5 Hf Hp Hpc. split; rewrite ?E1, ?E2, ?E3, ?E4, ?E5; try done.
  - intros i p rc Hi Hr. destruct (I2 i p rc Hi Hr) as (? & ? & ? & ?). split_and!; try done. lia.
  - intros p Hpr. destruct (I4 p Hpr) as (? & ? & ?). split_and!; [lia|done|auto].
  - destruct I5 as (? & ? & ?). split_and!; [lia..|]. intros c Hc. specialize (H1 c Hc). lia.
Qed.

(** Steps of a process that leave the channels alone. *)
Lemma inv_proc s i p p' t :
  inv s -> procs s !! i = Some p -> accepting p' = true -> (rec_of p' = None \/ rec_of p' = rec_of p) ->
  t = ts s \/ t = setState TurnDisconnected (ts s) ->
  inv {| ts := t; pc := pc s; procs := <[i := p']> (procs s); orphans := orphans s |}.
Proof.
  intros [I1 I2 I3 I4 I5 I6] Hi Ha Hr Ht.
  assert (forall j q, <[i := p']> (procs s) !! j = Some q -> exists q0, procs s !! j = Some q0 /\
    (rec_of q = None \/ rec_of q = rec_of q0) /\ accepting q = true) as Hold.
  { intros j q Hq. apply list_lookup_insert_Some in Hq as [(<- & <- & _)|(_ & Hq)]; [by exists p|].
    exists q. split; [done|]. split; [by right|eauto]. }
  assert (pc_ok {| ts := t; pc := pc s; procs := <[i := p']> (procs s); orphans := orphans s |}) as Hpc.
  { assert (new_rec s -> new_rec {| ts := t; pc := pc s; procs := <[i := p']> (procs s); orphans := orphans s |}) as Hnew.
    { intros (N1 & N2 & N3 & N4). destruct Ht as [-> | ->]; (split_and!; [exact N1|exact N2|exact N3|]);
        intros j q Hq; destruct (Hold j q Hq) as (q0 & Hq0 & [Hr0|Hr0] & _); rewrite Hr0; [done|by eapply N4|done|by eapply N4]. }
    unfold pc_ok in *. cbn [pc ts]. destruct (pc s); cbn beta iota in *;
      destruct Ht as [-> | ->]; first [exact I6 | done | by intros [=] | (split; [by apply Hnew, I6|]) | (split; [|by apply I6])];
      first [by apply I6 | done]. }
  assert (closedCh t = closedCh (ts s) /\ fresh t = fresh (ts s) /\ acceptStopCh t = acceptStopCh (ts s) /\
    reconnectNow t = reconnectNow (ts s) /\ peer t = peer (ts s)) as (E1 & E2 & E3 & E4 & E5)
    by (destruct Ht as [-> | ->]; done).
  split; cbn [ts procs pc orphans]; rewrite ?E1, ?E2, ?E3, ?E4, ?E5; try done.
  - intros j q Hq. destruct (Hold j q Hq) as (? & _ & _ & ?). done.
  - intros j q rc Hq Hrc. destruct (Hold j q Hq) as (q0 & Hq0 & [Hr0|Hr0] & _); [congruence|]. apply (I2 j q0); congruence.
  - intros j k q r rc Hq Hk Hrq Hrk. destruct (Hold j q Hq) as (q0 & Hq0 & [Hr0|Hr0] & _); [congruence|].
    destruct (Hold k r Hk) as (r0 & Hr1 & [Hr2|Hr2] & _); [congruence|]. apply (I3 j k q0 r0 rc); congruence.
Qed.

Ltac frame I Ep :=
  eexists; split; [reflexivity|];
  apply (inv_frame _ _ I); cbn [ts pc procs]; rewrite ?Ep; try done; try (cbn; lia); try (unfold pc_ok; cbn; by intros [=]);
  try (unfold pc_ok; cbn; intros; congruence).

(** A channel that only this step closes is closed. *)
Lemma inv_closed s c pc' t :
  inv s -> (c < fresh (ts s))%nat ->
  closedCh t = {[ c ]} ∪ closedCh (ts s) -> fresh t = fresh (ts s) -> acceptStopCh t = acceptStopCh (ts s) ->
  reconnectNow t = reconnectNow (ts s) -> peer t = peer (ts s) ->
  (forall (i : nat) p, procs s !! i = Some p -> rec_of p <> Some c) ->
  (forall p, peer (ts s) = Some p -> peer_stopped pc' = false -> p <> c /\ peer_stopped (pc s) = false) ->
  pc_ok {| ts := t; pc := pc'; procs := procs s; orphans := orphans s |} ->
  inv {| ts := t; pc := pc'; procs := procs s; orphans := orphans s |}.
Proof.
  intros [I1 I2 I3 I4 I5 I6] Hc E1 E2 E3 E4 E5 Hr Hp Hpc.
  split; cbn [ts pc procs]; rewrite ?E1, ?E2, ?E3, ?E4, ?E5; try done.
  - intros i p rc Hi Hrc. destruct (I2 i p rc Hi Hrc) as (? & ? & ? & ?). split_and!; try done.
    pose proof (Hr i p Hi). assert (rc <> c) by congruence. set_solver.
  - intros p E. destruct (I4 p E) as (? & ? & Hcl). split_and!; try done.
    intros Hst. destruct (Hp p E Hst) as [? Hst0]. specialize (Hcl Hst0). set_solver.
  - destruct I5 as (? & ? & Hcl). split_and!; try done. intros c' [->%elem_of_singleton|]%elem_of_union; eauto.
Qed.

Lemma runStep_inv o s : inv s -> exists s', runStep o s = Ok s' /\ inv s'.
Proof.
  intros I. pose proof (inv_pc _ I) as P. pose proof I as [I1 I2 I3 I4 I5 I6]. unfold pc_ok in P. unfold runStep, connect, connectWithBackoff, stunCtrlKeepMappedPort, shutdown, runLoop, goto.
  destruct (pc s) as [b|b|b cn|b cn cl|b cn cl al|b cn cl al|b cn cl al|b|b|d| |w|w|w|w|w| | | |] eqn:Ep; cbn beta iota in P.
  - (* RStart *)
    eexists; split; [reflexivity|]. split; cbn; try done.
    + intros i p rc Hi Hr. destruct (I2 i p rc Hi Hr) as (? & ? & ? & ?). split_and!; try done; lia.
    + intros p E. destruct (I4 p E) as (? & ? & Hcl). split_and!; [lia..|done].
    + destruct I5 as (? & ? & Hcl). split_and!; [lia..|]. intros c Hc. specialize (Hcl c Hc). lia.
    + split; [|done]. destruct I5 as (? & ? & Hcl). split_and!; cbn.
      * intros Hc. specialize (Hcl _ Hc). lia.
      * lia.
      * intros E. destruct (I4 _ E). lia.
      * intros i p Hi Hr. destruct (I2 i p _ Hi Hr) as (_ & ? & _). lia.
  - (* RDial *)
    destruct P as [N HA]. destruct o; try (frame I Ep; fail);
      (destruct (stopCh (ts s)); [frame I Ep|eexists; split; [reflexivity|done]]).
  - (* RClient *)
    destruct P as [N HA]. destruct o; frame I Ep.
  - (* RAlloc *)
    destruct P as [(N1 & N2 & N3 & N4) HA]. destruct o; try (frame I Ep; fail).
    eexists; split; [reflexivity|]. destruct I5 as (F1 & F2 & F3). split; cbn; try done.
    + intros i p Hi. apply lookup_app_Some in Hi as [Hi|[_ Hi]]; [eauto|].
      apply list_lookup_singleton_Some in Hi as [_ <-]. done.
    + intros i p rc Hi Hr. apply lookup_app_Some in Hi as [Hi|[_ Hi]].
      * destruct (I2 i p rc Hi Hr) as (? & ? & ? & ?). split_and!; try done; lia.
      * apply list_lookup_singleton_Some in Hi as [_ <-]. cbn in Hr. simplify_eq. split_and!; try done; lia.
    + intros i j p q rc Hi Hj Hp Hq. apply lookup_app_Some in Hi as [Hi|[Hil Hi]], Hj as [|[Hjl Hj]].
      * eauto.
      * apply list_lookup_singleton_Some in Hj as [_ <-]. cbn in Hq. simplify_eq. by destruct (N4 i p Hi).
      * apply list_lookup_singleton_Some in Hi as [_ <-]. cbn in Hp. simplify_eq. by destruct (N4 j q H).
      * apply list_lookup_singleton_Some in Hi as [? _], Hj as [? _]. lia.
    + intros p E. destruct (I4 p E) as (? & ? & Hcl). split_and!; [lia|done|done].
    + split_and!; [lia..|]. intros c Hc. specialize (F3 c Hc). lia.
  - frame I Ep.
  - (* RBind *) destruct o; frame I Ep.
  - frame I Ep.
  - (* RPeer *)
    eexists; split; [reflexivity|]. destruct I5 as (F1 & F2 & F3). split; cbn; try done.
    + intros i p rc Hi Hr. destruct (I2 i p rc Hi Hr) as (? & ? & ? & ?). split_and!; try done; [lia|].
      intros [= E]. lia.
    + intros p [= <-]. split_and!; [lia..|]. intros _ Hc. specialize (F3 _ Hc). lia.
    + split_and!; [lia..|]. intros c Hc. specialize (F3 c Hc). lia.
  - (* RAfter *)
    destruct b as [d|]; [|frame I Ep]. case_bool_decide as Ha; frame I Ep.
  - (* RWait *)
    destruct o; try (frame I Ep; fail).
    destruct (stopCh (ts s)); [frame I Ep|eexists; split; [reflexivity|done]].
  - (* RTop *) case_bool_decide as Ha; frame I Ep. by apply P.
  - (* RDown1 *)
    unfold stopPeer. cbn [peer setState]. destruct (peer (ts s)) as [p|] eqn:Epr; cbn [rbind].
    + destruct (inv_peer _ I p Epr) as (Hf & Ha & Hcl). rewrite Ep in Hcl. specialize (Hcl eq_refl). unfold close_ch. cbn [closedCh setState].
      rewrite bool_decide_false by done. cbn [rbind]. eexists; split; [reflexivity|].
      apply (inv_closed s p); try done.
      intros i q Hi Hr. by destruct (inv_recs _ I i q _ Hi Hr) as (_ & _ & _ & ?).
    + frame I Ep.
  - (* RDownP *)
    eexists; split; [reflexivity|]. split; cbn; try done.
    intros i p rc Hi Hr. by destruct (I2 i p rc Hi Hr) as (? & ? & ? & ?).
  - (* RDown2 *)
    unfold is_closed. case_bool_decide as Ha; frame I Ep.
  - (* RDown3 *)
    destruct P as [HA Hcl]. unfold close_ch. rewrite bool_decide_false by done. cbn [rbind].
    eexists; split; [reflexivity|]. apply (inv_closed s (acceptStopCh (ts s))); try done; [exact (proj1 I5)| |].
    + intros i q Hi Hr. by destruct (I2 i q _ Hi Hr) as (_ & _ & ? & _).
    + intros p Hp _. rewrite Ep. split; [|done]. by apply I4.
  - (* RDown4 *) destruct w; frame I Ep.
  - (* RCheck *) destruct (stopCh (ts s)); frame I Ep.
  - (* RSelect *)
    destruct o; try (eexists; split; [reflexivity|done]);
      repeat case_match; try (eexists; split; [reflexivity|done]); frame I Ep.
  - (* RTick *)
    destruct (client (ts s)) as [cl|] eqn:Ecl; [|by unfold full in P; rewrite Ecl in P].
    destruct o; try (frame I Ep; fail); destruct (2 <=? _); frame I Ep.
  - by exists s.
Qed.

Lemma procStep_inv i o s : inv s -> o <> ConnReset -> exists s', procStep i o s = Ok s' /\ inv s'.
Proof.
  intros I Ho. unfold procStep, acceptProc, reallocate, set_proc. destruct (procs s !! i) as [p|] eqn:Ei; [|eauto].
  pose proof (inv_accepting _ I i p Ei) as Hacc.
  destruct p as [stop rec|stop rec|rec| | | | | | | | | | | | | | |]; try done; [| | |eauto].
  - repeat case_match; (eexists; split; [reflexivity|]; eapply (inv_proc s i); eauto).
  - destruct o; try done;
      repeat case_match; (eexists; split; [reflexivity|]; eapply (inv_proc s i); eauto).
  - destruct (inv_recs _ I i _ rec Ei eq_refl) as (Hc & Hf & Ha & Hp).
    unfold close_ch. rewrite bool_decide_false by done. cbn [rbind]. eexists; split; [reflexivity|].
    pose proof (inv_proc s i _ AEnd (ts s) I Ei eq_refl (or_introl eq_refl) (or_introl eq_refl)) as I'.
    refine (inv_closed {| ts := ts s; pc := pc s; procs := <[i := AEnd]> (procs s); orphans := orphans s |}
      rec (pc s) _ I' Hf _ _ _ _ _ _ _ _); try reflexivity; cbn [procs ts pc orphans].
    + intros j q Hq Hr. apply list_lookup_insert_Some in Hq as [(_ & <- & _)|(Hne & Hq)]; [done|].
      by apply Hne, (inv_distinct _ I i j _ q rec Ei Hq).
    + intros q Hq Hst. split; [congruence|done].
    + pose proof (inv_pc _ I') as P. unfold pc_ok, new_rec in *. cbn [procs ts pc] in *.
      assert (forall c, c <> rec -> c ∉ closedCh (ts s) -> c ∉ {[ rec ]} ∪ closedCh (ts s)) as Hu by set_solver.
      destruct (pc s) eqn:Epc; try exact P; [| | |split; [apply P|by apply Hu, P]];
        (destruct P as [(N1 & N2 & N3 & N4) N5]; split; [|done]; split_and!; try done; apply Hu; [|done]);
        pose proof (inv_pc _ I) as P0; unfold pc_ok in P0; rewrite Epc in P0;
        destruct P0 as [(_ & _ & _ & N6) _]; intros Er; apply (N6 i _ Ei); cbn; f_equal; symmetry; exact Er.
Qed.

Definition is_stop (a : act) : bool := match a with Stop => true | _ => false end.

Lemma step_inv s a :
  inv s -> quiet a = true -> (a = Stop -> stopCh (ts s) = false) -> exists s', step s a = Ok s' /\ inv s'.
Proof.
  intros I Hq Hs. destruct a as [|o|i o]; cbn [step].
  - rewrite Hs by done. eexists; split; [reflexivity|]. destruct I as [I1 I2 I3 I4 I5 I6]. by split.
  - by apply runStep_inv.
  - apply procStep_inv; [done|]. by intros ->.
Qed.

(** ** Nothing is lost *)
Definition locals (p : rpc) : gset nat :=
  match p with RClient _ cn => {[ cn ]} | RAlloc _ cn cl => {[ cn; cl ]} | _ => ∅ end.

Definition nothing (t : turnServer) : Prop := client t = None /\ conn t = None /\ alloc t = None /\ peer t = None.
Definition holds (cn cl al : nat) (t : turnServer) : Prop :=
  client t = Some cl /\ conn t = Some cn /\ alloc t = Some al /\ peer t = None.

(** What is open is in a field of the server or a variable of [connect], and the fields
    are empty when [connect] begins. *)
Record tight (s : sys) : Prop := {
  tight_live : live (ts s) = ids (client (ts s)) ∪ ids (conn (ts s)) ∪ ids (alloc (ts s)) ∪ locals (pc s);
  tight_peers : livePeers (ts s) = if peer_stopped (pc s) then ∅ else ids (peer (ts s));
  tight_pc : match pc s with
             | RStart _ | RDial _ | RClient _ _ | RAlloc _ _ _ | RWait _ | RCheck | REnd => nothing (ts s)
             | RAlive _ cn cl al | RUndo _ cn cl al => holds cn cl al (ts s)
             | RBind _ cn cl al => holds cn cl al (ts s) /\ state (ts s) = TurnAlive
             | RPeer _ => peer (ts s) = None /\ state (ts s) = TurnAlive
             | RAfter _ => state (ts s) = TurnAlive \/ nothing (ts s)
             | RDown2 _ | RDown3 _ | RDown4 _ => peer (ts s) = None
             | RTop | RSelect | RTick | RDown1 _ | RDownP _ => True
             end
}.

Lemma tight_start : tight start.
Proof. split; cbn; [set_solver|done|done]. Qed.

(** The fields and the variables, as far as they are known, and an equation between the
    sets they make up. *)
Ltac known :=
  repeat match goal with
  | H : nothing _ |- _ => destruct H as (? & ? & ? & ?)
  | H : holds _ _ _ _ |- _ => destruct H as (? & ? & ? & ?)
  | H : _ /\ _ |- _ => destruct H
  | H : client _ = _ |- _ => rewrite H in *; clear H
  | H : conn _ = _ |- _ => rewrite H in *; clear H
  | H : alloc _ = _ |- _ => rewrite H in *; clear H
  | H : peer _ = _ |- _ => rewrite H in *; clear H
  | H : live _ = _ |- _ => rewrite H; clear H
  | H : livePeers _ = _ |- _ => rewrite H; clear H
  end; cbn [ids locals peer_stopped];
  try match goal with |- ?a = ?b :> gset nat => unfold_leibniz end.
Ltac settle := split; cbn; [known; set_solver|known; try set_solver|].

Lemma runStep_tight o s s' : tight s -> runStep o s = Ok s' -> tight s'.
Proof.
  intros [T1 T2 T3] Hs. unfold runStep, connect, connectWithBackoff, stunCtrlKeepMappedPort, shutdown, runLoop, goto in Hs.
  destruct (pc s) as [b|b|b cn|b cn cl|b cn cl al|b cn cl al|b cn cl al|b|b|d| |w|w|w|w|w| | | |] eqn:Ep;
    cbn [locals peer_stopped] in T1, T2.
  - simplify_eq. settle. done.
  - destruct o; try destruct (stopCh (ts s)); simplify_eq;
      try (split; rewrite ?Ep; done); settle; (done || by right).
  - destruct o; simplify_eq; settle; (done || by right).
  - destruct o; simplify_eq; settle; try (by right). by destruct T3 as (? & ? & ? & ?).
  - simplify_eq. settle. done.
  - destruct o; simplify_eq; settle; first [done | by destruct T3 as [(_ & _ & _ & ?) ?] | by destruct T3].
  - simplify_eq. settle. right. by destruct T3 as (_ & _ & _ & ?).
  - simplify_eq. settle. left. apply T3.
  - destruct b as [d|]; [|simplify_eq; by settle].
    case_bool_decide as Ha; simplify_eq; settle; [done|]. by destruct T3.
  - destruct o; try destruct (stopCh (ts s)); simplify_eq; try (split; rewrite ?Ep; done); settle; done.
  - case_bool_decide; simplify_eq; by settle.
  - unfold stopPeer in Hs. cbn [peer setState] in Hs. destruct (peer (ts s)) as [p|] eqn:Epr; cbn [rbind] in Hs.
    + unfold close_ch in Hs. case_bool_decide; [done|]. cbn [rbind] in Hs. simplify_eq. settle; try done.
    + simplify_eq. settle; try done.
  - simplify_eq. by settle.
  - unfold is_closed in Hs. case_bool_decide; simplify_eq; by settle.
  - unfold close_ch in Hs. case_bool_decide; [done|]. cbn [rbind] in Hs. simplify_eq. by settle.
  - destruct w; simplify_eq; by settle.
  - destruct (stopCh (ts s)); simplify_eq; by settle.
  - destruct o; repeat case_match; simplify_eq; try (split; rewrite ?Ep; done); by settle.
  - destruct (client (ts s)) as [cl|] eqn:Ecl; [|done].
    destruct o; try destruct (2 <=? _); simplify_eq; cbn; settle; done.
  - simplify_eq. split; by rewrite ?Ep.
Qed.

Lemma step_tight s a s' : inv s -> tight s -> calm s a = true -> step s a = Ok s' -> tight s'.
Proof.
  intros I T Hc Hs. destruct a as [|o|i o]; cbn [step] in Hs.
  - destruct (stopCh (ts s)); [done|]. simplify_eq. destruct T as [T1 T2 T3]. by split.
  - by eapply runStep_tight.
  - unfold calm in Hc. apply andb_true_iff in Hc as [Hq Hf]. unfold procStep, acceptProc, reallocate, set_proc in Hs.
    destruct (procs s !! i) as [p|] eqn:Ei; [|by simplify_eq].
    pose proof (inv_accepting _ I i p Ei) as Hacc.
    assert (forall q, tight {| ts := ts s; pc := pc s; procs := <[i := q]> (procs s); orphans := orphans s |}) as Hsame
      by (intros q; destruct T as [T1 T2 T3]; by split).
    destruct p as [stop rec|stop rec|rec| | | | | | | | | | | | | | |]; try done.
    + repeat case_match; simplify_eq; apply Hsame.
    + destruct o; try done; repeat case_match; simplify_eq; try apply Hsame.
      destruct T as [T1 T2 T3]. split; cbn; try done. destruct (pc s); try done.
    + unfold close_ch in Hs. case_bool_decide; [done|]. cbn [rbind] in Hs. simplify_eq.
      destruct T as [T1 T2 T3]. by split.
    + by simplify_eq.
Qed.

Fixpoint calm_run (s : sys) (l : list act) : Prop :=
  match l with
  | [] => True
  | a :: l => calm s a = true /\ match step s a with Ok s => calm_run s l | _ => True end
  end.

Definition stops (l : list act) : nat := length (filter (fun a => is_stop a = true) l).

Lemma step_stopCh s a s' : step s a = Ok s' -> stopCh (ts s') = stopCh (ts s) || is_stop a.
Proof.
  assert (forall (r : res turnServer) k (s0 : sys), (forall t, r = Ok t -> stopCh t = stopCh (ts s)) ->
    rbind r k = Ok s0 -> (forall t, k t = Ok s0 -> stopCh (ts s0) = stopCh t) -> stopCh (ts s0) = stopCh (ts s)) as Hb.
  { intros r k s0 Hr Hk He. apply rbind_Ok in Hk as (t & Ht & Hk). rewrite (He t Hk). by apply Hr. }
  assert (forall c t, close_ch c (ts s) = Ok t -> stopCh t = stopCh (ts s)) as Hc.
  { intros c t. unfold close_ch. case_bool_decide; [done|]. by intros [= <-]. }
  assert (forall f t, stopCh (f (ts s)) = stopCh (ts s) -> stopPeer (f (ts s)) = Ok t -> stopCh t = stopCh (ts s)) as Hp.
  { intros f t Ef. unfold stopPeer. destruct (peer _); [|by intros [= <-]]. unfold close_ch.
    case_bool_decide; [done|]. cbn. by intros [= <-]. }
  destruct a as [|o|i o]; cbn [step is_stop]; rewrite ?orb_false_r, ?orb_true_r.
  - destruct (stopCh (ts s)); [done|]. by intros [= <-].
  - unfold runStep, connect, connectWithBackoff, stunCtrlKeepMappedPort, shutdown, runLoop, goto. destruct (pc s); intros Hs;
      try (repeat case_match; simplify_eq; done).
    + apply (Hb _ _ _ (fun t => Hp (setState TurnDisconnected) t eq_refl) Hs). by intros t [= <-].
    + apply (Hb _ _ _ (Hc _) Hs). by intros t [= <-].
  - unfold procStep, acceptProc, reallocate, set_proc. destruct (procs s !! i) as [[]|]; intros Hs;
      try (repeat case_match; simplify_eq; done).
    + apply (Hb _ _ _ (Hc _) Hs). by intros t [= <-].
    + destruct (is_closed _ _); [by simplify_eq|]. apply (Hb _ _ _ (Hc _) Hs). by intros t [= <-].
    + apply (Hb _ _ _ (Hc _) Hs). by intros t [= <-].
    + apply (Hb _ _ _ (fun t => Hp id t eq_refl) Hs). by intros t [= <-].
Qed.

Lemma stops_cons a l : stops (a :: l) = ((if is_stop a then 1 else 0) + stops l)%nat.
Proof. unfold stops. rewrite filter_cons. destruct (is_stop a); [by rewrite decide_True|by rewrite decide_False]. Qed.

(** Every run without a reset is a run, and keeps the invariants. *)
Lemma run_inv l : forall s,
  inv s -> Forall (fun a => quiet a = true) l -> (stops l <= if stopCh (ts s) then 0 else 1)%nat ->
  exists s', run l s = Ok s' /\ inv s' /\ (tight s -> calm_run s l -> tight s').
Proof.
  induction l as [|a l IH]; intros s I Hq Hs; [by exists s|]. apply Forall_cons_1 in Hq as [Ha Hq].
  rewrite stops_cons in Hs. destruct (step_inv s a I Ha) as (s1 & E & I1).
  { intros ->. cbn [is_stop] in Hs. destruct (stopCh (ts s)); [exfalso; lia|reflexivity]. }
  destruct (IH s1 I1 Hq) as (s' & Hr & I' & Ht).
  { rewrite (step_stopCh _ _ _ E). destruct (is_stop a), (stopCh (ts s)); cbn in *; lia. }
  exists s'. cbn [run]. rewrite E. cbn [rbind]. split; [done|]. split; [done|].
  intros T Hc. cbn [calm_run] in Hc. rewrite E in Hc. destruct Hc as [Hc1 Hc2].
  exact (Ht (step_tight s a s1 I T Hc1 E) Hc2).
Qed.

(** A connection outlives its [connect] only by a dial a stop has overtaken. *)
Lemma step_orphans s a s' : a <> Run StopOrphan -> step s a = Ok s' -> orphans s' = orphans s.
Proof.
  intros Ha. destruct a as [|o|i o]; cbn [step].
  - destruct (stopCh (ts s)); [done|]. by intros [= <-].
  - unfold runStep, connect, connectWithBackoff, stunCtrlKeepMappedPort, shutdown, runLoop, goto. intros Hs.
    destruct (pc s); try (apply rbind_Ok in Hs as (? & _ & Hs)); repeat case_match; simplify_eq; done.
  - unfold procStep, acceptProc, reallocate, set_proc. destruct (procs s !! i) as [[]|]; intros Hs;
      try (apply rbind_Ok in Hs as (? & _ & Hs)); repeat case_match; simplify_eq; try done;
      apply rbind_Ok in Hs as (? & _ & Hs); by simplify_eq.
Qed.

Lemma run_orphans l : forall s s', Run StopOrphan ∉ l -> run l s = Ok s' -> orphans s' = orphans s.
Proof.
  induction l as [|a l IH]; intros s s' Hn Hr; cbn [run] in Hr; [by simplify_eq|].
  apply not_elem_of_cons in Hn as [Ha Hn]. apply rbind_Ok in Hr as (s1 & E & Hr).
  rewrite (IH s1 s' Hn Hr). by apply (step_orphans s a).
Qed.

(** C19. If no server resets an allocation and [stop] is called at most once, no
    interleaving of the goroutines panics, and [runLoop] waits only on a server with its
    control connection, client and allocation.  If moreover no accept process fails for good
    while [connect] is busy after it has stored the allocation ([calm_run]; [turn_leak] is a
    run that does), the resources that [connect] and the accept processes have opened and
    not closed are exactly those in the fields of the server and in the variables of a
    [connect] under way, and all are closed when [runLoop] has ended.  The connection of a
    dial that a stop has overtaken is not among them ([orphans]); there is none if no such
    dial succeeds. *)
Theorem turn_lifecycle l :
  Forall (fun a => quiet a = true) l -> (stops l <= 1)%nat ->
  exists s, run l start = Ok s /\
    (pc s = RSelect \/ pc s = RTick -> full (ts s) = true) /\
    (calm_run start l ->
       live (ts s) = ids (client (ts s)) ∪ ids (conn (ts s)) ∪ ids (alloc (ts s)) ∪ locals (pc s) /\
       (pc s = REnd -> live (ts s) = ∅ /\ livePeers (ts s) = ∅)) /\
    (Run StopOrphan ∉ l -> orphans s = ∅).
Proof.
  intros Hq Hs. destruct (run_inv l start inv_start Hq Hs) as (s & E & I & T).
  exists s. split; [done|]. split; [|split].
  - pose proof (inv_pc _ I) as P. unfold pc_ok in P. by intros [Ep|Ep]; rewrite Ep in P.
  - intros Hc. destruct (T tight_start Hc) as [T1 T2 T3]. split; [done|]. intros Ep. rewrite Ep in T1, T2, T3.
    destruct T3 as (E1 & E2 & E3 & E4). rewrite T1, T2, E1, E2, E3, E4. cbn. split; [set_solver|done].
  - intros Hn. exact (run_orphans l start s Hn E).
Qed.

(** ** Stopping *)
Definition down_rank (w : why) : nat := match w with WReconnect => 9 | _ => 2 end.
Definition rank (p : rpc) : nat :=
  match p with
  | REnd => 0 | RCheck => 1
  | RDown4 w => down_rank w | RDown3 w => 1 + down_rank w | RDown2 w => 2 + down_rank w
  | RDownP w => 3 + down_rank w | RDown1 w => 4 + down_rank w
  | RSelect => 7 | RTop => 8 | RTick => 9 | RWait _ => 9 | RAfter _ => 10 | RPeer _ => 11 | RUndo _ _ _ _ => 11
  | RBind _ _ _ _ => 12 | RAlive _ _ _ _ => 13 | RAlloc _ _ _ => 14 | RClient _ _ => 15 | RDial _ => 16 | RStart _ => 17
  end.

(** [runLoop] takes the stop when it waits and the stop is there. *)
Definition prompt (s : sys) (a : act) : Prop :=
  match a with Run o => match pc s with RWait _ | RSelect => o = StopSeen | _ => True end | _ => True end.
Fixpoint prompt_run (s : sys) (l : list act) : Prop :=
  match l with
  | [] => True
  | a :: l => prompt s a /\ match step s a with Ok s => prompt_run s l | _ => True end
  end.

Definition is_run (a : act) : bool := match a with Run _ => true | _ => false end.
Fixpoint runs (l : list act) : nat := match l with [] => 0 | a :: l => (if is_run a then 1 else 0) + runs l end.

Lemma rank_runStep o s s' :
  stopCh (ts s) = true -> prompt s (Run o) -> runStep o s = Ok s' -> (rank (pc s') < rank (pc s) \/ rank (pc s') = 0)%nat.
Proof.
  intros Hst Hp. unfold prompt in Hp. unfold runStep, connect, connectWithBackoff, stunCtrlKeepMappedPort, shutdown, runLoop, goto. rewrite ?Hst.
  destruct (pc s) eqn:Ep; try subst o; intros Hs;
    try (apply rbind_Ok in Hs as (? & _ & Hs)); repeat case_match; simplify_eq; rewrite ?Ep; cbn; lia.
Qed.

Lemma pc_procStep i o s s' : procStep i o s = Ok s' -> pc s' = pc s.
Proof.
  unfold procStep, acceptProc, reallocate, set_proc. destruct (procs s !! i) as [[]|]; intros Hs;
    try (apply rbind_Ok in Hs as (? & _ & Hs)); repeat case_match; simplify_eq; try done;
    apply rbind_Ok in Hs as (? & _ & Hs); by simplify_eq.
Qed.

Lemma run_rank l : forall s s',
  stopCh (ts s) = true -> run l s = Ok s' -> prompt_run s l -> (rank (pc s') <= rank (pc s) - runs l)%nat.
Proof.
  induction l as [|a l IH]; intros s s' Hst Hr Hp; cbn [run runs] in *; [simplify_eq; lia|].
  apply rbind_Ok in Hr as (s1 & E & Hr). cbn [prompt_run] in Hp. rewrite E in Hp. destruct Hp as [Hp1 Hp2].
  pose proof (step_stopCh _ _ _ E) as Hst1. rewrite Hst in Hst1. specialize (IH s1 s' Hst1 Hr Hp2).
  destruct a as [|o|i o]; cbn [step is_run] in *.
  - by rewrite Hst in E.
  - destruct (rank_runStep o s s1 Hst Hp1 E); lia.
  - rewrite (pc_procStep _ _ _ _ E) in IH. lia.
Qed.

Lemma run_app l1 l2 s : run (l1 ++ l2) s = let! s := run l1 s in run l2 s.
Proof. revert s. induction l1 as [|a l1 IH]; intros s; [done|]. cbn. destruct (step s a); cbn; [apply IH|done..]. Qed.

Lemma rank_end p : rank p = 0%nat -> p = REnd.
Proof. destruct p as [| | | | | | | | | | |[]|[]|[]|[]|[]| | | |]; cbn; lia || done. Qed.

(** C18. A stop ends [runLoop] as long as no server resets an allocation: wherever the loop
    is and whatever the dials, requests and accepts answer, at most 17 of its own steps
    after the stop it has ended, if it takes the stop whenever it waits and the stop is
    there ([prompt_run]: a [select] of Go may prefer a tick that is ready too); the accept
    processes may do anything else in between, and nothing panics.  If moreover no accept
    process fails for good while [connect] is busy after it has stored the allocation
    ([calm_run]; [turn_leak] is a run that does), every resource of the server is closed
    then.  A dial still under way when the stop is taken is not waited for: its connection
    is never closed ([orphans]); there is none if no such dial succeeds. *)
Theorem turn_stops l1 l2 :
  Forall (fun a => quiet a = true) (l1 ++ l2) -> stops (l1 ++ l2) = 0%nat ->
  exists s1, run (l1 ++ [Stop]) start = Ok s1 /\
    (prompt_run s1 l2 -> (17 <= runs l2)%nat ->
     exists s2, run l2 s1 = Ok s2 /\ pc s2 = REnd /\
       (calm_run start (l1 ++ Stop :: l2) -> live (ts s2) = ∅ /\ livePeers (ts s2) = ∅) /\
       (Run StopOrphan ∉ l1 ++ Stop :: l2 -> orphans s2 = ∅)).
Proof.
  intros Hq Hs. apply Forall_app in Hq as [Hq1 Hq2].
  assert (stops l1 = 0%nat /\ stops l2 = 0%nat) as [Hs1 Hs2].
  { unfold stops in *. rewrite filter_app, length_app in Hs. lia. }
  assert (Forall (fun a => quiet a = true) (l1 ++ Stop :: l2)) as Hq by (apply Forall_app; by repeat constructor).
  assert (stops (l1 ++ Stop :: l2) = 1%nat) as Hst.
  { unfold stops in *. rewrite filter_app, length_app, filter_cons, decide_True by done. cbn [length]. lia. }
  destruct (run_inv (l1 ++ Stop :: l2) start inv_start Hq) as (s2 & E2 & I2 & T2); [cbn; lia|].
  assert (Run StopOrphan ∉ l1 ++ Stop :: l2 -> orphans s2 = ∅) as Horph
    by (intros Hn; exact (run_orphans _ start s2 Hn E2)).
  change (Stop :: l2) with ([Stop] ++ l2) in E2. rewrite app_assoc, run_app in E2.
  apply rbind_Ok in E2 as (s1 & E1 & E2). exists s1. split; [done|]. intros Hp Hn. exists s2. split; [done|].
  assert (stopCh (ts s1) = true) as Hst1.
  { rewrite run_app in E1. apply rbind_Ok in E1 as (s0 & _ & E1). cbn [run] in E1.
    apply rbind_Ok in E1 as (s1' & E1 & [= <-]). rewrite (step_stopCh _ _ _ E1). by rewrite orb_true_r. }
  assert (pc s2 = REnd) as Hend.
  { apply rank_end. pose proof (run_rank l2 s1 s2 Hst1 E2 Hp).
    assert (rank (pc s1) <= 17)%nat by (destruct (pc s1) as [| | | | | | | | | | |[]|[]|[]|[]|[]| | | |]; cbn; lia). lia. }
  split; [done|]. split; [|exact Horph]. intros Hc. destruct (T2 tight_start Hc) as [T1 T2' T3]. rewrite Hend in T1, T2', T3.
  destruct T3 as (F1 & F2 & F3 & F4). rewrite T1, T2', F1, F2, F3, F4. cbn. split; [set_solver|done].
Qed.

(** ** With [reallocate] *)

(** Undisturbed, it replaces the allocation: the old one is closed, its accept process
    ends and a new one listens on the new allocation; the control connection is kept. *)
Ltac proc_at H :=
  unfold procStep at 1; cbn [procs ts]; try rewrite lookup_app_l by (rewrite ?length_insert; exact H);
  rewrite list_lookup_insert_eq by (rewrite ?length_insert; exact H).

Ltac computed :=
  unfold acceptProc, reallocate, set_proc, stopPeer, startPeer, close_ch, is_closed, open, close, set_heap, set_peer, set_channels, set_resources,
    set_fails, setState;
  cbn [state client conn alloc relayAddr stunFailCount portFailCount peer stopCh acceptStopCh reconnectNow fresh live
       livePeers closedCh ts pc procs orphans ids rbind].

Theorem reallocate_alone s i rec cl cn al p :
  procs s !! i = Some (ABlocked (acceptStopCh (ts s)) rec) ->
  client (ts s) = Some cl -> conn (ts s) = Some cn -> alloc (ts s) = Some al -> peer (ts s) = Some p ->
  acceptStopCh (ts s) ∉ closedCh (ts s) -> p ∉ closedCh (ts s) -> p <> acceptStopCh (ts s) ->
  exists s', run (Proc i ConnReset :: replicate 12 (Proc i Good)) s = Ok s' /\
    state (ts s') = TurnAlive /\ client (ts s') = Some cl /\ conn (ts s') = Some cn /\
    alloc (ts s') = Some (fresh (ts s)) /\ live (ts s') = {[ fresh (ts s) ]} ∪ live (ts s) ∖ {[ al ]} /\
    pc s' = pc s /\ procs s' = <[i := AEnd]> (procs s) ++ [AAccept (acceptStopCh (ts s')) (reconnectNow (ts s))] /\
    acceptStopCh (ts s) ∈ closedCh (ts s') /\ p ∈ closedCh (ts s') /\ peer (ts s') = Some (S (S (fresh (ts s)))).
Proof.
  destruct s as [[st cl' cn' al' ra sf pf pr stp a r n lv lp ch] p0 ps orp].
  cbn [ts procs client conn alloc peer acceptStopCh closedCh fresh live pc]. intros Hi -> -> -> -> Hst Hps Hne.
  pose proof (lookup_lt_Some _ _ _ Hi) as Hlt. unfold replicate, run. cbn [step]. unfold procStep at 1. cbn [procs]. rewrite Hi.
  unfold acceptProc, is_closed. cbn [ts acceptStopCh closedCh]. rewrite bool_decide_false by done. unfold set_proc at 1. cbn [rbind].
  do 6 (proc_at Hlt; computed; rewrite ?bool_decide_false by done; cbn [rbind]).
  assert (p ∉ {[ a ]} ∪ ch) as Hp by set_solver.
  do 6 (proc_at Hlt; computed; rewrite ?bool_decide_false by done; computed;
        rewrite ?insert_app_l by (rewrite ?length_insert; exact Hlt)).
  eexists. split; [reflexivity|]. computed. rewrite !list_insert_insert_eq. split_and!; try done; set_solver.
Qed.

(** Disturbed, it does not: three runs of one reset allocation that panic.  In each the
    ping of [runLoop] finds the state [TurnAllocating] that [reallocate] has set, or the
    new accept process asks for a reconnection, and [shutdown] takes the resources away:
    [reallocate] reads the address of no connection, the peer is stopped twice, or the
    state is set to [TurnAlive] without a client for the next ping. *)
Definition connected : list act := replicate 9 (Run Good).
Definition to_bind : list act := Proc 0 Good :: Proc 0 ConnReset :: replicate 7 (Proc 0 Good).
Definition shut : list act := replicate 6 (Run Good).
Theorem turn_races :
  run (connected ++ to_bind ++ [Run Tick; Run Good; Run Good] ++ shut ++ [Proc 0 Good]) start = Panic /\
  run (connected ++ to_bind ++ [Proc 0 Good; Proc 0 Good] ++ [Run Tick; Run Good; Run Good; Run Good]) start = Panic /\
  run (connected ++ to_bind ++ replicate 4 (Proc 0 Good) ++ [Proc 1 Good; Proc 1 Fatal; Proc 1 Good] ++
       [Run Reconnect] ++ replicate 5 (Run Good) ++ [Proc 0 Good; Run Good; Run Tick; Run Good]) start = Panic.
Proof. split_and!; vm_compute; reflexivity. Qed.

(** An accept process that fails for good while [connectWithBackoff] is in [connect]
    makes it connect again over the old connection, client, allocation and peer: they are
    still open when [runLoop] has ended. *)
Definition reconnected_over : list act :=
  [Run Good; Run Bad; Run Good; Run Good] ++ replicate 6 (Run Good) ++ replicate 7 (Run Good) ++
  [Proc 0 Good; Proc 0 Fatal; Run Good; Run Good] ++ replicate 9 (Run Good) ++ [Stop; Run StopSeen] ++ shut.
Definition left_open (r : res sys) : option (bool * nat * nat) :=
  match r with
  | Ok s => Some (match pc s with REnd => true | _ => false end, size (live (ts s)), size (livePeers (ts s)))
  | _ => None
  end.
Theorem turn_leak : left_open (run reconnected_over start) = Some (true, 3%nat, 1%nat).
Proof. vm_compute. reflexivity. Qed.

(** ** The theorems at concrete runs *)

(** A dial that fails, a connection after the backoff, a ping, a process that fails for
    good, a reconnection. *)
Definition busy : list act :=
  [Run Good; Run Bad] ++ replicate 8 (Run Good) ++ replicate 9 (Run Good) ++ [Run Tick; Run Bad; Run Good] ++
  [Proc 0 Good; Proc 0 Fatal; Proc 0 Good; Run Reconnect] ++ replicate 3 (Run Good).

Lemma turn_lifecycle_witness :
  exists s, run (busy ++ [Stop]) start = Ok s /\ (pc s = RSelect \/ pc s = RTick -> full (ts s) = true) /\
    live (ts s) = ids (client (ts s)) ∪ ids (conn (ts s)) ∪ ids (alloc (ts s)) ∪ locals (pc s) /\ orphans s = ∅.
Proof.
  destruct (turn_lifecycle (busy ++ [Stop])) as (s & E & H & Hc & Ho).
  - repeat constructor.
  - vm_compute. lia.
  - assert (calm_run start (busy ++ [Stop])) as Hcalm by (vm_compute; repeat split).
    assert (Run StopOrphan ∉ busy ++ [Stop]) as Hn by (apply (bool_decide_unpack _); vm_compute; exact I).
    exists s. split; [exact E|]. split; [exact H|]. split; [exact (proj1 (Hc Hcalm))|exact (Ho Hn)].
Defined.

Lemma turn_stops_witness :
  exists s1 s2, run (busy ++ [Stop]) start = Ok s1 /\ run (replicate 17 (Run StopSeen)) s1 = Ok s2 /\
    pc s2 = REnd /\ (live (ts s2) = ∅ /\ livePeers (ts s2) = ∅) /\ orphans s2 = ∅.
Proof.
  destruct (turn_stops busy (replicate 17 (Run StopSeen))) as (s1 & E & H).
  - repeat constructor.
  - reflexivity.
  - assert (prompt_run s1 (replicate 17 (Run StopSeen))) as Hp.
    { revert E. clear. intros E. vm_compute in E. injection E as <-. vm_compute. repeat split. }
    assert (17 <= runs (replicate 17 (Run StopSeen)))%nat as Hn by (vm_compute; lia).
    destruct (H Hp Hn) as (s2 & E2 & Ep & Hc & Ho).
    assert (calm_run start (busy ++ Stop :: replicate 17 (Run StopSeen))) as Hcalm by (vm_compute; repeat split).
    assert (Run StopOrphan ∉ busy ++ Stop :: replicate 17 (Run StopSeen)) as Hno
      by (apply (bool_decide_unpack _); vm_compute; exact I).
    exists s1, s2. split; [exact E|]. split; [exact E2|]. split; [exact Ep|]. split; [exact (Hc Hcalm)|exact (Ho Hno)].
Defined.
