(* ===== verification/TurnPeer.v ===== *)
(** * The simulated peer of a TURN server, and the pool of servers

    Module [Peer]: src/p2put/turnpeer.go.  A [TurnPeer] keeps a control connection to the
    server and a connection to the relayed address alive, by the ticks of its [runLoop].
    Module [Pool]: the table of servers and of permitted addresses of turnpool.go; the
    servers themselves are in [Turn]. *)

From Stdlib Require Import Ascii.
From S2P Require Import Prelude GoLib GoNet.

Module Peer.

(** The connection, the client and the allocation of the control side are set and cleared
    together: one number.  [opened] are the connections of both kinds not closed yet. *)
Record TurnPeer := {
  turnCtrl : option nat;
  relayConn : option nat;
  failCount : Z;
  lastPing : Z; lastPong : Z;
  txBytes : Z; rxBytes : Z;
  fresh : nat; opened : gset nat
}.

Definition NewTurnPeer : TurnPeer :=
  {| turnCtrl := None; relayConn := None; failCount := 0; lastPing := 0; lastPong := 0; txBytes := 0; rxBytes := 0;
     fresh := 0; opened := ∅ |}.

Definition set_conns (ctrl relay : option nat) (n : nat) (o : gset nat) (t : TurnPeer) : TurnPeer :=
  {| turnCtrl := ctrl; relayConn := relay; failCount := failCount t; lastPing := lastPing t; lastPong := lastPong t;
     txBytes := txBytes t; rxBytes := rxBytes t; fresh := n; opened := o |}.
Definition set_stats (fails ping pong tx rx : Z) (t : TurnPeer) : TurnPeer :=
  {| turnCtrl := turnCtrl t; relayConn := relayConn t; failCount := fails; lastPing := ping; lastPong := pong;
     txBytes := tx; rxBytes := rx; fresh := fresh t; opened := opened t |}.

Definition ids (o : option nat) : gset nat := match o with Some i => {[ i ]} | None => ∅ end.

(** [ok]: the dial, the client, the binding request and the allocation all succeed; when
    one of them fails, what was opened is closed. *)
Definition ExchangeMapped (ok : bool) (t : TurnPeer) : TurnPeer :=
  if ok then set_conns (Some (fresh t)) (relayConn t) (S (fresh t)) ({[ fresh t ]} ∪ opened t) t else t.

Definition closeRelay (t : TurnPeer) : TurnPeer :=
  set_conns (turnCtrl t) None (fresh t) (opened t ∖ ids (relayConn t)) t.
Definition closeTurn (t : TurnPeer) : TurnPeer :=
  set_conns None (relayConn t) (fresh t) (opened t ∖ ids (turnCtrl t)) t.

Definition stunCtrlKeepMappedPort (bound exchanged : bool) (t : TurnPeer) : TurnPeer :=
  match turnCtrl t with
  | None => t
  | Some _ => if bound then t else ExchangeMapped exchanged (closeTurn t)
  end.

Definition dialRelay (ok : bool) (t : TurnPeer) : option TurnPeer :=
  match relayConn t with
  | Some _ => Some t
  | None => if ok then Some (set_conns (turnCtrl t) (Some (fresh t)) (S (fresh t)) ({[ fresh t ]} ∪ opened t) t) else None
  end.

(** What the network does to a ping: the dial, if there is one, the deadline, the number
    of bytes written, and what is read. *)
Record weather := { dials : bool; deadline : bool; writes : option Z; reads : option bytes }.

Definition pong : bytes := [112; 111; 110; 103].

Definition relayPing (now : Z) (w : weather) (t : TurnPeer) : TurnPeer :=
  match dialRelay (dials w) t with
  | None => set_stats (failCount t + 1) (lastPing t) (lastPong t) (txBytes t) (rxBytes t) t
  | Some t =>
      let t := set_stats (failCount t) now (lastPong t) (txBytes t) (rxBytes t) t in
      if negb (deadline w) then closeRelay t
      else match writes w with
           | None => closeRelay t
           | Some n =>
               let t := set_stats (failCount t) (lastPing t) (lastPong t) (txBytes t + n) (rxBytes t) t in
               match reads w with
               | None => closeRelay t
               | Some b =>
                   let t := set_stats (failCount t) (lastPing t) (lastPong t) (txBytes t) (rxBytes t + zlen b) t in
                   if bool_decide (b = pong) then set_stats 0 (lastPing t) now (txBytes t) (rxBytes t) t
                   else closeRelay t
               end
           end
  end.

(** The field of that name in [Stats]. *)
Definition Alive (t : TurnPeer) : bool := failCount t =? 0.

(** A turn of [runLoop]. *)
Inductive tick := Stun (bound exchanged : bool) | Ping (now : Z) (w : weather).
Definition turn (t : TurnPeer) (k : tick) : TurnPeer :=
  match k with Stun b e => stunCtrlKeepMappedPort b e t | Ping now w => relayPing now w t end.

(** [runLoop] up to a stop, and the deferred calls. *)
Definition runLoop (l : list tick) (t : TurnPeer) : TurnPeer := foldl turn t l.
Definition finish (t : TurnPeer) : TurnPeer := closeRelay (closeTurn t).

(** What is open is in the two fields. *)
Record tight (t : TurnPeer) : Prop := {
  tight_opened : opened t = ids (turnCtrl t) ∪ ids (relayConn t);
  tight_ctrl : forall i, turnCtrl t = Some i -> (i < fresh t)%nat /\ relayConn t <> Some i;
  tight_relay : forall i, relayConn t = Some i -> (i < fresh t)%nat
}.

Lemma tight_stats t a b c d e : tight t -> tight (set_stats a b c d e t).
Proof. intros [T1 T2 T3]. by split. Qed.
Lemma tight_closeRelay t : tight t -> tight (closeRelay t).
Proof.
  intros [T1 T2 T3]. split; cbn; try done.
  - rewrite T1. destruct (turnCtrl t) as [i|], (relayConn t) as [j|]; cbn; set_solver.
  - intros i Hi. split; [by apply T2|done].
Qed.
Lemma tight_closeTurn t : tight t -> tight (closeTurn t).
Proof.
  intros [T1 T2 T3]. split; cbn; try done.
  rewrite T1. destruct (turnCtrl t) as [i|], (relayConn t) as [j|]; cbn; set_solver.
Qed.
Lemma tight_Exchange ok t : turnCtrl t = None -> tight t -> tight (ExchangeMapped ok t).
Proof.
  intros E [T1 T2 T3]. destruct ok; [|by split]. split; cbn.
  - rewrite T1, E. cbn. set_solver.
  - intros i [= <-]. split; [lia|]. intros Hr. specialize (T3 _ Hr). lia.
  - intros i Hr. specialize (T3 _ Hr). lia.
Qed.
Lemma tight_dial ok t t' : tight t -> dialRelay ok t = Some t' -> tight t'.
Proof.
  intros [T1 T2 T3]. unfold dialRelay. destruct (relayConn t) as [j|] eqn:E; [intros [= <-]; split; rewrite ?E; done|].
  destruct ok; [|done]. intros [= <-]. split; cbn.
  - rewrite T1. cbn. set_solver.
  - intros i Hi. destruct (T2 i Hi). split; [lia|]. intros [= E1]. lia.
  - intros i [= <-]. lia.
Qed.

Lemma tight_turn t k : tight t -> tight (turn t k).
Proof.
  intros T. destruct k as [b e|now w]; cbn [turn].
  - unfold stunCtrlKeepMappedPort. destruct (turnCtrl t); [|done]. destruct b; [done|].
    apply tight_Exchange; [done|by apply tight_closeTurn].
  - unfold relayPing. destruct (dialRelay (dials w) t) as [t'|] eqn:E; [|by apply tight_stats].
    pose proof (tight_dial _ _ _ T E). repeat case_match; repeat first [apply tight_closeRelay | apply tight_stats]; done.
Qed.

(** A ping that is answered leaves the peer alive and connected, one that is not leaves
    the relay unconnected, so that the next dials again; a ping changes nothing of the
    control side. *)
Lemma relayPing_spec now w t :
  turnCtrl (relayPing now w t) = turnCtrl t /\
  (relayConn (relayPing now w t) = None \/
   Alive (relayPing now w t) = true /\ lastPong (relayPing now w t) = now /\ lastPing (relayPing now w t) = now) /\
  (dials w = true -> failCount (relayPing now w t) <= Z.max 0 (failCount t)).
Proof.
  unfold relayPing, dialRelay. destruct (relayConn t) as [j|] eqn:E, (dials w); cbn;
    try (destruct (deadline w), (writes w), (reads w); cbn; try case_bool_decide; cbn; split_and!; auto; lia).
Qed.

(** The keeping alive of a simulated peer.  Whatever happens, the connections that are
    open are those of its two fields, and none is after a stop.  The relay side heals: a
    failed ping leaves no connection, the next ping dials, and an answer resets the count
    of failures.  The control side does not: once a binding request and the connection
    attempt after it have failed, or the first attempt has, it stays down for ever.  And
    the count of failures counts failed dials only: a relay that accepts connections and
    never answers is reported alive for ever. *)
Theorem turnpeer_keepalive t l :
  tight t ->
  let t' := runLoop l t in
  opened t' = ids (turnCtrl t') ∪ ids (relayConn t') /\ opened (finish t') = ∅ /\
  (forall now w, relayConn t' = None -> dials w = true -> deadline w = true -> writes w = Some 4 -> reads w = Some pong ->
     relayConn (relayPing now w t') = Some (fresh t') /\ Alive (relayPing now w t') = true /\
     lastPong (relayPing now w t') = now) /\
  (turnCtrl t = None -> turnCtrl t' = None) /\
  (Alive t = true -> (forall now w, Ping now w ∈ l -> dials w = true) -> failCount t' <= 0).
Proof.
  intros T. assert (tight (runLoop l t)) as T'.
  { unfold runLoop. revert t T. induction l as [|k l IH]; intros t T; [done|]. apply IH, (tight_turn t k T). }
  set (t' := runLoop l t) in *. split; [apply T'|]. split.
  { destruct (tight_closeRelay _ (tight_closeTurn _ T')) as [E _ _]. unfold finish. rewrite E. cbn. set_solver. }
  split.
  { intros now w Hr H1 H2 H3 H4. unfold relayPing, dialRelay. rewrite Hr, H1, H2, H3, H4. cbn.
    by rewrite bool_decide_true. }
  clear T T'. subst t'. unfold runLoop. split.
  - revert t. induction l as [|k l IH]; intros t E; [done|]. apply IH. destruct k as [b e|now w]; cbn [turn].
    + unfold stunCtrlKeepMappedPort. by rewrite E.
    + by rewrite (proj1 (relayPing_spec now w t)).
  - intros Ha%Z.eqb_eq Hd. assert (failCount t <= 0) as Hf by lia. clear Ha. revert t Hf.
    induction l as [|k l IH]; intros t Hf; [done|]. cbn [foldl]. apply IH; [set_solver|].
    destruct k as [b e|now w]; cbn [turn].
    + unfold stunCtrlKeepMappedPort. destruct (turnCtrl t); [|done]. by destruct b, e.
    + destruct (relayPing_spec now w t) as (_ & _ & H). specialize (H (Hd now w ltac:(set_solver))). lia.
Qed.
End Peer.

Module Pool.

(** A server of the table: whether its stop channel was closed, and how many [runLoop]s
    were started for it. *)
Record server := { stopped : bool; loops : nat }.
Record TurnPool := { servers : gmap string server; ctx : bool; permips : gset string }.

Definition NewTurnPool : TurnPool := {| servers := ∅; ctx := false; permips := ∅ |}.

Definition set_servers (m : gmap string server) (p : TurnPool) : TurnPool :=
  {| servers := m; ctx := ctx p; permips := permips p |}.

Definition start (s : server) : server := {| stopped := stopped s; loops := S (loops s) |}.

(** [turnServer.stop], which panics on a server that was stopped. *)
Definition stop (s : server) : res server :=
  if stopped s then Panic else Ok {| stopped := true; loops := loops s |}.

Definition Start (p : TurnPool) : TurnPool :=
  {| servers := start <$> servers p; ctx := true; permips := permips p |}.

(** The loop of [Stop] over the servers in some order. *)
Fixpoint stop_all (l : list (string * server)) (m : gmap string server) : res (gmap string server) :=
  match l with
  | [] => Ok m
  | (addr, s) :: l => let! s := stop s in stop_all l (<[addr := s]> m)
  end.
Definition Stop `{MapRange} (p : TurnPool) : res TurnPool :=
  let! m := stop_all (range_map 0 (servers p)) (servers p) in Ok (set_servers m p).

Definition AddServer (addr : string) (p : TurnPool) : res TurnPool :=
  match servers p !! addr with
  | Some _ => Fail "already exists"
  | None => let s := {| stopped := false; loops := 0 |} in
            Ok (set_servers (<[addr := if ctx p then start s else s]> (servers p)) p)
  end.

Definition RemoveServer (addr : string) (p : TurnPool) : res TurnPool :=
  match servers p !! addr with
  | Some s => let! _ := stop s in Ok (set_servers (delete addr (servers p)) p)
  | None => Ok p
  end.

(** The part of an address before its first colon. *)
Fixpoint before_colon (s : string) : string :=
  match s with
  | String c s => if Ascii.eqb c colon then "" else String c (before_colon s)
  | EmptyString => ""
  end.
Fixpoint dots (s : string) : nat :=
  match s with String c s => ((if Ascii.eqb c "."%char then 1 else 0) + dots s)%nat | EmptyString => 0 end.

Definition permitted (ip : string) : option string :=
  let ip := before_colon ip in if (dots ip =? 3)%nat then Some ip else None.
Definition AddPermIP (ip : string) (p : TurnPool) : TurnPool :=
  match permitted ip with
  | Some ip => {| servers := servers p; ctx := ctx p; permips := {[ ip ]} ∪ permips p |}
  | None => p
  end.
Definition RemovePermIP (ip : string) (p : TurnPool) : TurnPool :=
  match permitted ip with
  | Some ip => {| servers := servers p; ctx := ctx p; permips := permips p ∖ {[ ip ]} |}
  | None => p
  end.

Section pool.
Context `{MapRange}.

Lemma stop_all_spec (l : list (string * server)) : forall m,
  NoDup l.*1 -> (forall a s, (a, s) ∈ l -> stopped s = false) ->
  exists m', stop_all l m = Ok m' /\
    forall a, m' !! a = match list_find (fun e => e.1 = a) l with
                        | Some (_, (_, s)) => Some {| stopped := true; loops := loops s |}
                        | None => m !! a
                        end.
Proof.
  induction l as [|[a s] l IH]; intros m Hnd Hs; [by exists m|]. cbn [stop_all fmap list_fmap fst] in *.
  apply NoDup_cons in Hnd as [Ha Hnd]. unfold stop. rewrite (Hs a s) by set_solver. cbn [rbind].
  destruct (IH (<[a := {| stopped := true; loops := loops s |}]> m) Hnd) as (m' & -> & Hm'); [set_solver|].
  exists m'. split; [done|]. intros b. rewrite Hm'. cbn. destruct (decide (a = b)) as [->|Hne].
  - destruct (list_find (fun e => e.1 = b) l) as [[i [b' s']]|] eqn:E; cbn.
    + apply list_find_Some in E as (Hl & <- & _). exfalso. apply Ha. apply list_elem_of_fmap.
      exists (b', s'). split; [done|]. by eapply list_elem_of_lookup_2.
    + by rewrite lookup_insert_eq.
  - rewrite lookup_insert_ne by done. by destruct (list_find _ l) as [[? []]|].
Qed.

(** Stopping the pool tells every server once, in whatever order they are visited; a
    second [Stop], or the removal of a server after one, panics, and a server added to a
    stopped pool is started. *)
Theorem turnpool_stop_once p :
  map_Forall (fun _ s => stopped s = false) (servers p) ->
  exists p', Stop p = Ok p' /\
    (forall a, servers p' !! a = (fun s => {| stopped := true; loops := loops s |}) <$> servers p !! a) /\
    (forall a s, servers p !! a = Some s -> Stop p' = Panic /\ RemoveServer a p' = Panic) /\
    (forall a, servers p !! a = None -> ctx p = true ->
       exists p'', AddServer a p' = Ok p'' /\ servers p'' !! a = Some {| stopped := false; loops := 1 |}).
Proof.
  intros Hs.
  destruct (stop_all_spec (range_map 0 (servers p)) (servers p)) as (m & Em & Hm).
  { apply NoDup_range_keys. }
  { intros a s Hin%elem_of_range. by apply (Hs a s). }
  assert (forall a, m !! a = (fun s => {| stopped := true; loops := loops s |}) <$> servers p !! a) as Hm'.
  { intros a. rewrite Hm. destruct (list_find _ _) as [[i [b s]]|] eqn:E.
    - apply list_find_Some in E as (Hl & Eb & _). cbn in Eb. subst b.
      apply list_elem_of_lookup_2, elem_of_range in Hl. by rewrite Hl.
    - destruct (servers p !! a) as [s|] eqn:Ea; [|done]. apply list_find_None in E.
      rewrite Forall_forall in E. exfalso. apply (E (a, s)); [by apply elem_of_range|done]. }
  exists (set_servers m p). unfold Stop. rewrite Em. cbn [rbind]. split; [done|]. split; [done|]. split.
  - intros a s Ha. split.
    + cbn [servers set_servers].
      assert (forall l m0, (a, {| stopped := true; loops := loops s |}) ∈ l -> stop_all l m0 = Panic \/
        exists e l1 l2, l = l1 ++ e :: l2 /\ stopped e.2 = true /\ stop_all l m0 = Panic) as Hp.
      { induction l as [|[b t] l IH]; intros m0 Hin; [set_solver|]. cbn [stop_all]. unfold stop.
        destruct (stopped t) eqn:Et; cbn [rbind]; [by left|]. apply elem_of_cons in Hin as [[= <- <-]|Hin]; [done|].
        left. destruct (IH (<[b := {| stopped := true; loops := loops t |}]> m0) Hin) as [->|(_ & _ & _ & _ & _ & ->)]; done. }
      destruct (Hp (range_map 0 m) m) as [->|(_ & _ & _ & _ & _ & ->)]; [|done..].
      apply elem_of_range. by rewrite Hm', Ha.
    + unfold RemoveServer. cbn [servers set_servers]. by rewrite Hm', Ha.
  - intros a Ha Hc. unfold AddServer. cbn [servers set_servers ctx]. rewrite Hm', Ha. cbn. rewrite Hc.
    eexists. split; [reflexivity|]. cbn. by rewrite lookup_insert_eq.
Qed.
End pool.
End Pool.

Lemma turnpeer_keepalive_witness :
  let w := {| Peer.dials := true; Peer.deadline := true; Peer.writes := Some 4; Peer.reads := None |} in
  Peer.turnCtrl (Peer.runLoop [Peer.Ping 1 w; Peer.Stun false false; Peer.Stun true true] Peer.NewTurnPeer) = None /\
  Peer.failCount (Peer.runLoop [Peer.Ping 1 w; Peer.Ping 20 w] Peer.NewTurnPeer) <= 0.
Proof.
  intros w. assert (Peer.tight Peer.NewTurnPeer) as T by (split; cbn; [set_solver|done..]).
  split.
  - by apply (Peer.turnpeer_keepalive Peer.NewTurnPeer [Peer.Ping 1 w; Peer.Stun false false; Peer.Stun true true] T).
  - apply (Peer.turnpeer_keepalive Peer.NewTurnPeer [Peer.Ping 1 w; Peer.Ping 20 w] T); [done|].
    intros now w' Hin. set_solver.
Defined.
