(* ===== verification/Push.v ===== *)
(** * Exchanging peers with peers

    The protocol push/1.0 of src/p2put/pushid.go: [PushToPeer] sends the addresses of
    this host and merges the sightings that come back, [HandlePushStream] takes the
    addresses of the sender and answers with its own sightings.  [reconnectFromPeerDB]
    of mydiscovery.go renews a sighting when it reaches the peer.  The database is the
    [PeerDB] of [PeerStore], the addresses those of its [AddrManager].  [world] puts
    nodes together by the messages between them, which may be late, lost or repeated.
    Peer ids and multiaddresses as text are the class [Addressing]; a multiaddress is
    its text form. *)

From S2P Require Import Prelude GoLib PeerStore TurnPeer.

(** [peer.Decode], [ID.String], and [multiaddr.NewMultiaddr] followed by [String]. *)
Class Addressing := {
  Decode : string -> option string;
  IDString : string -> string;
  NewMultiaddr : string -> option string;
  decode_string : forall id id', Decode (IDString id) = Some id' -> id' = id;
  multiaddr_string : forall s m, NewMultiaddr s = Some m -> NewMultiaddr m = Some m
}.

(** ** Milliseconds of the Unix epoch, and back *)
Definition UnixMilli (t : Z) : Z := wraps 64 ((t - unix_epoch) / millisecond).
Definition fromUnixMilli (ms : Z) : Z := unix_epoch + ms * millisecond.

(** The times whose milliseconds fit, after the epoch. *)
Definition modern (t : Z) : Prop := unix_epoch + millisecond <= t < unix_epoch + 2 ^ 63 * millisecond.

Lemma unix_trip t : modern t ->
  0 < UnixMilli t /\ fromUnixMilli (UnixMilli t) <= t < fromUnixMilli (UnixMilli t) + millisecond.
Proof.
  unfold modern, UnixMilli, fromUnixMilli, millisecond. intros H.
  pose proof (Z.div_mod (t - unix_epoch) 1000000) as D. pose proof (Z.mod_pos_bound (t - unix_epoch) 1000000).
  rewrite wraps_small by lia. lia.
Qed.

(** ** The messages *)
Record PeerInfo := {
  ID : string; Addrs : list string; MappedAddrs : list string; AllocedAddrs : list string; SeenAt : Z
}.
Record PushMessage := { Peers : list PeerInfo; TS : Z }.

Section push.
Context `{Addressing} `{MapRange}.
(** [extractRelayPeerID] of utils.go. *)
Context (extractRelayPeerID : string -> res string).

Abbreviation PeerDB := PeerDB.PeerDB.
Abbreviation AddrManager := (AddrManager.AddrManager (A := string)).

(** What the handlers use of a node: [bootres.Host.ID()], [bootres.PeerDB],
    [bootres.AddrMgr], [turnPool], [AcceptMappedAddr] and [turnPool.ListRelayAddrs()]. *)
Record node := {
  self : string; peerdb : PeerDB; addrmgr : AddrManager; turnPool : Pool.TurnPool;
  acceptMapped : option string; relayAddrs : list string
}.

Definition set_peerdb (db : PeerDB) (n : node) : node :=
  {| self := self n; peerdb := db; addrmgr := addrmgr n; turnPool := turnPool n;
     acceptMapped := acceptMapped n; relayAddrs := relayAddrs n |}.
Definition set_addrmgr (m : AddrManager) (n : node) : node :=
  {| self := self n; peerdb := peerdb n; addrmgr := m; turnPool := turnPool n;
     acceptMapped := acceptMapped n; relayAddrs := relayAddrs n |}.
Definition set_turn (t : Pool.TurnPool) (n : node) : node :=
  {| self := self n; peerdb := peerdb n; addrmgr := addrmgr n; turnPool := t;
     acceptMapped := acceptMapped n; relayAddrs := relayAddrs n |}.

Definition parseAddrs (l : list string) : list string := omap NewMultiaddr l.

Definition mappedAddrs (n : node) : list string :=
  match acceptMapped n with Some ip => [ip] | None => [] end.

(** A turn of the loops over the peers of a message. *)
Definition mergePeer (self : string) (seenAt : Z) (p : PeerInfo) (db : PeerDB) : PeerDB :=
  match Decode (ID p) with
  | None => db
  | Some rpid => if String.eqb rpid self then db else PeerDB.Update rpid (parseAddrs (Addrs p)) seenAt db
  end.

(** The loops; the [i]-th turn reads the clock for the [i]-th time. *)
Fixpoint mergePeers (seen : nat -> PeerInfo -> Z) (i : nat) (self : string) (l : list PeerInfo)
    (db : PeerDB) : PeerDB :=
  match l with
  | [] => db
  | p :: l => mergePeers seen (S i) self l (mergePeer self (seen i p) p db)
  end.

Definition addPerms (l : list PeerInfo) (t : Pool.TurnPool) : Pool.TurnPool :=
  foldl (fun t p => foldl (fun t a => Pool.AddPermIP a t) t (MappedAddrs p ++ AllocedAddrs p)) t l.

(** An entry of the answer. *)
Definition peerInfo (n : node) (r : PeerDB.PeerRecord) : PeerInfo :=
  {| ID := IDString (PeerDB.PeerID r); Addrs := PeerDB.Addrs r; MappedAddrs := mappedAddrs n;
     AllocedAddrs := relayAddrs n; SeenAt := UnixMilli (PeerDB.SeenAt r) |}.

(** [HandlePushStream] on a stream from [pid]: the message it read ([None]: reading or
    parsing failed), and the answer it writes. *)
Definition HandlePushStream (clock : nat -> Z) (pid : string) (req : option PushMessage) (n : node) :
    node * option PushMessage :=
  match req with
  | None => (n, None)
  | Some req =>
      let k := length (Peers req) in
      let n := set_peerdb (mergePeers (fun i _ => clock i) 0 (self n) (Peers req) (peerdb n)) n in
      let n := set_turn (addPerms (Peers req) (turnPool n)) n in
      let records := PeerDB.List (clock k) (peerdb n) in
      let others := filter (fun r => PeerDB.PeerID r <> self n /\ PeerDB.PeerID r <> pid) records in
      (n, Some {| Peers := peerInfo n <$> others; TS := UnixMilli (clock (S k)) |})
  end.

(** The request of [PushToPeer]. *)
Definition pushRequest (now : Z) (n : node) : node * PushMessage :=
  let '(addrs, m) := AddrManager.GetAll (fun a => a) extractRelayPeerID now (addrmgr n) in
  (set_addrmgr m n,
   {| Peers := [{| ID := IDString (self n); Addrs := addrs; MappedAddrs := mappedAddrs n;
                   AllocedAddrs := relayAddrs n; SeenAt := 0 |}];
      TS := UnixMilli now |}).

(** When [PushToPeer] says a peer of the answer was seen. *)
Definition respSeenAt (clock : nat -> Z) (i : nat) (p : PeerInfo) : Z :=
  if 0 <? SeenAt p then fromUnixMilli (SeenAt p) else clock i.

Definition mergeResponse (clock : nat -> Z) (resp : PushMessage) (n : node) : node :=
  set_peerdb (mergePeers (respSeenAt clock) 0 (self n) (Peers resp) (peerdb n)) n.

(** [PushToPeer]; [stream] opens a stream, writes the request, and reads and parses the
    answer. *)
Definition PushToPeer (now : Z) (clock : nat -> Z) (stream : PushMessage -> res PushMessage) (n : node) :
    node * res unit :=
  let '(n, req) := pushRequest now n in
  match stream req with
  | Ok resp => (mergeResponse clock resp n, Ok tt)
  | Fail e => (n, Fail e)
  | Panic => (n, Panic)
  end.

(** [reconnectFromPeerDB] on a record whose peer answered its ping. *)
Definition reconnected (now : Z) (r : PeerDB.PeerRecord) (n : node) : node :=
  set_peerdb (PeerDB.Update (PeerDB.PeerID r) (PeerDB.Addrs r) now (peerdb n)) n.

(** What the loop finds for a record: the peer is connected or limited, the number of
    connections, whether [Connect] and the ping work, the clock then, and whether the
    context ends during the pause. *)
Record dial := { d_connected : bool; d_conns : Z; d_connects : bool; d_pings : bool; d_now : Z; d_done : bool }.

Fixpoint reconnectLoop (env : string -> dial) (l : list PeerDB.PeerRecord) (n : node) : node :=
  match l with
  | [] => n
  | r :: l =>
      let d := env (PeerDB.PeerID r) in
      if d_connected d then reconnectLoop env l n
      else if 20 <? d_conns d then n
      else match PeerDB.Addrs r with
           | [] => reconnectLoop env l n
           | _ =>
               if negb (d_connects d) then reconnectLoop env l n
               else
                 let n := if d_pings d then reconnected (d_now d) r n else n in
                 if d_done d then n else reconnectLoop env l n
           end
  end.

(** [reconnectFromPeerDB]. *)
Definition reconnectFromPeerDB (now : Z) (env : string -> dial) (n : node) : node :=
  reconnectLoop env (PeerDB.List now (peerdb n)) n.
End push.

(** ** Pushing addresses with identify *)

(** [pushToAll]: the peers it pushes to, for the remote peers of the connections. *)
Definition pushTargets (conns : list string) : list string :=
  (foldl (fun (st : gset string * list string) pid =>
     if decide (pid ∈ st.1) then st else ({[pid]} ∪ st.1, st.2 ++ [pid])) (∅, []) conns).2.

(** [pb.Identify], as far as the program sets it. *)
Record Identify := { PublicKey : bytes; Protocols : list string; ListenAddrs : list bytes }.

(** [pushToConnected]: what is written to the stream; the public key as it is marshalled
    ([None]: there is none, or it cannot be), whether the stream opens, and [Bytes] of an
    address. *)
Definition pushToConnected (pubkey : option bytes) (opens : bool) (protos : list string) (Bytes : string -> bytes)
    (addrs : list string) : option Identify :=
  match pubkey with
  | None => None
  | Some key => if opens then Some {| PublicKey := key; Protocols := protos; ListenAddrs := Bytes <$> addrs |} else None
  end.

(** Every connected peer is pushed to once, in the order of the connections. *)
Theorem push_targets_once conns :
  NoDup (pushTargets conns) /\ forall pid, pid ∈ pushTargets conns <-> pid ∈ conns.
Proof.
  unfold pushTargets. set (f := fun (st : gset string * list string) pid => _).
  assert (forall l st, NoDup st.2 -> (forall pid, pid ∈ st.1 <-> pid ∈ st.2) ->
    NoDup (foldl f st l).2 /\ forall pid, pid ∈ (foldl f st l).2 <-> pid ∈ st.2 \/ pid ∈ l) as Hf.
  { induction l as [|p l IH]; intros st Hn Hs; cbn [foldl]; [split; [done|set_solver]|].
    assert (NoDup (f st p).2 /\ (forall pid, pid ∈ (f st p).1 <-> pid ∈ (f st p).2) /\
      forall pid, pid ∈ (f st p).2 <-> pid ∈ st.2 \/ pid = p) as (H1 & H2 & H3).
    { unfold f. destruct (decide (p ∈ st.1)) as [Hp|Hp]; cbn [fst snd].
      - split_and!; [done..|]. intros pid. split; [tauto|]. intros [?| ->]; [done|by apply Hs].
      - split_and!.
        + apply NoDup_app. split_and!; [done| |apply NoDup_singleton]. intros x Hx ->%list_elem_of_singleton. by apply Hp, Hs.
        + intros pid. rewrite elem_of_union, elem_of_singleton, elem_of_app, list_elem_of_singleton, Hs. tauto.
        + intros pid. by rewrite elem_of_app, list_elem_of_singleton. }
    destruct (IH (f st p) H1 H2) as [H4 H5]. split; [done|]. intros pid. rewrite H5, H3, elem_of_cons. tauto. }
  destruct (Hf conns (∅, [])) as [H1 H2]; [constructor|set_solver|]. split; [done|]. intros pid. rewrite H2. set_solver.
Qed.

(** ** What merging does to a record *)
Section merging.
Context `{Addressing} `{MapRange}.

Lemma Update_origin pid addrs s db q r :
  PeerDB.peers (PeerDB.Update pid addrs s db) !! q = Some r ->
  PeerDB.peers db !! q = Some r \/
  q = pid /\ r = {| PeerDB.PeerID := pid; PeerDB.Addrs := addrs; PeerDB.SeenAt := s |}.
Proof.
  unfold PeerDB.Update. destruct (decide (pid = q)) as [->|Hne].
  - repeat case_match; cbn; rewrite ?lookup_insert_eq; naive_solver.
  - repeat case_match; cbn; rewrite ?lookup_insert_ne by done; naive_solver.
Qed.

Lemma Update_keeps pid addrs s db q r :
  PeerDB.peers db !! q = Some r ->
  exists r', PeerDB.peers (PeerDB.Update pid addrs s db) !! q = Some r' /\
    PeerDB.SeenAt r <= PeerDB.SeenAt r' /\ (PeerDB.SeenAt r' <= PeerDB.SeenAt r -> r' = r).
Proof.
  intros Hr. unfold PeerDB.Update, time_after. destruct (decide (pid = q)) as [->|Hne].
  - rewrite Hr. destruct (Z.ltb_spec (PeerDB.SeenAt r) s); cbn; [|eauto with lia].
    rewrite lookup_insert_eq. eexists. split; [done|]. cbn. split; lia.
  - repeat case_match; cbn; rewrite ?lookup_insert_ne by done; eauto with lia.
Qed.

Lemma Update_takes pid addrs s db :
  exists r, PeerDB.peers (PeerDB.Update pid addrs s db) !! pid = Some r /\ s <= PeerDB.SeenAt r.
Proof.
  unfold PeerDB.Update, time_after. destruct (PeerDB.peers db !! pid) as [r|] eqn:E; cbn.
  - destruct (Z.ltb_spec (PeerDB.SeenAt r) s); cbn; [rewrite lookup_insert_eq; eexists; split; [done|cbn; lia]|eauto].
  - rewrite lookup_insert_eq. eexists. split; [done|cbn; lia].
Qed.

(** The records of a message about [q]. *)
Definition about (q : string) (p : PeerInfo) : Prop := Decode (ID p) = Some q.

Lemma mergePeers_origin seen l : forall i me db q r,
  PeerDB.peers (mergePeers seen i me l db) !! q = Some r ->
  PeerDB.peers db !! q = Some r \/
  exists j p, l !! j = Some p /\ about q p /\ q <> me /\
    r = {| PeerDB.PeerID := q; PeerDB.Addrs := parseAddrs (Addrs p); PeerDB.SeenAt := seen (i + j)%nat p |}.
Proof.
  induction l as [|p l IH]; intros i me db q r Hr; [by left|]. cbn [mergePeers] in Hr.
  destruct (IH _ _ _ _ _ Hr) as [H1|(j & p' & Hj & Ha & Hq & ->)].
  - unfold mergePeer in H1. destruct (Decode (ID p)) as [pid|] eqn:Ed; [|by left].
    destruct (String.eqb_spec pid me) as [|Hne]; [by left|].
    apply Update_origin in H1 as [H1|[-> ->]]; [by left|]. right. exists 0%nat, p.
    rewrite Nat.add_0_r. by split_and!.
  - right. exists (S j), p'. rewrite Nat.add_succ_r. by split_and!.
Qed.

Lemma mergePeers_keeps seen l : forall i me db q r,
  PeerDB.peers db !! q = Some r ->
  exists r', PeerDB.peers (mergePeers seen i me l db) !! q = Some r' /\
    PeerDB.SeenAt r <= PeerDB.SeenAt r' /\ (PeerDB.SeenAt r' <= PeerDB.SeenAt r -> r' = r).
Proof.
  induction l as [|p l IH]; intros i me db q r Hr; cbn [mergePeers]; [eauto with lia|].
  assert (exists r', PeerDB.peers (mergePeer me (seen i p) p db) !! q = Some r' /\
    PeerDB.SeenAt r <= PeerDB.SeenAt r' /\ (PeerDB.SeenAt r' <= PeerDB.SeenAt r -> r' = r)) as (r1 & H1 & L1 & E1).
  { unfold mergePeer. destruct (Decode _); [|eauto with lia]. destruct (String.eqb _ _); [eauto with lia|].
    by apply Update_keeps. }
  destruct (IH (S i) me _ q r1 H1) as (r2 & H2 & L2 & E2). exists r2. split; [done|]. split; [lia|].
  intros H3. assert (r2 = r1) as -> by (apply E2; lia). by apply E1.
Qed.

Lemma mergePeers_takes seen l : forall i me db q j p,
  l !! j = Some p -> about q p -> q <> me ->
  exists r, PeerDB.peers (mergePeers seen i me l db) !! q = Some r /\ seen (i + j)%nat p <= PeerDB.SeenAt r.
Proof.
  induction l as [|p' l IH]; intros i me db q j p Hj Ha Hq; [done|]. cbn [mergePeers]. destruct j as [|j].
  - injection Hj as ->. rewrite Nat.add_0_r. unfold mergePeer at 1. rewrite Ha.
    destruct (String.eqb_spec q me) as [|_]; [done|].
    destruct (Update_takes q (parseAddrs (Addrs p)) (seen i p) db) as (r & Hr & Hle).
    destruct (mergePeers_keeps seen l (S i) me _ q r Hr) as (r' & Hr' & Hle' & _). exists r'. split; [done|lia].
  - rewrite <- Nat.add_succ_comm. by apply IH.
Qed.

Lemma mergePeers_ttl seen l : forall i me db, PeerDB.ttl (mergePeers seen i me l db) = PeerDB.ttl db.
Proof.
  induction l as [|p l IH]; intros i me db; [done|]. cbn [mergePeers]. rewrite IH. unfold mergePeer, PeerDB.Update.
  by repeat case_match.
Qed.

Lemma elem_of_List now db r :
  r ∈ PeerDB.List now db <->
  exists q, PeerDB.peers db !! q = Some r /\ time_sub now (PeerDB.SeenAt r) <= PeerDB.ttl db.
Proof.
  unfold PeerDB.List. rewrite list_elem_of_omap. unfold PeerDB.stale. split.
  - intros ([q r'] & Hin & E). apply elem_of_range in Hin. cbn in E.
    destruct (Z.ltb_spec (PeerDB.ttl db) (time_sub now (PeerDB.SeenAt r'))); simplify_eq. eauto.
  - intros (q & Hq & Hle). exists (q, r). split; [by apply elem_of_range|]. cbn.
    by destruct (Z.ltb_spec (PeerDB.ttl db) (time_sub now (PeerDB.SeenAt r))); [lia|].
Qed.
End merging.

(** ** Nodes and the messages between them *)
Inductive message :=
  | Req (from to : string) (m : PushMessage)
  | Resp (from to : string) (m : PushMessage).

(** [soup] is every message ever sent; [time] the common clock. *)
Record world := { nodes : gmap string node; soup : list message; time : Z }.

Inductive event :=
  | Push (x y : string) (now : Z)                          (* x sends its request to y *)
  | Handle (k : nat) (clock : nat -> Z) (fin : Z)          (* the addressee handles request k *)
  | Merge (k : nat) (clock : nat -> Z) (fin : Z)           (* the addressee merges answer k *)
  | Reconnect (x : string) (r : PeerDB.PeerRecord) (now : Z) (* x reached the peer of r, a record it listed before *)
  | Cleanup (x : string) (now : Z)
  | Readdress (x : string) (m : AddrManager.AddrManager (A := string)) (ip : option string) (relays : list string).

Section network.
Context `{Addressing} `{MapRange} (extractRelayPeerID : string -> res string).

Definition send (m : message) (w : world) : world :=
  {| nodes := nodes w; soup := soup w ++ [m]; time := time w |}.
Definition set_node (x : string) (n : node) (w : world) : world :=
  {| nodes := <[x := n]> (nodes w); soup := soup w; time := time w |}.
Definition at_time (t : Z) (w : world) : world := {| nodes := nodes w; soup := soup w; time := t |}.

(** When an event is over. *)
Definition end_time (w : world) (e : event) : Z :=
  match e with
  | Push _ _ now | Reconnect _ _ now | Cleanup _ now => now
  | Handle _ _ fin | Merge _ _ fin => fin
  | Readdress _ _ _ _ => time w
  end.

Definition happen (w : world) (e : event) : world :=
  match e with
  | Push x y now =>
      match nodes w !! x with
      | Some n => let '(n, m) := pushRequest extractRelayPeerID now n in send (Req x y m) (set_node x n w)
      | None => w
      end
  | Handle k clock fin =>
      match soup w !! k with
      | Some (Req x y m) =>
          match nodes w !! y with
          | Some n =>
              let '(n, resp) := HandlePushStream clock x (Some m) n in
              let w := set_node y n w in
              match resp with Some r => send (Resp y x r) w | None => w end
          | None => w
          end
      | _ => w
      end
  | Merge k clock fin =>
      match soup w !! k with
      | Some (Resp y x m) =>
          match nodes w !! x with
          | Some n => set_node x (mergeResponse clock m n) w
          | None => w
          end
      | _ => w
      end
  | Reconnect x r now =>
      match nodes w !! x with
      | Some n => if String.eqb (PeerDB.PeerID r) (self n) then w else set_node x (reconnected now r n) w
      | None => w
      end
  | Cleanup x now =>
      match nodes w !! x with
      | Some n => set_node x (set_peerdb (PeerDB.cleanup now (peerdb n)) n) w
      | None => w
      end
  | Readdress x m ip relays =>
      match nodes w !! x with
      | Some n => set_node x {| self := self n; peerdb := peerdb n; addrmgr := m; turnPool := turnPool n;
                                acceptMapped := ip; relayAddrs := relays |} w
      | None => w
      end
  end.

Definition apply (w : world) (e : event) : world := at_time (end_time w e) (happen w e).

(** The clock does not go back, and reads a modern time. *)
Definition event_ok (w : world) (e : event) : Prop :=
  match e with
  | Push _ _ now | Reconnect _ _ now | Cleanup _ now => time w <= now /\ modern now
  | Handle _ clock fin | Merge _ clock fin => (forall i, time w <= clock i <= fin /\ modern (clock i)) /\ modern fin
  | Readdress _ _ _ _ => True
  end.

Fixpoint events_ok (w : world) (l : list event) : Prop :=
  match l with [] => True | e :: l => event_ok w e /\ events_ok (apply w e) l end.

Definition run (l : list event) (w : world) : world := foldl apply w l.

(** When [q] is heard of in person: a request of its own is handled somewhere, or
    somebody reaches it. *)
Definition contact (w : world) (e : event) (q : string) : option Z :=
  match e with
  | Handle k _ fin => match soup w !! k with
                      | Some (Req x _ _) => if String.eqb x q then Some fin else None
                      | _ => None
                      end
  | Reconnect _ r now => if String.eqb (PeerDB.PeerID r) q then Some now else None
  | _ => None
  end.

Definition contacted (c : string -> option Z) (w : world) (e : event) (q : string) : option Z :=
  match contact w e q with Some t => Some t | None => c q end.

(** The last contact with each peer. *)
Fixpoint contacts (w : world) (l : list event) (c : string -> option Z) : string -> option Z :=
  match l with [] => c | e :: l => contacts (apply w e) l (contacted c w e) end.

(** [c q] is set and not before [s]. *)
Definition since (c : string -> option Z) (q : string) (s : Z) : Prop := exists t, c q = Some t /\ s <= t.

Definition node_ok (c : string -> option Z) (x : string) (n : node) : Prop :=
  self n = x /\ forall q r, PeerDB.peers (peerdb n) !! q = Some r ->
    PeerDB.PeerID r = q /\ q <> x /\ modern (PeerDB.SeenAt r) /\ since c q (PeerDB.SeenAt r).

Definition message_ok (c : string -> option Z) (m : message) : Prop :=
  match m with
  | Req x _ m => Forall (fun p => forall q, about q p -> q = x) (Peers m)
  | Resp _ _ m => Forall (fun p => forall q, about q p ->
      0 < SeenAt p /\ modern (fromUnixMilli (SeenAt p)) /\ since c q (fromUnixMilli (SeenAt p))) (Peers m)
  end.

Record world_ok (c : string -> option Z) (w : world) : Prop := {
  ok_nodes : map_Forall (node_ok c) (nodes w);
  ok_soup : Forall (message_ok c) (soup w);
  ok_time : forall q t, c q = Some t -> t <= time w
}.

(** Later contacts keep what was known. *)
Definition later (c c' : string -> option Z) : Prop := forall q t, c q = Some t -> since c' q t.

Lemma since_later c c' q s : later c c' -> since c q s -> since c' q s.
Proof. intros Hl (t & Ht & Hs). destruct (Hl q t Ht) as (t' & Ht' & Hs'). exists t'. split; [done|lia]. Qed.

Lemma node_ok_later c c' x n : later c c' -> node_ok c x n -> node_ok c' x n.
Proof. intros Hl [Hx Hr]. split; [done|]. intros q r Hq. destruct (Hr q r Hq) as (? & ? & ? & Hs). by eauto using since_later. Qed.

Lemma message_ok_later c c' m : later c c' -> message_ok c m -> message_ok c' m.
Proof.
  intros Hl. destruct m as [x y m|x y m]; cbn; [done|].
  intros Hf. eapply Forall_impl; [exact Hf|]. intros p Hp q Ha.
  destruct (Hp q Ha) as (? & ? & Hs). eauto using since_later.
Qed.

Lemma event_time w e : event_ok w e -> time w <= end_time w e.
Proof. destruct e; cbn; try lia. all: intros [Hc _]; specialize (Hc 0%nat); lia. Qed.

Lemma contact_time w e q t : contact w e q = Some t -> t = end_time w e.
Proof. destruct e; cbn; repeat case_match; naive_solver. Qed.

Lemma contacted_later c w e : event_ok w e -> (forall q t, c q = Some t -> t <= time w) -> later c (contacted c w e).
Proof.
  intros He Hc q t Ht. unfold since, contacted. destruct (contact w e q) as [t'|] eqn:E; [|eauto with lia].
  apply contact_time in E as ->. exists (end_time w e). split; [done|]. pose proof (event_time w e He).
  specialize (Hc q t Ht). lia.
Qed.

Lemma set_node_ok c w x n : world_ok c w -> node_ok c x n -> world_ok c (set_node x n w).
Proof. intros [Hn Hs Ht] Hx. split; cbn; [|done..]. by apply map_Forall_insert_2. Qed.

Lemma contacted_ok c w e : world_ok c w -> event_ok w e -> world_ok (contacted c w e) (at_time (end_time w e) w).
Proof.
  intros [Hn Hs Ht] He. pose proof (contacted_later c w e He Ht) as Hl. split; cbn.
  - eapply map_Forall_impl; [exact Hn|]. eauto using node_ok_later.
  - eapply Forall_impl; [exact Hs|]. eauto using message_ok_later.
  - intros q t. unfold contacted. destruct (contact w e q) eqn:E.
    + intros [= <-]. apply contact_time in E. lia.
    + intros Hc. pose proof (Ht q t Hc). pose proof (event_time w e He). lia.
Qed.

Lemma send_ok c m w : message_ok c m -> world_ok c w -> world_ok c (send m w).
Proof. intros Hm [Hn Hs Ht]. split; cbn; [done| |done]. apply Forall_app. auto. Qed.

Lemma modern_ms t : modern t -> 0 < UnixMilli t /\ modern (fromUnixMilli (UnixMilli t)) /\ fromUnixMilli (UnixMilli t) <= t.
Proof. intros Ht. destruct (unix_trip t Ht) as (H1 & H2 & H3). split_and!; [done| |done]. unfold modern, fromUnixMilli, millisecond in *. lia. Qed.

(** The request of a node names the node. *)
Lemma pushRequest_ok c x n now n' m :
  node_ok c x n -> pushRequest extractRelayPeerID now n = (n', m) ->
  node_ok c x n' /\ forall y, message_ok c (Req x y m).
Proof.
  intros [Hx Hr]. unfold pushRequest. destruct (AddrManager.GetAll _ _ _ _) as [addrs am]. intros [= <- <-].
  split; [done|]. intros y. cbn. apply Forall_cons. split; [|apply Forall_nil_2]. intros q Hq.
  apply decode_string in Hq. by rewrite Hx in Hq.
Qed.

(** What a node merges is as old as the last contact. *)
Lemma merge_ok c x n seen l :
  node_ok c x n ->
  (forall j p q, l !! j = Some p -> about q p -> modern (seen j p) /\ since c q (seen j p)) ->
  node_ok c x (set_peerdb (mergePeers seen 0 (self n) l (peerdb n)) n).
Proof.
  intros [Hx Hr] Hl. split; [done|]. intros q r Hq. cbn in Hq.
  apply mergePeers_origin in Hq as [Hq|(j & p & Hj & Ha & Hne & ->)]; [by apply Hr|].
  rewrite Nat.add_0_l. cbn. destruct (Hl j p q Hj Ha). rewrite <- Hx. by split_and!.
Qed.

(** An answer tells sightings no newer than the last contacts. *)
Lemma answer_ok c x y n l :
  node_ok c x n -> Forall (fun r => exists q, PeerDB.peers (peerdb n) !! q = Some r) l ->
  message_ok c (Resp x y {| Peers := peerInfo n <$> l; TS := 0 |}).
Proof.
  intros [Hx Hr] Hl. cbn. apply Forall_fmap. eapply Forall_impl; [exact Hl|]. intros r (q & Hq) q' Ha. cbn in Ha |- *.
  apply decode_string in Ha as ->. destruct (Hr q r Hq) as (-> & _ & Hm & t & Ht & Hle).
  destruct (modern_ms _ Hm) as (H1 & H2 & H3). split_and!; [done..|]. exists t. split; [done|lia].
Qed.

(** A handler leaves its node with the merged database. *)
Lemma handle_ok c clock x y m n n' resp :
  node_ok c y n -> (forall j p q, Peers m !! j = Some p -> about q p -> modern (clock j) /\ since c q (clock j)) ->
  HandlePushStream clock x (Some m) n = (n', resp) ->
  node_ok c y n' /\ forall r, resp = Some r -> message_ok c (Resp y x r).
Proof.
  intros Hn Hm. cbn [HandlePushStream]. set (n1 := set_peerdb _ n). set (n2 := set_turn _ n1). intros [= <- <-].
  assert (node_ok c y n2) as H2 by exact (merge_ok c y n (fun i _ => clock i) (Peers m) Hn Hm).
  split; [done|]. intros r [= <-]. apply (answer_ok c y x n2 _ H2). apply Forall_forall. intros r Hr.
  apply list_elem_of_filter in Hr as [_ Hr]. apply elem_of_List in Hr as (q & Hq & _). eauto.
Qed.

Lemma apply_ok c w e : world_ok c w -> event_ok w e -> world_ok (contacted c w e) (apply w e).
Proof.
  intros Hw He. pose proof (contacted_ok c w e Hw He) as Hc.
  assert (forall q t, contact w e q = Some t -> since (contacted c w e) q t) as Hq.
  { intros q t E. exists t. unfold contacted. by rewrite E. }
  unfold apply. set (c' := contacted c w e) in *. set (t := end_time w e) in *.
  destruct e as [x y now|k clock fin|k clock fin|x rec now|x now|x m ip relays]; cbn [happen].
  - destruct (nodes w !! x) as [n|] eqn:Ex; [|done].
    destruct (pushRequest _ now n) as [n' m] eqn:Ep.
    destruct (pushRequest_ok c' x n now n' m (ok_nodes _ _ Hc x n Ex) Ep) as [Hn Hm].
    exact (send_ok c' _ _ (Hm y) (set_node_ok c' _ x n' Hc Hn)).
  - destruct (soup w !! k) as [[x y m|]|] eqn:Ek; [|done..]. destruct (nodes w !! y) as [n|] eqn:Ey; [|done].
    destruct (HandlePushStream clock x (Some m) n) as [n' resp] eqn:Eh. destruct He as [He _].
    pose proof (Forall_lookup_1 _ _ _ _ (ok_soup _ _ Hw) Ek) as Hm. cbn in Hm.
    destruct (handle_ok c' clock x y m n n' resp (ok_nodes _ _ Hc y n Ey)) as [Hn Hr]; [|exact Eh|].
    { intros j p q Hj Ha. destruct (He j) as [Hb Hmod]. split; [done|].
      rewrite (Forall_lookup_1 _ _ _ _ Hm Hj q Ha). exists fin. split; [|lia].
      unfold c', contacted. cbn. by rewrite Ek, String.eqb_refl. }
    pose proof (set_node_ok c' _ y n' Hc Hn) as Hs. destruct resp as [r|]; [|exact Hs].
    exact (send_ok c' _ _ (Hr r eq_refl) Hs).
  - destruct (soup w !! k) as [[|y x m]|] eqn:Ek; [done| |done]. destruct (nodes w !! x) as [n|] eqn:Ex; [|done].
    pose proof (Forall_lookup_1 _ _ _ _ (ok_soup _ _ Hc) Ek) as Hm. cbn in Hm.
    apply (set_node_ok c' (at_time t w) x _ Hc). apply (merge_ok c' x n _ _ (ok_nodes _ _ Hc x n Ex)).
    intros j p q Hj Ha. destruct (Forall_lookup_1 _ _ _ _ Hm Hj q Ha) as (H1 & H2 & H3).
    unfold respSeenAt. destruct (Z.ltb_spec 0 (SeenAt p)); [done|lia].
  - destruct (nodes w !! x) as [n|] eqn:Ex; [|done]. destruct (ok_nodes _ _ Hc x n Ex) as [Hs Hr].
    destruct (String.eqb_spec (PeerDB.PeerID rec) (self n)) as [|Hne]; [done|].
    apply (set_node_ok c' (at_time t w) x _ Hc). split; [done|]. intros q' r' Hr'. cbn in Hr'.
    apply Update_origin in Hr' as [Hr'|[-> ->]]; [by apply Hr|]. cbn. rewrite Hs in Hne. split_and!; [done..|by apply He|].
    apply Hq. cbn. by rewrite String.eqb_refl.
  - destruct (nodes w !! x) as [n|] eqn:Ex; [|done]. apply (set_node_ok c' (at_time t w) x _ Hc).
    destruct (ok_nodes _ _ Hc x n Ex) as [Hs Hr]. split; [done|]. intros q r Hr'.
    cbn [set_peerdb peerdb] in Hr'. rewrite PeerDB.cleanup_lookup in Hr'. apply Hr. by repeat case_match; simplify_eq.
  - destruct (nodes w !! x) as [n|] eqn:Ex; [|done]. apply (set_node_ok c' (at_time t w) x _ Hc).
    by destruct (ok_nodes _ _ Hc x n Ex).
Qed.

Lemma gossip_run_ok l : forall c w, world_ok c w -> events_ok w l -> world_ok (contacts w l c) (run l w).
Proof.
  induction l as [|e l IH]; intros c w Hw Hl; [done|]. destruct Hl as [He Hl]. cbn.
  apply IH; [|done]. by apply apply_ok.
Qed.

(** A network that begins: every node knows its id and nobody else. *)
Definition begins (w : world) : Prop :=
  soup w = [] /\ map_Forall (fun x n => self n = x /\ PeerDB.peers (peerdb n) = ∅) (nodes w).

Definition nobody (q : string) : option Z := None.

(** C12. Sightings that are passed on do not get newer: in a network of these nodes,
    whatever messages are lost, late or repeated, no node ever has a record of itself,
    no record of a peer is newer than the last time some node heard the peer in person,
    and a peer nobody heard of for longer than the time to live is in no list. *)
Theorem gossip_no_refresh w l x n :
  begins w -> events_ok w l -> nodes (run l w) !! x = Some n ->
  (forall q r, PeerDB.peers (peerdb n) !! q = Some r ->
     PeerDB.PeerID r = q /\ q <> x /\ exists t, contacts w l nobody q = Some t /\ PeerDB.SeenAt r <= t) /\
  (forall q now, (forall t, contacts w l nobody q = Some t -> PeerDB.ttl (peerdb n) < time_sub now t) ->
     PeerDB.Get now q (peerdb n) = None /\
     Forall (fun r => PeerDB.PeerID r <> q) (PeerDB.List now (peerdb n))).
Proof.
  intros [Hs Hn] Hl Hx.
  assert (world_ok nobody w) as Hw.
  { split; [|by rewrite Hs; apply Forall_nil_2|done]. intros y m Hy. destruct (Hn y m Hy) as [H1 H2].
    split; [done|]. intros q r. by rewrite H2, lookup_empty. }
  destruct (ok_nodes _ _ (gossip_run_ok l nobody w Hw Hl) x n Hx) as [_ Hr].
  split; [intros q r Hq; destruct (Hr q r Hq) as (? & ? & _ & ?); by split_and!|].
  intros q now Hold.
  assert (forall r, PeerDB.peers (peerdb n) !! q = Some r -> PeerDB.ttl (peerdb n) < time_sub now (PeerDB.SeenAt r)) as Hst.
  { intros r Hq. destruct (Hr q r Hq) as (_ & _ & _ & t & Ht & Hle). specialize (Hold t Ht).
    unfold time_sub in *. lia. }
  split.
  - unfold PeerDB.Get, PeerDB.stale. destruct (PeerDB.peers (peerdb n) !! q) as [r|]; [|done].
    by destruct (Z.ltb_spec (PeerDB.ttl (peerdb n)) (time_sub now (PeerDB.SeenAt r))); [|specialize (Hst r eq_refl); lia].
  - apply Forall_forall. intros r Hin Hq. apply elem_of_List in Hin as (q' & Hq' & Hle).
    destruct (Hr q' r Hq') as (Hid & _). assert (q' = q) as -> by congruence. specialize (Hst r Hq'). lia.
Qed.
End network.

(** ** Reconnecting *)
Section reconnecting.
Context `{MapRange}.

(** The loop is a sequence of renewed sightings, each of a record it listed. *)
Lemma reconnectLoop_steps env l : forall n, exists l',
  l' `sublist_of` l /\ reconnectLoop env l n = foldl (fun n r => reconnected (d_now (env (PeerDB.PeerID r))) r n) n l' /\
  Forall (fun r => d_connects (env (PeerDB.PeerID r)) = true /\ d_pings (env (PeerDB.PeerID r)) = true) l'.
Proof.
  induction l as [|r l IH]; intros n; [by exists []|]. cbn [reconnectLoop].
  assert (forall n', exists l', l' `sublist_of` r :: l /\
    reconnectLoop env l n' = foldl (fun n r => reconnected (d_now (env (PeerDB.PeerID r))) r n) n' l' /\
    Forall (fun r => d_connects (env (PeerDB.PeerID r)) = true /\ d_pings (env (PeerDB.PeerID r)) = true) l') as Hskip.
  { intros n'. destruct (IH n') as (l' & H1 & H2 & H3). exists l'. split_and!; [by apply sublist_cons|done|done]. }
  assert (exists l' : list PeerDB.PeerRecord, l' `sublist_of` r :: l /\
    n = foldl (fun n r => reconnected (d_now (env (PeerDB.PeerID r))) r n) n l' /\
    Forall (fun r => d_connects (env (PeerDB.PeerID r)) = true /\ d_pings (env (PeerDB.PeerID r)) = true) l') as Hstop.
  { exists []. split_and!; [apply sublist_nil_l|done|done]. }
  destruct (d_connected _); [apply Hskip|]. destruct (20 <? _); [exact Hstop|].
  destruct (PeerDB.Addrs r); [apply Hskip|]. destruct (d_connects _) eqn:Ec; cbn [negb]; [|apply Hskip].
  destruct (d_pings _) eqn:Ep; [|destruct (d_done _); [exact Hstop|apply Hskip]].
  destruct (d_done _).
  - exists [r]. split_and!; [apply sublist_skip, sublist_nil_l|done|]. apply Forall_singleton. by split.
  - destruct (IH (reconnected (d_now (env (PeerDB.PeerID r))) r n)) as (l' & H1 & H2 & H3).
    exists (r :: l'). split_and!; [by apply sublist_skip|done|]. apply Forall_cons. by split.
Qed.

(** Reconnecting forgets nobody, and renews exactly sightings of peers that answered. *)
Theorem reconnect_renews now env n q r :
  PeerDB.peers (peerdb n) !! q = Some r ->
  exists r', PeerDB.peers (peerdb (reconnectFromPeerDB now env n)) !! q = Some r' /\
    PeerDB.SeenAt r <= PeerDB.SeenAt r' /\
    (r' <> r -> d_pings (env q) = true /\ PeerDB.SeenAt r' = d_now (env q)).
Proof.
  intros Hr. unfold reconnectFromPeerDB.
  destruct (reconnectLoop_steps env (PeerDB.List now (peerdb n)) n) as (l' & _ & -> & Hl').
  assert (exists r', PeerDB.peers (peerdb n) !! q = Some r' /\ PeerDB.SeenAt r <= PeerDB.SeenAt r' /\
    (r' <> r -> d_pings (env q) = true /\ PeerDB.SeenAt r' = d_now (env q))) as H0 by (exists r; split_and!; [done|lia|done]).
  clear Hr. revert n H0. induction Hl' as [|x l' [_ Hx] _ IH]; intros n (r1 & H1 & L1 & E1); [eauto|].
  cbn [foldl]. apply IH. cbn [reconnected set_peerdb peerdb].
  destruct (Update_keeps (PeerDB.PeerID x) (PeerDB.Addrs x) (d_now (env (PeerDB.PeerID x))) (peerdb n) q r1 H1) as (r2 & H2 & L2 & E2).
  exists r2. split; [done|]. split; [lia|]. intros Hne.
  apply Update_origin in H2 as [H2|[-> ->]]; [|by split]. assert (r2 = r1) as -> by congruence. by apply E1.
Qed.
End reconnecting.

(** ** One exchange *)
Section exchange.
Context `{Addressing} `{MapRange} (extractRelayPeerID : string -> res string).

(** [PushToPeer] of [nx] against [HandlePushStream] of [ny], over a stream that works:
    both nodes afterwards. *)
Definition exchange (now : Z) (cx cy : nat -> Z) (nx ny : node) : node * node :=
  let '(nx1, req) := pushRequest extractRelayPeerID now nx in
  match HandlePushStream cy (self nx) (Some req) ny with
  | (ny', Some resp) => (mergeResponse cx resp nx1, ny')
  | (ny', None) => (nx1, ny')
  end.

(** The sightings [ny] answers with. *)
Definition told (cy : nat -> Z) (x : string) (ny : node) : list PeerDB.PeerRecord :=
  filter (fun r => PeerDB.PeerID r <> self ny /\ PeerDB.PeerID r <> x) (PeerDB.List (cy 1%nat) (peerdb ny)).

Lemma exchange_nodes now cx cy nx ny :
  let '(nx', ny') := exchange now cx cy nx ny in
  let addrs := (AddrManager.GetAll (fun a => a) extractRelayPeerID now (addrmgr nx)).1 in
  peerdb ny' = mergePeer (self ny) (cy 0%nat)
    {| ID := IDString (self nx); Addrs := addrs; MappedAddrs := mappedAddrs nx; AllocedAddrs := relayAddrs nx; SeenAt := 0 |}
    (peerdb ny) /\
  self ny' = self ny /\
  peerdb nx' = mergePeers (respSeenAt cx) 0 (self nx) (peerInfo ny' <$> told cy (self nx) ny') (peerdb nx).
Proof.
  unfold exchange, pushRequest, told. destruct (AddrManager.GetAll _ _ _ _) as [addrs m]. cbn [HandlePushStream Peers].
  cbn. by split_and!.
Qed.

(** One exchange: the peer learns the sender, with the addresses the sender advertises
    and the time of the handling; the sender learns every other peer the answerer has a
    live sighting of, no more than a millisecond older, and nothing else; nobody forgets
    anything, and neither learns itself. *)
Theorem push_exchange now cx cy nx ny nx' ny' :
  self nx <> self ny -> Decode (IDString (self nx)) = Some (self nx) ->
  exchange now cx cy nx ny = (nx', ny') ->
  let addrs := (AddrManager.GetAll (fun a => a) extractRelayPeerID now (addrmgr nx)).1 in
  let old := PeerDB.peers (peerdb ny) !! self nx in
  (PeerDB.peers (peerdb ny') !! self nx =
     match old with
     | Some r => if PeerDB.SeenAt r <? cy 0%nat
                 then Some {| PeerDB.PeerID := self nx; PeerDB.Addrs := parseAddrs addrs; PeerDB.SeenAt := cy 0%nat |}
                 else old
     | None => Some {| PeerDB.PeerID := self nx; PeerDB.Addrs := parseAddrs addrs; PeerDB.SeenAt := cy 0%nat |}
     end) /\
  (forall q, q <> self nx -> PeerDB.peers (peerdb ny') !! q = PeerDB.peers (peerdb ny) !! q) /\
  (forall r, r ∈ told cy (self nx) ny' -> Decode (IDString (PeerDB.PeerID r)) = Some (PeerDB.PeerID r) ->
     modern (PeerDB.SeenAt r) ->
     exists r', PeerDB.peers (peerdb nx') !! PeerDB.PeerID r = Some r' /\
       PeerDB.SeenAt r - millisecond < PeerDB.SeenAt r') /\
  (forall q r, PeerDB.peers (peerdb nx) !! q = Some r ->
     exists r', PeerDB.peers (peerdb nx') !! q = Some r' /\ PeerDB.SeenAt r <= PeerDB.SeenAt r') /\
  (forall q r', PeerDB.peers (peerdb nx') !! q = Some r' ->
     PeerDB.peers (peerdb nx) !! q = Some r' \/
     q <> self nx /\ exists r, r ∈ told cy (self nx) ny' /\ PeerDB.PeerID r = q /\
       PeerDB.Addrs r' = parseAddrs (PeerDB.Addrs r) /\
       (modern (PeerDB.SeenAt r) -> PeerDB.SeenAt r - millisecond < PeerDB.SeenAt r' <= PeerDB.SeenAt r)).
Proof.
  intros Hne Hd E addrs old. pose proof (exchange_nodes now cx cy nx ny) as Hx. rewrite E in Hx.
  destruct Hx as (Ey & Es & Ex). fold addrs in Ey. unfold mergePeer in Ey. cbn [ID Addrs] in Ey.
  rewrite Hd in Ey. destruct (String.eqb_spec (self nx) (self ny)) as [|_]; [done|].
  assert (forall r, modern (PeerDB.SeenAt r) -> let t := respSeenAt cx 0 (peerInfo ny' r) in
    PeerDB.SeenAt r - millisecond < t <= PeerDB.SeenAt r) as Hms.
  { intros r Hm. unfold respSeenAt. cbn. destruct (unix_trip _ Hm) as (H1 & H2 & H3).
    destruct (Z.ltb_spec 0 (UnixMilli (PeerDB.SeenAt r))); lia. }
  assert (forall i r, modern (PeerDB.SeenAt r) -> respSeenAt cx i (peerInfo ny' r) = respSeenAt cx 0 (peerInfo ny' r)) as Hi.
  { intros i r Hm. unfold respSeenAt. cbn. destruct (unix_trip _ Hm) as (H1 & _).
    by destruct (Z.ltb_spec 0 (UnixMilli (PeerDB.SeenAt r))); [|lia]. }
  split; [|split; [|split; [|split]]].
  - rewrite Ey. unfold PeerDB.Update, time_after. fold old. destruct old as [r|] eqn:Eo; cbn; [|by rewrite lookup_insert_eq].
    destruct (Z.ltb_spec (PeerDB.SeenAt r) (cy 0%nat)); cbn; [by rewrite lookup_insert_eq|done].
  - intros q Hq. rewrite Ey. unfold PeerDB.Update. by repeat case_match; cbn; rewrite ?lookup_insert_ne by done.
  - intros r Hr Hdr Hm. apply list_elem_of_lookup in Hr as Hr'. destruct Hr' as [j Hj].
    assert (PeerDB.PeerID r <> self nx) as Hrx by (apply list_elem_of_filter in Hr; tauto).
    destruct (mergePeers_takes (respSeenAt cx) (peerInfo ny' <$> told cy (self nx) ny') 0 (self nx) (peerdb nx)
      (PeerDB.PeerID r) j (peerInfo ny' r)) as (r' & Hr' & Hle); [by rewrite list_lookup_fmap, Hj|done|done|].
    rewrite <- Ex in Hr'. exists r'. split; [done|]. rewrite Hi in Hle by done. specialize (Hms r Hm). cbn in Hms. lia.
  - intros q r Hq. rewrite Ex. destruct (mergePeers_keeps (respSeenAt cx) (peerInfo ny' <$> told cy (self nx) ny') 0
      (self nx) (peerdb nx) q r Hq) as (r' & H1 & H2 & _). eauto.
  - intros q r' Hq. rewrite Ex in Hq. apply mergePeers_origin in Hq as [Hq|(j & p & Hj & Ha & Hqx & ->)]; [by left|].
    right. split; [done|]. rewrite list_lookup_fmap in Hj. destruct (told _ _ _ !! j) as [r|] eqn:Er; [|done].
    injection Hj as <-. exists r. split; [by eapply list_elem_of_lookup_2|]. split; [by apply decode_string in Ha|].
    split; [done|]. cbn. intros Hm. rewrite Hi by done. by apply Hms.
Qed.

(** The answer is believed: a time far ahead pins the record, with the addresses that came
    with it.  Whatever is learned until then, in person or from others, is ignored, the
    record is listed, and the cleanup keeps it. *)
Theorem future_sighting_sticks clock n p q l :
  about q p -> q <> self n -> 0 < SeenAt p ->
  (forall r, PeerDB.peers (peerdb n) !! q = Some r -> PeerDB.SeenAt r < fromUnixMilli (SeenAt p)) ->
  Forall (fun o => match o with
    | PeerDB.OpUpdate _ _ seenAt => seenAt <= fromUnixMilli (SeenAt p)
    | PeerDB.OpCleanup now => now <= fromUnixMilli (SeenAt p)
    end) l -> 0 <= PeerDB.ttl (peerdb n) ->
  let db := foldl PeerDB.apply_op (peerdb (mergeResponse clock {| Peers := [p]; TS := 0 |} n)) l in
  forall now, now <= fromUnixMilli (SeenAt p) ->
    PeerDB.Get now q db =
      Some {| PeerDB.PeerID := q; PeerDB.Addrs := parseAddrs (Addrs p); PeerDB.SeenAt := fromUnixMilli (SeenAt p) |}.
Proof.
  intros Ha Hq Hp Hold Hl Httl db.
  set (T := fromUnixMilli (SeenAt p)) in *. set (rec := {| PeerDB.PeerID := q; PeerDB.Addrs := _; PeerDB.SeenAt := T |}).
  assert (forall now d, now <= T -> 0 <= PeerDB.ttl d -> PeerDB.stale now d rec = false) as Hst.
  { intros now d Hn Hd. unfold PeerDB.stale, time_sub, min_int64. cbn.
    destruct (Z.ltb_spec (PeerDB.ttl d) (Z.max (- 2 ^ 63) (Z.min max_int64 (now - T)))); lia. }
  assert (PeerDB.peers db !! q = Some rec /\ 0 <= PeerDB.ttl db) as [Hdb Ht].
  { subst db. set (d0 := peerdb (mergeResponse _ _ _)).
    assert (PeerDB.peers d0 !! q = Some rec /\ 0 <= PeerDB.ttl d0) as H0'.
    { subst d0. cbn. unfold mergePeer. rewrite Ha. destruct (String.eqb_spec q (self n)) as [|_]; [done|].
      unfold respSeenAt. destruct (Z.ltb_spec 0 (SeenAt p)); [|lia]. fold T. unfold PeerDB.Update, time_after.
      destruct (PeerDB.peers (peerdb n) !! q) as [r|] eqn:E; cbn; [|by rewrite lookup_insert_eq].
      specialize (Hold r eq_refl). destruct (Z.ltb_spec (PeerDB.SeenAt r) T); [|lia]. cbn. by rewrite lookup_insert_eq. }
    clearbody d0. revert d0 H0'. induction Hl as [|o l Ho _ IH]; intros d [H1 H2]; [done|]. cbn [foldl]. apply IH.
    destruct o as [pid addrs s|now]; cbn [PeerDB.apply_op].
    - split; [|unfold PeerDB.Update; by repeat case_match].
      destruct (Update_keeps pid addrs s d q rec H1) as (r' & Hr' & _ & He). rewrite Hr'. f_equal. apply He.
      apply Update_origin in Hr' as [Hr'|[_ ->]]; [|done]. rewrite H1 in Hr'. by simplify_eq.
    - split; [|done]. rewrite PeerDB.cleanup_lookup, H1. by rewrite Hst. }
  intros now Hn. unfold PeerDB.Get. rewrite Hdb, Hst by done. done.
Qed.
End exchange.

(** ** Witnesses *)
Section witnesses.
#[local] Instance push_range : MapRange := map_to_list_range.

Definition nonempty (s : string) : option string := if String.eqb s "" then None else Some s.

Lemma nonempty_Some s t : nonempty s = Some t -> t = s.
Proof. unfold nonempty. case_match; naive_solver. Qed.

#[local] Instance plain_addressing : Addressing.
Proof.
  refine {| Decode := nonempty; IDString := id; NewMultiaddr := nonempty |}.
  - intros. by apply nonempty_Some.
  - intros s m Hm. pose proof (nonempty_Some s m Hm) as ->. exact Hm.
Defined.

Definition no_relay (_ : string) : res string := Fail "not a relay address".

Definition newcomer (x : string) (addrs : list string) : node :=
  {| self := x; peerdb := PeerDB.NewPeerDB (600 * minute); addrmgr := AddrManager.SetLocal addrs AddrManager.NewAddrManager;
     turnPool := Pool.NewTurnPool; acceptMapped := None; relayAddrs := [] |}.

(** [a] and then [c] push to [b]; [c] merges the answer. *)
Definition three : world :=
  {| nodes := {[ "a" := newcomer "a" ["/ip4/9.9.9.9"]; "b" := newcomer "b" []; "c" := newcomer "c" [] ]};
     soup := []; time := epoch |}.
Definition meeting : list event :=
  [Push "a" "b" (epoch + second); Handle 0 (fun _ => epoch + 2 * second) (epoch + 2 * second);
   Push "c" "b" (epoch + 3 * second); Handle 2 (fun _ => epoch + 4 * second) (epoch + 4 * second);
   Merge 3 (fun _ => epoch + 5 * second) (epoch + 5 * second)].

Definition seen_by (x q : string) (w : world) : option Z :=
  n ← nodes w !! x; PeerDB.SeenAt <$> PeerDB.peers (peerdb n) !! q.

Lemma three_begins : begins three.
Proof. split; [done|]. unfold three. cbn [nodes].
  do 2 (apply map_Forall_insert_2; [by split|]). apply map_Forall_singleton. by split. Qed.

Lemma meeting_ok : events_ok no_relay three meeting.
Proof. cbn -[Z.add Z.mul epoch]. unfold modern, epoch, unix_epoch, second, millisecond. repeat split; intros; lia. Qed.

(** [c] knows [a] from [b], as old as [b] does; nobody lists it ten hours later. *)
Lemma gossip_no_refresh_witness :
  seen_by "c" "a" (run no_relay meeting three) = Some (epoch + 2 * second) /\
  forall n, nodes (run no_relay meeting three) !! "c" = Some n ->
    PeerDB.Get (epoch + 601 * minute) "a" (peerdb n) = None.
Proof.
  split; [vm_compute; reflexivity|]. intros n Hn.
  refine (proj1 (proj2 (gossip_no_refresh no_relay three meeting "c" n three_begins meeting_ok Hn) "a" _ _)).
  intros t Ht.
  assert (t = epoch + 2 * second) as -> by (vm_compute in Ht; injection Ht as <-; reflexivity).
  assert (PeerDB.ttl (peerdb n) = 600 * minute) as -> by (vm_compute in Hn; injection Hn as <-; reflexivity).
  vm_compute. reflexivity.
Defined.

Lemma push_exchange_witness :
  let r := exchange no_relay epoch (fun _ => epoch) (fun _ => epoch) (newcomer "a" ["/ip4/9.9.9.9"]) (newcomer "b" []) in
  PeerDB.peers (peerdb r.2) !! "a" =
    Some {| PeerDB.PeerID := "a"; PeerDB.Addrs := ["/ip4/9.9.9.9"]; PeerDB.SeenAt := epoch |}.
Proof.
  intros r.
  exact (proj1 (push_exchange no_relay epoch (fun _ => epoch) (fun _ => epoch) (newcomer "a" ["/ip4/9.9.9.9"])
    (newcomer "b" []) r.1 r.2 ltac:(done) eq_refl (surjective_pairing r))).
Defined.

(** [b] says it saw [a] in the year 2286: what [a] says of itself today is ignored. *)
Lemma future_sighting_sticks_witness :
  let p := {| ID := "a"; Addrs := ["/ip4/6.6.6.6"]; MappedAddrs := []; AllocedAddrs := []; SeenAt := 10000000000000 |} in
  PeerDB.Addrs <$> PeerDB.Get epoch "a" (foldl PeerDB.apply_op
    (peerdb (mergeResponse (fun _ => epoch) {| Peers := [p]; TS := 0 |} (newcomer "c" [])))
    [PeerDB.OpUpdate "a" ["/ip4/9.9.9.9"] epoch]) = Some ["/ip4/6.6.6.6"].
Proof.
  intros p.
  rewrite (future_sighting_sticks (fun _ => epoch) (newcomer "c" []) p "a" [PeerDB.OpUpdate "a" ["/ip4/9.9.9.9"] epoch]);
    [reflexivity|reflexivity|done|reflexivity| | |vm_compute; congruence|vm_compute; congruence].
  - intros r. cbn. by rewrite lookup_empty.
  - apply Forall_cons_2; [vm_compute; congruence|apply Forall_nil_2].
Defined.

(** Of two records one peer answers. *)
Lemma reconnect_renews_witness :
  let db := PeerDB.Update "a" ["/ip4/9.9.9.9"] epoch (PeerDB.NewPeerDB minute) in
  let env q := {| d_connected := false; d_conns := 0; d_connects := true; d_pings := String.eqb q "a";
                  d_now := epoch + second; d_done := false |} in
  exists r', PeerDB.peers (peerdb (reconnectFromPeerDB epoch env (set_peerdb db (newcomer "c" [])))) !! "a" = Some r' /\
    epoch <= PeerDB.SeenAt r'.
Proof.
  intros db env.
  destruct (reconnect_renews epoch env (set_peerdb db (newcomer "c" [])) "a"
    {| PeerDB.PeerID := "a"; PeerDB.Addrs := ["/ip4/9.9.9.9"]; PeerDB.SeenAt := epoch |} eq_refl) as (r' & H1 & H2 & _).
  exists r'. split; [exact H1|exact H2].
Defined.
End witnesses.
