(* ===== verification/RelayManager.v ===== *)
(** * Keeping reservations on relays

    [relayPoolManager] and [doRelayReserve] of src/p2put/libp2p_bs.go: the goroutine that
    keeps [k] relays of the pool ([RelayPool]) reserved and tells the address manager
    ([PeerStore]) what they vouch for.  What the host and the relays answer is an argument:
    a [visit] of a managed relay, an [attempt] on a new one. *)

From S2P Require Import Prelude GoLib RelayPool PeerStore.

(** [Reservation]: the addresses and the expiration; or the error of [Reserve]. *)
Abbreviation reservation := (relay_error + list string * Z)%type.

(** A managed relay in a tick: whether it is connected, what [Reserve] answers, and the
    clock when the result is recorded. *)
Record visit := { v_connected : bool; v_reserve : reservation; v_now : Z }.

(** A new relay: whether it is connected already, the error of [Connect], what [Reserve]
    answers, and the clock at both results. *)
Record attempt := { a_connected : bool; a_connect : option relay_error; a_reserve : reservation; a_now : Z; a_now' : Z }.

Section manager.
Context `{GoSort} `{MapRange}.

Abbreviation AddrManager := (AddrManager.AddrManager (A := string)).

(** [rp], [bootres.AddrMgr], and the peers [ClosePeer] was called for. *)
Record state := { pool : RelayPool; addrMgr : AddrManager; closed : list string }.

Definition on_pool (f : RelayPool -> RelayPool) (s : state) : state :=
  {| pool := f (pool s); addrMgr := addrMgr s; closed := closed s |}.
Definition vouch (pid : string) (l : list string) (expires : Z) (s : state) : state :=
  {| pool := pool s; addrMgr := AddrManager.SetRelayVouch pid l expires (addrMgr s); closed := closed s |}.
Definition closePeer (pid : string) (s : state) : state :=
  {| pool := pool s; addrMgr := addrMgr s; closed := closed s ++ [pid] |}.

(** [ListManaged]. *)
Definition ListManaged (p : RelayPool) : list string := (range_map 21 (gset_to_gmap () (managed p))).*1.

(** What is done with the answer of [Reserve], here and in [doRelayReserve]. *)
Definition reserved (now : Z) (pid : string) (r : reservation) (s : state) : state :=
  match r with
  | inl err => on_pool (RecordResult now pid err) s
  | inr (addrs, expires) =>
      on_pool (RecordResult now pid ErrNil) (on_pool (SetReservationTTL pid expires) (vouch pid addrs expires s))
  end.

Definition doRelayReserve (a : attempt) (pid : string) (s : state) : state :=
  match a_connect a with
  | Some err => on_pool (RecordResult (a_now a) pid err) s
  | None => reserved (a_now' a) pid (a_reserve a) (on_pool (RecordResult (a_now a) pid ErrNil) s)
  end.

(** The loop over the managed relays: the state and [toRemove]. *)
Definition visitManaged (env : string -> visit) (st : state * list string) (pid : string) : state * list string :=
  let '(s, toRemove) := st in
  let v := env pid in
  if negb (v_connected v) then (s, toRemove ++ [pid])
  else if IsCircuitOpen pid (pool s) then (closePeer pid s, toRemove ++ [pid])
  else (reserved (v_now v) pid (v_reserve v) s, toRemove).

(** The loop over the relays selected. *)
Definition addManaged (env : string -> attempt) (s : state) (pid : string) : state :=
  if a_connected (env pid) then s
  else doRelayReserve (env pid) pid (on_pool (AddManaged [pid]) s).

Definition count_managed (p : RelayPool) : Z := Z.of_nat (size (managed p)).

(** The first half of a tick: the managed relays are visited and some removed. *)
Definition visitAll (visits : string -> visit) (s : state) : state :=
  let '(s, toRemove) := foldl (visitManaged visits) (s, []) (ListManaged (pool s)) in
  on_pool (RemoveManaged toRemove) s.

(** A tick of the manager. *)
Definition tick (k : Z) (visits : string -> visit) (now : Z) (attempts : string -> attempt) (s : state) : res state :=
  let s := visitAll visits s in
  if count_managed (pool s) <? k then
    let! l := SelectN now (k - count_managed (pool s)) (pool s) in
    Ok (foldl (addManaged attempts) s l.*1)
  else Ok s.

(** Before the first tick. *)
Definition startManager (k : Z) (now : Z) (attempts : string -> attempt) (s : state) : res state :=
  let! l := SelectN now k (pool s) in
  Ok (foldl (fun s pid => doRelayReserve (attempts pid) pid s) (on_pool (AddManaged l.*1) s) l.*1).

(** ** The tables the manager touches *)
Lemma elem_of_ListManaged p pid : pid ∈ ListManaged p <-> pid ∈ managed p.
Proof.
  unfold ListManaged. rewrite list_elem_of_fmap. split.
  - intros ([x []] & -> & Hx). apply elem_of_range, lookup_gset_to_gmap_Some in Hx. tauto.
  - intros Hp. exists (pid, ()). split; [done|]. apply elem_of_range. by apply lookup_gset_to_gmap_Some.
Qed.

Lemma NoDup_ListManaged p : NoDup (ListManaged p).
Proof. apply NoDup_range_keys. Qed.

Lemma elem_of_AddManaged l p pid : pid ∈ managed (AddManaged l p) <-> pid ∈ managed p \/ pid ∈ l.
Proof.
  cbn. generalize (managed p). induction l as [|x l IH]; intros m; cbn; [set_solver|]. rewrite IH. set_solver.
Qed.
Lemma elem_of_RemoveManaged l p pid : pid ∈ managed (RemoveManaged l p) <-> pid ∈ managed p /\ pid ∉ l.
Proof.
  cbn. generalize (managed p). induction l as [|x l IH]; intros m; cbn; [set_solver|]. rewrite IH. set_solver.
Qed.

(** [now]'s result of [pid] on a pool within its capacity touches no other relay. *)
Record touches (p p' : RelayPool) (pid : string) : Prop := {
  t_others : forall q, q <> pid -> items p' !! q = items p !! q;
  t_size : size (items p') = size (items p);
  t_managed : managed p' = managed p;
  t_config : config p' = config p /\ lowWater p' = lowWater p /\ highWater p' = highWater p
}.

Lemma touches_refl p pid : touches p p pid.
Proof. by split. Qed.
Lemma touches_trans p1 p2 p3 pid : touches p1 p2 pid -> touches p2 p3 pid -> touches p1 p3 pid.
Proof. intros [A1 A2 A3 A4] [B1 B2 B3 B4]. split; [intros q Hq; by rewrite B1, A1|congruence|congruence|naive_solver congruence]. Qed.

Lemma RecordResult_touches now pid err p :
  Z.of_nat (size (items p)) <= highWater p -> touches p (RecordResult now pid err p) pid.
Proof.
  intros Hs. destruct (items p !! pid) as [i|] eqn:Ei.
  - rewrite (record_within now pid err p i Hs Ei). split; cbn; [|by apply map_size_insert_Some; eauto|done..].
    intros q Hq. by rewrite lookup_insert_ne.
  - unfold RecordResult. rewrite Ei. apply touches_refl.
Qed.

Lemma SetReservationTTL_touches pid e p : touches p (SetReservationTTL pid e p) pid.
Proof. split; cbn; [|apply size_alter|done..]. intros q Hq. by rewrite lookup_alter_ne. Qed.

(** A pool within its high-water mark. *)
Definition fits (p : RelayPool) : Prop := Z.of_nat (size (items p)) <= highWater p.

Lemma touches_fits p p' pid : touches p p' pid -> fits p -> fits p'.
Proof. intros [_ Hs _ (_ & _ & Hh)]. unfold fits. rewrite Hs, Hh. done. Qed.

Lemma reserved_touches now pid r s : fits (pool s) -> touches (pool s) (pool (reserved now pid r s)) pid.
Proof.
  intros Hf. destruct r as [err|[addrs expires]]; cbn [reserved on_pool pool vouch]; [by apply RecordResult_touches|].
  eapply touches_trans; [apply (SetReservationTTL_touches pid expires)|].
  apply RecordResult_touches. eapply touches_fits; [apply SetReservationTTL_touches|done].
Qed.

Lemma doRelayReserve_touches a pid s : fits (pool s) -> touches (pool s) (pool (doRelayReserve a pid s)) pid.
Proof.
  intros Hf. unfold doRelayReserve. destruct (a_connect a); [by apply RecordResult_touches|].
  pose proof (RecordResult_touches (a_now a) pid ErrNil (pool s) Hf) as Ht.
  refine (touches_trans _ _ _ _ Ht (reserved_touches _ _ _ (on_pool (RecordResult (a_now a) pid ErrNil) s) _)).
  by eapply touches_fits.
Qed.

(** ** The first loop *)

(** The managed relays a tick keeps. *)
Definition kept (visits : string -> visit) (p : RelayPool) (pid : string) : bool :=
  v_connected (visits pid) && negb (IsCircuitOpen pid p).

(** What the tick learns from a relay it keeps. *)
Definition renewed (visits : string -> visit) (p : RelayPool) (pid : string) : option AddrManager.relayVouch :=
  if kept visits p pid then
    match v_reserve (visits pid) with
    | inr (addrs, expires) => Some {| AddrManager.addrs := addrs; AddrManager.expiration := expires |}
    | inl _ => None
    end
  else None.

Abbreviation vouches s := (AddrManager.relayVouches (addrMgr s)).

Record visited (visits : string -> visit) (s : state) (rm l : list string) (s' : state) (rm' : list string) : Prop := {
  vi_fits : fits (pool s');
  vi_managed : managed (pool s') = managed (pool s);
  vi_items : forall q, q ∉ l -> items (pool s') !! q = items (pool s) !! q;
  vi_remove : forall q, q ∈ rm' <-> q ∈ rm \/ q ∈ l /\ kept visits (pool s) q = false;
  vi_vouches : forall q, q ∈ l -> vouches s' !! q =
    match renewed visits (pool s) q with Some v => Some v | None => vouches s !! q end;
  vi_others : forall q, q ∉ l -> vouches s' !! q = vouches s !! q;
  vi_closed : forall q, q ∈ closed s' <->
    q ∈ closed s \/ q ∈ l /\ v_connected (visits q) = true /\ IsCircuitOpen q (pool s) = true
}.

Lemma visit_spec visits s rm pid s' rm' :
  fits (pool s) -> visitManaged visits (s, rm) pid = (s', rm') -> visited visits s rm [pid] s' rm'.
Proof.
  intros Hf. unfold visitManaged.
  assert (forall q, q ∈ [pid] <-> q = pid) as Hpid by set_solver.
  destruct (v_connected (visits pid)) eqn:Ec; cbn [negb].
  2: { intros [= <- <-]. split; cbn; try done.
    - intros q. rewrite elem_of_app, Hpid. unfold kept. split; [intros [?| ->]; rewrite ?Ec; tauto|].
      intros [?|[-> _]]; tauto.
    - intros q ->%Hpid. unfold renewed, kept. by rewrite Ec.
    - intros q. rewrite Hpid. split; [tauto|]. intros [?|(-> & ? & _)]; [done|congruence]. }
  destruct (IsCircuitOpen pid (pool s)) eqn:Eo.
  - intros [= <- <-]. split; cbn; try done.
    + intros q. rewrite elem_of_app, Hpid. unfold kept. split; [intros [?| ->]; rewrite ?Ec, ?Eo; tauto|].
      intros [?|[-> _]]; tauto.
    + intros q ->%Hpid. unfold renewed, kept. by rewrite Ec, Eo.
    + intros q. rewrite elem_of_app, Hpid. split; [intros [?| ->]; tauto|]. intros [?|(-> & _)]; tauto.
  - intros [= <- <-]. pose proof (reserved_touches (v_now (visits pid)) pid (v_reserve (visits pid)) s Hf) as Ht.
    split.
    + by eapply touches_fits.
    + apply (t_managed _ _ _ Ht).
    + intros q Hq. apply (t_others _ _ _ Ht). intros ->. by apply Hq, Hpid.
    + intros q. rewrite Hpid. unfold kept. split; [tauto|]. intros [?|[-> Hk]]; [done|]. by rewrite Ec, Eo in Hk.
    + intros q ->%Hpid. unfold renewed, kept. rewrite Ec, Eo. cbn [andb negb].
      destruct (v_reserve (visits pid)) as [|[addrs e]]; cbn; [done|]. by rewrite lookup_insert_eq.
    + intros q Hq. assert (q <> pid) by (intros ->; by apply Hq, Hpid).
      destruct (v_reserve (visits pid)) as [|[addrs e]]; cbn; [done|]. by rewrite lookup_insert_ne.
    + intros q. rewrite Hpid. destruct (v_reserve (visits pid)) as [|[addrs e]]; cbn;
        (split; [tauto|]; intros [?|(-> & _ & ?)]; [done|congruence]).
Qed.

Lemma visits_spec visits l : forall s rm s' rm',
  NoDup l -> fits (pool s) -> foldl (visitManaged visits) (s, rm) l = (s', rm') -> visited visits s rm l s' rm'.
Proof.
  induction l as [|pid l IH]; intros s rm s' rm' Hnd Hf E.
  - injection E as <- <-. split; try done; intros q; set_solver.
  - apply NoDup_cons in Hnd as [Hp Hnd]. cbn [foldl] in E.
    destruct (visitManaged visits (s, rm) pid) as [s1 rm1] eqn:E1.
    destruct (visit_spec visits s rm pid s1 rm1 Hf E1) as [F1 M1 I1 R1 V1 O1 C1].
    destruct (IH s1 rm1 s' rm' Hnd F1 E) as [F2 M2 I2 R2 V2 O2 C2].
    assert (forall q, q ∈ l -> q ∉ [pid]) as Hl by (intros q Hq ->%list_elem_of_singleton; done).
    assert (forall q, q ∈ l -> IsCircuitOpen q (pool s1) = IsCircuitOpen q (pool s)) as Ho.
    { intros q Hq. unfold IsCircuitOpen. by rewrite I1 by auto. }
    assert (forall q, q ∈ l -> kept visits (pool s1) q = kept visits (pool s) q) as Hk.
    { intros q Hq. unfold kept. by rewrite Ho. }
    split.
    + done.
    + congruence.
    + intros q Hq. rewrite I2, I1 by set_solver. done.
    + intros q. rewrite R2, R1, list_elem_of_singleton, elem_of_cons. split.
      * intros [[?|[-> ?]]|[Hq Hk']]; [tauto|tauto|]. rewrite Hk in Hk' by done. tauto.
      * intros [?|[[->|Hq] Hk']]; [tauto|tauto|]. rewrite <- Hk in Hk' by done. tauto.
    + intros q [->|Hq]%elem_of_cons; [rewrite O2 by done; apply V1; set_solver|].
      rewrite V2, O1 by auto. unfold renewed. by rewrite Hk.
    + intros q Hq. rewrite O2, O1 by set_solver. done.
    + intros q. rewrite C2, C1, list_elem_of_singleton, elem_of_cons. split.
      * intros [[?|(-> & ?)]|(Hq & ? & Ho')]; [tauto|tauto|]. rewrite Ho in Ho' by done. tauto.
      * intros [?|([->|Hq] & ? & Ho')]; [tauto|tauto|]. rewrite <- Ho in Ho' by done. tauto.
Qed.

(** ** The second loop *)
Lemma SelectN_some now n p : 0 < n ->
  exists l, SelectN now n p = Ok l /\ zlen l <= n /\
    (forall q, q ∈ l.*1 -> IsCircuitOpen q p = false /\ is_Some (items p !! q)).
Proof.
  intros Hn. unfold SelectN. set (S := sort_slice _ _). pose proof (zlen_nonneg S).
  set (m := if zlen S <? n then zlen S else n).
  assert (0 <= m <= n) as Hm by (unfold m; destruct (Z.ltb_spec (zlen S) n); lia).
  destruct (Z.ltb_spec m 0); [lia|]. eexists. split; [done|]. split.
  - unfold zlen. rewrite length_fmap, length_take. lia.
  - intros q Hq. rewrite <- list_fmap_compose in Hq. apply list_elem_of_fmap in Hq as (e & -> & He). cbn.
    apply elem_of_take_in in He. unfold S in He. rewrite elem_of_sort_slice in He.
    apply elem_of_entries in He as (i & Hi & Ho & _). unfold IsCircuitOpen. rewrite Hi. eauto.
Qed.

(** What a relay that is tried vouches for. *)
Definition gained (a : attempt) : option AddrManager.relayVouch :=
  match a_connected a, a_connect a, a_reserve a with
  | false, None, inr (addrs, expires) => Some {| AddrManager.addrs := addrs; AddrManager.expiration := expires |}
  | _, _, _ => None
  end.

Lemma addManaged_spec attempts s pid :
  fits (pool s) ->
  let s' := addManaged attempts s pid in
  fits (pool s') /\ closed s' = closed s /\
  (forall q, q ∈ managed (pool s') <-> q ∈ managed (pool s) \/ q = pid /\ a_connected (attempts q) = false) /\
  (forall q, vouches s' !! q = if decide (q = pid) then match gained (attempts q) with Some v => Some v | None => vouches s !! q end
                               else vouches s !! q).
Proof.
  intros Hf. unfold addManaged, gained. destruct (a_connected (attempts pid)) eqn:Ec.
  { split_and!; [done..| |]; intros q; [|by case_decide; subst; rewrite ?Ec]. split; [tauto|].
    intros [?|[-> ?]]; [done|congruence]. }
  set (s1 := on_pool (AddManaged [pid]) s).
  pose proof (doRelayReserve_touches (attempts pid) pid s1 Hf) as Ht. split_and!.
  - by eapply touches_fits.
  - unfold doRelayReserve. destruct (a_connect (attempts pid)); [done|]. by destruct (a_reserve (attempts pid)) as [|[]].
  - intros q. rewrite (t_managed _ _ _ Ht). unfold s1. cbn [on_pool pool]. rewrite elem_of_AddManaged, list_elem_of_singleton.
    split; [intros [?| ->]; tauto|tauto].
  - intros q. unfold doRelayReserve. case_decide as Eq; [subst q; rewrite Ec|];
      (destruct (a_connect (attempts pid)); [done|]); destruct (a_reserve (attempts pid)) as [|[addrs e]]; cbn; try done;
      [by rewrite lookup_insert_eq|by rewrite lookup_insert_ne].
Qed.

Lemma adds_spec attempts l : forall s, fits (pool s) ->
  let s' := foldl (addManaged attempts) s l in
  fits (pool s') /\ closed s' = closed s /\
  (forall q, q ∈ managed (pool s') <-> q ∈ managed (pool s) \/ q ∈ l /\ a_connected (attempts q) = false) /\
  (forall q, vouches s' !! q = if decide (q ∈ l) then match gained (attempts q) with Some v => Some v | None => vouches s !! q end
                               else vouches s !! q).
Proof.
  induction l as [|pid l IH]; intros s Hf.
  { split_and!; [done..| |]; intros q; [set_solver|]. by rewrite decide_False by set_solver. }
  destruct (addManaged_spec attempts s pid Hf) as (F1 & C1 & M1 & V1).
  destruct (IH _ F1) as (F2 & C2 & M2 & V2). cbn [foldl]. split_and!.
  - done.
  - by rewrite C2.
  - intros q. rewrite M2, M1, elem_of_cons. tauto.
  - intros q. rewrite V2, V1. destruct (decide (q ∈ l)) as [Hl|Hl].
    + rewrite (decide_True (P := q ∈ pid :: l)) by set_solver. by repeat case_match.
    + destruct (decide (q = pid)) as [->|Hne].
      * rewrite decide_True by set_solver. done.
      * rewrite decide_False by set_solver. done.
Qed.

Lemma size_add_list (l : list string) : forall X Y : gset string,
  (forall q, q ∈ Y -> q ∈ X \/ q ∈ l) -> Z.of_nat (size Y) <= Z.of_nat (size X) + zlen l.
Proof.
  induction l as [|a l IH]; intros X Y Hq.
  - unfold zlen. cbn. assert (Y ⊆ X) as Hs%subseteq_size by (intros q Hy; destruct (Hq q Hy); set_solver). lia.
  - rewrite zlen_cons. assert (Z.of_nat (size ({[a]} ∪ X)) <= 1 + Z.of_nat (size X)).
    { rewrite size_union_alt, size_singleton. pose proof (subseteq_size (X ∖ {[a]}) X ltac:(set_solver)). lia. }
    specialize (IH ({[a]} ∪ X) Y). assert (Z.of_nat (size Y) <= Z.of_nat (size ({[a]} ∪ X)) + zlen l); [|lia].
    apply IH. intros q Hy. destruct (Hq q Hy); set_solver.
Qed.

(** [l] are the [n] best of the relays with a closed circuit, or all if there are fewer: no
    relay left out scores higher than one of them. *)
Definition best (now n : Z) (p : RelayPool) (l : list (string * string)) : Prop :=
  zlen l = Z.min n (zlen (entries now 4 p)) /\ NoDup l.*1 /\
  (forall pid a, (pid, a) ∈ l -> exists i, items p !! pid = Some i /\ circuitOpen i = false /\ Addr i = a) /\
  (forall pid a i q j, (pid, a) ∈ l -> items p !! pid = Some i ->
     items p !! q = Some j -> circuitOpen j = false -> q ∉ l.*1 ->
     flt (calcScore now (config p) i) (calcScore now (config p) j) = false).

(** The relays a tick tries: none if [k] are managed, else the best of the pool. *)
Definition tried (k now : Z) (p : RelayPool) (l : list (string * string)) : Prop :=
  if count_managed p <? k
  then (forall e, e ∈ entries now 4 p -> not_nan (e_score e)) -> best now (k - count_managed p) p l
  else l = [].

Lemma SelectN_tried k now p l : count_managed p < k -> SelectN now (k - count_managed p) p = Ok l -> tried k now p l.
Proof.
  intros Hlt El. unfold tried. rewrite (proj2 (Z.ltb_lt _ _) Hlt). intros Hnan.
  destruct (selectN_best now (k - count_managed p) p) as (l' & El' & H1 & H2 & H3 & H4); [lia|done|].
  rewrite El in El'. injection El' as <-. done.
Qed.

(** C16. A tick of the manager, on a pool within its capacity.  It keeps the managed relays
    that are connected and whose circuit is closed, closes those whose circuit is open, and
    forgets the others.  While fewer than [k] are left it selects as many as are missing from the best of
    the pool, as it is after the visits and whether they are managed or not, and adds those that are
    not connected, so there are never more than [k] (or than before).
    The address manager knows what each relay that answered vouches for. *)
Theorem relay_tick k visits now attempts s :
  fits (pool s) ->
  let s1 := visitAll visits s in
  exists s' l, tick k visits now attempts s = Ok s' /\
    (forall q, q ∈ managed (pool s1) <-> q ∈ managed (pool s) /\ kept visits (pool s) q = true) /\
    tried k now (pool s1) l /\
    (forall q, q ∈ managed (pool s') <->
       q ∈ managed (pool s1) \/ q ∈ l.*1 /\ a_connected (attempts q) = false) /\
    count_managed (pool s') <= Z.max k (count_managed (pool s)) /\
    (forall q, q ∈ closed s' <-> q ∈ closed s \/
       q ∈ managed (pool s) /\ v_connected (visits q) = true /\ IsCircuitOpen q (pool s) = true) /\
    (forall q, q ∈ managed (pool s) -> q ∉ l.*1 ->
       vouches s' !! q = match renewed visits (pool s) q with Some v => Some v | None => vouches s !! q end) /\
    (forall q v, q ∈ l.*1 -> gained (attempts q) = Some v -> vouches s' !! q = Some v).
Proof.
  intros Hf. unfold tick, visitAll. destruct (foldl (visitManaged visits) (s, []) _) as [s0 rm] eqn:E.
  destruct (visits_spec visits _ s [] s0 rm (NoDup_ListManaged _) Hf E) as [F M I R V O C].
  set (s1 := on_pool (RemoveManaged rm) s0).
  assert (forall q, q ∈ managed (pool s1) <-> q ∈ managed (pool s) /\ kept visits (pool s) q = true) as Hk.
  { intros q. unfold s1. cbn [on_pool pool]. rewrite elem_of_RemoveManaged, M, R, elem_of_ListManaged, elem_of_nil.
    destruct (kept visits (pool s) q); naive_solver. }
  assert (count_managed (pool s1) <= count_managed (pool s)) as Hle.
  { unfold count_managed. pose proof (size_add_list [] (managed (pool s)) (managed (pool s1))) as Hs.
    rewrite zlen_nil, Z.add_0_r in Hs. apply Hs. intros q Hq. left. by apply Hk. }
  assert (forall q, q ∈ managed (pool s) -> vouches s1 !! q =
    match renewed visits (pool s) q with Some v => Some v | None => vouches s !! q end) as Hv.
  { intros q Hq. apply V. by apply elem_of_ListManaged. }
  assert (forall q, q ∈ closed s1 <-> q ∈ closed s \/
    q ∈ managed (pool s) /\ v_connected (visits q) = true /\ IsCircuitOpen q (pool s) = true) as Hc.
  { intros q. cbn. by rewrite C, elem_of_ListManaged. }
  destruct (Z.ltb_spec (count_managed (pool s1)) k) as [Hlt|Hge].
  - destruct (SelectN_some now (k - count_managed (pool s1)) (pool s1)) as (l & El & Ll & _); [lia|].
    cbv zeta. rewrite El. cbn [rbind]. destruct (adds_spec attempts l.*1 s1 F) as (F' & C' & M' & V').
    eexists _, l. split; [done|]. split; [done|]. split; [by apply (SelectN_tried k now (pool s1))|]. split; [done|].
    split_and!.
    + unfold count_managed. pose proof (size_add_list l.*1 (managed (pool s1)) _ (fun q Hq =>
        match proj1 (M' q) Hq with or_introl h => or_introl h | or_intror h => or_intror (proj1 h) end)) as Hs.
      unfold zlen in *. rewrite length_fmap in Hs. unfold count_managed in *. lia.
    + intros q. by rewrite C'.
    + intros q Hq Hl. rewrite V', decide_False by done. by apply Hv.
    + intros q v Hl Hg. rewrite V', decide_True by done. by rewrite Hg.
  - exists s1, []. unfold tried. rewrite (proj2 (Z.ltb_ge _ _) Hge). split_and!; try done.
    + intros q. set_solver.
    + lia.
    + intros q Hq _. by apply Hv.
    + intros q v Hq. set_solver.
Qed.

(** ** The pool does not fill up *)

(** [SelectN] takes the preferred relays before any other. *)
Lemma SelectN_prefers now n p (M : list string) l :
  (forall e, e ∈ entries now 4 p -> not_nan (e_score e)) -> NoDup M -> n <= zlen M ->
  (forall q, q ∈ M -> exists i, items p !! q = Some i /\ circuitOpen i = false) ->
  (forall q r i j, q ∈ M -> r ∉ M -> items p !! q = Some i -> items p !! r = Some j -> circuitOpen j = false ->
     flt (calcScore now (config p) j) (calcScore now (config p) i) = true) ->
  SelectN now n p = Ok l -> forall q, q ∈ l.*1 -> q ∈ M.
Proof.
  intros Hnan HM Hn Hin Hpref. unfold SelectN. set (less := fun a b => flt (e_score b) (e_score a)).
  set (S := sort_slice less (entries now 4 p)).
  destruct (Z.ltb_spec (if zlen S <? n then zlen S else n) 0) as [|_]; [done|].
  set (k := Z.to_nat _). intros [= <-] q Hq.
  assert ((k <= length M)%nat) as Hk by (unfold k, zlen in *; case_match; lia).
  rewrite <- list_fmap_compose in Hq. apply list_elem_of_fmap in Hq as (f & -> & Hf). cbn.
  destruct (decide (e_pid f ∈ M)) as [|Hnot]; [done|]. exfalso.
  assert (Permutation S (entries now 4 p)) as HP by apply sort_slice_perm.
  assert (NoDup (e_pid <$> S)) as HN by (rewrite HP; apply NoDup_entries).
  assert (exists q, q ∈ M /\ q ∉ e_pid <$> take k S) as (q & HqM & Hqt).
  { destruct (decide (Forall (fun q => q ∈ e_pid <$> take k S) M)) as [Hall|Hsome].
    - exfalso. assert (e_pid f :: M ⊆+ e_pid <$> take k S) as Hs%submseteq_length.
      { apply NoDup_submseteq; [by constructor|]. intros x [->|Hx]%elem_of_cons.
        - apply list_elem_of_fmap. eauto.
        - rewrite Forall_forall in Hall. by apply Hall. }
      cbn in Hs. rewrite length_fmap, length_take in Hs. lia.
    - apply not_Forall_Exists in Hsome; [|apply _]. apply Exists_exists in Hsome as (q & HqM & Hq). eauto. }
  destruct (Hin q HqM) as (i & Hi & Ho).
  set (e := {| e_pid := q; e_score := calcScore now (config p) i; e_addr := Addr i |}).
  assert (e ∈ S) as He by (rewrite HP; apply elem_of_entries; eauto).
  rewrite <- (take_drop k S) in He. apply elem_of_app in He as [He|He].
  { apply Hqt, list_elem_of_fmap. by exists e. }
  pose proof (elem_of_take_in _ _ _ Hf) as Hf'. rewrite HP in Hf'.
  apply elem_of_entries in Hf' as (j & Hj & Hoj & Ej & _).
  pose proof (sort_slice_split (fun e => not_nan (e_score e)) less (entries now 4 p) k f e
    ltac:(apply strict_weak_flip, flt_strict_weak) ltac:(by apply Forall_forall) Hf He) as Hs.
  unfold less in Hs. cbn [e_score e] in Hs. rewrite Ej in Hs.
  by rewrite (Hpref q (e_pid f) i j HqM Hnot Hi Hj Hoj) in Hs.
Qed.

(** The relays to add are looked for among the best [k - m], whether they are managed
    already or not.  While the [m] managed relays are connected and score best, and
    [k - m <= m], a tick adds none: with two good relays out of three the third is never
    taken, however many the pool has. *)
Theorem relay_manager_starves k visits now attempts s s' M :
  fits (pool s) -> tick k visits now attempts s = Ok s' ->
  let p := pool (foldl (visitManaged visits) (s, []) (ListManaged (pool s))).1 in
  NoDup M -> (forall q, q ∈ M <-> q ∈ managed (pool s) /\ kept visits (pool s) q = true) ->
  k - zlen M <= zlen M ->
  (forall q, q ∈ M -> a_connected (attempts q) = true /\ exists i, items p !! q = Some i /\ circuitOpen i = false) ->
  (forall e, e ∈ entries now 4 p -> not_nan (e_score e)) ->
  (forall q r i j, q ∈ M -> r ∉ M -> items p !! q = Some i -> items p !! r = Some j -> circuitOpen j = false ->
     flt (calcScore now (config p) j) (calcScore now (config p) i) = true) ->
  forall q, q ∈ managed (pool s') <-> q ∈ M.
Proof.
  intros Hf. unfold tick, visitAll. destruct (foldl (visitManaged visits) (s, []) _) as [s0 rm] eqn:E. cbn [fst].
  intros Ht HM HMk Hn Hin Hnan Hpref.
  destruct (visits_spec visits _ s [] s0 rm (NoDup_ListManaged _) Hf E) as [F Mg I R V O C].
  set (s1 := on_pool (RemoveManaged rm) s0) in *.
  assert (forall q, q ∈ managed (pool s1) <-> q ∈ M) as Hk.
  { intros q. unfold s1. cbn [on_pool pool]. rewrite elem_of_RemoveManaged, Mg, R, elem_of_ListManaged, elem_of_nil, HMk.
    destruct (kept visits (pool s) q); naive_solver. }
  assert (count_managed (pool s1) = zlen M) as Hc.
  { assert (managed (pool s1) = list_to_set M) as Em by (apply set_eq; intros q; by rewrite Hk, elem_of_list_to_set).
    unfold count_managed, zlen. by rewrite Em, size_list_to_set. }
  destruct (count_managed (pool s1) <? k); [|injection Ht as <-; exact Hk].
  destruct (SelectN now _ (pool s1)) as [l| |] eqn:El; cbn [rbind] in Ht; [|done..]. injection Ht as <-.
  destruct (adds_spec attempts l.*1 s1 F) as (_ & _ & M' & _). intros q. rewrite M', Hk. split; [|tauto].
  intros [?|[Hq Ha]]; [done|]. rewrite Hc in El.
  exact (SelectN_prefers now _ (pool s1) M l Hnan HM Hn (fun q Hq => proj2 (Hin q Hq)) Hpref El q Hq).
Qed.

(** A relay whose circuit opens is closed and forgotten by the pool, but what it vouched for
    stays advertised until it expires. *)
Theorem closed_relay_advertised k visits now attempts s s' q v extract t :
  fits (pool s) -> tick k visits now attempts s = Ok s' ->
  q ∈ managed (pool s) -> v_connected (visits q) = true -> IsCircuitOpen q (pool s) = true ->
  gained (attempts q) = None -> vouches s !! q = Some v -> t < AddrManager.expiration v ->
  q ∈ closed s' /\ forall a, a ∈ AddrManager.addrs v -> AddrManager.advertised (fun a => a) extract t (addrMgr s') a.
Proof.
  intros Hf. unfold tick, visitAll. destruct (foldl (visitManaged visits) (s, []) _) as [s0 rm] eqn:E.
  intros Ht Hq Hc Ho Hg Hv Hlt.
  destruct (visits_spec visits _ s [] s0 rm (NoDup_ListManaged _) Hf E) as [F M I R V O C].
  set (s1 := on_pool (RemoveManaged rm) s0) in *.
  assert (q ∈ closed s1 /\ vouches s1 !! q = Some v) as [H1 H2].
  { split; [apply C; right; by rewrite elem_of_ListManaged|]. cbn. rewrite V by by apply elem_of_ListManaged.
    unfold renewed, kept. by rewrite Ho, andb_false_r. }
  assert (q ∈ closed s' /\ vouches s' !! q = Some v) as [H1' H2'].
  { destruct (count_managed (pool s1) <? k); [|injection Ht as <-; done].
    destruct (SelectN now _ (pool s1)) as [l| |]; cbn [rbind] in Ht; [|done..]. injection Ht as <-.
    destruct (adds_spec attempts l.*1 s1 F) as (_ & C' & _ & V'). rewrite C', V', Hg. split; [done|]. by case_decide. }
  split; [done|]. intros a Ha. right. right. exists q, v. split; [done|]. split.
  - unfold AddrManager.live, time_before. by apply Z.ltb_lt.
  - by rewrite list_fmap_id.
Qed.
End manager.

(** ** Witnesses *)
Section witnesses.
#[local] Instance G : GoSort := insertion_go_sort.
#[local] Instance M : MapRange := map_to_list_range.

(** Four relays; the first two have answered twice and are managed. *)
Definition four : RelayPool :=
  run_ops (map (fun id => (second, OpAdd (fun a => Some (a, "/ip4/1.2.3.4")) id)) ["r0"; "r1"; "r2"; "r3"] ++
           map (fun id => (second, OpResult id ErrNil)) ["r0"; "r1"; "r0"; "r1"] ++
           [(second, OpAddManaged ["r0"; "r1"])])
    (NewRelayPool defaultWeights).

Definition steady : state := {| pool := four; addrMgr := AddrManager.NewAddrManager; closed := [] |}.
Definition all_answer (q : string) : visit :=
  {| v_connected := true; v_reserve := inr ([String.append "/p2p/" q], minute); v_now := 2 * second |}.
Definition two_connected (q : string) : attempt :=
  {| a_connected := String.eqb q "r0" || String.eqb q "r1"; a_connect := None; a_reserve := inr ([q], minute);
     a_now := 3 * second; a_now' := 3 * second |}.

Lemma elem_of_two (q : string) : q ∈ ({["r0"; "r1"]} : gset string) <-> q ∈ ["r0"; "r1"].
Proof. set_solver. Qed.
Lemma two_cases (q : string) : q ∈ ["r0"; "r1"] -> q = "r0" \/ q = "r1".
Proof. set_solver. Qed.

(** One relay is missing: the best of the pool is tried. *)
Lemma relay_tick_witness :
  exists s' l, tick 3 all_answer (2 * second) two_connected steady = Ok s' /\
    best (2 * second) 1 (pool (visitAll all_answer steady)) l /\ zlen l = 1.
Proof.
  destruct (relay_tick 3 all_answer (2 * second) two_connected steady) as (s' & l & E & _ & Hl & _).
  { vm_compute. congruence. }
  exists s', l. split; [exact E|]. unfold tried in Hl.
  assert (count_managed (pool (visitAll all_answer steady)) = 2) as Hc by (vm_compute; reflexivity). rewrite Hc in Hl.
  change (2 <? 3) with true in Hl. change (3 - 2) with 1 in Hl. cbn iota in Hl.
  assert (best (2 * second) 1 (pool (visitAll all_answer steady)) l) as Hb.
  { apply Hl. assert (forallb (fun e => match e_score e with SpecFloat.S754_nan => false | _ => true end)
      (entries (2 * second) 4 (pool (visitAll all_answer steady))) = true) as Hb by (vm_compute; reflexivity).
    rewrite forallb_forall in Hb. intros e He. apply list_elem_of_In, Hb in He. unfold not_nan. by destruct (e_score e). }
  split; [exact Hb|]. destruct Hb as (Hz & _). 
  rewrite Hz. vm_compute. reflexivity.
Defined.

(** Two relays out of the three wanted, and [r2] and [r3] idle. *)
Lemma relay_manager_starves_witness :
  exists s', tick 3 all_answer (2 * second) two_connected steady = Ok s' /\
    forall q, q ∈ managed (pool s') <-> q ∈ ["r0"; "r1"].
Proof.
  assert (is_ok (tick 3 all_answer (2 * second) two_connected steady) = true) as Eok by (vm_compute; reflexivity).
  destruct (tick 3 all_answer (2 * second) two_connected steady) as [s'| |] eqn:E; [|discriminate..].
  exists s'. split; [reflexivity|].
  apply (relay_manager_starves 3 all_answer (2 * second) two_connected steady s' ["r0"; "r1"]).
  - vm_compute. congruence.
  - exact E.
  - apply (bool_decide_eq_true_1 _). vm_compute. reflexivity.
  - intros q. assert (managed (pool steady) = {["r0"; "r1"]}) as ->.
    { apply (bool_decide_eq_true_1 _). vm_compute. reflexivity. }
    rewrite elem_of_two. split; [|tauto].
    intros Hq. split; [exact Hq|]. destruct (two_cases q Hq) as [-> | ->]; vm_compute; reflexivity.
  - vm_compute. congruence.
  - intros q Hq. destruct (two_cases q Hq) as [-> | ->];
      (split; [reflexivity|]; vm_compute; eexists; split; reflexivity).
  - set (p := pool _).
    assert (forallb (fun e => match e_score e with SpecFloat.S754_nan => false | _ => true end)
      (entries (2 * second) 4 p) = true) as Hb by (vm_compute; reflexivity).
    rewrite forallb_forall in Hb. intros e He. apply list_elem_of_In, Hb in He. unfold not_nan. by destruct (e_score e).
  - set (p := pool _).
    assert (forallb (fun e : string * RelayItem =>
      bool_decide (e.1 ∈ ["r0"; "r1"]) || forallb (fun q => match items p !! q with
        | Some i => flt (calcScore (2 * second) (config p) e.2) (calcScore (2 * second) (config p) i)
        | None => true end) ["r0"; "r1"]) (map_to_list (items p)) = true) as Hb by (vm_compute; reflexivity).
    rewrite forallb_forall in Hb. intros q r i j Hq Hr Hi Hj _.
    specialize (Hb (r, j) (proj1 (list_elem_of_In _ _) (proj2 (elem_of_map_to_list _ _ _) Hj))). cbn [fst snd] in Hb.
    rewrite bool_decide_false in Hb by exact Hr. cbn [orb] in Hb. rewrite forallb_forall in Hb.
    specialize (Hb q (proj1 (list_elem_of_In _ _) Hq)). by rewrite Hi in Hb.
Defined.

(** Its circuit opened, its addresses are still told. *)
Lemma closed_relay_advertised_witness :
  let s := {| pool := run_ops (map (fun id => (second, OpResult id ErrOther)) ["r0"; "r0"; "r0"; "r0"; "r0"]) four;
              addrMgr := AddrManager.SetRelayVouch "r0" ["/p2p/r0"] minute AddrManager.NewAddrManager; closed := [] |} in
  exists s', tick 1 all_answer (2 * second) two_connected s = Ok s' /\ "r0" ∈ closed s' /\
    AddrManager.advertised (fun a => a) (fun _ => Fail "") (3 * second) (addrMgr s') "/p2p/r0".
Proof.
  intros s. assert (is_ok (tick 1 all_answer (2 * second) two_connected s) = true) as Eok by (vm_compute; reflexivity).
  destruct (tick 1 all_answer (2 * second) two_connected s) as [s'| |] eqn:E; [|discriminate..].
  exists s'. split; [reflexivity|].
  destruct (closed_relay_advertised 1 all_answer (2 * second) two_connected s s' "r0"
    {| AddrManager.addrs := ["/p2p/r0"]; AddrManager.expiration := minute |} (fun _ => Fail "") (3 * second)) as [H1 H2];
    [vm_compute; congruence|exact E|apply (bool_decide_eq_true_1 _); vm_compute; reflexivity|reflexivity|
     vm_compute; reflexivity|reflexivity|vm_compute; reflexivity|vm_compute; reflexivity|].
  split; [exact H1|]. apply H2. apply list_elem_of_here.
Defined.
End witnesses.
