(* ===== verification/IoCopy.v ===== *)
(** * Pipes with half-close

    [Copy] and [Pipe] of src/p2put/iocopy.go: two copies between two connections, each of
    which ends by closing the writing side of its destination.  A turn of a copy is one
    transfer: a [Read] and the [Write] of what it read ([io.CopyBuffer]), or a piece that
    [WriteTo] or [ReadFrom] moved.  Connections and the specification of a direction, a
    [pipe], are those of [Bridge]. *)

From S2P Require Import Prelude Bridge.

Inductive readEnd := More | EOF | ReadFailed.

(** [Read] gave [chunk] and [rend]; [Write] took [wrote] bytes of it and failed or not. *)
Record transfer := { piece : bytes; rend : readEnd; wrote : Z; wfail : bool }.

Inductive copyErr := NoError | WriteError | ShortWrite | ReadError.

#[global] Instance copyErr_eq_dec : EqDecision copyErr.
Proof. solve_decision. Defined.

(** A turn of the loop of [io.CopyBuffer]: what it writes and, if the loop ends, the error
    it returns. *)
Definition copied (t : transfer) : bytes := if 0 <? zlen (piece t) then take (Z.to_nat (wrote t)) (piece t) else [].
Definition copyTurn (t : transfer) : option copyErr :=
  if (0 <? zlen (piece t)) && wfail t then Some WriteError
  else if (0 <? zlen (piece t)) && negb (wrote t =? zlen (piece t)) then Some ShortWrite
  else match rend t with More => None | EOF => Some NoError | ReadFailed => Some ReadError end.

(** [streamCopy]: copying, then asleep for [closeWait] seconds, then done. *)
Inductive phase := Copying | Sleeping | Done.

Record pipes := {
  alice : end_; bob : end_;
  ab : phase; ba : phase;                       (* alice to bob, bob to alice *)
  errA : copyErr; errB : copyErr;
  returned : bool
}.

(** Which of the connections have [CloseWrite], and whether [closeWait] is positive. *)
Record setup := { alice_cw : bool; bob_cw : bool; waits : bool }.

(** What ends a direction. *)
Definition finishEnd (cw : bool) (dst : end_) : end_ := if cw then half_close true dst else close_end true dst.

(** The direction from alice: a turn, and the end of its sleep. *)
Definition turnAB (s : setup) (t : transfer) (p : pipes) : pipes :=
  let b := deliver (copied t) (bob p) in
  match copyTurn t with
  | None => {| alice := alice p; bob := b; ab := Copying; ba := ba p; errA := errA p; errB := errB p; returned := returned p |}
  | Some e =>
      {| alice := alice p; bob := if waits s then b else finishEnd (bob_cw s) b;
         ab := if waits s then Sleeping else Done; ba := ba p; errA := e; errB := errB p; returned := returned p |}
  end.
Definition wakeAB (s : setup) (p : pipes) : pipes :=
  {| alice := alice p; bob := finishEnd (bob_cw s) (bob p); ab := Done; ba := ba p;
     errA := errA p; errB := errB p; returned := returned p |}.

(** The same code with the connections exchanged. *)
Definition swap (p : pipes) : pipes :=
  {| alice := bob p; bob := alice p; ab := ba p; ba := ab p; errA := errB p; errB := errA p; returned := returned p |}.
Definition swap_setup (s : setup) : setup := {| alice_cw := bob_cw s; bob_cw := alice_cw s; waits := waits s |}.
Definition turnBA (s : setup) (t : transfer) (p : pipes) : pipes := swap (turnAB (swap_setup s) t (swap p)).
Definition wakeBA (s : setup) (p : pipes) : pipes := swap (wakeAB (swap_setup s) (swap p)).

Inductive pipeOp := TurnAB (t : transfer) | TurnBA (t : transfer) | WakeAB | WakeBA | Return.

Definition isDone (x : phase) : bool := match x with Done => true | _ => false end.

(** A step of one of the three goroutines; [Return] is the end of [Pipe], after [wg.Wait]. *)
Definition pstep (s : setup) (p : pipes) (o : pipeOp) : pipes :=
  match o with
  | TurnAB t => match ab p with Copying => turnAB s t p | _ => p end
  | TurnBA t => match ba p with Copying => turnBA s t p | _ => p end
  | WakeAB => match ab p with Sleeping => wakeAB s p | _ => p end
  | WakeBA => match ba p with Sleeping => wakeBA s p | _ => p end
  | Return => if isDone (ab p) && isDone (ba p)
              then {| alice := close_end true (alice p); bob := close_end true (bob p); ab := ab p; ba := ba p;
                      errA := errA p; errB := errB p; returned := true |}
              else p
  end.

Definition prun (s : setup) (l : list pipeOp) (p : pipes) : pipes := foldl (pstep s) p l.

Definition Pipe : pipes :=
  {| alice := fresh; bob := fresh; ab := Copying; ba := Copying; errA := NoError; errB := NoError; returned := false |}.

(** A writer never takes more than it is given, and fails when it takes less
    ([io.Writer]); a connection closed on this side neither gives nor takes data. *)
Definition transfer_ok (src dst : end_) (t : transfer) : Prop :=
  0 <= wrote t <= zlen (piece t) /\ (closed src = true -> piece t = [] /\ rend t = ReadFailed) /\
  (wclosed dst = true -> wrote t = 0 /\ wfail t = true).

Definition pop_ok (p : pipes) (o : pipeOp) : Prop :=
  match o with
  | TurnAB t => ab p = Copying -> transfer_ok (alice p) (bob p) t
  | TurnBA t => ba p = Copying -> transfer_ok (bob p) (alice p) t
  | _ => True
  end.

Fixpoint pops_ok (s : setup) (p : pipes) (l : list pipeOp) : Prop :=
  match l with [] => True | o :: l => pop_ok p o /\ pops_ok s (pstep s p o) l end.

(** What was read from alice, from bob. *)
Definition readA (o : pipeOp) (p : pipes) : bytes := match o, ab p with TurnAB t, Copying => piece t | _, _ => [] end.
Definition readB (o : pipeOp) (p : pipes) : bytes := match o, ba p with TurnBA t, Copying => piece t | _, _ => [] end.
Fixpoint all_readA (s : setup) (p : pipes) (l : list pipeOp) : bytes :=
  match l with [] => [] | o :: l => readA o p ++ all_readA s (pstep s p o) l end.
Fixpoint all_readB (s : setup) (p : pipes) (l : list pipeOp) : bytes :=
  match l with [] => [] | o :: l => readB o p ++ all_readB s (pstep s p o) l end.

(** ** Refinement of two pipes *)

(** A direction of [Pipe], as a pipe: it breaks only when a write fails or falls short. *)
Definition direction (x : phase) (e : copyErr) (dst : end_) (q : pipe) : Prop :=
  out q = delivered dst /\
  (x = Copying -> broken q = false) /\
  (broken q = true -> e = WriteError \/ e = ShortWrite).

Lemma copied_all t : copyTurn t <> Some WriteError -> copyTurn t <> Some ShortWrite -> copied t = piece t.
Proof.
  unfold copyTurn, copied. destruct (Z.ltb_spec 0 (zlen (piece t))) as [Hl|Hl]; cbn [andb].
  - destruct (wfail t); [done|]. destruct (Z.eqb_spec (wrote t) (zlen (piece t))) as [->|]; cbn [negb]; [|done].
    intros _ _. apply take_ge. unfold zlen. lia.
  - intros _ _. destruct (piece t); [done|]. rewrite zlen_cons in Hl. pose proof (zlen_nonneg l). lia.
Qed.

Lemma copied_part t : exists k, copied t = take k (piece t).
Proof. unfold copied. case_match; [eauto|]. by exists 0%nat. Qed.

(** A turn is a step of the pipe. *)
Lemma copy_turn t e dst q :
  direction Copying e dst q ->
  exists q', pipe_step q q' /\ put q' = put q ++ piece t /\ out q' = delivered dst ++ copied t /\
    (copyTurn t = None -> broken q' = false) /\
    (broken q' = true -> copyTurn t = Some WriteError \/ copyTurn t = Some ShortWrite).
Proof.
  intros (Ho & Hb & _). specialize (Hb eq_refl).
  destruct (decide (copyTurn t = Some WriteError \/ copyTurn t = Some ShortWrite)) as [Hw|Hw].
  - destruct (copied_part t) as [k Hk]. exists {| put := put q ++ piece t; out := out q ++ take k (piece t); broken := true |}.
    split; [by apply pipe_break|]. cbn. rewrite Hk, Ho. split_and!; [done..| |done]. intros E. by destruct Hw; congruence.
  - exists {| put := put q ++ piece t; out := out q ++ piece t; broken := false |}.
    split; [by apply pipe_whole|]. cbn. rewrite copied_all, Ho by tauto. by split_and!.
Qed.

(** Closing does not touch what was delivered. *)
Lemma delivered_finish cw dst : delivered (finishEnd cw dst) = delivered dst.
Proof. by destruct cw. Qed.
Lemma delivered_close b e : delivered (close_end b e) = delivered e.
Proof. done. Qed.

(** The direction from alice in a step: its own turns move its pipe, everything else
    leaves it. *)
Lemma direction_AB s p o q :
  direction (ab p) (errA p) (bob p) q ->
  exists q', pipes_step q q' /\ direction (ab (pstep s p o)) (errA (pstep s p o)) (bob (pstep s p o)) q' /\
    put q' = put q ++ readA o p.
Proof.
  intros Hd. assert (readA o p = [] -> direction (ab (pstep s p o)) (errA (pstep s p o)) (bob (pstep s p o)) q ->
    exists q', pipes_step q q' /\ direction (ab (pstep s p o)) (errA (pstep s p o)) (bob (pstep s p o)) q' /\
      put q' = put q ++ readA o p) as Hsame.
  { intros -> Hq. exists q. rewrite app_nil_r. split; [unfold pipes_step; reflexivity|done]. }
  destruct Hd as (Ho & Hb & He). destruct o as [t|t| | |].
  - destruct (ab p) eqn:Ea; [|apply Hsame; cbn; rewrite Ea; [done|cbn; by rewrite Ea]..]. clear Hsame.
    destruct (copy_turn t (errA p) (bob p) q) as (q' & Hs & Hp & Hout & Hn & Hf); [by split_and!|].
    exists q'. split; [by apply rtc_once|]. cbn [pstep readA]. rewrite Ea. split; [|done].
    unfold turnAB. destruct (copyTurn t) as [e|] eqn:Ec; cbn [ab errA bob].
    + split_and!; [|destruct (waits s); done|intros E; destruct (Hf E); naive_solver].
      rewrite Hout. destruct (waits s); [done|]. by rewrite delivered_finish.
    + split_and!; [done|by intros _; apply Hn|]. intros E. by rewrite Hn in E.
  - apply Hsame; [done|]. cbn. destruct (ba p) eqn:Eb; [|done..]. unfold turnBA, turnAB, swap.
    destruct (copyTurn t); cbn; by split_and!.
  - apply Hsame; [done|]. unfold direction. cbn. destruct (ab p) eqn:Ea; cbn; rewrite ?Ea, ?delivered_finish; by split_and!.
  - apply Hsame; [done|]. cbn. by destruct (ba p).
  - apply Hsame; [done|]. cbn. by destruct (isDone (ab p) && isDone (ba p)).
Qed.

Definition swap_op (o : pipeOp) : pipeOp :=
  match o with TurnAB t => TurnBA t | TurnBA t => TurnAB t | WakeAB => WakeBA | WakeBA => WakeAB | Return => Return end.

Lemma swap_swap p : swap (swap p) = p.
Proof. by destruct p. Qed.

Lemma swap_setup_swap s : swap_setup (swap_setup s) = s.
Proof. by destruct s. Qed.

Lemma pstep_swap s p o : pstep s p o = swap (pstep (swap_setup s) (swap p) (swap_op o)).
Proof.
  destruct o; cbn [pstep swap_op swap ab ba]; unfold turnBA, wakeBA.
  - destruct (ab p); by rewrite ?swap_setup_swap, !swap_swap.
  - destruct (ba p); [done|by rewrite swap_swap..].
  - destruct (ab p); by rewrite ?swap_setup_swap, !swap_swap.
  - destruct (ba p); [by rewrite swap_swap|done|by rewrite swap_swap].
  - rewrite (andb_comm (isDone (ba p))). by destruct (isDone (ab p) && isDone (ba p)), p.
Qed.

Lemma direction_BA s p o q :
  direction (ba p) (errB p) (alice p) q ->
  exists q', pipes_step q q' /\ direction (ba (pstep s p o)) (errB (pstep s p o)) (alice (pstep s p o)) q' /\
    put q' = put q ++ readB o p.
Proof.
  intros Hd. destruct (direction_AB (swap_setup s) (swap p) (swap_op o) q Hd) as (q' & Hs & Hd' & Hp).
  exists q'. split; [done|]. rewrite pstep_swap. split; [exact Hd'|]. rewrite Hp. by destruct o.
Qed.

Lemma pipe_directions s l : forall p qa qb,
  direction (ab p) (errA p) (bob p) qa -> direction (ba p) (errB p) (alice p) qb ->
  let p' := prun s l p in
  exists qa' qb', pipes_step qa qa' /\ pipes_step qb qb' /\
    direction (ab p') (errA p') (bob p') qa' /\ direction (ba p') (errB p') (alice p') qb' /\
    put qa' = put qa ++ all_readA s p l /\ put qb' = put qb ++ all_readB s p l.
Proof.
  induction l as [|o l IH]; intros p qa qb Ha Hb.
  - exists qa, qb. cbn. rewrite !app_nil_r. unfold pipes_step. split_and!; first [reflexivity|done].
  - destruct (direction_AB s p o qa Ha) as (qa1 & Sa & Da & Pa). destruct (direction_BA s p o qb Hb) as (qb1 & Sb & Db & Pb).
    destruct (IH _ _ _ Da Db) as (qa2 & qb2 & Sa2 & Sb2 & Da2 & Db2 & Pa2 & Pb2).
    exists qa2, qb2. split; [by etrans|]. split; [by etrans|]. split; [done|]. split; [done|].
    cbn. by rewrite Pa2, Pa, Pb2, Pb, <- !app_assoc.
Qed.

(** ** When connections are closed *)

(** With [CloseWrite] on both sides: a side is closed for writing once its direction is
    done, and closed only by the return of [Pipe]. *)
Record tidy (p : pipes) : Prop := {
  ti_alice : closed (alice p) = returned p;
  ti_bob : closed (bob p) = returned p;
  ti_wa : wclosed (alice p) = isDone (ba p);
  ti_wb : wclosed (bob p) = isDone (ab p);
  ti_ret : returned p = true -> ab p = Done /\ ba p = Done
}.

Lemma tidy_swap p : tidy p -> tidy (swap p).
Proof. intros [? ? ? ? Hr]. split; cbn; try done. intros E. by destruct (Hr E). Qed.

Lemma tidy_AB s p o : bob_cw s = true -> tidy p ->
  match o with TurnBA _ | WakeBA => True | _ => tidy (pstep s p o) end.
Proof.
  intros Hc [A B Wa Wb R]. destruct o as [t|t| | |]; [|done| |done|]; cbn [pstep].
  - destruct (ab p) eqn:Ea; [|by split; rewrite ?Ea..].
    assert (returned p = false) as Hr by (destruct (returned p); [destruct (R eq_refl); congruence|done]).
    cbn in Wb. unfold turnAB, finishEnd. destruct (copyTurn t); [destruct (waits s)|]; rewrite ?Hc; split; cbn; rewrite ?orb_false_r, ?orb_true_r; (congruence || (intros; congruence)).
  - destruct (ab p) eqn:Ea; [by split; rewrite ?Ea| |by split; rewrite ?Ea].
    assert (returned p = false) as Hr by (destruct (returned p); [destruct (R eq_refl); congruence|done]).
    unfold wakeAB, finishEnd. rewrite Hc. split; cbn; rewrite ?orb_false_r, ?orb_true_r; (congruence || (intros; congruence)).
  - destruct (ab p) eqn:Ea, (ba p) eqn:Eb; cbn; try (by split; rewrite ?Ea, ?Eb).
    split; cbn; rewrite ?orb_true_r, ?Ea, ?Eb; done.
Qed.

Lemma tidy_step s p o : alice_cw s = true -> bob_cw s = true -> tidy p -> tidy (pstep s p o).
Proof.
  intros Ha Hb Ht. pose proof (tidy_AB s p o Hb Ht) as H1.
  pose proof (tidy_AB (swap_setup s) (swap p) (swap_op o) Ha (tidy_swap p Ht)) as H2.
  destruct o; try exact H1; rewrite pstep_swap; apply tidy_swap; exact H2.
Qed.

Lemma tidy_run s l : forall p, alice_cw s = true -> bob_cw s = true -> tidy p -> tidy (prun s l p).
Proof. unfold prun. induction l as [|o l IH]; intros p Ha Hb Ht; [done|]. cbn. by apply IH; [..|apply tidy_step]. Qed.

(** C27. [Pipe] is two pipes that end independently: whatever the interleaving, each side was
    given a beginning of what was read from the other, and all of it unless a write to it
    failed or fell short, also when the other direction is long over.  With [CloseWrite]
    on both sides, a side is closed for writing when its direction ends, and neither is
    closed before [Pipe] returns, which is after both directions. *)
Theorem pipe_half_close s l :
  let p := prun s l Pipe in
  (exists qa qb, pipes_step empty_pipe qa /\ pipes_step empty_pipe qb /\
     put qa = all_readA s Pipe l /\ put qb = all_readB s Pipe l /\
     direction (ab p) (errA p) (bob p) qa /\ direction (ba p) (errB p) (alice p) qb) /\
  delivered (bob p) `prefix_of` all_readA s Pipe l /\ delivered (alice p) `prefix_of` all_readB s Pipe l /\
  (errA p = NoError \/ errA p = ReadError -> delivered (bob p) = all_readA s Pipe l) /\
  (errB p = NoError \/ errB p = ReadError -> delivered (alice p) = all_readB s Pipe l) /\
  (alice_cw s = true -> bob_cw s = true -> tidy p).
Proof.
  intros p.
  destruct (pipe_directions s l Pipe empty_pipe empty_pipe) as (qa & qb & Sa & Sb & Da & Db & Pa & Pb);
    [by split_and!|by split_and!|]. fold p in Da, Db. cbn in Pa, Pb.
  split; [exists qa, qb; by split_and!|].
  destruct (pipe_runs qa Sa) as [Ra Fa]. destruct (pipe_runs qb Sb) as [Rb Fb].
  destruct Da as (Oa & _ & Ea). destruct Db as (Ob & _ & Eb). rewrite <- Pa, <- Pb, <- Oa, <- Ob.
  split; [done|]. split; [done|].
  split. { intros He. apply Fa. destruct (broken qa); [|done]. destruct (Ea eq_refl), He; congruence. }
  split. { intros He. apply Fb. destruct (broken qb); [|done]. destruct (Eb eq_refl), He; congruence. }
  intros Ha Hb. apply tidy_run; [done..|]. by split.
Qed.

(** ** The end of a pipe *)

(** Once both copies have ended, the sleeps over and [wg.Wait] passed, [Pipe] has returned
    the errors of the copies and closed both connections. *)
Theorem pipe_returns s p :
  ab p <> Copying -> ba p <> Copying ->
  let p' := prun s [WakeAB; WakeBA; Return] p in
  returned p' = true /\ closed (alice p') = true /\ closed (bob p') = true /\
  errA p' = errA p /\ errB p' = errB p /\
  delivered (alice p') = delivered (alice p) /\ delivered (bob p') = delivered (bob p).
Proof.
  intros Ha Hb. destruct p as [al bo [| |] [| |] ea eb r]; cbn in *; try done;
    rewrite ?orb_true_r; unfold swap, wakeAB, finishEnd; cbn; repeat (case_match; cbn); rewrite ?orb_true_r; by split_and!.
Qed.

(** A connection without [CloseWrite] is closed altogether when the direction to it ends:
    nothing more is read from it, and what its peer still sends is lost. *)
Theorem pipe_full_close s p t l :
  bob_cw s = false -> waits s = false -> ab p = Copying -> ba p = Copying -> copyTurn t <> None ->
  pops_ok s p (TurnAB t :: l) ->
  all_readB s p (TurnAB t :: l) = [].
Proof.
  intros Hc Hw Ha Hb Ht [_ Hl]. cbn [all_readB readB app].
  assert (closed (bob (pstep s p (TurnAB t))) = true) as Hcl.
  { cbn [pstep]. rewrite Ha. unfold turnAB, finishEnd. destruct (copyTurn t); [|done]. rewrite Hw, Hc. cbn. by rewrite orb_true_r. }
  revert Hl Hcl. generalize (pstep s p (TurnAB t)) as p1. clear -l.
  induction l as [|o l IH]; intros p1 Hl Hcl; [done|]. destruct Hl as [Ho Hl]. cbn [all_readB].
  assert (readB o p1 = []) as ->.
  { destruct o; try done. cbn in Ho |- *. destruct (ba p1); [|done..]. by destruct (Ho eq_refl) as (_ & Hc & _), (Hc Hcl). }
  apply IH; [done|]. destruct o; cbn [pstep].
  - destruct (ab p1); [|done..]. unfold turnAB, finishEnd. by destruct (copyTurn _), (waits s), (bob_cw s); cbn; rewrite ?Hcl.
  - destruct (ba p1); [|done..]. unfold turnBA, turnAB, finishEnd, swap. destruct (copyTurn _); cbn; [|done].
    by destruct (waits s), (alice_cw s).
  - destruct (ab p1); [done| |done]. cbn. unfold finishEnd. by destruct (bob_cw s); cbn; rewrite ?Hcl.
  - destruct (ba p1); [done| |done]. cbn. by destruct (alice_cw s).
  - destruct (isDone (ab p1) && isDone (ba p1)); [|done]. cbn. by rewrite orb_true_r.
Qed.

(** ** Witnesses *)
Definition request : transfer := {| piece := [1; 2; 3]; rend := EOF; wrote := 3; wfail := false |}.
Definition answer : transfer := {| piece := [9]; rend := EOF; wrote := 1; wfail := false |}.

Lemma pipe_returns_witness :
  let p := prun {| alice_cw := true; bob_cw := true; waits := true |} [TurnAB request; TurnBA answer] Pipe in
  delivered (alice (prun {| alice_cw := true; bob_cw := true; waits := true |} [WakeAB; WakeBA; Return] p)) = [9].
Proof.
  intros p.
  destruct (pipe_returns {| alice_cw := true; bob_cw := true; waits := true |} p) as (_ & _ & _ & _ & _ & E & _);
    [vm_compute; discriminate|vm_compute; discriminate|]. rewrite E. reflexivity.
Defined.

(** The answer that was on its way is never read. *)
Lemma pipe_full_close_witness :
  let s := {| alice_cw := true; bob_cw := false; waits := false |} in
  all_readB s Pipe [TurnAB request; TurnBA {| piece := []; rend := ReadFailed; wrote := 0; wfail := false |}] = [].
Proof.
  intros s. apply (pipe_full_close s Pipe request); [reflexivity|reflexivity|reflexivity|reflexivity|discriminate|].
  cbn. unfold transfer_ok, zlen. cbn. repeat split; intros; try done; lia.
Defined.
