(* ===== verification/Remote.v ===== *)
(** * Remote commands and echo

    The protocols shexec/1.0 of src/pbexec/pbexec.go and echo/1.0 of src/pbecho/pbecho.go,
    both ends.  A stream is what the client wrote on it and whether it closed its side;
    the shell is an argument.  Text is bytes; what [encoding/json] makes of a string that
    is not UTF-8 is [json_text]. *)

From S2P Require Import Prelude.

(** ** UTF-8 ([unicode/utf8]) *)
Definition cont (lo hi : Z) (b : option Z) : bool :=
  match b with Some b => (lo <=? b) && (b <=? hi) | None => false end.

(** [utf8.DecodeRune]: the length of the encoding a text begins with, or nothing if it is
    not one. *)
Definition rune_size (l : bytes) : option nat :=
  let c n := cont 128 191 (l !! n) in
  match l with
  | [] => None
  | b :: _ =>
      if b <? 128 then Some 1%nat
      else if (194 <=? b) && (b <=? 223) then if c 1%nat then Some 2%nat else None
      else if (224 <=? b) && (b <=? 239) then
        let lo := if b =? 224 then 160 else 128 in
        let hi := if b =? 237 then 159 else 191 in
        if cont lo hi (l !! 1%nat) && c 2%nat then Some 3%nat else None
      else if (240 <=? b) && (b <=? 244) then
        let lo := if b =? 240 then 144 else 128 in
        let hi := if b =? 244 then 143 else 191 in
        if cont lo hi (l !! 1%nat) && c 2%nat && c 3%nat then Some 4%nat else None
      else None
  end.

(** U+FFFD. *)
Definition replacement : bytes := [239; 191; 189].

Fixpoint json_text_fuel (n : nat) (l : bytes) : bytes :=
  match n with
  | O => []
  | S n =>
      match l with
      | [] => []
      | _ :: _ =>
          match rune_size l with
          | Some k => take k l ++ json_text_fuel n (drop k l)
          | None => replacement ++ json_text_fuel n (drop 1 l)
          end
      end
  end.

(** A string that was encoded and decoded again; the fuel is its length. *)
Definition json_text (l : bytes) : bytes := json_text_fuel (length l) l.

Definition ascii (l : bytes) : Prop := Forall (fun b => 0 <= b < 128) l.

Lemma json_text_ascii l : ascii l -> json_text l = l.
Proof.
  unfold json_text. induction 1 as [|b l Hb Hl IH]; [done|]. cbn [length json_text_fuel].
  assert (rune_size (b :: l) = Some 1%nat) as -> by (cbn; by destruct (Z.ltb_spec b 128); [|lia]).
  cbn [take drop]. by rewrite drop_0, take_0, IH.
Qed.

(** ** [strings.TrimSpace] *)

(** The encodings of the space characters of Unicode. *)
Definition spaces : list bytes :=
  [[9]; [10]; [11]; [12]; [13]; [32]; [194; 133]; [194; 160]; [225; 154; 128]] ++
  ((fun k => [226; 128; k]) <$> [128; 129; 130; 131; 132; 133; 134; 135; 136; 137; 138; 168; 169; 175]) ++
  [[226; 129; 159]; [227; 128; 128]].

Definition is_prefix (p l : bytes) : bool := bool_decide (take (length p) l = p).

(** Cutting what is in [seps] off the beginning; every turn cuts at least a byte. *)
Fixpoint trim_left (seps : list bytes) (n : nat) (l : bytes) : bytes :=
  match n with
  | O => l
  | S n => match list_find (fun p => is_prefix p l = true) seps with
           | Some (_, p) => trim_left seps n (drop (length p) l)
           | None => l
           end
  end.

Definition TrimSpace (l : bytes) : bytes :=
  let l := trim_left spaces (length l) l in
  reverse (trim_left (reverse <$> spaces) (length l) (reverse l)).

(** ** Reading what a peer writes *)

(** A stream as the server sees it: the bytes that arrive in time, and what follows them
    in time. *)
Inductive ending := Open | Ended | WasReset.
Record incoming := { data : bytes; tail_ : ending }.

(** [io.ReadAll(io.LimitReader(s, n))] (and [io.Copy] from it) against the time-out of ten
    seconds: reading ends at the limit without waiting for the end of the stream. *)
Definition readLimited (n : Z) (s : incoming) : res bytes :=
  if n <=? zlen (data s) then Ok (take (Z.to_nat n) (data s))
  else match tail_ s with
       | Ended => Ok (data s)
       | WasReset => Fail "read error"
       | Open => Fail "read timeout"
       end.

(** What the client reads back: the stream was reset, or bytes and the end. *)
Inductive outgoing := Reset | Sent (b : bytes).

(** The client: open, write, close the writing side ([written]), read.  [opens] and
    [writes] say whether the first two work. *)
Definition written (msg : bytes) : incoming := {| data := msg; tail_ := Ended |}.

Lemma readLimited_written n msg : 0 <= n -> readLimited n (written msg) = Ok (take (Z.to_nat n) msg).
Proof.
  intros Hn. unfold readLimited. cbn. destruct (Z.leb_spec n (zlen msg)); [done|].
  rewrite take_ge; [done|]. unfold zlen in *. lia.
Qed.

(** ** Echo *)
Module Echo.

Definition maxEchoLen : Z := 64 * 1024.

(** "Re: ", in ASCII. *)
Definition prefix : bytes := [82; 101; 58; 32].

(** The handler: whether [ShouldReject] turns the peer away, and how many bytes the two
    writes take before they fail ([None]: they do not). *)
Definition handleEcho (reject : bool) (w1 w2 : option nat) (s : incoming) : outgoing :=
  if reject then Reset
  else match readLimited maxEchoLen s with
       | Ok buf =>
           match w1 with
           | Some k => Sent (take k prefix)
           | None => Sent (prefix ++ match w2 with Some k => take k buf | None => buf end)
           end
       | _ => Sent []
       end.

Definition Echo (opens writes : bool) (server : incoming -> outgoing) (msg : bytes) : res bytes :=
  if negb opens then Fail "open stream"
  else if negb writes then Fail "write"
  else match server (written msg) with Sent b => Ok b | Reset => Fail "stream reset" end.

(** A message of at most 64 KiB comes back whole; of a longer one the answer has the first
    64 KiB, and nothing tells. *)
Theorem echo_roundtrip msg :
  Echo true true (handleEcho false None None) msg = Ok (prefix ++ take (Z.to_nat maxEchoLen) msg) /\
  (zlen msg <= maxEchoLen -> Echo true true (handleEcho false None None) msg = Ok (prefix ++ msg)).
Proof.
  assert (Echo true true (handleEcho false None None) msg = Ok (prefix ++ take (Z.to_nat maxEchoLen) msg)) as E.
  { unfold Echo, handleEcho. cbn [negb]. by rewrite readLimited_written. }
  split; [exact E|]. intros Hl. rewrite E, take_ge; [done|]. unfold zlen, maxEchoLen in *. lia.
Qed.
End Echo.

(** ** Remote commands *)
Module Exec.

Definition maxCmdLen : Z := 4096.
Definition maxOutputLen : Z := 1024.

Record ExecResult := { Stdout : bytes; Stderr : bytes; ExitCode : Z; Error : string }.

(** How [cmd.Run] and the select on it end: a status (an [ExitError] has one too), another
    error, or the deadline of three seconds. *)
Inductive outcome := Exited (code : Z) | Broken (e : string) | Expired.

(** The shell with [-c]: the outcome and what was written to both outputs by then. *)
Definition shell := bytes -> outcome * bytes * bytes.

Definition truncateStr (s : bytes) (n : Z) : bytes := if n <? zlen s then take (Z.to_nat n) s else s.

(** What [handleExec] sends: nothing, a reset, or a result. *)
Inductive reply := Silent | ResetStream | Result (r : ExecResult).

Definition exitCode (o : outcome) : Z := match o with Exited c => c | _ => -1 end.
Definition execErr (o : outcome) : string := match o with Exited _ => "" | Broken e => e | Expired => "execution timeout" end.

Definition handleExec (reject : bool) (sh : shell) (s : incoming) : reply :=
  if reject then ResetStream
  else match readLimited maxCmdLen s with
       | Ok buf =>
           match TrimSpace buf with
           | [] => Silent
           | cmdStr =>
               let '(o, stdout, stderr) := sh cmdStr in
               Result {| Stdout := truncateStr stdout maxOutputLen; Stderr := truncateStr stderr maxOutputLen;
                         ExitCode := exitCode o; Error := execErr o |}
           end
       | _ => Silent
       end.

(** A result after [json.Encode] and [Decode]; errors of the program are ASCII. *)
Definition over_json (r : ExecResult) : ExecResult :=
  {| Stdout := json_text (Stdout r); Stderr := json_text (Stderr r); ExitCode := ExitCode r; Error := Error r |}.

Definition Exec (opens writes : bool) (server : incoming -> reply) (command : bytes) : res ExecResult :=
  if negb opens then Fail "open stream"
  else if negb writes then Fail "write"
  else match server (written command) with
       | Result r => Ok (over_json r)
       | Silent => Fail "EOF"
       | ResetStream => Fail "stream reset"
       end.

Lemma truncateStr_take s n : 0 <= n -> truncateStr s n = take (Z.to_nat n) s.
Proof. intros Hn. unfold truncateStr, zlen. destruct (Z.ltb_spec n (Z.of_nat (length s))); [done|]. rewrite take_ge; [done|lia]. Qed.

Lemma ascii_take n l : ascii l -> ascii (take n l).
Proof. apply Forall_take. Qed.

(** What is run is the first 4096 bytes of the command without the spaces around them,
    also when the command is longer; the answer has the status, an error for a time-out,
    and the first 1024 bytes of each output, unchanged when the outputs are ASCII.  A
    blank command is not run and gets no answer. *)
Theorem exec_answer (sh : shell) command :
  let cmdStr := TrimSpace (take (Z.to_nat maxCmdLen) command) in
  (cmdStr = [] -> Exec true true (handleExec false sh) command = Fail "EOF") /\
  (cmdStr <> [] -> forall o out err, sh cmdStr = (o, out, err) ->
     exists r, Exec true true (handleExec false sh) command = Ok r /\
       ExitCode r = exitCode o /\ Error r = execErr o /\
       Stdout r = json_text (take (Z.to_nat maxOutputLen) out) /\
       (ascii out -> Stdout r = take (Z.to_nat maxOutputLen) out) /\
       (ascii err -> Stderr r = take (Z.to_nat maxOutputLen) err)).
Proof.
  intros cmdStr. unfold Exec, handleExec. cbn [negb]. rewrite readLimited_written by done. fold cmdStr. split.
  - by intros ->.
  - intros Hne o out err Hsh. destruct cmdStr as [|b r] eqn:E; [done|]. rewrite Hsh. eexists. split; [done|].
    unfold over_json. cbn -[maxOutputLen]. rewrite !truncateStr_take by done. split_and!; try done.
    + intros Ha. by apply json_text_ascii, ascii_take.
    + intros Ha. by apply json_text_ascii, ascii_take.
Qed.

(** The truncation cuts through a character: the answer ends in U+FFFD, which the command
    did not print. *)
Lemma exec_cuts_character :
  let out := replicate 1023 97 ++ [195; 169] in
  exists r, Exec true true (handleExec false (fun _ => (Exited 0, out, []))) [108; 115] = Ok r /\
    Stdout r = replicate 1023 97 ++ replacement.
Proof. eexists. split; [vm_compute; reflexivity|]. vm_compute. reflexivity. Qed.
End Exec.

(** ** Witnesses *)
Lemma echo_roundtrip_witness : Echo.Echo true true (Echo.handleEcho false None None) [104; 105] = Ok [82; 101; 58; 32; 104; 105].
Proof. apply (Echo.echo_roundtrip [104; 105]). vm_compute. congruence. Defined.

(** A command of 4098 bytes loses its last two. *)
Lemma exec_answer_witness :
  let sh : Exec.shell := fun c => (Exec.Exited (zlen c), [], []) in
  exists r, Exec.Exec true true (Exec.handleExec false sh) (replicate 4096 97 ++ [32; 98]) = Ok r /\ Exec.ExitCode r = 4096.
Proof.
  intros sh.
  destruct (proj2 (Exec.exec_answer sh (replicate 4096 97 ++ [32; 98])) ltac:(vm_compute; discriminate) (Exec.Exited 4096) [] []
    ltac:(vm_compute; reflexivity)) as (r & E & Hc & _). exists r. split; [exact E|exact Hc].
Defined.
