(* ===== verification/HostAddrs.v ===== *)
(** * Addresses of this host and of other peers

    [Module Filters] is the classification of addresses in src/p2put/utils.go, [Module
    Peerstore] the file of known peers and its cleaning in libp2p_bs.go, [Module Suber] the
    events of the host that [myEventSuber] turns into advertised addresses, and [Module
    Dns] the resolution of bootstrap names of multidns.go.  A multiaddress is its text;
    what go-multiaddr reads from it is the class [Multiaddr]. *)

From S2P Require Import Prelude GoLib GoNet PeerStore.

Class Multiaddr := {
  protocols : string -> list string;                (* the names of [Protocols()] *)
  value_ip : string -> string -> option bytes       (* [net.ParseIP] of [ValueForProtocol] *)
}.

Module Filters.

(** ** Addresses *)

(** [ip.IsUnspecified]. *)
Definition is_unspecified (ip : bytes) : bool := ip_equal ip [0; 0; 0; 0] || ip_equal ip (replicate 16 0).

(** [isPrivateIP] of a parsed address, or of none. *)
Definition isPrivateIP (ip : option bytes) : bool :=
  match ip with
  | None => true
  | Some ip =>
      if is_unspecified ip then true
      else if is_loopback ip then true
      else if is_link_local ip then true
      else match to4 ip with
           | Some ip4 =>
               (at_ ip4 0 =? 10) ||
               ((at_ ip4 0 =? 172) && (16 <=? at_ ip4 1) && (at_ ip4 1 <=? 31)) ||
               ((at_ ip4 0 =? 192) && (at_ ip4 1 =? 168))
           | None =>
               if (length ip =? 16)%nat then
                 ((at_ ip 0 =? 254) && (128 <=? at_ ip 1) && (at_ ip 1 <=? 191)) ||
                 (at_ ip 0 =? 252) || (at_ ip 0 =? 253)
               else false
           end
  end.

Section filters.
Context `{Multiaddr}.

(** [isRelayAddr]. *)
Definition isRelayAddr (a : string) : bool := bool_decide ("p2p-circuit" ∈ protocols a).

(** [extractIPFromAddr]: the first component that is an address and has a value. *)
Definition extractIPFromAddr (a : string) : option bytes :=
  match filter (fun p => p = "ip4" \/ p = "ip6") (protocols a) with
  | p :: _ => value_ip a p
  | [] => None
  end.

(** [n.Contains(ip)] for 10.0.[k].0/24. *)
Definition in_vlan (k : Z) (ip : bytes) : bool :=
  match to4 ip with Some ip4 => bool_decide (take 3 ip4 = [10; 0; k]) | None => false end.

Definition isVirtIP4Addr (a : string) : bool :=
  match extractIPFromAddr a with
  | None => false
  | Some ip => in_vlan 0 ip || in_vlan 3 ip
  end.

(** What [myAddrsFactory] keeps of what the host listens on. *)
Definition factory_keeps (a : string) : bool :=
  isRelayAddr a ||
  (negb (match extractIPFromAddr a with Some ip => is_loopback ip | None => false end) && negb (isVirtIP4Addr a)).

(** A [net.TCPAddr]; [ListRelayAddrs] may have other addresses ([None]). *)
Record tcpAddr := { IP : option bytes; Port : Z }.

(** The text of an address a TURN server allocated, if it is one to advertise. *)
Definition relayText (t : option tcpAddr) : option string :=
  match t with
  | Some {| IP := Some ip; Port := p |} =>
      if is_unspecified ip || (p =? 0) then None
      else Some ((match to4 ip with Some _ => "/ip4/" | None => "/ip6/" end) +:+ ip_string ip +:+ "/tcp/" +:+ itoa p)
  | _ => None
  end.

(** [myAddrsFactory]; [NewMultiaddr] may refuse a text. *)
Definition myAddrsFactory (NewMultiaddr : string -> option string) (relays : list (option tcpAddr)) (addrs : list string) :
    list string :=
  filter (fun a => factory_keeps a = true) addrs ++
  filter (fun a => isVirtIP4Addr a = false) (omap (fun t => s ← relayText t; NewMultiaddr s) relays).

(** [IsGoodPeerAddr]: [bootstrap] is [isBootstrapPeer] of the peer. *)
Definition goodAddr (a : string) : bool :=
  negb (isRelayAddr a) && negb (contains "libp2p.direct" a) &&
  negb (bool_decide (is_Some (value_ip a "ip6"))) &&
  (contains "/tcp/4001" a || contains "/tcp/443" a) &&
  match value_ip a "ip4" with Some ip => negb (isPrivateIP (Some ip)) | None => false end.
Definition IsGoodPeerAddr (bootstrap : bool) (addrs : list string) : bool :=
  negb bootstrap && existsb goodAddr addrs.
End filters.

(** ** The private ranges *)

(** [v] is in the network of the first [len] of [w] bits of [n]. *)
Definition in_net (w v : Z) (net : Z * Z) : bool := v / 2 ^ (w - net.2) =? net.1 / 2 ^ (w - net.2).

(** 0.0.0.0, 127/8, 169.254/16, 10/8, 172.16/12, 192.168/16. *)
Definition nets4 : list (Z * Z) :=
  [(0, 32); (0x7F000000, 8); (0xA9FE0000, 16); (0x0A000000, 8); (0xAC100000, 12); (0xC0A80000, 16)].
(** ::, ::1, fe80::/10, fc00::/7. *)
Definition nets6 : list (Z * Z) := [(0, 128); (1, 128); (0xFE80 * 2 ^ 112, 10); (0xFC00 * 2 ^ 112, 7)].

Lemma be_val4 a b c d : be_val [a; b; c; d] = a * 16777216 + b * 65536 + c * 256 + d.
Proof. cbn [be_val]. unfold zlen. cbn [length]. change (256 ^ Z.of_nat 3) with 16777216. change (256 ^ Z.of_nat 2) with 65536.
  change (256 ^ Z.of_nat 1) with 256. change (256 ^ Z.of_nat 0) with 1. lia. Qed.

Lemma private4 a b c d :
  is_bytes [a; b; c; d] ->
  isPrivateIP (Some [a; b; c; d]) = existsb (in_net 32 (be_val [a; b; c; d])) nets4.
Proof.
  intros Hb. rewrite be_val4. unfold is_bytes in Hb. rewrite !Forall_cons in Hb. unfold is_byte in Hb. destruct Hb as (Ha & Hb & Hc & Hd & _).
  apply eq_true_iff_eq. cbn [isPrivateIP]. unfold is_unspecified, ip_equal, is_loopback, is_link_local. cbn [to4 length Nat.eqb].
  change (to4 (replicate 16 0)) with (@None bytes). unfold at_. cbn [nth existsb nets4]. unfold in_net. cbn [fst snd].
  change (32 - 32) with 0. change (32 - 8) with 24. change (32 - 16) with 16. change (32 - 12) with 20.
  change (2 ^ 0) with 1. change (2 ^ 24) with 16777216. change (2 ^ 16) with 65536. change (2 ^ 20) with 1048576.
  set (v := a * 16777216 + b * 65536 + c * 256 + d).
  assert (v / 1 = v) as -> by apply Z.div_1_r.
  assert (v / 16777216 = a) as -> by (unfold v; Z.to_euclidean_division_equations; lia).
  assert (v / 65536 = a * 256 + b) as -> by (unfold v; Z.to_euclidean_division_equations; lia).
  assert (v / 1048576 = a * 16 + b / 16) as -> by (unfold v; Z.to_euclidean_division_equations; lia).
  change (0 / 1) with 0. change (0x7F000000 / 16777216) with 127. change (0xA9FE0000 / 65536) with 43518.
  change (0x0A000000 / 16777216) with 10. change (0xAC100000 / 1048576) with 2753. change (0xC0A80000 / 65536) with 49320.
  rewrite orb_false_r. destruct (bool_decide_reflect ([a; b; c; d] = [0; 0; 0; 0])) as [E|E].
  - injection E as -> -> -> ->. by split.
  - assert (v <> 0) as Hv by (intros Hv; apply E; unfold v in Hv; repeat f_equal; lia). clearbody v. clear E.
    destruct (Z.eqb_spec a 127), (Z.eqb_spec a 169), (Z.eqb_spec b 254); cbn [andb];
      rewrite ?orb_true_iff, ?andb_true_iff, ?Z.eqb_eq, ?Z.leb_le; split; intros; try done; try (Z.to_euclidean_division_equations; lia).
Qed.

Lemma be_val_inj l k : is_bytes l -> is_bytes k -> length l = length k -> be_val l = be_val k -> l = k.
Proof. intros Hl Hk Hlen E. rewrite <- (be_bytes_be_val l), <- (be_bytes_be_val k) by done. by rewrite Hlen, E. Qed.

Lemma be_val_top a b r : length r = 14%nat -> be_val (a :: b :: r) = (a * 256 + b) * 2 ^ 112 + be_val r.
Proof.
  intros Hr. cbn [be_val]. unfold zlen. cbn [length]. rewrite Hr. change (256 ^ Z.of_nat 15) with (256 * 2 ^ 112).
  change (256 ^ Z.of_nat 14) with (2 ^ 112). lia.
Qed.

(** The two bytes that decide on an address of IPv6. *)
Lemma link_local_range b : 0 <= b < 256 -> (Z.land b 0xc0 =? 0x80) = (128 <=? b) && (b <=? 191).
Proof.
  intros Hb. assert (forallb (fun b => Bool.eqb (Z.land b 0xc0 =? 0x80) ((128 <=? b) && (b <=? 191)))
    (map Z.of_nat (seq 0 256)) = true) as H by (vm_compute; reflexivity).
  rewrite forallb_forall in H. apply Bool.eqb_prop, H. apply in_map_iff. exists (Z.to_nat b).
  split; [lia|]. apply in_seq. lia.
Qed.

Lemma private6 ip :
  is_bytes ip -> length ip = 16%nat -> to4 ip = None ->
  isPrivateIP (Some ip) = existsb (in_net 128 (be_val ip)) nets6.
Proof.
  intros Hb Hl H4.
  assert (bool_decide (ip = replicate 16 0) = (be_val ip =? 0)) as E0.
  { apply eq_true_iff_eq. rewrite bool_decide_eq_true, Z.eqb_eq. split; [by intros ->|].
    intros E. apply be_val_inj; [done|by apply (bool_decide_eq_true_1 _); vm_compute|done|by rewrite E]. }
  assert (bool_decide (ip = replicate 15 0 ++ [1]) = (be_val ip =? 1)) as E1.
  { apply eq_true_iff_eq. rewrite bool_decide_eq_true, Z.eqb_eq. split; [by intros ->|].
    intros E. apply be_val_inj; [done|by apply (bool_decide_eq_true_1 _); vm_compute|done|by rewrite E]. }
  cbn [isPrivateIP]. unfold is_unspecified, ip_equal, is_loopback, is_link_local. rewrite H4.
  change (to4 [0; 0; 0; 0]) with (Some [0; 0; 0; 0]). change (to4 (replicate 16 0)) with (@None bytes).
  rewrite E0, E1, Hl. cbn [orb Nat.eqb existsb nets6]. clear E0 E1 H4. unfold in_net. cbn [fst snd].
  destruct ip as [|a [|b r]]; [done|done|]. cbn [length] in Hl. injection Hl as Hr.
  unfold is_bytes in Hb. rewrite !Forall_cons in Hb. destruct Hb as (Ha & Hb & Hbr).
  unfold at_. cbn [nth]. rewrite link_local_range by exact Hb. unfold is_byte in Ha, Hb.
  rewrite be_val_top by done. pose proof (be_val_bound r Hbr) as Hv. unfold zlen in Hv. rewrite Hr in Hv.
  change (256 ^ Z.of_nat 14) with (2 ^ 112) in Hv. set (w := be_val r) in *. clearbody w.
  change (128 - 128) with 0. change (128 - 10) with 118. change (128 - 7) with 121. rewrite Z.div_1_r.
  change (2 ^ 118) with (2 ^ 112 * 64). change (2 ^ 121) with (2 ^ 112 * 512).
  rewrite <- !Z.div_div, Z.div_add_l, (Z.div_small w), Z.add_0_r by lia.
  change (0 / 2 ^ 0) with 0. change (1 / 2 ^ 0) with 1.
  change (0xFE80 * 2 ^ 112 / 2 ^ 112 / 64) with 1018. change (0xFC00 * 2 ^ 112 / 2 ^ 112 / 512) with 126.
  apply eq_true_iff_eq. rewrite orb_false_r.
  destruct (Z.eqb_spec ((a * 256 + b) * 2 ^ 112 + w) 0), (Z.eqb_spec ((a * 256 + b) * 2 ^ 112 + w) 1); [done..|].
  destruct (Z.eqb_spec a 254), (Z.leb_spec 128 b), (Z.leb_spec b 191); cbn [andb];
    rewrite ?orb_true_iff, ?andb_true_iff, ?Z.eqb_eq; split; intros; try done; try (Z.to_euclidean_division_equations; lia).
Qed.

(** [isPrivateIP] holds of the IPv4 addresses (also when they are written as IPv6) of
    the ranges 0.0.0.0, 10/8, 127/8, 169.254/16, 172.16/12 and 192.168/16, of the IPv6
    addresses ::, ::1, fe80::/10 and fc00::/7, and of no others. *)
Theorem isPrivateIP_ranges ip :
  is_bytes ip ->
  match to4 ip with
  | Some ip4 => isPrivateIP (Some ip) = existsb (in_net 32 (be_val ip4)) nets4
  | None => length ip = 16%nat -> isPrivateIP (Some ip) = existsb (in_net 128 (be_val ip)) nets6
  end.
Proof.
  intros Hb. destruct (to4 ip) as [ip4|] eqn:E; [|by intros; apply private6].
  assert (length ip4 = 4%nat /\ is_bytes ip4) as [Hl H4].
  { unfold to4 in E. destruct (Nat.eqb_spec (length ip) 4); [by simplify_eq|].
    destruct (Nat.eqb_spec (length ip) 16) as [H16|]; cbn [andb] in E; [|done].
    destruct (bool_decide _); simplify_eq. split; [by rewrite length_drop, H16|by apply is_bytes_drop]. }
  assert (to4 ip4 = Some ip4) as Et by (unfold to4; by rewrite Hl).
  assert (isPrivateIP (Some ip) = isPrivateIP (Some ip4)) as ->.
  { cbn [isPrivateIP]. unfold is_unspecified, ip_equal, is_loopback, is_link_local. by rewrite E, Et. }
  destruct ip4 as [|a [|b [|c [|d [|]]]]]; try done. by apply private4.
Qed.
End Filters.

(** ** The file of known peers *)
Module Peerstore.
Import Filters.

Definition minPeerCount : Z := 16.

(** [ip.IsPrivate]. *)
Definition ip_is_private (ip : bytes) : bool :=
  match to4 ip with
  | Some a => (at_ a 0 =? 10) || ((at_ a 0 =? 172) && (Z.land (at_ a 1) 0xf0 =? 16)) || ((at_ a 0 =? 192) && (at_ a 1 =? 168))
  | None => (length ip =? 16)%nat && (Z.land (at_ ip 0) 0xfe =? 0xfc)
  end.

Section peerstore.
Context `{Multiaddr} `{MapRange}.
(** [md5] of the JSON, which has the keys in order; [peer.Decode]; [NewMultiaddr]. *)
Context (sum : gmap string (list string) -> string) (Decode NewMultiaddr : string -> option string).

(** The peers and addresses of the host's peerstore by the text of their ids, what the
    file holds, and [savedPeerstoreSum]. *)
Record state := { store : gmap string (list string); file : option (gmap string (list string)); savedSum : string }.

(** The addresses that are written. *)
Definition saves (a : string) : bool :=
  negb (match extractIPFromAddr a with Some ip => is_loopback ip || ip_is_private ip | None => false end) &&
  negb (contains "/ip6/" a || contains "/udp/" a || contains "/quic" a || contains "webrtc" a || contains "/dns/" a).

(** The map that is written. *)
Definition to_save (ps : gmap string (list string)) : gmap string (list string) :=
  omap (fun addrs => match addrs with [] => None | _ => Some (filter (fun a => saves a = true) addrs) end) ps.

(** [savePeerstore]; [writes] is whether [os.WriteFile] succeeds. *)
Definition savePeerstore (writes : bool) (s : state) : state * res unit :=
  let m := to_save (store s) in
  if Z.of_nat (size m) <? minPeerCount then (s, Ok tt)
  else if String.eqb (sum m) (savedSum s) then (s, Ok tt)
  else if writes then ({| store := store s; file := Some m; savedSum := sum m |}, Ok tt)
  else ({| store := store s; file := file s; savedSum := sum m |}, Fail "write").

(** The calls of [AddAddrs] [loadPeerstore] makes for a file. *)
Definition loadAddrs (addrs : list string) : list string :=
  filter (fun a => isVirtIP4Addr a = false) (omap NewMultiaddr addrs).
Definition loadPeerstore (s : state) : list (string * list string) :=
  match file s with
  | None => []
  | Some m =>
      omap (fun e : string * list string =>
        match Decode e.1, loadAddrs e.2 with
        | None, _ | _, [] => None
        | Some pid, mas => Some (pid, mas)
        end) (range_map 22 m)
  end.

(** [cleanPeerstore]; the loop over the peers, a peer at a time. *)
Definition cleanPeerstore (self : string) (bootstrap connected : string -> bool) (s : state) : state :=
  if Z.of_nat (size (store s)) <? minPeerCount then s
  else {| store := foldl (fun m pid =>
                     if String.eqb pid self || bootstrap pid then m
                     else if connected pid then m else delete pid m)
                   (store s) (range_map 23 (store s)).*1;
          file := file s; savedSum := savedSum s |}.

(** Virtual addresses are private: none is in a file. *)
Lemma saves_not_virtual a : saves a = true -> isVirtIP4Addr a = false.
Proof.
  unfold saves, isVirtIP4Addr. destruct (extractIPFromAddr a) as [ip|]; [|done].
  intros [Hp _]%andb_true_iff. apply negb_true_iff, orb_false_iff in Hp as [_ Hp].
  destruct (in_vlan 0 ip || in_vlan 3 ip) eqn:E; [|done]. exfalso.
  assert (exists ip4 k, to4 ip = Some ip4 /\ take 3 ip4 = [10; 0; k]) as (ip4 & k & E4 & Ek).
  { apply orb_true_iff in E as [E|E]; unfold in_vlan in E; (destruct (to4 ip) as [ip4|]; [|done]);
      apply bool_decide_eq_true in E; eauto. }
  unfold ip_is_private in Hp. rewrite E4 in Hp. destruct ip4 as [|a0 r]; [done|]. cbn in Ek. injection Ek as -> _. done.
Qed.

Lemma elem_of_load s m pid mas :
  file s = Some m ->
  (pid, mas) ∈ loadPeerstore s <-> mas <> [] /\ exists id addrs, m !! id = Some addrs /\ Decode id = Some pid /\ loadAddrs addrs = mas.
Proof.
  intros Hf. unfold loadPeerstore. rewrite Hf, list_elem_of_omap. split.
  - intros ([id addrs] & Hin & E). apply elem_of_range in Hin. cbn [fst snd] in E.
    destruct (Decode id) as [pid'|] eqn:Ed; [|done]. destruct (loadAddrs addrs) as [|x r] eqn:El; [done|]. injection E as <- <-.
    split; [done|]. exists id, addrs. by rewrite El.
  - intros (Hne & id & addrs & Hm & Hd & Hl). exists (id, addrs). split; [by apply elem_of_range|]. cbn [fst snd]. rewrite Hd, Hl.
    by destruct mas.
Qed.

(** What is saved is what is loaded: for a store whose ids and addresses can be read
    back, a save that writes leaves a file from which [loadPeerstore] adds, for each peer
    with a public address, exactly its public addresses, and nothing for the others. *)
Theorem peerstore_roundtrip s s' :
  savePeerstore true s = (s', Ok tt) -> file s' <> file s ->
  map_Forall (fun p addrs => Decode p = Some p /\ Forall (fun a => NewMultiaddr a = Some a) addrs) (store s) ->
  forall p mas, (p, mas) ∈ loadPeerstore s' <->
    mas <> [] /\ exists addrs, store s !! p = Some addrs /\ mas = filter (fun a => saves a = true) addrs.
Proof.
  unfold savePeerstore. destruct (_ <? _); [by intros [= <-]|]. destruct (String.eqb _ _); [by intros [= <-]|].
  intros [= <-] _ Hok p mas. rewrite (elem_of_load _ (to_save (store s))) by done.
  assert (forall id addrs, store s !! id = Some addrs -> loadAddrs (filter (fun a => saves a = true) addrs) =
    filter (fun a => saves a = true) addrs) as Hload.
  { intros id addrs Hid. destruct (Hok id addrs Hid) as [_ Ha]. clear -Ha. unfold loadAddrs.
    induction Ha as [|a l Ea Hl IH]; [done|]. rewrite filter_cons. destruct (decide (saves a = true)) as [Hs|Hs]; [|done].
    cbn [omap list_omap]. rewrite Ea. cbn [omap list_omap]. rewrite filter_cons.
    rewrite decide_True by (by apply saves_not_virtual). by rewrite IH. }
  assert (forall id as_, to_save (store s) !! id = Some as_ <->
    exists a l, store s !! id = Some (a :: l) /\ as_ = filter (fun a => saves a = true) (a :: l)) as Hs.
  { intros id as_. unfold to_save. rewrite lookup_omap. destruct (store s !! id) as [[|a l]|]; cbn [mbind option_bind].
    - split; [done|]. by intros (? & ? & ? & _).
    - split; [intros [= <-]; eauto|]. by intros (? & ? & [= <- <-] & ->).
    - split; [done|]. by intros (? & ? & ? & _). }
  split; intros [Hne Hx]; (split; [done|]).
  - destruct Hx as (id & as_ & Hm & Hd & <-). apply Hs in Hm as (a & l & Hid & ->).
    destruct (Hok id _ Hid) as [Hd' _]. rewrite Hd' in Hd. injection Hd as <-. exists (a :: l). split; [done|]. by eapply Hload.
  - destruct Hx as (addrs & Hid & ->). exists p, (filter (fun a => saves a = true) addrs).
    destruct (Hok p addrs Hid) as [Hd _]. split_and!; [|done|by eapply Hload].
    apply Hs. destruct addrs as [|a l]; [by destruct Hne|]. eauto.
Qed.

(** A write that fails is not tried again: the sum is remembered before the file is
    written, so until the peers change every save returns without an error and without
    writing. *)
Theorem failed_write_forgotten s s' e :
  savePeerstore false s = (s', Fail e) ->
  file s' = file s /\ forall w, savePeerstore w s' = (s', Ok tt).
Proof.
  unfold savePeerstore. destruct (_ <? _) eqn:En; [done|]. destruct (String.eqb _ _); [done|].
  intros [= <- <-]. split; [done|]. intros w. cbn [store savedSum]. by rewrite En, String.eqb_refl.
Qed.

(** The file never holds fewer than 16 peers, whatever the store does. *)
Theorem saved_enough w s :
  (forall m, file s = Some m -> minPeerCount <= Z.of_nat (size m)) ->
  forall m, file (savePeerstore w s).1 = Some m -> minPeerCount <= Z.of_nat (size m).
Proof.
  intros Hs m. unfold savePeerstore. destruct (Z.ltb_spec (Z.of_nat (size (to_save (store s)))) minPeerCount); [apply Hs|].
  destruct (String.eqb _ _); [apply Hs|]. destruct w; [intros [= <-]; done|apply Hs].
Qed.

(** Cleaning keeps this host, the bootstrap peers and the connected ones, if there are
    enough peers to clean. *)
Lemma clean_lookup self bootstrap connected s pid :
  minPeerCount <= Z.of_nat (size (store s)) ->
  store (cleanPeerstore self bootstrap connected s) !! pid =
  if String.eqb pid self || bootstrap pid || connected pid then store s !! pid else None.
Proof.
  intros Hn. unfold cleanPeerstore. destruct (Z.ltb_spec (Z.of_nat (size (store s))) minPeerCount); [lia|]. cbn [store].
  assert (forall l (m : gmap string (list string)), foldl (fun m q => if String.eqb q self || bootstrap q then m
      else if connected q then m else delete q m) m l !! pid =
    if decide (pid ∈ l) then if String.eqb pid self || bootstrap pid || connected pid then m !! pid else None else m !! pid) as Hf.
  { induction l as [|q l IH]; intros m; cbn [foldl]; [by rewrite decide_False by set_solver|]. rewrite IH.
    destruct (decide (pid = q)) as [->|Hne].
    - rewrite (decide_True (P := q ∈ q :: l)) by set_solver.
      destruct (String.eqb q self || bootstrap q); cbn [orb]; [by case_decide|].
      destruct (connected q); [by case_decide|]. rewrite lookup_delete_eq. by case_decide.
    - assert (forall m' : gmap string (list string), (if String.eqb q self || bootstrap q then m' else if connected q then m' else delete q m') !! pid = m' !! pid) as ->.
      { intros m'. repeat case_match; try done; by rewrite lookup_delete_ne. }
      destruct (decide (pid ∈ l)); [by rewrite decide_True by set_solver|by rewrite decide_False by set_solver]. }
  rewrite Hf. case_decide as Hin; [done|].
  destruct (store s !! pid) as [a|] eqn:E; [|by case_match]. exfalso. apply Hin, list_elem_of_fmap.
  exists (pid, a). split; [done|]. by apply elem_of_range.
Qed.
End peerstore.
End Peerstore.

(** ** The addresses events of the host make the node advertise *)
Module Suber.
Import Filters.

Section suber.
Context `{Multiaddr} `{MapRange} (extractRelayPeerID : string -> res string).

Abbreviation AddrManager := (AddrManager.AddrManager (A := string)).
Abbreviation mergeAddrs := (AddrManager.mergeAddrs (fun a : string => a)).

(** The branch of [myEventSuber] for [EvtLocalAddressesUpdated]. *)
Definition localAddressesUpdated (current removed : list string) (m : AddrManager) : AddrManager :=
  AddrManager.SetRelayCircuit (mergeAddrs [] (filter (fun a => isRelayAddr a = true) removed))
    (AddrManager.SetLocal (mergeAddrs [] current) m).

Lemma elem_of_mergeAddrs l k : k ∈ mergeAddrs [] l <-> k ∈ l.
Proof.
  destruct (AddrManager.mergeAddrs_spec (fun a : string => a) extractRelayPeerID [] l) as (_ & Hk & _).
  specialize (Hk k). rewrite !list_fmap_id in Hk. rewrite Hk. set_solver.
Qed.

(** What is advertised after the event: the current addresses, and of the circuit
    addresses those that the host no longer has.  When it has lost none, those of the
    last time stay. *)
Theorem removed_circuits_advertised now current removed m k :
  let circuits := filter (fun a => isRelayAddr a = true) removed in
  let m' := localAddressesUpdated current removed m in
  AddrManager.advertised (fun a => a) extractRelayPeerID now m' k <->
    k ∈ current \/
    (k ∈ (if decide (circuits = []) then AddrManager.relayCircuitAddrs m else circuits) /\
     AddrManager.circuit_valid extractRelayPeerID now m k = true) \/
    exists id v, AddrManager.relayVouches m !! id = Some v /\ AddrManager.live now v = true /\ k ∈ AddrManager.addrs v.
Proof.
  intros circuits m'.
  assert (AddrManager.localAddrs m' = mergeAddrs [] current /\ AddrManager.relayVouches m' = AddrManager.relayVouches m) as [El Ev].
  { unfold m', localAddressesUpdated, AddrManager.SetRelayCircuit. by case_match. }
  assert (forall a, AddrManager.circuit_valid extractRelayPeerID now m' a = AddrManager.circuit_valid extractRelayPeerID now m a) as Ec
    by (intros a; unfold AddrManager.circuit_valid; by rewrite Ev).
  assert (forall a, a ∈ AddrManager.relayCircuitAddrs m' <->
    a ∈ (if decide (circuits = []) then AddrManager.relayCircuitAddrs m else circuits)) as Er.
  { intros a. pose proof (elem_of_mergeAddrs circuits) as Hm. unfold m', localAddressesUpdated, AddrManager.SetRelayCircuit.
    fold circuits. destruct (decide (circuits = [])) as [->|Hne]; [done|]. destruct (mergeAddrs [] circuits) as [|x l] eqn:E.
    - exfalso. destruct circuits as [|c r]; [done|]. destruct (Hm c) as [_ Hc]. apply (not_elem_of_nil c), Hc, list_elem_of_here.
    - cbn. by rewrite <- Hm. }
  unfold AddrManager.advertised. rewrite El, Ev, !list_fmap_id, elem_of_mergeAddrs.
  apply or_iff_compat_l. apply ZifyClasses.or_morph.
  - split; [intros (a & Ha & Hv & ->); split; [by apply Er|by rewrite <- Ec]|intros [Ha Hv]].
    exists k. split_and!; [by apply Er|by rewrite Ec|done].
  - split; intros (id & v & H1 & H2 & H3); exists id, v; rewrite ?list_fmap_id in *; done.
Qed.
End suber.
End Suber.

(** ** Bootstrap names *)
Module Dns.
Import Filters.

Section dns.
Context `{Multiaddr} `{MapRange}.
(** [multiaddr.NewMultiaddr] succeeds; the results of [madns.Resolve] and whether it failed;
    [madns.Matches]. *)
Context (parses : string -> bool) (Resolve : string -> list string * bool) (Matches : string -> bool).

Definition hasDNSComponent (a : string) : bool :=
  existsb (fun p => bool_decide (p ∈ ["dns4"; "dns6"; "dns"; "dnsaddr"])) (protocols a).

(** What was resolved, and the number of errors. *)
Definition resolved := (list string * nat)%type.

(** The loop over the results, the recursive call given. *)
Fixpoint resolveResults (rec : string -> option resolved) (l : list string) : option resolved :=
  match l with
  | [] => Some ([], 0%nat)
  | r :: l =>
      here ← (if Matches r then rec r
              else if hasDNSComponent r then
                sub ← rec r; Some (match sub.1 with [] => [r] | s => s end, sub.2)
              else Some ([r], 0%nat));
      rest ← resolveResults rec l;
      Some (here.1 ++ rest.1, (here.2 + rest.2)%nat)
  end.

(** [resolveDNSAddrFully]; [None] when the depth of the calls exceeds the fuel. *)
Fixpoint resolveDNSAddrFully (fuel : nat) (addr : string) : option resolved :=
  match fuel with
  | O => None
  | S fuel =>
      if negb (parses addr) then Some ([], 1%nat)
      else
        let '(results, failed) := Resolve addr in
        r ← resolveResults (resolveDNSAddrFully fuel) results;
        Some (r.1, ((if failed then 1 else 0) + r.2)%nat)
  end.

(** What keeps an address out of the bootstrap list. *)
Definition skips (a : string) : bool := contains ":" a || contains "/udp/" a.
Definition addNode (out : list string) (a : string) : list string :=
  if skips a then out else if bool_decide (a ∈ out) then out else out ++ [a].

(** The loops at the end of [loadOrResolveAllDNSAddrs], over a map of resolved names. *)
Definition collectNodes (out : list string) (m : gmap string (list string)) : list string :=
  foldl addNode out (concat (range_map 24 m).*2).

(** The file of resolved names: its contents if it can be read and parsed, and its age. *)
Record cache := { contents : option (gmap string (list string)); age : Z }.
Definition dnsaddrsCacheDur : Z := 5 * 3600 * second.

(** [resolveAllDNSAddrsQuiet], with enough fuel for every name. *)
Definition resolveAll (fuel : nat) (names : list string) : option (gmap string (list string)) :=
  foldr (fun a m => m' ← m; r ← resolveDNSAddrFully fuel a;
    Some (match r.1 with [] => m' | l => <[a := l]> m' end)) (Some ∅) (reverse names).

(** [loadOrResolveAllDNSAddrs]: the nodes found and what the file holds then; a file that
    cannot be written panics. *)
Definition loadOrResolveAllDNSAddrs (fuel : nat) (names : list string) (c : option cache) (writes : bool) :
    option (res (list string * option (gmap string (list string)))) :=
  match c with
  | Some {| contents := Some m; age := a |} =>
      if a <? dnsaddrsCacheDur then Some (Ok (collectNodes [] m, Some m))
      else m ← resolveAll fuel names; Some (if writes then Ok (collectNodes [] m, Some m) else Panic)
  | _ => m ← resolveAll fuel names; Some (if writes then Ok (collectNodes [] m, Some m) else Panic)
  end.

Lemma resolveResults_total rec l :
  (forall r, r ∈ l -> Matches r = true \/ hasDNSComponent r = true -> is_Some (rec r)) -> is_Some (resolveResults rec l).
Proof.
  induction l as [|r l IH]; intros Hr; cbn; [eauto|].
  destruct IH as [rest ->]; [intros x Hx; apply Hr; set_solver|].
  assert (r ∈ r :: l) as Hin by apply list_elem_of_here.
  destruct (Matches r) eqn:Em; [destruct (Hr r Hin (or_introl Em)) as [s ->]; cbn; eauto|].
  destruct (hasDNSComponent r) eqn:Eh; [destruct (Hr r Hin (or_intror Eh)) as [s ->]; cbn; eauto|]. cbn. eauto.
Qed.

(** Resolving a name ends if names are resolved to names of lower rank, within as many
    nested calls; what it finds needs no more resolving. *)
Theorem resolve_ends (rank : string -> nat) :
  (forall a r, r ∈ (Resolve a).1 -> Matches r = true \/ hasDNSComponent r = true -> (rank r < rank a)%nat) ->
  forall fuel a, (rank a < fuel)%nat ->
  exists out errs, resolveDNSAddrFully fuel a = Some (out, errs) /\ Forall (fun r => Matches r = false) out.
Proof.
  intros Hrank fuel a Hf.
  assert (forall fuel a, (rank a < fuel)%nat -> is_Some (resolveDNSAddrFully fuel a)) as Htot.
  { clear fuel a Hf. induction fuel as [|fuel IH]; intros a Hf; [lia|]. cbn. destruct (parses a); cbn; [|eauto].
    pose proof (Hrank a) as Ha. destruct (Resolve a) as [results failed]. cbn in Ha.
    destruct (resolveResults_total (resolveDNSAddrFully fuel) results) as [r ->]; [|cbn; eauto].
    intros r Hin Hd. apply IH. specialize (Ha r Hin Hd). lia. }
  assert (forall fuel a out errs, resolveDNSAddrFully fuel a = Some (out, errs) -> Forall (fun r => Matches r = false) out) as Hfin.
  { clear. induction fuel as [|fuel IH]; intros a out errs; [done|]. cbn. destruct (parses a); cbn; [|by intros [= <- <-]].
    destruct (Resolve a) as [results failed]. destruct (resolveResults _ results) as [[o e]|] eqn:E; cbn; [|done].
    intros [= <- <-]. revert o e E. induction results as [|r l IHl]; intros o e; cbn; [by intros [= <- <-]|].
    destruct (if Matches r then _ else _) as [[h eh]|] eqn:Eh; cbn; [|done].
    destruct (resolveResults _ l) as [[o' e']|]; cbn; [|done]. intros [= <- <-]. apply Forall_app. split; [|by eapply IHl].
    destruct (Matches r) eqn:Em; [by eapply IH|]. destruct (hasDNSComponent r).
    - destruct (resolveDNSAddrFully fuel r) as [[s es]|] eqn:Er; cbn in Eh; [|done]. injection Eh as <- <-.
      apply IH in Er. destruct s; [by apply Forall_singleton|done].
    - injection Eh as <- <-. by apply Forall_singleton. }
  destruct (Htot fuel a Hf) as [[out errs] E]. exists out, errs. split; [done|]. by eapply Hfin.
Qed.

(** A name that resolves to itself never ends: no depth is enough. *)
Theorem resolve_loops a :
  parses a = true -> a ∈ (Resolve a).1 -> Matches a = true -> forall fuel, resolveDNSAddrFully fuel a = None.
Proof.
  intros Hp Hin Hm fuel. induction fuel as [|fuel IH]; [done|]. cbn. rewrite Hp. cbn.
  destruct (Resolve a) as [results failed]. cbn in Hin.
  assert (resolveResults (resolveDNSAddrFully fuel) results = None) as ->; [|done].
  induction results as [|r l IHl]; [by apply elem_of_nil in Hin|]. cbn. apply elem_of_cons in Hin as [<-|Hin].
  - by rewrite Hm, IH.
  - rewrite IHl by done. by destruct (if Matches r then _ else _).
Qed.

Lemma addNode_spec l : forall out, NoDup out ->
  NoDup (foldl addNode out l) /\ forall a, a ∈ foldl addNode out l <-> a ∈ out \/ a ∈ l /\ skips a = false.
Proof.
  induction l as [|x l IH]; intros out Hn; [split; [done|set_solver]|]. cbn [foldl].
  assert (NoDup (addNode out x) /\ forall a, a ∈ addNode out x <-> a ∈ out \/ a = x /\ skips x = false) as [Hn' Hx].
  { unfold addNode. destruct (skips x) eqn:Es; [split; [done|naive_solver]|].
    destruct (bool_decide_reflect (x ∈ out)) as [Hin|Hin]; [split; [done|naive_solver]|]. split.
    - apply NoDup_app. split_and!; [done| |apply NoDup_singleton]. intros a Ha ->%list_elem_of_singleton. done.
    - intros a. rewrite elem_of_app, list_elem_of_singleton. naive_solver. }
  destruct (IH _ Hn') as [H1 H2]. split; [done|]. intros a. rewrite H2, Hx, elem_of_cons. naive_solver.
Qed.

(** The bootstrap list has no repetitions and is, as a set, the resolved addresses without
    those of IPv6 and UDP, in whatever order the map is visited. *)
Theorem collectNodes_spec m :
  NoDup (collectNodes [] m) /\
  forall a, a ∈ collectNodes [] m <-> (exists name l, m !! name = Some l /\ a ∈ l) /\ skips a = false.
Proof.
  destruct (addNode_spec (concat (range_map 24 m).*2) []) as [H1 H2]; [constructor|]. split; [done|].
  intros a. unfold collectNodes. rewrite H2, elem_of_nil, list_elem_of_In, in_concat. split.
  - intros [[]|[(l & Hl & Ha) Hs]]. split; [|done]. apply in_map_iff in Hl as ([n l'] & <- & Hin).
    apply list_elem_of_In, elem_of_range in Hin. exists n, l'. split; [done|]. by apply list_elem_of_In.
  - intros [(n & l & Hm & Ha) Hs]. right. split; [|done]. exists l.
    split; [|by apply list_elem_of_In]. apply in_map_iff. exists (n, l). split; [done|].
    apply list_elem_of_In. by apply elem_of_range.
Qed.
End dns.
End Dns.

(** ** Witnesses *)
Section witnesses.
#[local] Instance addrs_range : MapRange := map_to_list_range.

(** Texts whose protocols are spelled out; 9.9.9.9 and 10.0.3.5 as addresses. *)
#[local] Instance plain_multiaddr : Multiaddr :=
  {| protocols a := if contains "p2p-circuit" a then ["p2p-circuit"] else if contains "/dns" a then ["dnsaddr"] else ["ip4"; "tcp"];
     value_ip a p := if contains "9.9.9.9" a then Some [9; 9; 9; 9] else if contains "10.0.3.5" a then Some [10; 0; 3; 5] else None |}.

Lemma isPrivateIP_ranges_witness : Filters.isPrivateIP (Some [172; 31; 0; 1]) = true.
Proof.
  assert (is_bytes [172; 31; 0; 1]) as Hb by bytes_lit.
  exact (Filters.isPrivateIP_ranges [172; 31; 0; 1] Hb).
Defined.

(** Sixteen peers, each with a public address and one of the virtual network. *)
Definition sixteen : gmap string (list string) :=
  list_to_map (map (fun k => (String.append "p" (utoa (Z.of_nat k)), ["/ip4/9.9.9.9/tcp/4001"; "/ip4/10.0.3.5/tcp/4001"])) (seq 0 16)).
Definition full : Peerstore.state := {| Peerstore.store := sixteen; Peerstore.file := None; Peerstore.savedSum := "" |}.
Definition fixed_sum (_ : gmap string (list string)) : string := "sum".

Lemma peerstore_roundtrip_witness :
  let s' := (Peerstore.savePeerstore fixed_sum true full).1 in
  ("p7", ["/ip4/9.9.9.9/tcp/4001"]) ∈ Peerstore.loadPeerstore Some Some s'.
Proof.
  intros s'.
  refine (proj2 (Peerstore.peerstore_roundtrip fixed_sum Some Some full s' _ _ _ "p7" ["/ip4/9.9.9.9/tcp/4001"]) _).
  - vm_compute. reflexivity.
  - assert (bool_decide (Peerstore.file s' = Peerstore.file full) = false) as Hb by (vm_compute; reflexivity).
    by apply bool_decide_eq_false in Hb.
  - intros p addrs _. split; [done|]. apply Forall_forall. done.
  - split; [discriminate|]. exists ["/ip4/9.9.9.9/tcp/4001"; "/ip4/10.0.3.5/tcp/4001"]. split; vm_compute; reflexivity.
Defined.

Lemma failed_write_forgotten_witness :
  Peerstore.file (Peerstore.savePeerstore fixed_sum true (Peerstore.savePeerstore fixed_sum false full).1).1 = None.
Proof.
  destruct (Peerstore.failed_write_forgotten fixed_sum full (Peerstore.savePeerstore fixed_sum false full).1 "write"
    ltac:(vm_compute; reflexivity)) as [Hf Hw].
  rewrite Hw. exact Hf.
Defined.

Lemma saved_enough_witness :
  forall m, Peerstore.file (Peerstore.savePeerstore fixed_sum true full).1 = Some m -> 16 <= Z.of_nat (size m).
Proof. apply (Peerstore.saved_enough fixed_sum true full). intros m. discriminate. Defined.

(** [boot] resolves to an address and to [inner], which resolves to another. *)
Definition resolver (a : string) : list string * bool :=
  if String.eqb a "/dnsaddr/boot" then (["/ip4/1.1.1.1"; "/dnsaddr/inner"], false)
  else if String.eqb a "/dnsaddr/inner" then (["/ip4/2.2.2.2"], false) else ([], true).
Definition depth (a : string) : nat :=
  if String.eqb a "/dnsaddr/boot" then 2 else if String.eqb a "/dnsaddr/inner" then 1 else 0.

Lemma resolve_ends_witness :
  exists out errs, Dns.resolveDNSAddrFully (fun _ => true) resolver (contains "/dns") 3 "/dnsaddr/boot" = Some (out, errs) /\
    Forall (fun r => contains "/dns" r = false) out.
Proof.
  apply (Dns.resolve_ends (fun _ => true) resolver (contains "/dns") depth).
  - intros a r. unfold resolver. destruct (String.eqb_spec a "/dnsaddr/boot") as [->|_].
    + intros [->|[->|[]%elem_of_nil]%elem_of_cons]%elem_of_cons; [|cbn; lia]. vm_compute. intros [|]; discriminate.
    + destruct (String.eqb_spec a "/dnsaddr/inner") as [->|_].
      * intros [->|[]%elem_of_nil]%elem_of_cons. vm_compute. intros [|]; discriminate.
      * intros []%elem_of_nil.
  - cbn. lia.
Defined.

Lemma resolve_loops_witness :
  Dns.resolveDNSAddrFully (fun _ => true) (fun a => ([a], false)) (contains "/dns") 1000 "/dnsaddr/loop" = None.
Proof. apply (Dns.resolve_loops (fun _ => true) (fun a => ([a], false)) (contains "/dns")); [reflexivity|apply list_elem_of_here|reflexivity]. Defined.
End witnesses.
