(* ===== verification/Gossip.v ===== *)
(** * Topics and messages of the build with libp2p-pubsub

    src/p2put/pso_pubsub.go.  Module [Topics]: the table of joined topics, with
    [getOrSubscribeTopic] and [UnsubscribeTopic], which take no lock, access by access.
    Module [Flow]: what happens to a message: [PublishTopic], [topicListener],
    [ForwardToLimitedPeers], [ForwardPubSubToPeer] and the handler of forwarded messages.
    go-libp2p-pubsub is the class [PubSubLib] with its documented promises. *)

From S2P Require Import Prelude GoLib GoNet PeerStore PubSub.

(** ** go-libp2p-pubsub

    A handle is a [*pubsub.Topic]; [topic_of p h] is the topic of a handle that is joined
    and not closed, [subs p h] the number of its subscriptions that were not cancelled,
    [known p h] whether the handle was given out. *)
Class PubSubLib := {
  PS : Type;
  Join : string -> PS -> option nat * PS;
  Subscribe : nat -> PS -> bool * PS;
  Close : nat -> PS -> bool * PS;
  topic_of : PS -> nat -> option string;
  subs : PS -> nat -> nat;
  known : PS -> nat -> bool
}.

Definition same_handle `{PubSubLib} (p p' : PS) (h : nat) : Prop :=
  topic_of p' h = topic_of p h /\ subs p' h = subs p h /\ known p' h = known p h.

(** [Join] refuses a topic that is joined already and otherwise gives a new handle;
    [Subscribe] refuses a closed handle; [Close] refuses a handle with subscriptions. *)
Class PubSubLaws `{PubSubLib} := {
  join_ok : forall t p h p', Join t p = (Some h, p') ->
    (forall k, topic_of p k <> Some t) /\ known p h = false /\
    topic_of p' h = Some t /\ known p' h = true /\ forall k, k <> h -> same_handle p p' k;
  join_fails : forall t p p', Join t p = (None, p') -> forall k, same_handle p p' k;
  subscribe_ok : forall h p p', Subscribe h p = (true, p') ->
    is_Some (topic_of p h) /\ topic_of p' h = topic_of p h /\ known p' h = known p h /\
    subs p' h = S (subs p h) /\ forall k, k <> h -> same_handle p p' k;
  subscribe_fails : forall h p p', Subscribe h p = (false, p') -> forall k, same_handle p p' k;
  close_ok : forall h p p', Close h p = (true, p') ->
    subs p h = 0%nat /\ topic_of p' h = None /\ known p' h = known p h /\
    forall k, k <> h -> same_handle p p' k;
  close_fails : forall h p p', Close h p = (false, p') -> forall k, same_handle p p' k
}.

(** ** The table of topics *)
Module Topics.
Section topics.
Context `{PubSubLib}.

(** [bootres.PSO] once it is there, [topicSubs], and the [topicListener]s started. *)
Record node := { ready : bool; lib : PS; topicSubs : gmap string nat; listeners : list (string * nat) }.

Definition set_lib (p : PS) (s : node) : node :=
  {| ready := ready s; lib := p; topicSubs := topicSubs s; listeners := listeners s |}.
Definition set_subs (m : gmap string nat) (s : node) : node :=
  {| ready := ready s; lib := lib s; topicSubs := m; listeners := listeners s |}.
Definition listen (t : string) (h : nat) (s : node) : node :=
  {| ready := ready s; lib := lib s; topicSubs := topicSubs s; listeners := (t, h) :: listeners s |}.

(** Where a call is: the next access of [getOrSubscribeTopic] or [UnsubscribeTopic]. *)
Inductive pc :=
  | GLoad | GJoin | GReload | GStore (h : nat) | GSubscribe (h : nat) | GDelete
  | ULoad | UClose (h : nat) | UDelete
  | Got (h : nat) | Unsubscribed | Failed.

Definition getOrSubscribeTopic (t : string) (c : pc) (s : node) : pc * node :=
  match c with
  | GLoad => if negb (ready s) then (Failed, s)
             else match topicSubs s !! t with Some h => (Got h, s) | None => (GJoin, s) end
  | GJoin => match Join t (lib s) with
             | (Some h, p) => (GStore h, set_lib p s)
             | (None, p) => (GReload, set_lib p s)
             end
  | GReload => match topicSubs s !! t with Some h => (Got h, s) | None => (Failed, s) end
  | GStore h => (GSubscribe h, set_subs (<[t := h]> (topicSubs s)) s)
  | GSubscribe h => match Subscribe h (lib s) with
                    | (true, p) => (Got h, listen t h (set_lib p s))
                    | (false, p) => (GDelete, set_lib p s)
                    end
  | GDelete => (Failed, set_subs (delete t (topicSubs s)) s)
  | c => (c, s)
  end.

Definition UnsubscribeTopic (t : string) (c : pc) (s : node) : pc * node :=
  match c with
  | ULoad => if negb (ready s) then (Failed, s)
             else match topicSubs s !! t with Some h => (UClose h, s) | None => (Failed, s) end
  | UClose h => match Close h (lib s) with
                | (true, p) => (UDelete, set_lib p s)
                | (false, p) => (Failed, set_lib p s)
                end
  | UDelete => (Unsubscribed, set_subs (delete t (topicSubs s)) s)
  | c => (c, s)
  end.

Definition turn (t : string) (c : pc) (s : node) : pc * node :=
  match c with
  | ULoad | UClose _ | UDelete => UnsubscribeTopic t c s
  | c => getOrSubscribeTopic t c s
  end.

(** Calls start at any time, and any call may take the next turn. *)
Inductive sched := StartGet (t : string) | StartUnsub (t : string) | Turn (i : nat).
#[global] Instance sched_eq_dec : EqDecision sched.
Proof. solve_decision. Defined.
Abbreviation thread := (string * pc)%type.

Definition sched_step (w : list thread * node) (a : sched) : list thread * node :=
  let '(ths, s) := w in
  match a with
  | StartGet t => (ths ++ [(t, GLoad)], s)
  | StartUnsub t => (ths ++ [(t, ULoad)], s)
  | Turn i => match ths !! i with
              | Some (t, c) => let '(c', s') := turn t c s in (<[i := (t, c')]> ths, s')
              | None => (ths, s)
              end
  end.

Definition run (w : list thread * node) (l : list sched) : list thread * node := foldl sched_step w l.

Definition start (p : PS) : list thread * node :=
  ([], {| ready := true; lib := p; topicSubs := ∅; listeners := [] |}).

(** The handle a call has joined and not given out yet. *)
Definition holds (c : pc) : option nat :=
  match c with GStore h | GSubscribe h => Some h | _ => None end.
(** The handle nobody else can have. *)
Definition private (c : pc) : option nat := match c with GStore h => Some h | _ => None end.

Record inv (w : list thread * node) : Prop := {
  i_unique : forall h k t, topic_of (lib w.2) h = Some t -> topic_of (lib w.2) k = Some t -> h = k;
  i_known : forall h, is_Some (topic_of (lib w.2) h) -> known (lib w.2) h = true;
  i_listen : forall t h, (t, h) ∈ listeners w.2 -> topic_of (lib w.2) h = Some t /\ (0 < subs (lib w.2) h)%nat;
  i_once : NoDup (listeners w.2).*2;
  i_holds : forall i t c h, w.1 !! i = Some (t, c) -> holds c = Some h ->
    known (lib w.2) h = true /\ h ∉ (listeners w.2).*2 /\
    (topic_of (lib w.2) h = Some t \/ topic_of (lib w.2) h = None) /\
    (forall j t' c', w.1 !! j = Some (t', c') -> holds c' = Some h -> j = i);
  i_private : forall i t c h, w.1 !! i = Some (t, c) -> private c = Some h ->
    topic_of (lib w.2) h = Some t /\
    (forall t', topicSubs w.2 !! t' <> Some h) /\ (forall j t', w.1 !! j <> Some (t', UClose h));
  i_subs : forall t h, topicSubs w.2 !! t = Some h -> known (lib w.2) h = true;
  i_close : forall i t h, w.1 !! i = Some (t, UClose h) -> known (lib w.2) h = true
}.

Lemma same_trans (P : option string -> nat -> bool -> Prop) p p' h :
  same_handle p p' h -> P (topic_of p h) (subs p h) (known p h) -> P (topic_of p' h) (subs p' h) (known p' h).
Proof. by intros (-> & -> & ->). Qed.

(** The state of another call is what it was. *)
Lemma lookup_upd (ths : list thread) i x j y :
  <[i := x]> ths !! j = Some y -> (j = i /\ y = x) \/ (j <> i /\ ths !! j = Some y).
Proof.
  destruct (decide (j = i)) as [->|Hne]; [|rewrite list_lookup_insert_ne by done; auto].
  intros Hj. left. split; [done|]. assert (i < length ths)%nat as Hi.
  { apply lookup_lt_Some in Hj. by rewrite length_insert in Hj. }
  rewrite list_lookup_insert_eq in Hj by done. by simplify_eq.
Qed.

(** A turn after which every handle is as before, no topic is added to the table, and the
    call holds no handle. *)
Lemma inv_quiet ths s i t c c' s' :
  inv (ths, s) -> ths !! i = Some (t, c) ->
  (forall h, same_handle (lib s) (lib s') h) -> listeners s' = listeners s ->
  (forall t h, topicSubs s' !! t = Some h -> topicSubs s !! t = Some h) ->
  holds c' = None -> (forall h, c' = UClose h -> exists t, topicSubs s !! t = Some h) ->
  inv (<[i := (t, c')]> ths, s').
Proof.
  intros [Iu Ik Il Io Ih Ip Is Ic] Hi Hl Hls Hts Hh Hc. cbn in *.
  assert (forall h, topic_of (lib s') h = topic_of (lib s) h) as Et by (intros h; apply Hl).
  assert (forall h, subs (lib s') h = subs (lib s) h) as Es by (intros h; apply Hl).
  assert (forall h, known (lib s') h = known (lib s) h) as Ek by (intros h; apply Hl).
  split; cbn; rewrite ?Hls.
  - intros h k u. rewrite !Et. apply Iu.
  - intros h. rewrite Et, Ek. apply Ik.
  - intros u h Hin. rewrite Et, Es. by apply Il.
  - done.
  - intros j u d h Hj Hd. apply lookup_upd in Hj as [[-> [= -> ->]]|[Hne Hj]]; [congruence|].
    destruct (Ih j u d h Hj Hd) as (H1 & H2 & H3 & H4). rewrite Ek, Et. split_and!; [done..|].
    intros j' u' d' [[-> [= -> ->]]|[Hne' Hj']]%lookup_upd Hd'; [congruence|]. by eapply H4.
  - intros j u d h Hj Hd. apply lookup_upd in Hj as [[-> [= -> ->]]|[Hne Hj]]; [destruct c'; simplify_eq/=|].
    destruct (Ip j u d h Hj Hd) as (H1 & H2 & H3). rewrite Et. split_and!; [done|intros u' Hu'%Hts; by eapply H2|].
    intros j' u' [[-> [= -> <-]]|[Hne' Hj']]%lookup_upd; [|by eapply H3].
    destruct (Hc h eq_refl) as [u'' Hu'']. by eapply H2.
  - intros u h Hu. rewrite Ek. by eapply Is, Hts.
  - intros j u h [[-> [= -> <-]]|[Hne Hj]]%lookup_upd; rewrite Ek; [|by eapply Ic].
    destruct (Hc h eq_refl) as [u' Hu']. by eapply Is.
Qed.

Lemma in_snd {A B} (l : list (A * B)) a b : (a, b) ∈ l -> b ∈ l.*2.
Proof. intros H1. apply list_elem_of_fmap. by exists (a, b). Qed.

(** A call of [getOrSubscribeTopic] with nothing in between. *)
Definition getTopic (t : string) (s : node) : pc * node :=
  Nat.iter 5 (fun '(c, s) => getOrSubscribeTopic t c s) (GLoad, s).

(** [PublishTopic]: what [Publish] of the handle answers, and the peers of the topic
    afterwards; the error if there is one. *)
Definition PublishTopic (topic : string) (data : bytes) (publishes : nat -> bool) (peers : list string) (s : node)
    : option string * node :=
  let '(c, s) := getTopic topic s in
  match c with
  | Got h =>
      if maxPublishSize <? zlen data then (Some "payload too large", s)
      else if negb (publishes h) then (Some "publish", s)
      else match peers with [] => (Some "no peers found", s) | _ => (None, s) end
  | _ => (Some "topic", s)
  end.

Context `{!PubSubLaws}.

Lemma inv_join ths s i t h p :
  inv (ths, s) -> ths !! i = Some (t, GJoin) -> Join t (lib s) = (Some h, p) ->
  inv (<[i := (t, GStore h)]> ths, set_lib p s).
Proof.
  intros [Iu Ik Il Io Ih Ip Is Ic] Hi Hj. cbn in *.
  destruct (join_ok _ _ _ _ Hj) as (Hno & Hnew & Ht & Hk & Hsame).
  assert (forall k, known (lib s) k = true -> k <> h) as Hfresh by congruence.
  assert (forall u k, (u, k) ∈ listeners s -> k <> h) as Hls.
  { intros u k Hin. apply Hfresh, Ik. destruct (Il u k Hin) as [-> _]. eauto. }
  split; cbn.
  - intros a b u. destruct (decide (a = h)) as [->|Ha], (decide (b = h)) as [->|Hb]; [done| | |].
    + destruct (Hsame b Hb) as (-> & _). rewrite Ht. intros [= <-] E. by destruct (Hno b).
    + destruct (Hsame a Ha) as (-> & _). rewrite Ht. intros E [= <-]. by destruct (Hno a).
    + destruct (Hsame a Ha) as (-> & _), (Hsame b Hb) as (-> & _). apply Iu.
  - intros a. destruct (decide (a = h)) as [->|Ha]; [done|]. destruct (Hsame a Ha) as (-> & _ & ->). apply Ik.
  - intros u k Hin. destruct (Hsame k (Hls u k Hin)) as (-> & -> & _). by apply Il.
  - done.
  - intros j u d k Hj' Hd. apply lookup_upd in Hj' as [[-> [= -> ->]]|[Hne Hj']].
    + injection Hd as <-. split_and!; [done| |by left|].
      * intros ([u' k'] & -> & Hin)%list_elem_of_fmap. by apply (Hls u' k').
      * intros j u' d' [[-> _]|[Hne Hj'']]%lookup_upd Hd'; [done|]. exfalso.
        destruct (Ih j u' d' h Hj'' Hd') as (Hkn & _). congruence.
    + destruct (Ih j u d k Hj' Hd) as (H1 & H2 & H3 & H4). destruct (Hsame k (Hfresh k H1)) as (-> & _ & ->).
      split_and!; [done..|]. intros j' u' d' [[-> [= -> ->]]|[Hne' Hj'']]%lookup_upd Hd'; [|by eapply H4].
      injection Hd' as <-. congruence.
  - intros j u d k Hj' Hd. apply lookup_upd in Hj' as [[-> [= -> ->]]|[Hne Hj']].
    + injection Hd as <-. split_and!; [done|intros u' Hu'%Is; congruence|].
      intros j' u' [[-> [=]]|[Hne Hj'']]%lookup_upd. apply Ic in Hj''. congruence.
    + destruct (Ip j u d k Hj' Hd) as (H1 & H2 & H3).
      assert (known (lib s) k = true) as Hkk by (apply Ik; rewrite H1; eauto).
      destruct (Hsame k (Hfresh k Hkk)) as (-> & _). split_and!; [done..|].
      intros j' u' [[-> [=]]|[Hne' Hj'']]%lookup_upd. by eapply H3.
  - intros u k Hu. assert (known (lib s) k = true) as Hkk by by eapply Is. by destruct (Hsame k (Hfresh k Hkk)) as (_ & _ & ->).
  - intros j u k [[-> [=]]|[Hne Hj']]%lookup_upd.
    assert (known (lib s) k = true) as Hkk by by eapply Ic. by destruct (Hsame k (Hfresh k Hkk)) as (_ & _ & ->).
Qed.

Lemma inv_store ths s i t h :
  inv (ths, s) -> ths !! i = Some (t, GStore h) ->
  inv (<[i := (t, GSubscribe h)]> ths, set_subs (<[t := h]> (topicSubs s)) s).
Proof.
  intros [Iu Ik Il Io Ih Ip Is Ic] Hi. cbn in *.
  destruct (Ih i t _ h Hi eq_refl) as (Hk & Hnl & Ht & Hone).
  split; cbn; [done..| | | |].
  - intros j u d k Hj Hd. apply lookup_upd in Hj as [[-> [= -> ->]]|[Hne Hj]].
    + injection Hd as <-. split_and!; [done..|]. intros j u' d' [[-> _]|[Hne Hj]]%lookup_upd Hd'; [done|by eapply Hone].
    + destruct (Ih j u d k Hj Hd) as (H1 & H2 & H3 & H4). split_and!; [done..|].
      intros j' u' d' [[-> [= -> ->]]|[Hne' Hj']]%lookup_upd Hd'; [|by eapply H4]. injection Hd' as <-. by eapply H4.
  - intros j u d k Hj Hd. apply lookup_upd in Hj as [[-> [= -> ->]]|[Hne Hj]]; [done|].
    destruct (Ip j u d k Hj Hd) as (H1 & H2 & H3). split_and!; [done| |].
    + intros u' [[<- <-]|[_ Hu']]%lookup_insert_Some; [|by eapply H2]. apply Hne.
      apply (Hone j u d Hj). by destruct d.
    + intros j' u' [[-> [=]]|[Hne' Hj']]%lookup_upd; by eapply H3.
  - intros u k [[<- <-]|[_ Hu]]%lookup_insert_Some; [done|by eapply Is].
  - intros j u k [[-> [=]]|[Hne Hj]]%lookup_upd; by eapply Ic.
Qed.

Lemma inv_subscribe ths s i t h p :
  inv (ths, s) -> ths !! i = Some (t, GSubscribe h) -> Subscribe h (lib s) = (true, p) ->
  inv (<[i := (t, Got h)]> ths, listen t h (set_lib p s)).
Proof.
  intros [Iu Ik Il Io Ih Ip Is Ic] Hi Hs. cbn in *.
  destruct (Ih i t _ h Hi eq_refl) as (Hk & Hnl & Ht & Hone).
  destruct (subscribe_ok _ _ _ Hs) as ([u0 Hu0] & Et & Ek & Es & Hsame).
  assert (topic_of (lib s) h = Some t) as Hopen by (destruct Ht; congruence).
  assert (forall k, topic_of p k = topic_of (lib s) k /\ known p k = known (lib s) k) as Hall.
  { intros k. destruct (decide (k = h)) as [->|Hne]; [done|]. by destruct (Hsame k Hne) as (-> & _ & ->). }
  split; cbn.
  - intros a b u. destruct (Hall a) as [-> _], (Hall b) as [-> _]. apply Iu.
  - intros a. destruct (Hall a) as [-> ->]. apply Ik.
  - intros u k [[= -> ->]|Hin]%elem_of_cons; [rewrite Et, Es; split; [done|lia]|].
    assert (k <> h) as Hne by (intros ->; by apply Hnl, (in_snd _ u)).
    destruct (Hsame k Hne) as (-> & -> & _). by apply Il.
  - by constructor.
  - intros j u d k Hj Hd. apply lookup_upd in Hj as [[-> [= -> ->]]|[Hne Hj]]; [done|].
    destruct (Ih j u d k Hj Hd) as (H1 & H2 & H3 & H4). destruct (Hall k) as [-> ->].
    assert (k <> h) as Hkh. { intros ->. apply Hne. by eapply Hone. }
    split_and!; [done|by rewrite not_elem_of_cons|done|].
    intros j' u' d' [[-> [= -> ->]]|[Hne' Hj']]%lookup_upd Hd'; [done|by eapply H4].
  - intros j u d k Hj Hd. apply lookup_upd in Hj as [[-> [= -> ->]]|[Hne Hj]]; [done|].
    destruct (Ip j u d k Hj Hd) as (H1 & H2 & H3). destruct (Hall k) as [-> _]. split_and!; [done..|].
    intros j' u' [[-> [=]]|[Hne' Hj']]%lookup_upd; by eapply H3.
  - intros u k Hu. destruct (Hall k) as [_ ->]. by eapply Is.
  - intros j u k [[-> [=]]|[Hne Hj]]%lookup_upd. destruct (Hall k) as [_ ->]. by eapply Ic.
Qed.

Lemma inv_close ths s i t h p :
  inv (ths, s) -> ths !! i = Some (t, UClose h) -> Close h (lib s) = (true, p) ->
  inv (<[i := (t, UDelete)]> ths, set_lib p s).
Proof.
  intros [Iu Ik Il Io Ih Ip Is Ic] Hi Hc. cbn in *.
  destruct (close_ok _ _ _ Hc) as (E0 & Et & Ek & Hsame).
  assert (forall k, known p k = known (lib s) k) as Hk.
  { intros k. destruct (decide (k = h)) as [->|Hne]; [done|]. by destruct (Hsame k Hne) as (_ & _ & ->). }
  assert (forall k u, topic_of p k = Some u -> k <> h /\ topic_of (lib s) k = Some u) as Hop.
  { intros k u Hu. assert (k <> h) as Hne by congruence. destruct (Hsame k Hne) as (E & _). by rewrite <- E. }
  split; cbn.
  - intros a b u [_ Ha]%Hop [_ Hb]%Hop. by eapply Iu.
  - intros a [u [_ Ha]%Hop]. rewrite Hk. apply Ik. eauto.
  - intros u k Hin. destruct (Il u k Hin) as [H1 H2]. assert (k <> h) as Hne by (intros ->; lia).
    by destruct (Hsame k Hne) as (-> & -> & _).
  - done.
  - intros j u d k Hj Hd. apply lookup_upd in Hj as [[-> [= -> ->]]|[Hne Hj]]; [done|].
    destruct (Ih j u d k Hj Hd) as (H1 & H2 & H3 & H4). rewrite Hk. split_and!; [done..| |].
    + destruct (decide (k = h)) as [->|Hkh]; [by right|]. by destruct (Hsame k Hkh) as (-> & _).
    + intros j' u' d' [[-> [= -> ->]]|[Hne' Hj']]%lookup_upd Hd'; [done|by eapply H4].
  - intros j u d k Hj Hd. apply lookup_upd in Hj as [[-> [= -> ->]]|[Hne Hj]]; [done|].
    destruct (Ip j u d k Hj Hd) as (H1 & H2 & H3).
    assert (k <> h) as Hkh by (intros ->; by eapply H3). destruct (Hsame k Hkh) as (-> & _). split_and!; [done..|].
    intros j' u' [[-> [=]]|[Hne' Hj']]%lookup_upd; by eapply H3.
  - intros u k Hu. rewrite Hk. by eapply Is.
  - intros j u k [[-> [=]]|[Hne Hj]]%lookup_upd. rewrite Hk. by eapply Ic.
Qed.

Lemma same_refl p h : same_handle p p h.
Proof. by split. Qed.

Lemma inv_turn ths s i t c :
  inv (ths, s) -> ths !! i = Some (t, c) -> let '(c', s') := turn t c s in inv (<[i := (t, c')]> ths, s').
Proof.
  intros Hi Hc. pose proof (fun h => same_refl (lib s) h) as Hrefl.
  destruct c as [| | |h|h| | |h| |h| |]; cbn.
  all: try (eapply (inv_quiet _ _ _ _ _ _ _ Hi Hc); eauto; discriminate).
  - destruct (ready s); cbn; [|eapply (inv_quiet _ _ _ _ _ _ _ Hi Hc); eauto; discriminate].
    destruct (topicSubs s !! t); eapply (inv_quiet _ _ _ _ _ _ _ Hi Hc); eauto; discriminate.
  - destruct (Join t (lib s)) as [[h|] p] eqn:E; [by apply inv_join|].
    eapply (inv_quiet _ _ _ _ _ _ _ Hi Hc); cbn; eauto using join_fails; discriminate.
  - destruct (topicSubs s !! t); eapply (inv_quiet _ _ _ _ _ _ _ Hi Hc); eauto; discriminate.
  - by apply inv_store.
  - destruct (Subscribe h (lib s)) as [[] p] eqn:E; [by apply inv_subscribe|].
    eapply (inv_quiet _ _ _ _ _ _ _ Hi Hc); cbn; eauto using subscribe_fails; discriminate.
  - eapply (inv_quiet _ _ _ _ _ _ _ Hi Hc); cbn; eauto; [|discriminate].
    by intros u k [_ Hu]%lookup_delete_Some.
  - destruct (ready s); cbn; [|eapply (inv_quiet _ _ _ _ _ _ _ Hi Hc); eauto; discriminate].
    destruct (topicSubs s !! t) eqn:E; eapply (inv_quiet _ _ _ _ _ _ _ Hi Hc); eauto; [|discriminate].
    intros k [= <-]. eauto.
  - destruct (Close h (lib s)) as [[] p] eqn:E; [by eapply inv_close|].
    eapply (inv_quiet _ _ _ _ _ _ _ Hi Hc); cbn; eauto using close_fails; discriminate.
  - eapply (inv_quiet _ _ _ _ _ _ _ Hi Hc); cbn; eauto; [|discriminate].
    by intros u k [_ Hu]%lookup_delete_Some.
Qed.

(** A call that has just started holds nothing. *)
Lemma inv_new ths s t c : inv (ths, s) -> c = GLoad \/ c = ULoad -> inv (ths ++ [(t, c)], s).
Proof.
  intros [Iu Ik Il Io Ih Ip Is Ic] Hc. cbn in *.
  assert (forall j x, (ths ++ [(t, c)]) !! j = Some x -> ths !! j = Some x \/ x = (t, c)) as Hl.
  { intros j x [Hj|[_ Hj]]%lookup_app_Some; [by left|]. right. apply list_lookup_singleton_Some in Hj. by destruct Hj. }
  assert (holds c = None /\ forall h, c <> UClose h) as [Hh Hu] by (by destruct Hc as [-> | ->]).
  split; cbn; [done..| | |done|].
  - intros j u d h [Hj|[= -> ->]]%Hl Hd; [|congruence]. destruct (Ih j u d h Hj Hd) as (H1 & H2 & H3 & H4).
    split_and!; [done..|]. intros j' u' d' [Hj'|[= -> ->]]%Hl Hd'; [by eapply H4|congruence].
  - intros j u d h [Hj|[= -> ->]]%Hl Hd; [|by destruct Hc; simplify_eq/=]. destruct (Ip j u d h Hj Hd) as (H1 & H2 & H3).
    split_and!; [done..|]. intros j' u' [Hj'|[= -> E]]%Hl; [by eapply H3|by destruct (Hu h)].
  - intros j u h [Hj|[= -> E]]%Hl; [by eapply Ic|by destruct (Hu h)].
Qed.

Lemma inv_run w l : inv w -> inv (run w l).
Proof.
  revert w. induction l as [|a l IH]; intros [ths s] Hi; [done|]. cbn. apply IH. destruct a as [t|t|i]; cbn.
  - apply inv_new; auto.
  - apply inv_new; auto.
  - destruct (ths !! i) as [[t c]|] eqn:E; [|done]. pose proof (inv_turn ths s i t c Hi E) as H1. by destruct (turn t c s).
Qed.

Lemma inv_begin p : (forall h, topic_of p h = None) -> inv (start p).
Proof.
  intros Hp. split; cbn; try (intros; set_solver).
  - intros h k t. by rewrite Hp.
  - intros h [t Ht]. by rewrite Hp in Ht.
  - constructor.
Qed.

(** A topic with a listener: one handle of it is open and has a subscription. *)
Definition listening (t : string) (s : node) : Prop := exists h, (t, h) ∈ listeners s.

Lemma turn_listeners t c s : forall x, x ∈ listeners s -> x ∈ listeners (turn t c s).2.
Proof. intros x Hx. destruct c; cbn; repeat case_match; simplify_eq; cbn; set_solver. Qed.

Lemma run_listeners l w x : x ∈ listeners w.2 -> x ∈ listeners (run w l).2.
Proof.
  revert w. induction l as [|a l IH]; intros [ths s] Hx; [done|]. cbn. apply IH. destruct a as [t|t|i]; [done..|]. cbn.
  destruct (ths !! i) as [[t c]|]; [|done]. pose proof (turn_listeners t c s x Hx). by destruct (turn t c s).
Qed.

(** No turn brings a handle that was given out to another topic, or opens it again. *)
Lemma turn_topic t c s k u :
  known (lib s) k = true -> topic_of (lib (turn t c s).2) k = Some u -> topic_of (lib s) k = Some u.
Proof.
  intros Hk. destruct c as [| | |h|h| | |h| |h| |]; cbn; try done; try by repeat case_match.
  - destruct (Join t (lib s)) as [[h|] p] eqn:E; cbn.
    + apply join_ok in E as (_ & Hn & _ & _ & Hs). assert (k <> h) as Hne by congruence. by destruct (Hs k Hne) as (-> & _).
    + by destruct (join_fails _ _ _ E k) as (-> & _).
  - destruct (Subscribe h (lib s)) as [[] p] eqn:E; cbn.
    + apply subscribe_ok in E as (_ & Et & _ & _ & Hs). destruct (decide (k = h)) as [->|Hne]; [by rewrite Et|].
      by destruct (Hs k Hne) as (-> & _).
    + by destruct (subscribe_fails _ _ _ E k) as (-> & _).
  - destruct (Close h (lib s)) as [[] p] eqn:E; cbn.
    + apply close_ok in E as (_ & Et & _ & Hs). destruct (decide (k = h)) as [->|Hne]; [congruence|].
      by destruct (Hs k Hne) as (-> & _).
    + by destruct (close_fails _ _ _ E k) as (-> & _).
Qed.

(** The entry of a topic with a listener is the handle of the listener, or none: from
    [Store] on nobody can enter another one. *)
Definition entered (w : list thread * node) (t : string) (h : nat) : Prop :=
  (t, h) ∈ listeners w.2 \/ topic_of (lib w.2) h = Some t /\ exists i, w.1 !! i = Some (t, GSubscribe h).
Definition entry_ok (w : list thread * node) : Prop :=
  forall t h, entered w t h -> topicSubs w.2 !! t = Some h \/ topicSubs w.2 !! t = None.

Lemma turn_subs t c s u :
  (forall h, c <> GStore h) -> topicSubs (turn t c s).2 !! u = topicSubs s !! u \/ topicSubs (turn t c s).2 !! u = None.
Proof.
  intros Hc. destruct c as [| | |h|h| | |h| |h| |]; cbn; repeat case_match; cbn; simplify_eq; auto.
  - by destruct (Hc h).
  - destruct (decide (u = t)) as [->|]; [rewrite lookup_delete_eq|rewrite lookup_delete_ne]; auto.
  - destruct (decide (u = t)) as [->|]; [rewrite lookup_delete_eq|rewrite lookup_delete_ne]; auto.
Qed.

(** Unless it stores, a turn brings no handle closer to a listener. *)
Lemma entered_turn ths s i t c u k :
  inv (ths, s) -> ths !! i = Some (t, c) -> (forall h, c <> GStore h) ->
  let '(c', s') := turn t c s in entered (<[i := (t, c')]> ths, s') u k -> entered (ths, s) u k.
Proof.
  intros Hi Hc Hno. pose proof (turn_topic t c s k u) as Htop. destruct (turn t c s) as [c' s'] eqn:Et. cbn [snd] in Htop.
  intros [Hl|[Ht [j Hj]]]; cbn [fst snd] in *.
  - destruct c as [| | |h|h| | |h| |h| |]; cbn in Et; repeat case_match; simplify_eq; try (by left).
    cbn in Hl. apply elem_of_cons in Hl as [[= -> ->]|Hl]; [|by left]. right. split; [|by exists i].
    apply subscribe_ok in H1 as ([v Hv] & _). destruct (i_holds _ Hi i t _ h Hc eq_refl) as (_ & _ & [?|Hn] & _); [done|].
    cbn in Hn. congruence.
  - right. apply lookup_upd in Hj as [[-> [= -> <-]]|[_ Hj]].
    + exfalso. destruct c as [| | |h|h| | |h| |h| |]; cbn in Et; repeat case_match; simplify_eq; by eapply Hno.
    + split; [|by exists j]. apply Htop; [|done]. by destruct (i_holds _ Hi j u _ k Hj eq_refl).
Qed.

Lemma entry_step w a : inv w -> entry_ok w -> entry_ok (sched_step w a).
Proof.
  destruct w as [ths s]. intros Hi He u k. destruct a as [t|t|i]; cbn.
  - intros [Hl|[Ht [j [Hj|[_ Hj]]%lookup_app_Some]]]; [by apply He; left|by apply He; right; eauto|].
    by apply list_lookup_singleton_Some in Hj as [_ [=]].
  - intros [Hl|[Ht [j [Hj|[_ Hj]]%lookup_app_Some]]]; [by apply He; left|by apply He; right; eauto|].
    by apply list_lookup_singleton_Some in Hj as [_ [=]].
  - destruct (ths !! i) as [[t c]|] eqn:Hc; [|apply He].
    assert ((exists h, c = GStore h) \/ forall h, c <> GStore h) as [[h ->]|Hno] by (destruct c; eauto; right; discriminate).
    + cbn. destruct (i_private _ Hi i t _ h Hc eq_refl) as (Ht & _). cbn in Ht. intros Hin.
      destruct (decide (u = t)) as [->|Hne].
      * left. rewrite lookup_insert_eq. f_equal. apply (i_unique _ Hi h k t Ht).
        destruct Hin as [Hl|[Hk _]]; [|done]. by destruct (i_listen _ Hi t k Hl).
      * rewrite lookup_insert_ne by done. apply He. destruct Hin as [Hl|[Hk [j Hj]]]; [by left|right].
        apply lookup_upd in Hj as [[_ [= -> _]]|[_ Hj]]; [done|]. eauto.
    + pose proof (entered_turn ths s i t c u k Hi Hc Hno) as Hin. pose proof (turn_subs t c s u Hno) as Hs.
      destruct (turn t c s) as [c' s']. cbn in *. intros [E|E]%Hin%He; destruct Hs as [-> | ->]; auto.
Qed.

Lemma entry_run l : forall w, inv w -> entry_ok w -> entry_ok (run w l).
Proof.
  induction l as [|a l IH]; intros w Hi He; [done|]. cbn. apply IH; [apply (inv_run w [a]), Hi|by apply entry_step].
Qed.

(** How far a call of [UnsubscribeTopic] is that will fail. *)
Definition failing (h : nat) (n : nat) (c : pc) : Prop :=
  match n with O => c = Failed | S O => c = UClose h \/ c = Failed | _ => c = ULoad \/ c = UClose h \/ c = Failed end.

Lemma failing_turn t h n ths s i c :
  inv (ths, s) -> entry_ok (ths, s) -> (t, h) ∈ listeners s -> failing h n c ->
  ths !! i = Some (t, c) -> failing h (pred n) (turn t c s).1.
Proof.
  intros Hi He Hl Hf Hc. destruct (i_listen _ Hi t h Hl) as [_ Hs]. cbn in Hs.
  assert (c = ULoad \/ c = UClose h \/ c = Failed) as Hc3 by (destruct n as [|[|n]]; cbn in Hf; tauto).
  destruct Hc3 as [->|[->| ->]]; cbn.
  - assert (exists m, n = S (S m)) as [m ->] by (destruct n as [|[|n]]; cbn in Hf; [done|by destruct Hf|eauto]). cbn.
    assert (forall c, c = UClose h \/ c = Failed -> failing h (S m) c) as Hm by (destruct m; cbn; tauto).
    apply Hm. destruct (ready s); [|by right]. cbn. destruct (He t h (or_introl Hl)) as [E|E]; cbn in E; rewrite E; auto.
  - destruct (Close h (lib s)) as [[] p] eqn:E; [apply close_ok in E as [E _]; lia|].
    destruct n as [|[|[|n]]]; cbn; auto.
  - destruct n as [|[|[|n]]]; cbn; auto.
Qed.

Lemma failing_run t h i l : forall n w c,
  inv w -> entry_ok w -> (t, h) ∈ listeners w.2 -> w.1 !! i = Some (t, c) -> failing h n c ->
  exists c', (run w l).1 !! i = Some (t, c') /\ failing h (n - length (filter (fun a => a = Turn i) l)) c'.
Proof.
  induction l as [|a l IH]; intros n w c Hi He Hl Hc Hf; [exists c; cbn; by rewrite Nat.sub_0_r|].
  rewrite filter_cons. cbn [run foldl].
  assert (inv (sched_step w a)) as Hi' by apply (inv_run w [a]), Hi. assert (entry_ok (sched_step w a)) as He' by by apply entry_step.
  assert ((t, h) ∈ listeners (sched_step w a).2) as Hl' by by apply (run_listeners [a]).
  destruct (decide (a = Turn i)) as [->|Hne]; cbn [length].
  - destruct w as [ths s]. pose proof (failing_turn t h n ths s i c Hi He Hl Hf Hc) as Hf'. cbn in Hc.
    replace (n - S _)%nat with (pred n - length (filter (fun a => a = Turn i) l))%nat by lia.
    apply (IH (pred n) _ (turn t c s).1); [done..| |done]. cbn. rewrite Hc. destruct (turn t c s) as [c' s']. cbn.
    apply list_lookup_insert_eq. by eapply lookup_lt_Some.
  - apply (IH n _ c); [done..| |done]. destruct w as [ths s]. cbn in Hc. destruct a as [u|u|j]; cbn;
      [by rewrite (lookup_app_l_Some _ _ _ _ Hc)..|].
    destruct (ths !! j) as [[u d]|]; [|done]. destruct (turn u d s). cbn. by rewrite list_lookup_insert_ne by congruence.
Qed.


(** A call on its own: a topic in the table is given as it is; otherwise the topic is
    joined, entered and listened to, or the table is left as it was. *)
Lemma getTopic_alone t s : ready s = true ->
  (forall h p, Join t (lib s) = (Some h, p) -> (Subscribe h p).1 = true) ->
  match getTopic t s with
  | (Got h, s') => topicSubs s' !! t = Some h /\
      (topicSubs s !! t = Some h /\ s' = s \/ topicSubs s !! t = None /\ listeners s' = (t, h) :: listeners s)
  | (Failed, s') => topicSubs s !! t = None /\ topicSubs s' = topicSubs s /\ listeners s' = listeners s /\ (Join t (lib s)).1 = None
  | _ => False
  end.
Proof.
  intros Hr Hsub. unfold getTopic. cbn [Nat.iter nat_rect getOrSubscribeTopic]. rewrite Hr. cbn [negb].
  destruct (topicSubs s !! t) as [h|] eqn:E; cbn; [by auto|].
  destruct (Join t (lib s)) as [[h|] p] eqn:Ej; cbn.
  - specialize (Hsub h p eq_refl). destruct (Subscribe h p) as [[] p'] eqn:Es; [|done]. cbn.
    rewrite lookup_insert_eq. auto.
  - rewrite E. cbn. auto.
Qed.

(** Publishing on a new topic subscribes to it for good, even when the payload is then
    refused. *)
Theorem publish_subscribes t data publishes peers s :
  ready s = true -> topicSubs s !! t = None ->
  (forall h p, Join t (lib s) = (Some h, p) -> (Subscribe h p).1 = true) -> (Join t (lib s)).1 <> None ->
  maxPublishSize < zlen data ->
  let '(e, s') := PublishTopic t data publishes peers s in e = Some "payload too large" /\ listening t s'.
Proof.
  intros Hr Hn Hsub Hj Hd. unfold PublishTopic. pose proof (getTopic_alone t s Hr Hsub) as Hg.
  destruct (getTopic t s) as [c s']. destruct c; try done.
  - destruct Hg as (_ & [[E _]|[_ Hl]]); [congruence|]. destruct (Z.ltb_spec maxPublishSize (zlen data)); [|lia].
    split; [done|]. exists h. rewrite Hl. apply list_elem_of_here.
  - naive_solver.
Qed.

(** The entry of a topic with a listener may be lost all the same.  Once it is, it stays
    lost: whatever is called afterwards, no [getOrSubscribeTopic] of the topic succeeds. *)
Theorem topic_stays_lost p l1 l2 t :
  (forall h, topic_of p h = None) ->
  let w1 := run (start p) l1 in let w2 := run w1 l2 in
  listening t w1.2 -> topicSubs w1.2 !! t = None ->
  topicSubs w2.2 !! t = None /\
  forall s', lib s' = lib w2.2 -> topicSubs s' !! t = None ->
    let '(c1, s1) := getOrSubscribeTopic t GJoin s' in
    c1 = GReload /\ (getOrSubscribeTopic t GReload s1).1 = Failed.
Proof.
  intros Hp w1 w2 Hl Hn.
  assert (inv w1) as Hi1 by (apply inv_run, inv_begin, Hp). assert (inv w2) as Hi2 by by apply inv_run.
  assert (listening t w2.2) as [h Hh]. { destruct Hl as [h Hh]. exists h. by apply run_listeners. }
  destruct (i_listen _ Hi2 t h Hh) as [Ho _]. split.
  - unfold w2. clear w2 Hi2 h Hh Ho. generalize dependent w1. clear l1. induction l2 as [|a l IH]; intros w1 Hl Hn Hi; [done|].
    cbn. assert (inv (sched_step w1 a)) as Hi' by apply (inv_run _ [a] Hi).
    assert (listening t (sched_step w1 a).2) as Hl'. { destruct Hl as [h Hh]. exists h. by apply (run_listeners [a]). }
    apply IH; [done| |done]. destruct w1 as [ths s]. destruct a as [u|u|i]; [done..|]. cbn in *.
    destruct (ths !! i) as [[u c]|] eqn:E; [|done].
    destruct c as [| | |h|h| | |h| |h| |]; cbn; repeat case_match; cbn; simplify_eq; try done;
      try (by rewrite lookup_delete_None; right).
    destruct (decide (u = t)) as [->|Hne]; [|by rewrite lookup_insert_ne]. exfalso.
    destruct (i_holds _ Hi i t _ h E eq_refl) as (_ & Hnl & _). destruct (i_private _ Hi i t _ h E eq_refl) as (Ht & _).
    destruct Hl as [k Hk]. destruct (i_listen _ Hi t k Hk) as [Hk1 _].
    rewrite (i_unique _ Hi h k t Ht Hk1) in Hnl. by apply Hnl, (in_snd _ t).
  - intros s' El Es. cbn. rewrite El. destruct (Join t (lib w2.2)) as [[k|] p'] eqn:E.
    + apply join_ok in E as (E & _). by destruct (E h).
    + split; [done|]. cbn. by rewrite Es.
Qed.
End topics.
End Topics.

(** ** Messages *)
Module Flow.
Section flow.
Context `{MapRange}.
(** The bytes of a peer id, and [ListPeers] of the topic at the time of the call. *)
Context (raw : string -> bytes).

Definition PubSubFwdProtocol : string := "/d2hub/pubsub/1.0".

(** A message of libp2p-pubsub as decoded from JSON: the topic is a pointer. *)
Record message := { From : bytes; Data : bytes; Seqno : bytes; Topic : option string }.

(** [pubsub.DefaultMsgIdFn]. *)
Definition DefaultMsgIdFn (m : message) : bytes := From m ++ Seqno m.

Definition event (m : message) (topic : string) (from : bytes) : PubsubEvent :=
  {| ev_msg := {| PubSub.From := From m; PubSub.Data := Data m; PubSub.Seqno := Seqno m; PubSub.Topic := topic |};
     ReceivedFrom := from |}.

(** [handlePubSubFwdStream] after [ReadMsg] and [json.Unmarshal] ([None]: one failed).
    The log line reads eight bytes of the sequence number, then the topic. *)
Definition handlePubSubFwdStream (now : Z) (pid : bytes) (m : option message) (d : dedup) : res (dedup * option PubsubEvent) :=
  match m with
  | None => Ok (d, None)
  | Some msg =>
      let (seen, d) := isMsgSeen (DefaultMsgIdFn msg) now d in
      if seen then Ok (d, None)
      else if (length (Seqno msg) <? 8)%nat then Panic
      else match Topic msg with None => Panic | Some t => Ok (d, Some (event msg t pid)) end
  end.

(** What the host says of a peer while a message is forwarded to it: the clock at
    [PeerDB.Get], [GetProtocols], [SupportsProtocols], and whether [NewStream] and
    [WriteMsg] succeed. *)
Record remote := {
  r_now : Z; r_protocols : option (list string); r_supports : option (list string);
  r_opens : bool; r_writes : bool
}.

(** [ForwardPubSubToPeer]: whether the message was written, or the error. *)
Definition ForwardPubSubToPeer (hasHost : bool) (db : PeerDB.PeerDB) (pid : string) (r : remote) : option string :=
  if negb hasHost then Some "host not ready"
  else match PeerDB.Get (r_now r) pid db with
  | None => Some "not in PeerDB"
  | Some _ =>
      let unsupported :=
        match r_supports r with
        | Some [] => match r_protocols r with Some [] => false | _ => true end
        | _ => false
        end in
      if unsupported then Some "does not support"
      else if negb (r_opens r) then Some "newstream"
      else if negb (r_writes r) then Some "write"
      else None
  end.

Record forwarded := { table : dedup; sent : list (string * message); okN : Z; failN : Z }.

Definition forwardOne (hasHost : bool) (db : PeerDB.PeerDB) (topicSet : list string) (remotes : string -> remote) (msg : message)
    (f : forwarded) (r : PeerDB.PeerRecord) : forwarded :=
  let pid := PeerDB.PeerID r in
  if bool_decide (pid ∈ topicSet)
  then {| table := table f; sent := sent f; okN := okN f + 1; failN := failN f |}
  else match ForwardPubSubToPeer hasHost db pid (remotes pid) with
       | Some _ => {| table := table f; sent := sent f; okN := okN f; failN := failN f + 1 |}
       | None => {| table := table f; sent := sent f ++ [(pid, msg)]; okN := okN f + 1; failN := failN f |}
       end.

(** [ForwardToLimitedPeers] at the time [now]; [None]: the host is not ready. *)
Definition ForwardToLimitedPeers (hasHost : bool) (self : string) (now : Z) (topic : string) (data : bytes)
    (db : PeerDB.PeerDB) (topicPeers : list string) (remotes : string -> remote) (d : dedup) : option forwarded :=
  if negb hasHost then None
  else
    let msg := {| From := raw self; Data := data; Seqno := be_bytes 8 now; Topic := Some topic |} in
    let d := (isMsgSeen (DefaultMsgIdFn msg) now d).2 in
    Some (foldl (forwardOne hasHost db topicPeers remotes msg) {| table := d; sent := []; okN := 0; failN := 0 |} (PeerDB.List now db)).

(** A turn of [topicListener] with a message of the subscription: at [now] for
    [isMsgSeen], at [now'] for the forwarding; what is streamed to whom, and the event. *)
Definition topicListener (hasHost : bool) (self : string) (now now' : Z) (topic : string) (m : message) (from : string)
    (db : PeerDB.PeerDB) (topicPeers : list string) (remotes : string -> remote) (d : dedup)
    : dedup * list (string * message) * option PubsubEvent :=
  let (seen, d) := isMsgSeen (DefaultMsgIdFn m) now d in
  if seen then (d, [], None)
  else
    let ev := event m topic (raw from) in
    if String.eqb from self
    then match ForwardToLimitedPeers hasHost self now' topic (Data m) db topicPeers remotes d with
         | Some f => (table f, sent f, Some ev)
         | None => (d, [], Some ev)
         end
    else (d, [], Some ev).

Lemma isMsgSeen_fst id now d : (isMsgSeen id now d).1 = bool_decide (is_Some (seenMsgIDs d !! id)).
Proof.
  rewrite isMsgSeen_acts. cbn. unfold loadOrStore. by destruct (seenMsgIDs d !! id).
Qed.

(** What the loop over the database sends. *)
Lemma forward_sent db tp remotes msg l : forall f,
  NoDup (sent f).*1 -> NoDup (map PeerDB.PeerID l) -> (forall r, r ∈ l -> PeerDB.PeerID r ∉ (sent f).*1) ->
  let f' := foldl (forwardOne true db tp remotes msg) f l in
  table f' = table f /\ NoDup (sent f').*1 /\
  (forall pid m, (pid, m) ∈ sent f' <-> (pid, m) ∈ sent f \/
     m = msg /\ pid ∈ map PeerDB.PeerID l /\ pid ∉ tp /\ ForwardPubSubToPeer true db pid (remotes pid) = None).
Proof.
  induction l as [|r l IH]; intros f Hf Hl Hd; [cbn; split_and!; [done..|]; intros; set_solver|]. cbn [foldl map] in *.
  apply NoDup_cons in Hl as [Hr Hl].
  assert (table (forwardOne true db tp remotes msg f r) = table f) as Et by (unfold forwardOne; by repeat case_match).
  set (pid := PeerDB.PeerID r) in *.
  assert (forall q m, (q, m) ∈ sent (forwardOne true db tp remotes msg f r) <-> (q, m) ∈ sent f \/
    m = msg /\ q = pid /\ q ∉ tp /\ ForwardPubSubToPeer true db q (remotes q) = None) as Hone.
  { intros q m. unfold forwardOne. fold pid. destruct (bool_decide_reflect (pid ∈ tp)) as [Hp|Hp].
    { split; [by left|]. intros [?|(_ & -> & Hn & _)]; done. }
    destruct (ForwardPubSubToPeer true db pid (remotes pid)) eqn:E; cbn [sent].
    - split; [by left|]. intros [?|(_ & -> & _ & HE)]; [done|congruence].
    - rewrite elem_of_app, list_elem_of_singleton. split; [intros [?|[= -> ->]]; auto|].
      intros [?|(-> & -> & _)]; auto. }
  destruct (IH (forwardOne true db tp remotes msg f r)) as (H1 & H2 & H3); [|done| |].
  - unfold forwardOne. fold pid. repeat case_match; try done. cbn. rewrite fmap_app. apply NoDup_app.
    split_and!; [done| |apply NoDup_singleton]. intros q Hq. cbn. rewrite list_elem_of_singleton. intros ->.
    apply (Hd r); [apply list_elem_of_here|done].
  - intros r' Hr' ([q m] & E & Hq)%list_elem_of_fmap. cbn in E. apply Hone in Hq as [Hq|(_ & -> & _)].
    + apply (Hd r'); [by apply list_elem_of_further|]. rewrite E. apply list_elem_of_fmap. by exists (q, m).
    + apply Hr. rewrite <- E. by apply (list_elem_of_fmap_2 PeerDB.PeerID).
  - split_and!; [congruence|done|]. intros q m. rewrite H3, Hone, elem_of_cons.
    split; [intros [[?|(-> & -> & ? & ?)]|(-> & ? & ? & ?)]; auto 10|].
    intros [?|(-> & [->|?] & ? & ?)]; auto 10.
Qed.

Lemma List_ids now db : PeerDB.keyed db ->
  NoDup (map PeerDB.PeerID (PeerDB.List now db)) /\
  forall pid, pid ∈ map PeerDB.PeerID (PeerDB.List now db) <-> is_Some (PeerDB.Get now pid db).
Proof.
  intros Hk. split.
  - unfold PeerDB.List. pose proof (NoDup_range_keys 11 (PeerDB.peers db)) as Hn.
    assert (forall k r, (k, r) ∈ range_map 11 (PeerDB.peers db) -> PeerDB.PeerID r = k) as Hl.
    { intros k r Hin%elem_of_range. by apply Hk. }
    revert Hn Hl. induction (range_map 11 (PeerDB.peers db)) as [|[k r] l IH]; intros Hn Hl; [constructor|].
    cbn in *. apply NoDup_cons in Hn as [Hkl Hn].
    assert (NoDup (map PeerDB.PeerID (omap (fun e => if PeerDB.stale now db e.2 then None else Some e.2) l))) as Hrest.
    { apply IH; [done|]. intros; apply Hl; by apply list_elem_of_further. }
    destruct (PeerDB.stale now db r); [done|]. cbn. constructor; [|done]. rewrite (Hl k r) by apply list_elem_of_here.
    intros (r' & E & Hr')%list_elem_of_fmap. apply list_elem_of_omap in Hr' as ([k2 r2] & Hin & E2). cbn in E2.
    destruct (PeerDB.stale now db r2); simplify_eq. apply Hkl. apply list_elem_of_fmap. exists (k2, r'). split; [|done].
    cbn. apply Hl. by apply list_elem_of_further.
  - intros pid. unfold PeerDB.Get. split.
    + intros (r & -> & Hr)%list_elem_of_fmap. apply list_elem_of_omap in Hr as ([k r'] & Hin & E). cbn in E.
      destruct (PeerDB.stale now db r') eqn:Es; simplify_eq. apply elem_of_range in Hin.
      pose proof (Hk k r Hin). cbn in *. subst k. rewrite Hin, Es. eauto.
    + destruct (PeerDB.peers db !! pid) as [r|] eqn:E; [|by intros []]. destruct (PeerDB.stale now db r) eqn:Es; [by intros []|].
      intros _. apply list_elem_of_fmap. exists r. split; [symmetry; by apply (Hk pid)|].
      apply list_elem_of_omap. exists (pid, r). split; [by apply elem_of_range|]. cbn. by rewrite Es.
Qed.

(** When [ForwardPubSubToPeer] writes the message. *)
Lemma forwards db pid r : ForwardPubSubToPeer true db pid r = None <->
  is_Some (PeerDB.Get (r_now r) pid db) /\ (r_supports r = Some [] -> r_protocols r = Some []) /\
  r_opens r = true /\ r_writes r = true.
Proof.
  unfold ForwardPubSubToPeer. cbn [negb]. destruct (PeerDB.Get (r_now r) pid db); [|by split; [|intros [[] _]]].
  assert (forall x : PeerDB.PeerRecord, is_Some (Some x)) as Hx by eauto.
  destruct (r_supports r) as [[|]|], (r_protocols r) as [[|]|], (r_opens r), (r_writes r); cbn; naive_solver.
Qed.


(** A peer of the database that is in the topic without a connection to the publisher gets
    the message from the mesh as well: under another number, so that it is delivered
    twice. *)
Theorem delivered_twice topic (m msg : message) from from' t1 t2 d :
  Topic m = Some topic -> Topic msg = Some topic -> From m = From msg -> Seqno m <> Seqno msg ->
  length (Seqno msg) = 8%nat ->
  seenMsgIDs d !! DefaultMsgIdFn m = None -> seenMsgIDs d !! DefaultMsgIdFn msg = None ->
  counted d -> Z.of_nat (size (seenMsgIDs d)) < 2 ^ 31 - 1 ->
  forall self remotes db tp, String.eqb from self = false ->
  exists d1 d2,
    topicListener true self t1 t1 topic m from db tp remotes d = (d1, [], Some (event m topic (raw from))) /\
    handlePubSubFwdStream t2 from' (Some msg) d1 = Ok (d2, Some (event msg topic from')).
Proof.
  intros Hm Hmsg Hf Hs Hlen H1 H2 Hc Hsz self remotes db tp Hself.
  pose proof (isMsgSeen_fst (DefaultMsgIdFn m) t1 d) as F1. unfold topicListener.
  destruct (isMsgSeen (DefaultMsgIdFn m) t1 d) as [s1 d1] eqn:E1. cbn [fst] in F1. rewrite H1 in F1.
  change (bool_decide (is_Some (@None Z))) with false in F1. subst s1. rewrite Hself. exists d1.
  destruct (isMsgSeen_table _ _ _ _ _ E1 Hc Hsz) as (_ & _ & Htab).
  assert (seenMsgIDs d1 !! DefaultMsgIdFn msg = None) as H2'.
  { specialize (Htab (DefaultMsgIdFn msg)). rewrite decide_False in Htab.
    2: { unfold DefaultMsgIdFn. rewrite Hf. intros E%app_inv_head. congruence. }
    rewrite H2 in Htab. exact Htab. }
  unfold handlePubSubFwdStream. pose proof (isMsgSeen_fst (DefaultMsgIdFn msg) t2 d1) as F2.
  destruct (isMsgSeen (DefaultMsgIdFn msg) t2 d1) as [s2 d2]. cbn [fst] in F2. rewrite H2' in F2.
  change (bool_decide (is_Some (@None Z))) with false in F2. subst s2. exists d2.
  rewrite Hlen, Hmsg. done.
Qed.

(** A forwarded message crashes the node exactly when it is new and its sequence number
    is short or its topic is missing. *)
Theorem forwarded_panics now pid m d :
  handlePubSubFwdStream now pid (Some m) d = Panic <->
  seenMsgIDs d !! DefaultMsgIdFn m = None /\ ((length (Seqno m) < 8)%nat \/ Topic m = None).
Proof.
  unfold handlePubSubFwdStream. pose proof (isMsgSeen_fst (DefaultMsgIdFn m) now d) as F.
  destruct (isMsgSeen (DefaultMsgIdFn m) now d) as [s d1]. cbn [fst] in F. subst s.
  destruct (seenMsgIDs d !! DefaultMsgIdFn m) as [z|].
  - change (bool_decide (is_Some (Some z))) with true. split; [done|by intros []].
  - change (bool_decide (is_Some (@None Z))) with false. cbn iota. destruct (Nat.ltb_spec (length (Seqno m)) 8).
    + split; [auto|done].
    + destruct (Topic m); split; try done; [|tauto]. intros [_ [?|?]]; [lia|done].
Qed.
End flow.
End Flow.

(** ** Witnesses *)
Section witnesses.
#[local] Instance gossip_range : MapRange := map_to_list_range.

(** A library whose handles are the positions of a list: topic, open, subscriptions. *)
Abbreviation handles := (list (string * bool * nat)).
Definition open_on (t : string) (e : string * bool * nat) : bool := String.eqb e.1.1 t && e.1.2.
#[local] Instance list_lib : PubSubLib :=
  {| PS := handles;
     Join t p := if existsb (open_on t) p then (None, p) else (Some (length p), p ++ [(t, true, 0%nat)]);
     Subscribe h p := match p !! h with Some (t, true, n) => (true, <[h := (t, true, S n)]> p) | _ => (false, p) end;
     Close h p := match p !! h with Some (t, _, 0%nat) => (true, <[h := (t, false, 0%nat)]> p) | _ => (false, p) end;
     topic_of p h := match p !! h with Some (t, true, _) => Some t | _ => None end;
     subs p h := match p !! h with Some (_, _, n) => n | None => 0%nat end;
     known p h := bool_decide (is_Some (p !! h)) |}.

Lemma same_insert (p : handles) h e k : k <> h -> same_handle p (<[h := e]> p) k.
Proof. intros Hk. unfold same_handle. cbn. by rewrite list_lookup_insert_ne. Qed.

#[local] Instance list_laws : PubSubLaws.
Proof.
  split; cbn.
  - intros t p h p'. destruct (existsb (open_on t) p) eqn:E; [done|]. intros [= <- <-].
    assert (p !! length p = None) as Hl by by apply lookup_ge_None_2.
    assert ((p ++ [(t, true, 0%nat)]) !! length p = Some (t, true, 0%nat)) as Hl' by (rewrite lookup_app_r, Nat.sub_diag; done).
    rewrite Hl, Hl'. split_and!; [|done..|].
    + intros k Hk. assert (existsb (open_on t) p = true) as E'; [|congruence]. apply existsb_exists.
      destruct (p !! k) as [[[u []] n]|] eqn:Ek; simplify_eq. exists (t, true, n).
      split; [|unfold open_on; cbn; by rewrite String.eqb_refl]. by apply list_elem_of_In, (list_elem_of_lookup_2 _ k).
    + intros k Hk. unfold same_handle. cbn. destruct (Nat.lt_ge_cases k (length p)); [by rewrite lookup_app_l|].
      rewrite (lookup_ge_None_2 p k) by lia. rewrite (lookup_ge_None_2 (p ++ _) k); [done|]. rewrite length_app. cbn. lia.
  - intros t p p'. destruct (existsb (open_on t) p); [|done]. intros [= <-] k. by split.
  - intros h p p'. destruct (p !! h) as [[[u []] n]|] eqn:E; [|done..]. intros [= <-].
    assert (h < length p)%nat as Hh by by eapply lookup_lt_Some.
    rewrite !list_lookup_insert_eq by done. split_and!; eauto using same_insert.
  - intros h p p' Hp k. destruct (p !! h) as [[[u []] n]|]; simplify_eq; by split.
  - intros h p p'. destruct (p !! h) as [[[u o] []]|] eqn:E; [|done..]. intros [= <-].
    assert (h < length p)%nat as Hh by by eapply lookup_lt_Some.
    rewrite !list_lookup_insert_eq by done. split_and!; eauto using same_insert.
  - intros h p p' Hp k. destruct (p !! h) as [[[u o] []]|]; simplify_eq; by split.
Defined.

Import Topics.

Definition joining : list sched := [StartGet "hub"; Turn 0; Turn 0; Turn 0; Turn 0].

(** Two calls of [UnsubscribeTopic] load a handle that has no listener yet; one closes it
    and deletes the entry, the topic is joined and listened to again, and the other one
    succeeds. *)
Definition stale : list sched :=
  [StartGet "hub"; Turn 0; Turn 0; Turn 0; StartUnsub "hub"; Turn 1; StartUnsub "hub"; Turn 2; Turn 1; Turn 1;
   StartGet "hub"; Turn 3; Turn 3; Turn 3; Turn 3; Turn 2; Turn 2].
Theorem stale_unsubscribe :
  let w := run (start (H := list_lib) ([] : handles)) stale in
  w.1 !! 2%nat = Some ("hub", Unsubscribed) /\ listeners w.2 = [("hub", 1%nat)] /\ topicSubs w.2 !! "hub" = None.
Proof. by vm_compute. Qed.

(** How an entry is lost: a topic is closed between [Store] and [Subscribe] of a first
    call, joined again by another, and deleted by the first, which cannot subscribe. *)
Definition losing : list sched :=
  [StartGet "hub"; Turn 0; Turn 0; Turn 0; StartUnsub "hub"; Turn 1; Turn 1; Turn 0; Turn 1;
   StartGet "hub"; Turn 2; Turn 2; Turn 2; Turn 2; Turn 0].

Lemma topic_stays_lost_witness :
  let w := run (start (H := list_lib) ([] : handles)) losing in
  topicSubs (run w [StartGet "hub"; Turn 3; Turn 3; Turn 3]).2 !! "hub" = None.
Proof.
  refine (proj1 (topic_stays_lost ([] : handles) losing [StartGet "hub"; Turn 3; Turn 3; Turn 3] "hub" _ _ _)).
  - done.
  - exists 1%nat. vm_compute. apply list_elem_of_here.
  - vm_compute. reflexivity.
Defined.

Lemma publish_subscribes_witness :
  let big := replicate (Z.to_nat (maxPublishSize + 1)) 0 in
  let '(e, s') := PublishTopic (H := list_lib) "new" big (fun _ => true) [] (start (H := list_lib) ([] : handles)).2 in
  e = Some "payload too large" /\ listening "new" s'.
Proof.
  intros big. assert (maxPublishSize < zlen big) as Hbig by (unfold big, zlen, maxPublishSize; rewrite length_replicate; lia).
  clearbody big. refine (publish_subscribes "new" big (fun _ => true) [] _ _ _ _ _ _).
  - reflexivity.
  - reflexivity.
  - intros h p. cbn. intros [= <- <-]. reflexivity.
  - discriminate.
  - exact Hbig.
Defined.

Import Flow.

Definition sample : message := {| From := string_bytes "A"; Data := [104; 105]; Seqno := be_bytes 8 1; Topic := Some "hub" |}.
Definition reachable_peer : remote :=
  {| r_now := 10; r_protocols := Some []; r_supports := Some []; r_opens := true; r_writes := true |}.
Definition two_peers : PeerDB.PeerDB :=
  PeerDB.Update "C" [] 5 (PeerDB.Update "B" [] 5 (PeerDB.NewPeerDB minute)).


Lemma delivered_twice_witness :
  let again := {| From := string_bytes "A"; Data := [104; 105]; Seqno := be_bytes 8 2; Topic := Some "hub" |} in
  exists d1 d2,
    topicListener string_bytes true "B" 10 10 "hub" sample "C" two_peers [] (fun _ => reachable_peer) newDedup
      = (d1, [], Some (event sample "hub" (string_bytes "C"))) /\
    handlePubSubFwdStream 11 (string_bytes "A") (Some again) d1 = Ok (d2, Some (event again "hub" (string_bytes "A"))).
Proof.
  intros again. apply (delivered_twice string_bytes "hub" sample again "C" (string_bytes "A") 10 11 newDedup);
    [reflexivity|reflexivity|reflexivity| |reflexivity|reflexivity|reflexivity|reflexivity|reflexivity|reflexivity].
  vm_compute. discriminate.
Defined.
End witnesses.
