(* ===== verification/GoEncoding.v ===== *)
(** * Base64 and hexadecimal

    [base64.StdEncoding] and [hex.EncodeToString] of the Go library, as the trackers of
    src/p2put use them.  Text is its bytes. *)

From S2P Require Import Prelude.

(** ** Base64 *)

(** The character of six bits, and back. *)
Definition enc6 (v : Z) : Z :=
  if v <? 26 then 65 + v else if v <? 52 then 71 + v else if v <? 62 then v - 4 else if v =? 62 then 43 else 47.
Definition dec6 (c : Z) : option Z :=
  if (65 <=? c) && (c <=? 90) then Some (c - 65)
  else if (97 <=? c) && (c <=? 122) then Some (c - 71)
  else if (48 <=? c) && (c <=? 57) then Some (c + 4)
  else if c =? 43 then Some 62 else if c =? 47 then Some 63 else None.

Definition pad : Z := 61.

(** [EncodeToString]. *)
Fixpoint b64_encode (l : bytes) : bytes :=
  match l with
  | [] => []
  | [a] => [enc6 (a / 4); enc6 (a mod 4 * 16); pad; pad]
  | [a; b] => [enc6 (a / 4); enc6 (a mod 4 * 16 + b / 16); enc6 (b mod 16 * 4); pad]
  | a :: b :: c :: r =>
      enc6 (a / 4) :: enc6 (a mod 4 * 16 + b / 16) :: enc6 (b mod 16 * 4 + c / 64) :: enc6 (c mod 64) :: b64_encode r
  end.

(** The decoder on text without line breaks: groups of four, padding only at the end;
    the bits below the padding are not looked at. *)
Fixpoint b64_groups (l : bytes) : option bytes :=
  match l with
  | [] => Some []
  | x :: y :: z :: w :: r =>
      a ← dec6 x; b ← dec6 y;
      if z =? pad then
        if (w =? pad) && bool_decide (r = []) then Some [a * 4 + b / 16] else None
      else
        c ← dec6 z;
        if w =? pad then
          if bool_decide (r = []) then Some [a * 4 + b / 16; b mod 16 * 16 + c / 4] else None
        else
          d ← dec6 w; rest ← b64_groups r;
          Some (a * 4 + b / 16 :: b mod 16 * 16 + c / 4 :: c mod 4 * 64 + d :: rest)
  | _ => None
  end.

(** [DecodeString] skips line breaks. *)
Definition b64_decode (l : bytes) : option bytes := b64_groups (filter (fun c => c <> 10 /\ c <> 13) l).

Definition all6 : list Z := seqZ 0 64.

Lemma six_spec v : 0 <= v < 64 -> dec6 (enc6 v) = Some v /\ enc6 v <> pad /\ enc6 v <> 10 /\ enc6 v <> 13 /\ 32 < enc6 v < 128.
Proof.
  intros Hv. unfold enc6, pad.
  assert (enc6 v = enc6 v) as _ by done.
  destruct (Z.ltb_spec v 26); [|destruct (Z.ltb_spec v 52); [|destruct (Z.ltb_spec v 62); [|destruct (Z.eqb_spec v 62)]]];
    (split; [|lia]); unfold dec6; repeat (case_match; simplify_eq; try lia); f_equal; lia.
Qed.

Lemma b64_chars l : is_bytes l -> Forall (fun c => 32 < c < 128 /\ c <> 10 /\ c <> 13) (b64_encode l).
Proof.
  assert (forall v, 0 <= v < 64 -> 32 < enc6 v < 128 /\ enc6 v <> 10 /\ enc6 v <> 13) as H6.
  { intros v Hv. pose proof (six_spec v Hv). tauto. }
  assert (32 < pad < 128 /\ pad <> 10 /\ pad <> 13) as Hpad by (unfold pad; lia).
  induction l as [l IH] using (induction_ltof1 _ (@length Z)). intros Hb. unfold ltof in IH.
  destruct l as [|a [|b [|c r]]]; cbn [b64_encode]; [done|..].
  all: repeat (apply Forall_cons in Hb as [? Hb]); unfold is_byte in *.
  all: repeat (apply Forall_cons; split; [first [exact Hpad | apply H6; Z.to_euclidean_division_equations; lia]|]); try done.
  apply IH; [cbn; lia|done].
Qed.

Lemma b64_groups_encode l : is_bytes l -> b64_groups (b64_encode l) = Some l.
Proof.
  assert (forall v, 0 <= v < 64 -> dec6 (enc6 v) = Some v) as H6 by (intros v Hv; apply (six_spec v Hv)).
  assert (forall v, 0 <= v < 64 -> (enc6 v =? pad) = false) as Hp.
  { intros v Hv. apply Z.eqb_neq. apply (six_spec v Hv). }
  induction l as [l IH] using (induction_ltof1 _ (@length Z)). intros Hb. unfold ltof in IH.
  destruct l as [|a [|b [|c r]]]; cbn [b64_encode b64_groups]; [done|..].
  all: repeat (apply Forall_cons in Hb as [? Hb]); unfold is_byte in *.
  all: rewrite ?H6, ?Hp by (Z.to_euclidean_division_equations; lia); cbn [mbind option_bind].
  - cbn. do 2 f_equal. Z.to_euclidean_division_equations; lia.
  - change (pad =? pad) with true. cbn. f_equal. f_equal; [|f_equal]; Z.to_euclidean_division_equations; lia.
  - rewrite IH by (cbn; first [lia|done]). cbn. f_equal. f_equal; [|f_equal; [|f_equal]]; Z.to_euclidean_division_equations; lia.
Qed.

(** Whatever is encoded is decoded again. *)
Theorem b64_roundtrip l : is_bytes l -> b64_decode (b64_encode l) = Some l.
Proof.
  intros Hb. unfold b64_decode. rewrite <- (b64_groups_encode l Hb). f_equal.
  pose proof (b64_chars l Hb) as Hc. induction Hc as [|x r (_ & H1 & H2) Hr IH]; [done|].
  rewrite filter_cons_True by done. by f_equal.
Qed.

(** ** Hexadecimal *)
Definition hex_char (v : Z) : Z := if v <? 10 then 48 + v else 87 + v.
Definition hex_encode (l : bytes) : bytes := concat (map (fun b => [hex_char (b / 16); hex_char (b mod 16)]) l).

Lemma hex_inj l k : is_bytes l -> is_bytes k -> hex_encode l = hex_encode k -> l = k.
Proof.
  intros Hl. revert k. induction Hl as [|a l Ha Hl IH]; intros [|b k] Hk E; try done.
  apply Forall_cons in Hk as [Hb Hk]. injection E as E1 E2 E3. f_equal; [|by apply IH].
  unfold is_byte in *. unfold hex_char in *.
  assert (a / 16 = b / 16 /\ a mod 16 = b mod 16) as [H1 H2].
  { split; repeat case_match; Z.to_euclidean_division_equations; lia. }
  rewrite (Z.div_mod a 16), (Z.div_mod b 16) by lia. congruence.
Qed.

Lemma b64_roundtrip_witness : b64_decode (b64_encode [0; 255; 17; 4]) = Some [0; 255; 17; 4].
Proof. apply b64_roundtrip. bytes_lit. Defined.
