(* ===== verification/Trackers.v ===== *)
(** * Trackers and the key-value store

    How a node is announced and found over HTTP, and the store behind the public API:
    [Module Jami] is src/p2put/jamitracker.go, [Module Proxy] jamidhtproxy.go, [Module Ipfs]
    the class [IpfsHttpTrackerApi] of mydiscovery.go with [FindProvidersBycid] of utapi.go,
    [Module KV] [PutKV], [GetKV] and [DelKV] of utapi.go over the proxy or the DHT of
    libp2p_bs_dht.go.  Text is its bytes.  What the network answers to a request is an
    argument, SHA-1 and what [encoding/json] makes of a record are arguments too. *)

From S2P Require Import Prelude GoNet GoEncoding Remote.

(** ** HTTP *)
Inductive method := GET | POST | PUT.
Record request := { r_method : method; r_url : bytes; r_body : bytes }.

(** A response: its status, what can be read of its body, and whether reading fails. *)
Record response := { status : Z; body : bytes; cut : bool }.

(** [None]: the request does not reach a server. *)
Abbreviation web := (request -> option response).

Record FoundPeer := { PeerID : string; Addrs : list string }.

(** [strings.Split(s, "\n")]. *)
Fixpoint split_lines (l : bytes) : list bytes :=
  match l with
  | [] => [[]]
  | c :: r => if c =? 10 then [] :: split_lines r
              else match split_lines r with [] => [[c]] | x :: xs => (c :: x) :: xs end
  end.

(** Lines put together again. *)
Fixpoint join_lines (l : list bytes) : bytes :=
  match l with [] => [] | [x] => x | x :: r => x ++ 10 :: join_lines r end.

Lemma split_lines_app x r : 10 ∉ x -> split_lines (x ++ 10 :: r) = x :: split_lines r.
Proof.
  induction x as [|c x IH]; intros Hx; [done|]. cbn. apply not_elem_of_cons in Hx as [Hc Hx].
  destruct (Z.eqb_spec c 10); [congruence|]. by rewrite IH.
Qed.
Lemma split_lines_one x : 10 ∉ x -> split_lines x = [x].
Proof.
  induction x as [|c x IH]; intros Hx; [done|]. cbn. apply not_elem_of_cons in Hx as [Hc Hx].
  destruct (Z.eqb_spec c 10); [congruence|]. by rewrite IH.
Qed.
Lemma split_join l : l <> [] -> Forall (fun x => 10 ∉ x) l -> split_lines (join_lines l) = l.
Proof.
  intros Hne Hl. induction Hl as [|x l Hx Hl IH]; [done|]. destruct l as [|y l]; [by apply split_lines_one|].
  change (join_lines (x :: y :: l)) with (x ++ 10 :: join_lines (y :: l)). by rewrite split_lines_app, IH.
Qed.

(** Text between two braces is not trimmed. *)
Lemma trim_left_stays seps n c l :
  Forall (fun p => match p with [] => False | x :: _ => x <> c end) seps -> trim_left seps n (c :: l) = c :: l.
Proof.
  intros Hs. destruct n as [|n]; [done|]. cbn. destruct (list_find _ seps) as [[i p]|] eqn:E; [|done].
  apply list_find_Some in E as (Hi & Hp & _). exfalso. rewrite Forall_forall in Hs.
  specialize (Hs p (list_elem_of_lookup_2 _ _ _ Hi)). destruct p as [|x p]; [done|].
  unfold is_prefix in Hp. apply bool_decide_eq_true in Hp. cbn in Hp. congruence.
Qed.

Definition braced (x : bytes) : Prop := exists m, x = 123 :: m ++ [125].

Lemma TrimSpace_braced x : braced x -> TrimSpace x = x.
Proof.
  intros [m ->]. unfold TrimSpace. rewrite trim_left_stays.
  2: { unfold spaces. repeat (apply Forall_cons; split; [cbn; lia|]). constructor. }
  rewrite app_comm_cons, reverse_app. change (reverse [125]) with [125]. cbn [app].
  rewrite trim_left_stays.
  2: { unfold spaces. cbn. repeat (apply Forall_cons; split; [cbn; lia|]). constructor. }
  by rewrite reverse_cons, reverse_involutive.
Qed.

Lemma braced_join l : l <> [] -> Forall braced l -> braced (join_lines l).
Proof.
  intros Hne Hl. destruct l as [|x l]; [done|]. apply Forall_cons in Hl as [[m ->] Hl].
  clear Hne. revert m. induction Hl as [|y l [k ->] Hl IH]; intros m; [by exists m|].
  destruct (IH k) as [k' E]. change (braced ((123 :: m ++ [125]) ++ 10 :: join_lines ((123 :: k ++ [125]) :: l))).
  rewrite E. exists (m ++ [125] ++ 10 :: 123 :: k'). rewrite <- !app_assoc. cbn. by rewrite <- !app_assoc.
Qed.

(** A body of braced lines is read line by line. *)
Lemma body_lines l : l <> [] -> Forall braced l -> Forall (fun x => 10 ∉ x) l -> split_lines (TrimSpace (join_lines l)) = l.
Proof. intros Hne Hb Hn. rewrite TrimSpace_braced by by apply braced_join. by apply split_join. Qed.

(** Base64 between two literal texts is one line. *)
Lemma one_line p q l :
  bool_decide (10 ∉ p) = true -> bool_decide (10 ∉ q) = true -> is_bytes l -> 10 ∉ p ++ b64_encode l ++ q.
Proof.
  intros Hp%bool_decide_eq_true Hq%bool_decide_eq_true Hl. rewrite !not_elem_of_app. split_and!; [done| |done].
  intros Hin. pose proof (b64_chars l Hl) as Hc. rewrite Forall_forall in Hc. specialize (Hc 10 Hin). lia.
Qed.

Lemma omap_map_some {A B} (f : B -> option A) (g : A -> B) l :
  Forall (fun x => f (g x) = Some x) l -> omap f (map g l) = l.
Proof. induction 1 as [|x l Hx Hl IH]; [done|]. cbn. by rewrite Hx, IH. Qed.

(** ** The tracker of Jami *)
Module Jami.
Section jami.
(** SHA-1; whether [http.NewRequest] takes a URL; the network; [json.Marshal] of a found
    peer, [json.Unmarshal] into one; the field [data] of a JSON value. *)
Context (sha1 : bytes -> bytes) (valid : bytes -> bool) (Do : web).
Context (marshal : FoundPeer -> bytes) (unmarshal : bytes -> option FoundPeer) (value_data : bytes -> option bytes).

Definition fallbackJamiProxy : bytes := string_bytes "http://141.94.96.2:80".

(** [hashKey] ([fmt.Sprintf("%x", ...)]). *)
Definition hashKey (key : bytes) : bytes := hex_encode (sha1 key).

(** The loop over the two addresses of the proxy: the first response, and the requests
    made.  A request that reaches no server lets the next address be tried. *)
Fixpoint overUrls (mk : bytes -> request) (urls : list bytes) (lastErr : option string) : res (option response) * list request :=
  match urls with
  | [] => (match lastErr with None => Ok None | Some e => Fail e end, [])
  | base :: urls =>
      if negb (valid (r_url (mk base))) then (Fail "request", [])
      else match Do (mk base) with
           | Some resp => (Ok (Some resp), [mk base])
           | None => let '(r, l) := overUrls mk urls (Some "do") in (r, mk base :: l)
           end
  end.

Definition urls (baseURL : bytes) : list bytes := [baseURL; fallbackJamiProxy].

(** The body of a [Provide]: [{"data":"...","id":0,"type":0}]. *)
Definition quote : bytes := [34].
Definition postBody (dataB64 : bytes) : bytes :=
  [123] ++ quote ++ string_bytes "data" ++ quote ++ [58] ++ quote ++ dataB64 ++ quote ++ [44] ++
  quote ++ string_bytes "id" ++ quote ++ string_bytes ":0," ++ quote ++ string_bytes "type" ++ quote ++ string_bytes ":0" ++ [125].

Definition keyUrl (hash base : bytes) : bytes := base ++ string_bytes "/key/" ++ hash.

Definition Provide (baseURL key : bytes) (peer : FoundPeer) : res unit * list request :=
  let hash := hashKey key in
  let b := postBody (b64_encode (marshal peer)) in
  let '(r, l) := overUrls (fun base => {| r_method := POST; r_url := keyUrl hash base; r_body := b |}) (urls baseURL) None in
  (let! resp := r in
   match resp with
   | None => Ok tt
   | Some resp => if 300 <=? status resp then Fail "POST" else Ok tt
   end, l).

(** A value of the proxy, as [FindProviders] and [Listen] read it. *)
Definition parseValue (line : bytes) : option FoundPeer :=
  d ← value_data line;
  match d with
  | [] => None
  | _ => raw ← b64_decode d; fp ← unmarshal raw;
         if String.eqb (PeerID fp) "" then None else Some fp
  end.

Definition FindProviders (baseURL key : bytes) : res (list FoundPeer) * list request :=
  let hash := hashKey key in
  let '(r, l) := overUrls (fun base => {| r_method := GET; r_url := keyUrl hash base; r_body := [] |}) (urls baseURL) None in
  (let! resp := r in
   match resp with
   | None => Ok []
   | Some resp =>
       if cut resp then Fail "read"
       else Ok (omap (fun line => match line with [] => None | _ => parseValue line end) (split_lines (TrimSpace (body resp))))
   end, l).

Definition Ping (baseURL : bytes) : res unit * list request :=
  let '(r, l) := overUrls (fun base => {| r_method := GET; r_url := base ++ string_bytes "/node/info"; r_body := [] |}) (urls baseURL) None in
  (let! resp := r in
   match resp with None => Ok tt | Some resp => if 300 <=? status resp then Fail "Ping" else Ok tt end, l).

(** The lines [bufio.Scanner] gives: up to the first that does not fit in its buffer. *)
Definition maxToken : Z := 65536.
Definition drop_cr (l : bytes) : bytes := match last l with Some 13 => removelast l | _ => l end.
Fixpoint scan (lines : list bytes) : list bytes * bool :=
  match lines with
  | [] => ([], true)
  | [[]] => ([], true)
  | x :: r => if maxToken <=? zlen x then ([], false)
              else let '(l, ok) := scan r in (drop_cr x :: l, ok)
  end.

(** [Listen]: the peers given to the callback, in order. *)
Definition Listen (baseURL topic : bytes) : res (list FoundPeer * option string) * list request :=
  let hash := hashKey topic in
  let '(r, l) := overUrls (fun base => {| r_method := GET; r_url := keyUrl hash base ++ string_bytes "/listen"; r_body := [] |})
                   (urls baseURL) None in
  (let! resp := r in
   match resp with
   | None => Ok ([], None)
   | Some resp =>
       let '(lines, ok) := scan (split_lines (body resp)) in
       Ok (omap (fun line => match TrimSpace line with [] => None | line => parseValue line end) lines,
           if negb ok then Some "token too long" else if cut resp then Some "read" else None)
   end, l).

(** When the second address is tried: exactly when the first could not be reached.  The
    status of an answer plays no part in a search: an error page is an empty result. *)
Theorem jami_failover baseURL key :
  (forall base, valid (keyUrl (hashKey key) base) = true) ->
  let req base := {| r_method := GET; r_url := keyUrl (hashKey key) base; r_body := [] |} in
  let parsed resp := if cut resp then Fail "read" else
    Ok (omap (fun line => match line with [] => None | _ => parseValue line end) (split_lines (TrimSpace (body resp)))) in
  FindProviders baseURL key =
    match Do (req baseURL), Do (req fallbackJamiProxy) with
    | Some resp, _ => (parsed resp, [req baseURL])
    | None, Some resp => (parsed resp, [req baseURL; req fallbackJamiProxy])
    | None, None => (Fail "do", [req baseURL; req fallbackJamiProxy])
    end.
Proof.
  intros Hv req parsed. unfold FindProviders, urls. cbn [overUrls r_url]. rewrite !Hv. cbn [negb].
  fold (req baseURL) (req fallbackJamiProxy). destruct (Do (req baseURL)) as [resp|]; [done|].
  by destruct (Do (req fallbackJamiProxy)).
Qed.

Lemma braced_postBody d : braced (postBody d).
Proof.
  exists (quote ++ string_bytes "data" ++ quote ++ [58] ++ quote ++ d ++ quote ++ [44] ++ quote ++ string_bytes "id" ++ quote ++
    string_bytes ":0," ++ quote ++ string_bytes "type" ++ quote ++ string_bytes ":0").
  unfold postBody. rewrite <- !app_assoc. reflexivity.
Qed.

Lemma postBody_lines d : is_bytes d -> 10 ∉ postBody (b64_encode d).
Proof.
  apply (one_line ([123] ++ quote ++ string_bytes "data" ++ quote ++ [58] ++ quote)
    (quote ++ [44] ++ quote ++ string_bytes "id" ++ quote ++ string_bytes ":0," ++ quote ++ string_bytes "type" ++ quote ++ string_bytes ":0" ++ [125]));
    reflexivity.
Qed.

(** What a [Provide] sends: one POST to the first address and, when that reaches no server,
    one to the second; it succeeds when the answer it gets is no error. *)
Lemma provide_exact baseURL key p :
  (forall base, valid (keyUrl (hashKey key) base) = true) ->
  let post base := {| r_method := POST; r_url := keyUrl (hashKey key) base; r_body := postBody (b64_encode (marshal p)) |} in
  let answered resp := if 300 <=? status resp then Fail "POST" else Ok tt in
  Provide baseURL key p =
    match Do (post baseURL), Do (post fallbackJamiProxy) with
    | Some resp, _ => (answered resp, [post baseURL])
    | None, Some resp => (answered resp, [post baseURL; post fallbackJamiProxy])
    | None, None => (Fail "do", [post baseURL; post fallbackJamiProxy])
    end.
Proof.
  intros Hv post answered. unfold Provide, urls. cbn [overUrls r_url]. rewrite !Hv. cbn [negb].
  fold (post baseURL) (post fallbackJamiProxy). destruct (Do (post baseURL)) as [resp|]; [done|].
  by destruct (Do (post fallbackJamiProxy)).
Qed.
End jami.

(** *** Several nodes and the proxy

    The proxy itself (OpenDHT's) is not part of the repository.  It takes a value with the
    POST it answers without an error, and a GET of the key lists the values it has taken at
    that path, in any order, a line of JSON each: [shown] is the line of the value that was
    put with a body. *)
Class Listed (value_data : bytes -> option bytes) (shown : bytes -> bytes) : Prop := {
  shown_data d : is_bytes d -> value_data (shown (postBody (b64_encode d))) = Some (b64_encode d);
  shown_braced d : is_bytes d -> braced (shown (postBody (b64_encode d)));
  shown_line d : is_bytes d -> 10 ∉ shown (postBody (b64_encode d))
}.

(** The URLs and bodies of the POSTs that were taken, of those a node has sent. *)
Definition taken (Do : web) (reqs : list request) : list (bytes * bytes) :=
  omap (fun r => match r_method r, Do r with
                 | POST, Some resp => if 300 <=? status resp then None else Some (r_url r, r_body r)
                 | _, _ => None
                 end) reqs.

(** The bodies put under a key, at either address of the proxy. *)
Definition under (baseURL hash : bytes) (log : list (bytes * bytes)) : list bytes :=
  omap (fun e => if bool_decide (e.1 ∈ map (keyUrl hash) (urls baseURL)) then Some e.2 else None) log.

(** The proxy answers a search of the key with these lines, at the first address, or at the
    second if the first cannot be reached. *)
Definition answers (Do : web) (baseURL hash : bytes) (lines : list bytes) : Prop :=
  let get base := {| r_method := GET; r_url := keyUrl hash base; r_body := [] |} in
  let resp := {| status := 200; body := join_lines lines; cut := false |} in
  Do (get baseURL) = Some resp \/ (Do (get baseURL) = None /\ Do (get fallbackJamiProxy) = Some resp).

Section nodes.
Context (sha1 : bytes -> bytes) (valid : bytes -> bool).
Context (marshal : FoundPeer -> bytes) (unmarshal : bytes -> option FoundPeer) (value_data : bytes -> option bytes).
Context (shown : bytes -> bytes) `{!Listed value_data shown}.

(** What is taken when nodes provide themselves under a key, each over its own network, and
    the nodes whose [Provide] has succeeded. *)
Definition provided (baseURL key : bytes) (l : list (web * FoundPeer)) : list (bytes * bytes) :=
  l ≫= fun '(Do, p) => taken Do (Provide sha1 valid Do marshal baseURL key p).2.
Definition successful (baseURL key : bytes) (l : list (web * FoundPeer)) : list FoundPeer :=
  omap (fun '(Do, p) => match (Provide sha1 valid Do marshal baseURL key p).1 with Ok _ => Some p | _ => None end) l.

Lemma under_provided baseURL key l :
  (forall base, valid (keyUrl (hashKey sha1 key) base) = true) ->
  under baseURL (hashKey sha1 key) (provided baseURL key l) =
  map (fun p => postBody (b64_encode (marshal p))) (successful baseURL key l).
Proof.
  intros Hv. unfold under, provided, successful. induction l as [|[Do p] l IH]; [done|]. cbn [mbind list_bind omap list_omap].
  rewrite omap_app, IH. rewrite (provide_exact sha1 valid Do marshal baseURL key p Hv). cbn zeta.
  assert (forall base, base ∈ urls baseURL -> bool_decide (keyUrl (hashKey sha1 key) base ∈ map (keyUrl (hashKey sha1 key)) (urls baseURL)) = true) as Hin.
  { intros base Hb. apply bool_decide_eq_true. by apply list_elem_of_fmap_2. }
  pose proof (Hin baseURL (list_elem_of_here _ _)) as H1. pose proof (Hin fallbackJamiProxy) as H2. specialize (H2 ltac:(set_solver)).
  set (u1 := keyUrl (hashKey sha1 key) baseURL) in *. set (u2 := keyUrl (hashKey sha1 key) fallbackJamiProxy) in *.
  set (pb := postBody (b64_encode (marshal p))). set (mine := map (keyUrl (hashKey sha1 key)) (urls baseURL)) in *. clearbody u1 u2 mine.
  destruct (Do {| r_method := POST; r_url := u1; r_body := pb |}) as [resp|] eqn:E1.
  - unfold taken. cbn [fst snd omap list_omap r_method r_url r_body]. rewrite E1.
    destruct (300 <=? status resp); cbn [fst snd omap list_omap app map]; [done|]. by rewrite H1.
  - destruct (Do {| r_method := POST; r_url := u2; r_body := pb |}) as [resp|] eqn:E2;
      unfold taken; cbn [fst snd omap list_omap r_method r_url r_body]; rewrite E1, E2; [|done].
    destruct (300 <=? status resp); cbn [fst snd omap list_omap app map]; [done|]. by rewrite H2.
Qed.

End nodes.
End Jami.

(** ** The proxy of the key-value store *)
Module Proxy.
Section proxy.
(** [value_data line]: the field [data] (empty when it is missing), or nothing when the
    line is not JSON. *)
Context (sha1 : bytes -> bytes) (valid : bytes -> bool) (Do : web) (value_data : bytes -> option bytes).

Definition infoHash (key : bytes) : bytes := hex_encode (sha1 key).
Definition keyUrl (proxy key : bytes) : bytes := proxy ++ string_bytes "/key/" ++ infoHash key.

(** [json.Marshal] of a map with the one key [data]. *)
Definition putBody (b64 : bytes) : bytes :=
  [123; 34] ++ string_bytes "data" ++ [34; 58; 34] ++ b64 ++ [34; 125].

Definition putRequest (proxy key value : bytes) : request :=
  {| r_method := POST; r_url := keyUrl proxy key; r_body := putBody (b64_encode value) |}.
Definition getRequest (proxy key : bytes) : request :=
  {| r_method := GET; r_url := keyUrl proxy key; r_body := [] |}.

Definition Put (proxy key value : bytes) : res unit :=
  let req := putRequest proxy key value in
  if negb (valid (r_url req)) then Fail "jamidht put"
  else match Do req with
  | None => Fail "jamidht put"
  | Some resp => if negb (status resp =? 200) then Fail "jamidht put: status" else Ok tt
  end.

Definition Get (proxy key : bytes) : res bytes :=
  let req := getRequest proxy key in
  if negb (valid (r_url req)) then Fail "jamidht get"
  else match Do req with
  | None => Fail "jamidht get"
  | Some resp =>
      if status resp =? 404 then Fail "jamidht get: key not found"
      else if negb (status resp =? 200) then Fail "jamidht get: status"
      else match last (omap value_data (split_lines (TrimSpace (body resp)))) with
           | None => Fail "jamidht get: no values"
           | Some d => match b64_decode d with None => Fail "jamidht get: decode" | Some v => Ok v end
           end
  end.
End proxy.
End Proxy.

(** ** The tracker of IPFS *)
Module Ipfs.
Section ipfs.
(** The records of a response ([None]: it is not JSON), and the signed body of a [PUT]
    ([None]: it cannot be made). *)
Context (valid : bytes -> bool) (Do : web) (records : bytes -> option (list FoundPeer)).

Definition named (l : list FoundPeer) : list FoundPeer := filter (fun p => PeerID p <> "") l.

(** The three searches: an empty key is refused, records without an id are left out, and
    the status of the answer is not looked at. *)
Definition search (baseURL path key : bytes) : res (list FoundPeer) :=
  match key with
  | [] => Fail "empty"
  | _ =>
      let req := {| r_method := GET; r_url := baseURL ++ path ++ key; r_body := [] |} in
      if negb (valid (r_url req)) then Fail "request"
      else match Do req with
      | None => Fail "do"
      | Some resp => match records (body resp) with None => Fail "json" | Some l => Ok (named l) end
      end
  end.

Definition FindProviders (baseURL cid : bytes) := search baseURL (string_bytes "/routing/v1/providers/") cid.
Definition FindClosestPeers (baseURL key : bytes) := search baseURL (string_bytes "/routing/v1/dht/closest/peers/") key.
Definition FindPeers (baseURL peerID : bytes) := search baseURL (string_bytes "/routing/v1/peers/") peerID.

Definition Provide (baseURL : bytes) (signed : res bytes) : res unit :=
  let! data := signed in
  let req := {| r_method := PUT; r_url := baseURL ++ string_bytes "/routing/v1/providers/"; r_body := data |} in
  if negb (valid (r_url req)) then Fail "request"
  else match Do req with
  | None => Fail "do"
  | Some resp => if 300 <=? status resp then Fail "PUT" else Ok tt
  end.

(** [FindProvidersBycid]: the key is any text, and records without an id are kept. *)
Definition FindProvidersBycid (StringToCID : bytes -> bytes) (s : bytes) : res (list FoundPeer) :=
  let req := {| r_method := GET; r_url := string_bytes "https://delegated-ipfs.dev/routing/v1/providers/" ++ StringToCID s; r_body := [] |} in
  if negb (valid (r_url req)) then Fail "create request"
  else match Do req with
  | None => Fail "query delegated-ipfs"
  | Some resp => match records (body resp) with None => Fail "json" | Some l => Ok l end
  end.

(** [lookupPeerOnHTTP]: the addresses of the first record of the peer that can be read. *)
Definition lookupPeerOnHTTP (tracker : bytes) (parses : string -> bool) (peerID : string) : list string :=
  let req := {| r_method := GET; r_url := tracker ++ string_bytes "/routing/v1/peers/" ++ string_bytes peerID; r_body := [] |} in
  if negb (valid (r_url req)) then []
  else match Do req with
  | None => []
  | Some resp =>
      match records (body resp) with
      | None => []
      | Some l => match list_find (fun p => PeerID p = peerID) l with
                  | Some (_, p) => filter (fun a => parses a = true) (Addrs p)
                  | None => []
                  end
      end
  end.

(** A search never reports a peer without an id, and fails only if the key is empty or no
    JSON came back. *)
Theorem search_sound baseURL path key l :
  search baseURL path key = Ok l ->
  key <> [] /\ Forall (fun p => PeerID p <> "") l /\
  exists resp, Do {| r_method := GET; r_url := baseURL ++ path ++ key; r_body := [] |} = Some resp /\
    records (body resp) <> None.
Proof.
  unfold search. destruct key as [|c key]; [done|]. destruct (valid _); cbn [negb]; [|done].
  destruct (Do _) as [resp|] eqn:E; [|done]. destruct (records (body resp)) as [rl|] eqn:Er; [|done]. intros [= <-].
  split_and!; [done| |].
  - apply Forall_forall. intros p [Hp _]%list_elem_of_filter. done.
  - exists resp. split; [done|]. by rewrite Er.
Qed.
End ipfs.
End Ipfs.

(** ** The key-value store of the public API *)
Module KV.
Section kv.
Context (sha1 : bytes -> bytes) (valid : bytes -> bool) (Do : web) (value_data : bytes -> option bytes).
(** The DHT of libp2p-kad-dht. *)
Context {D : Type} (GetValue : D -> bytes -> option bytes) (PutValue : D -> bytes -> bytes -> option D).

(** [useJamiDHTProxy], [jamidhtproxy] (unset until the node is up), whether there is a
    [bootres], and its DHT. *)
Record store := { useJamiDHTProxy : bool; jamidhtproxy : option bytes; booted : bool; dht : option D }.

Definition with_dht (d : D) (s : store) : store :=
  {| useJamiDHTProxy := useJamiDHTProxy s; jamidhtproxy := jamidhtproxy s; booted := booted s; dht := Some d |}.

Definition dhtGetKV (key : bytes) (s : store) : res bytes :=
  match dht s with
  | None => Fail "libp2p not ready"
  | Some d => match GetValue d key with
              | None => Fail "get"
              | Some [] => Fail "not found"
              | Some v => Ok v
              end
  end.

Definition pkKey (key : bytes) : bytes := string_bytes "/pk/" ++ key.

(** [dhtPutKV]: whether the temporary DHT can be made, the sizes of its routing table
    seen before the time is up, and the error if there is one. *)
Definition dhtPutKV (makes : bool) (sizes : list Z) (key value : bytes) (s : store) : res unit * store :=
  match dht s with
  | None => (Fail "libp2p not ready", s)
  | Some d =>
      if negb makes then (Fail "create temp dht", s)
      else if negb (existsb (fun n => 3 <=? n) sizes) then (Fail "routing table too small", s)
      else match PutValue d (pkKey key) value with
      | None => (Fail "put value", s)
      | Some d' => match GetValue d' (pkKey key) with
                   | None => (Fail "verify failed", with_dht d' s)
                   | Some _ => (Ok tt, with_dht d' s)
                   end
      end
  end.

Definition dhtDelKV (key : bytes) (s : store) : res unit * store :=
  match dht s with
  | None => (Fail "libp2p not ready", s)
  | Some d => match PutValue d key [] with None => (Fail "put", s) | Some d' => (Ok tt, with_dht d' s) end
  end.

Definition PutKV (makes : bool) (sizes : list Z) (key value : bytes) (s : store) : res unit * store :=
  if useJamiDHTProxy s then
    match jamidhtproxy s with
    | None => (Panic, s)
    | Some url => (Proxy.Put sha1 valid Do url key value, s)
    end
  else if negb (booted s) then (Fail "libp2p not ready", s)
  else dhtPutKV makes sizes key value s.

Definition GetKV (key : bytes) (s : store) : res bytes :=
  if useJamiDHTProxy s then
    match jamidhtproxy s with None => Panic | Some url => Proxy.Get sha1 valid Do value_data url key end
  else if negb (booted s) then Fail "libp2p not ready"
  else dhtGetKV key s.

Definition DelKV (key : bytes) (s : store) : res unit * store :=
  if useJamiDHTProxy s then
    match jamidhtproxy s with
    | None => (Panic, s)
    | Some url => (Proxy.Put sha1 valid Do url key [], s)
    end
  else if negb (booted s) then (Fail "libp2p not ready", s)
  else dhtDelKV key s.

(** Over the proxy: a key answers with the value put last, as long as the proxy lists its
    values in the order they were put; after [DelKV] it answers with the empty value, not
    with an error; and as long as the node is not up every access panics. *)
Theorem kv_over_proxy url vs v key s resp :
  Forall (fun v => is_bytes v) (vs ++ [v]) ->
  (forall v, is_bytes v -> value_data (Proxy.putBody (b64_encode v)) = Some (b64_encode v)) ->
  useJamiDHTProxy s = true -> jamidhtproxy s = Some url -> valid (Proxy.keyUrl sha1 url key) = true ->
  Do (Proxy.getRequest sha1 url key) = Some resp -> status resp = 200 ->
  body resp = join_lines (map (fun v => Proxy.putBody (b64_encode v)) (vs ++ [v])) ->
  GetKV key s = Ok v /\
  (forall s, useJamiDHTProxy s = true -> jamidhtproxy s = None ->
     GetKV key s = Panic /\ PutKV true [] key v s = (Panic, s) /\ DelKV key s = (Panic, s)).
Proof.
  intros Hb Hd Hu Hj Hv Hdo Hs Hbody. split.
  2: { intros s' Hu' Hj'. unfold GetKV, PutKV, DelKV. by rewrite Hu', Hj'. }
  unfold GetKV, Proxy.Get. rewrite Hu, Hj. cbn [Proxy.getRequest r_url]. rewrite Hv. cbn [negb].
  change {| r_method := GET; r_url := Proxy.keyUrl sha1 url key; r_body := [] |} with (Proxy.getRequest sha1 url key).
  rewrite Hdo, Hs. cbn [Z.eqb Pos.eqb negb]. change (200 =? 404) with false. change (200 =? 200) with true. cbn [negb].
  rewrite Hbody, body_lines.
  - rewrite map_app, omap_app. apply Forall_app in Hb as [_ Hb].
    apply Forall_cons in Hb as [Hb _].
    change (omap value_data (map (fun v0 => Proxy.putBody (b64_encode v0)) [v])) with
      (match value_data (Proxy.putBody (b64_encode v)) with Some y => [y] | None => [] end).
    rewrite Hd by done. rewrite last_snoc, b64_roundtrip by done. done.
  - destruct vs; done.
  - apply Forall_map, Forall_forall. intros w _. exists ([34] ++ string_bytes "data" ++ [34; 58; 34] ++ b64_encode w ++ [34]).
    unfold Proxy.putBody. rewrite <- !app_assoc. done.
  - apply Forall_map. eapply Forall_impl; [exact Hb|]. intros w Hw. cbn beta.
    apply (one_line ([123; 34] ++ string_bytes "data" ++ [34; 58; 34]) [34; 125]); [reflexivity|reflexivity|done].
Qed.

(** Over the DHT a value is put under [/pk/] and the key, but looked up and deleted under
    the key: what was put is never found, and never deleted. *)
Theorem kv_over_dht makes sizes key value s s' :
  (forall d k v d' k', PutValue d k v = Some d' -> GetValue d' k' = if decide (k' = k) then Some v else GetValue d k') ->
  useJamiDHTProxy s = false ->
  PutKV makes sizes key value s = (Ok tt, s') ->
  GetKV key s' = GetKV key s /\
  (forall s'', DelKV key s' = (Ok tt, s'') ->
     exists d, dht s'' = Some d /\ GetValue d (pkKey key) = Some value).
Proof.
  intros Hput Hu. unfold PutKV, GetKV, DelKV, dhtPutKV, dhtGetKV, dhtDelKV. rewrite Hu.
  destruct (booted s) eqn:Eb; cbn [negb]; [|done]. destruct (dht s) as [d|] eqn:Ed; [|done].
  destruct makes; cbn [negb]; [|done]. destruct (existsb _ sizes); cbn [negb]; [|done].
  destruct (PutValue d (pkKey key) value) as [d'|] eqn:Ep; [|done].
  destruct (GetValue d' (pkKey key)) as [w|] eqn:Eg; [|done]. intros [= <-]. cbn [with_dht useJamiDHTProxy booted dht].
  assert (key <> pkKey key) as Hne. { unfold pkKey. intros E. apply (f_equal length) in E. rewrite length_app in E. cbn in E. lia. }
  rewrite Hu, Eb. cbn [negb]. split.
  - rewrite (Hput _ _ _ _ key Ep), decide_False by done. done.
  - intros s''. destruct (PutValue d' key []) as [d''|] eqn:E2; [|done]. intros [= <-]. exists d''. split; [done|].
    rewrite (Hput _ _ _ _ _ E2), decide_False by done. rewrite (Hput _ _ _ _ _ Ep), decide_True by done. done.
Qed.
End kv.
End KV.

(** ** Witnesses *)
Section witnesses.

(** A format for peers: the id, a zero byte, and no addresses. *)
Definition plain_marshal (p : FoundPeer) : bytes := 1 :: string_bytes (PeerID p).
Definition plain_unmarshal (l : bytes) : option FoundPeer :=
  match l with 1 :: r => if bool_decide (r = string_bytes "QmA") then Some {| PeerID := "QmA"; Addrs := [] |} else None | _ => None end.

(** The text between the third and the fourth quotation mark. *)
Fixpoint until_quote (l : bytes) : bytes := match l with [] => [] | c :: r => if c =? 34 then [] else c :: until_quote r end.
Fixpoint after_quotes (n : nat) (l : bytes) : bytes :=
  match l with [] => [] | c :: r => if c =? 34 then match n with O => r | S n => after_quotes n r end else after_quotes n r end.
Definition third_string (l : bytes) : option bytes := Some (until_quote (after_quotes 2 l)).

Lemma until_quote_app l r : 34 ∉ l -> until_quote (l ++ 34 :: r) = l.
Proof.
  induction l as [|c l IH]; intros Hl; [done|]. apply not_elem_of_cons in Hl as [Hc Hl]. cbn.
  destruct (Z.eqb_spec c 34); [congruence|]. by rewrite IH.
Qed.

Lemma b64_no_quote l : is_bytes l -> 34 ∉ b64_encode l.
Proof.
  assert (forall v, 0 <= v < 64 -> enc6 v <> 34) as H6 by (intros v Hv; unfold enc6; repeat case_match; lia).
  induction l as [l IH] using (induction_ltof1 _ (@length Z)). intros Hb. unfold ltof in IH.
  destruct l as [|a [|b [|c r]]]; cbn [b64_encode]; [apply not_elem_of_nil|..].
  all: repeat (apply Forall_cons in Hb as [? Hb]); unfold is_byte, pad in *.
  all: repeat (apply not_elem_of_cons; split; [first [lia | apply not_eq_sym, H6; Z.to_euclidean_division_equations; lia]|]).
  1,2: apply not_elem_of_nil. apply IH; [cbn; lia|done].
Qed.

Lemma third_postBody d : is_bytes d -> third_string (Jami.postBody (b64_encode d)) = Some (b64_encode d).
Proof. intros Hd. unfold third_string. f_equal. exact (until_quote_app (b64_encode d) _ (b64_no_quote d Hd)). Qed.
Lemma third_putBody d : is_bytes d -> third_string (Proxy.putBody (b64_encode d)) = Some (b64_encode d).
Proof. intros Hd. unfold third_string. f_equal. exact (until_quote_app (b64_encode d) _ (b64_no_quote d Hd)). Qed.

Definition peerA : FoundPeer := {| PeerID := "QmA"; Addrs := [] |}.
Definition any_url (_ : bytes) : bool := true.
Definition no_hash (k : bytes) : bytes := k.
Definition held : response := {| status := 200; body := join_lines [Jami.postBody (b64_encode (plain_marshal peerA))]; cut := false |}.
(** A network in which only the second address answers. *)
Definition second_only (r : request) : option response :=
  if bool_decide (take 3 (drop 7 (r_url r)) = string_bytes "141") then Some held else None.

(** The node A provides itself twice: over a network that reaches the second address only,
    where the value is taken, and over one that reaches a first address in trouble. *)
Definition takes (r : request) : option response :=
  if bool_decide (take 3 (drop 7 (r_url r)) = string_bytes "141") then Some {| status := 200; body := []; cut := false |} else None.
Definition trouble (_ : request) : option response := Some {| status := 502; body := []; cut := false |}.

#[local] Instance verbatim : Jami.Listed third_string (fun b => b).
Proof. split; intros d Hd; [by apply third_postBody|by apply Jami.braced_postBody|by apply Jami.postBody_lines]. Defined.


Lemma jami_failover_witness :
  (Jami.FindProviders no_hash any_url second_only plain_unmarshal third_string (string_bytes "http://dhtproxy") (string_bytes "k")).2 =
  map (fun base => {| r_method := GET; r_url := Jami.keyUrl (Jami.hashKey no_hash (string_bytes "k")) base; r_body := [] |})
    [string_bytes "http://dhtproxy"; Jami.fallbackJamiProxy].
Proof.
  rewrite (Jami.jami_failover no_hash any_url second_only plain_unmarshal third_string); reflexivity.
Defined.

Lemma search_sound_witness :
  let records (_ : bytes) := Some [peerA; {| PeerID := ""; Addrs := ["x"] |}] in
  Forall (fun p => PeerID p <> "") [peerA] /\
  Ipfs.FindPeers any_url (fun _ => Some held) records (string_bytes "u") (string_bytes "k") = Ok [peerA].
Proof.
  intros records. split; [|reflexivity].
  refine (proj1 (proj2 (Ipfs.search_sound any_url (fun _ => Some held) records (string_bytes "u") (string_bytes "/p/") (string_bytes "k") [peerA] _))).
  reflexivity.
Defined.

(** A proxy that lists the values 1, 2 and the empty one. *)
Definition lists (vs : list bytes) (r : request) : option response :=
  Some {| status := 200; body := join_lines (map (fun v => Proxy.putBody (b64_encode v)) vs); cut := false |}.
Definition over_proxy : KV.store (D := unit) :=
  {| KV.useJamiDHTProxy := true; KV.jamidhtproxy := Some (string_bytes "http://p"); KV.booted := true; KV.dht := None |}.

Lemma kv_over_proxy_witness :
  KV.GetKV no_hash any_url (lists [[1]; [2]; []]) third_string (fun _ _ => None) (string_bytes "k") over_proxy = Ok [].
Proof.
  refine (proj1 (KV.kv_over_proxy no_hash any_url (lists [[1]; [2]; []]) third_string (fun _ _ => None) (fun _ _ _ => None)
    (string_bytes "http://p") [[1]; [2]] [] (string_bytes "k") over_proxy _ _ third_putBody _ _ _ _ _ _)); try reflexivity.
  cbn [app]. repeat (apply Forall_cons; split; [bytes_lit|]). constructor.
Defined.

(** A DHT that is a map. *)
Definition over_dht : KV.store (D := gmap bytes bytes) :=
  {| KV.useJamiDHTProxy := false; KV.jamidhtproxy := None; KV.booted := true; KV.dht := Some ∅ |}.
Definition map_put (m : gmap bytes bytes) (k v : bytes) : option (gmap bytes bytes) := Some (<[k := v]> m).

Lemma kv_over_dht_witness :
  let put := KV.PutKV no_hash any_url (fun _ => None) (fun m k => m !! k) map_put true [0; 3] in
  KV.GetKV no_hash any_url (fun _ => None) third_string (fun m k => m !! k) (string_bytes "k") (put (string_bytes "k") [7] over_dht).2 =
  Fail "get".
Proof.
  intros put.
  rewrite (proj1 (KV.kv_over_dht no_hash any_url (fun _ => None) third_string (fun m k => m !! k) map_put true [0; 3]
    (string_bytes "k") [7] over_dht (put (string_bytes "k") [7] over_dht).2 ltac:(intros d k v d' k' [= <-]; destruct (decide (k' = k)) as [->|];
      [by rewrite lookup_insert_eq|by rewrite lookup_insert_ne]) eq_refl ltac:(vm_compute; reflexivity))).
  vm_compute. reflexivity.
Defined.
End witnesses.
