(* ===== verification/Discovery.v ===== *)
(** * Finding peers

    The loops that look for other nodes and connect to them: [discoveryV4], [DiscoveryV6]
    and [AdvertiseHTTP] of src/p2put/mydiscovery.go, [findAndConnect] and [myDiscoveryV3]
    of libp2p_bs_dht.go, and [Module Fixer], the [connfixer] of fixconn.go.  A loop is a
    function to the list of what it does; what the host and the network answer on the way
    is an argument. *)

From S2P Require Import Prelude GoLib HostAddrs Trackers.

(** What a loop does. *)
Inductive deed :=
  | Dial (pid : string) (addrs : list string) (ok : bool)
  | Push (pid : string)
  | Sleep (d : Z)
  | Provided (cid : string)
  | JamiProvided (cid : string)
  | OpenDirect (pid : string)
  | AskDHT (pid : string).

(** The time a loop waits by itself. *)
Definition slept (l : list deed) : Z := foldr (fun d s => match d with Sleep t => t + s | _ => s end) 0 l.
Definition dialled (l : list deed) : list string := omap (fun d => match d with Dial p _ _ => Some p | _ => None end) l.

Lemma slept_app l k : slept (l ++ k) = slept l + slept k.
Proof. induction l as [|d l IH]; [done|]. cbn [app]. unfold slept in *. cbn [foldr]. rewrite IH. destruct d; lia. Qed.
Lemma dialled_app l k : dialled (l ++ k) = dialled l ++ dialled k.
Proof. apply omap_app. Qed.

Definition advertiseInterval : Z := 50 * second.
Definition discoverInterval : Z := 60 * second.

Section loops.
Context `{Multiaddr} `{MapRange}.
(** [peer.Decode], [multiaddr.NewMultiaddr], [isBootstrapPeer], the peer id of this host. *)
Context (Decode NewMultiaddr : string -> option string) (bootstrap : string -> bool) (myID : string).

(** What the host says when the loop comes to a peer: whether it is connected, how many
    connections there are, and whether [Connect] succeeds. *)
Record seen := { s_connected : bool; s_conns : Z; s_connects : bool }.

(** The loop of [DiscoveryV6] over the answer of a tracker, from the [n]-th peer on. *)
Fixpoint v6_peers (host : nat -> seen) (n : nat) (peers : list FoundPeer) : list deed :=
  match peers with
  | [] => []
  | p :: peers =>
      if (n mod 3 =? 1)%nat then Sleep second :: v6_peers host (S n) peers
      else match Decode (PeerID p) with
      | None => v6_peers host (S n) peers
      | Some pid =>
          if String.eqb pid myID then v6_peers host (S n) peers
          else if s_connected (host n) then v6_peers host (S n) peers
          else if 20 <? s_conns (host n) then []
          else
            let maddrs := omap NewMultiaddr (Addrs p) in
            match maddrs with
            | [] => v6_peers host (S n) peers
            | _ =>
                if negb (Filters.IsGoodPeerAddr (bootstrap pid) maddrs) then v6_peers host (S n) peers
                else Dial pid maddrs (s_connects (host n)) ::
                     (if s_connects (host n) then [Push pid] else []) ++
                     Sleep (5 * second) :: v6_peers host (S n) peers
            end
      end
  end.

(** A turn of [DiscoveryV6]: what the tracker answers for a random key. *)
Definition v6_turn (ready : bool) (cid : string) (answer : res (list FoundPeer)) (host : nat -> seen) : list deed :=
  if negb ready then []
  else if String.eqb cid "" then []
  else match answer with
       | Ok peers => v6_peers host 0 peers ++ [Sleep (discoverInterval / 2)]
       | _ => []
       end.

(** How long the [i]-th turn waits before it starts. *)
Definition v6_interval (i : nat) : Z := if (i =? 0)%nat then discoverInterval / 3 else discoverInterval.

(** The loop of [discoveryV4] over the answer for one name. *)
Fixpoint v4_peers (host : nat -> seen) (n : nat) (peers : list FoundPeer) : list deed :=
  match peers with
  | [] => []
  | p :: peers =>
      match Decode (PeerID p) with
      | None => v4_peers host (S n) peers
      | Some pid =>
          if String.eqb pid myID then v4_peers host (S n) peers
          else if s_connected (host n) then v4_peers host (S n) peers
          else match omap NewMultiaddr (Addrs p) with
               | [] => v4_peers host (S n) peers
               | maddrs => Dial pid maddrs (s_connects (host n)) :: v4_peers host (S n) peers
               end
      end
  end.

(** A tick of [discoveryV4]: the two names, and what the trackers answer for each.  What
    Jami answers is not used. *)
Definition v4_tick (ready : bool) (StringToCID : string -> string) (names : list string)
    (answer jami : string -> res (list FoundPeer)) (host : string -> nat -> seen) : list deed :=
  if negb ready then []
  else concat (map (fun name =>
         let cid := StringToCID name in
         if String.eqb cid "" then []
         else v4_peers (host name) 0 (match answer cid with Ok l => l | _ => [] end)) names).

(** A tick of [AdvertiseHTTP]. *)
Definition advertise_tick (ready hasKey : bool) (StringToCID : string -> string) (hub official : string) : list deed :=
  if String.eqb (StringToCID hub) "" then []
  else
    let cids := StringToCID hub :: (if String.eqb (StringToCID official) "" then [] else [StringToCID official]) in
    if negb ready then [] else if negb hasKey then []
    else concat (map (fun cid => [Provided cid; JamiProvided cid]) cids).

(** *** The DHT *)

(** [findAndConnect]: the peers of the channel, collected by id. *)
Definition collect (m : gmap string (list string)) (p : FoundPeer) : gmap string (list string) :=
  if String.eqb (PeerID p) myID || String.eqb (PeerID p) "" then m
  else <[PeerID p := Addrs p ++ default [] (m !! PeerID p)]> m.

Definition findAndConnect (hasDiscovery : bool) (answer : option (list FoundPeer)) : list FoundPeer :=
  if negb hasDiscovery then []
  else match answer with
  | None => []
  | Some l => map (fun e : string * list string => {| PeerID := e.1; Addrs := e.2 |}) (range_map 31 (foldl collect ∅ l))
  end.

(** The loop of [myDiscoveryV3] over what was found; the addresses it takes from the peer
    store go into a copy that is dropped. *)
Definition remember (known : gmap string (list string)) (p : FoundPeer) : gmap string (list string) :=
  match Addrs p with
  | [] => match known !! PeerID p with None => <[PeerID p := []]> known | Some _ => known end
  | addrs => <[PeerID p := addrs]> known
  end.

Definition rememberAll (known : gmap string (list string)) (result : list FoundPeer) : gmap string (list string) :=
  foldl remember known result.

(** [dhtFindPeers]: the default tag and limit, and the error cases. *)
Definition dhtFindPeers (hub tag : string) (limit : Z) (discovery : option bool)
    (FindPeers : string -> Z -> option (list FoundPeer)) : res (list FoundPeer) :=
  let tag := if String.eqb tag "" then hub else tag in
  let limit := if limit <=? 0 then 5 else limit in
  match discovery with
  | None => Fail "discovery not ready"
  | Some false => Fail "discovery not initialized"
  | Some true =>
      match FindPeers tag limit with
      | None => Fail "find"
      | Some l => Ok (filter (fun p => String.eqb (PeerID p) myID || String.eqb (PeerID p) "" = false) l)
      end
  end.

(** Whom a round of [DiscoveryV6] dials: peers of the answer, at a position that is not
    one after a multiple of three, that are another node without a connection, while
    there are at most twenty connections, with a good address.  Of an answer of [n] peers
    at most two thirds, rounded up, are dialled, and the round waits at most five seconds
    for each. *)
Theorem v6_dials host peers :
  let l := v6_peers host 0 peers in
  (forall pid addrs ok, Dial pid addrs ok ∈ l ->
     exists i p, peers !! i = Some p /\ (i mod 3 <> 1)%nat /\ Decode (PeerID p) = Some pid /\ pid <> myID /\
       s_connected (host i) = false /\ s_conns (host i) <= 20 /\ addrs = omap NewMultiaddr (Addrs p) /\
       Filters.IsGoodPeerAddr (bootstrap pid) addrs = true /\ ok = s_connects (host i)) /\
  (3 * length (dialled l) <= 2 * length peers + 1)%nat /\
  slept l <= 5 * second * zlen peers.
Proof.
  cbn zeta. split; [|split].
  - enough (forall n pid addrs ok, Dial pid addrs ok ∈ v6_peers host n peers ->
      exists i p, peers !! i = Some p /\ ((n + i) mod 3 <> 1)%nat /\ Decode (PeerID p) = Some pid /\ pid <> myID /\
       s_connected (host (n + i)%nat) = false /\ s_conns (host (n + i)%nat) <= 20 /\ addrs = omap NewMultiaddr (Addrs p) /\
       Filters.IsGoodPeerAddr (bootstrap pid) addrs = true /\ ok = s_connects (host (n + i)%nat)) as Hall by exact (Hall 0%nat).
    induction peers as [|p peers IH]; intros n pid addrs ok; cbn [v6_peers]; [by intros ?%elem_of_nil|].
    assert (Dial pid addrs ok ∈ v6_peers host (S n) peers -> exists i q, (p :: peers) !! i = Some q /\ ((n + i) mod 3 <> 1)%nat /\
       Decode (PeerID q) = Some pid /\ pid <> myID /\ s_connected (host (n + i)%nat) = false /\ s_conns (host (n + i)%nat) <= 20 /\
       addrs = omap NewMultiaddr (Addrs q) /\ Filters.IsGoodPeerAddr (bootstrap pid) addrs = true /\ ok = s_connects (host (n + i)%nat)) as Hnext.
    { intros Hin. destruct (IH (S n) pid addrs ok Hin) as (i & q & Hq). exists (S i), q. rewrite Nat.add_succ_r. exact Hq. }
    destruct (Nat.eqb_spec (n mod 3) 1) as [|Hn]; [intros [?|Hin]%elem_of_cons; [done|auto]|].
    destruct (Decode (PeerID p)) as [pid'|] eqn:Ed; [|done]. destruct (String.eqb_spec pid' myID); [done|].
    destruct (s_connected (host n)) eqn:Ec; [done|]. destruct (Z.ltb_spec 20 (s_conns (host n))); [by intros ?%elem_of_nil|].
    destruct (omap NewMultiaddr (Addrs p)) as [|x xs] eqn:Ea; [done|].
    destruct (Filters.IsGoodPeerAddr (bootstrap pid') (x :: xs)) eqn:Eg; cbn [negb]; [|done].
    intros [[= -> -> ->]|Hin]%elem_of_cons.
    + exists 0%nat, p. rewrite Nat.add_0_r, Ea. done.
    + apply Hnext. destruct (s_connects (host n)); cbn [app] in Hin; repeat (apply elem_of_cons in Hin as [?|Hin]; [done|]); done.
  - enough (forall n, (3 * length (dialled (v6_peers host n peers)) <=
      2 * length peers + (if n mod 3 =? 0 then 1 else if n mod 3 =? 1 then 0 else 2))%nat) as Hall by exact (Hall 0%nat).
    induction peers as [|p peers IH]; intros n; cbn [v6_peers length]; [cbn; lia|]. specialize (IH (S n)).
    assert (S n mod 3 = if n mod 3 =? 2 then 0 else S (n mod 3))%nat as Em.
    { pose proof (Nat.div_mod_eq n 3). pose proof (Nat.div_mod_eq (S n) 3).
      pose proof (Nat.mod_upper_bound n 3). pose proof (Nat.mod_upper_bound (S n) 3). destruct (Nat.eqb_spec (n mod 3) 2); lia. }
    rewrite Em in IH. pose proof (Nat.mod_upper_bound n 3 ltac:(lia)) as Hb. clear Em.
    destruct (n mod 3)%nat as [|[|[|k]]] eqn:En; cbn [Nat.eqb] in *; [| | |lia].
    all: repeat case_match; subst; try (cbn [dialled omap list_omap length] in *; lia);
      rewrite ?dialled_app; cbn [app dialled omap list_omap length] in *; unfold dialled in *; cbn [omap list_omap length app] in *; lia.
  - generalize 0%nat. induction peers as [|p peers IH]; intros n; cbn [v6_peers]; [unfold zlen, slept, second; cbn; lia|]. specialize (IH (S n)).
    rewrite zlen_cons. unfold second in *. pose proof (zlen_nonneg peers).
    repeat case_match; subst; cbn [slept foldr app] in *; try lia; unfold slept in *; cbn [foldr app] in *; lia.
Qed.

(** [findAndConnect] reports every peer the channel gave once, without this host, and with
    the addresses of all its occurrences. *)
Theorem findAndConnect_spec l :
  let found := findAndConnect true (Some l) in
  NoDup (map PeerID found) /\
  (forall pid, pid ∈ map PeerID found <-> pid ∈ map PeerID l /\ pid <> myID /\ pid <> "") /\
  (forall f a, f ∈ found -> (a ∈ Addrs f <-> exists p, p ∈ l /\ PeerID p = PeerID f /\ a ∈ Addrs p)).
Proof.
  cbn zeta. unfold findAndConnect. cbn [negb].
  assert (forall m pid, let m' := foldl collect m l in
    (is_Some (m' !! pid) <-> is_Some (m !! pid) \/ pid ∈ map PeerID l /\ pid <> myID /\ pid <> "") /\
    (pid <> myID -> pid <> "" -> forall a, a ∈ default [] (m' !! pid) <->
       a ∈ default [] (m !! pid) \/ exists p, p ∈ l /\ PeerID p = pid /\ a ∈ Addrs p)) as Hm.
  { induction l as [|p l IH]; intros m pid; cbn [foldl map].
    - split; [|intros _ _ a]; set_solver.
    - destruct (IH (collect m p) pid) as [H1 H2]. unfold collect in H1, H2 |- *.
      destruct (String.eqb_spec (PeerID p) myID) as [Es|Es]; cbn [orb] in *.
      { split; [rewrite H1; set_solver|]. intros Hs He a. rewrite (H2 Hs He). set_solver. }
      destruct (String.eqb_spec (PeerID p) "") as [Ee|Ee].
      { split; [rewrite H1; set_solver|]. intros Hs He a. rewrite (H2 Hs He). set_solver. }
      destruct (decide (PeerID p = pid)) as [<-|Hne].
      + rewrite lookup_insert_eq in *. split; [rewrite H1; split; [intros _; right; set_solver|intros _; left; eauto]|].
        intros Hs He a. rewrite (H2 Hs He). cbn [from_option id]. rewrite elem_of_app. set_solver.
      + rewrite lookup_insert_ne in * by done. split; [rewrite H1; set_solver|]. intros Hs He a. rewrite (H2 Hs He). set_solver. }
  set (m := foldl collect ∅ l) in *.
  assert (map PeerID (map (fun e : string * list string => {| PeerID := e.1; Addrs := e.2 |}) (range_map 31 m)) = (range_map 31 m).*1) as Eids
    by (rewrite map_map; done).
  rewrite Eids. split; [apply NoDup_range_keys|]. split.
  - intros pid. destruct (Hm ∅ pid) as [H1 _]. fold m in H1. rewrite lookup_empty in H1.
    transitivity (is_Some (m !! pid)); [|rewrite H1; split; [intros [[? ?]|?]; done|auto]].
    rewrite list_elem_of_fmap. split; [intros ([k v] & -> & Hk%elem_of_range); eauto|].
    intros [v Hv]. exists (pid, v). split; [done|]. by apply elem_of_range.
  - intros f a ([pid addrs] & -> & Hin)%list_elem_of_fmap. cbn [PeerID Addrs fst snd]. apply elem_of_range in Hin.
    destruct (Hm ∅ pid) as [H1 H2]. fold m in H1, H2. rewrite lookup_empty in H1, H2.
    destruct H1 as [H1 _]. destruct H1 as [[? ?]|(_ & Hs & He)]; [by rewrite Hin|done|].
    specialize (H2 Hs He a). rewrite Hin in H2. cbn in H2. rewrite H2. set_solver.
Qed.

(** What is known of a peer is never lost: a peer stays known, and one with addresses
    keeps having some, the last that were found. *)
Theorem known_grows known result pid :
  (is_Some (known !! pid) -> is_Some (rememberAll known result !! pid)) /\
  (forall addrs, known !! pid = Some addrs -> addrs <> [] ->
     (forall p, p ∈ result -> PeerID p = pid -> Addrs p = []) -> rememberAll known result !! pid = Some addrs) /\
  (pid ∈ map PeerID result -> is_Some (rememberAll known result !! pid)).
Proof.
  unfold rememberAll. revert known. induction result as [|p result IH]; intros known; cbn [foldl map].
  - split_and!; [done|done|]. by intros ?%elem_of_nil.
  - destruct (IH (remember known p)) as (H1 & H2 & H3).
    assert (is_Some (known !! pid) \/ PeerID p = pid -> is_Some (remember known p !! pid)) as Hk.
    { unfold remember. destruct (decide (PeerID p = pid)) as [->|Hne].
      - intros _. destruct (Addrs p); [|rewrite lookup_insert_eq; eauto].
        destruct (known !! pid) eqn:E; [rewrite E; eauto|]. rewrite lookup_insert_eq. eauto.
      - intros [Hs|?]; [|done]. repeat case_match; rewrite ?lookup_insert_ne by done; done. }
    split_and!; [auto| |].
    + intros addrs Hs Hne Hall. apply H2; [|done|intros q Hq; apply Hall; set_solver].
      unfold remember. destruct (decide (PeerID p = pid)) as [Ep|Hn].
      * rewrite (Hall p) by (done || apply list_elem_of_here). by rewrite Ep, Hs.
      * repeat case_match; rewrite ?lookup_insert_ne by done; done.
    + intros [->|Hin]%elem_of_cons; [apply H1, Hk; auto|auto].
Qed.
End loops.

(** ** Fixing the connections to what is known *)
Module Fixer.
Section fixer.
Context `{MapRange}.
(** The peers known, with their addresses; how long [dofix] may go on; [IsMobile]. *)
Context (known : gmap string (list string)) (maxdur : Z) (mobile : bool).

(** [tryConnect]: whether the peer is connected already, and whether [Connect] succeeds. *)
Definition tryConnect (pid : string) (addrs : list string) (connected connects : bool) : list deed * bool :=
  if connected then ([], true) else ([Sleep (3 * second); Dial pid addrs connects], connects).

(** What happens at one draw of a key: the random number; whether the peer is in a topic
    or has an outbound connection; the first [tryConnect]; whether the connection then
    found is relayed; what the DHT answers, and the [tryConnect] of that. *)
Record draw := {
  d_random : Z; d_skip : string -> bool; d_connected : bool; d_connects : bool; d_relayed : bool;
  d_found : option (list string); d_connected' : bool; d_connects' : bool
}.

(** The body of the loop over the keys, once a key is not skipped. *)
Definition fixPeer (d : draw) (pid : string) : list deed :=
  let '(l, ok) := tryConnect pid (default [] (known !! pid)) (d_connected d) (d_connects d) in
  if ok then l ++ (if d_relayed d then [OpenDirect pid] else [])
  else l ++ OpenDirect pid ::
       (if mobile then []
        else Sleep second :: AskDHT pid ::
             match d_found d with
             | None => []
             | Some addrs => (tryConnect pid addrs (d_connected' d) (d_connects' d)).1
             end).

(** The loop over the keys: [n] draws are left. *)
Fixpoint fixKeys (keys : list string) (draws : nat -> draw) (n : nat) : list deed :=
  match n with
  | O => []
  | S n =>
      let d := draws n in
      match keys !! Z.to_nat (Z.rem (d_random d) (zlen keys)) with
      | None => []
      | Some key => if d_skip d key then fixKeys keys draws n else fixPeer d key
      end
  end.

(** [rand.Uint32()/2]. *)
Definition random_ok (d : draw) : Prop := 0 <= d_random d < 2 ^ 31.

(** The rounds of [dofix] from the [j]-th on, [elapsed] after its start; a round lasts
    longer than it sleeps by [extra].  [None]: the fuel did not suffice. *)
Fixpoint dofix (fuel : nat) (j : nat) (elapsed : Z) (draws : nat -> nat -> draw) (extra : nat -> Z) : option (list deed) :=
  match fuel with
  | O => None
  | S fuel =>
      if maxdur <? elapsed then Some []
      else
        let keys := (range_map 32 known).*1 in
        let l := Sleep (3 * second) :: fixKeys keys (draws j) (length keys) ++ [Sleep (13 * second)] in
        rest ← dofix fuel (S j) (elapsed + slept l + extra j) draws extra;
        Some (l ++ rest)
  end.

Lemma fixPeer_spec d pid x :
  x ∈ fixPeer d pid ->
  match x with Dial q _ _ | OpenDirect q | AskDHT q => q = pid | Sleep t => 0 < t | _ => False end.
Proof.
  unfold fixPeer, tryConnect, second. intros Hx. repeat case_match; simplify_eq; cbn [app] in *; set_unfold; naive_solver lia.
Qed.

Lemma dialled_fixPeer d pid : (length (dialled (fixPeer d pid)) <= 2)%nat.
Proof. unfold fixPeer, tryConnect. repeat case_match; simplify_eq; cbn; lia. Qed.

(** A draw always hits a key; what is fixed is one known peer that was not skipped. *)
Lemma fixKeys_spec keys draws n :
  (forall i, random_ok (draws i)) -> keys <> [] ->
  fixKeys keys draws n = [] \/
  exists i key, (i < n)%nat /\ key ∈ keys /\ d_skip (draws i) key = false /\ fixKeys keys draws n = fixPeer (draws i) key.
Proof.
  intros Hr Hk. induction n as [|n IH]; [by left|]. cbn [fixKeys].
  assert (0 < zlen keys) as Hl by (destruct keys; [done|rewrite zlen_cons; pose proof (zlen_nonneg keys); lia]).
  destruct (Hr n) as [H0 _].
  assert (Z.to_nat (Z.rem (d_random (draws n)) (zlen keys)) < length keys)%nat as Hi.
  { pose proof (Z.rem_bound_pos (d_random (draws n)) (zlen keys) H0 Hl). unfold zlen in *. lia. }
  destruct (lookup_lt_is_Some_2 keys _ Hi) as [key E]. rewrite E.
  destruct (d_skip (draws n) key) eqn:Es.
  - destruct IH as [->|(i & k & H1 & H2 & H3 & ->)]; [by left|]. right. exists i, k. split_and!; try done. lia.
  - right. exists n, key. split_and!; try done; [lia|]. by eapply list_elem_of_lookup_2.
Qed.

Lemma slept_nonneg l : (forall t, Sleep t ∈ l -> 0 <= t) -> 0 <= slept l.
Proof.
  induction l as [|d l IH]; intros Hl; [done|]. assert (0 <= slept l) as Hs by (apply IH; intros t Ht; apply Hl; set_solver).
  unfold slept in *. cbn [foldr]. destruct d as [| |t| | | |]; try done. assert (0 <= t) by (apply Hl, list_elem_of_here). lia.
Qed.

Lemma fixKeys_facts keys draws n :
  (forall i, random_ok (draws i)) ->
  (forall t, Sleep t ∈ fixKeys keys draws n -> 0 <= t) /\
  (forall pid addrs ok, Dial pid addrs ok ∈ fixKeys keys draws n -> pid ∈ keys /\ exists k, d_skip (draws k) pid = false) /\
  (length (dialled (fixKeys keys draws n)) <= 2)%nat.
Proof.
  intros Hr.
  assert (fixKeys keys draws n = [] \/ exists i key, key ∈ keys /\ d_skip (draws i) key = false /\ fixKeys keys draws n = fixPeer (draws i) key)
    as [->|(k & key & Hin & Hs & ->)].
  { destruct keys as [|k0 keys]; [left; by destruct n|].
    destruct (fixKeys_spec (k0 :: keys) draws n Hr ltac:(done)) as [->|(k & key & _ & ? & ? & ->)]; eauto 10. }
  - split_and!; [by intros ? ?%elem_of_nil|by intros ? ? ? ?%elem_of_nil|cbn; lia].
  - split_and!; [intros t Ht; apply fixPeer_spec in Ht; lia|intros pid addrs ok Hd; apply fixPeer_spec in Hd; subst; eauto|apply dialled_fixPeer].
Qed.

Lemma dofix_rounds draws extra :
  (forall i k, random_ok (draws i k)) -> (forall i, 0 <= extra i) ->
  forall fuel j elapsed, 0 <= elapsed -> (0 < fuel)%nat -> maxdur / (16 * second) + 2 <= Z.of_nat fuel + elapsed / (16 * second) ->
  exists l, dofix fuel j elapsed draws extra = Some l /\
    (forall pid addrs ok, Dial pid addrs ok ∈ l -> is_Some (known !! pid) /\ exists i k, d_skip (draws i k) pid = false) /\
    Z.of_nat (length (dialled l)) <= 2 * Z.max 0 (maxdur / (16 * second) + 1 - elapsed / (16 * second)).
Proof.
  intros Hr He fuel. induction fuel as [|fuel IH]; intros j elapsed H0 Hpos Hf; [lia|]. cbn [dofix].
  destruct (Z.ltb_spec maxdur elapsed).
  { exists []. split_and!; [done|by intros ? ? ? ?%elem_of_nil|cbn; lia]. }
  set (keys := (range_map 32 known).*1). set (inner := fixKeys keys (draws j) (length keys)).
  set (l := Sleep (3 * second) :: inner ++ [Sleep (13 * second)]).
  destruct (fixKeys_facts keys (draws j) (length keys) (Hr j)) as (F1 & F2 & F3). fold inner in F1, F2, F3.
  assert (16 * second <= slept l) as Hs.
  { unfold l. change (Sleep (3 * second) :: inner ++ [Sleep (13 * second)]) with ([Sleep (3 * second)] ++ inner ++ [Sleep (13 * second)]).
    rewrite !slept_app. pose proof (slept_nonneg inner F1). unfold slept in *. cbn [foldr]. unfold second. lia. }
  assert (elapsed / (16 * second) + 1 <= (elapsed + slept l + extra j) / (16 * second)) as Hq.
  { specialize (He j). transitivity ((elapsed + 1 * (16 * second)) / (16 * second)).
    - rewrite Z.div_add by (unfold second; lia). lia.
    - apply Z.div_le_mono; [unfold second; lia|lia]. }
  assert (elapsed / (16 * second) <= maxdur / (16 * second)) as Hle by (apply Z.div_le_mono; [unfold second; lia|lia]).
  destruct (IH (S j) (elapsed + slept l + extra j)) as (rest & -> & R2 & R3); [specialize (He j); unfold second in *; lia|lia|lia|].
  exists (l ++ rest). split_and!; [done| |].
  - intros pid addrs ok [Hin|Hin]%elem_of_app; [|by eapply R2].
    apply elem_of_cons in Hin as [?|Hin]; [done|]. apply elem_of_app in Hin as [Hin|?%list_elem_of_singleton]; [|done].
    destruct (F2 _ _ _ Hin) as [Hk [k Hsk]]. split; [|eauto].
    apply list_elem_of_fmap in Hk as ([p v] & -> & Hk%elem_of_range). eauto.
  - assert (length (dialled l) = length (dialled inner)) as El.
    { unfold l. rewrite app_comm_cons, dialled_app, length_app. change (dialled [Sleep (13 * second)]) with (@nil string).
      change (dialled (Sleep (3 * second) :: inner)) with (dialled inner). cbn [length]. lia. }
    rewrite dialled_app, length_app, El. lia.
Qed.

(** [dofix] ends: every round takes at least sixteen seconds, so that [maxdur / 16s + 2]
    turns of its loop are enough.  What it dials are known peers that were neither in a
    topic nor connected outbound when they were drawn, at most two dials in a round. *)
Theorem dofix_ends draws extra fuel :
  (forall i k, random_ok (draws i k)) -> (forall i, 0 <= extra i) -> 0 <= maxdur ->
  maxdur / (16 * second) + 2 <= Z.of_nat fuel ->
  exists l, dofix fuel 0 (3 * second) draws extra = Some l /\
    (forall pid addrs ok, Dial pid addrs ok ∈ l -> is_Some (known !! pid) /\ exists i k, d_skip (draws i k) pid = false) /\
    Z.of_nat (length (dialled l)) <= 2 * (maxdur / (16 * second) + 1).
Proof.
  intros Hr He Hm Hf. assert (3 * second / (16 * second) = 0) as Hz by reflexivity.
  assert (0 <= maxdur / (16 * second)) by (apply Z.div_pos; unfold second; lia).
  destruct (dofix_rounds draws extra Hr He fuel 0 (3 * second)) as (l & H1 & H2 & H3); [unfold second; lia|lia|lia|].
  exists l. split_and!; [done..|]. lia.
Qed.
End fixer.
End Fixer.

(** ** Witnesses *)
Section witnesses.
#[local] Instance disc_range : MapRange := map_to_list_range.
#[local] Instance disc_addrs : Multiaddr :=
  {| protocols _ := ["ip4"; "tcp"]; value_ip _ p := if String.eqb p "ip4" then Some [9; 9; 9; 9] else None |}.

Definition found3 : list FoundPeer :=
  map (fun p => {| PeerID := p; Addrs := ["/ip4/9.9.9.9/tcp/4001"] |}) ["A"; "B"; "C"].

Lemma v6_dials_witness :
  let l := v6_peers Some Some (fun _ => false) "me" (fun _ => {| s_connected := false; s_conns := 3; s_connects := true |}) 0 found3 in
  dialled l = ["A"; "C"] /\ slept l <= 5 * second * zlen found3.
Proof.
  intros l. split; [reflexivity|].
  apply (v6_dials Some Some (fun _ => false) "me" (fun _ => {| s_connected := false; s_conns := 3; s_connects := true |}) found3).
Defined.

Definition all_random : Fixer.draw :=
  {| Fixer.d_random := 7; Fixer.d_skip _ := false; Fixer.d_connected := false; Fixer.d_connects := false; Fixer.d_relayed := false;
     Fixer.d_found := None; Fixer.d_connected' := false; Fixer.d_connects' := false |}.

Lemma dofix_ends_witness :
  exists l, Fixer.dofix {["A" := ["/ip4/9.9.9.9/tcp/4001"]]} (120 * second) false 9 0 (3 * second) (fun _ _ => all_random) (fun _ => 0) = Some l /\
    Z.of_nat (length (dialled l)) <= 16.
Proof.
  destruct (Fixer.dofix_ends {["A" := ["/ip4/9.9.9.9/tcp/4001"]]} (120 * second) false (fun _ _ => all_random) (fun _ => 0) 9)
    as (l & H1 & _ & H3).
  - intros i k. unfold Fixer.random_ok. cbn. lia.
  - intros i. lia.
  - unfold second. lia.
  - vm_compute. discriminate.
  - exists l. split; [exact H1|]. exact H3.
Defined.
End witnesses.
