(* ===== verification/RestApi.v ===== *)
(** * The public API

    [Module Rest]: the handlers of src/p2put/restapi.go over the key-value store and over
    publishing; [Module Listing]: what the API tells about topics, connections, relays and
    peers (utapi.go, [CollectTopics] of pso_pubsub.go and pso_nopubsub.go, which are the
    same); [Module Callbacks]: the callbacks for events of utapi.go. *)

From S2P Require Import Prelude GoLib GoNet HostAddrs PubSub Gossip Trackers.

(** ** Requests *)
Module Rest.

(** What a handler answers; [Aborted]: it panicked, and the server closes the connection. *)
Inductive reply := Success | Value (v : bytes) | Error (code : Z) | Aborted.

Definition answer {A} (code : Z) (ok : A -> reply) (r : res A) : reply :=
  match r with Ok a => ok a | Fail _ => Error code | Panic => Aborted end.

Section kv.
Context {S : Type} (GetKV : bytes -> S -> res bytes) (PutKV : bytes -> bytes -> S -> res unit * S) (DelKV : bytes -> S -> res unit * S).

(** [onKV]; the body of a [POST], if it can be read. *)
Definition onKV (meth op : string) (key : bytes) (reads : option bytes) (s : S) : reply * S :=
  match key with
  | [] => (Error 400, s)
  | _ =>
      if String.eqb meth "GET" then
        if String.eqb op "get" then (answer 404 Value (GetKV key s), s)
        else if String.eqb op "delete" then let '(r, s) := DelKV key s in (answer 500 (fun _ => Success) r, s)
        else (Error 400, s)
      else if String.eqb meth "POST" then
        if negb (String.eqb op "put") then (Error 400, s)
        else match reads with
             | None => (Error 500, s)
             | Some v => let '(r, s) := PutKV key v s in (answer 500 (fun _ => Success) r, s)
             end
      else (Error 405, s)
  end.
End kv.

Section send.
Context `{PubSubLib}.

(** [onSend]: the body is read up to one byte more than may be published. *)
Definition onSend (meth topic : string) (reads : option bytes) (publishes : bytes -> nat -> bool) (peers : list string)
    (s : Topics.node) : reply * Topics.node :=
  if String.eqb topic "" then (Error 400, s)
  else if negb (String.eqb meth "POST") then (Error 405, s)
  else match reads with
  | None => (Error 413, s)
  | Some body =>
      let data := take (Z.to_nat (maxPublishSize + 1)) body in
      let '(e, s) := Topics.PublishTopic topic data (publishes data) peers s in
      (match e with None => Success | Some _ => Error 500 end, s)
  end.

(** [onUnsub], given what [UnsubscribeTopic] returned. *)
Definition onUnsub (topic : string) (unsubscribed : bool) : reply :=
  if String.eqb topic "" then Error 400 else if unsubscribed then Success else Error 404.

(** A request to send succeeds only if its whole body was published: a longer one is
    refused, not cut. *)
Theorem send_whole meth topic body publishes peers s s' :
  onSend meth topic (Some body) publishes peers s = (Success, s') ->
  zlen body <= maxPublishSize /\ peers <> [] /\
  exists h s1, Topics.getTopic topic s = (Topics.Got h, s1) /\ s' = s1 /\ publishes body h = true.
Proof.
  unfold onSend. destruct (String.eqb topic ""); [done|]. destruct (negb _); [done|].
  set (data := take _ body). unfold Topics.PublishTopic.
  destruct (Topics.getTopic topic s) as [c s1] eqn:Eg. destruct c; try (intros ?; simplify_eq; done).
  destruct (Z.ltb_spec maxPublishSize (zlen data)) as [Hl|Hl]; [done|].
  assert (zlen body <= maxPublishSize) as Hb.
  { unfold data, zlen in *. rewrite length_take in Hl. unfold maxPublishSize in *. lia. }
  assert (data = body) as ->. { apply take_ge. unfold zlen, maxPublishSize in *. lia. }
  destruct (publishes body h) eqn:Ep; cbn [negb]; [|done]. destruct peers as [|p peers]; [done|].
  intros [= <-]. split_and!; [done..|]. exists h, s1. done.
Qed.
End send.
End Rest.

(** ** Listings *)
Module Listing.

Record TopicEntry := { Topic : string; Peers : list string; Subscribed : bool; IsTag : bool }.

Definition newEntry (t : string) : TopicEntry := {| Topic := t; Peers := []; Subscribed := false; IsTag := false |}.
Definition subscribe (peers : list string) (e : TopicEntry) : TopicEntry :=
  {| Topic := Topic e; Peers := Peers e ++ peers; Subscribed := true; IsTag := IsTag e |}.
Definition tag (e : TopicEntry) : TopicEntry :=
  {| Topic := Topic e; Peers := Peers e; Subscribed := Subscribed e; IsTag := true |}.

(** The order of Go on strings. *)
Lemma str_compare_trans a : forall b c, String.compare a b = Lt -> String.compare b c = Lt -> String.compare a c = Lt.
Proof.
  induction a as [|x a IH]; intros [|y b] [|z c]; try done. cbn. unfold Ascii.compare.
  destruct (N.compare_spec (Ascii.N_of_ascii x) (Ascii.N_of_ascii y)) as [E1|L1|]; [| |done];
    destruct (N.compare_spec (Ascii.N_of_ascii y) (Ascii.N_of_ascii z)) as [E2|L2|]; try done;
    destruct (N.compare_spec (Ascii.N_of_ascii x) (Ascii.N_of_ascii z)); try lia; try done. apply IH.
Qed.

Lemma strict_weak_string {A} (key : A -> string) : strict_weak (fun _ => True) (fun a b => String.ltb (key a) (key b)).
Proof.
  assert (forall a b, String.ltb a b = true <-> String.compare a b = Lt) as Hlt.
  { intros a b. unfold String.ltb. by destruct (String.compare a b). }
  assert (forall a, String.compare a a = Eq) as Hrefl.
  { intros a. pose proof (String.compare_antisym a a). by destruct (String.compare a a). }
  split.
  - intros a _. unfold String.ltb. by rewrite Hrefl.
  - intros a b c _ _ _. rewrite !Hlt. apply str_compare_trans.
  - intros a b c _ _ _ H1 H2. apply not_true_iff_false. rewrite Hlt. intros H3.
    apply not_true_iff_false in H1, H2. rewrite Hlt in H1, H2.
    destruct (String.compare (key a) (key b)) eqn:E.
    + apply String.compare_eq_iff in E. rewrite E in H3. done.
    + apply H2. by eapply str_compare_trans.
    + apply H1. rewrite String.compare_antisym, E. done.
Qed.

Section listing.
Context `{MapRange} `{GoSort}.
Abbreviation entries := (gmap string TopicEntry).

Definition entry (m : entries) (t : string) : TopicEntry := default (newEntry t) (m !! t).

(** [CollectTopics]: the topics of the library, those subscribed to with their peers, and
    the tags. *)
Definition CollectTopics (joined : list string) (subscribed : gmap string (list string)) (tags : gmap string ()) : list TopicEntry :=
  let m := foldl (fun m t => <[t := newEntry t]> m) ∅ joined in
  let m := foldl (fun m (e : string * list string) => <[e.1 := subscribe e.2 (entry m e.1)]> m) m (range_map 33 subscribed) in
  let m := foldl (fun m (e : string * ()) => <[e.1 := tag (entry m e.1)]> m) m (range_map 34 tags) in
  sort_slice (fun a b => String.ltb (Topic a) (Topic b)) (range_map 35 m).*2.

Lemma fold_joined l t : forall m : entries,
  foldl (fun m t => <[t := newEntry t]> m) m l !! t = if decide (t ∈ l) then Some (newEntry t) else m !! t.
Proof.
  induction l as [|x l IH]; intros m; cbn [foldl]; [by rewrite decide_False by apply not_elem_of_nil|]. rewrite IH.
  destruct (decide (t ∈ l)); [by rewrite decide_True by (apply elem_of_cons; auto)|].
  destruct (decide (t = x)) as [->|Hne].
  - rewrite lookup_insert_eq, decide_True by apply list_elem_of_here. done.
  - rewrite lookup_insert_ne, decide_False by (done || rewrite elem_of_cons; tauto). done.
Qed.

(** An update per key of a list without repetitions. *)
Lemma fold_update {V} (f : V -> TopicEntry -> TopicEntry) (l : list (string * V)) t :
  NoDup l.*1 -> forall m : entries,
  foldl (fun m (e : string * V) => <[e.1 := f e.2 (entry m e.1)]> m) m l !! t =
    match list_find (fun e => e.1 = t) l with Some (_, (_, v)) => Some (f v (entry m t)) | None => m !! t end.
Proof.
  induction l as [|[k v] l IH]; intros Hn m; [done|]. cbn [fmap list_fmap fst] in Hn. apply NoDup_cons in Hn as [Hk Hn].
  cbn [foldl list_find fst snd]. rewrite (IH Hn). destruct (decide (k = t)) as [->|Hne].
  - assert (list_find (fun e : string * V => e.1 = t) l = None) as ->.
    { apply list_find_None, Forall_forall. intros [k' v'] Hin <-. apply Hk. by apply (list_elem_of_fmap_2 fst _ (k', v')). }
    by rewrite lookup_insert_eq.
  - unfold entry. rewrite lookup_insert_ne by done. destruct (list_find (fun e : string * V => e.1 = t) l) as [[i [k' v']]|]; done.
Qed.

Lemma find_range {V} site (m : gmap string V) t :
  list_find (fun e => e.1 = t) (range_map site m) = None /\ m !! t = None \/
  exists i v, list_find (fun e => e.1 = t) (range_map site m) = Some (i, (t, v)) /\ m !! t = Some v.
Proof.
  destruct (list_find (fun e => e.1 = t) (range_map site m)) as [[i [k v]]|] eqn:E.
  - right. apply list_find_Some in E as (Hi & Hk & _). cbn in Hk. subst k. exists i, v. split; [done|].
    apply (elem_of_range site). by eapply list_elem_of_lookup_2.
  - left. split; [done|]. apply list_find_None in E. destruct (m !! t) as [v|] eqn:Em; [|done]. exfalso.
    apply (elem_of_range site) in Em. rewrite Forall_forall in E. by apply (E (t, v)).
Qed.

(** The topics of the API: each once, in order; a topic is listed if it is joined,
    subscribed to or a tag, with the peers of its subscription. *)
Theorem collectTopics_spec joined subscribed tags :
  let out := CollectTopics joined subscribed tags in
  Sorted.StronglySorted (fun a b => String.ltb (Topic b) (Topic a) = false) out /\
  NoDup (map Topic out) /\
  forall e, e ∈ out <->
    (Topic e ∈ joined \/ is_Some (subscribed !! Topic e) \/ is_Some (tags !! Topic e)) /\
    Peers e = default [] (subscribed !! Topic e) /\
    Subscribed e = bool_decide (is_Some (subscribed !! Topic e)) /\ IsTag e = bool_decide (is_Some (tags !! Topic e)).
Proof.
  unfold CollectTopics.
  set (m1 := foldl (fun m t => <[t := newEntry t]> m) ∅ joined).
  set (m2 := foldl _ m1 (range_map 33 subscribed)). set (m3 := foldl _ m2 (range_map 34 tags)). cbn zeta.
  assert (forall t, m3 !! t = if decide (t ∈ joined \/ is_Some (subscribed !! t) \/ is_Some (tags !! t))
    then Some {| Topic := t; Peers := default [] (subscribed !! t); Subscribed := bool_decide (is_Some (subscribed !! t));
                 IsTag := bool_decide (is_Some (tags !! t)) |} else None) as Hm3.
  { intros t.
    assert (m1 !! t = if decide (t ∈ joined) then Some (newEntry t) else None) as H1 by (unfold m1; by rewrite fold_joined, lookup_empty).
    pose proof (fold_update subscribe (range_map 33 subscribed) t (NoDup_range_keys 33 subscribed) m1) as H2. fold m2 in H2.
    pose proof (fold_update (fun _ => tag) (range_map 34 tags) t (NoDup_range_keys 34 tags) m2) as H3. cbn beta in H3. fold m3 in H3.
    rewrite H3. unfold entry in *.
    destruct (find_range 34 tags t) as [[-> Et]|(i & [] & -> & Et)], (find_range 33 subscribed t) as [[F2 Es]|(k & v & F2 & Es)];
      rewrite F2 in H2; rewrite H2, Et, Es, ?H1; destruct (decide (t ∈ joined));
      (destruct (decide _) as [Hd|Hd]; [|try (exfalso; apply Hd; eauto; fail)]); try done;
      try (exfalso; destruct Hd as [?|[[? ?]|[? ?]]]; done). }
  split; [apply (sort_slice_sorted (fun _ => True)); [apply strict_weak_string|by apply Forall_forall]|].
  assert (map Topic (range_map 35 m3).*2 = (range_map 35 m3).*1) as Ek.
  { assert (forall k e, (k, e) ∈ range_map 35 m3 -> Topic e = k) as Hk.
    { intros k e Hin%elem_of_range. rewrite Hm3 in Hin. destruct (decide _); by simplify_eq. }
    induction (range_map 35 m3) as [|[k e] l IH]; [done|]. cbn. f_equal; [apply Hk, list_elem_of_here|].
    apply IH. intros k' e' Hin. apply Hk. by apply list_elem_of_further. }
  split.
  - rewrite (sort_slice_perm (fun a b => String.ltb (Topic a) (Topic b)) (range_map 35 m3).*2). rewrite Ek. apply NoDup_range_keys.
  - intros e. rewrite elem_of_sort_slice, list_elem_of_fmap. split.
    + intros ([k e'] & -> & Hin%elem_of_range). cbn. rewrite Hm3 in Hin. destruct (decide _); simplify_eq. done.
    + intros (Hd & Hp & Hs & Ht). exists (Topic e, e). split; [done|]. apply elem_of_range. rewrite Hm3, decide_True by done.
      destruct e as [t p s g]. cbn in *. congruence.
Qed.
End listing.
End Listing.

(** ** Peers and connections *)
Module Peers.
Section peers.
Context `{Multiaddr}.
(** [peer.Decode] and [isBootstrapPeer]. *)
Context (Decode : string -> option string) (isBootstrapPeer : string -> bool).

(** A connection of the host. *)
Record conn := { c_peer : string; c_addr : string; c_inbound : bool; c_limited : bool; c_streams : Z }.

(** What an API function is given for a peer. *)
Inductive any := APeer (p : string) | AString (s : string) | AOther.
Definition toPeerID (v : any) : option string :=
  match v with APeer p => Some p | AString s => Decode s | AOther => None end.

Definition IsPeerConnected (pid : any) (out hasHost : bool) (conns : list conn) : bool :=
  match toPeerID pid with
  | None => false
  | Some p => hasHost && existsb (fun c => String.eqb (c_peer c) p && (out && negb (c_inbound c))) conns
  end.

Definition IsPeerInStore (pid : any) (hasHost : bool) (stored : list string) : bool :=
  match toPeerID pid with None => false | Some p => hasHost && existsb (fun q => String.eqb q p) stored end.

(** [IsPeerInAnyTopic], given the peers of every topic. *)
Definition IsPeerInAnyTopic (pid : any) (ready : bool) (topics : list (list string)) : bool :=
  match toPeerID pid with None => false | Some p => ready && existsb (fun l => existsb (fun q => String.eqb q p) l) topics end.

Record ConnResp := {
  PeerID : string; Addr : string; Outbound : bool; IsRelay : bool; RelayPeer : option string; DirectAddrs : option (list string)
}.

(** [CollectConns]; [relay] is [extractRelayPeerID], [stored] the addresses of the peer store. *)
Definition CollectConns (hasHost : bool) (relay : string -> option string) (stored : string -> list string) (conns : list conn)
    : res (list ConnResp) :=
  if negb hasHost then Fail "libp2p not ready"
  else Ok (map (fun c =>
    {| PeerID := c_peer c; Addr := c_addr c; Outbound := negb (c_inbound c); IsRelay := c_limited c;
       RelayPeer := if c_limited c then relay (c_addr c) else None;
       DirectAddrs := if c_limited c then Some (filter (fun a => Filters.isRelayAddr a = false) (stored (c_peer c))) else None |})
    (filter (fun c => isBootstrapPeer (c_peer c) = false) conns)).

(** [CollectRelays]; [trimmed] is the relay of one of our circuit addresses, if it can be
    read. *)
Definition CollectRelays (hasHost : bool) (trimmed : string -> option string) (addrs : list string) (conns : list conn)
    : res (list string * list string) :=
  if negb hasHost then Fail "libp2p not ready"
  else
    let candidates := filter (fun a => Filters.isRelayAddr a = true) addrs in
    let pids := omap trimmed candidates in
    let connected := omap (fun c => if bool_decide (c_peer c ∈ pids) then Some (c_addr c +:+ "/p2p/" +:+ c_peer c) else None) conns in
    Ok (candidates, connected).

(** [CollectStorePeers]: the peers with an address over plain IPv4 and TCP. *)
Definition listed (a : string) : bool :=
  negb (contains "/ip6/" a || contains "/udp/" a || contains "/quic" a || contains "webrtc" a || contains "/dns/" a).
Definition CollectStorePeers (hasHost : bool) (stored : list (string * list string)) : list (string * list string) :=
  if negb hasHost then []
  else filter (fun e => e.2 <> []) (map (fun e : string * list string => (e.1, filter (fun a => listed a = true) e.2)) stored).

(** [PeerIsConnected]: any connection, or a direct one. *)
Definition PeerIsConnected (pid : string) (direct hasHost : bool) (conns : list conn) : bool :=
  hasHost && existsb (fun c => String.eqb (c_peer c) pid && (negb direct || negb (c_limited c))) conns.

(** [IsPeerConnected] with [out] asks for an outbound connection; without it, it says no
    whatever connections there are. *)
Theorem isPeerConnected_spec p out conns :
  IsPeerConnected (APeer p) out true conns = true <-> out = true /\ exists c, c ∈ conns /\ c_peer c = p /\ c_inbound c = false.
Proof.
  unfold IsPeerConnected. cbn. rewrite existsb_exists. split.
  - intros (c & Hin & Hc). apply andb_true_iff in Hc as [Hp Hc]. apply andb_true_iff in Hc as [Ho Hi].
    split; [done|]. exists c. split_and!; [by apply list_elem_of_In|by apply String.eqb_eq|by destruct (c_inbound c)].
  - intros (-> & c & Hin & <- & Hi). exists c. split; [by apply list_elem_of_In|]. by rewrite String.eqb_refl, Hi.
Qed.

(** The relays listed as connected are relays of our circuit addresses with a connection,
    each as often as it has connections. *)
Theorem collectRelays_spec trimmed addrs conns cands connected :
  CollectRelays true trimmed addrs conns = Ok (cands, connected) ->
  (forall a, a ∈ cands <-> a ∈ addrs /\ Filters.isRelayAddr a = true) /\
  (forall x, x ∈ connected <-> exists c a, c ∈ conns /\ a ∈ cands /\ trimmed a = Some (c_peer c) /\ x = c_addr c +:+ "/p2p/" +:+ c_peer c).
Proof using.
  clear Decode isBootstrapPeer. unfold CollectRelays. cbn [negb]. set (cs := filter _ addrs). intros [= <- <-]. split.
  - intros a. unfold cs. rewrite list_elem_of_filter. tauto.
  - intros x. rewrite list_elem_of_omap. split.
    + intros (c & Hc & E). destruct (bool_decide_reflect (c_peer c ∈ omap trimmed cs)) as [Hin|]; [|done]. simplify_eq.
      apply list_elem_of_omap in Hin as (a & Ha & Et). eauto 10.
    + intros (c & a & Hc & Ha & Et & ->). exists c. split; [done|]. rewrite bool_decide_true; [done|].
      apply list_elem_of_omap. eauto.
Qed.
End peers.
End Peers.

(** ** Callbacks *)
Module Callbacks.
Section callbacks.
Context `{MapRange} {E : Type}.

(** A function value: its code, which is all that [reflect.Value.Pointer] sees, and what
    it has captured. *)
Record func := { code : N; env : E }.

Definition OnEvent (fn : func) (m : gmap N func) : res (gmap N func) :=
  match m !! code fn with Some _ => Fail "callback already registered" | None => Ok (<[code fn := fn]> m) end.
Definition OffEvent (fn : func) (m : gmap N func) : res (gmap N func) :=
  match m !! code fn with None => Fail "callback not found" | Some _ => Ok (delete (code fn) m) end.

(** [fireCallbacks]: the functions called, each in a goroutine of its own. *)
Definition fireCallbacks (m : gmap N func) : list func := (range_map 36 m).*2.

(** Functions are told apart by their code alone: a second closure of the same literal is
    refused while the first is registered, and taking it back takes the first away. *)
Theorem closures_collide f g m m1 :
  code f = code g -> m !! code f = None -> OnEvent f m = Ok m1 ->
  OnEvent g m1 = Fail "callback already registered" /\ OffEvent g m1 = Ok m /\
  Permutation (fireCallbacks m1) (f :: fireCallbacks m).
Proof.
  intros Hc Hn. unfold OnEvent, OffEvent. rewrite Hn. intros [= <-]. rewrite <- Hc, lookup_insert_eq, delete_insert_id by done.
  split_and!; [done..|]. unfold fireCallbacks. rewrite !range_map_perm, map_to_list_insert by done. done.
Qed.
End callbacks.
End Callbacks.

(** ** Witnesses *)
Section witnesses.
#[local] Instance rest_range : MapRange := map_to_list_range.

Lemma closures_collide_witness :
  let f := {| Callbacks.code := 7; Callbacks.env := 1%nat |} in
  let g := {| Callbacks.code := 7; Callbacks.env := 2%nat |} in
  Callbacks.OffEvent g {[7%N := f]} = Ok ∅.
Proof.
  intros f g.
  exact (proj1 (proj2 (Callbacks.closures_collide f g ∅ {[7%N := f]} eq_refl eq_refl eq_refl))).
Defined.

#[local] Instance rest_addrs : Multiaddr :=
  {| protocols a := if contains "circuit" a then ["p2p-circuit"] else ["ip4"; "tcp"]; value_ip _ _ := None |}.

Lemma collectRelays_spec_witness :
  let c := {| Peers.c_peer := "R"; Peers.c_addr := "/ip4/1.1.1.1"; Peers.c_inbound := false; Peers.c_limited := false; Peers.c_streams := 1 |} in
  exists cands connected,
    Peers.CollectRelays true (fun _ => Some "R") ["/x/circuit"; "/ip4/2.2.2.2"] [c] = Ok (cands, connected) /\
    "/ip4/1.1.1.1/p2p/R" ∈ connected.
Proof.
  intros c. exists ["/x/circuit"], ["/ip4/1.1.1.1/p2p/R"]. split; [reflexivity|].
  refine (proj2 (proj2 (Peers.collectRelays_spec (fun _ => Some "R") ["/x/circuit"; "/ip4/2.2.2.2"] [c]
    ["/x/circuit"] ["/ip4/1.1.1.1/p2p/R"] eq_refl) "/ip4/1.1.1.1/p2p/R") _).
  exists c, "/x/circuit". split_and!; [apply list_elem_of_here|apply list_elem_of_here|reflexivity|reflexivity].
Defined.
End witnesses.
