(* ===== verification/Scope.v ===== *)
(** * Resource scopes

    The accounting of go-libp2p that the node runs on (src/myvendor/go-libp2p,
    p2p/host/resource-manager/scope.go; src/go.mod replaces the library by this copy).
    A scope counts memory, streams, connections and file descriptors against a limit.
    Scopes are objects that point to each other: a scope charges its [edges] (its
    ancestors, linearised) or, for a span, its [owner].  They live in a heap and are named
    by their address.

    [chargeScope] and [returnScope] are the bodies the source repeats for memory, streams
    and connections.  The main lemmas say how an operation changes the [gap] between what
    a scope counts and what it is [due]: what was taken from it and what was taken from
    the scopes below. *)

From S2P Require Import Prelude GoLib GoNet.

(** ** Limits and counters *)

Inductive Direction := DirUnknown | DirInbound | DirOutbound.

Record BaseLimit := mkLimit {
  Streams : Z; StreamsInbound : Z; StreamsOutbound : Z;
  Conns : Z; ConnsInbound : Z; ConnsOutbound : Z;
  FD : Z; Memory : Z
}.

Definition GetStreamLimit (l : BaseLimit) (dir : Direction) : Z :=
  match dir with DirInbound => StreamsInbound l | _ => StreamsOutbound l end.
Definition GetConnLimit (l : BaseLimit) (dir : Direction) : Z :=
  match dir with DirInbound => ConnsInbound l | _ => ConnsOutbound l end.

(** What a scope counts. *)
Record ScopeStat := mkStat {
  statMemory : Z;
  NumStreamsInbound : Z; NumStreamsOutbound : Z;
  NumConnsInbound : Z; NumConnsOutbound : Z;
  NumFD : Z
}.

Definition stat_zero : ScopeStat := mkStat 0 0 0 0 0 0.

(** The counters and their limit; [stat] of the source reads [used]. *)
Record resources := mkResources { limit : BaseLimit; used : ScopeStat }.

Inductive scopeError :=
  | ErrResourceScopeClosed
  | ErrNegativeMemory (rsvp : Z)
  | ErrMemoryLimitExceeded (current attempted lim priority : Z)
  | ErrStreamOrConnLimitExceeded (current attempted lim : Z) (what : string)
  | Wrapped (name : string) (err : scopeError).

Definition addInt64WithOverflow (a b : Z) : Z * bool :=
  let c := wraps 64 (a + b) in (c, eqb (a <? c) (0 <? b)).

Definition mulInt64WithOverflow (a b : Z) : Z * bool :=
  let c := wraps 64 (a * b) in
  if (a =? 0) || (b =? 0) || (a =? 1) || (b =? 1) then (c, true)
  else if (a =? min_int64) || (b =? min_int64) then (c, false)
  else (c, wraps 64 (Z.quot c b) =? a).

(** The share of the limit that a reservation of priority [prio] may fill. *)
Definition memoryThreshold (lim prio : Z) : Z :=
  let '(threshold, mulOk) := mulInt64WithOverflow (1 + prio) lim in
  if mulOk then Z.quot threshold 256 else Z.shiftr (lim * (1 + prio)) 8.

Definition checkMemory (rc : resources) (rsvp prio : Z) : option scopeError :=
  if rsvp <? 0 then Some (ErrNegativeMemory rsvp)
  else
    let lim := Memory (limit rc) in
    if lim =? max_int64 then None
    else
      let '(newmem, addOk) := addInt64WithOverflow (statMemory (used rc)) rsvp in
      if negb addOk || (memoryThreshold lim prio <? newmem)
      then Some (ErrMemoryLimitExceeded (statMemory (used rc)) rsvp lim prio)
      else None.

Definition set_memory (m : Z) (rc : resources) : resources :=
  let u := used rc in
  mkResources (limit rc) (mkStat m (NumStreamsInbound u) (NumStreamsOutbound u)
                            (NumConnsInbound u) (NumConnsOutbound u) (NumFD u)).
Definition set_streams (i o : Z) (rc : resources) : resources :=
  let u := used rc in
  mkResources (limit rc) (mkStat (statMemory u) i o
                            (NumConnsInbound u) (NumConnsOutbound u) (NumFD u)).
Definition set_conns (i o fd : Z) (rc : resources) : resources :=
  let u := used rc in
  mkResources (limit rc) (mkStat (statMemory u) (NumStreamsInbound u) (NumStreamsOutbound u)
                            i o fd).

(** Every operation that can fail returns the counters as it leaves them, and the error. *)
Definition reserveMemory (rc : resources) (size prio : Z) : resources * option scopeError :=
  match checkMemory rc size prio with
  | Some err => (rc, Some err)
  | None => (set_memory (wraps 64 (statMemory (used rc) + size)) rc, None)
  end.

Definition releaseMemory (rc : resources) (size : Z) : resources :=
  set_memory (Z.max 0 (wraps 64 (statMemory (used rc) - size))) rc.

Definition addStreams (rc : resources) (incount outcount : Z) : resources * option scopeError :=
  let u := used rc in let l := limit rc in
  let i := NumStreamsInbound u in let o := NumStreamsOutbound u in
  if (0 <? incount) && (GetStreamLimit l DirInbound <? i + incount)
  then (rc, Some (ErrStreamOrConnLimitExceeded i incount (GetStreamLimit l DirInbound) "inbound stream"))
  else if (0 <? outcount) && (GetStreamLimit l DirOutbound <? o + outcount)
  then (rc, Some (ErrStreamOrConnLimitExceeded o outcount (GetStreamLimit l DirOutbound) "outbound stream"))
  else if Streams l <? i + incount + o + outcount
  then (rc, Some (ErrStreamOrConnLimitExceeded (i + o) (incount + outcount) (Streams l) "stream"))
  else (set_streams (i + incount) (o + outcount) rc, None).

Definition removeStreams (rc : resources) (incount outcount : Z) : resources :=
  let u := used rc in
  set_streams (Z.max 0 (NumStreamsInbound u - incount)) (Z.max 0 (NumStreamsOutbound u - outcount)) rc.

Definition addStream (rc : resources) (dir : Direction) : resources * option scopeError :=
  match dir with DirInbound => addStreams rc 1 0 | _ => addStreams rc 0 1 end.
Definition removeStream (rc : resources) (dir : Direction) : resources :=
  match dir with DirInbound => removeStreams rc 1 0 | _ => removeStreams rc 0 1 end.

Definition addConns (rc : resources) (incount outcount fdcount : Z) : resources * option scopeError :=
  let u := used rc in let l := limit rc in
  let i := NumConnsInbound u in let o := NumConnsOutbound u in
  if (0 <? incount) && (GetConnLimit l DirInbound <? i + incount)
  then (rc, Some (ErrStreamOrConnLimitExceeded i incount (GetConnLimit l DirInbound) "inbound connection"))
  else if (0 <? outcount) && (GetConnLimit l DirOutbound <? o + outcount)
  then (rc, Some (ErrStreamOrConnLimitExceeded o outcount (GetConnLimit l DirOutbound) "outbound connection"))
  else if Conns l <? i + incount + o + outcount
  then (rc, Some (ErrStreamOrConnLimitExceeded (i + o) (incount + outcount) (Conns l) "connection"))
  else if (0 <? fdcount) && (FD l <? NumFD u + fdcount)
  then (rc, Some (ErrStreamOrConnLimitExceeded (NumFD u) fdcount (FD l) "file descriptor"))
  else (set_conns (i + incount) (o + outcount) (NumFD u + fdcount) rc, None).

Definition removeConns (rc : resources) (incount outcount fdcount : Z) : resources :=
  let u := used rc in
  set_conns (Z.max 0 (NumConnsInbound u - incount)) (Z.max 0 (NumConnsOutbound u - outcount))
    (Z.max 0 (NumFD u - fdcount)) rc.

Definition addConn (rc : resources) (dir : Direction) (usefd : bool) : resources * option scopeError :=
  let fd := if usefd then 1 else 0 in
  match dir with DirInbound => addConns rc 1 0 fd | _ => addConns rc 0 1 fd end.
Definition removeConn (rc : resources) (dir : Direction) (usefd : bool) : resources :=
  let fd := if usefd then 1 else 0 in
  match dir with DirInbound => removeConns rc 1 0 fd | _ => removeConns rc 0 1 fd end.

(** The counters of a whole scope: the body of [ReserveForChild], with its undoing, and of
    [ReleaseForChild]. *)
Definition reserveStat (rc : resources) (st : ScopeStat) : resources * option scopeError :=
  let '(rc1, err1) := reserveMemory rc (statMemory st) 255 in
  match err1 with
  | Some e => (rc1, Some e)
  | None =>
    let '(rc2, err2) := addStreams rc1 (NumStreamsInbound st) (NumStreamsOutbound st) in
    match err2 with
    | Some e => (releaseMemory rc2 (statMemory st), Some e)
    | None =>
      let '(rc3, err3) := addConns rc2 (NumConnsInbound st) (NumConnsOutbound st) (NumFD st) in
      match err3 with
      | Some e => (removeStreams (releaseMemory rc3 (statMemory st))
                     (NumStreamsInbound st) (NumStreamsOutbound st), Some e)
      | None => (rc3, None)
      end
    end
  end.

Definition releaseStat (rc : resources) (st : ScopeStat) : resources :=
  removeConns (removeStreams (releaseMemory rc (statMemory st))
                 (NumStreamsInbound st) (NumStreamsOutbound st))
    (NumConnsInbound st) (NumConnsOutbound st) (NumFD st).

(** ** Scopes and the heap *)

Record scope := mkScope {
  done : bool; refCnt : Z; spanID : Z;
  rc : resources;
  owner : option nat;   (* of a span *)
  edges : list nat;     (* the linearised parents of the others *)
  name : string
}.

Notation heap := (gmap nat scope).

Definition set_rc (r : resources) (s : scope) : scope :=
  mkScope (done s) (refCnt s) (spanID s) r (owner s) (edges s) (name s).
Definition set_refCnt (n : Z) (s : scope) : scope :=
  mkScope (done s) n (spanID s) (rc s) (owner s) (edges s) (name s).
Definition set_edges (es : list nat) (s : scope) : scope :=
  mkScope (done s) (refCnt s) (spanID s) (rc s) (owner s) es (name s).

Definition wrapError (s : scope) (err : scopeError) : scopeError := Wrapped (name s) err.

Definition IncRef (h : heap) (a : nat) : heap := alter (fun s => set_refCnt (refCnt s + 1) s) a h.
Definition DecRef (h : heap) (a : nat) : heap := alter (fun s => set_refCnt (refCnt s - 1) s) a h.

(** A new object gets an address of its own. *)
Definition newResourceScope (h : heap) (a : nat) (lim : BaseLimit) (es : list nat) (n : string) : heap :=
  <[a := mkScope false 0 0 (mkResources lim stat_zero) None es n]> (foldl IncRef h es).

Definition newResourceScopeSpan (h : heap) (a : nat) (o : nat) (ow : scope) (id : Z) : heap :=
  <[a := mkScope false 0 0 (mkResources (limit (rc ow)) stat_zero) (Some o) []
           (name ow ++ ".span-" ++ utoa id)]> h.

(** What an operation takes from the counters of a scope, and how it is given back.
    [noReturn] marks the one release whose code goes on to the edges after it has told the
    owner. *)
Record charge := mkCharge {
  take_ : resources -> resources * option scopeError;
  give : resources -> resources;
  noReturn : bool
}.

Definition memoryCharge (size prio : Z) : charge :=
  mkCharge (fun r => reserveMemory r size prio) (fun r => releaseMemory r size) false.
Definition streamCharge (dir : Direction) : charge :=
  mkCharge (fun r => addStream r dir) (fun r => removeStream r dir) false.
Definition connCharge (dir : Direction) (usefd : bool) : charge :=
  mkCharge (fun r => addConn r dir usefd) (fun r => removeConn r dir usefd) true.
Definition statCharge (st : ScopeStat) : charge :=
  mkCharge (fun r => reserveStat r st) (fun r => releaseStat r st) false.

(** [ReserveMemoryForChild], [AddStreamForChild], [AddConnForChild], [ReserveForChild]: the
    scope itself, and no other. *)
Definition chargeChild (c : charge) (h : heap) (e : nat) : heap * option scopeError :=
  match h !! e with
  | None => (h, None)
  | Some s =>
    if done s then (h, Some (wrapError s ErrResourceScopeClosed))
    else let '(r, err) := take_ c (rc s) in
         (<[e := set_rc r s]> h, wrapError s <$> err)
  end.

Definition returnChild (c : charge) (h : heap) (e : nat) : heap :=
  alter (fun s => if done s then s else set_rc (give c (rc s)) s) e h.

(** [reserveMemoryForEdges] and its like: the edges one after the other; if one refuses, what
    the ones before it took is given back. *)
Fixpoint chargeEdges (c : charge) (h : heap) (reserved es : list nat) : heap * option scopeError :=
  match es with
  | [] => (h, None)
  | e :: rest =>
    match chargeChild c h e with
    | (h', None) => chargeEdges c h' (reserved ++ [e]) rest
    | (h', Some err) => (foldl (returnChild c) h' reserved, Some err)
    end
  end.

(** A span charges its owner the way it was charged.  The fuel bounds the chain of owners,
    whose addresses decrease. *)
Fixpoint chargeScope (fuel : nat) (c : charge) (h : heap) (a : nat) : heap * option scopeError :=
  match fuel, h !! a with
  | S fuel', Some s =>
    if done s then (h, Some (wrapError s ErrResourceScopeClosed))
    else
      match take_ c (rc s) with
      | (r, Some err) => (<[a := set_rc r s]> h, Some (wrapError s err))
      | (r, None) =>
        let h1 := <[a := set_rc r s]> h in
        let '(h2, err) := match owner s with
                          | Some o => chargeScope fuel' c h1 o
                          | None => chargeEdges c h1 [] (edges s)
                          end in
        match err with
        | None => (h2, None)
        | Some e => (alter (fun s => set_rc (give c (rc s)) s) a h2, Some (wrapError s e))
        end
      end
  | _, _ => (h, None)
  end.

Fixpoint returnScope (fuel : nat) (c : charge) (h : heap) (a : nat) : heap :=
  match fuel, h !! a with
  | S fuel', Some s =>
    if done s then h
    else
      let h1 := <[a := set_rc (give c (rc s)) s]> h in
      match owner s with
      | Some o =>
        let h2 := returnScope fuel' c h1 o in
        if noReturn c then foldl (returnChild c) h2 (edges s) else h2
      | None => foldl (returnChild c) h1 (edges s)
      end
  | _, _ => h
  end.

Definition ReserveMemory (h : heap) (a : nat) (size prio : Z) := chargeScope (S a) (memoryCharge size prio) h a.
Definition ReleaseMemory (h : heap) (a : nat) (size : Z) := returnScope (S a) (memoryCharge size 0) h a.
Definition AddStream (h : heap) (a : nat) (dir : Direction) := chargeScope (S a) (streamCharge dir) h a.
Definition RemoveStream (h : heap) (a : nat) (dir : Direction) := returnScope (S a) (streamCharge dir) h a.
Definition AddConn (h : heap) (a : nat) (dir : Direction) (usefd : bool) := chargeScope (S a) (connCharge dir usefd) h a.
Definition RemoveConn (h : heap) (a : nat) (dir : Direction) (usefd : bool) := returnScope (S a) (connCharge dir usefd) h a.
Definition ReserveForChild (h : heap) (e : nat) (st : ScopeStat) := chargeChild (statCharge st) h e.
Definition ReleaseForChild (h : heap) (e : nat) (st : ScopeStat) := returnChild (statCharge st) h e.
Definition ReleaseResources (h : heap) (a : nat) (st : ScopeStat) := returnScope (S a) (statCharge st) h a.

(** [BeginSpan]: the new span, at address [n], or the error. *)
Definition BeginSpan (h : heap) (a n : nat) : heap * option scopeError :=
  match h !! a with
  | None => (h, None)
  | Some s =>
    if done s then (h, Some (wrapError s ErrResourceScopeClosed))
    else
      let s' := mkScope (done s) (refCnt s + 1) (spanID s + 1) (rc s) (owner s) (edges s) (name s) in
      (newResourceScopeSpan (<[a := s']> h) n a s' (spanID s'), None)
  end.

Definition doneUnlocked (h : heap) (a : nat) : heap :=
  match h !! a with
  | None => h
  | Some s =>
    if done s then h
    else
      let stat := used (rc s) in
      let h1 := match owner s with
                | Some o => DecRef (ReleaseResources h o stat) o
                | None => foldl (fun h e => DecRef (ReleaseForChild h e stat) e) h (edges s)
                end in
      alter (fun s => mkScope true (refCnt s) (spanID s) (mkResources (limit (rc s)) stat_zero)
                        (owner s) (edges s) (name s)) a h1
  end.

Definition IsUnused (s : scope) : bool :=
  if done s then true
  else if 0 <? refCnt s then false
  else
    let st := used (rc s) in
    (NumStreamsInbound st =? 0) && (NumStreamsOutbound st =? 0) &&
    (NumConnsInbound st =? 0) && (NumConnsOutbound st =? 0) && (NumFD st =? 0).

(** ** Counters *)

Inductive field := FMemory | FStreamsIn | FStreamsOut | FConnsIn | FConnsOut | FFd.

Definition get (f : field) (s : ScopeStat) : Z :=
  match f with
  | FMemory => statMemory s
  | FStreamsIn => NumStreamsInbound s | FStreamsOut => NumStreamsOutbound s
  | FConnsIn => NumConnsInbound s | FConnsOut => NumConnsOutbound s
  | FFd => NumFD s
  end.

Definition stat_nonneg (s : ScopeStat) : Prop := forall f, 0 <= get f s.

Lemma stat_ext a b : (forall f, get f a = get f b) -> a = b.
Proof.
  intros H. destruct a, b.
  pose proof (H FMemory). pose proof (H FStreamsIn). pose proof (H FStreamsOut).
  pose proof (H FConnsIn). pose proof (H FConnsOut). pose proof (H FFd).
  simpl in *. by subst.
Qed.

(** A limit as the configurations make them: no negative bound, and bounded memory (under
    unbounded memory the counter may wrap around, [unlimited_memory_wraps]). *)
Definition limit_ok (l : BaseLimit) : Prop := 0 <= Memory l < max_int64.

(** The counters respect the limit. *)
Definition fits (r : resources) : Prop :=
  let u := used r in let l := limit r in
  stat_nonneg u /\ statMemory u <= Memory l /\
  (0 <= StreamsInbound l -> NumStreamsInbound u <= StreamsInbound l) /\
  (0 <= StreamsOutbound l -> NumStreamsOutbound u <= StreamsOutbound l) /\
  (0 <= Streams l -> NumStreamsInbound u + NumStreamsOutbound u <= Streams l) /\
  (0 <= ConnsInbound l -> NumConnsInbound u <= ConnsInbound l) /\
  (0 <= ConnsOutbound l -> NumConnsOutbound u <= ConnsOutbound l) /\
  (0 <= Conns l -> NumConnsInbound u + NumConnsOutbound u <= Conns l) /\
  (0 <= FD l -> NumFD u <= FD l).

Lemma memoryThreshold_exact lim prio : 0 <= lim <= max_int64 -> 0 <= prio <= 255 ->
  memoryThreshold lim prio = (1 + prio) * lim / 256.
Proof.
  intros Hl Hp. unfold memoryThreshold, mulInt64WithOverflow.
  assert (min_int64 = - 2 ^ 63 /\ max_int64 = 2 ^ 63 - 1) as [Hmin Hmax] by done.
  rewrite Hmin. rewrite Hmax in Hl. clear Hmin Hmax.
  assert (forall z, z = (1 + prio) * lim -> Z.quot z 256 = (1 + prio) * lim / 256) as Hq.
  { intros z ->. apply Z.quot_div_nonneg; nia. }
  assert (Z.shiftr (lim * (1 + prio)) 8 = (1 + prio) * lim / 256) as Hs.
  { rewrite Z.shiftr_div_pow2 by lia. f_equal. lia. }
  destruct (Z.lt_ge_cases ((1 + prio) * lim) (2 ^ 63)) as [Hsmall|Hbig].
  - rewrite (wraps_small 64 ((1 + prio) * lim)) by (split; simpl; nia).
    destruct ((1 + prio =? 0) || (lim =? 0) || (1 + prio =? 1) || (lim =? 1)); [by apply Hq|].
    destruct ((1 + prio =? - 2 ^ 63) || (lim =? - 2 ^ 63)); [done|].
    destruct (wraps 64 _ =? _); [by apply Hq|done].
  - assert ((1 + prio =? 0) || (lim =? 0) || (1 + prio =? 1) || (lim =? 1) = false) as ->.
    { rewrite !orb_false_iff, !Z.eqb_neq. nia. }
    assert ((1 + prio =? - 2 ^ 63) || (lim =? - 2 ^ 63) = false) as ->.
    { rewrite !orb_false_iff, !Z.eqb_neq. lia. }
    set (c := wraps 64 ((1 + prio) * lim)).
    destruct (Z.eqb_spec (wraps 64 (Z.quot c lim)) (1 + prio)) as [E|]; [|done].
    exfalso.
    assert (- 2 ^ 63 <= c < 2 ^ 63) as Hc by (apply (wraps_range 64); lia).
    assert (- 2 ^ 63 <= Z.quot c lim < 2 ^ 63) as Hqr.
    { assert (Z.abs (Z.quot c lim) <= Z.abs c).
      { rewrite <-Z.quot_abs by lia. rewrite Z.quot_div_nonneg by lia. apply Z.div_le_upper_bound; nia. }
      destruct (Z.eq_dec c (- 2 ^ 63)) as [->|]; [|lia].
      assert (Z.quot (- 2 ^ 63) lim <= 0).
      { rewrite Z.quot_opp_l by lia. rewrite Z.quot_div_nonneg by lia.
        pose proof (Z.div_pos (2 ^ 63) lim). lia. }
      lia. }
    rewrite wraps_small in E by lia.
    assert (Z.quot c lim * lim <= Z.max 0 c) as Hle.
    { destruct (Z.le_ge_cases 0 c).
      - rewrite Z.quot_div_nonneg by lia. pose proof (Z.mul_div_le c lim). lia.
      - assert (Z.quot c lim <= 0).
        { replace c with (- (- c)) by lia. rewrite Z.quot_opp_l by lia.
          rewrite Z.quot_div_nonneg by lia. pose proof (Z.div_pos (- c) lim). lia. }
        nia. }
    rewrite E in Hle. nia.
Qed.

(** A reservation is admitted exactly while the counter stays under the share of the limit
    its priority allows; the check is not deceived by an overflow of the sum or of the
    product. *)
Lemma checkMemory_spec r rsvp prio :
  0 <= statMemory (used r) <= max_int64 -> rsvp <= max_int64 ->
  limit_ok (limit r) -> 0 <= prio <= 255 ->
  checkMemory r rsvp prio = None <->
  0 <= rsvp /\ statMemory (used r) + rsvp <= (1 + prio) * Memory (limit r) / 256.
Proof.
  intros Hu Hr [Hl0 Hl1] Hp. unfold checkMemory, addInt64WithOverflow.
  destruct (Z.ltb_spec rsvp 0) as [|H0]; [split; [done|lia]|].
  destruct (Z.eqb_spec (Memory (limit r)) max_int64); [lia|].
  rewrite memoryThreshold_exact by lia.
  set (m := statMemory (used r)) in *. set (T := (1 + prio) * Memory (limit r) / 256).
  assert (T <= Memory (limit r)) as HT by (apply Z.div_le_upper_bound; nia).
  assert (max_int64 = 2 ^ 63 - 1) as Hmax by done.
  destruct (Z.lt_ge_cases (m + rsvp) (2 ^ 63)) as [Hs|Hb].
  - rewrite wraps_small by (simpl; lia).
    assert (eqb (m <? m + rsvp) (0 <? rsvp) = true) as ->.
    { apply eqb_true_iff, eq_true_iff_eq. rewrite !Z.ltb_lt. lia. }
    simpl. destruct (Z.ltb_spec T (m + rsvp)); split; try done; lia.
  - assert (wraps 64 (m + rsvp) = m + rsvp - 2 ^ 64) as ->.
    { unfold wraps. replace (m + rsvp + 2 ^ (64 - 1)) with (m + rsvp - 2 ^ 63 + 1 * 2 ^ 64) by lia.
      rewrite Z.mod_add by lia. rewrite Z.mod_small by lia. lia. }
    assert (eqb (m <? m + rsvp - 2 ^ 64) (0 <? rsvp) = false) as ->.
    { apply eqb_false_iff. destruct (Z.ltb_spec m (m + rsvp - 2 ^ 64)); [lia|].
      destruct (Z.ltb_spec 0 rsvp); [done|lia]. }
    simpl. split; [done|lia].
Qed.

(** *** What an operation adds to the counters

    [δ] is what the operation takes; the laws are all that the rest of the development uses
    of an operation. *)

Definition sane (r : resources) : Prop := limit_ok (limit r) /\ fits r.

Class ChargeLaws (c : charge) (d : ScopeStat) := {
  charge_nonneg : stat_nonneg d;
  take_ok r r' : sane r -> take_ c r = (r', None) ->
    sane r' /\ limit r' = limit r /\ forall f, get f (used r') = get f (used r) + get f d;
  take_err r r' e : sane r -> take_ c r = (r', Some e) -> r' = r;
  give_sane r : sane r -> sane (give c r) /\ limit (give c r) = limit r;
  give_exact r : sane r -> (forall f, get f d <= get f (used r)) ->
    forall f, get f (used (give c r)) = get f (used r) - get f d
}.

Ltac by_field :=
  let f := fresh "f" in intros f; destruct f; simpl.
Ltac fields H :=
  pose proof (H FMemory); pose proof (H FStreamsIn); pose proof (H FStreamsOut);
  pose proof (H FConnsIn); pose proof (H FConnsOut); pose proof (H FFd); simpl in *.

Lemma sane_counters r : sane r -> limit_ok (limit r) /\ stat_nonneg (used r) /\
  0 <= statMemory (used r) <= Memory (limit r) /\ Memory (limit r) < max_int64.
Proof.
  intros [Hl [Hn [Hm _]]]. pose proof (Hn FMemory). unfold limit_ok in *. simpl in *.
  split_and!; auto; lia.
Qed.

Definition size_ok (size : Z) : Prop := 0 <= size <= max_int64.

Lemma reserveMemory_ok r r' size prio : sane r -> size_ok size -> 0 <= prio <= 255 ->
  reserveMemory r size prio = (r', None) ->
  r' = set_memory (statMemory (used r) + size) r /\ sane r'.
Proof.
  intros Hs [Hsz Hsz'] Hp. destruct (sane_counters r Hs) as (Hl & Hn & Hm & Hmax).
  unfold reserveMemory. destruct (checkMemory r size prio) eqn:Hc; [done|]. intros [= <-].
  apply checkMemory_spec in Hc as [_ Hle]; [|lia..|done|done].
  assert ((1 + prio) * Memory (limit r) / 256 <= Memory (limit r)) by (apply Z.div_le_upper_bound; nia).
  assert (max_int64 = 2 ^ 63 - 1) by done.
  rewrite wraps_small by (simpl; lia).
  split; [done|]. split; [done|].
  destruct Hs as [_ (_ & _ & Hrest)]. split; [|split; [simpl; lia|done]].
  fields Hn. by_field; lia.
Qed.

Lemma releaseMemory_sane r size : sane r -> size_ok size ->
  releaseMemory r size = set_memory (Z.max 0 (statMemory (used r) - size)) r /\ sane (releaseMemory r size).
Proof.
  intros Hs [Hsz Hsz']. destruct (sane_counters r Hs) as (Hl & Hn & Hm & Hmax).
  assert (max_int64 = 2 ^ 63 - 1) by done.
  unfold releaseMemory. rewrite wraps_small by (simpl; lia). split; [done|]. split; [done|].
  destruct Hs as [_ (_ & _ & Hrest)]. fields Hn. split; [|split; [simpl; lia|done]].
  by_field; lia.
Qed.

Lemma addStreams_ok r r' i o : sane r -> 0 <= i -> 0 <= o -> addStreams r i o = (r', None) ->
  r' = set_streams (NumStreamsInbound (used r) + i) (NumStreamsOutbound (used r) + o) r /\ sane r'.
Proof.
  intros [Hl (Hn & Hm & H1 & H2 & H3 & H4)] Hi Ho. unfold addStreams.
  cbv zeta.
  destruct (_ && (GetStreamLimit _ DirInbound <? _)) eqn:E1; [done|].
  destruct (_ && (GetStreamLimit _ DirOutbound <? _)) eqn:E2; [done|].
  destruct (Streams _ <? _) eqn:E3; [done|]. intros [= <-]. split; [done|].
  rewrite ?andb_false_iff, ?Z.ltb_ge in *. simpl in *. fields Hn. split; [done|].
  split; [by_field; lia|]. split; [done|]. simpl. split_and!; try tauto; intros; lia.
Qed.

Lemma removeStreams_sane r i o : sane r -> 0 <= i -> 0 <= o -> sane (removeStreams r i o).
Proof.
  intros [Hl (Hn & Hm & H1 & H2 & H3 & H4)] Hi Ho. fields Hn. split; [done|].
  split; [by_field; lia|]. split; [done|]. simpl. split_and!; try tauto; intros; lia.
Qed.

Lemma addConns_ok r r' i o fd : sane r -> 0 <= i -> 0 <= o -> 0 <= fd -> addConns r i o fd = (r', None) ->
  r' = set_conns (NumConnsInbound (used r) + i) (NumConnsOutbound (used r) + o) (NumFD (used r) + fd) r /\ sane r'.
Proof.
  intros [Hl (Hn & Hm & H1 & H2 & H3 & H4 & H5 & H6 & H7)] Hi Ho Hf. unfold addConns.
  cbv zeta.
  destruct (_ && (GetConnLimit _ DirInbound <? _)) eqn:E1; [done|].
  destruct (_ && (GetConnLimit _ DirOutbound <? _)) eqn:E2; [done|].
  destruct (Conns _ <? _) eqn:E3; [done|].
  destruct (_ && (FD _ <? _)) eqn:E4; [done|]. intros [= <-]. split; [done|].
  rewrite ?andb_false_iff, ?Z.ltb_ge in *. simpl in *. fields Hn. split; [done|].
  split; [by_field; lia|]. split; [done|]. simpl. split_and!; try tauto; intros; lia.
Qed.

Lemma removeConns_sane r i o fd : sane r -> 0 <= i -> 0 <= o -> 0 <= fd -> sane (removeConns r i o fd).
Proof.
  intros [Hl (Hn & Hm & H1 & H2 & H3 & H4 & H5 & H6 & H7)] Hi Ho Hf. fields Hn. split; [done|].
  split; [by_field; lia|]. split; [done|]. simpl. split_and!; try tauto; intros; lia.
Qed.

Lemma addStreams_err r r' i o e : addStreams r i o = (r', Some e) -> r' = r.
Proof. unfold addStreams. intros H. repeat case_match; by simplify_eq. Qed.
Lemma addConns_err r r' i o fd e : addConns r i o fd = (r', Some e) -> r' = r.
Proof. unfold addConns. intros H. repeat case_match; by simplify_eq. Qed.
Lemma reserveMemory_err r r' size prio e : reserveMemory r size prio = (r', Some e) -> r' = r.
Proof. unfold reserveMemory. intros H. repeat case_match; by simplify_eq. Qed.
Lemma resources_eta r m i o ci co fd : m = statMemory (used r) -> i = NumStreamsInbound (used r) ->
  o = NumStreamsOutbound (used r) -> ci = NumConnsInbound (used r) -> co = NumConnsOutbound (used r) ->
  fd = NumFD (used r) -> mkResources (limit r) (mkStat m i o ci co fd) = r.
Proof. intros -> -> -> -> -> ->. by destruct r as [? []]. Qed.

Lemma release_reserved r size : sane r -> size_ok size ->
  sane (set_memory (statMemory (used r) + size) r) ->
  releaseMemory (set_memory (statMemory (used r) + size) r) size = r.
Proof.
  intros Hs Hsz Hs'. destruct (releaseMemory_sane _ size Hs' Hsz) as [-> _].
  destruct (sane_counters r Hs) as (_ & _ & Hm & _). apply (resources_eta r); simpl; lia.
Qed.

#[export] Instance memoryCharge_laws size prio : 0 <= prio <= 255 -> size_ok size ->
  ChargeLaws (memoryCharge size prio) (mkStat size 0 0 0 0 0).
Proof.
  intros Hp Hsz. split; cbn [take_ give memoryCharge].
  - destruct Hsz. by_field; lia.
  - intros r r' Hs Ht. apply reserveMemory_ok in Ht as [-> Hs']; [|done..].
    split; [done|]. split; [done|]. by_field; lia.
  - intros r r' e _. apply reserveMemory_err.
  - intros r Hs. destruct (releaseMemory_sane r size Hs Hsz) as [E Hs']. by rewrite E in *.
  - intros r Hs Hle. destruct (releaseMemory_sane r size Hs Hsz) as [E _]. rewrite E. fields Hle. by_field; lia.
Qed.

Definition dir_stat (dir : Direction) : ScopeStat :=
  match dir with DirInbound => mkStat 0 1 0 0 0 0 | _ => mkStat 0 0 1 0 0 0 end.
Definition conn_stat (dir : Direction) (usefd : bool) : ScopeStat :=
  let fd := if usefd then 1 else 0 in
  match dir with DirInbound => mkStat 0 0 0 1 0 fd | _ => mkStat 0 0 0 0 1 fd end.

#[export] Instance streamCharge_laws dir : ChargeLaws (streamCharge dir) (dir_stat dir).
Proof.
  split; simpl.
  - destruct dir; by_field; lia.
  - intros r r' Hs Ht. destruct dir; simpl in Ht;
      (apply addStreams_ok in Ht as [-> Hs']; [|done..]; split; [done|]; split; [done|]; by_field; lia).
  - intros r r' e _. destruct dir; apply addStreams_err.
  - intros r Hs. split; [destruct dir; by apply removeStreams_sane|by destruct dir].
  - intros r Hs Hle. destruct (sane_counters r Hs) as (_ & Hn & _).
    destruct dir; fields Hle; fields Hn; by_field; lia.
Qed.

#[export] Instance connCharge_laws dir usefd : ChargeLaws (connCharge dir usefd) (conn_stat dir usefd).
Proof.
  split; simpl.
  - destruct dir, usefd; by_field; lia.
  - intros r r' Hs Ht. destruct dir, usefd; simpl in Ht;
      (apply addConns_ok in Ht as [-> Hs']; [|done..]; split; [done|]; split; [done|]; by_field; lia).
  - intros r r' e _. destruct dir; apply addConns_err.
  - intros r Hs. split; [destruct dir, usefd; by apply removeConns_sane|by destruct dir].
  - intros r Hs Hle. destruct (sane_counters r Hs) as (_ & Hn & _).
    destruct dir, usefd; fields Hle; fields Hn; by_field; lia.
Qed.

Definition stat_ok (st : ScopeStat) : Prop := stat_nonneg st /\ statMemory st <= max_int64.

#[export] Instance statCharge_laws st : stat_ok st -> ChargeLaws (statCharge st) st.
Proof.
  intros [Hst Hmax]. assert (size_ok (statMemory st)) as Hsz by (split; [apply (Hst FMemory)|done]).
  pose proof (Hst FStreamsIn) as Hsi. pose proof (Hst FStreamsOut) as Hso.
  pose proof (Hst FConnsIn) as Hci. pose proof (Hst FConnsOut) as Hco. pose proof (Hst FFd) as Hfd.
  simpl in *. split; cbn [take_ give statCharge]; [done| | | |].
  - intros r r' Hs. unfold reserveStat.
    destruct (reserveMemory r (statMemory st) 255) as [r1 [e|]] eqn:E1; [done|].
    apply reserveMemory_ok in E1 as [-> Hs1]; [|done..].
    destruct (addStreams _ _ _) as [r2 [e|]] eqn:E2; [done|].
    apply addStreams_ok in E2 as [-> Hs2]; [|done..].
    destruct (addConns _ _ _ _) as [r3 [e|]] eqn:E3; [done|].
    apply addConns_ok in E3 as [-> Hs3]; [|done..]. intros [= <-].
    split; [done|]. split; [done|]. by_field; lia.
  - intros r r' e Hs. unfold reserveStat.
    destruct (reserveMemory r (statMemory st) 255) as [r1 [e1|]] eqn:E1.
    { intros [= <- <-]. by apply reserveMemory_err in E1. }
    apply reserveMemory_ok in E1 as [-> Hs1]; [|done..].
    destruct (addStreams _ _ _) as [r2 [e2|]] eqn:E2.
    { intros [= <- <-]. apply addStreams_err in E2 as ->. by apply release_reserved. }
    apply addStreams_ok in E2 as [-> Hs2]; [|done..].
    destruct (addConns _ _ _ _) as [r3 [e3|]] eqn:E3; [|done].
    intros [= <- <-]. apply addConns_err in E3 as ->.
    destruct (releaseMemory_sane _ (statMemory st) Hs2 Hsz) as [-> _].
    destruct (sane_counters r Hs) as (_ & Hn & _). fields Hn. apply (resources_eta r); simpl; lia.
  - intros r Hs. destruct (releaseMemory_sane r (statMemory st) Hs Hsz) as [E Hs1].
    split; [|unfold releaseStat; by rewrite E].
    by apply removeConns_sane; [apply removeStreams_sane|..].
  - intros r Hs Hle. unfold releaseStat.
    destruct (releaseMemory_sane r (statMemory st) Hs Hsz) as [-> _].
    destruct (sane_counters r Hs) as (_ & Hn & _). fields Hle. fields Hn. by_field; lia.
Qed.

(** Under unlimited memory nothing is checked, and the counter wraps around. *)
Lemma unlimited_memory_wraps :
  let r := mkResources (mkLimit 0 0 0 0 0 0 0 max_int64) (mkStat (2 ^ 62) 0 0 0 0 0) in
  exists r', reserveMemory r (2 ^ 62) 0 = (r', None) /\ statMemory (used r') = - 2 ^ 63 /\
    statMemory (used (releaseMemory r' 0)) = 0.
Proof. by eexists. Qed.

(** ** The ledger

    [l a f] is what was taken from scope [a] itself, by whoever holds it.  A scope owns that
    and what its spans hold; it is due what it owns and what the scopes with an edge to it
    own.  The heap is [balanced] if every open scope counts what it is due. *)

Notation ledger := (nat -> field -> Z).

Definition usedOf (h : heap) (f : field) (a : nat) : Z :=
  match h !! a with Some s => get f (used (rc s)) | None => 0 end.

Definition is_owner (a : nat) (s : scope) : bool := bool_decide (owner s = Some a).

Definition inSpans (h : heap) (f : field) (a : nat) : Z :=
  msum (fun _ s => if is_owner a s then get f (used (rc s)) else 0) h.

Definition alive (h : heap) (a : nat) : bool :=
  match h !! a with Some s => negb (done s) | None => false end.

Definition owns (l : ledger) (h : heap) (f : field) (a : nat) : Z :=
  if alive h a then l a f + inSpans h f a else 0.

Definition occ (x : nat) (es : list nat) : Z := if bool_decide (x ∈ es) then 1 else 0.

Definition fromBelow (w : nat -> Z) (h : heap) (y : nat) : Z :=
  msum (fun b s => occ y (edges s) * w b) h.

Definition due (l : ledger) (h : heap) (f : field) (y : nat) : Z :=
  owns l h f y + fromBelow (owns l h f) h y.

Definition gap (l : ledger) (h : heap) (f : field) (y : nat) : Z := usedOf h f y - due l h f y.

Definition balanced (l : ledger) (h : heap) : Prop :=
  forall y f, alive h y = true -> gap l h f y = 0.

(** How often what is owned at [x] counts at [y]. *)
Definition weight (h : heap) (x y : nat) : Z :=
  match h !! x with
  | Some s => if done s then 0 else (if bool_decide (y = x) then 1 else 0) + occ y (edges s)
  | None => 0
  end.

Record wf (h : heap) : Prop := {
  wf_sane a s : h !! a = Some s -> sane (rc s);
  wf_owner a s o : h !! a = Some s -> owner s = Some o ->
    (o < a)%nat /\ edges s = [] /\ is_Some (h !! o);
  wf_edges a s e : h !! a = Some s -> e ∈ edges s ->
    e <> a /\ exists t, h !! e = Some t /\ owner t = None;
  wf_nodup a s : h !! a = Some s -> NoDup (edges s);
  wf_dead a s : h !! a = Some s -> done s = true -> used (rc s) = stat_zero
}.

Lemma occ_range x es : 0 <= occ x es <= 1.
Proof. unfold occ. case_bool_decide; lia. Qed.

Lemma occ_nil x : occ x [] = 0.
Proof. unfold occ. rewrite bool_decide_eq_false_2; [done|]. apply not_elem_of_nil. Qed.

Lemma fromBelow_update w h a s s' y : h !! a = Some s -> edges s' = edges s ->
  fromBelow w (<[a := s']> h) y = fromBelow w h y.
Proof. intros H E. unfold fromBelow. rewrite (msum_update _ h a s s' H), E. lia. Qed.

Lemma fromBelow_own w w' h o so y d : h !! o = Some so -> (forall b, b <> o -> w' b = w b) ->
  w' o = w o + d -> fromBelow w' h y = fromBelow w h y + occ y (edges so) * d.
Proof.
  intros H Hne Heq. unfold fromBelow.
  rewrite (msum_ext_but (fun b s => occ y (edges s) * w b) (fun b s => occ y (edges s) * w' b) h o so H).
  - rewrite Heq. lia.
  - intros k s Hk _. simpl. by rewrite Hne.
Qed.

Lemma fromBelow_ext w w' h y : (forall b, is_Some (h !! b) -> w' b = w b) -> fromBelow w' h y = fromBelow w h y.
Proof. intros H. apply msum_ext. intros k s Hk. rewrite H; eauto. Qed.

(** *** How the gap changes *)

(** Same place among the others. *)
Definition same_place (s s' : scope) : Prop :=
  done s' = done s /\ owner s' = owner s /\ edges s' = edges s.

Lemma alive_insert h x s s' b : h !! x = Some s -> done s' = done s ->
  alive (<[x := s']> h) b = alive h b.
Proof.
  intros H E. unfold alive. destruct (decide (b = x)) as [->|].
  - by rewrite lookup_insert_eq, H, E.
  - by rewrite lookup_insert_ne by done.
Qed.

Lemma inSpans_insert h f x s s' b : h !! x = Some s -> owner s' = owner s ->
  inSpans (<[x := s']> h) f b =
  inSpans h f b + (if is_owner b s then get f (used (rc s')) - get f (used (rc s)) else 0).
Proof.
  intros H E. unfold inSpans. rewrite (msum_update _ h x s s' H). unfold is_owner. rewrite E.
  case_bool_decide; lia.
Qed.

Lemma weight_owner h x s y d : wf h -> h !! x = Some s ->
  forall w w', (forall b, w' b = w b + (if is_owner b s then (if alive h b then d else 0) else 0)) ->
  w' y + fromBelow w' h y =
  w y + fromBelow w h y + match owner s with Some o => weight h o y * d | None => 0 end.
Proof.
  intros Hwf Hx w w' Hw. unfold is_owner in Hw. destruct (owner s) as [o|] eqn:Ho.
  - destruct (wf_owner h Hwf x s o Hx Ho) as (_ & _ & so & Hso).
    unfold weight. rewrite Hso.
    assert (forall b, b <> o -> w' b = w b) as Hne.
    { intros b Hb. rewrite Hw. rewrite bool_decide_eq_false_2 by congruence. lia. }
    pose proof (Hw o) as Hwo. rewrite bool_decide_eq_true_2 in Hwo by done.
    assert (alive h o = negb (done so)) as Ea by (unfold alive; by rewrite Hso). rewrite Ea in Hwo.
    rewrite (fromBelow_own w w' h o so y _ Hso Hne Hwo).
    destruct (decide (y = o)) as [->|Hyo].
    + rewrite Hwo. rewrite bool_decide_eq_true_2 by done. destruct (done so); simpl; lia.
    + rewrite (Hne y Hyo). rewrite bool_decide_eq_false_2 by done. destruct (done so); simpl; lia.
  - assert (forall b, w' b = w b) as E by (intros b; rewrite Hw, bool_decide_eq_false_2 by done; lia).
    rewrite E, (fromBelow_ext w w') by done. lia.
Qed.

Lemma gap_place l h f x s s' d y : wf h -> h !! x = Some s -> same_place s s' ->
  get f (used (rc s')) = get f (used (rc s)) + d ->
  gap l (<[x := s']> h) f y =
  gap l h f y + (if bool_decide (y = x) then d else 0) -
  match owner s with Some o => weight h o y * d | None => 0 end.
Proof.
  intros Hwf Hx (Hd & Ho & He) Hu. unfold gap, due.
  assert (usedOf (<[x := s']> h) f y = usedOf h f y + (if bool_decide (y = x) then d else 0)) as ->.
  { unfold usedOf. case_bool_decide as Hy.
    - subst y. rewrite lookup_insert_eq, Hx. lia.
    - rewrite lookup_insert_ne by done. lia. }
  rewrite (fromBelow_update _ h x s s' y Hx He).
  pose proof (weight_owner h x s y d Hwf Hx (owns l h f) (owns l (<[x := s']> h) f)) as W.
  rewrite W; [lia|]. intros b. unfold owns.
  rewrite (alive_insert h x s s' b Hx Hd), (inSpans_insert h f x s s' b Hx Ho), Hu.
  destruct (alive h b), (is_owner b s); lia.
Qed.

Lemma gap_ref l h f x s n y : h !! x = Some s -> wf h ->
  gap l (<[x := set_refCnt n s]> h) f y = gap l h f y.
Proof.
  intros Hx Hwf. rewrite (gap_place l h f x s _ 0 y Hwf Hx); [|done|simpl; lia].
  case_bool_decide; destruct (owner s); lia.
Qed.

(** What is taken from a scope, in the ledger. *)
Definition ledgered (l : ledger) (a : nat) (d : ScopeStat) : ledger :=
  fun b f => if bool_decide (b = a) then l b f + get f d else l b f.

Lemma gap_ledger l h f a d y :
  gap (ledgered l a d) h f y = gap l h f y - weight h a y * get f d.
Proof.
  unfold gap, due. destruct (h !! a) as [s|] eqn:Ha.
  - assert (forall b, b <> a -> owns (ledgered l a d) h f b = owns l h f b) as Hne.
    { intros b Hb. unfold owns, ledgered. by rewrite bool_decide_eq_false_2 by done. }
    assert (owns (ledgered l a d) h f a = owns l h f a + if done s then 0 else get f d) as Heq.
    { unfold owns, ledgered, alive. rewrite Ha, bool_decide_eq_true_2 by done. destruct (done s); simpl; lia. }
    rewrite (fromBelow_own _ _ h a s y _ Ha Hne Heq). unfold weight. rewrite Ha.
    destruct (decide (y = a)) as [->|Hy].
    + rewrite Heq, bool_decide_eq_true_2 by done. destruct (done s); lia.
    + rewrite (Hne y Hy), bool_decide_eq_false_2 by done. destruct (done s); lia.
  - assert (forall b, owns (ledgered l a d) h f b = owns l h f b) as E.
    { intros b. unfold owns, ledgered, alive. case_bool_decide; [|done]. subst. by rewrite Ha. }
    rewrite (fromBelow_ext (owns l h f)) by (intros; apply E). rewrite E. unfold weight. rewrite Ha. lia.
Qed.

(** *** Only counters change *)

Definition only_counters (h h' : heap) : Prop :=
  forall a, match h !! a, h' !! a with
            | Some s, Some s' => s' = set_rc (rc s') s /\ limit (rc s') = limit (rc s)
            | None, None => True
            | _, _ => False
            end.

#[export] Instance only_counters_refl : Reflexive only_counters.
Proof. intros h a. destruct (h !! a) as [s|]; [|done]. by destruct s. Qed.

#[export] Instance only_counters_trans : Transitive only_counters.
Proof.
  intros h1 h2 h3 H1 H2 a. specialize (H1 a). specialize (H2 a).
  destruct (h1 !! a), (h2 !! a), (h3 !! a); try done.
  destruct H1 as [E1 ?], H2 as [E2 ?]. split; [|congruence]. rewrite E2, E1. done.
Qed.

Lemma only_counters_insert h a s r : h !! a = Some s -> limit r = limit (rc s) ->
  only_counters h (<[a := set_rc r s]> h).
Proof.
  intros H El b. destruct (decide (b = a)) as [->|].
  - rewrite lookup_insert_eq, H. done.
  - rewrite lookup_insert_ne by done. destruct (h !! b) as [[]|]; done.
Qed.

Lemma only_counters_lookup h h' a s : only_counters h h' -> h !! a = Some s ->
  exists s', h' !! a = Some s' /\ s' = set_rc (rc s') s.
Proof. intros H Ha. specialize (H a). rewrite Ha in H. destruct (h' !! a); [|done]. naive_solver. Qed.

Lemma weight_only h h' x y : only_counters h h' -> weight h' x y = weight h x y.
Proof.
  intros H. unfold weight. specialize (H x). destruct (h !! x), (h' !! x); try done.
  destruct H as [-> _]. done.
Qed.

Lemma alive_only h h' x : only_counters h h' -> alive h' x = alive h x.
Proof.
  intros H. unfold alive. specialize (H x). destruct (h !! x), (h' !! x); try done.
  destruct H as [-> _]. done.
Qed.

Lemma wf_place h a s s' : wf h -> h !! a = Some s -> owner s' = owner s -> edges s' = edges s ->
  sane (rc s') -> (done s' = true -> used (rc s') = stat_zero) -> wf (<[a := s']> h).
Proof.
  intros [W1 W2 W3 W4 W5] Ha Ho He Hs Hz.
  assert (forall o, is_Some (h !! o) -> is_Some (<[a := s']> h !! o)) as Hdom.
  { intros o. destruct (decide (o = a)) as [->|]; [by rewrite lookup_insert_eq; eauto|].
    by rewrite lookup_insert_ne. }
  split.
  - intros b t [[-> <-]|[? Hb]]%lookup_insert_Some; eauto.
  - intros b t o [[-> <-]|[? Hb]]%lookup_insert_Some Hown.
    + rewrite Ho in Hown. rewrite He. destruct (W2 _ _ _ Ha Hown) as (? & ? & ?). eauto.
    + destruct (W2 _ _ _ Hb Hown) as (? & ? & ?). eauto.
  - assert (forall e t, h !! e = Some t -> owner t = None ->
      exists t', <[a := s']> h !! e = Some t' /\ owner t' = None) as Hedge.
    { intros e t He' Hn. destruct (decide (e = a)) as [->|].
      - rewrite lookup_insert_eq. exists s'. simplify_eq. by rewrite Ho.
      - rewrite lookup_insert_ne by done. eauto. }
    intros b t e [[-> <-]|[? Hb]]%lookup_insert_Some Hin.
    + rewrite He in Hin. destruct (W3 _ _ _ Ha Hin) as (? & ? & ? & ?). eauto.
    + destruct (W3 _ _ _ Hb Hin) as (? & ? & ? & ?). eauto.
  - intros b t [[-> <-]|[? Hb]]%lookup_insert_Some; [rewrite He|]; eauto.
  - intros b t [[-> <-]|[? Hb]]%lookup_insert_Some; eauto.
Qed.

Lemma wf_set_rc h a s r : wf h -> h !! a = Some s -> done s = false -> sane r -> wf (<[a := set_rc r s]> h).
Proof. intros Hwf Ha Hd Hs. apply (wf_place h a s); [done..|]. simpl. congruence. Qed.

Section charge.
Context (c : charge) (d : ScopeStat) {laws : ChargeLaws c d}.

Lemma give_take r r' : sane r -> take_ c r = (r', None) -> give c r' = r.
Proof.
  intros Hs Ht. destruct (take_ok r r' Hs Ht) as (Hs' & Hl & Hu).
  destruct (give_sane r' Hs') as [_ Hl'].
  assert (forall f, get f (used (give c r')) = get f (used r)) as E.
  { pose proof charge_nonneg as Hn. destruct (sane_counters r Hs) as (_ & Hr & _).
    intros f. rewrite (give_exact r' Hs'); [rewrite Hu; lia|].
    intros f'. rewrite Hu. specialize (Hr f'). lia. }
  apply stat_ext in E. rewrite Hl in Hl'. by destruct (give c r'), r; simpl in *; subst.
Qed.

Lemma chargeChild_ok h e t h' : wf h -> h !! e = Some t -> owner t = None ->
  chargeChild c h e = (h', None) ->
  wf h' /\ only_counters h h' /\ alive h e = true /\
  (forall l f y, gap l h' f y = gap l h f y + occ y [e] * get f d) /\
  returnChild c h' e = h /\ forall y, y <> e -> h' !! y = h !! y.
Proof.
  intros Hwf He Ho. unfold chargeChild. rewrite He.
  destruct (done t) eqn:Hd; [done|]. destruct (take_ c (rc t)) as [r [err|]] eqn:Ht; [done|].
  intros [= <-]. pose proof (wf_sane h Hwf e t He) as Hs.
  destruct (take_ok _ _ Hs Ht) as (Hs' & Hl & Hu).
  split; [by apply wf_set_rc|]. split; [by apply only_counters_insert|].
  split; [unfold alive; by rewrite He, Hd|]. split_and!.
  - intros l f y. rewrite (gap_place l h f e t _ (get f d) y Hwf He); [|done|apply Hu].
    rewrite Ho. unfold occ. case_bool_decide; case_bool_decide; set_solver by lia.
  - unfold returnChild. apply map_eq. intros b. destruct (decide (b = e)) as [->|].
    + rewrite lookup_alter_eq, lookup_insert_eq, He. simpl. rewrite Hd. f_equal.
      unfold set_rc; simpl. rewrite (give_take _ _ Hs Ht). by destruct t.
    + rewrite lookup_alter_ne, lookup_insert_ne; done.
  - intros y Hy. by rewrite lookup_insert_ne.
Qed.

Lemma chargeChild_err h e h' err : wf h -> chargeChild c h e = (h', Some err) -> h' = h.
Proof.
  intros Hwf. unfold chargeChild. destruct (h !! e) as [t|] eqn:He; [|done].
  destruct (done t); [by intros [= <- _]|].
  destruct (take_ c (rc t)) as [r [err'|]] eqn:Ht; [|done]. intros [= <- _].
  rewrite (take_err _ _ _ (wf_sane h Hwf e t He) Ht). apply map_eq. intros b.
  destruct (decide (b = e)) as [->|]; [|by rewrite lookup_insert_ne].
  rewrite lookup_insert_eq, He. by destruct t.
Qed.

Lemma lookup_returns h es y : NoDup es ->
  foldl (returnChild c) h es !! y =
  if bool_decide (y ∈ es) then (fun s => if done s then s else set_rc (give c (rc s)) s) <$> h !! y
  else h !! y.
Proof.
  revert h. induction es as [|e es IH]; intros h Hnd; [by rewrite bool_decide_eq_false_2 by set_solver|].
  apply NoDup_cons in Hnd as [Hne Hnd]. simpl. rewrite IH by done. unfold returnChild.
  destruct (decide (y = e)) as [->|Hy].
  - rewrite bool_decide_eq_false_2, bool_decide_eq_true_2 by set_solver. apply lookup_alter_eq.
  - rewrite lookup_alter_ne by done. do 2 case_bool_decide; set_solver.
Qed.
End charge.

Lemma occ_cons y e es : e ∉ es -> occ y (e :: es) = occ y [e] + occ y es.
Proof. intros H. unfold occ. repeat case_bool_decide; set_solver by lia. Qed.

Definition plain (h : heap) (es : list nat) : Prop :=
  forall e, e ∈ es -> exists t, h !! e = Some t /\ owner t = None.

Lemma plain_only h h' es : only_counters h h' -> plain h es -> plain h' es.
Proof.
  intros Ho Hp e He. destruct (Hp e He) as (t & Ht & Hn).
  destruct (only_counters_lookup _ _ _ _ Ho Ht) as (t' & Ht' & E). exists t'. split; [done|]. by rewrite E.
Qed.

Section scopes.
Context (c : charge) (d : ScopeStat) {laws : ChargeLaws c d}.

Lemma chargeEdges_ok es : forall h res h', wf h -> plain h es -> NoDup es ->
  chargeEdges c h res es = (h', None) ->
  wf h' /\ only_counters h h' /\ (forall e, e ∈ es -> alive h e = true) /\
  forall l f y, gap l h' f y = gap l h f y + occ y es * get f d.
Proof.
  induction es as [|e es IH]; intros h res h' Hwf Hp Hnd; simpl.
  { intros [= <-]. split_and!; [done..|set_solver|]. intros. unfold occ. rewrite bool_decide_eq_false_2 by set_solver. lia. }
  apply NoDup_cons in Hnd as [Hne Hnd].
  destruct (chargeChild c h e) as [h1 [err|]] eqn:E; [done|]. intros Hrest.
  destruct (Hp e ltac:(left)) as (t & Ht & Hn).
  destruct (chargeChild_ok c d h e t h1 Hwf Ht Hn E) as (Hwf1 & Ho & Ha & Hg & _ & _).
  assert (plain h1 es) as Hp1.
  { eapply plain_only; [done|]. intros x Hx. apply Hp. by right. }
  destruct (IH h1 _ h' Hwf1 Hp1 Hnd Hrest) as (Hwf' & Ho' & Ha' & Hg').
  split_and!; [done|by etrans| |].
  - intros x [->|Hx]%elem_of_cons; [done|]. rewrite <-(alive_only h h1) by done. by apply Ha'.
  - intros l f y. rewrite Hg', Hg, (occ_cons y e es Hne). lia.
Qed.

Lemma chargeEdges_err h0 es : forall h res h' err, wf h -> plain h es -> NoDup (res ++ es) ->
  (forall y, y ∈ res -> (fun s => if done s then s else set_rc (give c (rc s)) s) <$> h !! y = h0 !! y) ->
  (forall y, y ∉ res -> h !! y = h0 !! y) ->
  chargeEdges c h res es = (h', Some err) -> h' = h0.
Proof.
  induction es as [|e es IH]; intros h res h' err Hwf Hp Hnd Hin Hout; simpl; [done|].
  destruct (chargeChild c h e) as [h1 [err1|]] eqn:E.
  - intros [= <- _]. apply (chargeChild_err c d) in E as ->; [|done].
    apply map_eq. intros y. rewrite (lookup_returns c d) by (by apply NoDup_app in Hnd as (? & _ & _)).
    case_bool_decide; auto.
  - destruct (Hp e ltac:(left)) as (t & Ht & Hn).
    destruct (chargeChild_ok c d h e t h1 Hwf Ht Hn E) as (Hwf1 & Ho & Ha & _ & Hback & Hoth).
    assert (e ∉ res) as Her.
    { apply NoDup_app in Hnd as (_ & Hd & _). intros Hx. apply (Hd e Hx). left. }
    apply IH; [done| |by rewrite <-app_assoc| |].
    + eapply plain_only; [done|]. intros x Hx. apply Hp. by right.
    + intros y [Hy| ->%list_elem_of_singleton]%elem_of_app.
      * rewrite Hoth by (intros ->; done). auto.
      * rewrite <-(Hout e Her), <-Hback at 1. unfold returnChild. by rewrite lookup_alter_eq.
    + intros y [Hy Hye]%not_elem_of_app. rewrite Hoth by set_solver. auto.
Qed.

Lemma chargeScope_ok fuel : forall h a s h', wf h -> (a < fuel)%nat -> h !! a = Some s ->
  chargeScope fuel c h a = (h', None) ->
  wf h' /\ only_counters h h' /\ alive h a = true /\
  forall l f y, gap l h' f y = gap l h f y + weight h a y * get f d.
Proof.
  induction fuel as [|fuel IH]; intros h a s h' Hwf Hf Ha; [lia|].
  simpl. rewrite Ha. destruct (done s) eqn:Hd; [done|].
  destruct (take_ c (rc s)) as [r [err|]] eqn:Ht; [done|].
  pose proof (wf_sane h Hwf a s Ha) as Hs. destruct (take_ok _ _ Hs Ht) as (Hs' & Hl & Hu).
  set (h1 := <[a := set_rc r s]> h).
  assert (wf h1) as Hwf1 by (by apply wf_set_rc).
  assert (only_counters h h1) as Ho1 by (by apply only_counters_insert).
  assert (forall l f y, gap l h1 f y = gap l h f y + (if bool_decide (y = a) then get f d else 0) -
            match owner s with Some o => weight h o y * get f d | None => 0 end) as Hg1.
  { intros l f y. apply gap_place; [done..|apply Hu]. }
  assert (alive h a = true) as Hal by (unfold alive; by rewrite Ha, Hd).
  destruct (owner s) as [o|] eqn:Ho.
  - destruct (chargeScope fuel c h1 o) as [h2 [e|]] eqn:E; [done|]. intros [= <-].
    destruct (wf_owner h Hwf a s o Ha Ho) as (Hlt & He & so & Hso).
    destruct (only_counters_lookup _ _ _ _ Ho1 Hso) as (so' & Hso' & _).
    destruct (IH h1 o so' h2 Hwf1 ltac:(lia) Hso' E) as (Hwf2 & Ho2 & _ & Hg2).
    split_and!; [done|by etrans|done|]. intros l f y.
    rewrite Hg2, Hg1, (weight_only h h1) by done. unfold weight at 3. rewrite Ha, Hd, He.
    unfold occ. rewrite bool_decide_eq_false_2 with (P := y ∈ []) by set_solver.
    case_bool_decide; lia.
  - destruct (chargeEdges c h1 [] (edges s)) as [h2 [e|]] eqn:E; [done|]. intros [= <-].
    assert (plain h1 (edges s)) as Hp1.
    { eapply plain_only; [done|]. intros e He. by destruct (wf_edges h Hwf a s e Ha He) as [_ ?]. }
    destruct (chargeEdges_ok (edges s) h1 [] h2 Hwf1 Hp1 (wf_nodup h Hwf a s Ha) E) as (Hwf2 & Ho2 & _ & Hg2).
    split_and!; [done|by etrans|done|]. intros l f y. rewrite Hg2, Hg1. unfold weight. rewrite Ha, Hd.
    case_bool_decide; lia.
Qed.

(** A refused operation changes nothing, in no scope. *)
Lemma chargeScope_err fuel : forall h a h' err, wf h ->
  chargeScope fuel c h a = (h', Some err) -> h' = h.
Proof.
  induction fuel as [|fuel IH]; intros h a h' err Hwf; [done|].
  simpl. destruct (h !! a) as [s|] eqn:Ha; [|done]. destruct (done s) eqn:Hd; [by intros [= <- _]|].
  pose proof (wf_sane h Hwf a s Ha) as Hs.
  destruct (take_ c (rc s)) as [r [err1|]] eqn:Ht.
  { intros [= <- _]. rewrite (take_err _ _ _ Hs Ht). apply insert_id. rewrite Ha. by destruct s. }
  destruct (take_ok _ _ Hs Ht) as (Hs' & Hl & Hu).
  set (h1 := <[a := set_rc r s]> h).
  assert (wf h1) as Hwf1 by (by apply wf_set_rc).
  assert (only_counters h h1) as Ho1 by (by apply only_counters_insert).
  assert (alter (fun s => set_rc (give c (rc s)) s) a h1 = h) as Hback.
  { apply map_eq. intros b. destruct (decide (b = a)) as [->|].
    - rewrite lookup_alter_eq. unfold h1. rewrite lookup_insert_eq, Ha. simpl. f_equal.
      unfold set_rc; simpl. rewrite (give_take c d _ _ Hs Ht). by destruct s.
    - rewrite lookup_alter_ne by done. unfold h1. by rewrite lookup_insert_ne. }
  destruct (owner s) as [o|] eqn:Ho.
  - destruct (chargeScope fuel c h1 o) as [h2 [e|]] eqn:E; [|done]. intros [= <- _].
    by rewrite (IH _ _ _ _ Hwf1 E).
  - destruct (chargeEdges c h1 [] (edges s)) as [h2 [e|]] eqn:E; [|done]. intros [= <- _].
    etrans; [|exact Hback]. f_equal.
    apply (chargeEdges_err h1 (edges s) h1 [] h2 e); [done| |exact (wf_nodup h Hwf a s Ha)|set_solver|done|exact E].
    eapply plain_only; [done|]. intros e' He. by destruct (wf_edges h Hwf a s e' Ha He) as [_ ?].
Qed.
End scopes.

(** *** The same places *)

Definition same_places (h h' : heap) : Prop :=
  forall a, match h !! a, h' !! a with
            | Some s, Some s' => same_place s s'
            | None, None => True
            | _, _ => False
            end.

#[export] Instance same_places_refl : Reflexive same_places.
Proof. intros h a. by destruct (h !! a). Qed.
#[export] Instance same_places_trans : Transitive same_places.
Proof.
  intros h1 h2 h3 H1 H2 a. specialize (H1 a). specialize (H2 a).
  destruct (h1 !! a), (h2 !! a), (h3 !! a); try done. unfold same_place in *. intuition congruence.
Qed.

Lemma only_same h h' : only_counters h h' -> same_places h h'.
Proof.
  intros H a. specialize (H a). destruct (h !! a), (h' !! a); try done.
  destruct H as [-> _]. done.
Qed.

Lemma same_lookup h h' a s : same_places h h' -> h !! a = Some s ->
  exists s', h' !! a = Some s' /\ same_place s s'.
Proof. intros H Ha. specialize (H a). rewrite Ha in H. destruct (h' !! a); [eauto|done]. Qed.

Lemma same_lookup_inv h h' a s' : same_places h h' -> h' !! a = Some s' ->
  exists s, h !! a = Some s /\ same_place s s'.
Proof. intros H Ha. specialize (H a). rewrite Ha in H. destruct (h !! a); [eauto|done]. Qed.

Lemma weight_same h h' x y : same_places h h' -> weight h' x y = weight h x y.
Proof.
  intros H. unfold weight. specialize (H x). destruct (h !! x), (h' !! x); try done.
  destruct H as (-> & _ & ->). done.
Qed.

Lemma alive_same h h' x : same_places h h' -> alive h' x = alive h x.
Proof.
  intros H. unfold alive. specialize (H x). destruct (h !! x), (h' !! x); try done.
  destruct H as (-> & _ & _). done.
Qed.

Lemma plain_same h h' es : same_places h h' -> plain h es -> plain h' es.
Proof.
  intros H Hp e He. destruct (Hp e He) as (t & Ht & Hn).
  destruct (same_lookup h h' e t H Ht) as (t' & Ht' & _ & Ho & _). exists t'. split; [done|congruence].
Qed.

Lemma alter_present {A} (h : gmap nat A) a g s : h !! a = Some s -> alter g a h = <[a := g s]> h.
Proof.
  intros Ha. apply map_eq. intros b. destruct (decide (b = a)) as [->|].
  - by rewrite lookup_alter_eq, lookup_insert_eq, Ha.
  - by rewrite lookup_alter_ne, lookup_insert_ne.
Qed.

Lemma alter_absent {A} (h : gmap nat A) a g : h !! a = None -> alter g a h = h.
Proof.
  intros Ha. apply map_eq. intros b. destruct (decide (b = a)) as [->|].
  - by rewrite lookup_alter_eq, Ha.
  - by rewrite lookup_alter_ne.
Qed.

Lemma same_alter h a g : (forall s, same_place s (g s)) -> same_places h (alter g a h).
Proof.
  intros Hg b. destruct (decide (b = a)) as [->|].
  - rewrite lookup_alter_eq. destruct (h !! a); [apply Hg|done].
  - rewrite lookup_alter_ne by done. by destruct (h !! b).
Qed.

Lemma scope_wf_alter h a g : wf h -> (forall s, same_place s (g s) /\ rc (g s) = rc s) -> wf (alter g a h).
Proof.
  intros Hwf Hg. destruct (h !! a) as [s|] eqn:Ha.
  - rewrite (alter_present h a g s Ha).
    destruct (Hg s) as [(? & ? & ?) Er]. apply (wf_place h a s); [done..| |]; rewrite Er; [by eapply wf_sane|].
    intros Hd. apply (wf_dead h Hwf a s Ha). congruence.
  - by rewrite alter_absent.
Qed.

Lemma gap_alter l h f a g y : wf h -> (forall s, same_place s (g s) /\ rc (g s) = rc s) ->
  gap l (alter g a h) f y = gap l h f y.
Proof.
  intros Hwf Hg. destruct (h !! a) as [s|] eqn:Ha.
  - rewrite (alter_present h a g s Ha).
    destruct (Hg s) as [Hp Er]. rewrite (gap_place l h f a s _ 0 y Hwf Ha Hp); [|rewrite Er; lia].
    case_bool_decide; destruct (owner s); lia.
  - by rewrite alter_absent.
Qed.

(** *** Giving back *)

(** The open scopes an operation on [a] reaches. *)
Fixpoint touched (fuel : nat) (h : heap) (a : nat) : list nat :=
  match fuel, h !! a with
  | S fuel', Some s =>
    if done s then []
    else a :: match owner s with Some o => touched fuel' h o | None => edges s end
  | _, _ => []
  end.

Lemma touched_only fuel h h' a : only_counters h h' -> touched fuel h' a = touched fuel h a.
Proof.
  intros H. revert a. induction fuel as [|fuel IH]; intros a; [done|]. simpl.
  pose proof (H a) as Ha. destruct (h !! a) as [s|], (h' !! a) as [s'|]; try done.
  destruct Ha as [-> _]. simpl. destruct (done s); [done|]. f_equal. by destruct (owner s).
Qed.

(** Up the owners, whose addresses decrease, and then to scopes that are no spans. *)
Lemma touched_up fuel h a y : wf h -> y ∈ touched fuel h a ->
  (y <= a)%nat \/ exists t, h !! y = Some t /\ owner t = None.
Proof.
  intros Hwf. revert a. induction fuel as [|fuel IH]; intros a; simpl; [set_solver|].
  destruct (h !! a) as [s|] eqn:Ha; [|set_solver]. destruct (done s); [set_solver|].
  intros [->|Hy]%elem_of_cons; [by left|]. destruct (owner s) as [o|] eqn:Ho.
  - destruct (wf_owner h Hwf a s o Ha Ho) as (Hlt & _). destruct (IH o Hy); [left; lia|by right].
  - right. by destruct (wf_edges h Hwf a s y Ha Hy) as [_ ?].
Qed.

Section returns.
Context (c : charge) (d : ScopeStat) {laws : ChargeLaws c d}.

Definition has (h : heap) (y : nat) : Prop := forall f, get f d <= usedOf h f y.

Lemma has_other h a s r y : y <> a -> has h y -> has (<[a := set_rc r s]> h) y.
Proof. intros Hne H f. unfold usedOf. rewrite lookup_insert_ne by done. apply H. Qed.

Lemma returnChild_ok h e : wf h -> plain h [e] -> (alive h e = true -> has h e) ->
  wf (returnChild c h e) /\ only_counters h (returnChild c h e) /\
  (forall y, y <> e -> returnChild c h e !! y = h !! y) /\
  forall l f y, alive h y = true -> gap l (returnChild c h e) f y = gap l h f y - occ y [e] * get f d.
Proof.
  intros Hwf Hp Hhas. destruct (Hp e ltac:(left)) as (t & Ht & Hn).
  assert (returnChild c h e = <[e := if done t then t else set_rc (give c (rc t)) t]> h) as ->.
  { apply map_eq. intros b. unfold returnChild. destruct (decide (b = e)) as [->|].
    - by rewrite lookup_alter_eq, lookup_insert_eq, Ht.
    - by rewrite lookup_alter_ne, lookup_insert_ne. }
  unfold alive in *. destruct (done t) eqn:Hd.
  - rewrite (insert_id h e t Ht). split_and!; [done..|]. intros l f y Hy. unfold occ.
    case_bool_decide as Hin; [|lia]. apply list_elem_of_singleton in Hin as ->. by rewrite Ht, Hd in Hy.
  - pose proof (wf_sane h Hwf e t Ht) as Hs. destruct (give_sane _ Hs) as [Hs' Hl].
    specialize (Hhas ltac:(by rewrite Ht, Hd)).
    split_and!; [by apply wf_set_rc|by apply only_counters_insert|intros; by rewrite lookup_insert_ne|].
    intros l f y _. rewrite (gap_place l h f e t _ (- get f d) y Hwf Ht).
    + rewrite Hn. unfold occ. repeat case_bool_decide; set_solver by lia.
    + done.
    + simpl. rewrite (give_exact _ Hs); [lia|]. intros f'. specialize (Hhas f'). unfold usedOf in Hhas.
      by rewrite Ht in Hhas.
Qed.

Lemma returnEdges_ok es : forall h, wf h -> plain h es -> NoDup es ->
  (forall e, e ∈ es -> alive h e = true -> has h e) ->
  wf (foldl (returnChild c) h es) /\ only_counters h (foldl (returnChild c) h es) /\
  (forall y, y ∉ es -> foldl (returnChild c) h es !! y = h !! y) /\
  forall l f y, alive h y = true ->
    gap l (foldl (returnChild c) h es) f y = gap l h f y - occ y es * get f d.
Proof.
  induction es as [|e es IH]; intros h Hwf Hp Hnd Hhas; simpl.
  { split_and!; [done..|]. intros. unfold occ. rewrite bool_decide_eq_false_2 by set_solver. lia. }
  apply NoDup_cons in Hnd as [Hne Hnd].
  destruct (returnChild_ok h e Hwf) as (Hwf1 & Ho1 & Hoth & Hg1).
  { intros x ->%list_elem_of_singleton. apply Hp. left. }
  { apply Hhas. left. }
  destruct (IH (returnChild c h e)) as (Hwf2 & Ho2 & Hoth2 & Hg2); [done| |done| |].
  { eapply plain_only; [done|]. intros x Hx. apply Hp. by right. }
  { intros x Hx Hax f. unfold usedOf. rewrite Hoth by (intros ->; done).
    rewrite (alive_only h) in Hax by done. apply (Hhas x); [by right|done]. }
  split_and!; [done|by etrans| |].
  { intros y Hy. rewrite Hoth2, Hoth; set_solver. }
  intros l f y Hy.
  rewrite Hg2 by (by rewrite (alive_only h)). rewrite Hg1, (occ_cons y e es Hne) by done. lia.
Qed.

Lemma returnScope_ok fuel : forall h a, wf h -> (a < fuel)%nat ->
  (forall y, y ∈ touched fuel h a -> alive h y = true -> has h y) ->
  wf (returnScope fuel c h a) /\ only_counters h (returnScope fuel c h a) /\
  (forall y, y ∉ touched fuel h a -> returnScope fuel c h a !! y = h !! y) /\
  forall l f y, alive h y = true ->
    gap l (returnScope fuel c h a) f y = gap l h f y - weight h a y * get f d.
Proof.
  induction fuel as [|fuel IH]; intros h a Hwf Hf; [lia|]. simpl.
  destruct (h !! a) as [s|] eqn:Ha.
  2:{ intros _. split_and!; [done..|]. intros. unfold weight. rewrite Ha. lia. }
  destruct (done s) eqn:Hd.
  { intros _. split_and!; [done..|]. intros. unfold weight. rewrite Ha, Hd. lia. }
  intros Hhas. pose proof (wf_sane h Hwf a s Ha) as Hs. destruct (give_sane _ Hs) as [Hs' Hl].
  set (h1 := <[a := set_rc (give c (rc s)) s]> h).
  assert (wf h1) as Hwf1 by (by apply wf_set_rc).
  assert (only_counters h h1) as Ho1 by (by apply only_counters_insert).
  assert (has h a) as Hhasa by (apply Hhas; [left|unfold alive; by rewrite Ha, Hd]).
  assert (forall l f y, gap l h1 f y = gap l h f y - (if bool_decide (y = a) then get f d else 0) +
            match owner s with Some o => weight h o y * get f d | None => 0 end) as Hg1.
  { intros l f y. unfold h1. rewrite (gap_place l h f a s _ (- get f d) y Hwf Ha).
    - destruct (owner s); case_bool_decide; lia.
    - done.
    - simpl. rewrite (give_exact _ Hs); [lia|]. intros f'. specialize (Hhasa f'). unfold usedOf in Hhasa.
      by rewrite Ha in Hhasa. }
  assert (forall e, e <> a -> has h e -> has h1 e) as Hkeep by (intros; by apply has_other).
  destruct (owner s) as [o|] eqn:Ho.
  - destruct (wf_owner h Hwf a s o Ha Ho) as (Hlt & He & _).
    assert (forall h2, (if noReturn c then foldl (returnChild c) h2 (edges s) else h2) = h2) as Hsame.
    { intros h2. rewrite He. by destruct (noReturn c). }
    rewrite Hsame.
    destruct (IH h1 o Hwf1 ltac:(lia)) as (Hwf2 & Ho2 & Hoth2 & Hg2).
    { intros y Hy Hay. rewrite (touched_only fuel h) in Hy by done.
      rewrite (alive_only h) in Hay by done.
      destruct (decide (y = a)) as [->|]; [|apply Hkeep; [done|]; by apply Hhas; [right|]].
      destruct (touched_up fuel h o a Hwf Hy) as [|(t & Ht & Hn)]; [lia|congruence]. }
    split_and!; [done|by etrans| |].
    { intros y [Hya Hy]%not_elem_of_cons. rewrite Hoth2 by (by rewrite (touched_only fuel h)).
      unfold h1. by rewrite lookup_insert_ne. }
    intros l f y Hy.
    rewrite Hg2 by (by rewrite (alive_only h)). rewrite Hg1, (weight_only h h1) by done.
    unfold weight at 3. rewrite Ha, Hd, He. unfold occ. rewrite (bool_decide_eq_false_2 (y ∈ [])) by set_solver.
    case_bool_decide; lia.
  - destruct (returnEdges_ok (edges s) h1 Hwf1) as (Hwf2 & Ho2 & Hoth2 & Hg2).
    { eapply plain_only; [done|]. intros e He. by destruct (wf_edges h Hwf a s e Ha He) as [_ ?]. }
    { exact (wf_nodup h Hwf a s Ha). }
    { intros e He Hae. rewrite (alive_only h) in Hae by done.
      destruct (wf_edges h Hwf a s e Ha He) as [Hne _]. apply Hkeep; [done|]. apply Hhas; [by right|done]. }
    split_and!; [done|by etrans| |].
    { intros y [Hya Hy]%not_elem_of_cons. rewrite Hoth2 by done. unfold h1. by rewrite lookup_insert_ne. }
    intros l f y Hy.
    rewrite Hg2 by (by rewrite (alive_only h)). rewrite Hg1. unfold weight. rewrite Ha, Hd.
    case_bool_decide; lia.
Qed.
End returns.

(** *** What is owned is held *)

Definition ledger_ok (l : ledger) : Prop := forall a f, 0 <= l a f.

Section balance.
Context (l : ledger) (h : heap) (Hwf : wf h) (Hl : ledger_ok l).

Lemma used_nonneg f a : 0 <= usedOf h f a.
Proof.
  unfold usedOf. destruct (h !! a) as [s|] eqn:E; [|done].
  by destruct (sane_counters _ (wf_sane h Hwf a s E)) as (_ & Hn & _).
Qed.

Lemma inSpans_nonneg f a : 0 <= inSpans h f a.
Proof.
  apply msum_nonneg. intros b s Hb. destruct (is_owner a s); [|done].
  pose proof (used_nonneg f b) as H. unfold usedOf in H. by rewrite Hb in H.
Qed.

Lemma owns_nonneg f a : 0 <= owns l h f a.
Proof. unfold owns. pose proof (inSpans_nonneg f a). pose proof (Hl a f). destruct (alive h a); lia. Qed.

Lemma fromBelow_nonneg f y : 0 <= fromBelow (owns l h f) h y.
Proof.
  apply msum_nonneg. intros b s _. pose proof (occ_range y (edges s)). pose proof (owns_nonneg f b). nia.
Qed.

Lemma span_owned f a s o : h !! a = Some s -> owner s = Some o -> usedOf h f a <= inSpans h f o.
Proof.
  intros Ha Ho.
  pose proof (msum_ge (fun _ s => if is_owner o s then get f (used (rc s)) else 0) h a s Ha) as G.
  simpl in G. assert (is_owner o s = true) as E by (by apply bool_decide_eq_true_2). rewrite E in G.
  unfold usedOf. rewrite Ha. apply G. intros k t Hk. destruct (is_owner o t); [|done].
  pose proof (used_nonneg f k) as H. unfold usedOf in H. by rewrite Hk in H.
Qed.

Lemma edge_owned f a s y : h !! a = Some s -> y ∈ edges s -> owns l h f a <= fromBelow (owns l h f) h y.
Proof.
  intros Ha Hy. pose proof (msum_ge (fun b s => occ y (edges s) * owns l h f b) h a s Ha) as G.
  simpl in G. assert (occ y (edges s) = 1) as E by (unfold occ; by rewrite bool_decide_eq_true_2).
  rewrite E, Z.mul_1_l in G.
  apply G. intros k t _. pose proof (occ_range y (edges t)). pose proof (owns_nonneg f k). nia.
Qed.

Hypothesis Hbal : balanced l h.

Lemma owned_used f y : alive h y = true -> owns l h f y + fromBelow (owns l h f) h y = usedOf h f y.
Proof. intros Hy. specialize (Hbal y f Hy). unfold gap, due in Hbal. lia. Qed.

(** Whatever an open scope owns is held by every scope it charges. *)
Lemma covered f fuel a y : y ∈ touched fuel h a -> alive h y = true -> owns l h f a <= usedOf h f y.
Proof.
  revert a. induction fuel as [|fuel IH]; intros a; simpl; [set_solver|].
  destruct (h !! a) as [s|] eqn:Ha; [|set_solver]. destruct (done s) eqn:Hd; [set_solver|].
  intros [->|Hy]%elem_of_cons Hay.
  { rewrite <-owned_used by done. pose proof (fromBelow_nonneg f a). lia. }
  destruct (owner s) as [o|] eqn:Ho.
  - assert (alive h o = true) as Hao.
    { destruct fuel; [by apply not_elem_of_nil in Hy|]. simpl in Hy. unfold alive.
      destruct (h !! o) as [so|]; [|by apply not_elem_of_nil in Hy].
      destruct (done so); [by apply not_elem_of_nil in Hy|done]. }
    assert (alive h a = true) as Haa by (unfold alive; by rewrite Ha, Hd).
    etrans; [|by apply (IH o)].
    pose proof (owned_used f a Haa). pose proof (fromBelow_nonneg f a).
    pose proof (span_owned f a s o Ha Ho). unfold owns at 2. rewrite Hao. pose proof (Hl o f). lia.
  - pose proof (edge_owned f a s y Ha Hy). rewrite <-owned_used by done. pose proof (owns_nonneg f y). lia.
Qed.
End balance.

(** *** Taking and giving back, in balance *)

Lemma ledgered_ok l a d : ledger_ok l -> stat_nonneg d -> ledger_ok (ledgered l a d).
Proof. intros Hl Hd b f. unfold ledgered. specialize (Hl b f). specialize (Hd f). case_bool_decide; lia. Qed.

Lemma charge_balanced c d `{!ChargeLaws c d} l h a s h' : wf h -> balanced l h -> h !! a = Some s ->
  chargeScope (S a) c h a = (h', None) ->
  wf h' /\ balanced (ledgered l a d) h' /\ only_counters h h'.
Proof.
  intros Hwf Hb Ha E. destruct (chargeScope_ok c d (S a) h a s h' Hwf ltac:(lia) Ha E) as (Hwf' & Ho & Hal & Hg).
  split_and!; [done| |done]. intros y f Hy.
  rewrite gap_ledger, Hg, (weight_only h h') by done. rewrite (alive_only h) in Hy by done.
  rewrite (Hb y f Hy). lia.
Qed.

(** The ledger after [d] was given back at [a]. *)
Definition returned (l : ledger) (a : nat) (d : ScopeStat) : ledger :=
  fun b f => if bool_decide (b = a) then l b f - get f d else l b f.

Lemma gap_returned l h f a d y : gap (returned l a d) h f y = gap l h f y + weight h a y * get f d.
Proof.
  pose proof (gap_ledger (returned l a d) h f a d y) as H.
  assert (forall b f, ledgered (returned l a d) a d b f = l b f) as E.
  { intros b f'. unfold ledgered, returned. case_bool_decide; lia. }
  assert (gap (ledgered (returned l a d) a d) h f y = gap l h f y) as E'.
  { unfold gap, due. f_equal. assert (forall b, owns (ledgered (returned l a d) a d) h f b = owns l h f b) as Eo.
    { intros b. unfold owns. by rewrite E. }
    rewrite Eo. f_equal. by apply fromBelow_ext. }
  lia.
Qed.

Lemma return_balanced c d `{!ChargeLaws c d} l h a : wf h -> balanced l h -> ledger_ok l ->
  (forall f, get f d <= l a f) ->
  wf (returnScope (S a) c h a) /\ balanced (returned l a d) (returnScope (S a) c h a) /\
  only_counters h (returnScope (S a) c h a) /\ ledger_ok (returned l a d).
Proof.
  intros Hwf Hb Hl Hd.
  destruct (returnScope_ok c d (S a) h a Hwf) as (Hwf' & Ho & _ & Hg); [lia| |].
  { intros y Hy Hay f.
    assert (alive h a = true) as Haa.
    { simpl in Hy. unfold alive. destruct (h !! a) as [s|]; [|set_solver]. destruct (done s); [set_solver|done]. }
    etrans; [|by apply (covered l h Hwf Hl Hb f (S a) a y)].
    unfold owns. rewrite Haa. pose proof (inSpans_nonneg h Hwf f a). specialize (Hd f). lia. }
  split_and!; [done| |done|].
  - intros y f Hy. rewrite (alive_only h) in Hy by done.
    rewrite gap_returned, Hg, (weight_only h _ a y Ho), (Hb y f Hy) by done. lia.
  - intros b f. unfold returned. case_bool_decide as E; [subst; specialize (Hd f); lia|apply Hl].
Qed.

(** *** Closing a scope *)

Definition closed (s : scope) : scope :=
  mkScope true (refCnt s) (spanID s) (mkResources (limit (rc s)) stat_zero) (owner s) (edges s) (name s).

Lemma gap_close l h f a s y : wf h -> h !! a = Some s -> done s = false -> y <> a ->
  gap l (<[a := closed s]> h) f y =
  gap l h f y + occ y (edges s) * owns l h f a +
  match owner s with Some o => weight h o y * get f (used (rc s)) | None => 0 end.
Proof.
  intros Hwf Ha Hd Hy. unfold gap, due.
  assert (usedOf (<[a := closed s]> h) f y = usedOf h f y) as -> by (unfold usedOf; by rewrite lookup_insert_ne).
  rewrite (fromBelow_update _ h a s (closed s) y Ha) by done.
  set (u := get f (used (rc s))). set (h' := <[a := closed s]> h).
  set (w1 b := owns l h f b + (if is_owner b s then (if alive h b then - u else 0) else 0)).
  assert (is_owner a s = false) as Hself.
  { unfold is_owner. apply bool_decide_eq_false_2. intros Ho.
    destruct (wf_owner h Hwf a s a Ha Ho) as [? _]. lia. }
  assert (forall b, b <> a -> owns l h' f b = w1 b) as Hne.
  { intros b Hb. unfold owns, w1, owns. unfold h'. rewrite (inSpans_insert h f a s (closed s) b Ha) by done.
    assert (alive (<[a := closed s]> h) b = alive h b) as -> by (unfold alive; by rewrite lookup_insert_ne).
    destruct (alive h b); [|by destruct (is_owner b s)]. destruct (is_owner b s); simpl; [|lia].
    assert (get f stat_zero = 0) as -> by (by destruct f). unfold u. lia. }
  assert (owns l h' f a = w1 a + - owns l h f a) as Heq.
  { unfold owns at 1, w1, alive, h'. rewrite lookup_insert_eq, Hself. simpl. lia. }
  rewrite (fromBelow_own w1 (owns l h' f) h a s y _ Ha Hne Heq), (Hne y Hy).
  pose proof (weight_owner h a s y (- u) Hwf Ha (owns l h f) w1 ltac:(done)) as W.
  destruct (owner s); lia.
Qed.

Lemma scope_wf_close h a s : wf h -> h !! a = Some s -> wf (<[a := closed s]> h).
Proof.
  intros Hwf Ha. apply (wf_place h a s); [done..| |done].
  destruct (wf_sane h Hwf a s Ha) as [Hl (Hn & Hm & _)]. pose proof (Hn FMemory). simpl in *.
  split; [done|]. split; [by_field; lia|]. simpl. split; [lia|]. split_and!; intros; lia.
Qed.

Definition refCntOf (h : heap) (a : nat) : Z := match h !! a with Some s => refCnt s | None => 0 end.

Lemma refCntOf_only h h' a : only_counters h h' -> refCntOf h' a = refCntOf h a.
Proof.
  intros H. unfold refCntOf. specialize (H a). destruct (h !! a), (h' !! a); try done. by destruct H as [-> _].
Qed.

Lemma refCntOf_DecRef h a x : is_Some (h !! a) -> refCntOf (DecRef h a) x = refCntOf h x - occ x [a].
Proof.
  intros [s Ha]. unfold refCntOf, DecRef, occ. case_bool_decide as E.
  - apply list_elem_of_singleton in E as ->. rewrite lookup_alter_eq, Ha. done.
  - rewrite lookup_alter_ne by set_solver. lia.
Qed.

Lemma refCntOf_IncRef h a x : is_Some (h !! a) -> refCntOf (IncRef h a) x = refCntOf h x + occ x [a].
Proof.
  intros [s Ha]. unfold refCntOf, IncRef, occ. case_bool_decide as E.
  - apply list_elem_of_singleton in E as ->. rewrite lookup_alter_eq, Ha. done.
  - rewrite lookup_alter_ne by set_solver. lia.
Qed.

(** The edges are told one after the other, and each loses a reference. *)
Lemma release_edges_ok st es : stat_ok st -> forall h, wf h -> plain h es -> NoDup es ->
  (forall e, e ∈ es -> alive h e = true -> has st h e) ->
  let h' := foldl (fun h e => DecRef (ReleaseForChild h e st) e) h es in
  wf h' /\ same_places h h' /\
  (forall y, y ∉ es -> h' !! y = h !! y) /\
  (forall x, refCntOf h' x = refCntOf h x - occ x es) /\
  forall l f y, alive h y = true -> gap l h' f y = gap l h f y - occ y es * get f st.
Proof.
  intros Hst. pose proof (statCharge_laws st Hst) as laws.
  induction es as [|e es IH]; intros h Hwf Hp Hnd Hhas; simpl.
  { split_and!; [done..| |]; intros; unfold occ; rewrite bool_decide_eq_false_2 by set_solver; lia. }
  apply NoDup_cons in Hnd as [Hne Hnd].
  destruct (returnChild_ok (statCharge st) st h e Hwf) as (Hwf1 & Ho1 & Hoth & Hg1).
  { intros x ->%list_elem_of_singleton. apply Hp. left. }
  { apply Hhas. left. }
  set (h1 := returnChild (statCharge st) h e) in *.
  assert (forall s, same_place s (set_refCnt (refCnt s - 1) s) /\ rc (set_refCnt (refCnt s - 1) s) = rc s)
    as Href by done.
  assert (same_places h (DecRef h1 e)) as Hs1.
  { etrans; [by apply only_same|]. by apply same_alter. }
  assert (wf (DecRef h1 e)) as Hwf1' by (by apply scope_wf_alter).
  assert (forall y, y <> e -> DecRef h1 e !! y = h !! y) as Hoth1.
  { intros y Hy. unfold DecRef. rewrite lookup_alter_ne by done. by apply Hoth. }
  destruct (IH (DecRef h1 e) Hwf1') as (Hwf2 & Hs2 & Hoth2 & Hr2 & Hg2).
  { eapply plain_same; [done|]. intros x Hx. apply Hp. by right. }
  { done. }
  { intros x Hx Hax f. unfold usedOf. rewrite Hoth1 by (intros ->; done).
    rewrite (alive_same h) in Hax by done. apply (Hhas x); [by right|done]. }
  split_and!; [done|by etrans| | |].
  - intros y Hy. rewrite Hoth2 by set_solver. apply Hoth1. set_solver.
  - intros x. rewrite Hr2, refCntOf_DecRef.
    + rewrite (refCntOf_only h h1) by done. rewrite (occ_cons x e es Hne). lia.
    + destruct (Hp e ltac:(left)) as (t & Ht & _).
      destruct (only_counters_lookup h h1 e t Ho1 Ht) as (t' & ? & _). eauto.
  - intros l f y Hy. rewrite Hg2 by (by rewrite (alive_same h)).
    unfold DecRef at 1. rewrite gap_alter by done. rewrite Hg1, (occ_cons y e es Hne) by done. lia.
Qed.


(** No open scope has an edge to [a]. *)
Definition unheld (h : heap) (a : nat) : Prop :=
  forall b t, h !! b = Some t -> a ∈ edges t -> done t = true.

Lemma unheld_same h h' a : same_places h h' -> unheld h a -> unheld h' a.
Proof.
  intros Hs Hu b t Hb Ha. destruct (same_lookup_inv h h' b t Hs Hb) as (t0 & Hb0 & Hd & _ & He).
  rewrite Hd. apply (Hu b t0 Hb0). by rewrite <-He.
Qed.

Lemma unheld_below l h f a : unheld h a -> fromBelow (owns l h f) h a = 0.
Proof.
  intros Hu. apply msum_zero. intros b t Hb. unfold occ. case_bool_decide as Hin; [|lia].
  unfold owns, alive. rewrite Hb, (Hu b t Hb Hin). simpl. lia.
Qed.

(** What closing tells the others, before the scope itself is closed. *)
Lemma done_releases l h a s : wf h -> balanced l h -> ledger_ok l ->
  h !! a = Some s -> done s = false -> unheld h a ->
  exists h1, doneUnlocked h a = <[a := closed s]> h1 /\ h1 !! a = Some s /\
    wf h1 /\ same_places h h1 /\
    (forall x, refCntOf h1 x = refCntOf h x - (occ x (edges s) + if is_owner x s then 1 else 0)) /\
    forall f y, alive h y = true -> y <> a ->
      gap l (<[a := closed s]> h1) f y = gap l h f y.
Proof.
  intros Hwf Hb Hl Ha Hd Hu. set (stat := used (rc s)).
  assert (alive h a = true) as Haa by (unfold alive; by rewrite Ha, Hd).
  assert (forall f, get f stat = usedOf h f a) as Hstat by (intros f; unfold usedOf; by rewrite Ha).
  destruct (sane_counters _ (wf_sane h Hwf a s Ha)) as (_ & Hn & Hm & Hmax).
  assert (stat_ok stat) as Hst by (split; [done|unfold stat; lia]).
  pose proof (statCharge_laws stat Hst) as laws.
  assert (forall h1, h1 !! a = Some s -> alter closed a h1 = <[a := closed s]> h1) as Hfin
    by (intros; by apply alter_present).
  unfold doneUnlocked. rewrite Ha, Hd. fold stat.
  destruct (owner s) as [o|] eqn:Ho.
  - destruct (wf_owner h Hwf a s o Ha Ho) as (Hlt & He & _).
    assert (a ∉ touched (S o) h o) as Hna.
    { intros Hin. destruct (touched_up (S o) h o a Hwf Hin) as [|(t & Ht & Hno)]; [lia|congruence]. }
    destruct (returnScope_ok (statCharge stat) stat (S o) h o Hwf) as (Hwf1 & Ho1 & Hoth & Hg1); [lia| |].
    { intros y Hy Hay f. rewrite Hstat. etrans; [by apply (span_owned h Hwf f a s o)|].
      etrans; [|by apply (covered l h Hwf Hl Hb f (S o) o y)]. unfold owns.
      assert (alive h o = true) as ->.
      { simpl in Hy. unfold alive. destruct (h !! o) as [so|]; [|set_solver]. destruct (done so); [set_solver|done]. }
      pose proof (Hl o f). lia. }
    unfold ReleaseResources. set (hr := returnScope (S o) (statCharge stat) h o) in *.
    assert (DecRef hr o !! a = Some s) as Has.
    { unfold DecRef. rewrite lookup_alter_ne by lia. by rewrite Hoth. }
    assert (same_places h (DecRef hr o)) as Hsame.
    { etrans; [by apply only_same|]. by apply same_alter. }
    assert (wf (DecRef hr o)) as Hwf2 by (by apply scope_wf_alter).
    exists (DecRef hr o). split_and!; [by apply Hfin|done..| |].
    { intros x. destruct (wf_owner h Hwf a s o Ha Ho) as (_ & _ & so & Hso).
      destruct (only_counters_lookup h hr o so Ho1 Hso) as (so' & Hso' & _).
      rewrite refCntOf_DecRef by eauto. rewrite (refCntOf_only h hr) by done.
      unfold occ, is_owner. rewrite He, Ho, (bool_decide_eq_false_2 (x ∈ [])) by set_solver.
      repeat case_bool_decide; set_solver by (lia || congruence). }
    intros f y Hy Hya.
    rewrite (gap_close l (DecRef hr o) f a s y Hwf2 Has Hd Hya), Ho, He.
    rewrite (weight_same h) by done. unfold DecRef at 1. rewrite gap_alter, Hg1 by done.
    unfold occ. rewrite (bool_decide_eq_false_2 (y ∈ [])) by set_solver. fold stat. lia.
  - destruct (release_edges_ok stat (edges s) Hst h Hwf) as (Hwf1 & Hsame & Hoth & Hr1 & Hg1).
    { intros e He. by destruct (wf_edges h Hwf a s e Ha He) as [_ ?]. }
    { exact (wf_nodup h Hwf a s Ha). }
    { intros e He Hae f. rewrite Hstat, <-(owned_used l h Hb f a Haa), (unheld_below l h f a Hu), Z.add_0_r.
      apply (covered l h Hwf Hl Hb f (S a) a e); [|done]. simpl. rewrite Ha, Hd, Ho. by right. }
    set (h1 := foldl _ h (edges s)) in *.
    assert (a ∉ edges s) as Hna by (intros He; by destruct (wf_edges h Hwf a s a Ha He) as [? _]).
    assert (h1 !! a = Some s) as Has by (by rewrite Hoth).
    exists h1. split_and!; [by apply Hfin|done..| |].
    { intros x. rewrite Hr1. unfold is_owner. rewrite Ho, bool_decide_eq_false_2 by done. lia. }
    intros f y Hy Hya.
    rewrite (gap_close l h1 f a s y Hwf1 Has Hd Hya), Ho, Hg1 by done.
    assert (owns l h1 f a = get f stat) as ->; [|lia].
    pose proof (Hg1 l f a Haa) as Hga. rewrite (Hb a f Haa) in Hga.
    unfold occ in Hga. rewrite bool_decide_eq_false_2 in Hga by done.
    unfold gap, due in Hga. rewrite (unheld_below l h1 f a) in Hga by (by eapply unheld_same).
    unfold usedOf in Hga. rewrite Has in Hga. fold stat in Hga. lia.
Qed.

Lemma done_balanced l h a s : wf h -> balanced l h -> ledger_ok l ->
  h !! a = Some s -> done s = false -> unheld h a ->
  wf (doneUnlocked h a) /\ balanced l (doneUnlocked h a) /\
  exists h1, doneUnlocked h a = <[a := closed s]> h1 /\ same_places h h1 /\ h1 !! a = Some s.
Proof.
  intros Hwf Hb Hl Ha Hd Hu.
  destruct (done_releases l h a s Hwf Hb Hl Ha Hd Hu) as (h1 & -> & Has & Hwf1 & Hsame & _ & Hg).
  split_and!; [by apply scope_wf_close| |eauto]. intros y f Hy.
  assert (y <> a) as Hya. { intros ->. unfold alive in Hy. by rewrite lookup_insert_eq in Hy. }
  assert (alive h y = true) as Hay.
  { rewrite <-(alive_same h h1) by done. unfold alive in *. by rewrite lookup_insert_ne in Hy. }
  rewrite Hg by done. by apply Hb.
Qed.

(** *** References

    The reference count of a scope is what its creators hold ([base]) and the open scopes
    with an edge to it and its open spans. *)

Definition holds (x : nat) (s : scope) : Z :=
  if done s then 0 else occ x (edges s) + if is_owner x s then 1 else 0.

Definition holders (h : heap) (x : nat) : Z := msum (fun _ s => holds x s) h.

Definition counted (base : nat -> Z) (h : heap) : Prop :=
  forall x, is_Some (h !! x) -> refCntOf h x = base x + holders h x.

Lemma holds_place x s s' : same_place s s' -> holds x s' = holds x s.
Proof. intros (Hd & Ho & He). unfold holds, is_owner. by rewrite Hd, Ho, He. Qed.

Lemma holds_range x s : 0 <= holds x s.
Proof. unfold holds. pose proof (occ_range x (edges s)). destruct (done s), (is_owner x s); lia. Qed.

Lemma holders_place h a s s' x : h !! a = Some s -> same_place s s' -> holders (<[a := s']> h) x = holders h x.
Proof. intros Ha Hp. unfold holders. rewrite (msum_update _ h a s s' Ha), (holds_place x s s' Hp). lia. Qed.

Lemma holders_same h h' x : same_places h h' -> holders h' x = holders h x.
Proof.
  revert h'. induction h as [|k s h Hk IH] using map_ind; intros h' Ho.
  - assert (h' = ∅) as ->; [|done]. apply map_empty. intros b. specialize (Ho b). rewrite lookup_empty in Ho.
    by destruct (h' !! b).
  - pose proof (Ho k) as Hok. rewrite lookup_insert_eq in Hok. destruct (h' !! k) as [s'|] eqn:Hs'; [|done].
    unfold holders. rewrite msum_insert_new by done. rewrite (msum_delete _ h' k s' Hs').
    assert (same_places h (delete k h')) as Hd.
    { intros b. destruct (decide (b = k)) as [->|]; [by rewrite Hk, lookup_delete_eq|].
      specialize (Ho b). rewrite lookup_insert_ne in Ho by done. by rewrite lookup_delete_ne. }
    specialize (IH _ Hd). unfold holders in IH. rewrite IH. f_equal. by apply holds_place.
Qed.

Lemma counted_only base h h' : only_counters h h' -> counted base h -> counted base h'.
Proof.
  intros Ho Hc x Hx. rewrite (refCntOf_only h h'), (holders_same h h') by (done || by apply only_same). apply Hc.
  specialize (Ho x). destruct Hx as [s' Hs']. rewrite Hs' in Ho. destruct (h !! x); [eauto|done].
Qed.

(** Everything that holds of the heap between operations. *)
Record good (l : ledger) (base : nat -> Z) (h : heap) : Prop := {
  good_wf : wf h;
  good_balanced : balanced l h;
  good_ledger : ledger_ok l;
  good_counted : counted base h;
  good_fresh a : h !! a = None -> (forall f, l a f = 0) /\ base a = 0
}.

Lemma good_charge c d `{!ChargeLaws c d} l base h a s h' : good l base h -> h !! a = Some s ->
  chargeScope (S a) c h a = (h', None) -> good (ledgered l a d) base h' /\ only_counters h h'.
Proof.
  intros [Hwf Hb Hl Hc Hf] Ha E.
  destruct (charge_balanced c d l h a s h' Hwf Hb Ha E) as (Hwf' & Hb' & Ho). split; [|done]. split; [done|done| | |].
  - apply ledgered_ok; [done|apply charge_nonneg].
  - by eapply counted_only.
  - intros b Hb0. pose proof (Ho b) as Hob. rewrite Hb0 in Hob. destruct (h !! b) eqn:Eb; [done|].
    destruct (Hf b Eb) as [Hz ?]. split; [|done]. intros f. unfold ledgered.
    rewrite bool_decide_eq_false_2; [apply Hz|]. intros ->. congruence.
Qed.

Lemma good_charge_err c d `{!ChargeLaws c d} l base h a h' err : good l base h ->
  chargeScope (S a) c h a = (h', Some err) -> h' = h.
Proof. intros [Hwf _ _ _ _]. by apply (chargeScope_err c d). Qed.

Lemma good_return c d `{!ChargeLaws c d} l base h a : good l base h -> is_Some (h !! a) ->
  (forall f, get f d <= l a f) ->
  good (returned l a d) base (returnScope (S a) c h a) /\ only_counters h (returnScope (S a) c h a).
Proof.
  intros [Hwf Hb Hl Hc Hf] [s Ha] Hd.
  destruct (return_balanced c d l h a Hwf Hb Hl Hd) as (Hwf' & Hb' & Ho & Hl'). split; [|done]. split; [done..| |].
  - by eapply counted_only.
  - intros b Hb0. pose proof (Ho b) as Hob. rewrite Hb0 in Hob. destruct (h !! b) eqn:Eb; [done|].
    destruct (Hf b Eb) as [Hz ?]. split; [|done]. intros f. unfold returned.
    rewrite bool_decide_eq_false_2; [apply Hz|]. intros ->. congruence.
Qed.

Lemma good_done l base h a s : good l base h -> h !! a = Some s -> done s = false -> unheld h a ->
  good l base (doneUnlocked h a) /\
  exists h1, doneUnlocked h a = <[a := closed s]> h1 /\ same_places h h1 /\ h1 !! a = Some s.
Proof.
  intros [Hwf Hb Hl Hc Hf] Ha Hd Hu.
  destruct (done_balanced l h a s Hwf Hb Hl Ha Hd Hu) as (Hwf' & Hb' & _).
  destruct (done_releases l h a s Hwf Hb Hl Ha Hd Hu) as (h1 & E & Has & _ & Hsame & Hr & _).
  split; [|eauto]. split; [done..| |].
  - intros x Hx. rewrite E in *.
    assert (refCntOf (<[a := closed s]> h1) x = refCntOf h1 x) as ->.
    { unfold refCntOf. destruct (decide (x = a)) as [->|].
      - by rewrite lookup_insert_eq, Has.
      - by rewrite lookup_insert_ne. }
    assert (is_Some (h !! x)) as Hx'.
    { assert (is_Some (h1 !! x)) as [t Ht].
      { destruct (decide (x = a)) as [->|]; [eauto|]. by rewrite lookup_insert_ne in Hx. }
      destruct (same_lookup_inv h h1 x t Hsame Ht) as (? & ? & _). eauto. }
    rewrite Hr, (Hc x Hx'). unfold holders at 2. rewrite (msum_update _ h1 a s _ Has).
    fold (holders h1 x). rewrite (holders_same h h1) by done. unfold holds. rewrite Hd. simpl. lia.
  - intros b Hb0. apply Hf. rewrite E in Hb0. apply lookup_insert_None in Hb0 as [Hb0 _].
    specialize (Hsame b). rewrite Hb0 in Hsame. by destruct (h !! b).
Qed.

(** *** New scopes *)

Lemma scope_wf_new h n s0 : wf h -> h !! n = None -> sane (rc s0) -> NoDup (edges s0) -> plain h (edges s0) ->
  match owner s0 with Some o => (o < n)%nat /\ edges s0 = [] /\ is_Some (h !! o) | None => True end ->
  (done s0 = true -> used (rc s0) = stat_zero) -> wf (<[n := s0]> h).
Proof.
  intros [W1 W2 W3 W4 W5] Hn Hs Hnd Hp Ho Hz.
  assert (forall a, is_Some (h !! a) -> a <> n) as Hfresh by (intros a [? ?] ->; congruence).
  split.
  - intros b t [[<- <-]|[? Hb]]%lookup_insert_Some; eauto.
  - intros b t o [[<- <-]|[? Hb]]%lookup_insert_Some Hown.
    + rewrite Hown in Ho. destruct Ho as (? & ? & ?). rewrite lookup_insert_ne by (apply not_eq_sym; auto). auto.
    + destruct (W2 _ _ _ Hb Hown) as (? & ? & ?). rewrite lookup_insert_ne by (apply not_eq_sym; auto). auto.
  - intros b t e [[<- <-]|[? Hb]]%lookup_insert_Some Hin.
    + destruct (Hp e Hin) as (t & ? & ?). assert (e <> n) by (apply Hfresh; eauto).
      split; [done|]. rewrite lookup_insert_ne by done. eauto.
    + destruct (W3 _ _ _ Hb Hin) as (? & t' & ? & ?). assert (e <> n) by (apply Hfresh; eauto).
      split; [done|]. rewrite lookup_insert_ne by done. eauto.
  - intros b t [[<- <-]|[? Hb]]%lookup_insert_Some; eauto.
  - intros b t [[<- <-]|[? Hb]]%lookup_insert_Some; eauto.
Qed.

Lemma fresh_unheld h n x b t : wf h -> h !! n = None -> h !! b = Some t -> x = n ->
  occ x (edges t) = 0 /\ is_owner x t = false.
Proof.
  intros Hwf Hn Hb ->. split.
  - unfold occ. rewrite bool_decide_eq_false_2; [done|]. intros He.
    destruct (wf_edges h Hwf b t n Hb He) as (_ & t' & ? & _). congruence.
  - apply bool_decide_eq_false_2. intros Ho. destruct (wf_owner h Hwf b t n Hb Ho) as (_ & _ & ? & ?). congruence.
Qed.

Lemma inSpans_fresh h f n : wf h -> h !! n = None -> inSpans h f n = 0.
Proof.
  intros Hwf Hn. apply msum_zero. intros b t Hb. by destruct (fresh_unheld h n n b t) as [_ ->].
Qed.

Lemma fromBelow_fresh w h n : wf h -> h !! n = None -> fromBelow w h n = 0.
Proof.
  intros Hwf Hn. apply msum_zero. intros b t Hb. destruct (fresh_unheld h n n b t) as [-> _]; [done..|]. lia.
Qed.

Lemma gap_new l h f n s0 y : wf h -> h !! n = None -> used (rc s0) = stat_zero -> l n f = 0 ->
  n ∉ edges s0 -> owner s0 <> Some n ->
  gap l (<[n := s0]> h) f y = if bool_decide (y = n) then 0 else gap l h f y.
Proof.
  intros Hwf Hn Hu Hl He Ho. assert (get f stat_zero = 0) as Hz by (by destruct f).
  assert (forall b, inSpans (<[n := s0]> h) f b = inSpans h f b) as Hin.
  { intros b. unfold inSpans. rewrite msum_insert_new by done. rewrite Hu, Hz. destruct (is_owner b s0); lia. }
  assert (forall b, owns l (<[n := s0]> h) f b = if bool_decide (b = n) then 0 else owns l h f b) as Hown.
  { intros b. unfold owns. rewrite Hin. case_bool_decide as E.
    - subst b. rewrite Hl, inSpans_fresh by done. by destruct (alive _ n).
    - unfold alive. by rewrite lookup_insert_ne by done. }
  assert (fromBelow (owns l (<[n := s0]> h) f) (<[n := s0]> h) y = fromBelow (owns l h f) h y) as Hfb.
  { unfold fromBelow. rewrite msum_insert_new by done. rewrite (Hown n), bool_decide_eq_true_2 by done.
    rewrite Z.mul_0_r. apply msum_ext. intros b t Hb. rewrite Hown, bool_decide_eq_false_2; [done|].
    intros ->. congruence. }
  unfold gap, due. rewrite Hfb, Hown. unfold usedOf. case_bool_decide as E.
  - subst y. rewrite lookup_insert_eq, Hu, Hz, fromBelow_fresh by done. done.
  - by rewrite lookup_insert_ne.
Qed.

(** Between the steps of an operation that moves a scope with the counters [u], what the
    others count may be off by [u], as often as [a] says, and their references by [r]. *)
Record shifted (l : ledger) (base : nat -> Z) (h : heap) (u : ScopeStat) (a r : nat -> Z) : Prop := {
  shifted_wf : wf h;
  shifted_gap y f : alive h y = true -> gap l h f y = a y * get f u;
  shifted_ledger : ledger_ok l;
  shifted_refs x : is_Some (h !! x) -> refCntOf h x = base x + holders h x + r x;
  shifted_fresh x : h !! x = None -> (forall f, l x f = 0) /\ base x = 0
}.

Lemma good_shifted l base h u : good l base h <-> shifted l base h u (fun _ => 0) (fun _ => 0).
Proof.
  split; intros [Hwf Hg Hl Hc Hf]; split; try done.
  - intros x Hx. rewrite (Hc x Hx). lia.
  - intros x Hx. rewrite (Hc x Hx). lia.
Qed.

Lemma shifted_insert l base h h0 n s0 u a r : shifted l base h0 u a r -> same_places h0 h -> wf h ->
  (forall f y, gap l h f y = gap l h0 f y) ->
  h !! n = None -> sane (rc s0) -> used (rc s0) = stat_zero -> refCnt s0 = 0 -> done s0 = false ->
  NoDup (edges s0) -> plain h (edges s0) ->
  match owner s0 with Some o => (o < n)%nat /\ edges s0 = [] /\ is_Some (h !! o) | None => True end ->
  (forall x, refCntOf h x = refCntOf h0 x + holds x s0) -> a n = 0 -> r n = 0 ->
  shifted l base (<[n := s0]> h) u a r.
Proof.
  intros [Hwf0 Hb0 Hl Hc Hf] Hsame Hwf Hb Hn Hs Hu Hr Hd Hnd Hp Ho Hrc Han Hrn.
  assert (h0 !! n = None) as Hn0.
  { specialize (Hsame n). rewrite Hn in Hsame. by destruct (h0 !! n). }
  assert (n ∉ edges s0) as He by (intros Hin; destruct (Hp n Hin) as (? & ? & _); congruence).
  assert (owner s0 <> Some n) as Hon.
  { intros E. rewrite E in Ho. destruct Ho as (? & _). lia. }
  split; [by apply scope_wf_new| |done| |].
  - intros y f Hy. rewrite (gap_new l h f n s0 y); [|done..|by apply Hf|done|done].
    case_bool_decide as E; [subst y; rewrite Han; lia|]. rewrite Hb. apply Hb0.
    rewrite <-(alive_same h0 h) by done. unfold alive in *. by rewrite lookup_insert_ne in Hy.
  - intros x Hx. unfold holders. rewrite msum_insert_new by done.
    fold (holders h x). rewrite (holders_same h0 h) by done. unfold refCntOf.
    destruct (decide (x = n)) as [->|].
    + rewrite lookup_insert_eq, Hr, Hrn. destruct (Hf n Hn0) as [_ ->].
      assert (holds n s0 = 0) as ->.
      { unfold holds, occ, is_owner. rewrite Hd, !bool_decide_eq_false_2 by done. lia. }
      assert (holders h0 n = 0) as ->; [|lia]. apply msum_zero. intros b t Hb'.
      destruct (fresh_unheld h0 n n b t) as [E1 E2]; [done..|]. unfold holds. rewrite E1, E2. by destruct (done t).
    + rewrite lookup_insert_ne in * by done. specialize (Hrc x). unfold refCntOf in Hrc. rewrite Hrc.
      assert (is_Some (h0 !! x)) as Hx0.
      { destruct Hx as [t Ht]. destruct (same_lookup_inv h0 h x t Hsame Ht) as (? & ? & _). eauto. }
      specialize (Hc x Hx0). unfold refCntOf in Hc. lia.
  - intros b Hb'. apply lookup_insert_None in Hb' as [Hb' _]. apply Hf.
    specialize (Hsame b). rewrite Hb' in Hsame. by destruct (h0 !! b).
Qed.

Lemma sane_zero lim : limit_ok lim -> sane (mkResources lim stat_zero).
Proof.
  intros [H0 H1]. split; [done|]. split; [by_field; lia|]. simpl. split; [lia|]. split_and!; intros; lia.
Qed.

Lemma incRefs_ok es : forall h, wf h -> (forall e, e ∈ es -> is_Some (h !! e)) -> NoDup es ->
  let h' := foldl IncRef h es in
  wf h' /\ same_places h h' /\ (forall l f y, gap l h' f y = gap l h f y) /\
  forall x, refCntOf h' x = refCntOf h x + occ x es.
Proof.
  induction es as [|e es IH]; intros h Hwf Hp Hnd; simpl.
  { split_and!; [done..|]. intros x. unfold occ. rewrite bool_decide_eq_false_2 by set_solver. lia. }
  apply NoDup_cons in Hnd as [Hne Hnd].
  assert (forall s, same_place s (set_refCnt (refCnt s + 1) s) /\ rc (set_refCnt (refCnt s + 1) s) = rc s)
    as Href by done.
  assert (wf (IncRef h e)) as Hwf1 by (by apply scope_wf_alter).
  assert (same_places h (IncRef h e)) as Hs1 by (by apply same_alter).
  destruct (IH (IncRef h e) Hwf1) as (Hwf2 & Hs2 & Hg2 & Hr2); [|done|].
  { intros x Hx. destruct (Hp x ltac:(by right)) as [t Ht].
    destruct (same_lookup h _ x t Hs1 Ht) as (t' & ? & _). eauto. }
  split_and!; [done|by etrans| |].
  - intros l f y. rewrite Hg2. by apply gap_alter.
  - intros x. rewrite Hr2, refCntOf_IncRef by (apply Hp; left). rewrite (occ_cons x e es Hne). lia.
Qed.

Lemma same_places_None h h' a : same_places h h' -> h !! a = None -> h' !! a = None.
Proof. intros H Ha. specialize (H a). rewrite Ha in H. by destruct (h' !! a). Qed.

Lemma shifted_newScope l base h n lim es txt u a r : shifted l base h u a r -> h !! n = None ->
  limit_ok lim -> NoDup es -> plain h es -> a n = 0 -> r n = 0 ->
  shifted l base (newResourceScope h n lim es txt) u a r.
Proof.
  intros Hg Hn Hlim Hnd Hp Han Hrn.
  destruct (incRefs_ok es h (shifted_wf _ _ _ _ _ _ Hg)) as (Hwf' & Hs & Hgap & Hr); [|done|].
  { intros e He. destruct (Hp e He) as (? & ? & _). eauto. }
  unfold newResourceScope. eapply (shifted_insert l base _ h).
  - done.
  - done.
  - done.
  - intros; apply Hgap.
  - by eapply same_places_None.
  - by apply sane_zero.
  - done.
  - done.
  - done.
  - done.
  - by eapply plain_same.
  - done.
  - intros x. rewrite Hr. unfold holds, is_owner. simpl. lia.
  - done.
  - done.
Qed.

Lemma good_span l base h a n s h' : good l base h -> h !! a = Some s -> h !! n = None -> (a < n)%nat ->
  BeginSpan h a n = (h', None) -> good l base h' /\ done s = false /\
  exists t, h' !! n = Some t /\ owner t = Some a /\ done t = false /\ used (rc t) = stat_zero.
Proof.
  intros Hg Ha Hn Hlt. unfold BeginSpan. rewrite Ha. destruct (done s) eqn:Hd; [done|]. intros [= <-].
  set (s' := mkScope false (refCnt s + 1) _ _ _ _ _).
  assert (same_place s s') as Hp by (by split).
  pose proof (good_wf _ _ _ Hg) as Hwf. pose proof (wf_sane h Hwf a s Ha) as Hs.
  assert (same_places h (<[a := s']> h)) as Hsame.
  { rewrite <-(alter_present h a (fun _ => s') s Ha). intros b. destruct (decide (b = a)) as [->|].
    - by rewrite lookup_alter_eq, Ha.
    - rewrite lookup_alter_ne by done. by destruct (h !! b). }
  split_and!; [|done|].
  - unfold newResourceScopeSpan. apply (good_shifted _ _ _ stat_zero).
    eapply (shifted_insert l base _ h).
    + by apply good_shifted.
    + done.
    + by apply (wf_place h a s).
    + intros f y. rewrite (gap_place l h f a s s' 0 y Hwf Ha Hp); [|simpl; lia]. case_bool_decide; destruct (owner s); lia.
    + rewrite lookup_insert_ne by lia. done.
    + apply sane_zero. by destruct Hs.
    + done.
    + done.
    + done.
    + apply NoDup_nil_2.
    + intros e He. by apply not_elem_of_nil in He.
    + simpl. split_and!; [done..|]. rewrite lookup_insert_eq. eauto.
    + intros x. unfold holds, is_owner. cbn [done edges owner]. rewrite (occ_nil x).
      unfold refCntOf. destruct (decide (x = a)) as [->|].
      * rewrite lookup_insert_eq, Ha, bool_decide_eq_true_2 by done. simpl. lia.
      * rewrite lookup_insert_ne, bool_decide_eq_false_2 by congruence. lia.
    + done.
    + done.
  - unfold newResourceScopeSpan. rewrite lookup_insert_eq. by eexists.
Qed.

(** *** Moving a scope to other edges *)

Lemma gap_edges l h f b s es y : h !! b = Some s ->
  gap l (<[b := set_edges es s]> h) f y =
  gap l h f y + (occ y (edges s) - occ y es) * owns l h f b.
Proof.
  intros Hb. unfold gap, due.
  assert (usedOf (<[b := set_edges es s]> h) f y = usedOf h f y) as ->.
  { unfold usedOf. destruct (decide (y = b)) as [->|]; [by rewrite lookup_insert_eq, Hb|by rewrite lookup_insert_ne]. }
  assert (forall x, owns l (<[b := set_edges es s]> h) f x = owns l h f x) as Ho.
  { intros x. unfold owns. rewrite (alive_insert h b s) by done. rewrite (inSpans_insert h f b s) by done.
    simpl. destruct (is_owner x s); by rewrite ?Z.sub_diag, ?Z.add_0_r. }
  rewrite Ho. unfold fromBelow. rewrite (msum_update _ h b s _ Hb). simpl. rewrite Ho.
  rewrite (msum_ext (fun b0 s0 => occ y (edges s0) * owns l (<[b := set_edges es s]> h) f b0)
             (fun b0 s0 => occ y (edges s0) * owns l h f b0)) by (intros; simpl; by rewrite Ho).
  lia.
Qed.

Lemma holders_edges h b s es x : h !! b = Some s -> done s = false ->
  holders (<[b := set_edges es s]> h) x = holders h x - occ x (edges s) + occ x es.
Proof.
  intros Hb Hd. unfold holders. rewrite (msum_update _ h b s _ Hb). unfold holds. simpl. rewrite Hd.
  unfold is_owner. simpl. lia.
Qed.

Lemma wf_edges_set h b s es : wf h -> h !! b = Some s -> owner s = None -> NoDup es -> plain h es ->
  b ∉ es -> wf (<[b := set_edges es s]> h).
Proof.
  intros [W1 W2 W3 W4 W5] Hb Ho Hnd Hp Hbe.
  assert (forall e t, h !! e = Some t -> owner t = None ->
    exists t', <[b := set_edges es s]> h !! e = Some t' /\ owner t' = None) as Hedge.
  { intros e t He Hn. destruct (decide (e = b)) as [->|].
    - rewrite lookup_insert_eq. by eexists.
    - rewrite lookup_insert_ne by done. eauto. }
  split.
  - intros a t [[<- <-]|[? Ha]]%lookup_insert_Some; [|eauto]. by apply (W1 b s).
  - intros a t o [[<- <-]|[? Ha]]%lookup_insert_Some Hown; [simpl in Hown; congruence|].
    destruct (W2 _ _ _ Ha Hown) as (? & ? & ? & ?). split_and!; [done..|].
    destruct (decide (o = b)) as [->|]; [rewrite lookup_insert_eq; eauto|by rewrite lookup_insert_ne; eauto].
  - intros a t e [[<- <-]|[? Ha]]%lookup_insert_Some Hin.
    + simpl in Hin. destruct (Hp e Hin) as (t & ? & ?). split; [by intros ->|eauto].
    + destruct (W3 _ _ _ Ha Hin) as (? & ? & ? & ?). eauto.
  - intros a t [[<- <-]|[? Ha]]%lookup_insert_Some; [done|eauto].
  - intros a t [[<- <-]|[? Ha]]%lookup_insert_Some; [|eauto]. by apply (W5 b s).
Qed.

(** *** The steps of a move *)

Section moves.
Context (l : ledger) (base : nat -> Z) (st : ScopeStat) (Hst : stat_ok st).

Lemma shifted_only h h' a a' r : shifted l base h st a r -> only_counters h h' -> wf h' ->
  (forall y f, alive h y = true -> gap l h' f y = a' y * get f st) -> shifted l base h' st a' r.
Proof.
  intros [Hwf Hg Hl Hc Hf] Ho Hwf' Hg'. pose proof (only_same h h' Ho) as Hs. split; [done| |done| |].
  - intros y f Hy. apply Hg'. by rewrite <-(alive_only h h').
  - intros x [t Ht]. rewrite (refCntOf_only h h'), (holders_same h h') by done. apply Hc.
    destruct (same_lookup_inv h h' x t Hs Ht) as (? & ? & _). eauto.
  - intros x Hx. apply Hf. specialize (Hs x). rewrite Hx in Hs. by destruct (h !! x).
Qed.

Lemma shift_reserve h e t h' a r : shifted l base h st a r -> h !! e = Some t -> owner t = None ->
  ReserveForChild h e st = (h', None) ->
  shifted l base h' st (fun y => a y + occ y [e]) r /\ only_counters h h' /\ alive h e = true.
Proof.
  intros Hsh He Hn E. pose proof (statCharge_laws st Hst) as laws.
  destruct (chargeChild_ok (statCharge st) st h e t h' (shifted_wf _ _ _ _ _ _ Hsh) He Hn E)
    as (Hwf' & Ho & Hal & Hg & _). split; [|done].
  apply (shifted_only h h' a); [done..|]. intros y f Hy.
  rewrite Hg, (shifted_gap _ _ _ _ _ _ Hsh y f Hy). lia.
Qed.

Lemma shift_reserve_err h e h' err a r : shifted l base h st a r ->
  ReserveForChild h e st = (h', Some err) -> h' = h.
Proof.
  intros Hsh. pose proof (statCharge_laws st Hst) as laws.
  apply (chargeChild_err (statCharge st) st). apply Hsh.
Qed.

(** A scope holds [st] if it was charged for the move, or if an open scope that owns [st]
    has an edge to it. *)
Lemma shift_release h e t a r b sb : shifted l base h st a r -> h !! e = Some t -> owner t = None ->
  h !! b = Some sb -> (forall f, get f st <= owns l h f b) -> 0 <= a e -> 1 <= a e + occ e (edges sb) ->
  shifted l base (ReleaseForChild h e st) st (fun y => a y - occ y [e]) r /\
  only_counters h (ReleaseForChild h e st).
Proof.
  intros Hsh He Hn Hb Hown Ha0 Ha1. pose proof (statCharge_laws st Hst) as laws.
  pose proof (shifted_wf _ _ _ _ _ _ Hsh) as Hwf.
  destruct (returnChild_ok (statCharge st) st h e Hwf) as (Hwf' & Ho & _ & Hg).
  { intros x ->%list_elem_of_singleton. eauto. }
  { intros Hae f. pose proof (shifted_gap _ _ _ _ _ _ Hsh e f Hae) as G. unfold gap, due in G.
    pose proof (shifted_ledger _ _ _ _ _ _ Hsh) as Hl.
    pose proof (owns_nonneg l h Hwf Hl f e). pose proof (fromBelow_nonneg l h Hwf Hl f e).
    destruct Hst as [Hnn _]. specialize (Hnn f). specialize (Hown f).
    unfold occ in Ha1. case_bool_decide as Hin.
    - pose proof (edge_owned l h Hwf Hl f b sb e Hb Hin). nia.
    - nia. }
  split; [|done]. apply (shifted_only h _ a); [done..|]. intros y f Hy.
  unfold ReleaseForChild. rewrite Hg, (shifted_gap _ _ _ _ _ _ Hsh y f Hy) by done. lia.
Qed.

Lemma shift_ref h e d a r : shifted l base h st a r -> is_Some (h !! e) ->
  shifted l base (alter (fun s => set_refCnt (refCnt s + d) s) e h) st a (fun x => r x + occ x [e] * d) /\
  same_places h (alter (fun s => set_refCnt (refCnt s + d) s) e h).
Proof.
  intros [Hwf Hg Hl Hc Hf] [t Ht].
  set (g := fun s : scope => set_refCnt (refCnt s + d) s).
  assert (forall s, same_place s (g s) /\ rc (g s) = rc s) as Hpl by done.
  assert (same_places h (alter g e h)) as Hs by (by apply same_alter).
  split; [|done]. split; [by apply scope_wf_alter| |done| |].
  - intros y f Hy. rewrite gap_alter by done. apply Hg. by rewrite <-(alive_same h _ y Hs).
  - intros x [t' Ht']. rewrite (holders_same h _ x Hs).
    destruct (same_lookup_inv h _ x t' Hs Ht') as (tx & Htx & _).
    assert (refCntOf (alter g e h) x = refCntOf h x + occ x [e] * d) as ->.
    { unfold refCntOf, occ. case_bool_decide as E.
      - apply list_elem_of_singleton in E as ->. rewrite lookup_alter_eq, Ht. simpl. lia.
      - rewrite lookup_alter_ne by set_solver. lia. }
    rewrite (Hc x) by eauto. lia.
  - intros x Hx. apply Hf. specialize (Hs x). rewrite Hx in Hs. by destruct (h !! x).
Qed.

Lemma shift_edges h b sb es a r : shifted l base h st a r -> h !! b = Some sb -> done sb = false ->
  owner sb = None -> NoDup es -> plain h es -> b ∉ es -> (forall f, owns l h f b = get f st) ->
  shifted l base (<[b := set_edges es sb]> h) st
    (fun y => a y + (occ y (edges sb) - occ y es)) (fun x => r x + (occ x (edges sb) - occ x es)).
Proof.
  intros [Hwf Hg Hl Hc Hf] Hb Hd Ho Hnd Hp Hbe Hown. split; [by apply wf_edges_set| |done| |].
  - intros y f Hy. rewrite (gap_edges l h f b sb es y Hb), Hown, Hg; [lia|].
    by rewrite <-(alive_insert h b sb (set_edges es sb) y Hb).
  - intros x Hx. rewrite (holders_edges h b sb es x Hb Hd).
    assert (is_Some (h !! x)) as Hx'.
    { destruct (decide (x = b)) as [->|]; [eauto|]. by rewrite lookup_insert_ne in Hx. }
    assert (refCntOf (<[b := set_edges es sb]> h) x = refCntOf h x) as ->.
    { unfold refCntOf. destruct (decide (x = b)) as [->|]; [by rewrite lookup_insert_eq, Hb|].
      by rewrite lookup_insert_ne. }
    rewrite (Hc x Hx'). lia.
  - intros x [Hx _]%lookup_insert_None. by apply Hf.
Qed.

(** A scope nobody charges owns all it counts. *)
Lemma shifted_owns h b sb a r f : shifted l base h st a r -> h !! b = Some sb -> done sb = false ->
  unheld h b -> a b = 0 -> owns l h f b = get f (used (rc sb)).
Proof.
  intros [Hwf Hg _ _ _] Hb Hd Hu Ha.
  assert (alive h b = true) as Hal by (unfold alive; by rewrite Hb, Hd).
  specialize (Hg b f Hal). rewrite Ha in Hg. unfold gap, due in Hg.
  rewrite (unheld_below l h f b Hu) in Hg. unfold usedOf in Hg. rewrite Hb in Hg. lia.
Qed.
End moves.

Lemma shifted_ext l base h u a a' r r' : shifted l base h u a r ->
  (forall y, a' y = a y) -> (forall x, r' x = r x) -> shifted l base h u a' r'.
Proof.
  intros [Hwf Hg Hl Hc Hf] Ea Er. split; [done| |done| |done].
  - intros y f Hy. rewrite Ea. by apply Hg.
  - intros x Hx. rewrite Er. by apply Hc.
Qed.
