(* ===== verification/ConnLimiter.v ===== *)
(** * Connections per address

    The limiter of connections per IP address and subnet that go-libp2p consults before it
    opens a connection (src/myvendor/go-libp2p, p2p/host/resource-manager/conn_limiter.go),
    with the parts of [net/netip] it uses.  The two address families have tables of their
    own; [family] is the four of one of them. *)

From S2P Require Import Prelude GoLib.

(** ** Addresses and prefixes *)

(** A valid [netip.Addr] without a zone. *)
Inductive Addr := V4 (v : Z) | V6 (v : Z).

Definition Is6 (ip : Addr) : bool := match ip with V4 _ => false | V6 _ => true end.
Definition BitLen (ip : Addr) : Z := match ip with V4 _ => 32 | V6 _ => 128 end.
Definition value (ip : Addr) : Z := match ip with V4 v | V6 v => v end.

(** A prefix: is it of IPv6, its length, and its address with the other bits cleared. *)
Notation Prefix := (bool * Z * Z)%type.

Definition mask (width b v : Z) : Z := Z.shiftl (Z.shiftr v (width - b)) (width - b).

(** [Addr.Prefix] *)
Definition prefixOf (ip : Addr) (b : Z) : option Prefix :=
  if (b <? 0) || (BitLen ip <? b) then None else Some (Is6 ip, b, mask (BitLen ip) b (value ip)).

(** [Prefix.Contains] *)
Definition Contains (p : Prefix) (ip : Addr) : bool :=
  let '(six, b, v) := p in
  eqb six (Is6 ip) && (mask (BitLen ip) b v =? mask (BitLen ip) b (value ip)).

(** ** The limiter *)

Record ConnLimitPerSubnet := mkSubnetLimit { PrefixLength : Z; subnetConns : Z }.
Record NetworkPrefixLimit := mkNetLimit { Network : Prefix; netConns : Z }.

Definition defaultMaxConcurrentConns : Z := 8.
Definition defaultIP4Limit : ConnLimitPerSubnet := mkSubnetLimit 32 defaultMaxConcurrentConns.
Definition defaultIP6Limits : list ConnLimitPerSubnet :=
  [mkSubnetLimit 56 defaultMaxConcurrentConns; mkSubnetLimit 48 (8 * defaultMaxConcurrentConns)].
Definition DefaultNetworkPrefixLimitV4 : list NetworkPrefixLimit :=
  [mkNetLimit (false, 8, 127 * 2 ^ 24) max_int64].
Definition DefaultNetworkPrefixLimitV6 : list NetworkPrefixLimit :=
  [mkNetLimit (true, 128, 1) max_int64].

Definition prefixBits (l : NetworkPrefixLimit) : Z := let '(_, b, _) := Network l in b.

(** The stable sort from the longest prefix to the shortest. *)
Fixpoint insertPrefix (x : NetworkPrefixLimit) (l : list NetworkPrefixLimit) : list NetworkPrefixLimit :=
  match l with
  | [] => [x]
  | y :: l' => if prefixBits x <? prefixBits y then y :: insertPrefix x l' else x :: l
  end.
Definition sortNetworkPrefixes (l : list NetworkPrefixLimit) : list NetworkPrefixLimit :=
  foldr insertPrefix [] l.

Record family := mkFamily {
  networkPrefixLimit : list NetworkPrefixLimit;
  connsPerNetworkPrefix : list Z;
  connLimitPerSubnet : list ConnLimitPerSubnet;
  connsPerLimit : list (gmap Prefix Z)
}.

Record connLimiter := mkLimiter { ip4 : family; ip6 : family }.

Definition newConnLimiter : connLimiter :=
  mkLimiter (mkFamily DefaultNetworkPrefixLimitV4 [] [defaultIP4Limit] [])
            (mkFamily DefaultNetworkPrefixLimitV6 [] defaultIP6Limits []).

Definition addNetworkPrefixLimit (cl : connLimiter) (isIP6 : bool) (np : NetworkPrefixLimit) : connLimiter :=
  let add f := mkFamily (sortNetworkPrefixes (networkPrefixLimit f ++ [np])) (connsPerNetworkPrefix f)
                 (connLimitPerSubnet f) (connsPerLimit f) in
  if isIP6 then mkLimiter (ip4 cl) (add (ip6 cl)) else mkLimiter (add (ip4 cl)) (ip6 cl).

Definition famOf (cl : connLimiter) (ip : Addr) : family := if Is6 ip then ip6 cl else ip4 cl.
Definition set_fam (cl : connLimiter) (ip : Addr) (f : family) : connLimiter :=
  if Is6 ip then mkLimiter (ip4 cl) f else mkLimiter f (ip6 cl).

(** The counts are made at the first use. *)
Definition initCounts (f : family) : family :=
  match connsPerNetworkPrefix f with
  | [] => mkFamily (networkPrefixLimit f) (replicate (length (networkPrefixLimit f)) 0)
            (connLimitPerSubnet f) (connsPerLimit f)
  | _ => f
  end.

Definition initSubnets (f : family) : family :=
  match connsPerLimit f with
  | [] => mkFamily (networkPrefixLimit f) (connsPerNetworkPrefix f)
            (connLimitPerSubnet f) (replicate (length (connLimitPerSubnet f)) ∅)
  | _ => f
  end.

(** The first network prefix limit that contains the address. *)
Fixpoint firstMatch (i : nat) (l : list NetworkPrefixLimit) (ip : Addr) : option (nat * NetworkPrefixLimit) :=
  match l with
  | [] => None
  | np :: l' => if Contains (Network np) ip then Some (i, np) else firstMatch (S i) l' ip
  end.

Definition set_counts (f : family) (c : list Z) : family :=
  mkFamily (networkPrefixLimit f) c (connLimitPerSubnet f) (connsPerLimit f).
Definition set_subnets (f : family) (m : list (gmap Prefix Z)) : family :=
  mkFamily (networkPrefixLimit f) (connsPerNetworkPrefix f) (connLimitPerSubnet f) m.

(** The checking loop: an entry is made for a prefix that has none, before its limit is
    looked at. *)
Fixpoint checkSubnets (ip : Addr) (ls : list ConnLimitPerSubnet) (ms : list (gmap Prefix Z))
  : list (gmap Prefix Z) * bool :=
  match ls, ms with
  | l :: ls', m :: ms' =>
    match prefixOf ip (PrefixLength l) with
    | None => (m :: ms', false)
    | Some p =>
      let counts := default 0 (m !! p) in
      let m' := match m !! p with None => <[p := 0]> m | Some _ => m end in
      if subnetConns l <? counts + 1 then (m' :: ms', false)
      else let '(ms'', ok) := checkSubnets ip ls' ms' in (m' :: ms'', ok)
    end
  | _, _ => (ms, true)
  end.

Fixpoint countSubnets (ip : Addr) (ls : list ConnLimitPerSubnet) (ms : list (gmap Prefix Z))
  : list (gmap Prefix Z) :=
  match ls, ms with
  | l :: ls', m :: ms' =>
    match prefixOf ip (PrefixLength l) with
    | None => m
    | Some p => <[p := default 0 (m !! p) + 1]> m
    end :: countSubnets ip ls' ms'
  | _, _ => ms
  end.

Definition addConnFam (f0 : family) (ip : Addr) : family * bool :=
  let f := initCounts f0 in
  match firstMatch 0 (networkPrefixLimit f) ip with
  | Some (i, np) =>
    let n := default 0 (connsPerNetworkPrefix f !! i) in
    if netConns np <? n + 1 then (f, false)
    else (set_counts f (<[i := n + 1]> (connsPerNetworkPrefix f)), true)
  | None =>
    let f := initSubnets f in
    let '(ms, ok) := checkSubnets ip (connLimitPerSubnet f) (connsPerLimit f) in
    if ok then (set_subnets f (countSubnets ip (connLimitPerSubnet f) ms), true)
    else (set_subnets f ms, false)
  end.

Fixpoint uncountSubnets (ip : Addr) (ls : list ConnLimitPerSubnet) (ms : list (gmap Prefix Z))
  : list (gmap Prefix Z) :=
  match ls, ms with
  | l :: ls', m :: ms' =>
    match prefixOf ip (PrefixLength l) with
    | None => m
    | Some p =>
      match m !! p with
      | None => m
      | Some c => if c =? 0 then m else if c - 1 <=? 0 then delete p m else <[p := c - 1]> m
      end
    end :: uncountSubnets ip ls' ms'
  | _, _ => ms
  end.

Definition rmConnFam (f0 : family) (ip : Addr) : family :=
  let f := initCounts f0 in
  match firstMatch 0 (networkPrefixLimit f) ip with
  | Some (i, _) =>
    let n := default 0 (connsPerNetworkPrefix f !! i) in
    if n <=? 0 then f else set_counts f (<[i := n - 1]> (connsPerNetworkPrefix f))
  | None =>
    let f := initSubnets f in
    set_subnets f (uncountSubnets ip (connLimitPerSubnet f) (connsPerLimit f))
  end.

Definition addConn (cl : connLimiter) (ip : Addr) : connLimiter * bool :=
  let '(f, ok) := addConnFam (famOf cl ip) ip in (set_fam cl ip f, ok).
Definition rmConn (cl : connLimiter) (ip : Addr) : connLimiter :=
  set_fam cl ip (rmConnFam (famOf cl ip) ip).

(** ** What the counts are

    [cnt P live] is the number of open connections whose address satisfies [P]. *)

#[export] Instance Addr_eq_dec : EqDecision Addr.
Proof. solve_decision. Defined.

Definition cnt (P : Addr -> bool) (live : list Addr) : Z := Z.of_nat (length (List.filter P live)).

Fixpoint remove1 (ip : Addr) (live : list Addr) : list Addr :=
  match live with
  | [] => []
  | x :: l => if decide (x = ip) then l else x :: remove1 ip l
  end.

Lemma cnt_cons P ip live : cnt P (ip :: live) = (if P ip then 1 else 0) + cnt P live.
Proof. unfold cnt. simpl. destruct (P ip); simpl; lia. Qed.

Lemma cnt_nonneg P live : 0 <= cnt P live.
Proof. unfold cnt. lia. Qed.

Lemma cnt_remove1 P ip live : ip ∈ live -> cnt P (remove1 ip live) = cnt P live - (if P ip then 1 else 0).
Proof.
  induction live as [|x live IH]; [set_solver|]. intros Hin. simpl. rewrite cnt_cons.
  destruct (decide (x = ip)) as [->|Hne]; [lia|]. rewrite cnt_cons, IH by set_solver. lia.
Qed.

Lemma cnt_pos P ip live : ip ∈ live -> P ip = true -> 0 < cnt P live.
Proof.
  intros Hin HP. pose proof (cnt_remove1 P ip live Hin) as H. rewrite HP in H.
  pose proof (cnt_nonneg P (remove1 ip live)). lia.
Qed.

Lemma cnt_zero P live : (forall ip, ip ∈ live -> P ip = false) -> cnt P live = 0.
Proof.
  induction live as [|x live IH]; intros H; [done|]. rewrite cnt_cons, (H x) by left.
  rewrite IH; [done|]. intros ip Hip. apply H. by right.
Qed.

(** Counted by the limit at [j], and in the subnet [p] of a limit: the connections that no
    network prefix limit takes. *)
Definition takenBy (nps : list NetworkPrefixLimit) (j : nat) (ip : Addr) : bool :=
  match firstMatch 0 nps ip with Some (i, _) => bool_decide (i = j) | None => false end.
Definition inSubnet (nps : list NetworkPrefixLimit) (l : ConnLimitPerSubnet) (p : Prefix) (ip : Addr) : bool :=
  match firstMatch 0 nps ip with
  | Some _ => false
  | None => bool_decide (prefixOf ip (PrefixLength l) = Some p)
  end.

Definition agree (nps : list NetworkPrefixLimit) (live : list Addr) (l : ConnLimitPerSubnet) (m : gmap Prefix Z) : Prop :=
  forall p, default 0 (m !! p) = cnt (inSubnet nps l p) live.

Record exact (f : family) (live : list Addr) : Prop := {
  exact_counts :
    (connsPerNetworkPrefix f = [] /\ forall ip, ip ∈ live -> firstMatch 0 (networkPrefixLimit f) ip = None) \/
    (length (connsPerNetworkPrefix f) = length (networkPrefixLimit f) /\
     forall j n, connsPerNetworkPrefix f !! j = Some n -> n = cnt (takenBy (networkPrefixLimit f) j) live);
  exact_subnets :
    (connsPerLimit f = [] /\ forall ip, ip ∈ live -> firstMatch 0 (networkPrefixLimit f) ip <> None) \/
    Forall2 (agree (networkPrefixLimit f) live) (connLimitPerSubnet f) (connsPerLimit f)
}.

(** When another connection is admitted. *)
Definition admits (f : family) (live : list Addr) (ip : Addr) : bool :=
  match firstMatch 0 (networkPrefixLimit f) ip with
  | Some (j, np) => cnt (takenBy (networkPrefixLimit f) j) live + 1 <=? netConns np
  | None =>
    forallb (fun l => match prefixOf ip (PrefixLength l) with
                      | Some p => cnt (inSubnet (networkPrefixLimit f) l p) live + 1 <=? subnetConns l
                      | None => false
                      end) (connLimitPerSubnet f)
  end.

Lemma firstMatch_lookup i l ip j np : firstMatch i l ip = Some (j, np) ->
  (i <= j)%nat /\ l !! (j - i)%nat = Some np.
Proof.
  revert i. induction l as [|x l IH]; intros i; simpl; [done|].
  destruct (Contains (Network x) ip).
  - intros [= -> ->]. by rewrite Nat.sub_diag.
  - intros H. destruct (IH _ H) as [Hle Hl]. split; [lia|].
    replace (j - i)%nat with (S (j - S i)) by lia. done.
Qed.

Lemma initCounts_exact f live : exact f live ->
  exact (initCounts f) live /\ length (connsPerNetworkPrefix (initCounts f)) = length (networkPrefixLimit f) /\
  networkPrefixLimit (initCounts f) = networkPrefixLimit f /\
  connLimitPerSubnet (initCounts f) = connLimitPerSubnet f /\ connsPerLimit (initCounts f) = connsPerLimit f.
Proof.
  intros [Hc Hs]. unfold initCounts. destruct (connsPerNetworkPrefix f) as [|c cs] eqn:E.
  - split; [|simpl; by rewrite length_replicate]. split; simpl; [|done]. right. split; [by rewrite length_replicate|].
    intros j n [-> Hj]%lookup_replicate. symmetry. apply cnt_zero. intros ip Hip. unfold takenBy.
    destruct Hc as [[_ Hc]|[Hlen _]]; [by rewrite Hc|].
    by destruct (networkPrefixLimit f).
  - split; [by split; [rewrite E|]|]. destruct Hc as [[? _]|[Hlen _]]; [congruence|]. rewrite <-Hlen. by rewrite E.
Qed.

Lemma initSubnets_exact f live : exact f live ->
  Forall2 (agree (networkPrefixLimit f) live) (connLimitPerSubnet f) (connsPerLimit (initSubnets f)).
Proof.
  intros [_ Hs]. unfold initSubnets. destruct (connsPerLimit f) as [|m ms] eqn:E.
  - simpl. destruct Hs as [[_ Hnone]|Hs].
    + apply Forall2_replicate_r; [done|]. apply Forall_true. intros l p. rewrite lookup_empty. simpl.
      symmetry. apply cnt_zero. intros ip Hip. unfold inSubnet. specialize (Hnone ip Hip).
      by destruct (firstMatch _ _ ip).
    + apply Forall2_nil_inv_r in Hs. by rewrite Hs.
  - destruct Hs as [[? _]|Hs]; [done|]. by rewrite E.
Qed.

Lemma inSubnet_self nps l ip p : firstMatch 0 nps ip = None ->
  inSubnet nps l p ip = bool_decide (prefixOf ip (PrefixLength l) = Some p).
Proof. intros H. unfold inSubnet. by rewrite H. Qed.

Lemma checkSubnets_spec nps live ip ls ms : firstMatch 0 nps ip = None ->
  Forall2 (agree nps live) ls ms ->
  Forall2 (agree nps live) ls (checkSubnets ip ls ms).1 /\
  (checkSubnets ip ls ms).2 =
  forallb (fun l => match prefixOf ip (PrefixLength l) with
                    | Some p => cnt (inSubnet nps l p) live + 1 <=? subnetConns l
                    | None => false
                    end) ls.
Proof.
  intros Hf. induction 1 as [|l m ls ms Ha Hrest [IH1 IH2]]; simpl; [done|].
  destruct (prefixOf ip (PrefixLength l)) as [p|] eqn:Ep; simpl; [|by split; [constructor|]].
  assert (agree nps live l (match m !! p with Some _ => m | None => <[p := 0]> m end)) as Ha'.
  { destruct (m !! p) eqn:Em; [done|]. intros q. destruct (decide (q = p)) as [->|].
    - rewrite lookup_insert_eq. specialize (Ha p). by rewrite Em in Ha.
    - rewrite lookup_insert_ne by done. apply Ha. }
  rewrite (Ha p). destruct (Z.ltb_spec (subnetConns l) (cnt (inSubnet nps l p) live + 1)).
  - assert (cnt (inSubnet nps l p) live + 1 <=? subnetConns l = false) as -> by lia. simpl.
    split; [by constructor|done].
  - assert (cnt (inSubnet nps l p) live + 1 <=? subnetConns l = true) as -> by lia. simpl.
    destruct (checkSubnets ip ls ms) as [ms'' ok]. simpl in *. split; [by constructor|done].
Qed.

Lemma countSubnets_agree nps live ip ls ms : firstMatch 0 nps ip = None ->
  Forall2 (agree nps live) ls ms -> Forall2 (agree nps (ip :: live)) ls (countSubnets ip ls ms).
Proof.
  intros Hf. induction 1 as [|l m ls ms Ha Hrest IH]; simpl; [done|]. constructor; [|done].
  intros q. rewrite cnt_cons, (inSubnet_self nps l ip q Hf), <-(Ha q).
  destruct (prefixOf ip (PrefixLength l)) as [p|] eqn:Ep.
  - destruct (decide (q = p)) as [->|].
    + rewrite lookup_insert_eq, bool_decide_eq_true_2 by done. simpl. lia.
    + rewrite lookup_insert_ne, bool_decide_eq_false_2 by congruence. lia.
  - by rewrite bool_decide_eq_false_2.
Qed.

Lemma uncountSubnets_agree nps live ip ls ms : firstMatch 0 nps ip = None -> ip ∈ live ->
  Forall2 (agree nps live) ls ms -> Forall2 (agree nps (remove1 ip live)) ls (uncountSubnets ip ls ms).
Proof.
  intros Hf Hin. induction 1 as [|l m ls ms Ha Hrest IH]; simpl; [done|]. constructor; [|done].
  intros q. rewrite cnt_remove1, (inSubnet_self nps l ip q Hf), <-(Ha q) by done.
  destruct (prefixOf ip (PrefixLength l)) as [p|] eqn:Ep; [|rewrite bool_decide_eq_false_2 by done; lia].
  assert (0 < cnt (inSubnet nps l p) live) as Hpos.
  { apply (cnt_pos _ ip); [done|]. rewrite inSubnet_self by done. by apply bool_decide_eq_true_2. }
  rewrite <-(Ha p) in Hpos. destruct (m !! p) as [c|] eqn:Em; [|done]. simpl in Hpos.
  rewrite (proj2 (Z.eqb_neq c 0)) by lia.
  destruct (decide (q = p)) as [->|].
  - rewrite bool_decide_eq_true_2, Em by done. simpl. destruct (Z.leb_spec (c - 1) 0).
    + rewrite lookup_delete_eq. simpl. lia.
    + rewrite lookup_insert_eq. done.
  - rewrite bool_decide_eq_false_2 by congruence. destruct (Z.leb_spec (c - 1) 0).
    + rewrite lookup_delete_ne by done. lia.
    + rewrite lookup_insert_ne by done. lia.
Qed.

Lemma Forall2_lengths {A B} (P : A -> B -> Prop) l k : Forall2 P l k -> length l = length k.
Proof. apply Forall2_length. Qed.

Lemma counts_insert f live live' ip j n d : firstMatch 0 (networkPrefixLimit f) ip = Some (j, n) ->
  (forall k c, connsPerNetworkPrefix f !! k = Some c -> c = cnt (takenBy (networkPrefixLimit f) k) live) ->
  (forall P, cnt P live' = cnt P live + if P ip then d else 0) ->
  forall k c, <[j := default 0 (connsPerNetworkPrefix f !! j) + d]> (connsPerNetworkPrefix f) !! k = Some c ->
  c = cnt (takenBy (networkPrefixLimit f) k) live'.
Proof.
  intros Hf Hc Hl k c Hk. rewrite Hl. unfold takenBy at 2. rewrite Hf.
  destruct (decide (k = j)) as [->|Hne].
  - rewrite bool_decide_eq_true_2 by done.
    assert (j < length (connsPerNetworkPrefix f))%nat as Hlt.
    { apply lookup_lt_Some in Hk. by rewrite length_insert in Hk. }
    rewrite list_lookup_insert_eq in Hk by done. destruct (connsPerNetworkPrefix f !! j) as [x|] eqn:Ex.
    + rewrite <-(Hc _ _ Ex). simpl in Hk. congruence.
    + apply lookup_ge_None in Ex. lia.
  - rewrite list_lookup_insert_ne in Hk by done. rewrite bool_decide_eq_false_2 by done.
    rewrite <-(Hc _ _ Hk). lia.
Qed.

(** The subnet counts do not move with a connection that a network prefix limit takes. *)
Lemma subnets_taken f live live' ip n d : firstMatch 0 (networkPrefixLimit f) ip = Some n ->
  (forall P, cnt P live' = cnt P live + if P ip then d else 0) -> (forall x, x ∈ live' -> x ∈ live \/ x = ip) ->
  ((connsPerLimit f = [] /\ forall ip, ip ∈ live -> firstMatch 0 (networkPrefixLimit f) ip <> None) \/
    Forall2 (agree (networkPrefixLimit f) live) (connLimitPerSubnet f) (connsPerLimit f)) ->
  (connsPerLimit f = [] /\ forall ip, ip ∈ live' -> firstMatch 0 (networkPrefixLimit f) ip <> None) \/
    Forall2 (agree (networkPrefixLimit f) live') (connLimitPerSubnet f) (connsPerLimit f).
Proof.
  intros Hf Hl Hin [[E H]|H].
  - left. split; [done|]. intros x Hx. destruct (Hin x Hx) as [?| ->]; [auto|congruence].
  - right. eapply Forall2_impl; [done|]. intros l m Ha p. rewrite (Ha p), Hl. unfold inSubnet at 3. rewrite Hf. lia.
Qed.

(** The network prefix counts do not move with a connection that none takes. *)
Lemma counts_free f live live' ip d : firstMatch 0 (networkPrefixLimit f) ip = None ->
  (forall P, cnt P live' = cnt P live + if P ip then d else 0) ->
  (forall k c, connsPerNetworkPrefix f !! k = Some c -> c = cnt (takenBy (networkPrefixLimit f) k) live) ->
  forall k c, connsPerNetworkPrefix f !! k = Some c -> c = cnt (takenBy (networkPrefixLimit f) k) live'.
Proof. intros Hf Hl Hc k c Hk. rewrite Hl. unfold takenBy at 2. rewrite Hf, <-(Hc _ _ Hk). lia. Qed.

Definition same_limits (f f' : family) : Prop :=
  networkPrefixLimit f' = networkPrefixLimit f /\ connLimitPerSubnet f' = connLimitPerSubnet f.

Lemma addConnFam_spec f live ip : exact f live ->
  (addConnFam f ip).2 = admits f live ip /\
  exact (addConnFam f ip).1 (if admits f live ip then ip :: live else live) /\
  same_limits f (addConnFam f ip).1.
Proof.
  intros He. destruct (initCounts_exact f live He) as (He1 & Hlen & En & El & Em).
  assert (forall j n, connsPerNetworkPrefix (initCounts f) !! j = Some n ->
            n = cnt (takenBy (networkPrefixLimit f) j) live) as exact_counts1.
  { destruct He1 as [[[Hz _]|[_ H]] _]; [intros j n; by rewrite Hz|]. by rewrite En in H. }
  unfold addConnFam, admits. rewrite En.
  assert (forall P, cnt P (ip :: live) = cnt P live + if P ip then 1 else 0) as Hcnt.
  { intros P. rewrite cnt_cons. lia. }
  destruct (firstMatch 0 (networkPrefixLimit f) ip) as [[j np]|] eqn:Ef.
  - destruct (firstMatch_lookup _ _ _ _ _ Ef) as [_ Hj]. rewrite Nat.sub_0_r in Hj.
    assert (is_Some (connsPerNetworkPrefix (initCounts f) !! j)) as [c Hc].
    { apply lookup_lt_is_Some. rewrite Hlen. by apply lookup_lt_Some in Hj. }
    rewrite Hc. simpl. rewrite <-(exact_counts1 j c Hc).
    destruct (Z.ltb_spec (netConns np) (c + 1)).
    + rewrite (proj2 (Z.leb_gt (c + 1) (netConns np))) by lia. done.
    + rewrite (proj2 (Z.leb_le (c + 1) (netConns np))) by lia. simpl. split; [done|]. split; [|done].
      destruct He1 as [_ Hs]. split; simpl.
      * right. split; [by rewrite length_insert, En|]. rewrite En.
        pose proof (counts_insert (initCounts f) live (ip :: live) ip j np 1) as G. rewrite En, Hc in G.
        simpl in G. by apply G.
      * eapply (subnets_taken (initCounts f) live (ip :: live) ip (j, np) 1); [by rewrite En|done| |done].
        intros x [->|Hx]%elem_of_cons; auto.
  - pose proof (initSubnets_exact (initCounts f) live He1) as Hs.
    assert (networkPrefixLimit (initSubnets (initCounts f)) = networkPrefixLimit f /\
      connLimitPerSubnet (initSubnets (initCounts f)) = connLimitPerSubnet f /\
      connsPerNetworkPrefix (initSubnets (initCounts f)) = connsPerNetworkPrefix (initCounts f)) as (E1 & E2 & E3).
    { unfold initSubnets. destruct (connsPerLimit (initCounts f)); simpl; by rewrite ?En, ?El. }
    rewrite E2. rewrite En, El in Hs.
    destruct (checkSubnets_spec _ live ip _ _ Ef Hs) as [Hs2 Hok].
    destruct (checkSubnets ip (connLimitPerSubnet f) _) as [ms ok]. simpl in Hs2, Hok. subst ok.
    destruct (forallb _ _) eqn:Eok; simpl; (split; [done|]); (split; [|by split]).
    + split; simpl; rewrite E1.
      * right. rewrite E3. split; [by rewrite Hlen|].
        pose proof (counts_free (initCounts f) live (ip :: live) ip 1) as G. rewrite En in G. by apply G.
      * right. rewrite E2. by apply countSubnets_agree.
    + split; simpl; rewrite E1; right.
      * rewrite E3. split; [by rewrite Hlen|done].
      * by rewrite E2.
Qed.

Lemma rmConnFam_spec f live ip : exact f live -> ip ∈ live ->
  exact (rmConnFam f ip) (remove1 ip live) /\ same_limits f (rmConnFam f ip).
Proof.
  intros He Hin. destruct (initCounts_exact f live He) as (He1 & Hlen & En & El & Em).
  assert (forall j n, connsPerNetworkPrefix (initCounts f) !! j = Some n ->
            n = cnt (takenBy (networkPrefixLimit f) j) live) as exact_counts1.
  { destruct He1 as [[[Hz _]|[_ H]] _]; [intros j n; by rewrite Hz|]. by rewrite En in H. }
  unfold rmConnFam. rewrite En.
  assert (forall P, cnt P (remove1 ip live) = cnt P live + if P ip then -1 else 0) as Hcnt.
  { intros P. rewrite cnt_remove1 by done. destruct (P ip); lia. }
  assert (forall x, x ∈ remove1 ip live -> x ∈ live \/ x = ip) as Hsub.
  { clear. induction live as [|y live IH]; simpl; [set_solver|]. intros x.
    destruct (decide (y = ip)); set_solver. }
  destruct (firstMatch 0 (networkPrefixLimit f) ip) as [[j np]|] eqn:Ef.
  - destruct (firstMatch_lookup _ _ _ _ _ Ef) as [_ Hj]. rewrite Nat.sub_0_r in Hj.
    assert (is_Some (connsPerNetworkPrefix (initCounts f) !! j)) as [c Hc].
    { apply lookup_lt_is_Some. rewrite Hlen. by apply lookup_lt_Some in Hj. }
    rewrite Hc. simpl. pose proof (exact_counts1 j c Hc) as Ec.
    assert (0 < c) as Hpos.
    { rewrite Ec. apply (cnt_pos _ ip); [done|]. unfold takenBy. rewrite Ef. by apply bool_decide_eq_true_2. }
    rewrite (proj2 (Z.leb_gt c 0)) by lia. split; [|done]. destruct He1 as [_ Hs]. split; simpl.
    + right. split; [by rewrite length_insert, En|]. rewrite En.
      pose proof (counts_insert (initCounts f) live (remove1 ip live) ip j np (-1)) as G. rewrite En, Hc in G.
      simpl in G. by apply G.
    + by eapply (subnets_taken (initCounts f) live (remove1 ip live) ip (j, np) (-1)); [rewrite En|..].
  - pose proof (initSubnets_exact (initCounts f) live He1) as Hs.
    assert (networkPrefixLimit (initSubnets (initCounts f)) = networkPrefixLimit f /\
      connLimitPerSubnet (initSubnets (initCounts f)) = connLimitPerSubnet f /\
      connsPerNetworkPrefix (initSubnets (initCounts f)) = connsPerNetworkPrefix (initCounts f)) as (E1 & E2 & E3).
    { unfold initSubnets. destruct (connsPerLimit (initCounts f)); simpl; by rewrite ?En, ?El. }
    rewrite E2. rewrite En, El in Hs. split; [|by split]. split; simpl; rewrite E1.
    + right. rewrite E3. split; [by rewrite Hlen|].
      pose proof (counts_free (initCounts f) live (remove1 ip live) ip (-1)) as G. rewrite En in G. by apply G.
    + right. rewrite E2. by apply uncountSubnets_agree.
Qed.

(** ** Histories

    Connections are opened, and those that are open are closed. *)
Inductive limiterOp := Open (ip : Addr) | Close (ip : Addr).

Definition limiterStep (st : connLimiter * list Addr) (o : limiterOp) : connLimiter * list Addr :=
  let '(cl, live) := st in
  match o with
  | Open ip => let '(cl', ok) := addConn cl ip in (cl', if ok then ip :: live else live)
  | Close ip => if decide (ip ∈ live) then (rmConn cl ip, remove1 ip live) else st
  end.
Definition limiterRun : connLimiter * list Addr -> list limiterOp -> connLimiter * list Addr := foldl limiterStep.

Definition ofFamily (six : bool) (live : list Addr) : list Addr :=
  List.filter (fun ip => eqb (Is6 ip) six) live.

(** The counts of a family start at nothing. *)
Definition uncounted (f : family) : Prop := connsPerNetworkPrefix f = [] /\ connsPerLimit f = [].

(** The connections that a limit concerns are no more than it allows. *)
Record within (f : family) (live : list Addr) : Prop := {
  within_net j np : networkPrefixLimit f !! j = Some np ->
    cnt (takenBy (networkPrefixLimit f) j) live <= Z.max 0 (netConns np);
  within_subnet l p : l ∈ connLimitPerSubnet f ->
    cnt (inSubnet (networkPrefixLimit f) l p) live <= Z.max 0 (subnetConns l)
}.

Definition limiter_ok (cl0 cl : connLimiter) (live : list Addr) : Prop :=
  forall six : bool, let f := (if six then ip6 else ip4) cl in
    exact f (ofFamily six live) /\ same_limits ((if six then ip6 else ip4) cl0) f /\ within f (ofFamily six live).

Lemma ofFamily_cons six ip live :
  ofFamily six (ip :: live) = if eqb (Is6 ip) six then ip :: ofFamily six live else ofFamily six live.
Proof. done. Qed.

Lemma ofFamily_remove1 six ip live :
  ofFamily six (remove1 ip live) =
  if eqb (Is6 ip) six then remove1 ip (ofFamily six live) else ofFamily six live.
Proof.
  induction live as [|x live IH]; simpl; [by destruct (eqb _ _)|].
  destruct (decide (x = ip)) as [->|Hne].
  - destruct (eqb (Is6 ip) six) eqn:E; [|done]. simpl. by rewrite decide_True.
  - simpl. rewrite IH. destruct (eqb (Is6 x) six) eqn:Ex, (eqb (Is6 ip) six); simpl; try done.
    by rewrite decide_False.
Qed.

Lemma elem_of_ofFamily ip live : ip ∈ live -> ip ∈ ofFamily (Is6 ip) live.
Proof.
  intros H. unfold ofFamily. apply list_elem_of_In, filter_In. split; [by apply list_elem_of_In|].
  by rewrite eqb_reflx.
Qed.

Lemma within_admits f live ip : within f live -> admits f live ip = true -> within f (ip :: live).
Proof.
  intros [Hn Hs] Ha. unfold admits in Ha. split.
  - intros j np Hj. rewrite cnt_cons. unfold takenBy at 1. specialize (Hn j np Hj).
    destruct (firstMatch 0 _ ip) as [[i np']|] eqn:Ef; [|lia]. case_bool_decide as E; [subst i|lia].
    destruct (firstMatch_lookup _ _ _ _ _ Ef) as [_ Hl]. rewrite Nat.sub_0_r in Hl. simplify_eq.
    apply Z.leb_le in Ha. lia.
  - intros l p Hl. rewrite cnt_cons. unfold inSubnet at 1. specialize (Hs l p Hl).
    destruct (firstMatch 0 _ ip) as [[i np']|] eqn:Ef; [lia|]. case_bool_decide as E; [|lia].
    rewrite forallb_forall in Ha. specialize (Ha l). rewrite E in Ha.
    apply list_elem_of_In in Hl. apply Ha, Z.leb_le in Hl. lia.
Qed.

Lemma within_remove1 f live ip : within f live -> ip ∈ live -> within f (remove1 ip live).
Proof.
  intros [Hn Hs] Hin. split.
  - intros j np Hj. rewrite cnt_remove1 by done. specialize (Hn j np Hj). destruct (takenBy _ _ _); lia.
  - intros l p Hl. rewrite cnt_remove1 by done. specialize (Hs l p Hl). destruct (inSubnet _ _ _ _); lia.
Qed.

Lemma within_limits f f' live : same_limits f f' -> within f live -> within f' live.
Proof. intros [E1 E2] [Hn Hs]. split; rewrite ?E1, ?E2; done. Qed.

Lemma limiter_step_ok cl0 cl live o : limiter_ok cl0 cl live ->
  limiter_ok cl0 (limiterStep (cl, live) o).1 (limiterStep (cl, live) o).2.
Proof.
  intros H. destruct o as [ip|ip]; simpl.
  - unfold addConn. destruct (H (Is6 ip)) as (He & Hl & Hw).
    assert ((if Is6 ip then ip6 else ip4) cl = famOf cl ip) as E by (unfold famOf; by destruct (Is6 ip)).
    rewrite E in He, Hl, Hw. destruct (addConnFam_spec _ _ ip He) as (Hok & He' & Hl').
    destruct (addConnFam (famOf cl ip) ip) as [f' ok]. simpl in *. subst ok.
    intros six. specialize (H six). destruct (eqb (Is6 ip) six) eqn:Ef.
    + apply eqb_prop in Ef. subst six.
      assert ((if Is6 ip then ip6 else ip4) (set_fam cl ip f') = f') as -> by (unfold set_fam; by destruct (Is6 ip)).
      assert (ofFamily (Is6 ip) (if admits (famOf cl ip) (ofFamily (Is6 ip) live) ip then ip :: live else live) =
              if admits (famOf cl ip) (ofFamily (Is6 ip) live) ip then ip :: ofFamily (Is6 ip) live
              else ofFamily (Is6 ip) live) as ->.
      { destruct (admits _ _ _); [|done]. by rewrite ofFamily_cons, eqb_reflx. }
      split; [done|]. split.
      * destruct Hl, Hl'. split; congruence.
      * apply (within_limits _ _ _ Hl'). destruct (admits _ _ ip) eqn:Ea; [by apply within_admits|done].
    + assert ((if six then ip6 else ip4) (set_fam cl ip f') = (if six then ip6 else ip4) cl) as ->.
      { unfold set_fam. by destruct (Is6 ip), six. }
      destruct (admits _ _ _); [|done]. by rewrite ofFamily_cons, Ef.
  - destruct (decide (ip ∈ live)) as [Hin|]; [|done]. simpl.
    destruct (H (Is6 ip)) as (He & Hl & Hw). unfold rmConn.
    assert ((if Is6 ip then ip6 else ip4) cl = famOf cl ip) as E by (unfold famOf; by destruct (Is6 ip)).
    rewrite E in He, Hl, Hw. pose proof (elem_of_ofFamily ip live Hin) as Hin'.
    destruct (rmConnFam_spec _ _ ip He Hin') as (He' & Hl').
    intros six. specialize (H six). rewrite ofFamily_remove1. destruct (eqb (Is6 ip) six) eqn:Ef.
    + apply eqb_prop in Ef. subst six.
      assert ((if Is6 ip then ip6 else ip4) (set_fam cl ip (rmConnFam (famOf cl ip) ip)) = rmConnFam (famOf cl ip) ip)
        as -> by (unfold set_fam; by destruct (Is6 ip)).
      split; [done|]. split.
      * destruct Hl, Hl'. split; congruence.
      * by apply (within_limits _ _ _ Hl'), within_remove1.
    + assert ((if six then ip6 else ip4) (set_fam cl ip (rmConnFam (famOf cl ip) ip)) = (if six then ip6 else ip4) cl)
        as -> by (unfold set_fam; by destruct (Is6 ip), six).
      done.
Qed.

Lemma limiter_run_ok cl0 ops : forall cl live, limiter_ok cl0 cl live ->
  limiter_ok cl0 (limiterRun (cl, live) ops).1 (limiterRun (cl, live) ops).2.
Proof.
  induction ops as [|o ops IH]; intros cl live H; [done|].
  pose proof (limiter_step_ok cl0 cl live o H) as H'.
  change (limiterRun (cl, live) (o :: ops)) with (limiterRun (limiterStep (cl, live) o) ops).
  destruct (limiterStep (cl, live) o) as [cl' live']. by apply IH.
Qed.

Lemma limiter_start cl : uncounted (ip4 cl) -> uncounted (ip6 cl) -> limiter_ok cl cl [].
Proof.
  intros [E1 E2] [E3 E4] six. destruct six; simpl; (split; [split; left; (split; [done|]); intros; set_solver|]);
    (split; [done|]); split; intros; unfold cnt; simpl; lia.
Qed.

(** C24. Whatever connections are opened and closed, the counts are those of the open ones: a
    connection is admitted exactly while the limit of the first network prefix that contains
    its address, or else that of every subnet it is in, leaves room for it, and no limit is
    ever exceeded. *)
Theorem conn_limiter_exact cl0 ops ip :
  uncounted (ip4 cl0) -> uncounted (ip6 cl0) ->
  let '(cl, live) := limiterRun (cl0, []) ops in
  (addConn cl ip).2 = admits (famOf cl0 ip) (ofFamily (Is6 ip) live) ip /\
  within (ip4 cl0) (ofFamily false live) /\ within (ip6 cl0) (ofFamily true live).
Proof.
  intros H4 H6. pose proof (limiter_run_ok cl0 ops cl0 [] (limiter_start cl0 H4 H6)) as H.
  destruct (limiterRun (cl0, []) ops) as [cl live]. simpl in H.
  pose proof (H false) as (He4 & [E1 E2] & [Hn4 Hs4]). pose proof (H true) as (He6 & [E3 E4] & [Hn6 Hs6]).
  simpl in *. split_and!.
  - unfold addConn. destruct (addConnFam_spec (famOf cl ip) (ofFamily (Is6 ip) live) ip) as (Hok & _ & _).
    { unfold famOf. by destruct (Is6 ip). }
    destruct (addConnFam (famOf cl ip) ip) as [f' ok]. simpl in *. subst ok.
    unfold admits, famOf. destruct (Is6 ip); by rewrite ?E1, ?E2, ?E3, ?E4.
  - rewrite E1 in Hn4. rewrite E1, E2 in Hs4. by split.
  - rewrite E3 in Hn6. rewrite E3, E4 in Hs6. by split.
Qed.

(** With the limits of the node, no IPv4 address outside 127.0.0.0/8 has more than eight
    connections open at a time. *)
Lemma eight_per_address ops v : 0 <= v < 2 ^ 32 -> v / 2 ^ 24 <> 127 ->
  cnt (fun x => bool_decide (x = V4 v)) (limiterRun (newConnLimiter, []) ops).2 <= 8.
Proof.
  intros Hv Hlo. pose proof (conn_limiter_exact newConnLimiter ops (V4 v)) as H.
  destruct (limiterRun (newConnLimiter, []) ops) as [cl live].
  destruct H as (_ & [_ Hs] & _); [done|done|]. simpl.
  specialize (Hs defaultIP4Limit (false, 32, v) ltac:(left)). simpl in Hs.
  etrans; [|exact Hs]. clear Hs. induction live as [|x live IH]; [done|].
  rewrite cnt_cons. rewrite ofFamily_cons. case_bool_decide as E.
  - subst x. simpl. rewrite cnt_cons.
    assert (inSubnet DefaultNetworkPrefixLimitV4 defaultIP4Limit (false, 32, v) (V4 v) = true) as ->; [|lia].
    assert (Contains (false, 8, 127 * 2 ^ 24) (V4 v) = false) as Hc.
    { unfold Contains. apply andb_false_iff. right. apply Z.eqb_neq. unfold mask. cbn [BitLen value].
      rewrite !Z.shiftr_div_pow2, !Z.shiftl_mul_pow2 by lia. rewrite Z.mul_cancel_r by done.
      replace (32 - 8) with 24 by lia. rewrite Z.div_mul by done. congruence. }
    unfold inSubnet. cbn [firstMatch DefaultNetworkPrefixLimitV4 Network]. rewrite Hc.
    apply bool_decide_eq_true_2. unfold prefixOf, mask. cbn [BitLen value PrefixLength defaultIP4Limit Is6].
    simpl. by rewrite Z.shiftr_0_r, Z.shiftl_0_r.
  - destruct (eqb (Is6 x) false); [rewrite cnt_cons; destruct (inSubnet _ _ _ x); lia|lia].
Qed.

(** A refused connection can leave an entry behind, with the count 0, that nothing removes:
    here the second limit of IPv6 refuses the connections of new /56 subnets of a full /48,
    and each of them adds an entry to the table of the first. *)
Example refused_entries_stay :
  let nth k := V6 (k * 2 ^ 72) in
  let full := foldl (fun cl k => (addConn cl (nth (Z.of_nat k))).1) newConnLimiter (seq 0 64) in
  let refused := foldl (fun cl k => (addConn cl (nth (Z.of_nat k))).1) full (seq 64 100) in
  (addConn full (nth 64)).2 = false /\
  map size (connsPerLimit (ip6 full)) = [64%nat; 1%nat] /\
  map size (connsPerLimit (ip6 refused)) = [164%nat; 1%nat].
Proof. by vm_compute. Qed.

Lemma conn_limiter_exact_witness :
  let '(cl, live) := limiterRun (newConnLimiter, []) [Open (V4 1); Open (V4 1); Close (V4 1); Open (V6 1)] in
  (addConn cl (V4 1)).2 = admits (famOf newConnLimiter (V4 1)) (ofFamily (Is6 (V4 1)) live) (V4 1) /\
  within (ip4 newConnLimiter) (ofFamily false live) /\ within (ip6 newConnLimiter) (ofFamily true live).
Proof. apply (conn_limiter_exact newConnLimiter _ (V4 1)); by split. Defined.
