(* ===== verification/RcLimits.v ===== *)
(** * The limits of the resource manager

    The configuration of the resource scopes: src/myvendor/go-libp2p,
    p2p/host/resource-manager/limit.go and limit_defaults.go, and [myResourceManager] of
    p2put/config.go, which builds the configuration of the node.

    A nil map of limits is read like an empty one and is modelled by it.  Peer and protocol
    identifiers are strings. *)

From S2P Require Import Prelude GoLib Scope.

Notation limits_map := (gmap string BaseLimit).

(** ** Limit values

    In a partial configuration three values have a meaning of their own. *)
Definition DefaultLimit : Z := 0.
Definition Unlimited : Z := -1.
Definition BlockAllLimit : Z := -2.
Definition max_int : Z := max_int64.

(** [LimitVal.Build] and [LimitVal64.Build] *)
Definition buildVal (l defaultVal : Z) : Z :=
  if l =? DefaultLimit then defaultVal
  else if l =? Unlimited then max_int
  else if l =? BlockAllLimit then 0
  else l.

Definition valueOrBlockAll (n : Z) : Z :=
  if n =? 0 then BlockAllLimit else if n =? max_int then Unlimited else n.

Record ResourceLimits := mkRLimits {
  rlStreams : Z; rlStreamsInbound : Z; rlStreamsOutbound : Z;
  rlConns : Z; rlConnsInbound : Z; rlConnsOutbound : Z;
  rlFD : Z; rlMemory : Z
}.

Definition rl_default : ResourceLimits := mkRLimits 0 0 0 0 0 0 0 0.

Definition ToResourceLimits (l : BaseLimit) : ResourceLimits :=
  mkRLimits (valueOrBlockAll (Streams l)) (valueOrBlockAll (StreamsInbound l))
    (valueOrBlockAll (StreamsOutbound l)) (valueOrBlockAll (Conns l))
    (valueOrBlockAll (ConnsInbound l)) (valueOrBlockAll (ConnsOutbound l))
    (valueOrBlockAll (FD l)) (valueOrBlockAll (Memory l)).

(** [ResourceLimits.Build] *)
Definition buildLimits (l : ResourceLimits) (defaults : BaseLimit) : BaseLimit :=
  mkLimit (buildVal (rlStreams l) (Streams defaults))
    (buildVal (rlStreamsInbound l) (StreamsInbound defaults))
    (buildVal (rlStreamsOutbound l) (StreamsOutbound defaults))
    (buildVal (rlConns l) (Conns defaults))
    (buildVal (rlConnsInbound l) (ConnsInbound defaults))
    (buildVal (rlConnsOutbound l) (ConnsOutbound defaults))
    (buildVal (rlFD l) (FD defaults))
    (buildVal (rlMemory l) (Memory defaults)).

(** [ResourceLimits.Apply] and [BaseLimit.Apply]: what is not set is taken from the other. *)
Definition orElse (a b : Z) : Z := if a =? 0 then b else a.

Definition applyLimits (l l2 : ResourceLimits) : ResourceLimits :=
  mkRLimits (orElse (rlStreams l) (rlStreams l2)) (orElse (rlStreamsInbound l) (rlStreamsInbound l2))
    (orElse (rlStreamsOutbound l) (rlStreamsOutbound l2)) (orElse (rlConns l) (rlConns l2))
    (orElse (rlConnsInbound l) (rlConnsInbound l2)) (orElse (rlConnsOutbound l) (rlConnsOutbound l2))
    (orElse (rlFD l) (rlFD l2)) (orElse (rlMemory l) (rlMemory l2)).

Definition applyBase (l l2 : BaseLimit) : BaseLimit :=
  mkLimit (orElse (Streams l) (Streams l2)) (orElse (StreamsInbound l) (StreamsInbound l2))
    (orElse (StreamsOutbound l) (StreamsOutbound l2)) (orElse (Conns l) (Conns l2))
    (orElse (ConnsInbound l) (ConnsInbound l2)) (orElse (ConnsOutbound l) (ConnsOutbound l2))
    (orElse (FD l) (FD l2)) (orElse (Memory l) (Memory l2)).

(** [applyResourceLimitsMap]: the entries of [this] are completed, those only [other] has are
    added. *)
Definition applyResourceLimitsMap (this other : gmap string ResourceLimits) (fallback : ResourceLimits)
  : gmap string ResourceLimits :=
  merge (fun a b => match a, b with
                    | Some l, Some l2 => Some (applyLimits l l2)
                    | Some l, None => Some (applyLimits l fallback)
                    | None, o => o
                    end) this other.

(** ** Configurations *)

Record PartialLimitConfig := mkPartial {
  pSystem : ResourceLimits; pTransient : ResourceLimits;
  pAllowlistedSystem : ResourceLimits; pAllowlistedTransient : ResourceLimits;
  pServiceDefault : ResourceLimits; pService : gmap string ResourceLimits;
  pServicePeerDefault : ResourceLimits; pServicePeer : gmap string ResourceLimits;
  pProtocolDefault : ResourceLimits; pProtocol : gmap string ResourceLimits;
  pProtocolPeerDefault : ResourceLimits; pProtocolPeer : gmap string ResourceLimits;
  pPeerDefault : ResourceLimits; pPeer : gmap string ResourceLimits;
  pConn : ResourceLimits; pStream : ResourceLimits
}.

Record ConcreteLimitConfig := mkConcrete {
  cSystem : BaseLimit; cTransient : BaseLimit;
  cAllowlistedSystem : BaseLimit; cAllowlistedTransient : BaseLimit;
  cServiceDefault : BaseLimit; cService : limits_map;
  cServicePeerDefault : BaseLimit; cServicePeer : limits_map;
  cProtocolDefault : BaseLimit; cProtocol : limits_map;
  cProtocolPeerDefault : BaseLimit; cProtocolPeer : limits_map;
  cPeerDefault : BaseLimit; cPeer : limits_map;
  cConn : BaseLimit; cStream : BaseLimit
}.

(** [PartialLimitConfig.Apply] *)
Definition applyConfig (cfg c : PartialLimitConfig) : PartialLimitConfig :=
  let svd := applyLimits (pServiceDefault cfg) (pServiceDefault c) in
  let spd := applyLimits (pServicePeerDefault cfg) (pServicePeerDefault c) in
  let prd := applyLimits (pProtocolDefault cfg) (pProtocolDefault c) in
  let ppd := applyLimits (pProtocolPeerDefault cfg) (pProtocolPeerDefault c) in
  let ped := applyLimits (pPeerDefault cfg) (pPeerDefault c) in
  mkPartial (applyLimits (pSystem cfg) (pSystem c)) (applyLimits (pTransient cfg) (pTransient c))
    (applyLimits (pAllowlistedSystem cfg) (pAllowlistedSystem c))
    (applyLimits (pAllowlistedTransient cfg) (pAllowlistedTransient c))
    svd (applyResourceLimitsMap (pService cfg) (pService c) svd)
    spd (applyResourceLimitsMap (pServicePeer cfg) (pServicePeer c) spd)
    prd (applyResourceLimitsMap (pProtocol cfg) (pProtocol c) prd)
    ppd (applyResourceLimitsMap (pProtocolPeer cfg) (pProtocolPeer c) ppd)
    ped (applyResourceLimitsMap (pPeer cfg) (pPeer c) ped)
    (applyLimits (pConn cfg) (pConn c)) (applyLimits (pStream cfg) (pStream c)).

Definition buildMapWithDefault (defined : gmap string ResourceLimits) (defaults : limits_map)
  (fallback : BaseLimit) : limits_map :=
  merge (fun a b => match a, b with
                    | Some l, Some d => Some (buildLimits l d)
                    | Some l, None => Some (buildLimits l fallback)
                    | None, o => o
                    end) defined defaults.

(** [PartialLimitConfig.Build] *)
Definition buildConfig (cfg : PartialLimitConfig) (d : ConcreteLimitConfig) : ConcreteLimitConfig :=
  let svd := buildLimits (pServiceDefault cfg) (cServiceDefault d) in
  let spd := buildLimits (pServicePeerDefault cfg) (cServicePeerDefault d) in
  let prd := buildLimits (pProtocolDefault cfg) (cProtocolDefault d) in
  let ppd := buildLimits (pProtocolPeerDefault cfg) (cProtocolPeerDefault d) in
  let ped := buildLimits (pPeerDefault cfg) (cPeerDefault d) in
  mkConcrete (buildLimits (pSystem cfg) (cSystem d)) (buildLimits (pTransient cfg) (cTransient d))
    (buildLimits (pAllowlistedSystem cfg) (cAllowlistedSystem d))
    (buildLimits (pAllowlistedTransient cfg) (cAllowlistedTransient d))
    svd (buildMapWithDefault (pService cfg) (cService d) svd)
    spd (buildMapWithDefault (pServicePeer cfg) (cServicePeer d) spd)
    prd (buildMapWithDefault (pProtocol cfg) (cProtocol d) prd)
    ppd (buildMapWithDefault (pProtocolPeer cfg) (cProtocolPeer d) ppd)
    ped (buildMapWithDefault (pPeer cfg) (cPeer d) ped)
    (buildLimits (pConn cfg) (cConn d)) (buildLimits (pStream cfg) (cStream d)).

Definition resourceLimitsMapFromBaseLimitMap (m : limits_map) : gmap string ResourceLimits :=
  ToResourceLimits <$> m.

Definition ToPartialLimitConfig (cfg : ConcreteLimitConfig) : PartialLimitConfig :=
  mkPartial (ToResourceLimits (cSystem cfg)) (ToResourceLimits (cTransient cfg))
    (ToResourceLimits (cAllowlistedSystem cfg)) (ToResourceLimits (cAllowlistedTransient cfg))
    (ToResourceLimits (cServiceDefault cfg)) (resourceLimitsMapFromBaseLimitMap (cService cfg))
    (ToResourceLimits (cServicePeerDefault cfg)) (resourceLimitsMapFromBaseLimitMap (cServicePeer cfg))
    (ToResourceLimits (cProtocolDefault cfg)) (resourceLimitsMapFromBaseLimitMap (cProtocol cfg))
    (ToResourceLimits (cProtocolPeerDefault cfg)) (resourceLimitsMapFromBaseLimitMap (cProtocolPeer cfg))
    (ToResourceLimits (cPeerDefault cfg)) (resourceLimitsMapFromBaseLimitMap (cPeer cfg))
    (ToResourceLimits (cConn cfg)) (ToResourceLimits (cStream cfg)).

(** ** The fixed limiter *)

Definition lookupOr (m : limits_map) (d : BaseLimit) (k : string) : BaseLimit := default d (m !! k).

Definition GetServiceLimits (c : ConcreteLimitConfig) := lookupOr (cService c) (cServiceDefault c).
Definition GetServicePeerLimits (c : ConcreteLimitConfig) := lookupOr (cServicePeer c) (cServicePeerDefault c).
Definition GetProtocolLimits (c : ConcreteLimitConfig) := lookupOr (cProtocol c) (cProtocolDefault c).
Definition GetProtocolPeerLimits (c : ConcreteLimitConfig) := lookupOr (cProtocolPeer c) (cProtocolPeerDefault c).
Definition GetPeerLimits (c : ConcreteLimitConfig) := lookupOr (cPeer c) (cPeerDefault c).

(** ** Scaling *)

Record BaseLimitIncrease := mkIncrease {
  incStreams : Z; incStreamsInbound : Z; incStreamsOutbound : Z;
  incConns : Z; incConnsInbound : Z; incConnsOutbound : Z;
  incMemory : Z; incFDFraction : float64
}.

(** [BaseLimitIncrease.Apply] *)
Definition applyIncrease (l l2 : BaseLimitIncrease) : BaseLimitIncrease :=
  mkIncrease (orElse (incStreams l) (incStreams l2)) (orElse (incStreamsInbound l) (incStreamsInbound l2))
    (orElse (incStreamsOutbound l) (incStreamsOutbound l2)) (orElse (incConns l) (incConns l2))
    (orElse (incConnsInbound l) (incConnsInbound l2)) (orElse (incConnsOutbound l) (incConnsOutbound l2))
    (orElse (incMemory l) (incMemory l2))
    (if feq (incFDFraction l) fzero then incFDFraction l2 else incFDFraction l).

Definition MiB : Z := 2 ^ 20.

(** [base + (inc*mebibytesAvailable)>>10] in 64 bits *)
Definition scaleVal (base inc mebibytes : Z) : Z :=
  wraps 64 (base + Z.shiftr (wraps 64 (inc * mebibytes)) 10).

Definition scale (base : BaseLimit) (inc : BaseLimitIncrease) (memory numFD : Z) : BaseLimit :=
  let meb := if 128 * MiB <? memory then Z.shiftr memory 20 else 0 in
  mkLimit (scaleVal (Streams base) (incStreams inc) meb)
    (scaleVal (StreamsInbound base) (incStreamsInbound inc) meb)
    (scaleVal (StreamsOutbound base) (incStreamsOutbound inc) meb)
    (scaleVal (Conns base) (incConns inc) meb)
    (scaleVal (ConnsInbound base) (incConnsInbound inc) meb)
    (scaleVal (ConnsOutbound base) (incConnsOutbound inc) meb)
    (if flt fzero (incFDFraction inc) && (0 <? numFD)
     then Z.max (ftrunc (fmul (incFDFraction inc) (fof_int numFD))) (FD base)
     else FD base)
    (scaleVal (Memory base) (incMemory inc) meb).

Notation scalable := (BaseLimit * BaseLimitIncrease)%type.

Record ScalingLimitConfig := mkScaling {
  sSystem : scalable; sTransient : scalable;
  sAllowlistedSystem : scalable; sAllowlistedTransient : scalable;
  sService : scalable; sServiceLimits : gmap string scalable;
  sServicePeer : scalable; sServicePeerLimits : gmap string scalable;
  sProtocol : scalable; sProtocolLimits : gmap string scalable;
  sProtocolPeer : scalable; sProtocolPeerLimits : gmap string scalable;
  sPeer : scalable; sPeerLimits : gmap string scalable;
  sConn : scalable; sStream : scalable
}.

(** The streams are scaled with the increase of the connections, as the source has it. *)
Definition Scale (c : ScalingLimitConfig) (memory numFD : Z) : ConcreteLimitConfig :=
  let sc p := scale p.1 p.2 memory numFD in
  mkConcrete (sc (sSystem c)) (sc (sTransient c)) (sc (sAllowlistedSystem c)) (sc (sAllowlistedTransient c))
    (sc (sService c)) (sc <$> sServiceLimits c)
    (sc (sServicePeer c)) (sc <$> sServicePeerLimits c)
    (sc (sProtocol c)) (sc <$> sProtocolLimits c)
    (sc (sProtocolPeer c)) (sc <$> sProtocolPeerLimits c)
    (sc (sPeer c)) (sc <$> sPeerLimits c)
    (sc (sConn c)) (scale (sStream c).1 (sConn c).2 memory numFD).

Definition zero_increase : BaseLimitIncrease := mkIncrease 0 0 0 0 0 0 0 fzero.

(** The order of the arguments: streams (total, in, out), connections (total, in, out), file
    descriptors, memory; and for an increase memory and the share of descriptors. *)
Definition DefaultLimits : ScalingLimitConfig :=
  let system := mkLimit (128 * 16) (64 * 16) (128 * 16) 128 64 128 256 (128 * MiB) in
  let system_inc := mkIncrease (128 * 16) (64 * 16) (128 * 16) 128 64 128 (2 ^ 30) fone in
  let transient := mkLimit 256 128 256 64 32 64 64 (32 * MiB) in
  let transient_inc := mkIncrease 256 128 256 32 16 32 (128 * MiB) (fconst 1 4) in
  mkScaling (system, system_inc) (transient, transient_inc) (system, system_inc) (transient, transient_inc)
    (mkLimit 4096 1024 4096 0 0 0 0 (64 * MiB), mkIncrease 2048 512 2048 0 0 0 (128 * MiB) fzero) ∅
    (mkLimit 256 128 256 0 0 0 0 (16 * MiB), mkIncrease 8 4 8 0 0 0 (4 * MiB) fzero) ∅
    (mkLimit 2048 512 2048 0 0 0 0 (64 * MiB), mkIncrease 512 256 512 0 0 0 (164 * MiB) fzero) ∅
    (mkLimit 256 64 128 0 0 0 0 (16 * MiB), mkIncrease 16 4 8 0 0 0 4 fzero) ∅
    (mkLimit 512 256 512 8 8 8 4 (64 * MiB), mkIncrease 256 128 256 0 0 0 (128 * MiB) (fconst 1 64)) ∅
    (mkLimit 0 0 0 1 1 1 1 (32 * MiB), zero_increase)
    (mkLimit 1 1 1 0 0 0 0 (16 * MiB), zero_increase).

(** [myResourceManager]: the limits it builds the manager with. *)
Definition myLimits (IsMobile : bool) : ConcreteLimitConfig :=
  let s := (sSystem DefaultLimits).1 in
  let rate := if IsMobile then 1 else 4 in
  let quarter n := Z.quot n 4 * rate in
  let sys := mkLimit (quarter (Streams s)) (quarter (StreamsInbound s)) (quarter (StreamsOutbound s))
               (quarter (Conns s)) (quarter (ConnsInbound s)) (quarter (ConnsOutbound s))
               (quarter (FD s)) (quarter (Memory s)) in
  let d := DefaultLimits in
  Scale (mkScaling (sys, (sSystem d).2) (sTransient d) (sAllowlistedSystem d) (sAllowlistedTransient d)
           (sService d) (sServiceLimits d) (sServicePeer d) (sServicePeerLimits d)
           (sProtocol d) (sProtocolLimits d) (sProtocolPeer d) (sProtocolPeerLimits d)
           (sPeer d) (sPeerLimits d) (sConn d) (sStream d)) 0 0.

(** ** Round trip *)

Definition in_range (l : BaseLimit) : Prop :=
  Forall (fun n => 0 <= n <= max_int)
    [Streams l; StreamsInbound l; StreamsOutbound l; Conns l; ConnsInbound l; ConnsOutbound l; FD l; Memory l].

Definition map_in_range (m : limits_map) : Prop := forall k l, m !! k = Some l -> in_range l.

Definition config_in_range (c : ConcreteLimitConfig) : Prop :=
  Forall in_range [cSystem c; cTransient c; cAllowlistedSystem c; cAllowlistedTransient c;
    cServiceDefault c; cServicePeerDefault c; cProtocolDefault c; cProtocolPeerDefault c;
    cPeerDefault c; cConn c; cStream c] /\
  Forall map_in_range [cService c; cServicePeer c; cProtocol c; cProtocolPeer c; cPeer c].

Lemma buildVal_block n d : 0 <= n <= max_int -> buildVal (valueOrBlockAll n) d = n.
Proof.
  intros Hn. unfold buildVal, valueOrBlockAll, DefaultLimit, Unlimited, BlockAllLimit in *.
  destruct (Z.eqb_spec n 0) as [->|]; [done|]. destruct (Z.eqb_spec n max_int) as [->|]; [done|].
  by rewrite !(proj2 (Z.eqb_neq n _)) by lia.
Qed.

Lemma build_ToResourceLimits l d : in_range l -> buildLimits (ToResourceLimits l) d = l.
Proof.
  intros H. unfold in_range in H. rewrite !Forall_cons in H. destruct H as (?&?&?&?&?&?&?&?&_).
  unfold buildLimits, ToResourceLimits. simpl. rewrite !buildVal_block by done. by destruct l.
Qed.

Lemma build_map_ToResourceLimits m d fallback : map_in_range m ->
  buildMapWithDefault (resourceLimitsMapFromBaseLimitMap m) d fallback = m ∪ d.
Proof.
  intros Hm. apply map_eq. intros k. unfold buildMapWithDefault, resourceLimitsMapFromBaseLimitMap.
  rewrite lookup_merge, lookup_fmap, lookup_union. destruct (m !! k) as [l|] eqn:E; simpl.
  - destruct (d !! k); simpl; by rewrite build_ToResourceLimits by eauto.
  - by destruct (d !! k).
Qed.

(** Turning a configuration into a partial one and building that again gives the
    configuration back, whatever the defaults: a limit of nothing stays a limit of nothing and
    is not taken for an unset one.  The named limits of the defaults come in where the
    configuration names none. *)
Theorem config_roundtrip c d : config_in_range c ->
  buildConfig (ToPartialLimitConfig c) d =
  mkConcrete (cSystem c) (cTransient c) (cAllowlistedSystem c) (cAllowlistedTransient c)
    (cServiceDefault c) (cService c ∪ cService d) (cServicePeerDefault c) (cServicePeer c ∪ cServicePeer d)
    (cProtocolDefault c) (cProtocol c ∪ cProtocol d) (cProtocolPeerDefault c) (cProtocolPeer c ∪ cProtocolPeer d)
    (cPeerDefault c) (cPeer c ∪ cPeer d) (cConn c) (cStream c).
Proof.
  intros [H1 H2]. rewrite !Forall_cons in H1. rewrite !Forall_cons in H2. destruct H1 as (?&?&?&?&?&?&?&?&?&?&?&_).
  destruct H2 as (?&?&?&?&?&_). unfold buildConfig, ToPartialLimitConfig. simpl.
  by rewrite !build_ToResourceLimits, !build_map_ToResourceLimits by done.
Qed.

(** ** Scaling *)

Definition modest (base : BaseLimit) (inc : BaseLimitIncrease) : Prop :=
  Forall (fun n => 0 <= n <= 2 ^ 40)
    [Streams base; StreamsInbound base; StreamsOutbound base; Conns base; ConnsInbound base; ConnsOutbound base; Memory base] /\
  Forall (fun n => 0 <= n <= 2 ^ 30)
    [incStreams inc; incStreamsInbound inc; incStreamsOutbound inc; incConns inc; incConnsInbound inc;
     incConnsOutbound inc; incMemory inc].

Lemma scaleVal_exact base inc meb : 0 <= base <= 2 ^ 40 -> 0 <= inc <= 2 ^ 30 -> 0 <= meb < 2 ^ 32 ->
  scaleVal base inc meb = base + inc * meb / 1024.
Proof.
  intros Hb Hi Hm. unfold scaleVal.
  assert (0 <= inc * meb <= 2 ^ 62) by nia.
  rewrite (wraps_small 64 (inc * meb)) by (simpl; lia). rewrite Z.shiftr_div_pow2 by lia.
  change (2 ^ 10) with 1024. pose proof (Z.div_pos (inc * meb) 1024 ltac:(lia) ltac:(lia)).
  pose proof (Z.div_le_upper_bound (inc * meb) 1024 (2 ^ 62) ltac:(lia) ltac:(lia)).
  apply wraps_small; simpl; lia.
Qed.

(** More memory never lowers a limit, and with up to 128 MiB the base limits hold. *)
Theorem scale_monotone base inc m1 m2 numFD : modest base inc -> 0 <= m1 <= m2 -> m2 < 2 ^ 52 ->
  let l1 := scale base inc m1 numFD in let l2 := scale base inc m2 numFD in
  Streams l1 <= Streams l2 /\ StreamsInbound l1 <= StreamsInbound l2 /\ StreamsOutbound l1 <= StreamsOutbound l2 /\
  Conns l1 <= Conns l2 /\ ConnsInbound l1 <= ConnsInbound l2 /\ ConnsOutbound l1 <= ConnsOutbound l2 /\
  FD l1 = FD l2 /\ Memory l1 <= Memory l2 /\
  (m1 <= 128 * MiB -> Memory l1 = Memory base /\ Streams l1 = Streams base /\ Conns l1 = Conns base).
Proof.
  intros [Hb Hi] Hm Hmax. rewrite !Forall_cons in Hb. rewrite !Forall_cons in Hi.
  destruct Hb as (?&?&?&?&?&?&?&_), Hi as (?&?&?&?&?&?&?&_). unfold scale.
  set (e1 := if 128 * MiB <? m1 then Z.shiftr m1 20 else 0).
  set (e2 := if 128 * MiB <? m2 then Z.shiftr m2 20 else 0).
  assert (forall m, 0 <= m < 2 ^ 52 -> 0 <= (if 128 * MiB <? m then Z.shiftr m 20 else 0) < 2 ^ 32) as Hrange.
  { intros m ?. destruct (128 * MiB <? m); [|lia]. rewrite Z.shiftr_div_pow2 by lia.
    split; [apply Z.div_pos; lia|apply Z.div_lt_upper_bound; lia]. }
  pose proof (Hrange m1 ltac:(lia)) as R1. pose proof (Hrange m2 ltac:(lia)) as R2. fold e1 in R1. fold e2 in R2.
  assert (e1 <= e2) as He.
  { unfold e1, e2. destruct (Z.ltb_spec (128 * MiB) m1); [|lia].
    rewrite (proj2 (Z.ltb_lt (128 * MiB) m2)) by lia. rewrite !Z.shiftr_div_pow2 by lia. apply Z.div_le_mono; lia. }
  assert (forall b i, 0 <= b <= 2 ^ 40 -> 0 <= i <= 2 ^ 30 -> scaleVal b i e1 <= scaleVal b i e2) as Hmono.
  { intros b i ? ?. rewrite !scaleVal_exact by done. pose proof (Z.div_le_mono (i * e1) (i * e2) 1024 ltac:(lia)).
    nia. }
  simpl. split_and!; auto.
  intros Hs. assert (e1 = 0) as E by (unfold e1; by rewrite (proj2 (Z.ltb_ge (128 * MiB) m1)) by lia).
  rewrite E, !scaleVal_exact by lia. by rewrite !Z.mul_0_r, !Z.div_0_l, !Z.add_0_r by done.
Qed.

(** ** The limits of the node *)

Definition config_ok (c : ConcreteLimitConfig) : Prop :=
  Forall limit_ok [cSystem c; cTransient c; cAllowlistedSystem c; cAllowlistedTransient c;
    cServiceDefault c; cServicePeerDefault c; cProtocolDefault c; cProtocolPeerDefault c;
    cPeerDefault c; cConn c; cStream c] /\
  Forall (fun m : limits_map => forall k l, m !! k = Some l -> limit_ok l)
    [cService c; cServicePeer c; cProtocol c; cProtocolPeer c; cPeer c].

Lemma lookupOr_ok m d k : limit_ok d -> (forall k l, m !! k = Some l -> limit_ok l) -> limit_ok (lookupOr m d k).
Proof. intros Hd Hm. unfold lookupOr. destruct (m !! k) eqn:E; simpl; eauto. Qed.

Lemma my_limits_ok mobile : config_ok (myLimits mobile).
Proof.
  split.
  - rewrite !Forall_cons, Forall_nil. destruct mobile; split_and!; try done; by vm_compute.
  - rewrite !Forall_cons, Forall_nil. split_and!; try done; intros k l; by rewrite lookup_empty.
Qed.

(** A mobile node has a quarter of the system limits of another; the other limits are the
    same, so that a mobile node has room for more connections that are still being
    established (64) than for connections (32). *)
Lemma my_limits_values :
  Conns (cSystem (myLimits true)) = 32 /\ Conns (cSystem (myLimits false)) = 128 /\
  Memory (cSystem (myLimits true)) = 32 * MiB /\ Memory (cSystem (myLimits false)) = 128 * MiB /\
  Streams (cSystem (myLimits true)) = 512 /\ FD (cSystem (myLimits true)) = 64 /\
  cTransient (myLimits true) = cTransient (myLimits false) /\ Conns (cTransient (myLimits true)) = 64.
Proof. by vm_compute. Qed.

Lemma config_roundtrip_witness :
  config_in_range (myLimits false) /\
  buildConfig (ToPartialLimitConfig (myLimits false)) (myLimits true) = myLimits false.
Proof.
  assert (config_in_range (myLimits false)) as H.
  { split.
    - rewrite !Forall_cons, Forall_nil. unfold in_range. rewrite !Forall_cons, !Forall_nil.
      split_and!; try done; by vm_compute.
    - rewrite !Forall_cons, Forall_nil. split_and!; try done; intros k l; by rewrite lookup_empty. }
  split; [exact H|]. exact (config_roundtrip (myLimits false) (myLimits true) H).
Defined.

Lemma scale_monotone_witness :
  let s := sSystem DefaultLimits in
  Memory (scale s.1 s.2 0 0) <= Memory (scale s.1 s.2 (2 ^ 30) 0).
Proof.
  refine (proj1 (proj2 (proj2 (proj2 (proj2 (proj2 (proj2 (proj2
    (scale_monotone (sSystem DefaultLimits).1 (sSystem DefaultLimits).2 0 (2 ^ 30) 0 _ _ _))))))))).
  - split; rewrite !Forall_cons, Forall_nil; split_and!; try done; by vm_compute.
  - vm_compute. split; done.
  - vm_compute. done.
Defined.
