(* ===== verification/ResourceManager.v ===== *)
(** * The resource manager

    The manager the node gives to libp2p ([myResourceManager] of p2put/config.go):
    src/myvendor/go-libp2p, p2p/host/resource-manager/rcmgr.go.  It opens the scopes of
    connections and streams ([OpenConnection], [OpenStream]), moves them from the transient
    scope to that of their peer, protocol and service as these become known ([SetPeer],
    [SetProtocol], [SetService]), and collects the scopes of peers and protocols that are no
    longer used ([gc]).  The scopes themselves are those of [Scope], the limits those of
    [RcLimits], and the connections per address are counted by [ConnLimiter].

    An operation is one step; scopes, connections and streams are named by their address.
    The rate limiter's answer is an argument, and so is the allow list, which the node leaves
    empty.  Metrics and traces are left out. *)

From S2P Require Import Prelude GoLib GoNet Scope RcLimits ConnLimiter.

(** ** State *)

(** The part of a connection scope that is not a resource scope. *)
Record connectionScope := mkConn {
  conn_dir : Direction; conn_usefd : bool; isAllowlisted : bool;
  conn_peer : option nat;
  endpoint : string; conn_ip : option Addr
}.

Record streamScope := mkStream {
  stream_dir : Direction;
  stream_peer : nat; stream_peerID : string;
  stream_svc : option nat; stream_proto : option nat;
  peerProtoScope : option nat; peerSvcScope : option nat
}.

(** A service or protocol scope: its address and those of its peers. *)
Record groupScope := mkGroup { group : nat; peers : gmap string nat }.

Record resourceManager := mkManager {
  hp : heap; next : nat;
  system : nat; transient : nat; allowlistedSystem : nat; allowlistedTransient : nat;
  svc : gmap string groupScope; proto : gmap string groupScope; peer : gmap string nat;
  stickyProto : gset string; stickyPeer : gset string;
  connId : Z; streamId : Z;
  limiter : connLimiter;
  conns : gmap nat connectionScope; streams : gmap nat streamScope
}.

Definition set_hp (h : heap) (r : resourceManager) : resourceManager :=
  mkManager h (next r) (system r) (transient r) (allowlistedSystem r) (allowlistedTransient r)
    (svc r) (proto r) (peer r) (stickyProto r) (stickyPeer r) (connId r) (streamId r) (limiter r)
    (conns r) (streams r).
Definition set_limiter (cl : connLimiter) (r : resourceManager) : resourceManager :=
  mkManager (hp r) (next r) (system r) (transient r) (allowlistedSystem r) (allowlistedTransient r)
    (svc r) (proto r) (peer r) (stickyProto r) (stickyPeer r) (connId r) (streamId r) cl
    (conns r) (streams r).
Definition set_tables (sv pr : gmap string groupScope) (pe : gmap string nat) (r : resourceManager) : resourceManager :=
  mkManager (hp r) (next r) (system r) (transient r) (allowlistedSystem r) (allowlistedTransient r)
    sv pr pe (stickyProto r) (stickyPeer r) (connId r) (streamId r) (limiter r)
    (conns r) (streams r).
Definition set_users (cs : gmap nat connectionScope) (ss : gmap nat streamScope) (ci si : Z)
  (r : resourceManager) : resourceManager :=
  mkManager (hp r) (next r) (system r) (transient r) (allowlistedSystem r) (allowlistedTransient r)
    (svc r) (proto r) (peer r) (stickyProto r) (stickyPeer r) ci si (limiter r) cs ss.

Definition set_conn (a : nat) (c : connectionScope) (r : resourceManager) : resourceManager :=
  set_users (<[a := c]> (conns r)) (streams r) (connId r) (streamId r) r.
Definition set_stream (a : nat) (s : streamScope) (r : resourceManager) : resourceManager :=
  set_users (conns r) (<[a := s]> (streams r)) (connId r) (streamId r) r.

(** [newResourceScope] of [Scope], at the next address. *)
Definition newScope (lim : BaseLimit) (es : list nat) (txt : string) (r : resourceManager)
  : resourceManager * nat :=
  let r' := set_hp (newResourceScope (hp r) (next r) lim es txt) r in
  (mkManager (hp r') (S (next r)) (system r) (transient r) (allowlistedSystem r) (allowlistedTransient r)
     (svc r) (proto r) (peer r) (stickyProto r) (stickyPeer r) (connId r) (streamId r) (limiter r)
     (conns r) (streams r), next r).

Section manager.
Context (limits : ConcreteLimitConfig).
Context (allowed : string -> bool) (allowedPeerAddr : string -> string -> bool).
Context `{!MapRange}.

Definition NewResourceManager : resourceManager :=
  let r0 := mkManager ∅ 4 0 1 2 3 ∅ ∅ ∅ ∅ ∅ 0 0 newConnLimiter ∅ ∅ in
  let h1 := IncRef (newResourceScope ∅ 0 (cSystem limits) [] "system") 0 in
  let h2 := IncRef (newResourceScope h1 1 (cTransient limits) [0%nat] "transient") 1 in
  let h3 := IncRef (newResourceScope h2 2 (cAllowlistedSystem limits) [] "allowlistedSystem") 2 in
  let h4 := IncRef (newResourceScope h3 3 (cAllowlistedTransient limits) [2%nat] "allowlistedTransient") 3 in
  set_hp h4 r0.

(** *** Scopes by name

    Each of them is returned with a reference taken. *)

Definition getServiceScope (s : string) (r : resourceManager) : resourceManager * nat :=
  match svc r !! s with
  | Some g => (set_hp (IncRef (hp r) (group g)) r, group g)
  | None =>
    let '(r, a) := newScope (GetServiceLimits limits s) [system r] ("service:" ++ s) r in
    let r := set_tables (<[s := mkGroup a ∅]> (svc r)) (proto r) (peer r) r in
    (set_hp (IncRef (hp r) a) r, a)
  end.

Definition getProtocolScope (p : string) (r : resourceManager) : resourceManager * nat :=
  match proto r !! p with
  | Some g => (set_hp (IncRef (hp r) (group g)) r, group g)
  | None =>
    let '(r, a) := newScope (GetProtocolLimits limits p) [system r] ("protocol:" ++ p) r in
    let r := set_tables (svc r) (<[p := mkGroup a ∅]> (proto r)) (peer r) r in
    (set_hp (IncRef (hp r) a) r, a)
  end.

Definition getPeerScope (p : string) (r : resourceManager) : resourceManager * nat :=
  match peer r !! p with
  | Some a => (set_hp (IncRef (hp r) a) r, a)
  | None =>
    let '(r, a) := newScope (GetPeerLimits limits p) [system r] ("peer:" ++ p) r in
    let r := set_tables (svc r) (proto r) (<[p := a]> (peer r)) r in
    (set_hp (IncRef (hp r) a) r, a)
  end.

Definition scopeName (r : resourceManager) (a : nat) : string := default "" (name <$> hp r !! a).

(** [serviceScope.getPeerScope] and [protocolScope.getPeerScope] *)
Definition service_getPeerScope (s p : string) (r : resourceManager) : resourceManager * nat :=
  let g := default (mkGroup 0 ∅) (svc r !! s) in
  match peers g !! p with
  | Some a => (set_hp (IncRef (hp r) a) r, a)
  | None =>
    let '(r, a) := newScope (GetServicePeerLimits limits s) [] (scopeName r (group g) ++ ".peer:" ++ p) r in
    let r := set_tables (<[s := mkGroup (group g) (<[p := a]> (peers g))]> (svc r)) (proto r) (peer r) r in
    (set_hp (IncRef (hp r) a) r, a)
  end.

Definition protocol_getPeerScope (q p : string) (r : resourceManager) : resourceManager * nat :=
  let g := default (mkGroup 0 ∅) (proto r !! q) in
  match peers g !! p with
  | Some a => (set_hp (IncRef (hp r) a) r, a)
  | None =>
    let '(r, a) := newScope (GetProtocolPeerLimits limits q) [] (scopeName r (group g) ++ ".peer:" ++ p) r in
    let r := set_tables (svc r) (<[q := mkGroup (group g) (<[p := a]> (peers g))]> (proto r)) (peer r) r in
    (set_hp (IncRef (hp r) a) r, a)
  end.

(** *** Connections *)

Definition newConnectionScope (dir : Direction) (usefd : bool) (ep : string) (ip : option Addr)
  (r : resourceManager) : resourceManager * nat :=
  let r := set_users (conns r) (streams r) (connId r + 1) (streamId r) r in
  let '(r, a) := newScope (cConn limits) [transient r; system r] ("conn-" ++ utoa (connId r)) r in
  (set_conn a (mkConn dir usefd false None ep ip) r, a).

Definition newAllowListedConnectionScope (dir : Direction) (usefd : bool) (ep : string)
  (r : resourceManager) : resourceManager * nat :=
  let r := set_users (conns r) (streams r) (connId r + 1) (streamId r) r in
  let '(r, a) := newScope (cConn limits) [allowlistedTransient r; allowlistedSystem r]
                   ("conn-" ++ utoa (connId r)) r in
  (set_conn a (mkConn dir usefd true None ep None) r, a).

(** [connectionScope.Done] *)
Definition connDone (a : nat) (r : resourceManager) : resourceManager :=
  match hp r !! a, conns r !! a with
  | Some s, Some c =>
    if done s then r
    else
      let r := match conn_ip c with Some ip => set_limiter (rmConn (limiter r) ip) r | None => r end in
      set_hp (doneUnlocked (hp r) a) r
  | _, _ => r
  end.

Inductive openError :=
  | RateLimitExceeded | ConnsPerIPExceeded | ScopeError (err : scopeError).

Definition onScopes {A} (f : heap -> heap * A) (r : resourceManager) : resourceManager * A :=
  let '(h, x) := f (hp r) in (set_hp h r, x).

(** [rateOk] is the answer of the rate limiter. *)
Definition openConnection (rateOk : bool) (dir : Direction) (usefd : bool) (ep : string) (ip : option Addr)
  (r : resourceManager) : resourceManager * (openError + nat) :=
  if negb rateOk then (r, inl RateLimitExceeded)
  else
    let '(r, admitted) := match ip with
                          | Some i => let '(cl, ok) := ConnLimiter.addConn (limiter r) i in (set_limiter cl r, ok)
                          | None => (r, true)
                          end in
    if negb admitted then (r, inl ConnsPerIPExceeded)
    else
      let '(r, a) := newConnectionScope dir usefd ep ip r in
      let '(r, err) := onScopes (fun h => AddConn h a dir usefd) r in
      let '(r, a, err) :=
        match err, ip with
        | Some _, Some _ =>
          if allowed ep then
            let r := connDone a r in
            let '(r, a) := newAllowListedConnectionScope dir usefd ep r in
            let '(r, err) := onScopes (fun h => AddConn h a dir usefd) r in
            (r, a, err)
          else (r, a, err)
        | _, _ => (r, a, err)
        end in
      match err with
      | Some e => (connDone a r, inl (ScopeError e))
      | None => (r, inr a)
      end.

Definition scopeStat (r : resourceManager) (a : nat) : ScopeStat := default stat_zero (used <$> (rc <$> hp r !! a)).
Definition scopeEdges (r : resourceManager) (a : nat) : list nat := default [] (edges <$> hp r !! a).
Definition putEdges (a : nat) (es : list nat) (r : resourceManager) : resourceManager :=
  set_hp (alter (set_edges es) a (hp r)) r.
Definition reserveIn (e : nat) (st : ScopeStat) (r : resourceManager) : resourceManager * option scopeError :=
  onScopes (fun h => ReserveForChild h e st) r.
Definition releaseIn (e : nat) (st : ScopeStat) (r : resourceManager) : resourceManager :=
  set_hp (ReleaseForChild (hp r) e st) r.
Definition incRef (e : nat) (r : resourceManager) : resourceManager := set_hp (IncRef (hp r) e) r.
Definition decRef (e : nat) (r : resourceManager) : resourceManager := set_hp (DecRef (hp r) e) r.

(** The second half of [transferAllowedToStandard]: the system scope and then the transient
    one, and the system scope is released if the other refuses. *)
Definition joinStandard (a : nat) (stat : ScopeStat) (r : resourceManager) : resourceManager * option scopeError :=
  match reserveIn (system r) stat r with
  | (r, Some err) => (r, Some err)
  | (r, None) =>
    let r := incRef (system r) r in
    match reserveIn (transient r) stat r with
    | (r, Some err) => (decRef (system r) (releaseIn (system r) stat r), Some err)
    | (r, None) =>
      let r := incRef (transient r) r in
      (putEdges a [system r; transient r] r, None)
    end
  end.

Definition transferAllowedToStandard (a : nat) (r : resourceManager) : resourceManager * option scopeError :=
  let stat := scopeStat r a in
  let r := foldl (fun r e => decRef e (releaseIn e stat r)) r (scopeEdges r a) in
  joinStandard a stat (putEdges a [] r).

Inductive setError := AlreadyAttached | NotAttachedToProtocol | SetScopeError (err : scopeError).

Definition SetPeer (a : nat) (p : string) (r : resourceManager) : resourceManager * option setError :=
  match conns r !! a with
  | None => (r, None)
  | Some c =>
    match conn_peer c with
    | Some _ => (r, Some AlreadyAttached)
    | None =>
      let outside := isAllowlisted c && negb (allowedPeerAddr p (endpoint c)) in
      let c := if outside then mkConn (conn_dir c) (conn_usefd c) false None (endpoint c) (conn_ip c) else c in
      let r := set_conn a c r in
      let '(r, err) := if outside then transferAllowedToStandard a r else (r, None) in
      match err with
      | Some e => (r, Some (SetScopeError e))
      | None =>
        let sys := if isAllowlisted c then allowlistedSystem r else system r in
        let trans := if isAllowlisted c then allowlistedTransient r else transient r in
        let '(r, pa) := getPeerScope p r in
        let stat := scopeStat r a in
        match reserveIn pa stat r with
        | (r, Some e) => (decRef pa r, Some (SetScopeError e))
        | (r, None) =>
          let r := set_conn a (mkConn (conn_dir c) (conn_usefd c) (isAllowlisted c) (Some pa) (endpoint c) (conn_ip c)) r in
          let r := decRef trans (releaseIn trans stat r) in
          (putEdges a [pa; sys] r, None)
        end
      end
    end
  end.

(** *** Streams *)

Definition newStreamScope (dir : Direction) (pa : nat) (p : string) (r : resourceManager) : resourceManager * nat :=
  let r := set_users (conns r) (streams r) (connId r) (streamId r + 1) r in
  let '(r, a) := newScope (cStream limits) [pa; transient r; system r] ("stream-" ++ utoa (streamId r)) r in
  (set_stream a (mkStream dir pa p None None None None) r, a).

Definition streamDone (a : nat) (r : resourceManager) : resourceManager := set_hp (doneUnlocked (hp r) a) r.

Definition OpenStream (p : string) (dir : Direction) (r : resourceManager) : resourceManager * (scopeError + nat) :=
  let '(r, pa) := getPeerScope p r in
  let '(r, a) := newStreamScope dir pa p r in
  let r := decRef pa r in
  match onScopes (fun h => AddStream h a dir) r with
  | (r, Some err) => (streamDone a r, inl err)
  | (r, None) => (r, inr a)
  end.

Definition SetProtocol (a : nat) (q : string) (r : resourceManager) : resourceManager * option setError :=
  match streams r !! a with
  | None => (r, None)
  | Some s =>
    match stream_proto s with
    | Some _ => (r, Some AlreadyAttached)
    | None =>
      let '(r, pr) := getProtocolScope q r in
      let stat := scopeStat r a in
      match reserveIn pr stat r with
      | (r, Some e) => (decRef pr r, Some (SetScopeError e))
      | (r, None) =>
        let '(r, pp) := protocol_getPeerScope q (stream_peerID s) r in
        match reserveIn pp stat r with
        | (r, Some e) =>
          let r := decRef pr (releaseIn pr stat r) in
          (decRef pp r, Some (SetScopeError e))
        | (r, None) =>
          let r := decRef (transient r) (releaseIn (transient r) stat r) in
          let r := putEdges a [stream_peer s; pp; pr; system r] r in
          (set_stream a (mkStream (stream_dir s) (stream_peer s) (stream_peerID s) (stream_svc s) (Some pr)
                           (Some pp) (peerSvcScope s)) r, None)
        end
      end
    end
  end.

Definition SetService (a : nat) (v : string) (r : resourceManager) : resourceManager * option setError :=
  match streams r !! a with
  | None => (r, None)
  | Some s =>
    match stream_svc s, stream_proto s, peerProtoScope s with
    | Some _, _, _ => (r, Some AlreadyAttached)
    | None, None, _ => (r, Some NotAttachedToProtocol)
    | None, Some pr, pp =>
      let '(r, sv) := getServiceScope v r in
      let stat := scopeStat r a in
      match reserveIn sv stat r with
      | (r, Some e) => (decRef sv r, Some (SetScopeError e))
      | (r, None) =>
        let '(r, ps) := service_getPeerScope v (stream_peerID s) r in
        match reserveIn ps stat r with
        | (r, Some e) =>
          let r := decRef sv (releaseIn sv stat r) in
          (decRef ps r, Some (SetScopeError e))
        | (r, None) =>
          let r := putEdges a [stream_peer s; default 0%nat pp; ps; pr; sv; system r] r in
          (set_stream a (mkStream (stream_dir s) (stream_peer s) (stream_peerID s) (Some sv) (Some pr)
                           pp (Some ps)) r, None)
        end
      end
    end
  end.

(** *** Collection *)

Definition unused (r : resourceManager) (a : nat) : bool :=
  match hp r !! a with Some s => IsUnused s | None => false end.

Definition gcProto (r : resourceManager) (e : string * groupScope) : resourceManager :=
  let '(q, g) := e in
  if bool_decide (q ∈ stickyProto r) then r
  else if unused r (group g) then
    set_tables (svc r) (delete q (proto r)) (peer r) (set_hp (doneUnlocked (hp r) (group g)) r)
  else r.

Definition gcPeer (st : resourceManager * list string) (e : string * nat) : resourceManager * list string :=
  let '(r, dead) := st in
  let '(p, a) := e in
  if bool_decide (p ∈ stickyPeer r) then st
  else if unused r a then
    (set_tables (svc r) (proto r) (delete p (peer r)) (set_hp (doneUnlocked (hp r) a) r), dead ++ [p])
  else st.

(** The scopes a service or protocol keeps for the dead peers. *)
Definition dropPeer (hg : heap * groupScope) (p : string) : heap * groupScope :=
  let '(h, g) := hg in
  match peers g !! p with
  | Some ps => (doneUnlocked h ps, mkGroup (group g) (delete p (peers g)))
  | None => hg
  end.

Definition dropPeers (dead : list string) (st : heap * gmap string groupScope) (e : string * groupScope)
  : heap * gmap string groupScope :=
  let '(h, m) := st in
  let '(h, g) := foldl dropPeer (h, e.2) dead in
  (h, <[e.1 := g]> m).

Definition gc (r : resourceManager) : resourceManager :=
  let r := foldl gcProto r (range_map 0 (proto r)) in
  let '(r, dead) := foldl gcPeer (r, []) (range_map 1 (peer r)) in
  let '(h, sv) := foldl (dropPeers dead) (hp r, svc r) (range_map 2 (svc r)) in
  let '(h, pr) := foldl (dropPeers dead) (h, proto r) (range_map 3 (proto r)) in
  set_tables sv pr (peer r) (set_hp h r).
End manager.

(** ** The structure of the scopes

    Every address has a role for good; [lab] gives it.  [structure] says what is in the
    tables and which edges the open scopes have. *)

Inductive role :=
  | RSystem | RTransient | RAlSystem | RAlTransient
  | RService (v : string) | RProtocol (q : string) | RPeer (p : string)
  | RServicePeer (v p : string) | RProtocolPeer (q p : string)
  | RConn | RStream | RSpan.

Definition is_leaf (ro : role) : bool := match ro with RConn | RStream | RSpan => true | _ => false end.

Definition open_at (h : heap) (lab : nat -> role) (a : nat) (ro : role) : Prop :=
  exists s, h !! a = Some s /\ done s = false /\ owner s = None /\ lab a = ro.

Definition roots : list nat := [0; 1; 2; 3]%nat.

Definition conn_shape (pe : gmap string nat) (c : connectionScope) (es : list nat) : Prop :=
  match conn_peer c with
  | Some pa => (exists p, pe !! p = Some pa) /\ es = [pa; if isAllowlisted c then 2%nat else 0%nat]
  | None => if isAllowlisted c then es = [3; 2]%nat else es = [1; 0]%nat \/ es = [0; 1]%nat \/ es = []
  end.

Definition stream_shape (sv pr : gmap string groupScope) (pe : gmap string nat) (t : streamScope) (es : list nat) : Prop :=
  pe !! stream_peerID t = Some (stream_peer t) /\
  match stream_proto t, peerProtoScope t, stream_svc t, peerSvcScope t with
  | None, None, None, None => es = [stream_peer t; 1; 0]%nat
  | Some p, Some pp, None, None =>
    (exists q m, pr !! q = Some (mkGroup p m) /\ m !! stream_peerID t = Some pp) /\
    es = [stream_peer t; pp; p; 0%nat]
  | Some p, Some pp, Some s, Some ps =>
    (exists q m, pr !! q = Some (mkGroup p m) /\ m !! stream_peerID t = Some pp) /\
    (exists v m, sv !! v = Some (mkGroup s m) /\ m !! stream_peerID t = Some ps) /\
    es = [stream_peer t; pp; ps; p; s; 0%nat]
  | _, _, _, _ => False
  end.

Definition shape (r : resourceManager) (ro : role) (b : nat) (es : list nat) : Prop :=
  match ro with
  | RSystem | RAlSystem | RServicePeer _ _ | RProtocolPeer _ _ | RSpan => es = []
  | RTransient | RService _ | RProtocol _ | RPeer _ => es = [0%nat]
  | RAlTransient => es = [2%nat]
  | RConn => exists c, conns r !! b = Some c /\ conn_shape (peer r) c es
  | RStream => exists t, streams r !! b = Some t /\ stream_shape (svc r) (proto r) (peer r) t es
  end.

Record structure (lab : nat -> role) (r : resourceManager) : Prop := {
  s_roots : system r = 0%nat /\ transient r = 1%nat /\ allowlistedSystem r = 2%nat /\ allowlistedTransient r = 3%nat;
  s_next a : is_Some (hp r !! a) <-> (a < next r)%nat;
  s_root : open_at (hp r) lab 0 RSystem /\ open_at (hp r) lab 1 RTransient /\
           open_at (hp r) lab 2 RAlSystem /\ open_at (hp r) lab 3 RAlTransient;
  s_peer p a : peer r !! p = Some a -> open_at (hp r) lab a (RPeer p);
  s_svc v g : svc r !! v = Some g -> open_at (hp r) lab (group g) (RService v) /\
    forall p a, peers g !! p = Some a -> open_at (hp r) lab a (RServicePeer v p);
  s_proto q g : proto r !! q = Some g -> open_at (hp r) lab (group g) (RProtocol q) /\
    forall p a, peers g !! p = Some a -> open_at (hp r) lab a (RProtocolPeer q p);
  s_conn a c : conns r !! a = Some c -> is_Some (hp r !! a) /\ lab a = RConn;
  s_stream a t : streams r !! a = Some t -> is_Some (hp r !! a) /\ lab a = RStream;
  s_owner a s : hp r !! a = Some s -> lab a <> RSpan -> owner s = None;
  s_shape b s : hp r !! b = Some s -> done s = false -> shape r (lab b) b (edges s)
}.

Lemma open_at_same h h' lab a ro : same_places h h' -> open_at h lab a ro -> open_at h' lab a ro.
Proof.
  intros Hs (s & Ha & Hd & Ho & Hl). destruct (same_lookup h h' a s Hs Ha) as (s' & Ha' & Ed & Eo & _).
  exists s'. split_and!; [done|congruence..].
Qed.

Lemma open_at_alive h lab a ro : open_at h lab a ro -> alive h a = true.
Proof. intros (s & Ha & Hd & _). unfold alive. by rewrite Ha, Hd. Qed.

Lemma structure_same lab r h' : same_places (hp r) h' -> structure lab r -> structure lab (set_hp h' r).
Proof.
  intros Hs [S1 S2 S3 S4 S5 S6 S7 S8 S9 S10].
  assert (forall a, is_Some (h' !! a) <-> is_Some (hp r !! a)) as Hdom.
  { intros a. specialize (Hs a). destruct (hp r !! a), (h' !! a); try done; split; eauto. }
  assert (forall a ro, open_at (hp r) lab a ro -> open_at h' lab a ro) as Hop by (intros; by eapply open_at_same).
  split; simpl; [done|..].
  - intros a. by rewrite Hdom.
  - naive_solver.
  - eauto.
  - intros v g Hv. destruct (S5 v g Hv). eauto.
  - intros q g Hq. destruct (S6 q g Hq). eauto.
  - intros a c Hc. destruct (S7 a c Hc). by rewrite Hdom.
  - intros a t Ht. destruct (S8 a t Ht). by rewrite Hdom.
  - intros a s Ha Hl. destruct (same_lookup_inv _ _ a s Hs Ha) as (s0 & Ha0 & _ & -> & _). eauto.
  - intros b s Hb Hd. destruct (same_lookup_inv _ _ b s Hs Hb) as (s0 & Hb0 & Ed & _ & ->).
    apply (S10 b s0 Hb0). congruence.
Qed.

Ltac each_edge H :=
  repeat match type of H with
         | _ ∈ _ :: _ => apply elem_of_cons in H as [->|H]
         | _ ∈ [] => by apply not_elem_of_nil in H
         end.

(** The edges of an open scope lead to open scopes that are no connections, streams or
    spans. *)
Lemma edge_open lab r b s e : structure lab r -> hp r !! b = Some s -> done s = false -> e ∈ edges s ->
  exists ro, open_at (hp r) lab e ro /\ is_leaf ro = false.
Proof.
  intros HS Hb Hd He. pose proof (s_shape _ _ HS b s Hb Hd) as Hsh.
  destruct (s_root _ _ HS) as (R0 & R1 & R2 & R3).
  assert (forall x, x ∈ [0; 1; 2; 3]%nat -> exists ro, open_at (hp r) lab x ro /\ is_leaf ro = false) as Hroot.
  { intros x Hx. each_edge Hx; eauto. }
  assert (forall p x, peer r !! p = Some x -> exists ro, open_at (hp r) lab x ro /\ is_leaf ro = false) as Hpeer.
  { intros p x Hx. pose proof (s_peer _ _ HS p x Hx). eauto. }
  assert (forall q p m, proto r !! q = Some (mkGroup p m) ->
    exists ro, open_at (hp r) lab p ro /\ is_leaf ro = false) as Hpr.
  { intros q p m Hx. destruct (s_proto _ _ HS _ _ Hx) as [? _]. eauto. }
  assert (forall q p m k x, proto r !! q = Some (mkGroup p m) -> m !! k = Some x ->
    exists ro, open_at (hp r) lab x ro /\ is_leaf ro = false) as Hpp.
  { intros q p m k x Hx Hk. destruct (s_proto _ _ HS _ _ Hx) as [_ H]. specialize (H k x Hk). eauto. }
  assert (forall q p m, svc r !! q = Some (mkGroup p m) ->
    exists ro, open_at (hp r) lab p ro /\ is_leaf ro = false) as Hsv.
  { intros q p m Hx. destruct (s_svc _ _ HS _ _ Hx) as [? _]. eauto. }
  assert (forall q p m k x, svc r !! q = Some (mkGroup p m) -> m !! k = Some x ->
    exists ro, open_at (hp r) lab x ro /\ is_leaf ro = false) as Hsp.
  { intros q p m k x Hx Hk. destruct (s_svc _ _ HS _ _ Hx) as [_ H]. specialize (H k x Hk). eauto. }
  destruct (lab b); simpl in Hsh; try (rewrite Hsh in He; set_solver).
  - destruct Hsh as (c & _ & Hc). unfold conn_shape in Hc. destruct (conn_peer c) as [pa|].
    + destruct Hc as [[p Hp] E]. rewrite E in He. each_edge He; eauto. apply Hroot. destruct (isAllowlisted c); set_solver.
    + destruct (isAllowlisted c); [rewrite Hc in He; set_solver|].
      destruct Hc as [Hc|[Hc|Hc]]; rewrite Hc in He; set_solver.
  - destruct Hsh as (t & _ & Hp & Ht). destruct (stream_proto t) as [p|], (peerProtoScope t) as [pp|],
      (stream_svc t) as [sv|], (peerSvcScope t) as [ps|]; try done.
    + destruct Ht as ((q & m & Hq & Hm) & (v & m' & Hv & Hm') & E). rewrite E in He.
      each_edge He; eauto; apply Hroot; set_solver.
    + destruct Ht as ((q & m & Hq & Hm) & E). rewrite E in He.
      each_edge He; eauto; apply Hroot; set_solver.
    + rewrite Ht in He.
      each_edge He; eauto; apply Hroot; set_solver.
Qed.

Lemma leaf_unheld lab r a : structure lab r -> is_leaf (lab a) = true -> unheld (hp r) a.
Proof.
  intros HS Hl b t Hb Ha. destruct (done t) eqn:Hd; [done|].
  destruct (edge_open lab r b t a HS Hb Hd Ha) as (ro & (s & _ & _ & _ & E) & Hro). congruence.
Qed.

(** ** The invariant *)

Definition rootBase (a : nat) : Z := if bool_decide (a ∈ roots) then 1 else 0.

Record inv (l : ledger) (lab : nat -> role) (r : resourceManager) : Prop := {
  inv_structure : structure lab r;
  inv_good : good l rootBase (hp r)
}.

(** In the middle of a move. *)
Record mid (l : ledger) (lab : nat -> role) (r : resourceManager) (u : ScopeStat) (a rr : nat -> Z) : Prop := {
  mid_structure : structure lab r;
  mid_shifted : shifted l rootBase (hp r) u a rr
}.

Lemma inv_mid l lab r u : inv l lab r <-> mid l lab r u (fun _ => 0) (fun _ => 0).
Proof. split; intros [? ?]; (split; [done|]); by apply (good_shifted _ _ _ u). Qed.

Lemma mid_inv l lab r u a rr : mid l lab r u a rr -> (forall y, a y = 0) -> (forall x, rr x = 0) -> inv l lab r.
Proof.
  intros [HS Hsh] Ha Hr. apply (inv_mid _ _ _ u). split; [done|]. eapply shifted_ext; [done|..]; auto.
Qed.

(** What an operation leaves of a manager: addresses keep their place and their counters,
    the tables grow. *)
Record grows (lab lab' : nat -> role) (r r' : resourceManager) : Prop := {
  g_next : (next r <= next r')%nat;
  g_lab a : (a < next r)%nat -> lab' a = lab a;
  g_heap a s : hp r !! a = Some s -> exists s', hp r' !! a = Some s' /\ same_place s s' /\ rc s' = rc s;
  g_peer p a : peer r !! p = Some a -> peer r' !! p = Some a;
  g_svc v g : svc r !! v = Some g -> exists m, svc r' !! v = Some (mkGroup (group g) m) /\ peers g ⊆ m;
  g_proto q g : proto r !! q = Some g -> exists m, proto r' !! q = Some (mkGroup (group g) m) /\ peers g ⊆ m;
  g_users : conns r' = conns r /\ streams r' = streams r;
  g_limiter : limiter r' = limiter r
}.

Lemma set_hp_id r : set_hp (hp r) r = r.
Proof. by destruct r. Qed.

Lemma shape_grows r r' ro b es :
  (forall p a, peer r !! p = Some a -> peer r' !! p = Some a) ->
  (forall v g, svc r !! v = Some g -> exists m, svc r' !! v = Some (mkGroup (group g) m) /\ peers g ⊆ m) ->
  (forall q g, proto r !! q = Some g -> exists m, proto r' !! q = Some (mkGroup (group g) m) /\ peers g ⊆ m) ->
  conns r' = conns r -> streams r' = streams r -> shape r ro b es -> shape r' ro b es.
Proof.
  intros Hp Hs Hq Ec Es. destruct ro; try done; simpl; rewrite ?Ec, ?Es.
  - intros (c & Hc & Hsh). exists c. split; [done|]. unfold conn_shape in *.
    destruct (conn_peer c); [|done]. destruct Hsh as [[p Hpa] ->]. eauto.
  - intros (t & Ht & Hpe & Hsh). exists t. split; [done|]. split; [auto|].
    assert (forall p pp, (exists q m, proto r !! q = Some (mkGroup p m) /\ m !! stream_peerID t = Some pp) ->
      exists q m, proto r' !! q = Some (mkGroup p m) /\ m !! stream_peerID t = Some pp) as Hpr.
    { intros p pp (q & m & Hm & Hk). destruct (Hq q _ Hm) as (m' & Hm' & Hsub). exists q, m'. split; [done|].
      by eapply lookup_weaken. }
    assert (forall p pp, (exists q m, svc r !! q = Some (mkGroup p m) /\ m !! stream_peerID t = Some pp) ->
      exists q m, svc r' !! q = Some (mkGroup p m) /\ m !! stream_peerID t = Some pp) as Hsv.
    { intros p pp (q & m & Hm & Hk). destruct (Hs q _ Hm) as (m' & Hm' & Hsub). exists q, m'. split; [done|].
      by eapply lookup_weaken. }
    destruct (stream_proto t), (peerProtoScope t), (stream_svc t), (peerSvcScope t); naive_solver.
Qed.

(** New entries in the tables. *)
Lemma structure_tables lab r sv pr pe : structure lab r ->
  (forall p a, pe !! p = Some a -> open_at (hp r) lab a (RPeer p)) ->
  (forall v g, sv !! v = Some g -> open_at (hp r) lab (group g) (RService v) /\
    forall p a, peers g !! p = Some a -> open_at (hp r) lab a (RServicePeer v p)) ->
  (forall q g, pr !! q = Some g -> open_at (hp r) lab (group g) (RProtocol q) /\
    forall p a, peers g !! p = Some a -> open_at (hp r) lab a (RProtocolPeer q p)) ->
  (forall p a, peer r !! p = Some a -> pe !! p = Some a) ->
  (forall v g, svc r !! v = Some g -> exists m, sv !! v = Some (mkGroup (group g) m) /\ peers g ⊆ m) ->
  (forall q g, proto r !! q = Some g -> exists m, pr !! q = Some (mkGroup (group g) m) /\ peers g ⊆ m) ->
  structure lab (set_tables sv pr pe r).
Proof.
  intros [S1 S2 S3 S4 S5 S6 S7 S8 S9 S10] Hp Hs Hq Gp Gs Gq. split; simpl; try done.
  intros b s Hb Hd. eapply (shape_grows r); [done|done|done|done|done|]. by apply S10.
Qed.

Lemma grows_refl lab r : grows lab lab r r.
Proof.
  split; try done.
  - intros a s Ha. exists s. by destruct s.
  - intros v g Hv. exists (peers g). split; [by destruct g|done].
  - intros q g Hq. exists (peers g). split; [by destruct g|done].
Qed.

Lemma grows_trans lab1 lab2 lab3 r1 r2 r3 :
  grows lab1 lab2 r1 r2 -> grows lab2 lab3 r2 r3 -> grows lab1 lab3 r1 r3.
Proof.
  intros [N1 L1 H1 P1 S1 Q1 [U1 V1] M1] [N2 L2 H2 P2 S2 Q2 [U2 V2] M2]. split.
  - lia.
  - intros a Ha. rewrite L2 by lia. auto.
  - intros a s Ha. destruct (H1 a s Ha) as (s1 & Ha1 & Hp1 & E1). destruct (H2 a s1 Ha1) as (s2 & Ha2 & Hp2 & E2).
    exists s2. unfold same_place in *. intuition congruence.
  - auto.
  - intros v g Hv. destruct (S1 v g Hv) as (m1 & Hv1 & Hm1). destruct (S2 v _ Hv1) as (m2 & Hv2 & Hm2).
    exists m2. split; [done|]. by etrans.
  - intros v g Hv. destruct (Q1 v g Hv) as (m1 & Hv1 & Hm1). destruct (Q2 v _ Hv1) as (m2 & Hv2 & Hm2).
    exists m2. split; [done|]. by etrans.
  - split; congruence.
  - congruence.
Qed.

Definition supp (r : resourceManager) (a : nat -> Z) : Prop := forall x, (next r <= x)%nat -> a x = 0.

Lemma open_at_grows lab lab' r r' a ro : structure lab r -> grows lab lab' r r' -> open_at (hp r) lab a ro ->
  open_at (hp r') lab' a ro.
Proof.
  intros HS G (s & Ha & Hd & Ho & Hl). destruct (g_heap _ _ _ _ G a s Ha) as (s' & Ha' & (Ed & Eo & _) & _).
  exists s'. rewrite Ed, Eo. split_and!; try done. rewrite (g_lab _ _ _ _ G); [done|].
  apply (s_next _ _ HS). eauto.
Qed.

Section getters.
Context (l : ledger) (u : ScopeStat) (Hst : stat_ok u) (a rr : nat -> Z).

Lemma mid_alter lab r e d : mid l lab r u a rr -> is_Some (hp r !! e) ->
  mid l lab (set_hp (alter (fun s => set_refCnt (refCnt s + d) s) e (hp r)) r) u a (fun x => rr x + occ x [e] * d).
Proof.
  intros [HS Hsh] He. destruct (shift_ref l rootBase u Hst (hp r) e d a rr Hsh He) as [Hsh' Hs].
  split; [|done]. by apply structure_same.
Qed.

Lemma grows_alter lab r e d : grows lab lab r (set_hp (alter (fun s => set_refCnt (refCnt s + d) s) e (hp r)) r).
Proof.
  destruct (grows_refl lab r) as [N L H P S Q U M]. split; try done. simpl.
  intros x s Hx. destruct (decide (x = e)) as [->|].
  - rewrite lookup_alter_eq, Hx. simpl. eexists. split; [done|]. done.
  - rewrite lookup_alter_ne by done. eauto.
Qed.

(** A new scope, and what is recorded of it if it is a connection or stream. *)
Lemma mid_newUser lab r lim es txt ro cs ss ci si : mid l lab r u a rr -> limit_ok lim -> NoDup es ->
  (forall e, e ∈ es -> exists ro, open_at (hp r) lab e ro) -> a (next r) = 0 -> rr (next r) = 0 ->
  (forall x, x <> next r -> cs !! x = conns r !! x /\ ss !! x = streams r !! x) ->
  (is_Some (cs !! next r) -> ro = RConn) -> (is_Some (ss !! next r) -> ro = RStream) ->
  shape (set_users cs ss ci si r) ro (next r) es ->
  let lab' x := if bool_decide (x = next r) then ro else lab x in
  let '(r1, n) := newScope lim es txt r in
  let r' := set_users cs ss ci si r1 in
  mid l lab' r' u a rr /\
  (forall x s, hp r !! x = Some s -> exists s', hp r' !! x = Some s' /\ same_place s s' /\ rc s' = rc s) /\
  (forall x, (x < next r)%nat -> lab' x = lab x) /\
  hp r' !! n = Some (mkScope false 0 0 (mkResources lim stat_zero) None es txt) /\ lab' n = ro /\
  n = next r /\ next r' = S (next r) /\ svc r' = svc r /\ proto r' = proto r /\ peer r' = peer r.
Proof.
  intros [HS Hsh] Hlim Hnd Hes Ha Hr Hoth Hcn Hsn Hshape lab'.
  assert (hp r !! next r = None) as Hn.
  { apply eq_None_not_Some. intros H. apply (s_next _ _ HS) in H. lia. }
  assert (plain (hp r) es) as Hpl.
  { intros e He. destruct (Hes e He) as (ro' & s & ? & ? & ? & ?). eauto. }
  unfold newScope. set (h' := newResourceScope (hp r) (next r) lim es txt).
  assert (shifted l rootBase h' u a rr) as Hsh' by (by apply shifted_newScope).
  pose proof (incRefs_ok es (hp r) (shifted_wf _ _ _ _ _ _ Hsh)) as Hinc.
  assert (forall x s, hp r !! x = Some s ->
    exists s', h' !! x = Some s' /\ same_place s s' /\ rc s' = rc s) as Hheap.
  { intros x s Hx. unfold h', newResourceScope. assert (x <> next r) as Hne by congruence.
    rewrite lookup_insert_ne by done. clear -Hx.
    assert (forall h, (exists s', h !! x = Some s' /\ same_place s s' /\ rc s' = rc s) ->
      exists s', foldl IncRef h es !! x = Some s' /\ same_place s s' /\ rc s' = rc s) as G.
    { induction es as [|e es IH]; [done|]. intros h (s' & Hs' & Hp & E). simpl. apply IH. unfold IncRef.
      destruct (decide (x = e)) as [->|].
      - rewrite lookup_alter_eq, Hs'. simpl. eexists. done.
      - rewrite lookup_alter_ne by done. eauto. }
    apply G. exists s. by destruct s. }
  assert (forall x s, h' !! x = Some s -> x <> next r -> exists s0, hp r !! x = Some s0 /\ same_place s0 s) as Hback.
  { intros x s Hx Hne. unfold h', newResourceScope in Hx. rewrite lookup_insert_ne in Hx by done.
    destruct (Hinc) as (_ & Hs & _); [intros e He; destruct (Hpl e He) as (? & ? & _); eauto|done|].
    by apply (same_lookup_inv _ _ x s Hs). }
  assert (forall x, (x < next r)%nat -> lab' x = lab x) as Hlab.
  { intros x Hx. unfold lab'. rewrite bool_decide_eq_false_2; [done|lia]. }
  assert (forall x ro, open_at (hp r) lab x ro -> open_at h' lab' x ro) as Hop.
  { intros x ro' (s & Hx & Hd & Ho & El). destruct (Hheap x s Hx) as (s' & Hx' & (Ed & Eo & _) & _).
    exists s'. rewrite Ed, Eo, Hlab; [done|]. apply (s_next _ _ HS). eauto. }
  assert (h' !! next r = Some (mkScope false 0 0 (mkResources lim stat_zero) None es txt)) as Hnew.
  { unfold h', newResourceScope. apply lookup_insert_eq. }
  assert (lab' (next r) = ro) as Hlabn by (unfold lab'; by rewrite bool_decide_eq_true_2).
  split_and!; try done.
  split; [|done]. destruct HS as [S1 S2 S3 S4 S5 S6 S7 S8 S9 S10]. split; simpl; [done|..].
  - intros x. rewrite Nat.lt_succ_r, Nat.le_lteq, <-S2. split.
    + intros [s Hs]. destruct (decide (x = next r)) as [->|]; [by right|left].
      destruct (Hback x s Hs) as (? & ? & _); eauto.
    + intros [[s Hs]| ->]; [|by eauto]. destruct (Hheap x s Hs) as (? & ? & _). eauto.
  - naive_solver.
  - eauto.
  - intros v g Hv. destruct (S5 v g Hv). eauto.
  - intros v g Hv. destruct (S6 v g Hv). eauto.
  - intros x c Hc. destruct (decide (x = next r)) as [->|Hne]; [rewrite Hlabn; eauto|].
    rewrite (proj1 (Hoth x Hne)) in Hc. destruct (S7 x c Hc) as [[s Hx] El]. rewrite Hlab by (apply S2; eauto).
    destruct (Hheap x s Hx) as (? & ? & _). eauto.
  - intros x c Hc. destruct (decide (x = next r)) as [->|Hne]; [rewrite Hlabn; eauto|].
    rewrite (proj2 (Hoth x Hne)) in Hc. destruct (S8 x c Hc) as [[s Hx] El]. rewrite Hlab by (apply S2; eauto).
    destruct (Hheap x s Hx) as (? & ? & _). eauto.
  - intros x s Hx Hl. destruct (decide (x = next r)) as [->|Hne]; [rewrite Hnew in Hx; by simplify_eq|].
    destruct (Hback x s Hx Hne) as (s0 & Hx0 & _ & -> & _). apply (S9 x s0 Hx0).
    rewrite <-Hlab; [done|]. apply S2. eauto.
  - intros x s Hx Hd. destruct (decide (x = next r)) as [->|Hne].
    + rewrite Hlabn. rewrite Hnew in Hx. simplify_eq. simpl. by destruct ro.
    + destruct (Hback x s Hx Hne) as (s0 & Hx0 & Ed & _ & Ee). rewrite Ee, Hlab by (apply S2; eauto).
      assert (shape r (lab x) x (edges s0)) as Hsh0 by (apply S10; [done|congruence]).
      destruct (Hoth x Hne) as [E1 E2]. destruct (lab x); try done; simpl in *; by rewrite ?E1, ?E2.
Qed.

Lemma mid_newScope lab r lim es txt ro : mid l lab r u a rr -> limit_ok lim -> NoDup es ->
  (forall e, e ∈ es -> exists ro, open_at (hp r) lab e ro) -> a (next r) = 0 -> rr (next r) = 0 ->
  is_leaf ro = false -> shape r ro (next r) es ->
  let lab' x := if bool_decide (x = next r) then ro else lab x in
  let '(r', n) := newScope lim es txt r in
  mid l lab' r' u a rr /\ grows lab lab' r r' /\ open_at (hp r') lab' n ro /\ n = next r /\ next r' = S (next r) /\
  svc r' = svc r /\ proto r' = proto r /\ peer r' = peer r.
Proof.
  intros Hmid Hlim Hnd Hes Ha Hr Hleaf Hshape. pose proof (mid_structure _ _ _ _ _ _ Hmid) as HS.
  pose proof (mid_newUser lab r lim es txt ro (conns r) (streams r) (connId r) (streamId r) Hmid Hlim Hnd Hes Ha Hr
    ltac:(done)) as G.
  assert (forall P : Prop, is_Some (hp r !! next r) -> P) as Hno.
  { intros P H%(s_next _ _ HS). lia. }
  destruct (newScope lim es txt r) as [r1 n] eqn:En. intros lab'.
  assert (set_users (conns r) (streams r) (connId r) (streamId r) r1 = r1) as Eid.
  { unfold newScope in En. by simplify_eq. }
  rewrite Eid in G. destruct G as (G1 & G2 & G3 & G4 & G5 & G6 & G7 & G8 & G9 & G10).
  - intros [c Hc]. apply Hno. by destruct (s_conn _ _ HS _ _ Hc).
  - intros [c Hc]. apply Hno. by destruct (s_stream _ _ HS _ _ Hc).
  - by destruct ro.
  - split_and!; try done; [|eexists; done].
    split; [lia|done|exact G2|by rewrite G10| | | |]; unfold newScope in En; simplify_eq; simpl; [..|done|done].
    + intros v g Hv. exists (peers g). split; [by destruct g|done].
    + intros v g Hv. exists (peers g). split; [by destruct g|done].
Qed.
End getters.

Section lookups.
Context (limits : ConcreteLimitConfig) (Hlim : config_ok limits).
Context (l : ledger) (u : ScopeStat) (Hst : stat_ok u) (a rr : nat -> Z).

(** What a lookup by name gives: an open scope of that role, with a reference more. *)
Definition got (lab : nat -> role) (r : resourceManager) (res : resourceManager * nat) (ro : role)
  (listed : resourceManager -> nat -> Prop) : Prop :=
  exists lab', let '(r', n) := res in
    mid l lab' r' u a (fun x => rr x + occ x [n]) /\ grows lab lab' r r' /\
    open_at (hp r') lab' n ro /\ listed r' n.

Lemma got_old lab r n ro (listed : resourceManager -> nat -> Prop) : mid l lab r u a rr ->
  open_at (hp r) lab n ro -> listed (set_hp (IncRef (hp r) n) r) n ->
  got lab r (set_hp (IncRef (hp r) n) r, n) ro listed.
Proof.
  intros Hm Hop Hls. exists lab. assert (is_Some (hp r !! n)) as Hn by (destruct Hop as (? & ? & _); eauto).
  pose proof (mid_alter l u Hst a rr lab r n 1 Hm Hn) as Hm'. split_and!; [|apply grows_alter| |done].
  - destruct Hm' as [HS Hsh]. split; [done|]. eapply shifted_ext; [done|done|]. intros x. simpl. lia.
  - eapply open_at_grows; [apply Hm|apply (grows_alter lab r n 1)|done].
Qed.

(** A new scope, entered in a table, and then referred to. *)
Lemma got_new lab r lim es txt ro sv pr pe (listed : resourceManager -> nat -> Prop) :
  mid l lab r u a rr -> supp r a -> supp r rr -> limit_ok lim ->
  (es = [0%nat] \/ es = []) -> is_leaf ro = false -> shape r ro (next r) es ->
  let '(r1, n) := newScope lim es txt r in
  (forall lab1, mid l lab1 r1 u a rr -> grows lab lab1 r r1 -> open_at (hp r1) lab1 n ro ->
     structure lab1 (set_tables (sv n) (pr n) (pe n) r1) /\
     grows lab lab1 r (set_tables (sv n) (pr n) (pe n) r1)) ->
  (forall h, listed (set_hp h (set_tables (sv n) (pr n) (pe n) r1)) n) ->
  let r2 := set_tables (sv n) (pr n) (pe n) r1 in
  got lab r (set_hp (IncRef (hp r2) n) r2, n) ro listed.
Proof.
  intros Hm Ha Hr Hl Hes Hleaf Hsh.
  pose proof (mid_newScope l u a rr lab r lim es txt ro Hm Hl) as Hnew.
  destruct (newScope lim es txt r) as [r1 n]. intros Htab Hls r2.
  destruct Hnew as (Hm1 & Hg1 & Hop1 & _).
  { destruct Hes as [-> | ->]; [apply NoDup_singleton|apply NoDup_nil_2]. }
  { intros e He. destruct (s_root _ _ (mid_structure _ _ _ _ _ _ Hm)) as (? & _).
    destruct Hes as [-> | ->]; [|by apply not_elem_of_nil in He].
    apply list_elem_of_singleton in He as ->. eauto. }
  { apply Ha. lia. }
  { apply Hr. lia. }
  { done. }
  { done. }
  set (lab1 := fun x => _) in *. destruct (Htab lab1 Hm1 Hg1 Hop1) as [HS2 Hg2].
  assert (mid l lab1 r2 u a rr) as Hm2 by (split; [done|apply Hm1]).
  destruct (got_old lab1 r2 n ro listed Hm2) as (lab2 & Hm3 & Hg3 & Hop3 & Hls3); [done|apply Hls|].
  exists lab2. split_and!; [done| |done|done]. by eapply grows_trans.
Qed.

Lemma getPeerScope_got lab r p : mid l lab r u a rr -> supp r a -> supp r rr ->
  got lab r (getPeerScope limits p r) (RPeer p) (fun r' n => peer r' !! p = Some n).
Proof.
  intros Hm Ha Hr. pose proof (mid_structure _ _ _ _ _ _ Hm) as HS. unfold getPeerScope.
  destruct (peer r !! p) as [n|] eqn:Ep.
  { apply got_old; [done|by eapply s_peer|done]. }
  destruct (s_roots _ _ HS) as (E0 & _). rewrite E0.
  pose proof (got_new lab r (GetPeerLimits limits p) [0%nat] ("peer:" ++ p) (RPeer p)
    (fun _ => svc r) (fun _ => proto r) (fun n => <[p := n]> (peer r))
    (fun r' n => peer r' !! p = Some n) Hm Ha Hr) as G.
  destruct (newScope _ _ _ r) as [r1 n] eqn:En.
  assert (svc r1 = svc r /\ proto r1 = proto r /\ peer r1 = peer r) as (Es & Eq & Epe).
  { unfold newScope in En. by simplify_eq. }
  rewrite Es, Eq, Epe. apply G; try done.
  - apply lookupOr_ok; destruct Hlim as [H1 H2]; rewrite !Forall_cons in H1; rewrite !Forall_cons in H2; tauto.
  - by left.
  - intros lab1 [HS1 _] G1 Hop1. split.
    + apply structure_tables; [done| | | | | |].
      * intros q x [[<- <-]|[? Hx]]%lookup_insert_Some; [done|]. rewrite <-Epe in Hx. by eapply s_peer.
      * intros v g Hv. rewrite <-Es in Hv. by eapply s_svc.
      * intros v g Hv. rewrite <-Eq in Hv. by eapply s_proto.
      * intros q x Hq. rewrite Epe in Hq. rewrite lookup_insert_ne; [done|congruence].
      * intros v g Hv. rewrite Es in Hv. exists (peers g). split; [by destruct g|done].
      * intros v g Hv. rewrite Eq in Hv. exists (peers g). split; [by destruct g|done].
    + destruct G1 as [N L H P S Q U M]. split; try done.
      * intros q x Hq. simpl. rewrite lookup_insert_ne; [done|congruence].
      * simpl. intros v g Hv. exists (peers g). split; [by destruct g|done].
      * simpl. intros v g Hv. exists (peers g). split; [by destruct g|done].
  - intros h. simpl. apply lookup_insert_eq.
Qed.
(** A table entry that is put where there was none, or in the place of the one with the
    same scope and fewer peers. *)
Lemma group_insert (m : gmap string groupScope) k g : (forall g0, m !! k = Some g0 ->
    group g = group g0 /\ peers g0 ⊆ peers g) ->
  forall v g0, m !! v = Some g0 -> exists m', <[k := g]> m !! v = Some (mkGroup (group g0) m') /\ peers g0 ⊆ m'.
Proof.
  intros Hk v g0 Hv. destruct (decide (v = k)) as [->|].
  - rewrite lookup_insert_eq. destruct (Hk g0 Hv) as [E Hs]. exists (peers g). split; [|done].
    destruct g; simpl in *. by rewrite E.
  - rewrite lookup_insert_ne by done. exists (peers g0). split; [by destruct g0|done].
Qed.

Lemma group_same (m : gmap string groupScope) :
  forall v g, m !! v = Some g -> exists m', m !! v = Some (mkGroup (group g) m') /\ peers g ⊆ m'.
Proof. intros v g Hv. exists (peers g). split; [by destruct g|done]. Qed.

(** The tables of services and of protocols are alike. *)
Lemma put_service lab r lab1 r1 k g : grows lab lab1 r r1 -> svc r1 = svc r -> proto r1 = proto r ->
  peer r1 = peer r -> structure lab1 r1 ->
  (forall g0, svc r !! k = Some g0 -> group g = group g0 /\ peers g0 ⊆ peers g) ->
  open_at (hp r1) lab1 (group g) (RService k) ->
  (forall p x, peers g !! p = Some x -> open_at (hp r1) lab1 x (RServicePeer k p)) ->
  structure lab1 (set_tables (<[k := g]> (svc r)) (proto r) (peer r) r1) /\
  grows lab lab1 r (set_tables (<[k := g]> (svc r)) (proto r) (peer r) r1).
Proof.
  intros G1 Es Eq Epe HS1 Hold Hop Hops. split.
  - apply structure_tables; [done| | | | | |].
    + intros q x Hx. rewrite <-Epe in Hx. by eapply s_peer.
    + intros v g' [[<- <-]|[? Hv]]%lookup_insert_Some; [done|]. rewrite <-Es in Hv. by eapply s_svc.
    + intros v g' Hv. rewrite <-Eq in Hv. by eapply s_proto.
    + intros q x Hq. by rewrite <-Epe.
    + rewrite Es. by apply group_insert.
    + rewrite Eq. apply group_same.
  - destruct G1 as [N L H P S Q U M]. split; try done.
    + by apply group_insert.
    + simpl. apply group_same.
Qed.

Lemma put_protocol lab r lab1 r1 k g : grows lab lab1 r r1 -> svc r1 = svc r -> proto r1 = proto r ->
  peer r1 = peer r -> structure lab1 r1 ->
  (forall g0, proto r !! k = Some g0 -> group g = group g0 /\ peers g0 ⊆ peers g) ->
  open_at (hp r1) lab1 (group g) (RProtocol k) ->
  (forall p x, peers g !! p = Some x -> open_at (hp r1) lab1 x (RProtocolPeer k p)) ->
  structure lab1 (set_tables (svc r) (<[k := g]> (proto r)) (peer r) r1) /\
  grows lab lab1 r (set_tables (svc r) (<[k := g]> (proto r)) (peer r) r1).
Proof.
  intros G1 Es Eq Epe HS1 Hold Hop Hops. split.
  - apply structure_tables; [done| | | | | |].
    + intros q x Hx. rewrite <-Epe in Hx. by eapply s_peer.
    + intros v g' Hv. rewrite <-Es in Hv. by eapply s_svc.
    + intros v g' [[<- <-]|[? Hv]]%lookup_insert_Some; [done|]. rewrite <-Eq in Hv. by eapply s_proto.
    + intros q x Hq. by rewrite <-Epe.
    + rewrite Es. apply group_same.
    + rewrite Eq. by apply group_insert.
  - destruct G1 as [N L H P S Q U M]. split; try done.
    + simpl. apply group_same.
    + by apply group_insert.
Qed.

Lemma getServiceScope_got lab r v : mid l lab r u a rr -> supp r a -> supp r rr ->
  got lab r (getServiceScope limits v r) (RService v)
    (fun r' n => exists m, svc r' !! v = Some (mkGroup n m)).
Proof.
  intros Hm Ha Hr. pose proof (mid_structure _ _ _ _ _ _ Hm) as HS. unfold getServiceScope.
  destruct (svc r !! v) as [g|] eqn:Ep.
  { apply got_old; [done|by eapply s_svc|]. exists (peers g). simpl. by destruct g. }
  destruct (s_roots _ _ HS) as (E0 & _). rewrite E0.
  pose proof (got_new lab r (GetServiceLimits limits v) [0%nat] ("service:" ++ v) (RService v)
    (fun n => <[v := mkGroup n ∅]> (svc r)) (fun _ => proto r) (fun _ => peer r)
    (fun r' n => exists m, svc r' !! v = Some (mkGroup n m)) Hm Ha Hr) as G.
  destruct (newScope _ _ _ r) as [r1 n] eqn:En.
  assert (svc r1 = svc r /\ proto r1 = proto r /\ peer r1 = peer r) as (Es & Eq & Epe).
  { unfold newScope in En. by simplify_eq. }
  rewrite Es, Eq, Epe. apply G; try done.
  - apply lookupOr_ok; destruct Hlim as [H1 H2]; rewrite !Forall_cons in H1; rewrite !Forall_cons in H2; tauto.
  - by left.
  - intros lab1 [HS1 _] G1 Hop1.
    edestruct (put_service lab r lab1 r1 v (mkGroup n ∅)) as [? ?]; try done; congruence.
  - intros h. simpl. exists ∅. apply lookup_insert_eq.
Qed.

Lemma getProtocolScope_got lab r q : mid l lab r u a rr -> supp r a -> supp r rr ->
  got lab r (getProtocolScope limits q r) (RProtocol q)
    (fun r' n => exists m, proto r' !! q = Some (mkGroup n m)).
Proof.
  intros Hm Ha Hr. pose proof (mid_structure _ _ _ _ _ _ Hm) as HS. unfold getProtocolScope.
  destruct (proto r !! q) as [g|] eqn:Ep.
  { apply got_old; [done|by eapply s_proto|]. exists (peers g). simpl. by destruct g. }
  destruct (s_roots _ _ HS) as (E0 & _). rewrite E0.
  pose proof (got_new lab r (GetProtocolLimits limits q) [0%nat] ("protocol:" ++ q) (RProtocol q)
    (fun _ => svc r) (fun n => <[q := mkGroup n ∅]> (proto r)) (fun _ => peer r)
    (fun r' n => exists m, proto r' !! q = Some (mkGroup n m)) Hm Ha Hr) as G.
  destruct (newScope _ _ _ r) as [r1 n] eqn:En.
  assert (svc r1 = svc r /\ proto r1 = proto r /\ peer r1 = peer r) as (Es & Eq & Epe).
  { unfold newScope in En. by simplify_eq. }
  rewrite Es, Eq, Epe. apply G; try done.
  - apply lookupOr_ok; destruct Hlim as [H1 H2]; rewrite !Forall_cons in H1; rewrite !Forall_cons in H2; tauto.
  - by left.
  - intros lab1 [HS1 _] G1 Hop1.
    edestruct (put_protocol lab r lab1 r1 q (mkGroup n ∅)) as [? ?]; try done; congruence.
  - intros h. simpl. exists ∅. apply lookup_insert_eq.
Qed.

Lemma service_getPeerScope_got lab r v sv m p : mid l lab r u a rr -> supp r a -> supp r rr ->
  svc r !! v = Some (mkGroup sv m) ->
  got lab r (service_getPeerScope limits v p r) (RServicePeer v p)
    (fun r' n => exists m', svc r' !! v = Some (mkGroup sv m') /\ m' !! p = Some n).
Proof.
  intros Hm Ha Hr Ev. pose proof (mid_structure _ _ _ _ _ _ Hm) as HS. unfold service_getPeerScope.
  rewrite Ev. cbn [from_option id peers group]. destruct (s_svc _ _ HS v _ Ev) as [Hopg Hopp]. simpl in Hopg, Hopp.
  destruct (m !! p) as [n|] eqn:Ep.
  { apply got_old; [done|by apply Hopp|]. exists m. done. }
  pose proof (got_new lab r (GetServicePeerLimits limits v) [] (scopeName r sv ++ ".peer:" ++ p) (RServicePeer v p)
    (fun n => <[v := mkGroup sv (<[p := n]> m)]> (svc r)) (fun _ => proto r) (fun _ => peer r)
    (fun r' n => exists m', svc r' !! v = Some (mkGroup sv m') /\ m' !! p = Some n) Hm Ha Hr) as G.
  destruct (newScope _ _ _ r) as [r1 n] eqn:En.
  assert (svc r1 = svc r /\ proto r1 = proto r /\ peer r1 = peer r) as (Es & Eq & Epe).
  { unfold newScope in En. by simplify_eq. }
  rewrite Es, Eq, Epe. apply G; try done.
  - apply lookupOr_ok; destruct Hlim as [H1 H2]; rewrite !Forall_cons in H1; rewrite !Forall_cons in H2; tauto.
  - by right.
  - intros lab1 [HS1 _] G1 Hop1.
    edestruct (put_service lab r lab1 r1 v (mkGroup sv (<[p := n]> m))) as [? ?]; try done.
    + intros g0 Hg0. simplify_eq. split; [done|]. by apply insert_subseteq.
    + exact (open_at_grows lab lab1 r r1 _ _ HS G1 Hopg).
    + cbn [peers]. intros q x [[<- <-]|[? Hx]]%lookup_insert_Some; [done|].
      exact (open_at_grows lab lab1 r r1 _ _ HS G1 (Hopp q x Hx)).
  - intros h. simpl. eexists. split; [apply lookup_insert_eq|apply lookup_insert_eq].
Qed.

Lemma protocol_getPeerScope_got lab r q pr m p : mid l lab r u a rr -> supp r a -> supp r rr ->
  proto r !! q = Some (mkGroup pr m) ->
  got lab r (protocol_getPeerScope limits q p r) (RProtocolPeer q p)
    (fun r' n => exists m', proto r' !! q = Some (mkGroup pr m') /\ m' !! p = Some n).
Proof.
  intros Hm Ha Hr Ev. pose proof (mid_structure _ _ _ _ _ _ Hm) as HS. unfold protocol_getPeerScope.
  rewrite Ev. cbn [from_option id peers group]. destruct (s_proto _ _ HS q _ Ev) as [Hopg Hopp]. simpl in Hopg, Hopp.
  destruct (m !! p) as [n|] eqn:Ep.
  { apply got_old; [done|by apply Hopp|]. exists m. done. }
  pose proof (got_new lab r (GetProtocolPeerLimits limits q) [] (scopeName r pr ++ ".peer:" ++ p) (RProtocolPeer q p)
    (fun _ => svc r) (fun n => <[q := mkGroup pr (<[p := n]> m)]> (proto r)) (fun _ => peer r)
    (fun r' n => exists m', proto r' !! q = Some (mkGroup pr m') /\ m' !! p = Some n) Hm Ha Hr) as G.
  destruct (newScope _ _ _ r) as [r1 n] eqn:En.
  assert (svc r1 = svc r /\ proto r1 = proto r /\ peer r1 = peer r) as (Es & Eq & Epe).
  { unfold newScope in En. by simplify_eq. }
  rewrite Es, Eq, Epe. apply G; try done.
  - apply lookupOr_ok; destruct Hlim as [H1 H2]; rewrite !Forall_cons in H1; rewrite !Forall_cons in H2; tauto.
  - by right.
  - intros lab1 [HS1 _] G1 Hop1.
    edestruct (put_protocol lab r lab1 r1 q (mkGroup pr (<[p := n]> m))) as [? ?]; try done.
    + intros g0 Hg0. simplify_eq. split; [done|]. by apply insert_subseteq.
    + exact (open_at_grows lab lab1 r r1 _ _ HS G1 Hopg).
    + cbn [peers]. intros k x [[<- <-]|[? Hx]]%lookup_insert_Some; [done|].
      exact (open_at_grows lab lab1 r r1 _ _ HS G1 (Hopp k x Hx)).
  - intros h. simpl. eexists. split; [apply lookup_insert_eq|apply lookup_insert_eq].
Qed.
End lookups.

(** ** Moving a connection or a stream *)

Lemma chargeChild_other c h e h' x y : chargeChild c h e = (h', x) -> y <> e -> h' !! y = h !! y.
Proof.
  unfold chargeChild. intros E Hy. destruct (h !! e) as [s|]; [|by simplify_eq].
  destruct (done s); [by simplify_eq|]. destruct (take_ c (rc s)) as [r err]. simplify_eq.
  by rewrite lookup_insert_ne.
Qed.

Lemma returnChild_other c h e y : y <> e -> returnChild c h e !! y = h !! y.
Proof. intros. unfold returnChild. by rewrite lookup_alter_ne. Qed.

Lemma reserveIn_err l lab r u a rr e r' err : stat_ok u -> mid l lab r u a rr ->
  reserveIn e u r = (r', Some err) -> r' = r.
Proof.
  intros Hst [_ Hsh]. unfold reserveIn, onScopes. destruct (ReserveForChild (hp r) e u) as [h x] eqn:E.
  intros [= <- ->]. rewrite (shift_reserve_err l rootBase u Hst (hp r) e h err a rr Hsh E). apply set_hp_id.
Qed.

Lemma reserveIn_ok l lab r u a rr e ro r' : stat_ok u -> mid l lab r u a rr -> open_at (hp r) lab e ro ->
  reserveIn e u r = (r', None) ->
  mid l lab r' u (fun y => a y + occ y [e]) rr /\ r' = set_hp (hp r') r /\ same_places (hp r) (hp r') /\
  forall y, y <> e -> hp r' !! y = hp r !! y.
Proof.
  intros Hst [HS Hsh] (s & He & _ & Ho & _). unfold reserveIn, onScopes.
  destruct (ReserveForChild (hp r) e u) as [h x] eqn:E. intros [= <- ->].
  destruct (shift_reserve l rootBase u Hst (hp r) e s h a rr Hsh He Ho E) as (Hsh' & Hoc & _).
  pose proof (only_same _ _ Hoc) as Hs. split_and!; [|done|done|].
  - split; [by apply structure_same|done].
  - intros y Hy. by apply (chargeChild_other _ _ _ _ _ _ E).
Qed.

(** The scope that moves: a connection or stream, open, with the counters [u]. *)
Definition mover (lab : nat -> role) (h : heap) (b : nat) (u : ScopeStat) (es : list nat) : Prop :=
  exists s, h !! b = Some s /\ done s = false /\ owner s = None /\ used (rc s) = u /\ edges s = es /\
    is_leaf (lab b) = true.

Lemma mover_same lab h h' b u es : h' !! b = h !! b -> mover lab h b u es -> mover lab h' b u es.
Proof. intros E (s & Hb & H). exists s. by rewrite E. Qed.

Lemma mover_stat_ok l h u a rr lab b es : shifted l rootBase h u a rr -> mover lab h b u es -> stat_ok u.
Proof.
  intros Hsh (s & Hb & _ & _ & <- & _).
  destruct (sane_counters _ (wf_sane h (shifted_wf _ _ _ _ _ _ Hsh) b s Hb)) as (_ & ? & ? & ?). split; [done|lia].
Qed.

Lemma mover_owns l h u a rr lab b es f : shifted l rootBase h u a rr -> mover lab h b u es -> unheld h b ->
  a b = 0 -> owns l h f b = get f u.
Proof.
  intros Hsh (s & Hb & Hd & _ & <- & _) Hu Ha. by apply (shifted_owns l rootBase (used (rc s)) h b s a rr).
Qed.

Lemma step_release l lab h u a rr b es e t : shifted l rootBase h u a rr -> mover lab h b u es -> unheld h b ->
  a b = 0 -> h !! e = Some t -> owner t = None -> 0 <= a e -> 1 <= a e + occ e es -> e <> b ->
  let h' := ReleaseForChild h e u in
  shifted l rootBase h' u (fun y => a y - occ y [e]) rr /\ same_places h h' /\ mover lab h' b u es /\
  unheld h' b /\ forall y, y <> e -> h' !! y = h !! y.
Proof.
  intros Hsh Hm Hu Hab He Ho Ha0 Ha1 Hne h'. pose proof (mover_stat_ok _ _ _ _ _ _ _ _ Hsh Hm) as Hst.
  pose proof Hm as (s & Hb & Hd & Hob & Hus & Hes & _).
  destruct (shift_release l rootBase u Hst h e t a rr b s Hsh He Ho Hb) as [Hsh' Hoc]; [|done|by rewrite Hes|].
  { intros f. by rewrite (mover_owns l h u a rr lab b es f Hsh Hm Hu Hab). }
  pose proof (only_same _ _ Hoc) as Hs. split_and!; [done|done| | |].
  - apply (mover_same lab h); [|done]. apply returnChild_other. congruence.
  - by apply (unheld_same h).
  - intros y Hy. by apply returnChild_other.
Qed.

Lemma step_ref l lab h u a rr b es e d : shifted l rootBase h u a rr -> mover lab h b u es -> unheld h b ->
  is_Some (h !! e) -> e <> b ->
  let h' := alter (fun s => set_refCnt (refCnt s + d) s) e h in
  shifted l rootBase h' u a (fun x => rr x + occ x [e] * d) /\ same_places h h' /\ mover lab h' b u es /\ unheld h' b.
Proof.
  intros Hsh Hm Hu He Hne h'. pose proof (mover_stat_ok _ _ _ _ _ _ _ _ Hsh Hm) as Hst.
  destruct (shift_ref l rootBase u Hst h e d a rr Hsh He) as [Hsh' Hs].
  split_and!; [done|done| |by apply (unheld_same h)].
  apply (mover_same lab h); [|done]. unfold h'. by rewrite lookup_alter_ne.
Qed.

Lemma step_edges l lab h u a rr b es es' : shifted l rootBase h u a rr -> mover lab h b u es -> unheld h b ->
  a b = 0 -> NoDup es' -> plain h es' -> b ∉ es' ->
  let h' := alter (set_edges es') b h in
  shifted l rootBase h' u (fun y => a y + (occ y es - occ y es')) (fun x => rr x + (occ x es - occ x es')) /\
  mover lab h' b u es' /\ unheld h' b /\ forall y, y <> b -> h' !! y = h !! y.
Proof.
  intros Hsh Hm Hu Hab Hnd Hp Hbe h'. pose proof Hm as (s & Hb & Hd & Ho & Hus & Hes & Hl).
  pose proof (mover_stat_ok _ _ _ _ _ _ _ _ Hsh Hm) as Hst.
  assert (h' = <[b := set_edges es' s]> h) as E by (by apply alter_present). rewrite E.
  pose proof (shift_edges l rootBase u h b s es' a rr Hsh Hb Hd Ho Hnd Hp Hbe) as G. rewrite Hes in G.
  split_and!.
  - apply G. intros f. by apply (mover_owns l h u a rr lab b es).
  - exists (set_edges es' s). rewrite lookup_insert_eq. done.
  - intros c t [[<- <-]|[? Hc]]%lookup_insert_Some Hin; [done|]. by apply (Hu c).
  - intros y Hy. by rewrite lookup_insert_ne.
Qed.

(** The structure once a scope has its new edges. *)
Lemma structure_moved lab r r0 h b s es : structure lab r0 -> conns r0 = conns r -> streams r0 = streams r ->
  hp r0 !! b = Some s -> done s = false -> owner s = None ->
  same_places (<[b := set_edges es s]> (hp r0)) h ->
  forall cs ss ci si,
  (forall x, x <> b -> cs !! x = conns r !! x /\ ss !! x = streams r !! x) ->
  (is_Some (cs !! b) -> lab b = RConn) -> (is_Some (ss !! b) -> lab b = RStream) ->
  shape (set_users cs ss ci si r0) (lab b) b es ->
  structure lab (set_hp h (set_users cs ss ci si r0)).
Proof.
  intros [S1 S2 S3 S4 S5 S6 S7 S8 S9 S10] Ec Es Hb Hd Ho Hsame cs ss ci si Hoth Hcb Hsb Hshape.
  set (h1 := <[b := set_edges es s]> (hp r0)) in *.
  assert (forall x t, hp r0 !! x = Some t -> exists t', h !! x = Some t' /\ done t' = done t /\ owner t' = owner t /\
     edges t' = if bool_decide (x = b) then es else edges t) as Hfw.
  { intros x t Hx. case_bool_decide as Exb.
    - subst x. destruct (same_lookup h1 h b (set_edges es s) Hsame) as (t' & Ht' & E1 & E2 & E3).
      + apply lookup_insert_eq.
      + exists t'. simplify_eq. done.
    - destruct (same_lookup h1 h x t Hsame) as (t' & Ht' & E1 & E2 & E3); [unfold h1; by rewrite lookup_insert_ne|].
      exists t'. done. }
  assert (forall x t, h !! x = Some t -> exists t0, hp r0 !! x = Some t0 /\ done t = done t0 /\ owner t = owner t0 /\
     edges t = if bool_decide (x = b) then es else edges t0) as Hbw.
  { intros x t Hx. destruct (same_lookup_inv h1 h x t Hsame Hx) as (t1 & Ht1 & E1 & E2 & E3).
    case_bool_decide as Exb.
    - subst x. unfold h1 in Ht1. rewrite lookup_insert_eq in Ht1. simplify_eq. exists s. done.
    - unfold h1 in Ht1. rewrite lookup_insert_ne in Ht1 by done. exists t1. done. }
  assert (forall x, is_Some (h !! x) <-> is_Some (hp r0 !! x)) as Hdom.
  { intros x. split; intros [t Hx].
    - destruct (Hbw x t Hx) as (? & ? & _). eauto.
    - destruct (Hfw x t Hx) as (? & ? & _). eauto. }
  assert (forall x ro, open_at (hp r0) lab x ro -> open_at h lab x ro) as Hop.
  { intros x ro (t & Hx & Hdt & Hot & Hl). destruct (Hfw x t Hx) as (t' & Hx' & E1 & E2 & _).
    exists t'. rewrite E1, E2. done. }
  split; simpl; [done|..].
  - intros x. by rewrite Hdom.
  - naive_solver.
  - eauto.
  - intros v g Hv. destruct (S5 v g Hv). eauto.
  - intros v g Hv. destruct (S6 v g Hv). eauto.
  - intros x c Hc. rewrite Hdom. destruct (decide (x = b)) as [->|Hne]; [split; eauto|].
    rewrite (proj1 (Hoth x Hne)), <-Ec in Hc. eauto.
  - intros x c Hc. rewrite Hdom. destruct (decide (x = b)) as [->|Hne]; [split; eauto|].
    rewrite (proj2 (Hoth x Hne)), <-Es in Hc. eauto.
  - intros x t Hx Hl. destruct (Hbw x t Hx) as (t0 & Hx0 & _ & -> & _). eauto.
  - intros x t Hx Hdx. destruct (Hbw x t Hx) as (t0 & Hx0 & E1 & _ & ->). case_bool_decide as Exb; [by subst|].
    assert (shape r0 (lab x) x (edges t0)) as Hsh by (apply S10; [done|congruence]).
    destruct (Hoth x Exb) as [E2 E3]. destruct (lab x); try done; simpl in *; rewrite ?E2, ?E3, <-?Ec, <-?Es; done.
Qed.

Lemma open_lookup h lab e ro : open_at h lab e ro -> exists t, h !! e = Some t /\ owner t = None.
Proof. intros (t & ? & _ & ? & _). eauto. Qed.

Lemma open_not_mover lab h e ro b u es : open_at h lab e ro -> is_leaf ro = false -> mover lab h b u es -> e <> b.
Proof. intros (t & _ & _ & _ & El) Hro (s & _ & _ & _ & _ & _ & Hl) ->. congruence. Qed.

Lemma mover_unheld lab r b u es : structure lab r -> mover lab (hp r) b u es -> unheld (hp r) b.
Proof. intros HS (s & _ & _ & _ & _ & _ & Hl). by apply (leaf_unheld lab). Qed.

Lemma mid_release l lab r u a rr b es e ro : mid l lab r u a rr -> mover lab (hp r) b u es -> a b = 0 ->
  open_at (hp r) lab e ro -> is_leaf ro = false -> 0 <= a e -> 1 <= a e + occ e es ->
  mid l lab (releaseIn e u r) u (fun y => a y - occ y [e]) rr /\ mover lab (hp (releaseIn e u r)) b u es /\
  same_places (hp r) (hp (releaseIn e u r)).
Proof.
  intros [HS Hsh] Hm Hab He Hro Ha0 Ha1. destruct (open_lookup _ _ _ _ He) as (t & Ht & Ho).
  destruct (step_release l lab (hp r) u a rr b es e t Hsh Hm (mover_unheld lab r b u es HS Hm) Hab Ht Ho Ha0 Ha1)
    as (Hsh' & Hs & Hm' & _); [by eapply open_not_mover|].
  split_and!; [|done|done]. split; [by apply structure_same|done].
Qed.

Lemma mid_ref l lab r u a rr b es e ro d : mid l lab r u a rr -> mover lab (hp r) b u es ->
  open_at (hp r) lab e ro -> is_leaf ro = false ->
  let r' := set_hp (alter (fun s => set_refCnt (refCnt s + d) s) e (hp r)) r in
  mid l lab r' u a (fun x => rr x + occ x [e] * d) /\ mover lab (hp r') b u es /\ same_places (hp r) (hp r').
Proof.
  intros [HS Hsh] Hm He Hro r'. destruct (open_lookup _ _ _ _ He) as (t & Ht & Ho).
  destruct (step_ref l lab (hp r) u a rr b es e d Hsh Hm (mover_unheld lab r b u es HS Hm)) as (Hsh' & Hs & Hm' & _).
  { eauto. }
  { by eapply open_not_mover. }
  split_and!; [|done|done]. split; [by apply structure_same|done].
Qed.

Lemma mid_reserve l lab r u a rr b es e ro r' : mid l lab r u a rr -> mover lab (hp r) b u es ->
  open_at (hp r) lab e ro -> is_leaf ro = false -> reserveIn e u r = (r', None) ->
  mid l lab r' u (fun y => a y + occ y [e]) rr /\ mover lab (hp r') b u es /\ same_places (hp r) (hp r') /\
  r' = set_hp (hp r') r.
Proof.
  intros Hmid Hm He Hro E. pose proof (mover_stat_ok _ _ _ _ _ _ _ _ (mid_shifted _ _ _ _ _ _ Hmid) Hm) as Hst.
  destruct (reserveIn_ok l lab r u a rr e ro r' Hst Hmid He E) as (Hmid' & Er & Hs & Hoth).
  split_and!; [done| |done|done]. apply (mover_same lab (hp r)); [|done]. apply Hoth.
  apply not_eq_sym. by eapply open_not_mover.
Qed.

Lemma occ_single x y : occ x [y] = if bool_decide (x = y) then 1 else 0.
Proof. unfold occ. repeat case_bool_decide; set_solver. Qed.

Ltac occs :=
  repeat (rewrite occ_cons by set_solver by lia); rewrite ?occ_nil; lia.

Section setpeer.
Context (limits : ConcreteLimitConfig) (Hlim : config_ok limits).
Context (allowedPeerAddr : string -> string -> bool).

Lemma scopeStat_mover lab r b u es : mover lab (hp r) b u es -> scopeStat r b = u.
Proof. intros (s & Hb & _ & _ & Hu & _). unfold scopeStat. rewrite Hb. simpl. done. Qed.

Lemma scopeEdges_mover lab r b u es : mover lab (hp r) b u es -> scopeEdges r b = es.
Proof. intros (s & Hb & _ & _ & _ & He & _). unfold scopeEdges. rewrite Hb. simpl. done. Qed.

(** Nothing but the heap changes. *)
Definition heap_only (r r' : resourceManager) : Prop := r' = set_hp (hp r') r.

Lemma heap_only_trans r1 r2 r3 : heap_only r1 r2 -> heap_only r2 r3 -> heap_only r1 r3.
Proof. unfold heap_only. intros E1 E2. rewrite E2, E1. done. Qed.

Lemma same_places_edges h h4 a s es : same_places h h4 -> h !! a = Some s ->
  same_places (<[a := set_edges es s]> h) (alter (set_edges es) a h4).
Proof.
  intros Hs Ha x. destruct (decide (x = a)) as [->|].
  - destruct (same_lookup _ _ a s Hs Ha) as (s' & Ha' & E1 & E2 & _).
    rewrite lookup_insert_eq, lookup_alter_eq, Ha'. done.
  - rewrite lookup_insert_ne, lookup_alter_ne by done. apply Hs.
Qed.

Lemma set_conn_id r a c : conns r !! a = Some c -> set_conn a c r = r.
Proof. intros Hc. destruct r. unfold set_conn, set_users. simpl in *. by rewrite (insert_id _ _ _ Hc). Qed.

(** New edges for a connection that is in the middle of a move. *)
Lemma mid_conn_edges l lab r0 r u a rr b es es' c : structure lab r0 -> heap_only r0 r ->
  same_places (hp r0) (hp r) -> shifted l rootBase (hp r) u a rr -> mover lab (hp r) b u es ->
  lab b = RConn -> a b = 0 -> NoDup es' ->
  (forall e, e ∈ es' -> exists ro, open_at (hp r) lab e ro /\ is_leaf ro = false) ->
  conn_shape (peer r0) c es' ->
  let r' := set_conn b c (putEdges b es' r) in
  mid l lab r' u (fun y => a y + (occ y es - occ y es')) (fun x => rr x + (occ x es - occ x es')) /\
  mover lab (hp r') b u es'.
Proof.
  intros HS Hho Hs Hsh Hm Hlab Hab Hnd Hes Hshape r'.
  assert (unheld (hp r) b) as Hu.
  { apply (unheld_same (hp r0)); [done|]. apply (leaf_unheld lab); [done|by rewrite Hlab]. }
  destruct (step_edges l lab (hp r) u a rr b es es' Hsh Hm Hu Hab Hnd) as (Hsh' & Hm' & _).
  { intros e He. destruct (Hes e He) as (ro & Ho & _). by eapply open_lookup. }
  { intros He. destruct (Hes b He) as (ro & Ho & Hro). by apply (open_not_mover _ _ _ _ _ _ _ Ho Hro Hm). }
  split; [|done]. split; [|done].
  assert (exists s, hp r0 !! b = Some s /\ done s = false /\ owner s = None) as (s & Hb & Hd & Ho).
  { destruct Hm as (s & Hb & Hd & Ho & _). destruct (same_lookup_inv _ _ b s Hs Hb) as (s0 & ? & E1 & E2 & _).
    exists s0. rewrite <-E1, <-E2. done. }
  assert (r' = set_hp (alter (set_edges es') b (hp r)) (set_users (<[b := c]> (conns r0)) (streams r0) (connId r0) (streamId r0) r0)) as ->.
  { unfold r', putEdges. by rewrite Hho. }
  apply (structure_moved lab r0 r0 _ b s es'); try done.
  - by apply same_places_edges.
  - intros x Hx. by rewrite lookup_insert_ne.
  - intros [t Ht]. by destruct (s_stream _ _ HS b t Ht).
  - rewrite Hlab. exists c. split; [apply lookup_insert_eq|done].
Qed.

(** Leaving the allow-listed scopes. *)
Lemma leave_allowed l lab r u a c : inv l lab r -> lab a = RConn -> mover lab (hp r) a u [3; 2]%nat ->
  conn_peer c = None -> isAllowlisted c = false ->
  let r' := putEdges a [] (decRef 2 (releaseIn 2 u (decRef 3 (releaseIn 3 u (set_conn a c r))))) in
  mid l lab r' u (fun _ => 0) (fun _ => 0) /\ mover lab (hp r') a u [].
Proof.
  intros Hinv Hlab Hm Hp Hal. apply (inv_mid _ _ _ u) in Hinv as Hmid.
  pose proof (inv_structure _ _ _ Hinv) as HS. destruct (s_root _ _ HS) as (_ & _ & R2 & R3).
  pose proof (open_not_mover _ _ _ _ _ _ _ R2 eq_refl Hm) as N2.
  pose proof (open_not_mover _ _ _ _ _ _ _ R3 eq_refl Hm) as N3.
  assert (occ a [2%nat] = 0 /\ occ a [3%nat] = 0) as [O2 O3].
  { rewrite !occ_single, !bool_decide_eq_false_2 by congruence. done. }
  destruct (mid_release l lab r u _ _ a _ 3%nat RAlTransient Hmid Hm) as (Hmid1 & Hm1 & Hs1); [done..|].
  destruct (mid_ref l lab _ u _ _ a _ 3%nat RAlTransient (-1) Hmid1 Hm1) as (Hmid2 & Hm2 & Hs2);
    [by eapply open_at_same|done|].
  assert (same_places (hp r) (hp (decRef 3 (releaseIn 3 u r)))) as Hs12 by (by etrans).
  destruct (mid_release l lab (decRef 3 (releaseIn 3 u r)) u _ _ a _ 2%nat RAlSystem Hmid2 Hm2) as (Hmid3 & Hm3 & Hs3);
    [lia|by eapply open_at_same|done|by vm_compute|by vm_compute|].
  destruct (mid_ref l lab _ u _ _ a _ 2%nat RAlSystem (-1) Hmid3 Hm3) as (Hmid4 & Hm4 & Hs4);
    [eapply open_at_same; [etrans; [exact Hs12|exact Hs3]|done]|done|].
  assert (same_places (hp r) (hp (decRef 2 (releaseIn 2 u (decRef 3 (releaseIn 3 u r)))))) as Hs14.
  { etrans; [exact Hs12|]. by etrans. }
  destruct (mid_conn_edges l lab r (decRef 2 (releaseIn 2 u (decRef 3 (releaseIn 3 u r)))) u _ _ a [3; 2]%nat [] c HS
    ltac:(done) Hs14 (mid_shifted _ _ _ _ _ _ Hmid4) Hm4 Hlab)
    as (Hmid5 & Hm5); [lia|apply NoDup_nil_2
    |intros e He; by apply not_elem_of_nil in He|unfold conn_shape; rewrite Hp, Hal; auto|].
  split; [|done]. destruct Hmid5 as [HS5 Hsh5]. split; [done|].
  eapply shifted_ext; [exact Hsh5| |]; intros y; simpl;
    rewrite (occ_cons y 3%nat [2%nat]) by set_solver by lia; rewrite occ_nil; lia.
Qed.

(** Joining the system and transient scopes, or neither. *)
Lemma join_standard l lab r u a c : mid l lab r u (fun _ => 0) (fun _ => 0) -> mover lab (hp r) a u [] ->
  lab a = RConn -> conns r !! a = Some c -> conn_peer c = None -> isAllowlisted c = false ->
  let '(r', err) := joinStandard a u r in
  inv l lab r' /\ heap_only r r' /\
  mover lab (hp r') a u (match err with None => [0; 1]%nat | Some _ => [] end).
Proof.
  intros Hmid Hm Hlab Hc Hp Hal. pose proof (mid_structure _ _ _ _ _ _ Hmid) as HS.
  destruct (s_roots _ _ HS) as (E0 & E1 & _). destruct (s_root _ _ HS) as (R0 & R1 & _).
  pose proof (open_not_mover _ _ _ _ _ _ _ R0 eq_refl Hm) as N0.
  pose proof (open_not_mover _ _ _ _ _ _ _ R1 eq_refl Hm) as N1.
  assert (occ a [0%nat] = 0 /\ occ a [1%nat] = 0) as [O0 O1].
  { rewrite !occ_single, !bool_decide_eq_false_2 by congruence. done. }
  pose proof (mover_stat_ok _ _ _ _ _ _ _ _ (mid_shifted _ _ _ _ _ _ Hmid) Hm) as Hst.
  unfold joinStandard. rewrite E0. destruct (reserveIn 0 u r) as [r2 [err|]] eqn:Eres.
  { apply (reserveIn_err l lab r u _ _ _ _ _ Hst Hmid) in Eres as ->.
    split_and!; [by apply (inv_mid _ _ _ u)|by destruct r|done]. }
  destruct (mid_reserve l lab r u _ _ a [] 0%nat RSystem r2 Hmid Hm R0 eq_refl Eres) as (Hmid2 & Hm2 & Hs2 & Er2).
  assert (system r2 = 0%nat /\ transient r2 = 1%nat) as [E0' E1'] by (by rewrite Er2).
  rewrite E0'. cbv zeta. destruct (mid_ref l lab r2 u _ _ a [] 0%nat RSystem 1 Hmid2 Hm2) as (Hmid3 & Hm3 & Hs3);
    [by eapply open_at_same|done|].
  change (mid l lab (incRef 0 r2) u (fun y => 0 + occ y [0%nat]) (fun x => 0 + occ x [0%nat] * 1)) in Hmid3.
  change (mover lab (hp (incRef 0 r2)) a u []) in Hm3. change (same_places (hp r2) (hp (incRef 0 r2))) in Hs3.
  change (transient (incRef 0 r2)) with (transient r2). rewrite E1'.
  assert (heap_only r (incRef 0 r2)) as Hho3 by (by apply (heap_only_trans r r2)).
  set (r3 := incRef 0 r2) in *. assert (same_places (hp r) (hp r3)) as Hs13 by (by etrans).
  clearbody r3. clear Hmid2 Hm2 Hs2 Hs3 Er2 Eres E0' E1' r2.
  assert (system r3 = 0%nat /\ transient r3 = 1%nat) as [E0' E1'] by (by rewrite Hho3).
  destruct (reserveIn 1 u r3) as [r4 [err|]] eqn:Eres4.
  { apply (reserveIn_err l lab r3 u _ _ _ _ _ Hst Hmid3) in Eres4 as ->. rewrite E0'.
    destruct (mid_release l lab r3 u _ _ a [] 0%nat RSystem Hmid3 Hm3) as (Hmid5 & Hm5 & Hs5);
      [lia|by eapply open_at_same|done|by vm_compute|by vm_compute|].
    destruct (mid_ref l lab (releaseIn 0 u r3) u _ _ a [] 0%nat RSystem (-1) Hmid5 Hm5) as (Hmid6 & Hm6 & _);
      [eapply open_at_same; [etrans; [exact Hs13|exact Hs5]|done]|done|].
    split_and!; [|by apply (heap_only_trans r r3)|done].
    eapply mid_inv; [exact Hmid6| |]; intros y; simpl; lia. }
  destruct (mid_reserve l lab r3 u _ _ a [] 1%nat RTransient r4 Hmid3 Hm3) as (Hmid4 & Hm4 & Hs4 & Er4);
    [by eapply open_at_same|done|done|].
  assert (system r4 = 0%nat /\ transient r4 = 1%nat) as [E0'' E1''] by (by rewrite Er4).
  rewrite E1''. cbv zeta. destruct (mid_ref l lab r4 u _ _ a [] 1%nat RTransient 1 Hmid4 Hm4) as (Hmid5 & Hm5 & Hs5);
    [eapply open_at_same; [etrans; [exact Hs13|exact Hs4]|done]|done|].
  change (system (incRef 1 r4)) with (system r4). change (transient (incRef 1 r4)) with (transient r4).
  rewrite E0'', E1''.
  assert (heap_only r (incRef 1 r4)) as Hho5 by (apply (heap_only_trans r r3); [done|]; by apply (heap_only_trans r3 r4)).
  assert (same_places (hp r) (hp (incRef 1 r4))) as Hs15 by (etrans; [exact Hs13|]; by etrans).
  destruct (mid_conn_edges l lab r (incRef 1 r4) u _ _ a [] [0; 1]%nat c HS Hho5 Hs15 (mid_shifted _ _ _ _ _ _ Hmid5) Hm5 Hlab)
    as (Hmid6 & Hm6).
  { lia. }
  { apply (bool_decide_unpack _). by vm_compute. }
  { intros e He. each_edge He; eauto using open_at_same. }
  { unfold conn_shape. rewrite Hp, Hal. auto. }
  assert (set_conn a c (putEdges a [0; 1]%nat (incRef 1 r4)) = putEdges a [0; 1]%nat (incRef 1 r4)) as Eid.
  { apply set_conn_id. by rewrite Hho5. }
  rewrite Eid in Hmid6, Hm6. split_and!; [|by apply (heap_only_trans r (incRef 1 r4))|done].
  eapply mid_inv; [exact Hmid6| |]; intros y; simpl;
    rewrite (occ_cons y 0%nat [1%nat]) by set_solver by lia; rewrite occ_nil; lia.
Qed.

(** Leaving the allow-listed scopes: whatever happens, the accounts are in order; the
    connection is then charged to the system and transient scopes, or to none. *)
Lemma transfer_inv l lab r a c u : inv l lab r -> lab a = RConn -> mover lab (hp r) a u [3; 2]%nat ->
  conn_peer c = None -> isAllowlisted c = false ->
  let '(r', err) := transferAllowedToStandard a (set_conn a c r) in
  inv l lab r' /\ heap_only (set_conn a c r) r' /\
  mover lab (hp r') a u (match err with None => [0; 1]%nat | Some _ => [] end).
Proof.
  intros Hinv Hlab Hm Hp Hal. unfold transferAllowedToStandard.
  rewrite (scopeStat_mover lab (set_conn a c r) a u [3; 2]%nat Hm).
  rewrite (scopeEdges_mover lab (set_conn a c r) a u [3; 2]%nat Hm). cbn [foldl].
  destruct (leave_allowed l lab r u a c Hinv Hlab Hm Hp Hal) as [Hmid Hm'].
  set (r1 := putEdges a [] _) in *.
  assert (heap_only (set_conn a c r) r1) as Hho by done.
  assert (conns r1 !! a = Some c) as Hc by (apply lookup_insert_eq).
  pose proof (join_standard l lab r1 u a c Hmid Hm' Hlab Hc Hp Hal) as J.
  destruct (joinStandard a u r1) as [r' err]. destruct J as (J1 & J2 & J3).
  split_and!; [done|by apply (heap_only_trans _ r1)|done].
Qed.
Lemma mover_grows lab lab' r r' b u es : structure lab r -> grows lab lab' r r' ->
  mover lab (hp r) b u es -> mover lab' (hp r') b u es.
Proof.
  intros HS G (s & Hb & Hd & Ho & Hu & He & Hl).
  destruct (g_heap _ _ _ _ G b s Hb) as (s' & Hb' & (E1 & E2 & E3) & E4). exists s'.
  rewrite E1, E2, E3, E4. rewrite (g_lab _ _ _ _ G); [done|]. apply (s_next _ _ HS). eauto.
Qed.

(** The rest of [SetPeer]: from the transient scope to that of the peer. *)
Lemma attach_peer l lab r a c u p sys trans rs rt es : inv l lab r -> conns r !! a = Some c -> conn_peer c = None ->
  lab a = RConn -> mover lab (hp r) a u es -> (es = [trans; sys] \/ es = [sys; trans]) -> sys <> trans ->
  open_at (hp r) lab sys rs -> is_leaf rs = false -> open_at (hp r) lab trans rt -> is_leaf rt = false ->
  sys = (if isAllowlisted c then 2%nat else 0%nat) -> (forall q, rs <> RPeer q) -> (forall q, rt <> RPeer q) ->
  exists lab', let '(r', err) :=
    let '(r, pa) := getPeerScope limits p r in
    let stat := scopeStat r a in
    match reserveIn pa stat r with
    | (r, Some e) => (decRef pa r, Some (SetScopeError e))
    | (r, None) =>
      let r := set_conn a (mkConn (conn_dir c) (conn_usefd c) (isAllowlisted c) (Some pa) (endpoint c) (conn_ip c)) r in
      let r := decRef trans (releaseIn trans stat r) in
      (putEdges a [pa; sys] r, None)
    end in
  inv l lab' r' /\ (forall x, (x < next r)%nat -> lab' x = lab x) /\ (next r <= next r')%nat /\
  exists es', mover lab' (hp r') a u es'.
Proof.
  intros Hinv Hc Hp Hlab Hm Hes Hne Rs Ls Rt Lt Esys Ns Nt. apply (inv_mid _ _ _ u) in Hinv as Hmid.
  pose proof (inv_structure _ _ _ Hinv) as HS.
  pose proof (mover_stat_ok _ _ _ _ _ _ _ _ (mid_shifted _ _ _ _ _ _ Hmid) Hm) as Hst.
  destruct (getPeerScope_got limits Hlim l u Hst (fun _ => 0) (fun _ => 0) lab r p Hmid ltac:(done) ltac:(done))
    as [lab1 G]. exists lab1.
  destruct (getPeerScope limits p r) as [r1 pa]. destruct G as (Hmid1 & G1 & Ropa & Hpa).
  pose proof (mover_grows lab lab1 r r1 a u es HS G1 Hm) as Hm1. rewrite (scopeStat_mover lab1 r1 a u es Hm1). cbv zeta.
  pose proof (mid_structure _ _ _ _ _ _ Hmid1) as HS1.
  assert (lab1 a = RConn) as Hlab1.
  { rewrite (g_lab _ _ _ _ G1); [done|]. apply (s_next _ _ HS). destruct Hm as (? & ? & _). eauto. }
  pose proof (open_at_grows lab lab1 r r1 sys rs HS G1 Rs) as Rs1.
  pose proof (open_at_grows lab lab1 r r1 trans rt HS G1 Rt) as Rt1.
  assert (pa <> sys /\ pa <> trans) as [Np1 Np2].
  { destruct Ropa as (? & _ & _ & _ & E1), Rs1 as (? & _ & _ & _ & E2), Rt1 as (? & _ & _ & _ & E3).
    split; intros ->; [by apply (Ns p); congruence|by apply (Nt p); congruence]. }
  pose proof (open_not_mover _ _ _ _ _ _ _ Ropa eq_refl Hm1) as N1.
  pose proof (open_not_mover _ _ _ _ _ _ _ Rs1 Ls Hm1) as N2.
  pose proof (open_not_mover _ _ _ _ _ _ _ Rt1 Lt Hm1) as N3.
  destruct (reserveIn pa u r1) as [r2 [err|]] eqn:Eres.
  { apply (reserveIn_err l lab1 r1 u _ _ _ _ _ Hst Hmid1) in Eres as ->.
    destruct (mid_ref l lab1 r1 u _ _ a es pa (RPeer p) (-1) Hmid1 Hm1 Ropa eq_refl) as (Hmid2 & Hm2 & _).
    cbv beta iota zeta. split_and!; [|apply G1|apply G1|exists es; exact Hm2].
    eapply mid_inv; [exact Hmid2| |]; intros y; simpl; lia. }
  destruct (mid_reserve l lab1 r1 u _ _ a es pa (RPeer p) r2 Hmid1 Hm1 Ropa eq_refl Eres) as (Hmid2 & Hm2 & Hs2 & Er2).
  pose proof (mid_structure _ _ _ _ _ _ Hmid2) as HS2.
  assert (occ trans es = 1) as Ot.
  { unfold occ. rewrite bool_decide_eq_true_2; [done|]. destruct Hes as [-> | ->]; set_solver. }
  destruct (mid_release l lab1 r2 u _ _ a es trans rt Hmid2 Hm2) as (Hmid3 & Hm3 & Hs3);
    [rewrite occ_single, bool_decide_eq_false_2 by congruence; lia|by eapply open_at_same|done
    |rewrite occ_single, bool_decide_eq_false_2 by congruence; lia
    |rewrite Ot, occ_single, bool_decide_eq_false_2 by congruence; lia|].
  destruct (mid_ref l lab1 (releaseIn trans u r2) u _ _ a es trans rt (-1) Hmid3 Hm3) as (Hmid4 & Hm4 & Hs4);
    [eapply open_at_same; [etrans; [exact Hs2|exact Hs3]|done]|done|].
  cbv beta iota zeta. set (c' := mkConn _ _ _ (Some pa) _ _).
  assert (same_places (hp r2) (hp (decRef trans (releaseIn trans u r2)))) as Hs24 by (by etrans).
  destruct (mid_conn_edges l lab1 r2 (decRef trans (releaseIn trans u r2)) u _ _ a es [pa; sys] c' HS2 ltac:(done) Hs24
    (mid_shifted _ _ _ _ _ _ Hmid4) Hm4 Hlab1) as (Hmid5 & Hm5).
  { rewrite !occ_single, !bool_decide_eq_false_2 by congruence. lia. }
  { apply NoDup_cons_2; [set_solver|apply NoDup_singleton]. }
  { pose proof (transitivity Hs2 Hs24) as Hs14. intros e He. each_edge He.
    - exists (RPeer p). split; [by apply (open_at_same _ _ _ _ _ Hs14)|done].
    - exists rs. split; [by apply (open_at_same _ _ _ _ _ Hs14)|done]. }
  { unfold conn_shape, c'. simpl. rewrite Esys. split; [|done]. exists p. rewrite Er2. done. }
  change (set_conn a c' (putEdges a [pa; sys] (decRef trans (releaseIn trans u r2)))) with
    (putEdges a [pa; sys] (decRef trans (releaseIn trans u (set_conn a c' r2)))) in *.
  split_and!; [|apply G1|rewrite Er2; apply G1|eauto].
  assert (forall y, occ y es = occ y [trans] + occ y [sys]) as Oes.
  { intros y. destruct Hes as [-> | ->]; rewrite occ_cons by set_solver; lia. }
  eapply mid_inv; [exact Hmid5| |]; intros y; simpl;
    rewrite Oes, (occ_cons y pa [sys]) by set_solver; lia.
Qed.

Lemma SetPeer_inv l lab r a c u p : inv l lab r -> conns r !! a = Some c -> conn_peer c = None ->
  mover lab (hp r) a u (if isAllowlisted c then [3; 2]%nat else [1; 0]%nat) ->
  exists lab', let '(r', err) := SetPeer limits allowedPeerAddr a p r in
  inv l lab' r' /\ (forall x, (x < next r)%nat -> lab' x = lab x) /\ (next r <= next r')%nat /\
  exists es', mover lab' (hp r') a u es'.
Proof.
  intros Hinv Hc Hp Hm. pose proof (inv_structure _ _ _ Hinv) as HS.
  destruct (s_conn _ _ HS a c Hc) as [_ Hlab]. unfold SetPeer. rewrite Hc, Hp.
  destruct c as [dr uf al pe ep ip]; cbn [conn_peer isAllowlisted conn_dir conn_usefd endpoint conn_ip] in *; subst pe.
  destruct al; cbn [andb].
  - destruct (negb (allowedPeerAddr p ep)) eqn:Eo; cbn [isAllowlisted].
    + set (c1 := mkConn dr uf false None ep ip).
      pose proof (transfer_inv l lab r a c1 u Hinv Hlab Hm eq_refl eq_refl) as T.
      destruct (transferAllowedToStandard a (set_conn a c1 r)) as [r1 [err|]].
      * destruct T as (Hinv1 & Hho & Hm1). exists lab. split_and!; [done|done|by rewrite Hho|eauto].
      * destruct T as (Hinv1 & Hho & Hm1). pose proof (inv_structure _ _ _ Hinv1) as HS1.
        destruct (s_roots _ _ HS1) as (E0 & E1 & _). destruct (s_root _ _ HS1) as (R0 & R1 & _).
        assert (conns r1 !! a = Some c1) as Hc1 by (rewrite Hho; apply lookup_insert_eq).
        rewrite E0, E1. assert (next r1 = next r) as En by (by rewrite Hho). rewrite <-En.
        apply (attach_peer l lab r1 a c1 u p 0%nat 1%nat RSystem RTransient [0; 1]%nat); auto.
    + rewrite (set_conn_id r a _ Hc). destruct (s_roots _ _ HS) as (_ & _ & E2 & E3).
      destruct (s_root _ _ HS) as (_ & _ & R2 & R3). cbn [isAllowlisted]. rewrite E2, E3.
      apply (attach_peer l lab r a (mkConn dr uf true None ep ip) u p 2%nat 3%nat RAlSystem RAlTransient [3; 2]%nat); auto.
  - rewrite (set_conn_id r a _ Hc). destruct (s_roots _ _ HS) as (E0 & E1 & _).
    destruct (s_root _ _ HS) as (R0 & R1 & _). cbn [isAllowlisted]. rewrite E0, E1.
    apply (attach_peer l lab r a (mkConn dr uf false None ep ip) u p 0%nat 1%nat RSystem RTransient [1; 0]%nat); auto.
Qed.
End setpeer.
