(* ===== verification/ResourceStreams.v ===== *)
(** * The resource manager: streams

    That [SetProtocol], [SetService], [OpenStream] and [OpenConnection] of
    [ResourceManager] keep its invariant: a new scope is charged to all its edges or closed
    again, and a stream moves from the transient scope to those of its protocol and service
    without an account changing. *)

From S2P Require Import Prelude GoLib GoNet Scope RcLimits ConnLimiter ResourceManager.

(** ** Streams that move *)

(** New edges for a stream that is in the middle of a move. *)
Lemma mid_stream_edges l lab r0 r u a rr b es es' t : structure lab r0 -> heap_only r0 r ->
  same_places (hp r0) (hp r) -> shifted l rootBase (hp r) u a rr -> mover lab (hp r) b u es ->
  lab b = RStream -> a b = 0 -> NoDup es' ->
  (forall e, e ∈ es' -> exists ro, open_at (hp r) lab e ro /\ is_leaf ro = false) ->
  stream_shape (svc r0) (proto r0) (peer r0) t es' ->
  let r' := set_stream b t (putEdges b es' r) in
  mid l lab r' u (fun y => a y + (occ y es - occ y es')) (fun x => rr x + (occ x es - occ x es')) /\
  mover lab (hp r') b u es'.
Proof.
  intros HS Hho Hs Hsh Hm Hlab Hab Hnd Hes Hshape r'.
  assert (unheld (hp r) b) as Hu.
  { apply (unheld_same (hp r0)); [done|]. apply (leaf_unheld lab); [done|by rewrite Hlab]. }
  destruct (step_edges l lab (hp r) u a rr b es es' Hsh Hm Hu Hab Hnd) as (Hsh' & Hm' & _).
  { intros e He. destruct (Hes e He) as (ro & Ho & _). by eapply open_lookup. }
  { intros He. destruct (Hes b He) as (ro & Ho & Hro). by apply (open_not_mover _ _ _ _ _ _ _ Ho Hro Hm). }
  split; [|done]. split; [|done].
  assert (exists s, hp r0 !! b = Some s /\ done s = false /\ owner s = None) as (s & Hb & Hd & Ho).
  { destruct Hm as (s & Hb & Hd & Ho & _). destruct (same_lookup_inv _ _ b s Hs Hb) as (s0 & ? & E1 & E2 & _).
    exists s0. rewrite <-E1, <-E2. done. }
  assert (r' = set_hp (alter (set_edges es') b (hp r)) (set_users (conns r0) (<[b := t]> (streams r0)) (connId r0) (streamId r0) r0)) as ->.
  { unfold r', putEdges. by rewrite Hho. }
  apply (structure_moved lab r0 r0 _ b s es'); try done.
  - by apply same_places_edges.
  - intros x Hx. by rewrite lookup_insert_ne.
  - intros [c Hc]. by destruct (s_conn _ _ HS b c Hc).
  - rewrite Hlab. exists t. split; [apply lookup_insert_eq|done].
Qed.

Lemma role_ne h lab x y rx ry : open_at h lab x rx -> open_at h lab y ry -> rx <> ry -> x <> y.
Proof. intros (? & _ & _ & _ & <-) (? & _ & _ & _ & <-) H ->. done. Qed.

Lemma supp_occ lab r x ro : structure lab r -> open_at (hp r) lab x ro -> supp r (fun y => 0 + occ y [x]).
Proof.
  intros HS (s & Hx & _) y Hy. rewrite occ_single, bool_decide_eq_false_2; [done|].
  intros <-. assert (y < next r)%nat by (apply (s_next _ _ HS); eauto). lia.
Qed.

Section streams.
Context (limits : ConcreteLimitConfig) (Hlim : config_ok limits).

(** What an operation on a connection or stream leaves: the accounts in order, and every
    address its role. *)
Definition kept (l : ledger) (lab : nat -> role) (r : resourceManager) (b : nat) (u : ScopeStat)
  (r' : resourceManager) : Prop :=
  exists lab', inv l lab' r' /\ (forall x, (x < next r)%nat -> lab' x = lab x) /\ (next r <= next r')%nat /\
  exists es', mover lab' (hp r') b u es'.

(** Taking back a reservation in a scope and the reference to it. *)
Lemma give_back l lab r u b es e ro : mid l lab r u (fun y => occ y [e]) (fun y => occ y [e]) ->
  mover lab (hp r) b u es -> open_at (hp r) lab e ro -> is_leaf ro = false ->
  mid l lab (decRef e (releaseIn e u r)) u (fun _ => 0) (fun _ => 0) /\
  mover lab (hp (decRef e (releaseIn e u r))) b u es /\
  same_places (hp r) (hp (decRef e (releaseIn e u r))).
Proof.
  intros Hmid Hm Ro Hl. pose proof (open_not_mover _ _ _ _ _ _ _ Ro Hl Hm) as N.
  destruct (mid_release l lab r u _ _ b es e ro Hmid Hm) as (Hmid1 & Hm1 & Hs1);
    [by rewrite occ_single, bool_decide_eq_false_2 by congruence|done|done|apply occ_range
    |rewrite occ_single, bool_decide_eq_true_2 by done; pose proof (occ_range e es); lia|].
  destruct (mid_ref l lab (releaseIn e u r) u _ _ b es e ro (-1) Hmid1 Hm1) as (Hmid2 & Hm2 & Hs2);
    [by eapply open_at_same|done|].
  split_and!; [|exact Hm2|by etrans]. destruct Hmid2 as [HS2 Hsh2]. split; [exact HS2|].
  eapply shifted_ext; [exact Hsh2| |]; intros y; simpl; lia.
Qed.

Lemma kept_same l lab r b u es : inv l lab r -> mover lab (hp r) b u es -> kept l lab r b u r.
Proof. intros Hinv Hm. exists lab. split_and!; eauto. Qed.

Lemma stream_of lab r b u es t : structure lab r -> streams r !! b = Some t -> mover lab (hp r) b u es ->
  lab b = RStream /\ stream_shape (svc r) (proto r) (peer r) t es.
Proof.
  intros HS Ht (s & Hb & Hd & _ & _ & He & _). destruct (s_stream _ _ HS b t Ht) as [_ El]. split; [done|].
  pose proof (s_shape _ _ HS b s Hb Hd) as Hsh. rewrite El in Hsh. destruct Hsh as (t' & Ht' & Hsh).
  rewrite He in Hsh. congruence.
Qed.

Lemma role_kept lab lab' r r' b : structure lab r -> grows lab lab' r r' -> is_Some (hp r !! b) -> lab' b = lab b.
Proof. intros HS G Hb. apply (g_lab _ _ _ _ G). by apply (s_next _ _ HS). Qed.

(** From the transient scope to those of a protocol, all of them open. *)
Lemma to_protocol l lab r a u t pr pp m q : mid l lab r u (fun y => occ y [pr] + occ y [pp]) (fun y => occ y [pr] + occ y [pp]) ->
  mover lab (hp r) a u [stream_peer t; 1; 0]%nat -> lab a = RStream -> peer r !! stream_peerID t = Some (stream_peer t) ->
  proto r !! q = Some (mkGroup pr m) -> m !! stream_peerID t = Some pp ->
  let t' := mkStream (stream_dir t) (stream_peer t) (stream_peerID t) None (Some pr) (Some pp) None in
  let r' := set_stream a t' (putEdges a [stream_peer t; pp; pr; 0]%nat (decRef 1 (releaseIn 1 u r))) in
  inv l lab r' /\ mover lab (hp r') a u [stream_peer t; pp; pr; 0]%nat.
Proof.
  intros Hmid Hm Hlab Hp Hpr Hpp t' r'. pose proof (mid_structure _ _ _ _ _ _ Hmid) as HS.
  destruct (s_root _ _ HS) as (R0 & R1 & _). pose proof (s_peer _ _ HS _ _ Hp) as Rp.
  destruct (s_proto _ _ HS _ _ Hpr) as [Rpr Rpps]. pose proof (Rpps _ _ Hpp) as Rpp. cbn [group peers] in *. clear Rpps.
  set (P := stream_peer t) in *. set (i := stream_peerID t) in *.
  assert (pr <> pp /\ P <> pr /\ P <> pp) as (N1 & N2 & N3).
  { split_and!; eapply role_ne; eauto; done. }
  assert (1 <> pr /\ 1 <> pp /\ 0 <> pr /\ 0 <> pp /\ 0 <> P /\ 1 <> P)%nat as (N4 & N5 & N6 & N7 & N8 & N9).
  { split_and!; eapply role_ne; eauto; done. }
  pose proof (open_not_mover _ _ _ _ _ _ _ R0 eq_refl Hm) as M0.
  pose proof (open_not_mover _ _ _ _ _ _ _ R1 eq_refl Hm) as M1.
  pose proof (open_not_mover _ _ _ _ _ _ _ Rpr eq_refl Hm) as M2.
  pose proof (open_not_mover _ _ _ _ _ _ _ Rpp eq_refl Hm) as M3.
  destruct (mid_release l lab r u _ _ a _ 1%nat RTransient Hmid Hm) as (Hmid1 & Hm1 & Hs1); [|done|done| | |].
  { by rewrite !occ_single, !bool_decide_eq_false_2 by congruence. }
  { rewrite !occ_single, !bool_decide_eq_false_2 by congruence. lia. }
  { rewrite !occ_single, !bool_decide_eq_false_2 by congruence.
    unfold occ. rewrite bool_decide_eq_true_2 by set_solver. lia. }
  destruct (mid_ref l lab (releaseIn 1 u r) u _ _ a _ 1%nat RTransient (-1) Hmid1 Hm1) as (Hmid2 & Hm2 & Hs2);
    [by eapply open_at_same|done|].
  assert (same_places (hp r) (hp (decRef 1 (releaseIn 1 u r)))) as Hs by (by etrans).
  destruct (mid_stream_edges l lab r (decRef 1 (releaseIn 1 u r)) u _ _ a _ [P; pp; pr; 0]%nat t' HS ltac:(done) Hs
    (mid_shifted _ _ _ _ _ _ Hmid2) Hm2 Hlab) as (Hmid3 & Hm3).
  { rewrite !occ_single, !bool_decide_eq_false_2 by congruence. lia. }
  { repeat (apply NoDup_cons_2; [set_solver|]). apply NoDup_nil_2. }
  { intros e He. each_edge He; eexists; (split; [by eapply open_at_same|done]). }
  { split; [done|]. simpl. split; [|done]. eauto. }
  split; [|exact Hm3]. eapply mid_inv; [exact Hmid3| |]; intros y; simpl.
  - rewrite (occ_cons y P [1; 0]%nat), (occ_cons y 1%nat [0%nat]) by set_solver.
    rewrite (occ_cons y P [pp; pr; 0]%nat), (occ_cons y pp [pr; 0]%nat), (occ_cons y pr [0%nat]) by set_solver. lia.
  - rewrite (occ_cons y P [1; 0]%nat), (occ_cons y 1%nat [0%nat]) by set_solver.
    rewrite (occ_cons y P [pp; pr; 0]%nat), (occ_cons y pp [pr; 0]%nat), (occ_cons y pr [0%nat]) by set_solver. lia.
Qed.

(** The last scope refused: the reservation in the one before is undone. *)
Lemma undo_both l lab r u b es e e' ro ro' :
  mid l lab r u (fun y => 0 + occ y [e]) (fun y => 0 + occ y [e] + occ y [e']) -> mover lab (hp r) b u es ->
  open_at (hp r) lab e ro -> open_at (hp r) lab e' ro' -> is_leaf ro = false -> is_leaf ro' = false -> ro <> ro' ->
  inv l lab (decRef e' (decRef e (releaseIn e u r))) /\
  mover lab (hp (decRef e' (decRef e (releaseIn e u r)))) b u es.
Proof.
  intros Hmid Hm Ro Ro' Hl Hl' Hne. assert (e <> e') as N by (eapply role_ne; eauto).
  destruct (mid_ref l lab r u _ _ b es e' ro' (-1) Hmid Hm Ro' Hl') as (Hmid4 & Hm4 & Hs4).
  assert (mid l lab (decRef e' r) u (fun y => occ y [e]) (fun y => occ y [e])) as Hmid4'.
  { destruct Hmid4 as [HS4 Hsh4]. split; [exact HS4|]. eapply shifted_ext; [exact Hsh4| |]; intros y; simpl; lia. }
  destruct (give_back l lab (decRef e' r) u b es e ro Hmid4' Hm4 (open_at_same _ _ _ _ _ Hs4 Ro) Hl)
    as (Hmid5 & Hm5 & _).
  assert (decRef e' (decRef e (releaseIn e u r)) = decRef e (releaseIn e u (decRef e' r))) as ->.
  { unfold decRef, releaseIn, set_hp. simpl. f_equal. unfold ReleaseForChild, returnChild, DecRef.
    rewrite (alter_alter_ne _ _ _ e' e) by done. f_equal. by apply alter_alter_ne. }
  split; [by apply (inv_mid _ _ _ u)|exact Hm5].
Qed.

Lemma SetProtocol_kept l lab r a u es t q : inv l lab r -> streams r !! a = Some t -> mover lab (hp r) a u es ->
  kept l lab r a u (SetProtocol limits a q r).1.
Proof.
  intros Hinv Ht Hm. pose proof (inv_structure _ _ _ Hinv) as HS.
  destruct (stream_of lab r a u es t HS Ht Hm) as [Hlab Hsh]. unfold SetProtocol. rewrite Ht.
  destruct (stream_proto t) as [|] eqn:Et; [by eapply kept_same|].
  assert (es = [stream_peer t; 1; 0]%nat /\ stream_svc t = None /\ peerSvcScope t = None /\
    peer r !! stream_peerID t = Some (stream_peer t)) as (-> & Esv & Eps & Hp).
  { destruct Hsh as [Hp Hsh]. rewrite Et in Hsh. by destruct (peerProtoScope t), (stream_svc t), (peerSvcScope t). }
  clear Hsh. rewrite Esv, Eps. apply (inv_mid _ _ _ u) in Hinv as Hmid.
  pose proof (mover_stat_ok _ _ _ _ _ _ _ _ (mid_shifted _ _ _ _ _ _ Hmid) Hm) as Hst.
  destruct (getProtocolScope_got limits Hlim l u Hst (fun _ => 0) (fun _ => 0) lab r q Hmid ltac:(done) ltac:(done))
    as [lab1 G]. destruct (getProtocolScope limits q r) as [r1 pr]. destruct G as (Hmid1 & G1 & Rpr & m & Hpr).
  pose proof (mover_grows lab lab1 r r1 a u _ HS G1 Hm) as Hm1. rewrite (scopeStat_mover lab1 r1 a u _ Hm1). cbv zeta.
  assert (is_Some (hp r !! a)) as Ha by (destruct Hm as (? & ? & _); eauto).
  assert (lab1 a = RStream) as Hlab1 by (by rewrite (role_kept lab lab1 r r1)).
  destruct (reserveIn pr u r1) as [r2 [err|]] eqn:Eres.
  { apply (reserveIn_err l lab1 r1 u _ _ _ _ _ Hst Hmid1) in Eres as ->. exists lab1.
    destruct (mid_ref l lab1 r1 u _ _ a _ pr (RProtocol q) (-1) Hmid1 Hm1 Rpr eq_refl) as (Hmid2 & Hm2 & _).
    split_and!; [|apply G1|apply G1|eexists; exact Hm2]. eapply mid_inv; [exact Hmid2| |]; intros y; simpl; lia. }
  destruct (mid_reserve l lab1 r1 u _ _ a _ pr (RProtocol q) r2 Hmid1 Hm1 Rpr eq_refl Eres) as (Hmid2 & Hm2 & Hs2 & Er2).
  pose proof (open_at_same _ _ _ _ _ Hs2 Rpr) as Rpr2. pose proof (mid_structure _ _ _ _ _ _ Hmid2) as HS2.
  pose proof (supp_occ lab1 r2 pr _ HS2 Rpr2) as Hsup.
  assert (proto r2 !! q = Some (mkGroup pr m)) as Hpr2 by (by rewrite Er2).
  destruct (protocol_getPeerScope_got limits Hlim l u Hst _ _ lab1 r2 q pr m (stream_peerID t) Hmid2 Hsup Hsup Hpr2)
    as [lab3 G]. destruct (protocol_getPeerScope limits q (stream_peerID t) r2) as [r3 pp].
  destruct G as (Hmid3 & G3 & Rpp & m' & Hpr3 & Hpp).
  pose proof (mover_grows lab1 lab3 r2 r3 a u _ HS2 G3 Hm2) as Hm3.
  pose proof (open_at_grows lab1 lab3 r2 r3 _ _ HS2 G3 Rpr2) as Rpr3.
  assert (lab3 a = RStream) as Hlab3.
  { rewrite (role_kept lab1 lab3 r2 r3); [done..|]. destruct Hm2 as (? & ? & _). eauto. }
  assert (forall x, (x < next r)%nat -> lab3 x = lab x) as Hl3.
  { intros x Hx. pose proof (g_next _ _ _ _ G1). rewrite (g_lab _ _ _ _ G3) by (rewrite Er2; simpl; lia).
    by apply (g_lab _ _ _ _ G1). }
  assert (next r <= next r3)%nat as Hn3.
  { pose proof (g_next _ _ _ _ G1). pose proof (g_next _ _ _ _ G3). rewrite Er2 in *. simpl in *. lia. }
  exists lab3. destruct (reserveIn pp u r3) as [r4 [err|]] eqn:Eres4.
  { apply (reserveIn_err l lab3 r3 u _ _ _ _ _ Hst Hmid3) in Eres4 as ->. cbn [fst].
    destruct (undo_both l lab3 r3 u a _ pr pp _ _ Hmid3 Hm3 Rpr3 Rpp) as [Hinv5 Hm5]; [done..|].
    split_and!; [done|done|done|eexists; exact Hm5]. }
  destruct (mid_reserve l lab3 r3 u _ _ a _ pp _ r4 Hmid3 Hm3 Rpp eq_refl Eres4) as (Hmid4 & Hm4 & Hs4 & Er4).
  cbn [fst].
  assert (transient r4 = 1%nat /\ system r4 = 0%nat) as [E1 E0].
  { pose proof (mid_structure _ _ _ _ _ _ Hmid4) as HS4. destruct (s_roots _ _ HS4) as (? & ? & _). done. }
  rewrite E1. change (system (decRef 1 (releaseIn 1 u r4))) with (system r4). rewrite E0.
  destruct (to_protocol l lab3 r4 a u t pr pp m' q) as [Hinv5 Hm5]; try done.
  - rewrite Er4. simpl. apply (g_peer _ _ _ _ G3). rewrite Er2. simpl. by apply (g_peer _ _ _ _ G1).
  - by rewrite Er4.
  - split_and!; [done|done|by rewrite Er4|eexists; exact Hm5].
Qed.

Lemma to_service l lab r a u t pr pp m q sv ps m' v :
  mid l lab r u (fun y => occ y [sv] + occ y [ps]) (fun y => occ y [sv] + occ y [ps]) ->
  mover lab (hp r) a u [stream_peer t; pp; pr; 0]%nat -> lab a = RStream -> peer r !! stream_peerID t = Some (stream_peer t) ->
  proto r !! q = Some (mkGroup pr m) -> m !! stream_peerID t = Some pp ->
  svc r !! v = Some (mkGroup sv m') -> m' !! stream_peerID t = Some ps ->
  let t' := mkStream (stream_dir t) (stream_peer t) (stream_peerID t) (Some sv) (Some pr) (Some pp) (Some ps) in
  let r' := set_stream a t' (putEdges a [stream_peer t; pp; ps; pr; sv; 0]%nat r) in
  inv l lab r' /\ mover lab (hp r') a u [stream_peer t; pp; ps; pr; sv; 0]%nat.
Proof.
  intros Hmid Hm Hlab Hp Hpr Hpp Hsv Hps t' r'. pose proof (mid_structure _ _ _ _ _ _ Hmid) as HS.
  destruct (s_root _ _ HS) as (R0 & _). pose proof (s_peer _ _ HS _ _ Hp) as Rp.
  destruct (s_proto _ _ HS _ _ Hpr) as [Rpr Rpps]. pose proof (Rpps _ _ Hpp) as Rpp.
  destruct (s_svc _ _ HS _ _ Hsv) as [Rsv Rsps]. pose proof (Rsps _ _ Hps) as Rps. cbn [group peers] in *. clear Rpps Rsps.
  set (P := stream_peer t) in *. set (i := stream_peerID t) in *.
  assert (NoDup [P; pp; ps; pr; sv; 0]%nat) as Hnd.
  { assert (P <> pp /\ P <> ps /\ P <> pr /\ P <> sv /\ P <> 0%nat) as (? & ? & ? & ? & ?)
      by (split_and!; eapply role_ne; eauto; done).
    assert (pp <> ps /\ pp <> pr /\ pp <> sv /\ pp <> 0%nat) as (? & ? & ? & ?)
      by (split_and!; eapply role_ne; eauto; done).
    assert (ps <> pr /\ ps <> sv /\ ps <> 0%nat /\ pr <> sv /\ pr <> 0%nat /\ sv <> 0%nat) as (? & ? & ? & ? & ? & ?)
      by (split_and!; eapply role_ne; eauto; done).
    repeat (apply NoDup_cons_2; [set_solver|]). apply NoDup_nil_2. }
  pose proof (open_not_mover _ _ _ _ _ _ _ Rsv eq_refl Hm) as M2.
  pose proof (open_not_mover _ _ _ _ _ _ _ Rps eq_refl Hm) as M3.
  destruct (mid_stream_edges l lab r r u _ _ a _ [P; pp; ps; pr; sv; 0]%nat t' HS ltac:(by destruct r) ltac:(done)
    (mid_shifted _ _ _ _ _ _ Hmid) Hm Hlab) as (Hmid3 & Hm3).
  { by rewrite !occ_single, !bool_decide_eq_false_2 by congruence. }
  { done. }
  { intros e He. each_edge He; eexists; (split; [eassumption|done]). }
  { split; [done|]. simpl. split_and!; eauto. }
  split; [|exact Hm3].
  assert (forall y, occ y [P; pp; ps; pr; sv; 0]%nat = occ y [P; pp; pr; 0]%nat + (occ y [sv] + occ y [ps])) as Eo.
  { intros y. apply NoDup_cons in Hnd as [H1 Hnd]. apply NoDup_cons in Hnd as [H2 Hnd].
    apply NoDup_cons in Hnd as [H3 Hnd]. apply NoDup_cons in Hnd as [H4 Hnd]. apply NoDup_cons in Hnd as [H5 _].
    rewrite (occ_cons y P [pp; ps; pr; sv; 0]%nat), (occ_cons y pp [ps; pr; sv; 0]%nat),
      (occ_cons y ps [pr; sv; 0]%nat), (occ_cons y pr [sv; 0]%nat), (occ_cons y sv [0%nat]) by done.
    rewrite (occ_cons y P [pp; pr; 0]%nat), (occ_cons y pp [pr; 0]%nat), (occ_cons y pr [0%nat]) by set_solver. lia. }
  eapply mid_inv; [exact Hmid3| |]; intros y; simpl; rewrite Eo; lia.
Qed.

Lemma SetService_kept l lab r a u es t v : inv l lab r -> streams r !! a = Some t -> mover lab (hp r) a u es ->
  kept l lab r a u (SetService limits a v r).1.
Proof.
  intros Hinv Ht Hm. pose proof (inv_structure _ _ _ Hinv) as HS.
  destruct (stream_of lab r a u es t HS Ht Hm) as [Hlab [Hp Hsh]]. unfold SetService. rewrite Ht.
  destruct (stream_svc t) as [|] eqn:Et; [by eapply kept_same|].
  destruct (stream_proto t) as [pr|] eqn:Etp; [|by eapply kept_same].
  destruct (peerProtoScope t) as [pp|] eqn:Epp; [|done]. destruct (peerSvcScope t) eqn:Eps; [done|].
  destruct Hsh as ((q & m & Hq & Hpp) & ->). cbn [default from_option id].
  apply (inv_mid _ _ _ u) in Hinv as Hmid.
  pose proof (mover_stat_ok _ _ _ _ _ _ _ _ (mid_shifted _ _ _ _ _ _ Hmid) Hm) as Hst.
  destruct (getServiceScope_got limits Hlim l u Hst (fun _ => 0) (fun _ => 0) lab r v Hmid ltac:(done) ltac:(done))
    as [lab1 G]. destruct (getServiceScope limits v r) as [r1 sv]. destruct G as (Hmid1 & G1 & Rsv & m1 & Hsv).
  pose proof (mover_grows lab lab1 r r1 a u _ HS G1 Hm) as Hm1. rewrite (scopeStat_mover lab1 r1 a u _ Hm1). cbv zeta.
  assert (is_Some (hp r !! a)) as Ha by (destruct Hm as (? & ? & _); eauto).
  assert (lab1 a = RStream) as Hlab1 by (by rewrite (role_kept lab lab1 r r1)).
  destruct (reserveIn sv u r1) as [r2 [err|]] eqn:Eres.
  { apply (reserveIn_err l lab1 r1 u _ _ _ _ _ Hst Hmid1) in Eres as ->. exists lab1.
    destruct (mid_ref l lab1 r1 u _ _ a _ sv (RService v) (-1) Hmid1 Hm1 Rsv eq_refl) as (Hmid2 & Hm2 & _).
    split_and!; [|apply G1|apply G1|eexists; exact Hm2]. eapply mid_inv; [exact Hmid2| |]; intros y; simpl; lia. }
  destruct (mid_reserve l lab1 r1 u _ _ a _ sv (RService v) r2 Hmid1 Hm1 Rsv eq_refl Eres) as (Hmid2 & Hm2 & Hs2 & Er2).
  pose proof (open_at_same _ _ _ _ _ Hs2 Rsv) as Rsv2. pose proof (mid_structure _ _ _ _ _ _ Hmid2) as HS2.
  pose proof (supp_occ lab1 r2 sv _ HS2 Rsv2) as Hsup.
  assert (svc r2 !! v = Some (mkGroup sv m1)) as Hsv2 by (by rewrite Er2).
  destruct (service_getPeerScope_got limits Hlim l u Hst _ _ lab1 r2 v sv m1 (stream_peerID t) Hmid2 Hsup Hsup Hsv2)
    as [lab3 G]. destruct (service_getPeerScope limits v (stream_peerID t) r2) as [r3 ps].
  destruct G as (Hmid3 & G3 & Rps & m3 & Hsv3 & Hps).
  pose proof (mover_grows lab1 lab3 r2 r3 a u _ HS2 G3 Hm2) as Hm3.
  pose proof (open_at_grows lab1 lab3 r2 r3 _ _ HS2 G3 Rsv2) as Rsv3.
  assert (lab3 a = RStream) as Hlab3.
  { rewrite (role_kept lab1 lab3 r2 r3); [done..|]. destruct Hm2 as (? & ? & _). eauto. }
  assert (forall x, (x < next r)%nat -> lab3 x = lab x) as Hl3.
  { intros x Hx. pose proof (g_next _ _ _ _ G1). rewrite (g_lab _ _ _ _ G3) by (rewrite Er2; simpl; lia).
    by apply (g_lab _ _ _ _ G1). }
  assert (next r <= next r3)%nat as Hn3.
  { pose proof (g_next _ _ _ _ G1). pose proof (g_next _ _ _ _ G3). rewrite Er2 in *. simpl in *. lia. }
  exists lab3. destruct (reserveIn ps u r3) as [r4 [err|]] eqn:Eres4.
  { apply (reserveIn_err l lab3 r3 u _ _ _ _ _ Hst Hmid3) in Eres4 as ->. cbn [fst].
    destruct (undo_both l lab3 r3 u a _ sv ps _ _ Hmid3 Hm3 Rsv3 Rps) as [Hinv5 Hm5]; [done..|].
    split_and!; [done|done|done|eexists; exact Hm5]. }
  destruct (mid_reserve l lab3 r3 u _ _ a _ ps _ r4 Hmid3 Hm3 Rps eq_refl Eres4) as (Hmid4 & Hm4 & Hs4 & Er4).
  cbn [fst].
  assert (system r4 = 0%nat) as E0.
  { pose proof (mid_structure _ _ _ _ _ _ Hmid4) as HS4. by destruct (s_roots _ _ HS4). }
  rewrite E0.
  assert (exists m4, proto r4 !! q = Some (mkGroup pr m4) /\ m4 !! stream_peerID t = Some pp) as (m4 & Hq4 & Hpp4).
  { destruct (g_proto _ _ _ _ G1 q _ Hq) as (m' & Hq1 & Hsub1).
    assert (proto r2 !! q = Some (mkGroup pr m')) as Hq2 by (by rewrite Er2).
    destruct (g_proto _ _ _ _ G3 q _ Hq2) as (m'' & Hq3 & Hsub3). exists m''. split; [by rewrite Er4|].
    eapply lookup_weaken; [|exact Hsub3]. by eapply lookup_weaken. }
  destruct (to_service l lab3 r4 a u t pr pp m4 q sv ps m3 v) as [Hinv5 Hm5]; try done.
  - rewrite Er4. simpl. apply (g_peer _ _ _ _ G3). rewrite Er2. simpl. by apply (g_peer _ _ _ _ G1).
  - by rewrite Er4.
  - split_and!; [done|done|by rewrite Er4|eexists; exact Hm5].
Qed.
End streams.

(** ** Opening and closing *)

Lemma inv_limiter l lab r cl : inv l lab r -> inv l lab (set_limiter cl r).
Proof. intros [[S1 S2 S3 S4 S5 S6 S7 S8 S9 S10] Hg]. split; [split|]; done. Qed.

Lemma inv_charge c d `{!ChargeLaws c d} l lab r a h' err : inv l lab r -> is_Some (hp r !! a) ->
  chargeScope (S a) c (hp r) a = (h', err) ->
  inv (match err with None => ledgered l a d | Some _ => l end) lab (set_hp h' r) /\ same_places (hp r) h' /\
  (err <> None -> h' = hp r).
Proof.
  intros [HS Hg] [s Ha] E. destruct err as [e|].
  - pose proof (good_charge_err c d l rootBase (hp r) a h' e Hg E) as ->. rewrite set_hp_id. done.
  - destruct (good_charge c d l rootBase (hp r) a s h' Hg Ha E) as [Hg' Ho]. pose proof (only_same _ _ Ho) as Hs.
    split_and!; [|done|done]. split; [by apply structure_same|done].
Qed.

(** A scope is closed: it is in no table any more, and what open scopes are attached to is
    still there. *)
Lemma structure_close lab r a s h1 sv pr pe : structure lab r -> same_places (hp r) h1 -> h1 !! a = Some s ->
  a ∉ roots ->
  (forall p x, pe !! p = Some x -> peer r !! p = Some x /\ x <> a) ->
  (forall v g, sv !! v = Some g -> exists g0, svc r !! v = Some g0 /\ group g = group g0 /\ group g <> a /\
     forall p x, peers g !! p = Some x -> peers g0 !! p = Some x /\ x <> a) ->
  (forall v g, pr !! v = Some g -> exists g0, proto r !! v = Some g0 /\ group g = group g0 /\ group g <> a /\
     forall p x, peers g !! p = Some x -> peers g0 !! p = Some x /\ x <> a) ->
  (forall b t, b <> a -> hp r !! b = Some t -> done t = false -> is_leaf (lab b) = true ->
     shape (set_tables sv pr pe r) (lab b) b (edges t)) ->
  structure lab (set_tables sv pr pe (set_hp (<[a := closed s]> h1) r)).
Proof.
  intros HS Hsame Ha Hroot Hpe Hsv Hpr Hshape. pose proof HS as [S1 S2 S3 S4 S5 S6 S7 S8 S9 S10].
  assert (forall x, is_Some (<[a := closed s]> h1 !! x) <-> is_Some (hp r !! x)) as Hdom.
  { intros x. specialize (Hsame x). destruct (decide (x = a)) as [->|].
    - rewrite lookup_insert_eq. rewrite Ha in Hsame. destruct (hp r !! a); [|done]. split; eauto.
    - rewrite lookup_insert_ne by done. destruct (hp r !! x), (h1 !! x); try done; split; eauto. }
  assert (forall x ro, x <> a -> open_at (hp r) lab x ro -> open_at (<[a := closed s]> h1) lab x ro) as Hop.
  { intros x ro Hne H. destruct (open_at_same _ _ _ _ _ Hsame H) as (t & Ht & H'). exists t.
    by rewrite lookup_insert_ne. }
  split; simpl; [done|..].
  - intros x. by rewrite Hdom.
  - unfold roots in Hroot. destruct S3 as (R0 & R1 & R2 & R3). split_and!; apply Hop; try done; set_solver.
  - intros p x Hx. destruct (Hpe p x Hx) as [? ?]. eauto.
  - intros v g Hv. destruct (Hsv v g Hv) as (g0 & Hg0 & Eg & Hne & Hps). destruct (S5 v g0 Hg0) as [H1 H2].
    rewrite Eg in *. split; [eauto|]. intros p x Hx. destruct (Hps p x Hx). eauto.
  - intros v g Hv. destruct (Hpr v g Hv) as (g0 & Hg0 & Eg & Hne & Hps). destruct (S6 v g0 Hg0) as [H1 H2].
    rewrite Eg in *. split; [eauto|]. intros p x Hx. destruct (Hps p x Hx). eauto.
  - intros x c Hc. rewrite Hdom. eauto.
  - intros x c Hc. rewrite Hdom. eauto.
  - intros x t Hx Hl. destruct (decide (x = a)) as [->|].
    + rewrite lookup_insert_eq in Hx. simplify_eq. simpl.
      destruct (same_lookup_inv _ _ a s Hsame Ha) as (s0 & Ha0 & _ & -> & _). eauto.
    + rewrite lookup_insert_ne in Hx by done. destruct (same_lookup_inv _ _ x t Hsame Hx) as (t0 & Hx0 & _ & -> & _). eauto.
  - intros b t Hb Hd. destruct (decide (b = a)) as [->|]; [rewrite lookup_insert_eq in Hb; by simplify_eq|].
    rewrite lookup_insert_ne in Hb by done. destruct (same_lookup_inv _ _ b t Hsame Hb) as (t0 & Hb0 & Ed & _ & ->).
    assert (done t0 = false) as Hd0 by congruence. destruct (is_leaf (lab b)) eqn:El.
    + by apply (Hshape b t0).
    + pose proof (S10 b t0 Hb0 Hd0) as Hsh. by destruct (lab b).
Qed.

Lemma leaf_not_root lab r a : structure lab r -> is_leaf (lab a) = true -> a ∉ roots.
Proof.
  intros HS Hl Ha. destruct (s_root _ _ HS) as (R0 & R1 & R2 & R3). unfold roots in Ha.
  assert (forall x ro, open_at (hp r) lab x ro -> is_leaf ro = false -> x <> a) as Hne.
  { intros x ro (? & _ & _ & _ & <-) H ->. congruence. }
  each_edge Ha; [by apply (Hne _ _ R0)|by apply (Hne _ _ R1)|by apply (Hne _ _ R2)|by apply (Hne _ _ R3)].
Qed.

(** Closing a connection, a stream or a span. *)
Lemma rs_inv_close l lab r a : inv l lab r -> is_leaf (lab a) = true ->
  inv l lab (set_hp (doneUnlocked (hp r) a) r).
Proof.
  intros [HS Hg] Hl. assert (inv l lab (set_hp (hp r) r)) as Hsame by (by rewrite set_hp_id).
  destruct (hp r !! a) as [s|] eqn:Ha; [|unfold doneUnlocked; by rewrite Ha].
  destruct (done s) eqn:Hd; [unfold doneUnlocked; by rewrite Ha, Hd|].
  destruct (good_done l rootBase (hp r) a s Hg Ha Hd (leaf_unheld lab r a HS Hl)) as (Hg' & h1 & E & Hs & Ha1).
  split; [|done]. rewrite E.
  assert (forall x ro, open_at (hp r) lab x ro -> is_leaf ro = false -> x <> a) as Hne.
  { intros x ro (? & _ & _ & _ & <-) H ->. congruence. }
  apply (structure_close lab r a s h1 (svc r) (proto r) (peer r)); try done.
  - by eapply leaf_not_root.
  - intros p x Hx. split; [done|]. exact (Hne _ _ (s_peer _ _ HS p x Hx) eq_refl).
  - intros v g Hv. destruct (s_svc _ _ HS v g Hv) as [H1 H2]. exists g. split_and!; [done..|exact (Hne _ _ H1 eq_refl)|].
    intros p x Hx. split; [done|]. exact (Hne _ _ (H2 p x Hx) eq_refl).
  - intros v g Hv. destruct (s_proto _ _ HS v g Hv) as [H1 H2]. exists g. split_and!; [done..|exact (Hne _ _ H1 eq_refl)|].
    intros p x Hx. split; [done|]. exact (Hne _ _ (H2 p x Hx) eq_refl).
  - intros b t _ Hb Hd' _. exact (s_shape _ _ HS b t Hb Hd').
Qed.

Lemma connDone_inv l lab r a : inv l lab r -> inv l lab (connDone a r).
Proof.
  intros Hinv. unfold connDone. destruct (hp r !! a) as [s|]; [|done]. destruct (conns r !! a) as [c|] eqn:Hc; [|done].
  destruct (done s); [done|]. destruct (s_conn _ _ (inv_structure _ _ _ Hinv) a c Hc) as [_ El].
  destruct (conn_ip c) as [ip|].
  - apply (rs_inv_close l lab (set_limiter (rmConn (limiter r) ip) r)); [by apply inv_limiter|by rewrite El].
  - apply rs_inv_close; [done|by rewrite El].
Qed.

Section opening.
Context (limits : ConcreteLimitConfig) (Hlim : config_ok limits).
Context (allowed : string -> bool).

(** A new scope of a connection or stream. *)
Definition opened (l : ledger) (lab : nat -> role) (r : resourceManager) (ro : role)
  (res : resourceManager * nat) : Prop :=
  exists lab', inv l lab' res.1 /\ (forall x, (x < next r)%nat -> lab' x = lab x) /\
    (next r <= next res.1)%nat /\ lab' res.2 = ro /\ is_Some (hp res.1 !! res.2).

Lemma conn_limit_ok : limit_ok (cConn limits) /\ limit_ok (cStream limits).
Proof. destruct Hlim as [H1 _]. rewrite !Forall_cons in H1. tauto. Qed.

Lemma inv_zero l lab r : inv l lab r <-> mid l lab r stat_zero (fun _ => 0) (fun _ => 0).
Proof. apply inv_mid. Qed.

Lemma new_conn_opened l lab r c es txt ci : inv l lab r ->
  conn_peer c = None -> es = (if isAllowlisted c then [3; 2]%nat else [1; 0]%nat) ->
  opened l lab r RConn (let '(r1, a) := newScope (cConn limits) es txt r in
    (set_users (<[a := c]> (conns r)) (streams r) ci (streamId r) r1, a)).
Proof.
  intros Hinv Hp Ees. pose proof (inv_structure _ _ _ Hinv) as HS. apply inv_zero in Hinv as Hmid.
  destruct (s_root _ _ HS) as (R0 & R1 & R2 & R3).
  pose proof (mid_newUser l stat_zero (fun _ => 0) (fun _ => 0) lab r (cConn limits) es txt RConn
    (<[next r := c]> (conns r)) (streams r) ci (streamId r) Hmid (proj1 conn_limit_ok)) as G.
  assert (newScope (cConn limits) es txt r = ((newScope (cConn limits) es txt r).1, next r)) as En by done.
  rewrite En in *. cbv beta iota zeta in G |- *. eexists. cbn [fst snd].
  destruct G as (G1 & G2 & G3 & G4 & G5 & _ & G7 & _).
  - destruct (isAllowlisted c); rewrite Ees; apply (bool_decide_unpack _); by vm_compute.
  - intros e He. destruct (isAllowlisted c); rewrite Ees in He; each_edge He; eauto.
  - done.
  - done.
  - intros x Hx. by rewrite lookup_insert_ne.
  - done.
  - intros [t Ht]. destruct (s_stream _ _ HS _ _ Ht) as [H%(s_next _ _ HS) _]. lia.
  - exists c. split; [apply lookup_insert_eq|]. unfold conn_shape. rewrite Hp, Ees. destruct (isAllowlisted c); auto.
  - split_and!; [by apply inv_zero|exact G3|lia|exact G5|eauto].
Qed.

Lemma newConnectionScope_opened l lab r dir usefd ep ip : inv l lab r ->
  opened l lab r RConn (newConnectionScope limits dir usefd ep ip r).
Proof.
  intros Hinv. destruct (s_roots _ _ (inv_structure _ _ _ Hinv)) as (E0 & E1 & _).
  assert (newConnectionScope limits dir usefd ep ip r =
    (let '(r1, a) := newScope (cConn limits) [1; 0]%nat ("conn-" ++ utoa (connId r + 1)) r in
    (set_users (<[a := mkConn dir usefd false None ep ip]> (conns r)) (streams r) (connId r + 1) (streamId r) r1, a))) as ->.
  { unfold newConnectionScope. cbn [transient system set_users]. rewrite E0, E1. done. }
  by apply new_conn_opened.
Qed.

Lemma newAllowListedConnectionScope_opened l lab r dir usefd ep : inv l lab r ->
  opened l lab r RConn (newAllowListedConnectionScope limits dir usefd ep r).
Proof.
  intros Hinv. destruct (s_roots _ _ (inv_structure _ _ _ Hinv)) as (_ & _ & E2 & E3).
  assert (newAllowListedConnectionScope limits dir usefd ep r =
    (let '(r1, a) := newScope (cConn limits) [3; 2]%nat ("conn-" ++ utoa (connId r + 1)) r in
    (set_users (<[a := mkConn dir usefd true None ep None]> (conns r)) (streams r) (connId r + 1) (streamId r) r1, a))) as ->.
  { unfold newAllowListedConnectionScope. cbn [allowlistedTransient allowlistedSystem set_users]. rewrite E2, E3. done. }
  by apply new_conn_opened.
Qed.

(** The new scope is charged what it stands for, or nothing changes. *)
Lemma opened_charge c d `{!ChargeLaws c d} l lab r ro r1 a r2 err : opened l lab r ro (r1, a) ->
  onScopes (fun h => chargeScope (S a) c h a) r1 = (r2, err) ->
  opened (match err with None => ledgered l a d | Some _ => l end) lab r ro (r2, a).
Proof.
  intros (lab' & Hinv & Hl & Hn & Hro & Ha). cbn [fst snd] in *. unfold onScopes.
  destruct (chargeScope (S a) c (hp r1) a) as [h' err'] eqn:E. intros [= <- <-].
  destruct (inv_charge c d l lab' r1 a h' err' Hinv Ha E) as (Hinv' & Hs & _). exists lab'.
  split_and!; try done. cbn [fst snd hp set_hp]. specialize (Hs a). destruct Ha as [s Ha]. rewrite Ha in Hs.
  destruct (h' !! a); [eauto|done].
Qed.

(** What a manager becomes when it opens, attaches or closes: the ledger is [l'], and
    no address changes its role. *)
Definition settled (l' : ledger) (lab : nat -> role) (r r' : resourceManager) : Prop :=
  exists lab', inv l' lab' r' /\ (forall x, (x < next r)%nat -> lab' x = lab x) /\ (next r <= next r')%nat.

Lemma opened_settled l lab r ro res : opened l lab r ro res -> settled l lab r res.1.
Proof. intros (lab' & ? & ? & ? & _). by exists lab'. Qed.

Lemma settled_trans l lab r r1 l' r' : settled l lab r r1 ->
  (forall lab1, inv l lab1 r1 -> settled l' lab1 r1 r') -> settled l' lab r r'.
Proof.
  intros (lab1 & H1 & H2 & H3) H. destruct (H lab1 H1) as (lab2 & H4 & H5 & H6). exists lab2.
  split_and!; [done| |lia]. intros x Hx. rewrite H5 by lia. auto.
Qed.

Lemma settled_same l lab r r' : next r' = next r -> inv l lab r' -> settled l lab r r'.
Proof. intros En Hinv. exists lab. split_and!; [done..|lia]. Qed.

Lemma next_connDone a r : next (connDone a r) = next r.
Proof. unfold connDone. destruct (hp r !! a), (conns r !! a) as [c|]; try done. by destruct (done s), (conn_ip c). Qed.

Lemma opened_limiter l lab r ro cl res : opened l lab (set_limiter cl r) ro res -> opened l lab r ro res.
Proof. done. Qed.

Lemma openConnection_settled l lab r rateOk dir usefd ep ip : inv l lab r ->
  let '(r', res) := openConnection limits allowed rateOk dir usefd ep ip r in
  settled (match res with inr a => ledgered l a (conn_stat dir usefd) | inl _ => l end) lab r r'.
Proof.
  intros Hinv. unfold openConnection. destruct rateOk; cbn [negb]; [|by apply settled_same].
  set (admission := match ip with Some i => _ | None => _ end).
  assert (exists cl adm, admission = (set_limiter cl r, adm)) as (cl & adm & ->).
  { unfold admission. destruct ip as [i|]; [destruct (ConnLimiter.addConn (limiter r) i) as [cl ok]; eauto|].
    exists (limiter r), true. by destruct r. }
  set (r0 := set_limiter cl r). assert (inv l lab r0) as Hinv0 by (by apply inv_limiter).
  destruct adm; cbn [negb]; [|by apply settled_same].
  pose proof (newConnectionScope_opened l lab r0 dir usefd ep ip Hinv0) as Hop.
  destruct (newConnectionScope limits dir usefd ep ip r0) as [r1 a].
  destruct (onScopes _ r1) as [r2 err] eqn:E.
  pose proof (opened_charge (connCharge dir usefd) (conn_stat dir usefd) l lab r0 RConn r1 a r2 err Hop E) as Hop2.
  destruct err as [e|]; [|apply opened_settled in Hop2; exact Hop2].
  apply opened_settled in Hop2 as Hset. change (settled l lab r r2) in Hset.
  assert (settled l lab r (connDone a r2)) as Hdone.
  { eapply settled_trans; [exact Hset|]. intros lab1 Hinv1. apply settled_same; [apply next_connDone|by apply connDone_inv]. }
  destruct ip as [i|]; [|exact Hdone]. destruct (allowed ep); [|exact Hdone].
  destruct (newAllowListedConnectionScope limits dir usefd ep (connDone a r2)) as [r3 a3] eqn:En.
  destruct (onScopes (fun h => AddConn h a3 dir usefd) r3) as [r4 err4] eqn:E4.
  assert (forall lab1, inv l lab1 (connDone a r2) ->
    settled (match err4 with None => ledgered l a3 (conn_stat dir usefd) | Some _ => l end) lab1 (connDone a r2) r4) as H4.
  { intros lab1 Hinv1. pose proof (newAllowListedConnectionScope_opened l lab1 _ dir usefd ep Hinv1) as Hop3.
    rewrite En in Hop3. eapply (opened_settled _ _ _ RConn (r4, a3)).
    by apply (opened_charge (connCharge dir usefd) (conn_stat dir usefd) l lab1 (connDone a r2) RConn r3). }
  pose proof (settled_trans _ _ _ _ _ _ Hdone H4) as Hset4. destruct err4 as [e4|]; [|exact Hset4].
  eapply settled_trans; [exact Hset4|]. intros lab1 Hinv1. apply settled_same; [apply next_connDone|by apply connDone_inv].
Qed.

Lemma stat_ok_zero : stat_ok stat_zero.
Proof. split; [by intros []|done]. Qed.

Lemma OpenStream_settled l lab r p dir : inv l lab r ->
  let '(r', res) := OpenStream limits p dir r in
  settled (match res with inr a => ledgered l a (dir_stat dir) | inl _ => l end) lab r r'.
Proof.
  intros Hinv. apply inv_zero in Hinv as Hmid. unfold OpenStream.
  destruct (getPeerScope_got limits Hlim l stat_zero stat_ok_zero (fun _ => 0) (fun _ => 0) lab r p Hmid
    ltac:(done) ltac:(done)) as [lab1 G].
  destruct (getPeerScope limits p r) as [r1 pa]. destruct G as (Hmid1 & G1 & Rpa & Hpa).
  pose proof (mid_structure _ _ _ _ _ _ Hmid1) as HS1. destruct (s_root _ _ HS1) as (R0 & R1 & _).
  destruct (s_roots _ _ HS1) as (E0 & E1 & _).
  set (t := mkStream dir pa p None None None None).
  pose proof (mid_newUser l stat_zero (fun _ => 0) (fun x => 0 + occ x [pa]) lab1 r1 (cStream limits) [pa; 1; 0]%nat
    ("stream-" ++ utoa (streamId r1 + 1)) RStream (conns r1) (<[next r1 := t]> (streams r1)) (connId r1)
    (streamId r1 + 1) Hmid1 (proj2 conn_limit_ok)) as G.
  assert (newStreamScope limits dir pa p r1 =
    (let '(r2, a) := newScope (cStream limits) [pa; 1; 0]%nat ("stream-" ++ utoa (streamId r1 + 1)) r1 in
     (set_users (conns r1) (<[a := t]> (streams r1)) (connId r1) (streamId r1 + 1) r2, a))) as ->.
  { unfold newStreamScope. cbn [transient system set_users]. rewrite E0, E1. done. }
  assert (newScope (cStream limits) [pa; 1; 0]%nat ("stream-" ++ utoa (streamId r1 + 1)) r1 =
    ((newScope (cStream limits) [pa; 1; 0]%nat ("stream-" ++ utoa (streamId r1 + 1)) r1).1, next r1)) as En by done.
  rewrite En in *. cbv beta iota zeta in G |- *.
  set (r2 := set_users _ _ _ _ (newScope _ _ _ _).1) in *.
  set (lab2 := fun x => if bool_decide (x = next r1) then RStream else lab1 x) in *. clearbody r2. clear En.
  destruct G as (Hmid2 & G2 & G3 & G4 & G5 & _ & G7 & _).
  { assert (pa <> 0%nat /\ pa <> 1%nat) as [? ?] by (split; eapply role_ne; eauto; done).
    repeat (apply NoDup_cons_2; [set_solver|]). apply NoDup_nil_2. }
  { intros e He. each_edge He; eauto. }
  { done. }
  { apply (supp_occ lab1 r1 pa (RPeer p)); [done|done|lia]. }
  { intros x Hx. by rewrite lookup_insert_ne. }
  { intros [c Hc]. destruct (s_conn _ _ HS1 _ _ Hc) as [H%(s_next _ _ HS1) _]. lia. }
  { done. }
  { exists t. split; [apply lookup_insert_eq|]. split; [done|]. done. }
  assert (opened l lab1 r1 RStream (decRef pa r2, next r1)) as Hop.
  { assert (is_Some (hp r2 !! pa)) as Hs.
    { destruct Rpa as (s & Hs & _). destruct (G2 pa s Hs) as (s' & ? & _). eauto. }
    pose proof (mid_alter l stat_zero stat_ok_zero _ _ lab2 r2 pa (-1) Hmid2 Hs) as Hmid3.
    exists lab2. split_and!; [|exact G3| |exact G5|].
    - eapply mid_inv; [exact Hmid3| |]; intros y; simpl; lia.
    - cbn [fst next decRef set_hp]. lia.
    - cbn [fst snd hp decRef set_hp]. unfold DecRef. apply lookup_alter_is_Some. eauto. }
  destruct (onScopes _ (decRef pa r2)) as [r4 err] eqn:E.
  pose proof (opened_charge (streamCharge dir) (dir_stat dir) l lab1 r1 RStream (decRef pa r2) (next r1) r4 err Hop E) as Hop4.
  assert (forall l' r', settled l' lab1 r1 r' -> settled l' lab r r') as Hup.
  { intros l' r' (lab' & H1 & H2 & H3). exists lab'. pose proof (g_next _ _ _ _ G1). split_and!; [done| |lia].
    intros x Hx. rewrite H2 by lia. by apply (g_lab _ _ _ _ G1). }
  destruct err as [e|]; apply Hup; [|by apply opened_settled in Hop4].
  destruct Hop4 as (lab' & Hinv4 & H2 & H3 & H4 & H5). exists lab'. cbn [fst snd] in *. split_and!; [|done|done].
  apply rs_inv_close; [done|by rewrite H4].
Qed.
End opening.
