(* ===== verification/ResourceHistory.v ===== *)
(** * The resource manager: collection and histories

    The collector of [ResourceManager] closes only scopes nobody refers to and forgets no
    peer or protocol that is in use; and whatever is opened, attached, reserved, released
    and collected, in any order, every open scope counts exactly what is held at it and
    below it, within its limits. *)

From S2P Require Import Prelude GoLib GoNet Scope RcLimits ConnLimiter ResourceManager ResourceStreams.

(** ** Collection *)

Section collection.
Context `{MR : !MapRange}.

Lemma holders_zero h a : holders h a <= 0 -> unheld h a.
Proof.
  intros Hz b t Hb Ha. destruct (done t) eqn:Hd; [done|].
  pose proof (msum_ge (fun _ s => holds a s) h b t Hb ltac:(intros; apply holds_range)) as Hge.
  unfold holders in Hz. cbv beta in Hge. unfold holds in Hge at 1. rewrite Hd in Hge.
  unfold occ in Hge. rewrite bool_decide_eq_true_2 in Hge by done. destruct (is_owner a t); lia.
Qed.

(** A scope with no reference, other than those that live with the manager, is held by
    none. *)
Lemma unused_unheld l lab r a ro s : inv l lab r -> open_at (hp r) lab a ro -> a ∉ roots -> hp r !! a = Some s ->
  IsUnused s = true -> unheld (hp r) a.
Proof.
  intros [HS Hg] (s' & Ha & Hd & _) Hr Ha' Hu. assert (s' = s) as -> by congruence. unfold IsUnused in Hu. rewrite Hd in Hu.
  destruct (Z.ltb_spec 0 (refCnt s)); [done|].
  apply holders_zero. pose proof (good_counted _ _ _ Hg a ltac:(eauto)) as Hc. unfold refCntOf in Hc.
  rewrite Ha in Hc. unfold rootBase in Hc. rewrite bool_decide_eq_false_2 in Hc by done. lia.
Qed.

Lemma closed_heap h a s e : h !! a = Some s -> done s = false -> owner s = None -> edges s = [e] -> e <> a ->
  forall y, y <> a -> y <> e -> doneUnlocked h a !! y = h !! y.
Proof.
  intros Ha Hd Ho He Hne y Hy Hye. unfold doneUnlocked. rewrite Ha, Hd, Ho, He. cbn [foldl].
  rewrite lookup_alter_ne by done. unfold DecRef, ReleaseForChild, returnChild. by rewrite !lookup_alter_ne.
Qed.

Lemma open_not_root lab r a ro : structure lab r -> open_at (hp r) lab a ro ->
  (forall x, x ∈ [RSystem; RTransient; RAlSystem; RAlTransient] -> ro <> x) -> a ∉ roots.
Proof.
  intros HS Ha Hro Hin. destruct (s_root _ _ HS) as (R0 & R1 & R2 & R3). unfold roots in Hin.
  each_edge Hin; (eapply role_ne; [exact Ha| |apply Hro|reflexivity]; [eassumption|set_solver]).
Qed.

(** Closing a scope of a table: what is left of the tables. *)
Lemma rh_close_listed l lab r a ro s sv pr pe : inv l lab r -> open_at (hp r) lab a ro -> is_leaf ro = false ->
  (forall x, x ∈ [RSystem; RTransient; RAlSystem; RAlTransient] -> ro <> x) -> hp r !! a = Some s ->
  unheld (hp r) a ->
  (forall p x, pe !! p = Some x -> peer r !! p = Some x /\ ro <> RPeer p) ->
  (forall v g, sv !! v = Some g -> exists g0, svc r !! v = Some g0 /\ group g = group g0 /\ ro <> RService v /\
     forall p x, peers g !! p = Some x -> peers g0 !! p = Some x /\ ro <> RServicePeer v p) ->
  (forall v g, pr !! v = Some g -> exists g0, proto r !! v = Some g0 /\ group g = group g0 /\ ro <> RProtocol v /\
     forall p x, peers g !! p = Some x -> peers g0 !! p = Some x /\ ro <> RProtocolPeer v p) ->
  (forall b t, hp r !! b = Some t -> done t = false -> is_leaf (lab b) = true -> a ∉ edges t ->
     shape (set_tables sv pr pe r) (lab b) b (edges t)) ->
  inv l lab (set_tables sv pr pe (set_hp (doneUnlocked (hp r) a) r)).
Proof.
  intros [HS Hg] Ho Hl Hro Ha Hu Hpe Hsv Hpr Hsh.
  pose proof Ho as (s' & Ha' & Hd & _). assert (s' = s) as -> by congruence. clear Ha'.
  destruct (good_done l rootBase (hp r) a s Hg Ha Hd Hu) as (Hg' & h1 & E & Hs & Ha1).
  assert (forall x rx, open_at (hp r) lab x rx -> ro <> rx -> x <> a) as Hne.
  { intros x rx Hx Hr. apply not_eq_sym. by eapply role_ne. }
  split; [|done]. rewrite E. apply structure_close; try done.
  - by eapply open_not_root.
  - intros p x Hx. destruct (Hpe p x Hx) as [H1 H2]. split; [done|]. by apply (Hne _ _ (s_peer _ _ HS p x H1)).
  - intros v g Hv. destruct (Hsv v g Hv) as (g0 & Hg0 & Eg & H1 & H2). destruct (s_svc _ _ HS v g0 Hg0) as [Og Op].
    exists g0. split_and!; [done|done|rewrite Eg; by apply (Hne _ _ Og)|].
    intros p x Hx. destruct (H2 p x Hx) as [H3 H4]. split; [done|]. by apply (Hne _ _ (Op p x H3)).
  - intros v g Hv. destruct (Hpr v g Hv) as (g0 & Hg0 & Eg & H1 & H2). destruct (s_proto _ _ HS v g0 Hg0) as [Og Op].
    exists g0. split_and!; [done|done|rewrite Eg; by apply (Hne _ _ Og)|].
    intros p x Hx. destruct (H2 p x Hx) as [H3 H4]. split; [done|]. by apply (Hne _ _ (Op p x H3)).
  - intros b t Hb Ht Hdt Hlb. apply Hsh; try done. intros Hin. by rewrite (Hu b t Ht Hin) in Hdt.
Qed.

Lemma gcProto_inv l lab r q g : inv l lab r -> proto r !! q = Some g -> inv l lab (gcProto r (q, g)).
Proof.
  intros Hinv Hq. pose proof (inv_structure _ _ _ Hinv) as HS. unfold gcProto.
  case_bool_decide; [done|]. unfold unused. destruct (hp r !! group g) as [s|] eqn:Hs; [|done].
  destruct (IsUnused s) eqn:Hus; [|done]. destruct (s_proto _ _ HS q g Hq) as [Ho _].
  assert (forall x, x ∈ [RSystem; RTransient; RAlSystem; RAlTransient] -> RProtocol q <> x) as Hro by set_solver.
  pose proof (unused_unheld l lab r _ _ s Hinv Ho (open_not_root lab r _ _ HS Ho Hro) Hs Hus) as Hu.
  apply (rh_close_listed l lab r (group g) (RProtocol q) s); try done.
  - intros v g0 Hv. exists g0. done.
  - intros v g0 [Hv1 Hv2]%lookup_delete_Some. exists g0. split_and!; [done|done|congruence|done].
  - intros b t Hb Hd Hl Hin. pose proof (s_shape _ _ HS b t Hb Hd) as Hsh. destruct (lab b); try done.
    destruct Hsh as (t' & Ht' & Hp & Hsh). exists t'. split; [done|]. split; [done|].
    assert (forall p pp, p ∈ edges t -> (exists q m, proto r !! q = Some (mkGroup p m) /\ m !! stream_peerID t' = Some pp) ->
      exists k m, delete q (proto r) !! k = Some (mkGroup p m) /\ m !! stream_peerID t' = Some pp) as Hk.
    { intros p pp Hpe (k & m & Hk & Hm). exists k, m. split; [|done]. rewrite lookup_delete_ne; [done|].
      intros ->. rewrite Hq in Hk. injection Hk as ->. done. }
    cbn [svc proto peer set_tables]. destruct (stream_proto t') as [p|], (peerProtoScope t') as [pp|],
      (stream_svc t') as [sv|], (peerSvcScope t') as [ps|]; try done.
    + destruct Hsh as (H1 & H2 & E). split_and!; [|done|done]. apply Hk; [|done]. rewrite E. set_solver.
    + destruct Hsh as (H1 & E). split; [|done]. apply Hk; [|done]. rewrite E. set_solver.
Qed.

Lemma gcPeer_inv l lab r dead p a : inv l lab r -> peer r !! p = Some a -> inv l lab (gcPeer (r, dead) (p, a)).1.
Proof.
  intros Hinv Hp. pose proof (inv_structure _ _ _ Hinv) as HS. unfold gcPeer.
  case_bool_decide; [done|]. unfold unused. destruct (hp r !! a) as [s|] eqn:Hs; [|done].
  destruct (IsUnused s) eqn:Hus; [|done]. pose proof (s_peer _ _ HS p a Hp) as Ho. cbn [fst].
  assert (forall x, x ∈ [RSystem; RTransient; RAlSystem; RAlTransient] -> RPeer p <> x) as Hro by set_solver.
  pose proof (unused_unheld l lab r _ _ s Hinv Ho (open_not_root lab r _ _ HS Ho Hro) Hs Hus) as Hu.
  apply (rh_close_listed l lab r a (RPeer p) s); try done.
  - intros k x [Hk1 Hk2]%lookup_delete_Some. split; [done|congruence].
  - intros v g0 Hv. exists g0. done.
  - intros v g0 Hv. exists g0. done.
  - intros b t Hb Hd Hl Hin. pose proof (s_shape _ _ HS b t Hb Hd) as Hsh.
    assert (forall k x, x ∈ edges t -> peer r !! k = Some x -> delete p (peer r) !! k = Some x) as Hk.
    { intros k x Hx Hk. rewrite lookup_delete_ne; [done|]. intros ->. rewrite Hp in Hk. by injection Hk as ->. }
    destruct (lab b); try done.
    + destruct Hsh as (c & Hc & Hsh). exists c. split; [done|]. unfold conn_shape in *. cbn [peer set_tables].
      destruct (conn_peer c) as [pa|]; [|done]. destruct Hsh as [[k Hk'] E]. split; [|done].
      exists k. apply Hk; [rewrite E; set_solver|done].
    + destruct Hsh as (t' & Ht' & Hpe & Hsh). exists t'. split; [done|]. split; [|done].
      apply Hk; [|done]. destruct (stream_proto t') as [q|], (peerProtoScope t') as [pp|],
      (stream_svc t') as [sv|], (peerSvcScope t') as [ps|]; try done.
      * destruct Hsh as (_ & _ & ->). set_solver.
      * destruct Hsh as (_ & ->). set_solver.
      * rewrite Hsh. set_solver.
Qed.

(** What services and protocols keep for a peer that is gone is used by no stream. *)
Lemma peer_scope_unheld lab r x k p : structure lab r -> peer r !! p = None ->
  lab x = RServicePeer k p \/ lab x = RProtocolPeer k p -> unheld (hp r) x.
Proof.
  intros HS Hp Hx b t Hb Hin. destruct (done t) eqn:Hd; [done|]. exfalso.
  pose proof (s_shape _ _ HS b t Hb Hd) as Hsh. destruct (s_root _ _ HS) as (R0 & R1 & R2 & R3).
  assert (forall y ro, open_at (hp r) lab y ro -> ro <> lab x -> x <> y) as Hne.
  { intros y ro (? & _ & _ & _ & <-) Hr ->. done. }
  assert (x ∉ roots) as Hxr.
  { unfold roots. intros Hxr. each_edge Hxr; [apply (Hne _ _ R0)|apply (Hne _ _ R1)|apply (Hne _ _ R2)|apply (Hne _ _ R3)];
      try done; destruct Hx as [E|E]; by rewrite E. }
  unfold roots in Hxr.
  destruct (lab b); simpl in Hsh; try (rewrite Hsh in Hin; set_solver).
  - destruct Hsh as (c & _ & Hsh). unfold conn_shape in Hsh. destruct (conn_peer c) as [pa|].
    + destruct Hsh as [[k' Hk] E]. rewrite E in Hin. each_edge Hin.
      * eapply (Hne _ _ (s_peer _ _ HS _ _ Hk)); [|done]. by destruct Hx as [-> | ->].
      * destruct (isAllowlisted c); set_solver.
    + destruct (isAllowlisted c); [rewrite Hsh in Hin; set_solver|].
      destruct Hsh as [E|[E|E]]; rewrite E in Hin; set_solver.
  - destruct Hsh as (t' & _ & Hpe & Hsh).
    assert (x <> stream_peer t') as N1.
    { eapply (Hne _ _ (s_peer _ _ HS _ _ Hpe)). by destruct Hx as [-> | ->]. }
    assert (stream_peerID t' <> p) as Np by congruence.
    assert (forall q m pp, proto r !! q = Some (mkGroup pp m) -> x <> pp /\ forall y, m !! stream_peerID t' = Some y -> x <> y) as Npr.
    { intros q m pp Hq. destruct (s_proto _ _ HS q _ Hq) as [O1 O2]. split.
      - eapply (Hne _ _ O1). by destruct Hx as [-> | ->].
      - intros y Hy. eapply (Hne _ _ (O2 _ _ Hy)). destruct Hx as [-> | ->]; congruence. }
    assert (forall q m pp, svc r !! q = Some (mkGroup pp m) -> x <> pp /\ forall y, m !! stream_peerID t' = Some y -> x <> y) as Nsv.
    { intros q m pp Hq. destruct (s_svc _ _ HS q _ Hq) as [O1 O2]. split.
      - eapply (Hne _ _ O1). by destruct Hx as [-> | ->].
      - intros y Hy. eapply (Hne _ _ (O2 _ _ Hy)). destruct Hx as [-> | ->]; congruence. }
    destruct (stream_proto t') as [q|], (peerProtoScope t') as [pp|],
      (stream_svc t') as [sv|], (peerSvcScope t') as [ps|]; try done.
    + destruct Hsh as ((q' & m & Hq & Hm) & (v' & m' & Hv & Hm') & E). rewrite E in Hin.
      destruct (Npr _ _ _ Hq) as [? Hn1]. destruct (Nsv _ _ _ Hv) as [? Hn2]. specialize (Hn1 _ Hm). specialize (Hn2 _ Hm').
      set_solver.
    + destruct Hsh as ((q' & m & Hq & Hm) & E). rewrite E in Hin.
      destruct (Npr _ _ _ Hq) as [? Hn1]. specialize (Hn1 _ Hm). set_solver.
    + rewrite Hsh in Hin. set_solver.
Qed.

(** The services with the entry of [v] replaced, and the protocols with that of [q]. *)
Definition with_service (v : string) (st : heap * groupScope) (r : resourceManager) : resourceManager :=
  set_tables (<[v := st.2]> (svc r)) (proto r) (peer r) (set_hp st.1 r).
Definition with_protocol (q : string) (st : heap * groupScope) (r : resourceManager) : resourceManager :=
  set_tables (svc r) (<[q := st.2]> (proto r)) (peer r) (set_hp st.1 r).

Lemma dropPeer_service l lab r v g p : inv l lab r -> svc r !! v = Some g -> peer r !! p = None ->
  inv l lab (with_service v (dropPeer (hp r, g) p) r) /\ group (dropPeer (hp r, g) p).2 = group g.
Proof.
  intros Hinv Hv Hp. pose proof (inv_structure _ _ _ Hinv) as HS. unfold dropPeer, with_service.
  destruct (s_svc _ _ HS v g Hv) as [Og Op].
  destruct (peers g !! p) as [ps|] eqn:Eps; cbn [fst snd]; (split; [|done]).
  - pose proof (Op p ps Eps) as Ops. pose proof Ops as (s & Hs & Hd & _ & El).
    pose proof (peer_scope_unheld lab r ps v p HS Hp (or_introl El)) as Hu.
    apply (rh_close_listed l lab r ps (RServicePeer v p) s); try done; [set_solver|..].
    + intros k g0 [[<- <-]|[Hne Hk]]%lookup_insert_Some.
      * exists g. split_and!; [done..|]. cbn [peers]. intros k x [Hk1 Hk2]%lookup_delete_Some. split; [done|congruence].
      * exists g0. split_and!; [done..|]. intros k' x Hx. split; [done|congruence].
    + intros k g0 Hk. exists g0. done.
    + intros b t Hb Hdt Hl Hin. pose proof (s_shape _ _ HS b t Hb Hdt) as Hsh. destruct (lab b); try done.
      destruct Hsh as (t' & Ht' & Hpe & Hsh). exists t'. split; [done|]. split; [done|].
      destruct (stream_proto t') as [q|], (peerProtoScope t') as [pp|],
        (stream_svc t') as [sv|], (peerSvcScope t') as [ps'|]; try done.
      destruct Hsh as (H1 & (v' & m & Hv' & Hm) & E). split_and!; [done| |done]. cbn [svc set_tables].
      destruct (decide (v' = v)) as [->|Hne].
      * exists v, (delete p (peers g)). rewrite lookup_insert_eq. rewrite Hv in Hv'. injection Hv' as ->. split; [done|].
        rewrite lookup_delete_ne; [done|]. congruence.
      * exists v', m. by rewrite lookup_insert_ne.
  - rewrite insert_id by done. by destruct r.
Qed.

Lemma dropPeer_protocol l lab r v g p : inv l lab r -> proto r !! v = Some g -> peer r !! p = None ->
  inv l lab (with_protocol v (dropPeer (hp r, g) p) r) /\ group (dropPeer (hp r, g) p).2 = group g.
Proof.
  intros Hinv Hv Hp. pose proof (inv_structure _ _ _ Hinv) as HS. unfold dropPeer, with_protocol.
  destruct (s_proto _ _ HS v g Hv) as [Og Op].
  destruct (peers g !! p) as [ps|] eqn:Eps; cbn [fst snd]; (split; [|done]).
  - pose proof (Op p ps Eps) as Ops. pose proof Ops as (s & Hs & Hd & _ & El).
    pose proof (peer_scope_unheld lab r ps v p HS Hp (or_intror El)) as Hu.
    apply (rh_close_listed l lab r ps (RProtocolPeer v p) s); try done; [set_solver|..].
    + intros k g0 Hk. exists g0. done.
    + intros k g0 [[<- <-]|[Hne Hk]]%lookup_insert_Some.
      * exists g. split_and!; [done..|]. cbn [peers]. intros k x [Hk1 Hk2]%lookup_delete_Some. split; [done|congruence].
      * exists g0. split_and!; [done..|]. intros k' x Hx. split; [done|congruence].
    + intros b t Hb Hdt Hl Hin. pose proof (s_shape _ _ HS b t Hb Hdt) as Hsh. destruct (lab b); try done.
      destruct Hsh as (t' & Ht' & Hpe & Hsh). exists t'. split; [done|]. split; [done|].
      assert (forall p0 pp, (exists q m, proto r !! q = Some (mkGroup p0 m) /\ m !! stream_peerID t' = Some pp) ->
        exists q m, <[v := mkGroup (group g) (delete p (peers g))]> (proto r) !! q = Some (mkGroup p0 m) /\
          m !! stream_peerID t' = Some pp) as Hk.
      { intros p0 pp (v' & m & Hv' & Hm). destruct (decide (v' = v)) as [->|Hne].
        - exists v, (delete p (peers g)). rewrite lookup_insert_eq. rewrite Hv in Hv'. injection Hv' as ->. split; [done|].
          rewrite lookup_delete_ne; [done|]. congruence.
        - exists v', m. by rewrite lookup_insert_ne. }
      cbn [proto set_tables]. destruct (stream_proto t') as [q|], (peerProtoScope t') as [pp|],
        (stream_svc t') as [sv|], (peerSvcScope t') as [ps'|]; try done.
      * destruct Hsh as (H1 & H2 & E). split_and!; [by apply Hk|done|done].
      * destruct Hsh as (H1 & E). split_and!; [by apply Hk|done].
  - rewrite insert_id by done. by destruct r.
Qed.

Lemma dropAll_service l lab dead : forall r v g, inv l lab r -> svc r !! v = Some g ->
  (forall p, p ∈ dead -> peer r !! p = None) -> inv l lab (with_service v (foldl dropPeer (hp r, g) dead) r).
Proof.
  induction dead as [|p dead IH]; intros r v g Hinv Hv Hd; cbn [foldl].
  - unfold with_service. cbn [fst snd]. rewrite insert_id by done. by destruct r.
  - destruct (dropPeer_service l lab r v g p Hinv Hv ltac:(set_solver)) as [Hinv1 _].
    destruct (dropPeer (hp r, g) p) as [h1 g1]. set (r1 := with_service v (h1, g1) r) in *.
    specialize (IH r1 v g1 Hinv1 ltac:(apply lookup_insert_eq) ltac:(set_solver)).
    assert (with_service v (foldl dropPeer (hp r1, g1) dead) r1 = with_service v (foldl dropPeer (h1, g1) dead) r) as <-;
      [|done].
    unfold with_service, r1, with_service, set_tables, set_hp. simpl. by rewrite insert_insert_eq.
Qed.

Lemma dropAll_protocol l lab dead : forall r v g, inv l lab r -> proto r !! v = Some g ->
  (forall p, p ∈ dead -> peer r !! p = None) -> inv l lab (with_protocol v (foldl dropPeer (hp r, g) dead) r).
Proof.
  induction dead as [|p dead IH]; intros r v g Hinv Hv Hd; cbn [foldl].
  - unfold with_protocol. cbn [fst snd]. rewrite insert_id by done. by destruct r.
  - destruct (dropPeer_protocol l lab r v g p Hinv Hv ltac:(set_solver)) as [Hinv1 _].
    destruct (dropPeer (hp r, g) p) as [h1 g1]. set (r1 := with_protocol v (h1, g1) r) in *.
    specialize (IH r1 v g1 Hinv1 ltac:(apply lookup_insert_eq) ltac:(set_solver)).
    assert (with_protocol v (foldl dropPeer (hp r1, g1) dead) r1 = with_protocol v (foldl dropPeer (h1, g1) dead) r) as <-;
      [|done].
    unfold with_protocol, r1, with_protocol, set_tables, set_hp. simpl. by rewrite insert_insert_eq.
Qed.

Definition entries_of {A} (m : gmap string A) (es : list (string * A)) : Prop :=
  NoDup es.*1 /\ forall k x, (k, x) ∈ es -> m !! k = Some x.

Lemma entries_range {A} (m : gmap string A) site : entries_of m (range_map site m).
Proof. split; [apply NoDup_range_keys|]. intros k x. apply elem_of_range. Qed.

Lemma entries_cons {A} (m m' : gmap string A) k x es : entries_of m ((k, x) :: es) ->
  (forall j, j <> k -> m' !! j = m !! j) -> m !! k = Some x /\ entries_of m' es.
Proof.
  intros [Hnd He] Hm. simpl in Hnd. apply NoDup_cons in Hnd as [Hk Hnd]. split; [apply He; set_solver|].
  split; [done|]. intros j y Hj. rewrite Hm; [apply He; set_solver|].
  intros ->. apply Hk. by apply (list_elem_of_fmap_2 fst) in Hj.
Qed.

(** What the collection of protocols and of peers leaves alone. *)
Lemma gcProto_frame r q g : (forall j, j <> q -> proto (gcProto r (q, g)) !! j = proto r !! j) /\
  peer (gcProto r (q, g)) = peer r /\ svc (gcProto r (q, g)) = svc r /\ next (gcProto r (q, g)) = next r /\
  stickyPeer (gcProto r (q, g)) = stickyPeer r /\
  (forall j, proto (gcProto r (q, g)) !! j <> proto r !! j -> proto (gcProto r (q, g)) !! j = None).
Proof.
  unfold gcProto. case_bool_decide; [done|]. destruct (unused r (group g)); [|done]. simpl.
  split_and!; try done; intros j; destruct (decide (j = q)) as [->|];
    rewrite ?lookup_delete_eq, ?lookup_delete_ne by done; done.
Qed.

Lemma gcPeer_frame r dead p a : (forall j, j <> p -> peer (gcPeer (r, dead) (p, a)).1 !! j = peer r !! j) /\
  proto (gcPeer (r, dead) (p, a)).1 = proto r /\ svc (gcPeer (r, dead) (p, a)).1 = svc r /\
  next (gcPeer (r, dead) (p, a)).1 = next r /\ stickyPeer (gcPeer (r, dead) (p, a)).1 = stickyPeer r /\
  (forall d, d ∈ (gcPeer (r, dead) (p, a)).2 ->
     peer (gcPeer (r, dead) (p, a)).1 !! d = None \/ d ∈ dead) /\
  (forall j, peer r !! j = None -> peer (gcPeer (r, dead) (p, a)).1 !! j = None).
Proof.
  unfold gcPeer. case_bool_decide; [split_and!; auto|]. destruct (unused r a); [|split_and!; auto]. simpl.
  split_and!; try done.
  - intros j Hj. by rewrite lookup_delete_ne.
  - intros d [Hd|Hd]%elem_of_app; [by right|]. apply list_elem_of_singleton in Hd as ->.
    left. apply lookup_delete_eq.
  - intros j Hj. destruct (decide (j = p)) as [->|]; [apply lookup_delete_eq|by rewrite lookup_delete_ne].
Qed.

Lemma gcProtos_inv l lab es : forall r, inv l lab r -> entries_of (proto r) es ->
  inv l lab (foldl gcProto r es) /\ next (foldl gcProto r es) = next r.
Proof.
  induction es as [|[q g] es IH]; intros r Hinv He; [done|]. cbn [foldl].
  destruct (gcProto_frame r q g) as (F1 & _ & _ & F4 & _). destruct (entries_cons _ _ _ _ _ He F1) as [Hq He'].
  destruct (IH _ (gcProto_inv l lab r q g Hinv Hq) He') as [H1 H2]. by rewrite H2.
Qed.

Lemma gcPeers_inv l lab es : forall r dead, inv l lab r -> entries_of (peer r) es ->
  (forall p, p ∈ dead -> peer r !! p = None) ->
  inv l lab (foldl gcPeer (r, dead) es).1 /\ next (foldl gcPeer (r, dead) es).1 = next r /\
  forall p, p ∈ (foldl gcPeer (r, dead) es).2 -> peer (foldl gcPeer (r, dead) es).1 !! p = None.
Proof.
  induction es as [|[p a] es IH]; intros r dead Hinv He Hd; [done|]. cbn [foldl].
  destruct (gcPeer_frame r dead p a) as (F1 & _ & _ & F4 & _ & F6 & F7). destruct (entries_cons _ _ _ _ _ He F1) as [Hq He'].
  pose proof (gcPeer_inv l lab r dead p a Hinv Hq) as Hinv1. destruct (gcPeer (r, dead) (p, a)) as [r1 dead1].
  cbn [fst snd] in *. destruct (IH r1 dead1 Hinv1 He') as (H1 & H2 & H3).
  - intros d Hdd. destruct (F6 d Hdd) as [|Hd0]; [done|]. auto.
  - split_and!; [done|congruence|done].
Qed.

Lemma dropServices_inv l lab dead es : forall r h m, let view h m := set_tables m (proto r) (peer r) (set_hp h r) in
  inv l lab (view h m) -> entries_of m es -> (forall p, p ∈ dead -> peer r !! p = None) ->
  inv l lab (view (foldl (dropPeers dead) (h, m) es).1 (foldl (dropPeers dead) (h, m) es).2).
Proof.
  induction es as [|[v g] es IH]; intros r h m view Hinv He Hd; [done|]. cbn [foldl]. unfold dropPeers at 2 4.
  cbn [fst snd]. pose proof (entries_cons m m v g es He ltac:(done)) as [Hv _].
  pose proof (dropAll_service l lab dead (view h m) v g Hinv Hv Hd) as Hinv1. cbn [hp view set_tables set_hp] in Hinv1.
  destruct (foldl dropPeer (h, g) dead) as [h1 g1]. apply IH; [exact Hinv1| |done].
  apply (entries_cons m _ v g es He). intros j Hj. by rewrite lookup_insert_ne.
Qed.

Lemma dropProtocols_inv l lab dead es : forall r h m, let view h m := set_tables (svc r) m (peer r) (set_hp h r) in
  inv l lab (view h m) -> entries_of m es -> (forall p, p ∈ dead -> peer r !! p = None) ->
  inv l lab (view (foldl (dropPeers dead) (h, m) es).1 (foldl (dropPeers dead) (h, m) es).2).
Proof.
  induction es as [|[v g] es IH]; intros r h m view Hinv He Hd; [done|]. cbn [foldl]. unfold dropPeers at 2 4.
  cbn [fst snd]. pose proof (entries_cons m m v g es He ltac:(done)) as [Hv _].
  pose proof (dropAll_protocol l lab dead (view h m) v g Hinv Hv Hd) as Hinv1. cbn [hp view set_tables set_hp] in Hinv1.
  destruct (foldl dropPeer (h, g) dead) as [h1 g1]. apply IH; [exact Hinv1| |done].
  apply (entries_cons m _ v g es He). intros j Hj. by rewrite lookup_insert_ne.
Qed.

Lemma gc_inv l lab r : inv l lab r -> inv l lab (gc r) /\ next (gc r) = next r.
Proof.
  intros Hinv. unfold gc.
  destruct (gcProtos_inv l lab (range_map 0 (proto r)) r Hinv (entries_range _ _)) as [Hinv1 N1].
  set (r1 := foldl gcProto r (range_map 0 (proto r))) in *.
  destruct (gcPeers_inv l lab (range_map 1 (peer r1)) r1 [] Hinv1 (entries_range _ _)) as (Hinv2 & N2 & Hdead);
    [intros p H; by apply not_elem_of_nil in H|].
  destruct (foldl gcPeer (r1, []) (range_map 1 (peer r1))) as [r2 dead]. cbn [fst snd] in *.
  assert (inv l lab (set_tables (svc r2) (proto r2) (peer r2) (set_hp (hp r2) r2))) as Hid by (by destruct r2).
  pose proof (dropServices_inv l lab dead (range_map 2 (svc r2)) r2 (hp r2) (svc r2) Hid (entries_range _ _) Hdead) as Hinv3.
  destruct (foldl (dropPeers dead) (hp r2, svc r2) (range_map 2 (svc r2))) as [h3 sv]. cbn [fst snd] in Hinv3.
  set (r3 := set_tables sv (proto r2) (peer r2) (set_hp h3 r2)) in *.
  pose proof (dropProtocols_inv l lab dead (range_map 3 (proto r2)) r3 h3 (proto r2) ltac:(done) (entries_range _ _) Hdead) as Hinv4.
  destruct (foldl (dropPeers dead) (h3, proto r2) (range_map 3 (proto r2))) as [h4 pr].
  split; [done|]. simpl. congruence.
Qed.

(** *** What is collected *)

Definition stays {A} (sticky : gset string) (r : resourceManager) (addr : A -> nat) (k : string) (x : A) : bool :=
  bool_decide (k ∈ sticky) || negb (unused r (addr x)).

Lemma table_hp lab r a ro : structure lab r -> open_at (hp r) lab a ro ->
  ((exists q, ro = RProtocol q) \/ exists p, ro = RPeer p) ->
  forall y, y <> a -> y <> 0%nat -> doneUnlocked (hp r) a !! y = hp r !! y.
Proof.
  intros HS Ho Hro y Hy Hy0. pose proof Ho as (s & Ha & Hd & How & El).
  assert (edges s = [0%nat]) as He.
  { pose proof (s_shape _ _ HS a s Ha Hd) as Hsh. rewrite El in Hsh. by destruct Hro as [[q ->]|[p ->]]. }
  apply (closed_heap (hp r) a s 0); try done. destruct (s_root _ _ HS) as (R0 & _). eapply role_ne; [exact R0|exact Ho|].
  by destruct Hro as [[q ->]|[p ->]].
Qed.

Lemma gcProto_hp lab r q g : structure lab r -> proto r !! q = Some g ->
  forall y, y <> group g -> y <> 0%nat -> hp (gcProto r (q, g)) !! y = hp r !! y.
Proof.
  intros HS Hq y H1 H2. unfold gcProto. case_bool_decide; [done|]. destruct (unused r (group g)); [|done].
  destruct (s_proto _ _ HS q g Hq) as [Ho _]. simpl. apply (table_hp lab r _ (RProtocol q)); eauto.
Qed.

Lemma gcPeer_hp lab r dead p a : structure lab r -> peer r !! p = Some a ->
  forall y, y <> a -> y <> 0%nat -> hp (gcPeer (r, dead) (p, a)).1 !! y = hp r !! y.
Proof.
  intros HS Hp y H1 H2. unfold gcPeer. case_bool_decide; [done|]. destruct (unused r a); [|done].
  pose proof (s_peer _ _ HS p a Hp) as Ho. simpl. apply (table_hp lab r _ (RPeer p)); eauto.
Qed.

Lemma gcProtos_exact l lab es : forall r, inv l lab r -> entries_of (proto r) es ->
  let r' := foldl gcProto r es in
  (forall q g, (q, g) ∈ es -> proto r' !! q = if stays (stickyProto r) r group q g then Some g else None) /\
  (forall q, q ∉ es.*1 -> proto r' !! q = proto r !! q) /\
  (forall a p, open_at (hp r) lab a (RPeer p) -> hp r' !! a = hp r !! a) /\
  peer r' = peer r /\ stickyPeer r' = stickyPeer r.
Proof.
  induction es as [|[q g] es IH]; intros r Hinv He; [split_and!; try done; intros q g Hq; by apply not_elem_of_nil in Hq|].
  pose proof (inv_structure _ _ _ Hinv) as HS. destruct (gcProto_frame r q g) as (F1 & F2 & _ & _ & F5 & _).
  destruct (entries_cons _ _ _ _ _ He F1) as [Hq He']. pose proof (gcProto_inv l lab r q g Hinv Hq) as Hinv1.
  pose proof (gcProto_hp lab r q g HS Hq) as Hhp. destruct (s_proto _ _ HS q g Hq) as [Og _].
  destruct (s_root _ _ HS) as (R0 & _).
  destruct (IH _ Hinv1 He') as (I1 & I2 & I3 & I4 & I5). cbn [foldl]. cbv zeta in I1, I2, I3, I4, I5 |- *.
  assert (stickyProto (gcProto r (q, g)) = stickyProto r) as Est.
  { unfold gcProto. case_bool_decide; [done|]. by destruct (unused r (group g)). }
  assert (q ∉ es.*1) as Hqes by (destruct He as [Hnd _]; simpl in Hnd; by apply NoDup_cons in Hnd as [? _]).
  split_and!.
  - intros k g' [E|Hk]%elem_of_cons.
    + injection E as -> ->. rewrite I2 by done. unfold stays, gcProto. case_bool_decide; [done|].
      destruct (unused r (group g)); simpl; [by rewrite lookup_delete_eq|done].
    + rewrite (I1 k g' Hk). unfold stays. rewrite Est. do 2 f_equal. unfold unused.
      assert (k <> q) as Hne by (intros ->; apply Hqes; by apply (list_elem_of_fmap_2 fst) in Hk).
      assert (proto r !! k = Some g') as Hkr by (rewrite <-F1 by done; by apply He').
      destruct (s_proto _ _ HS k g' Hkr) as [Ok _]. rewrite Hhp; [done| |].
      * eapply role_ne; [exact Ok|exact Og|congruence].
      * eapply role_ne; [exact Ok|exact R0|done].
  - intros k Hk. simpl in Hk. rewrite I2 by set_solver. apply F1. set_solver.
  - intros a p Ho. assert (hp (gcProto r (q, g)) !! a = hp r !! a) as E.
    { apply Hhp; [eapply role_ne; [exact Ho|exact Og|done]|eapply role_ne; [exact Ho|exact R0|done]]. }
    rewrite (I3 a p); [done|]. destruct Ho as (s & Hs & Ho). exists s. by rewrite E.
  - by rewrite I4.
  - by rewrite I5.
Qed.

Lemma gcPeers_exact l lab es : forall r dead, inv l lab r -> entries_of (peer r) es ->
  let r' := (foldl gcPeer (r, dead) es).1 in
  (forall p a, (p, a) ∈ es -> peer r' !! p = if stays (stickyPeer r) r id p a then Some a else None) /\
  (forall p, p ∉ es.*1 -> peer r' !! p = peer r !! p) /\ proto r' = proto r.
Proof.
  induction es as [|[p a] es IH]; intros r dead Hinv He; [split_and!; try done; intros q g Hq; by apply not_elem_of_nil in Hq|].
  pose proof (inv_structure _ _ _ Hinv) as HS. destruct (gcPeer_frame r dead p a) as (F1 & F2 & _ & _ & F5 & _).
  destruct (entries_cons _ _ _ _ _ He F1) as [Hq He']. pose proof (gcPeer_inv l lab r dead p a Hinv Hq) as Hinv1.
  pose proof (gcPeer_hp lab r dead p a HS Hq) as Hhp. pose proof (s_peer _ _ HS p a Hq) as Og.
  destruct (s_root _ _ HS) as (R0 & _).
  assert (p ∉ es.*1) as Hqes by (destruct He as [Hnd _]; simpl in Hnd; by apply NoDup_cons in Hnd as [? _]).
  assert (peer (gcPeer (r, dead) (p, a)).1 !! p = if stays (stickyPeer r) r id p a then Some a else None) as E0.
  { unfold stays, gcPeer, id. case_bool_decide; [done|]. destruct (unused r a); simpl; [by rewrite lookup_delete_eq|done]. }
  destruct (gcPeer (r, dead) (p, a)) as [r1 dead1] eqn:E1. cbn [fst] in *.
  destruct (IH r1 dead1 Hinv1 He') as (I1 & I2 & I3). cbn [foldl]. rewrite E1. cbv zeta in I1, I2, I3 |- *.
  split_and!.
  - intros k g' [E|Hk]%elem_of_cons; [injection E as -> ->; by rewrite I2|].
    rewrite (I1 k g' Hk). unfold stays. rewrite F5. do 2 f_equal. unfold unused.
    assert (k <> p) as Hne by (intros ->; apply Hqes; by apply (list_elem_of_fmap_2 fst) in Hk).
    assert (peer r !! k = Some g') as Hkr by (rewrite <-F1 by done; by apply He').
    pose proof (s_peer _ _ HS k g' Hkr) as Ok. unfold id. rewrite Hhp; [done| |].
    + eapply role_ne; [exact Ok|exact Og|congruence].
    + eapply role_ne; [exact Ok|exact R0|done].
  - intros k Hk. simpl in Hk. rewrite I2 by set_solver. apply F1. set_solver.
  - by rewrite I3.
Qed.

Lemma dropPeers_keys dead es : forall h m, entries_of m es ->
  forall k, is_Some ((foldl (dropPeers dead) (h, m) es).2 !! k) <-> is_Some (m !! k).
Proof.
  induction es as [|[v g] es IH]; intros h m He k; [done|]. cbn [foldl]. unfold dropPeers at 2. cbn [fst snd].
  pose proof (entries_cons m m v g es He ltac:(done)) as [Hv _].
  destruct (foldl dropPeer (h, g) dead) as [h1 g1]. rewrite IH.
  - destruct (decide (k = v)) as [->|]; [rewrite lookup_insert_eq, Hv; split; eauto|by rewrite lookup_insert_ne].
  - apply (entries_cons m _ v g es He). intros j Hj. by rewrite lookup_insert_ne.
Qed.

Lemma gc_exact l lab r : inv l lab r ->
  (forall p a, peer (gc r) !! p = Some a <-> peer r !! p = Some a /\ stays (stickyPeer r) r id p a = true) /\
  (forall q, is_Some (proto (gc r) !! q) <-> exists g, proto r !! q = Some g /\ stays (stickyProto r) r group q g = true).
Proof.
  intros Hinv. unfold gc. pose proof (entries_range (proto r) 0) as He0.
  pose proof (gcProtos_inv l lab (range_map 0 (proto r)) r Hinv He0) as [Hinv1 _].
  destruct (gcProtos_exact l lab (range_map 0 (proto r)) r Hinv He0) as (P1 & P2 & P3 & P4 & P5).
  set (r1 := foldl gcProto r (range_map 0 (proto r))) in *. cbv zeta in *. pose proof (entries_range (peer r1) 1) as He1.
  destruct (gcPeers_exact l lab (range_map 1 (peer r1)) r1 [] Hinv1 He1) as (Q1 & Q2 & Q3). cbv zeta in *.
  destruct (foldl gcPeer (r1, []) (range_map 1 (peer r1))) as [r2 dead]. cbn [fst snd] in *.
  destruct (foldl (dropPeers dead) (hp r2, svc r2) (range_map 2 (svc r2))) as [h3 sv].
  pose proof (dropPeers_keys dead (range_map 3 (proto r2)) h3 (proto r2) (entries_range _ _)) as K.
  destruct (foldl (dropPeers dead) (h3, proto r2) (range_map 3 (proto r2))) as [h4 pr].
  cbn [peer proto set_tables set_hp snd] in *. split.
  - intros p a. rewrite P4 in Q1, Q2, He1.
    assert (forall a0, peer r !! p = Some a0 -> stays (stickyPeer r1) r1 id p a0 = stays (stickyPeer r) r id p a0) as Est.
    { intros a0 Hp0. unfold stays. rewrite P5. do 2 f_equal. unfold unused, id.
      by rewrite (P3 a0 p (s_peer _ _ (inv_structure _ _ _ Hinv) p a0 Hp0)). }
    destruct (peer r !! p) as [a0|] eqn:Ep.
    + rewrite (Q1 p a0) by (by apply elem_of_range). rewrite (Est a0 eq_refl).
      destruct (stays (stickyPeer r) r id p a0) eqn:Es; split; try done.
      * intros [= <-]. done.
      * by intros [? _].
      * intros [[= <-] ?]. congruence.
    + rewrite Q2, Ep; [split; [done|by intros [? _]]|].
      intros [[p' a'] [E Hin]]%list_elem_of_fmap. simpl in E. subst p'. apply elem_of_range in Hin. congruence.
  - intros q. rewrite K, Q3. destruct (proto r !! q) as [g|] eqn:Eq.
    + rewrite (P1 q g) by (by apply elem_of_range).
      destruct (stays (stickyProto r) r group q g) eqn:Es; split.
      * intros _. by exists g.
      * intros _. by exists g.
      * intros [x Hx]. done.
      * intros (g' & [= <-] & E). congruence.
    + rewrite P2, Eq; [split; [by intros [? ?]|by intros (? & ? & _)]|].
      intros [[p' a'] [E Hin]]%list_elem_of_fmap. simpl in E. subst p'. apply elem_of_range in Hin. congruence.
Qed.
End collection.

(** ** Memory and spans *)

(** [resourceScope.ReserveMemory], [ReleaseMemory] and [BeginSpan], of any scope of the
    manager, and [Done] of a span. *)
Definition reserveMemoryAt (a : nat) (size prio : Z) (r : resourceManager) : resourceManager * option scopeError :=
  onScopes (fun h => ReserveMemory h a size prio) r.
Definition releaseMemoryAt (a : nat) (size : Z) (r : resourceManager) : resourceManager :=
  set_hp (ReleaseMemory (hp r) a size) r.
Definition beginSpanAt (a : nat) (r : resourceManager) : resourceManager * (scopeError + nat) :=
  match BeginSpan (hp r) a (next r) with
  | (h, None) =>
    (mkManager h (S (next r)) (system r) (transient r) (allowlistedSystem r) (allowlistedTransient r)
       (svc r) (proto r) (peer r) (stickyProto r) (stickyPeer r) (connId r) (streamId r) (limiter r)
       (conns r) (streams r), inr (next r))
  | (h, Some e) => (set_hp h r, inl e)
  end.
Definition spanDone (a : nat) (r : resourceManager) : resourceManager := set_hp (doneUnlocked (hp r) a) r.

Lemma beginSpan_settled l lab r a : inv l lab r -> is_Some (hp r !! a) -> settled l lab r (beginSpanAt a r).1 /\
  forall n, (beginSpanAt a r).2 = inr n -> exists lab', inv l lab' (beginSpanAt a r).1 /\ lab' n = RSpan.
Proof.
  intros [HS Hg] [s Ha]. assert ((a < next r)%nat) as Hlt by (apply (s_next _ _ HS); eauto).
  assert (hp r !! next r = None) as Hn.
  { apply eq_None_not_Some. intros H%(s_next _ _ HS). lia. }
  unfold beginSpanAt. destruct (BeginSpan (hp r) a (next r)) as [h [e|]] eqn:E.
  { assert (h = hp r) as ->.
    { unfold BeginSpan in E. rewrite Ha in E. destruct (done s); by simplify_eq. }
    split; [|done]. cbn [fst]. rewrite set_hp_id. by apply settled_same. }
  destruct (good_span l rootBase (hp r) a (next r) s h Hg Ha Hn Hlt E) as (Hg' & Hd & _).
  unfold BeginSpan in E. rewrite Ha, Hd in E. injection E as E. unfold newResourceScopeSpan in E.
  set (s' := mkScope _ _ _ _ _ _ _) in E at 2. set (sp := mkScope _ _ _ _ _ _ _) in E.
  set (lab' := fun x => if bool_decide (x = next r) then RSpan else lab x).
  assert (forall x, (x < next r)%nat -> lab' x = lab x) as Hlab.
  { intros x Hx. unfold lab'. rewrite bool_decide_eq_false_2; [done|lia]. }
  assert (lab' (next r) = RSpan) as Hlabn by (unfold lab'; by rewrite bool_decide_eq_true_2).
  assert (forall x t, hp r !! x = Some t -> exists t', h !! x = Some t' /\ same_place t t') as Hfw.
  { intros x t Hx. rewrite <-E, lookup_insert_ne by congruence. destruct (decide (x = a)) as [->|].
    - rewrite lookup_insert_eq. assert (t = s) as -> by congruence. exists s'. by unfold s'.
    - rewrite lookup_insert_ne by done. exists t. by split. }
  assert (forall x t', h !! x = Some t' -> x <> next r -> exists t, hp r !! x = Some t /\ same_place t t') as Hbw.
  { intros x t' Hx Hne. rewrite <-E, lookup_insert_ne in Hx by done. destruct (decide (x = a)) as [->|].
    - rewrite lookup_insert_eq in Hx. injection Hx as <-. by exists s.
    - rewrite lookup_insert_ne in Hx by done. exists t'. by split. }
  assert (forall x ro, open_at (hp r) lab x ro -> open_at h lab' x ro) as Hop.
  { intros x ro (t & Hx & Hdt & Ho & El). destruct (Hfw x t Hx) as (t' & Hx' & E1 & E2 & _). exists t'.
    rewrite E1, E2, Hlab; [done|]. apply (s_next _ _ HS). eauto. }
  match goal with |- settled _ _ _ (?r0, _).1 /\ _ => set (r' := r0) end.
  assert (inv l lab' r') as Hinv.
  { split; [|done]. destruct HS as [S1 S2 S3 S4 S5 S6 S7 S8 S9 S10]. split; simpl; [done|..].
    - intros x. rewrite Nat.lt_succ_r, Nat.le_lteq, <-S2. split.
      + intros [t Ht]. destruct (decide (x = next r)) as [->|]; [by right|left]. destruct (Hbw x t Ht) as (? & ? & _); eauto.
      + intros [[t Ht]| ->]; [destruct (Hfw x t Ht) as (? & ? & _); eauto|]. rewrite <-E, lookup_insert_eq. eauto.
    - naive_solver.
    - eauto.
    - intros v g Hv. destruct (S5 v g Hv). eauto.
    - intros v g Hv. destruct (S6 v g Hv). eauto.
    - intros x c Hc. destruct (S7 x c Hc) as [[t Hx] El]. rewrite Hlab by (apply S2; eauto).
      destruct (Hfw x t Hx) as (? & ? & _). eauto.
    - intros x c Hc. destruct (S8 x c Hc) as [[t Hx] El]. rewrite Hlab by (apply S2; eauto).
      destruct (Hfw x t Hx) as (? & ? & _). eauto.
    - intros x t Hx Hl. destruct (decide (x = next r)) as [->|Hne]; [done|].
      destruct (Hbw x t Hx Hne) as (t0 & Hx0 & _ & -> & _). apply (S9 x t0 Hx0). rewrite <-Hlab; [done|]. apply S2. eauto.
    - intros x t Hx Hdt. destruct (decide (x = next r)) as [->|Hne].
      + rewrite Hlabn. rewrite <-E, lookup_insert_eq in Hx. by injection Hx as <-.
      + destruct (Hbw x t Hx Hne) as (t0 & Hx0 & Ed & _ & ->). rewrite Hlab by (apply S2; eauto).
        assert (shape r (lab x) x (edges t0)) as Hsh0 by (apply S10; [done|congruence]). by destruct (lab x). }
  split.
  - exists lab'. split_and!; [done..|simpl; lia].
  - intros n [= <-]. by exists lab'.
Qed.

Lemma inv_return c d `{!ChargeLaws c d} l lab r a : inv l lab r -> is_Some (hp r !! a) -> (forall f, get f d <= l a f) ->
  inv (returned l a d) lab (set_hp (returnScope (S a) c (hp r) a) r).
Proof.
  intros [HS Hg] Ha Hd. destruct (good_return c d l rootBase (hp r) a Hg Ha Hd) as [Hg' Ho].
  split; [|done]. apply structure_same; [by apply only_same|done].
Qed.

(** ** The manager at the start *)

Section start.
Context (limits : ConcreteLimitConfig) (Hlim : config_ok limits).

Definition initial : ledger := fun _ _ => 0.

Definition firstRoles (a : nat) : role :=
  match a with 0%nat => RSystem | 1%nat => RTransient | 2%nat => RAlSystem | _ => RAlTransient end.

Lemma empty_shifted : shifted initial (fun _ => 0) ∅ stat_zero (fun _ => 0) (fun _ => 0).
Proof.
  split; [split|..]; try (intros *; by rewrite lookup_empty); try done.
Qed.

(** A scope of the manager, with the reference the manager keeps. *)
Lemma root_shifted h n lim es txt r : shifted initial (fun _ => 0) h stat_zero (fun _ => 0) r ->
  h !! n = None -> limit_ok lim -> NoDup es -> plain h es -> r n = 0 ->
  shifted initial (fun _ => 0) (IncRef (newResourceScope h n lim es txt) n) stat_zero (fun _ => 0)
    (fun x => r x + occ x [n] * 1).
Proof.
  intros Hsh Hn Hl Hnd Hp Hr.
  pose proof (shifted_newScope initial (fun _ => 0) h n lim es txt stat_zero (fun _ => 0) r Hsh Hn Hl Hnd Hp eq_refl Hr) as H1.
  apply (shift_ref initial (fun _ => 0) stat_zero stat_ok_zero _ n 1 (fun _ => 0) r H1).
  unfold newResourceScope. rewrite lookup_insert_eq. eauto.
Qed.

Lemma start_heap a s : hp (NewResourceManager limits) !! a = Some s ->
  (a < 4)%nat /\ done s = false /\ owner s = None /\
  edges s = match a with 1%nat => [0%nat] | 3%nat => [2%nat] | _ => [] end.
Proof.
  unfold NewResourceManager. cbn [hp set_hp]. unfold newResourceScope, IncRef. cbn [foldl].
  destruct a as [|[|[|[|a]]]]; intros H; repeat first [rewrite lookup_alter_eq in H|rewrite lookup_insert_eq in H
    |rewrite lookup_alter_ne in H by done|rewrite lookup_insert_ne in H by done];
    try (simpl in H; injection H as <-; simpl; split_and!; (done || lia)).
  by rewrite lookup_empty in H.
Qed.

Lemma start_some a : (a < 4)%nat -> is_Some (hp (NewResourceManager limits) !! a).
Proof.
  unfold NewResourceManager. cbn [hp set_hp]. unfold newResourceScope, IncRef. cbn [foldl].
  intros Ha. destruct a as [|[|[|[|a]]]]; [..|lia]; repeat first [rewrite lookup_alter_eq|rewrite lookup_insert_eq
    |rewrite lookup_alter_ne by done|rewrite lookup_insert_ne by done]; eauto.
Qed.

Lemma start_open a : (a < 4)%nat -> open_at (hp (NewResourceManager limits)) firstRoles a (firstRoles a).
Proof.
  intros Ha. destruct (start_some a Ha) as [s Hs]. destruct (start_heap a s Hs) as (_ & ? & ? & _). exists s. done.
Qed.

Lemma start_good : good initial rootBase (hp (NewResourceManager limits)).
Proof.
  destruct Hlim as [H1 _]. rewrite !Forall_cons in H1. destruct H1 as (L0 & L1 & L2 & L3 & _).
  pose proof (root_shifted ∅ 0 (cSystem limits) [] "system" _ empty_shifted (lookup_empty _) L0 (NoDup_nil_2)
    ltac:(intros e He; by apply not_elem_of_nil in He) eq_refl) as S1.
  set (h1 := IncRef _ _) in S1.
  assert (plain h1 [0%nat]) as P1.
  { intros e He. apply list_elem_of_singleton in He as ->. eexists. by vm_compute. }
  pose proof (root_shifted h1 1 (cTransient limits) [0%nat] "transient" _ S1 eq_refl L1 (NoDup_singleton _) P1 eq_refl) as S2.
  set (h2 := IncRef _ _) in S2.
  pose proof (root_shifted h2 2 (cAllowlistedSystem limits) [] "allowlistedSystem" _ S2 eq_refl L2 (NoDup_nil_2)
    ltac:(intros e He; by apply not_elem_of_nil in He) eq_refl) as S3.
  set (h3 := IncRef _ _) in S3.
  assert (plain h3 [2%nat]) as P3.
  { intros e He. apply list_elem_of_singleton in He as ->. eexists. by vm_compute. }
  pose proof (root_shifted h3 3 (cAllowlistedTransient limits) [2%nat] "allowlistedTransient" _ S3 eq_refl L3
    (NoDup_singleton _) P3 eq_refl) as S4.
  change (IncRef (newResourceScope h3 3 (cAllowlistedTransient limits) [2%nat] "allowlistedTransient") 3) with
    (hp (NewResourceManager limits)) in S4.
  apply (good_shifted _ _ _ stat_zero). destruct S4 as [W G L R F]. split; [done|done|done| |].
  - intros x Hx. rewrite (R x Hx). destruct Hx as [s Hs]. destruct (start_heap x s Hs) as [Hlt _].
    assert (0 + occ x [0%nat] * 1 + occ x [1%nat] * 1 + occ x [2%nat] * 1 + occ x [3%nat] * 1 = rootBase x) as <-; [|lia].
    destruct x as [|[|[|[|x]]]]; (by vm_compute) || lia.
  - intros x Hx. split; [done|]. unfold rootBase. rewrite bool_decide_eq_false_2; [done|]. intros Hr.
    assert (x < 4)%nat as Hlt by (unfold roots in Hr; each_edge Hr; lia).
    destruct (start_some x Hlt) as [s Hs]. congruence.
Qed.

Lemma start_inv : inv initial firstRoles (NewResourceManager limits).
Proof.
  split; [|apply start_good]. split; simpl; try done.
  - intros a. split; [|apply start_some]. intros [s Hs]. by destruct (start_heap a s Hs).
  - split_and!; [apply (start_open 0)|apply (start_open 1)|apply (start_open 2)|apply (start_open 3)]; lia.
  - intros a s Ha _. by destruct (start_heap a s Ha) as (_ & _ & ? & _).
  - intros b s Hb _. destruct (start_heap b s Hb) as (Hlt & _ & _ & ->).
    destruct b as [|[|[|[|b]]]]; try done. lia.
Qed.
End start.

(** ** Histories

    What libp2p and the protocols do with a manager, in any order: the ledger records what
    was taken and not yet given back.  A connection is attached to its peer once, and
    memory is released by who reserved it; a scope that is closed is not attached. *)

Section history.
Context (limits : ConcreteLimitConfig) (Hlim : config_ok limits).
Context (allowed : string -> bool) (allowedPeerAddr : string -> string -> bool).
Context `{MR : !MapRange}.

Definition openScope (r : resourceManager) (a : nat) (s : scope) : Prop := hp r !! a = Some s /\ done s = false.

(** Not attached yet, and still charged where it was opened. *)
Definition asOpened (c : connectionScope) (s : scope) : Prop :=
  conn_peer c <> None \/ edges s = (if isAllowlisted c then [3; 2]%nat else [1; 0]%nat).

Inductive step : ledger * resourceManager -> ledger * resourceManager -> Prop :=
| OpensConnection l r rateOk dir usefd ep ip r' res :
    openConnection limits allowed rateOk dir usefd ep ip r = (r', res) ->
    step (l, r) (match res with inr a => ledgered l a (conn_stat dir usefd) | inl _ => l end, r')
| SetsPeer l r a c s p : conns r !! a = Some c -> openScope r a s -> asOpened c s ->
    step (l, r) (l, (SetPeer limits allowedPeerAddr a p r).1)
| ClosesConnection l r a : step (l, r) (l, connDone a r)
| OpensStream l r p dir r' res : OpenStream limits p dir r = (r', res) ->
    step (l, r) (match res with inr a => ledgered l a (dir_stat dir) | inl _ => l end, r')
| SetsProtocol l r a t s q : streams r !! a = Some t -> openScope r a s ->
    step (l, r) (l, (SetProtocol limits a q r).1)
| SetsService l r a t s v : streams r !! a = Some t -> openScope r a s ->
    step (l, r) (l, (SetService limits a v r).1)
| ClosesStream l r a t : streams r !! a = Some t -> step (l, r) (l, streamDone a r)
| Reserves l r a size prio r' err : is_Some (hp r !! a) -> size_ok size -> 0 <= prio <= 255 ->
    reserveMemoryAt a size prio r = (r', err) ->
    step (l, r) (match err with None => ledgered l a (mkStat size 0 0 0 0 0) | Some _ => l end, r')
| Releases l r a size : is_Some (hp r !! a) -> size_ok size -> size <= l a FMemory ->
    step (l, r) (returned l a (mkStat size 0 0 0 0 0), releaseMemoryAt a size r)
| BeginsSpan l r a : is_Some (hp r !! a) -> step (l, r) (l, (beginSpanAt a r).1)
| ClosesSpan l r a s o : hp r !! a = Some s -> owner s = Some o -> step (l, r) (l, spanDone a r)
| Collects l r : step (l, r) (l, gc r).

Definition history (st : ledger * resourceManager) : Prop :=
  rtc step (initial, NewResourceManager limits) st.

Lemma open_mover lab r a s : structure lab r -> openScope r a s -> is_leaf (lab a) = true -> lab a <> RSpan ->
  mover lab (hp r) a (used (rc s)) (edges s).
Proof. intros HS [Ha Hd] Hl Hs. exists s. split_and!; try done. by apply (s_owner _ _ HS a s Ha). Qed.

Lemma kept_settled l lab r b u r' : kept l lab r b u r' -> settled l lab r r'.
Proof. intros (lab' & ? & ? & ? & _). by exists lab'. Qed.

Lemma SetPeer_settled l lab r a c s p : inv l lab r -> conns r !! a = Some c -> openScope r a s -> asOpened c s ->
  settled l lab r (SetPeer limits allowedPeerAddr a p r).1.
Proof.
  intros Hinv Hc Ho Has. pose proof (inv_structure _ _ _ Hinv) as HS. destruct (s_conn _ _ HS a c Hc) as [_ El].
  destruct (conn_peer c) as [pa|] eqn:Ep.
  { unfold SetPeer. rewrite Hc, Ep. by apply settled_same. }
  destruct Has as [Has|Has]; [done|].
  pose proof (open_mover lab r a s HS Ho ltac:(by rewrite El) ltac:(by rewrite El)) as Hm. rewrite Has in Hm.
  destruct (SetPeer_inv limits Hlim allowedPeerAddr l lab r a c _ p Hinv Hc Ep Hm) as [lab' G].
  exists lab'. destruct (SetPeer limits allowedPeerAddr a p r) as [r' err]. by destruct G as (? & ? & ? & _).
Qed.

Lemma rh_step_inv st st' lab : step st st' -> inv st.1 lab st.2 -> exists lab', inv st'.1 lab' st'.2.
Proof.
  intros Hstep Hinv. pose proof (inv_structure _ _ _ Hinv) as HS.
  assert (forall l', settled l' lab st.2 st'.2 -> l' = st'.1 -> exists lab', inv st'.1 lab' st'.2) as Hset.
  { intros l' (lab' & ? & _) <-. eauto. }
  destruct Hstep; cbn [fst snd] in *.
  - pose proof (openConnection_settled limits Hlim allowed l lab r rateOk dir usefd ep ip Hinv) as G.
    rewrite H in G. eauto.
  - eapply Hset; [by eapply SetPeer_settled|done].
  - exists lab. by apply connDone_inv.
  - pose proof (OpenStream_settled limits Hlim allowed l lab r p dir Hinv) as G. rewrite H in G. eauto.
  - destruct (s_stream _ _ HS a t H) as [_ El]. eapply Hset; [|done]. eapply kept_settled.
    by eapply (SetProtocol_kept limits Hlim), open_mover; [| | | |by rewrite El|by rewrite El].
  - destruct (s_stream _ _ HS a t H) as [_ El]. eapply Hset; [|done]. eapply kept_settled.
    by eapply (SetService_kept limits Hlim), open_mover; [| | | |by rewrite El|by rewrite El].
  - destruct (s_stream _ _ HS a t H) as [_ El]. exists lab. apply rs_inv_close; [done|by rewrite El].
  - unfold reserveMemoryAt, onScopes, ReserveMemory in *.
    destruct (chargeScope (S a) (memoryCharge size prio) (hp r) a) as [h' err'] eqn:E. injection H2 as <- <-.
    pose proof (memoryCharge_laws size prio H1 H0).
    destruct (inv_charge (memoryCharge size prio) (mkStat size 0 0 0 0 0) l lab r a h' err' Hinv H E) as [? _]. eauto.
  - pose proof (memoryCharge_laws size 0 ltac:(lia) H0). exists lab.
    apply (inv_return (memoryCharge size 0) (mkStat size 0 0 0 0 0)); [done..|].
    pose proof (good_ledger _ _ _ (inv_good _ _ _ Hinv)) as Hl. intros f. pose proof (Hl a f). by destruct f.
  - destruct (beginSpan_settled l lab r a Hinv H) as [G _]. eauto.
  - exists lab. apply rs_inv_close; [done|]. pose proof (s_owner _ _ HS a s H) as Hne.
    destruct (lab a); try done; rewrite Hne in *; done.
  - exists lab. by apply gc_inv.
Qed.

Lemma history_inv l r : history (l, r) -> exists lab, inv l lab r.
Proof.
  intros Hh. refine (rtc_ind_r (fun st => exists lab, inv st.1 lab st.2) (initial, NewResourceManager limits) _ _ _ Hh);
    [exists firstRoles; by apply start_inv|].
  intros st st' _ Hs [lab Hinv]. by eapply rh_step_inv.
Qed.

(** C5. Whatever happened, an open scope counts exactly what was taken at it, by its spans and
    by the open scopes charged to it, and its counters are within its limits. *)
Theorem accounts_balance l r a s : history (l, r) -> openScope r a s ->
  (forall f, get f (used (rc s)) = due l (hp r) f a) /\ fits (rc s).
Proof.
  intros Hh [Ha Hd]. destruct (history_inv l r Hh) as [lab [_ Hg]]. split.
  - intros f. pose proof (good_balanced _ _ _ Hg a f) as Hb. unfold alive, gap, usedOf in Hb.
    rewrite Ha, Hd in Hb. specialize (Hb eq_refl). lia.
  - by destruct (wf_sane _ (good_wf _ _ _ Hg) a s Ha).
Qed.

(** An open scope is charged to open scopes only, and its references are those of the
    scopes that are charged to it and of its spans: one that is closed, or collected, is
    not in use. *)
Theorem charged_scopes_open l r a s e : history (l, r) -> openScope r a s -> e ∈ edges s ->
  exists t, openScope r e t /\ 0 < refCnt t /\ IsUnused t = false.
Proof.
  intros Hh [Ha Hd] He. destruct (history_inv l r Hh) as [lab [HS Hg]].
  destruct (edge_open lab r a s e HS Ha Hd He) as (ro & (t & Ht & Hdt & _) & _). exists t. split; [done|].
  assert (0 < refCnt t) as Hr.
  { pose proof (good_counted _ _ _ Hg e ltac:(eauto)) as Hc. unfold refCntOf in Hc. rewrite Ht in Hc. rewrite Hc.
    assert (0 <= rootBase e) by (unfold rootBase; case_bool_decide; lia).
    pose proof (msum_ge (fun _ s => holds e s) (hp r) a s Ha ltac:(intros; apply holds_range)) as Hge.
    fold (holders (hp r) e) in Hge. unfold holds in Hge. rewrite Hd in Hge. unfold occ in Hge.
    rewrite bool_decide_eq_true_2 in Hge by done. destruct (is_owner e s); lia. }
  split; [done|]. unfold IsUnused. rewrite Hdt. by destruct (Z.ltb_spec 0 (refCnt t)); [|lia].
Qed.

(** Everything is given back: no connection, stream or span is open, and nobody holds
    anything at a scope of the manager itself. *)
Definition idle (l : ledger) (r : resourceManager) : Prop :=
  forall a s, openScope r a s -> conns r !! a = None /\ streams r !! a = None /\ owner s = None /\ forall f, l a f = 0.

Lemma idle_owns l lab r f b : inv l lab r -> idle l r -> owns l (hp r) f b = 0.
Proof.
  intros [HS Hg] Hi. unfold owns. destruct (alive (hp r) b) eqn:Hal; [|done]. unfold alive in Hal.
  destruct (hp r !! b) as [s|] eqn:Hb; [|done]. destruct (done s) eqn:Hd; [done|].
  destruct (Hi b s (conj Hb Hd)) as (_ & _ & _ & Hl). rewrite Hl.
  assert (inSpans (hp r) f b = 0) as ->; [|done]. apply msum_zero. intros x t Hx. unfold is_owner.
  case_bool_decide as Ho; [|done]. destruct (done t) eqn:Hdt.
  - rewrite (wf_dead _ (good_wf _ _ _ Hg) x t Hx Hdt). by destruct f.
  - destruct (Hi x t (conj Hx Hdt)) as (_ & _ & ? & _). congruence.
Qed.

(** C6. Once everything is given back every counter is zero: nothing is lost. *)
Theorem idle_counts_nothing l r a s : history (l, r) -> idle l r -> openScope r a s -> used (rc s) = stat_zero.
Proof.
  intros Hh Hi [Ha Hd]. destruct (history_inv l r Hh) as [lab Hinv]. apply stat_ext. intros f.
  pose proof (good_balanced _ _ _ (inv_good _ _ _ Hinv) a f) as Hb. unfold alive, gap, usedOf, due in Hb.
  rewrite Ha, Hd in Hb. specialize (Hb eq_refl). rewrite (idle_owns l lab r f a Hinv Hi) in Hb.
  assert (fromBelow (owns l (hp r) f) (hp r) a = 0) as E.
  { apply msum_zero. intros b t Hb'. rewrite (idle_owns l lab r f b Hinv Hi). lia. }
  rewrite E in Hb. destruct f; simpl in *; lia.
Qed.

(** An idle manager keeps, after a collection, the peers and protocols that are sticky and
    no others. *)
Theorem idle_collected l r : history (l, r) -> idle l r ->
  (forall p, is_Some (peer (gc r) !! p) <-> is_Some (peer r !! p) /\ p ∈ stickyPeer r) /\
  (forall q, is_Some (proto (gc r) !! q) <-> is_Some (proto r !! q) /\ q ∈ stickyProto r).
Proof.
  intros Hh Hi. destruct (history_inv l r Hh) as [lab Hinv]. pose proof (inv_structure _ _ _ Hinv) as HS.
  destruct (gc_exact l lab r Hinv) as [Gp Gq].
  assert (forall a ro, open_at (hp r) lab a ro -> is_leaf ro = false ->
    (forall x, x ∈ [RSystem; RTransient; RAlSystem; RAlTransient] -> ro <> x) -> unused r a = true) as Hun.
  { intros a ro Ho Hl Hro. pose proof Ho as (s & Ha & Hd & _ & El). unfold unused. rewrite Ha. unfold IsUnused. rewrite Hd.
    rewrite (idle_counts_nothing l r a s Hh Hi (conj Ha Hd)).
    destruct (Z.ltb_spec 0 (refCnt s)) as [Hlt|]; [exfalso|done].
    pose proof (good_counted _ _ _ (inv_good _ _ _ Hinv) a ltac:(eauto)) as Hc. unfold refCntOf in Hc. rewrite Ha in Hc.
    pose proof (open_not_root lab r a ro HS Ho Hro) as Hnr.
    unfold rootBase in Hc. rewrite bool_decide_eq_false_2 in Hc by done.
    assert (holders (hp r) a = 0) as E; [|lia]. apply msum_zero. intros b t Hb. unfold holds.
    destruct (done t) eqn:Hdt; [done|]. destruct (Hi b t (conj Hb Hdt)) as (Hc1 & Hs1 & How & _).
    unfold is_owner. rewrite How, bool_decide_eq_false_2 by done.
    unfold occ. rewrite bool_decide_eq_false_2; [done|]. intros Hin.
    pose proof (s_shape _ _ HS b t Hb Hdt) as Hsh. unfold roots in Hnr.
    destruct (lab b); simpl in Hsh; try (rewrite Hsh in Hin; set_solver).
    - destruct Hsh as (c & Hcc & _). congruence.
    - destruct Hsh as (c & Hcc & _). congruence. }
  split.
  - intros p. split.
    + intros [a Hp%Gp]. destruct Hp as [Hp Hs]. split; [eauto|]. unfold stays in Hs.
      rewrite (Hun (id a) (RPeer p) (s_peer _ _ HS p a Hp)) in Hs by (done || set_solver).
      by case_bool_decide.
    + intros [[a Hp] Hs]. exists a. apply Gp. split; [done|]. unfold stays. by rewrite bool_decide_eq_true_2.
  - intros q. rewrite Gq. split.
    + intros (g & Hq & Hs). split; [eauto|]. unfold stays in Hs. destruct (s_proto _ _ HS q g Hq) as [Ho _].
      rewrite (Hun (group g) (RProtocol q) Ho) in Hs by (done || set_solver). by case_bool_decide.
    + intros [[g Hq] Hs]. exists g. split; [done|]. unfold stays. by rewrite bool_decide_eq_true_2.
Qed.
End history.

(** ** Refused connections *)

Lemma give_nothing r : sane r -> give (statCharge stat_zero) r = r.
Proof.
  intros Hs. pose proof (statCharge_laws stat_zero stat_ok_zero) as L.
  destruct (give_sane r Hs) as [_ El]. pose proof (give_exact r Hs) as Eg.
  destruct r as [lim u], (give (statCharge stat_zero) (mkResources lim u)) as [lim' u']. simpl in *. subst lim'. f_equal.
  apply stat_ext. intros f. rewrite Eg; [by destruct f; simpl; lia|].
  intros g. destruct (sane_counters _ Hs) as (_ & Hn & _). pose proof (Hn g). by destruct g.
Qed.

Lemma lookup_IncRefs es : forall h a, NoDup es ->
  foldl IncRef h es !! a = (if bool_decide (a ∈ es) then (fun s => set_refCnt (refCnt s + 1) s) else id) <$> h !! a.
Proof.
  induction es as [|e es IH]; intros h a Hnd; cbn [foldl].
  - by destruct (h !! a).
  - apply NoDup_cons in Hnd as [He Hnd]. rewrite IH by done. unfold IncRef. destruct (decide (a = e)) as [->|Hne].
    + rewrite bool_decide_eq_false_2, bool_decide_eq_true_2 by set_solver. rewrite lookup_alter_eq. by destruct (h !! e).
    + rewrite lookup_alter_ne by done. by rewrite (bool_decide_ext (a ∈ e :: es) (a ∈ es)) by set_solver.
Qed.

Lemma lookup_give_back es : forall h a, NoDup es -> (forall s, h !! a = Some s -> sane (rc s)) ->
  foldl (fun h e => DecRef (ReleaseForChild h e stat_zero) e) h es !! a =
  (if bool_decide (a ∈ es) then (fun s => set_refCnt (refCnt s - 1) s) else id) <$> h !! a.
Proof.
  induction es as [|e es IH]; intros h a Hnd Hs; cbn [foldl].
  - by destruct (h !! a).
  - apply NoDup_cons in Hnd as [He Hnd]. destruct (decide (a = e)) as [->|Hne].
    + assert (DecRef (ReleaseForChild h e stat_zero) e !! e = (fun s => set_refCnt (refCnt s - 1) s) <$> h !! e) as E.
      { unfold DecRef, ReleaseForChild, returnChild. rewrite !lookup_alter_eq. destruct (h !! e) as [s|] eqn:Ee; [|done].
        cbn [fmap option_fmap option_map]. destruct (done s); [done|]. rewrite give_nothing by auto. by destruct s. }
      rewrite IH, E; [|done|]; [rewrite bool_decide_eq_false_2, bool_decide_eq_true_2 by set_solver; by destruct (h !! e)|].
      intros t. rewrite E. destruct (h !! e) as [s|]; [|done]. intros [= <-]. by apply (Hs s).
    + assert (DecRef (ReleaseForChild h e stat_zero) e !! a = h !! a) as E.
      { unfold DecRef, ReleaseForChild, returnChild. by rewrite !lookup_alter_ne. }
      rewrite IH, E by (done || rewrite ?E; done). by rewrite (bool_decide_ext (a ∈ e :: es) (a ∈ es)) by set_solver.
Qed.

(** A scope that is closed before anything was charged to it leaves every other as it was. *)
Lemma opened_closed h n lim es txt : wf h -> h !! n = None -> NoDup es -> n ∉ es ->
  forall a, a <> n -> doneUnlocked (newResourceScope h n lim es txt) n !! a = h !! a.
Proof.
  intros Hwf Hn Hnd Hne a Ha. unfold doneUnlocked, newResourceScope. rewrite lookup_insert_eq. cbn [done owner edges used rc].
  rewrite lookup_alter_ne by done.
  assert (<[n := mkScope false 0 0 (mkResources lim stat_zero) None es txt]> (foldl IncRef h es) !! a = foldl IncRef h es !! a) as E
    by (by rewrite lookup_insert_ne).
  rewrite lookup_give_back; [|done|].
  - rewrite E, lookup_IncRefs by done. case_bool_decide; [|by destruct (h !! a)]. destruct (h !! a) as [s|]; [|done].
    simpl. destruct s. unfold set_refCnt. simpl. do 2 f_equal. lia.
  - intros s. rewrite E, lookup_IncRefs by done. destruct (h !! a) as [t|] eqn:Et; [|done]. intros [= <-].
    pose proof (wf_sane h Hwf a t Et). by case_bool_decide.
Qed.

Section refusal.
Context (limits : ConcreteLimitConfig) (Hlim : config_ok limits).
Context (allowed : string -> bool) (allowedPeerAddr : string -> string -> bool).
Context `{MR : !MapRange}.

(** [r'] has every scope of [r] as it was, and the same tables. *)
Definition no_trace (r r' : resourceManager) : Prop :=
  (forall a, (a < next r)%nat -> hp r' !! a = hp r !! a) /\ (next r <= next r')%nat /\
  svc r' = svc r /\ proto r' = proto r /\ peer r' = peer r /\ streams r' = streams r /\
  forall a, (a < next r)%nat -> conns r' !! a = conns r !! a.

Lemma no_trace_trans r1 r2 r3 : no_trace r1 r2 -> no_trace r2 r3 -> no_trace r1 r3.
Proof.
  intros (H1 & N1 & S1 & Q1 & P1 & T1 & C1) (H2 & N2 & S2 & Q2 & P2 & T2 & C2). split_and!; try congruence.
  - intros a Ha. rewrite H2 by lia. auto.
  - lia.
  - intros a Ha. rewrite C2 by lia. auto.
Qed.

(** A new connection that is refused and closed. *)
Lemma refused_conn l lab r es txt c ci dir usefd r2 e : inv l lab r ->
  conn_peer c = None -> es = (if isAllowlisted c then [3; 2]%nat else [1; 0]%nat) ->
  onScopes (fun h => AddConn h (next r) dir usefd)
    (set_users (<[next r := c]> (conns r)) (streams r) ci (streamId r) (newScope (cConn limits) es txt r).1) = (r2, Some e) ->
  no_trace r (connDone (next r) r2).
Proof.
  intros Hinv Hp Ees E. pose proof (inv_structure _ _ _ Hinv) as HS.
  destruct (new_conn_opened limits Hlim l lab r c es txt ci Hinv Hp Ees) as (lab1 & Hinv1 & _).
  unfold onScopes in E. destruct (AddConn _ (next r) dir usefd) as [h err] eqn:Ea. injection E as <- ->.
  apply (good_charge_err (connCharge dir usefd) (conn_stat dir usefd) l rootBase _ (next r) h e (inv_good _ _ _ Hinv1)) in Ea as ->.
  destruct (s_root _ _ HS) as ((s0 & R0 & _) & (s1 & R1 & _) & (s2 & R2 & _) & (s3 & R3 & _)).
  assert (next r <> 0 /\ next r <> 1 /\ next r <> 2 /\ next r <> 3)%nat as (N0 & N1 & N2 & N3).
  { pose proof (proj1 (s_next _ _ HS 0%nat) ltac:(eauto)). pose proof (proj1 (s_next _ _ HS 1%nat) ltac:(eauto)).
    pose proof (proj1 (s_next _ _ HS 2%nat) ltac:(eauto)). pose proof (proj1 (s_next _ _ HS 3%nat) ltac:(eauto)). lia. }
  assert (hp r !! next r = None) as Hn.
  { apply eq_None_not_Some. intros H%(s_next _ _ HS). lia. }
  assert (forall a, a <> next r -> doneUnlocked (newResourceScope (hp r) (next r) (cConn limits) es txt) (next r) !! a = hp r !! a) as Hsame.
  { apply opened_closed; [apply (good_wf _ _ _ (inv_good _ _ _ Hinv))|done| |].
    - destruct (isAllowlisted c); rewrite Ees; apply (bool_decide_unpack _); by vm_compute.
    - destruct (isAllowlisted c); rewrite Ees; set_solver. }
  assert (forall r3, hp r3 = doneUnlocked (newResourceScope (hp r) (next r) (cConn limits) es txt) (next r) ->
    next r3 = S (next r) -> svc r3 = svc r -> proto r3 = proto r -> peer r3 = peer r -> streams r3 = streams r ->
    conns r3 = <[next r := c]> (conns r) -> no_trace r r3) as Hgoal.
  { intros r3 H1 H2 H3 H4 H5 H6 H7. unfold no_trace. rewrite H1, H2, H7. split_and!; try done; [..|lia|].
    - intros a Ha. apply Hsame. lia.
    - intros a Ha. rewrite lookup_insert_ne by lia. done. }
  unfold connDone. match goal with |- context [hp ?r0 !! next r] => set (r1 := r0) end.
  assert (hp r1 !! next r = Some (mkScope false 0 0 (mkResources (cConn limits) stat_zero) None es txt)) as ->
    by (apply lookup_insert_eq).
  assert (conns r1 !! next r = Some c) as -> by (apply lookup_insert_eq). cbn [done].
  destruct (conn_ip c) as [ip|]; by apply Hgoal.
Qed.

(** C20. A connection that is refused leaves every scope as it was: counters, references, edges. *)
Theorem refused_connection_no_trace l r rateOk dir usefd ep ip r' e : history limits allowed allowedPeerAddr (l, r) ->
  openConnection limits allowed rateOk dir usefd ep ip r = (r', inl e) -> no_trace r r'.
Proof.
  intros Hh. destruct (history_inv limits Hlim allowed allowedPeerAddr l r Hh) as [lab Hinv]. unfold openConnection.
  assert (no_trace r r) as Hrefl by done.
  destruct rateOk; cbn [negb]; [|by intros [= <- <-]].
  set (admission := match ip with Some i => _ | None => _ end).
  assert (exists cl adm, admission = (set_limiter cl r, adm)) as (cl & adm & ->).
  { unfold admission. destruct ip as [i|]; [destruct (ConnLimiter.addConn (limiter r) i) as [cl ok]; eauto|].
    exists (limiter r), true. by destruct r. }
  set (r0 := set_limiter cl r). assert (inv l lab r0) as Hinv0 by (by apply inv_limiter).
  assert (no_trace r r0) as Ht0 by done.
  destruct adm; cbn [negb]; [|by intros [= <- <-]].
  destruct (s_roots _ _ (inv_structure _ _ _ Hinv0)) as (E0 & E1 & E2 & E3).
  set (c0 := mkConn dir usefd false None ep ip).
  assert (newConnectionScope limits dir usefd ep ip r0 =
    (set_users (<[next r0 := c0]> (conns r0)) (streams r0) (connId r0 + 1) (streamId r0)
      (newScope (cConn limits) [1; 0]%nat ("conn-" ++ utoa (connId r0 + 1)) r0).1, next r0)) as ->.
  { unfold newConnectionScope. cbn [transient system set_users]. rewrite E0, E1. done. }
  destruct (onScopes _ (set_users _ _ _ _ _)) as [r2 err] eqn:Ea. destruct err as [e2|]; [|by intros [=]].
  pose proof (refused_conn l lab r0 _ _ c0 _ dir usefd r2 e2 Hinv0 eq_refl eq_refl Ea) as Ht2.
  pose proof (no_trace_trans _ _ _ Ht0 Ht2) as Ht. fold c0.
  destruct ip as [i|]; [|by intros [= <- <-]]. destruct (allowed ep); [|by intros [= <- <-]].
  assert (exists lab2, inv l lab2 (connDone (next r0) r2)) as [lab2 Hinv2].
  { pose proof (new_conn_opened limits Hlim l lab r0 c0 [1; 0]%nat ("conn-" ++ utoa (connId r0 + 1)) (connId r0 + 1) Hinv0 eq_refl eq_refl) as Hop.
    destruct (opened_charge (connCharge dir usefd) (conn_stat dir usefd) l lab r0 RConn _ (next r0) r2 (Some e2) Hop Ea) as (lab2 & Hinv2 & _). exists lab2. by apply connDone_inv. }
  set (r3 := connDone (next r0) r2) in *. destruct (s_roots _ _ (inv_structure _ _ _ Hinv2)) as (_ & _ & E2' & E3').
  set (c1 := mkConn dir usefd true None ep None).
  assert (newAllowListedConnectionScope limits dir usefd ep r3 =
    (set_users (<[next r3 := c1]> (conns r3)) (streams r3) (connId r3 + 1) (streamId r3)
      (newScope (cConn limits) [3; 2]%nat ("conn-" ++ utoa (connId r3 + 1)) r3).1, next r3)) as ->.
  { unfold newAllowListedConnectionScope. cbn [allowlistedTransient allowlistedSystem set_users]. rewrite E2', E3'. done. }
  cbv beta iota. clear Ea. destruct (onScopes _ (set_users _ _ _ _ _)) as [r4 err] eqn:Ea4. destruct err as [e4|]; [|by intros [=]].
  pose proof (refused_conn l lab2 r3 [3; 2]%nat ("conn-" ++ utoa (connId r3 + 1)) c1 (connId r3 + 1) dir usefd r4 e4 Hinv2 eq_refl eq_refl Ea4) as Ht4.
  intros [= <- <-]. by eapply no_trace_trans.
Qed.
End refusal.

(** ** A run

    A connection of peer [P], a stream over it with a protocol and a service, memory reserved
    for the stream; then everything is closed. *)

Section run.
Notation cfg := (myLimits false).
Notation nobody := (fun _ : string => false).
Notation noPeer := (fun _ _ : string => false).
Local Instance run_range : MapRange := map_to_list_range.

Definition run1 := (openConnection cfg nobody true DirInbound true "/ip4/1.2.3.4/tcp/4001" None (NewResourceManager cfg)).1.
Definition run2 := (SetPeer cfg noPeer 4 "P" run1).1.
Definition run3 := (OpenStream cfg "P" DirOutbound run2).1.
Definition run4 := (SetProtocol cfg 6 "/echo/1" run3).1.
Definition run5 := (SetService cfg 6 "echo" run4).1.
Definition run6 := (reserveMemoryAt 6 4096 255 run5).1.
Definition run7 := connDone 4 (streamDone 6 run6).

Definition held1 := ledgered initial 4 (conn_stat DirInbound true).
Definition held3 := ledgered held1 6 (dir_stat DirOutbound).
Definition held6 := ledgered held3 6 (mkStat 4096 0 0 0 0 0).

Notation H := (history cfg nobody noPeer).

Lemma openScope_intro r a : match hp r !! a with Some s => done s = false | None => False end ->
  exists s, openScope r a s.
Proof. unfold openScope. destruct (hp r !! a); [eauto|done]. Qed.

Lemma run_history6 : H (held6, run6).
Proof.
  assert (forall st st', H st -> step cfg nobody noPeer st st' -> H st') as next by (intros; by eapply rtc_r).
  assert (H (held1, run1)) as H1.
  { refine (next _ _ (rtc_refl _ _) (OpensConnection cfg nobody noPeer initial _ true DirInbound true "/ip4/1.2.3.4/tcp/4001" None run1 (inr 4%nat) _)).
    by vm_compute. }
  assert (H (held1, run2)) as H2.
  { destruct (openScope_intro run1 4) as [s Hs]; [by vm_compute|].
    refine (next _ _ H1 (SetsPeer cfg nobody noPeer held1 run1 4 _ s "P" _ Hs _)); [by vm_compute|]. right.
    destruct Hs as [Hs _]. vm_compute in Hs. by injection Hs as <-. }
  assert (H (held3, run3)) as H3.
  { refine (next _ _ H2 (OpensStream cfg nobody noPeer held1 run2 "P" DirOutbound run3 (inr 6%nat) _)). by vm_compute. }
  assert (H (held3, run4)) as H4.
  { destruct (openScope_intro run3 6) as [s Hs]; [by vm_compute|].
    refine (next _ _ H3 (SetsProtocol cfg nobody noPeer held3 run3 6 _ s "/echo/1" _ Hs)). by vm_compute. }
  assert (H (held3, run5)) as H5.
  { destruct (openScope_intro run4 6) as [s Hs]; [by vm_compute|].
    refine (next _ _ H4 (SetsService cfg nobody noPeer held3 run4 6 _ s "echo" _ Hs)). by vm_compute. }
  refine (next _ _ H5 (Reserves cfg nobody noPeer held3 run5 6 4096 255 run6 None _ _ _ _));
    [eexists; by vm_compute|by vm_compute|lia|by vm_compute].
Qed.

Lemma run_history7 : H (held6, run7).
Proof.
  eapply rtc_r; [eapply rtc_r; [exact run_history6|]|].
  - eapply (ClosesStream cfg nobody noPeer held6 run6 6). by vm_compute.
  - apply ClosesConnection.
Qed.

Lemma run_idle : idle held6 run7.
Proof.
  intros a s [Ha Hd]. destruct (history_inv cfg (my_limits_ok false) nobody noPeer held6 run7 run_history7) as [lab Hinv].
  assert (a < next run7)%nat as Hlt by (apply (s_next _ _ (inv_structure _ _ _ Hinv)); eauto).
  assert (next run7 = 11%nat) as En by (by vm_compute). rewrite En in Hlt.
  do 11 (destruct a as [|a]; [vm_compute in Ha; injection Ha as <-;
    (discriminate Hd || (split_and!; [by vm_compute..|intros []; by vm_compute]))|]). lia.
Qed.

(** The system scope counts the connection, the stream and the memory. *)
Lemma accounts_balance_witness : exists s, openScope run6 0 s /\
  get FConnsIn (used (rc s)) = 1 /\ get FStreamsOut (used (rc s)) = 1 /\ get FMemory (used (rc s)) = 4096 /\
  (forall f, get f (used (rc s)) = due held6 (hp run6) f 0) /\ fits (rc s).
Proof.
  destruct (openScope_intro run6 0) as [s Hs]; [by vm_compute|]. exists s. split; [exact Hs|].
  assert (get FConnsIn (used (rc s)) = 1 /\ get FStreamsOut (used (rc s)) = 1 /\ get FMemory (used (rc s)) = 4096) as (E1 & E2 & E3).
  { destruct Hs as [Hs _]. vm_compute in Hs. injection Hs as <-. by vm_compute. }
  split; [exact E1|]. split; [exact E2|]. split; [exact E3|].
  exact (accounts_balance cfg (my_limits_ok false) nobody noPeer held6 run6 0 s run_history6 Hs).
Defined.

(** A node that has no room left for a connection: it refuses the next. *)
Definition tight : ConcreteLimitConfig :=
  let none := mkLimit 0 0 0 0 0 0 0 0 in
  mkConcrete none none none none none ∅ none ∅ none ∅ none ∅ none ∅ none none.

Lemma refused_connection_no_trace_witness :
  let res := openConnection tight nobody true DirInbound true "/ip4/1.2.3.4/tcp/4001" None (NewResourceManager tight) in
  next res.1 = 5%nat /\ no_trace (NewResourceManager tight) res.1.
Proof.
  assert (config_ok tight) as Hlim.
  { split; rewrite !Forall_cons, Forall_nil; split_and!; try done; intros k l; by rewrite lookup_empty. }
  intros res. split; [by vm_compute|].
  refine (refused_connection_no_trace tight Hlim nobody noPeer initial (NewResourceManager tight) true DirInbound true
    "/ip4/1.2.3.4/tcp/4001" None res.1 (match res.2 with inl e => e | inr _ => RateLimitExceeded end) (rtc_refl _ _) _).
  assert (match res.2 with inl _ => true | inr _ => false end = true) as E by (by vm_compute).
  unfold res in *. destruct (openConnection _ _ _ _ _ _ _ _) as [r' [e|a]]; [reflexivity|discriminate E].
Defined.

(** The stream of the run is charged to the scope of its peer. *)
Lemma charged_scopes_open_witness : exists s t, openScope run6 6 s /\ 5%nat ∈ edges s /\ openScope run6 5 t /\
  0 < refCnt t /\ IsUnused t = false.
Proof.
  destruct (openScope_intro run6 6) as [s Hs]; [by vm_compute|].
  assert (5%nat ∈ edges s) as He.
  { destruct Hs as [Hs _]. vm_compute in Hs. injection Hs as <-. by vm_compute; left. }
  destruct (charged_scopes_open cfg (my_limits_ok false) nobody noPeer held6 run6 6 s 5 run_history6 Hs He) as [t Ht].
  exists s, t. split; [exact Hs|]. split; [exact He|exact Ht].
Defined.

Lemma idle_counts_nothing_witness : exists s, openScope run7 0 s /\ used (rc s) = stat_zero.
Proof.
  destruct (openScope_intro run7 0) as [s Hs]; [by vm_compute|]. exists s. split; [exact Hs|].
  exact (idle_counts_nothing cfg (my_limits_ok false) nobody noPeer held6 run7 0 s run_history7 run_idle Hs).
Defined.

(** The scopes of the peer and of the protocol, used before, are collected. *)
Lemma idle_collected_witness : is_Some (peer run7 !! "P") /\ is_Some (proto run7 !! "/echo/1") /\
  ~ is_Some (peer (gc run7) !! "P") /\ ~ is_Some (proto (gc run7) !! "/echo/1").
Proof.
  destruct (idle_collected cfg (my_limits_ok false) nobody noPeer held6 run7 run_history7 run_idle) as [Hp Hq].
  split; [eexists; by vm_compute|]. split; [eexists; by vm_compute|]. split.
  - intros [_ E]%Hp. by vm_compute in E.
  - intros [_ E]%Hq. by vm_compute in E.
Defined.
End run.
