(* ===== verification/GoHeap.v ===== *)
(** * container/heap

    The binary heap of the Go standard library, written against the three operations it asks
    of its argument ([Len], [Less], [Swap]), and what it keeps if they are what they
    should be.  [Push] and [Pop] of the argument are left to the caller: [heap.Push] is an
    append followed by [up] at the last place, [heap.Pop] and [heap.Remove] leave the
    element to take off at the last place. *)

From S2P Require Import Prelude.

Class HeapInterface (H : Type) := {
  Len : H -> nat;
  Less : nat -> nat -> H -> bool;
  Swap : nat -> nat -> H -> H
}.

Definition transpose (i j k : nat) : nat :=
  if bool_decide (k = i) then j else if bool_decide (k = j) then i else k.

(** What the operations are for: [item h i] is the element at place [i], [rank] its
    priority. *)
Class HeapLaws (H A : Type) `{!HeapInterface H} (lawful : H -> Prop) (item : H -> nat -> A) (rank : A -> Z) := {
  less_rank h i j : lawful h -> (i < Len h)%nat -> (j < Len h)%nat -> Less i j h = (rank (item h i) <? rank (item h j));
  swap_lawful h i j : lawful h -> (i < Len h)%nat -> (j < Len h)%nat -> lawful (Swap i j h);
  swap_len h i j : Len (Swap i j h) = Len h;
  swap_item h i j k : lawful h -> (i < Len h)%nat -> (j < Len h)%nat ->
    item (Swap i j h) k = item h (transpose i j k)
}.

(** ** The operations *)

Section operations.
Context {H : Type} `{!HeapInterface H}.

Definition parent (j : nat) : nat := Nat.div (j - 1) 2.

(** [up]: at most [j] turns, since the place gets smaller. *)
Fixpoint up (fuel : nat) (h : H) (j : nat) : H :=
  match fuel with
  | O => h
  | S fuel =>
    let i := parent j in
    if bool_decide (i = j) || negb (Less j i h) then h
    else up fuel (Swap i j h) i
  end.

(** [down], which also tells whether the element has moved. *)
Fixpoint down (fuel : nat) (h : H) (i n : nat) : H * nat :=
  match fuel with
  | O => (h, i)
  | S fuel =>
    let j1 := (2 * i + 1)%nat in
    if (n <=? j1)%nat then (h, i)
    else
      let j := if (j1 + 1 <? n)%nat && Less (j1 + 1) j1 h then (j1 + 1)%nat else j1 in
      if negb (Less j i h) then (h, i)
      else down fuel (Swap i j h) j n
  end.

Definition siftDown (h : H) (i n : nat) : H * bool :=
  let '(h, k) := down n h i n in (h, (i <? k)%nat).

(** What follows the append in [heap.Push]. *)
Definition pushed (h : H) : H := up (Len h) h (Len h - 1).

(** [heap.Pop] and [heap.Remove] up to the [Pop] of the argument. *)
Definition popping (h : H) : H :=
  let n := (Len h - 1)%nat in (siftDown (Swap 0 n h) 0 n).1.

Definition removing (h : H) (i : nat) : H :=
  let n := (Len h - 1)%nat in
  if bool_decide (n = i) then h
  else let '(h, moved) := siftDown (Swap i n h) i n in
       if moved then h else up (S i) h i.

Definition fix_ (h : H) (i : nat) : H :=
  let '(h, moved) := siftDown h i (Len h) in
  if moved then h else up (S i) h i.
End operations.

(** ** Order *)

Definition ordered (n : nat) (k : nat -> Z) : Prop := forall j, (0 < j < n)%nat -> k (parent j) <= k j.

(** Ordered but for the place [j] and its parent, and still so without [j]. *)
Definition up_to (n : nat) (k : nat -> Z) (j : nat) : Prop :=
  (forall m, (0 < m < n)%nat -> m <> j -> k (parent m) <= k m) /\
  (forall m, (0 < m < n)%nat -> parent m = j -> (0 < j)%nat -> k (parent j) <= k m).

(** Ordered but for the place [i] and its children, and still so without [i]. *)
Definition down_to (n : nat) (k : nat -> Z) (i : nat) : Prop :=
  (forall m, (0 < m < n)%nat -> parent m <> i -> k (parent m) <= k m) /\
  (forall m, (0 < m < n)%nat -> parent m = i -> (0 < i)%nat -> k (parent i) <= k m).

(** Ordered but around the place [i]. *)
Definition around (n : nat) (k : nat -> Z) (i : nat) : Prop :=
  (forall m, (0 < m < n)%nat -> m <> i -> parent m <> i -> k (parent m) <= k m) /\
  (forall m, (0 < m < n)%nat -> parent m = i -> (0 < i)%nat -> k (parent i) <= k m).

Lemma parent_lt j : (0 < j)%nat -> (parent j < j)%nat.
Proof. unfold parent. intros. apply Nat.Div0.div_lt_upper_bound. lia. Qed.

Lemma parent_children m i : (0 < m)%nat -> parent m = i -> m = (2 * i + 1)%nat \/ m = (2 * i + 2)%nat.
Proof.
  unfold parent. intros Hm <-. pose proof (Nat.div_mod_eq (m - 1) 2). pose proof (Nat.mod_upper_bound (m - 1) 2). lia.
Qed.

Lemma parent_left i : parent (2 * i + 1) = i.
Proof. unfold parent. replace (2 * i + 1 - 1)%nat with (i * 2)%nat by lia. by apply Nat.div_mul. Qed.

Lemma parent_right i : parent (2 * i + 1 + 1) = i.
Proof. unfold parent. symmetry. apply (Nat.div_unique _ 2 i 1); lia. Qed.

(** The root of an ordered heap has the least priority. *)
Lemma ordered_root n k : ordered n k -> forall j, (j < n)%nat -> k 0%nat <= k j.
Proof.
  intros Ho j. induction j as [j IH] using lt_wf_ind. intros Hj. destruct (decide (j = 0%nat)) as [->|]; [lia|].
  pose proof (parent_lt j ltac:(lia)). pose proof (IH (parent j) ltac:(lia) ltac:(lia)).
  pose proof (Ho j ltac:(lia)). lia.
Qed.

Section order.
Context {H A : Type} `{!HeapInterface H} (lawful : H -> Prop) (item : H -> nat -> A) (rank : A -> Z) `{!HeapLaws H A lawful item rank}.

Definition prio (h : H) (i : nat) : Z := rank (item h i).

Lemma less_prio h i j : lawful h -> (i < Len h)%nat -> (j < Len h)%nat -> Less i j h = (prio h i <? prio h j).
Proof. apply less_rank. Qed.

Lemma swap_prio h i j k : lawful h -> (i < Len h)%nat -> (j < Len h)%nat ->
  prio (Swap i j h) k = prio h (transpose i j k).
Proof. intros. unfold prio. by rewrite (swap_item (lawful := lawful)). Qed.

Lemma up_spec fuel : forall h j n, lawful h -> (n <= Len h)%nat -> (j < n)%nat -> (j < fuel)%nat ->
  up_to n (prio h) j ->
  lawful (up fuel h j) /\ Len (up fuel h j) = Len h /\ ordered n (prio (up fuel h j)) /\
  (forall m, (n <= m)%nat -> item (up fuel h j) m = item h m).
Proof.
  induction fuel as [|fuel IH]; intros h j n Hl Hn Hj Hf [Ho Hg]; [lia|]. cbn [up].
  pose proof (parent_lt j) as Hpj.
  assert (ordered n (prio h) \/ ((0 < j)%nat /\ prio h j < prio h (parent j) /\ parent j <> j /\ Less j (parent j) h = true) ) as Hc.
  { destruct (decide (j = 0%nat)) as [->|Hj0].
    - left. intros m Hm. apply Ho; lia.
    - destruct (Z.lt_ge_cases (prio h j) (prio h (parent j))) as [Hlt|Hge].
      + right. split_and!; [lia|done|lia|]. rewrite less_prio by (done || lia). lia.
      + left. intros m Hm. destruct (decide (m = j)) as [->|]; [done|]. by apply Ho. }
  destruct Hc as [Hord|(Hj0 & Hlt & Hne & Hless)].
  - assert (bool_decide (parent j = j) || negb (Less j (parent j) h) = true) as ->; [|done].
    case_bool_decide as E; [done|]. destruct (decide (j = 0%nat)) as [->|Hj0]; [by destruct E|].
    rewrite less_prio by (done || lia). pose proof (Hord j ltac:(lia)). cbn [orb]. lia.
  - rewrite bool_decide_eq_false_2, Hless by done. cbn [orb negb].
    assert (forall k, prio (Swap (parent j) j h) k = prio h (transpose (parent j) j k)) as Es.
    { intros k. apply swap_prio; (done || lia). }
    destruct (IH (Swap (parent j) j h) (parent j) n) as (H1 & H2 & H3 & H4); [|rewrite swap_len; lia|lia|lia| |].
    + apply swap_lawful; (done || lia).
    + split.
      * intros m Hm Hmp. rewrite !Es. unfold transpose. rewrite (bool_decide_eq_false_2 (m = parent j)) by done.
        destruct (decide (m = j)) as [->|Hmj].
        -- rewrite (bool_decide_eq_true_2 (j = j)) by done. rewrite (bool_decide_eq_true_2 (parent j = parent j)) by done. lia.
        -- rewrite (bool_decide_eq_false_2 (m = j)) by done. destruct (decide (parent m = parent j)) as [E|].
           ++ rewrite (bool_decide_eq_true_2 (parent m = parent j)) by done. pose proof (Ho m Hm Hmj) as Hk. rewrite E in Hk. lia.
           ++ rewrite (bool_decide_eq_false_2 (parent m = parent j)) by done. destruct (decide (parent m = j)) as [E|].
              ** rewrite (bool_decide_eq_true_2 (parent m = j)) by done. by apply Hg.
              ** rewrite (bool_decide_eq_false_2 (parent m = j)) by done. by apply Ho.
      * intros m Hm Hmp Hp0. rewrite !Es. unfold transpose. pose proof (parent_lt (parent j) Hp0).
        rewrite (bool_decide_eq_false_2 (parent (parent j) = parent j)), (bool_decide_eq_false_2 (parent (parent j) = j)) by lia.
        pose proof (Ho (parent j) ltac:(lia) ltac:(lia)).
        rewrite (bool_decide_eq_false_2 (m = parent j)) by (pose proof (parent_lt m); lia).
        case_bool_decide as E; [done|]. pose proof (Ho m Hm E) as Hk. rewrite Hmp in Hk. lia.
    + rewrite swap_len in H2. split_and!; try done. intros m Hm. rewrite H4, (swap_item (lawful := lawful)) by (done || lia). unfold transpose.
      by rewrite (bool_decide_eq_false_2 (m = parent j)), (bool_decide_eq_false_2 (m = j)) by lia.
Qed.

Lemma down_spec fuel : forall h i n, lawful h -> (n <= Len h)%nat -> (i < n)%nat -> (n - i <= fuel)%nat ->
  down_to n (prio h) i ->
  let '(h', k) := down fuel h i n in
  lawful h' /\ Len h' = Len h /\ ordered n (prio h') /\ (i <= k)%nat /\
  (forall m, (n <= m)%nat -> item h' m = item h m).
Proof.
  induction fuel as [|fuel IH]; intros h i n Hl Hn Hi Hf [Ho Hg]; [lia|]. cbn [down].
  destruct (n <=? 2 * i + 1)%nat eqn:E1; [apply Nat.leb_le in E1|apply Nat.leb_gt in E1].
  { split_and!; try done. intros m Hm. apply Ho; [done|]. intros E.
    destruct (parent_children m i ltac:(lia) E); lia. }
  set (j1 := (2 * i + 1)%nat) in *. match goal with |- context [Less ?x i h] => set (j := x) end.
  assert ((j = j1 \/ j = (j1 + 1)%nat) /\ (j < n)%nat) as [Hj Hjn].
  { unfold j. destruct (j1 + 1 <? n)%nat eqn:E; cbn [andb]; [apply Nat.ltb_lt in E|split; [by left|done]].
    destruct (Less _ _ h); [split; [by right|done]|split; [by left|done]]. }
  assert (parent j = i) as Hpj.
  { unfold j1 in Hj. destruct Hj as [-> | ->]; [apply parent_left|apply parent_right]. }
  assert (forall m, (0 < m < n)%nat -> parent m = i -> prio h j <= prio h m) as Hmin.
  { intros m Hm Hp. pose proof (parent_children m i ltac:(lia) Hp) as Hch. unfold j.
    destruct (j1 + 1 <? n)%nat eqn:E; cbn [andb]; [apply Nat.ltb_lt in E|apply Nat.ltb_ge in E].
    - rewrite less_prio by (done || lia).
      assert (m = j1 \/ m = (j1 + 1)%nat) as [-> | ->] by (unfold j1; lia);
        destruct (Z.ltb_spec (prio h (j1 + 1)) (prio h j1)); lia.
    - assert (m = j1) as -> by (unfold j1 in *; lia). lia. }
  rewrite less_prio by (done || lia).
  destruct (Z.ltb_spec (prio h j) (prio h i)) as [Hlt|Hge]; cbn [negb].
  - assert (forall k, prio (Swap i j h) k = prio h (transpose i j k)) as Es.
    { intros k. apply swap_prio; (done || lia). }
    assert (i < j)%nat as Hij by (unfold j1 in Hj; lia).
    specialize (IH (Swap i j h) j n). destruct (down fuel (Swap i j h) j n) as [h' k].
    destruct IH as (H1 & H2 & H3 & H4 & H5).
    + apply swap_lawful; (done || lia).
    + by rewrite swap_len.
    + done.
    + lia.
    + split.
      * intros m Hm Hmp. rewrite !Es. unfold transpose. rewrite (bool_decide_eq_false_2 (parent m = j)) by done.
        destruct (decide (m = i)) as [->|Hmi].
        { rewrite (bool_decide_eq_true_2 (i = i)) by done. pose proof (parent_lt i ltac:(lia)).
          rewrite (bool_decide_eq_false_2 (parent i = i)) by lia. rewrite <-Hpj at 1. rewrite Hpj. apply Hg; [lia|done|lia]. }
        rewrite (bool_decide_eq_false_2 (m = i)) by done. destruct (decide (m = j)) as [->|Hmj].
        { rewrite (bool_decide_eq_true_2 (j = j)), (bool_decide_eq_true_2 (parent j = i)) by done. lia. }
        rewrite (bool_decide_eq_false_2 (m = j)) by done. destruct (decide (parent m = i)) as [E|E].
        { rewrite (bool_decide_eq_true_2 (parent m = i)) by done. by apply Hmin. }
        rewrite (bool_decide_eq_false_2 (parent m = i)) by done. by apply Ho.
      * intros m Hm Hmp Hj0. rewrite !Es. unfold transpose. rewrite Hpj.
        rewrite (bool_decide_eq_true_2 (i = i)) by done.
        pose proof (parent_lt m ltac:(lia)).
        rewrite (bool_decide_eq_false_2 (m = i)), (bool_decide_eq_false_2 (m = j)) by lia.
        rewrite <-Hmp at 1. apply Ho; [done|lia].
    + split_and!; [done|by rewrite H2, swap_len|done|lia|]. intros m Hm. rewrite H5, (swap_item (lawful := lawful)) by (done || lia). unfold transpose.
      by rewrite (bool_decide_eq_false_2 (m = i)), (bool_decide_eq_false_2 (m = j)) by lia.
  - split_and!; try done. intros m Hm. destruct (decide (parent m = i)) as [E|E]; [|by apply Ho].
    pose proof (Hmin m Hm E). rewrite E. lia.
Qed.

(** An element whose place does not suit it any more is moved to one that does. *)
Lemma settle_spec h i n : lawful h -> (n <= Len h)%nat -> (i < n)%nat -> around n (prio h) i ->
  let h' := (let '(h1, moved) := siftDown h i n in if moved then h1 else up (S i) h1 i) in
  lawful h' /\ Len h' = Len h /\ ordered n (prio h') /\ (forall m, (n <= m)%nat -> item h' m = item h m).
Proof.
  intros Hl Hn Hi [Ho Hg]. unfold siftDown.
  destruct (Z.le_gt_cases (prio h (parent i)) (prio h i)) as [Hle|Hgt].
  - pose proof (down_spec n h i n Hl Hn Hi ltac:(lia)) as D. destruct (down n h i n) as [h' k].
    destruct D as (H1 & H2 & H3 & H4 & H5).
    { split; [|done]. intros m Hm Hp. destruct (decide (m = i)) as [->|]; [done|]. by apply Ho. }
    destruct (i <? k)%nat eqn:E; [done|].
    destruct (up_spec (S i) h' i n H1 ltac:(lia) Hi ltac:(lia)) as (U1 & U2 & U3 & U4).
    { split; [intros m Hm _; by apply H3|]. intros m Hm Hp Hi0. pose proof (H3 m Hm). pose proof (H3 i ltac:(lia)).
      rewrite Hp in *. lia. }
    split_and!; [done|lia|done|]. intros m Hm. rewrite U4, H5; done.
  - assert (0 < i)%nat as Hi0.
    { destruct (decide (i = 0%nat)) as [->|]; [|lia]. unfold parent in Hgt. simpl in Hgt. lia. }
    (* nothing below [i] is smaller than its parent, so it stays where it is *)
    assert (forall m, (0 < m < n)%nat -> parent m = i -> prio h i <= prio h m) as Hch.
    { intros m Hm Hp. pose proof (Hg m Hm Hp Hi0). lia. }
    assert (down n h i n = (h, i)) as ->.
    { destruct n as [|n']; [lia|]. cbn [down]. destruct (S n' <=? 2 * i + 1)%nat eqn:E1; [done|apply Nat.leb_gt in E1].
      match goal with |- context [Less ?x i h] => set (j := x) end.
      assert ((0 < j < S n')%nat /\ parent j = i) as [Hj Hpj].
      { unfold j. destruct (2 * i + 1 + 1 <? S n')%nat eqn:E; cbn [andb];
          [apply Nat.ltb_lt in E; destruct (Less _ _ h)|]; (split; [lia|]); try apply parent_left; apply parent_right. }
      rewrite less_prio by (done || lia). pose proof (Hch j Hj Hpj).
      destruct (Z.ltb_spec (prio h j) (prio h i)); [lia|done]. }
    rewrite Nat.ltb_irrefl.
    destruct (up_spec (S i) h i n Hl Hn Hi ltac:(lia)) as (U1 & U2 & U3 & U4); [|done].
    split; [|done]. intros m Hm Hne. destruct (decide (parent m = i)) as [E|]; [rewrite E; by apply Hch|by apply Ho].
Qed.

Lemma fix_spec h i : lawful h -> (i < Len h)%nat -> around (Len h) (prio h) i ->
  lawful (fix_ h i) /\ Len (fix_ h i) = Len h /\ ordered (Len h) (prio (fix_ h i)).
Proof. intros Hl Hi Ha. destruct (settle_spec h i (Len h) Hl ltac:(lia) Hi Ha) as (H1 & H2 & H3 & _). done. Qed.

Lemma ordered_around n k i : ordered n k -> (i < n)%nat -> around n k i.
Proof.
  intros Ho Hi. split; [intros m Hm _ _; by apply Ho|]. intros m Hm E Hi0. pose proof (Ho m Hm) as Hk.
  pose proof (Ho i ltac:(lia)). rewrite E in Hk. lia.
Qed.

(** [heap.Remove]: the element, whose place need not suit it, is at the last place, and the
    others are ordered. *)
Lemma removing_spec h i : lawful h -> (i < Len h)%nat -> around (Len h) (prio h) i ->
  lawful (removing h i) /\ Len (removing h i) = Len h /\ ordered (Len h - 1) (prio (removing h i)) /\
  item (removing h i) (Len h - 1)%nat = item h i.
Proof.
  intros Hl Hi [Ho Hg]. unfold removing. set (n := (Len h - 1)%nat).
  case_bool_decide as E.
  { split_and!; [done..| |by rewrite E]. intros m Hm. pose proof (parent_lt m ltac:(lia)). apply Ho; lia. }
  assert (lawful (Swap i n h)) as Hl' by (apply swap_lawful; (done || lia)).
  assert (forall k, prio (Swap i n h) k = prio h (transpose i n k)) as Es.
  { intros k. apply swap_prio; (done || lia). }
  destruct (settle_spec (Swap i n h) i n Hl') as (H1 & H2 & H3 & H4); [rewrite swap_len; lia|lia| |].
  - split.
    + intros m Hm Hmi Hpi. rewrite !Es. unfold transpose. pose proof (parent_lt m ltac:(lia)).
      rewrite (bool_decide_eq_false_2 (m = i)), (bool_decide_eq_false_2 (m = n)), (bool_decide_eq_false_2 (parent m = i)),
        (bool_decide_eq_false_2 (parent m = n)) by lia. apply Ho; lia.
    + intros m Hm Hpm Hi0. rewrite !Es. unfold transpose. pose proof (parent_lt m ltac:(lia)). pose proof (parent_lt i Hi0).
      rewrite (bool_decide_eq_false_2 (m = i)), (bool_decide_eq_false_2 (m = n)), (bool_decide_eq_false_2 (parent i = i)),
        (bool_decide_eq_false_2 (parent i = n)) by lia. apply Hg; (done || lia).
  - split_and!; [done|by rewrite H2, swap_len|done|]. rewrite H4, (swap_item (lawful := lawful)) by (done || lia). unfold transpose.
    rewrite bool_decide_eq_false_2 by done. by rewrite bool_decide_eq_true_2.
Qed.

(** [heap.Pop]: the least element is at the last place. *)
Lemma popping_spec h : lawful h -> (0 < Len h)%nat -> ordered (Len h) (prio h) ->
  lawful (popping h) /\ Len (popping h) = Len h /\ ordered (Len h - 1) (prio (popping h)) /\
  item (popping h) (Len h - 1)%nat = item h 0%nat.
Proof.
  intros Hl Hn Ho. unfold popping. set (n := (Len h - 1)%nat).
  assert (lawful (Swap 0 n h)) as Hl' by (apply swap_lawful; (done || lia)).
  assert (forall k, prio (Swap 0 n h) k = prio h (transpose 0 n k)) as Es.
  { intros k. apply swap_prio; (done || lia). }
  assert (item (Swap 0 n h) n = item h 0%nat) as En.
  { rewrite (swap_item (lawful := lawful)) by (done || lia). unfold transpose. case_bool_decide as E; [by rewrite E|]. by rewrite bool_decide_eq_true_2. }
  destruct (decide (n = 0%nat)) as [E|Hn0].
  { assert (siftDown (Swap 0 n h) 0 n = (Swap 0 n h, false)) as -> by (unfold siftDown; generalize (Swap 0 n h); by rewrite E).
    cbn [fst]. split_and!; [done|apply swap_len|intros m Hm; lia|done]. }
  unfold siftDown. pose proof (down_spec n (Swap 0 n h) 0 n Hl' ltac:(rewrite swap_len; lia) ltac:(lia) ltac:(lia)) as D.
  destruct (down n (Swap 0 n h) 0 n) as [h' k]. destruct D as (H1 & H2 & H3 & _ & H5).
  - split; [|intros; lia]. intros m Hm Hp. rewrite !Es. unfold transpose. pose proof (parent_lt m ltac:(lia)).
    rewrite (bool_decide_eq_false_2 (m = 0%nat)), (bool_decide_eq_false_2 (m = n)), (bool_decide_eq_false_2 (parent m = 0%nat)),
      (bool_decide_eq_false_2 (parent m = n)) by lia. apply Ho. lia.
  - cbn [fst]. split_and!; [done|by rewrite H2, swap_len|done|]. by rewrite H5.
Qed.

(** [heap.Push], after the append. *)
Lemma pushed_spec h : lawful h -> (0 < Len h)%nat -> ordered (Len h - 1) (prio h) ->
  lawful (pushed h) /\ Len (pushed h) = Len h /\ ordered (Len h) (prio (pushed h)).
Proof.
  intros Hl Hn Ho. unfold pushed.
  destruct (up_spec (Len h) h (Len h - 1) (Len h) Hl ltac:(lia) ltac:(lia) ltac:(lia)) as (H1 & H2 & H3 & _); [|done].
  split; [intros m Hm Hne; apply Ho; lia|].
  intros m Hm Hp _. pose proof (parent_lt m ltac:(lia)). lia.
Qed.
End order.

(** What every exchange keeps, the operations keep. *)
Section keeps.
Context {H : Type} `{!HeapInterface H} (R : relation H) `{!PreOrder R}.
Hypothesis swap_keeps : forall h i j, R h (Swap i j h).

Lemma up_keeps fuel : forall h j, R h (up fuel h j).
Proof.
  induction fuel as [|fuel IH]; intros h j; [done|]. cbn [up].
  destruct (_ || _); [done|]. etransitivity; [apply swap_keeps|apply IH].
Qed.

Lemma down_keeps fuel : forall h i n, R h (down fuel h i n).1.
Proof.
  induction fuel as [|fuel IH]; intros h i n; [done|]. cbn [down].
  destruct (n <=? 2 * i + 1)%nat; [done|]. destruct (negb _); [done|]. etransitivity; [apply swap_keeps|apply IH].
Qed.

Lemma settle_keeps h i n :
  R h (let '(h1, moved) := siftDown h i n in if moved then h1 else up (S i) h1 i).
Proof.
  unfold siftDown. pose proof (down_keeps n h i n) as D. destruct (down n h i n) as [h' k]. simpl in D.
  destruct (i <? k)%nat; [done|]. etransitivity; [done|apply up_keeps].
Qed.

Lemma pushed_keeps h : R h (pushed h).
Proof. apply up_keeps. Qed.

Lemma popping_keeps h : R h (popping h).
Proof.
  unfold popping, siftDown. etransitivity; [apply (swap_keeps h 0 (Len h - 1))|].
  pose proof (down_keeps (Len h - 1) (Swap 0 (Len h - 1) h) 0 (Len h - 1)) as D. by destruct (down _ _ _ _).
Qed.

Lemma removing_keeps h i : R h (removing h i).
Proof.
  unfold removing. case_bool_decide; [done|]. etransitivity; [apply swap_keeps|apply settle_keeps].
Qed.

Lemma fix_keeps h i : R h (fix_ h i).
Proof. apply settle_keeps. Qed.
End keeps.
