(* ===== verification/AddrBook.v ===== *)
(** * The address book of the peer store

    src/myvendor/go-libp2p/p2p/host/peerstore/pstoremem/addr_book.go: the addresses the
    host knows of other peers, each with a time to live, and the signed records of the
    peers.  An [*expiringAddr] is named by its peer and address: an entry enters the map
    under them once and is forgotten when it leaves, so no two live entries share a name.
    Addresses that are not held by a connection are in a heap by their expiry, whose
    entries know their places; the heap is that of [GoHeap].  The table of [Addrs], without
    the places, is [view], and the theorems say what the operations do to it. *)

From S2P Require Import Prelude GoLib GoHeap.

(** core/peerstore/peerstore.go *)
Definition PermanentAddrTTL : Z := max_int64.
Definition ConnectedAddrTTL : Z := max_int64 - 1.

(** [ma.P_P2P] of go-multiaddr. *)
Definition P_P2P : Z := 421.

Definition defaultMaxSignedPeerRecords : Z := 100000.
Definition defaultMaxUnconnectedAddrs : Z := 1000000.
Definition defaultMaxAddrsPerPeer : Z := 64.

Record entry := Entry { TTL : Z; Expiry : Z; heapIndex : Z }.

Definition ttlIsConnected (ttl : Z) : bool := ConnectedAddrTTL <=? ttl.
Definition IsConnected (e : entry) : bool := ttlIsConnected (TTL e).
Definition ExpiredBy (t : Z) (e : entry) : bool := negb (time_before t (Expiry e)).
Definition set_index (z : Z) (e : entry) : entry := {| TTL := TTL e; Expiry := Expiry e; heapIndex := z |}.

Section book.
(** A multiaddress is named by its bytes. *)
Context {Maddr : Type} `{Countable Maddr}.

Notation peer := string.
Notation key := (peer * Maddr)%type.

Record peerAddrs := { Addrs : gmap peer (gmap Maddr entry); expiringHeap : list key }.

Definition newPeerAddrs : peerAddrs := {| Addrs := ∅; expiringHeap := [] |}.

(** Following a pointer, and writing through one. *)
Definition entry_of (pa : peerAddrs) (k : key) : option entry := m ← Addrs pa !! k.1; m !! k.2.
Definition write (f : entry -> entry) (k : key) (pa : peerAddrs) : peerAddrs :=
  {| Addrs := alter (alter f k.2) k.1 (Addrs pa); expiringHeap := expiringHeap pa |}.
Definition set_heap (l : list key) (pa : peerAddrs) : peerAddrs := {| Addrs := Addrs pa; expiringHeap := l |}.

(** ** The heap *)

Definition expiry_of (pa : peerAddrs) (k : key) : Z := from_option Expiry zero_time (entry_of pa k).
Definition expiry_at (pa : peerAddrs) (i : nat) : Z :=
  from_option (expiry_of pa) zero_time (expiringHeap pa !! i).

(** The places are in range whenever container/heap exchanges them. *)
Definition swap (i j : nat) (pa : peerAddrs) : peerAddrs :=
  match expiringHeap pa !! i, expiringHeap pa !! j with
  | Some x, Some y =>
    let pa := set_heap (<[i := y]> (<[j := x]> (expiringHeap pa))) pa in
    write (set_index (Z.of_nat j)) x (write (set_index (Z.of_nat i)) y pa)
  | _, _ => pa
  end.

#[export] Instance peerAddrs_heap : HeapInterface peerAddrs := {|
  Len pa := length (expiringHeap pa);
  Less i j pa := time_before (expiry_at pa i) (expiry_at pa j);
  Swap := swap
|}.

Definition Push (k : key) (pa : peerAddrs) : peerAddrs :=
  set_heap (expiringHeap pa ++ [k]) (write (set_index (zlen (expiringHeap pa))) k pa).

Definition Pop (pa : peerAddrs) : option key * peerAddrs :=
  match last (expiringHeap pa) with
  | Some k => (Some k, set_heap (removelast (expiringHeap pa)) (write (set_index (-1)) k pa))
  | None => (None, pa)
  end.

Definition heapPush (k : key) (pa : peerAddrs) : peerAddrs := pushed (Push k pa).
Definition heapPop (pa : peerAddrs) : option key * peerAddrs := Pop (popping pa).
Definition heapRemove (pa : peerAddrs) (z : Z) : peerAddrs := (Pop (removing pa (Z.to_nat z))).2.
Definition heapFix (pa : peerAddrs) (z : Z) : peerAddrs := fix_ pa (Z.to_nat z).

(** ** The table *)

(** [delete(pa.Addrs[p], a)], and the peer if that was its last address. *)
Definition forget (k : key) (pa : peerAddrs) : peerAddrs :=
  let m := delete k.2 (default ∅ (Addrs pa !! k.1)) in
  {| Addrs := if decide (m = ∅) then delete k.1 (Addrs pa) else <[k.1 := m]> (Addrs pa);
     expiringHeap := expiringHeap pa |}.

Definition Delete (k : key) (pa : peerAddrs) : peerAddrs :=
  match entry_of pa k with
  | Some ea => forget k (if heapIndex ea =? -1 then pa else heapRemove pa (heapIndex ea))
  | None => pa
  end.

Definition FindAddr (p : peer) (a : Maddr) (pa : peerAddrs) : option entry := entry_of pa (p, a).

Definition NextExpiry (pa : peerAddrs) : Z :=
  match expiringHeap pa with [] => zero_time | k :: _ => expiry_of pa k end.

Definition PopIfExpired (now : Z) (pa : peerAddrs) : option key * peerAddrs :=
  if bool_decide (0 < length (expiringHeap pa))%nat && negb (time_before now (NextExpiry pa)) then
    match heapPop pa with
    | (Some k, pa) => (Some k, forget k pa)
    | (None, pa) => (None, pa)
    end
  else (None, pa).

Definition Update (k : key) (pa : peerAddrs) : peerAddrs :=
  match entry_of pa k with
  | None => pa
  | Some a =>
    if heapIndex a =? -1 then pa
    else if IsConnected a then heapRemove pa (heapIndex a)
    else heapFix pa (heapIndex a)
  end.

Definition Insert (k : key) (ttl exp : Z) (pa : peerAddrs) : peerAddrs :=
  let a := {| TTL := ttl; Expiry := exp; heapIndex := -1 |} in
  let pa := {| Addrs := <[k.1 := <[k.2 := a]> (default ∅ (Addrs pa !! k.1))]> (Addrs pa);
               expiringHeap := expiringHeap pa |} in
  if IsConnected a then pa else heapPush k pa.

Definition NumUnconnectedAddrs (pa : peerAddrs) : Z := zlen (expiringHeap pa).

(** ** What the table holds *)

Definition view (pa : peerAddrs) : gmap peer (gmap Maddr (Z * Z)) :=
  (fun m : gmap Maddr entry => (fun e => (TTL e, Expiry e)) <$> m) <$> Addrs pa.

Definition valid_of (v : gmap peer (gmap Maddr (Z * Z))) (k : key) : option (Z * Z) := m ← v !! k.1; m !! k.2.

(** The entries of the heap know their places, and no others have one. *)
Definition index_of (pa : peerAddrs) (k : key) : option Z := heapIndex <$> entry_of pa k.

Definition indexed (pa : peerAddrs) : Prop :=
  (forall i k, expiringHeap pa !! i = Some k <-> index_of pa k = Some (Z.of_nat i)) /\
  (forall k z, index_of pa k = Some z -> -1 <= z).

Definition item (pa : peerAddrs) (i : nat) : option key * Z := (expiringHeap pa !! i, expiry_at pa i).

Record wf (pa : peerAddrs) : Prop := {
  wf_indexed : indexed pa;
  wf_ordered : ordered (length (expiringHeap pa)) (expiry_at pa);
  wf_unconnected : forall k e, k ∈ expiringHeap pa -> entry_of pa k = Some e -> IsConnected e = false;
  wf_nonempty : forall p, Addrs pa !! p <> Some ∅
}.

Lemma entry_of_write f k k' pa :
  entry_of (write f k pa) k' = if decide (k' = k) then f <$> entry_of pa k' else entry_of pa k'.
Proof.
  unfold entry_of, write; simpl. destruct k as [p a], k' as [p' a']; simpl.
  destruct (decide (p' = p)) as [->|Hp].
  - rewrite lookup_alter_eq. destruct (Addrs pa !! p) as [m|]; simpl; [|by destruct (decide _)].
    destruct (decide (a' = a)) as [->|Ha].
    + rewrite lookup_alter_eq. by rewrite decide_True.
    + rewrite lookup_alter_ne by done. rewrite decide_False; [done|congruence].
  - rewrite lookup_alter_ne by done. rewrite decide_False; [done|congruence].
Qed.

Lemma index_of_write z k k' pa :
  index_of (write (set_index z) k pa) k' =
  if decide (k' = k) then (fun _ => z) <$> index_of pa k' else index_of pa k'.
Proof.
  unfold index_of. rewrite entry_of_write. destruct (decide _); [|done]. by destruct (entry_of pa k').
Qed.

Lemma view_write z k pa : view (write (set_index z) k pa) = view pa.
Proof.
  unfold view, write; simpl. apply map_eq. intros p. rewrite !lookup_fmap.
  destruct (decide (p = k.1)) as [->|]; [rewrite lookup_alter_eq|by rewrite lookup_alter_ne].
  destruct (Addrs pa !! k.1) as [m|]; simpl; [|done]. f_equal. apply map_eq. intros a. rewrite !lookup_fmap.
  destruct (decide (a = k.2)) as [->|]; [rewrite lookup_alter_eq|by rewrite lookup_alter_ne]. by destruct (m !! k.2).
Qed.

Lemma view_entry pa k : valid_of (view pa) k = (fun e => (TTL e, Expiry e)) <$> entry_of pa k.
Proof.
  unfold valid_of, view, entry_of. rewrite lookup_fmap. destruct (Addrs pa !! k.1); simpl; [|done]. by rewrite lookup_fmap.
Qed.

Lemma expiry_of_view pa k : expiry_of pa k = from_option snd zero_time (valid_of (view pa) k).
Proof. unfold expiry_of. rewrite view_entry. by destruct (entry_of pa k). Qed.

Lemma view_empty_iff pa p : Addrs pa !! p = Some ∅ <-> view pa !! p = Some ∅.
Proof.
  unfold view. rewrite lookup_fmap. destruct (Addrs pa !! p) as [m|]; simpl; [|done]. split; [intros [= ->]; by rewrite fmap_empty|].
  intros [= E]. f_equal. by apply fmap_empty_inv in E.
Qed.

(** ** Exchanging two entries of the heap *)

Lemma index_of_swap i j x y pa k : expiringHeap pa !! i = Some x -> expiringHeap pa !! j = Some y ->
  index_of (swap i j pa) k =
  if decide (k = x) then (fun _ => Z.of_nat j) <$> index_of pa k
  else if decide (k = y) then (fun _ => Z.of_nat i) <$> index_of pa k else index_of pa k.
Proof.
  intros Hx Hy. unfold swap. rewrite Hx, Hy, !index_of_write.
  change (index_of (set_heap _ pa) k) with (index_of pa k).
  destruct (decide (k = x)) as [->|]; [|done]. destruct (decide (x = y)) as [<-|]; [|done]. by destruct (index_of pa x).
Qed.

Lemma heap_swap i j x y pa m : expiringHeap pa !! i = Some x -> expiringHeap pa !! j = Some y ->
  expiringHeap (swap i j pa) !! m = expiringHeap pa !! transpose i j m.
Proof.
  intros Hx Hy. unfold swap, transpose. rewrite Hx, Hy. simpl.
  pose proof (lookup_lt_Some _ _ _ Hx). pose proof (lookup_lt_Some _ _ _ Hy).
  destruct (decide (m = i)) as [->|Hi].
  - rewrite bool_decide_eq_true_2, list_lookup_insert_eq by (done || by rewrite length_insert). done.
  - rewrite bool_decide_eq_false_2, list_lookup_insert_ne by done. destruct (decide (m = j)) as [->|Hj].
    + by rewrite bool_decide_eq_true_2, list_lookup_insert_eq.
    + by rewrite bool_decide_eq_false_2, list_lookup_insert_ne.
Qed.

Lemma swap_out i j pa : expiringHeap pa !! i = None \/ expiringHeap pa !! j = None -> swap i j pa = pa.
Proof. unfold swap. intros [-> | ->]; [done|]. by destruct (expiringHeap pa !! i). Qed.

Lemma view_swap i j pa : view (swap i j pa) = view pa.
Proof.
  unfold swap. destruct (expiringHeap pa !! i), (expiringHeap pa !! j); try done. by rewrite !view_write.
Qed.

Lemma expiry_of_swap i j pa k : expiry_of (swap i j pa) k = expiry_of pa k.
Proof. by rewrite !expiry_of_view, view_swap. Qed.

Lemma indexed_inj pa i j k : indexed pa -> expiringHeap pa !! i = Some k -> expiringHeap pa !! j = Some k -> i = j.
Proof. intros [Hi _] H1%Hi H2%Hi. rewrite H1 in H2. simplify_eq. lia. Qed.

Lemma transpose_invol i j m : transpose i j (transpose i j m) = m.
Proof. unfold transpose. repeat case_bool_decide; congruence. Qed.

Lemma swap_indexed i j pa : indexed pa -> indexed (swap i j pa).
Proof.
  intros Hw. pose proof Hw as [Hi Hn].
  destruct (expiringHeap pa !! i) as [x|] eqn:Hx; [|rewrite swap_out by auto; done].
  destruct (expiringHeap pa !! j) as [y|] eqn:Hy; [|rewrite swap_out by auto; done].
  split; intros m k.
  - rewrite (heap_swap _ _ _ _ _ _ Hx Hy), (index_of_swap _ _ _ _ _ _ Hx Hy), Hi.
    pose proof (proj1 (Hi _ _) Hx) as Ex. pose proof (proj1 (Hi _ _) Hy) as Ey. unfold transpose.
    destruct (decide (k = x)) as [->|Hkx]; [|destruct (decide (k = y)) as [->|Hky]].
    + rewrite Ex. simpl. repeat case_bool_decide; subst; split; intros E; simplify_eq; try done; try lia; f_equal; lia.
    + rewrite Ey. simpl. repeat case_bool_decide; subst; split; intros E; simplify_eq; try done; try lia; f_equal; lia.
    + repeat case_bool_decide; subst; split; intros E; try done.
      all: exfalso; apply Hi in E; first [apply Hkx; congruence | apply Hky; congruence].
  - rewrite (index_of_swap _ _ _ _ _ _ Hx Hy). pose proof (Hn m). 
    repeat case_decide; destruct (index_of pa m); simpl; intros E; simplify_eq; try lia; eauto.
Qed.

#[export] Instance peerAddrs_laws : HeapLaws peerAddrs (option key * Z) indexed item snd.
Proof.
  split.
  - done.
  - intros pa i j Hw _ _. by apply swap_indexed.
  - intros pa i j. simpl. unfold swap. destruct (expiringHeap pa !! i), (expiringHeap pa !! j); simpl; try done. by rewrite !length_insert.
  - intros pa i j m Hw Hi Hj. simpl in *. apply lookup_lt_is_Some in Hi as [x Hx], Hj as [y Hy].
    unfold item, expiry_at. rewrite (heap_swap _ _ _ _ _ _ Hx Hy). f_equal.
    destruct (expiringHeap pa !! transpose i j m); simpl; [|done]. apply expiry_of_swap.
Qed.

(** What an exchange keeps: the table, and which entries are in the heap. *)
Definition same_book (pa pa' : peerAddrs) : Prop :=
  view pa' = view pa /\ forall k, k ∈ expiringHeap pa' <-> k ∈ expiringHeap pa.

#[export] Instance same_book_preorder : PreOrder same_book.
Proof.
  split; [done|]. intros a b c [V1 M1] [V2 M2]. split; [congruence|]. intros k. by rewrite M2.
Qed.

Lemma swap_same pa i j : same_book pa (Swap i j pa).
Proof.
  split; [apply view_swap|]. intros k. simpl.
  destruct (expiringHeap pa !! i) as [x|] eqn:Hx; [|rewrite swap_out by auto; done].
  destruct (expiringHeap pa !! j) as [y|] eqn:Hy; [|rewrite swap_out by auto; done].
  rewrite !list_elem_of_lookup. setoid_rewrite (heap_swap _ _ _ _ _ _ Hx Hy). split; intros [m Em]; [by eexists|].
  exists (transpose i j m). by rewrite transpose_invol.
Qed.

(** ** The operations of the heap *)

Definition sorted (pa : peerAddrs) : Prop := ordered (length (expiringHeap pa)) (expiry_at pa).

Lemma same_index pa pa' k : indexed pa -> indexed pa' -> same_book pa pa' ->
  (index_of pa k = Some (-1) <-> index_of pa' k = Some (-1)).
Proof.
  intros Hw Hw' [Hv Hm].
  assert (is_Some (index_of pa k) <-> is_Some (index_of pa' k)) as Hd.
  { unfold index_of. rewrite !fmap_is_Some. pose proof (view_entry pa k) as E. rewrite <-Hv, view_entry in E.
    destruct (entry_of pa k), (entry_of pa' k); simpl in E; simplify_eq; split; eauto; by intros [? ?]. }
  assert (forall q, indexed q -> index_of q k = Some (-1) <-> is_Some (index_of q k) /\ k ∉ expiringHeap q) as Hq.
  { intros q [Hi Hn]. split.
    - intros E. split; [by eexists|]. rewrite list_elem_of_lookup. intros [i Ei]. apply Hi in Ei. rewrite E in Ei. simplify_eq. lia.
    - intros [[z Ez] Hk]. destruct (decide (z = -1)) as [->|]; [done|]. exfalso. apply Hk. rewrite list_elem_of_lookup.
      exists (Z.to_nat z). apply Hi. rewrite Ez. f_equal. pose proof (Hn k z Ez). lia. }
  rewrite (Hq pa Hw), (Hq pa' Hw'), Hd, Hm. done.
Qed.

Lemma Push_indexed k pa : indexed pa -> index_of pa k = Some (-1) -> indexed (Push k pa).
Proof.
  intros [Hi Hn] Hk. assert (k ∉ expiringHeap pa) as Hnk.
  { rewrite list_elem_of_lookup. intros [i Ei]. apply Hi in Ei. rewrite Ei in Hk. simplify_eq. lia. }
  unfold Push. split.
  - intros i k'. change (index_of (set_heap _ ?q) k') with (index_of q k'). rewrite index_of_write. simpl.
    destruct (decide (k' = k)) as [->|Hne].
    + rewrite Hk. simpl. unfold zlen. split.
      * intros [E|[Hl E]]%lookup_app_Some; [exfalso; apply Hnk; by eapply list_elem_of_lookup_2|].
        apply list_lookup_singleton_Some in E as [E _]. f_equal. lia.
      * intros [= E]. rewrite lookup_app_r by lia. replace (i - _)%nat with 0%nat by lia. done.
    + rewrite <-Hi. split; [|apply lookup_app_l_Some].
      intros [E|[Hl E]]%lookup_app_Some; [done|]. apply list_lookup_singleton_Some in E as [_ E]. congruence.
  - intros k' z. change (index_of (set_heap _ ?q) k') with (index_of q k'). rewrite index_of_write.
    destruct (decide _); [|apply Hn]. destruct (index_of pa k'); simpl; intros E; simplify_eq. unfold zlen. lia.
Qed.

Lemma last_split {A} (l : list A) k : last l = Some k -> l = removelast l ++ [k].
Proof. intros E. apply last_Some in E as [l' ->]. by rewrite removelast_last. Qed.

Lemma Pop_spec pa k : indexed pa -> expiringHeap pa !! (length (expiringHeap pa) - 1)%nat = Some k ->
  exists pa', Pop pa = (Some k, pa') /\ indexed pa' /\ view pa' = view pa /\ expiringHeap pa = expiringHeap pa' ++ [k] /\
    index_of pa' k = Some (-1) /\ k ∉ expiringHeap pa'.
Proof.
  intros [Hi Hn] Hl. unfold Pop. rewrite last_lookup. replace (pred _) with (length (expiringHeap pa) - 1)%nat by lia. rewrite Hl.
  eexists. split; [done|]. pose proof Hl as E. replace (_ - 1)%nat with (pred (length (expiringHeap pa))) in E by lia.
  rewrite <-last_lookup in E. apply last_split in E. set (l := removelast (expiringHeap pa)) in *.
  assert (k ∉ l) as Hkl.
  { rewrite list_elem_of_lookup. intros [i Ei]. pose proof (lookup_lt_Some _ _ _ Ei).
    assert (expiringHeap pa !! i = Some k) as Ei' by (rewrite E; by apply lookup_app_l_Some).
    apply Hi in Ei'. apply Hi in Hl. rewrite Ei' in Hl. injection Hl as Hl.
    apply (f_equal length) in E. rewrite length_app in E. simpl in E. lia. }
  assert (is_Some (index_of pa k)) as [z Ez] by (apply Hi in Hl; by eexists).
  split_and!; [split| |done| |done].
  - intros i k'. change (index_of (set_heap _ ?q) k') with (index_of q k'). rewrite index_of_write. simpl.
    destruct (decide (k' = k)) as [->|Hne].
    + rewrite Ez. simpl. split; [|intros; simplify_eq; lia]. intros Ei. exfalso. apply Hkl. by eapply list_elem_of_lookup_2.
    + rewrite <-Hi, E. split; [apply lookup_app_l_Some|].
      intros [Ei|[_ Ei]]%lookup_app_Some; [done|]. apply list_lookup_singleton_Some in Ei as [_ Ei]. congruence.
  - intros k' z'. change (index_of (set_heap _ ?q) k') with (index_of q k'). rewrite index_of_write.
    destruct (decide _); [|apply Hn]. destruct (index_of pa k'); simpl; intros; simplify_eq. lia.
  - apply (view_write (-1) k pa).
  - change (index_of (write (set_index (-1)) k pa) k = Some (-1)). rewrite index_of_write, decide_True, Ez by done. done.
Qed.

Lemma expiry_at_view pa pa' i : view pa' = view pa -> expiringHeap pa' !! i = expiringHeap pa !! i -> expiry_at pa' i = expiry_at pa i.
Proof. unfold expiry_at. intros Hv ->. destruct (expiringHeap pa !! i); simpl; [|done]. by rewrite !expiry_of_view, Hv. Qed.

(** [heap.Push] of an entry that is not in the heap. *)
Lemma heapPush_spec k pa : indexed pa -> sorted pa -> index_of pa k = Some (-1) ->
  let pa' := heapPush k pa in
  indexed pa' /\ sorted pa' /\ view pa' = view pa /\ length (expiringHeap pa') = S (length (expiringHeap pa)) /\
  (forall k', k' ∈ expiringHeap pa' <-> k' = k \/ k' ∈ expiringHeap pa).
Proof.
  intros Hw Ho Hk. unfold heapPush. pose proof (Push_indexed k pa Hw Hk) as Hw'.
  destruct (pushed_spec indexed item snd (Push k pa) Hw') as (H1 & H2 & H3).
  { simpl. rewrite length_app. simpl. lia. }
  { simpl. rewrite length_app. simpl. rewrite Nat.add_sub. intros j Hj. pose proof (Ho j Hj) as Hle.
    pose proof (parent_lt j ltac:(lia)). unfold prio, item. simpl snd.
    rewrite (expiry_at_view pa (Push k pa) (parent j)), (expiry_at_view pa (Push k pa) j);
      try (apply (view_write _ k pa)); try (simpl; rewrite lookup_app_l by lia; done). done. }
  destruct (pushed_keeps same_book swap_same (Push k pa)) as [Hv Hm].
  simpl in H2. rewrite length_app in H2. simpl in H2. split_and!.
  - done.
  - unfold sorted. rewrite H2. simpl in H3. rewrite length_app in H3. exact H3.
  - rewrite Hv. apply (view_write _ k pa).
  - rewrite H2. lia.
  - intros k'. rewrite Hm. simpl. rewrite elem_of_app, list_elem_of_singleton. tauto.
Qed.

Lemma lookup_Pop pa i k : expiringHeap pa !! i = Some k -> index_of pa k = Some (Z.of_nat i) -> (i < length (expiringHeap pa))%nat.
Proof. intros E _. by apply lookup_lt_Some in E. Qed.

(** What is left when the last entry is taken off. *)
Lemma Pop_after pa q k : indexed q -> same_book pa q -> length (expiringHeap q) = length (expiringHeap pa) ->
  (0 < length (expiringHeap pa))%nat ->
  ordered (length (expiringHeap pa) - 1) (prio item snd q) -> (item q (length (expiringHeap pa) - 1)).1 = Some k ->
  exists pa', Pop q = (Some k, pa') /\ indexed pa' /\ sorted pa' /\ view pa' = view pa /\ index_of pa' k = Some (-1) /\
    length (expiringHeap pa') = (length (expiringHeap pa) - 1)%nat /\
    (forall k', k' ∈ expiringHeap pa' <-> k' <> k /\ k' ∈ expiringHeap pa).
Proof.
  intros Hw [Hv Hm] Hl Hpos Ho Hk. simpl in Hk. rewrite <-Hl in Hk.
  destruct (Pop_spec q k Hw Hk) as (pa' & HP & Hi & Hv' & Hh & Hx & Hn). exists pa'.
  assert (length (expiringHeap pa') = (length (expiringHeap pa) - 1)%nat) as Hl'.
  { rewrite <-Hl, Hh, length_app. simpl. lia. }
  split_and!; [done|done| |congruence|done|done|].
  - unfold sorted. rewrite Hl'. intros j Hj. pose proof (Ho j Hj) as Hle. pose proof (parent_lt j ltac:(lia)).
    unfold prio, item in Hle. simpl in Hle.
    rewrite (expiry_at_view q pa' (parent j)), (expiry_at_view q pa' j); try done;
      rewrite Hh, lookup_app_l; (done || lia).
  - intros k'. rewrite <-Hm, Hh, elem_of_app, list_elem_of_singleton. split.
    + intros Hk'. split; [|by left]. intros ->. done.
    + intros [Hne [Hk'|Hk']]; done.
Qed.

(** [heap.Remove] of an entry of the heap. *)
Lemma heapRemove_spec pa k i : indexed pa -> around (length (expiringHeap pa)) (expiry_at pa) i -> index_of pa k = Some (Z.of_nat i) ->
  let pa' := heapRemove pa (Z.of_nat i) in
  indexed pa' /\ sorted pa' /\ view pa' = view pa /\ index_of pa' k = Some (-1) /\
  length (expiringHeap pa') = (length (expiringHeap pa) - 1)%nat /\
  (forall k', k' ∈ expiringHeap pa' <-> k' <> k /\ k' ∈ expiringHeap pa).
Proof.
  intros Hw Ho Hk. pose proof (proj2 (proj1 Hw i k) Hk) as El. pose proof (lookup_lt_Some _ _ _ El) as Hi.
  unfold heapRemove. rewrite Nat2Z.id.
  destruct (removing_spec indexed item snd pa i) as (H1 & H2 & H3 & H4); [done..|].
  destruct (Pop_after pa (removing pa i) k) as (pa' & -> & Hp); [done|apply removing_keeps; try apply _; apply swap_same|done|lia|done| |done].
  exact (eq_trans (f_equal fst H4) El).
Qed.

(** [heap.Pop] of a heap that is not empty. *)
Lemma heapPop_spec pa k : indexed pa -> sorted pa -> expiringHeap pa !! 0%nat = Some k ->
  exists pa', heapPop pa = (Some k, pa') /\ indexed pa' /\ sorted pa' /\ view pa' = view pa /\ index_of pa' k = Some (-1) /\
    length (expiringHeap pa') = (length (expiringHeap pa) - 1)%nat /\
    (forall k', k' ∈ expiringHeap pa' <-> k' <> k /\ k' ∈ expiringHeap pa).
Proof.
  intros Hw Ho El. pose proof (lookup_lt_Some _ _ _ El) as Hi.
  destruct (popping_spec indexed item snd pa) as (H1 & H2 & H3 & H4); [done|simpl; lia|done|].
  unfold heapPop. apply (Pop_after pa); [done|apply popping_keeps; try apply _; apply swap_same|done|lia|done|].
  exact (eq_trans (f_equal fst H4) El).
Qed.

(** [heap.Fix] of an entry whose expiry may not suit its place. *)
Lemma heapFix_spec pa i : indexed pa -> (i < length (expiringHeap pa))%nat ->
  around (length (expiringHeap pa)) (expiry_at pa) i ->
  let pa' := heapFix pa (Z.of_nat i) in
  indexed pa' /\ sorted pa' /\ same_book pa pa' /\ length (expiringHeap pa') = length (expiringHeap pa).
Proof.
  intros Hw Hi Ha. unfold heapFix. rewrite Nat2Z.id.
  destruct (fix_spec indexed item snd pa i) as (H1 & H2 & H3); [done..|]. split_and!; [done| |apply fix_keeps; try apply _; apply swap_same|done].
  unfold sorted. simpl in H2. rewrite H2. exact H3.
Qed.

(** ** The operations on the table *)

(** What is known of an address: its time to live and its expiry. *)
Definition known (pa : peerAddrs) (k : key) : option (Z * Z) := valid_of (view pa) k.

Lemma known_entry pa k : known pa k = (fun e => (TTL e, Expiry e)) <$> entry_of pa k.
Proof. apply view_entry. Qed.

Lemma known_None pa k : known pa k = None <-> entry_of pa k = None.
Proof. rewrite known_entry. apply fmap_None. Qed.

Lemma in_heap_index pa k : indexed pa -> k ∈ expiringHeap pa -> exists i, index_of pa k = Some (Z.of_nat i) /\ expiringHeap pa !! i = Some k.
Proof. intros [Hi _] [i Ei]%list_elem_of_lookup. exists i. split; [by apply Hi|done]. Qed.

Lemma index_heap pa k z : indexed pa -> index_of pa k = Some z -> z <> -1 -> exists i, z = Z.of_nat i /\ expiringHeap pa !! i = Some k.
Proof.
  intros [Hi Hn] Ez Hz. exists (Z.to_nat z). pose proof (Hn _ _ Ez). rewrite Z2Nat.id by lia. split; [done|].
  apply Hi. rewrite Ez. f_equal. lia.
Qed.

Lemma not_in_heap pa k : indexed pa -> (index_of pa k = Some (-1) \/ index_of pa k = None) <-> k ∉ expiringHeap pa.
Proof.
  intros Hw. split.
  - intros Hk (i & E & _)%(in_heap_index _ _ Hw). destruct Hk as [Hk|Hk]; rewrite Hk in E; simplify_eq. lia.
  - intros Hk. destruct (index_of pa k) as [z|] eqn:E; [left|by right]. destruct (decide (z = -1)) as [->|Hz]; [done|].
    destruct (index_heap _ _ _ Hw E Hz) as (i & _ & Ei). exfalso. apply Hk. by eapply list_elem_of_lookup_2.
Qed.

Lemma entry_of_forget k k' pa : entry_of (forget k pa) k' = if decide (k' = k) then None else entry_of pa k'.
Proof.
  unfold entry_of, forget; simpl. destruct k as [p a], k' as [p' a']; simpl.
  destruct (decide (p' = p)) as [->|Hp].
  - destruct (decide (delete a (default ∅ (Addrs pa !! p)) = ∅)) as [E|E].
    + rewrite lookup_delete_eq. simpl. destruct (decide (a' = a)) as [->|Ha]; [by rewrite decide_True|].
      rewrite decide_False by congruence. destruct (Addrs pa !! p) as [m|]; simpl in *; [|done].
      pose proof (f_equal (fun q : gmap Maddr entry => q !! a') E) as E'. simpl in E'. rewrite lookup_delete_ne, lookup_empty in E' by done. done.
    + rewrite lookup_insert_eq. simpl. destruct (decide (a' = a)) as [->|Ha]; [rewrite decide_True by done; apply lookup_delete_eq|].
      rewrite decide_False by congruence. rewrite lookup_delete_ne by done. by destruct (Addrs pa !! p).
  - rewrite (decide_False (P := (p', a') = (p, a))) by congruence. destruct (decide _); [by rewrite lookup_delete_ne|by rewrite lookup_insert_ne].
Qed.

Lemma index_of_forget k k' pa : index_of (forget k pa) k' = if decide (k' = k) then None else index_of pa k'.
Proof. unfold index_of. rewrite entry_of_forget. by destruct (decide _). Qed.

Lemma known_forget k k' pa : known (forget k pa) k' = if decide (k' = k) then None else known pa k'.
Proof. rewrite !known_entry, entry_of_forget. by destruct (decide _). Qed.

Lemma expiry_at_known pa pa' i : expiringHeap pa' !! i = expiringHeap pa !! i ->
  (forall k, expiringHeap pa !! i = Some k -> known pa' k = known pa k) -> expiry_at pa' i = expiry_at pa i.
Proof.
  unfold expiry_at. intros -> Hk. destruct (expiringHeap pa !! i) as [k|]; simpl; [|done].
  rewrite !expiry_of_view. fold (known pa' k) (known pa k). by rewrite Hk.
Qed.

(** A heap that has not changed is in order if what is known of its entries has not. *)
Lemma sorted_known pa pa' : expiringHeap pa' = expiringHeap pa -> (forall k, k ∈ expiringHeap pa -> known pa' k = known pa k) ->
  sorted pa -> sorted pa'.
Proof.
  intros Eh Hk Ho. unfold sorted. rewrite Eh. intros j Hj. pose proof (parent_lt j ltac:(lia)). pose proof (Ho j Hj).
  rewrite (expiry_at_known pa pa' (parent j)), (expiry_at_known pa pa' j); try (by rewrite Eh); try done;
    intros k Ek; apply Hk; by eapply list_elem_of_lookup_2.
Qed.

Lemma forget_nonempty k pa p : (forall p, Addrs pa !! p <> Some ∅) -> Addrs (forget k pa) !! p <> Some ∅.
Proof.
  intros Hne. unfold forget; simpl. destruct (decide _) as [E|E].
  - destruct (decide (p = k.1)) as [->|]; [by rewrite lookup_delete_eq|by rewrite lookup_delete_ne].
  - destruct (decide (p = k.1)) as [->|]; [rewrite lookup_insert_eq; congruence|by rewrite lookup_insert_ne].
Qed.

Lemma view_nonempty pa pa' : view pa' = view pa -> (forall p, Addrs pa !! p <> Some ∅) -> forall p, Addrs pa' !! p <> Some ∅.
Proof. intros Hv Hne p. rewrite view_empty_iff, Hv, <-view_empty_iff. apply Hne. Qed.

(** Forgetting an address that has left the heap. *)
Lemma forget_wf k pa : indexed pa -> sorted pa -> k ∉ expiringHeap pa ->
  (forall k' t x, k' ∈ expiringHeap pa -> known pa k' = Some (t, x) -> ttlIsConnected t = false) ->
  (forall p, Addrs pa !! p <> Some ∅) -> wf (forget k pa).
Proof.
  intros Hw Ho Hk Hu Hne. split.
  - pose proof Hw as [Hi Hn]. split.
    + intros i k'. rewrite index_of_forget. simpl. rewrite Hi. destruct (decide (k' = k)) as [->|]; [|done].
      split; [|done]. intros E%Hi. exfalso. apply Hk. by eapply list_elem_of_lookup_2.
    + intros k' z. rewrite index_of_forget. destruct (decide _); [done|apply Hn].
  - apply (sorted_known pa); [done| |done]. intros k' Hk'. rewrite known_forget, decide_False; [done|]. by intros ->.
  - simpl. intros k' e Hk' E. rewrite entry_of_forget in E. destruct (decide _); [done|].
    apply (Hu k' (TTL e) (Expiry e)); [done|]. by rewrite known_entry, E.
  - intros p. by apply forget_nonempty.
Qed.

Lemma wf_known pa k t x : wf pa -> k ∈ expiringHeap pa -> known pa k = Some (t, x) -> ttlIsConnected t = false.
Proof.
  intros Hw Hk E. rewrite known_entry in E. destruct (entry_of pa k) as [e|] eqn:Ee; simplify_eq/=. by apply (wf_unconnected pa Hw k e).
Qed.

Lemma same_known pa pa' k : view pa' = view pa -> known pa' k = known pa k.
Proof. unfold known. by intros ->. Qed.

(** [Delete]: the address is unknown afterwards, nothing else changes. *)
Lemma Delete_spec k pa : wf pa ->
  wf (Delete k pa) /\ (forall k', known (Delete k pa) k' = if decide (k' = k) then None else known pa k') /\
  (forall k', k' ∈ expiringHeap (Delete k pa) <-> k' <> k /\ k' ∈ expiringHeap pa) /\
  (length (expiringHeap (Delete k pa)) <= length (expiringHeap pa))%nat.
Proof.
  intros Hw. unfold Delete. destruct (entry_of pa k) as [e|] eqn:E.
  2:{ assert (known pa k = None) as Ek by by apply known_None. split_and!; [done| | |done].
      - intros k'. destruct (decide _) as [->|]; [done|]. done.
      - intros k'. split; [|tauto]. intros Hk'. split; [|done]. intros ->.
        destruct (in_heap_index _ _ (wf_indexed pa Hw) Hk') as (i & Ei & _). unfold index_of in Ei. by rewrite E in Ei. }
  destruct (Z.eqb_spec (heapIndex e) (-1)) as [Ez|Ez].
  - assert (k ∉ expiringHeap pa) as Hk.
    { apply not_in_heap; [apply Hw|]. left. unfold index_of. rewrite E. simpl. by rewrite Ez. }
    split_and!; [|intros k'; apply known_forget| |done].
    + apply forget_wf; [apply Hw..|done|intros; by eapply wf_known|apply Hw].
    + intros k'. split; [|by intros [_ ?]]. intros Hk'. split; [|done]. by intros ->.
  - destruct (index_heap pa k (heapIndex e)) as (i & Ei & Hi); [apply Hw|unfold index_of; by rewrite E|done|]. rewrite Ei.
    pose proof (lookup_lt_Some _ _ _ Hi).
    destruct (heapRemove_spec pa k i) as (H1 & H2 & H3 & H4 & H5 & H6); [apply Hw|apply ordered_around; [apply Hw|done]|by apply Hw|].
    set (q := heapRemove pa (Z.of_nat i)) in *. assert (k ∉ expiringHeap q) as Hk by (rewrite H6; tauto).
    split_and!.
    + apply forget_wf; [done..| |by apply (view_nonempty pa); [|apply Hw]].
      intros k' t x Hk' Et. rewrite (same_known _ _ _ H3) in Et. eapply wf_known; [done| |done]. by apply H6.
    + intros k'. rewrite known_forget. by rewrite (same_known _ _ _ H3).
    + done.
    + simpl. rewrite H5. lia.
Qed.

(** [Insert] of an address that is not there. *)
Lemma Insert_spec k ttl exp pa : wf pa -> known pa k = None ->
  wf (Insert k ttl exp pa) /\ (forall k', known (Insert k ttl exp pa) k' = if decide (k' = k) then Some (ttl, exp) else known pa k') /\
  (forall k', k' ∈ expiringHeap (Insert k ttl exp pa) <-> (k' = k /\ ttlIsConnected ttl = false) \/ k' ∈ expiringHeap pa) /\
  length (expiringHeap (Insert k ttl exp pa)) =
    (length (expiringHeap pa) + (if ttlIsConnected ttl then 0 else 1))%nat.
Proof.
  intros Hw Hn. unfold Insert. set (a := Entry ttl exp (-1)). set (q := Build_peerAddrs _ _).
  assert (forall k', entry_of q k' = if decide (k' = k) then Some a else entry_of pa k') as Hq.
  { intros k'. unfold q, entry_of. destruct k as [p x], k' as [p' x']; simpl. destruct (decide (p' = p)) as [->|].
    - rewrite lookup_insert_eq. simpl. destruct (decide (x' = x)) as [->|]; [by rewrite lookup_insert_eq, decide_True|].
      rewrite lookup_insert_ne, decide_False by (done || congruence). by destruct (Addrs pa !! p).
    - by rewrite lookup_insert_ne, decide_False by (done || congruence). }
  assert (forall k', known q k' = if decide (k' = k) then Some (ttl, exp) else known pa k') as Hkq.
  { intros k'. rewrite !known_entry, Hq. by destruct (decide _). }
  assert (k ∉ expiringHeap pa) as Hk.
  { apply not_in_heap; [apply Hw|]. right. apply known_None in Hn. unfold index_of. by rewrite Hn. }
  assert (indexed q) as Hi.
  { destruct (wf_indexed pa Hw) as [Hi Hz]. split.
    - intros i k'. unfold index_of. rewrite Hq. change (expiringHeap q) with (expiringHeap pa). rewrite Hi.
      destruct (decide (k' = k)) as [->|]; [|done]. simpl. split; [|intros; simplify_eq; lia].
      intros E%Hi. exfalso. apply Hk. by eapply list_elem_of_lookup_2.
    - intros k' z. unfold index_of. rewrite Hq. destruct (decide _); [simpl; intros; simplify_eq; lia|apply Hz]. }
  assert (sorted q) as Ho.
  { apply (sorted_known pa); [done| |apply Hw]. intros k' Hk'. rewrite Hkq, decide_False; [done|]. by intros ->. }
  assert (forall p, Addrs q !! p <> Some ∅) as Hne.
  { intros p. simpl. destruct (decide (p = k.1)) as [->|]; [|rewrite lookup_insert_ne by done; apply Hw].
    rewrite lookup_insert_eq. intros [= E]. apply (f_equal (lookup k.2)) in E. by rewrite lookup_insert_eq in E. }
  change (IsConnected a) with (ttlIsConnected ttl). destruct (ttlIsConnected ttl) eqn:Ec.
  - split_and!; [split; try done| | |by rewrite Nat.add_0_r].
    + intros k' e Hk' E. rewrite Hq in E. destruct (decide (k' = k)) as [->|]; [done|]. by apply (wf_unconnected pa Hw k' e).
    + intros k'. apply Hkq.
    + intros k'. split; [by right|]. by intros [[_ ?]|?].
  - destruct (heapPush_spec k q) as (H1 & H2 & H3 & H4 & H5); [done|done|unfold index_of; by rewrite Hq, decide_True|].
    split_and!.
    + split; [done..| |by apply (view_nonempty q)]. intros k' e Hk' E.
      assert (known (heapPush k q) k' = Some (TTL e, Expiry e)) as Et by by rewrite known_entry, E.
      rewrite (same_known _ _ _ H3), Hkq in Et. destruct (decide (k' = k)) as [->|]; [unfold IsConnected; congruence|].
      apply H5 in Hk' as [->|Hk']; [done|]. by apply (wf_known pa k' _ _ Hw Hk') in Et.
    + intros k'. by rewrite (same_known _ _ _ H3), Hkq.
    + intros k'. rewrite H5. simpl. tauto.
    + rewrite H4. simpl. lia.
Qed.

(** Changing the time to live and the expiry of an address, and [Update]: the heap is in
    order again, and the address has left it if it is now held by a connection.  An address
    that is not in the heap stays outside. *)
Lemma Update_spec k ttl exp pa : wf pa -> is_Some (known pa k) ->
  let pa' := Update k (write (fun a => {| TTL := ttl; Expiry := exp; heapIndex := heapIndex a |}) k pa) in
  wf pa' /\ (forall k', known pa' k' = if decide (k' = k) then Some (ttl, exp) else known pa k') /\
  (forall k', k' ∈ expiringHeap pa' <-> k' ∈ expiringHeap pa /\ ~ (k' = k /\ ttlIsConnected ttl = true)) /\
  (length (expiringHeap pa') <= length (expiringHeap pa))%nat.
Proof.
  intros Hw Hs. set (f := fun a => _). set (q := write f k pa).
  assert (exists e, entry_of pa k = Some e) as [e Ee].
  { destruct Hs as [x Hx]. rewrite known_entry in Hx. destruct (entry_of pa k); [by eexists|done]. }
  assert (forall k', entry_of q k' = if decide (k' = k) then Some (f e) else entry_of pa k') as Hq.
  { intros k'. unfold q. rewrite entry_of_write. destruct (decide (k' = k)) as [->|]; [by rewrite Ee|done]. }
  assert (forall k', index_of q k' = index_of pa k') as Hix.
  { intros k'. unfold index_of. rewrite Hq. destruct (decide (k' = k)) as [->|]; [by rewrite Ee|done]. }
  assert (forall k', known q k' = if decide (k' = k) then Some (ttl, exp) else known pa k') as Hkq.
  { intros k'. rewrite !known_entry, Hq. by destruct (decide _). }
  assert (indexed q) as Hi.
  { destruct (wf_indexed pa Hw) as [Hi Hn]. split; [intros i k'|intros k' z]; rewrite Hix; [apply Hi|apply Hn]. }
  assert (forall p, Addrs q !! p <> Some ∅) as Hne.
  { intros p. unfold q. simpl. destruct (decide (p = k.1)) as [->|]; [|rewrite lookup_alter_ne by done; apply Hw].
    rewrite lookup_alter_eq. unfold entry_of in Ee. destruct (Addrs pa !! k.1) as [m|] eqn:Em; simpl in *; [|done].
    intros [= E]. apply (f_equal (lookup k.2)) in E. rewrite lookup_alter_eq, Ee in E. done. }
  unfold Update. rewrite (Hq k), decide_True by done. simpl.
  destruct (Z.eqb_spec (heapIndex e) (-1)) as [Ez|Ez].
  - assert (k ∉ expiringHeap pa) as Hk.
    { apply not_in_heap; [apply Hw|]. left. unfold index_of. rewrite Ee. simpl. by rewrite Ez. }
    split_and!; [split; [done| | |done]|apply Hkq| |done].
    + apply (sorted_known pa); [done| |apply Hw]. intros k' Hk'. rewrite Hkq, decide_False; [done|]. by intros ->.
    + intros k' e' Hk' E. rewrite Hq in E. destruct (decide (k' = k)) as [->|]; [done|]. by apply (wf_unconnected pa Hw k' e').
    + intros k'. split; [|tauto]. intros Hk'. split; [done|]. by intros [-> _].
  - destruct (index_heap pa k (heapIndex e)) as (i & Ei & El); [apply Hw|unfold index_of; by rewrite Ee|done|]. rewrite Ei.
    pose proof (lookup_lt_Some _ _ _ El) as Hl.
    assert (around (length (expiringHeap q)) (expiry_at q) i) as Ha.
    { assert (forall m, m <> i -> (m < length (expiringHeap pa))%nat -> expiry_at q m = expiry_at pa m) as Hsame.
      { intros m Hm _. apply expiry_at_known; [done|]. intros k' Ek. rewrite Hkq, decide_False; [done|]. intros ->.
        apply Hm. apply (indexed_inj pa _ _ k); [apply Hw|done..]. }
      change (length (expiringHeap q)) with (length (expiringHeap pa)).
      destruct (ordered_around _ _ i (wf_ordered pa Hw) Hl) as [Ha Hb]. split.
      - intros m Hm H1 H2. pose proof (parent_lt m ltac:(lia)). rewrite !Hsame by (done || lia). by apply Ha.
      - intros m Hm Hp H0. pose proof (parent_lt m ltac:(lia)). pose proof (parent_lt i H0). rewrite !Hsame by lia. by apply Hb. }
    assert (index_of q k = Some (Z.of_nat i)) as Eix by (rewrite Hix; by apply Hw).
    change (IsConnected (f e)) with (ttlIsConnected ttl).
    assert (forall q', view q' = view q -> forall k' e', k' ∈ expiringHeap pa -> (k' = k -> ttlIsConnected ttl = false) ->
      entry_of q' k' = Some e' -> IsConnected e' = false) as Hun.
    { intros q' Hv k' e' Hk' Hc E. assert (known q' k' = Some (TTL e', Expiry e')) as Et by by rewrite known_entry, E.
      rewrite (same_known _ _ _ Hv), Hkq in Et. destruct (decide (k' = k)) as [->|]; [unfold IsConnected; simplify_eq; auto|].
      by apply (wf_known pa k' _ _ Hw Hk') in Et. }
    destruct (ttlIsConnected ttl) eqn:Ec.
    + destruct (heapRemove_spec q k i Hi Ha Eix) as (H1 & H2 & H3 & _ & H5 & H6).
      split_and!; [split; [done..| |by apply (view_nonempty q)]| | |rewrite H5; simpl; lia].
      * intros k' e' Hk' E. apply H6 in Hk' as [Hne' Hk']. by apply (Hun _ H3 k' e').
      * intros k'. by rewrite (same_known _ _ _ H3).
      * intros k'. rewrite H6. simpl. naive_solver.
    + destruct (heapFix_spec q i Hi Hl Ha) as (H1 & H2 & [H3 H4] & H5).
      split_and!; [split; [done..| |by apply (view_nonempty q)]| | |rewrite H5; simpl; lia].
      * intros k' e' Hk' E. apply H4 in Hk'. by apply (Hun _ H3 k' e').
      * intros k'. by rewrite (same_known _ _ _ H3).
      * intros k'. rewrite H4. simpl. naive_solver.
Qed.

(** [PopIfExpired] takes an entry of the heap that has expired, if there is one. *)
Lemma PopIfExpired_spec now pa : wf pa ->
  match PopIfExpired now pa with
  | (Some k, pa') => wf pa' /\ k ∈ expiringHeap pa /\ expiry_of pa k <= now /\
      (forall k', known pa' k' = if decide (k' = k) then None else known pa k') /\
      (forall k', k' ∈ expiringHeap pa' <-> k' <> k /\ k' ∈ expiringHeap pa) /\
      length (expiringHeap pa) = S (length (expiringHeap pa'))
  | (None, pa') => pa' = pa /\ forall k, k ∈ expiringHeap pa -> now < expiry_of pa k
  end.
Proof.
  intros Hw. unfold PopIfExpired, NextExpiry. destruct (expiringHeap pa) as [|k l] eqn:El.
  { split; [done|]. intros k Hk. by apply elem_of_nil in Hk. }
  rewrite bool_decide_eq_true_2 by (simpl; lia). cbn [andb]. unfold time_before.
  assert (expiringHeap pa !! 0%nat = Some k) as E0 by by rewrite El.
  destruct (Z.ltb_spec now (expiry_of pa k)) as [Hlt|Hge]; cbn [negb].
  - split; [done|]. intros k' Hk'. rewrite <-El in Hk'. apply list_elem_of_lookup in Hk' as [i Ei].
    pose proof (lookup_lt_Some _ _ _ Ei). pose proof (ordered_root _ _ (wf_ordered pa Hw) i ltac:(lia)) as Hr.
    unfold expiry_at in Hr. rewrite E0, Ei in Hr. simpl in Hr. lia.
  - destruct (heapPop_spec pa k (wf_indexed pa Hw) (wf_ordered pa Hw) E0) as (q & -> & H1 & H2 & H3 & H4 & H5 & H6).
    rewrite <-El. assert (k ∉ expiringHeap q) as Hk by (rewrite H6; tauto). split_and!.
    + apply forget_wf; [done..| |by apply (view_nonempty pa); [|apply Hw]].
      intros k' t x Hk' Et. rewrite (same_known _ _ _ H3) in Et. eapply wf_known; [done| |done]. by apply H6.
    + by eapply list_elem_of_lookup_2.
    + lia.
    + intros k'. rewrite known_forget. by rewrite (same_known _ _ _ H3).
    + done.
    + simpl. rewrite H5. rewrite El. simpl. lia.
Qed.
End book.
