(* ===== verification/MemAddrBook.v ===== *)
(** * The address book of the peer store: its operations

    [memoryAddrBook] of addr_book.go over the tables of [AddrBook].  An operation holds the
    lock and reads the clock once: it is one step, whose time is its argument.  What the
    book tells its subscribers is the log [announced].  A nil multiaddress is [None]; how
    go-multiaddr splits one, and how an envelope is decoded and its key compared, are
    arguments. *)

From S2P Require Import Prelude GoLib GoHeap AddrBook.

Notation peer := string.

Section operations.
Context {Maddr : Type} `{Countable Maddr} `{MapRange}.
(** [ma.SplitLast], of a last component its protocol and its value. *)
Context (SplitLast : Maddr -> option Maddr * option (Z * peer)).

Notation key := (peer * Maddr)%type.
Notation table := (@peerAddrs Maddr _ _).

Record PeerRecord := { PeerID : peer; RecAddrs : list (option Maddr); RecSeq : Z }.

(** [Record] of an envelope ([Ok None]: a record of another type), [MatchesPublicKey]. *)
Context {Envelope : Type} (decode : Envelope -> res (option PeerRecord)) (MatchesPublicKey : peer -> Envelope -> bool).

Record peerRecordState := { StateEnvelope : Envelope; Seq : Z }.

Record memoryAddrBook := {
  addrs : table;
  signedPeerRecords : gmap peer peerRecordState;
  maxUnconnectedAddrs : Z;
  maxSignedPeerRecords : Z;
  maxAddrsPerPeer : Z;
  announced : list key
}.

Definition NewAddrBook : memoryAddrBook := {|
  addrs := newPeerAddrs; signedPeerRecords := ∅;
  maxUnconnectedAddrs := defaultMaxUnconnectedAddrs; maxSignedPeerRecords := defaultMaxSignedPeerRecords;
  maxAddrsPerPeer := defaultMaxAddrsPerPeer; announced := []
|}.

Definition set_addrs (t : table) (b : memoryAddrBook) : memoryAddrBook := {|
  addrs := t; signedPeerRecords := signedPeerRecords b; maxUnconnectedAddrs := maxUnconnectedAddrs b;
  maxSignedPeerRecords := maxSignedPeerRecords b; maxAddrsPerPeer := maxAddrsPerPeer b; announced := announced b |}.
Definition set_records (m : gmap peer peerRecordState) (b : memoryAddrBook) : memoryAddrBook := {|
  addrs := addrs b; signedPeerRecords := m; maxUnconnectedAddrs := maxUnconnectedAddrs b;
  maxSignedPeerRecords := maxSignedPeerRecords b; maxAddrsPerPeer := maxAddrsPerPeer b; announced := announced b |}.
Definition BroadcastAddr (k : key) (b : memoryAddrBook) : memoryAddrBook := {|
  addrs := addrs b; signedPeerRecords := signedPeerRecords b; maxUnconnectedAddrs := maxUnconnectedAddrs b;
  maxSignedPeerRecords := maxSignedPeerRecords b; maxAddrsPerPeer := maxAddrsPerPeer b; announced := announced b ++ [k] |}.
Definition set_limits (unconnected signed perPeer : Z) (b : memoryAddrBook) : memoryAddrBook := {|
  addrs := addrs b; signedPeerRecords := signedPeerRecords b; maxUnconnectedAddrs := unconnected;
  maxSignedPeerRecords := signed; maxAddrsPerPeer := perPeer; announced := announced b |}.

(** [pa.Addrs[p]] *)
Definition addrs_of (p : peer) (b : memoryAddrBook) : gmap Maddr entry := default ∅ (Addrs (addrs b) !! p).

(** core/peer/addrinfo.go *)
Definition SplitAddr (m : option Maddr) : option Maddr * peer :=
  match m with
  | None => (None, "")
  | Some a =>
    match SplitLast a with
    | (transport, Some (code, id)) => if code =? P_P2P then (transport, id) else (Some a, "")
    | (_, None) => (Some a, "")
    end
  end.

Definition maybeDeleteSignedPeerRecordUnlocked (p : peer) (b : memoryAddrBook) : memoryAddrBook :=
  if decide (addrs_of p b = ∅) then set_records (delete p (signedPeerRecords b)) b else b.

Fixpoint gcLoop (fuel : nat) (now : Z) (b : memoryAddrBook) : option memoryAddrBook :=
  match fuel with
  | O => None
  | S fuel =>
    match PopIfExpired now (addrs b) with
    | (None, t) => Some (set_addrs t b)
    | (Some ea, t) => gcLoop fuel now (maybeDeleteSignedPeerRecordUnlocked ea.1 (set_addrs t b))
    end
  end.

(** Each turn of the loop but the last takes an entry from the heap. *)
Definition gc (now : Z) (b : memoryAddrBook) : memoryAddrBook :=
  default b (gcLoop (S (length (expiringHeap (addrs b)))) now b).

Definition PeersWithAddrs (b : memoryAddrBook) : list peer := (range_map 0 (Addrs (addrs b))).*1.

(** ** Adding *)

Definition numUnconnectedAddrsForPeerUnlocked (p : peer) (b : memoryAddrBook) : Z :=
  foldl (fun n a => if IsConnected a.2 then n else n + 1) 0 (range_map 1 (addrs_of p b)).

Definition nearer (victim : option (Maddr * entry)) (a : Maddr * entry) : option (Maddr * entry) :=
  if IsConnected a.2 then victim
  else match victim with
       | None => Some a
       | Some v => if time_before (Expiry a.2) (Expiry v.2) then Some a else victim
       end.

Definition evictNearestExpiryUnconnectedForPeerUnlocked (p : peer) (b : memoryAddrBook) : bool * memoryAddrBook :=
  match foldl nearer None (range_map 2 (addrs_of p b)) with
  | None => (false, b)
  | Some victim => (true, set_addrs (Delete (p, victim.1) (addrs b)) b)
  end.

(** The cap on the addresses of a peer stands in the way, and nothing can be evicted. *)
Definition makeRoom (p : peer) (ttl : Z) (b : memoryAddrBook) : bool * memoryAddrBook :=
  if (0 <? maxAddrsPerPeer b) && negb (ttlIsConnected ttl) &&
     (maxAddrsPerPeer b <=? numUnconnectedAddrsForPeerUnlocked p b)
  then evictNearestExpiryUnconnectedForPeerUnlocked p b
  else (true, b).

Definition insertNew (p : peer) (addr : Maddr) (ttl exp : Z) (b : memoryAddrBook) : memoryAddrBook :=
  match makeRoom p ttl b with
  | (false, b) => b
  | (true, b) => BroadcastAddr (p, addr) (set_addrs (Insert (p, addr) ttl exp (addrs b)) b)
  end.

(** [a.TTL = ttl; a.Expiry = exp; mab.addrs.Update(a)] *)
Definition renew (k : key) (ttl exp : Z) (b : memoryAddrBook) : memoryAddrBook :=
  set_addrs (Update k (write (fun a => {| TTL := ttl; Expiry := exp; heapIndex := heapIndex a |}) k (addrs b))) b.

Definition addAddr (p : peer) (ttl exp : Z) (b : memoryAddrBook) (addr : option Maddr) : memoryAddrBook :=
  match SplitAddr addr with
  | (None, _) => b
  | (Some addr, addrPid) =>
    if negb (addrPid =? "")%string && negb (addrPid =? p)%string then b
    else match FindAddr p addr (addrs b) with
         | None => insertNew p addr ttl exp b
         | Some a =>
           let ttl' := if TTL a <? ttl then ttl else TTL a in
           let exp' := if time_after exp (Expiry a) then exp else Expiry a in
           if (TTL a <? ttl) || time_after exp (Expiry a) then renew (p, addr) ttl' exp' b else b
         end
  end.

Definition overLimit (ttl : Z) (b : memoryAddrBook) : bool :=
  negb (ttlIsConnected ttl) && (maxUnconnectedAddrs b <=? NumUnconnectedAddrs (addrs b)).

Definition addAddrsUnlocked (now : Z) (p : peer) (l : list (option Maddr)) (ttl : Z) (b : memoryAddrBook) : memoryAddrBook :=
  maybeDeleteSignedPeerRecordUnlocked p
    (if ttl <=? 0 then b
     else if overLimit ttl b then b
     else foldl (addAddr p ttl (now + ttl)) b l).

Definition AddAddrs := addAddrsUnlocked.

(** ** Signed records *)

Definition prevSignedAddrs (s : peerRecordState) : list (option Maddr) :=
  match decode (StateEnvelope s) with Ok (Some pr) => RecAddrs pr | _ => [] end.

Definition dropPrev (p : peer) (new : list (option Maddr)) (b : memoryAddrBook) (a : option Maddr) : memoryAddrBook :=
  if decide (a ∈ new) then b
  else match a with
       | None => b
       | Some a =>
         match FindAddr p a (addrs b) with
         | Some ea => if IsConnected ea then b else set_addrs (Delete (p, a) (addrs b)) b
         | None => b
         end
       end.

Definition ConsumePeerRecord (now : Z) (env : Envelope) (ttl : Z) (b : memoryAddrBook) : res bool * memoryAddrBook :=
  match decode env with
  | Fail e => (Fail e, b)
  | Panic => (Panic, b)
  | Ok None => (Fail "unable to process envelope: not a PeerRecord", b)
  | Ok (Some rec) =>
    if negb (MatchesPublicKey (PeerID rec) env) then (Fail "signing key does not match PeerID in PeerRecord", b)
    else
      let lastState := signedPeerRecords b !! PeerID rec in
      match lastState with
      | Some s =>
        if RecSeq rec <? Seq s then (Ok false, b)
        else
          let b := foldl (dropPrev (PeerID rec) (RecAddrs rec)) b (prevSignedAddrs s) in
          let b := set_records (<[PeerID rec := {| StateEnvelope := env; Seq := RecSeq rec |}]> (signedPeerRecords b)) b in
          (Ok true, addAddrsUnlocked now (PeerID rec) (RecAddrs rec) ttl b)
      | None =>
        if maxSignedPeerRecords b <=? Z.of_nat (size (signedPeerRecords b)) then (Fail "too many signed peer records", b)
        else
          let b := set_records (<[PeerID rec := {| StateEnvelope := env; Seq := RecSeq rec |}]> (signedPeerRecords b)) b in
          (Ok true, addAddrsUnlocked now (PeerID rec) (RecAddrs rec) ttl b)
      end
  end.

(** ** Setting, updating, clearing *)

Definition setAddr (p : peer) (ttl exp : Z) (b : memoryAddrBook) (addr : option Maddr) : memoryAddrBook :=
  match SplitAddr addr with
  | (None, _) => b
  | (Some addr, addrPid) =>
    if negb (addrPid =? "")%string && negb (addrPid =? p)%string then b
    else match FindAddr p addr (addrs b) with
         | Some a =>
           if 0 <? ttl then
             if IsConnected a && overLimit ttl b then set_addrs (Delete (p, addr) (addrs b)) b
             else BroadcastAddr (p, addr) (renew (p, addr) ttl exp b)
           else set_addrs (Delete (p, addr) (addrs b)) b
         | None =>
           if 0 <? ttl then if overLimit ttl b then b else insertNew p addr ttl exp b
           else b
         end
  end.

Definition SetAddrs (now : Z) (p : peer) (l : list (option Maddr)) (ttl : Z) (b : memoryAddrBook) : memoryAddrBook :=
  maybeDeleteSignedPeerRecordUnlocked p (foldl (setAddr p ttl (now + ttl)) b l).

Definition updateAddr (p : peer) (oldTTL newTTL exp : Z) (b : memoryAddrBook) (a : Maddr) : memoryAddrBook :=
  match entry_of (addrs b) (p, a) with
  | None => b
  | Some e =>
    if oldTTL =? TTL e then
      if newTTL =? 0 then set_addrs (Delete (p, a) (addrs b)) b
      else if ttlIsConnected oldTTL && overLimit newTTL b then set_addrs (Delete (p, a) (addrs b)) b
      else renew (p, a) newTTL exp b
    else b
  end.

Definition UpdateAddrs (now : Z) (p : peer) (oldTTL newTTL : Z) (b : memoryAddrBook) : memoryAddrBook :=
  maybeDeleteSignedPeerRecordUnlocked p
    (foldl (updateAddr p oldTTL newTTL (now + newTTL)) b (range_map 3 (addrs_of p b)).*1).

Definition ClearAddrs (p : peer) (b : memoryAddrBook) : memoryAddrBook :=
  let b := set_records (delete p (signedPeerRecords b)) b in
  foldl (fun b a => set_addrs (Delete (p, a) (addrs b)) b) b (range_map 5 (addrs_of p b)).*1.

(** ** Reading *)

Definition validAddrs (now : Z) (amap : gmap Maddr entry) : list Maddr :=
  (filter (fun m => ExpiredBy now m.2 = false) (range_map 4 amap)).*1.

Definition Addrs_ (now : Z) (p : peer) (b : memoryAddrBook) : list Maddr :=
  match Addrs (addrs b) !! p with None => [] | Some m => validAddrs now m end.

Definition GetPeerRecord (now : Z) (p : peer) (b : memoryAddrBook) : option Envelope :=
  match Addrs (addrs b) !! p with
  | None => None
  | Some m =>
    match validAddrs now m with
    | [] => None
    | _ => StateEnvelope <$> signedPeerRecords b !! p
    end
  end.

(** ** Histories *)

Inductive op :=
  | OpAdd (now : Z) (p : peer) (l : list (option Maddr)) (ttl : Z)
  | OpSet (now : Z) (p : peer) (l : list (option Maddr)) (ttl : Z)
  | OpUpdate (now : Z) (p : peer) (oldTTL newTTL : Z)
  | OpClear (p : peer)
  | OpConsume (now : Z) (env : Envelope) (ttl : Z)
  | OpGc (now : Z).

Definition step (b : memoryAddrBook) (o : op) : memoryAddrBook :=
  match o with
  | OpAdd now p l ttl => AddAddrs now p l ttl b
  | OpSet now p l ttl => SetAddrs now p l ttl b
  | OpUpdate now p oldTTL newTTL => UpdateAddrs now p oldTTL newTTL b
  | OpClear p => ClearAddrs p b
  | OpConsume now env ttl => (ConsumePeerRecord now env ttl b).2
  | OpGc now => gc now b
  end.

Definition run (b : memoryAddrBook) (l : list op) : memoryAddrBook := foldl step b l.

(** ** What the steps of an operation change

    [touch p b b']: the steps an operation on the peer [p] is made of keep the tables in
    order and change nothing of other peers, of the records and of the limits. *)

Definition touch (p : peer) (b b' : memoryAddrBook) : Prop :=
  wf (addrs b) ->
  wf (addrs b') /\
  (forall k, k.1 <> p -> known (addrs b') k = known (addrs b) k /\ (k ∈ expiringHeap (addrs b') <-> k ∈ expiringHeap (addrs b))) /\
  signedPeerRecords b' = signedPeerRecords b /\ maxAddrsPerPeer b' = maxAddrsPerPeer b.

#[export] Instance touch_preorder p : PreOrder (touch p).
Proof.
  split; [done|]. intros a b c H1 H2 Hw. destruct (H1 Hw) as (W1 & K1 & S1 & M1). destruct (H2 W1) as (W2 & K2 & S2 & M2).
  split_and!; [done| |congruence..]. intros k Hk. destruct (K1 k Hk) as [E1 F1], (K2 k Hk) as [E2 F2].
  split; [congruence|by rewrite F2].
Qed.

Lemma foldl_rel {A B} (R : relation A) `{!PreOrder R} (f : A -> B -> A) l : forall a, (forall a b, R a (f a b)) -> R a (foldl f a l).
Proof. induction l as [|b l IH]; intros a Hf; [done|]. simpl. etransitivity; [apply Hf|by apply IH]. Qed.

Lemma touch_Delete p a b : touch p b (set_addrs (Delete (p, a) (addrs b)) b).
Proof.
  intros Hw. destruct (Delete_spec (p, a) (addrs b) Hw) as (H1 & H2 & H3 & _). split_and!; [done| |done..].
  intros k Hk. simpl. rewrite H2, H3, decide_False by (by intros ->). split; [done|]. split; [tauto|]. intros ?. split; [by intros ->|done].
Qed.

Lemma touch_renew p a ttl exp b : is_Some (known (addrs b) (p, a)) -> touch p b (renew (p, a) ttl exp b).
Proof.
  intros Hs Hw. destruct (Update_spec (p, a) ttl exp (addrs b) Hw Hs) as (H1 & H2 & H3 & _). split_and!; [done| |done..].
  intros k Hk. simpl. rewrite H2, H3, decide_False by (by intros ->). split; [done|]. split; [tauto|]. intros ?. split; [done|]. by intros [-> _].
Qed.

Lemma touch_Insert p a ttl exp b : known (addrs b) (p, a) = None -> touch p b (set_addrs (Insert (p, a) ttl exp (addrs b)) b).
Proof.
  intros Hn Hw. destruct (Insert_spec (p, a) ttl exp (addrs b) Hw Hn) as (H1 & H2 & H3 & _). split_and!; [done| |done..].
  intros k Hk. simpl. rewrite H2, H3, decide_False by (by intros ->). split; [done|]. split; [|tauto]. intros [[-> _]|?]; done.
Qed.

Lemma touch_Broadcast p k b : touch p b (BroadcastAddr k b).
Proof. done. Qed.

(** ** The cap on the addresses of a peer *)

Definition peer_view (t : table) (p : peer) : gmap Maddr (Z * Z) := default ∅ (view t !! p).

Lemma lookup_peer_view t p a : peer_view t p !! a = known t (p, a).
Proof. unfold peer_view, known, valid_of. simpl. by destruct (view t !! p). Qed.

Lemma addrs_of_view p b : peer_view (addrs b) p = (fun e => (TTL e, Expiry e)) <$> addrs_of p b.
Proof. unfold peer_view, addrs_of, view. rewrite lookup_fmap. destruct (Addrs (addrs b) !! p); [done|]. simpl. by rewrite fmap_empty. Qed.

Lemma lookup_addrs_of p b a : addrs_of p b !! a = entry_of (addrs b) (p, a).
Proof. unfold addrs_of, entry_of. simpl. by destruct (Addrs (addrs b) !! p). Qed.

(** The number of addresses of a peer not held by a connection. *)
Definition count (m : gmap Maddr (Z * Z)) : nat := length (filter (fun x => ttlIsConnected x.2.1 = false) (map_to_list m)).

Lemma count_insert_None m a v : m !! a = None -> count (<[a := v]> m) = ((if ttlIsConnected v.1 then 0 else 1) + count m)%nat.
Proof.
  intros E. unfold count. rewrite map_to_list_insert, filter_cons by done. simpl. destruct (ttlIsConnected v.1); [by rewrite decide_False|].
  by rewrite decide_True.
Qed.

Lemma count_delete m a v : m !! a = Some v -> count m = ((if ttlIsConnected v.1 then 0 else 1) + count (delete a m))%nat.
Proof. intros E. rewrite <-(insert_delete_id m a v) at 1 by done. apply count_insert_None, lookup_delete_eq. Qed.

Lemma count_insert_Some m a v w : m !! a = Some w ->
  (count (<[a := v]> m) + (if ttlIsConnected w.1 then 0 else 1) = count m + (if ttlIsConnected v.1 then 0 else 1))%nat.
Proof.
  intros E. rewrite (count_delete m a w E), <-(insert_delete_eq m a v), count_insert_None by apply lookup_delete_eq. lia.
Qed.

Lemma numUnconnected_count p b : numUnconnectedAddrsForPeerUnlocked p b = Z.of_nat (count (peer_view (addrs b) p)).
Proof.
  unfold numUnconnectedAddrsForPeerUnlocked, count. rewrite addrs_of_view, map_to_list_fmap, <-(range_map_perm 1).
  generalize (range_map 1 (addrs_of p b)) as l. intros l.
  assert (forall n, foldl (fun n a => if IsConnected a.2 then n else n + 1) n l =
    n + Z.of_nat (length (filter (fun x : Maddr * (Z * Z) => ttlIsConnected x.2.1 = false) (prod_map id (fun e => (TTL e, Expiry e)) <$> l)))) as Hl; [|by rewrite Hl].
  induction l as [|[a e] l IH]; intros n; [simpl; lia|]. rewrite fmap_cons, filter_cons. cbn [foldl]. rewrite IH. unfold IsConnected. cbn [prod_map fst snd TTL].
  destruct (ttlIsConnected (TTL e)); [by rewrite decide_False|]. rewrite decide_True by done. cbn [length].
  lia.
Qed.

Lemma nearer_spec l : forall v0,
  match foldl nearer v0 l with
  | None => v0 = None /\ forall x, x ∈ l -> IsConnected x.2 = true
  | Some v => (v0 = Some v \/ (v ∈ l /\ IsConnected v.2 = false)) /\
      (forall w, v0 = Some w -> Expiry v.2 <= Expiry w.2) /\
      (forall x, x ∈ l -> IsConnected x.2 = false -> Expiry v.2 <= Expiry x.2)
  end.
Proof.
  induction l as [|x l IH]; intros v0; simpl.
  { destruct v0 as [v|]; [split_and!; [by left|intros w [= ->]; lia|]|split; [done|]]; intros x Hx; by apply elem_of_nil in Hx. }
  specialize (IH (nearer v0 x)). destruct (foldl nearer (nearer v0 x) l) as [v|].
  - destruct IH as (I1 & I2 & I3). unfold nearer, time_before in *. destruct (IsConnected x.2) eqn:Ex.
    + split_and!; [destruct I1 as [?|[? ?]]; [by left|right; set_solver]|done|].
      intros y [->|Hy]%elem_of_cons Hc; [congruence|by apply I3].
    + destruct v0 as [u|].
      * destruct (Z.ltb_spec (Expiry x.2) (Expiry u.2)) as [Hlt|Hge].
        -- pose proof (I2 x eq_refl). split_and!; [|intros w [= <-]; lia|intros y [->|Hy]%elem_of_cons Hc; [done|by apply I3]].
           right. destruct I1 as [[= ->]|[? ?]]; set_solver.
        -- pose proof (I2 u eq_refl). split_and!; [|intros w [= <-]; lia|intros y [->|Hy]%elem_of_cons Hc; [lia|by apply I3]].
           destruct I1 as [[= ->]|[? ?]]; [by left|right; set_solver].
      * pose proof (I2 x eq_refl). split_and!; [|done|intros y [->|Hy]%elem_of_cons Hc; [done|by apply I3]].
        right. destruct I1 as [[= ->]|[? ?]]; set_solver.
  - destruct IH as [I1 I2]. unfold nearer in I1. destruct (IsConnected x.2) eqn:Ex.
    + split; [done|]. intros y [->|Hy]%elem_of_cons; [done|by apply I2].
    + destruct v0 as [u|]; [|done]. by destruct (time_before _ _).
Qed.

Lemma filter_none {A} (P : A -> Prop) `{!forall x, Decision (P x)} l : (forall x, x ∈ l -> ~ P x) -> filter P l = [].
Proof.
  intros Hl. destruct (filter P l) as [|x k] eqn:E; [done|]. exfalso.
  assert (x ∈ filter P l) as [Hp Hx]%list_elem_of_filter by (rewrite E; apply elem_of_cons; by left). by apply (Hl x).
Qed.

(** Eviction drops an address that no connection holds, one that expires first of those. *)
Lemma evict_spec p b : wf (addrs b) ->
  match evictNearestExpiryUnconnectedForPeerUnlocked p b with
  | (false, b') => b' = b /\ count (peer_view (addrs b) p) = 0%nat
  | (true, b') => exists a t x, known (addrs b) (p, a) = Some (t, x) /\ ttlIsConnected t = false /\
      b' = set_addrs (Delete (p, a) (addrs b)) b /\
      (forall a' t' x', known (addrs b) (p, a') = Some (t', x') -> ttlIsConnected t' = false -> x <= x') /\
      count (peer_view (addrs b) p) = S (count (peer_view (addrs b') p))
  end.
Proof.
  intros Hw. unfold evictNearestExpiryUnconnectedForPeerUnlocked. pose proof (nearer_spec (range_map 2 (addrs_of p b)) None) as Hn.
  assert (forall a e, (a, e) ∈ range_map 2 (addrs_of p b) <-> entry_of (addrs b) (p, a) = Some e) as Hr.
  { intros a e. by rewrite elem_of_range, lookup_addrs_of. }
  destruct (foldl _ _ _) as [[a e]|].
  - destruct Hn as ([?|[Ha Hc]] & _ & Hmin); [done|]. apply Hr in Ha. simpl in *. exists a, (TTL e), (Expiry e).
    assert (known (addrs b) (p, a) = Some (TTL e, Expiry e)) as Ek by by rewrite known_entry, Ha.
    split_and!; [done|done|done| |].
    + intros a' t' x' Ek' Hc'. rewrite known_entry in Ek'. destruct (entry_of (addrs b) (p, a')) as [e'|] eqn:Ee'; simplify_eq/=.
      apply (Hmin (a', e')); [by apply Hr|done].
    + rewrite (count_delete _ a (TTL e, Expiry e)) by by rewrite lookup_peer_view. simpl. unfold IsConnected in Hc. rewrite Hc. simpl. f_equal. f_equal.
      apply map_eq. intros a'. rewrite lookup_peer_view. simpl. rewrite (proj1 (proj2 (Delete_spec (p, a) (addrs b) Hw))).
      destruct (decide (a' = a)) as [->|]; [by rewrite lookup_delete_eq, decide_True|].
      by rewrite lookup_delete_ne, lookup_peer_view, decide_False by congruence.
  - destruct Hn as [_ Hn]. split; [done|]. unfold count. rewrite addrs_of_view, map_to_list_fmap, <-(range_map_perm 2).
    rewrite filter_none; [done|]. intros x ([a e] & -> & Hae)%list_elem_of_fmap. simpl.
    pose proof (Hn _ Hae) as Hx. simpl in Hx. unfold IsConnected in Hx. congruence.
Qed.

(** What is left of the addresses of a peer after one of them changed. *)
Lemma peer_view_insert t t' p a v :
  (forall k, known t' k = if decide (k = (p, a)) then Some v else known t k) -> peer_view t' p = <[a := v]> (peer_view t p).
Proof.
  intros Hk. apply map_eq. intros a'. rewrite lookup_peer_view, Hk. destruct (decide (a' = a)) as [->|].
  - by rewrite lookup_insert_eq, decide_True.
  - by rewrite lookup_insert_ne, lookup_peer_view, decide_False by congruence.
Qed.

Lemma peer_view_delete t t' p a :
  (forall k, known t' k = if decide (k = (p, a)) then None else known t k) -> peer_view t' p = delete a (peer_view t p).
Proof.
  intros Hk. apply map_eq. intros a'. rewrite lookup_peer_view, Hk. destruct (decide (a' = a)) as [->|].
  - by rewrite lookup_delete_eq, decide_True.
  - by rewrite lookup_delete_ne, lookup_peer_view, decide_False by congruence.
Qed.

Notation cnt p b := (count (peer_view (addrs b) p)).

Lemma count_Delete p a b : wf (addrs b) -> (count (peer_view (Delete (p, a) (addrs b)) p) <= cnt p b)%nat.
Proof.
  intros Hw. destruct (Delete_spec (p, a) (addrs b) Hw) as (_ & Hk & _). rewrite (peer_view_delete _ _ _ _ Hk).
  destruct (peer_view (addrs b) p !! a) as [v|] eqn:E; [rewrite (count_delete _ _ _ E); lia|].
  rewrite delete_id; done.
Qed.

Lemma makeRoom_spec p ttl b : wf (addrs b) ->
  let '(ok, b') := makeRoom p ttl b in
  touch p b b' /\ (cnt p b' <= cnt p b)%nat /\ (forall k, known (addrs b) k = None -> known (addrs b') k = None) /\
  (ok = true -> ttlIsConnected ttl = false -> 0 < maxAddrsPerPeer b ->
     Z.of_nat (cnt p b') + 1 <= Z.max (maxAddrsPerPeer b) (Z.of_nat (cnt p b))) /\
  (maxAddrsPerPeer b <= 0 \/ ttlIsConnected ttl = true -> ok = true /\ b' = b).
Proof.
  intros Hw. unfold makeRoom. rewrite numUnconnected_count.
  destruct ((0 <? maxAddrsPerPeer b) && negb (ttlIsConnected ttl) && (maxAddrsPerPeer b <=? Z.of_nat (cnt p b))) eqn:Eg.
  - pose proof (evict_spec p b Hw) as He. destruct (evictNearestExpiryUnconnectedForPeerUnlocked p b) as [[] b'].
    + destruct He as (a & t & x & Ek & Ec & -> & _ & Hc). split_and!; [apply touch_Delete|lia| |intros; lia|].
      * intros k Hk. simpl. rewrite (proj1 (proj2 (Delete_spec (p, a) (addrs b) Hw))). by destruct (decide _).
      * intros [Hm|Hm]; exfalso; [|rewrite Hm in Eg; simpl in Eg; rewrite andb_false_r in Eg; done].
        destruct (Z.ltb_spec 0 (maxAddrsPerPeer b)); [lia|done].
    + destruct He as [-> _]. split_and!; [done..|].
      intros [Hm|Hm]; exfalso; [|rewrite Hm in Eg; simpl in Eg; rewrite andb_false_r in Eg; done].
      destruct (Z.ltb_spec 0 (maxAddrsPerPeer b)); [lia|done].
  - split_and!; [done..| |done]. intros _ Hc Hm. rewrite Hc in Eg. simpl in Eg.
    destruct (Z.ltb_spec 0 (maxAddrsPerPeer b)); [|lia]. simpl in Eg. destruct (Z.leb_spec (maxAddrsPerPeer b) (Z.of_nat (cnt p b))); [done|lia].
Qed.

(** A step keeps the addresses of [p] below the cap, or at what there were. *)
Definition capped (p : peer) (b b' : memoryAddrBook) : Prop :=
  wf (addrs b) -> 0 < maxAddrsPerPeer b ->
  touch p b b' /\ Z.of_nat (cnt p b') <= Z.max (maxAddrsPerPeer b) (Z.of_nat (cnt p b)).

#[export] Instance capped_preorder p : PreOrder (capped p).
Proof.
  split; [intros b _ _; split; [done|lia]|]. intros a b c H1 H2 Hw Hm. destruct (H1 Hw Hm) as [T1 C1].
  destruct (T1 Hw) as (W1 & _ & _ & M1). destruct (H2 W1 ltac:(lia)) as [T2 C2]. split; [by etransitivity|]. rewrite M1 in C2. lia.
Qed.

Lemma insertNew_spec p a ttl exp b : wf (addrs b) -> known (addrs b) (p, a) = None ->
  touch p b (insertNew p a ttl exp b) /\ capped p b (insertNew p a ttl exp b).
Proof.
  intros Hw Hn. unfold insertNew. pose proof (makeRoom_spec p ttl b Hw) as Hr. destruct (makeRoom p ttl b) as [[] b'].
  2:{ destruct Hr as (H1 & H2 & _). split; [done|]. intros _ _. split; [done|lia]. }
  destruct Hr as (H1 & H2 & H3 & H4 & _). pose proof (H3 _ Hn) as Hn'. pose proof (H1 Hw) as (Hw' & _).
  assert (touch p b (BroadcastAddr (p, a) (set_addrs (Insert (p, a) ttl exp (addrs b')) b'))) as HT.
  { etransitivity; [exact H1|]. etransitivity; [by apply touch_Insert|apply touch_Broadcast]. }
  split; [done|]. intros _ Hm. split; [done|].
  destruct (Insert_spec (p, a) ttl exp (addrs b') Hw' Hn') as (_ & Hk & _). simpl.
  rewrite (peer_view_insert _ _ _ _ _ Hk), count_insert_None by by rewrite lookup_peer_view. simpl.
  destruct (ttlIsConnected ttl) eqn:Ec; [lia|]. pose proof (H4 eq_refl eq_refl Hm). lia.
Qed.

Lemma count_renew p a ttl exp t x b : wf (addrs b) -> known (addrs b) (p, a) = Some (t, x) ->
  (cnt p (renew (p, a) ttl exp b) + (if ttlIsConnected t then 0 else 1) = cnt p b + (if ttlIsConnected ttl then 0 else 1))%nat.
Proof.
  intros Hw Ek. destruct (Update_spec (p, a) ttl exp (addrs b) Hw) as (_ & Hk & _); [by eexists|]. simpl.
  rewrite (peer_view_insert _ _ _ _ _ Hk). apply (count_insert_Some _ _ (ttl, exp) (t, x)). by rewrite lookup_peer_view.
Qed.

Lemma FindAddr_known p a (t : table) : FindAddr p a t = None <-> known t (p, a) = None.
Proof. symmetry. apply known_None. Qed.

Lemma FindAddr_Some p a (t : table) e : FindAddr p a t = Some e -> known t (p, a) = Some (TTL e, Expiry e).
Proof. unfold FindAddr. intros E. by rewrite known_entry, E. Qed.

Lemma connected_mono t t' : t <= t' -> ttlIsConnected t = true -> ttlIsConnected t' = true.
Proof. unfold ttlIsConnected. intros ? ?%Z.leb_le. apply Z.leb_le. lia. Qed.

Lemma touch_wf p b b' : (wf (addrs b) -> touch p b b') -> touch p b b'.
Proof. intros Hf Hw. by apply Hf. Qed.

Lemma addAddr_spec p ttl exp b a : touch p b (addAddr p ttl exp b a) /\ capped p b (addAddr p ttl exp b a).
Proof.
  unfold addAddr. destruct (SplitAddr a) as [[x|] pid]; [|done]. destruct (_ && _); [done|].
  destruct (FindAddr p x (addrs b)) as [e|] eqn:Ef.
  - apply FindAddr_Some in Ef. destruct (_ || _); [|done]. set (ttl' := if TTL e <? ttl then ttl else TTL e).
    assert (touch p b (renew (p, x) ttl' (if time_after exp (Expiry e) then exp else Expiry e) b)) as HT by (apply touch_renew; by eexists).
    split; [done|]. intros Hw _. split; [done|]. pose proof (count_renew p x ttl' (if time_after exp (Expiry e) then exp else Expiry e) _ _ b Hw Ef) as Hc.
    assert (ttlIsConnected (TTL e) = true -> ttlIsConnected ttl' = true) as Hmono.
    { apply connected_mono. unfold ttl'. destruct (Z.ltb_spec (TTL e) ttl); lia. }
    destruct (ttlIsConnected (TTL e)), (ttlIsConnected ttl'); lia.
  - apply FindAddr_known in Ef. split; [apply touch_wf; intros Hw; exact (proj1 (insertNew_spec p x ttl exp b Hw Ef))|].
    intros Hw. destruct (insertNew_spec p x ttl exp b Hw Ef) as [_ Hc]. by apply Hc.
Qed.

Lemma setAddr_touch p ttl exp b a : touch p b (setAddr p ttl exp b a).
Proof.
  unfold setAddr. destruct (SplitAddr a) as [[x|] pid]; [|done]. destruct (_ && _); [done|].
  destruct (FindAddr p x (addrs b)) as [e|] eqn:Ef.
  - apply FindAddr_Some in Ef. destruct (0 <? ttl); [|apply touch_Delete]. destruct (_ && _); [apply touch_Delete|].
    etransitivity; [|apply touch_Broadcast]. apply touch_renew. by eexists.
  - apply FindAddr_known in Ef. destruct (0 <? ttl); [|done]. destruct (overLimit ttl b); [done|].
    apply touch_wf. intros Hw. exact (proj1 (insertNew_spec p x ttl exp b Hw Ef)).
Qed.

Lemma updateAddr_touch p old new exp b a : touch p b (updateAddr p old new exp b a).
Proof.
  unfold updateAddr. destruct (entry_of (addrs b) (p, a)) as [e|] eqn:Ee; [|done]. destruct (old =? TTL e); [|done].
  destruct (new =? 0); [apply touch_Delete|]. destruct (_ && _); [apply touch_Delete|]. apply touch_renew.
  rewrite known_entry, Ee. by eexists.
Qed.

Lemma dropPrev_spec p new b a : touch p b (dropPrev p new b a) /\ capped p b (dropPrev p new b a).
Proof.
  unfold dropPrev. destruct (decide _); [done|]. destruct a as [a|]; [|done]. destruct (FindAddr p a (addrs b)) as [e|]; [|done].
  destruct (IsConnected e); [done|]. split; [apply touch_Delete|]. intros Hw _. split; [apply touch_Delete|].
  pose proof (count_Delete p a b Hw). simpl. lia.
Qed.

Lemma foldl_touch {A} p (f : memoryAddrBook -> A -> memoryAddrBook) l b : (forall b a, touch p b (f b a)) -> touch p b (foldl f b l).
Proof. apply (foldl_rel (touch p)). Qed.

Lemma foldl_capped {A} p (f : memoryAddrBook -> A -> memoryAddrBook) l b : (forall b a, capped p b (f b a)) -> capped p b (foldl f b l).
Proof. apply (foldl_rel (capped p)). Qed.


(** ** The invariant

    The tables are in order, a record is kept for peers with addresses only, and it is one
    the peer has signed. *)

Definition signed (p : peer) (s : peerRecordState) : Prop :=
  exists r, decode (StateEnvelope s) = Ok (Some r) /\ PeerID r = p /\ RecSeq r = Seq s /\ MatchesPublicKey p (StateEnvelope s) = true.

Record book_ok (b : memoryAddrBook) : Prop := {
  ok_wf : wf (addrs b);
  ok_records : forall p s, signedPeerRecords b !! p = Some s -> signed p s /\ peer_view (addrs b) p <> ∅
}.

(** The same but for the peer that is worked on, whose record may be left alone. *)
Definition ok_but (p : peer) (b : memoryAddrBook) : Prop :=
  wf (addrs b) /\
  forall q s, signedPeerRecords b !! q = Some s -> signed q s /\ (q <> p -> peer_view (addrs b) q <> ∅).

Lemma ok_ok_but p b : book_ok b -> ok_but p b.
Proof. intros [Hw Hr]. split; [done|]. intros q s E. destruct (Hr q s E). done. Qed.

Lemma peer_view_ext (t t' : table) p : (forall a, known t' (p, a) = known t (p, a)) -> peer_view t' p = peer_view t p.
Proof. intros Hk. apply map_eq. intros a. by rewrite !lookup_peer_view. Qed.

Lemma touch_other p q b b' : touch p b b' -> wf (addrs b) -> q <> p -> peer_view (addrs b') q = peer_view (addrs b) q.
Proof. intros HT Hw Hq. apply peer_view_ext. intros a. by apply (HT Hw). Qed.

Lemma touch_ok_but p b b' : touch p b b' -> ok_but p b -> ok_but p b'.
Proof.
  intros HT [Hw Hr]. destruct (HT Hw) as (Hw' & _ & Es & _). split; [done|]. intros q s. rewrite Es. intros E.
  destruct (Hr q s E) as [H1 H2]. split; [done|]. intros Hq. rewrite (touch_other p q b b') by done. auto.
Qed.

Lemma addrs_of_empty p b : addrs_of p b = ∅ <-> peer_view (addrs b) p = ∅.
Proof. rewrite addrs_of_view. split; [intros ->; apply fmap_empty|]. by intros ?%fmap_empty_inv. Qed.

Lemma clean_ok p b : ok_but p b -> book_ok (maybeDeleteSignedPeerRecordUnlocked p b).
Proof.
  intros [Hw Hr]. unfold maybeDeleteSignedPeerRecordUnlocked. destruct (decide _) as [E|E].
  - split; [done|]. simpl. intros q s [Hq Es]%lookup_delete_Some. destruct (Hr q s Es). auto.
  - rewrite addrs_of_empty in E. split; [done|]. intros q s Es. destruct (Hr q s Es) as [H1 H2]. split; [done|].
    destruct (decide (q = p)) as [->|]; auto.
Qed.

Lemma clean_addrs p b : addrs (maybeDeleteSignedPeerRecordUnlocked p b) = addrs b.
Proof. unfold maybeDeleteSignedPeerRecordUnlocked. by destruct (decide _). Qed.

Lemma clean_max p b : maxAddrsPerPeer (maybeDeleteSignedPeerRecordUnlocked p b) = maxAddrsPerPeer b.
Proof. unfold maybeDeleteSignedPeerRecordUnlocked. by destruct (decide _). Qed.

Lemma addLoop_touch p l ttl now b : touch p b (if ttl <=? 0 then b else if overLimit ttl b then b else foldl (addAddr p ttl (now + ttl)) b l).
Proof. destruct (ttl <=? 0); [done|]. destruct (overLimit ttl b); [done|]. apply foldl_touch. intros b' a. exact (proj1 (addAddr_spec p ttl (now + ttl) b' a)). Qed.

Lemma addLoop_capped p l ttl now b : capped p b (if ttl <=? 0 then b else if overLimit ttl b then b else foldl (addAddr p ttl (now + ttl)) b l).
Proof. destruct (ttl <=? 0); [done|]. destruct (overLimit ttl b); [done|]. apply foldl_capped. intros b' a. exact (proj2 (addAddr_spec p ttl (now + ttl) b' a)). Qed.

Lemma addAddrs_ok now p l ttl b : ok_but p b -> book_ok (addAddrsUnlocked now p l ttl b).
Proof. intros Hok. apply clean_ok. eapply touch_ok_but; [apply addLoop_touch|done]. Qed.

(** A garbage collection ends; it forgets the entries of the heap that have expired. *)
Lemma gcLoop_spec fuel : forall now b, book_ok b -> (length (expiringHeap (addrs b)) < fuel)%nat ->
  exists b', gcLoop fuel now b = Some b' /\ book_ok b' /\ maxAddrsPerPeer b' = maxAddrsPerPeer b /\
    (forall k, known (addrs b') k = if decide (k ∈ expiringHeap (addrs b) /\ expiry_of (addrs b) k <= now) then None else known (addrs b) k) /\
    (forall k, k ∈ expiringHeap (addrs b') <-> k ∈ expiringHeap (addrs b) /\ now < expiry_of (addrs b) k).
Proof.
  induction fuel as [|fuel IH]; intros now b Hok Hf; [lia|]. cbn [gcLoop].
  pose proof (PopIfExpired_spec now (addrs b) (ok_wf b Hok)) as HP. destruct (PopIfExpired now (addrs b)) as [[k|] t].
  - destruct HP as (Hw & Hk & Hx & Hkn & Hh & Hl).
    set (b1 := maybeDeleteSignedPeerRecordUnlocked k.1 (set_addrs t b)).
    assert (addrs b1 = t) as E1 by (unfold b1; by rewrite clean_addrs).
    destruct (IH now b1) as (b' & E & Hok' & Hm & Hkn' & Hh').
    { apply clean_ok. split; [done|]. simpl. intros q s Es. destruct (ok_records b Hok q s Es) as [H1 H2]. split; [done|].
      intros Hq. rewrite (peer_view_ext (addrs b)); [done|]. intros a. rewrite Hkn, decide_False; [done|]. by intros <-. }
    { rewrite E1. lia. }
    rewrite E1 in *. exists b'. split_and!; [done|done|rewrite Hm; unfold b1; by rewrite clean_max| |].
    + assert (forall q, q <> k -> expiry_of t q = expiry_of (addrs b) q) as Hex.
      { intros q Hq. rewrite !expiry_of_view. fold (known t q) (known (addrs b) q). by rewrite Hkn, decide_False. }
      intros q. rewrite Hkn', Hkn. destruct (decide (q = k)) as [->|Hq].
      * rewrite (decide_True (P := k ∈ expiringHeap (addrs b) /\ _)) by done. by destruct (decide _).
      * apply decide_ext. rewrite Hh, Hex by done. tauto.
    + intros q. rewrite Hh', Hh. destruct (decide (q = k)) as [->|Hq].
      * split; [tauto|]. intros [_ ?]. lia.
      * rewrite (expiry_of_view t), (expiry_of_view (addrs b)). fold (known t q) (known (addrs b) q). rewrite Hkn, decide_False by done. tauto.
  - destruct HP as [-> Hn]. exists b. replace (set_addrs (addrs b) b) with b by by destruct b. split_and!; [done|done|done| |].
    + intros q. rewrite decide_False; [done|]. intros [Hq Hx]. pose proof (Hn q Hq). lia.
    + intros q. split; [|tauto]. intros Hq. split; [done|]. by apply Hn.
Qed.

Lemma gc_spec now b : book_ok b ->
  book_ok (gc now b) /\ maxAddrsPerPeer (gc now b) = maxAddrsPerPeer b /\
  (forall k, known (addrs (gc now b)) k = if decide (k ∈ expiringHeap (addrs b) /\ expiry_of (addrs b) k <= now) then None else known (addrs b) k) /\
  (forall k, k ∈ expiringHeap (addrs (gc now b)) <-> k ∈ expiringHeap (addrs b) /\ now < expiry_of (addrs b) k).
Proof.
  intros Hok. unfold gc. destruct (gcLoop_spec (S (length (expiringHeap (addrs b)))) now b Hok) as (b' & -> & Hp); [lia|]. done.
Qed.

Lemma clear_touch p l b : touch p b (foldl (fun b a => set_addrs (Delete (p, a) (addrs b)) b) b l).
Proof. apply foldl_touch. intros b' a. apply touch_Delete. Qed.

Lemma consume_ok now env ttl b : book_ok b -> book_ok (ConsumePeerRecord now env ttl b).2.
Proof.
  intros Hok. unfold ConsumePeerRecord. destruct (decode env) as [[rec|]|e|] eqn:Ed; try done.
  destruct (MatchesPublicKey (PeerID rec) env) eqn:Em; [|done]. cbn [negb].
  assert (forall b', ok_but (PeerID rec) b' ->
    ok_but (PeerID rec) (set_records (<[PeerID rec := {| StateEnvelope := env; Seq := RecSeq rec |}]> (signedPeerRecords b')) b')) as Hset.
  { intros b' [Hw Hr]. split; [done|]. simpl. intros q s [[<- <-]|[Hq Es]]%lookup_insert_Some; [|by apply Hr].
    split; [by exists rec|done]. }
  destruct (signedPeerRecords b !! PeerID rec) as [s|].
  - destruct (RecSeq rec <? Seq s); [done|]. apply addAddrs_ok, Hset. eapply touch_ok_but; [|by apply ok_ok_but].
    apply foldl_touch. intros b' a. exact (proj1 (dropPrev_spec _ _ b' a)).
  - destruct (_ <=? _); [done|]. by apply addAddrs_ok, Hset, ok_ok_but.
Qed.

Lemma book_step_ok o b : book_ok b -> book_ok (step b o).
Proof.
  intros Hok. destruct o; simpl.
  - apply addAddrs_ok, ok_ok_but, Hok.
  - apply clean_ok. eapply touch_ok_but; [|by apply ok_ok_but]. apply foldl_touch. intros b' a. apply setAddr_touch.
  - apply clean_ok. eapply touch_ok_but; [|by apply ok_ok_but]. apply foldl_touch. intros b' a. apply updateAddr_touch.
  - pose proof (ok_ok_but p b Hok) as [Hw Hr].
    set (b1 := set_records (delete p (signedPeerRecords b)) b).
    assert (ok_but p b1) as H1.
    { split; [done|]. simpl. intros q s [Hq Es]%lookup_delete_Some. destruct (Hr q s Es). auto. }
    unfold ClearAddrs. fold b1. pose proof (clear_touch p (range_map 5 (addrs_of p b1)).*1 b1) as HT.
    destruct (touch_ok_but p _ _ HT H1) as [Hw' Hr']. split; [done|]. intros q s Es. destruct (Hr' q s Es) as [H2 H3]. split; [done|].
    apply H3. intros ->. destruct (HT Hw) as (_ & _ & Er & _). rewrite Er in Es. simpl in Es. by rewrite lookup_delete_eq in Es.
  - by apply consume_ok.
  - by apply gc_spec.
Qed.

Lemma book_run_ok l : forall b, book_ok b -> book_ok (run b l).
Proof. induction l as [|o l IH]; intros b Hok; [done|]. simpl. by apply IH, book_step_ok. Qed.

Lemma new_book_ok u s c : book_ok (set_limits u s c NewAddrBook).
Proof.
  split; [split|]; simpl.
  - split; intros *; unfold index_of, entry_of; simpl; rewrite ?lookup_empty; simpl; rewrite ?lookup_nil; done.
  - intros j Hj. simpl in Hj. lia.
  - intros k e Hk. by apply elem_of_nil in Hk.
  - intros p. by rewrite lookup_empty.
  - intros p st. by rewrite lookup_empty.
Qed.

Lemma elem_of_Addrs now p b a : a ∈ Addrs_ now p b <-> exists t x, known (addrs b) (p, a) = Some (t, x) /\ now < x.
Proof.
  assert (a ∈ Addrs_ now p b <-> exists e, addrs_of p b !! a = Some e /\ ExpiredBy now e = false) as ->.
  { unfold Addrs_, addrs_of. destruct (Addrs (addrs b) !! p) as [m|]; simpl.
    - unfold validAddrs. rewrite list_elem_of_fmap. split.
      + intros ([a' e] & -> & [Hx Hin]%list_elem_of_filter). apply elem_of_range in Hin. by exists e.
      + intros (e & Hm & Hx). exists (a, e). split; [done|]. apply list_elem_of_filter. split; [done|]. by apply elem_of_range.
    - rewrite elem_of_nil. split; [done|]. intros (e & Hm & _). by rewrite lookup_empty in Hm. }
  setoid_rewrite lookup_addrs_of. rewrite known_entry. unfold ExpiredBy, time_before. destruct (entry_of (addrs b) (p, a)) as [e|]; simpl.
  - split.
    + intros (e' & [= <-] & Hx). exists (TTL e), (Expiry e). split; [done|]. destruct (Z.ltb_spec now (Expiry e)); done.
    + intros (t & x & [= <- <-] & Hx). exists e. split; [done|]. by rewrite (proj2 (Z.ltb_lt _ _) Hx).
  - split; [by intros (? & ? & _)|]. by intros (? & ? & ? & _).
Qed.

(** A map with fewer entries has fewer that no connection holds. *)
Lemma count_mono (m m' : gmap Maddr (Z * Z)) : m' ⊆ m -> (count m' <= count m)%nat.
Proof. intros Hm. unfold count. apply map_to_list_submseteq, submseteq_Permutation in Hm as [k ->]. rewrite filter_app, length_app. lia. Qed.

Definition drops (b b' : memoryAddrBook) : Prop := forall k v, known (addrs b') k = Some v -> known (addrs b) k = Some v.

Lemma drops_count b b' p : drops b b' -> (cnt p b' <= cnt p b)%nat.
Proof. intros Hd. apply count_mono, map_subseteq_spec. intros a v. rewrite !lookup_peer_view. apply Hd. Qed.

(** ** Properties *)

(** C34. Whatever is done to a new address book, its heap is in order, every entry of the heap
    knows its place and is held by no connection, no peer is left without addresses, and
    the records kept are those of peers with addresses, signed by them. *)
Theorem address_book_ok u s c l : book_ok (run (set_limits u s c NewAddrBook) l).
Proof. apply book_run_ok, new_book_ok. Qed.

(** A garbage collection ends, and forgets exactly the entries of the heap that have
    expired: no address that a reader could still see, and none of those left in the heap is
    expired. *)
Theorem collection_exact u s c l now :
  let b := run (set_limits u s c NewAddrBook) l in
  gcLoop (S (length (expiringHeap (addrs b)))) now b = Some (gc now b) /\
  (forall k, known (addrs (gc now b)) k =
     if decide (k ∈ expiringHeap (addrs b) /\ expiry_of (addrs b) k <= now) then None else known (addrs b) k) /\
  (forall p a, a ∈ Addrs_ now p (gc now b) <-> a ∈ Addrs_ now p b) /\
  (forall k, k ∈ expiringHeap (addrs (gc now b)) -> now < expiry_of (addrs (gc now b)) k).
Proof.
  cbv zeta. set (b := run _ l). assert (book_ok b) as Hok by apply book_run_ok, new_book_ok.
  destruct (gc_spec now b Hok) as (_ & _ & Hk & Hh). split_and!.
  - unfold gc. destruct (gcLoop_spec (S (length (expiringHeap (addrs b)))) now b Hok) as (b' & E & _); [lia|]. by rewrite E.
  - done.
  - intros p a. rewrite !elem_of_Addrs, Hk. destruct (decide _) as [[Hin Hx]|]; [|done].
    split; [by intros (? & ? & ? & _)|]. intros (t & x & Ek & Hlt). exfalso.
    rewrite expiry_of_view in Hx. fold (known (addrs b) (p, a)) in Hx. rewrite Ek in Hx. simpl in Hx. lia.
  - intros k Hin. pose proof Hin as Hin'. apply Hh in Hin as [_ Hx]. rewrite expiry_of_view in *.
    fold (known (addrs (gc now b)) k) (known (addrs b) k) in *. rewrite Hk, decide_False; [done|]. intros [_ Hx']. 
    rewrite expiry_of_view in Hx'. fold (known (addrs b) k) in Hx'. lia.
Qed.

Definition adds (o : op) : bool := match o with OpSet _ _ _ _ | OpUpdate _ _ _ _ => false | _ => true end.

Lemma step_max o b : book_ok b -> maxAddrsPerPeer (step b o) = maxAddrsPerPeer b.
Proof.
  intros Hok. pose proof (ok_wf b Hok) as Hw. destruct o; simpl.
  - unfold AddAddrs, addAddrsUnlocked. rewrite clean_max. by apply (addLoop_touch p l ttl now b).
  - unfold SetAddrs. rewrite clean_max. refine (proj2 (proj2 (proj2 (foldl_touch p (setAddr p ttl (now + ttl)) l b _ Hw)))).
    intros b' a. apply setAddr_touch.
  - unfold UpdateAddrs. rewrite clean_max.
    refine (proj2 (proj2 (proj2 (foldl_touch p (updateAddr p oldTTL newTTL (now + newTTL)) _ b _ Hw)))).
    intros b' a. apply updateAddr_touch.
  - unfold ClearAddrs. exact (proj2 (proj2 (proj2 (clear_touch p _ (set_records (delete p (signedPeerRecords b)) b) Hw)))).
  - unfold ConsumePeerRecord. destruct (decode env) as [[rec|]|e|]; try done. destruct (MatchesPublicKey _ _); [|done]. simpl.
    destruct (signedPeerRecords b !! PeerID rec) as [st|].
    + destruct (RecSeq rec <? Seq st); [done|]. simpl. unfold addAddrsUnlocked. rewrite clean_max.
      destruct (foldl_touch (PeerID rec) (dropPrev (PeerID rec) (RecAddrs rec)) (prevSignedAddrs st) b) as (Hw1 & _ & _ & M1);
        [intros b' a; exact (proj1 (dropPrev_spec _ _ b' a))|done|].
      rewrite <-M1. match goal with |- context [if ttl <=? 0 then ?q else _] => by apply (addLoop_touch (PeerID rec) (RecAddrs rec) ttl now q) end.
    + destruct (_ <=? _); [done|]. simpl. unfold addAddrsUnlocked. rewrite clean_max.
      match goal with |- context [if ttl <=? 0 then ?q else _] => by apply (addLoop_touch (PeerID rec) (RecAddrs rec) ttl now q) end.
  - by apply gc_spec.
Qed.

(** [capped p] says nothing of other peers, whose addresses are not touched. *)
Lemma capped_all p q b b' : capped p b b' -> wf (addrs b) -> 0 < maxAddrsPerPeer b ->
  Z.of_nat (cnt q b') <= Z.max (maxAddrsPerPeer b) (Z.of_nat (cnt q b)).
Proof.
  intros HC Hw Hm. destruct (HC Hw Hm) as [HT Hc]. destruct (decide (q = p)) as [->|]; [done|]. rewrite (touch_other p q b b') by done. lia.
Qed.

Lemma addAddrs_capped now p l ttl b q : wf (addrs b) -> 0 < maxAddrsPerPeer b ->
  Z.of_nat (cnt q (addAddrsUnlocked now p l ttl b)) <= Z.max (maxAddrsPerPeer b) (Z.of_nat (cnt q b)).
Proof. intros Hw Hm. unfold addAddrsUnlocked. rewrite clean_addrs. by apply (capped_all p q), Hm; [apply addLoop_capped|]. Qed.

Lemma step_capped o b q : book_ok b -> 0 < maxAddrsPerPeer b -> adds o = true ->
  Z.of_nat (cnt q (step b o)) <= Z.max (maxAddrsPerPeer b) (Z.of_nat (cnt q b)).
Proof.
  intros Hok Hm Ho. pose proof (ok_wf b Hok) as Hw. destruct o; simpl; try done.
  - by apply addAddrs_capped.
  - set (b1 := set_records (delete p (signedPeerRecords b)) b).
    refine (capped_all p q b1 (ClearAddrs p b) _ Hw Hm). unfold ClearAddrs. fold b1. apply foldl_capped. intros b' a Hw' _.
    split; [apply touch_Delete|]. pose proof (count_Delete p a b' Hw'). simpl. lia.
  - unfold ConsumePeerRecord. destruct (decode env) as [[rec|]|e|]; try (simpl; lia). destruct (MatchesPublicKey _ _); [|simpl; lia]. simpl.
    destruct (signedPeerRecords b !! PeerID rec) as [st|].
    + destruct (RecSeq rec <? Seq st); [simpl; lia|]. set (b1 := foldl _ b _). cbn [snd].
      assert (capped (PeerID rec) b b1) as HC by (apply foldl_capped; intros b' a; exact (proj2 (dropPrev_spec _ _ b' a))).
      pose proof (capped_all _ q _ _ HC Hw Hm). destruct (HC Hw Hm) as [HT _]. destruct (HT Hw) as (Hw1 & _ & _ & M1).
      match goal with |- context [addAddrsUnlocked _ _ _ _ ?b2] => pose proof (addAddrs_capped now (PeerID rec) (RecAddrs rec) ttl b2 q) as Hc end.
      simpl in Hc. rewrite M1 in Hc. pose proof (Hc Hw1 Hm). lia.
    + destruct (_ <=? _); [simpl; lia|]. cbn [snd].
      match goal with |- context [addAddrsUnlocked _ _ _ _ ?b2] => by apply (addAddrs_capped now (PeerID rec) (RecAddrs rec) ttl b2 q) end.
  - destruct (gc_spec now b Hok) as (_ & _ & Hk & _). pose proof (drops_count b (gc now b) q) as Hd.
    enough (drops b (gc now b)) as Hdr by (specialize (Hd Hdr); lia). intros k v. rewrite Hk. by destruct (decide _).
Qed.

(** As long as addresses come from [AddAddrs] and signed records, no peer has more of them
    than the cap that no connection holds, in whatever order the eviction finds them. *)
Theorem peer_cap u s c l : 0 < c -> Forall (fun o => adds o = true) l ->
  forall p, numUnconnectedAddrsForPeerUnlocked p (run (set_limits u s c NewAddrBook) l) <= c.
Proof.
  intros Hc Hl p. rewrite numUnconnected_count.
  assert (forall b, book_ok b -> maxAddrsPerPeer b = c -> Z.of_nat (cnt p b) <= c -> Z.of_nat (cnt p (run b l)) <= c) as Hrun.
  { induction Hl as [|o l Ho Hl IH]; intros b Hok Hm Hb; [done|]. simpl. apply IH.
    - by apply book_step_ok.
    - by rewrite step_max.
    - pose proof (step_capped o b p Hok ltac:(lia) Ho). lia. }
  apply Hrun; [apply new_book_ok|done|]. assert (peer_view (addrs (set_limits u s c NewAddrBook)) p = ∅) as ->;
    [|unfold count; rewrite map_to_list_empty; simpl; lia].
  apply map_empty. intros a. rewrite lookup_peer_view, known_entry. unfold entry_of. simpl. by rewrite lookup_empty.
Qed.

(** ** Adding addresses *)

(** The addresses of a list that are meant for [p]. *)
Definition wanted (p : peer) (l : list (option Maddr)) (a : Maddr) : Prop :=
  exists m pid, m ∈ l /\ SplitAddr m = (Some a, pid) /\ (pid = "" \/ pid = p).

#[export] Instance wanted_dec p l a : Decision (wanted p l a).
Proof.
  clear MatchesPublicKey decode Envelope.
  refine (cast_if (decide (Exists (fun m => SplitAddr m = (Some a, "") \/ SplitAddr m = (Some a, p)) l)));
    rewrite Exists_exists in *; unfold wanted in *; naive_solver.
Defined.

(** The later of two expiries, the longer of two times to live. *)
Definition merge (ttl exp : Z) (v : option (Z * Z)) : Z * Z :=
  match v with None => (ttl, exp) | Some (t, x) => (Z.max t ttl, Z.max x exp) end.

Lemma addAddr_free p ttl exp b m : wf (addrs b) -> maxAddrsPerPeer b <= 0 \/ ttlIsConnected ttl = true ->
  forall k, known (addrs (addAddr p ttl exp b m)) k =
    if decide (k.1 = p /\ wanted p [m] k.2) then Some (merge ttl exp (known (addrs b) k)) else known (addrs b) k.
Proof.
  intros Hw Hfree k. unfold addAddr. destruct (SplitAddr m) as [[x|] pid] eqn:Es.
  2:{ rewrite decide_False; [done|]. intros (_ & m' & pid' & ->%list_elem_of_singleton & E & _). congruence. }
  destruct (negb (pid =? "")%string && negb (pid =? p)%string) eqn:Ep.
  { rewrite decide_False; [done|]. intros (_ & m' & pid' & ->%list_elem_of_singleton & E & Hpid). rewrite E in Es.
    injection Es as E0 ->. apply andb_true_iff in Ep as [E1 E2]. apply negb_true_iff, String.eqb_neq in E1, E2. naive_solver. }
  assert (k.1 = p /\ wanted p [m] k.2 <-> k = (p, x)) as Hiff.
  { destruct k as [q y]; simpl. split.
    - intros (-> & m' & pid' & ->%list_elem_of_singleton & E & _). rewrite E in Es. congruence.
    - intros [= -> ->]. split; [done|]. exists m, pid. split_and!; [by apply list_elem_of_singleton|done|].
      apply andb_false_iff in Ep as [E1|E1]; apply negb_false_iff, String.eqb_eq in E1; auto. }
  rewrite (decide_ext _ _ _ _ Hiff). destruct (FindAddr p x (addrs b)) as [e|] eqn:Ef.
  - apply FindAddr_Some in Ef. unfold time_after.
    assert (merge ttl exp (Some (TTL e, Expiry e)) =
      ((if TTL e <? ttl then ttl else TTL e), (if Expiry e <? exp then exp else Expiry e))) as Em.
    { unfold merge. f_equal; destruct (Z.ltb_spec (TTL e) ttl), (Z.ltb_spec (Expiry e) exp); lia. }
    destruct ((TTL e <? ttl) || (Expiry e <? exp)) eqn:Ec.
    + simpl. rewrite (proj1 (proj2 (Update_spec _ _ _ _ Hw (ex_intro _ _ Ef)))).
      destruct (decide (k = (p, x))) as [->|]; [|done]. by rewrite Ef, Em.
    + destruct (decide (k = (p, x))) as [->|]; [|done]. rewrite Ef, Em. by apply orb_false_iff in Ec as [-> ->].
  - apply FindAddr_known in Ef. unfold insertNew. pose proof (makeRoom_spec p ttl b Hw) as Hr.
    destruct (makeRoom p ttl b) as [ok b']. destruct Hr as (_ & _ & _ & _ & Hr). destruct (Hr Hfree) as [-> ->]. simpl.
    rewrite (proj1 (proj2 (Insert_spec _ _ _ _ Hw Ef))). destruct (decide (k = (p, x))) as [->|]; [|done]. by rewrite Ef.
Qed.

Lemma merge_idem ttl exp v : merge ttl exp (Some (merge ttl exp v)) = merge ttl exp v.
Proof. destruct v as [[t x]|]; simpl; f_equal; lia. Qed.

(** [AddAddrs] with room and no cap: the addresses of the list that are meant for the peer
    are known with the longer time to live and the later expiry, everything else is as
    before. *)
Theorem addAddrs_merges u s c l now p new ttl :
  let b := run (set_limits u s c NewAddrBook) l in
  0 < ttl -> overLimit ttl b = false -> c <= 0 \/ ttlIsConnected ttl = true ->
  forall k, known (addrs (AddAddrs now p new ttl b)) k =
    if decide (k.1 = p /\ wanted p new k.2) then Some (merge ttl (now + ttl) (known (addrs b) k)) else known (addrs b) k.
Proof.
  cbv zeta. set (b := run _ l). intros Ht Ho Hc k.
  assert (maxAddrsPerPeer b <= 0 \/ ttlIsConnected ttl = true) as Hfree.
  { destruct Hc as [Hc|Hc]; [left|by right]. unfold b. clear -Hc. assert (forall b0, book_ok b0 -> maxAddrsPerPeer (run b0 l) = maxAddrsPerPeer b0) as Hr.
    { induction l as [|o l IH]; intros b0 Hok; [done|]. simpl. rewrite IH by by apply book_step_ok. by apply step_max. }
    rewrite Hr by apply new_book_ok. done. }
  pose proof (ok_wf b (book_run_ok l _ (new_book_ok u s c))) as Hw.
  unfold AddAddrs, addAddrsUnlocked. rewrite clean_addrs. destruct (Z.leb_spec ttl 0); [lia|]. rewrite Ho. clear Ho Hc. clearbody b.
  revert b Hfree Hw. induction new as [|m new IH]; intros b Hfree Hw.
  { simpl. rewrite decide_False; [done|]. intros (_ & m & pid & Hm & _). by apply elem_of_nil in Hm. }
  simpl. destruct (proj1 (addAddr_spec p ttl (now + ttl) b m) Hw) as (Hw' & _ & _ & Hm').
  rewrite IH by (done || by rewrite Hm'). rewrite addAddr_free by done.
  assert (wanted p (m :: new) k.2 <-> wanted p [m] k.2 \/ wanted p new k.2) as Hcons.
  { unfold wanted. split.
    - intros (m' & pid & [->|Hin]%elem_of_cons & Hx); [left; exists m, pid; split; [by apply list_elem_of_singleton|done]|right; by exists m', pid].
    - intros [(m' & pid & ->%list_elem_of_singleton & Hx)|(m' & pid & Hin & Hx)]; [exists m, pid|exists m', pid]; (split; [|done]); apply elem_of_cons; auto. }
  destruct (decide (k.1 = p /\ wanted p new k.2)) as [Hn|Hn], (decide (k.1 = p /\ wanted p [m] k.2)) as [Hm1|Hm1];
    [rewrite decide_True, merge_idem by tauto|rewrite decide_True by tauto|rewrite decide_True by tauto|rewrite decide_False by tauto]; done.
Qed.

(** ** Sequence numbers *)

Lemma clean_records p b q st : signedPeerRecords (maybeDeleteSignedPeerRecordUnlocked p b) !! q = Some st -> signedPeerRecords b !! q = Some st.
Proof. unfold maybeDeleteSignedPeerRecordUnlocked. destruct (decide _); [simpl; by intros [_ ?]%lookup_delete_Some|done]. Qed.

Lemma gcLoop_records fuel : forall now b b' q st, gcLoop fuel now b = Some b' -> signedPeerRecords b' !! q = Some st -> signedPeerRecords b !! q = Some st.
Proof.
  induction fuel as [|fuel IH]; intros now b b' q st E Es; [done|]. cbn [gcLoop] in E. destruct (PopIfExpired now (addrs b)) as [[k|] t].
  - apply (IH _ _ _ _ _ E), clean_records in Es. done.
  - by injection E as <-.
Qed.

(** A record is replaced by one that is not older, signed by the peer; a record that is
    older, or of another signer, or not a peer's, changes nothing. *)
Theorem records_not_replaced_by_older u s c l o p st st' :
  let b := run (set_limits u s c NewAddrBook) l in
  signedPeerRecords b !! p = Some st -> signedPeerRecords (step b o) !! p = Some st' ->
  Seq st <= Seq st' /\ (st' = st \/ exists now ttl, o = OpConsume now (StateEnvelope st') ttl).
Proof.
  cbv zeta. set (b := run _ l). intros E E'. pose proof (ok_wf b (book_run_ok l _ (new_book_ok u s c))) as Hw.
  assert (forall b1, signedPeerRecords b1 = signedPeerRecords b -> forall q, signedPeerRecords (maybeDeleteSignedPeerRecordUnlocked q b1) !! p = Some st' -> st' = st) as Hcl.
  { intros b1 E1 q Ec%clean_records. congruence. }
  assert (st' = st -> Seq st <= Seq st' /\ (st' = st \/ exists now ttl, o = OpConsume now (StateEnvelope st') ttl)) as Hsame by (intros ->; split; [lia|by left]).
  destruct o as [now q new ttl|now q new ttl|now q old new|q|now env ttl|now]; simpl in E'.
  - apply Hsame. eapply Hcl; [|exact E']. by apply (addLoop_touch q new ttl now b).
  - apply Hsame. eapply Hcl; [|exact E']. refine (proj1 (proj2 (proj2 (foldl_touch q (setAddr q ttl (now + ttl)) new b _ Hw)))). intros b' a. apply setAddr_touch.
  - apply Hsame. eapply Hcl; [|exact E'].
    refine (proj1 (proj2 (proj2 (foldl_touch q (updateAddr q old new (now + new)) _ b _ Hw)))). intros b' a. apply updateAddr_touch.
  - apply Hsame. unfold ClearAddrs in E'. rewrite (proj1 (proj2 (proj2 (clear_touch q _ (set_records _ b) Hw)))) in E'.
    simpl in E'. apply lookup_delete_Some in E' as [_ E']. congruence.
  - unfold ConsumePeerRecord in E'. destruct (decode env) as [[rec|]|e|]; try (apply Hsame; simpl in E'; congruence).
    destruct (MatchesPublicKey _ _); [|apply Hsame; simpl in E'; congruence]. cbn [negb] in E'.
    destruct (signedPeerRecords b !! PeerID rec) as [st0|] eqn:E0.
    + destruct (Z.ltb_spec (RecSeq rec) (Seq st0)); [apply Hsame; simpl in E'; congruence|]. cbn [snd] in E'.
      unfold addAddrsUnlocked in E'. apply clean_records in E'.
      destruct (foldl_touch (PeerID rec) (dropPrev (PeerID rec) (RecAddrs rec)) (prevSignedAddrs st0) b) as (Hw1 & _ & E1 & _);
        [intros b' a; exact (proj1 (dropPrev_spec _ _ b' a))|done|].
      match type of E' with context [if ttl <=? 0 then ?b2 else _] =>
        rewrite (proj1 (proj2 (proj2 (addLoop_touch (PeerID rec) (RecAddrs rec) ttl now b2 Hw1)))) in E' end.
      simpl in E'. apply lookup_insert_Some in E' as [[<- <-]|[Hp E']].
      * rewrite E0 in E. injection E as ->. simpl. split; [done|]. right. by exists now, ttl.
      * apply Hsame. rewrite E1 in E'. congruence.
    + destruct (_ <=? _); [apply Hsame; simpl in E'; congruence|]. cbn [snd] in E'. unfold addAddrsUnlocked in E'. apply clean_records in E'.
      match type of E' with context [if ttl <=? 0 then ?b2 else _] =>
        rewrite (proj1 (proj2 (proj2 (addLoop_touch (PeerID rec) (RecAddrs rec) ttl now b2 Hw)))) in E' end.
      simpl in E'. apply lookup_insert_Some in E' as [[<- _]|[Hp E']]; [congruence|]. apply Hsame. congruence.
  - apply Hsame. unfold gc in E'. destruct (gcLoop _ now b) as [b'|] eqn:Eg; simpl in E'; [apply (gcLoop_records _ _ _ _ _ _ Eg) in E'|]; congruence.
Qed.
End operations.

#[export] Existing Instance wanted_dec.

(** ** Examples *)

(** Addresses with the peer they end in, if any. *)
Definition split_pair (a : string * string) : option (string * string) * option (Z * string) :=
  if (a.2 =? "")%string then (Some a, None) else (Some (a.1, ""), Some (P_P2P, a.2)).

(** Envelopes that are the records themselves, signed by the peer they name. *)
Definition open_record (r : @PeerRecord (string * string)) : res (option PeerRecord) := Ok (Some r).
Definition own_key (p : string) (r : @PeerRecord (string * string)) : bool := (p =? PeerID r)%string.

#[local] Existing Instance map_to_list_range.

Notation run_ex := (run split_pair open_record own_key).
Notation new_ex := (@NewAddrBook (string * string) _ _ (@PeerRecord (string * string))).
Notation small := (set_limits 10 10 2 new_ex).

Definition addr (t : string) : option (string * string) := Some (t, "").

(** The third address of a peer takes the place of the one that expires first. *)
Example third_evicts :
  (Addrs_ 50 "p" (run_ex small [OpAdd 0 "p" [addr "a"] 100; OpAdd 0 "p" [addr "b"] 60; OpAdd 1 "p" [addr "c"] 200])).*1 = ["c"; "a"].
Proof. vm_compute. reflexivity. Qed.

(** An address that names another peer is not taken. *)
Example other_peer : known (addrs (run_ex small [OpAdd 0 "p" [Some ("a", "q"); Some ("b", "p")] 100])) ("p", ("a", "")) = None /\
  known (addrs (run_ex small [OpAdd 0 "p" [Some ("a", "q"); Some ("b", "p")] 100])) ("p", ("b", "")) = Some (100, 100).
Proof. by vm_compute. Qed.

(** An older record changes nothing, and a record whose addresses expire is forgotten. *)
Example record_lifetime :
  let r n := {| PeerID := "p"; RecAddrs := [addr "a"]; RecSeq := n |} in
  let b := run_ex small [OpConsume 0 (r 5) 100; OpConsume 1 (r 4) 100] in
  (RecSeq <$> GetPeerRecord 50 "p" b) = Some 5 /\ signedPeerRecords (run_ex b [OpGc 200]) !! "p" = None.
Proof. by vm_compute. Qed.

(** When a connection ends its addresses get a time to live that ends ([UpdateAddrs]), but
    [Update] leaves an entry without a place where it is: they never enter the heap, so
    they do not count as unconnected and are never collected. *)
Theorem closed_connection_never_collected :
  let b := run_ex small [OpAdd 0 "p" [addr "a"] ConnectedAddrTTL; OpUpdate 1 "p" ConnectedAddrTTL (15 * minute); OpGc (10 ^ 30)] in
  known (addrs b) ("p", ("a", "")) = Some (15 * minute, 1 + 15 * minute) /\
  NumUnconnectedAddrs (addrs b) = 0 /\ PeersWithAddrs b = ["p"] /\ Addrs_ (10 ^ 30) "p" b = [].
Proof. by vm_compute. Qed.

(** [AddAddrs] looks at the limit of unconnected addresses before it adds, not while. *)
Theorem add_exceeds_limit :
  let b := run_ex (set_limits 2 10 0 new_ex) [OpAdd 0 "p" [addr "a"; addr "b"; addr "c"; addr "d"] 100] in
  NumUnconnectedAddrs (addrs b) = 4.
Proof. by vm_compute. Qed.

(** Adding an address can shorten the life of another, and of itself: the cap makes room
    by dropping addresses that were known. *)
Theorem add_reduces :
  let b := run_ex small [OpAdd 0 "p" [addr "a"; addr "b"] 100] in
  known (addrs (run_ex b [OpAdd 1 "p" [addr "c"; addr "d"; addr "e"] 50])) ("p", ("a", "")) = None /\
  known (addrs (run_ex b [OpAdd 1 "p" [addr "c"; addr "d"; addr "e"] 50])) ("p", ("d", "")) = None.
Proof. by vm_compute. Qed.

Lemma peer_cap_witness :
  Forall (fun o : @op (string * string) (@PeerRecord (string * string)) => adds o = true) [OpAdd 0 "p" [addr "a"; addr "b"; addr "c"] 100; OpGc 200] /\
  forall p, numUnconnectedAddrsForPeerUnlocked p
    (run_ex (set_limits 10 10 2 new_ex) [OpAdd 0 "p" [addr "a"; addr "b"; addr "c"] 100; OpGc 200]) <= 2.
Proof. split; [repeat constructor|]. apply peer_cap; [lia|repeat constructor]. Defined.

Lemma addAddrs_merges_witness :
  let b := run_ex (set_limits 10 10 0 new_ex) [OpAdd 0 "p" [addr "a"] 100] in
  overLimit 50 b = false /\
  forall k, known (addrs (AddAddrs split_pair 70 "p" [addr "a"; addr "b"] 50 b)) k =
    if decide (k.1 = "p" /\ wanted split_pair "p" [addr "a"; addr "b"] k.2)
    then Some (merge 50 (70 + 50) (known (addrs b) k)) else known (addrs b) k.
Proof.
  split; [by vm_compute|].
  apply (addAddrs_merges split_pair open_record own_key); [lia|by vm_compute|left; lia].
Defined.

Lemma records_not_replaced_by_older_witness :
  let r n := {| PeerID := "p"; RecAddrs := [addr "a"]; RecSeq := n |} in
  let b := run_ex small [OpConsume 0 (r 5) 100] in
  exists st st', signedPeerRecords b !! "p" = Some st /\
    signedPeerRecords (step split_pair open_record own_key b (OpConsume 1 (r 7) 100)) !! "p" = Some st' /\ Seq st <= Seq st'.
Proof.
  intros r b. exists {| StateEnvelope := r 5; Seq := 5 |}, {| StateEnvelope := r 7; Seq := 7 |}.
  split; [by vm_compute|]. split; [by vm_compute|].
  apply (records_not_replaced_by_older split_pair open_record own_key 10 10 2 [OpConsume 0 (r 5) 100] (OpConsume 1 (r 7) 100) "p");
    by vm_compute.
Defined.
