(* ===== verification/DialLimiter.v ===== *)
(** * The limiter of outgoing dials

    src/myvendor/go-libp2p/p2p/net/swarm/limiter.go: a dial takes a token of its peer and,
    if its address needs one, a file descriptor; without them it waits.  An operation holds
    the lock and is one step; a dial that runs is an entry of [running], whose end is
    another step ([finishedDial]).  Contexts are numbers, the cancelled ones a set.  What
    go-multiaddr says of an address is an argument. *)

From S2P Require Import Prelude.

Section limiter.
Context {Maddr : Type}.
(** [ValueForProtocol] succeeds; [SplitFunc] at the first component of a protocol: what is
    before it, or nil. *)
Context (hasProtocol : Z -> Maddr -> bool) (before : Z -> Maddr -> option Maddr).

(** Codes of go-multiaddr. *)
Definition P_TCP : Z := 6.
Definition P_UNIX : Z := 400.
Definition P_CIRCUIT : Z := 290.

Definition ConcurrentFdDials : Z := 160.
Definition DefaultPerPeerRateLimit : Z := 8.

Record dialJob := { jaddr : Maddr; jpeer : string; jctx : nat }.

Record dialLimiter := {
  fdConsuming : Z;
  fdLimit : Z;
  waitingOnFd : list dialJob;
  activePerPeer : gmap string Z;
  perPeerLimit : Z;
  waitingOnPeerLimit : gmap string (list dialJob);
  running : list dialJob   (* the goroutines in [executeDial] *)
}.

Definition newDialLimiterWithParams (fdLimit perPeerLimit : Z) : dialLimiter := {|
  fdConsuming := 0; fdLimit := fdLimit; waitingOnFd := []; activePerPeer := ∅;
  perPeerLimit := perPeerLimit; waitingOnPeerLimit := ∅; running := [] |}.

Definition newDialLimiter : dialLimiter := newDialLimiterWithParams ConcurrentFdDials DefaultPerPeerRateLimit.

Definition set_fd (n : Z) (dl : dialLimiter) : dialLimiter := {|
  fdConsuming := n; fdLimit := fdLimit dl; waitingOnFd := waitingOnFd dl; activePerPeer := activePerPeer dl;
  perPeerLimit := perPeerLimit dl; waitingOnPeerLimit := waitingOnPeerLimit dl; running := running dl |}.
Definition set_waitingOnFd (l : list dialJob) (dl : dialLimiter) : dialLimiter := {|
  fdConsuming := fdConsuming dl; fdLimit := fdLimit dl; waitingOnFd := l; activePerPeer := activePerPeer dl;
  perPeerLimit := perPeerLimit dl; waitingOnPeerLimit := waitingOnPeerLimit dl; running := running dl |}.
Definition set_active (m : gmap string Z) (dl : dialLimiter) : dialLimiter := {|
  fdConsuming := fdConsuming dl; fdLimit := fdLimit dl; waitingOnFd := waitingOnFd dl; activePerPeer := m;
  perPeerLimit := perPeerLimit dl; waitingOnPeerLimit := waitingOnPeerLimit dl; running := running dl |}.
Definition set_waitingOnPeer (m : gmap string (list dialJob)) (dl : dialLimiter) : dialLimiter := {|
  fdConsuming := fdConsuming dl; fdLimit := fdLimit dl; waitingOnFd := waitingOnFd dl; activePerPeer := activePerPeer dl;
  perPeerLimit := perPeerLimit dl; waitingOnPeerLimit := m; running := running dl |}.
Definition set_running (l : list dialJob) (dl : dialLimiter) : dialLimiter := {|
  fdConsuming := fdConsuming dl; fdLimit := fdLimit dl; waitingOnFd := waitingOnFd dl; activePerPeer := activePerPeer dl;
  perPeerLimit := perPeerLimit dl; waitingOnPeerLimit := waitingOnPeerLimit dl; running := l |}.

(** swarm_dial.go *)
Definition isFdConsumingAddr (addr : Maddr) : bool :=
  match before P_CIRCUIT addr with
  | None => true
  | Some first => hasProtocol P_TCP first || hasProtocol P_UNIX first
  end.

Definition shouldConsumeFd (addr : Maddr) : bool := negb (hasProtocol P_CIRCUIT addr) && isFdConsumingAddr addr.

(** [dl.activePerPeer[p]], zero if there is none. *)
Definition active (p : string) (dl : dialLimiter) : Z := default 0 (activePerPeer dl !! p).
Definition waitlist (p : string) (dl : dialLimiter) : list dialJob := default [] (waitingOnPeerLimit dl !! p).

(** [go dl.executeDial(dj)] *)
Definition spawn (dj : dialJob) (dl : dialLimiter) : dialLimiter := set_running (running dl ++ [dj]) dl.

Definition addCheckFdLimit (dj : dialJob) (dl : dialLimiter) : dialLimiter :=
  if shouldConsumeFd (jaddr dj) then
    if fdLimit dl <=? fdConsuming dl then set_waitingOnFd (waitingOnFd dl ++ [dj]) dl
    else spawn dj (set_fd (fdConsuming dl + 1) dl)
  else spawn dj dl.

Definition addCheckPeerLimit (dj : dialJob) (dl : dialLimiter) : dialLimiter :=
  if perPeerLimit dl <=? active (jpeer dj) dl then
    set_waitingOnPeer (<[jpeer dj := waitlist (jpeer dj) dl ++ [dj]]> (waitingOnPeerLimit dl)) dl
  else addCheckFdLimit dj (set_active (<[jpeer dj := active (jpeer dj) dl + 1]> (activePerPeer dl)) dl).

Section cancelled.
Context (cancelled : dialJob -> bool).

(** The loop of [freePeerToken] over the waiting list of a peer. *)
Fixpoint wakePeer (l : list dialJob) (dl : dialLimiter) : dialLimiter :=
  match l with
  | [] => dl
  | next :: rest =>
    let dl := set_waitingOnPeer
      (match rest with [] => delete (jpeer next) (waitingOnPeerLimit dl) | _ => <[jpeer next := rest]> (waitingOnPeerLimit dl) end) dl in
    if cancelled next then wakePeer rest dl
    else addCheckFdLimit next (set_active (<[jpeer next := active (jpeer next) dl + 1]> (activePerPeer dl)) dl)
  end.

Definition freePeerToken (dj : dialJob) (dl : dialLimiter) : dialLimiter :=
  let n := active (jpeer dj) dl - 1 in
  let dl := set_active (if n =? 0 then delete (jpeer dj) (activePerPeer dl) else <[jpeer dj := n]> (activePerPeer dl)) dl in
  wakePeer (waitlist (jpeer dj) dl) dl.

(** The loop of [freeFDToken]: each turn takes a job off, and puts on at most one that was
    waiting for its peer. *)
Fixpoint wakeFd (fuel : nat) (dl : dialLimiter) : option dialLimiter :=
  match fuel with
  | O => None
  | S fuel =>
    match waitingOnFd dl with
    | [] => Some dl
    | next :: rest =>
      let dl := set_waitingOnFd rest dl in
      if cancelled next then wakeFd fuel (freePeerToken next dl)
      else Some (spawn next (set_fd (fdConsuming dl + 1) dl))
    end
  end.

Definition waiting (dl : dialLimiter) : nat :=
  (length (waitingOnFd dl) + map_fold (fun _ l n => length l + n) 0 (waitingOnPeerLimit dl))%nat.

Definition freeFDToken (dl : dialLimiter) : dialLimiter :=
  let dl := set_fd (fdConsuming dl - 1) dl in
  default dl (wakeFd (S (waiting dl)) dl).

(** The goroutine at place [i] has returned from its dial. *)
Definition finishedDial (i : nat) (dl : dialLimiter) : dialLimiter :=
  match running dl !! i with
  | None => dl
  | Some dj =>
    let dl := set_running (delete i (running dl)) dl in
    let dl := if shouldConsumeFd (jaddr dj) then freeFDToken dl else dl in
    freePeerToken dj dl
  end.
End cancelled.

Definition AddDialJob : dialJob -> dialLimiter -> dialLimiter := addCheckPeerLimit.

Definition clearAllPeerDials (p : string) (dl : dialLimiter) : dialLimiter :=
  set_waitingOnPeer (delete p (waitingOnPeerLimit dl)) dl.

(** ** Histories *)

Inductive op :=
  | Add (dj : dialJob)
  | Finished (i : nat)
  | Clear (p : string)
  | Cancel (ctx : nat).

Record world := { lim : dialLimiter; ended : gset nat }.

Definition step (w : world) (o : op) : world :=
  let cancelled dj := bool_decide (jctx dj ∈ ended w) in
  match o with
  | Add dj => {| lim := AddDialJob dj (lim w); ended := ended w |}
  | Finished i => {| lim := finishedDial cancelled i (lim w); ended := ended w |}
  | Clear p => {| lim := clearAllPeerDials p (lim w); ended := ended w |}
  | Cancel ctx => {| lim := lim w; ended := {[ctx]} ∪ ended w |}
  end.

Definition run (dl : dialLimiter) (l : list op) : world := foldl step {| lim := dl; ended := ∅ |} l.

(** ** Tokens

    [pend] are the jobs that hold a token of their peer but neither run nor wait, [f] the
    file descriptors that are counted for no dial, [ex] the peer one of whose tokens has just
    been given back. *)

Definition consumes (dj : dialJob) : bool := shouldConsumeFd (jaddr dj).
Definition nfd (l : list dialJob) : Z := zlen (filter (fun j => consumes j = true) l).
Definition np (p : string) (l : list dialJob) : Z := zlen (filter (fun j => jpeer j = p) l).
Definition slack (ex : option string) (p : string) : Z := if decide (ex = Some p) then 1 else 0.

Record inv (pend : list dialJob) (f : Z) (ex : option string) (dl : dialLimiter) : Prop := {
  inv_fd : fdConsuming dl = nfd (running dl) + f;
  inv_active : forall p, active p dl = np p (running dl) + np p (waitingOnFd dl) + np p pend;
  inv_zero : forall p, activePerPeer dl !! p <> Some 0;
  inv_fdjobs : Forall (fun j => consumes j = true) (waitingOnFd dl);
  inv_lists : forall p l, waitingOnPeerLimit dl !! p = Some l -> l <> [] /\ Forall (fun j => jpeer j = p) l;
  inv_busy : forall p, is_Some (waitingOnPeerLimit dl !! p) -> perPeerLimit dl <= active p dl + slack ex p;
  inv_cap : forall p, active p dl + slack ex p <= Z.max 0 (perPeerLimit dl)
}.

(** What the operations leave alone, and that no more jobs wait. *)
Definition same_limits (dl dl' : dialLimiter) : Prop :=
  fdLimit dl' = fdLimit dl /\ perPeerLimit dl' = perPeerLimit dl /\ (waiting dl' <= waiting dl)%nat.

Lemma nfd_app l k : nfd (l ++ k) = nfd l + nfd k.
Proof. unfold nfd. by rewrite filter_app, zlen_app. Qed.
Lemma np_app p l k : np p (l ++ k) = np p l + np p k.
Proof. unfold np. by rewrite filter_app, zlen_app. Qed.
Lemma nfd_cons j l : nfd (j :: l) = (if consumes j then 1 else 0) + nfd l.
Proof. unfold nfd. rewrite filter_cons. destruct (consumes j); [rewrite decide_True, zlen_cons by done|rewrite decide_False by done]; lia. Qed.
Lemma np_cons p j l : np p (j :: l) = (if decide (jpeer j = p) then 1 else 0) + np p l.
Proof. unfold np. rewrite filter_cons. destruct (decide _); [rewrite zlen_cons|]; lia. Qed.
Lemma nfd_nil : nfd [] = 0.
Proof. done. Qed.
Lemma np_nil p : np p [] = 0.
Proof. done. Qed.
Lemma np_nonneg p l : 0 <= np p l.
Proof. apply zlen_nonneg. Qed.
Lemma nfd_nonneg l : 0 <= nfd l.
Proof. apply zlen_nonneg. Qed.

Definition peerSum (m : gmap string (list dialJob)) : nat := map_fold (fun _ l n => length l + n)%nat 0%nat m.

Lemma peerSum_delete m p l : m !! p = Some l -> peerSum m = (length l + peerSum (delete p m))%nat.
Proof. intros E. unfold peerSum. apply (map_fold_delete_L (fun _ l n => length l + n)%nat); [intros; lia|done]. Qed.

Lemma peerSum_insert m p l : m !! p = None -> peerSum (<[p := l]> m) = (length l + peerSum m)%nat.
Proof. intros E. rewrite (peerSum_delete _ p l) by apply lookup_insert_eq. by rewrite delete_insert_id. Qed.

Lemma peerSum_update m p l l' : m !! p = Some l -> (peerSum (<[p := l']> m) + length l = peerSum m + length l')%nat.
Proof.
  intros E. rewrite (peerSum_delete m p l E), <-(insert_delete_eq m p l'), peerSum_insert by apply lookup_delete_eq. lia.
Qed.

(** Placing a job that holds a token: it runs, or it waits and no descriptor is free. *)
Lemma addCheckFdLimit_spec dj pend f dl : inv (dj :: pend) f None dl ->
  let dl' := addCheckFdLimit dj dl in
  inv pend f None dl' /\ fdLimit dl' = fdLimit dl /\ perPeerLimit dl' = perPeerLimit dl /\
  (waiting dl' <= S (waiting dl))%nat /\
  fdConsuming dl <= fdConsuming dl' <= Z.max (fdConsuming dl) (fdLimit dl) /\
  (waitingOnFd dl' <> [] -> waitingOnFd dl <> [] \/ fdLimit dl <= fdConsuming dl').
Proof.
  intros [I1 I2 I3 I4 I5 I6 I7]. unfold addCheckFdLimit. destruct (shouldConsumeFd (jaddr dj)) eqn:Ec.
  - destruct (Z.leb_spec (fdLimit dl) (fdConsuming dl)) as [Hle|Hgt].
    + split_and!; try done; try (simpl; lia); [|unfold waiting; simpl; rewrite length_app; simpl; lia].
      split; simpl; try done.
      * intros p. rewrite np_app, np_cons, np_nil. pose proof (I2 p) as E. rewrite np_cons in E. unfold active in *. simpl. lia.
      * apply Forall_app. by repeat constructor.
    + split_and!; try done; try (unfold waiting; simpl; lia); try (intros ?; by left).
      split; simpl; try done.
      * rewrite nfd_app, nfd_cons, nfd_nil. unfold consumes. rewrite Ec, I1. lia.
      * intros p. rewrite np_app, np_cons, np_nil. pose proof (I2 p) as E. rewrite np_cons in E. unfold active in *. simpl. lia.
  - split_and!; try done; try (unfold waiting; simpl; lia); try (intros ?; by left).
    split; simpl; try done.
    * rewrite nfd_app, nfd_cons, nfd_nil. unfold consumes. rewrite Ec, I1. lia.
    * intros p. rewrite np_app, np_cons, np_nil. pose proof (I2 p) as E. rewrite np_cons in E. unfold active in *. simpl. lia.
Qed.

Lemma active_insert p q n dl : active q (set_active (<[p := n]> (activePerPeer dl)) dl) = if decide (q = p) then n else active q dl.
Proof.
  unfold active. simpl. destruct (decide (q = p)) as [->|]; [by rewrite lookup_insert_eq|by rewrite lookup_insert_ne].
Qed.

(** A token of [p] is taken for a job that waits no more. *)
Lemma take_token_inv next pend f dl : inv pend f (Some (jpeer next)) dl ->
  inv (next :: pend) f None (set_active (<[jpeer next := active (jpeer next) dl + 1]> (activePerPeer dl)) dl).
Proof.
  intros [I1 I2 I3 I4 I5 I6 I7]. split; try done.
  - intros p. rewrite active_insert, np_cons. simpl. pose proof (I2 p). destruct (decide (p = jpeer next)) as [->|]; [rewrite decide_True by done|rewrite decide_False by done]; lia.
  - intros p. simpl. destruct (decide (p = jpeer next)) as [->|]; [rewrite lookup_insert_eq|by rewrite lookup_insert_ne].
    intros [= E]. pose proof (I2 (jpeer next)). pose proof (np_nonneg (jpeer next)) as Hn.
    pose proof (Hn (running dl)). pose proof (Hn (waitingOnFd dl)). pose proof (Hn pend). lia.
  - intros p Hp. rewrite active_insert. pose proof (I6 p Hp) as Hb. unfold slack in *. rewrite (decide_False (P := None = Some p)) by done.
    destruct (decide (p = jpeer next)) as [->|]; [rewrite decide_True in Hb by done|rewrite decide_False in Hb by congruence]; simpl in *; lia.
  - intros p. rewrite active_insert. pose proof (I7 p) as Hb. unfold slack in *. rewrite (decide_False (P := None = Some p)) by done.
    destruct (decide (p = jpeer next)) as [->|]; [rewrite decide_True in Hb by done|rewrite decide_False in Hb by congruence]; simpl in *; lia.
Qed.

Lemma inv_no_waiter pend f p dl : inv pend f (Some p) dl -> waitingOnPeerLimit dl !! p = None -> inv pend f None dl.
Proof.
  intros [I1 I2 I3 I4 I5 I6 I7] E. split; try done.
  - intros q Hq. pose proof (I6 q Hq) as Hb. unfold slack in *. rewrite (decide_False (P := None = Some q)) by done.
    rewrite decide_False in Hb; [done|]. intros [= ->]. rewrite E in Hq. by destruct Hq.
  - intros q. pose proof (I7 q). unfold slack in *. rewrite (decide_False (P := None = Some q)) by done. destruct (decide _); lia.
Qed.

(** The waiting list of a peer gets shorter. *)
Lemma cut_list_inv pend f ex p next rest dl : inv pend f ex dl -> waitingOnPeerLimit dl !! p = Some (next :: rest) ->
  let m := match rest with [] => delete p (waitingOnPeerLimit dl) | _ => <[p := rest]> (waitingOnPeerLimit dl) end in
  inv pend f ex (set_waitingOnPeer m dl) /\ (S (waiting (set_waitingOnPeer m dl)) = waiting dl)%nat /\
  m !! p = match rest with [] => None | _ => Some rest end.
Proof.
  intros [I1 I2 I3 I4 I5 I6 I7] E. pose proof (I5 p _ E) as [_ Hall]. apply Forall_cons in Hall as [_ Hall]. split; [|split].
  - split; try done.
    + intros q l Hq. destruct rest as [|x rest]; simpl in Hq.
      * apply lookup_delete_Some in Hq as [_ Hq]. by apply I5.
      * apply lookup_insert_Some in Hq as [[<- <-]|[_ Hq]]; [done|by apply I5].
    + intros q Hq. apply I6. destruct rest as [|x rest]; simpl in Hq.
      * destruct Hq as [y Hq]. apply lookup_delete_Some in Hq as [_ Hq]. by eexists.
      * destruct Hq as [y Hq]. apply lookup_insert_Some in Hq as [[<- _]|[_ Hq]]; by eexists.
  - unfold waiting. simpl. fold (peerSum (waitingOnPeerLimit dl)). destruct rest as [|x rest].
    + fold (peerSum (delete p (waitingOnPeerLimit dl))). rewrite (peerSum_delete _ _ _ E). simpl. lia.
    + fold (peerSum (<[p := x :: rest]> (waitingOnPeerLimit dl))). pose proof (peerSum_update _ _ _ (x :: rest) E). simpl in *. lia.
  - destruct rest; [apply lookup_delete_eq|apply lookup_insert_eq].
Qed.

Section cancelled.
Context (cancelled : dialJob -> bool).

Definition placed (dl dl' : dialLimiter) : Prop :=
  fdLimit dl' = fdLimit dl /\ perPeerLimit dl' = perPeerLimit dl /\ (waiting dl' <= waiting dl)%nat /\
  fdConsuming dl <= fdConsuming dl' <= Z.max (fdConsuming dl) (fdLimit dl) /\
  (waitingOnFd dl' <> [] -> waitingOnFd dl <> [] \/ fdLimit dl <= fdConsuming dl').

Lemma wakePeer_spec l : forall p pend f dl, inv pend f (Some p) dl -> waitlist p dl = l ->
  inv pend f None (wakePeer cancelled l dl) /\ placed dl (wakePeer cancelled l dl).
Proof.
  induction l as [|next rest IH]; intros p pend f dl Hi Hl.
  - simpl. split; [|split_and!; try done; [lia..|by left]]. apply (inv_no_waiter _ _ p); [done|].
    unfold waitlist in Hl. destruct (waitingOnPeerLimit dl !! p) as [k|] eqn:E; [|done]. simpl in Hl. subst k. by destruct (inv_lists _ _ _ _ Hi p [] E).
  - assert (waitingOnPeerLimit dl !! p = Some (next :: rest)) as E.
    { unfold waitlist in Hl. destruct (waitingOnPeerLimit dl !! p); simpl in *; congruence. }
    pose proof (inv_lists _ _ _ _ Hi p _ E) as [_ Hall]. apply Forall_cons in Hall as [Hp Hall]. subst p.
    destruct (cut_list_inv _ _ _ _ _ _ _ Hi E) as (Hi' & Hw & Em). cbn [wakePeer].
    set (dl1 := set_waitingOnPeer _ dl) in *. destruct (cancelled next).
    + destruct (IH (jpeer next) pend f dl1 Hi') as (Hi2 & P1 & P2 & P3 & P4 & P5).
      { unfold waitlist. change (waitingOnPeerLimit dl1 !! jpeer next) with
          (match rest with [] => delete (jpeer next) (waitingOnPeerLimit dl) | _ => <[jpeer next := rest]> (waitingOnPeerLimit dl) end !! jpeer next).
        rewrite Em. by destruct rest. }
      split; [exact Hi2|]. split; [exact P1|split; [exact P2|split; [lia|split; [exact P4|exact P5]]]].
    + destruct (addCheckFdLimit_spec next pend f _ (take_token_inv next pend f dl1 Hi')) as (Hi2 & P1 & P2 & P3 & P4 & P5).
      split; [exact Hi2|]. split; [exact P1|split; [exact P2|split; [|split; [exact P4|exact P5]]]].
      unfold waiting in *. simpl in *. lia.
Qed.

Lemma freePeerToken_spec dj pend f dl : inv (dj :: pend) f None dl ->
  inv pend f None (freePeerToken cancelled dj dl) /\ placed dl (freePeerToken cancelled dj dl).
Proof.
  intros [I1 I2 I3 I4 I5 I6 I7]. unfold freePeerToken. set (p := jpeer dj). set (n := active p dl - 1). set (dl1 := set_active _ dl).
  assert (forall q, active q dl1 = if decide (q = p) then n else active q dl) as Ha.
  { intros q. unfold dl1. destruct (Z.eqb_spec n 0) as [E|E]; [|apply active_insert]. unfold active. simpl.
    destruct (decide (q = p)) as [->|]; [by rewrite lookup_delete_eq|by rewrite lookup_delete_ne]. }
  apply (wakePeer_spec _ p pend f dl1); [|done]. split; try done.
  - intros q. rewrite Ha. simpl. pose proof (I2 q) as Eq. rewrite np_cons in Eq. unfold n.
    destruct (decide (q = p)) as [->|]; [rewrite decide_True in Eq by done|rewrite decide_False in Eq by (unfold p in *; congruence)]; lia.
  - intros q. unfold dl1. simpl. destruct (Z.eqb_spec n 0) as [E|E].
    + intros [_ Hq]%lookup_delete_Some. by apply (I3 q).
    + intros [[_ Hn]|[_ Hq]]%lookup_insert_Some; [done|by apply (I3 q)].
  - intros q Hq. rewrite Ha. pose proof (I6 q Hq) as Hb. unfold slack in *. rewrite (decide_False (P := None = Some q)) in Hb by done. unfold n.
    destruct (decide (q = p)) as [->|]; [rewrite decide_True by done|rewrite decide_False by congruence]; simpl; lia.
  - intros q. rewrite Ha. pose proof (I7 q) as Hb. unfold slack in *. rewrite (decide_False (P := None = Some q)) in Hb by done. unfold n.
    destruct (decide (q = p)) as [->|]; [rewrite decide_True by done|rewrite decide_False by congruence]; simpl; lia.
Qed.

(** The loop of [freeFDToken] ends, with no job waiting or one more descriptor taken. *)
Lemma wakeFd_spec fuel : forall pend f dl, inv pend f None dl -> (waiting dl < fuel)%nat ->
  exists dl', wakeFd cancelled fuel dl = Some dl' /\ fdLimit dl' = fdLimit dl /\ perPeerLimit dl' = perPeerLimit dl /\
    ((waitingOnFd dl' = [] /\ inv pend f None dl' /\ fdConsuming dl <= fdConsuming dl' <= Z.max (fdConsuming dl) (fdLimit dl)) \/
     (inv pend f None dl' /\ fdConsuming dl + 1 <= fdConsuming dl' <= Z.max (fdConsuming dl) (fdLimit dl) + 1 /\ waitingOnFd dl <> [])).
Proof.
  induction fuel as [|fuel IH]; intros pend f dl Hi Hf; [lia|]. cbn [wakeFd].
  destruct (waitingOnFd dl) as [|next rest] eqn:El.
  { exists dl. split_and!; [done..|]. left. split_and!; [done|done|lia|lia]. }
  set (dl1 := set_waitingOnFd rest dl).
  assert (inv (next :: pend) f None dl1 /\ consumes next = true) as [Hi1 Hc].
  { destruct Hi as [I1 I2 I3 I4 I5 I6 I7]. rewrite El in I4. apply Forall_cons in I4 as [Hc I4]. split; [|done]. split; try done.
    intros p. pose proof (I2 p) as Ea. rewrite El, np_cons in Ea. rewrite np_cons. unfold active in *. simpl. lia. }
  destruct (cancelled next).
  - destruct (freePeerToken_spec next pend f dl1 Hi1) as (Hi2 & P1 & P2 & P3 & P4 & P5).
    destruct (IH pend f (freePeerToken cancelled next dl1) Hi2) as (dl' & E & L1 & L2 & HH).
    { unfold waiting in *. rewrite El in Hf. simpl in *. lia. }
    exists dl'. change (fdConsuming dl1) with (fdConsuming dl) in *. change (fdLimit dl1) with (fdLimit dl) in *.
    rewrite P1 in L1, HH. split; [done|split; [done|split; [rewrite L2; exact P2|]]].
    destruct HH as [(H1 & H2 & H3)|(H1 & H2 & H3)]; [left; split_and!; [done|done|lia|lia]|right; split_and!; [done|lia|lia|done]].
  - exists (spawn next (set_fd (fdConsuming dl1 + 1) dl1)). split_and!; [done..|]. right. split_and!; [|simpl; lia..|done].
    destruct Hi1 as [I1 I2 I3 I4 I5 I6 I7]. split; try done.
    + simpl. rewrite nfd_app, nfd_cons, nfd_nil, Hc. simpl in I1. lia.
    + intros p. pose proof (I2 p) as Ea. rewrite np_cons in Ea. unfold active in *. simpl in *. rewrite np_app, np_cons, np_nil. lia.
Qed.
End cancelled.

(** ** The invariant *)

Record ok (dl : dialLimiter) : Prop := {
  ok_inv : inv [] 0 None dl;
  ok_fd : fdConsuming dl <= Z.max 0 (fdLimit dl) + 1;
  ok_waiting : waitingOnFd dl <> [] -> fdLimit dl <= fdConsuming dl
}.

Lemma nfd_perm l k : Permutation l k -> nfd l = nfd k.
Proof. intros E. unfold nfd, zlen. by rewrite E. Qed.

Lemma np_perm p l k : Permutation l k -> np p l = np p k.
Proof. intros E. unfold np, zlen. by rewrite E. Qed.

(** A token given back and its peer served keeps the descriptors in their limit. *)
Lemma freePeerToken_ok cancelled dj dl : inv [dj] 0 None dl -> fdConsuming dl <= Z.max 0 (fdLimit dl) + 1 ->
  (waitingOnFd dl <> [] -> fdLimit dl <= fdConsuming dl) -> ok (freePeerToken cancelled dj dl).
Proof.
  intros Hi Hfd Hw. destruct (freePeerToken_spec cancelled dj [] 0 dl Hi) as (Hi2 & P1 & P2 & P3 & P4 & P5). split; [done|rewrite P1; lia|].
  rewrite P1. intros [Hn|Hn]%P5; [specialize (Hw Hn)|]; lia.
Qed.

Lemma finishedDial_ok cancelled i dl : ok dl -> ok (finishedDial cancelled i dl).
Proof.
  intros [Hi Hfd Hw]. unfold finishedDial. destruct (running dl !! i) as [dj|] eqn:E; [|done].
  set (dl1 := set_running (delete i (running dl)) dl). pose proof (delete_Permutation _ _ _ E) as HP.
  assert (inv [dj] (if consumes dj then 1 else 0) None dl1) as Hi1.
  { destruct Hi as [I1 I2 I3 I4 I5 I6 I7]. split; try done.
    - simpl. rewrite I1, (nfd_perm _ _ HP), nfd_cons. lia.
    - intros p. pose proof (I2 p) as Ea. rewrite (np_perm p _ _ HP), np_cons, np_nil in Ea. rewrite np_cons, np_nil. unfold active in *. simpl. lia. }
  change (shouldConsumeFd (jaddr dj)) with (consumes dj). destruct (consumes dj).
  - unfold freeFDToken. set (dl2 := set_fd (fdConsuming dl1 - 1) dl1).
    assert (inv [dj] 0 None dl2) as Hi2 by (destruct Hi1 as [I1 I2 I3 I4 I5 I6 I7]; split; try done; simpl in *; lia).
    destruct (wakeFd_spec cancelled (S (waiting dl2)) [dj] 0 dl2 Hi2) as (dl3 & -> & L1 & L2 & HH); [lia|]. simpl default.
    change (fdConsuming dl2) with (fdConsuming dl - 1) in HH. change (fdLimit dl2) with (fdLimit dl) in *.
    change (waitingOnFd dl2) with (waitingOnFd dl) in HH.
    destruct HH as [(H1 & H2 & H3)|(H1 & H2 & H3)].
    + apply freePeerToken_ok; [done|rewrite L1; lia|by rewrite H1].
    + apply freePeerToken_ok; [done|rewrite L1; lia|]. intros _. rewrite L1. specialize (Hw H3). lia.
  - by apply freePeerToken_ok.
Qed.

Lemma AddDialJob_ok dj dl : ok dl -> ok (AddDialJob dj dl).
Proof.
  intros [Hi Hfd Hw]. unfold AddDialJob, addCheckPeerLimit. set (p := jpeer dj). destruct (Z.leb_spec (perPeerLimit dl) (active p dl)) as [Hle|Hgt].
  - split; [|done..]. destruct Hi as [I1 I2 I3 I4 I5 I6 I7]. split; try done.
    + simpl. intros q l [[<- <-]|[_ Hq]]%lookup_insert_Some; [|by apply I5]. split; [by destruct (waitlist p dl)|].
      apply Forall_app. split; [|by repeat constructor]. unfold waitlist. destruct (waitingOnPeerLimit dl !! p) as [l|] eqn:E; [|constructor].
      by apply I5 in E as [_ ?].
    + simpl. intros q [l [[<- _]|[_ Hq]]%lookup_insert_Some]; [unfold slack, active in *; simpl in *; lia|]. apply I6. by eexists.
  - assert (inv [] 0 (Some p) dl) as Hi'.
    { destruct Hi as [I1 I2 I3 I4 I5 I6 I7]. split; try done; intros q; [intros Hq; pose proof (I6 q Hq) as Hb|pose proof (I7 q) as Hb];
        unfold slack in *; rewrite (decide_False (P := None = Some q)) in Hb by done; destruct (decide (Some p = Some q)) as [[= <-]|]; lia. }
    destruct (addCheckFdLimit_spec dj [] 0 _ (take_token_inv dj [] 0 dl Hi')) as (Hi2 & P1 & P2 & P3 & P4 & P5).
    fold p in Hi2, P1, P2, P4, P5. simpl in P1, P2, P4, P5. split; [done|rewrite P1; simpl; lia|]. rewrite P1. simpl. intros [Hn|Hn]%P5; [specialize (Hw Hn)|]; lia.
Qed.

Lemma Clear_ok p dl : ok dl -> ok (clearAllPeerDials p dl).
Proof.
  intros [[I1 I2 I3 I4 I5 I6 I7] Hfd Hw]. split; [split|..]; try done.
  - simpl. intros q l [_ Hq]%lookup_delete_Some. by apply I5.
  - simpl. intros q [l [_ Hq]%lookup_delete_Some]. apply I6. by eexists.
Qed.

Lemma new_limiter_ok fdl ppl : ok (newDialLimiterWithParams fdl ppl).
Proof.
  split; [split|..]; try done; simpl; try lia.
  - by intros p [l Hq].
  - intros p. unfold active, slack. rewrite decide_False by done. apply Z.le_max_l.
Qed.

Lemma dial_step_ok w o : ok (lim w) -> ok (lim (step w o)).
Proof. intros Hok. destruct o; simpl; [by apply AddDialJob_ok|by apply finishedDial_ok|by apply Clear_ok|done]. Qed.

Lemma step_limits w o : ok (lim w) -> fdLimit (lim (step w o)) = fdLimit (lim w) /\ perPeerLimit (lim (step w o)) = perPeerLimit (lim w).
Proof.
  intros [Hi Hfd Hw]. destruct o as [dj|i|p|ctx]; simpl; try done.
  - unfold AddDialJob, addCheckPeerLimit. destruct (_ <=? _); [done|]. unfold addCheckFdLimit. destruct (shouldConsumeFd _); [|done].
    by destruct (_ <=? _).
  - assert (forall c j dl, fdLimit (freePeerToken c j dl) = fdLimit dl /\ perPeerLimit (freePeerToken c j dl) = perPeerLimit dl) as Hpeer.
    { intros c j dl. unfold freePeerToken. generalize (if active (jpeer j) dl - 1 =? 0 then delete (jpeer j) (activePerPeer dl) else <[jpeer j:=active (jpeer j) dl - 1]> (activePerPeer dl)) as m.
      intros m. set (dl1 := set_active m dl). change (fdLimit dl) with (fdLimit dl1). change (perPeerLimit dl) with (perPeerLimit dl1).
      generalize (waitlist (jpeer j) dl1) as l. clearbody dl1. intros l. revert dl1. induction l as [|x l IH]; intros dl1; [done|]. simpl.
      destruct (c x); [by rewrite !(proj1 (IH _)), !(proj2 (IH _))|]. unfold addCheckFdLimit. destruct (shouldConsumeFd _); [|done]. by destruct (_ <=? _). }
    assert (forall c fuel dl dl', wakeFd c fuel dl = Some dl' -> fdLimit dl' = fdLimit dl /\ perPeerLimit dl' = perPeerLimit dl) as Hfdl.
    { intros c. induction fuel as [|fuel IH]; intros dl dl'; [done|]. simpl. destruct (waitingOnFd dl) as [|x r]; [by intros [= <-]|].
      destruct (c x); [|by intros [= <-]]. intros E%IH. rewrite !(proj1 (Hpeer _ _ _)), !(proj2 (Hpeer _ _ _)) in E. done. }
    unfold finishedDial. destruct (running (lim w) !! i) as [dj|]; [|done].
    rewrite !(proj1 (Hpeer _ _ _)), !(proj2 (Hpeer _ _ _)). destruct (shouldConsumeFd _); [|done]. unfold freeFDToken.
    match goal with |- context [wakeFd ?c ?n ?d] => destruct (wakeFd c n d) as [dl'|] eqn:E; [apply Hfdl in E; simpl in *; by destruct E|done] end.
Qed.

Lemma run_ok_from l : forall w, ok (lim w) ->
  ok (lim (foldl step w l)) /\ fdLimit (lim (foldl step w l)) = fdLimit (lim w) /\ perPeerLimit (lim (foldl step w l)) = perPeerLimit (lim w).
Proof.
  induction l as [|o l IH]; intros w Hok; [done|]. simpl. destruct (IH (step w o) (dial_step_ok w o Hok)) as (H1 & H2 & H3).
  destruct (step_limits w o Hok). split_and!; [done|congruence..].
Qed.

(** ** Properties *)

(** C21. Whatever is dialled, finished, cancelled and cleared, in any order: the descriptors
    counted are those of the dials that run, at most one more than the limit; the tokens of
    a peer are its dials that run or wait for a descriptor, at most the limit of a peer;
    and a dial waits only where the limit is reached. *)
Theorem dial_limits fdl ppl l :
  let dl := lim (run (newDialLimiterWithParams fdl ppl) l) in
  fdConsuming dl = zlen (filter (fun j => shouldConsumeFd (jaddr j) = true) (running dl)) /\
  fdConsuming dl <= Z.max 0 fdl + 1 /\
  (forall p, active p dl = np p (running dl) + np p (waitingOnFd dl) /\ active p dl <= Z.max 0 ppl) /\
  (waitingOnFd dl <> [] -> fdl <= fdConsuming dl) /\
  (forall p, waitlist p dl <> [] -> ppl <= active p dl).
Proof.
  cbv zeta. destruct (run_ok_from l {| lim := newDialLimiterWithParams fdl ppl; ended := ∅ |} (new_limiter_ok fdl ppl)) as ([Hi Hfd Hw] & H1 & H2).
  unfold run. simpl in H1, H2. rewrite H1 in *. destruct Hi as [I1 I2 I3 I4 I5 I6 I7]. rewrite H2 in *. split_and!.
  - rewrite I1. unfold nfd, consumes. lia.
  - done.
  - intros p. pose proof (I2 p) as E. rewrite np_nil in E. split; [lia|]. pose proof (I7 p) as Hc. unfold slack in Hc. by rewrite decide_False, Z.add_0_r in Hc.
  - done.
  - intros p Hp. specialize (I6 p). unfold slack in I6. rewrite decide_False, Z.add_0_r in I6 by done. apply I6.
    unfold waitlist in Hp. destruct (waitingOnPeerLimit _ !! p); [by eexists|done].
Qed.

(** No dial is forgotten: when none runs, none waits. *)
Theorem idle_none_waits fdl ppl l : 0 < fdl -> 0 < ppl ->
  let dl := lim (run (newDialLimiterWithParams fdl ppl) l) in
  running dl = [] -> waitingOnFd dl = [] /\ forall p, waitlist p dl = [].
Proof.
  intros Hf Hp. cbv zeta.
  destruct (run_ok_from l {| lim := newDialLimiterWithParams fdl ppl; ended := ∅ |} (new_limiter_ok fdl ppl)) as ([Hi Hfd Hw] & H1 & H2).
  unfold run. simpl in H1, H2. set (dl := lim _) in *. intros Er. destruct Hi as [I1 I2 I3 I4 I5 I6 I7].
  assert (waitingOnFd dl = []) as Ew.
  { destruct (waitingOnFd dl) eqn:E; [done|]. rewrite Er, nfd_nil in I1. specialize (Hw ltac:(done)). lia. }
  split; [done|]. intros p. unfold waitlist. destruct (waitingOnPeerLimit dl !! p) as [k|] eqn:E; [|done]. exfalso.
  pose proof (I6 p ltac:(by eexists)) as Hb. pose proof (I2 p) as Ha. rewrite Er, Ew, !np_nil in Ha. unfold slack in Hb. rewrite decide_False in Hb by done. lia.
Qed.
End limiter.

(** ** Examples: addresses by whether they take a descriptor *)

Notation run_ex := (run (fun code (a : bool) => (code =? P_TCP) && a) (fun _ a => Some a)).

Definition job (a : bool) (p : string) (ctx : nat) : dialJob := {| jaddr := a; jpeer := p; jctx := ctx |}.

Definition four_jobs : list op :=
  [Add (job true "p" 0); Add (job true "q" 1); Add (job true "q" 2); Add (job true "r" 3); Cancel 1; Finished 0].

(** The limit is exceeded: a descriptor is freed, the first job that waits for one is
    cancelled, and the job its peer held back takes the descriptor; the loop goes on and
    starts the next job as well. *)
Theorem fd_limit_exceeded :
  let dl := lim (run_ex (newDialLimiterWithParams 1 1) four_jobs) in
  fdConsuming dl = 2 /\ fdLimit dl = 1 /\ map jctx (running dl) = [2; 3]%nat.
Proof. by vm_compute. Qed.

Lemma idle_none_waits_witness :
  running (lim (run_ex (newDialLimiterWithParams 1 1) (four_jobs ++ [Finished 0; Finished 0]))) = [] /\
  waitingOnFd (lim (run_ex (newDialLimiterWithParams 1 1) (four_jobs ++ [Finished 0; Finished 0]))) = [].
Proof.
  split; [by vm_compute|].
  apply (idle_none_waits (fun code (a : bool) => (code =? P_TCP) && a) (fun _ a => Some a) 1 1); [lia|lia|by vm_compute].
Defined.
