(* ===== verification/DialRank.v ===== *)
(** * The order in which the addresses of a peer are dialled

    src/myvendor/go-libp2p/p2p/net/swarm/dial_ranker.go.  The slices are worked on in
    place, as in the code: [filterAddrs] exchanges, happy eyeballs moves an address
    forward.  What go-multiaddr says of an address is an argument. *)

From Stdlib Require Import Sorting.Sorted.
From S2P Require Import Prelude GoLib GoNet.

Definition PublicTCPDelay : Z := 250 * millisecond.
Definition PrivateTCPDelay : Z := 30 * millisecond.
Definition PublicQUICDelay : Z := 250 * millisecond.
Definition PrivateQUICDelay : Z := 30 * millisecond.
Definition RelayDelay : Z := 500 * millisecond.
Definition PublicOtherDelay : Z := 1 * second.
Definition PrivateOtherDelay : Z := 100 * millisecond.

(** Codes of go-multiaddr. *)
Definition P_IP4 : Z := 4.
Definition P_TCP : Z := 6.
Definition P_IP6 : Z := 41.
Definition P_UDP : Z := 273.
Definition P_WEBRTC_DIRECT : Z := 280.
Definition P_CIRCUIT : Z := 290.
Definition P_QUIC : Z := 460.
Definition P_QUIC_V1 : Z := 461.
Definition P_WEBTRANSPORT : Z := 465.

Section rank.
Context {Maddr : Type} `{GoSort}.
(** The protocols of the components; [ValueForProtocol]; [manet.IsPrivateAddr]. *)
Context (codes : Maddr -> list Z) (ValueForProtocol : Maddr -> Z -> option string) (IsPrivateAddr : Maddr -> bool).

Record AddrDelay := { Addr : Maddr; Delay : Z }.

Definition isProtocolAddr (a : Maddr) (p : Z) : bool := existsb (Z.eqb p) (codes a).
Definition isQUICAddr (a : Maddr) : bool := isProtocolAddr a P_QUIC || isProtocolAddr a P_QUIC_V1.
(** swarm_dial.go *)
Definition isRelayAddr (a : Maddr) : bool := match ValueForProtocol a P_CIRCUIT with Some _ => true | None => false end.

Definition port (a : Maddr) (p : Z) : Z := default 0 (Atoi (default "" (ValueForProtocol a p))).

Definition score (a : Maddr) : Z :=
  let ip4Weight := if isProtocolAddr a P_IP4 then 2 ^ 18 else 0 in
  match ValueForProtocol a P_WEBTRANSPORT with
  | Some _ => ip4Weight + 2 ^ 19 + port a P_UDP
  | None =>
    match ValueForProtocol a P_QUIC with
    | Some _ => ip4Weight + port a P_UDP + 2 ^ 17
    | None =>
      match ValueForProtocol a P_QUIC_V1 with
      | Some _ => ip4Weight + port a P_UDP
      | None =>
        match ValueForProtocol a P_TCP with
        | Some _ => ip4Weight + port a P_TCP + 2 ^ 20
        | None =>
          match ValueForProtocol a P_WEBRTC_DIRECT with
          | Some _ => 2 ^ 21
          | None => 2 ^ 30
          end
        end
      end
    end
  end.

(** ** [filterAddrs] *)

(** [addrs[i], addrs[j] = addrs[j], addrs[i]] *)
Definition exchange (i j : nat) (l : list Maddr) : list Maddr :=
  match l !! i, l !! j with
  | Some x, Some y => <[i := y]> (<[j := x]> l)
  | _, _ => l
  end.

Definition filterStep (f : Maddr -> bool) (s : list Maddr * nat) (i : nat) : list Maddr * nat :=
  match s.1 !! i with
  | Some a => if f a then (exchange i s.2 s.1, S s.2) else s
  | None => s
  end.

Definition filterAddrs (addrs : list Maddr) (f : Maddr -> bool) : list Maddr * list Maddr :=
  let '(l, j) := foldl (filterStep f) (addrs, 0%nat) (seq 0 (length addrs)) in (take j l, drop j l).

(** ** [getAddrDelay] *)

(** The first place from [i] on whose address satisfies [f], or the length. *)
Fixpoint firstFrom (f : Maddr -> bool) (i : nat) (l : list Maddr) : nat :=
  match l with
  | [] => i
  | a :: r => if f a then i else firstFrom f (S i) r
  end.

(** [a := addrs[j]; copy(addrs[k+1:], addrs[k:j]); addrs[k] = a], where [k <= j]. *)
Definition moveTo (k j : nat) (l : list Maddr) : list Maddr :=
  match l !! j with
  | Some a => take k l ++ a :: drop k (take j l) ++ drop (S j) l
  | None => l
  end.

(** The reordering of QUIC addresses: whether there are both, and where the search for TCP
    addresses begins. *)
Definition eyeballsQUIC (addrs : list Maddr) : list Maddr * bool * nat :=
  match addrs with
  | a0 :: rest =>
    if isQUICAddr a0 && isProtocolAddr a0 P_IP6 then
      let j := firstFrom (fun a => isQUICAddr a && isProtocolAddr a P_IP4) 1 rest in
      if (j <? length addrs)%nat then (moveTo 1 j addrs, true, S j) else (addrs, false, 0%nat)
    else (addrs, false, 0%nat)
  | [] => (addrs, false, 0%nat)
  end.

Definition eyeballsTCP (tcpStartIdx : nat) (addrs : list Maddr) : list Maddr * bool :=
  match addrs !! tcpStartIdx with
  | Some a =>
    if isProtocolAddr a P_IP6 then
      let j := firstFrom (fun a => isProtocolAddr a P_TCP && isProtocolAddr a P_IP4) (S tcpStartIdx) (drop (S tcpStartIdx) addrs) in
      if (j <? length addrs)%nat then (moveTo (S tcpStartIdx) j addrs, true) else (addrs, false)
    else (addrs, false)
  | None => (addrs, false)
  end.

Section delays.
Context (tcpDelay quicDelay otherDelay offset : Z) (happyEyeballsQUIC happyEyeballsTCP : bool) (tcpStartIdx : nat).

Definition quicAt (i : nat) : Z :=
  if (i =? 1)%nat then quicDelay
  else if (1 <? i)%nat then (if happyEyeballsQUIC then 2 * quicDelay else quicDelay)
  else 0.

Definition tcpAt (i : nat) : Z :=
  if (i =? tcpStartIdx + 1)%nat then tcpDelay
  else if (tcpStartIdx + 1 <? i)%nat then (if happyEyeballsTCP then 2 * tcpDelay else tcpDelay)
  else 0.

Fixpoint delays (i : nat) (tcpFirstDialDelay lastQUICOrTCPDelay : Z) (addrs : list Maddr) : list AddrDelay :=
  match addrs with
  | [] => []
  | addr :: rest =>
    if isQUICAddr addr then
      let delay := quicAt i in
      {| Addr := addr; Delay := offset + delay |} :: delays (S i) (delay + tcpDelay) delay rest
    else if isProtocolAddr addr P_TCP then
      let delay := tcpAt i + tcpFirstDialDelay in
      {| Addr := addr; Delay := offset + delay |} :: delays (S i) tcpFirstDialDelay delay rest
    else
      {| Addr := addr; Delay := offset + (lastQUICOrTCPDelay + otherDelay) |} ::
      delays (S i) tcpFirstDialDelay lastQUICOrTCPDelay rest
  end.
End delays.

(** The addresses as they are dialled, with what the reordering has found. *)
Definition reorder (addrs : list Maddr) : list Maddr * bool * bool * nat :=
  let '(l, happyQUIC, i) := eyeballsQUIC (sort_slice (fun a b => score a <? score b) addrs) in
  let tcpStartIdx := firstFrom (fun a => isProtocolAddr a P_TCP) i (drop i l) in
  let '(l, happyTCP) := eyeballsTCP tcpStartIdx l in
  (l, happyQUIC, happyTCP, tcpStartIdx).

Definition getAddrDelay (addrs : list Maddr) (tcpDelay quicDelay otherDelay offset : Z) : list AddrDelay :=
  match addrs with
  | [] => []
  | _ =>
    let '(l, happyQUIC, happyTCP, tcpStartIdx) := reorder addrs in
    delays tcpDelay quicDelay otherDelay offset happyQUIC happyTCP tcpStartIdx 0 0 0 l
  end.

Definition NoDelayDialRanker (addrs : list Maddr) : list AddrDelay := getAddrDelay addrs 0 0 0 0.

Definition DefaultDialRanker (addrs : list Maddr) : list AddrDelay :=
  let '(relay, addrs) := filterAddrs addrs isRelayAddr in
  let '(pvt, addrs) := filterAddrs addrs IsPrivateAddr in
  let '(public, addrs) := filterAddrs addrs (fun a => isProtocolAddr a P_IP4 || isProtocolAddr a P_IP6) in
  let relayOffset := match public with [] => 0 | _ => RelayDelay end in
  let res := getAddrDelay pvt PrivateTCPDelay PrivateQUICDelay PrivateOtherDelay 0 ++
             getAddrDelay public PublicTCPDelay PublicQUICDelay PublicOtherDelay 0 ++
             getAddrDelay relay PublicTCPDelay PublicQUICDelay PublicOtherDelay relayOffset in
  let maxDelay := match last res with Some d => Delay d | None => 0 end in
  res ++ map (fun a => {| Addr := a; Delay := maxDelay + PublicOtherDelay |}) addrs.

(** ** Nothing is lost *)

Lemma exchange_front (A B R : list Maddr) x :
  exchange (length A + length B) (length A) (A ++ B ++ x :: R) =
  match B with [] => A ++ x :: R | b :: B' => A ++ x :: B' ++ b :: R end.
Proof.
  unfold exchange. assert ((A ++ B ++ x :: R) !! (length A + length B)%nat = Some x) as ->.
  { rewrite lookup_app_r by lia. rewrite Nat.add_comm, Nat.add_sub. by apply list_lookup_middle. }
  destruct B as [|b B']; simpl.
  - rewrite list_lookup_middle by done. rewrite Nat.add_0_r, !list_insert_id; [done| |]; rewrite ?list_insert_id; by apply list_lookup_middle.
  - rewrite list_lookup_middle by done. rewrite insert_app_r_alt, Nat.sub_diag by lia. simpl.
    rewrite insert_app_r_alt by lia. replace (length A + S (length B') - length A)%nat with (S (length B')) by lia. simpl.
    f_equal. f_equal. rewrite insert_app_r_alt, Nat.sub_diag by lia. done.
Qed.

Lemma filterAddrs_spec l f :
  (filterAddrs l f).1 = filter (fun a => f a = true) l /\ Permutation (filterAddrs l f).2 (filter (fun a => f a = false) l).
Proof.
  unfold filterAddrs.
  assert (forall n, (n <= length l)%nat -> exists B, Permutation B (filter (fun a => f a = false) (take n l)) /\
    foldl (filterStep f) (l, 0%nat) (seq 0 n) =
      (filter (fun a => f a = true) (take n l) ++ B ++ drop n l, length (filter (fun a => f a = true) (take n l)))) as Hn.
  { induction n as [|n IH]; intros Hle; [by exists []|].
    destruct IH as (B & HB & E); [lia|]. destruct (lookup_lt_is_Some_2 l n) as [x Hx]; [lia|].
    rewrite seq_S, foldl_app, E. simpl. pose proof (drop_S _ _ _ Hx) as Hd. rewrite (take_S_r _ _ _ Hx), !filter_app, Hd.
    set (A := filter (fun a => f a = true) (take n l)) in *.
    assert (length A + length B = n)%nat as Hlen.
    { apply Permutation_length in HB. rewrite HB. transitivity (length (take n l)); [|rewrite length_take; lia]. unfold A.
      generalize (take n l) as k. induction k as [|y k IHk]; [done|]. rewrite !filter_cons.
      destruct (f y); [rewrite decide_True, decide_False by done|rewrite decide_False, decide_True by done]; simpl; lia. }
    unfold filterStep. cbn [fst snd]. rewrite lookup_app_r, lookup_app_r by lia. replace (n - length A - length B)%nat with 0%nat by lia. cbn [lookup list_lookup].
    rewrite !filter_cons. destruct (f x) eqn:Ef.
    - rewrite (decide_True (P := true = true)), (decide_False (P := true = false)) by done. rewrite !filter_nil, app_nil_r. pose proof (exchange_front A B (drop (S n) l) x) as Ex. rewrite Hlen in Ex. rewrite Ex, length_app. simpl.
      destruct B as [|b B'].
      + exists []. split; [by simpl in HB|]. simpl. rewrite <-app_assoc. simpl. f_equal. lia.
      + exists (B' ++ [b]). split; [by rewrite <-HB, Permutation_app_comm|]. f_equal; [|lia]. by rewrite <-!app_assoc.
    - rewrite (decide_True (P := false = false)), (decide_False (P := false = true)) by done. rewrite !filter_nil, app_nil_r. exists (B ++ [x]). split; [by rewrite HB|]. by rewrite <-app_assoc. }
  destruct (Hn (length l)) as (B & HB & E); [lia|]. rewrite E, drop_ge, app_nil_r by lia. rewrite (firstn_all l) in HB |- *. split.
  - by rewrite take_app_length.
  - by rewrite drop_app_length.
Qed.

Lemma filterAddrs_perm l f : Permutation ((filterAddrs l f).1 ++ (filterAddrs l f).2) l.
Proof.
  destruct (filterAddrs_spec l f) as [-> ->]. induction l as [|a l IH]; [done|]. rewrite !filter_cons.
  destruct (f a); [rewrite decide_True, decide_False by done|rewrite decide_False, decide_True by done].
  - simpl. by rewrite IH.
  - by rewrite <-Permutation_middle, IH.
Qed.

Lemma moveTo_perm k j l : (k <= j)%nat -> Permutation (moveTo k j l) l.
Proof.
  intros Hk. unfold moveTo. destruct (l !! j) as [a|] eqn:E; [|done]. pose proof (lookup_lt_Some _ _ _ E).
  rewrite <-(take_drop k l) at 4. apply Permutation_app_head. rewrite <-(take_drop j l) at 3. rewrite drop_app_le by (rewrite length_take; lia).
  rewrite (drop_S _ _ _ E). by apply Permutation_middle.
Qed.

Lemma firstFrom_spec f l : forall i, (i <= firstFrom f i l <= i + length l)%nat /\
  (forall k a, l !! k = Some a -> (i + k < firstFrom f i l)%nat -> f a = false) /\
  ((firstFrom f i l < i + length l)%nat -> exists a, l !! (firstFrom f i l - i)%nat = Some a /\ f a = true).
Proof.
  induction l as [|x l IH]; intros i; simpl; [split_and!; [lia|lia|by intros k a|lia]|]. destruct (f x) eqn:Ef.
  - split_and!; [lia|lia|lia|]. intros _. rewrite Nat.sub_diag. by exists x.
  - destruct (IH (S i)) as (H1 & H2 & H3). split_and!; [lia|lia| |].
    + intros [|k] a Ea Hk; simpl in Ea; [congruence|]. apply (H2 k a Ea). lia.
    + intros Hlt. destruct H3 as (a & Ea & Hfa); [lia|]. exists a. split; [|done].
      replace (firstFrom f (S i) l - i)%nat with (S (firstFrom f (S i) l - S i)) by lia. done.
Qed.

Lemma eyeballsQUIC_perm l : Permutation (eyeballsQUIC l).1.1 l.
Proof.
  unfold eyeballsQUIC. destruct l as [|a0 rest]; [done|]. destruct (_ && _); [|done]. cbv zeta. destruct (_ <? _)%nat; [|done].
  apply moveTo_perm. apply firstFrom_spec.
Qed.

Lemma eyeballsTCP_perm i l : Permutation (eyeballsTCP i l).1 l.
Proof.
  unfold eyeballsTCP. destruct (l !! i); [|done]. destruct (isProtocolAddr _ _); [|done]. cbv zeta. destruct (_ <? _)%nat; [|done].
  apply moveTo_perm. apply firstFrom_spec.
Qed.

Lemma reorder_perm l : Permutation (reorder l).1.1.1 l.
Proof.
  unfold reorder. pose proof (eyeballsQUIC_perm (sort_slice (fun a b => score a <? score b) l)) as H1.
  destruct (eyeballsQUIC _) as [[l1 hq] i]. simpl in H1.
  pose proof (eyeballsTCP_perm (firstFrom (fun a => isProtocolAddr a P_TCP) i (drop i l1)) l1) as H2.
  destruct (eyeballsTCP _ l1) as [l2 ht]. simpl in *. by rewrite H2, H1, sort_slice_perm.
Qed.

Lemma delays_addrs t q o off hq ht ts l : forall i F las, map Addr (delays t q o off hq ht ts i F las l) = l.
Proof.
  induction l as [|a l IH]; intros i F las; [done|]. simpl.
  destruct (isQUICAddr a); [|destruct (isProtocolAddr a P_TCP)]; simpl; by rewrite IH.
Qed.

Lemma getAddrDelay_addrs l t q o off : Permutation (map Addr (getAddrDelay l t q o off)) l.
Proof.
  unfold getAddrDelay. destruct l as [|a l]; [done|]. pose proof (reorder_perm (a :: l)) as HP.
  destruct (reorder (a :: l)) as [[[k hq] ht] ts]. rewrite delays_addrs. exact HP.
Qed.

(** Every address of a peer is dialled, once. *)
Theorem rank_permutation l : Permutation (map Addr (DefaultDialRanker l)) l.
Proof.
  unfold DefaultDialRanker. pose proof (filterAddrs_perm l isRelayAddr) as P1. destruct (filterAddrs l isRelayAddr) as [relay l1]. simpl in P1.
  pose proof (filterAddrs_perm l1 IsPrivateAddr) as P2. destruct (filterAddrs l1 IsPrivateAddr) as [pvt l2]. simpl in P2.
  pose proof (filterAddrs_perm l2 (fun a => isProtocolAddr a P_IP4 || isProtocolAddr a P_IP6)) as P3. destruct (filterAddrs l2 _) as [public l3]. simpl in P3.
  rewrite !map_app, map_map, !getAddrDelay_addrs. simpl. rewrite map_id, <-P1, <-P2, <-P3, <-!app_assoc.
  by rewrite (Permutation_app_swap_app public relay), (Permutation_app_swap_app pvt relay).
Qed.

(** ** Delays

    Of go-multiaddr: a protocol has a value if a component has it, and a port is a 16-bit
    number.  An address is of one kind: QUIC (WebTransport runs on it), TCP, or another. *)

Definition kind (a : Maddr) : Z := if isQUICAddr a then 0 else if isProtocolAddr a P_TCP then 1 else 2.

Record plain (a : Maddr) : Prop := {
  plain_value : forall p, (exists s, ValueForProtocol a p = Some s) <-> isProtocolAddr a p = true;
  plain_port : forall p, 0 <= port a p < 65536;
  plain_quic : isQUICAddr a = true -> isProtocolAddr a P_TCP = false;
  plain_webtransport : isProtocolAddr a P_WEBTRANSPORT = true -> isQUICAddr a = true
}.

Lemma value_none a p : plain a -> ValueForProtocol a p = None <-> isProtocolAddr a p = false.
Proof.
  intros Hp. pose proof (plain_value a Hp p) as Hv. destruct (ValueForProtocol a p) as [s|], (isProtocolAddr a p); try done.
  - split; [done|]. intros _. assert (false = true) by (apply Hv; by eexists). done.
  - split; [|done]. intros _. destruct (proj2 Hv eq_refl). done.
Qed.

(** The score tells the kinds apart. *)
Lemma score_kind a : plain a ->
  (kind a = 0 /\ score a < 2 ^ 20) \/ (kind a = 1 /\ 2 ^ 20 <= score a < 2 ^ 21) \/ (kind a = 2 /\ 2 ^ 21 <= score a).
Proof.
  intros Hp. pose proof (plain_port a Hp P_UDP). pose proof (plain_port a Hp P_TCP). unfold kind, score.
  set (w := if isProtocolAddr a P_IP4 then 2 ^ 18 else 0).
  assert (0 <= w <= 2 ^ 18) as Hw by (unfold w; destruct (isProtocolAddr a P_IP4); lia). clearbody w.
  change (2 ^ 17) with 131072. change (2 ^ 18) with 262144 in Hw. change (2 ^ 19) with 524288. change (2 ^ 20) with 1048576.
  change (2 ^ 21) with 2097152. change (2 ^ 30) with 1073741824.
  destruct (ValueForProtocol a P_WEBTRANSPORT) as [s|] eqn:E1.
  { assert (isProtocolAddr a P_WEBTRANSPORT = true) as Ht by (apply plain_value; [done|by eexists]).
    rewrite (plain_webtransport a Hp Ht). left. split; [done|lia]. }
  destruct (ValueForProtocol a P_QUIC) as [s|] eqn:E2.
  { assert (isQUICAddr a = true) as ->; [|left; split; [done|lia]]. unfold isQUICAddr. apply orb_true_iff. left. apply plain_value; [done|by eexists]. }
  destruct (ValueForProtocol a P_QUIC_V1) as [s|] eqn:E3.
  { assert (isQUICAddr a = true) as ->; [|left; split; [done|lia]]. unfold isQUICAddr. apply orb_true_iff. right. apply plain_value; [done|by eexists]. }
  assert (isQUICAddr a = false) as ->.
  { unfold isQUICAddr. apply orb_false_iff. by split; apply value_none. }
  destruct (ValueForProtocol a P_TCP) as [s|] eqn:E4.
  { assert (isProtocolAddr a P_TCP = true) as -> by (apply plain_value; [done|by eexists]). right. left. split; [done|lia]. }
  rewrite (proj1 (value_none a P_TCP Hp) E4). right. right. split; [done|]. destruct (ValueForProtocol a P_WEBRTC_DIRECT); lia.
Qed.

Definition by_kind : list Maddr -> Prop := StronglySorted (fun a b => kind a <= kind b).

Lemma sort_by_kind l : Forall plain l -> by_kind (sort_slice (fun a b => score a <? score b) l).
Proof.
  intros Hl. pose proof (sort_slice_sorted (fun _ => True) (fun a b => score a <? score b) l) as Hs.
  assert (Forall plain (sort_slice (fun a b => score a <? score b) l)) as Hl' by by rewrite sort_slice_perm.
  assert (StronglySorted (fun a b => (score b <? score a) = false) (sort_slice (fun a b => score a <? score b) l)) as Hs'.
  { apply Hs; [|by apply Forall_true]. split; intros; lia. }
  revert Hs' Hl'. generalize (sort_slice (fun a b => score a <? score b) l) as k. induction 1 as [|a k Hk IH Ha]; intros Hp; [constructor|].
  apply Forall_cons in Hp as [Hpa Hpk]. constructor; [by apply IH|]. rewrite Forall_forall in Ha, Hpk |- *. intros b Hb.
  pose proof (Ha b Hb) as Hab. simpl in Hab. pose proof (score_kind a Hpa). pose proof (score_kind b (Hpk b Hb)). lia.
Qed.

Lemma by_kind_lookup l : by_kind l -> forall i j a b, (i <= j)%nat -> l !! i = Some a -> l !! j = Some b -> kind a <= kind b.
Proof.
  induction 1 as [|x l Hl IH Hx]; intros i j a b Hij Ha Hb; [done|]. destruct i as [|i], j as [|j]; simpl in *; simplify_eq; try lia.
  - rewrite Forall_forall in Hx. apply Hx. by eapply list_elem_of_lookup_2.
  - apply (IH i j); [lia|done..].
Qed.

Lemma by_kind_intro l : (forall i j a b, (i <= j)%nat -> l !! i = Some a -> l !! j = Some b -> kind a <= kind b) -> by_kind l.
Proof.
  induction l as [|x l IH]; intros Hl; [constructor|]. constructor.
  - apply IH. intros i j a b Hij Ha Hb. apply (Hl (S i) (S j)); [lia|done..].
  - apply Forall_forall. intros b [j Hj]%list_elem_of_lookup. apply (Hl 0%nat (S j)); [lia|done..].
Qed.

(** An address moved forward among others of its kind. *)
Lemma moveTo_by_kind k j l a b : by_kind l -> (k <= j)%nat -> l !! k = Some a -> l !! j = Some b -> kind a = kind b -> by_kind (moveTo k j l).
Proof.
  intros Hs Hk Ea Eb Hab. unfold moveTo. rewrite Eb. set (l' := take k l ++ b :: drop k (take j l) ++ drop (S j) l).
  pose proof (lookup_lt_Some _ _ _ Eb) as Hj.
  assert (forall i, kind <$> l' !! i = kind <$> l !! i) as Hi.
  { intros i. unfold l'. assert (forall m c, (k <= m <= j)%nat -> l !! m = Some c -> kind c = kind b) as Hbetween.
    { intros m c Hm Ec. pose proof (by_kind_lookup l Hs k m a c ltac:(lia) Ea Ec). pose proof (by_kind_lookup l Hs m j c b ltac:(lia) Ec Eb). lia. }
    destruct (decide (i < k)%nat) as [H1|H1].
    - rewrite lookup_app_l by (rewrite length_take; lia). by rewrite lookup_take_lt by lia.
    - rewrite lookup_app_r by (rewrite length_take; lia). rewrite length_take. replace (i - k `min` length l)%nat with (i - k)%nat by lia.
      destruct (decide (i = k)) as [->|H2].
      + rewrite Nat.sub_diag, Ea. simpl. by rewrite Hab.
      + destruct (i - k)%nat as [|d] eqn:Ed; [lia|]. simpl. destruct (decide (i <= j)%nat) as [H3|H3].
        * rewrite lookup_app_l by (rewrite length_drop, length_take; lia). rewrite lookup_drop, lookup_take_lt by lia.
          destruct (lookup_lt_is_Some_2 l (k + d)) as [c Ec]; [lia|]. destruct (lookup_lt_is_Some_2 l i) as [c' Ec']; [lia|].
          rewrite Ec, Ec'. simpl. rewrite (Hbetween (k + d)%nat c), (Hbetween i c'); (done || lia).
        * rewrite lookup_app_r by (rewrite length_drop, length_take; lia). rewrite length_drop, length_take, lookup_drop.
          do 2 f_equal. lia. }
  apply by_kind_intro. intros i m x y Him Hx Hy. pose proof (Hi i) as E1. pose proof (Hi m) as E2. rewrite Hx in E1. rewrite Hy in E2. simpl in *.
  destruct (l !! i) as [x'|] eqn:Ex, (l !! m) as [y'|] eqn:Ey; simplify_eq/=. rewrite E1, E2. by apply (by_kind_lookup l Hs i m).
Qed.

Lemma kind_quic a : isQUICAddr a = true -> kind a = 0.
Proof. unfold kind. by intros ->. Qed.

Lemma kind_tcp a : plain a -> isProtocolAddr a P_TCP = true -> kind a = 1.
Proof.
  intros Hp E. unfold kind. rewrite E. destruct (isQUICAddr a) eqn:Eq; [|done]. by rewrite (plain_quic a Hp Eq) in E.
Qed.

Lemma kind_range a : 0 <= kind a <= 2.
Proof. unfold kind. destruct (isQUICAddr a); [lia|]. destruct (isProtocolAddr a P_TCP); lia. Qed.

(** Two places of one kind, with a place in between. *)
Lemma moveTo_between k m j l a b : by_kind l -> (k <= m <= j)%nat -> l !! k = Some a -> l !! j = Some b -> kind a = kind b ->
  by_kind (moveTo m j l).
Proof.
  intros Hs Hm Ea Eb Hab. destruct (lookup_lt_is_Some_2 l m) as [c Ec]; [apply lookup_lt_Some in Eb; lia|].
  apply (moveTo_by_kind m j l c b); [done|lia|done|done|].
  pose proof (by_kind_lookup l Hs k m a c ltac:(lia) Ea Ec). pose proof (by_kind_lookup l Hs m j c b ltac:(lia) Ec Eb). lia.
Qed.

Lemma eyeballsQUIC_by_kind l : by_kind l -> by_kind (eyeballsQUIC l).1.1.
Proof.
  intros Hs. unfold eyeballsQUIC. destruct l as [|a0 rest]; [done|]. destruct (isQUICAddr a0 && isProtocolAddr a0 P_IP6) eqn:E0; [|done]. cbv zeta.
  set (f := fun a => _). destruct (firstFrom_spec f rest 1) as (H1 & _ & H3). simpl length.
  destruct (Nat.ltb_spec (firstFrom f 1 rest) (S (length rest))) as [Hlt|]; [|done]. cbn [fst].
  destruct H3 as (b & Eb & Hb); [lia|]. unfold f in Hb. apply andb_true_iff in Hb as [Hb _]. apply andb_true_iff in E0 as [E0 _].
  apply (moveTo_between 0 1 (firstFrom f 1 rest) (a0 :: rest) a0 b); [done|lia|done| |by rewrite !kind_quic].
  destruct (firstFrom f 1 rest) as [|j]; [lia|]. simpl in *. by rewrite Nat.sub_0_r in Eb.
Qed.

Lemma eyeballsTCP_by_kind i l : by_kind l -> Forall plain l -> (forall a, l !! i = Some a -> isProtocolAddr a P_TCP = true) ->
  by_kind (eyeballsTCP i l).1.
Proof.
  intros Hs Hp Hi. unfold eyeballsTCP. destruct (l !! i) as [a|] eqn:Ea; [|done]. destruct (isProtocolAddr a P_IP6); [|done]. cbv zeta.
  set (f := fun a => _). destruct (firstFrom_spec f (drop (S i) l) (S i)) as (H1 & _ & H3).
  destruct (Nat.ltb_spec (firstFrom f (S i) (drop (S i) l)) (length l)) as [Hlt|]; [|done]. cbn [fst].
  destruct H3 as (b & Eb & Hb); [rewrite length_drop; lia|]. unfold f in Hb. apply andb_true_iff in Hb as [Hb _].
  rewrite lookup_drop in Eb. replace (S i + (firstFrom f (S i) (drop (S i) l) - S i))%nat with (firstFrom f (S i) (drop (S i) l)) in Eb by lia.
  rewrite Forall_lookup in Hp. apply (moveTo_between i (S i) _ l a b); [done|lia|done|done|]. rewrite !kind_tcp; eauto.
Qed.

Lemma reorder_by_kind l : Forall plain l -> by_kind (reorder l).1.1.1 /\ Forall plain (reorder l).1.1.1.
Proof.
  intros Hp. split; [|by rewrite reorder_perm]. unfold reorder. pose proof (sort_by_kind l Hp) as Hs.
  set (l0 := sort_slice _ l) in *. assert (Forall plain l0) as Hp0 by (unfold l0; by rewrite sort_slice_perm).
  pose proof (eyeballsQUIC_by_kind l0 Hs) as H1. pose proof (eyeballsQUIC_perm l0) as P1. destruct (eyeballsQUIC l0) as [[l1 hq] i]. simpl in H1, P1.
  set (ts := firstFrom (fun a => isProtocolAddr a P_TCP) i (drop i l1)).
  pose proof (eyeballsTCP_by_kind ts l1 H1) as H2. destruct (eyeballsTCP ts l1) as [l2 ht]. simpl in *. apply H2; [by rewrite P1|].
  intros a Ea. destruct (firstFrom_spec (fun a => isProtocolAddr a P_TCP) (drop i l1) i) as (Hle & _ & H3). fold ts in Hle, H3.
  pose proof (lookup_lt_Some _ _ _ Ea). rewrite length_drop in Hle, H3. destruct H3 as (b & Eb & Hb); [lia|]. rewrite lookup_drop in Eb.
  replace (i + (ts - i))%nat with ts in Eb by lia. congruence.
Qed.

Section order.
Context (t q o off : Z) (hq ht : bool) (ts : nat).
Hypotheses (Ht : 0 <= t) (Hq : 0 <= q) (Ho : 0 <= o).

Lemma quicAt_mono i : 0 <= quicAt q hq i <= quicAt q hq (S i) /\ quicAt q hq i <= 2 * q.
Proof.
  unfold quicAt. destruct (Nat.eqb_spec i 1), (Nat.ltb_spec 1 i), (Nat.eqb_spec (S i) 1), (Nat.ltb_spec 1 (S i)), hq; lia.
Qed.

Lemma tcpAt_mono i : 0 <= tcpAt t ht ts i <= tcpAt t ht ts (S i) /\ tcpAt t ht ts i <= 2 * t.
Proof.
  unfold tcpAt. destruct (Nat.eqb_spec i (ts + 1)), (Nat.ltb_spec (ts + 1) i), (Nat.eqb_spec (S i) (ts + 1)), (Nat.ltb_spec (ts + 1) (S i)), ht; lia.
Qed.

Notation delays_ := (delays t q o off hq ht ts).

Lemma delays_other l : forall i F las, Forall (fun a => kind a = 2) l -> Forall (fun d => Delay d = off + (las + o)) (delays_ i F las l).
Proof.
  induction l as [|a l IH]; intros i F las Hl; [constructor|]. apply Forall_cons in Hl as [Ha Hl]. unfold kind in Ha. simpl.
  destruct (isQUICAddr a); [done|]. destruct (isProtocolAddr a P_TCP); [done|]. constructor; [done|by apply IH].
Qed.

Lemma delays_sorted l : forall i F las, by_kind l -> las <= F + tcpAt t ht ts i ->
  Forall (fun a => kind a <> 0) l \/ las <= quicAt q hq i ->
  StronglySorted (fun x y => Delay x <= Delay y) (delays_ i F las l) /\ Forall (fun d => off + las <= Delay d) (delays_ i F las l).
Proof.
  induction l as [|a l IH]; intros i F las Hs Hlas Hk; [split; constructor|]. apply StronglySorted_inv in Hs as [Hs Ha].
  pose proof (quicAt_mono i) as Mq. pose proof (tcpAt_mono i) as Mt. pose proof (tcpAt_mono (S i)) as Mt'. pose proof (kind_range a) as Hr. simpl.
  destruct (isQUICAddr a) eqn:Eq; [|destruct (isProtocolAddr a P_TCP) eqn:Et].
  - assert (las <= quicAt q hq i) as Hl by (destruct Hk as [Hk|Hk]; [apply Forall_cons in Hk as [Hk _]; by rewrite kind_quic in Hk|done]).
    destruct (IH (S i) (quicAt q hq i + t) (quicAt q hq i) Hs) as [I1 I2]; [lia|right; lia|].
    split; [constructor; [done|]|constructor; [simpl; lia|]]; eapply Forall_impl; try exact I2; simpl; lia.
  - assert (kind a = 1) as Ek by (unfold kind; by rewrite Eq, Et).
    destruct (IH (S i) F (tcpAt t ht ts i + F) Hs) as [I1 I2]; [lia| |].
    { left. eapply Forall_impl; [exact Ha|]. simpl. lia. }
    split; [constructor; [done|]|constructor; [simpl; lia|]]; eapply Forall_impl; try exact I2; simpl; lia.
  - assert (kind a = 2) as Ek by (unfold kind; by rewrite Eq, Et).
    assert (Forall (fun b => kind b = 2) l) as H2.
    { eapply Forall_impl; [exact Ha|]. simpl. intros b Hb. pose proof (kind_range b). lia. }
    destruct (IH (S i) F las Hs) as [I1 I2]; [lia|left; eapply Forall_impl; [exact H2|]; simpl; lia|].
    pose proof (delays_other l (S i) F las H2) as I3.
    split; [constructor; [done|]|constructor; [simpl; lia|]]; eapply Forall_impl; try exact I3; simpl; lia.
Qed.
End order.

(** ** The schedule of a group *)

Definition is4 (a : Maddr) : bool := isProtocolAddr a P_IP4.
Definition is6 (a : Maddr) : bool := isProtocolAddr a P_IP6.

(** The first at once, the second after [d], the others with it, or after another [d]. *)
Definition steps (d : Z) (happy : bool) (i : nat) : Z :=
  match i with O => 0 | S O => d | _ => if happy then 2 * d else d end.
Definition timed (base d : Z) (happy : bool) (l : list Maddr) : list AddrDelay :=
  imap (fun i a => {| Addr := a; Delay := base + steps d happy i |}) l.
Definition last_delay (base : Z) (g : list AddrDelay) : Z := match last g with Some x => Delay x | None => base end.

(** QUIC addresses, the TCP addresses [t] after the last of them, and the others [o] after
    the last of both. *)
Definition schedule (t q o off : Z) (hq ht : bool) (Q T O : list Maddr) : list AddrDelay :=
  let gq := timed off q hq Q in
  let gt := timed (match Q with [] => off | _ => last_delay off gq + t end) t ht T in
  gq ++ gt ++ map (fun a => {| Addr := a; Delay := last_delay off (gq ++ gt) + o |}) O.

(** The address of the lowest score comes first.  Happy eyeballs: if it is IPv6, and there
    is an IPv4 address, the best of those is the second. *)
Definition eyeballs (happy : bool) (l : list Maddr) : Prop :=
  (forall a b, head l = Some a -> b ∈ l -> score a <= score b) /\
  match l with
  | [] => happy = false
  | a :: r =>
    if happy then is6 a = true /\ exists b r', r = b :: r' /\ is4 b = true /\ (forall c, c ∈ r' -> is4 c = true -> score b <= score c)
    else is6 a = true -> forall b, b ∈ r -> is4 b = false
  end.

Lemma firstFrom_split f l i : (firstFrom f i l < i + length l)%nat ->
  exists M b N, l = M ++ b :: N /\ (firstFrom f i l = i + length M)%nat /\ f b = true /\ Forall (fun a => f a = false) M.
Proof.
  revert i. induction l as [|x l IH]; intros i Hlt; simpl in *; [lia|]. destruct (f x) eqn:Ef.
  - exists [], x, l. split_and!; [done|simpl; lia|done|constructor].
  - destruct (IH (S i)) as (M & b & N & -> & E & Hb & HM); [lia|]. exists (x :: M), b, N. split_and!; [done|simpl; lia|done|by constructor].
Qed.

Lemma firstFrom_all f l i : (firstFrom f i l = i + length l)%nat -> Forall (fun a => f a = false) l.
Proof.
  intros E. apply Forall_lookup. intros k a Ea. apply (proj1 (proj2 (firstFrom_spec f l i)) k a Ea).
  pose proof (lookup_lt_Some _ _ _ Ea). lia.
Qed.

Lemma firstFrom_app f i A x B : Forall (fun a => f a = false) A -> f x = true -> firstFrom f i (A ++ x :: B) = (i + length A)%nat.
Proof.
  intros HA Hx. revert i. induction HA as [|a A Ha HA IH]; intros i; simpl; [rewrite Hx; lia|]. rewrite Ha, IH. lia.
Qed.

Lemma moveTo_mid A M b N : moveTo (length A) (length A + length M) (A ++ M ++ b :: N) = A ++ b :: M ++ N.
Proof.
  unfold moveTo. rewrite lookup_app_r by lia. replace (length A + length M - length A)%nat with (length M + 0)%nat by lia.
  rewrite lookup_app_r, Nat.add_sub_swap, Nat.sub_diag by lia. simpl. rewrite take_app_length. f_equal. f_equal.
  replace (S (length A + length M)) with (length (A ++ M ++ [b])) by (rewrite !length_app; simpl; lia).
  replace (A ++ M ++ b :: N) with ((A ++ M ++ [b]) ++ N) at 2 by by rewrite <-!app_assoc.
  rewrite drop_app_length. f_equal. rewrite <-length_app, app_assoc, take_app_length. by rewrite drop_app_length.
Qed.

(** A list sorted by kind, in its three parts. *)
Lemma by_kind_split l : by_kind l -> exists Q T O, l = Q ++ T ++ O /\
  Forall (fun a => kind a = 0) Q /\ Forall (fun a => kind a = 1) T /\ Forall (fun a => kind a = 2) O.
Proof.
  induction l as [|a l IH]; intros Hs; [by exists [], [], []|]. apply StronglySorted_inv in Hs as [Hs Ha].
  destruct (IH Hs) as (Q & T & O & -> & HQ & HT & HO). pose proof (kind_range a) as Hr.
  apply Forall_app in Ha as [A1 A2]. apply Forall_app in A2 as [A2 A3].
  destruct (decide (kind a = 0)) as [E0|E0]; [by exists (a :: Q), T, O; split_and!; [|constructor| |]|].
  assert (Q = []) as ->.
  { destruct Q as [|x Q]; [done|]. apply Forall_cons in HQ as [Hx _]. apply Forall_cons in A1 as [Hax _]. lia. }
  destruct (decide (kind a = 1)) as [E1|E1]; [by exists [], (a :: T), O; split_and!; [| |constructor|]|].
  assert (T = []) as ->.
  { destruct T as [|x T]; [done|]. apply Forall_cons in HT as [Hx _]. apply Forall_cons in A2 as [Hax _]. lia. }
  exists [], [], (a :: O). split_and!; try done. constructor; [lia|done].
Qed.

Definition by_score : list Maddr -> Prop := StronglySorted (fun a b => score a <= score b).

Lemma sort_by_score l : by_score (sort_slice (fun a b => score a <? score b) l).
Proof.
  assert (StronglySorted (fun a b => (score b <? score a) = false) (sort_slice (fun a b => score a <? score b) l)) as Hs.
  { apply (sort_slice_sorted (fun _ => True)); [split; intros; lia|by apply Forall_true]. }
  revert Hs. generalize (sort_slice (fun a b => score a <? score b) l) as k. induction 1 as [|a k Hk IH Ha]; [constructor|].
  constructor; [done|]. eapply Forall_impl; [exact Ha|]. simpl. intros b Hb. lia.
Qed.

Lemma by_score_app l k : by_score (l ++ k) -> by_score l /\ by_score k.
Proof.
  induction l as [|a l IH]; intros Hs; [split; [constructor|done]|]. apply StronglySorted_inv in Hs as [Hs Ha].
  apply Forall_app in Ha as [Ha _]. destruct (IH Hs). split; [by constructor|done].
Qed.

Lemma by_score_head a l : by_score (a :: l) -> forall b, b ∈ a :: l -> score a <= score b.
Proof.
  intros [_ Ha]%StronglySorted_inv b [->|Hb]%elem_of_cons; [lia|]. rewrite Forall_forall in Ha. by apply Ha.
Qed.

(** The move of happy eyeballs, among the addresses [a :: r] of the kind [K]. *)
Lemma happy_move (K : Maddr -> bool) A a r R :
  by_score (a :: r) -> Forall (fun b => K b = true) r -> Forall (fun b => K b = false) R -> is6 a = true ->
  let l := A ++ a :: r ++ R in
  let j := firstFrom (fun b => K b && isProtocolAddr b P_IP4) (S (length A)) (r ++ R) in
  exists L, Permutation L (a :: r) /\ eyeballs (j <? length l)%nat L /\ (if j <? length l then moveTo (S (length A)) j l else l)%nat = A ++ L ++ R /\
    ((j < length l)%nat -> (j < length A + length L)%nat).
Proof.
  intros Hs HK HR H6 l j. set (f := fun b => _) in j. destruct (firstFrom_spec f (r ++ R) (S (length A))) as [Hj _]. fold j in Hj.
  assert (length l = S (length A) + length (r ++ R))%nat as Hl by (unfold l; rewrite length_app; simpl; lia).
  destruct (Nat.ltb_spec j (length l)) as [Hlt|Hge].
  - destruct (firstFrom_split f (r ++ R) (S (length A))) as (M & b & N & E & Ej & Hb & HM); [fold j; lia|]. fold j in Ej.
    assert (exists N', r = M ++ b :: N' /\ N = N' ++ R) as (N' & -> & ->).
    { apply app_eq_inv in E as [(k & -> & E)|(k & -> & E)].
      - destruct k as [|b' k]; simplify_eq/=; [|by exists k]. apply Forall_cons in HR as [HR _]. unfold f in Hb. by rewrite HR in Hb.
      - rewrite E in HR. apply Forall_app in HR as [_ HR]. apply Forall_cons in HR as [HR _]. unfold f in Hb. by rewrite HR in Hb. }
    exists (a :: b :: M ++ N'). split_and!.
    + by rewrite <-Permutation_middle.
    + split; [|split; [done|]].
      * intros x y [= <-] Hy. apply (by_score_head _ _ Hs). by rewrite <-Permutation_middle.
      * exists b, (M ++ N'). split_and!; [done|by apply andb_true_iff in Hb as [_ Hb]|].
        intros c [Hc|Hc]%elem_of_app H4.
        { apply Forall_app in HK as [HK _]. rewrite Forall_forall in HM, HK. pose proof (HM c Hc) as Hf. unfold f in Hf. rewrite (HK c Hc) in Hf. unfold is4 in H4. by rewrite H4 in Hf. }
        { apply StronglySorted_inv in Hs as [Hs _]. apply by_score_app in Hs as [_ Hs]. apply (by_score_head _ _ Hs). by right. }
    + rewrite Ej. unfold l. pose proof (moveTo_mid (A ++ [a]) M b (N' ++ R)) as Em. rewrite length_app in Em. cbn [length] in Em.
      rewrite Nat.add_1_r, <-!app_assoc in Em. cbn [app] in Em. rewrite <-app_assoc. cbn [app]. rewrite Em. simpl. by rewrite <-app_assoc.
    + intros _. rewrite Ej. simpl. rewrite length_app. simpl. lia.
  - exists (a :: r). split_and!; [done| |done|lia]. split; [intros x y [= <-]; by apply by_score_head|]. intros _ b Hb.
    pose proof (firstFrom_all f (r ++ R) (S (length A))) as Hall. fold j in Hall. rewrite Forall_forall in Hall, HK.
    pose proof (Hall ltac:(lia) b ltac:(apply elem_of_app; by left)) as Hf. unfold f in Hf. by rewrite (HK b Hb) in Hf.
Qed.

(** Without an IPv6 address in front there is no move. *)
Lemma happy_none a r : by_score (a :: r) -> is6 a = false -> eyeballs false (a :: r).
Proof. intros Hs H6. split; [intros x y [= <-]; by apply by_score_head|]. by rewrite H6. Qed.

Lemma kind_spec a : (kind a = 0 <-> isQUICAddr a = true) /\ (kind a = 1 -> isProtocolAddr a P_TCP = true).
Proof. unfold kind. destruct (isQUICAddr a), (isProtocolAddr a P_TCP); split; done. Qed.

Lemma eyeballsQUIC_spec Q R : by_score Q -> Forall (fun a => kind a = 0) Q -> Forall (fun a => kind a <> 0) R ->
  exists Q' hq i, eyeballsQUIC (Q ++ R) = (Q' ++ R, hq, i) /\ Permutation Q' Q /\ eyeballs hq Q' /\ (i <= length Q)%nat.
Proof.
  intros Hs HQ HR. assert (Forall (fun b => isQUICAddr b = false) R) as HR'.
  { eapply Forall_impl; [exact HR|]. simpl. intros b Hb. destruct (isQUICAddr b) eqn:E; [|done]. by apply kind_spec in E. }
  assert (Forall (fun b => isQUICAddr b = true) Q) as HQ' by (eapply Forall_impl; [exact HQ|]; simpl; intros b Hb; by apply kind_spec).
  unfold eyeballsQUIC. destruct Q as [|a Q]; simpl.
  - exists [], false, 0%nat. split_and!; [|done|done|lia]. destruct R as [|b R]; [done|]. apply Forall_cons in HR' as [-> _]. done.
  - apply Forall_cons in HQ' as [Ha HQ']. rewrite Ha. simpl. destruct (isProtocolAddr a P_IP6) eqn:E6; [|exists (a :: Q), false, 0%nat; split_and!; [done|done|by apply happy_none|lia]].
    pose proof (happy_move isQUICAddr [] a Q R Hs HQ' HR' E6) as HM. cbv zeta in HM. simpl in HM. destruct HM as (L & HP & He & El & Hlt).
    set (j := firstFrom _ _ _) in *. destruct (Nat.ltb_spec j (S (length (Q ++ R)))) as [Hj|Hj].
    + exists L, true, (S j). split_and!; [by rewrite El|done|done|]. apply Permutation_length in HP. simpl in HP. pose proof (Hlt Hj). simpl in *. lia.
    + exists L, false, 0%nat. split_and!; [by rewrite <-El|done|done|lia].
Qed.

Lemma eyeballsTCP_spec Q T O : by_score T -> Forall (fun a => isProtocolAddr a P_TCP = true) T -> Forall (fun a => isProtocolAddr a P_TCP = false) O ->
  T <> [] -> exists T' ht, eyeballsTCP (length Q) (Q ++ T ++ O) = (Q ++ T' ++ O, ht) /\ Permutation T' T /\ eyeballs ht T'.
Proof.
  intros Hs HT HO Hn. destruct T as [|a T]; [done|]. apply Forall_cons in HT as [_ HT].
  unfold eyeballsTCP. rewrite (list_lookup_middle Q (T ++ O) a) by done.
  destruct (isProtocolAddr a P_IP6) eqn:E6; [|exists (a :: T), false; split_and!; [done|done|by apply happy_none]].
  pose proof (happy_move (fun b => isProtocolAddr b P_TCP) Q a T O Hs HT HO E6) as HM. cbv zeta in HM |- *.
  assert (drop (S (length Q)) (Q ++ (a :: T) ++ O) = T ++ O) as ->.
  { replace (S (length Q)) with (length (Q ++ [a])) by (rewrite length_app; simpl; lia). replace (Q ++ (a :: T) ++ O) with ((Q ++ [a]) ++ T ++ O) by by rewrite <-app_assoc. by rewrite drop_app_length. }
  destruct HM as (L & HP & He & El & _). exists L. simpl in *. set (j := firstFrom _ _ _) in *.
  destruct (j <? length (Q ++ a :: T ++ O))%nat; eexists; split_and!; try done; by rewrite El.
Qed.

(** What [reorder] finds: the three kinds one after the other, and the first TCP address. *)
Lemma reorder_spec l : Forall plain l -> exists Q T O hq ht ts, reorder l = (Q ++ T ++ O, hq, ht, ts) /\
  Permutation (Q ++ T ++ O) l /\
  Forall (fun a => kind a = 0) Q /\ Forall (fun a => kind a = 1) T /\ Forall (fun a => kind a = 2) O /\
  eyeballs hq Q /\ eyeballs ht T /\ (T <> [] -> ts = length Q).
Proof.
  intros Hp. pose proof (sort_by_kind l Hp) as Hk. pose proof (sort_by_score l) as Hs. pose proof (reorder_perm l) as HP. unfold reorder in *.
  assert (Forall plain (sort_slice (fun a b => score a <? score b) l)) as Hp' by by rewrite sort_slice_perm.
  destruct (by_kind_split _ Hk) as (Q0 & T0 & O & E & HQ & HT & HO). rewrite E in *. clear E Hk.
  apply by_score_app in Hs as [HsQ Hs]. apply by_score_app in Hs as [HsT _].
  apply Forall_app in Hp' as [HpQ Hp']. apply Forall_app in Hp' as [HpT _].
  destruct (eyeballsQUIC_spec Q0 (T0 ++ O) HsQ HQ) as (Q & hq & i & E & HPQ & Heq & Hi).
  { apply Forall_app. split; (eapply Forall_impl; [eassumption|]); simpl; lia. }
  rewrite E in *. rewrite <-HPQ in HQ, HpQ. apply Permutation_length in HPQ.
  assert (Forall (fun a => isProtocolAddr a P_TCP = false) Q) as HQt.
  { apply Forall_forall. intros a Ha. rewrite Forall_forall in HQ, HpQ. apply plain_quic; [by apply HpQ|]. apply kind_spec, HQ, Ha. }
  assert (Forall (fun a => isProtocolAddr a P_TCP = true) T0) as HTt by (eapply Forall_impl; [exact HT|]; simpl; intros a; apply kind_spec).
  assert (Forall (fun a => isProtocolAddr a P_TCP = false) O) as HOt.
  { eapply Forall_impl; [exact HO|]. simpl. intros a. unfold kind. destruct (isQUICAddr a), (isProtocolAddr a P_TCP); done. }
  rewrite drop_app_le in * by lia. destruct T0 as [|a T0].
  - exists Q, [], O, hq, false. simpl in *. set (ts := firstFrom _ _ _) in *.
    assert (eyeballsTCP ts (Q ++ O) = (Q ++ O, false)) as Et.
    { unfold eyeballsTCP. rewrite lookup_ge_None_2; [done|]. unfold ts. clear ts HP. rewrite length_app.
      assert (Forall (fun a => isProtocolAddr a P_TCP = false) (drop i Q ++ O)) as Hall by (apply Forall_app; split; [by apply Forall_drop|done]).
      destruct (firstFrom_spec (fun a => isProtocolAddr a P_TCP) (drop i Q ++ O) i) as (H1 & _ & H2).
      rewrite length_app, length_drop in H1, H2. destruct (decide (length Q + length O <= firstFrom (fun a => isProtocolAddr a P_TCP) i (drop i Q ++ O))%nat) as [|Hlt]; [done|].
      destruct H2 as (b & Eb & Hb); [lia|]. rewrite Forall_lookup in Hall. by rewrite (Hall _ b Eb) in Hb. }
    rewrite Et in *. exists ts. split_and!; try done.
  - assert (firstFrom (fun a => isProtocolAddr a P_TCP) i (drop i Q ++ (a :: T0) ++ O) = length Q) as Ets.
    { rewrite <-app_comm_cons, firstFrom_app; [rewrite length_drop; lia|by apply Forall_drop|by apply Forall_cons in HTt as [-> _]]. }
    rewrite Ets in *. destruct (eyeballsTCP_spec Q (a :: T0) O HsT HTt HOt) as (T & ht & Et & HPT & Het); [done|]. rewrite Et in *. simpl in HP.
    exists Q, T, O, hq, ht, (length Q). split_and!; try done. by rewrite HPT.
Qed.

(** The delays of the three parts. *)
Section parts.
Context (t q o off : Z) (hq ht : bool) (ts : nat).
Notation delays_ := (delays t q o off hq ht ts).

Lemma delays_quic Q R : forall i F las, Forall (fun a => kind a = 0) Q ->
  delays_ i F las (Q ++ R) = imap (fun k a => {| Addr := a; Delay := off + quicAt q hq (i + k) |}) Q ++
    match Q with [] => delays_ i F las R | _ => delays_ (i + length Q) (quicAt q hq (i + length Q - 1) + t) (quicAt q hq (i + length Q - 1)) R end.
Proof.
  induction Q as [|a Q IH]; intros i F las HQ; [done|]. apply Forall_cons in HQ as [Ha HQ]. apply kind_spec in Ha.
  cbn [app delays]. rewrite Ha. cbv zeta. rewrite IH by done. simpl. rewrite Nat.add_0_r. f_equal. f_equal.
  - apply imap_ext. intros k x _. simpl. by rewrite Nat.add_succ_r.
  - destruct Q as [|b Q]; simpl.
    + by rewrite Nat.add_1_r, Nat.sub_succ, Nat.sub_0_r.
    + by rewrite !Nat.add_succ_r, !Nat.sub_succ, !Nat.sub_0_r.
Qed.

Lemma delays_tcp T R : forall i F las, Forall (fun a => kind a = 1) T ->
  delays_ i F las (T ++ R) = imap (fun k a => {| Addr := a; Delay := off + (tcpAt t ht ts (i + k) + F) |}) T ++
    match T with [] => delays_ i F las R | _ => delays_ (i + length T) F (tcpAt t ht ts (i + length T - 1) + F) R end.
Proof.
  induction T as [|a T IH]; intros i F las HT; [done|]. apply Forall_cons in HT as [Ha HT].
  assert (isQUICAddr a = false) as Eq by (destruct (isQUICAddr a) eqn:E; [apply kind_spec in E; lia|done]). apply kind_spec in Ha.
  cbn [app delays]. rewrite Eq, Ha. cbv zeta. rewrite IH by done. simpl. rewrite Nat.add_0_r. f_equal. f_equal.
  - apply imap_ext. intros k x _. simpl. by rewrite Nat.add_succ_r.
  - destruct T as [|b T]; simpl.
    + by rewrite Nat.add_1_r, Nat.sub_succ, Nat.sub_0_r.
    + by rewrite !Nat.add_succ_r, !Nat.sub_succ, !Nat.sub_0_r.
Qed.

Lemma delays_rest O : forall i F las, Forall (fun a => kind a = 2) O ->
  delays_ i F las O = map (fun a => {| Addr := a; Delay := off + (las + o) |}) O.
Proof.
  induction O as [|a O IH]; intros i F las HO; [done|]. apply Forall_cons in HO as [Ha HO]. unfold kind in Ha. simpl.
  destruct (isQUICAddr a); [done|]. destruct (isProtocolAddr a P_TCP); [done|]. by rewrite IH.
Qed.

Lemma quicAt_steps i : quicAt q hq i = steps q hq i.
Proof. unfold quicAt. by destruct i as [|[|i]]. Qed.

Lemma tcpAt_steps i : tcpAt t ht ts (ts + i) = steps t ht i.
Proof.
  unfold tcpAt. destruct i as [|[|i]]; simpl.
  - destruct (Nat.eqb_spec (ts + 0) (ts + 1)); [lia|]. destruct (Nat.ltb_spec (ts + 1) (ts + 0)); [lia|done].
  - by rewrite Nat.eqb_refl.
  - destruct (Nat.eqb_spec (ts + S (S i)) (ts + 1)); [lia|]. destruct (Nat.ltb_spec (ts + 1) (ts + S (S i))); [done|lia].
Qed.

Lemma last_timed base d h l : l <> [] -> last_delay off (timed base d h l) = base + steps d h (length l - 1).
Proof.
  intros Hl. unfold last_delay, timed. rewrite last_lookup, length_imap, list_lookup_imap.
  destruct (lookup_lt_is_Some_2 l (pred (length l))) as [x Hx]; [destruct l; simpl; [done|lia]|]. rewrite Hx. simpl. by rewrite Nat.sub_1_r.
Qed.

Lemma last_delay_app g k : last_delay off (g ++ k) = match k with [] => last_delay off g | _ => last_delay off k end.
Proof. unfold last_delay. destruct k as [|x k]; [by rewrite app_nil_r|]. rewrite last_app. by destruct (last_is_Some (x :: k)) as [_ [? ->]]. Qed.

Lemma delays_schedule Q T O : Forall (fun a => kind a = 0) Q -> Forall (fun a => kind a = 1) T -> Forall (fun a => kind a = 2) O ->
  (T <> [] -> ts = length Q) -> delays_ 0 0 0 (Q ++ T ++ O) = schedule t q o off hq ht Q T O.
Proof.
  intros HQ HT HO Hts. rewrite delays_quic by done. unfold schedule, timed at 1.
  f_equal; [by apply imap_ext; intros k x _; rewrite quicAt_steps|].
  assert (exists las F, (match Q with [] => delays_ 0 0 0 (T ++ O) | _ => delays_ (0 + length Q) (quicAt q hq (0 + length Q - 1) + t) (quicAt q hq (0 + length Q - 1)) (T ++ O) end) =
    delays_ (length Q) F las (T ++ O) /\ off + F = (match Q with [] => off | _ => last_delay off (timed off q hq Q) + t end) /\ off + las = last_delay off (timed off q hq Q)) as (las & F & -> & EF & El).
  { destruct Q as [|a Q]; [exists 0, 0; split_and!; [done|lia|unfold last_delay; simpl; lia]|].
    eexists _, _. split; [done|]. rewrite last_timed, quicAt_steps by done. simpl. split; lia. }
  rewrite delays_tcp by done. rewrite <-EF. f_equal.
  { apply imap_ext. intros k x Hx. rewrite <-Hts by (by intros ->). rewrite tcpAt_steps. f_equal. lia. }
  rewrite last_delay_app. destruct T as [|a T]; simpl.
  - rewrite delays_rest by done. apply map_ext. intros a. f_equal. lia.
  - rewrite delays_rest by done. apply map_ext. intros b. f_equal. change (last_delay off _) with (last_delay off (timed (off + F) t ht (a :: T))).
    rewrite last_timed by done. rewrite <-Hts, <-Nat.add_sub_assoc, tcpAt_steps by (done || simpl; lia). simpl. lia.
Qed.
End parts.

(** [g] is what becomes of the addresses [src]: each once, QUIC before TCP before the rest,
    with the delays of the schedule; so in the order of their delays, none before [off], and at
    [off] the first if one of them is QUIC or TCP. *)
Definition ranked (t q o off : Z) (src : list Maddr) (g : list AddrDelay) : Prop :=
  (exists Q T O hq ht, Permutation (Q ++ T ++ O) src /\
    Forall (fun a => kind a = 0) Q /\ Forall (fun a => kind a = 1) T /\ Forall (fun a => kind a = 2) O /\
    eyeballs hq Q /\ eyeballs ht T /\ g = schedule t q o off hq ht Q T O) /\
  Permutation (map Addr g) src /\ StronglySorted (fun x y => Delay x <= Delay y) g /\
  Forall (fun d => off <= Delay d) g /\ (Exists (fun a => kind a <> 2) src -> Exists (fun d => Delay d = off) g).

Lemma getAddrDelay_schedule l t q o off : Forall plain l -> exists Q T O hq ht, Permutation (Q ++ T ++ O) l /\
  Forall (fun a => kind a = 0) Q /\ Forall (fun a => kind a = 1) T /\ Forall (fun a => kind a = 2) O /\
  eyeballs hq Q /\ eyeballs ht T /\ getAddrDelay l t q o off = schedule t q o off hq ht Q T O.
Proof.
  intros Hp. destruct (reorder_spec l Hp) as (Q & T & O & hq & ht & ts & E & HP & HQ & HT & HO & Hq & Ht & Hts).
  exists Q, T, O, hq, ht. split_and!; try done. unfold getAddrDelay. rewrite E, delays_schedule by done. destruct l; [|done].
  apply Permutation_sym, Permutation_nil in HP. by destruct Q, T, O.
Qed.

Lemma getAddrDelay_ranked l t q o off : 0 <= t -> 0 <= q -> 0 <= o -> Forall plain l -> ranked t q o off l (getAddrDelay l t q o off).
Proof.
  intros Ht Hq Ho Hp. split; [by apply getAddrDelay_schedule|]. split; [apply getAddrDelay_addrs|]. unfold getAddrDelay. destruct l as [|a0 l].
  { split_and!; [constructor|constructor|]. intros HE. by apply Exists_nil in HE. }
  pose proof (reorder_by_kind _ Hp) as [Hs Hp']. pose proof (reorder_perm (a0 :: l)) as HP. destruct (reorder (a0 :: l)) as [[[k hq] ht] ts]. simpl in *.
  destruct (delays_sorted t q o off hq ht ts Ht Hq Ho k 0 0 0 Hs) as [H1 H2]; [pose proof (tcpAt_mono t ht ts Ht 0%nat); lia|right; done|].
  split_and!; [done|eapply Forall_impl; [exact H2|]; simpl; lia|]. intros HE. rewrite <-HP in HE. destruct k as [|b k]; [by apply Exists_nil in HE|].
  assert (kind b <> 2) as Hb.
  { apply Exists_exists in HE as (c & Hc & Hk). apply elem_of_cons in Hc as [->|Hc]; [done|]. apply StronglySorted_inv in Hs as [_ Hs].
    rewrite Forall_forall in Hs. pose proof (Hs c Hc). pose proof (kind_range c). lia. }
  unfold kind in Hb. simpl. destruct (isQUICAddr b); [left; unfold quicAt; simpl; lia|]. destruct (isProtocolAddr b P_TCP); [|done]. left. simpl. unfold tcpAt.
  destruct (Nat.eqb_spec 0 (ts + 1)); [lia|]. destruct (Nat.ltb_spec (ts + 1) 0); lia.
Qed.

Lemma ranked_perm t q o off src src' g : Permutation src src' -> ranked t q o off src g -> ranked t q o off src' g.
Proof.
  intros HP ((Q & T & O & hq & ht & A) & A1 & A2 & A3 & A4).
  split_and!; [exists Q, T, O, hq, ht; by rewrite <-HP|by rewrite <-HP|done|done|by rewrite <-HP].
Qed.

Definition direct (a : Maddr) : bool := negb (isRelayAddr a).
Definition public_ip (a : Maddr) : bool := direct a && negb (IsPrivateAddr a) && (isProtocolAddr a P_IP4 || isProtocolAddr a P_IP6).

(** C22. Private, public and relay addresses are ranked each among themselves, with the delays
    of their group: the QUIC address of the lowest score, the IPv4 one next if it is IPv6, the
    others, then TCP in the same way and the other addresses after those.  Dialling starts at
    once with a private and a public QUIC or TCP address if there are such, and with a
    relay after half a second if there is a public address, at once if not, even if there is a
    private one (the comment of the function says "if we have any non-relay alternatives"); what
    has no IP address comes a second after the last address of the three groups. *)
Theorem ranked_groups l : Forall plain l ->
  exists pvt public relay rest, DefaultDialRanker l = pvt ++ public ++ relay ++ rest /\
    ranked PrivateTCPDelay PrivateQUICDelay PrivateOtherDelay 0 (filter (fun a => direct a && IsPrivateAddr a = true) l) pvt /\
    ranked PublicTCPDelay PublicQUICDelay PublicOtherDelay 0 (filter (fun a => public_ip a = true) l) public /\
    ranked PublicTCPDelay PublicQUICDelay PublicOtherDelay (match public with [] => 0 | _ => RelayDelay end) (filter (fun a => isRelayAddr a = true) l) relay /\
    Permutation (map Addr rest) (filter (fun a => direct a && negb (IsPrivateAddr a) && negb (public_ip a) = true) l) /\
    Forall (fun d => Delay d = PublicOtherDelay + (match last (pvt ++ public ++ relay) with Some x => Delay x | None => 0 end)) rest.
Proof.
  intros Hp. unfold DefaultDialRanker.
  destruct (filterAddrs_spec l isRelayAddr) as [F1 R1]. destruct (filterAddrs l isRelayAddr) as [lr l1]. simpl in F1, R1.
  destruct (filterAddrs_spec l1 IsPrivateAddr) as [F2 R2]. destruct (filterAddrs l1 IsPrivateAddr) as [lp l2]. simpl in F2, R2.
  set (fi := fun a => isProtocolAddr a P_IP4 || isProtocolAddr a P_IP6).
  destruct (filterAddrs_spec l2 fi) as [F3 R3]. destruct (filterAddrs l2 fi) as [lq l3]. simpl in F3, R3.
  assert (Permutation lp (filter (fun a => direct a && IsPrivateAddr a = true) l)) as Pp.
  { rewrite F2, R1, list_filter_filter. apply Permutation_refl'. apply list_filter_iff. intros a. unfold direct.
    destruct (isRelayAddr a), (IsPrivateAddr a); simpl; naive_solver. }
  assert (Permutation lq (filter (fun a => public_ip a = true) l)) as Pq.
  { rewrite F3, R2, R1, !list_filter_filter. apply Permutation_refl'. apply list_filter_iff. intros a. unfold public_ip, direct, fi.
    destruct (isRelayAddr a), (IsPrivateAddr a), (isProtocolAddr a P_IP4 || isProtocolAddr a P_IP6); simpl; naive_solver. }
  assert (Permutation l3 (filter (fun a => direct a && negb (IsPrivateAddr a) && negb (public_ip a) = true) l)) as Pr.
  { rewrite R3, R2, R1, !list_filter_filter. apply Permutation_refl'. apply list_filter_iff. intros a. unfold public_ip, direct, fi.
    destruct (isRelayAddr a), (IsPrivateAddr a), (isProtocolAddr a P_IP4 || isProtocolAddr a P_IP6); simpl; naive_solver. }
  assert (forall f : Maddr -> bool, Forall plain (filter (fun a => f a = true) l)) as Hf.
  { intros f. apply Forall_forall. intros a [_ Ha]%list_elem_of_filter. rewrite Forall_forall in Hp. auto. }
  assert (Forall plain lp /\ Forall plain lq /\ Forall plain lr) as (H1 & H2 & H3).
  { rewrite Pp, Pq, F1. split_and!; apply (Hf (fun a => direct a && IsPrivateAddr a)) || apply (Hf public_ip) || apply (Hf isRelayAddr). }
  set (pvt := getAddrDelay lp _ _ _ _). set (public := getAddrDelay lq _ _ _ _). set (ro := match lq with [] => 0 | _ => RelayDelay end). set (relay := getAddrDelay lr _ _ _ _).
  assert (ro = match public with [] => 0 | _ => RelayDelay end) as Ero.
  { pose proof (Permutation_length (getAddrDelay_addrs lq PublicTCPDelay PublicQUICDelay PublicOtherDelay 0)) as HL. rewrite length_map in HL.
    fold public in HL. unfold ro. by destruct lq, public. }
  exists pvt, public, relay, (map (fun a => {| Addr := a; Delay := (match last (pvt ++ public ++ relay) with Some d => Delay d | None => 0 end) + PublicOtherDelay |}) l3).
  split_and!.
  - by rewrite <-!app_assoc.
  - apply (ranked_perm _ _ _ _ lp); [done|]. by apply getAddrDelay_ranked.
  - apply (ranked_perm _ _ _ _ lq); [done|]. by apply getAddrDelay_ranked.
  - rewrite <-Ero, <-F1. by apply getAddrDelay_ranked.
  - rewrite map_map. simpl. by rewrite map_id.
  - apply Forall_forall. intros d (a & -> & _)%list_elem_of_fmap. simpl. lia.
Qed.
End rank.

(** ** Examples: an address as the list of its components *)

Definition comps := list (Z * string).
Definition comp_codes (a : comps) : list Z := a.*1.
Fixpoint comp_value (a : comps) (p : Z) : option string :=
  match a with [] => None | (c, v) :: r => if p =? c then Some v else comp_value r p end.
Definition comp_private (a : comps) : bool := match comp_value a P_IP4 with Some ip => (ip =? "10.0.0.1")%string | None => false end.

#[local] Instance ex_sort : GoSort := insertion_go_sort.

Definition ip4 : Z * string := (P_IP4, "1.2.3.4").
Definition ip6 : Z * string := (P_IP6, "2001::1").
Definition quic (ip : Z * string) (p : string) : comps := [ip; (P_UDP, p); (P_QUIC_V1, "")].
Definition tcp (ip : Z * string) (p : string) : comps := [ip; (P_TCP, p)].
Definition webrtc (ip : Z * string) : comps := [ip; (P_UDP, "1"); (P_WEBRTC_DIRECT, "")].
Definition relayed (a : comps) : comps := a ++ [(P_CIRCUIT, "")].
(** [/dns4/name/tcp/1], which is neither a private nor an IP address. *)
Definition named : comps := [(54, "name"); (P_TCP, "1")].

Definition rank_ex (l : list comps) : list (comps * Z) :=
  map (fun d => (Addr d, Delay d / millisecond)) (DefaultDialRanker comp_codes comp_value comp_private l).

(** Happy eyeballs: the first IPv6 address, the first IPv4 address, the others; QUIC, then
    TCP; and the relay after half a second. *)
Example rank_example :
  rank_ex [tcp ip4 "1"; relayed (tcp ip4 "9"); quic ip6 "2"; quic ip4 "3"; quic ip6 "1"; tcp ip6 "1"] =
  [(quic ip6 "1", 0); (quic ip4 "3", 250); (quic ip6 "2", 500); (tcp ip6 "1", 750); (tcp ip4 "1", 1000); (relayed (tcp ip4 "9"), 500)].
Proof. by vm_compute. Qed.

(** An address that is neither QUIC nor TCP has a delay even if there is no other. *)
Example webrtc_alone : rank_ex [webrtc ip4] = [(webrtc ip4, 1000)].
Proof. by vm_compute. Qed.

(** With a private address and no public one the relay is dialled at once. *)
Theorem relay_beside_private :
  rank_ex [tcp (P_IP4, "10.0.0.1"%string) "1"; relayed (tcp ip4 "9")] = [(tcp (P_IP4, "10.0.0.1"%string) "1", 0); (relayed (tcp ip4 "9"), 0)].
Proof. by vm_compute. Qed.

(** [maxDelay] is the delay of the last address of the list, which is a relay if there is
    one, and not the greatest. *)
Theorem max_delay_is_last :
  rank_ex [quic ip6 "1"; quic ip4 "1"; quic ip4 "2"; tcp ip4 "1"; relayed (tcp ip4 "9"); named] =
  [(quic ip6 "1", 0); (quic ip4 "1", 250); (quic ip4 "2", 500); (tcp ip4 "1", 750); (relayed (tcp ip4 "9"), 500); (named, 1500)].
Proof. by vm_compute. Qed.

Lemma comp_value_spec a p : (exists s, comp_value a p = Some s) <-> isProtocolAddr comp_codes a p = true.
Proof.
  unfold isProtocolAddr, comp_codes. induction a as [|[c v] a IH]; simpl; [split; [by intros [? ?]|done]|].
  destruct (p =? c); simpl; [|exact IH]. split; [done|]. intros _. by eexists.
Qed.

Lemma port_values a p : Forall (fun c => 0 <= default 0 (Atoi c.2) < 65536) a -> 0 <= port comp_value a p < 65536.
Proof.
  intros Ha. unfold port. induction Ha as [|[c v] a Hc Ha IH]; [done|]. simpl. by destruct (p =? c).
Qed.

Lemma plain_example a : In a [quic ip6 "1"; tcp ip4 "1"; relayed (tcp ip4 "9")] -> plain comp_codes comp_value a.
Proof.
  intros Ha. assert (Forall (fun c => 0 <= default 0 (Atoi c.2) < 65536) a) as Hport.
  { simpl in Ha. destruct Ha as [<-|[<-|[<-|[]]]]; repeat constructor; by vm_compute. }
  split; [apply comp_value_spec|intros p; by apply port_values|..]; simpl in Ha; destruct Ha as [<-|[<-|[<-|[]]]]; by vm_compute.
Qed.

Lemma ranked_groups_witness :
  exists pvt public relay rest,
    DefaultDialRanker comp_codes comp_value comp_private [tcp ip4 "1"; relayed (tcp ip4 "9"); quic ip6 "1"] = pvt ++ public ++ relay ++ rest /\
    public <> [].
Proof.
  destruct (ranked_groups comp_codes comp_value comp_private [tcp ip4 "1"; relayed (tcp ip4 "9"); quic ip6 "1"])
    as (pvt & public & relay & rest & E & _ & H & _).
  - repeat constructor; apply plain_example; simpl; tauto.
  - exists pvt, public, relay, rest. split; [exact E|]. intros ->. destruct H as (_ & HP & _). vm_compute in HP. by apply Permutation_nil_cons in HP.
Defined.
