(* ===== verification/Dialer.v ===== *)
(** * What a dial is held back by

    Three parts of src/myvendor/go-libp2p/p2p/net/swarm: [Module BlackHole] counts which
    dials succeed and refuses those that would go into a black hole
    (black_hole_detector.go); [Module Backoff] remembers which addresses failed
    ([DialBackoff] of swarm_dial.go), with the code of src/p2put/user_protocols.go that
    goes around it; [Module Sync] lets one worker at a time dial a peer (dial_sync.go). *)

From S2P Require Import Prelude GoLib.

Module BlackHole.

(** ** The counter *)

Inductive BlackHoleState := Probing | Allowed | Blocked.

#[export] Instance BlackHoleState_eq_dec : EqDecision BlackHoleState.
Proof. solve_decision. Defined.

Record counter := {
  N : Z;
  MinSuccesses : Z;
  requests : Z;
  dialResults : list bool;
  successes : Z;
  state : BlackHoleState
}.

Definition newCounter (n min : Z) : counter :=
  {| N := n; MinSuccesses := min; requests := 0; dialResults := []; successes := 0; state := Probing |}.

(** swarm.go *)
Definition default_counter : counter := newCounter 100 5.

Definition updateState (b : counter) : counter := {|
  N := N b; MinSuccesses := MinSuccesses b; requests := requests b; dialResults := dialResults b; successes := successes b;
  state := if zlen (dialResults b) <? N b then Probing
           else if MinSuccesses b <=? successes b then Allowed else Blocked |}.

Definition reset (b : counter) : counter :=
  updateState {| N := N b; MinSuccesses := MinSuccesses b; requests := 0; dialResults := []; successes := 0; state := state b |}.

(** The result that falls out of the window is the first. *)
Definition RecordResult (success : bool) (b : counter) : counter :=
  if bool_decide (state b = Blocked) && success then reset b
  else
    let s := if success then successes b + 1 else successes b in
    let r := dialResults b ++ [success] in
    let '(r, s) := if N b <? zlen r then (tail r, if default false (head r) then s - 1 else s) else (r, s) in
    updateState {| N := N b; MinSuccesses := MinSuccesses b; requests := requests b; dialResults := r; successes := s; state := state b |}.

Definition HandleRequest (b : counter) : BlackHoleState * counter :=
  let b := {| N := N b; MinSuccesses := MinSuccesses b; requests := requests b + 1; dialResults := dialResults b;
              successes := successes b; state := state b |} in
  (match state b with
   | Allowed => Allowed
   | Probing => Probing
   | Blocked => if Z.rem (requests b) (N b) =? 0 then Probing else Blocked
   end, b).

(** [info]: the requests until the next probe, and the fraction of successes. *)
Definition nextProbeAfter (b : counter) : Z :=
  if decide (state b = Blocked) then N b - Z.rem (requests b) (N b) else 0.

(** ** The detector *)

Section detector.
Context {Maddr : Type} (isUDP isIP6 IsPublicAddr : Maddr -> bool).

Record blackHoleDetector := { udp : option counter; ipv6 : option counter; readOnly : bool }.

Definition getFilterState (ro : bool) (f : counter) : BlackHoleState * counter :=
  if ro then (if decide (state f = Allowed) then Allowed else Blocked, f) else HandleRequest f.

(** The state of a counter that is there and concerned. *)
Definition consult (ro has : bool) (f : option counter) : BlackHoleState * option counter :=
  match f with
  | Some f => if has then let '(r, f) := getFilterState ro f in (r, Some f) else (Allowed, Some f)
  | None => (Allowed, None)
  end.

Definition keep (udpRes ipv6Res : BlackHoleState) (a : Maddr) : bool :=
  if negb (IsPublicAddr a) then true
  else if bool_decide (udpRes = Probing) && isUDP a then true
  else if bool_decide (ipv6Res = Probing) && isIP6 a then true
  else if bool_decide (udpRes = Blocked) && isUDP a then false
  else if bool_decide (ipv6Res = Blocked) && isIP6 a then false
  else true.

(** The valid addresses and the black holed ones. *)
Definition FilterAddrs (addrs : list Maddr) (d : blackHoleDetector) : list Maddr * list Maddr * blackHoleDetector :=
  let hasUDP := existsb (fun a => IsPublicAddr a && isUDP a) addrs in
  let hasIPv6 := existsb (fun a => IsPublicAddr a && isIP6 a) addrs in
  let '(udpRes, u) := consult (readOnly d) hasUDP (udp d) in
  let '(ipv6Res, v) := consult (readOnly d) hasIPv6 (ipv6 d) in
  (filter (fun a => keep udpRes ipv6Res a = true) addrs, filter (fun a => keep udpRes ipv6Res a = false) addrs,
   {| udp := u; ipv6 := v; readOnly := readOnly d |}).

Definition detector_RecordResult (addr : Maddr) (success : bool) (d : blackHoleDetector) : blackHoleDetector :=
  if readOnly d || negb (IsPublicAddr addr) then d
  else {| udp := if isUDP addr then RecordResult success <$> udp d else udp d;
          ipv6 := if isIP6 addr then RecordResult success <$> ipv6 d else ipv6 d;
          readOnly := readOnly d |}.
End detector.

(** ** The counter counts *)

Inductive event := Request | Result (success : bool).

Definition step (b : counter) (e : event) : counter :=
  match e with Request => (HandleRequest b).2 | Result s => RecordResult s b end.

Definition run (b : counter) (l : list event) : counter := foldl step b l.

Definition count (l : list bool) : Z := zlen (filter (fun x => x = true) l).

Lemma count_app l k : count (l ++ k) = count l + count k.
Proof. unfold count. by rewrite filter_app, zlen_app. Qed.

Lemma count_cons x l : count (x :: l) = (if x then 1 else 0) + count l.
Proof. unfold count. rewrite filter_cons. destruct x; [rewrite decide_True by done|rewrite decide_False by done]; unfold zlen; simpl; lia. Qed.

Record ok (b : counter) : Prop := {
  ok_count : successes b = count (dialResults b);
  ok_len : zlen (dialResults b) <= N b;
  ok_state : state b = if zlen (dialResults b) <? N b then Probing else if MinSuccesses b <=? successes b then Allowed else Blocked
}.

Lemma hole_result_ok s b : 0 < N b -> ok b -> ok (RecordResult s b) /\ N (RecordResult s b) = N b /\ MinSuccesses (RecordResult s b) = MinSuccesses b.
Proof.
  intros HN [Hc Hl Hs]. unfold RecordResult. destruct (bool_decide (state b = Blocked) && s).
  { split; [|done]. split; [done|simpl; change (zlen []) with 0; lia|done]. }
  destruct (dialResults b) as [|x r] eqn:Er.
  - cbn [app]. change (zlen [s]) with 1. destruct (Z.ltb_spec (N b) 1); [lia|]. split; [|done]. split; [|simpl; change (zlen [s]) with 1; lia|done].
    simpl. rewrite Hc. change (count []) with 0. rewrite count_cons. change (count []) with 0. destruct s; lia.
  - change ((x :: r) ++ [s]) with (x :: (r ++ [s])). rewrite !zlen_cons, zlen_app in *. change (zlen [s]) with 1.
    rewrite count_cons in Hc. destruct (Z.ltb_spec (N b) (1 + (zlen r + 1))).
    + split; [|done]. split; [|simpl; rewrite zlen_app; change (zlen [s]) with 1; lia|done].
      simpl. rewrite count_app, count_cons. change (count []) with 0. rewrite Hc. destruct x, s; lia.
    + split; [|done]. split; [|simpl; rewrite zlen_cons, zlen_app; change (zlen [s]) with 1; lia|done].
      simpl. rewrite count_cons, count_app, count_cons. change (count []) with 0. rewrite Hc. destruct x, s; lia.
Qed.

Lemma hole_step_ok b e : 0 < N b -> ok b -> ok (step b e) /\ N (step b e) = N b /\ MinSuccesses (step b e) = MinSuccesses b.
Proof. intros HN Hok. destruct e as [|s]; simpl; [split; [|done]; by destruct Hok|by apply hole_result_ok]. Qed.

Lemma hole_run_ok l : forall b, 0 < N b -> ok b -> ok (run b l) /\ N (run b l) = N b /\ MinSuccesses (run b l) = MinSuccesses b.
Proof.
  induction l as [|e l IH]; intros b HN Hok; [done|]. simpl. destruct (hole_step_ok b e HN Hok) as (H1 & H2 & H3).
  destruct (IH (step b e)) as (H4 & H5 & H6); [lia|done|]. split_and!; [done|congruence..].
Qed.

Lemma new_hole_ok n min : 0 < n -> ok (newCounter n min).
Proof. intros Hn. split; [done|unfold zlen; simpl; lia|]. simpl. change (zlen []) with 0. destruct (Z.ltb_spec 0 n); [done|lia]. Qed.

(** Whatever is requested and recorded, the counter holds the successes among its last
    results, at most [N] of them, and its state is what they say: probing until there are
    [N], then allowed or blocked as there are [MinSuccesses] among them. *)
Theorem blackhole_exact n min l : 0 < n ->
  let b := run (newCounter n min) l in
  successes b = count (dialResults b) /\ zlen (dialResults b) <= n /\
  (state b = Probing <-> zlen (dialResults b) < n) /\
  (state b = Allowed <-> zlen (dialResults b) = n /\ min <= count (dialResults b)) /\
  (state b = Blocked <-> zlen (dialResults b) = n /\ count (dialResults b) < min).
Proof.
  intros Hn. cbv zeta. destruct (hole_run_ok l (newCounter n min) Hn (new_hole_ok n min Hn)) as ([Hc Hl Hs] & H1 & H2). simpl in H1, H2.
  rewrite H1, H2 in *. rewrite Hs, <-Hc. destruct (Z.ltb_spec (zlen (dialResults (run (newCounter n min) l))) n);
    [|destruct (Z.leb_spec min (successes (run (newCounter n min) l)))]; split_and!; try done; try lia; split; intros; try done; lia.
Qed.

(** A success ends the blocking. *)
Lemma blocked_success b : 0 < N b -> state b = Blocked -> RecordResult true b = {| N := N b; MinSuccesses := MinSuccesses b; requests := 0; dialResults := []; successes := 0; state := Probing |}.
Proof.
  intros HN Hs. unfold RecordResult. rewrite Hs. simpl. unfold reset, updateState. simpl. change (zlen []) with 0. destruct (Z.ltb_spec 0 (N b)); [done|lia].
Qed.

Fixpoint answers (k : nat) (b : counter) : list BlackHoleState :=
  match k with O => [] | S k => let '(r, b) := HandleRequest b in r :: answers k b end.

(** Of [N] requests in a row one is let through, blocked or not. *)
Theorem probed_within b : 0 < N b -> 0 <= requests b -> exists r, r ∈ answers (Z.to_nat (N b)) b /\ r <> Blocked.
Proof.
  intros HN Hr. destruct (state b) eqn:Es.
  - exists Probing. split; [|done]. destruct (Z.to_nat (N b)) as [|k] eqn:Ek; [lia|]. simpl. rewrite Es. apply elem_of_cons. by left.
  - exists Allowed. split; [|done]. destruct (Z.to_nat (N b)) as [|k] eqn:Ek; [lia|]. simpl. rewrite Es. apply elem_of_cons. by left.
  - exists Probing. split; [|done].
    assert (forall k q, N q = N b -> state q = Blocked -> 0 <= requests q -> N b - Z.rem (requests q) (N b) <= Z.of_nat k -> Probing ∈ answers k q) as Hk.
    { induction k as [|k IH]; intros q Eq Esq Hq Hle; [pose proof (Z.rem_bound_pos (requests q) (N b) Hq HN); lia|]. simpl. rewrite Esq, Eq. simpl.
      destruct (Z.eqb_spec (Z.rem (requests q + 1) (N b)) 0) as [E|E]; [apply elem_of_cons; by left|].
      apply elem_of_cons. right. apply IH; try done; simpl; [lia|].
      pose proof (Z.rem_bound_pos (requests q) (N b) Hq HN). rewrite (Z.rem_mod_nonneg (requests q + 1) (N b)) in E |- * by lia.
      rewrite (Z.rem_mod_nonneg (requests q) (N b)) in * by lia. pose proof (Z.div_mod (requests q) (N b) ltac:(lia)).
      destruct (decide (requests q mod N b + 1 = N b)) as [Ex|Ex].
      - exfalso. apply E. symmetry. apply (Z.mod_unique _ _ (requests q / N b + 1)); [left; lia|]. rewrite Z.mul_add_distr_l. lia.
      - assert ((requests q + 1) mod N b = requests q mod N b + 1) as ->; [|lia]. symmetry.
        apply (Z.mod_unique _ _ (requests q / N b)); [left; lia|lia]. }
    apply Hk; [done|done|done|]. pose proof (Z.rem_bound_pos (requests b) (N b) Hr HN). lia.
Qed.

Section detector_facts.
Context {Maddr : Type} (isUDP isIP6 IsPublicAddr : Maddr -> bool).

(** A detector that is read-only never changes, and refuses what is not known to work;
    private addresses always pass, and every address is on one of the two lists. *)
Theorem filter_addrs addrs d valid holed d' : FilterAddrs isUDP isIP6 IsPublicAddr addrs d = (valid, holed, d') ->
  (forall a, a ∈ addrs <-> a ∈ valid \/ a ∈ holed) /\
  (forall a, a ∈ holed -> IsPublicAddr a = true /\ (isUDP a = true \/ isIP6 a = true)) /\
  (readOnly d = true -> d' = d /\
     forall a f, a ∈ addrs -> IsPublicAddr a = true -> isUDP a = true -> udp d = Some f -> state f <> Allowed -> a ∈ holed).
Proof.
  unfold FilterAddrs. set (hu := existsb _ addrs). set (hv := existsb (fun a => IsPublicAddr a && isIP6 a) addrs).
  destruct (consult (readOnly d) hu (udp d)) as [ur u] eqn:Eu. destruct (consult (readOnly d) hv (ipv6 d)) as [vr v] eqn:Ev.
  intros [= <- <- <-]. split_and!.
  - intros a. rewrite !list_elem_of_filter. destruct (keep isUDP isIP6 IsPublicAddr ur vr a); naive_solver.
  - intros a [Hk _]%list_elem_of_filter. unfold keep in Hk. destruct (IsPublicAddr a), (isUDP a), (isIP6 a); simpl in Hk; auto.
    rewrite !andb_false_r in Hk. done.
  - intros Hro. rewrite Hro in *. assert (u = udp d /\ v = ipv6 d) as [-> ->].
    { unfold consult, getFilterState in Eu, Ev. destruct (udp d), (ipv6 d), hu, hv; by simplify_eq. }
    split; [destruct d; simpl in *; by subst|]. intros a f Ha Hp Hu Hf Hst. apply list_elem_of_filter. split; [|done].
    assert (hu = true) as Hhu by (apply existsb_exists; exists a; split; [by apply list_elem_of_In|by rewrite Hp, Hu]).
    rewrite Hf, Hhu in Eu. simpl in Eu. rewrite decide_False in Eu by done. injection Eu as <-.
    assert (vr <> Probing) as Hv.
    { unfold consult, getFilterState in Ev. destruct (ipv6 d), hv; simplify_eq; try done. by destruct (decide _). }
    unfold keep. rewrite Hp, Hu. simpl. destruct vr; done || by destruct (isIP6 a).
Qed.
End detector_facts.

(** After 100 failed dials only one dial in 100 is tried; one success is enough to try all
    again. *)
Example blocked_then_probed :
  let b := run default_counter (repeat (Result false) 100) in
  state b = Blocked /\ length (filter (fun r => r = Probing) (answers 200 b)) = 2%nat /\ state (step b (Result true)) = Probing.
Proof. by vm_compute. Qed.
End BlackHole.

Module Backoff.

Definition BackoffBase : Z := 5 * second.
Definition BackoffCoef : Z := second.
Definition BackoffMax : Z := 5 * minute.

Record backoffAddr := { tries : Z; until : Z }.

(** [min(BackoffBase+BackoffCoef*time.Duration(tries*tries), BackoffMax)] on 64 bits. *)
Definition backoffTime (tries : Z) : Z :=
  Z.min (wraps 64 (BackoffBase + wraps 64 (BackoffCoef * wraps 64 (tries * tries)))) BackoffMax.

Section backoff.
Context {Maddr : Type} `{Countable Maddr} `{MapRange}.

Notation entries := (gmap string (gmap Maddr backoffAddr)).

Definition lookup_backoff (p : string) (a : Maddr) (e : entries) : option backoffAddr := m ← e !! p; m !! a.

Definition Backoff (now : Z) (p : string) (a : Maddr) (e : entries) : bool :=
  match lookup_backoff p a e with Some ap => time_before now (until ap) | None => false end.

Definition BackoffRemaining (now : Z) (p : string) (a : Maddr) (e : entries) : Z :=
  match lookup_backoff p a e with
  | Some ap => let rem := time_sub (until ap) now in if rem <? 0 then 0 else rem
  | None => 0
  end.

Definition AddBackoff (now : Z) (p : string) (a : Maddr) (e : entries) : entries :=
  let bp := default ∅ (e !! p) in
  let ba := match bp !! a with
            | None => {| tries := 1; until := now + BackoffBase |}
            | Some ba => {| tries := wraps 64 (tries ba + 1); until := now + backoffTime (tries ba) |}
            end in
  <[p := <[a := ba]> bp]> e.

Definition Clear (p : string) (e : entries) : entries := delete p e.

(** A peer is kept while one of its addresses would still be held back as long again. *)
Definition good (now : Z) (m : gmap Maddr backoffAddr) : bool :=
  existsb (fun b => time_before now (until b.2 + backoffTime (tries b.2))) (range_map 0 m).

Definition cleanup (now : Z) (e : entries) : entries :=
  foldl (fun e' '(p, m) => if good now m then e' else delete p e') e (range_map 1 e).

(** ** Dialling through it (swarm_dial.go) *)

Definition dialNextAddr (now : Z) (forceDirect : bool) (p : string) (a : Maddr) (e : entries) : option string :=
  if negb forceDirect && Backoff now p a e then Some "dial backoff" else None.

(** [good] are the addresses after resolving and filtering, [nonProxyAddr] those that no
    relay is needed for. *)
Definition addrsForDial (select : list Maddr -> list Maddr) (nonProxyAddr : Maddr -> bool) (forceDirect : bool)
  (peerAddrs : list Maddr) : res (list Maddr) :=
  match peerAddrs with
  | [] => Fail "no addresses"
  | _ =>
    let goodAddrs := select peerAddrs in
    match (if forceDirect then filter (fun a => nonProxyAddr a = true) goodAddrs else goodAddrs) with
    | [] => Fail "no good addresses"
    | l => Ok l
    end
  end.

(** ** Around it (src/p2put/user_protocols.go) *)

Definition swarmBackoffRemaining (now : Z) (p : string) (addrs : list Maddr) (e : entries) : Z :=
  foldl (fun maxRem a => let rem := BackoffRemaining now p a e in if maxRem <? rem then rem else maxRem) 0 addrs.

(** Whether the context asks for a direct dial, before and after. *)
Definition withBackoffBypass (now : Z) (connected forceDirect : bool) (p : string) (addrs : list Maddr) (e : entries) : bool :=
  if connected then forceDirect
  else if 0 <? swarmBackoffRemaining now p addrs e then true
  else forceDirect.

(** ** Histories *)

Inductive op := Failed (now : Z) (p : string) (a : Maddr) | Connected (p : string) | Tick (now : Z).

Definition step (e : entries) (o : op) : entries :=
  match o with Failed now p a => AddBackoff now p a e | Connected p => Clear p e | Tick now => cleanup now e end.

Definition run (l : list op) : entries := foldl step ∅ l.

Definition time_of (o : op) : option Z := match o with Failed now _ _ | Tick now => Some now | Connected _ => None end.

Lemma backoffTime_max tries : backoffTime tries <= BackoffMax.
Proof. unfold backoffTime. lia. Qed.

(** The quadratic formula holds as long as a node fails less than 96 thousand times. *)
Lemma backoffTime_quadratic tries : 0 <= tries <= 96000 -> backoffTime tries = Z.min (BackoffBase + BackoffCoef * tries ^ 2) BackoffMax.
Proof.
  intros Ht. unfold backoffTime, BackoffBase, BackoffCoef, second.
  assert (0 <= tries * tries <= 96000 * 96000) by nia. rewrite Z.pow_2_r.
  rewrite (wraps_small 64 (tries * tries)) by lia. rewrite (wraps_small 64 (1000000000 * (tries * tries))) by lia.
  by rewrite wraps_small by lia.
Qed.

Lemma backoffTime_bounds tries : 0 <= tries <= 96000 -> BackoffBase <= backoffTime tries <= BackoffMax.
Proof.
  intros Ht. rewrite backoffTime_quadratic by done. unfold BackoffBase, BackoffCoef, BackoffMax, minute, second.
  assert (0 <= tries ^ 2) by (apply Z.pow_nonneg; lia). lia.
Qed.

Lemma lookup_AddBackoff now p a e p' a' :
  lookup_backoff p' a' (AddBackoff now p a e) =
  if decide (p' = p /\ a' = a)
  then Some (match lookup_backoff p a e with
             | None => {| tries := 1; until := now + BackoffBase |}
             | Some ba => {| tries := wraps 64 (tries ba + 1); until := now + backoffTime (tries ba) |}
             end)
  else lookup_backoff p' a' e.
Proof.
  unfold lookup_backoff, AddBackoff. destruct (decide (p' = p)) as [->|Hp].
  - rewrite lookup_insert_eq. simpl. destruct (decide (a' = a)) as [->|Ha].
    + rewrite lookup_insert_eq, decide_True by done. destruct (e !! p) as [m|]; simpl; [done|by rewrite lookup_empty].
    + rewrite lookup_insert_ne, decide_False by (done || naive_solver). destruct (e !! p) as [m|]; simpl; [done|by rewrite lookup_empty].
  - by rewrite lookup_insert_ne, decide_False by (done || naive_solver).
Qed.

Lemma lookup_cleanup now e p a x : lookup_backoff p a (cleanup now e) = Some x -> lookup_backoff p a e = Some x.
Proof.
  unfold cleanup. assert (forall (l : list (string * gmap Maddr backoffAddr)) (e' : entries), (forall q m, e' !! q = Some m -> e !! q = Some m) ->
    forall q m, foldl (fun e' '(p, m) => if good now m then e' else delete p e') e' l !! q = Some m -> e !! q = Some m) as Hl.
  { induction l as [|[q0 m0] l IH]; intros e' He; [done|]. simpl. apply IH. destruct (good now m0); [done|]. intros q m [_ ?]%lookup_delete_Some. auto. }
  unfold lookup_backoff. destruct (foldl _ e _ !! p) as [m|] eqn:E; [|done]. simpl. intros Em. by rewrite (Hl _ e (fun _ _ H => H) p m E).
Qed.

(** Five minutes after the last failure nothing is held back. *)
Theorem backoff_expires l T p a : (forall o t, o ∈ l -> time_of o = Some t -> t <= T) ->
  forall now, T + BackoffMax <= now -> Backoff now p a (run l) = false.
Proof.
  intros Hl now Hnow. unfold Backoff. destruct (lookup_backoff p a (run l)) as [x|] eqn:E; [|done].
  enough (until x <= T + BackoffMax) by (unfold time_before; apply Z.ltb_ge; lia).
  unfold run in E. assert (forall q b y, lookup_backoff q b (∅ : entries) = Some y -> until y <= T + BackoffMax) as Hbase by done.
  revert Hbase E. generalize (∅ : entries) as e. induction l as [|o l IH]; intros e He E; [by apply (He p a)|]. simpl in E.
  apply (IH (fun o' t Ho' => Hl o' t (proj2 (elem_of_cons _ _ _) (or_intror Ho'))) (step e o)); [|done]. clear E. intros q b y.
  destruct o as [t q0 b0|q0|t]; simpl.
  - assert (t <= T) as Ht by (apply (Hl (Failed t q0 b0)); [apply elem_of_cons; by left|done]). rewrite lookup_AddBackoff.
    destruct (decide _); [|apply He]. intros [= <-]. destruct (lookup_backoff q0 b0 e) as [z|]; simpl.
    + pose proof (backoffTime_max (tries z)). lia.
    + unfold BackoffBase, BackoffMax, minute, second. lia.
  - unfold Clear, lookup_backoff. destruct (decide (q = q0)) as [->|]; [by rewrite lookup_delete_eq|rewrite lookup_delete_ne by done; apply He].
  - intros Ey%lookup_cleanup. by apply (He q b).
Qed.

Lemma remaining_backoff now p a e : 0 < BackoffRemaining now p a e <-> Backoff now p a e = true.
Proof.
  unfold BackoffRemaining, Backoff, time_before, time_sub. destruct (lookup_backoff p a e) as [x|]; [|split; [lia|done]].
  rewrite Z.ltb_lt. unfold min_int64, max_int64. destruct (Z.ltb_spec (Z.max (- 2 ^ 63) (Z.min (2 ^ 63 - 1) (until x - now))) 0); lia.
Qed.

Lemma swarm_remaining now p addrs e : 0 < swarmBackoffRemaining now p addrs e <-> exists a, a ∈ addrs /\ Backoff now p a e = true.
Proof.
  unfold swarmBackoffRemaining. assert (forall r0, 0 <= r0 ->
    0 < foldl (fun maxRem a => let rem := BackoffRemaining now p a e in if maxRem <? rem then rem else maxRem) r0 addrs <->
    0 < r0 \/ exists a, a ∈ addrs /\ Backoff now p a e = true) as Hr; [|rewrite Hr by lia; split; [intros [?|?]; [lia|done]|by right]].
  induction addrs as [|a l IH]; intros r0 Hr0; cbn [foldl].
  - split; [by left|]. intros [?|(a & Ha & _)]; [done|by apply elem_of_nil in Ha].
  - rewrite IH by (destruct (Z.ltb_spec r0 (BackoffRemaining now p a e)); lia). pose proof (remaining_backoff now p a e) as Hb. setoid_rewrite elem_of_cons.
    destruct (Z.ltb_spec r0 (BackoffRemaining now p a e)); split.
    + intros [Hx|(b & Hin & Hx)]; [right; exists a; split; [by left|by apply Hb]|right; exists b; auto].
    + intros [Hx|(b & [->|Hin] & Hx)]; [left; lia|left; by apply Hb|right; by exists b].
    + intros [Hx|(b & Hin & Hx)]; [by left|right; exists b; auto].
    + intros [Hx|(b & [->|Hin] & Hx)]; [by left|left; apply Hb in Hx; lia|right; by exists b].
Qed.

(** The bypass forces a direct dial exactly of peers that are not connected and have an
    address that is held back; then no address of theirs is refused for its failures, but
    the addresses that need a relay are no longer dialled: of a peer with no others nothing
    is left. *)
Theorem bypass_exact now connected p addrs e :
  let force := withBackoffBypass now connected false p addrs e in
  (force = true <-> connected = false /\ exists a, a ∈ addrs /\ Backoff now p a e = true) /\
  (connected = false -> forall a, a ∈ addrs -> dialNextAddr now force p a e = None) /\
  (force = true -> forall select nonProxyAddr, (forall a, a ∈ select addrs -> nonProxyAddr a = false) ->
     exists err, addrsForDial select nonProxyAddr force addrs = Fail err).
Proof.
  cbv zeta. pose proof (swarm_remaining now p addrs e) as Hs. unfold withBackoffBypass.
  assert ((if connected then false else if 0 <? swarmBackoffRemaining now p addrs e then true else false) = true <->
    connected = false /\ exists a, a ∈ addrs /\ Backoff now p a e = true) as Hf.
  { rewrite <-Hs. destruct connected; [split; [done|by intros [? _]]|]. destruct (Z.ltb_spec 0 (swarmBackoffRemaining now p addrs e)); split; auto; intros; try done; lia. }
  split_and!; [done| |].
  - intros -> a Ha. unfold dialNextAddr. destruct (Backoff now p a e) eqn:Eb; [|by rewrite andb_false_r].
    assert (0 < swarmBackoffRemaining now p addrs e) as Hpos by (apply Hs; by exists a). by rewrite (proj2 (Z.ltb_lt _ _) Hpos).
  - intros -> select np Hnp. unfold addrsForDial. destruct addrs as [|a0 l]; [by eexists|].
    destruct (filter (fun a => np a = true) (select (a0 :: l))) as [|b r] eqn:Ef; [by eexists|]. exfalso.
    assert (b ∈ filter (fun a => np a = true) (select (a0 :: l))) as [Hb Hin]%list_elem_of_filter by (rewrite Ef; apply elem_of_cons; by left).
    by rewrite Hnp in Hb.
Qed.
End backoff.

(** After so many failures the square overflows and there is no backoff at all. *)
Theorem backoff_overflows : backoffTime 96039 < 0.
Proof. by vm_compute. Qed.

#[local] Existing Instance map_to_list_range.

Lemma backoff_expires_witness :
  let l := [Failed 10 "p" "a"; Failed 20 "p" "a"; Tick 30] in
  (forall o t, o ∈ l -> time_of o = Some t -> t <= 30) /\ Backoff (30 + BackoffMax) "p" "a" (run l) = false /\ Backoff 40 "p" "a" (run l) = true.
Proof.
  intros l. assert (forall o t, o ∈ l -> time_of o = Some t -> t <= 30) as Hl.
  { intros o t Ho Ht. unfold l in Ho. repeat (apply elem_of_cons in Ho as [->|Ho]; [simpl in Ht; simplify_eq; lia|]). by apply elem_of_nil in Ho. }
  split; [exact Hl|]. split; [apply (backoff_expires l 30 "p" "a" Hl); lia|by vm_compute].
Defined.
End Backoff.

Module Sync.

(** [activeDial], whose name is the number of its worker. *)
Record activeDial := { refCnt : Z; worker : nat }.

Record dialSync := {
  dials : gmap string activeDial;
  spawned : list string;             (* the peers of the workers, in the order of their names *)
  closed : list nat;                 (* the workers whose request channel is closed *)
  callers : list (string * nat)      (* the calls of [Dial] that wait, with the dial they hold *)
}.

Definition newDialSync : dialSync := {| dials := ∅; spawned := []; closed := []; callers := [] |}.

Definition getActiveDial (p : string) (ds : dialSync) : dialSync :=
  match dials ds !! p with
  | Some ad => {| dials := <[p := {| refCnt := refCnt ad + 1; worker := worker ad |}]> (dials ds); spawned := spawned ds;
                  closed := closed ds; callers := callers ds ++ [(p, worker ad)] |}
  | None => let w := length (spawned ds) in
            {| dials := <[p := {| refCnt := 1; worker := w |}]> (dials ds); spawned := spawned ds ++ [p];
               closed := closed ds; callers := callers ds ++ [(p, w)] |}
  end.

(** The caller at place [i] has its answer.  The dial it holds is the one of the table. *)
Definition finishDial (i : nat) (ds : dialSync) : dialSync :=
  match callers ds !! i with
  | None => ds
  | Some (p, w) =>
    match dials ds !! p with
    | None => ds
    | Some ad =>
      if refCnt ad - 1 =? 0 then
        {| dials := delete p (dials ds); spawned := spawned ds; closed := closed ds ++ [w]; callers := delete i (callers ds) |}
      else {| dials := <[p := {| refCnt := refCnt ad - 1; worker := worker ad |}]> (dials ds); spawned := spawned ds;
              closed := closed ds; callers := delete i (callers ds) |}
    end
  end.

Inductive op := Dial (p : string) | Return (i : nat).

Definition step (ds : dialSync) (o : op) : dialSync :=
  match o with Dial p => getActiveDial p ds | Return i => finishDial i ds end.

Definition run (l : list op) : dialSync := foldl step newDialSync l.

Definition waiting (p : string) (ds : dialSync) : Z := zlen (filter (fun c => c.1 = p) (callers ds)).

Record ok (ds : dialSync) : Prop := {
  ok_ref : forall p, match dials ds !! p with Some ad => refCnt ad = waiting p ds | None => waiting p ds = 0 end;
  ok_pos : forall p ad, dials ds !! p = Some ad -> 0 < refCnt ad;
  ok_held : forall p w, (p, w) ∈ callers ds -> exists ad, dials ds !! p = Some ad /\ worker ad = w;
  ok_worker : forall p ad, dials ds !! p = Some ad -> spawned ds !! worker ad = Some p;
  ok_closed : NoDup (closed ds) /\ forall w p, spawned ds !! w = Some p -> (w ∈ closed ds <-> ~ exists ad, dials ds !! p = Some ad /\ worker ad = w);
  ok_spawned : forall w, w ∈ closed ds -> (w < length (spawned ds))%nat
}.

Lemma waiting_app p c l ds : callers ds = l ++ [c] -> waiting p ds = zlen (filter (fun c => c.1 = p) l) + (if decide (c.1 = p) then 1 else 0).
Proof. unfold waiting. intros ->. rewrite filter_app, zlen_app, filter_cons. by destruct (decide _). Qed.

Lemma waiting_delete p i c l : l !! i = Some c ->
  zlen (filter (fun c : string * nat => c.1 = p) l) = zlen (filter (fun c => c.1 = p) (delete i l)) + (if decide (c.1 = p) then 1 else 0).
Proof.
  intros E. unfold zlen. rewrite (delete_Permutation _ _ _ E) at 1. rewrite filter_cons. destruct (decide _); simpl; lia.
Qed.

Lemma getActiveDial_ok p ds : ok ds -> ok (getActiveDial p ds).
Proof.
  intros [Hr Hp Hh Hw [Hnd Hc] Hs]. unfold getActiveDial. destruct (dials ds !! p) as [ad|] eqn:E.
  - pose proof (Hr p) as Hrp. rewrite E in Hrp. split; simpl.
    + intros q. rewrite (waiting_app q (p, worker ad) (callers ds)) by done. simpl. fold (waiting q ds). destruct (decide (p = q)) as [<-|Hq].
      * rewrite lookup_insert_eq. simpl. lia.
      * rewrite lookup_insert_ne by done. pose proof (Hr q). destruct (dials ds !! q); lia.
    + intros q ad' [[<- <-]|[_ Eq]]%lookup_insert_Some; [simpl; pose proof (Hp p ad E); lia|by apply (Hp q)].
    + intros q w Hin. apply elem_of_app in Hin as [Hin|Hin].
      * destruct (Hh q w Hin) as (ad' & Ea & Ew). destruct (decide (p = q)) as [<-|Hq]; [|exists ad'; by rewrite lookup_insert_ne].
        rewrite lookup_insert_eq. eexists. split; [done|]. simpl. congruence.
      * apply list_elem_of_singleton in Hin as [= -> ->]. rewrite lookup_insert_eq. by eexists.
    + intros q ad' [[<- <-]|[_ Eq]]%lookup_insert_Some; [exact (Hw p ad E)|exact (Hw q ad' Eq)].
    + split; [done|]. intros w q Hq. rewrite (Hc w q Hq). apply not_iff_compat. destruct (decide (p = q)) as [<-|Hne].
      * rewrite lookup_insert_eq, E. split; intros (x & [= <-] & Hx); by eexists.
      * by rewrite lookup_insert_ne.
    + done.
  - pose proof (Hr p) as Hrp. rewrite E in Hrp. set (w0 := length (spawned ds)). split; simpl.
    + intros q. rewrite (waiting_app q (p, w0) (callers ds)) by done. simpl. fold (waiting q ds). destruct (decide (p = q)) as [<-|Hq].
      * rewrite lookup_insert_eq. simpl. lia.
      * rewrite lookup_insert_ne by done. pose proof (Hr q). destruct (dials ds !! q); lia.
    + intros q ad' [[<- <-]|[_ Eq]]%lookup_insert_Some; [simpl; lia|by apply (Hp q)].
    + intros q w Hin. apply elem_of_app in Hin as [Hin|Hin].
      * destruct (Hh q w Hin) as (ad' & Ea & Ew). exists ad'. rewrite lookup_insert_ne; [done|]. intros <-. congruence.
      * apply list_elem_of_singleton in Hin as [= -> ->]. rewrite lookup_insert_eq. by eexists.
    + intros q ad' [[<- <-]|[_ Eq]]%lookup_insert_Some; simpl; [by apply list_lookup_middle|]. apply lookup_app_l_Some. by apply Hw.
    + split; [done|]. intros w q [Hq|[Hl Hq]]%lookup_app_Some.
      * pose proof (lookup_lt_Some _ _ _ Hq). rewrite (Hc w q Hq). apply not_iff_compat. destruct (decide (p = q)) as [<-|Hne].
        -- rewrite lookup_insert_eq, E. split; [by intros (x & ? & _)|]. intros (x & [= <-] & Hx). simpl in Hx. lia.
        -- by rewrite lookup_insert_ne.
      * apply list_lookup_singleton_Some in Hq as [Hw0 ->]. split.
        -- intros Hin%Hs. lia.
        -- intros Hn. exfalso. apply Hn. rewrite lookup_insert_eq. eexists. split; [done|]. simpl. lia.
    + intros w Hin%Hs. rewrite length_app. lia.
Qed.

Lemma finishDial_ok i ds : ok ds -> ok (finishDial i ds).
Proof.
  intros Hok. pose proof Hok as [Hr Hp Hh Hw [Hnd Hc] Hs]. unfold finishDial. destruct (callers ds !! i) as [[p w]|] eqn:Ei; [|done].
  destruct (Hh p w) as (ad & E & Ew); [by eapply list_elem_of_lookup_2|]. rewrite E. pose proof (Hr p) as Hrp. rewrite E in Hrp. pose proof (Hp p ad E) as Hpos.
  assert (forall q, waiting q ds = zlen (filter (fun c => c.1 = q) (delete i (callers ds))) + (if decide (p = q) then 1 else 0)) as Hwq.
  { intros q. unfold waiting. by rewrite (waiting_delete q i _ _ Ei). }
  destruct (Z.eqb_spec (refCnt ad - 1) 0) as [Hz|Hz].
  - assert (forall q v, (q, v) ∈ delete i (callers ds) -> q <> p) as Hnone.
    { intros q v Hin ->. pose proof (Hwq p) as H1. rewrite decide_True in H1 by done.
      assert (0 < zlen (filter (fun c : string * nat => c.1 = p) (delete i (callers ds)))); [|lia].
      destruct (filter (fun c : string * nat => c.1 = p) (delete i (callers ds))) eqn:Ef; [|unfold zlen; simpl; lia].
      assert ((p, v) ∈ filter (fun c : string * nat => c.1 = p) (delete i (callers ds))) as Hx by by apply list_elem_of_filter.
      rewrite Ef in Hx. by apply elem_of_nil in Hx. }
    split; simpl.
    + intros q. pose proof (Hwq q) as H1. pose proof (Hr q) as H2. unfold waiting; simpl. fold (waiting q ds) in H1. destruct (decide (p = q)) as [<-|Hq].
      * rewrite lookup_delete_eq. lia.
      * rewrite lookup_delete_ne by done. destruct (dials ds !! q); lia.
    + intros q ad' [_ Eq]%lookup_delete_Some. by apply (Hp q).
    + intros q v Hin. pose proof (Hnone q v Hin) as Hq. rewrite lookup_delete_ne by done. apply Hh. eapply elem_of_submseteq; [exact Hin|].
      apply submseteq_delete.
    + intros q ad' [_ Eq]%lookup_delete_Some. by apply Hw.
    + pose proof (Hw p ad E) as Hsp. rewrite Ew in Hsp. split.
      * apply NoDup_app. split_and!; [done| |apply NoDup_singleton]. intros v Hv Hin%list_elem_of_singleton. subst v.
        apply (Hc w p Hsp) in Hv. apply Hv. by exists ad.
      * intros v q Hq. rewrite elem_of_app, (Hc v q Hq), list_elem_of_singleton. destruct (decide (p = q)) as [<-|Hne].
        -- rewrite lookup_delete_eq, E. split; [by intros _ (x & ? & _)|]. intros _. destruct (decide (v = w)) as [->|Hv]; [by right|left].
           intros (x & [= <-] & Hx). congruence.
        -- rewrite lookup_delete_ne by done. split; [|auto]. intros [Hx| ->]; [done|]. congruence.
    + intros v [Hin|Hin]%elem_of_app; [by apply Hs|]. apply list_elem_of_singleton in Hin as ->. pose proof (Hw p ad E) as Hsp. rewrite Ew in Hsp. by apply lookup_lt_Some in Hsp.
  - split; simpl.
    + intros q. pose proof (Hwq q) as H1. pose proof (Hr q) as H2. unfold waiting; simpl. destruct (decide (p = q)) as [<-|Hq].
      * rewrite lookup_insert_eq. simpl. lia.
      * rewrite lookup_insert_ne by done. destruct (dials ds !! q); lia.
    + intros q ad' [[<- <-]|[_ Eq]]%lookup_insert_Some; [simpl; lia|by apply (Hp q)].
    + intros q v Hin. destruct (Hh q v) as (ad' & Ea & Ev); [eapply elem_of_submseteq; [exact Hin|apply submseteq_delete]|].
      destruct (decide (p = q)) as [<-|Hq]; [|exists ad'; by rewrite lookup_insert_ne]. rewrite lookup_insert_eq. eexists. split; [done|]. simpl. congruence.
    + intros q ad' [[<- <-]|[_ Eq]]%lookup_insert_Some; [exact (Hw p ad E)|exact (Hw q ad' Eq)].
    + split; [done|]. intros v q Hq. rewrite (Hc v q Hq). apply not_iff_compat. destruct (decide (p = q)) as [<-|Hne].
      * rewrite lookup_insert_eq, E. split; intros (x & [= <-] & Hx); by eexists.
      * by rewrite lookup_insert_ne.
    + done.
Qed.

Lemma sync_run_ok l : ok (run l).
Proof.
  unfold run. assert (ok newDialSync) as H0.
  { split; simpl; try done; [|split; [constructor|done]|]; intros *; try (intros Hx; by apply elem_of_nil in Hx). }
  revert H0. generalize newDialSync as ds. induction l as [|o l IH]; intros ds Hok; [done|]. simpl. apply IH.
  destruct o; [by apply getActiveDial_ok|by apply finishDial_ok].
Qed.

(** A peer is dialled by one worker at a time: those whose calls wait for it share its
    worker, which is not closed before the last of them has its answer, and is closed then. *)
Theorem one_worker_per_peer l :
  let ds := run l in
  (forall w w' p, spawned ds !! w = Some p -> spawned ds !! w' = Some p -> w ∉ closed ds -> w' ∉ closed ds -> w = w') /\
  (forall p w, (p, w) ∈ callers ds -> spawned ds !! w = Some p /\ w ∉ closed ds) /\
  (forall w p, spawned ds !! w = Some p -> w ∉ closed ds -> exists v, (p, v) ∈ callers ds) /\
  NoDup (closed ds).
Proof.
  cbv zeta. destruct (sync_run_ok l) as [Hr Hp Hh Hw [Hnd Hc] Hs]. set (ds := run l) in *.
  assert (forall w p, spawned ds !! w = Some p -> w ∉ closed ds -> exists ad, dials ds !! p = Some ad /\ worker ad = w) as Hopen.
  { intros w p Hsp Hn. destruct (dials ds !! p) as [ad|] eqn:E.
    - destruct (decide (worker ad = w)) as [Ew|Ew]; [by exists ad|]. exfalso. apply Hn, (Hc w p Hsp). intros (x & Ex & Hx). congruence.
    - exfalso. apply Hn, (Hc w p Hsp). intros (x & Ex & _). congruence. }
  split_and!; [| | |done].
  - intros w w' p H1 H2 H3 H4. destruct (Hopen w p H1 H3) as (a & Ea & Ha), (Hopen w' p H2 H4) as (b & Eb & Hb). congruence.
  - intros p w Hin. destruct (Hh p w Hin) as (ad & E & Ew). pose proof (Hw p ad E) as Hsp. rewrite Ew in Hsp. split; [done|].
    intros Hcl. apply (Hc w p Hsp) in Hcl. apply Hcl. by exists ad.
  - intros w p Hsp Hn. destruct (Hopen w p Hsp Hn) as (ad & E & _). pose proof (Hr p) as H1. rewrite E in H1. pose proof (Hp p ad E).
    unfold waiting in H1. destruct (filter (fun c => c.1 = p) (callers ds)) as [|[q v] r] eqn:Ef; [unfold zlen in H1; simpl in H1; lia|].
    assert ((q, v) ∈ filter (fun c => c.1 = p) (callers ds)) as [Hq Hin]%list_elem_of_filter by (rewrite Ef; apply elem_of_cons; by left).
    simpl in Hq. subst q. by exists v.
Qed.
End Sync.
