(* ===== verification/DialWorker.v ===== *)
(** * The worker that dials a peer

    src/myvendor/go-libp2p/p2p/net/swarm/dial_worker.go: the loop that takes requests for a
    connection to a peer, dials the addresses of the peer in the order of their ranking, and
    answers the requests.  A turn of the loop is one of [onRequest], [onTimer], [onResult];
    [reach] is any sequence of them that the channels allow.  What the swarm answers (the
    addresses to dial, the best connection, whether a dial is held back) is an argument of
    the turn; the dials that are under way are the list [flying]. *)

From Stdlib Require Import Sorting.Sorted.
From S2P Require Import Prelude GoLib DialRank.

Section worker.
Context {Maddr : Type} `{Countable Maddr} {Conn : Type} `{MapRange}.

Definition ErrDialBackoff : string := "dial backoff".
Definition ErrAllDialsFailed : string := "all dials failed".
Definition ErrDialRefusedBlackHole : string := "dial refused because of black hole".
Definition Canceled : string := "context canceled".
Definition maxDialDialErrors : nat := 16.

(** [network.AddrDelay] *)
Notation AddrDelay := (Maddr * Z)%type.

(** A request is named by a number; [err] is its [DialErrors] and [Skipped]. *)
Record pendRequest := { addrs : gset Maddr; DialErrors : list (Maddr * string); Skipped : Z }.

Record addrDial := {
  conn : option Conn;
  err : option string;
  dialed : bool;
  sim : bool;                              (* the context asks for a simultaneous connect *)
  expectedTCPUpgradeTime : option Z
}.

Inductive dialResponse :=
  | RConn (c : Conn)
  | RErr (cause : string) (errs : list (Maddr * string)) (skipped : Z).

Record worker := {
  pendingRequests : gmap nat pendRequest;
  trackedDials : gmap Maddr addrDial;
  dq : list AddrDelay;
  dialsInFlight : Z;
  connected : bool;
  timer : option Z;                        (* [timerRunning], and the time it is set to *)
  responses : list (nat * dialResponse);
  flying : list Maddr;
  started : list Maddr;
  backoffs : list Maddr                    (* the calls of [AddBackoff] *)
}.

Definition newDialWorker (startTime : Z) : worker := {|
  pendingRequests := ∅; trackedDials := ∅; dq := []; dialsInFlight := 0; connected := false;
  timer := Some (startTime + max_int64); responses := []; flying := []; started := []; backoffs := [] |}.

Definition set_pending (m : gmap nat pendRequest) (w : worker) : worker := {|
  pendingRequests := m; trackedDials := trackedDials w; dq := dq w; dialsInFlight := dialsInFlight w; connected := connected w;
  timer := timer w; responses := responses w; flying := flying w; started := started w; backoffs := backoffs w |}.
Definition set_tracked (m : gmap Maddr addrDial) (w : worker) : worker := {|
  pendingRequests := pendingRequests w; trackedDials := m; dq := dq w; dialsInFlight := dialsInFlight w; connected := connected w;
  timer := timer w; responses := responses w; flying := flying w; started := started w; backoffs := backoffs w |}.
Definition set_dq (q : list AddrDelay) (w : worker) : worker := {|
  pendingRequests := pendingRequests w; trackedDials := trackedDials w; dq := q; dialsInFlight := dialsInFlight w; connected := connected w;
  timer := timer w; responses := responses w; flying := flying w; started := started w; backoffs := backoffs w |}.
Definition set_connected (b : bool) (w : worker) : worker := {|
  pendingRequests := pendingRequests w; trackedDials := trackedDials w; dq := dq w; dialsInFlight := dialsInFlight w; connected := b;
  timer := timer w; responses := responses w; flying := flying w; started := started w; backoffs := backoffs w |}.
Definition set_timer (t : option Z) (w : worker) : worker := {|
  pendingRequests := pendingRequests w; trackedDials := trackedDials w; dq := dq w; dialsInFlight := dialsInFlight w; connected := connected w;
  timer := t; responses := responses w; flying := flying w; started := started w; backoffs := backoffs w |}.
Definition add_backoff (a : Maddr) (w : worker) : worker := {|
  pendingRequests := pendingRequests w; trackedDials := trackedDials w; dq := dq w; dialsInFlight := dialsInFlight w; connected := connected w;
  timer := timer w; responses := responses w; flying := flying w; started := started w; backoffs := backoffs w ++ [a] |}.

(** [req.resch <- r] *)
Definition respond (id : nat) (r : dialResponse) (w : worker) : worker := {|
  pendingRequests := pendingRequests w; trackedDials := trackedDials w; dq := dq w; dialsInFlight := dialsInFlight w; connected := connected w;
  timer := timer w; responses := responses w ++ [(id, r)]; flying := flying w; started := started w; backoffs := backoffs w |}.

(** A dial has begun, one has ended. *)
Definition takeOff (a : Maddr) (w : worker) : worker := {|
  pendingRequests := pendingRequests w; trackedDials := trackedDials w; dq := dq w; dialsInFlight := dialsInFlight w + 1; connected := connected w;
  timer := timer w; responses := responses w; flying := flying w ++ [a]; started := started w ++ [a]; backoffs := backoffs w |}.
Definition land (a : Maddr) (w : worker) : worker := {|
  pendingRequests := pendingRequests w; trackedDials := trackedDials w; dq := dq w; dialsInFlight := dialsInFlight w - 1; connected := connected w;
  timer := timer w; responses := responses w; flying := filter (fun b => b <> a) (flying w); started := started w; backoffs := backoffs w |}.

Definition new_dial (s : bool) : addrDial := {| conn := None; err := None; dialed := false; sim := s; expectedTCPUpgradeTime := None |}.
Definition set_err (e : string) (ad : addrDial) : addrDial :=
  {| conn := conn ad; err := Some e; dialed := dialed ad; sim := sim ad; expectedTCPUpgradeTime := expectedTCPUpgradeTime ad |}.
Definition set_conn (c : Conn) (ad : addrDial) : addrDial :=
  {| conn := Some c; err := err ad; dialed := dialed ad; sim := sim ad; expectedTCPUpgradeTime := expectedTCPUpgradeTime ad |}.
Definition set_dialed (ad : addrDial) : addrDial :=
  {| conn := conn ad; err := err ad; dialed := true; sim := sim ad; expectedTCPUpgradeTime := expectedTCPUpgradeTime ad |}.
Definition set_sim (ad : addrDial) : addrDial :=
  {| conn := conn ad; err := err ad; dialed := dialed ad; sim := true; expectedTCPUpgradeTime := expectedTCPUpgradeTime ad |}.
Definition set_upgrade (t : option Z) (ad : addrDial) : addrDial :=
  {| conn := conn ad; err := err ad; dialed := dialed ad; sim := sim ad; expectedTCPUpgradeTime := t |}.

Definition track (f : addrDial -> addrDial) (a : Maddr) (w : worker) : worker := set_tracked (alter f a (trackedDials w)) w.

(** ** The queue *)

(** [Add] searches from the end, that is the list reversed. *)
Fixpoint addRev (x : AddrDelay) (r : list AddrDelay) : list AddrDelay :=
  match r with
  | [] => [x]
  | y :: r' => if y.2 <=? x.2 then x :: y :: r' else y :: addRev x r'
  end.

Definition Add (x : AddrDelay) (q : list AddrDelay) : list AddrDelay := reverse (addRev x (reverse q)).

(** The loop of [UpdateOrAdd]; after a removal the next element is passed over.  [true]: the
    element is there as it is. *)
Fixpoint updLoop (x : AddrDelay) (q : list AddrDelay) : bool * list AddrDelay :=
  match q with
  | [] => (false, [])
  | y :: r =>
    if decide (y.1 = x.1) then
      if y.2 =? x.2 then (true, q)
      else match r with
           | [] => (false, [])
           | z :: r' => let '(b, r'') := updLoop x r' in (b, z :: r'')
           end
    else let '(b, r'') := updLoop x r in (b, y :: r'')
  end.

Definition UpdateOrAdd (x : AddrDelay) (q : list AddrDelay) : list AddrDelay :=
  let '(same, q) := updLoop x q in if same then q else Add x q.

Fixpoint splitBatch (d : Z) (q : list AddrDelay) : list AddrDelay * list AddrDelay :=
  match q with
  | [] => ([], [])
  | y :: r => if y.2 =? d then let '(b, r') := splitBatch d r in (y :: b, r') else ([], q)
  end.

Definition NextBatch (q : list AddrDelay) : list AddrDelay * list AddrDelay :=
  match q with [] => ([], []) | x :: _ => splitBatch x.2 q end.

(** ** The parts of the loop *)

Definition latest (t : Z) (ad : addrDial) : Z :=
  match expectedTCPUpgradeTime ad with Some u => if time_after u t then u else t | None => t end.

Definition scheduleNextDial (startTime : Z) (w : worker) : worker :=
  match dq w with
  | [] => set_timer None w
  | top :: _ =>
    if (dialsInFlight w =? 0) && negb (connected w) then set_timer (Some startTime) w
    else set_timer (Some (foldl (fun t x => latest t x.2) (startTime + top.2) (range_map 0 (trackedDials w)))) w
  end.

(** dial_error.go *)
Definition recordErr (a : Maddr) (e : string) (pr : pendRequest) : pendRequest :=
  if (maxDialDialErrors <=? length (DialErrors pr))%nat
  then {| addrs := addrs pr; DialErrors := DialErrors pr; Skipped := Skipped pr + 1 |}
  else {| addrs := addrs pr; DialErrors := DialErrors pr ++ [(a, e)]; Skipped := Skipped pr |}.

Definition del_addr (a : Maddr) (pr : pendRequest) : pendRequest :=
  {| addrs := addrs pr ∖ {[a]}; DialErrors := DialErrors pr; Skipped := Skipped pr |}.

(** One turn of the loop of [dispatchError]; [best] is [bestAcceptableConnToPeer]. *)
Definition dispatchOne (best : nat -> option Conn) (a : Maddr) (e : string) (w : worker) (id : nat) : worker :=
  match pendingRequests w !! id with
  | None => w
  | Some pr =>
    if decide (a ∈ addrs pr) then
      let pr := del_addr a (recordErr a e pr) in
      if decide (addrs pr = ∅) then
        let w := set_pending (delete id (pendingRequests w)) w in
        match best id with
        | Some c => respond id (RConn c) w
        | None => respond id (RErr ErrAllDialsFailed (DialErrors pr) (Skipped pr)) w
        end
      else set_pending (<[id := pr]> (pendingRequests w)) w
    else w
  end.

Definition dispatchError (best : nat -> option Conn) (a : Maddr) (e : string) (w : worker) : worker :=
  let w := track (set_err e) a w in
  let w := foldl (dispatchOne best a e) w (range_map 1 (pendingRequests w)).*1 in
  if (e =? ErrDialBackoff)%string then set_tracked (delete a (trackedDials w)) w else w.

(** The addresses of a request by what is known of them: a connection ends the search. *)
Fixpoint sortOut (ranking : list AddrDelay) (tracked : gmap Maddr addrDial) (pr : pendRequest) (todial tojoin : list Maddr) :
  Conn + pendRequest * list Maddr * list Maddr :=
  match ranking with
  | [] => inr (pr, todial, tojoin)
  | x :: r =>
    match tracked !! x.1 with
    | None => sortOut r tracked pr (todial ++ [x.1]) tojoin
    | Some ad =>
      match conn ad with
      | Some c => inl c
      | None =>
        match err ad with
        | Some e => sortOut r tracked (del_addr x.1 (recordErr x.1 e pr)) todial tojoin
        | None => sortOut r tracked pr todial (tojoin ++ [x.1])
        end
      end
    end
  end.

(** A pending dial whose address is not dialled yet takes on the simultaneous connect of a
    request. *)
Definition joinOne (simConnect : bool) (addrDelay : gmap Maddr Z) (w : worker) (a : Maddr) : worker :=
  match trackedDials w !! a with
  | None => w
  | Some ad =>
    if dialed ad then w
    else if simConnect && negb (sim ad)
         then set_dq (UpdateOrAdd (a, default 0 (addrDelay !! a)) (dq w)) (track set_sim a w)
         else w
  end.

Definition trackOne (simConnect : bool) (addrDelay : gmap Maddr Z) (w : worker) (a : Maddr) : worker :=
  set_dq (Add (a, default 0 (addrDelay !! a)) (dq w)) (set_tracked (<[a := new_dial simConnect]> (trackedDials w)) w).

(** [case req := <-w.reqch]: [best] is [bestAcceptableConnToPeer], [found] the answer of
    [addrsForDial], [rank] is [rankAddrs]. *)
Definition onRequest (startTime : Z) (rank : bool -> list Maddr -> list AddrDelay) (id : nat) (simConnect : bool)
  (best : option Conn) (found : list Maddr * list (Maddr * string) + string * list (Maddr * string)) (w : worker) : worker :=
  match best with
  | Some c => respond id (RConn c) w
  | None =>
    match found with
    | inr (cause, addrErrs) => respond id (RErr cause addrErrs 0) w
    | inl (l, addrErrs) =>
      let ranking := rank simConnect l in
      let addrDelay := foldl (fun m x => <[x.1 := x.2]> m) ∅ ranking in
      let pr := {| addrs := list_to_set ranking.*1; DialErrors := addrErrs; Skipped := 0 |} in
      match sortOut ranking (trackedDials w) pr [] [] with
      | inl c => respond id (RConn c) w
      | inr (pr, [], []) => respond id (RErr ErrAllDialsFailed (DialErrors pr) (Skipped pr)) w
      | inr (pr, todial, tojoin) =>
        let w := set_pending (<[id := pr]> (pendingRequests w)) w in
        let w := foldl (joinOne simConnect addrDelay) w tojoin in
        let w := foldl (trackOne simConnect addrDelay) w todial in
        scheduleNextDial startTime w
      end
    end
  end.

(** [case <-dialTimer.Ch()], one address: [held] is the error of [dialNextAddr]. *)
Definition dialOne (held : Maddr -> option string) (best : nat -> option Conn) (w : worker) (a : Maddr) : worker :=
  match trackedDials w !! a with
  | None => w
  | Some _ =>
    let w := track set_dialed a w in
    match held a with
    | Some e => dispatchError best a e w
    | None => takeOff a w
    end
  end.

Definition onTimer (startTime : Z) (held : Maddr -> option string) (best : nat -> option Conn) (w : worker) : worker :=
  let '(batch, rest) := NextBatch (dq w) in
  scheduleNextDial startTime (foldl (dialOne held best) (set_dq rest w) batch.*1).

(** [tpt.DialUpdate]; [added] is the error of [addConn]. *)
Inductive update :=
  | Progressed (public : bool) (now : Z)
  | Success (c : Conn) (added : option string)
  | Failure (e : string).

Definition answerOne (a : Maddr) (c : Conn) (w : worker) (id : nat) : worker :=
  match pendingRequests w !! id with
  | Some pr => if decide (a ∈ addrs pr) then respond id (RConn c) (set_pending (delete id (pendingRequests w)) w) else w
  | None => w
  end.

(** [case res := <-w.resch] *)
Definition onResult (startTime : Z) (best : nat -> option Conn) (a : Maddr) (u : update) (w : worker) : worker :=
  match trackedDials w !! a with
  | None => land a w
  | Some _ =>
    match u with
    | Progressed public now =>
      let w := if public then track (set_upgrade (Some (now + PublicTCPDelay))) a w else w in
      scheduleNextDial startTime w
    | Success c (Some e) => dispatchError best a e (track (set_upgrade None) a (land a w))
    | Success c None =>
      let w := track (set_upgrade None) a (land a w) in
      let w := foldl (answerOne a c) w (range_map 2 (pendingRequests w)).*1 in
      set_connected true (track (set_conn c) a w)
    | Failure e =>
      let w := track (set_upgrade None) a (land a w) in
      let w := if negb (e =? ErrDialRefusedBlackHole)%string && negb (e =? Canceled)%string && negb (connected w)
               then add_backoff a w else w in
      scheduleNextDial startTime (dispatchError best a e w)
    end
  end.

(** ** The queue keeps its elements *)

Lemma addRev_perm x r : Permutation (addRev x r) (x :: r).
Proof. induction r as [|y r IH]; [done|]. simpl. destruct (y.2 <=? x.2); [done|]. rewrite IH. apply perm_swap. Qed.

Lemma Add_perm x q : Permutation (Add x q) (x :: q).
Proof. unfold Add. by rewrite reverse_Permutation, addRev_perm, reverse_Permutation. Qed.

Lemma updLoop_absent x q : x.1 ∉ q.*1 -> updLoop x q = (false, q).
Proof.
  induction q as [|y r IH]; intros Hx; [done|]. rewrite fmap_cons in Hx. apply not_elem_of_cons in Hx as [Hy Hx]. simpl.
  rewrite decide_False by congruence. by rewrite IH.
Qed.

(** An element of the queue is given its new delay. *)
Lemma updLoop_spec x q : NoDup q.*1 -> x.1 ∈ q.*1 ->
  match updLoop x q with (true, q') => q' = q | (false, q') => Permutation (x.1 :: q'.*1) q.*1 end.
Proof.
  induction q as [|y r IH]; intros Hn Hx; [by apply elem_of_nil in Hx|]. rewrite fmap_cons in Hn, Hx. apply NoDup_cons in Hn as [Hy Hn].
  cbn [updLoop]. destruct (decide (y.1 = x.1)) as [E|E].
  - destruct (y.2 =? x.2); [done|]. destruct r as [|z r']; [by rewrite fmap_cons, E|].
    rewrite updLoop_absent; [by rewrite !fmap_cons, E|]. rewrite <-E. rewrite fmap_cons in Hy. by apply not_elem_of_cons in Hy as [_ ?].
  - apply elem_of_cons in Hx as [Hx|Hx]; [congruence|]. specialize (IH Hn Hx). destruct (updLoop x r) as [[] r']; [by subst|].
    rewrite !fmap_cons, <-IH. apply perm_swap.
Qed.

Lemma UpdateOrAdd_perm x q : NoDup q.*1 -> x.1 ∈ q.*1 -> Permutation (UpdateOrAdd x q).*1 q.*1.
Proof.
  intros Hn Hx. unfold UpdateOrAdd. pose proof (updLoop_spec x q Hn Hx) as Hu. destruct (updLoop x q) as [[] q']; [by subst|].
  rewrite Add_perm, fmap_cons. done.
Qed.

Lemma splitBatch_app d q : (splitBatch d q).1 ++ (splitBatch d q).2 = q.
Proof.
  induction q as [|y r IH]; [done|]. simpl. destruct (y.2 =? d); [|done]. destruct (splitBatch d r) as [b r']. simpl in *. by rewrite IH.
Qed.

Lemma NextBatch_app q : (NextBatch q).1 ++ (NextBatch q).2 = q.
Proof. unfold NextBatch. destruct q; [done|]. apply splitBatch_app. Qed.

Lemma NextBatch_progress x q : (NextBatch (x :: q)).1 <> [].
Proof. unfold NextBatch. simpl. rewrite Z.eqb_refl. by destruct (splitBatch x.2 q). Qed.

(** ** The invariant

    [B] are the addresses of a batch that are still to be dialled, [X] is one whose dial has
    just ended or just begun. *)

Definition live (w : worker) (a : Maddr) : Prop := exists ad, trackedDials w !! a = Some ad /\ conn ad = None /\ err ad = None.
Definition asks (w : worker) (id : nat) : Prop := is_Some (pendingRequests w !! id) \/ id ∈ (responses w).*1.

Record ids_ok (w : worker) : Prop := {
  ids_addrs : forall id pr, pendingRequests w !! id = Some pr -> addrs pr <> ∅;
  ids_nodup : NoDup (responses w).*1;
  ids_disjoint : forall id, id ∈ (responses w).*1 -> pendingRequests w !! id = None
}.

Record inv (B : list Maddr) (X : option Maddr) (w : worker) : Prop := {
  i_q : NoDup (B ++ (dq w).*1);
  i_qt : forall a, a ∈ B ++ (dq w).*1 -> exists ad, trackedDials w !! a = Some ad /\ conn ad = None /\ err ad = None /\ dialed ad = false;
  i_f : NoDup (flying w);
  i_ft : forall a, a ∈ flying w -> exists ad, trackedDials w !! a = Some ad /\ conn ad = None /\ err ad = None /\ dialed ad = true;
  i_n : dialsInFlight w = zlen (flying w);
  i_open : forall a, live w a -> a ∈ B ++ (dq w).*1 \/ a ∈ flying w \/ X = Some a;
  i_p : forall id pr a, pendingRequests w !! id = Some pr -> a ∈ addrs pr -> live w a;
  i_s : forall a, a ∈ started w -> exists ad, trackedDials w !! a = Some ad /\ dialed ad = true;
  i_snd : NoDup (started w);
  i_ids : ids_ok w
}.

(** What the loops over the pending requests leave alone. *)
Definition frame (w w' : worker) : Prop :=
  trackedDials w' = trackedDials w /\ dq w' = dq w /\ dialsInFlight w' = dialsInFlight w /\ connected w' = connected w /\
  timer w' = timer w /\ flying w' = flying w /\ started w' = started w.

(** A loop that drops the address [a] from the requests it visits. *)
Definition drops (a : Maddr) (l : list nat) (w w' : worker) : Prop :=
  frame w w' /\ ids_ok w' /\ (forall id, asks w' id <-> asks w id) /\
  (forall id pr', pendingRequests w' !! id = Some pr' -> (id ∈ l -> a ∉ addrs pr') /\
     exists pr, pendingRequests w !! id = Some pr /\ addrs pr' ⊆ addrs pr).

Lemma drops_loop f a l : (forall w id, ids_ok w -> drops a [id] w (f w id)) -> forall w, ids_ok w -> drops a l w (foldl f w l).
Proof.
  intros Hf. induction l as [|i l IH]; intros w Hw.
  { split_and!; try done. intros id pr' E. split; [by intros ?%elem_of_nil|by exists pr']. }
  simpl. destruct (Hf w i Hw) as (F1 & O1 & A1 & P1). destruct (IH (f w i) O1) as (F2 & O2 & A2 & P2). split_and!.
  - unfold frame in *. naive_solver congruence.
  - done.
  - intros id. by rewrite A2, A1.
  - intros id pr' E. destruct (P2 id pr' E) as [H1 (pr1 & E1 & S1)]. destruct (P1 id pr1 E1) as [H2 (pr & E2 & S2)]. split.
    + intros [->|Hin]%elem_of_cons; [|by apply H1]. intros Ha. apply H2; [by apply list_elem_of_singleton|set_solver].
    + exists pr. split; [done|set_solver].
Qed.

Lemma asks_respond id r m w id' : (forall i, i <> id -> m !! i = pendingRequests w !! i) -> m !! id = None ->
  is_Some (pendingRequests w !! id) -> asks (respond id r (set_pending m w)) id' <-> asks w id'.
Proof.
  intros Hm Hi Hp. unfold asks. simpl. rewrite fmap_app, elem_of_app. simpl. rewrite list_elem_of_singleton.
  destruct (decide (id' = id)) as [->|Hne]; [|rewrite Hm by done; naive_solver]. rewrite Hi. split; [by left|auto].
Qed.

Lemma ids_respond id r w : ids_ok w -> is_Some (pendingRequests w !! id) ->
  ids_ok (respond id r (set_pending (delete id (pendingRequests w)) w)).
Proof.
  intros [H1 H2 H3] Hp. assert (id ∉ (responses w).*1) as Hn.
  { intros Hin%H3. rewrite Hin in Hp. by destruct Hp. }
  split; simpl.
  - intros i pr [_ E]%lookup_delete_Some. by apply (H1 i).
  - rewrite fmap_app. apply NoDup_app. split_and!; [done| |apply NoDup_singleton]. intros x Hx ->%list_elem_of_singleton. done.
  - intros i Hi. rewrite fmap_app, elem_of_app in Hi. destruct (decide (i = id)) as [->|]; [by apply lookup_delete_eq|]. rewrite lookup_delete_ne by done.
    destruct Hi as [Hi|Hi]; [by apply H3|]. apply list_elem_of_singleton in Hi. done.
Qed.

(** The answer of a request, whatever it is. *)
Lemma drops_respond a id r pr w : ids_ok w -> pendingRequests w !! id = Some pr ->
  drops a [id] w (respond id r (set_pending (delete id (pendingRequests w)) w)).
Proof.
  intros Hw E. split_and!; [done|apply ids_respond; [done|by eexists]| |].
  - intros i. apply asks_respond; [intros; by apply lookup_delete_ne|apply lookup_delete_eq|by eexists].
  - simpl. intros i pr' [Hi E']%lookup_delete_Some. split; [intros ->%list_elem_of_singleton; done|by exists pr'].
Qed.

Lemma addrs_recordErr a e (pr : pendRequest) : addrs (recordErr a e pr) = addrs pr.
Proof. unfold recordErr. by destruct (_ <=? length (DialErrors pr))%nat. Qed.

Lemma dispatchOne_drops best a e w id : ids_ok w -> drops a [id] w (dispatchOne best a e w id).
Proof.
  intros Hw. unfold dispatchOne. destruct (pendingRequests w !! id) as [pr|] eqn:E.
  2:{ split_and!; try done. intros i pr' E'. split; [|by exists pr']. intros ->%list_elem_of_singleton. congruence. }
  destruct (decide (a ∈ addrs pr)) as [Ha|Ha].
  2:{ split_and!; try done. intros i pr' E'. split; [|by exists pr']. intros ->%list_elem_of_singleton. congruence. }
  cbv zeta. set (pr1 := del_addr a (recordErr a e pr)).
  assert (addrs pr1 = addrs pr ∖ {[a]}) as E1 by (unfold pr1; simpl; by rewrite addrs_recordErr).
  destruct (decide (addrs pr1 = ∅)) as [_|Hne].
  - destruct (best id); by apply (drops_respond a id _ pr).
  - destruct Hw as [H1 H2 H3]. split_and!; [done|split; simpl| |].
    + intros i pr' [[<- <-]|[_ E']]%lookup_insert_Some; [done|by apply (H1 i)].
    + done.
    + intros i Hi. rewrite lookup_insert_ne; [by apply H3|]. intros <-. rewrite (H3 id Hi) in E. done.
    + intros i. unfold asks. simpl. destruct (decide (i = id)) as [->|]; [rewrite lookup_insert_eq, E; naive_solver|by rewrite lookup_insert_ne].
    + simpl. intros i pr' [[<- <-]|[Hi E']]%lookup_insert_Some.
      * rewrite E1. split; [set_solver|]. exists pr. split; [done|set_solver].
      * split; [intros ->%list_elem_of_singleton; done|by exists pr'].
Qed.

Lemma answerOne_drops a c w id : ids_ok w -> drops a [id] w (answerOne a c w id).
Proof.
  intros Hw. unfold answerOne. destruct (pendingRequests w !! id) as [pr|] eqn:E.
  2:{ split_and!; try done. intros i pr' E'. split; [|by exists pr']. intros ->%list_elem_of_singleton. congruence. }
  destruct (decide (a ∈ addrs pr)) as [Ha|Ha]; [by apply (drops_respond a id _ pr)|].
  split_and!; try done. intros i pr' E'. split; [|by exists pr']. intros ->%list_elem_of_singleton. congruence.
Qed.

Lemma all_visited site w id pr : pendingRequests w !! id = Some pr -> id ∈ (range_map site (pendingRequests w)).*1.
Proof. intros E. apply list_elem_of_fmap. exists (id, pr). split; [done|]. by apply elem_of_range. Qed.

(** ** The turns of the loop *)

(** Dials are written to one at a time. *)
Lemma track_lookup f a w b : trackedDials (track f a w) !! b = if decide (b = a) then f <$> trackedDials w !! b else trackedDials w !! b.
Proof.
  unfold track. simpl. destruct (decide (b = a)) as [->|]; [by rewrite lookup_alter_eq|by rewrite lookup_alter_ne].
Qed.

Lemma asks_same w w' : pendingRequests w' = pendingRequests w -> responses w' = responses w -> forall id, asks w' id <-> asks w id.
Proof. intros E1 E2 id. unfold asks. by rewrite E1, E2. Qed.

(** An address whose dial has ended, or is not made, gets a connection or an error; the
    requests that wait for it are told. *)
Lemma settle_inv B a w w1 f l : inv B (Some a) w -> a ∉ B ++ (dq w).*1 -> a ∉ flying w ->
  (forall ad, dialed (f ad) = dialed ad) -> (forall ad, conn (f ad) <> None \/ err (f ad) <> None) ->
  drops a l w w1 -> (forall id pr, pendingRequests w !! id = Some pr -> id ∈ l) ->
  inv B None (track f a w1).
Proof.
  intros [I1 I2 I3 I4 I5 I6 I7 I8 I9 I10] Hb Hf Hd Hset (F & O & A & P) Hall. destruct F as (F1 & F2 & F3 & F4 & F5 & F6 & F7).
  assert (forall b, b <> a -> trackedDials (track f a w1) !! b = trackedDials w !! b) as Hne.
  { intros b Hba. rewrite track_lookup, F1, decide_False by done. done. }
  split; simpl; rewrite ?F2, ?F3, ?F6, ?F7; try done.
  - intros b Hin. change (alter f a (trackedDials w1) !! b) with (trackedDials (track f a w1) !! b). rewrite Hne; [by apply I2|]. by intros ->.
  - intros b Hin. change (alter f a (trackedDials w1) !! b) with (trackedDials (track f a w1) !! b). rewrite Hne; [by apply I4|]. by intros ->.
  - intros b (ad & E & Hc & He). destruct (decide (b = a)) as [->|Hba].
    + rewrite track_lookup, decide_True in E by done. destruct (trackedDials w1 !! a) as [ad'|]; [|done]. simpl in E. simplify_eq. destruct (Hset ad'); done.
    + rewrite Hne in E by done. destruct (I6 b) as [?|[?|[= ->]]]; [by exists ad|by left|by right; left|done].
  - intros id pr' b E Hin. destruct (P id pr' E) as [H1 (pr & Ep & Hsub)]. pose proof (Hall id pr Ep) as Hv.
    destruct (I7 id pr b Ep) as (ad & Ea & Hc & He); [set_solver|]. exists ad. rewrite Hne; [done|]. intros ->. by apply H1.
  - intros b Hin. destruct (I8 b Hin) as (ad & E & Hdl). change (alter f a (trackedDials w1) !! b) with (trackedDials (track f a w1) !! b).
    rewrite track_lookup, F1, E. destruct (decide (b = a)); [|by exists ad]. exists (f ad). by rewrite Hd.
  - by destruct O.
Qed.

Lemma dispatchError_track best a e w l :
  foldl (dispatchOne best a e) (track (set_err e) a w) l = track (set_err e) a (foldl (dispatchOne best a e) w l).
Proof.
  revert w. induction l as [|i l IH]; intros w; [done|]. simpl. rewrite <-IH. f_equal. unfold dispatchOne. simpl.
  destruct (pendingRequests w !! i) as [pr|]; [|done]. destruct (decide (a ∈ addrs pr)); [|done]. cbv zeta. destruct (decide _); [|done]. by destruct (best i).
Qed.

Lemma dispatchError_inv B best a e w : inv B (Some a) w -> a ∉ B ++ (dq w).*1 -> a ∉ flying w -> (e = ErrDialBackoff -> a ∉ started w) ->
  let w' := dispatchError best a e w in
  inv B None w' /\ dq w' = dq w /\ timer w' = timer w /\ connected w' = connected w /\ flying w' = flying w /\ started w' = started w /\
  (forall id, asks w' id <-> asks w id).
Proof.
  intros Hi Hb Hf Hs. unfold dispatchError. rewrite dispatchError_track.
  set (l := (range_map 1 (pendingRequests w)).*1). change (range_map 1 (pendingRequests (track (set_err e) a w))).*1 with l.
  pose proof (drops_loop _ a l (dispatchOne_drops best a e) w (i_ids _ _ _ Hi)) as HD. set (w1 := foldl _ w l) in *.
  assert (inv B None (track (set_err e) a w1)) as Hi1.
  { apply (settle_inv B a w w1 (set_err e) l); try done; [by right|]. intros id pr E. by apply (all_visited 1 w id pr). }
  destruct HD as (F & O & A & P). destruct F as (F1 & F2 & F3 & F4 & F5 & F6 & F7).
  assert (forall id, asks (track (set_err e) a w1) id <-> asks w id) as HA by (intros id; rewrite <-A; by apply asks_same).
  destruct (String.eqb_spec e ErrDialBackoff) as [->|Hne]; [|split_and!; done].
  specialize (Hs eq_refl). split; [|split_and!; try done; intros id; rewrite <-HA; by apply asks_same].
  destruct Hi1 as [I1 I2 I3 I4 I5 I6 I7 I8 I9 I10]. simpl in *. rewrite F2, F3, F6, F7 in *.
  assert (forall b, b <> a -> delete a (alter (set_err ErrDialBackoff) a (trackedDials w1)) !! b = alter (set_err ErrDialBackoff) a (trackedDials w1) !! b) as Hdel.
  { intros b Hba. by rewrite lookup_delete_ne. }
  split; simpl; rewrite ?F2, ?F3, ?F6, ?F7; try done.
  - intros b Hin. rewrite Hdel by (by intros ->). by apply I2.
  - intros b Hin. rewrite Hdel by (by intros ->). by apply I4.
  - intros b (ad & E & Hc & He). simpl in E. apply lookup_delete_Some in E as [Hba E]. apply I6. by exists ad.
  - intros id pr b E Hin. destruct (I7 id pr b E Hin) as (ad & Ea & Hc & He). exists ad. simpl in *. split; [|done]. rewrite Hdel; [done|].
    intros ->. rewrite lookup_alter_eq in Ea. destruct (trackedDials w1 !! a); simplify_eq/=.
  - intros b Hin. rewrite Hdel by (by intros ->). by apply I8.
  - by destruct I10.
Qed.

Lemma schedule_inv t B X w : inv B X w -> inv B X (scheduleNextDial t w).
Proof.
  intros Hi. unfold scheduleNextDial. destruct (dq w) as [|top r] eqn:E; [|destruct (_ && _)]; destruct Hi as [? ? ? ? ? ? ? ? ? []]; by repeat (split || done).
Qed.

Lemma schedule_facts t w : let w' := scheduleNextDial t w in
  dq w' = dq w /\ flying w' = flying w /\ started w' = started w /\ (dq w' <> [] -> timer w' <> None) /\ (forall id, asks w' id <-> asks w id).
Proof.
  unfold scheduleNextDial. destruct (dq w) as [|top r] eqn:E; [|destruct (_ && _)]; simpl; split_and!; try done; rewrite E; done.
Qed.

(** A dial lands. *)
Lemma land_inv a w : inv [] None w -> a ∈ flying w ->
  inv [] (Some a) (track (set_upgrade None) a (land a w)) /\ a ∉ (dq w).*1 /\ a ∉ flying (land a w).
Proof.
  intros [I1 I2 I3 I4 I5 I6 I7 I8 I9 I10] Ha. destruct (I4 a Ha) as (ad0 & E0 & Hc0 & He0 & Hd0).
  assert (a ∉ (dq w).*1) as Hq by (intros Hin; destruct (I2 a Hin) as (ad & E & _ & _ & Hd); congruence).
  set (w1 := track (set_upgrade None) a (land a w)).
  assert (forall b, trackedDials w1 !! b = if decide (b = a) then set_upgrade None <$> trackedDials w !! b else trackedDials w !! b) as Ht by (intros b; exact (track_lookup _ a (land a w) b)).
  assert (forall b ad, trackedDials w !! b = Some ad -> exists ad', trackedDials w1 !! b = Some ad' /\ conn ad' = conn ad /\ err ad' = err ad /\ dialed ad' = dialed ad) as Hk.
  { intros b ad E. rewrite Ht, E. destruct (decide (b = a)); [by exists (set_upgrade None ad)|by exists ad]. }
  split; [|split; [done|simpl; intros [? _]%list_elem_of_filter; done]]. split; try done.
  - intros b Hin. destruct (I2 b Hin) as (ad & E & ? & ? & ?). destruct (Hk b ad E) as (ad' & ? & ? & ? & ?). exists ad'. split_and!; [done|congruence..].
  - simpl. by apply NoDup_filter.
  - simpl. intros b [_ Hin]%list_elem_of_filter. destruct (I4 b Hin) as (ad & E & ? & ? & ?). destruct (Hk b ad E) as (ad' & ? & ? & ? & ?). exists ad'. split_and!; [done|congruence..].
  - simpl. rewrite I5. apply list_elem_of_split in Ha as (l1 & l2 & El). rewrite El in *. apply NoDup_app in I3 as (_ & Hd1 & Hn2). apply NoDup_cons in Hn2 as [Hn2 _].
    rewrite !filter_app, filter_cons, decide_False by (intros Hx; by apply Hx). rewrite !zlen_app, zlen_cons.
    assert (forall k : list Maddr, a ∉ k -> filter (fun b => b <> a) k = k) as Hid.
    { clear. induction k as [|x k IH]; intros Hx; [done|]. apply not_elem_of_cons in Hx as [H1 H2]. rewrite filter_cons, decide_True by congruence. by rewrite IH. }
    rewrite !Hid; [lia|done|]. intros Hin. apply (Hd1 a Hin). apply elem_of_cons. by left.
  - intros b (ad & E & Hc & He). rewrite Ht in E. destruct (decide (b = a)) as [->|Hba]; [by right; right|].
    destruct (I6 b) as [?|[?|?]]; [by exists ad|by left|right; left|done]. simpl. by apply list_elem_of_filter.
  - intros id pr b E Hin. destruct (I7 id pr b E Hin) as (ad & Ea & ? & ?). destruct (Hk b ad Ea) as (ad' & ? & ? & ? & ?). exists ad'. split_and!; [done|congruence..].
  - intros b Hin. destruct (I8 b Hin) as (ad & Ea & ?). destruct (Hk b ad Ea) as (ad' & ? & ? & ? & ?). exists ad'. split; [done|congruence].
  - by destruct I10.
Qed.

Definition no_backoff (u : update) : Prop :=
  match u with Failure e | Success _ (Some e) => e <> ErrDialBackoff | _ => True end.

Lemma onResult_inv t best a u w : inv [] None w -> a ∈ flying w -> no_backoff u -> (dq w <> [] -> timer w <> None) ->
  let w' := onResult t best a u w in
  inv [] None w' /\ (dq w' <> [] -> timer w' <> None) /\ dq w' = dq w /\ (forall id, asks w' id <-> asks w id).
Proof.
  intros Hi Ha Hu Htm. unfold onResult. destruct (i_ft _ _ _ Hi a Ha) as (ad0 & E0 & Hc0 & He0 & Hd0). rewrite E0.
  destruct (land_inv a w Hi Ha) as (Hl & Hq & Hf). set (w1 := track (set_upgrade None) a (land a w)) in *.
  destruct u as [public now|c [e|]|e].
  - assert (inv [] None (if public then track (set_upgrade (Some (now + PublicTCPDelay))) a w else w)) as Hi'.
    { destruct public; [|done]. destruct Hi as [I1 I2 I3 I4 I5 I6 I7 I8 I9 I10]. set (w2 := track _ a w).
      assert (forall b ad, trackedDials w !! b = Some ad -> exists ad', trackedDials w2 !! b = Some ad' /\ conn ad' = conn ad /\ err ad' = err ad /\ dialed ad' = dialed ad) as Hk.
      { intros b ad E. unfold w2. rewrite track_lookup, E. destruct (decide (b = a)); [by eexists|by exists ad]. }
      split; try done.
      - intros b Hin. destruct (I2 b Hin) as (ad & E & ? & ? & ?). destruct (Hk b ad E) as (ad' & ? & ? & ? & ?). exists ad'. split_and!; [done|congruence..].
      - intros b Hin. destruct (I4 b Hin) as (ad & E & ? & ? & ?). destruct (Hk b ad E) as (ad' & ? & ? & ? & ?). exists ad'. split_and!; [done|congruence..].
      - intros b (ad & E & Hc & He). apply I6. unfold w2 in E. rewrite track_lookup in E. destruct (decide (b = a)) as [->|]; [by exists ad0|by exists ad].
      - intros id pr b E Hin. destruct (I7 id pr b E Hin) as (ad & Ea & ? & ?). destruct (Hk b ad Ea) as (ad' & ? & ? & ? & ?). exists ad'. split_and!; [done|congruence..].
      - intros b Hin. destruct (I8 b Hin) as (ad & Ea & ?). destruct (Hk b ad Ea) as (ad' & ? & ? & ? & ?). exists ad'. split; [done|congruence].
      - by destruct I10. }
    pose proof (schedule_facts t (if public then track (set_upgrade (Some (now + PublicTCPDelay))) a w else w)) as (S1 & S2 & S3 & S4 & S5).
    split_and!; [by apply schedule_inv|done|by rewrite S1; destruct public|]. intros id. rewrite S5. by destruct public.
  - destruct (dispatchError_inv [] best a e w1 Hl Hq Hf) as (D1 & D2 & D3 & D4 & D5 & D6 & D7); [intros ->; by simpl in Hu|].
    cbv zeta. rewrite D2, D3. split_and!; [done|done|done|]. intros id. rewrite D7. done.
  - cbv zeta. set (l := (range_map 2 (pendingRequests w1)).*1). pose proof (drops_loop _ a l (answerOne_drops a c) w1 (i_ids _ _ _ Hl)) as HD.
    set (w2 := foldl _ w1 l) in *. assert (inv [] None (track (set_conn c) a w2)) as Hi2.
    { apply (settle_inv [] a w1 w2 (set_conn c) l); try done; [by left|]. intros id pr E. by apply (all_visited 2 w1 id pr). }
    destruct HD as (F & O & A & P). destruct F as (F1 & F2 & F3 & F4 & F5 & F6 & F7). split_and!.
    + destruct Hi2 as [? ? ? ? ? ? ? ? ? []]. by repeat (split || done).
    + simpl. rewrite F2, F5. done.
    + simpl. by rewrite F2.
    + intros id. transitivity (asks w2 id); [done|]. rewrite A. done.
  - assert (inv [] (Some a) (if negb (e =? ErrDialRefusedBlackHole)%string && negb (e =? Canceled)%string && negb (connected w1) then add_backoff a w1 else w1)) as Hl'.
    { destruct (_ && _); [|done]. destruct Hl as [? ? ? ? ? ? ? ? ? []]. by repeat (split || done). }
    match goal with |- context [if ?b then add_backoff a w1 else w1] => set (w2 := if b then add_backoff a w1 else w1) in * end.
    assert (dq w2 = dq w /\ flying w2 = flying (land a w) /\ started w2 = started w /\ (forall id, asks w2 id <-> asks w id)) as (G1 & G2 & G3 & G4).
    { unfold w2. by destruct (_ && _). }
    destruct (dispatchError_inv [] best a e w2 Hl') as (D1 & D2 & D3 & D4 & D5 & D6 & D7); [by rewrite G1|by rewrite G2|intros ->; by simpl in Hu|].
    pose proof (schedule_facts t (dispatchError best a e w2)) as (S1 & S2 & S3 & S4 & S5).
    cbv zeta. split_and!; [by apply schedule_inv|done|by rewrite S1, D2|]. intros id. by rewrite S5, D7.
Qed.

(** ** The timer *)

Lemma dialOne_inv B held best a w : inv (a :: B) None w ->
  let w' := dialOne held best w a in
  inv B None w' /\ dq w' = dq w /\ (forall id, asks w' id <-> asks w id).
Proof.
  intros [I1 I2 I3 I4 I5 I6 I7 I8 I9 I10]. unfold dialOne. destruct (I2 a) as (ad0 & E0 & Hc0 & He0 & Hd0); [apply elem_of_cons; by left|].
  rewrite E0. simpl in I1. apply NoDup_cons in I1 as [Ha I1].
  assert (a ∉ flying w) as Hf by (intros Hin; destruct (I4 a Hin) as (ad & E & _ & _ & Hd); congruence).
  assert (a ∉ started w) as Hs by (intros Hin; destruct (I8 a Hin) as (ad & E & Hd); congruence).
  set (w1 := track set_dialed a w).
  assert (forall b, b <> a -> trackedDials w1 !! b = trackedDials w !! b) as Hne by (intros b Hb; unfold w1; by rewrite track_lookup, decide_False).
  assert (trackedDials w1 !! a = Some (set_dialed ad0)) as Ea by (unfold w1; by rewrite track_lookup, decide_True, E0).
  assert (inv B (Some a) w1) as Hi.
  { split; try done.
    - intros b Hin. rewrite Hne by (by intros ->). apply I2. apply elem_of_cons. by right.
    - intros b Hin. rewrite Hne by (by intros ->). by apply I4.
    - intros b (ad & E & Hc & He). destruct (decide (b = a)) as [->|Hb]; [by right; right|]. rewrite Hne in E by done.
      destruct (I6 b) as [[->|?]%elem_of_cons|[?|?]]; [by exists ad|done|by left|right; by left|done].
    - intros id pr b E Hin. destruct (I7 id pr b E Hin) as (ad & Eb & Hc & He). destruct (decide (b = a)) as [->|Hb]; [|exists ad; by rewrite Hne].
      exists (set_dialed ad0). done.
    - intros b Hin. rewrite Hne by (by intros ->). by apply I8.
    - by destruct I10. }
  destruct (held a) as [e|].
  - destruct (dispatchError_inv B best a e w1 Hi) as (D1 & D2 & _ & _ & _ & _ & D7); [done..|]. split_and!; [done|done|]. intros id. by rewrite D7.
  - split_and!; try done. destruct Hi as [J1 J2 J3 J4 J5 J6 J7 J8 J9 J10]. split; try done.
    + simpl. apply NoDup_app. split_and!; [done| |apply NoDup_singleton]. intros b Hb ->%list_elem_of_singleton. done.
    + simpl. intros b [Hin|Hin]%elem_of_app; [by apply J4|]. apply list_elem_of_singleton in Hin as ->. exists (set_dialed ad0). split; [exact Ea|done].
    + simpl. rewrite zlen_app. rewrite I5. done.
    + intros b Hl. destruct (J6 b Hl) as [?|[?|[= ->]]]; [by left|right; left; simpl; apply elem_of_app; by left|].
      right. left. simpl. apply elem_of_app. right. by apply list_elem_of_singleton.
    + simpl. intros b [Hin|Hin]%elem_of_app; [by apply J8|]. apply list_elem_of_singleton in Hin as ->. exists (set_dialed ad0). split; [exact Ea|done].
    + simpl. apply NoDup_app. split_and!; [done| |apply NoDup_singleton]. intros b Hb ->%list_elem_of_singleton. done.
    + by destruct J10.
Qed.

Lemma batch_inv held best B : forall w, inv B None w ->
  let w' := foldl (dialOne held best) w B in
  inv [] None w' /\ dq w' = dq w /\ (forall id, asks w' id <-> asks w id).
Proof.
  induction B as [|a B IH]; intros w Hi; [done|]. simpl. destruct (dialOne_inv B held best a w Hi) as (D1 & D2 & D3).
  destruct (IH _ D1) as (E1 & E2 & E3). split_and!; [done|congruence|]. intros id. by rewrite E3, D3.
Qed.

Lemma onTimer_inv t held best w : inv [] None w ->
  let w' := onTimer t held best w in
  inv [] None w' /\ (dq w' <> [] -> timer w' <> None) /\ dq w' = (NextBatch (dq w)).2 /\ (forall id, asks w' id <-> asks w id).
Proof.
  intros Hi. unfold onTimer. pose proof (NextBatch_app (dq w)) as Hb. destruct (NextBatch (dq w)) as [batch rest]. simpl in Hb.
  assert (inv batch.*1 None (set_dq rest w)) as Hi'.
  { destruct Hi as [I1 I2 I3 I4 I5 I6 I7 I8 I9 I10]. simpl in *. rewrite <-Hb, fmap_app in *. split; try done. by destruct I10. }
  destruct (batch_inv held best batch.*1 _ Hi') as (B1 & B2 & B3). cbv zeta. set (w2 := foldl _ _ _) in *.
  destruct (schedule_facts t w2) as (S1 & S2 & S3 & S4 & S5). split_and!; [by apply schedule_inv|done|by rewrite S1, B2|].
  intros id. by rewrite S5, B3.
Qed.

(** ** Requests *)

Lemma sortOut_spec r : forall tracked pr td tj pr' td' tj', sortOut r tracked pr td tj = inr (pr', td', tj') -> NoDup r.*1 ->
  exists td1 tj1, td' = td ++ td1 /\ tj' = tj ++ tj1 /\ NoDup td1 /\
    (forall a, a ∈ td1 -> a ∈ r.*1 /\ tracked !! a = None) /\
    (forall a, a ∈ tj1 -> a ∈ r.*1 /\ exists ad, tracked !! a = Some ad /\ conn ad = None /\ err ad = None) /\
    (forall a, a ∈ addrs pr' <-> a ∈ addrs pr /\ (a ∈ r.*1 -> a ∈ td1 \/ a ∈ tj1)).
Proof.
  induction r as [|[x d] r IH]; intros tracked pr td tj pr' td' tj' E Hn; cbn [sortOut fst] in E.
  { injection E as <- <- <-. exists [], []. rewrite !app_nil_r. split; [done|]. split; [done|]. split; [constructor|].
    split; [intros a Ha; by apply elem_of_nil in Ha|]. split; [intros a Ha; by apply elem_of_nil in Ha|].
    intros a. split; [|by intros []]. intros Ha. split; [done|]. by intros ?%elem_of_nil. }
  rewrite fmap_cons in Hn. simpl in Hn. apply NoDup_cons in Hn as [Hx Hn]. destruct (tracked !! x) as [ad|] eqn:Ex.
  - destruct (conn ad) as [c|] eqn:Ec; [done|]. destruct (err ad) as [e|] eqn:Ee.
    + destruct (IH _ _ _ _ _ _ _ E Hn) as (td1 & tj1 & -> & -> & H1 & H2 & H3 & H4). exists td1, tj1. rewrite fmap_cons. simpl. split_and!; try done.
      * intros a Ha. destruct (H2 a Ha). split; [apply elem_of_cons; by right|done].
      * intros a Ha. destruct (H3 a Ha). split; [apply elem_of_cons; by right|done].
      * intros a. rewrite H4. simpl. rewrite addrs_recordErr. rewrite elem_of_difference, not_elem_of_singleton, elem_of_cons. split.
        -- intros [[H5 H6] H7]. split; [done|]. intros [->|?]; [done|auto].
        -- intros [H5 H6]. assert (a <> x) as Hax.
           { intros ->. destruct H6 as [Hin|Hin]; [by left|by apply H2 in Hin as [? _]|by apply H3 in Hin as [? _]]. }
           split; [done|]. auto.
    + destruct (IH _ _ _ _ _ _ _ E Hn) as (td1 & tj1 & -> & -> & H1 & H2 & H3 & H4). exists td1, (x :: tj1). rewrite <-app_assoc, fmap_cons. simpl. split_and!; try done.
      * intros a Ha. destruct (H2 a Ha). split; [apply elem_of_cons; by right|done].
      * intros a [->|Ha]%elem_of_cons; [split; [apply elem_of_cons; by left|by exists ad]|]. destruct (H3 a Ha). split; [apply elem_of_cons; by right|done].
      * intros a. rewrite H4, !elem_of_cons. split; [intros [? H5]; split; [done|]; intros [->|?]; [right; by left|destruct H5; auto]|].
        intros [? H5]. split; [done|]. intros Hin. destruct H5 as [?|[->|?]]; auto; done.
  - destruct (IH _ _ _ _ _ _ _ E Hn) as (td1 & tj1 & -> & -> & H1 & H2 & H3 & H4). exists (x :: td1), tj1. rewrite <-app_assoc, fmap_cons. simpl. split_and!; try done.
    + apply NoDup_cons. split; [|done]. intros Hin. by apply H2 in Hin as [? _].
    + intros a [->|Ha]%elem_of_cons; [split; [apply elem_of_cons; by left|done]|]. destruct (H2 a Ha). split; [apply elem_of_cons; by right|done].
    + intros a Ha. destruct (H3 a Ha). split; [apply elem_of_cons; by right|done].
    + intros a. rewrite H4, !elem_of_cons. split; [intros [? H5]; split; [done|]; intros [->|?]; [left; by left|destruct H5; auto]|].
      intros [? H5]. split; [done|]. intros Hin. destruct H5 as [[->|?]|?]; auto; done.
Qed.

Lemma joinOne_inv s m a w : inv [] None w -> live w a -> inv [] None (joinOne s m w a) /\
  (forall b, live (joinOne s m w a) b <-> live w b) /\ (forall b, trackedDials w !! b = None -> trackedDials (joinOne s m w a) !! b = None) /\
  pendingRequests (joinOne s m w a) = pendingRequests w /\ responses (joinOne s m w a) = responses w.
Proof.
  intros Hi (ad0 & E0 & Hc0 & He0). unfold joinOne. rewrite E0. destruct (dialed ad0) eqn:Ed; [done|]. destruct (s && negb (sim ad0)); [|done].
  set (q := UpdateOrAdd _ _). pose proof Hi as [I1 I2 I3 I4 I5 I6 I7 I8 I9 I10]. simpl in I1, I2, I6.
  assert (a ∈ (dq w).*1) as Ha.
  { destruct (I6 a) as [?|[Hin|?]]; [by exists ad0|done| |done]. destruct (I4 a Hin) as (ad & E & _ & _ & ?). congruence. }
  assert (Permutation q.*1 (dq w).*1) as HP by by apply UpdateOrAdd_perm.
  assert (forall b ad, trackedDials w !! b = Some ad -> exists ad', trackedDials (track set_sim a w) !! b = Some ad' /\ conn ad' = conn ad /\ err ad' = err ad /\ dialed ad' = dialed ad) as Hk.
  { intros b ad E. rewrite track_lookup, E. destruct (decide (b = a)); [by eexists|by exists ad]. }
  assert (forall b, live (track set_sim a w) b <-> live w b) as Hlive.
  { intros b. split.
    - intros (ad & E & Hc & He). rewrite track_lookup in E. destruct (decide (b = a)) as [->|]; [by exists ad0|by exists ad].
    - intros (ad & E & Hc & He). destruct (Hk b ad E) as (ad' & ? & ? & ? & ?). exists ad'. split_and!; [done|congruence..]. }
  split_and!; try done.
  - split; simpl; try done.
    + by rewrite HP.
    + intros b Hin. rewrite HP in Hin. destruct (I2 b Hin) as (ad & E & ? & ? & ?). destruct (Hk b ad E) as (ad' & ? & ? & ? & ?). exists ad'. split_and!; [done|congruence..].
    + intros b Hin. destruct (I4 b Hin) as (ad & E & ? & ? & ?). destruct (Hk b ad E) as (ad' & ? & ? & ? & ?). exists ad'. split_and!; [done|congruence..].
    + intros b Hb. rewrite HP. apply I6. by apply Hlive.
    + intros id pr b E Hin. apply Hlive. by apply (I7 id pr).
    + intros b Hin. destruct (I8 b Hin) as (ad & E & ?). destruct (Hk b ad E) as (ad' & ? & ? & ? & ?). exists ad'. split; [done|congruence].
    + by destruct I10.
  - intros b Hb. change (trackedDials (track set_sim a w) !! b = None). rewrite track_lookup, Hb. by destruct (decide _).
Qed.

Lemma trackOne_inv s m a w : inv [] None w -> trackedDials w !! a = None -> inv [] None (trackOne s m w a) /\
  (forall b, live (trackOne s m w a) b <-> b = a \/ live w b) /\
  (forall b, b <> a -> trackedDials (trackOne s m w a) !! b = trackedDials w !! b).
Proof.
  intros [I1 I2 I3 I4 I5 I6 I7 I8 I9 I10] E0. simpl in I1, I2, I6. unfold trackOne. set (q := Add _ _).
  assert (Permutation q.*1 (a :: (dq w).*1)) as HP by (unfold q; by rewrite Add_perm, fmap_cons).
  assert (forall b ad, trackedDials w !! b = Some ad -> <[a := new_dial s]> (trackedDials w) !! b = Some ad) as Hk.
  { intros b ad E. rewrite lookup_insert_ne; [done|]. intros ->. congruence. }
  assert (forall b, live (set_dq q (set_tracked (<[a := new_dial s]> (trackedDials w)) w)) b <-> b = a \/ live w b) as Hlive.
  { intros b. unfold live. simpl. destruct (decide (b = a)) as [->|Hb]; [rewrite lookup_insert_eq|rewrite lookup_insert_ne by done; naive_solver].
    split; [by left|]. intros _. by exists (new_dial s). }
  split_and!; [|done|intros b Hb; simpl; by rewrite lookup_insert_ne]. split; simpl; try done.
  - rewrite HP. apply NoDup_cons. split; [|done]. intros Hin. destruct (I2 a Hin) as (ad & E & _). congruence.
  - intros b Hin. rewrite HP in Hin. apply elem_of_cons in Hin as [->|Hin]; [rewrite lookup_insert_eq; by exists (new_dial s)|].
    destruct (I2 b Hin) as (ad & E & ?). exists ad. split; [by apply Hk|done].
  - intros b Hin. destruct (I4 b Hin) as (ad & E & ?). exists ad. split; [by apply Hk|done].
  - intros b [->|Hb]%Hlive; rewrite HP, elem_of_cons; [by left; left|]. destruct (I6 b Hb) as [?|[?|?]]; auto.
  - intros id pr b E Hin. apply Hlive. right. by apply (I7 id pr).
  - intros b Hin. destruct (I8 b Hin) as (ad & E & ?). exists ad. split; [by apply Hk|done].
  - by destruct I10.
Qed.

(** The new request can be entered after its addresses. *)
Lemma join_pending s m p l : forall w, foldl (joinOne s m) (set_pending p w) l = set_pending p (foldl (joinOne s m) w l).
Proof.
  induction l as [|a l IH]; intros w; [done|]. simpl. rewrite <-IH. f_equal. unfold joinOne. simpl.
  destruct (trackedDials w !! a) as [ad|]; [|done]. destruct (dialed ad); [done|]. by destruct (_ && _).
Qed.

Lemma track_pending s m p l : forall w, foldl (trackOne s m) (set_pending p w) l = set_pending p (foldl (trackOne s m) w l).
Proof. induction l as [|a l IH]; intros w; [done|]. simpl. by rewrite <-IH. Qed.

Lemma joins_inv s m l : forall w, inv [] None w -> (forall a, a ∈ l -> live w a) ->
  let w' := foldl (joinOne s m) w l in
  inv [] None w' /\ (forall b, live w' b <-> live w b) /\ (forall b, trackedDials w !! b = None -> trackedDials w' !! b = None) /\
  pendingRequests w' = pendingRequests w /\ responses w' = responses w.
Proof.
  induction l as [|a l IH]; intros w Hi Hl; [done|]. simpl. destruct (joinOne_inv s m a w Hi) as (J1 & J2 & J3 & J4 & J5); [apply Hl, elem_of_cons; by left|].
  destruct (IH _ J1) as (K1 & K2 & K3 & K4 & K5); [intros b Hb; apply J2, Hl, elem_of_cons; by right|].
  split_and!; [done| |auto|congruence..]. intros b. by rewrite K2, J2.
Qed.

Lemma tracks_inv s m l : forall w, inv [] None w -> NoDup l -> (forall a, a ∈ l -> trackedDials w !! a = None) ->
  let w' := foldl (trackOne s m) w l in
  inv [] None w' /\ (forall b, live w' b <-> b ∈ l \/ live w b) /\ pendingRequests w' = pendingRequests w /\ responses w' = responses w.
Proof.
  induction l as [|a l IH]; intros w Hi Hn Hl.
  { split_and!; try done. intros b. split; [by right|]. by intros [?%elem_of_nil|?]. }
  simpl. apply NoDup_cons in Hn as [Ha Hn]. destruct (trackOne_inv s m a w Hi) as (J1 & J2 & J3); [apply Hl, elem_of_cons; by left|].
  destruct (IH _ J1 Hn) as (K1 & K2 & K3 & K4).
  { intros b Hb. rewrite J3 by (by intros ->). apply Hl, elem_of_cons. by right. }
  split_and!; [done| |done|done]. intros b. rewrite K2, J2, elem_of_cons. tauto.
Qed.

Context (rank : bool -> list Maddr -> list AddrDelay).
Hypothesis rank_perm : forall s l, Permutation (rank s l).*1 l.

Lemma respond_new_inv id r w : inv [] None w -> ~ asks w id ->
  inv [] None (respond id r w) /\ (forall i, asks (respond id r w) i <-> i = id \/ asks w i).
Proof.
  intros [I1 I2 I3 I4 I5 I6 I7 I8 I9 [J1 J2 J3]] Hn. unfold asks in Hn. split.
  - split; try done. split; try done; simpl.
    + rewrite fmap_app. apply NoDup_app. split_and!; [done| |apply NoDup_singleton]. intros b Hb ->%list_elem_of_singleton. naive_solver.
    + intros i Hi. rewrite fmap_app, elem_of_app in Hi. destruct Hi as [Hi|Hi]; [by apply J3|]. apply list_elem_of_singleton in Hi. simpl in Hi. subst i.
      destruct (pendingRequests w !! id) eqn:E; [|done]. exfalso. apply Hn. left. by eexists.
  - intros i. unfold asks. simpl. rewrite fmap_app, elem_of_app. simpl. rewrite list_elem_of_singleton. tauto.
Qed.

Lemma onRequest_inv t id s best found w : inv [] None w -> (dq w <> [] -> timer w <> None) -> ~ asks w id ->
  (forall l errs, found = inl (l, errs) -> NoDup l) ->
  let w' := onRequest t rank id s best found w in
  inv [] None w' /\ (dq w' <> [] -> timer w' <> None) /\ (forall i, asks w' i <-> i = id \/ asks w i).
Proof.
  intros Hi Htm Hn Hnd. unfold onRequest. destruct best as [c|].
  { destruct (respond_new_inv id (RConn c) w Hi Hn). by split_and!. }
  destruct found as [[l errs]|[cause errs]].
  2:{ destruct (respond_new_inv id (RErr cause errs 0) w Hi Hn). by split_and!. }
  specialize (Hnd l errs eq_refl). cbv zeta. set (m := foldl _ ∅ _). set (pr0 := Build_pendRequest _ _ _).
  destruct (sortOut (rank s l) (trackedDials w) pr0 [] []) as [c|[[pr td] tj]] eqn:Es.
  { destruct (respond_new_inv id (RConn c) w Hi Hn). by split_and!. }
  assert (NoDup (rank s l).*1) as Hnr by by rewrite rank_perm.
  destruct (sortOut_spec _ _ _ _ _ _ _ _ Es Hnr) as (td1 & tj1 & Etd & Etj & H1 & H2 & H3 & H4). simpl in Etd, Etj. subst td1 tj1.
  assert (forall a, a ∈ addrs pr <-> a ∈ td \/ a ∈ tj) as Haddr.
  { intros a. rewrite H4. simpl. rewrite elem_of_list_to_set. split; [naive_solver|]. intros Ha. split; [|done]. destruct Ha as [Ha|Ha]; [by apply H2 in Ha as [? _]|by apply H3 in Ha as [? _]]. }
  assert (forall w', w' = scheduleNextDial t (foldl (trackOne s m) (foldl (joinOne s m) (set_pending (<[id := pr]> (pendingRequests w)) w) tj) td) ->
    td <> [] \/ tj <> [] -> inv [] None w' /\ (dq w' <> [] -> timer w' <> None) /\ (forall i, asks w' i <-> i = id \/ asks w i)) as Hmain.
  { intros w' -> Hsome. rewrite join_pending, track_pending. set (w1 := foldl (joinOne s m) w tj).
    destruct (joins_inv s m tj w Hi) as (J1 & J2 & J3 & J4 & J5).
    { intros a Ha. destruct (H3 a Ha) as [_ (ad & ? & ? & ?)]. by exists ad. }
    fold w1 in J1, J2, J3, J4, J5. set (w2 := foldl (trackOne s m) w1 td).
    destruct (tracks_inv s m td w1 J1 H1) as (K1 & K2 & K3 & K4); [intros a Ha; apply J3; by apply H2|]. fold w2 in K1, K2, K3, K4.
    set (w3 := set_pending (<[id := pr]> (pendingRequests w)) w2).
    assert (inv [] None w3) as Hi3.
    { destruct K1 as [L1 L2 L3 L4 L5 L6 L7 L8 L9 [M1 M2 M3]]. split; try done.
      - intros i pr' a Ei Ha. change (live w2 a). simpl in Ei. apply lookup_insert_Some in Ei as [[<- <-]|[_ Ei]].
        + apply K2. apply Haddr in Ha as [Ha|Ha]; [by left|right]. apply J2. destruct (H3 a Ha) as [_ (ad & ? & ? & ?)]. by exists ad.
        + apply (L7 i pr'); [congruence|done].
      - split; simpl; [|done|].
        + intros i pr' [[<- <-]|[_ Ei]]%lookup_insert_Some; [|apply (M1 i); congruence]. intros He.
          destruct Hsome as [Hs|Hs]; [destruct td as [|a r]|destruct tj as [|a r]]; try done;
            (assert (a ∈ addrs pr) as Hin by (apply Haddr; rewrite elem_of_cons; auto)); set_solver.
        + intros i Hin. rewrite lookup_insert_ne; [rewrite <-J4, <-K3; by apply M3|]. intros <-. apply Hn. right. by rewrite <-J5, <-K4. }
    destruct (schedule_facts t w3) as (S1 & S2 & S3 & S4 & S5). split_and!; [by apply schedule_inv|done|]. intros i. rewrite S5. unfold asks, w3. simpl.
    rewrite K4, J5. destruct (decide (i = id)) as [->|]; [rewrite lookup_insert_eq; naive_solver|rewrite lookup_insert_ne by done; tauto]. }
  destruct td as [|a td]; [destruct tj as [|b tj]|].
  - destruct (respond_new_inv id (RErr ErrAllDialsFailed (DialErrors pr) (Skipped pr)) w Hi Hn). by split_and!.
  - apply Hmain; [done|by right].
  - apply Hmain; [done|by left].
Qed.

(** ** What the loop can reach

    [ids] are the requests so far.  [ma.Unique] makes the addresses to dial distinct; only
    [dialNextAddr] says that an address is held back. *)

Inductive reach (startTime : Z) : list nat -> worker -> Prop :=
  | reach_new : reach startTime [] (newDialWorker startTime)
  | reach_request ids w id s best found :
      reach startTime ids w -> id ∉ ids -> (forall l errs, found = inl (l, errs) -> NoDup l) ->
      reach startTime (id :: ids) (onRequest startTime rank id s best found w)
  | reach_timer ids w held best :
      reach startTime ids w -> timer w <> None -> reach startTime ids (onTimer startTime held best w)
  | reach_result ids w best a u :
      reach startTime ids w -> a ∈ flying w -> no_backoff u -> reach startTime ids (onResult startTime best a u w).

Lemma reach_inv t ids w : reach t ids w ->
  inv [] None w /\ (dq w <> [] -> timer w <> None) /\ (forall i, asks w i <-> i ∈ ids).
Proof.
  induction 1 as [|ids w id s best found Hr (Hi & Ht & Ha) Hid Hnd|ids w held best Hr (Hi & Ht & Ha) Htm|ids w best a u Hr (Hi & Ht & Ha) Hf Hu].
  - split_and!; [|done|intros i; unfold asks; simpl; rewrite lookup_empty; split; [intros [[? ?]|?]; done|by intros ?%elem_of_nil]].
    split; [constructor| |constructor| |done| | | |constructor|split; [done|constructor|]]; simpl; try (intros b Hb; by apply elem_of_nil in Hb); try done.
    intros b (ad & E & _). simpl in E. by rewrite lookup_empty in E.
  - destruct (onRequest_inv t id s best found w Hi Ht) as (H1 & H2 & H3); [by rewrite Ha|done|]. split_and!; [done|done|].
    intros i. by rewrite H3, Ha, elem_of_cons.
  - destruct (onTimer_inv t held best w Hi) as (H1 & H2 & H3 & H4). split_and!; [done|done|]. intros i. by rewrite H4, Ha.
  - destruct (onResult_inv t best a u w Hi Hf Hu Ht) as (H1 & H2 & H3 & H4). split_and!; [done|done|]. intros i. by rewrite H4, Ha.
Qed.

(** C7. Every request is waiting or has been answered, not both, and is answered once; an
    address is dialled at most once, unless it was held back; the dials in flight are
    counted exactly. *)
Theorem requests_accounted t ids w : reach t ids w ->
  NoDup (responses w).*1 /\
  (forall id, id ∈ ids <-> is_Some (pendingRequests w !! id) \/ id ∈ (responses w).*1) /\
  (forall id, ~ (is_Some (pendingRequests w !! id) /\ id ∈ (responses w).*1)) /\
  NoDup (started w) /\ dialsInFlight w = zlen (flying w).
Proof.
  intros (Hi & _ & Ha)%reach_inv. destruct Hi as [I1 I2 I3 I4 I5 I6 I7 I8 I9 [J1 J2 J3]]. split_and!; try done.
  - intros id. by rewrite <-Ha.
  - intros id [[pr E] Hin]. rewrite (J3 id Hin) in E. done.
Qed.

(** C8. No request is forgotten: one that waits has addresses, each of which is being dialled or
    in the queue, and while the queue is not empty the timer is set.  So when no dial is in
    flight and the timer is not set, every request has been answered. *)
Theorem no_request_stuck t ids w : reach t ids w ->
  (forall id pr, pendingRequests w !! id = Some pr ->
     addrs pr <> ∅ /\ forall a, a ∈ addrs pr -> a ∈ flying w \/ (a ∈ (dq w).*1 /\ timer w <> None)) /\
  (flying w = [] -> timer w = None -> forall id, id ∈ ids -> id ∈ (responses w).*1).
Proof.
  intros (Hi & Ht & Ha)%reach_inv. destruct Hi as [I1 I2 I3 I4 I5 I6 I7 I8 I9 [J1 J2 J3]].
  assert (forall id pr, pendingRequests w !! id = Some pr ->
     addrs pr <> ∅ /\ forall a, a ∈ addrs pr -> a ∈ flying w \/ (a ∈ (dq w).*1 /\ timer w <> None)) as Hp.
  { intros id pr E. split; [by apply (J1 id)|]. intros a Hin. destruct (I6 a (I7 id pr a E Hin)) as [Hq|[?|?]]; [right|by left|done].
    split; [done|]. apply Ht. intros Hq'. rewrite Hq' in Hq. by apply elem_of_nil in Hq. }
  split; [done|]. intros Hf Hn id Hid. apply Ha in Hid as [[pr E]|?]; [|done]. exfalso. destruct (Hp id pr E) as [Hne Hw].
  apply Hne. apply set_eq. intros a. split; [|by intros ?%elem_of_empty]. intros Hin. destruct (Hw a Hin) as [Hx|[_ Hx]]; [rewrite Hf in Hx; by apply elem_of_nil in Hx|done].
Qed.
End worker.

(** ** With the ranking of [DialRank] *)

Section ranked.
Context {Maddr : Type} `{Countable Maddr} {Conn : Type} `{MapRange} `{GoSort}.
Context (codes : Maddr -> list Z) (ValueForProtocol : Maddr -> Z -> option string) (IsPrivateAddr : Maddr -> bool).

Definition rankAddrs (isSimConnect : bool) (l : list Maddr) : list (Maddr * Z) :=
  map (fun d => (Addr d, Delay d))
    (if isSimConnect then NoDelayDialRanker codes ValueForProtocol l else DefaultDialRanker codes ValueForProtocol IsPrivateAddr l).

Lemma rankAddrs_perm s l : Permutation (rankAddrs s l).*1 l.
Proof.
  unfold rankAddrs. change (map ?f ?k) with (f <$> k). rewrite <-list_fmap_compose. destruct s; [apply getAddrDelay_addrs|apply rank_permutation].
Qed.
End ranked.

(** ** Examples: addresses by name, all of them without an IP address *)

#[local] Existing Instance map_to_list_range.
#[local] Existing Instance insertion_go_sort.

Notation rank_ex := (rankAddrs (fun _ : string => []) (fun _ _ => None) (fun _ => false)).
Notation worker_ex := (@worker string _ _ nat).

(** Two requests share the dials of a peer: the first address fails, the second connects,
    and both have their answer. *)
Definition w0 : worker_ex := newDialWorker 0.
Definition w1 : worker_ex := onRequest 0 rank_ex 1 false None (inl (["a"; "b"], [])) w0.
Definition w2 : worker_ex := onRequest 0 rank_ex 2 false None (inl (["b"], [])) w1.
Definition w3 : worker_ex := onTimer 0 (fun _ => None) (fun _ => None) w2.
Definition w4 : worker_ex := onResult 0 (fun _ => None) "a" (Failure "refused") w3.
Definition w5 : worker_ex := onResult 0 (fun _ => None) "b" (Success 7%nat None) w4.

Example shared_dials :
  timer w2 = Some 0 /\ flying w3 = ["a"; "b"] /\ backoffs w4 = ["a"] /\ responses w4 = [] /\
  responses w5 = [(2, RConn 7); (1, RConn 7)]%nat /\ connected w5 = true.
Proof. by vm_compute. Qed.

(** An address that is held back fails the request, and can be dialled by the next one. *)
Example held_back :
  let w := onTimer 0 (fun _ => Some ErrDialBackoff) (fun _ => None) w1 in
  responses w = [(1%nat, RErr ErrAllDialsFailed [("a", ErrDialBackoff); ("b", ErrDialBackoff)] 0)] /\ trackedDials w = ∅.
Proof. by vm_compute. Qed.

Lemma reach_w5 : reach rank_ex 0 [2; 1]%nat w5.
Proof.
  apply reach_result; [|vm_compute; constructor|done]. apply reach_result; [|vm_compute; constructor|done].
  apply reach_timer; [|by vm_compute]. apply reach_request; [|by vm_compute; intros Hx; inversion Hx as [|? ? ? Hy]; inversion Hy|].
  - apply reach_request; [apply reach_new|by intros Hx%elem_of_nil|]. intros l errs [= <- <-]. by apply (bool_decide_unpack _).
  - intros l errs [= <- <-]. by apply (bool_decide_unpack _).
Qed.

Lemma requests_accounted_witness : reach rank_ex 0 [2; 1]%nat w5 /\ NoDup (responses w5).*1 /\ dialsInFlight w5 = zlen (flying w5).
Proof. split; [exact reach_w5|]. destruct (requests_accounted rank_ex (rankAddrs_perm _ _ _) 0 _ w5 reach_w5) as (H1 & _ & _ & _ & H2). by split. Defined.

Lemma no_request_stuck_witness : reach rank_ex 0 [2; 1]%nat w5 /\ forall id, id ∈ [2; 1]%nat -> id ∈ (responses w5).*1.
Proof.
  split; [exact reach_w5|]. apply (no_request_stuck rank_ex (rankAddrs_perm _ _ _) 0 _ w5 reach_w5); by vm_compute.
Defined.
