(* ===== verification/Envelope.v ===== *)
(** * Signed envelopes

    src/myvendor/go-libp2p/core/record/{envelope,record}.go: a record is marshalled, and
    signed together with the name of its domain and its type.  Two types of records are
    there: the addresses of a peer (core/peer/record.go) and the voucher of a relay
    (p2p/protocol/circuitv2/proto/voucher.go).  Keys and signatures, the wire format of
    protocol buffers, and the bytes of peer ids and multiaddresses are arguments; a
    protocol buffer is the record of its fields. *)

From Stdlib Require Import Sorting.Sorted.
From S2P Require Import Prelude GoLib GoNet.

(** ** [binary.AppendUvarint] *)

Fixpoint uvarint_loop (fuel : nat) (x : Z) : bytes :=
  match fuel with
  | O => []
  | S fuel => if x <? 128 then [x] else Z.lor (Z.land x 255) 128 :: uvarint_loop fuel (Z.shiftr x 7)
  end.

Definition uvarint (x : Z) : bytes := uvarint_loop (S (S (Z.to_nat (Z.log2 x)))) x.

(** ** The bytes that are signed *)

Definition field (f : bytes) : bytes := uvarint (zlen f) ++ f.

Definition makeUnsigned (domain : string) (payloadType payload : bytes) : bytes :=
  concat (map field [string_bytes domain; payloadType; payload]).

Lemma uvarint_byte a : Z.lor (Z.land a 255) 128 = 128 + a mod 128.
Proof.
  change 255 with (Z.ones 8). rewrite Z.land_ones by lia.
  assert (a mod 2 ^ 8 = a mod 128 + 128 * (a / 128 mod 2)) as ->.
  { change (2 ^ 8) with (128 * 2). by rewrite Z.rem_mul_r. }
  pose proof (Z.mod_pos_bound a 128 ltac:(lia)). pose proof (Z.mod_pos_bound (a / 128) 2 ltac:(lia)).
  assert (Z.land (a mod 128) 128 = 0) as Hl.
  { change 128 with (2 ^ 7) at 1. rewrite <-Z.land_ones by lia. rewrite <-Z.land_assoc. change (Z.land (Z.ones 7) 128) with 0. apply Z.land_0_r. }
  assert (forall y, Z.land y 128 = 0 -> y + 128 = Z.lor y 128) as Hadd.
  { intros y Hy. rewrite <-Z.lxor_lor by done. by apply Z.add_nocarry_lxor. }
  destruct (decide (a / 128 mod 2 = 0)) as [E|E]; [rewrite E|assert (a / 128 mod 2 = 1) as -> by lia].
  - rewrite Z.mul_0_r, Z.add_0_r. rewrite <-Hadd by done. lia.
  - rewrite Z.mul_1_r, Hadd by done. rewrite <-Z.lor_assoc. change (Z.lor 128 128) with 128. rewrite <-Hadd by done. lia.
Qed.

Lemma shiftr_7 a : Z.shiftr a 7 = a / 128.
Proof. by rewrite Z.shiftr_div_pow2. Qed.

Lemma div_128 n x : 0 <= x < 2 ^ Z.of_nat n -> 128 <= x -> exists k, n = S k /\ 0 <= x / 128 < 2 ^ Z.of_nat k.
Proof.
  intros Hx H128. destruct n as [|k]; [change (2 ^ Z.of_nat 0) with 1 in Hx; lia|]. exists k. split; [done|].
  rewrite Nat2Z.inj_succ, Z.pow_succ_r in Hx by lia. split; [apply Z.div_pos; lia|]. apply Z.div_lt_upper_bound; lia.
Qed.

(** No code is the beginning of another. *)
Lemma uvarint_loop_prefix n : forall m a b r s, 0 <= a < 2 ^ Z.of_nat n -> 0 <= b < 2 ^ Z.of_nat m ->
  uvarint_loop (S n) a ++ r = uvarint_loop (S m) b ++ s -> a = b /\ r = s.
Proof.
  induction n as [n IH] using lt_wf_ind. intros m a b r s Ha Hb. cbn [uvarint_loop]. rewrite !uvarint_byte, !shiftr_7.
  pose proof (Z.mod_pos_bound a 128 ltac:(lia)). pose proof (Z.mod_pos_bound b 128 ltac:(lia)).
  pose proof (Z.div_mod a 128 ltac:(lia)). pose proof (Z.div_mod b 128 ltac:(lia)).
  destruct (Z.ltb_spec a 128), (Z.ltb_spec b 128); cbn [app]; intros [= Eh Et]; [done|lia|lia|].
  destruct (div_128 n a Ha) as (n' & -> & Ha'); [done|]. destruct (div_128 m b Hb) as (m' & -> & Hb'); [done|].
  destruct (IH n' ltac:(lia) m' (a / 128) (b / 128) r s Ha' Hb' Et) as [E ->]. split; [lia|done].
Qed.

Lemma uvarint_prefix a b r s : 0 <= a -> 0 <= b -> uvarint a ++ r = uvarint b ++ s -> a = b /\ r = s.
Proof.
  assert (forall x, 0 <= x -> 0 <= x < 2 ^ Z.of_nat (S (Z.to_nat (Z.log2 x)))) as Hl.
  { intros x Hx. split; [done|]. rewrite Nat2Z.inj_succ, Z2Nat.id by apply Z.log2_nonneg.
    destruct (decide (x = 0)) as [->|]; [done|]. apply Z.log2_spec. lia. }
  intros Ha Hb E. unfold uvarint in E.
  apply (uvarint_loop_prefix _ _ a b r s) in E; auto.
Qed.

Lemma field_prefix f g r s : field f ++ r = field g ++ s -> f = g /\ r = s.
Proof.
  unfold field. rewrite <-!app_assoc. intros E. apply uvarint_prefix in E as [El E]; [|apply zlen_nonneg..].
  apply app_inj_1 in E; [done|]. unfold zlen in El. lia.
Qed.

Lemma string_bytes_inj s t : string_bytes s = string_bytes t -> s = t.
Proof.
  unfold string_bytes. intros E.
  apply list_fmap_eq_inj in E; [by rewrite <-(String.string_of_list_ascii_of_string s), E, String.string_of_list_ascii_of_string|].
  intros a b Hab. apply N2Z.inj in Hab. by rewrite <-(Ascii.ascii_N_embedding a), Hab, Ascii.ascii_N_embedding.
Qed.

(** What is signed says which record it is, and of which domain. *)
Lemma makeUnsigned_inj d t p d' t' p' : makeUnsigned d t p = makeUnsigned d' t' p' -> d = d' /\ t = t' /\ p = p'.
Proof.
  unfold makeUnsigned. simpl. rewrite !app_nil_r. intros E. apply field_prefix in E as [E1 E]. apply field_prefix in E as [-> E].
  apply string_bytes_inj in E1 as ->. split_and!; [done..|]. destruct (field_prefix p p' [] []) as [-> _]; [by rewrite !app_nil_r|done].
Qed.

(** ** Records *)

(** [proto.Marshal] and [proto.Unmarshal] of a message. *)
Class Proto (M : Type) := {
  proto_marshal : M -> option bytes;
  proto_unmarshal : bytes -> option M
}.

Class ProtoLaw (M : Type) `{Proto M} :=
  proto_trip : forall (m : M) b, proto_marshal m = Some b -> proto_unmarshal b = Some m.

(** The interface [Record]. *)
Class Record_ (R : Type) := {
  Domain : string;
  Codec : bytes;
  MarshalRecord : R -> option bytes;
  UnmarshalRecord : bytes -> option R
}.

(** core/record/pb, core/peer/pb, circuitv2/pb *)
Record pb_Envelope := { pb_key : bytes; pb_type : bytes; pb_payload : bytes; pb_signature : bytes }.
Record pb_PeerRecord := { pb_id : bytes; pb_addrs : list bytes; pb_seq : Z }.
Record pb_Voucher := { pb_relay : bytes; pb_peer : bytes; pb_expiration : option Z }.

(** Peer ids are their bytes; a multiaddress without components has none. *)
Class Ids := {
  Maddr : Type;
  IDFromBytes : bytes -> option bytes;
  addrBytes : Maddr -> bytes;
  NewMultiaddrBytes : bytes -> option Maddr
}.

Definition valid_id `{Ids} (p : bytes) : Prop := IDFromBytes p = Some p.

Class IdsLaw `{Ids} := {
  id_bytes : forall b p, IDFromBytes b = Some p -> p = b;
  addr_trip : forall a, addrBytes a <> [] -> NewMultiaddrBytes (addrBytes a) = Some a
}.

Section records.
Context `{Ids} `{Proto pb_PeerRecord} `{Proto pb_Voucher}.

Record PeerRecord := { PeerID : bytes; Addrs : list Maddr; Seq : Z }.

Definition addrsToProtobuf (l : list Maddr) : list bytes :=
  foldr (fun a out => if bool_decide (addrBytes a = []) then out else addrBytes a :: out) [] l.

Definition addrsFromProtobuf (l : list bytes) : list Maddr :=
  foldr (fun b out =>
    match NewMultiaddrBytes b with
    | None => out
    | Some a => if bool_decide (addrBytes a = []) then out else a :: out
    end) [] l.

Definition PeerRecordFromProtobuf (m : pb_PeerRecord) : option PeerRecord :=
  id ← IDFromBytes (pb_id m);
  Some {| PeerID := id; Addrs := addrsFromProtobuf (pb_addrs m); Seq := pb_seq m |}.

Definition ToProtobuf (r : PeerRecord) : pb_PeerRecord :=
  {| pb_id := PeerID r; pb_addrs := addrsToProtobuf (Addrs r); pb_seq := Seq r |}.

#[export] Instance PeerRecord_record : Record_ PeerRecord := {|
  Domain := "libp2p-peer-record";
  Codec := [3; 1];
  MarshalRecord r := proto_marshal (ToProtobuf r);
  UnmarshalRecord b := m ← proto_unmarshal b; PeerRecordFromProtobuf m
|}.

(** [TimestampSeq], and the [lastTimestamp] it leaves; [now] is in nanoseconds of the epoch. *)
Definition TimestampSeq (now lastTimestamp : Z) : Z :=
  let now := wrapu 64 now in
  if now <=? lastTimestamp then wrapu 64 (lastTimestamp + 1) else now.

Record ReservationVoucher := { Relay : bytes; Peer : bytes; Expiration : Z }.

#[export] Instance Voucher_record : Record_ ReservationVoucher := {|
  Domain := "libp2p-relay-rsvp";
  Codec := [3; 2];
  MarshalRecord rv := proto_marshal {| pb_relay := Relay rv; pb_peer := Peer rv; pb_expiration := Some (wrapu 64 (Unix (Expiration rv))) |};
  UnmarshalRecord b :=
    m ← proto_unmarshal b;
    relay ← IDFromBytes (pb_relay m);
    peer ← IDFromBytes (pb_peer m);
    Some {| Relay := relay; Peer := peer; Expiration := from_unix (wraps 64 (default 0 (pb_expiration m))) |}
|}.

(** ** The registry *)

Inductive AnyRecord := APeer (r : PeerRecord) | AVoucher (v : ReservationVoucher).

Definition payloadTypeRegistry := gmap bytes (bytes -> option AnyRecord).

Definition RegisterType {R} `{Record_ R} (wrap : R -> AnyRecord) (g : payloadTypeRegistry) : payloadTypeRegistry :=
  <[Codec (R := R) := fun b => wrap <$> UnmarshalRecord b]> g.

(** After the [init] functions. *)
Definition registry : payloadTypeRegistry := RegisterType AVoucher (RegisterType APeer ∅).

Definition unmarshalRecordPayload (payloadType payload : bytes) : res AnyRecord :=
  match registry !! payloadType with
  | None => Fail "payload type is not registered"
  | Some f => match f payload with Some r => Ok r | None => Fail "unmarshal" end
  end.
End records.

(** ** Envelopes *)

Class Keys := {
  PubKey : Type;
  PrivKey : Type;
  GetPublic : PrivKey -> PubKey;
  Sign : PrivKey -> bytes -> option bytes;
  Verify : PubKey -> bytes -> bytes -> option bool;
  PublicKeyToProto : PubKey -> option bytes;
  PublicKeyFromProto : bytes -> option PubKey
}.

Class KeysLaw `{Keys} := {
  sign_verify : forall k m s, Sign k m = Some s -> Verify (GetPublic k) m s = Some true;
  key_trip : forall pk b, PublicKeyToProto pk = Some b -> PublicKeyFromProto b = Some pk
}.

Section envelopes.
Context `{Keys} `{Proto pb_Envelope} `{Ids} `{Proto pb_PeerRecord} `{Proto pb_Voucher}.

Record Envelope := { PublicKey : PubKey; PayloadType : bytes; RawPayload : bytes; signature : bytes }.

Definition Seal {R} `{Record_ R} (rec : R) (privateKey : PrivKey) : res Envelope :=
  match MarshalRecord rec with
  | None => Fail "error marshaling record"
  | Some payload =>
    if bool_decide (Domain (R := R) = "") then Fail "envelope domain must not be empty"
    else if bool_decide (Codec (R := R) = []) then Fail "payloadType must not be empty"
    else match Sign privateKey (makeUnsigned (Domain (R := R)) (Codec (R := R)) payload) with
         | None => Fail "sign"
         | Some sig => Ok {| PublicKey := GetPublic privateKey; PayloadType := Codec (R := R); RawPayload := payload; signature := sig |}
         end
  end.

Definition Marshal (e : Envelope) : option bytes :=
  key ← PublicKeyToProto (PublicKey e);
  proto_marshal {| pb_key := key; pb_type := PayloadType e; pb_payload := RawPayload e; pb_signature := signature e |}.

Definition UnmarshalEnvelope (data : bytes) : option Envelope :=
  e ← proto_unmarshal data;
  key ← PublicKeyFromProto (pb_key e);
  Some {| PublicKey := key; PayloadType := pb_type e; RawPayload := pb_payload e; signature := pb_signature e |}.

Definition validate (domain : string) (e : Envelope) : res () :=
  match Verify (PublicKey e) (makeUnsigned domain (PayloadType e) (RawPayload e)) (signature e) with
  | None => Fail "failed while verifying signature"
  | Some false => Fail "invalid signature or incorrect domain"
  | Some true => Ok ()
  end.

Definition ConsumeEnvelope (data : bytes) (domain : string) : res (Envelope * AnyRecord) :=
  match UnmarshalEnvelope data with
  | None => Fail "failed when unmarshalling the envelope"
  | Some e =>
    let! _ := validate domain e in
    let! rec := unmarshalRecordPayload (PayloadType e) (RawPayload e) in
    Ok (e, rec)
  end.

(** The envelope comes back with some of the errors. *)
Definition ConsumeTypedEnvelope {R} `{Record_ R} (data : bytes) : option Envelope * res R :=
  match UnmarshalEnvelope data with
  | None => (None, Fail "failed when unmarshalling the envelope")
  | Some e =>
    (Some e,
     let! _ := validate (Domain (R := R)) e in
     match UnmarshalRecord (RawPayload e) with
     | None => Fail "failed to unmarshal envelope payload"
     | Some r => Ok r
     end)
  end.
End envelopes.

Section envelope_facts.
Context `{KeysLaw} `{IdsLaw} `{ProtoLaw pb_Envelope} `{ProtoLaw pb_PeerRecord} `{ProtoLaw pb_Voucher}.

Lemma addrs_trip l : addrsFromProtobuf (addrsToProtobuf l) = filter (fun a => addrBytes a <> []) l.
Proof.
  induction l as [|a l IH]; [done|]. unfold addrsToProtobuf. simpl. fold (addrsToProtobuf l). rewrite filter_cons. destruct (decide (addrBytes a = [])) as [E|E].
  - rewrite bool_decide_true by done. rewrite decide_False by tauto. exact IH.
  - rewrite bool_decide_false by done. rewrite decide_True by done. unfold addrsFromProtobuf. simpl. rewrite addr_trip by done.
    rewrite bool_decide_false by done. f_equal. exact IH.
Qed.

(** Seconds, which is what a voucher keeps of its time. *)
Definition dated (rv : ReservationVoucher) : Prop := - 2 ^ 63 <= Unix (Expiration rv) < 2 ^ 63.

Lemma voucher_trip rv b : valid_id (Relay rv) -> valid_id (Peer rv) -> dated rv -> MarshalRecord rv = Some b ->
  UnmarshalRecord b = Some {| Relay := Relay rv; Peer := Peer rv; Expiration := from_unix (Unix (Expiration rv)) |}.
Proof.
  intros Hr Hp Hd Hm. cbn in Hm |- *. rewrite (proto_trip _ _ Hm). cbn. rewrite Hr. cbn. rewrite Hp. cbn. do 3 f_equal.
  unfold wraps, wrapu. rewrite Zplus_mod_idemp_l, Z.mod_small by (unfold dated in Hd; lia). lia.
Qed.

Lemma peer_record_trip r b : valid_id (PeerID r) -> MarshalRecord r = Some b ->
  UnmarshalRecord b = Some {| PeerID := PeerID r; Addrs := filter (fun a => addrBytes a <> []) (Addrs r); Seq := Seq r |}.
Proof.
  intros Hp Hm. cbn -[addrsToProtobuf addrsFromProtobuf] in Hm |- *. rewrite (proto_trip _ _ Hm).
  cbn -[addrsToProtobuf addrsFromProtobuf]. unfold PeerRecordFromProtobuf. cbn -[addrsToProtobuf addrsFromProtobuf].
  rewrite Hp. cbn -[addrsToProtobuf addrsFromProtobuf]. by rewrite addrs_trip.
Qed.

Lemma seal_consume {R} `{Record_ R} (r : R) k e b : Seal r k = Ok e -> Marshal e = Some b ->
  UnmarshalEnvelope b = Some e /\ validate (Domain (R := R)) e = Ok () /\ PublicKey e = GetPublic k /\
  PayloadType e = Codec (R := R) /\ MarshalRecord r = Some (RawPayload e).
Proof.
  unfold Seal, Marshal, UnmarshalEnvelope, validate. destruct (MarshalRecord r) as [p|]; [|done].
  destruct (bool_decide (Domain = "")); [done|]. destruct (bool_decide (Codec = [])); [done|].
  destruct (Sign k _) as [sig|] eqn:Es; [|done]. intros [= <-]. simpl. intros (key & Ek & Em)%bind_Some.
  rewrite (proto_trip _ _ Em). simpl. rewrite (key_trip _ _ Ek). simpl. by rewrite (sign_verify _ _ _ Es).
Qed.

Lemma registry_voucher : registry !! [3; 2] = Some (fun b => AVoucher <$> UnmarshalRecord b).
Proof. exact (lookup_insert_eq (M := gmap bytes) _ _ _). Qed.

Lemma registry_peer : registry !! [3; 1] = Some (fun b => APeer <$> UnmarshalRecord b).
Proof. etrans; [apply (lookup_insert_ne (M := gmap bytes)); done|apply (lookup_insert_eq (M := gmap bytes))]. Qed.

(** A record that is sealed, sent and consumed in its domain is the record; its envelope is
    the one that was sealed.  What gets lost are the parts of a second of a voucher and the
    addresses without components of a peer. *)
Theorem sealed_consumed k :
  (forall rv e b, valid_id (Relay rv) -> valid_id (Peer rv) -> dated rv -> Seal rv k = Ok e -> Marshal e = Some b ->
     ConsumeEnvelope b "libp2p-relay-rsvp" =
     Ok (e, AVoucher {| Relay := Relay rv; Peer := Peer rv; Expiration := from_unix (Unix (Expiration rv)) |})) /\
  (forall r e b, valid_id (PeerID r) -> Seal r k = Ok e -> Marshal e = Some b ->
     ConsumeEnvelope b "libp2p-peer-record" =
     Ok (e, APeer {| PeerID := PeerID r; Addrs := filter (fun a => addrBytes a <> []) (Addrs r); Seq := Seq r |})).
Proof.
  split.
  - intros rv e b Hr Hp Hd Hs Hm. destruct (seal_consume rv k e b Hs Hm) as (E1 & E2 & _ & E3 & E4). unfold ConsumeEnvelope.
    rewrite E1. cbn in E2, E3. rewrite E2. cbn [rbind]. unfold unmarshalRecordPayload. rewrite E3.
    cbn [Codec Voucher_record]. rewrite registry_voucher. by rewrite (voucher_trip rv _ Hr Hp Hd E4).
  - intros r e b Hp Hs Hm. destruct (seal_consume r k e b Hs Hm) as (E1 & E2 & _ & E3 & E4). unfold ConsumeEnvelope.
    rewrite E1. cbn in E2, E3. rewrite E2. cbn [rbind]. unfold unmarshalRecordPayload. rewrite E3.
    cbn [Codec PeerRecord_record]. rewrite registry_peer. by rewrite (peer_record_trip r _ Hp E4).
Qed.

(** C26. [sealed] is what the owner of a key has ever sealed, by domain, type and payload, and a
    signature that verifies was made.  Then a consumed envelope of that key is one the owner
    sealed, in that very domain: a voucher does not pass for a peer record, nor the other
    way round, whoever sends it. *)
Theorem consumed_was_sealed pk (sealed : list (string * bytes * bytes)) :
  (forall m s, Verify pk m s = Some true -> exists d t p, (d, t, p) ∈ sealed /\ m = makeUnsigned d t p) ->
  forall data domain e rec, ConsumeEnvelope data domain = Ok (e, rec) -> PublicKey e = pk ->
  (domain, PayloadType e, RawPayload e) ∈ sealed /\
  exists f, registry !! PayloadType e = Some f /\ f (RawPayload e) = Some rec.
Proof.
  intros Hunf data domain e rec. unfold ConsumeEnvelope. destruct (UnmarshalEnvelope data) as [e'|]; [|done].
  unfold validate. destruct (Verify _ _ _) as [[]|] eqn:Ev; [|done..]. cbn [rbind]. unfold unmarshalRecordPayload.
  destruct (registry !! PayloadType e') as [f|] eqn:Ef; [|done]. destruct (f (RawPayload e')) as [r|] eqn:Er; [|done].
  intros [= -> ->] <-. split; [|by exists f]. destruct (Hunf _ _ Ev) as (d & t & p & Hin & E).
  by destruct (makeUnsigned_inj _ _ _ _ _ _ E) as (-> & -> & ->).
Qed.
End envelope_facts.

(** ** Sequence numbers *)

Fixpoint seqs (clock : list Z) (lastTimestamp : Z) : list Z :=
  match clock with
  | [] => []
  | now :: clock => let s := TimestampSeq now lastTimestamp in s :: seqs clock s
  end.

Lemma seqs_above clock : forall lo hi, Forall (fun now => 0 <= now <= hi) clock -> lo <= hi -> hi + zlen clock < 2 ^ 64 ->
  0 <= lo -> StronglySorted Z.lt (lo :: seqs clock lo).
Proof.
  induction clock as [|now clock IH]; intros lo hi Hc Hlo Hhi H0; [repeat constructor|]. apply Forall_cons in Hc as [Hn Hc].
  rewrite zlen_cons in Hhi. pose proof (zlen_nonneg clock). simpl. unfold TimestampSeq. rewrite wrapu_small by lia.
  assert (exists s, (if now <=? lo then wrapu 64 (lo + 1) else now) = s /\ lo < s <= hi + 1) as (s & -> & Hs).
  { destruct (Z.leb_spec now lo); [exists (lo + 1); rewrite wrapu_small by lia|exists now]; split; lia || done. }
  assert (StronglySorted Z.lt (s :: seqs clock s)) as Hss.
  { apply (IH s (hi + 1)); try lia. eapply Forall_impl; [exact Hc|]. simpl. lia. }
  constructor; [done|]. apply StronglySorted_inv in Hss as [_ Hss]. constructor; [lia|]. eapply Forall_impl; [exact Hss|]. simpl. lia.
Qed.

(** However the clock jumps, the sequence numbers of a process increase, until they wrap
    around. *)
Theorem seq_increasing clock hi : Forall (fun now => 0 <= now <= hi) clock -> 0 <= hi -> hi + zlen clock < 2 ^ 64 ->
  StronglySorted Z.lt (seqs clock 0).
Proof. intros Hc H0 Hhi. by destruct (StronglySorted_inv (seqs_above clock 0 hi Hc H0 Hhi ltac:(lia))). Qed.

(** ** Instances for the examples: fields with their lengths before them, keys that sign what
    [ok] allows *)

Definition toy_fields (l : list bytes) : bytes := concat (map (fun f => zlen f :: f) l).

Fixpoint toy_split (fuel : nat) (b : bytes) : option (list bytes) :=
  match b, fuel with
  | [], _ => Some []
  | _, O => None
  | n :: r, S fuel => cons (take (Z.to_nat n) r) <$> toy_split fuel (drop (Z.to_nat n) r)
  end.

Lemma toy_split_fields l : forall fuel, (length l <= fuel)%nat -> toy_split fuel (toy_fields l) = Some l.
Proof.
  induction l as [|f l IH]; intros fuel Hf; [by destruct fuel|]. destruct fuel as [|fuel]; [simpl in Hf; lia|].
  simpl. unfold zlen. rewrite Nat2Z.id, drop_app_length, take_app_length. change (concat _) with (toy_fields l).
  rewrite IH by (simpl in Hf; lia). done.
Qed.

Lemma toy_fields_length l : (length l <= length (toy_fields l))%nat.
Proof. induction l as [|f l IH]; [done|]. unfold toy_fields in *. simpl. rewrite length_app. lia. Qed.

Definition toy_parse (b : bytes) : option (list bytes) := toy_split (length b) b.

Lemma toy_parse_fields l : toy_parse (toy_fields l) = Some l.
Proof. apply toy_split_fields, toy_fields_length. Qed.

Definition toy_envelope : Proto pb_Envelope := {|
  proto_marshal e := Some (toy_fields [pb_key e; pb_type e; pb_payload e; pb_signature e]);
  proto_unmarshal b := l ← toy_parse b;
    match l with [k; t; p; s] => Some {| pb_key := k; pb_type := t; pb_payload := p; pb_signature := s |} | _ => None end |}.

Definition toy_peer_record : Proto pb_PeerRecord := {|
  proto_marshal r := Some (toy_fields (pb_id r :: [pb_seq r] :: pb_addrs r));
  proto_unmarshal b := l ← toy_parse b;
    match l with i :: [s] :: a => Some {| pb_id := i; pb_addrs := a; pb_seq := s |} | _ => None end |}.

Definition toy_voucher : Proto pb_Voucher := {|
  proto_marshal r := Some (toy_fields [pb_relay r; pb_peer r; match pb_expiration r with Some x => [x] | None => [] end]);
  proto_unmarshal b := l ← toy_parse b;
    match l with
    | [r; p; [x]] => Some {| pb_relay := r; pb_peer := p; pb_expiration := Some x |}
    | [r; p; []] => Some {| pb_relay := r; pb_peer := p; pb_expiration := None |}
    | _ => None
    end |}.

Definition toy_ids : Ids := {| Maddr := bytes; IDFromBytes := Some; addrBytes := id; NewMultiaddrBytes := Some |}.

Definition toy_keys (ok : bytes -> bool) : Keys := {|
  PubKey := Z; PrivKey := Z; GetPublic := id;
  Sign k m := if ok m then Some (k :: m) else None;
  Verify pk m s := Some (ok m && bool_decide (s = pk :: m));
  PublicKeyToProto pk := Some [pk];
  PublicKeyFromProto b := head b |}.

Lemma toy_envelope_law : @ProtoLaw _ toy_envelope.
Proof. intros [k t p s] b [= <-]. cbn -[toy_parse toy_fields]. by rewrite toy_parse_fields. Qed.
Lemma toy_peer_record_law : @ProtoLaw _ toy_peer_record.
Proof. intros [i a s] b [= <-]. cbn -[toy_parse toy_fields]. by rewrite toy_parse_fields. Qed.
Lemma toy_voucher_law : @ProtoLaw _ toy_voucher.
Proof. intros [r p [x|]] b [= <-]; cbn -[toy_parse toy_fields]; by rewrite toy_parse_fields. Qed.
Lemma toy_ids_law : @IdsLaw toy_ids.
Proof. split; [by intros b p [= <-]|done]. Qed.
Lemma toy_keys_law ok : @KeysLaw (toy_keys ok).
Proof.
  split; [|by intros pk b [= <-]]. simpl. intros k m s. destruct (ok m); [|done]. intros [= <-]. by rewrite bool_decide_true.
Qed.

Lemma sealed_consumed_witness :
  let rv := {| Relay := [1; 2]; Peer := [3]; Expiration := epoch + 5 |} in
  exists e b, @Seal (toy_keys (fun _ => true)) _ (@Voucher_record toy_ids toy_voucher) rv 7 = Ok e /\
    @Marshal (toy_keys (fun _ => true)) toy_envelope e = Some b /\
    @ConsumeEnvelope (toy_keys (fun _ => true)) toy_envelope toy_ids toy_peer_record toy_voucher b "libp2p-relay-rsvp" =
    Ok (e, AVoucher {| Relay := [1; 2]; Peer := [3]; Expiration := epoch |}).
Proof.
  cbv zeta. eexists _, _. split; [by vm_compute|]. split; [by vm_compute|].
  destruct (@sealed_consumed _ (toy_keys_law (fun _ => true)) toy_ids toy_ids_law toy_envelope toy_envelope_law toy_peer_record
    toy_peer_record_law toy_voucher toy_voucher_law 7) as [Hv _].
  change epoch with (from_unix (Unix (epoch + 5))) at 1.
  apply (Hv {| Relay := [1; 2]; Peer := [3]; Expiration := epoch + 5 |}); [done..| |by vm_compute|by vm_compute].
  unfold dated. vm_compute. by split.
Defined.

(** A voucher, consumed as a peer record, is refused though its signature is good. *)
Definition voucher_msg : bytes := makeUnsigned "libp2p-relay-rsvp" [3; 2] [1; 1; 1; 2; 1; 0].

Lemma consumed_was_sealed_witness :
  let b := [1; 7; 2; 3; 2; 6; 1; 1; 1; 2; 1; 0; zlen voucher_msg + 1; 7] ++ voucher_msg in
  let K := toy_keys (fun m => bool_decide (m = voucher_msg)) in
  @ConsumeEnvelope K toy_envelope toy_ids toy_peer_record toy_voucher b "libp2p-peer-record" = Fail "invalid signature or incorrect domain" /\
  exists e rec, @ConsumeEnvelope K toy_envelope toy_ids toy_peer_record toy_voucher b "libp2p-relay-rsvp" = Ok (e, rec) /\
    ("libp2p-relay-rsvp", @PayloadType K e, @RawPayload K e) ∈ [("libp2p-relay-rsvp", [3; 2], [1; 1; 1; 2; 1; 0])].
Proof.
  cbv zeta. split; [by vm_compute|]. eexists _, _. split; [by vm_compute|].
  match goal with |- (_, PayloadType ?e, _) ∈ _ => set (e0 := e) end.
  destruct (@consumed_was_sealed (toy_keys (fun m => bool_decide (m = voucher_msg))) toy_ids toy_envelope toy_peer_record toy_voucher 7
    [("libp2p-relay-rsvp", [3; 2], [1; 1; 1; 2; 1; 0])]) with (data := [1; 7; 2; 3; 2; 6; 1; 1; 1; 2; 1; 0; zlen voucher_msg + 1; 7] ++ voucher_msg)
    (domain := "libp2p-relay-rsvp") (e := e0) (rec := @AVoucher toy_ids {| Relay := [1]; Peer := [2]; Expiration := unix_epoch |}) as [Hin _].
  - simpl. intros m s [= Hv]. apply andb_true_iff in Hv as [->%bool_decide_eq_true _]. eexists _, _, _. split; [by apply list_elem_of_singleton|done].
  - by vm_compute.
  - done.
  - exact Hin.
Defined.

(** The clock stands still, and goes back. *)
Lemma seq_increasing_witness : seqs [5; 5; 3; 9] 0 = [5; 6; 7; 9] /\ StronglySorted Z.lt (seqs [5; 5; 3; 9] 0).
Proof. split; [by vm_compute|]. apply (seq_increasing _ 9); [repeat constructor; lia|lia|by vm_compute]. Defined.
