(* ===== verification/CircuitWire.v ===== *)
(** * The messages of relays

    src/myvendor/go-libp2p/p2p/protocol/circuitv2: the messages of pb/circuit.proto as the
    records of their fields, with the accessors of circuit.pb.go; how they are framed
    (util/io.go) and how peers are written in them (util/pbconv.go); the limit of a relayed
    connection as the relay announces it and as its clients read it (relay/relay.go,
    client/reservation.go).  The varints of go-varint and the writer of go-msgio are the
    class [Framing]. *)

From S2P Require Import Prelude GoLib Envelope.

(** ** Messages *)

Definition UNUSED : Z := 0.
Definition OK : Z := 100.
Definition RESERVATION_REFUSED : Z := 200.
Definition RESOURCE_LIMIT_EXCEEDED : Z := 201.
Definition PERMISSION_DENIED : Z := 202.
Definition CONNECTION_FAILED : Z := 203.
Definition NO_RESERVATION : Z := 204.
Definition MALFORMED_MESSAGE : Z := 400.
Definition UNEXPECTED_MESSAGE : Z := 401.

Definition Hop_RESERVE : Z := 0.
Definition Hop_CONNECT : Z := 1.
Definition Hop_STATUS : Z := 2.
Definition Stop_CONNECT : Z := 0.
Definition Stop_STATUS : Z := 1.

Record pb_Peer := { pb_Id : option bytes; pb_Addrs : list bytes }.
Record pb_Reservation := { Expire : option Z; rAddrs : list bytes; Voucher : option bytes }.
Record pb_Limit := { lDuration : option Z; lData : option Z }.

Record HopMessage := {
  hType : option Z; hPeer : option pb_Peer; hReservation : option pb_Reservation; hLimit : option pb_Limit; hStatus : option Z
}.
Record StopMessage := { sType : option Z; sPeer : option pb_Peer; sLimit : option pb_Limit; sStatus : option Z }.

Definition hop_GetType (m : HopMessage) : Z := default Hop_RESERVE (hType m).
Definition hop_GetStatus (m : HopMessage) : Z := default UNUSED (hStatus m).
Definition stop_GetType (m : StopMessage) : Z := default Stop_CONNECT (sType m).
Definition stop_GetStatus (m : StopMessage) : Z := default UNUSED (sStatus m).

Definition hop_status (status : Z) (rsvp : option pb_Reservation) (limit : option pb_Limit) : HopMessage :=
  {| hType := Some Hop_STATUS; hPeer := None; hReservation := rsvp; hLimit := limit; hStatus := Some status |}.
Definition stop_status (status : Z) : StopMessage :=
  {| sType := Some Stop_STATUS; sPeer := None; sLimit := None; sStatus := Some status |}.

(** ** Framing *)

Class Framing := {
  ReadUvarint : bytes -> res (Z * bytes);       (* the number, and what is left *)
  uvarint_header : Z -> bytes
}.
Class FramingLaw `{Framing} :=
  framed : forall n rest, 0 <= n -> ReadUvarint (uvarint_header n ++ rest) = Ok (n, rest).

Definition maxMessageSize : Z := 4096.

Section framing.
Context `{Framing} {M : Type} `{Proto M}.

(** [NewDelimitedReader(s, maxMessageSize).ReadMsg]: the message, and what is left. *)
Definition ReadMsg (stream : bytes) : res (M * bytes) :=
  let! (mlen, rest) := ReadUvarint stream in
  if maxMessageSize <? mlen then Fail "message too large"
  else if zlen rest <? mlen then Fail "unexpected EOF"
  else match proto_unmarshal (take (Z.to_nat mlen) rest) with
       | None => Fail "proto: cannot parse"
       | Some m => Ok (m, drop (Z.to_nat mlen) rest)
       end.

(** What [WriteMsg] of go-msgio writes. *)
Definition WriteMsg (m : M) : option bytes :=
  b ← proto_marshal m; Some (uvarint_header (zlen b) ++ b).

(** A message is read as it was written, and what follows it stays in the stream; one that
    is too large is refused, though nothing stops its sender. *)
Theorem framing_exact `{!FramingLaw} `{!ProtoLaw M} (m : M) b w rest :
  proto_marshal m = Some b -> WriteMsg m = Some w ->
  ReadMsg (w ++ rest) = if zlen b <=? maxMessageSize then Ok (m, rest) else Fail "message too large".
Proof.
  unfold WriteMsg, ReadMsg. intros Hb. rewrite Hb. simpl. intros [= <-]. pose proof (zlen_nonneg b).
  rewrite <-app_assoc, framed by done. cbn [rbind]. destruct (Z.leb_spec (zlen b) maxMessageSize).
  - destruct (Z.ltb_spec maxMessageSize (zlen b)); [lia|]. rewrite zlen_app. pose proof (zlen_nonneg rest).
    destruct (Z.ltb_spec (zlen b + zlen rest) (zlen b)); [lia|].
    unfold zlen. rewrite Nat2Z.id, take_app_length, drop_app_length. by rewrite (proto_trip _ _ Hb).
  - destruct (Z.ltb_spec maxMessageSize (zlen b)); [done|lia].
Qed.
End framing.

(** ** Peers *)

Section peers.
Context `{Ids}.

Record AddrInfo := { ID : bytes; infoAddrs : list Maddr }.

(** What cannot be parsed is left out. *)
Definition parseAddrs (l : list bytes) : list Maddr := omap NewMultiaddrBytes l.

Definition PeerToPeerInfoV2 (p : option pb_Peer) : res AddrInfo :=
  match p with
  | None => Fail "nil peer"
  | Some p =>
    match IDFromBytes (default [] (pb_Id p)) with
    | None => Fail "peer id"
    | Some id => Ok {| ID := id; infoAddrs := parseAddrs (pb_Addrs p) |}
    end
  end.

Definition PeerInfoToPeerV2 (pi : AddrInfo) : pb_Peer :=
  {| pb_Id := Some (ID pi); pb_Addrs := map addrBytes (infoAddrs pi) |}.

Lemma parse_bytes `{!IdsLaw} l : Forall (fun a => addrBytes a <> []) l -> parseAddrs (map addrBytes l) = l.
Proof. induction 1 as [|a l Ha Hl IH]; [done|]. unfold parseAddrs in *. simpl. rewrite addr_trip by done. f_equal. exact IH. Qed.

Lemma peer_trip `{!IdsLaw} pi : valid_id (ID pi) -> Forall (fun a => addrBytes a <> []) (infoAddrs pi) ->
  PeerToPeerInfoV2 (Some (PeerInfoToPeerV2 pi)) = Ok pi.
Proof. intros Hi Ha. simpl. rewrite Hi. cbn. rewrite parse_bytes by done. by destruct pi. Qed.
End peers.

(** ** The limit of a relayed connection *)

Record RelayLimit := { Duration : Z; Data : Z }.

Definition makeLimitMsg (limit : option RelayLimit) : option pb_Limit :=
  l ← limit;
  Some {| lDuration := Some (wrapu 32 (Z.quot (Duration l) second)); lData := Some (wrapu 64 (Data l)) |}.

(** What a client makes of it: [LimitDuration] and [LimitData]. *)
Definition readLimit (m : option pb_Limit) : Z * Z :=
  match m with
  | None => (0, 0)
  | Some l => (wraps 64 (default 0 (lDuration l) * second), default 0 (lData l))
  end.

(** The limits that can be announced. *)
Definition sensible (l : RelayLimit) : Prop := 0 <= Duration l < 2 ^ 32 * second /\ 0 <= Data l < 2 ^ 63.

Lemma quot_floor d : 0 <= d -> Z.quot d second * second <= d < Z.quot d second * second + second.
Proof. intros Hd. rewrite Z.quot_div_nonneg by done. unfold second. pose proof (Z.div_mod d 1000000000). pose proof (Z.mod_pos_bound d 1000000000). lia. Qed.

(** What the client knows: the time cut to whole seconds, and all of the data; 0 and 0 of no
    limit. *)
Definition announced (limit : option RelayLimit) : Z * Z :=
  match limit with None => (0, 0) | Some l => (Duration l - Duration l mod second, Data l) end.

Lemma limit_exact limit : (forall l, limit = Some l -> sensible l) -> readLimit (makeLimitMsg limit) = announced limit.
Proof.
  destruct limit as [l|]; [|done]. intros Hl. destruct (Hl l eq_refl) as [Hd Hn]. cbn.
  assert (Z.quot (Duration l) second * second = Duration l - Duration l mod second) as Hq.
  { rewrite Z.quot_div_nonneg by (unfold second; lia). pose proof (Z.div_mod (Duration l) second ltac:(unfold second; lia)). lia. }
  pose proof (quot_floor (Duration l) ltac:(lia)) as Hf. set (q := Z.quot (Duration l) second) in *. clearbody q.
  unfold second in *. rewrite (wrapu_small 32), (wrapu_small 64) by lia. rewrite wraps_small by lia. by rewrite Hq.
Qed.

(** A client never expects more time than it gets, nor a second less; it knows exactly how
    much data is relayed. *)
Lemma limit_announced l : sensible l ->
  let '(d, n) := readLimit (makeLimitMsg (Some l)) in d <= Duration l < d + second /\ n = Data l.
Proof.
  intros Hl. rewrite limit_exact by (by intros ? [= <-]). cbn. pose proof (Z.mod_pos_bound (Duration l) second ltac:(done)). lia.
Qed.

(** A limit of less than a second is announced as 0, which stands for none. *)
Theorem subsecond_limit_lost : readLimit (makeLimitMsg (Some {| Duration := 999 * millisecond; Data := 4096 |})) = (0, 4096).
Proof. by vm_compute. Qed.
