(* ===== verification/RelayService.v ===== *)
(** * The relay service

    src/myvendor/go-libp2p/p2p/protocol/circuitv2/relay: the constraints on reservations
    (constraints.go), reservations and circuits (relay.go), and the copying of relayed data.
    What is done under the lock is one step; a circuit is an entry of [circuits] from the
    moment it is counted until it is cleaned up, and what the network answers in between is
    an argument of the next step.  What go-multiaddr and go-libp2p-asn-util say of an
    address is an argument; peers are the bytes of their ids. *)

From S2P Require Import Prelude GoLib Envelope CircuitWire.

(** resources.go *)
Record Resources := {
  Limit : option RelayLimit;
  ReservationTTL : Z;
  MaxReservations : Z;
  MaxCircuits : Z;
  BufferSize : Z;
  MaxReservationsPerIP : Z;
  MaxReservationsPerASN : Z
}.

Definition DefaultLimit : RelayLimit := {| Duration := 2 * minute; Data := 2 ^ 17 |}.
Definition DefaultResources : Resources := {|
  Limit := Some DefaultLimit; ReservationTTL := 60 * minute; MaxReservations := 128; MaxCircuits := 16;
  BufferSize := 2048; MaxReservationsPerIP := 8; MaxReservationsPerASN := 32 |}.

(** ** Lists by key *)

Section entries.
Context {K A : Type} `{Countable K}.

Definition entries (m : gmap K (list A)) : list A := concat (map_to_list m).*2.

(** [for k, l := range m { m[k] = slices.DeleteFunc(l, del); if len(m[k]) == 0 { delete(m, k) } }] *)
Definition prune (del : A -> bool) (m : gmap K (list A)) : gmap K (list A) :=
  omap (fun l => match filter (fun x => del x = false) l with [] => None | l' => Some l' end) m.

Lemma entries_insert m k l : m !! k = None -> entries (<[k := l]> m) ≡ₚ l ++ entries m.
Proof. intros E. unfold entries. by rewrite map_to_list_insert. Qed.

Lemma entries_delete m k l : m !! k = Some l -> entries m ≡ₚ l ++ entries (delete k m).
Proof. intros E. rewrite <-(insert_delete_id m k l E) at 1. by rewrite entries_insert by apply lookup_delete_eq. Qed.

Lemma entries_snoc m k x : entries (<[k := default [] (m !! k) ++ [x]]> m) ≡ₚ x :: entries m.
Proof.
  destruct (m !! k) as [l|] eqn:E; simpl.
  - rewrite (entries_delete m k l E). rewrite <-(insert_delete_eq m k (l ++ [x])), entries_insert by apply lookup_delete_eq.
    by rewrite <-Permutation_cons_append.
  - by rewrite entries_insert.
Qed.

Lemma entries_prune del m : entries (prune del m) ≡ₚ filter (fun x => del x = false) (entries m).
Proof.
  induction m as [|k l m E IH] using map_ind; [done|]. unfold prune.
  rewrite (entries_insert m k l E), filter_app, <-IH. destruct (filter (fun x => del x = false) l) as [|y l'] eqn:Ef.
  - rewrite omap_insert_None by by rewrite Ef. unfold prune. rewrite delete_id; [done|]. by rewrite lookup_omap, E.
  - rewrite (omap_insert_Some _ _ _ _ (y :: l')) by by rewrite Ef. by rewrite entries_insert by by rewrite lookup_omap, E.
Qed.

Lemma lookup_prune del m k l : prune del m !! k = Some l -> exists l0, m !! k = Some l0 /\ l = filter (fun x => del x = false) l0 /\ l <> [].
Proof.
  unfold prune. rewrite lookup_omap. destruct (m !! k) as [l0|]; [|done]. simpl. destruct (filter _ l0) as [|y l'] eqn:Ef; [done|].
  intros [= <-]. exists l0. by rewrite Ef.
Qed.
End entries.

(** ** Constraints *)

Record peerWithExpiry := { Expiry : Z; Peer : bytes }.

Record constraints := {
  total : list peerWithExpiry;
  ips : gmap string (list peerWithExpiry);
  asns : gmap Z (list peerWithExpiry)
}.

Definition newConstraints : constraints := {| total := []; ips := ∅; asns := ∅ |}.

Section constraints.
Context {Maddr : Type}.
(** [manet.ToIP(a)] as text; whether [ip.To4()] is nil; [asnutil.AsnForIPv6]. *)
Context (ToIP : Maddr -> option string) (v6 : string -> bool) (AsnForIPv6 : string -> Z).
Context (rc : Resources).

Definition drop_entries (del : peerWithExpiry -> bool) (c : constraints) : constraints :=
  {| total := filter (fun x => del x = false) (total c); ips := prune del (ips c); asns := prune del (asns c) |}.

Definition cleanup (now : Z) : constraints -> constraints := drop_entries (fun pe => time_before (Expiry pe) now).
Definition cleanupPeer (p : bytes) : constraints -> constraints := drop_entries (fun pe => bool_decide (Peer pe = p)).

Definition Reserve (now : Z) (p : bytes) (a : Maddr) (expiry : Z) (c : constraints) : option string * constraints :=
  let c := cleanupPeer p (cleanup now c) in
  if MaxReservations rc <=? zlen (total c) then (Some "too many reservations", c)
  else match ToIP a with
  | None => (Some "no IP address associated with peer", c)
  | Some ip =>
    let ipReservations := default [] (ips c !! ip) in
    if MaxReservationsPerIP rc <=? zlen ipReservations then (Some "too many peers for IP address", c)
    else
      let asn := if v6 ip then AsnForIPv6 ip else 0 in
      let asnReservations := if asn =? 0 then [] else default [] (asns c !! asn) in
      if negb (asn =? 0) && (MaxReservationsPerASN rc <=? zlen asnReservations) then (Some "too many peers for ASN", c)
      else
        let pe := {| Expiry := expiry; Peer := p |} in
        (None, {| total := total c ++ [pe];
                  ips := <[ip := ipReservations ++ [pe]]> (ips c);
                  asns := if asn =? 0 then asns c else <[asn := asnReservations ++ [pe]]> (asns c) |})
  end.

(** One reservation per peer, counted once for its address and at most once for its network,
    within the limits. *)
Record constraints_ok (c : constraints) : Prop := {
  ok_nodup : NoDup (map Peer (total c));
  ok_ips : entries (ips c) ≡ₚ total c;
  ok_asns : exists rest, entries (asns c) ++ rest ≡ₚ total c;
  ok_max : zlen (total c) <= Z.max 0 (MaxReservations rc);
  ok_max_ip : forall ip l, ips c !! ip = Some l -> l <> [] /\ zlen l <= MaxReservationsPerIP rc;
  ok_max_asn : forall asn l, asns c !! asn = Some l -> l <> [] /\ zlen l <= MaxReservationsPerASN rc
}.

Lemma zlen_filter {A} (P : A -> Prop) `{!forall x, Decision (P x)} l : zlen (filter P l) <= zlen l.
Proof. unfold zlen. pose proof (length_filter P l). lia. Qed.

Lemma drop_entries_ok del c : constraints_ok c -> constraints_ok (drop_entries del c).
Proof.
  intros [O1 O2 (rest & O3) O4 O5 O6]. split; simpl.
  - change (map ?f ?k) with (f <$> k) in *. eapply sublist_NoDup; [exact O1|]. apply fmap_sublist, sublist_filter.
  - by rewrite entries_prune, O2.
  - exists (filter (fun x => del x = false) rest). by rewrite entries_prune, <-filter_app, O3.
  - pose proof (zlen_filter (fun x => del x = false) (total c)). lia.
  - intros ip l (l0 & E & -> & Hne)%lookup_prune. split; [done|]. destruct (O5 ip l0 E). pose proof (zlen_filter (fun x => del x = false) l0). lia.
  - intros asn l (l0 & E & -> & Hne)%lookup_prune. split; [done|]. destruct (O6 asn l0 E). pose proof (zlen_filter (fun x => del x = false) l0). lia.
Qed.

Lemma cleanupPeer_gone p c : p ∉ map Peer (total (cleanupPeer p c)).
Proof.
  change (map ?f ?k) with (f <$> k). intros (pe & -> & Hin)%list_elem_of_fmap. simpl in Hin. apply list_elem_of_filter in Hin as [Hb _].
  by apply bool_decide_eq_false in Hb.
Qed.

Lemma app_neq_nil {A} (l : list A) x : l ++ [x] <> [].
Proof. by destruct l. Qed.

Lemma Reserve_ok now p a expiry c : constraints_ok c -> constraints_ok (Reserve now p a expiry c).2.
Proof.
  intros Hok. assert (constraints_ok (cleanupPeer p (cleanup now c))) as Hok' by by apply drop_entries_ok, drop_entries_ok.
  pose proof (cleanupPeer_gone p (cleanup now c)) as Hp. unfold Reserve. set (c' := cleanupPeer p (cleanup now c)) in *. clearbody c'.
  destruct (Z.leb_spec (MaxReservations rc) (zlen (total c'))); [done|]. destruct (ToIP a) as [ip|]; [|done].
  destruct (Z.leb_spec (MaxReservationsPerIP rc) (zlen (default [] (ips c' !! ip)))); [done|].
  set (asn := if v6 ip then AsnForIPv6 ip else 0). clearbody asn. cbv zeta. set (pe := {| Expiry := expiry; Peer := p |}).
  destruct (negb (asn =? 0) && _) eqn:Ea; [done|]. destruct Hok' as [O1 O2 (rest & O3) O4 O5 O6]. split; simpl.
  - rewrite map_app. simpl. change (map ?f ?k) with (f <$> k) in *. apply NoDup_app. split_and!; [done|by intros q Hq ->%list_elem_of_singleton|apply NoDup_singleton].
  - rewrite entries_snoc, O2. apply Permutation_cons_append.
  - destruct (Z.eqb_spec asn 0); [exists (rest ++ [pe]); by rewrite app_assoc, O3|]. exists rest. rewrite entries_snoc. simpl.
    by rewrite O3, <-Permutation_cons_append.
  - rewrite zlen_app. change (zlen [pe]) with 1. lia.
  - intros ip' l [[<- <-]|[_ E]]%lookup_insert_Some; [|by apply (O5 ip')]. split; [apply app_neq_nil|]. rewrite zlen_app. change (zlen [pe]) with 1. lia.
  - destruct (Z.eqb_spec asn 0); [done|]. simpl in Ea. intros asn' l [[<- <-]|[_ E]]%lookup_insert_Some; [|by apply (O6 asn')].
    split; [apply app_neq_nil|]. rewrite zlen_app. change (zlen [pe]) with 1. apply Z.leb_gt in Ea. lia.
Qed.
End constraints.

(** ** The service *)

Record circuit := {
  src : bytes;
  dst : bytes;
  goroutines : option nat        (* those that still copy; [None] until the circuit stands *)
}.

Record Relay := {
  cons : constraints;
  rsvp : gmap bytes Z;
  conns : gmap bytes Z;
  closed : bool;
  spans : Z;                     (* open spans of [scope] *)
  circuits : gmap nat circuit;
  nextCircuit : nat;
  rsvpTags : gset bytes;         (* peers tagged "relay-reservation", [relayHopTag] *)
  hopTags : gset bytes
}.

Definition New : Relay := {|
  cons := newConstraints; rsvp := ∅; conns := ∅; closed := false; spans := 0; circuits := ∅; nextCircuit := 0;
  rsvpTags := ∅; hopTags := ∅ |}.

Definition set_cons (c : constraints) (r : Relay) : Relay := {|
  cons := c; rsvp := rsvp r; conns := conns r; closed := closed r; spans := spans r; circuits := circuits r;
  nextCircuit := nextCircuit r; rsvpTags := rsvpTags r; hopTags := hopTags r |}.
Definition set_rsvp (m : gmap bytes Z) (tags : gset bytes) (r : Relay) : Relay := {|
  cons := cons r; rsvp := m; conns := conns r; closed := closed r; spans := spans r; circuits := circuits r;
  nextCircuit := nextCircuit r; rsvpTags := tags; hopTags := hopTags r |}.
Definition set_conns (m : gmap bytes Z) (tags : gset bytes) (r : Relay) : Relay := {|
  cons := cons r; rsvp := rsvp r; conns := m; closed := closed r; spans := spans r; circuits := circuits r;
  nextCircuit := nextCircuit r; rsvpTags := rsvpTags r; hopTags := tags |}.
Definition set_closed (r : Relay) : Relay := {|
  cons := cons r; rsvp := rsvp r; conns := conns r; closed := true; spans := spans r; circuits := circuits r;
  nextCircuit := nextCircuit r; rsvpTags := rsvpTags r; hopTags := hopTags r |}.
Definition set_circuits (n : Z) (m : gmap nat circuit) (next : nat) (r : Relay) : Relay := {|
  cons := cons r; rsvp := rsvp r; conns := conns r; closed := closed r; spans := n; circuits := m;
  nextCircuit := next; rsvpTags := rsvpTags r; hopTags := hopTags r |}.

Definition addConn (p : bytes) (r : Relay) : Relay :=
  let n := default 0 (conns r !! p) + 1 in
  set_conns (<[p := n]> (conns r)) (if n =? 1 then {[p]} ∪ hopTags r else hopTags r) r.

Definition rmConn (p : bytes) (r : Relay) : Relay :=
  let n := default 0 (conns r !! p) - 1 in
  if 0 <? n then set_conns (<[p := n]> (conns r)) (hopTags r) r
  else set_conns (delete p (conns r)) (hopTags r ∖ {[p]}) r.

(** [cleanup] of a circuit. *)
Definition cleanupCircuit (id : nat) (r : Relay) : Relay :=
  match circuits r !! id with
  | None => r
  | Some c =>
    let r := rmConn (dst c) (rmConn (src c) r) in
    set_circuits (spans r - 1) (delete id (circuits r)) (nextCircuit r) r
  end.

Section relay.
Context `{Ids}.
Context (ToIP : Maddr -> option string) (v6 : string -> bool) (AsnForIPv6 : string -> Z).
(** [isRelayAddr]; [AllowReserve] and [AllowConnect] of the filter, if there is one. *)
Context (isRelayAddr : Maddr -> bool) (acl : option ((bytes -> Maddr -> bool) * (bytes -> Maddr -> bytes -> bool))).
Context (rc : Resources).

(** The status, when the reservation expires, and the relay after it; [later] is the time
    [constraints.Reserve] reads. *)
Definition handleReserve (now later : Z) (p : bytes) (a : Maddr) (r : Relay) : Z * option Z * Relay :=
  if isRelayAddr a then (PERMISSION_DENIED, None, r)
  else if (match acl with Some f => negb (f.1 p a) | None => false end) then (PERMISSION_DENIED, None, r)
  else if closed r then (PERMISSION_DENIED, None, r)
  else
    let expire := now + ReservationTTL rc in
    match Reserve ToIP v6 AsnForIPv6 rc later p a expire (cons r) with
    | (Some _, c) => (RESERVATION_REFUSED, None, set_cons c r)
    | (None, c) => (OK, Some expire, set_rsvp (<[p := expire]> (rsvp r)) ({[p]} ∪ rsvpTags r) (set_cons c r))
    end.

(** [BeginSpan] of the scope, and [span.Done]. *)
Definition beginSpan (r : Relay) : Relay := set_circuits (spans r + 1) (circuits r) (nextCircuit r) r.
Definition spanDone (r : Relay) : Relay := set_circuits (spans r - 1) (circuits r) (nextCircuit r) r.

(** [handleConnect] up to the counting of the circuit: the status of a refusal, or the
    number of the circuit, and the relay after it.  [fail] ends the span that was begun. *)
Definition admitCircuit (spanOk memoryOk : bool) (s : bytes) (a : Maddr) (peer : option pb_Peer) (r : Relay) : (Z + nat) * Relay :=
  if negb spanOk then (inl RESOURCE_LIMIT_EXCEEDED, r)
  else
  let r := beginSpan r in
  let fail (status : Z) : (Z + nat) * Relay := (inl status, spanDone r) in
  if negb memoryOk then fail RESOURCE_LIMIT_EXCEEDED
  else if isRelayAddr a then fail PERMISSION_DENIED
  else match PeerToPeerInfoV2 peer with
  | Ok dest =>
    if (match acl with Some f => negb (f.2 s a (ID dest)) | None => false end) then fail PERMISSION_DENIED
    else match rsvp r !! ID dest with
    | None => fail NO_RESERVATION
    | Some _ =>
      if MaxCircuits rc <=? default 0 (conns r !! s) then fail RESOURCE_LIMIT_EXCEEDED
      else if MaxCircuits rc <=? default 0 (conns r !! ID dest) then fail RESOURCE_LIMIT_EXCEEDED
      else
        let id := nextCircuit r in
        let r := addConn (ID dest) (addConn s r) in
        (inr id, set_circuits (spans r) (<[id := {| src := s; dst := ID dest; goroutines := None |}]> (circuits r)) (S id) r)
    end
  | _ => fail MALFORMED_MESSAGE
  end.

Lemma span_undone r : spanDone (beginSpan r) = r.
Proof. destruct r. unfold spanDone, beginSpan, set_circuits. cbn. f_equal. lia. Qed.

(** A refusal leaves the relay as it was, its span done. *)
Lemma refused_unchanged spanOk memoryOk s a peer r status :
  (admitCircuit spanOk memoryOk s a peer r).1 = inl status -> (admitCircuit spanOk memoryOk s a peer r).2 = r.
Proof. unfold admitCircuit. cbv zeta. repeat case_match; cbn [fst snd]; intros E; simplify_eq; by rewrite ?span_undone. Qed.

(** How the handshake with the destination goes. *)
Inductive handshake :=
  | NoStream | NoService | NoMemory | NotWritten | NotRead
  | Answered (m : StopMessage) (written : bool).   (* whether the answer to the source is *)

Definition handshakeStatus (o : handshake) : Z :=
  match o with
  | NoService | NoMemory => RESOURCE_LIMIT_EXCEEDED
  | NoStream | NotWritten | NotRead => CONNECTION_FAILED
  | Answered m written =>
    if negb (stop_GetType m =? Stop_STATUS) then CONNECTION_FAILED
    else if negb (stop_GetStatus m =? OK) then CONNECTION_FAILED
    else if negb written then CONNECTION_FAILED
    else OK
  end.

(** The rest of [handleConnect]. *)
Definition finishCircuit (id : nat) (o : handshake) (r : Relay) : Relay :=
  match circuits r !! id with
  | Some {| src := s; dst := d; goroutines := None |} =>
    if handshakeStatus o =? OK
    then set_circuits (spans r) (<[id := {| src := s; dst := d; goroutines := Some 2%nat |}]> (circuits r)) (nextCircuit r) r
    else cleanupCircuit id r
  | _ => r
  end.

(** [done]: a direction of the circuit has ended. *)
Definition circuitDone (id : nat) (r : Relay) : Relay :=
  match circuits r !! id with
  | Some {| src := s; dst := d; goroutines := Some (S n) |} =>
    if (n =? 0)%nat then cleanupCircuit id r
    else set_circuits (spans r) (<[id := {| src := s; dst := d; goroutines := Some n |}]> (circuits r)) (nextCircuit r) r
  | _ => r
  end.

Definition gc (now : Z) (r : Relay) : Relay :=
  let gone (e : Z) := closed r || time_before e now in
  let r := set_rsvp (filter (fun x => gone x.2 = false) (rsvp r)) (rsvpTags r ∖ dom (filter (fun x => gone x.2 = true) (rsvp r))) r in
  set_conns (filter (fun x => x.2 <> 0) (conns r)) (hopTags r) r.

Definition Close (now : Z) (r : Relay) : Relay := if closed r then r else gc now (set_closed r).

(** [connected]: there is another connection to the peer. *)
Definition disconnected (p : bytes) (connected : bool) (r : Relay) : Relay :=
  if connected then r
  else set_cons (cleanupPeer p (cons r)) (set_rsvp (delete p (rsvp r)) (rsvpTags r) r).

(** ** Histories *)

Inductive op :=
  | OReserve (now later : Z) (p : bytes) (a : Maddr)
  | OConnect (spanOk memoryOk : bool) (s : bytes) (a : Maddr) (peer : option pb_Peer)
  | OHandshake (id : nat) (o : handshake)
  | ODone (id : nat)
  | OGc (now : Z)
  | OClose (now : Z)
  | ODisconnected (p : bytes) (connected : bool).

Definition step (r : Relay) (o : op) : Relay :=
  match o with
  | OReserve now later p a => (handleReserve now later p a r).2
  | OConnect spanOk memoryOk s a peer => (admitCircuit spanOk memoryOk s a peer r).2
  | OHandshake id o => finishCircuit id o r
  | ODone id => circuitDone id r
  | OGc now => gc now r
  | OClose now => Close now r
  | ODisconnected p connected => disconnected p connected r
  end.

Definition run (l : list op) : Relay := foldl step New l.

(** ** Counting *)

(** The ends a circuit has at a peer, and those of the circuits between two peers. *)
Definition ends (p : bytes) (c : circuit) : Z := (if decide (src c = p) then 1 else 0) + (if decide (dst c = p) then 1 else 0).
Definition proper_ends (p : bytes) (c : circuit) : Z := if decide (src c = dst c) then 0 else ends p c.

Definition uses (p : bytes) (r : Relay) : Z := msum (fun _ => ends p) (circuits r).
Definition proper_uses (p : bytes) (r : Relay) : Z := msum (fun _ => proper_ends p) (circuits r).

(** [m] counts [f] without zeros. *)
Definition counts (m : gmap bytes Z) (f : bytes -> Z) : Prop :=
  (forall p, default 0 (m !! p) = f p) /\ (forall p n, m !! p = Some n -> 0 < n).

Record relay_ok (G : list Z) (r : Relay) : Prop := {
  r_counts : counts (conns r) (fun p => uses p r);
  r_tags : hopTags r = dom (conns r);
  r_spans : spans r = Z.of_nat (size (circuits r));
  r_fresh : forall id, is_Some (circuits r !! id) -> (id < nextCircuit r)%nat;
  r_running : forall id c n, circuits r !! id = Some c -> goroutines c = Some n -> (0 < n <= 2)%nat;
  r_max : forall p, uses p r <= Z.max 0 (MaxCircuits rc) + 1;
  r_proper : forall p, proper_uses p r <= Z.max 0 (MaxCircuits rc);
  r_constraints : constraints_ok rc (cons r);
  r_closed : closed r = true -> rsvp r = ∅;
  r_rsvpTags : dom (rsvp r) ⊆ rsvpTags r;
  r_counted : closed r = false -> forall pe, pe ∈ total (cons r) ->
    rsvp r !! Peer pe = Some (Expiry pe) \/ exists t, t ∈ G /\ Expiry pe < t
}.

Lemma ends_range p c : 0 <= proper_ends p c <= ends p c /\ ends p c <= 2.
Proof. unfold proper_ends, ends. repeat destruct (decide _); lia. Qed.

Lemma counts_ext m f g : (forall p, f p = g p) -> counts m f -> counts m g.
Proof. intros E [H1 H2]. split; [|done]. intros p. by rewrite <-E. Qed.

Lemma counts_nonneg m f p : counts m f -> 0 <= f p.
Proof. intros [H1 H2]. rewrite <-H1. destruct (m !! p) eqn:E; simpl; [|lia]. pose proof (H2 p _ E). lia. Qed.

Lemma addConn_counts p r f : counts (conns r) f -> hopTags r = dom (conns r) ->
  let r' := addConn p r in
  counts (conns r') (fun q => f q + (if decide (p = q) then 1 else 0)) /\ hopTags r' = dom (conns r').
Proof.
  intros [H1 H2] Ht. cbv zeta. unfold addConn. simpl. split; [split|].
  - intros q. destruct (decide (p = q)) as [->|]; [rewrite lookup_insert_eq; simpl; by rewrite H1|rewrite lookup_insert_ne by done]. rewrite H1. lia.
  - intros q n [[<- <-]|[_ E]]%lookup_insert_Some; [|by apply (H2 q)]. destruct (conns r !! p) eqn:E; simpl; [pose proof (H2 p _ E); lia|lia].
  - rewrite dom_insert_L, Ht. destruct (conns r !! p) as [n|] eqn:E; simpl.
    + pose proof (H2 p n E). destruct (Z.eqb_spec (n + 1) 1); [lia|]. assert (p ∈ dom (conns r)) by (apply elem_of_dom; by exists n). set_solver.
    + done.
Qed.

Lemma rmConn_counts p r f : counts (conns r) f -> hopTags r = dom (conns r) -> 0 < f p ->
  let r' := rmConn p r in
  counts (conns r') (fun q => f q - (if decide (p = q) then 1 else 0)) /\ hopTags r' = dom (conns r').
Proof.
  intros [H1 H2] Ht Hp. cbv zeta. unfold rmConn. rewrite H1. destruct (Z.ltb_spec 0 (f p - 1)); simpl; (split; [split|]).
  - intros q. destruct (decide (p = q)) as [->|]; [rewrite lookup_insert_eq; done|rewrite lookup_insert_ne by done]. rewrite H1. lia.
  - intros q n [[<- <-]|[_ E]]%lookup_insert_Some; [lia|by apply (H2 q)].
  - rewrite dom_insert_L, Ht. assert (p ∈ dom (conns r)); [|set_solver]. apply elem_of_dom. specialize (H1 p).
    destruct (conns r !! p); [by eexists|]. simpl in H1. lia.
  - intros q. destruct (decide (p = q)) as [->|]; [rewrite lookup_delete_eq; simpl; lia|rewrite lookup_delete_ne by done]. rewrite H1. lia.
  - intros q n [_ E]%lookup_delete_Some. by apply (H2 q).
  - by rewrite dom_delete_L, Ht.
Qed.

(** What [addConn] and [rmConn] leave alone. *)
Definition keeps (r r' : Relay) : Prop :=
  cons r' = cons r /\ rsvp r' = rsvp r /\ closed r' = closed r /\ rsvpTags r' = rsvpTags r.

Lemma cleanupCircuit_ok G id r c : circuits r !! id = Some c -> relay_ok G r ->
  relay_ok G (cleanupCircuit id r) /\ circuits (cleanupCircuit id r) = delete id (circuits r) /\ keeps r (cleanupCircuit id r).
Proof.
  intros E [O1 O2 O3 O4 O5 O6 O7 O8 O9 O10 O11]. unfold cleanupCircuit. rewrite E.
  assert (forall p, uses p r = ends p c + msum (fun _ => ends p) (delete id (circuits r))) as Hu by (intros p; exact (msum_delete (fun _ => ends p) _ id c E)).
  assert (forall p, proper_uses p r = proper_ends p c + msum (fun _ => proper_ends p) (delete id (circuits r))) as Hpu by (intros p; exact (msum_delete (fun _ => proper_ends p) _ id c E)).
  assert (forall p, 0 <= msum (fun _ => ends p) (delete id (circuits r))) as Hn by (intros p; apply msum_nonneg; intros k s _; pose proof (ends_range p s); lia).
  destruct (rmConn_counts (src c) r (fun p => uses p r) O1 O2) as [C1 T1].
  { rewrite Hu. pose proof (Hn (src c)). assert (1 <= ends (src c) c); [|lia]. unfold ends. repeat destruct (decide _); done || lia. }
  destruct (rmConn_counts (dst c) _ _ C1 T1) as [C2 T2].
  { rewrite Hu. pose proof (Hn (dst c)). assert (1 + (if decide (src c = dst c) then 1 else 0) <= ends (dst c) c); [|lia].
    unfold ends. repeat destruct (decide _); done || lia. }
  set (r2 := rmConn (dst c) (rmConn (src c) r)) in *.
  assert (keeps r r2 /\ circuits r2 = circuits r /\ spans r2 = spans r /\ nextCircuit r2 = nextCircuit r) as ((K1 & K2 & K3 & K4) & K5 & K6 & K7).
  { unfold r2, rmConn, keeps. repeat case_match; done. }
  split; [|by rewrite <-K5]. split; simpl; rewrite ?K1, ?K2, ?K3, ?K4, ?K5, ?K6, ?K7; try done.
  - eapply counts_ext; [|exact C2]. intros p. cbv beta. rewrite Hu. unfold uses. simpl. unfold ends at 1. lia.
  - rewrite O3, map_size_delete, E. pose proof (map_size_ne_0_lookup_1 (circuits r)). assert (size (circuits r) <> 0)%nat; [|lia].
    apply map_size_non_empty_iff. intros Hx. rewrite Hx in E. by rewrite lookup_empty in E.
  - intros i [x [_ Hx]%lookup_delete_Some]. apply O4. by exists x.
  - intros i x n [_ Hx]%lookup_delete_Some. by apply (O5 i).
  - intros p. pose proof (O6 p). rewrite Hu in *. unfold uses. simpl. pose proof (ends_range p c). lia.
  - intros p. pose proof (O7 p). rewrite Hpu in *. unfold proper_uses. simpl. pose proof (ends_range p c). lia.
Qed.

Lemma Reserve_total now p a expiry c : let '(err, c') := Reserve ToIP v6 AsnForIPv6 rc now p a expiry c in
  (forall pe, pe ∈ total c' -> (pe ∈ total c /\ Peer pe <> p) \/ (err = None /\ pe = {| Expiry := expiry; Peer := p |})) /\
  (err = None -> {| Expiry := expiry; Peer := p |} ∈ total c').
Proof.
  assert (forall pe, pe ∈ total (cleanupPeer p (cleanup now c)) -> pe ∈ total c /\ Peer pe <> p) as Hc.
  { intros pe [Hb [_ Hin]%list_elem_of_filter]%list_elem_of_filter. split; [done|]. by apply bool_decide_eq_false in Hb. }
  unfold Reserve. set (c' := cleanupPeer p (cleanup now c)) in *. clearbody c'.
  destruct (_ <=? _); [split; [auto|done]|]. destruct (ToIP a); [|split; [auto|done]]. destruct (_ <=? _); [split; [auto|done]|].
  cbv zeta. destruct (_ && _); [split; [auto|done]|]. simpl. split.
  - intros pe [Hin| ->%list_elem_of_singleton]%elem_of_app; auto.
  - intros _. apply elem_of_app. right. by apply list_elem_of_singleton.
Qed.

Lemma handleReserve_ok G now later p a r : relay_ok G r -> relay_ok G (handleReserve now later p a r).2.
Proof.
  intros Hok. pose proof Hok as [O1 O2 O3 O4 O5 O6 O7 O8 O9 O10 O11]. unfold handleReserve. destruct (isRelayAddr a); [done|]. destruct (match acl with Some _ => _ | None => _ end); [done|].
  destruct (closed r) eqn:Ec; [done|]. pose proof (Reserve_ok ToIP v6 AsnForIPv6 rc later p a (now + ReservationTTL rc) (cons r) O8) as Hr.
  pose proof (Reserve_total later p a (now + ReservationTTL rc) (cons r)) as Ht. destruct (Reserve _ _ _ _ _ _ _ _ _) as [[err|] c] eqn:Er; simpl in Hr, Ht; destruct Ht as [Ht1 Ht2].
  - split; simpl; try done; [by rewrite Ec|]. intros _ pe Hpe. destruct (Ht1 pe Hpe) as [[Hin _]|[? _]]; [by apply O11|done].
  - split; simpl; try done.
    + by rewrite Ec.
    + rewrite dom_insert_L. set_solver.
    + intros _ pe Hpe. destruct (Ht1 pe Hpe) as [[Hin Hne]|[_ ->]]; [|left; apply lookup_insert_eq]. rewrite lookup_insert_ne by done. by apply O11.
Qed.

Lemma admitCircuit_ok G spanOk memoryOk s a peer r id r' : relay_ok G r -> admitCircuit spanOk memoryOk s a peer r = (inr id, r') ->
  relay_ok G r' /\ circuits r !! id = None /\
  exists d, circuits r' = <[id := {| src := s; dst := d; goroutines := None |}]> (circuits r) /\ is_Some (rsvp r !! d).
Proof.
  intros [O1 O2 O3 O4 O5 O6 O7 O8 O9 O10 O11]. unfold admitCircuit. destruct spanOk; [|done]. destruct memoryOk; [|done]. cbn [negb]. cbv zeta.
  change (rsvp (beginSpan r)) with (rsvp r). change (conns (beginSpan r)) with (conns r). change (nextCircuit (beginSpan r)) with (nextCircuit r).
  destruct (isRelayAddr a); [done|]. destruct (PeerToPeerInfoV2 peer) as [dest| |]; [|done..].
  destruct (match acl with Some _ => _ | None => _ end); [done|]. destruct (rsvp r !! ID dest) as [e|] eqn:Er; [|done].
  destruct (Z.leb_spec (MaxCircuits rc) (default 0 (conns r !! s))) as [|Hs]; [done|].
  destruct (Z.leb_spec (MaxCircuits rc) (default 0 (conns r !! ID dest))) as [|Hd]; [done|]. cbv zeta. intros [= <- <-].
  assert (circuits r !! nextCircuit r = None) as Hf by (apply eq_None_not_Some; intros Hx; apply O4 in Hx; lia).
  destruct (addConn_counts s r _ O1 O2) as [C1 T1]. destruct (addConn_counts (ID dest) _ _ C1 T1) as [C2 T2].
  split; [|split; [done|exists (ID dest); by rewrite Er]]. set (d := ID dest) in *. clearbody d.
  pose proof (proj1 O1 s) as Es. pose proof (proj1 O1 d) as Ed.
  assert (forall g : bytes -> circuit -> Z, forall p, msum (fun _ => g p) (<[nextCircuit r := {| src := s; dst := d; goroutines := None |}]> (circuits r)) =
    g p {| src := s; dst := d; goroutines := None |} + msum (fun _ => g p) (circuits r)) as Hm.
  { intros g p. by rewrite (msum_insert_new (fun _ => g p)). }
  split; simpl; try done.
  - eapply counts_ext; [|exact C2]. intros p. unfold uses at 2. simpl. rewrite Hm. unfold ends at 1. simpl. unfold uses. lia.
  - rewrite map_size_insert_None, O3 by done. lia.
  - intros i [x [[<- _]|[_ Hx]]%lookup_insert_Some]; [lia|]. assert (i < nextCircuit r)%nat by (apply O4; by exists x). lia.
  - intros i x n [[<- <-]|[_ Hx]]%lookup_insert_Some; [done|by apply (O5 i)].
  - intros p. unfold uses. simpl. rewrite Hm. pose proof (O6 p) as Hp. change (msum _ _) with (uses p r). unfold ends. simpl.
    destruct (decide (s = p)) as [->|], (decide (d = p)) as [->|]; lia.
  - intros p. unfold proper_uses. simpl. rewrite Hm. pose proof (O7 p) as Hp. change (msum _ _) with (proper_uses p r).
    assert (proper_uses p r <= uses p r) as Hle.
    { unfold proper_uses, uses. clear. induction (circuits r) as [|k c m E IH] using map_ind; [done|].
      rewrite (msum_insert_new (fun _ => proper_ends p)), (msum_insert_new (fun _ => ends p)) by done. pose proof (ends_range p c). lia. }
    unfold proper_ends, ends. simpl. destruct (decide (s = d)) as [->|]; [lia|].
    destruct (decide (s = p)) as [->|], (decide (d = p)) as [->|]; try done; lia.
Qed.

Lemma restart_ok G id n c r : circuits r !! id = Some c -> (0 < n <= 2)%nat -> relay_ok G r ->
  relay_ok G (set_circuits (spans r) (<[id := {| src := src c; dst := dst c; goroutines := Some n |}]> (circuits r)) (nextCircuit r) r).
Proof.
  intros E Hn [O1 O2 O3 O4 O5 O6 O7 O8 O9 O10 O11].
  assert (forall g : bytes -> circuit -> Z, (forall p, g p {| src := src c; dst := dst c; goroutines := Some n |} = g p c) -> forall p,
    msum (fun _ => g p) (<[id := {| src := src c; dst := dst c; goroutines := Some n |}]> (circuits r)) = msum (fun _ => g p) (circuits r)) as Hm.
  { intros g Hg p. rewrite (msum_update (fun _ => g p) _ _ c) by done. rewrite Hg. lia. }
  split; simpl; try done.
  - eapply counts_ext; [|exact O1]. intros p. unfold uses. simpl. by rewrite (Hm ends).
  - by rewrite map_size_insert, E.
  - intros i [x [[<- _]|[_ Hx]]%lookup_insert_Some]; apply O4; by eexists.
  - intros i x k [[<- <-]|[_ Hx]]%lookup_insert_Some; [by intros [= <-]|by apply (O5 i)].
  - intros p. unfold uses. simpl. rewrite (Hm ends) by done. apply O6.
  - intros p. unfold proper_uses. simpl. rewrite (Hm proper_ends) by done. apply O7.
Qed.

Lemma gc_ok G now r : relay_ok G r \/ (closed r = true /\ relay_ok G (set_rsvp ∅ (rsvpTags r) r) /\ dom (rsvp r) ⊆ rsvpTags r) ->
  relay_ok (now :: G) (gc now r) /\ circuits (gc now r) = circuits r /\ closed (gc now r) = closed r.
Proof.
  intros Hok. split; [|done]. unfold gc. set (gone := fun e => closed r || time_before e now).
  assert (filter (fun x => x.2 <> 0) (conns r) = conns r) as Ef.
  { apply map_filter_id. intros p n E. simpl. assert (counts (conns r) (fun p => uses p r)) as [_ H2] by (destruct Hok as [[? ?]|(_ & [? ?] & _)]; done).
    pose proof (H2 p n E). lia. }
  assert (forall p e, rsvp r !! p = Some e -> filter (fun x => gone x.2 = false) (rsvp r) !! p = if gone e then None else Some e) as Hl.
  { intros p e E. rewrite map_lookup_filter, E. simpl. destruct (gone e); [by rewrite option_guard_False|by rewrite option_guard_True]. }
  assert (dom (rsvp r) ⊆ rsvpTags r) as Hdom by (destruct Hok as [[]|(_ & _ & ?)]; done).
  assert (dom (filter (fun x => gone x.2 = false) (rsvp r)) ⊆ rsvpTags r ∖ dom (filter (fun x => gone x.2 = true) (rsvp r))) as Htags.
  { intros p (e & [E Hg]%map_lookup_filter_Some)%elem_of_dom. simpl in Hg. apply elem_of_difference. split; [apply Hdom, elem_of_dom; by exists e|].
    intros (e' & [E' Hg']%map_lookup_filter_Some)%elem_of_dom. simpl in Hg'. congruence. }
  assert (closed r = true -> filter (fun x => gone x.2 = false) (rsvp r) = ∅) as Hcl.
  { intros Hc. apply map_eq. intros p. rewrite lookup_empty. destruct (rsvp r !! p) as [e|] eqn:E; [|by rewrite map_lookup_filter, E].
    rewrite (Hl p e E). unfold gone. by rewrite Hc. }
  destruct Hok as [[O1 O2 O3 O4 O5 O6 O7 O8 O9 O10 O11]|(Hc & [O1 O2 O3 O4 O5 O6 O7 O8 O9 O10 O11] & _)]; split; simpl; rewrite ?Ef; try done.
  - intros Hc pe Hpe. destruct (O11 Hc pe Hpe) as [E|(t & Ht & Hlt)]; [|right; exists t; split; [by apply elem_of_cons; right|done]].
    pose proof (Hl _ _ E) as El. unfold gone in El. rewrite El, Hc. simpl. destruct (time_before (Expiry pe) now) eqn:Eb; [|by left].
    right. exists now. split; [apply elem_of_cons; by left|]. by apply Z.ltb_lt.
  - intros Hc'. congruence.
Qed.

(** Whatever happens, in whatever order. *)
Lemma step_ok_relay G r o : relay_ok G r ->
  relay_ok (match o with OGc now | OClose now => now :: G | _ => G end) (step r o).
Proof.
  intros Hok. destruct o as [now later p a|spanOk memoryOk s a peer|id o|id|now|now|p connected]; simpl.
  - by apply handleReserve_ok.
  - pose proof (refused_unchanged spanOk memoryOk s a peer r) as Hf.
    destruct (admitCircuit spanOk memoryOk s a peer r) as [[st|id] r'] eqn:E; cbn [fst snd] in *; [by rewrite (Hf st)|]. by apply (admitCircuit_ok _ _ _ _ _ _ _ _ _ Hok E).
  - unfold finishCircuit. destruct (circuits r !! id) as [[s d [g|]]|] eqn:E; [done| |done]. destruct (_ =? _).
    + apply (restart_ok G id 2%nat _ r E); [lia|done].
    + by apply (cleanupCircuit_ok G id r _ E).
  - unfold circuitDone. destruct (circuits r !! id) as [[s d [[|g]|]]|] eqn:E; try done. destruct (Nat.eqb_spec g 0).
    + by apply (cleanupCircuit_ok G id r _ E).
    + apply (restart_ok G id g _ r E); [|done]. pose proof (r_running G r Hok id _ (S g) E eq_refl). lia.
  - apply gc_ok. by left.
  - unfold Close. destruct (closed r) eqn:Ec.
    + destruct Hok as [O1 O2 O3 O4 O5 O6 O7 O8 O9 O10 O11]. split; try done. intros Hc. congruence.
    + apply gc_ok. right. split; [done|]. destruct Hok as [O1 O2 O3 O4 O5 O6 O7 O8 O9 O10 O11]. split; [|done]. split; simpl; try done.
  - unfold disconnected. destruct connected; [done|]. destruct Hok as [O1 O2 O3 O4 O5 O6 O7 O8 O9 O10 O11]. split; simpl; try done.
    + by apply drop_entries_ok.
    + intros Hc. rewrite (O9 Hc). apply delete_empty.
    + rewrite dom_delete_L. set_solver.
    + intros Hc pe [Hb Hin]%list_elem_of_filter. apply bool_decide_eq_false in Hb. rewrite lookup_delete_ne by done. by apply O11.
Qed.

Fixpoint gcs (l : list op) (G : list Z) : list Z :=
  match l with [] => G | o :: l => gcs l (match o with OGc now | OClose now => now :: G | _ => G end) end.

Lemma relay_run_ok l : forall G r, relay_ok G r -> relay_ok (gcs l G) (foldl step r l).
Proof. induction l as [|o l IH]; intros G r Hok; [done|]. simpl. apply IH. by apply step_ok_relay. Qed.

Lemma New_ok : relay_ok [] New.
Proof.
  split; simpl; try done.
  - intros id [? E]. by rewrite lookup_empty in E.
  - intros p. unfold uses. simpl. unfold msum. rewrite map_fold_empty. lia.
  - intros p. unfold proper_uses. simpl. unfold msum. rewrite map_fold_empty. lia.
  - split; simpl; try done; [constructor|by exists []|change (zlen []) with 0; lia].
  - intros _ pe Hpe. by apply elem_of_nil in Hpe.
Qed.

(** C40. In any history the circuits of a peer are counted exactly, at most [MaxCircuits] of them
    and one more only for a peer that is connected to itself; a peer is tagged as long as it
    has one; every circuit holds one span; and once there are no circuits nothing is
    counted, tagged or held. *)
Theorem circuits_counted l : let r := run l in
  (forall p, default 0 (conns r !! p) = uses p r /\ uses p r <= Z.max 0 (MaxCircuits rc) + 1 /\
     ((forall id c, circuits r !! id = Some c -> src c = dst c -> src c <> p) -> uses p r <= Z.max 0 (MaxCircuits rc))) /\
  hopTags r = dom (conns r) /\ spans r = Z.of_nat (size (circuits r)) /\
  (circuits r = ∅ -> conns r = ∅ /\ hopTags r = ∅ /\ spans r = 0).
Proof.
  cbv zeta. pose proof (relay_run_ok l [] New New_ok) as Hok. fold (run l) in Hok. set (r := run l) in *. clearbody r.
  destruct Hok as [[O1 O1'] O2 O3 O4 O5 O6 O7 O8 O9 O10 O11]. split_and!; [|done|done|].
  - intros p. split_and!; [apply O1|apply O6|]. intros Hself. etrans; [|apply (O7 p)]. apply Z.eq_le_incl. unfold uses, proper_uses.
    apply (msum_ext (fun _ => ends p) (fun _ => proper_ends p)). intros id c E. unfold proper_ends. destruct (decide (src c = dst c)) as [Ed|]; [|done].
    pose proof (Hself id c E Ed). unfold ends. rewrite <-Ed. by rewrite decide_False.
  - intros E. assert (conns r = ∅) as Ec; [|rewrite O2, O3, E, Ec, dom_empty_L; by rewrite map_size_empty].
    apply map_eq. intros p. rewrite lookup_empty. destruct (conns r !! p) as [n|] eqn:En; [|done]. pose proof (O1' p n En).
    specialize (O1 p). rewrite En in O1. simpl in O1. unfold uses, msum in O1. rewrite E, map_fold_empty in O1. lia.
Qed.

(** The reservations that are counted are one per peer, within the limits; every one of them
    is a reservation through which its peer can be reached, unless a collection has found
    it expired; and a closed relay has none. *)
Theorem reservations_limited l : let r := run l in
  constraints_ok rc (cons r) /\ dom (rsvp r) ⊆ rsvpTags r /\ (closed r = true -> rsvp r = ∅) /\
  (closed r = false -> forall pe, pe ∈ total (cons r) ->
     rsvp r !! Peer pe = Some (Expiry pe) \/ exists t, t ∈ gcs l [] /\ Expiry pe < t).
Proof. cbv zeta. by destruct (relay_run_ok l [] New New_ok). Qed.

(** ** A reservation lasts *)

(** Nothing that ends the reservation of [p], granted at [now], before [t]. *)
Definition lasting (p : bytes) (now t : Z) (o : op) : Prop :=
  match o with
  | OReserve now' _ _ _ => now <= now'
  | OGc now' => now' <= t
  | OClose _ => False
  | ODisconnected q connected => q = p -> connected = true
  | _ => True
  end.

Lemma lasting_step p now o r e : lasting p now (now + ReservationTTL rc) o -> closed r = false ->
  rsvp r !! p = Some e -> now + ReservationTTL rc <= e ->
  closed (step r o) = false /\ exists e', rsvp (step r o) !! p = Some e' /\ now + ReservationTTL rc <= e'.
Proof.
  intros Ho Hc E He. destruct o as [now' later q a|spanOk memoryOk s a peer|id o|id|now'|now'|q connected]; simpl in *.
  - unfold handleReserve. destruct (isRelayAddr a); [by eauto|]. destruct (match acl with Some _ => _ | None => _ end); [by eauto|].
    rewrite Hc. destruct (Reserve _ _ _ _ _ _ _ _ _) as [[err|] c]; simpl; [by eauto|]. split; [done|].
    destruct (decide (q = p)) as [->|]; [rewrite lookup_insert_eq; eexists; split; [done|lia]|rewrite lookup_insert_ne by done; eauto].
  - pose proof (refused_unchanged spanOk memoryOk s a peer r) as Hf.
    destruct (admitCircuit spanOk memoryOk s a peer r) as [[st|id] r'] eqn:Ea; cbn [fst snd] in *; [rewrite (Hf st) by done; by eauto|]. unfold admitCircuit in Ea.
    repeat case_match; simplify_eq; simpl; eauto.
  - unfold finishCircuit, cleanupCircuit, rmConn. repeat case_match; simpl; eauto.
  - unfold circuitDone, cleanupCircuit, rmConn. repeat case_match; simpl; eauto.
  - split; [done|]. exists e. split; [|done]. rewrite map_lookup_filter, E, Hc. simpl. unfold time_before. destruct (Z.ltb_spec e now'); [lia|].
    by rewrite option_guard_True.
  - done.
  - unfold disconnected. destruct connected; [by eauto|]. simpl. split; [done|]. exists e. rewrite lookup_delete_ne; [done|]. intros ->. by specialize (Ho eq_refl).
Qed.

(** A peer that was granted a reservation can be connected to until the reservation expires,
    whoever else reserves, connects or leaves, unless its last connection or the relay is
    closed: no request for it is answered with [NO_RESERVATION]. *)
Theorem reservation_lasts l later p a now r :
  (handleReserve now later p a r).1.1 = OK ->
  forall spanOk memoryOk s b peer, Forall (lasting p now (now + ReservationTTL rc)) l -> PeerToPeerInfoV2 (Some peer) = Ok {| ID := p; infoAddrs := [] |} ->
  (admitCircuit spanOk memoryOk s b (Some peer) (foldl step (handleReserve now later p a r).2 l)).1 <> inl NO_RESERVATION.
Proof.
  intros Hok spanOk memoryOk s b peer Hl Hp. set (r0 := (handleReserve now later p a r).2).
  assert (closed r0 = false /\ exists e, rsvp r0 !! p = Some e /\ now + ReservationTTL rc <= e) as H0.
  { subst r0. unfold handleReserve in *. destruct (isRelayAddr a); [done|]. destruct (match acl with Some _ => _ | None => _ end); [done|].
    destruct (closed r) eqn:Ec; [done|]. destruct (Reserve _ _ _ _ _ _ _ _ _) as [[err|] c]; [done|]. simpl. split; [done|].
    rewrite lookup_insert_eq. eexists. split; [done|lia]. }
  clearbody r0. clear Hok. revert r0 H0. induction Hl as [|o l Ho Hl IH]; intros r0 (Hc & e & E & He); simpl.
  - unfold admitCircuit. destruct (negb spanOk); [done|]. destruct (negb memoryOk); [done|]. destruct (isRelayAddr b); [done|].
    rewrite Hp. simpl. destruct (match acl with Some _ => _ | None => _ end); [done|]. rewrite E. repeat case_match; done.
  - apply IH. by apply (lasting_step p now o r0 e).
Qed.

(** ** A circuit ends *)

Definition other (id : nat) (o : op) : Prop := match o with OHandshake id' _ | ODone id' => id' <> id | _ => True end.

Lemma cleanup_circuits id r : circuits (cleanupCircuit id r) = delete id (circuits r).
Proof.
  unfold cleanupCircuit. destruct (circuits r !! id) eqn:E; [|by rewrite delete_id]. unfold rmConn. repeat case_match; done.
Qed.

Lemma other_step id o r : other id o -> (id < nextCircuit r)%nat ->
  circuits (step r o) !! id = circuits r !! id /\ (id < nextCircuit (step r o))%nat.
Proof.
  intros Ho Hid. destruct o as [now' later q a|spanOk memoryOk s a peer|id' o|id'|now'|now'|q connected]; simpl in *.
  - unfold handleReserve. repeat case_match; done.
  - pose proof (refused_unchanged spanOk memoryOk s a peer r) as Hf.
    destruct (admitCircuit spanOk memoryOk s a peer r) as [[st|i] r'] eqn:Ea; cbn [fst snd] in *; [by rewrite (Hf st)|]. unfold admitCircuit in Ea.
    repeat case_match; simplify_eq; simpl; (rewrite lookup_insert_ne by lia; split; [done|lia]).
  - unfold finishCircuit. destruct (circuits r !! id') as [[s d [g|]]|]; [done| |done]. destruct (_ =? _); simpl; [by rewrite lookup_insert_ne|].
    rewrite cleanup_circuits, lookup_delete_ne by done. split; [done|]. unfold cleanupCircuit, rmConn. repeat case_match; done.
  - unfold circuitDone. destruct (circuits r !! id') as [[s d [[|g]|]]|]; try done. destruct (_ =? _)%nat; simpl; [|by rewrite lookup_insert_ne].
    rewrite cleanup_circuits, lookup_delete_ne by done. split; [done|]. unfold cleanupCircuit, rmConn. repeat case_match; done.
  - done.
  - unfold Close. by destruct (closed r).
  - unfold disconnected. by destruct connected.
Qed.

Lemma others_run id l : forall r, Forall (other id) l -> (id < nextCircuit r)%nat ->
  circuits (foldl step r l) !! id = circuits r !! id /\ (id < nextCircuit (foldl step r l))%nat.
Proof.
  induction l as [|o l IH]; intros r Hl Hid; [done|]. apply Forall_cons in Hl as [Ho Hl]. simpl.
  destruct (other_step id o r Ho Hid) as [E Hid']. rewrite <-E. by apply IH.
Qed.

(** Whatever else goes on, a circuit is cleaned up when its handshake fails, and when both of
    its directions have ended if it does not: so what it counts for is given back. *)
Theorem circuit_released l id c : circuits (run l) !! id = Some c -> goroutines c = None ->
  forall l1 o, Forall (other id) l1 ->
  (handshakeStatus o <> OK -> circuits (foldl step (run l) (l1 ++ [OHandshake id o])) !! id = None) /\
  (handshakeStatus o = OK -> forall l2 l3, Forall (other id) l2 -> Forall (other id) l3 ->
     circuits (foldl step (run l) (l1 ++ OHandshake id o :: l2 ++ ODone id :: l3 ++ [ODone id])) !! id = None).
Proof.
  intros E Hg l1 o Hl1. pose proof (relay_run_ok l [] New New_ok) as Hok. fold (run l) in Hok. set (r := run l) in *. clearbody r.
  assert (id < nextCircuit r)%nat as Hid by (eapply r_fresh; [exact Hok|by exists c]).
  destruct (others_run id l1 r Hl1 Hid) as [E1 Hid1]. rewrite E in E1. destruct c as [s d g]. simpl in Hg. subst g. split.
  - intros Ho. rewrite foldl_app. simpl. set (r1 := foldl step r l1) in *. unfold finishCircuit. rewrite E1.
    destruct (Z.eqb_spec (handshakeStatus o) OK); [done|]. rewrite cleanup_circuits. apply lookup_delete_eq.
  - intros Ho l2 l3 Hl2 Hl3. rewrite foldl_app. simpl. rewrite foldl_app. simpl. rewrite foldl_app. simpl. set (r1 := foldl step r l1) in *.
    assert (exists r2, finishCircuit id o r1 = r2 /\ circuits r2 !! id = Some {| src := s; dst := d; goroutines := Some 2%nat |} /\ (id < nextCircuit r2)%nat) as (r2 & -> & E2 & Hid2).
    { eexists. split; [done|]. unfold finishCircuit. rewrite E1, Ho, Z.eqb_refl. simpl. split; [apply lookup_insert_eq|done]. }
    destruct (others_run id l2 r2 Hl2 Hid2) as [E3 Hid3]. rewrite E2 in E3. set (r3 := foldl step r2 l2) in *.
    assert (exists r4, circuitDone id r3 = r4 /\ circuits r4 !! id = Some {| src := s; dst := d; goroutines := Some 1%nat |} /\ (id < nextCircuit r4)%nat) as (r4 & -> & E4 & Hid4).
    { eexists. split; [done|]. unfold circuitDone. rewrite E3. simpl. split; [apply lookup_insert_eq|done]. }
    destruct (others_run id l3 r4 Hl3 Hid4) as [E5 _]. rewrite E4 in E5. unfold circuitDone. rewrite E5. simpl. rewrite cleanup_circuits. apply lookup_delete_eq.
Qed.
End relay.

(** ** Examples: one reservation, one circuit *)

Definition small : Resources := {|
  Limit := None; ReservationTTL := 60; MaxReservations := 1; MaxCircuits := 1; BufferSize := 4; MaxReservationsPerIP := 1; MaxReservationsPerASN := 1 |}.

(** An address without bytes has no IP. *)
Definition ip_ex (a : bytes) : option string := match a with [] => None | _ => Some "192.0.2.1" end.
Definition peer_ex (p : bytes) : pb_Peer := {| pb_Id := Some p; pb_Addrs := [] |}.

Notation step_ex := (@step toy_ids ip_ex (fun _ => false) (fun _ => 0) (fun _ => false) None small).
Notation run_ex := (@run toy_ids ip_ex (fun _ => false) (fun _ => 0) (fun _ => false) None small).
Notation OReserve_ex := (@OReserve toy_ids).
Notation OConnect_ex := (@OConnect toy_ids).

(** A peer that asks to be connected to itself is counted twice. *)
Theorem self_circuit_exceeds :
  conns (run_ex [OReserve_ex 0 0 [1] [9]; OConnect_ex true true [1] [9] (Some (peer_ex [1]))]) !! [1] = Some 2.
Proof. by vm_compute. Qed.

(** A refused renewal takes a peer off the constraints, not off the reservations: there is
    room for one more. *)
Theorem reservation_uncounted :
  let r := run_ex [OReserve_ex 0 0 [1] [9]; OReserve_ex 1 1 [1] []; OReserve_ex 2 2 [2] [9]] in
  zlen (total (cons r)) = 1 /\ size (rsvp r) = 2%nat.
Proof. by vm_compute. Qed.

(** Once expired it is not counted either, but lasts until the next collection. *)
Example expired_uncounted :
  let r := run_ex [OReserve_ex 0 0 [1] [9]; OReserve_ex 61 61 [2] [9]] in
  zlen (total (cons r)) = 1 /\ size (rsvp r) = 2%nat /\ size (rsvp (step_ex r (@OGc toy_ids 62))) = 1%nat.
Proof. by vm_compute. Qed.

Definition answered_ok : handshake := Answered (stop_status OK) true.

Lemma reservation_lasts_witness :
  (@handleReserve toy_ids ip_ex (fun _ => false) (fun _ => 0) (fun _ => false) None small 0 0 [1] [9] New).1.1 = OK /\
  (@admitCircuit toy_ids (fun _ => false) None small true true [3] [9] (Some (peer_ex [1]))
    (foldl step_ex (@handleReserve toy_ids ip_ex (fun _ => false) (fun _ => 0) (fun _ => false) None small 0 0 [1] [9] New).2
       [@OGc toy_ids 60; OReserve_ex 61 61 [2] [9]])).1 <> inl NO_RESERVATION.
Proof.
  split; [by vm_compute|]. apply (@reservation_lasts toy_ids); [by vm_compute| |by vm_compute]. repeat constructor; simpl; lia.
Defined.

Lemma circuit_released_witness :
  let l := [OReserve_ex 0 0 [1] [9]; OConnect_ex true true [3] [9] (Some (peer_ex [1]))] in
  exists c, circuits (run_ex l) !! 0%nat = Some c /\ goroutines c = None /\
    circuits (foldl step_ex (run_ex l) ([] ++ @OHandshake toy_ids 0 answered_ok :: [@OGc toy_ids 5] ++ @ODone toy_ids 0 :: [] ++ [@ODone toy_ids 0])) !! 0%nat = None.
Proof.
  eexists. split; [by vm_compute|]. split; [done|].
  apply (@circuit_released toy_ids ip_ex (fun _ => false) (fun _ => 0) (fun _ => false) None small
    [OReserve_ex 0 0 [1] [9]; OConnect_ex true true [3] [9] (Some (peer_ex [1]))] 0 {| src := [3]; dst := [1]; goroutines := None |});
    first [by vm_compute | by repeat constructor].
Defined.
