(* ===== verification/RelayCopy.v ===== *)
(** * Relaying data

    [copyWithBuffer], [relayLimited] and [relayUnlimited] of
    src/myvendor/go-libp2p/p2p/protocol/circuitv2/relay/relay.go: one direction of a
    circuit.  The source is what its reads will give: chunks, each with the error that comes
    with its last bytes; when there are no more, a read blocks.  The destination is what its
    writes will answer, everything written where it says nothing. *)

From S2P Require Import Prelude.

Inductive readError := EOF | Broken.
Definition source := list (bytes * option readError).
Definition sink := list (Z * bool).          (* bytes written, and whether with an error *)

(** [src.Read(buf)] with [len(buf) = k]; [io.LimitReader] with [n] bytes left. *)
Definition Read (k : Z) (s : source) : option (bytes * option readError * source) :=
  match s with
  | [] => None
  | (c, e) :: r =>
    if zlen c <=? k then Some (c, e, r)
    else Some (take (Z.to_nat k) c, None, (drop (Z.to_nat k) c, e) :: r)
  end.

Definition LimitedRead (k : Z) (n : option Z) (s : source) : option (bytes * option readError * source * option Z) :=
  match n with
  | None => '(c, e, s) ← Read k s; Some (c, e, s, None)
  | Some n =>
    if n <=? 0 then Some ([], Some EOF, s, Some n)
    else '(c, e, s) ← Read (Z.min k n) s; Some (c, e, s, Some (n - zlen c))
  end.

Definition Write (nr : Z) (w : sink) : Z * bool * sink :=
  match w with [] => (nr, false, []) | (nw, ew) :: w => (nw, ew, w) end.

Inductive copyError := ReadFailed | WriteFailed | ShortWrite.

(** [Ended]: the loop has returned with [written] and [err]; [out] is what was written. *)
Inductive outcome :=
  | Blocked (out : bytes)
  | Ended (out : bytes) (written : Z) (err : option copyError).

Fixpoint copyWithBuffer (fuel : nat) (k : Z) (n : option Z) (s : source) (w : sink) (out : bytes) (written : Z) : option outcome :=
  match fuel with
  | O => None
  | S fuel =>
    match LimitedRead k n s with
    | None => Some (Blocked out)
    | Some (c, er, s, n) =>
      let nr := zlen c in
      let after out written w :=
        match er with
        | Some EOF => Some (Ended out written None)
        | Some Broken => Some (Ended out written (Some ReadFailed))
        | None => copyWithBuffer fuel k n s w out written
        end in
      if 0 <? nr then
        let '(nw, ew, w) := Write nr w in
        let '(nw, ew) := if (nw <? 0) || (nr <? nw) then (0, true) else (nw, ew) in
        let out := out ++ take (Z.to_nat nw) c in
        let written := written + nw in
        if ew then Some (Ended out written (Some WriteFailed))
        else if negb (nr =? nw) then Some (Ended out written (Some ShortWrite))
        else after out written w
      else after out written w
    end
  end.

Inductive finish :=
  | ResetBoth
  | CloseWrite (closeRead : bool).      (* of the destination; and [CloseRead] of the source *)

Definition relayLimited (fuel : nat) (k limit : Z) (s : source) (w : sink) : option (outcome * option finish) :=
  r ← copyWithBuffer fuel k (Some limit) s w [] 0;
  Some (r, match r with
           | Blocked _ => None
           | Ended _ _ (Some _) => Some ResetBoth
           | Ended _ count None => Some (CloseWrite (count =? limit))
           end).

Definition relayUnlimited (fuel : nat) (k : Z) (s : source) (w : sink) : option (outcome * option finish) :=
  r ← copyWithBuffer fuel k None s w [] 0;
  Some (r, match r with
           | Blocked _ => None
           | Ended _ _ (Some _) => Some ResetBoth
           | Ended _ _ None => Some (CloseWrite false)
           end).

(** ** What is relayed *)

(** The bytes of a source up to its end, and how it ends. *)
Fixpoint content (s : source) : bytes :=
  match s with [] => [] | (c, None) :: r => c ++ content r | (c, Some _) :: _ => c end.
Fixpoint ending (s : source) : option readError :=
  match s with [] => None | (_, None) :: r => ending r | (_, Some e) :: _ => Some e end.

(** Turns that are enough: one per byte and per chunk. *)
Fixpoint turns (s : source) : nat := match s with [] => 0 | (c, _) :: r => S (length c) + turns r end.

Definition within (n : option Z) (l : bytes) : bytes := match n with None => l | Some n => take (Z.to_nat n) l end.

Lemma Read_spec k s c e s' : 0 < k -> Read k s = Some (c, e, s') ->
  zlen c <= k /\ (turns s' < turns s)%nat /\
  match e with
  | Some e => content s = c /\ ending s = Some e
  | None => content s = c ++ content s' /\ ending s = ending s'
  end.
Proof.
  intros Hk. destruct s as [|[c0 e0] r]; [done|]. simpl. destruct (Z.leb_spec (zlen c0) k) as [Hle|Hgt]; intros [= <- <- <-].
  - split_and!; [done|lia|]. by destruct e0.
  - unfold zlen in *. split_and!; [rewrite length_take; lia|simpl; rewrite length_drop; lia| |by destruct e0].
    simpl. destruct e0; simpl; [by rewrite take_drop|]. by rewrite app_assoc, take_drop.
Qed.

Definition left_ok (n : option Z) : Prop := match n with Some n => 0 <= n | None => True end.

Lemma LimitedRead_spec k n s c e s' n' : 0 < k -> left_ok n -> LimitedRead k n s = Some (c, e, s', n') ->
  left_ok n' /\ (n = None -> n' = None) /\
  ((n = Some 0 /\ c = [] /\ e = Some EOF) \/
   (n <> Some 0 /\ (turns s' < turns s)%nat /\
    within n (content s) = c ++ match e with Some _ => [] | None => within n' (content s') end /\
    match e with Some e => ending s = Some e /\ content s = c | None => ending s = ending s' end /\
    match n with Some n => n' = Some (n - zlen c) | None => n' = None end)).
Proof.
  intros Hk Hn. unfold LimitedRead. destruct n as [n|].
  - simpl in Hn. destruct (Z.leb_spec n 0).
    + assert (n = 0) as -> by lia. intros [= <- <- <- <-]. split_and!; [done|done|by left].
    + intros ([[c0 e0] s0] & E & [= -> -> -> <-])%bind_Some. destruct (Read_spec (Z.min k n) s c e s' ltac:(lia) E) as (H1 & H2 & H3).
      split; [simpl; lia|]. split; [done|]. right. split; [intros [= ->]; lia|]. split; [done|]. unfold zlen in *. destruct e as [e|].
      * destruct H3 as [-> ->]. simpl. rewrite app_nil_r, take_ge by lia. done.
      * destruct H3 as [-> ->]. split; [|done]. simpl. rewrite take_app_ge by lia. do 2 f_equal. lia.
  - intros ([[c0 e0] s0] & E & [= -> -> -> <-])%bind_Some. destruct (Read_spec k s c e s' Hk E) as (H1 & H2 & H3).
    split_and!; [done|done|]. right. split; [done|]. split; [done|]. destruct e as [e|]; destruct H3 as [-> ->]; simpl; [by rewrite app_nil_r|done].
Qed.

(** [r] is what becomes of copying: what was written is the beginning of what may be; all of
    it if the copy ended without an error; and nothing but a writer or the source ends it
    with one. *)
Definition copied (n : option Z) (s : source) (w : sink) (out : bytes) (r : outcome) : Prop :=
  match r with
  | Blocked o => exists l, o = out ++ l /\ l `prefix_of` within n (content s) /\ (w = [] -> l = within n (content s)) /\ ending s = None
  | Ended o written err =>
    written = zlen o /\ exists l, o = out ++ l /\ l `prefix_of` within n (content s) /\
    match err with
    | None => l = within n (content s) /\ (ending s = Some EOF \/ exists m, n = Some m /\ zlen l = m)
    | Some ReadFailed => l = within n (content s) /\ ending s = Some Broken
    | Some _ => w <> []
    end
  end.

Lemma copied_step n s w out c r n' s' w' : within n (content s) = c ++ within n' (content s') -> ending s = ending s' ->
  match n with Some n => n' = Some (n - zlen c) | None => n' = None end -> (w = [] -> w' = []) ->
  copied n' s' w' (out ++ c) r -> copied n s w out r.
Proof.
  intros Hc He Hn Hw. destruct r as [o|o wr err]; simpl.
  - intros (l & -> & Hp & Hl & Hend). exists (c ++ l). rewrite Hc, He, app_assoc. split_and!; [done|by apply prefix_app| |done].
    intros E. by rewrite Hl by auto.
  - intros (-> & l & -> & Hp & Hm). split; [done|]. exists (c ++ l). rewrite Hc, He, app_assoc. split_and!; [done|by apply prefix_app|].
    destruct err as [[]|]; [|naive_solver..|].
    + destruct Hm as [-> ->]. done.
    + destruct Hm as [-> [Hm|(m & -> & Hm)]]; (split; [done|]); [by left|]. right. destruct n as [n|]; [|done]. injection Hn as Hn.
      exists n. split; [done|]. rewrite zlen_app. lia.
Qed.

Lemma copyWithBuffer_spec k : 0 < k -> forall fuel n s w out written, left_ok n -> written = zlen out -> (turns s < fuel)%nat ->
  exists r, copyWithBuffer fuel k n s w out written = Some r /\ copied n s w out r.
Proof.
  intros Hk fuel. induction fuel as [|fuel IH]; intros n s w out written Hn Hwr Hf; [lia|]. cbn [copyWithBuffer].
  destruct (LimitedRead k n s) as [[[[c e] s'] n']|] eqn:E; cbv zeta.
  2:{ exists (Blocked out). split; [done|]. destruct s as [|[c0 e0] s].
      - exists []. rewrite app_nil_r. split_and!; [done|apply prefix_nil|intros _; destruct n as [n|]; simpl; [by rewrite take_nil|done]|done].
      - exfalso. unfold LimitedRead, Read in E. destruct n as [n|]; [destruct (n <=? 0); [done|]|]; destruct (zlen c0 <=? _); done. }
  destruct (LimitedRead_spec k n s c e s' n' Hk Hn E) as (Hn' & Hnn & Hcase).
  assert (forall w' out' written', out' = out ++ c -> written' = zlen out' -> (w = [] -> w' = []) ->
    exists r, match e with Some EOF => Some (Ended out' written' None) | Some Broken => Some (Ended out' written' (Some ReadFailed))
              | None => copyWithBuffer fuel k n' s' w' out' written' end = Some r /\ copied n s w out r) as Hafter.
  { intros w' out' written' -> -> Hw'. destruct Hcase as [(-> & -> & ->)|(Hn0 & Ht & Hc & He & Hm)].
    - eexists. split; [done|]. split; [done|]. exists []. simpl. split_and!; [done|apply prefix_nil|done|]. right. by exists 0.
    - destruct e as [[]|].
      + eexists. split; [done|]. split; [done|]. exists c. rewrite app_nil_r in Hc. destruct He as [He _]. rewrite Hc. split_and!; [done|done|done|by left].
      + eexists. split; [done|]. split; [done|]. exists c. rewrite app_nil_r in Hc. destruct He as [He _]. by rewrite Hc.
      + destruct (IH n' s' w' (out ++ c) (zlen (out ++ c)) Hn' eq_refl ltac:(lia)) as (r & -> & Hr). exists r. split; [done|].
        by apply (copied_step n s w out c r n' s' w'). }
  destruct (Z.ltb_spec 0 (zlen c)) as [Hc0|Hc0].
  2:{ apply (Hafter w out written); [|done|done]. destruct c; [by rewrite app_nil_r|]. rewrite zlen_cons in Hc0. pose proof (zlen_nonneg c). lia. }
  assert (exists nw ew w', (let '(nw, ew, w0) := Write (zlen c) w in (if (nw <? 0) || (zlen c <? nw) then (0, true) else (nw, ew), w0)) = (nw, ew, w') /\
    0 <= nw <= zlen c /\ (w = [] -> nw = zlen c /\ ew = false /\ w' = [])) as (nw & ew & w' & Ew & Hnw & Hw).
  { unfold Write. destruct w as [|[nw ew] w0].
    - rewrite (proj2 (Z.ltb_ge _ _)), (proj2 (Z.ltb_ge _ _)) by lia. simpl. eexists _, _, _. split_and!; [done|lia|lia|done].
    - destruct (Z.ltb_spec nw 0), (Z.ltb_spec (zlen c) nw); simpl; eexists _, _, _; (split; [done|]); split; done || lia. }
  destruct (Write (zlen c) w) as [[nw0 ew0] w0]. injection Ew as Ew <-. rewrite Ew.
  assert (forall err, w <> [] -> err <> ReadFailed -> copied n s w out (Ended (out ++ take (Z.to_nat nw) c) (written + nw) (Some err))) as Hfail.
  { intros err Hne Her. split; [rewrite zlen_app, Hwr; unfold zlen in *; rewrite length_take; lia|]. exists (take (Z.to_nat nw) c). split_and!; [done| |by destruct err].
    destruct Hcase as [(-> & -> & ->)|(Hn0 & Ht & Hc & He & Hm)]; [by rewrite take_nil; apply prefix_nil|]. rewrite Hc.
    etrans; [|apply prefix_app_r; reflexivity]. exists (drop (Z.to_nat nw) c). by rewrite take_drop. }
  destruct ew; [eexists; split; [done|apply Hfail; [intros Hx; by destruct (Hw Hx) as (_ & ? & _)|done]]|].
  destruct (Z.eqb_spec (zlen c) nw) as [En|En]; cbn [negb]; [|eexists; split; [done|apply Hfail; [intros Hx; by destruct (Hw Hx) as (? & _)|done]]].
  assert (take (Z.to_nat nw) c = c) as -> by (apply take_ge; unfold zlen in En; lia).
  apply (Hafter w0 (out ++ c) (written + nw)); [done|rewrite zlen_app; lia|]. intros Hx. by destruct (Hw Hx) as (_ & _ & ?).
Qed.

Lemma length_within n l : left_ok n -> match n with Some n => zlen (within (Some n) l) <= n | None => True end.
Proof. destruct n as [n|]; simpl; [|done]. intros Hn. unfold zlen. rewrite length_take. lia. Qed.

(** C29. However the source chops its data and the destination takes it, a direction of a circuit
    writes the beginning of what the source sends, never more than the limit, and reports
    how much; if nothing fails it writes all of it, up to the limit, closes the writing side
    of the destination, and the reading side of the source if the limit is reached; if
    something fails it resets both.  Reaching the limit is thus an orderly end and resets
    nothing, whatever the comments of [RelayLimit] (resources.go) and [Reservation]
    (reservation.go) and src/p2put/summary.md say. *)
Theorem relay_exact k limit s w : 0 < k -> 0 <= limit ->
  exists r f, relayLimited (S (turns s)) k limit s w = Some (r, f) /\
  match r with
  | Blocked o => o `prefix_of` take (Z.to_nat limit) (content s) /\ ending s = None /\ f = None
  | Ended o count err =>
    count = zlen o /\ count <= limit /\ o `prefix_of` content s /\
    (err = None -> o = take (Z.to_nat limit) (content s) /\ f = Some (CloseWrite (zlen o =? limit))) /\
    (err <> None -> f = Some ResetBoth /\ (w <> [] \/ ending s = Some Broken)) /\
    (w = [] -> ending s = Some EOF -> err = None)
  end.
Proof.
  intros Hk Hl. destruct (copyWithBuffer_spec k Hk (S (turns s)) (Some limit) s w [] 0 Hl eq_refl ltac:(lia)) as (r & Er & Hr).
  unfold relayLimited. rewrite Er. simpl. eexists _, _. split; [done|]. destruct r as [o|o count err]; simpl in Hr.
  - destruct Hr as (l & -> & Hp & _ & He). done.
  - destruct Hr as (-> & l & -> & Hp & Hm). simpl. split_and!; [done| | | | |].
    + destruct Hp as [q Hq]. pose proof (length_within (Some limit) (content s) Hl) as Hlw. simpl in Hlw. rewrite Hq, zlen_app in Hlw.
      pose proof (zlen_nonneg q). lia.
    + etrans; [exact Hp|]. exists (drop (Z.to_nat limit) (content s)). by rewrite take_drop.
    + intros ->. by destruct Hm as [<- _].
    + intros Hne. destruct err as [[]|]; [|by split; [|left]..|done]. split; [done|right]. by destruct Hm.
    + intros Hw He. destruct err as [[]|]; [|done..]. destruct Hm as [_ Hm]. congruence.
Qed.

(** Without a limit everything is relayed. *)
Theorem relay_unlimited k s : 0 < k -> ending s = Some EOF ->
  relayUnlimited (S (turns s)) k s [] = Some (Ended (content s) (zlen (content s)) None, Some (CloseWrite false)).
Proof.
  intros Hk He. destruct (copyWithBuffer_spec k Hk (S (turns s)) None s [] [] 0 I eq_refl ltac:(lia)) as (r & Er & Hr).
  unfold relayUnlimited. rewrite Er. simpl. destruct r as [o|o count err]; simpl in Hr.
  - destruct Hr as (l & _ & _ & _ & Hx). congruence.
  - destruct Hr as (-> & l & -> & Hp & Hm). destruct err as [[]|]; [destruct Hm; congruence|done..|]. by destruct Hm as [-> _].
Qed.

(** Two chunks through a buffer of 4 bytes, to a limit of 7. *)
Example relayed_to_the_limit :
  relayLimited 20 4 7 [([1; 2; 3; 4; 5; 6], None); ([7; 8; 9], Some EOF)] [] =
  Some (Ended [1; 2; 3; 4; 5; 6; 7] 7 None, Some (CloseWrite true)).
Proof. by vm_compute. Qed.

(** A writer that reports more than it was given counts as one that failed. *)
Example impossible_write :
  relayLimited 20 4 7 [([1; 2], Some EOF)] [(3, false)] = Some (Ended [] 0 (Some WriteFailed), Some ResetBoth).
Proof. by vm_compute. Qed.

Lemma relay_exact_witness : exists f,
  relayLimited (S (turns [([1; 2; 3], None); ([4; 5], Some EOF)])) 2 10 [([1; 2; 3], None); ([4; 5], Some EOF)] [] = Some (Ended [1; 2; 3; 4; 5] 5 None, f) /\
  f = Some (CloseWrite false).
Proof.
  destruct (relay_exact 2 10 [([1; 2; 3], None); ([4; 5], Some EOF)] [] ltac:(lia) ltac:(lia)) as (r & f & E & H).
  exists f. destruct r as [o|o c err]; [destruct H as (_ & Hx & _); by vm_compute in Hx|]. destruct H as (Hc & _ & _ & H1 & _ & H2).
  specialize (H2 eq_refl eq_refl). subst err c. destruct (H1 eq_refl) as [-> ->]. split; [|done]. by rewrite E.
Defined.

Lemma relay_unlimited_witness :
  relayUnlimited (S (turns [([1; 2; 3], None); ([4], Some EOF)])) 2 [([1; 2; 3], None); ([4], Some EOF)] [] = Some (Ended [1; 2; 3; 4] 4 None, Some (CloseWrite false)).
Proof. by apply (relay_unlimited 2 [([1; 2; 3], None); ([4], Some EOF)]). Defined.
