(* ===== verification/CircuitClient.v ===== *)
(** * Clients of relays

    src/myvendor/go-libp2p/p2p/protocol/circuitv2/client: reserving a slot
    (reservation.go), against the answer of the relay (relay/relay.go,
    [makeReservationMsg]); connecting through a relay and accepting such connections
    (dial.go, handlers.go), against the handshake of [RelayService]; one dial per
    destination (dial.go) and the tags of relays in use (conn.go). *)

From S2P Require Import Prelude GoLib RelayService CircuitWire Envelope.

Section reserving.
Context `{Keys} `{Ids} `{Proto pb_Envelope} `{Proto pb_PeerRecord} `{Proto pb_Voucher}.
(** [IDFromPublicKey]; [IDFromP2PAddr], empty if there is none; [Encapsulate] with the
    component [/p2p/self], if it can be made. *)
Context (IDFromPublicKey : PubKey -> option bytes) (idOf : Maddr -> bytes) (encapsulate : option (Maddr -> Maddr)).

(** ** The answer of the relay *)

Section answer.
Context (addrFilter : Maddr -> bool) (key : PrivKey) (selfID : bytes).

(** The addresses of the relay, each with its id. *)
Definition advertise (enc : Maddr -> Maddr) (a : Maddr) : option Maddr :=
  if negb (addrFilter a) then None
  else if decide (idOf a = []) then Some (enc a)
  else if decide (idOf a = selfID) then Some a
  else None.

Definition makeReservationMsg (selfAddrs : list Maddr) (p : bytes) (expire : Z) : pb_Reservation :=
  let expireUnix := Some (wrapu 64 (Unix expire)) in
  match encapsulate with
  | None => {| Expire := expireUnix; rAddrs := []; Voucher := None |}
  | Some enc =>
    let addrs := map addrBytes (omap (advertise enc) selfAddrs) in
    match Seal {| Relay := selfID; Peer := p; Expiration := expire |} key with
    | Ok envelope => {| Expire := expireUnix; rAddrs := addrs; Voucher := Marshal envelope |}
    | _ => {| Expire := expireUnix; rAddrs := addrs; Voucher := None |}
    end
  end.

(** What [handleReserve] writes. *)
Definition reserveResponse (limit : option RelayLimit) (selfAddrs : list Maddr) (p : bytes) (answer : Z * option Z) : HopMessage :=
  match answer with
  | (status, Some expire) => hop_status status (Some (makeReservationMsg selfAddrs p expire)) (makeLimitMsg limit)
  | (status, None) => hop_status status None None
  end.
End answer.

(** ** The client *)

Record Reservation := {
  rExpiration : Z;
  rsvpAddrs : list Maddr;
  LimitDuration : Z;
  LimitData : Z;
  rVoucher : option ReservationVoucher
}.

(** The status and reason of a [ReservationError]. *)
Definition ReservationError : Type := Z * string.

Definition checkVoucher (self : bytes) (b : bytes) : ReservationError + ReservationVoucher :=
  match ConsumeEnvelope b "libp2p-relay-rsvp" with
  | Ok (env, AVoucher voucher) =>
    match IDFromPublicKey (PublicKey env) with
    | None => inl (MALFORMED_MESSAGE, "invalid voucher signing public key")
    | Some signer =>
      if decide (signer <> Relay voucher) then inl (MALFORMED_MESSAGE, "invalid voucher relay id")
      else if decide (self <> Peer voucher) then inl (MALFORMED_MESSAGE, "invalid voucher peer id")
      else inr voucher
    end
  | Ok (_, APeer _) => inl (MALFORMED_MESSAGE, "unexpected voucher record type")
  | _ => inl (MALFORMED_MESSAGE, "error consuming voucher envelope")
  end.

(** [Reserve] from the answer on; [now] is the time it looks at the expiration. *)
Definition readReservation (now : Z) (self : bytes) (msg : HopMessage) : ReservationError + Reservation :=
  if negb (hop_GetType msg =? Hop_STATUS) then inl (MALFORMED_MESSAGE, "unexpected relay response: not a status message")
  else if negb (hop_GetStatus msg =? OK) then inl (hop_GetStatus msg, "reservation failed")
  else match hReservation msg with
  | None => inl (MALFORMED_MESSAGE, "missing reservation info")
  | Some rsvp =>
    let expiration := from_unix (wraps 64 (default 0 (Expire rsvp))) in
    if time_before expiration now then inl (MALFORMED_MESSAGE, "received reservation with expiration date in the past")
    else
      let '(d, n) := readLimit (hLimit msg) in
      let result voucher := inr {| rExpiration := expiration; rsvpAddrs := parseAddrs (rAddrs rsvp);
                                   LimitDuration := d; LimitData := n; rVoucher := voucher |} in
      match Voucher rsvp with
      | None => result None
      | Some b => match checkVoucher self b with inl e => inl e | inr v => result (Some v) end
      end
  end.

(** [stream]: what the relay sends, if the stream can be opened and written. *)
Definition Reserve `{Framing} `{Proto HopMessage} (now : Z) (self : bytes) (opened written : bool) (stream : bytes) : ReservationError + Reservation :=
  if negb opened then inl (CONNECTION_FAILED, "failed to open stream")
  else if negb written then inl (CONNECTION_FAILED, "error writing reservation message")
  else match ReadMsg stream with
  | Ok (msg, _) => readReservation now self msg
  | _ => inl (CONNECTION_FAILED, "error reading reservation response message: %w")
  end.

(** ** Together *)

Section together.
Context `{!KeysLaw} `{!IdsLaw} `{!ProtoLaw pb_Envelope} `{!ProtoLaw pb_PeerRecord} `{!ProtoLaw pb_Voucher}.

Lemma wraps_wrapu x : - 2 ^ 63 <= x < 2 ^ 63 -> wraps 64 (wrapu 64 x) = x.
Proof. intros Hx. unfold wraps, wrapu. rewrite Zplus_mod_idemp_l, Z.mod_small by lia. lia. Qed.

(** C25. A relay whose key is that of its id grants a reservation, with a limit the message
    can carry or none: the client that reads the answer before it expires has the
    reservation, with the second in which it expires, the addresses of the relay, and a
    voucher for itself by that relay.  The limit of the data arrives as it is; the limit of
    the duration is cut to whole seconds, so one below a second arrives as 0, which stands
    for none ([subsecond_limit_lost]). *)
Theorem reservation_accepted `{Framing} `{!FramingLaw} `{Proto HopMessage} `{!ProtoLaw HopMessage}
  addrFilter key selfID enc selfAddrs p limit expire now e ve body w rest :
  let m := reserveResponse addrFilter key selfID limit selfAddrs p (OK, Some expire) in
  encapsulate = Some enc -> IDFromPublicKey (GetPublic key) = Some selfID -> valid_id selfID -> valid_id p ->
  - 2 ^ 63 <= Unix expire < 2 ^ 63 -> now <= from_unix (Unix expire) -> (forall l, limit = Some l -> sensible l) ->
  Forall (fun a => addrBytes a <> []) (omap (advertise addrFilter selfID enc) selfAddrs) ->
  Seal {| Relay := selfID; Peer := p; Expiration := expire |} key = Ok e -> Marshal e = Some ve ->
  proto_marshal m = Some body -> zlen body <= maxMessageSize -> WriteMsg m = Some w ->
  Reserve now p true true (w ++ rest) =
  inr {| rExpiration := from_unix (Unix expire); rsvpAddrs := omap (advertise addrFilter selfID enc) selfAddrs;
         LimitDuration := match limit with Some l => Duration l - Duration l mod second | None => 0 end;
         LimitData := match limit with Some l => Data l | None => 0 end;
         rVoucher := Some {| Relay := selfID; Peer := p; Expiration := from_unix (Unix expire) |} |}.
Proof.
  intros m Henc Hkey Hself Hp Hd Hnow Hlim Haddrs Hs Hm Hbody Hlen Hw. unfold Reserve. cbn [negb].
  rewrite (framing_exact m body w rest Hbody Hw). destruct (Z.leb_spec (zlen body) maxMessageSize); [|lia].
  unfold m, reserveResponse, makeReservationMsg. rewrite Henc, Hs, Hm. unfold readReservation. cbn -[makeLimitMsg readLimit parseAddrs ConsumeEnvelope from_unix].
  rewrite wraps_wrapu by done. unfold time_before. destruct (Z.ltb_spec (from_unix (Unix expire)) now); [lia|].
  rewrite limit_exact by done. assert (exists d n, announced limit = (d, n) /\
    d = match limit with Some l => Duration l - Duration l mod second | None => 0 end /\
    n = match limit with Some l => Data l | None => 0 end) as (d & n & -> & <- & <-) by (destruct limit; eauto).
  unfold checkVoucher.
  destruct (sealed_consumed key) as [Hv _]. pose proof (Hv {| Relay := selfID; Peer := p; Expiration := expire |} e ve Hself Hp Hd Hs Hm) as Hcons.
  cbn [Relay Peer Expiration] in Hcons. rewrite Hcons. destruct (seal_consume _ key e ve Hs Hm) as (_ & _ & -> & _). rewrite Hkey. cbn [Relay Peer].
  rewrite !decide_False by tauto. by rewrite parse_bytes.
Qed.

(** Whatever the relay sends, a voucher that is kept names the client, and was sealed as such
    by the relay it names, if signatures cannot be forged. *)
Theorem voucher_authentic now self msg rsv v (sealed : PubKey -> list ReservationVoucher) :
  (forall pk m s, Verify pk m s = Some true -> exists rv b, rv ∈ sealed pk /\ MarshalRecord rv = Some b /\ m = makeUnsigned "libp2p-relay-rsvp" [3; 2] b) ->
  (forall pk rv, rv ∈ sealed pk -> valid_id (Relay rv) /\ valid_id (Peer rv) /\ dated rv) ->
  readReservation now self msg = inr rsv -> rVoucher rsv = Some v ->
  now <= rExpiration rsv /\ Peer v = self /\
  exists pk rv, rv ∈ sealed pk /\ IDFromPublicKey pk = Some (Relay v) /\ Relay rv = Relay v /\ Peer rv = self /\
    Expiration v = from_unix (Unix (Expiration rv)).
Proof.
  intros Hunf Hval. unfold readReservation. destruct (negb (hop_GetType msg =? Hop_STATUS)); [done|]. destruct (negb _); [done|]. destruct (hReservation msg) as [rsvp|]; [|done].
  unfold time_before. cbv zeta. destruct (Z.ltb_spec (from_unix (wraps 64 (default 0 (Expire rsvp)))) now); [done|]. destruct (readLimit (hLimit msg)) as [d n].
  destruct (Voucher rsvp) as [b|]; [|by intros [= <-]]. unfold checkVoucher. destruct (ConsumeEnvelope b "libp2p-relay-rsvp") as [[env [|v']]| |] eqn:Ec; [done| |done..].
  destruct (IDFromPublicKey (PublicKey env)) as [signer|] eqn:Ei; [|done]. destruct (decide (signer <> Relay v')) as [|Hs]; [done|].
  destruct (decide (self <> Peer v')) as [|Hp]; [done|]. intros [= <-] [= <-]. cbn [rExpiration]. apply dec_stable in Hs, Hp.
  split; [done|]. split; [done|].
  destruct (consumed_was_sealed (PublicKey env) (omap (fun rv => b ← MarshalRecord rv; Some ("libp2p-relay-rsvp", [3; 2], b)) (sealed (PublicKey env))))
    with (data := b) (domain := "libp2p-relay-rsvp") (e := env) (rec := AVoucher v') as [Hin (f & Hf & Hrec)]; [|done|done|].
  { intros m s Hver. destruct (Hunf _ _ _ Hver) as (rv & by_ & Hin & Em & ->). eexists _, _, _. split; [|done]. apply list_elem_of_omap. exists rv.
    split; [done|]. by rewrite Em. }
  apply list_elem_of_omap in Hin as (rv & Hin & (b' & Em & E)%bind_Some). injection E as Et Ep. rewrite <-Et in Hf. rewrite <-Ep in Hrec.
  destruct (Hval _ _ Hin) as (V1 & V2 & V3). rewrite registry_voucher in Hf. injection Hf as <-. cbv beta in Hrec.
  change (AVoucher <$> UnmarshalRecord b' = Some (AVoucher v')) in Hrec. rewrite (voucher_trip rv b' V1 V2 V3 Em) in Hrec. injection Hrec as <-. simpl in *. exists (PublicKey env), rv. split_and!; done || congruence.
Qed.
End together.
End reserving.

(** ** Connecting through a relay *)

Section connecting.
Context `{Ids}.

(** A relayed connection: the peer at its other end, and the limit of its stats. *)
Record Conn := { remote : AddrInfo; limited : option (Z * Z) }.

Definition limitOf (m : option pb_Limit) : option (Z * Z) := l ← m; Some (readLimit (Some l)).

(** [connect], from the answer of the relay on. *)
Definition connect (dest : AddrInfo) (answer : res HopMessage) : string + Conn :=
  match answer with
  | Ok msg =>
    if negb (hop_GetType msg =? Hop_STATUS) then inl "unexpected relay response; not a status message"
    else if negb (hop_GetStatus msg =? OK) then inl "error opening relay circuit"
    else inr {| remote := dest; limited := limitOf (hLimit msg) |}
  | _ => inl "read"
  end.

(** [handleStreamV2] and [Accept]: the status that is answered, and the connection; [taken]:
    a listener takes it in time. *)
Definition handleStreamV2 (msg : res StopMessage) (taken : bool) : Z * option Conn :=
  match msg with
  | Ok msg =>
    if negb (stop_GetType msg =? Stop_CONNECT) then (UNEXPECTED_MESSAGE, None)
    else match PeerToPeerInfoV2 (sPeer msg) with
    | Ok source => if taken then (OK, Some {| remote := source; limited := limitOf (sLimit msg) |}) else (CONNECTION_FAILED, None)
    | _ => (MALFORMED_MESSAGE, None)
    end
  | _ => (MALFORMED_MESSAGE, None)
  end.

(** What the relay sends to the destination, and then to the source. *)
Definition stopRequest (source : bytes) (limit : option RelayLimit) : StopMessage :=
  {| sType := Some Stop_CONNECT; sPeer := Some (PeerInfoToPeerV2 {| ID := source; infoAddrs := [] |}); sLimit := makeLimitMsg limit; sStatus := None |}.

Definition hopAnswer (status : Z) (limit : option RelayLimit) : HopMessage :=
  hop_status status None (if status =? OK then makeLimitMsg limit else None).

(** The three parties agree: the destination has a connection, from the source, exactly if
    the relay lets the circuit stand and the source has one, to the destination; both ends
    know the same limit, which is that of the relay as far as it can be announced. *)
Theorem handshake_agrees `{!IdsLaw} source dest limit taken : valid_id source ->
  let '(status, accepted) := handleStreamV2 (Ok (stopRequest source limit)) taken in
  let relayStatus := handshakeStatus (Answered (stop_status status) true) in
  let opened := connect dest (Ok (hopAnswer relayStatus limit)) in
  if taken then
    relayStatus = OK /\ accepted = Some {| remote := {| ID := source; infoAddrs := [] |}; limited := limitOf (makeLimitMsg limit) |} /\
    opened = inr {| remote := dest; limited := limitOf (makeLimitMsg limit) |} /\
    (limitOf (makeLimitMsg limit) = None <-> limit = None)
  else relayStatus = CONNECTION_FAILED /\ accepted = None /\ opened = inl "error opening relay circuit".
Proof.
  intros Hs. unfold handleStreamV2, stopRequest. cbn -[PeerToPeerInfoV2 PeerInfoToPeerV2 makeLimitMsg limitOf].
  rewrite peer_trip by done || constructor. destruct taken; [|done]. split_and!; [done..|]. by destruct limit.
Qed.
End connecting.

(** ** Relays in use *)

Record hops := { hopCount : gmap bytes Z; hopTagged : gset bytes }.

Definition tagHop (p : bytes) (h : hops) : hops :=
  let n := default 0 (hopCount h !! p) + 1 in
  {| hopCount := <[p := n]> (hopCount h); hopTagged := if n =? 1 then {[p]} ∪ hopTagged h else hopTagged h |}.

Definition untagHop (p : bytes) (h : hops) : hops :=
  let n := default 0 (hopCount h !! p) - 1 in
  if n =? 0 then {| hopCount := delete p (hopCount h); hopTagged := hopTagged h ∖ {[p]} |}
  else {| hopCount := <[p := n]> (hopCount h); hopTagged := hopTagged h |}.

Definition no_hops : hops := {| hopCount := ∅; hopTagged := ∅ |}.

(** The connections, by their relays; a closed one is closed once. *)
Inductive hop_runs : list bytes -> hops -> Prop :=
  | hop_none : hop_runs [] no_hops
  | hop_open p l h : hop_runs l h -> hop_runs (p :: l) (tagHop p h)
  | hop_close p l1 l2 h : hop_runs (l1 ++ p :: l2) h -> hop_runs (l1 ++ l2) (untagHop p h).

Definition through (p : bytes) (l : list bytes) : Z := zlen (filter (fun q => q = p) l).

Lemma through_app p l k : through p (l ++ k) = through p l + through p k.
Proof. unfold through. by rewrite filter_app, zlen_app. Qed.

Lemma through_cons p q l : through p (q :: l) = (if decide (q = p) then 1 else 0) + through p l.
Proof. unfold through. rewrite filter_cons. destruct (decide (q = p)); [rewrite zlen_cons|]; lia. Qed.

(** As long as every connection is closed once, a relay is tagged while a connection goes
    through it, and the connections are counted. *)
Theorem hops_counted l h : hop_runs l h -> forall p,
  default 0 (hopCount h !! p) = through p l /\ (p ∈ hopTagged h <-> p ∈ l) /\ (hopCount h !! p = None <-> p ∉ l).
Proof.
  assert (forall p l, 0 <= through p l /\ (0 < through p l <-> p ∈ l)) as Hth.
  { intros p k. induction k as [|q k [IH1 IH2]]; [split; [done|]; split; [done|by intros ?%elem_of_nil]|]. rewrite through_cons, elem_of_cons, <-IH2.
    destruct (decide (q = p)) as [->|Hq]; [split; [lia|split; [by left|lia]]|]. split; [lia|]. split; [intros ?; right; lia|intros [->|?]; [done|lia]]. }
  induction 1 as [|q l h Hr IH|q l1 l2 h Hr IH]; intros p.
  - split; [done|]. split; [simpl; set_solver|]. simpl. rewrite lookup_empty. split; [by intros _ ?%elem_of_nil|done].
  - destruct (IH p) as (I1 & I2 & I3). destruct (IH q) as (Q1 & Q2 & Q3). rewrite through_cons, elem_of_cons. unfold tagHop. simpl.
    destruct (decide (q = p)) as [->|Hq].
    + rewrite lookup_insert_eq. simpl. split; [rewrite I1; lia|]. split; [|split; [done|tauto]]. destruct (Z.eqb_spec (default 0 (hopCount h !! p) + 1) 1); [set_solver|].
      rewrite I2. split; [by right|]. intros _. apply (Hth p l). destruct (Hth p l). rewrite I1 in *. lia.
    + rewrite lookup_insert_ne by done. split; [rewrite I1; lia|]. split; [|rewrite I3; naive_solver]. destruct (_ =? 1); set_solver.
  - destruct (IH p) as (I1 & I2 & I3). destruct (IH q) as (Q1 & Q2 & Q3). destruct (Hth q (l1 ++ l2)) as [T1 T2]. destruct (Hth p (l1 ++ l2)) as [P1 P2].
    assert (forall r, through r (l1 ++ q :: l2) = (if decide (q = r) then 1 else 0) + through r (l1 ++ l2)) as Hr'.
    { intros r. rewrite !through_app, through_cons. lia. }
    rewrite Hr' in Q1, I1. rewrite (decide_True (P := q = q)) in Q1 by done.
    assert (forall r, r ∈ l1 ++ q :: l2 <-> r = q \/ r ∈ l1 ++ l2) as Hin' by (intros r; rewrite !elem_of_app, elem_of_cons; tauto). rewrite Hin' in I2, I3.
    unfold untagHop. destruct (Z.eqb_spec (default 0 (hopCount h !! q) - 1) 0) as [Ez|Ez]; simpl.
    + assert (q ∉ l1 ++ l2) as Hnot by (rewrite <-T2; lia). destruct (decide (q = p)) as [->|Hq].
      * rewrite lookup_delete_eq. simpl. split; [lia|]. split; [set_solver|done].
      * rewrite lookup_delete_ne by done. split; [lia|]. split; [|rewrite I3; naive_solver]. rewrite elem_of_difference, elem_of_singleton, I2. naive_solver.
    + assert (q ∈ l1 ++ l2) as Hin by (rewrite <-T2; lia). destruct (decide (q = p)) as [->|Hq].
      * rewrite lookup_insert_eq. simpl. split; [lia|]. rewrite I2. naive_solver.
      * rewrite lookup_insert_ne by done. split; [lia|]. rewrite I2, I3. naive_solver.
Qed.

(** A connection that is closed twice leaves a count of -1: the next connection through the
    relay is not tagged. *)
Theorem closed_twice : hopTagged (tagHop [1] (untagHop [1] (untagHop [1] (tagHop [1] no_hops)))) = ∅.
Proof. by vm_compute. Qed.

(** ** One dial per destination *)

Module Dedup.

(** [completion]: [err] once its channel is closed; of an error, whether it is a
    [relayError]. *)
Record completion := { relay : bytes; ended : option (option bool) }.

Inductive phase := Start | Waiting (id : nat) | Dialling (id : nat) | Returned.

Record caller := { dest : bytes; via : bytes; at_ : phase }.

Record client := {
  activeDials : gmap bytes nat;
  completions : list completion;
  callers : list caller
}.

Definition init (l : list (bytes * bytes)) : client :=
  {| activeDials := ∅; completions := []; callers := map (fun x => {| dest := x.1; via := x.2; at_ := Start |}) l |}.

Definition go (x : phase) (c : caller) : caller := {| dest := dest c; via := via c; at_ := x |}.

(** From [retry] on. *)
Definition enter (i : nat) (s : client) : client :=
  match callers s !! i with
  | Some {| dest := p; via := r; at_ := Start |} =>
    match activeDials s !! p with
    | Some id => {| activeDials := activeDials s; completions := completions s; callers := alter (go (Waiting id)) i (callers s) |}
    | None =>
      let id := length (completions s) in
      {| activeDials := <[p := id]> (activeDials s); completions := completions s ++ [{| relay := r; ended := None |}];
         callers := alter (go (Dialling id)) i (callers s) |}
    end
  | _ => s
  end.

(** [dialPeer] has returned. *)
Definition finish (i : nat) (err : option bool) (s : client) : client :=
  match callers s !! i with
  | Some {| dest := p; via := _; at_ := Dialling id |} =>
    {| activeDials := delete p (activeDials s);
       completions := alter (fun d => {| relay := relay d; ended := Some err |}) id (completions s);
       callers := alter (go Returned) i (callers s) |}
  | _ => s
  end.

(** [<-dedup.ch]; [cancelled]: [ctx.Done()] instead. *)
Definition wake (i : nat) (cancelled : bool) (s : client) : client :=
  match callers s !! i with
  | Some {| dest := _; via := r; at_ := Waiting id |} =>
    let move x := {| activeDials := activeDials s; completions := completions s; callers := alter (go x) i (callers s) |} in
    if cancelled then move Returned
    else match completions s !! id with
    | Some {| relay := r'; ended := Some (Some isRelayError) |} =>
      if decide (r' <> r) then move Start
      else if negb isRelayError then move Start
      else move Returned
    | Some {| ended := Some None |} => move Returned
    | _ => s
    end
  | _ => s
  end.

Inductive op := Enter (i : nat) | Finish (i : nat) (err : option bool) | Wake (i : nat) (cancelled : bool).

Definition step (s : client) (o : op) : client :=
  match o with Enter i => enter i s | Finish i err => finish i err s | Wake i cancelled => wake i cancelled s end.

Definition dialling (s : client) (i id : nat) (p : bytes) : Prop :=
  exists r, callers s !! i = Some {| dest := p; via := r; at_ := Dialling id |}.

Record ok (s : client) : Prop := {
  ok_active : forall p id, activeDials s !! p = Some id -> (exists i, dialling s i id p) /\ exists r, completions s !! id = Some {| relay := r; ended := None |};
  ok_dialling : forall i id p, dialling s i id p -> activeDials s !! p = Some id;
  ok_one : forall i j id p q, dialling s i id p -> dialling s j id q -> i = j;
  ok_waiting : forall i p r id, callers s !! i = Some {| dest := p; via := r; at_ := Waiting id |} ->
    exists d, completions s !! id = Some d /\ (ended d = None -> activeDials s !! p = Some id)
}.

Lemma init_ok l : ok (init l).
Proof.
  split; [done|..]; unfold dialling; simpl.
  - intros i id p [r E]. apply list_lookup_fmap_Some in E as ([] & E & _). done.
  - intros i j id p q [r E]. apply list_lookup_fmap_Some in E as ([] & E & _). done.
  - intros i p r id E. apply list_lookup_fmap_Some in E as ([] & E & _). done.
Qed.

Lemma lookup_go s i x j c : alter (go x) i (callers s) !! j = Some c ->
  (j = i /\ exists c0, callers s !! i = Some c0 /\ c = go x c0) \/ (j <> i /\ callers s !! j = Some c).
Proof.
  destruct (decide (j = i)) as [->|Hj]; [rewrite list_lookup_alter_eq|rewrite list_lookup_alter_ne by done; auto].
  destruct (callers s !! i) as [c0|]; [|done]. simpl. intros [= <-]. left. split; [done|]. by exists c0.
Qed.

(** A caller that is not dialling moves to a phase that is not dialling. *)
Lemma move_ok s i x c : ok s -> callers s !! i = Some c -> (forall id, at_ c <> Dialling id) -> (forall id, x <> Dialling id) ->
  (forall id, x = Waiting id -> exists d, completions s !! id = Some d /\ (ended d = None -> activeDials s !! dest c = Some id)) ->
  ok {| activeDials := activeDials s; completions := completions s; callers := alter (go x) i (callers s) |}.
Proof.
  intros [O1 O2 O3 O4] E Hc Hx Hw. set (s' := Build_client _ _ _).
  assert (forall j id p, dialling s' j id p <-> dialling s j id p) as Hd.
  { intros j id p. split; intros [r Er]; exists r.
    - apply lookup_go in Er as [(-> & c0 & _ & E0)|[_ Er]]; [|done]. exfalso. by apply (Hx id); unfold go in E0; injection E0.
    - simpl. destruct (decide (j = i)) as [->|]; [|by rewrite list_lookup_alter_ne]. exfalso. rewrite E in Er. injection Er as ->. by apply (Hc id). }
  split.
  - intros p id Ea. destruct (O1 p id Ea) as [[j Hj] ?]. split; [|done]. exists j. by apply Hd.
  - intros j id p Hj%Hd. by apply (O2 j).
  - intros j k id p q Hj%Hd Hk%Hd. by apply (O3 j k id p q).
  - intros j p r id Er. apply lookup_go in Er as [(-> & c0 & E0 & Ec)|[_ Er]]; [|by apply (O4 j p r id)].
    rewrite E in E0. injection E0 as <-. unfold go in Ec. injection Ec as -> -> <-. by apply Hw.
Qed.

Lemma step_dedup s o : ok s -> ok (step s o).
Proof.
  intros Hok. pose proof Hok as [O1 O2 O3 O4]. destruct o as [i|i err|i cancelled]; simpl.
  - unfold enter. destruct (callers s !! i) as [[p r []]|] eqn:E; try done. destruct (activeDials s !! p) as [id|] eqn:Ea.
    { apply (move_ok s i (Waiting id) _ Hok E); [done..|]. intros id' [= <-]. destruct (O1 p id Ea) as (_ & r' & Ec). by eexists. }
    set (id := length (completions s)).
    assert (forall n d, completions s !! n = Some d -> (completions s ++ [{| relay := r; ended := None |}]) !! n = Some d) as Hk.
    { intros n d Hn. by apply lookup_app_l_Some. }
    assert (forall j n q, dialling {| activeDials := <[p := id]> (activeDials s); completions := completions s ++ [{| relay := r; ended := None |}];
      callers := alter (go (Dialling id)) i (callers s) |} j n q <-> (j = i /\ n = id /\ q = p) \/ (j <> i /\ dialling s j n q)) as Hd.
    { intros j n q. split.
      - intros [r' Er]. apply lookup_go in Er as [(-> & c0 & E0 & Ec)|[Hj Er]]; [left|right; split; [done|by exists r']].
        rewrite E in E0. injection E0 as <-. unfold go in Ec. by injection Ec as -> _ ->.
      - intros [(-> & -> & ->)|[Hj [r' Er]]]; [exists r; simpl; by rewrite list_lookup_alter_eq, E|exists r'; simpl; by rewrite list_lookup_alter_ne]. }
    assert (forall j n q, dialling s j n q -> (n < id)%nat /\ q <> p /\ j <> i) as Hold.
    { intros j n q Hj. pose proof (O2 j n q Hj) as Hq. destruct (O1 q n Hq) as (_ & r' & Ec). apply lookup_lt_Some in Ec.
      split_and!; [done|intros ->; congruence|]. intros ->. destruct Hj as [r'' Er]. rewrite E in Er. done. }
    split; simpl.
    + intros q n [[<- <-]|[Hq En]]%lookup_insert_Some.
      * split; [exists i; apply Hd; by left|]. exists r. unfold id. by rewrite lookup_app_r, Nat.sub_diag by lia.
      * destruct (O1 q n En) as [[j Hj] (r' & Ec)]. split; [exists j; apply Hd; right; split; [by destruct (Hold j n q Hj) as (_ & _ & ?)|done]|]. exists r'. by apply Hk.
    + intros j n q [(-> & -> & ->)|[Hj Hq]]%Hd; [apply lookup_insert_eq|]. destruct (Hold j n q Hq) as (_ & ? & _). rewrite lookup_insert_ne by done. by apply (O2 j).
    + intros j k n q q' [(-> & -> & ->)|[Hj Hq]]%Hd [(-> & ? & ->)|[Hk' Hq']]%Hd; [done|destruct (Hold k id q' Hq'); lia|subst n; destruct (Hold j id q Hq); lia|by apply (O3 j k n q q')].
    + intros j q r' n Er. apply lookup_go in Er as [(-> & c0 & E0 & Ec)|[Hj Er]].
      { rewrite E in E0. by injection E0 as <-. }
      destruct (O4 j q r' n Er) as (d & Ed & Hd'). exists d. split; [by apply Hk|]. intros He. rewrite lookup_insert_ne; [by apply Hd'|]. intros ->. rewrite (Hd' He) in Ea. done.
  - unfold finish. destruct (callers s !! i) as [[p r []]|] eqn:E; try done. assert (dialling s i id p) as Hi by by exists r. pose proof (O2 i id p Hi) as Ha.
    assert (forall j n q, dialling {| activeDials := delete p (activeDials s); completions := alter (fun d => {| relay := relay d; ended := Some err |}) id (completions s);
      callers := alter (go Returned) i (callers s) |} j n q <-> j <> i /\ dialling s j n q) as Hd.
    { intros j n q. split.
      - intros [r' Er]. apply lookup_go in Er as [(-> & c0 & E0 & Ec)|[Hj Er]]; [done|]. split; [done|by exists r'].
      - intros [Hj [r' Er]]. exists r'. simpl. by rewrite list_lookup_alter_ne. }
    assert (forall j n q, dialling s j n q -> j <> i -> q <> p /\ n <> id) as Hne.
    { intros j n q Hj Hji. split.
      - intros ->. pose proof (O2 j n p Hj) as Hn. rewrite Ha in Hn. injection Hn as ->. by apply Hji, (O3 j i n p p).
      - intros ->. by apply Hji, (O3 j i id q p). }
    split; simpl.
    + intros q n [Hq En]%lookup_delete_Some. destruct (O1 q n En) as [[j Hj] (r' & Ec)].
      assert (j <> i) as Hji by (intros ->; destruct Hi as [? Ei], Hj as [? Ej]; congruence). destruct (Hne j n q Hj Hji) as [_ Hn].
      split; [exists j; by apply Hd|]. exists r'. by rewrite list_lookup_alter_ne.
    + intros j n q [Hj Hq]%Hd. destruct (Hne j n q Hq Hj). rewrite lookup_delete_ne by done. by apply (O2 j).
    + intros j k n q q' [Hj Hq]%Hd [Hk Hq']%Hd. by apply (O3 j k n q q').
    + intros j q r' n Er. apply lookup_go in Er as [(-> & c0 & E0 & Ec)|[Hj Er]]; [done|]. destruct (O4 j q r' n Er) as (d & Ed & Hd').
      destruct (decide (n = id)) as [->|Hn]; [rewrite list_lookup_alter_eq, Ed; by eexists|rewrite list_lookup_alter_ne by done]. exists d. split; [done|].
      intros He. rewrite lookup_delete_ne; [by apply Hd'|]. intros ->. specialize (Hd' He). congruence.
  - unfold wake. destruct (callers s !! i) as [[p r []]|] eqn:E; try done.
    destruct cancelled; [by apply (move_ok s i Returned _ Hok E)|]. destruct (completions s !! id) as [[r' [[b|]|]]|]; [| |done..].
    + destruct (decide (r' <> r)); [by apply (move_ok s i Start _ Hok E)|]. destruct b; simpl; by apply (move_ok s i _ _ Hok E).
    + by apply (move_ok s i Returned _ Hok E).
Qed.

(** However the callers take turns, a destination is dialled by one at a time; and whoever
    waits waits for a dial to that destination that is under way, or has ended. *)
Theorem one_dial_per_destination l ops : let s := foldl step (init l) ops in
  (forall i j id id' p, dialling s i id p -> dialling s j id' p -> i = j) /\
  (forall i p r id, callers s !! i = Some {| dest := p; via := r; at_ := Waiting id |} ->
     (exists j, dialling s j id p) \/ exists d err, completions s !! id = Some d /\ ended d = Some err).
Proof.
  cbv zeta. assert (ok (foldl step (init l) ops)) as [O1 O2 O3 O4].
  { assert (ok (init l)) as Hi by apply init_ok. revert Hi. generalize (init l). induction ops as [|o ops IH]; intros s Hs; [done|]. simpl. by apply IH, step_dedup. }
  split.
  - intros i j id id' p Hi Hj. pose proof (O2 i id p Hi) as E. pose proof (O2 j id' p Hj) as E'. rewrite E in E'. injection E' as <-. by apply (O3 i j id p p).
  - intros i p r id E. destruct (O4 i p r id E) as ([r' [err|]] & Ed & Hd); [right; by eexists _, _|left]. destruct (O1 p id (Hd eq_refl)) as [? _]. done.
Qed.
End Dedup.

(** ** Witnesses *)

Definition toy_framing : Framing := {|
  ReadUvarint s := match s with [] => Fail "EOF" | n :: r => Ok (n, r) end;
  uvarint_header n := [n] |}.

Lemma toy_framing_law : @FramingLaw toy_framing.
Proof. by intros n rest Hn. Qed.

(** Granted reservations only. *)
Definition toy_hop : Proto HopMessage := {|
  proto_marshal m :=
    match m with
    | {| hType := Some t; hPeer := None; hReservation := Some {| Expire := Some x; rAddrs := a; Voucher := Some v |};
         hLimit := Some {| lDuration := Some d; lData := Some n |}; hStatus := Some s |} => Some (toy_fields ([t; x; d; n; s] :: v :: a))
    | _ => None
    end;
  proto_unmarshal b :=
    l ← toy_parse b;
    match l with
    | [t; x; d; n; s] :: v :: a =>
      Some {| hType := Some t; hPeer := None; hReservation := Some {| Expire := Some x; rAddrs := a; Voucher := Some v |};
              hLimit := Some {| lDuration := Some d; lData := Some n |}; hStatus := Some s |}
    | _ => None
    end |}.

Lemma toy_hop_law : @ProtoLaw _ toy_hop.
Proof.
  intros [t p r l s] b. simpl. destruct t, p, r as [[[x|] a [v|]]|], l as [[[d|] [n|]]|], s; try done. intros [= <-].
  cbn -[toy_parse toy_fields]. by rewrite toy_parse_fields.
Qed.

Notation keys_ex := (toy_keys (fun _ => true)).

Definition hop_ex : HopMessage :=
  hop_status OK (Some {| Expire := Some 1; rAddrs := []; Voucher := Some [7] |}) (makeLimitMsg (Some DefaultLimit)).

Lemma framing_exact_witness :
  exists b w, @proto_marshal _ toy_hop hop_ex = Some b /\ @WriteMsg toy_framing _ toy_hop hop_ex = Some w /\
    @ReadMsg toy_framing _ toy_hop (w ++ [0; 0]) = Ok (hop_ex, [0; 0]).
Proof.
  eexists _, _. split; [by vm_compute|]. split; [by vm_compute|].
  etrans; [eapply (@framing_exact toy_framing _ toy_hop toy_framing_law toy_hop_law hop_ex); reflexivity|by vm_compute].
Defined.

(** The relay 7 grants peer 3 a minute; its addresses are 9 and, of another peer, 8. *)
Definition idOf_ex (a : bytes) : bytes := match a with [8] => [5] | _ => [] end.
Definition answer_ex (expire : Z) : HopMessage :=
  @reserveResponse keys_ex toy_ids toy_envelope toy_voucher idOf_ex (Some (fun a => a ++ [7])) (fun _ => true) 7 [7]
    (Some DefaultLimit) [[9]; [8]] [3] (OK, Some expire).

Lemma reservation_accepted_witness : exists w,
  @WriteMsg toy_framing _ toy_hop (answer_ex (epoch + minute + 5)) = Some w /\
  @Reserve keys_ex toy_ids toy_envelope toy_peer_record toy_voucher (fun pk => Some [pk]) toy_framing toy_hop (epoch + 1) [3] true true w =
  inr (@Build_Reservation toy_ids (epoch + minute) [[9; 7]] (2 * minute) 131072
    (Some {| Relay := [7]; Peer := [3]; Expiration := epoch + minute |})).
Proof.
  eexists. split; [by vm_compute|].
  pose proof (@reservation_accepted keys_ex toy_ids toy_envelope toy_peer_record toy_voucher (fun pk => Some [pk]) idOf_ex (Some (fun a => a ++ [7]))
    (toy_keys_law (fun _ => true)) toy_ids_law toy_envelope_law toy_peer_record_law toy_voucher_law toy_framing toy_framing_law toy_hop toy_hop_law
    (fun _ => true) 7 [7] (fun a => a ++ [7]) [[9]; [8]] [3] (Some DefaultLimit) (epoch + minute + 5) (epoch + 1)) as HR.
  etrans; [|etrans; [eapply HR with (rest := []); [done|done|done|done| | | | | | | | |]|]].
  - rewrite app_nil_r. reflexivity.
  - vm_compute. by split.
  - by vm_compute.
  - intros l [= <-]. vm_compute. by split.
  - repeat constructor; done.
  - by vm_compute.
  - by vm_compute.
  - by vm_compute.
  - by vm_compute.
  - by vm_compute.
  - by vm_compute.
Defined.

Definition rv_ex : ReservationVoucher := {| Relay := [7]; Peer := [3]; Expiration := epoch |}.
Definition rv_bytes : bytes := toy_fields [[7]; [3]; [1735603200]].
Notation key7 := (toy_keys (fun m => bool_decide (m = makeUnsigned "libp2p-relay-rsvp" [3; 2] rv_bytes))).
Definition rv_envelope : bytes :=
  toy_fields [[7]; [3; 2]; rv_bytes; 7 :: makeUnsigned "libp2p-relay-rsvp" [3; 2] rv_bytes].
Definition rv_msg : HopMessage :=
  hop_status OK (Some {| Expire := Some 1735603200; rAddrs := []; Voucher := Some rv_envelope |}) None.

Lemma voucher_authentic_witness : exists rsv,
  @readReservation key7 toy_ids toy_envelope toy_peer_record toy_voucher (fun pk => Some [pk]) epoch [3] rv_msg = inr rsv /\
  @rVoucher toy_ids rsv = Some rv_ex /\ epoch <= @rExpiration toy_ids rsv /\ exists pk, @Some bytes [pk] = Some (Relay rv_ex).
Proof.
  eexists. split; [by vm_compute|]. split; [by vm_compute|].
  destruct (@voucher_authentic key7 toy_ids toy_envelope toy_peer_record toy_voucher (fun pk => Some [pk]) toy_voucher_law epoch [3] rv_msg
    (@Build_Reservation toy_ids epoch [] 0 0 (Some rv_ex)) rv_ex (fun _ => [rv_ex]))
    as (H1 & _ & pk & rv & _ & H2 & _).
  - intros pk m s Hv. injection Hv as Hv. apply andb_true_iff in Hv as [->%bool_decide_eq_true _]. exists rv_ex, rv_bytes.
    split; [by apply list_elem_of_singleton|]. by vm_compute.
  - intros pk rv ->%list_elem_of_singleton. split_and!; [done..|]. unfold dated. vm_compute. by split.
  - by vm_compute.
  - done.
  - split; [by vm_compute|]. by exists pk.
Defined.

Lemma handshake_agrees_witness :
  handshakeStatus (Answered (stop_status (@handleStreamV2 toy_ids (Ok (@stopRequest toy_ids [3] (Some DefaultLimit))) true).1) true) = OK.
Proof. exact (proj1 (@handshake_agrees toy_ids toy_ids_law [3] (@Build_AddrInfo toy_ids [4] []) (Some DefaultLimit) true eq_refl)). Defined.

Lemma hops_counted_witness : hop_runs [[1]] (untagHop [2] (tagHop [2] (tagHop [1] no_hops))) /\
  hopCount (untagHop [2] (tagHop [2] (tagHop [1] no_hops))) !! [2] = None.
Proof.
  assert (hop_runs [[1]] (untagHop [2] (tagHop [2] (tagHop [1] no_hops)))) as Hr.
  { apply (hop_close [2] [] [[1]]). apply hop_open, hop_open, hop_none. }
  split; [exact Hr|]. apply (hops_counted _ _ Hr [2]). by intros ?%list_elem_of_singleton.
Defined.
