(* ===== verification/ConnMgr.v ===== *)
(** * The connection manager

    src/myvendor/go-libp2p, p2p/net/connmgr/connmgr.go and options.go: the manager the node
    configures with [connmgr.NewConnManager] (p2put/libp2p_bs.go).  It values peers by
    their tags and closes connections of the least valued when there are too many.

    A connection is a pointer; whom it leads to is an argument ([Network]), and so is what
    [Stat] says of it when a trim sorts.  Closing a connection is the connection's: a trim
    returns the connections it closes, and their [Disconnected] notifications are steps of
    their own.  What is done under a lock is one step, and a trim is one step.  The tags
    that decay are kept here and changed by Decay. *)

From Stdlib Require Import Sorting.Sorted.
From stdpp Require Import pretty.
From S2P Require Import Prelude GoLib Scope.

Notation ID := bytes (only parsing).
Notation Conn := positive (only parsing).

Class Network := {
  RemotePeer : Conn -> ID;
  RemotePeer_bytes : forall c, is_bytes (RemotePeer c);
  RemoteMultiaddr : Conn -> string
}.

(** [network.ConnStats], as far as sorting reads it; [NumStreams] counts open streams. *)
Record ConnStats := { StatDirection : Direction; NumStreams : nat }.

(** core/connmgr/decay.go; [DTag] is the pointer to the tag. *)
Record DecayingValue := {
  DTag : positive; DPeer : ID; Added : Z; LastVisit : Z; DValue : Z
}.

Record peerInfo := {
  id : ID;
  tags : gmap string Z;
  decaying : gmap positive DecayingValue;
  value : Z;
  temp : bool;
  conns : gmap Conn Z;
  firstSeen : Z
}.

(** [DecayerCfg] is its [Resolution]; clocks are arguments of the operations. *)
Record config := {
  highWater : Z; lowWater : Z; gracePeriod : Z; silencePeriod : Z; resolution : Z
}.

Record BasicConnMgr := {
  cfg : config;
  peers : gmap ID peerInfo;
  protected : gmap ID (gset string);
  connCount : Z;
  trimCount : Z;
  lastTrim : Z
}.

Definition set_peers (ps : gmap ID peerInfo) (cm : BasicConnMgr) : BasicConnMgr := {|
  cfg := cfg cm; peers := ps; protected := protected cm; connCount := connCount cm;
  trimCount := trimCount cm; lastTrim := lastTrim cm |}.
Definition set_protected (pr : gmap ID (gset string)) (cm : BasicConnMgr) : BasicConnMgr := {|
  cfg := cfg cm; peers := peers cm; protected := pr; connCount := connCount cm;
  trimCount := trimCount cm; lastTrim := lastTrim cm |}.
Definition set_connCount (n : Z) (cm : BasicConnMgr) : BasicConnMgr := {|
  cfg := cfg cm; peers := peers cm; protected := protected cm; connCount := n;
  trimCount := trimCount cm; lastTrim := lastTrim cm |}.
Definition trimmed (now : Z) (cm : BasicConnMgr) : BasicConnMgr := {|
  cfg := cfg cm; peers := peers cm; protected := protected cm; connCount := connCount cm;
  trimCount := wrapu 64 (trimCount cm + 1); lastTrim := now |}.

(** ** Options *)

Inductive Option :=
  | DecayerConfig (resolution : Z)
  | WithClock
  | WithGracePeriod (p : Z)
  | WithSilencePeriod (p : Z).

Definition apply_option (o : Option) (c : config) : res config :=
  match o with
  | DecayerConfig r => Ok {| highWater := highWater c; lowWater := lowWater c;
      gracePeriod := gracePeriod c; silencePeriod := silencePeriod c; resolution := r |}
  | WithClock => Ok c
  | WithGracePeriod p =>
      if p <? 0 then Fail "grace period must be non-negative"
      else Ok {| highWater := highWater c; lowWater := lowWater c;
             gracePeriod := p; silencePeriod := silencePeriod c; resolution := resolution c |}
  | WithSilencePeriod p =>
      if p <=? 0 then Fail "silence period must be non-zero"
      else Ok {| highWater := highWater c; lowWater := lowWater c;
             gracePeriod := gracePeriod c; silencePeriod := p; resolution := resolution c |}
  end.

Fixpoint apply_options (opts : list Option) (c : config) : res config :=
  match opts with
  | [] => Ok c
  | o :: opts => let! c := apply_option o c in apply_options opts c
  end.

Definition DefaultResolution : Z := minute.

Definition new_manager (c : config) : BasicConnMgr := {|
  cfg := c; peers := ∅; protected := ∅; connCount := 0; trimCount := 0; lastTrim := zero_time |}.

Definition NewConnManager (low hi : Z) (opts : list Option) : res BasicConnMgr :=
  let! c := apply_options opts {| highWater := hi; lowWater := low; gracePeriod := minute;
              silencePeriod := 10 * second; resolution := DefaultResolution |} in
  Ok (new_manager c).

(** ** Segments

    The peers are spread over 256 maps by the last byte of their id; taking the segment of
    an empty id panics.  [peers] is the union of the maps. *)
Definition get (p : ID) : res Z := match last p with Some b => Ok b | None => Panic end.

Definition segment (ps : gmap ID peerInfo) (b : Z) : gmap ID peerInfo :=
  filter (fun e => last e.1 = Some b) ps.

Definition newPeer (p : ID) (now : Z) (t : bool) : peerInfo := {|
  id := p; tags := ∅; decaying := ∅; value := 0; temp := t; conns := ∅; firstSeen := now |}.

(** The entry [tagInfoFor] returns; it is in the map when the caller has changed it. *)
Definition tagInfoFor (ps : gmap ID peerInfo) (p : ID) (now : Z) : peerInfo :=
  match ps !! p with Some pi => pi | None => newPeer p now true end.

Definition with_tags (tg : gmap string Z) (v : Z) (pi : peerInfo) : peerInfo := {|
  id := id pi; tags := tg; decaying := decaying pi; value := wraps 64 v; temp := temp pi;
  conns := conns pi; firstSeen := firstSeen pi |}.
Definition with_decaying (dv : gmap positive DecayingValue) (v : Z) (pi : peerInfo) : peerInfo := {|
  id := id pi; tags := tags pi; decaying := dv; value := wraps 64 v; temp := temp pi;
  conns := conns pi; firstSeen := firstSeen pi |}.
Definition with_conns (cs : gmap Conn Z) (pi : peerInfo) : peerInfo := {|
  id := id pi; tags := tags pi; decaying := decaying pi; value := value pi; temp := temp pi;
  conns := cs; firstSeen := firstSeen pi |}.
(** The entry is no longer temporary. *)
Definition settled (now : Z) (pi : peerInfo) : peerInfo := {|
  id := id pi; tags := tags pi; decaying := decaying pi; value := value pi; temp := false;
  conns := conns pi; firstSeen := now |}.

Definition tagValue (pi : peerInfo) (tag : string) : Z := default 0 (tags pi !! tag).

Definition put_peer (p : ID) (pi : peerInfo) (cm : BasicConnMgr) : BasicConnMgr :=
  set_peers (<[p := pi]> (peers cm)) cm.

(** ** Tags *)

Definition TagPeer (cm : BasicConnMgr) (p : ID) (tag : string) (val now : Z) : res BasicConnMgr :=
  let! _ := get p in
  let pi := tagInfoFor (peers cm) p now in
  Ok (put_peer p (with_tags (<[tag := val]> (tags pi)) (value pi + (val - tagValue pi tag)) pi) cm).

Definition UntagPeer (cm : BasicConnMgr) (p : ID) (tag : string) : res BasicConnMgr :=
  let! _ := get p in
  match peers cm !! p with
  | None => Ok cm
  | Some pi => Ok (put_peer p (with_tags (delete tag (tags pi)) (value pi - tagValue pi tag) pi) cm)
  end.

Definition UpsertTag (cm : BasicConnMgr) (p : ID) (tag : string) (upsert : Z -> Z) (now : Z) : res BasicConnMgr :=
  let! _ := get p in
  let pi := tagInfoFor (peers cm) p now in
  let oldval := tagValue pi tag in
  let newval := upsert oldval in
  Ok (put_peer p (with_tags (<[tag := newval]> (tags pi)) (value pi + (newval - oldval)) pi) cm).

(** ** Protection *)

Definition Protect (cm : BasicConnMgr) (p : ID) (tag : string) : BasicConnMgr :=
  let ts := default ∅ (protected cm !! p) in
  set_protected (<[p := {[tag]} ∪ ts]> (protected cm)) cm.

Definition Unprotect (cm : BasicConnMgr) (p : ID) (tag : string) : BasicConnMgr * bool :=
  match protected cm !! p with
  | None => (cm, false)
  | Some ts =>
      let ts' := ts ∖ {[tag]} in
      if decide (ts' = ∅) then (set_protected (delete p (protected cm)) cm, false)
      else (set_protected (<[p := ts']> (protected cm)) cm, true)
  end.

Definition IsProtected (cm : BasicConnMgr) (p : ID) (tag : string) : bool :=
  match protected cm !! p with
  | None => false
  | Some ts => if decide (tag = "") then true else bool_decide (tag ∈ ts)
  end.

(** [None] is no error. *)
Definition CheckLimit (cm : BasicConnMgr) (systemLimit : Z) : option (Z * Z) :=
  if systemLimit <? highWater (cfg cm) then Some (highWater (cfg cm), systemLimit) else None.

Section manager.
Context `{MR : !MapRange} `{GS : !GoSort} `{NW : !Network}.

(** ** Connections come and go *)

Definition Connected (cm : BasicConnMgr) (c : Conn) (now : Z) : res BasicConnMgr :=
  let p := RemotePeer c in
  let! _ := get p in
  let pinfo := match peers cm !! p with
    | None => newPeer p now false
    | Some pi => if temp pi then settled now pi else pi
    end in
  match conns pinfo !! c with
  | Some _ => Ok (put_peer p pinfo cm)
  | None => Ok (set_connCount (wraps 32 (connCount cm + 1))
                 (put_peer p (with_conns (<[c := now]> (conns pinfo)) pinfo) cm))
  end.

Definition Disconnected (cm : BasicConnMgr) (c : Conn) : res BasicConnMgr :=
  let p := RemotePeer c in
  let! _ := get p in
  match peers cm !! p with
  | None => Ok cm
  | Some cinf =>
      match conns cinf !! c with
      | None => Ok cm
      | Some _ =>
          let cs := delete c (conns cinf) in
          Ok (set_connCount (wraps 32 (connCount cm - 1))
               (if decide (cs = ∅) then set_peers (delete p (peers cm)) cm
                else put_peer p (with_conns cs cinf) cm))
      end
  end.

(** ** What is known of a peer *)

Record TagInfo := { FirstSeen : Z; TValue : Z; Tags : gmap string Z; TConns : gmap string Z }.

(** [tagName] is the name of a decaying tag. *)
Definition GetTagInfo (cm : BasicConnMgr) (tagName : positive -> string) (p : ID) : res (option TagInfo) :=
  let! _ := get p in
  match peers cm !! p with
  | None => Ok None
  | Some pi => Ok (Some {|
      FirstSeen := firstSeen pi;
      TValue := value pi;
      Tags := foldl (fun out e => <[tagName e.1 := DValue e.2]> out) (tags pi) (range_map 0 (decaying pi));
      TConns := foldl (fun out e => <[RemoteMultiaddr e.1 := e.2]> out) ∅ (range_map 1 (conns pi)) |})
  end.

Record CMInfo := { LowWater : Z; HighWater : Z; LastTrim : Z; GracePeriod : Z; ConnCount : Z }.

Definition GetInfo (cm : BasicConnMgr) : CMInfo := {|
  LowWater := lowWater (cfg cm); HighWater := highWater (cfg cm); LastTrim := lastTrim cm;
  GracePeriod := gracePeriod (cfg cm); ConnCount := connCount cm |}.

(** ** Sorting *)

Definition incomingAndStreams (stat : Conn -> ConnStats) (m : gmap Conn Z) : bool * Z :=
  foldl (fun acc e =>
    (match StatDirection (stat e.1) with DirInbound => true | _ => acc.1 end, acc.2 + Z.of_nat (NumStreams (stat e.1))))
    (false, 0) (range_map 2 m).

Definition lessPeer (stat : Conn -> ConnStats) (sortByMoreStreams : bool) (left right : peerInfo) : bool :=
  if negb (eqb (temp left) (temp right)) then temp left
  else if negb (value left =? value right) then value left <? value right
  else
    let '(leftIncoming, leftStreams) := incomingAndStreams stat (conns left) in
    let '(rightIncoming, rightStreams) := incomingAndStreams stat (conns right) in
    if negb (rightStreams =? leftStreams) && ((leftStreams =? 0) || (rightStreams =? 0))
    then leftStreams <? rightStreams
    else if negb (eqb leftIncoming rightIncoming) then leftIncoming
    else if sortByMoreStreams then rightStreams <? leftStreams
    else leftStreams <? rightStreams.

Definition SortByValueAndStreams (stat : Conn -> ConnStats) (sortByMoreStreams : bool) (l : list peerInfo) : list peerInfo :=
  sort_slice (lessPeer stat sortByMoreStreams) l.

(** ** Trimming *)

(** The peers, segment after segment. *)
Definition range_segments (site : nat) (ps : gmap ID peerInfo) : list (ID * peerInfo) :=
  seqZ 0 256 ≫= (fun b => range_map site (segment ps b)).

Definition conn_list (inf : peerInfo) : list Conn := (range_map 3 (conns inf)).*1.
Definition numConns (inf : peerInfo) : Z := Z.of_nat (size (conns inf)).
Definition numConnsOf (l : list peerInfo) : Z := foldr (fun inf n => numConns inf + n) 0 l.

Definition isProtected (cm : BasicConnMgr) (p : ID) : bool := bool_decide (is_Some (protected cm !! p)).
Definition inGrace (cm : BasicConnMgr) (now : Z) (inf : peerInfo) : bool :=
  time_after (firstSeen inf) (now - gracePeriod (cfg cm)).

(** The candidates of a trim, as the loop over the segments collects them. *)
Definition candidates (cm : BasicConnMgr) (now : Z) : list peerInfo :=
  omap (fun e => if isProtected cm e.1 then None else if inGrace cm now e.2 then None else Some e.2)
    (range_segments 4 (peers cm)).

(** The loop that closes: the peers it leaves and the connections it selects. *)
Fixpoint select_conns (l : list peerInfo) (target : Z) (ps : gmap ID peerInfo) (selected : list Conn)
  : gmap ID peerInfo * list Conn :=
  match l with
  | [] => (ps, selected)
  | inf :: l =>
      if target <=? 0 then (ps, selected)
      else if (numConns inf =? 0) && temp inf then select_conns l target (delete (id inf) ps) selected
      else select_conns l (target - numConns inf) ps (selected ++ conn_list inf)
  end.

Definition getConnsToClose (cm : BasicConnMgr) (stat : Conn -> ConnStats) (now : Z) : BasicConnMgr * list Conn :=
  if (lowWater (cfg cm) =? 0) || (highWater (cfg cm) =? 0) then (cm, [])
  else if connCount cm <=? lowWater (cfg cm) then (cm, [])
  else
    let cands := candidates cm now in
    let ncandidates := numConnsOf cands in
    if ncandidates <? lowWater (cfg cm) then (cm, [])
    else
      let '(ps, selected) := select_conns (SortByValueAndStreams stat false cands)
                               (ncandidates - lowWater (cfg cm)) (peers cm) [] in
      (set_peers ps cm, selected).

(** [trim] closes what [getConnsToClose] selects. *)
Definition trim := getConnsToClose.

(** [doTrim], for a caller that read [count] from [trimCount] before it got the lock. *)
Definition doTrim (cm : BasicConnMgr) (count : Z) (stat : Conn -> ConnStats) (now : Z) : BasicConnMgr * list Conn :=
  if count =? trimCount cm then
    let '(cm, closed) := trim cm stat now in (trimmed now cm, closed)
  else (cm, []).

Definition TrimOpenConns := doTrim.

(** A turn of [background] when its ticker fires. *)
Definition background (cm : BasicConnMgr) (stat : Conn -> ConnStats) (now : Z) : BasicConnMgr * list Conn :=
  if connCount cm <? wraps 32 (highWater (cfg cm)) then (cm, []) else trim cm stat now.

(** The period of that ticker. *)
Definition background_interval (c : config) : Z :=
  if negb (silencePeriod c =? 0) then silencePeriod c else Z.quot (gracePeriod c) 2.

(** The loop of an emergency: the target left and the connections selected. *)
Fixpoint pick_conns (l : list peerInfo) (target : Z) (selected : list Conn) : Z * list Conn :=
  match l with
  | [] => (target, selected)
  | inf :: l =>
      if target <=? 0 then (target, selected)
      else pick_conns l (target - numConns inf) (selected ++ conn_list inf)
  end.

Definition getConnsToCloseEmergency (cm : BasicConnMgr) (stat : Conn -> ConnStats) (target : Z) : list Conn :=
  let cands := omap (fun e => if isProtected cm e.1 then None else Some e.2) (range_segments 5 (peers cm)) in
  let '(target, selected) := pick_conns (SortByValueAndStreams stat true cands) target [] in
  if target <=? zlen selected then selected
  else
    let cands := (range_segments 6 (peers cm)).*2 in
    (pick_conns (SortByValueAndStreams stat true cands) target selected).2.

Definition ForceTrim (cm : BasicConnMgr) (stat : Conn -> ConnStats) (now : Z) : BasicConnMgr * list Conn :=
  let target := connCount cm - lowWater (cfg cm) in
  if target <? 0 then (cm, [])
  else (trimmed now cm, getConnsToCloseEmergency cm stat target).
End manager.

(** ** What holds of the peers *)

Definition tag_sum (pi : peerInfo) : Z :=
  msum (fun _ v => v) (tags pi) + msum (fun _ v => DValue v) (decaying pi).

Section invariant.
Context `{NW : !Network}.

Record peer_ok (p : ID) (pi : peerInfo) : Prop := {
  ok_id : id pi = p;
  ok_key : exists b, last p = Some b /\ 0 <= b < 256;
  ok_value : value pi = wraps 64 (tag_sum pi);
  ok_temp : temp pi = true <-> conns pi = ∅;
  ok_conns : forall c t, conns pi !! c = Some t -> RemotePeer c = p;
  ok_decaying : forall t v, decaying pi !! t = Some v -> DTag v = t /\ DPeer v = p
}.

Definition tracked (ps : gmap ID peerInfo) : Z := msum (fun _ pi => numConns pi) ps.

Record cm_ok (cm : BasicConnMgr) : Prop := {
  ok_peers : forall p pi, peers cm !! p = Some pi -> peer_ok p pi;
  ok_count : connCount cm = wraps 32 (tracked (peers cm))
}.

Lemma get_Ok p b : is_bytes p -> get p = Ok b -> last p = Some b /\ 0 <= b < 256.
Proof.
  unfold get. intros Hp E. destruct (last p) as [b'|] eqn:El; [|done]. injection E as ->. split; [done|].
  apply last_Some in El as [l ->]. apply is_bytes_app in Hp as [_ Hp]. by apply Forall_cons_1 in Hp as [Hp _].
Qed.

Lemma newPeer_ok p now t b : is_bytes p -> get p = Ok b -> t = true -> peer_ok p (newPeer p now t).
Proof. intros Hp Hb ->. apply get_Ok in Hb; [|done]. split; try done; eauto. Qed.

Lemma tagInfoFor_ok cm p now b : cm_ok cm -> is_bytes p -> get p = Ok b -> peer_ok p (tagInfoFor (peers cm) p now).
Proof.
  intros Hcm Hp Hb. unfold tagInfoFor. destruct (peers cm !! p) as [pi|] eqn:E; [by eapply ok_peers|].
  by eapply newPeer_ok.
Qed.

Lemma numConns_nonneg pi : 0 <= numConns pi.
Proof. unfold numConns. lia. Qed.

Definition connsOf (ps : gmap ID peerInfo) (p : ID) : Z :=
  match ps !! p with Some pi => numConns pi | None => 0 end.

Lemma tracked_put ps p pi : tracked (<[p := pi]> ps) = tracked ps - connsOf ps p + numConns pi.
Proof.
  unfold tracked, connsOf. destruct (ps !! p) as [pi0|] eqn:E.
  - by rewrite (msum_update _ _ _ _ pi E).
  - rewrite msum_insert_new by done. lia.
Qed.

Lemma tracked_delete ps p : tracked (delete p ps) = tracked ps - connsOf ps p.
Proof.
  unfold tracked, connsOf. destruct (ps !! p) as [pi0|] eqn:E.
  - rewrite (msum_delete _ ps p pi0 E). lia.
  - rewrite delete_id by done. lia.
Qed.

Lemma cm_ok_put cm p pi : cm_ok cm -> peer_ok p pi ->
  cm_ok (set_connCount (wraps 32 (connCount cm + (numConns pi - connsOf (peers cm) p))) (put_peer p pi cm)).
Proof.
  intros [Hps Hc] Hpi. split; simpl.
  - intros q qi [[-> ->]|[_ Hq]]%lookup_insert_Some; [done|by apply Hps].
  - rewrite tracked_put, Hc, wraps_add_l by done. f_equal. lia.
Qed.

Lemma set_connCount_id cm n : n = connCount cm -> set_connCount n cm = cm.
Proof. intros ->. by destruct cm. Qed.

(** A change that leaves the connections alone. *)
Lemma cm_ok_retag cm p pi : cm_ok cm -> peer_ok p pi -> numConns pi = connsOf (peers cm) p -> cm_ok (put_peer p pi cm).
Proof.
  intros Hcm Hpi Hn. pose proof (cm_ok_put cm p pi Hcm Hpi) as H. rewrite set_connCount_id in H; [done|].
  simpl. rewrite Hn, (ok_count _ Hcm). rewrite wraps_add_l by done. f_equal. lia.
Qed.

Lemma connsOf_tagInfoFor cm p now : numConns (tagInfoFor (peers cm) p now) = connsOf (peers cm) p.
Proof. unfold tagInfoFor, connsOf. by destruct (peers cm !! p). Qed.

Lemma with_tags_ok p pi tg v : peer_ok p pi -> wraps 64 v = wraps 64 (value pi + (msum (fun _ v => v) tg - msum (fun _ v => v) (tags pi))) ->
  peer_ok p (with_tags tg v pi).
Proof.
  intros Hpi Hv. destruct Hpi. split; try done. simpl. rewrite Hv, ok_value0. rewrite wraps_add_l by done.
  f_equal. unfold tag_sum. simpl. lia.
Qed.

Lemma with_decaying_ok p pi dv v : peer_ok p pi -> (forall t x, dv !! t = Some x -> DTag x = t /\ DPeer x = p) ->
  wraps 64 v = wraps 64 (value pi + (msum (fun _ x => DValue x) dv - msum (fun _ x => DValue x) (decaying pi))) ->
  peer_ok p (with_decaying dv v pi).
Proof.
  intros Hpi Hd Hv. destruct Hpi. split; try done. simpl. rewrite Hv, ok_value0. rewrite wraps_add_l by done.
  f_equal. unfold tag_sum. simpl. lia.
Qed.

Lemma TagPeer_ok cm p tag val now cm' : is_bytes p -> cm_ok cm -> TagPeer cm p tag val now = Ok cm' -> cm_ok cm'.
Proof.
  unfold TagPeer. intros Hp Hcm (b & Hb & [= <-])%rbind_Ok.
  apply cm_ok_retag; [done| |by rewrite <-(connsOf_tagInfoFor _ _ now)].
  apply with_tags_ok; [by eapply tagInfoFor_ok|]. f_equal. rewrite msum_put. unfold tagValue, default. case_match; simpl; lia.
Qed.

Lemma UpsertTag_ok cm p tag f now cm' : is_bytes p -> cm_ok cm -> UpsertTag cm p tag f now = Ok cm' -> cm_ok cm'.
Proof. intros Hp Hcm E. eapply (TagPeer_ok cm p tag (f (tagValue (tagInfoFor (peers cm) p now) tag)) now); eauto. Qed.

Lemma UntagPeer_ok cm p tag cm' : cm_ok cm -> UntagPeer cm p tag = Ok cm' -> cm_ok cm'.
Proof.
  unfold UntagPeer. intros Hcm (b & Hb & E)%rbind_Ok. destruct (peers cm !! p) as [pi|] eqn:Ep; [|by injection E as <-].
  injection E as <-. apply cm_ok_retag; [done| |by unfold connsOf; rewrite Ep].
  apply with_tags_ok; [by eapply ok_peers|]. f_equal. rewrite msum_remove. unfold tagValue, default. case_match; simpl; lia.
Qed.

Lemma Connected_ok cm c now cm' : cm_ok cm -> Connected cm c now = Ok cm' -> cm_ok cm'.
Proof.
  unfold Connected. intros Hcm (b & Hb & E)%rbind_Ok. set (p := RemotePeer c) in *.
  pose proof (get_Ok p b (RemotePeer_bytes c) Hb) as Hl.
  set (pinfo := match peers cm !! p with Some pi => _ | None => _ end) in E.
  assert (forall c' now', conns pinfo !! c' = None -> RemotePeer c' = p -> peer_ok p (with_conns (<[c' := now']> (conns pinfo)) pinfo)) as Hnew.
  { intros c' t' Hc' Hp. subst pinfo. destruct (peers cm !! p) as [pi|] eqn:Ep.
    - destruct (ok_peers _ Hcm _ _ Ep). destruct (temp pi) eqn:Et; split; simpl; try done;
        [split; [done|intros Hx; by apply insert_non_empty in Hx]| |
         rewrite Et; split; [done|intros Hx; by apply insert_non_empty in Hx]|].
      all: intros c1 t1 [[<- _]|[_ H1]]%lookup_insert_Some; [done|by eapply ok_conns0].
    - split; simpl; try done; [by exists b|].
      + intros c1 t1 [[<- _]|[_ H1]]%lookup_insert_Some; [done|by apply lookup_empty_Some in H1]. }
  assert (numConns pinfo = connsOf (peers cm) p) as Hn.
  { subst pinfo. unfold connsOf. destruct (peers cm !! p) as [pi|]; [|done]. by destruct (temp pi). }
  destruct (conns pinfo !! c) as [t|] eqn:Ec; injection E as <-.
  - apply cm_ok_retag; [done| |done]. subst pinfo. destruct (peers cm !! p) as [pi|] eqn:Ep; [|by simpl in Ec; apply lookup_empty_Some in Ec].
    pose proof (ok_peers _ Hcm _ _ Ep) as Hpi. destruct (temp pi) eqn:Et; [|done]. exfalso.
    apply (ok_temp _ _ Hpi) in Et. simpl in Ec. rewrite Et in Ec. by apply lookup_empty_Some in Ec.
  - pose proof (cm_ok_put cm p _ Hcm (Hnew c now Ec eq_refl)) as H.
    assert (numConns (with_conns (<[c:=now]> (conns pinfo)) pinfo) - connsOf (peers cm) p = 1) as Hd; [|by rewrite Hd in H].
    rewrite <-Hn. unfold numConns. simpl. rewrite map_size_insert_None by done. lia.
Qed.

Lemma size_delete_conn (m : gmap Conn Z) c t : m !! c = Some t -> Z.of_nat (size (delete c m)) = Z.of_nat (size m) - 1.
Proof. intros E. rewrite <-(insert_delete_id m c t E) at 2. rewrite map_size_insert_None by apply lookup_delete_eq. lia. Qed.

Lemma Disconnected_ok cm c cm' : cm_ok cm -> Disconnected cm c = Ok cm' -> cm_ok cm'.
Proof.
  unfold Disconnected. intros Hcm (b & Hb & E)%rbind_Ok. set (p := RemotePeer c) in *.
  destruct (peers cm !! p) as [pi|] eqn:Ep; [|by injection E as <-].
  destruct (conns pi !! c) as [t|] eqn:Ec; [|by injection E as <-]. injection E as <-.
  pose proof (ok_peers _ Hcm _ _ Ep) as Hpi. pose proof (size_delete_conn _ _ _ Ec) as Hs. case_decide as Hd.
  - split; simpl.
    + intros q qi [_ Hq]%lookup_delete_Some. by apply (ok_peers _ Hcm).
    + rewrite tracked_delete, (ok_count _ Hcm). unfold connsOf, numConns. rewrite Ep.
      rewrite Hd, map_size_empty in Hs. replace (Z.of_nat (size (conns pi))) with 1 by lia.
      by rewrite <-Z.add_opp_r, wraps_add_l.
  - assert (peer_ok p (with_conns (delete c (conns pi)) pi)) as Hok.
    { destruct Hpi. split; simpl; try done.
      - split; [|done]. intros Ht. apply ok_temp0 in Ht. by rewrite Ht in Ec; apply lookup_empty_Some in Ec.
      - intros c1 t1 [_ H1]%lookup_delete_Some. by eapply ok_conns0. }
    pose proof (cm_ok_put cm p _ Hcm Hok) as H.
    assert (numConns (with_conns (delete c (conns pi)) pi) - connsOf (peers cm) p = -1) as Hx; [|by rewrite Hx in H].
    unfold connsOf, numConns. rewrite Ep. simpl. lia.
Qed.
End invariant.

(** ** Sorting is by a key *)

Fixpoint lex_lt (a b : list Z) : bool :=
  match a, b with
  | x :: a, y :: b => (x <? y) || ((x =? y) && lex_lt a b)
  | _, _ => false
  end.

Lemma lex_lt_strict_weak {A} (key : A -> list Z) n :
  (forall a, length (key a) = n) -> strict_weak (fun _ => True) (fun a b => lex_lt (key a) (key b)).
Proof.
  intros Hn. split.
  - intros a _. induction (key a) as [|x l IH]; [done|]. simpl. rewrite IH. lia.
  - intros a b c _ _ _. generalize (key a), (key b), (key c). clear. intros l.
    induction l as [|x l IH]; intros [|y k] [|z m]; try done. simpl.
    specialize (IH k m). destruct (lex_lt l k), (lex_lt k m), (lex_lt l m); try specialize (IH eq_refl eq_refl); lia.
  - intros a b c _ _ _. assert (length (key a) = length (key b)) as H1 by by rewrite !Hn.
    assert (length (key b) = length (key c)) as H2 by by rewrite !Hn. revert H1 H2.
    generalize (key a), (key b), (key c). clear. intros l.
    induction l as [|x l IH]; intros [|y k] [|z m]; try done. simpl. intros [= H1] [= H2].
    specialize (IH k m H1 H2). destruct (lex_lt k l), (lex_lt m k), (lex_lt m l); try specialize (IH eq_refl eq_refl); lia.
Qed.

Section trimming.
Context `{MR : !MapRange} `{GS : !GoSort} `{NW : !Network}.
Implicit Types (cm : BasicConnMgr) (pi inf : peerInfo).

(** What a peer is sorted by: temporary entries, then the value, peers without streams,
    peers that connected to us, and the number of streams. *)
Definition sort_key (stat : Conn -> ConnStats) (more : bool) (inf : peerInfo) : list Z :=
  let '(incoming, streams) := incomingAndStreams stat (conns inf) in
  [if temp inf then 0 else 1; value inf; if streams =? 0 then 0 else 1; if incoming then 0 else 1;
   if more then - streams else streams].

Lemma streams_nonneg stat m : 0 <= (incomingAndStreams stat m).2.
Proof.
  unfold incomingAndStreams. assert (0 <= (false, 0).2) as H by done. revert H. generalize (false, 0).
  induction (range_map 2 m) as [|e l IH]; intros acc H; [done|]. apply IH. simpl. lia.
Qed.

Lemma lessPeer_key stat more a b : lessPeer stat more a b = lex_lt (sort_key stat more a) (sort_key stat more b).
Proof.
  unfold lessPeer, sort_key. pose proof (streams_nonneg stat (conns a)). pose proof (streams_nonneg stat (conns b)).
  destruct (incomingAndStreams stat (conns a)) as [ia sa], (incomingAndStreams stat (conns b)) as [ib sb]. simpl in *.
  destruct (temp a), (temp b); simpl; try done;
    (destruct (Z.eqb_spec (value a) (value b)) as [->|Hv]; simpl; [rewrite Z.ltb_irrefl|destruct (value a <? value b) eqn:?; simpl; lia]);
    destruct (Z.eqb_spec sa 0), (Z.eqb_spec sb 0), (Z.eqb_spec sb sa), ia, ib, more; simpl; lia.
Qed.

Lemma lessPeer_weak stat more : strict_weak (fun _ => True) (lessPeer stat more).
Proof.
  pose proof (lex_lt_strict_weak (sort_key stat more) 5) as [H1 H2 H3].
  { intros a. unfold sort_key. by destruct (incomingAndStreams stat (conns a)). }
  split; intros *; rewrite !lessPeer_key; eauto.
Qed.

(** ** The peers a loop over the segments meets *)

Lemma elem_of_segments site ps p pi : (p, pi) ∈ range_segments site ps <->
  ps !! p = Some pi /\ exists b, last p = Some b /\ 0 <= b < 256.
Proof.
  unfold range_segments. rewrite list_elem_of_bind. split.
  - intros (b & Hb & Hin). apply elem_of_seqZ in Hin. apply elem_of_range, map_lookup_filter_Some in Hb as [Hp Hl].
    split; [done|]. exists b. split; [done|lia].
  - intros (Hp & b & Hl & Hb). exists b. split; [|apply elem_of_seqZ; lia].
    apply elem_of_range, map_lookup_filter_Some. done.
Qed.

Lemma NoDup_segments site ps : NoDup (range_segments site ps).
Proof.
  unfold range_segments. apply NoDup_bind; [| |apply NoDup_seqZ].
  - intros b1 b2 [p pi] _ _ [_ H1]%elem_of_range%map_lookup_filter_Some [_ H2]%elem_of_range%map_lookup_filter_Some.
    simpl in *. congruence.
  - intros b _. eapply NoDup_fmap_1, NoDup_range_keys.
Qed.

Lemma segments_perm site cm : cm_ok cm -> range_segments site (peers cm) ≡ₚ map_to_list (peers cm).
Proof.
  intros Hcm. apply NoDup_Permutation; [apply NoDup_segments|apply NoDup_map_to_list|].
  intros [p pi]. rewrite elem_of_segments, elem_of_map_to_list. split; [by intros [? _]|].
  intros Hp. split; [done|]. by destruct (ok_peers _ Hcm _ _ Hp).
Qed.

Definition eligible cm (now : Z) (p : ID) (inf : peerInfo) : bool := negb (isProtected cm p) && negb (inGrace cm now inf).

(** The connections a trim may close. *)
Definition eligible_conns cm (now : Z) : Z :=
  msum (fun p inf => if eligible cm now p inf then numConns inf else 0) (peers cm).

Lemma numConnsOf_perm l k : l ≡ₚ k -> numConnsOf l = numConnsOf k.
Proof. induction 1; simpl; lia. Qed.

Lemma numConnsOf_app l k : numConnsOf (l ++ k) = numConnsOf l + numConnsOf k.
Proof. induction l; simpl; lia. Qed.

(** The peers a loop keeps. *)
Section kept.
Context (h : ID * peerInfo -> option peerInfo) (Hh : forall e, h e = None \/ h e = Some e.2).

Lemma numConnsOf_kept site cm : cm_ok cm ->
  numConnsOf (omap h (range_segments site (peers cm))) =
  msum (fun p inf => if h (p, inf) then numConns inf else 0) (peers cm).
Proof.
  intros Hcm. rewrite msum_list, (numConnsOf_perm _ _ (omap_Permutation _ _ _ (segments_perm site cm Hcm))).
  induction (map_to_list (peers cm)) as [|[p pi] l IH]; [done|]. csimpl.
  destruct (Hh (p, pi)) as [E|E]; rewrite E; csimpl; by rewrite IH.
Qed.

Lemma elem_of_kept site cm inf : cm_ok cm ->
  inf ∈ omap h (range_segments site (peers cm)) <-> exists p, peers cm !! p = Some inf /\ h (p, inf) = Some inf.
Proof.
  intros Hcm. rewrite list_elem_of_omap. split.
  - intros ([p pi] & Hin & E). apply elem_of_segments in Hin as [Hp _]. exists p.
    destruct (Hh (p, pi)) as [E'|E']; simpl in E'; [congruence|]. assert (pi = inf) as -> by congruence. done.
  - intros (p & Hp & E). exists (p, inf). split; [|done].
    apply elem_of_segments. split; [done|]. by destruct (ok_peers _ Hcm _ _ Hp).
Qed.

Lemma NoDup_kept site cm : cm_ok cm -> NoDup (omap h (range_segments site (peers cm))).
Proof.
  intros Hcm. eapply NoDup_fmap_1 with (f := id).
  assert (forall e, e ∈ range_segments site (peers cm) -> id e.2 = e.1) as Hid.
  { intros [p pi] [Hp _]%elem_of_segments. by destruct (ok_peers _ Hcm _ _ Hp). }
  assert (NoDup (range_segments site (peers cm)).*1) as Hk.
  { rewrite (segments_perm site cm Hcm). apply NoDup_fst_map_to_list. }
  induction (range_segments site (peers cm)) as [|[p pi] l IH]; [constructor|]. simpl in Hk.
  apply NoDup_cons in Hk as [Hp Hk]. specialize (IH (fun e He => Hid e (list_elem_of_further _ _ _ He)) Hk). csimpl.
  destruct (Hh (p, pi)) as [E|E]; rewrite E; [done|]. csimpl. apply NoDup_cons. split; [|done].
  intros (inf & Ei & Hin)%list_elem_of_fmap. apply list_elem_of_omap in Hin as ([q qi] & Hq & Eq).
  destruct (Hh (q, qi)) as [E'|E']; [congruence|]. assert (qi = inf) as -> by (simpl in E'; congruence).
  pose proof (Hid (p, pi) (list_elem_of_here _ _)) as H1. pose proof (Hid (q, inf) (list_elem_of_further _ _ _ Hq)) as H2.
  simpl in H1, H2. apply Hp, list_elem_of_fmap. exists (q, inf). split; [|done]. simpl. congruence.
Qed.
End kept.

Lemma candidates_kept cm now e :
  (if isProtected cm e.1 then None else if inGrace cm now e.2 then None else Some e.2) = None \/
  (if isProtected cm e.1 then None else if inGrace cm now e.2 then None else Some e.2) = Some e.2.
Proof. case_match; [by left|]. case_match; auto. Qed.

Lemma numConnsOf_candidates cm now : cm_ok cm -> numConnsOf (candidates cm now) = eligible_conns cm now.
Proof.
  intros Hcm. unfold candidates. rewrite numConnsOf_kept by (done || apply candidates_kept). apply msum_ext.
  intros p pi _. unfold eligible. simpl. by destruct (isProtected cm p), (inGrace cm now pi).
Qed.

Lemma elem_of_trim_candidates cm now inf : cm_ok cm ->
  inf ∈ candidates cm now <-> exists p, peers cm !! p = Some inf /\ eligible cm now p inf = true.
Proof.
  intros Hcm. unfold candidates. rewrite elem_of_kept by (done || apply candidates_kept). unfold eligible. simpl.
  split; intros (p & Hp & E); exists p; (split; [done|]); by destruct (isProtected cm p), (inGrace cm now inf).
Qed.

Lemma NoDup_candidates cm now : cm_ok cm -> NoDup (candidates cm now).
Proof. intros Hcm. unfold candidates. apply NoDup_kept; [apply candidates_kept|done]. Qed.

(** ** The loops that select *)

Lemma length_conn_list inf : Z.of_nat (length (conn_list inf)) = numConns inf.
Proof. unfold conn_list, numConns. by rewrite length_fmap, length_range. Qed.

Lemma elem_of_conn_list inf c : c ∈ conn_list inf <-> is_Some (conns inf !! c).
Proof.
  unfold conn_list. rewrite list_elem_of_fmap. split.
  - intros ([c' t] & -> & Hin). apply elem_of_range in Hin. eauto.
  - intros [t Ht]. exists (c, t). by rewrite elem_of_range.
Qed.

Definition conns_of (l : list peerInfo) : list Conn := l ≫= conn_list.

Lemma length_conns_of l : Z.of_nat (length (conns_of l)) = numConnsOf l.
Proof. induction l as [|inf l IH]; [done|]. unfold conns_of in *. csimpl. rewrite length_app, Nat2Z.inj_add, length_conn_list. by rewrite IH. Qed.

(** They take the peers at the front, as few as reach the target. *)
Lemma pick_prefix l : forall target selected, exists l1 l2, l = l1 ++ l2 /\
  pick_conns l target selected = (target - numConnsOf l1, selected ++ conns_of l1) /\
  (l2 = [] \/ target <= numConnsOf l1) /\
  (forall l0 x, l1 = l0 ++ [x] -> numConnsOf l0 < target).
Proof.
  induction l as [|inf l IH]; intros target selected.
  - exists [], []. split_and!; [done|simpl; by rewrite app_nil_r, Z.sub_0_r|by left|]. intros l0 x E. by destruct l0.
  - simpl. destruct (Z.leb_spec target 0) as [Ht|Ht].
    + exists [], (inf :: l). split_and!; [done|simpl; by rewrite app_nil_r, Z.sub_0_r|by right|]. intros l0 x E. by destruct l0.
    + destruct (IH (target - numConns inf) (selected ++ conn_list inf)) as (l1 & l2 & -> & E & Hl & Hm).
      exists (inf :: l1), l2. split_and!; [done| | |].
      * rewrite E. unfold conns_of. csimpl. rewrite <-app_assoc. f_equal. simpl. lia.
      * destruct Hl as [?|Hl]; [by left|right]. simpl. lia.
      * intros [|y l0] x [= <- E']; [simpl; lia|]. specialize (Hm l0 x E'). simpl. lia.
Qed.

Lemma select_pick l : forall target ps selected, (select_conns l target ps selected).2 = (pick_conns l target selected).2.
Proof.
  induction l as [|inf l IH]; intros target ps selected; [done|]. simpl. destruct (target <=? 0); [done|].
  destruct (Z.eqb_spec (numConns inf) 0) as [Hz|Hz]; simpl; [|by rewrite IH]. destruct (temp inf); [|by rewrite IH].
  rewrite IH, Hz, Z.sub_0_r. assert (conn_list inf = []) as ->; [|by rewrite app_nil_r].
  apply length_zero_iff_nil. pose proof (length_conn_list inf). lia.
Qed.

(** What is taken from the map is empty. *)
Lemma select_keeps l : forall target ps selected,
  (forall inf, inf ∈ l -> ps !! id inf = Some inf \/ ps !! id inf = None) ->
  forall p pi, ps !! p = Some pi ->
  (select_conns l target ps selected).1 !! p = Some pi \/
  ((select_conns l target ps selected).1 !! p = None /\ numConns pi = 0 /\ temp pi = true).
Proof.
  induction l as [|inf l IH]; intros target ps selected Hl p pi Hp; [by left|]. simpl.
  destruct (target <=? 0); [by left|]. destruct (_ && _) eqn:E; [|apply IH; [|done]; intros x Hx; apply Hl; set_solver].
  apply andb_true_iff in E as [E1%Z.eqb_eq E2].
  assert (forall x, x ∈ l -> delete (id inf) ps !! id x = Some x \/ delete (id inf) ps !! id x = None) as Hl'.
  { intros x Hx. destruct (decide (id x = id inf)) as [->|Hne]; [right; apply lookup_delete_eq|].
    rewrite lookup_delete_ne by done. apply Hl. set_solver. }
  destruct (decide (id inf = p)) as [<-|Hne].
  - destruct (Hl inf (list_elem_of_here _ _)) as [Hi|Hi]; [|congruence]. assert (inf = pi) as -> by congruence.
    right. split; [|done]. clear -Hl'. assert (delete (id pi) ps !! id pi = None) as Hd by apply lookup_delete_eq.
    revert Hd. generalize (delete (id pi) ps). generalize (id pi) as q. clear.
    revert target selected. induction l as [|x l IH]; intros target selected q m Hd; [done|]. simpl.
    destruct (target <=? 0); [done|]. destruct (_ && _); apply IH; [|done]. by rewrite lookup_delete_None; right.
  - apply IH; [done|]. by rewrite lookup_delete_ne.
Qed.

Lemma select_sub l : forall target ps selected p pi, (select_conns l target ps selected).1 !! p = Some pi -> ps !! p = Some pi.
Proof.
  induction l as [|inf l IH]; intros target ps selected p pi; [done|]. simpl. destruct (target <=? 0); [done|].
  destruct (_ && _); intros H; apply IH in H; [|done]. by apply lookup_delete_Some in H as [_ H].
Qed.

(** Sums over the peers do not see the empty entries. *)
Lemma msum_sub (g : ID -> peerInfo -> Z) ps ps' :
  (forall p pi, ps' !! p = Some pi -> ps !! p = Some pi) ->
  (forall p pi, ps !! p = Some pi -> ps' !! p = Some pi \/ (ps' !! p = None /\ g p pi = 0)) -> msum g ps' = msum g ps.
Proof.
  revert ps'. induction ps as [|p pi ps Hp IH] using map_ind; intros ps' H1 H2.
  - assert (ps' = ∅) as ->; [|done]. apply map_empty. intros p. destruct (ps' !! p) eqn:E; [|done].
    apply H1 in E. by apply lookup_empty_Some in E.
  - rewrite msum_insert_new by done. rewrite <-(IH (delete p ps')).
    + rewrite msum_remove. destruct (H2 p pi (lookup_insert_eq _ _ _)) as [E|[E Hz]]; rewrite E; lia.
    + intros q qi [Hne Hq]%lookup_delete_Some. apply H1 in Hq. by rewrite lookup_insert_ne in Hq.
    + intros q qi Hq. assert (p <> q) as Hne by by intros ->; rewrite Hp in Hq. rewrite lookup_delete_ne by done.
      apply H2. by rewrite lookup_insert_ne.
Qed.
End trimming.

(** ** What a trim does *)

Section trims.
Context `{MR : !MapRange} `{GS : !GoSort} `{NW : !Network}.
Implicit Types (cm : BasicConnMgr) (pi inf : peerInfo).

Definition tracked_conn cm (c : Conn) : Prop :=
  exists pi, peers cm !! RemotePeer c = Some pi /\ is_Some (conns pi !! c).

(** The notifications for the connections of a list, one after the other. *)
Fixpoint disconnect_all cm (l : list Conn) : res BasicConnMgr :=
  match l with
  | [] => Ok cm
  | c :: l => let! cm := Disconnected cm c in disconnect_all cm l
  end.

Definition weighted (w : ID -> Z -> Z) (ps : gmap ID peerInfo) : Z :=
  msum (fun p pi => w p (firstSeen pi) * numConns pi) ps.

Lemma tracked_weighted ps : tracked ps = weighted (fun _ _ => 1) ps.
Proof. apply msum_ext. intros. lia. Qed.

Definition eligible_weight cm (now : Z) (p : ID) (t : Z) : Z :=
  if negb (isProtected cm p) && negb (time_after t (now - gracePeriod (cfg cm))) then 1 else 0.

Lemma eligible_weighted cm now : eligible_conns cm now = weighted (eligible_weight cm now) (peers cm).
Proof.
  apply msum_ext. intros p pi _. unfold eligible, eligible_weight, inGrace.
  destruct (negb (isProtected cm p) && _); lia.
Qed.

Lemma Disconnected_tracked cm c pi : cm_ok cm -> peers cm !! RemotePeer c = Some pi -> is_Some (conns pi !! c) ->
  exists cm', Disconnected cm c = Ok cm' /\ cm_ok cm' /\ cfg cm' = cfg cm /\ protected cm' = protected cm /\
  (forall w, weighted w (peers cm') = weighted w (peers cm) - w (RemotePeer c) (firstSeen pi)) /\
  (forall c', tracked_conn cm' c' <-> tracked_conn cm c' /\ c' <> c) /\
  (forall p pi', peers cm' !! p = Some pi' -> exists pi0, peers cm !! p = Some pi0 /\ firstSeen pi0 = firstSeen pi').
Proof.
  intros Hcm Hp [t Hc]. pose proof (ok_peers _ Hcm _ _ Hp) as Hok. destruct (ok_key _ _ Hok) as (b & Hb & _).
  assert (exists cm', Disconnected cm c = Ok cm') as [cm' E].
  { unfold Disconnected, get. rewrite Hb. simpl. rewrite Hp, Hc. eauto. }
  exists cm'. split; [done|]. split; [by eapply Disconnected_ok|].
  unfold Disconnected, get in E. rewrite Hb in E. simpl in E. rewrite Hp, Hc in E. injection E as <-.
  pose proof (size_delete_conn _ _ _ Hc) as Hs.
  assert (forall c', conns pi !! c' <> None -> RemotePeer c' = RemotePeer c) as Hrp.
  { intros c' H. destruct (conns pi !! c') eqn:E; [|done]. by eapply ok_conns. }
  split; [by case_decide|]. split; [by case_decide|]. case_decide as Hd; (split; [|split]); simpl.
  - intros w. unfold weighted. rewrite msum_remove, Hp. unfold numConns. rewrite Hd, map_size_empty in Hs. lia.
  - intros c'. unfold tracked_conn. simpl. split.
    + intros (pi' & [Hne Hp']%lookup_delete_Some & Hc'). split; [by exists pi'|]. by intros ->.
    + intros [(pi' & Hp' & Hc') Hne]. exists pi'. split; [|done]. rewrite lookup_delete_ne; [done|]. intros Heq.
      rewrite <-Heq, Hp in Hp'. injection Hp' as <-. destruct Hc' as [t' Hc'].
      assert (delete c (conns pi) !! c' = Some t') as H by by rewrite lookup_delete_ne.
      rewrite Hd in H. by apply lookup_empty_Some in H.
  - intros p pi' [_ Hp']%lookup_delete_Some. eauto.
  - intros w. unfold weighted. rewrite msum_put, Hp. simpl. unfold numConns. simpl. lia.
  - intros c'. unfold tracked_conn. simpl. split.
    + intros (pi' & [[Heq <-]|[Hne Hp']]%lookup_insert_Some & Hc'); simpl in *.
      * destruct Hc' as [t' [Hne Hc']%lookup_delete_Some]. split; [|done]. exists pi. rewrite <-Heq. eauto.
      * split; [by exists pi'|]. by intros ->.
    + intros [(pi' & Hp' & Hc') Hne]. destruct (decide (RemotePeer c' = RemotePeer c)) as [Heq|Hn].
      * rewrite Heq in *. assert (pi' = pi) as -> by congruence. exists (with_conns (delete c (conns pi)) pi).
        split; [apply lookup_insert_eq|]. simpl. by rewrite lookup_delete_ne.
      * exists pi'. by rewrite lookup_insert_ne.
  - intros p pi' [[<- <-]|[_ Hp']]%lookup_insert_Some; simpl; eauto.
Qed.

(** The notifications for tracked connections of peers of one weight. *)
Lemma disconnect_all_spec l : forall cm, cm_ok cm -> NoDup l -> (forall c, c ∈ l -> tracked_conn cm c) ->
  exists cm', disconnect_all cm l = Ok cm' /\ cm_ok cm' /\ cfg cm' = cfg cm /\ protected cm' = protected cm /\
  (forall w, (forall c pi, c ∈ l -> peers cm !! RemotePeer c = Some pi -> w (RemotePeer c) (firstSeen pi) = 1) ->
     weighted w (peers cm') = weighted w (peers cm) - zlen l) /\
  (forall c, tracked_conn cm' c <-> tracked_conn cm c /\ c ∉ l).
Proof.
  induction l as [|c l IH]; intros cm Hcm Hnd Ht.
  - exists cm. split_and!; try done; [intros; unfold zlen; simpl; lia|]. intros c. set_solver.
  - apply NoDup_cons in Hnd as [Hc Hnd]. destruct (Ht c (list_elem_of_here _ _)) as (pi & Hp & Hcp).
    destruct (Disconnected_tracked cm c pi Hcm Hp Hcp) as (cm1 & E & H1 & Hcfg & Hpr & Hw & Htr & Hfs).
    destruct (IH cm1 H1 Hnd) as (cm2 & E2 & H2 & Hcfg2 & Hpr2 & Hw2 & Htr2).
    { intros c' Hc'. apply Htr. split; [apply Ht; set_solver|]. by intros ->. }
    exists cm2. simpl. rewrite E. simpl. split_and!; [done|done|congruence|congruence| |].
    + intros w Hone. rewrite Hw2, Hw, (Hone c pi); [rewrite zlen_cons; lia|set_solver|done|].
      intros c' pi' Hc' Hp'. destruct (Hfs _ _ Hp') as (pi0 & Hp0 & <-). apply Hone; [set_solver|done].
    + intros c'. rewrite Htr2, Htr. set_solver.
Qed.

Lemma trim_cases cm stat now : cm_ok cm ->
  trim cm stat now = (cm, []) /\
    (lowWater (cfg cm) = 0 \/ highWater (cfg cm) = 0 \/ connCount cm <= lowWater (cfg cm) \/ eligible_conns cm now < lowWater (cfg cm)) \/
  exists l1 l2 ps, SortByValueAndStreams stat false (candidates cm now) = l1 ++ l2 /\
    trim cm stat now = (set_peers ps cm, conns_of l1) /\
    (l2 = [] \/ eligible_conns cm now - lowWater (cfg cm) <= numConnsOf l1) /\
    (forall l0 x, l1 = l0 ++ [x] -> numConnsOf l0 < eligible_conns cm now - lowWater (cfg cm)) /\
    (forall p pi, ps !! p = Some pi -> peers cm !! p = Some pi) /\
    (forall p pi, peers cm !! p = Some pi -> ps !! p = Some pi \/ (ps !! p = None /\ numConns pi = 0 /\ temp pi = true)).
Proof.
  intros Hcm. unfold trim, getConnsToClose. rewrite numConnsOf_candidates by done.
  destruct (Z.eqb_spec (lowWater (cfg cm)) 0); [left; auto|]. destruct (Z.eqb_spec (highWater (cfg cm)) 0); [left; auto|]. simpl.
  destruct (Z.leb_spec (connCount cm) (lowWater (cfg cm))); [left; auto|].
  destruct (Z.ltb_spec (eligible_conns cm now) (lowWater (cfg cm))); [left; auto|]. right.
  set (l := SortByValueAndStreams stat false (candidates cm now)). set (target := eligible_conns cm now - lowWater (cfg cm)).
  destruct (pick_prefix l target []) as (l1 & l2 & El & E & Hl & Hm).
  pose proof (select_pick l target (peers cm) []) as Hsel. rewrite E in Hsel. simpl in Hsel.
  assert (forall inf, inf ∈ l -> peers cm !! id inf = Some inf \/ peers cm !! id inf = None) as Hin.
  { intros inf Hinf. left. apply elem_of_sort_slice, elem_of_trim_candidates in Hinf as (p & Hp & _); [|done].
    by rewrite (ok_id _ _ (ok_peers _ Hcm _ _ Hp)). }
  pose proof (select_keeps l target (peers cm) [] Hin) as Hk. pose proof (select_sub l target (peers cm) []) as Hs.
  destruct (select_conns l target (peers cm) []) as [ps sel]. simpl in *. subst sel.
  exists l1, l2, ps. split_and!; auto.
Qed.

Lemma NoDup_conns_of cm l : cm_ok cm -> NoDup l -> (forall inf, inf ∈ l -> exists p, peers cm !! p = Some inf) -> NoDup (conns_of l).
Proof.
  intros Hcm Hnd Hl. apply NoDup_bind; [| |done].
  - intros i1 i2 c H1 H2 C1%elem_of_conn_list C2%elem_of_conn_list. destruct (Hl _ H1) as (p1 & Hp1), (Hl _ H2) as (p2 & Hp2).
    destruct C1 as [t1 C1], C2 as [t2 C2]. apply (ok_conns _ _ (ok_peers _ Hcm _ _ Hp1)) in C1.
    apply (ok_conns _ _ (ok_peers _ Hcm _ _ Hp2)) in C2. congruence.
  - intros inf _. unfold conn_list. apply NoDup_range_keys.
Qed.

Lemma in_conns_of cm l c : cm_ok cm -> (forall inf, inf ∈ l -> exists p, peers cm !! p = Some inf) ->
  c ∈ conns_of l -> exists pi, pi ∈ l /\ peers cm !! RemotePeer c = Some pi /\ is_Some (conns pi !! c).
Proof.
  intros Hcm Hl (pi & Hc%elem_of_conn_list & Hpi)%list_elem_of_bind. destruct (Hl _ Hpi) as (p & Hp).
  exists pi. split; [done|]. split; [|done]. destruct Hc as [t Hc]. by rewrite (ok_conns _ _ (ok_peers _ Hcm _ _ Hp) _ _ Hc).
Qed.

Lemma sorted_candidates cm stat now inf : cm_ok cm ->
  inf ∈ SortByValueAndStreams stat false (candidates cm now) <-> exists p, peers cm !! p = Some inf /\ eligible cm now p inf = true.
Proof. intros Hcm. unfold SortByValueAndStreams. by rewrite elem_of_sort_slice, elem_of_trim_candidates. Qed.

Lemma trim_ok cm stat now : cm_ok cm -> cm_ok (trim cm stat now).1.
Proof.
  intros Hcm. destruct (trim_cases cm stat now Hcm) as [[-> _]|(l1 & l2 & ps & _ & -> & _ & _ & Hs & Hk)]; [done|]. simpl.
  split; simpl.
  - intros p pi Hp. by apply (ok_peers _ Hcm), Hs.
  - rewrite (ok_count _ Hcm). f_equal. symmetry. apply msum_sub; [done|]. intros p pi Hp. destruct (Hk p pi Hp) as [?|(? & ? & _)]; auto.
Qed.

(** A trim closes tracked connections, each once, and only those of peers that nobody
    protects and whose grace period is over.  A peer it closes is never to be preferred to
    one of them that keeps a connection, and the connections of the last peer it closes
    were still too many. *)
Theorem trim_safe cm stat now cm1 closed : cm_ok cm -> trim cm stat now = (cm1, closed) ->
  NoDup closed /\
  (forall c, c ∈ closed -> exists pi, peers cm !! RemotePeer c = Some pi /\ is_Some (conns pi !! c) /\
     protected cm !! RemotePeer c = None /\ firstSeen pi <= now - gracePeriod (cfg cm) /\
     forall q qi d, peers cm !! q = Some qi -> eligible cm now q qi = true -> is_Some (conns qi !! d) -> d ∉ closed ->
       lessPeer stat false qi pi = false) /\
  (closed <> [] -> exists front last, closed = front ++ conn_list last /\
     lowWater (cfg cm) < eligible_conns cm now - zlen front).
Proof.
  intros Hcm E. destruct (trim_cases cm stat now Hcm) as [[E' _]|(l1 & l2 & ps & El & E' & Hl & Hm & _)].
  { rewrite E' in E. injection E as <- <-. split; [constructor|]. split; [intros c Hc; by apply not_elem_of_nil in Hc|done]. }
  rewrite E' in E. injection E as <- <-.
  assert (forall inf, inf ∈ l1 ++ l2 -> exists p, peers cm !! p = Some inf /\ eligible cm now p inf = true) as Hin.
  { intros inf. rewrite <-El. by apply sorted_candidates. }
  assert (forall inf, inf ∈ l1 -> exists p, peers cm !! p = Some inf) as Hin1.
  { intros inf Hi. destruct (Hin inf) as (p & Hp & _); [set_solver|eauto]. }
  assert (NoDup (l1 ++ l2)) as Hnd.
  { rewrite <-El. unfold SortByValueAndStreams. rewrite sort_slice_perm. by apply NoDup_candidates. }
  apply NoDup_app in Hnd as (Hnd & _ & _). split; [by eapply NoDup_conns_of|]. split.
  - intros c Hc. destruct (in_conns_of cm l1 c Hcm Hin1 Hc) as (pi & Hpi & Hp & Hcc). exists pi.
    destruct (Hin pi) as (p & Hp' & He); [set_solver|]. assert (p = RemotePeer c) as ->.
    { by rewrite <-(ok_id _ _ (ok_peers _ Hcm _ _ Hp)), (ok_id _ _ (ok_peers _ Hcm _ _ Hp')). }
    apply andb_true_iff in He as [He1 He2]. unfold isProtected, inGrace, time_after in *.
    split; [done|]. split; [done|]. split; [|split; [lia|]].
    { destruct (protected cm !! RemotePeer c) eqn:Epr; [|done]. by rewrite bool_decide_true in He1 by eauto. }
    intros q qi d Hq Heq Hd Hnc. assert (qi ∈ l1 ++ l2) as Hqi by by rewrite <-El; apply sorted_candidates; [done|exists q].
    assert (qi ∈ l2) as Hq2.
    { apply elem_of_app in Hqi as [Hq1|]; [|done]. exfalso. apply Hnc, list_elem_of_bind. exists qi.
      by rewrite elem_of_conn_list. }
    apply (sort_slice_split (fun _ => True) (lessPeer stat false) (candidates cm now) (length l1)).
    + apply lessPeer_weak.
    + by apply Forall_true.
    + fold (SortByValueAndStreams stat false (candidates cm now)). by rewrite El, take_app_length.
    + fold (SortByValueAndStreams stat false (candidates cm now)). by rewrite El, drop_app_length.
  - intros Hne. destruct l1 as [|x l0] using rev_ind; [done|]. exists (conns_of l0), x.
    unfold conns_of at 1. rewrite bind_app. csimpl. rewrite app_nil_r. split; [done|].
    unfold zlen. rewrite length_conns_of. specialize (Hm l0 x eq_refl). lia.
Qed.

(** C39. After a trim, and the notifications for what it closed, the connections it may
    close are at most the low watermark.  All of this holds while there are fewer than
    2^31 connections: they are counted in 32 bits. *)
Theorem trim_settles cm stat now cm1 closed : cm_ok cm ->
  0 < lowWater (cfg cm) -> highWater (cfg cm) <> 0 -> tracked (peers cm) < 2 ^ 31 ->
  trim cm stat now = (cm1, closed) ->
  exists cm2, disconnect_all cm1 closed = Ok cm2 /\ cm_ok cm2 /\
    eligible_conns cm2 now <= lowWater (cfg cm) /\
    connCount cm2 = connCount cm - zlen closed /\
    (forall c, tracked_conn cm2 c <-> tracked_conn cm c /\ c ∉ closed).
Proof.
  intros Hcm Hlow Hhigh Hsmall E. assert (0 <= tracked (peers cm)) as Hpos by by apply msum_nonneg; intros; apply numConns_nonneg.
  assert (connCount cm = tracked (peers cm)) as Hcnt by by rewrite (ok_count _ Hcm), wraps_small by lia.
  pose proof (trim_ok cm stat now Hcm) as H1. destruct (trim_cases cm stat now Hcm) as [[E' Hwhy]|(l1 & l2 & ps & El & E' & Hl & Hm & Hs & Hk)].
  { rewrite E' in E. injection E as <- <-. exists cm. split; [done|]. split; [done|].
    split; [|split; [unfold zlen; simpl; lia|intros c; set_solver]].
    destruct Hwhy as [?|[?|[Hle|?]]]; [lia|done| |lia]. etrans; [|exact Hle]. rewrite Hcnt, tracked_weighted, eligible_weighted.
    apply msum_le. intros p pi _. unfold eligible_weight. pose proof (numConns_nonneg pi). case_match; lia. }
  rewrite E' in E. injection E as <- <-. rewrite E' in H1. simpl in H1.
  assert (forall inf, inf ∈ l1 ++ l2 -> exists p, peers cm !! p = Some inf /\ eligible cm now p inf = true) as Hin.
  { intros inf. rewrite <-El. by apply sorted_candidates. }
  assert (forall inf, inf ∈ l1 -> exists p, peers cm !! p = Some inf) as Hin1.
  { intros inf Hi. destruct (Hin inf) as (p & Hp & _); [set_solver|eauto]. }
  assert (NoDup (conns_of l1)) as Hnd.
  { apply (NoDup_conns_of cm); [done| |done]. assert (NoDup (l1 ++ l2)) as H; [|by apply NoDup_app in H as (H & _)].
    rewrite <-El. unfold SortByValueAndStreams. rewrite sort_slice_perm. by apply NoDup_candidates. }
  assert (forall c, tracked_conn (set_peers ps cm) c <-> tracked_conn cm c) as Htr.
  { intros c. unfold tracked_conn. simpl. split; intros (pi & Hp & Hc); exists pi; (split; [|done]); [by apply Hs|].
    destruct (Hk _ _ Hp) as [?|(_ & Hz & Ht)]; [done|]. apply (ok_temp _ _ (ok_peers _ Hcm _ _ Hp)) in Ht.
    rewrite Ht in Hc. by destruct Hc as [t Hc%lookup_empty_Some]. }
  destruct (disconnect_all_spec (conns_of l1) (set_peers ps cm) H1 Hnd) as (cm2 & E2 & H2 & Hcfg & Hpr & Hw & Ht2).
  { intros c Hc. apply Htr. destruct (in_conns_of cm l1 c Hcm Hin1 Hc) as (pi & _ & ? & ?). by exists pi. }
  assert (forall w : ID -> Z -> Z, weighted w ps = weighted w (peers cm)) as Hsame.
  { intros w. apply msum_sub; [done|]. intros p pi Hp. destruct (Hk _ _ Hp) as [?|(? & Hz & _)]; [by left|right]. split; [done|]. rewrite Hz. lia. }
  assert (eligible_conns cm2 now = eligible_conns cm now - zlen (conns_of l1)) as He.
  { rewrite !eligible_weighted, <-(Hsame (eligible_weight cm now)).
    change ps with (peers (set_peers ps cm)) at 1. rewrite <-Hw.
    - apply msum_ext. intros p pi _. unfold eligible_weight, isProtected. by rewrite Hcfg, Hpr.
    - intros c pi Hc Hp. destruct (in_conns_of cm l1 c Hcm Hin1 Hc) as (pi' & Hpi' & Hp' & _).
      apply Hs in Hp. assert (pi' = pi) as -> by congruence. destruct (Hin pi) as (p & Hpp & Hel); [set_solver|].
      assert (p = RemotePeer c) as -> by by rewrite <-(ok_id _ _ (ok_peers _ Hcm _ _ Hp)), (ok_id _ _ (ok_peers _ Hcm _ _ Hpp)).
      unfold eligible, inGrace in Hel. unfold eligible_weight. by rewrite Hel. }
  exists cm2. split; [done|]. split; [done|]. split; [|split; [|intros c; by rewrite Ht2, Htr]].
  - rewrite He. unfold zlen. rewrite length_conns_of. destruct Hl as [->|Hl]; [|lia].
    rewrite app_nil_r in El. assert (numConnsOf l1 = eligible_conns cm now); [|lia].
    rewrite <-numConnsOf_candidates by done. apply numConnsOf_perm. rewrite <-El. apply sort_slice_perm.
  - assert (tracked (peers cm2) = tracked (peers cm) - zlen (conns_of l1)) as Ht.
    { rewrite !tracked_weighted, <-(Hsame (fun _ _ => 1)). change ps with (peers (set_peers ps cm)) at 1. by apply Hw. }
    assert (0 <= tracked (peers cm2)) by by apply msum_nonneg; intros; apply numConns_nonneg.
    rewrite (ok_count _ H2), Ht, wraps_small, Hcnt; unfold zlen in *; lia.
Qed.

(** ** Emergencies *)

Definition unprotected_conns cm : Z := msum (fun p inf => if isProtected cm p then 0 else numConns inf) (peers cm).

Lemma emergency_kept cm e :
  (if isProtected cm e.1 then @None peerInfo else Some e.2) = None \/
  (if isProtected cm e.1 then None else Some e.2) = Some e.2.
Proof. case_match; auto. Qed.

(** The first pass over the unprotected peers. *)
Lemma first_pass cm stat target : cm_ok cm ->
  exists l1 left, pick_conns (SortByValueAndStreams stat true
      (omap (fun e => if isProtected cm e.1 then None else Some e.2) (range_segments 5 (peers cm)))) target [] =
    (left, conns_of l1) /\ left = target - numConnsOf l1 /\ NoDup (conns_of l1) /\
    (forall c, c ∈ conns_of l1 -> tracked_conn cm c /\ protected cm !! RemotePeer c = None) /\
    numConnsOf l1 <= unprotected_conns cm /\ (left <= 0 \/ numConnsOf l1 = unprotected_conns cm).
Proof.
  intros Hcm. set (cands := omap _ _). set (l := SortByValueAndStreams stat true cands).
  destruct (pick_prefix l target []) as (l1 & l2 & El & E & Hl & _). exists l1, (target - numConnsOf l1).
  assert (forall inf, inf ∈ l1 ++ l2 -> exists p, peers cm !! p = Some inf /\ isProtected cm p = false) as Hin.
  { intros inf. rewrite <-El. unfold l, SortByValueAndStreams. rewrite elem_of_sort_slice. unfold cands.
    rewrite elem_of_kept by (done || apply emergency_kept). simpl.
    intros (p & Hp & E'). exists p. split; [done|]. by destruct (isProtected cm p). }
  assert (forall inf, inf ∈ l1 -> exists p, peers cm !! p = Some inf) as Hin1.
  { intros inf Hi. destruct (Hin inf) as (p & Hp & _); [set_solver|eauto]. }
  split; [done|]. split; [done|]. split; [|split].
  - apply (NoDup_conns_of cm); [done| |done]. assert (NoDup (l1 ++ l2)) as H; [|by apply NoDup_app in H as (H & _)].
    rewrite <-El. unfold l, SortByValueAndStreams. rewrite sort_slice_perm. unfold cands. apply NoDup_kept; [apply emergency_kept|done].
  - intros c Hc. destruct (in_conns_of cm l1 c Hcm Hin1 Hc) as (pi & Hpi & Hp & Hcc). split; [by exists pi|].
    destruct (Hin pi) as (p & Hp' & Hpr); [set_solver|]. assert (p = RemotePeer c) as ->.
    { by rewrite <-(ok_id _ _ (ok_peers _ Hcm _ _ Hp)), (ok_id _ _ (ok_peers _ Hcm _ _ Hp')). }
    unfold isProtected in Hpr. apply bool_decide_eq_false in Hpr. by destruct (protected cm !! RemotePeer c); [exfalso; eauto|].
  - assert (numConnsOf l1 + numConnsOf l2 = unprotected_conns cm) as Hs.
    { rewrite <-numConnsOf_app, <-El. rewrite (numConnsOf_perm _ cands) by apply sort_slice_perm. unfold cands.
      rewrite numConnsOf_kept by (done || apply emergency_kept). apply msum_ext. intros p pi _. simpl. by destruct (isProtected cm p). }
    pose proof (length_conns_of l2). split; [lia|]. destruct Hl as [->|Hl]; [right; simpl in Hs; lia|left; lia].
Qed.

(** When the unprotected connections are enough, or at least half of what is to be closed,
    an emergency closes none of a protected peer. *)
Theorem force_trim_unprotected cm stat now : cm_ok cm ->
  let target := connCount cm - lowWater (cfg cm) in
  0 <= target <= 2 * unprotected_conns cm ->
  let closed := (ForceTrim cm stat now).2 in
  NoDup closed /\ Z.min target (unprotected_conns cm) <= zlen closed <= unprotected_conns cm /\
  (forall c, c ∈ closed -> tracked_conn cm c /\ protected cm !! RemotePeer c = None).
Proof.
  intros Hcm target Ht. unfold ForceTrim. fold target. destruct (Z.ltb_spec target 0); [lia|]. simpl.
  unfold getConnsToCloseEmergency. destruct (first_pass cm stat target Hcm) as (l1 & left & E & El & Hnd & Hc & Hu & Hl).
  rewrite E. assert (zlen (conns_of l1) = numConnsOf l1) as Hz by by unfold zlen; rewrite length_conns_of.
  destruct (Z.leb_spec left (zlen (conns_of l1))) as [Hle|Hle]; [|exfalso; lia].
  split; [done|]. split; [lia|done].
Qed.

(** So when they are not enough but are at least half of it, the emergency ends with more
    connections than the low watermark, protected ones that it never looked at. *)
Theorem force_trim_short cm stat now : cm_ok cm ->
  unprotected_conns cm < connCount cm - lowWater (cfg cm) <= 2 * unprotected_conns cm ->
  zlen (ForceTrim cm stat now).2 = unprotected_conns cm /\
  lowWater (cfg cm) < connCount cm - zlen (ForceTrim cm stat now).2.
Proof.
  intros Hcm Ht. unfold ForceTrim. set (target := connCount cm - lowWater (cfg cm)) in *.
  destruct (Z.ltb_spec target 0); [lia|]. simpl.
  unfold getConnsToCloseEmergency. destruct (first_pass cm stat target Hcm) as (l1 & left & E & El & Hnd & Hc & Hu & Hl).
  rewrite E. assert (zlen (conns_of l1) = numConnsOf l1) as Hz by by unfold zlen; rewrite length_conns_of.
  destruct (Z.leb_spec left (zlen (conns_of l1))); lia.
Qed.

Lemma numConnsOf_nonneg l : 0 <= numConnsOf l.
Proof. rewrite <-length_conns_of. lia. Qed.

(** Connections that are protected or in their grace period do not count: as long as the
    others are at most the low watermark, nothing is closed, however many there are. *)
Theorem trim_uncounted cm stat now : cm_ok cm -> eligible_conns cm now <= lowWater (cfg cm) -> (trim cm stat now).2 = [].
Proof.
  intros Hcm Hle. destruct (trim_cases cm stat now Hcm) as [[-> _]|(l1 & l2 & ps & _ & -> & _ & Hm & _)]; [done|]. simpl.
  destruct l1 as [|x l0 _] using rev_ind; [done|]. specialize (Hm l0 x eq_refl). pose proof (numConnsOf_nonneg l0). lia.
Qed.

(** The trims of [background] leave no trace in [lastTrim] and [trimCount]. *)
Theorem background_unrecorded cm stat now :
  lastTrim (background cm stat now).1 = lastTrim cm /\ trimCount (background cm stat now).1 = trimCount cm.
Proof. unfold background, trim, getConnsToClose. repeat case_match; simplify_eq; done. Qed.
End trims.

(** ** Protection *)

Definition protections (cm : BasicConnMgr) (p : ID) : gset string := default ∅ (protected cm !! p).
Definition protected_ok (cm : BasicConnMgr) : Prop := forall p ts, protected cm !! p = Some ts -> ts <> ∅.

Lemma Protect_spec cm p tag : protected_ok cm ->
  protected_ok (Protect cm p tag) /\
  forall q t, t ∈ protections (Protect cm p tag) q <-> t ∈ protections cm q \/ (q = p /\ t = tag).
Proof.
  intros Hok. unfold Protect, protected_ok, protections. simpl. split.
  - intros q ts [[_ <-]|[_ Hq]]%lookup_insert_Some; [set_solver|by eapply Hok].
  - intros q t. destruct (decide (q = p)) as [->|Hne].
    + rewrite lookup_insert_eq. simpl. set_solver.
    + rewrite lookup_insert_ne by done. naive_solver.
Qed.

Lemma Unprotect_spec cm p tag : protected_ok cm ->
  let '(cm', still) := Unprotect cm p tag in
  protected_ok cm' /\
  (forall q t, t ∈ protections cm' q <-> t ∈ protections cm q /\ ~ (q = p /\ t = tag)) /\
  still = isProtected cm' p.
Proof.
  intros Hok. unfold Unprotect. destruct (protected cm !! p) as [ts|] eqn:E; [case_decide as Hd|].
  - split_and!.
    + intros q qs. simpl. intros [_ Hq]%lookup_delete_Some. by eapply Hok.
    + intros q t. unfold protections. simpl. destruct (decide (q = p)) as [->|Hne].
      * rewrite lookup_delete_eq, E. simpl. set_solver.
      * rewrite lookup_delete_ne by done. naive_solver.
    + unfold isProtected. simpl. rewrite lookup_delete_eq. by rewrite bool_decide_eq_false_2 by by intros [? ?].
  - split_and!.
    + intros q qs. simpl. intros [[_ <-]|[_ Hq]]%lookup_insert_Some; [done|by eapply Hok].
    + intros q t. unfold protections. simpl. destruct (decide (q = p)) as [->|Hne].
      * rewrite lookup_insert_eq, E. simpl. set_solver.
      * rewrite lookup_insert_ne by done. naive_solver.
    + unfold isProtected. simpl. rewrite lookup_insert_eq. by rewrite bool_decide_eq_true_2 by eauto.
  - split_and!; [done| |].
    + intros q t. unfold protections. split; [|tauto]. intros Ht. split; [done|]. intros [-> _]. by rewrite E in Ht.
    + unfold isProtected. rewrite E. by rewrite bool_decide_eq_false_2 by by intros [? ?].
Qed.

(** The calls of [Protect] ([true]) and [Unprotect] on one peer and one tag. *)
Definition protect_call (cm : BasicConnMgr) (e : bool * (ID * string)) : BasicConnMgr :=
  if e.1 then Protect cm e.2.1 e.2.2 else (Unprotect cm e.2.1 e.2.2).1.

(** What the last call for a peer and a tag was. *)
Definition last_call (l : list (bool * (ID * string))) (x : ID * string) : bool :=
  foldl (fun b e => if decide (e.2 = x) then e.1 else b) false l.

(** A peer is protected by a tag exactly if the last call for both was [Protect], and
    it is protected from trims exactly if it is by some tag. *)
Theorem protection_exact c calls p :
  let cm := foldl protect_call (new_manager c) calls in
  (forall tag, tag ∈ protections cm p <-> last_call calls (p, tag) = true) /\
  (isProtected cm p = true <-> exists tag, last_call calls (p, tag) = true).
Proof.
  intros cm. assert (protected_ok cm /\ forall q t, t ∈ protections cm q <-> last_call calls (q, t) = true) as [Hok Hp].
  - subst cm. induction calls as [|[b [q0 t0]] calls [Hok IH]] using rev_ind; [split; [intros ? ?; done|intros; split; [set_solver|done]]|].
    rewrite foldl_snoc. unfold last_call in *. set (cm := foldl _ _ calls) in *. destruct b; unfold protect_call; simpl.
    + destruct (Protect_spec cm q0 t0 Hok) as [Hok' H]. split; [done|]. intros q t. rewrite H, IH, foldl_snoc. simpl.
      case_decide; naive_solver.
    + pose proof (Unprotect_spec cm q0 t0 Hok) as H. destruct (Unprotect cm q0 t0) as [cm' still]. destruct H as (Hok' & H & _).
      split; [done|]. intros q t. simpl. rewrite H, IH, foldl_snoc. simpl. case_decide; naive_solver.
  - split; [apply Hp|]. unfold isProtected. rewrite bool_decide_eq_true. split.
    + intros [ts Hts]. specialize (Hok p ts Hts). apply set_choose_L in Hok as [t Ht]. exists t. apply Hp.
      unfold protections. by rewrite Hts.
    + intros [t Ht%Hp]. unfold protections in Ht. destruct (protected cm !! p); [eauto|]. simpl in Ht. set_solver.
Qed.

(** ** Examples *)

#[local] Existing Instance map_to_list_range.
#[local] Existing Instance insertion_go_sort.

Lemma example_bytes (c : Conn) : is_bytes [Zpos c mod 4].
Proof. repeat constructor; pose proof (Z.mod_pos_bound (Zpos c) 4); lia. Qed.

(** Connection [c] leads to the peer whose id is the byte [c mod 4]. *)
#[local] Instance example_network : Network := {|
  RemotePeer c := [Zpos c mod 4]; RemotePeer_bytes := example_bytes; RemoteMultiaddr c := pretty c |}.

Definition example_stat (c : Conn) : ConnStats := {| StatDirection := DirOutbound; NumStreams := 0 |}.

Definition connect_all (cm : BasicConnMgr) (l : list Conn) : res BasicConnMgr :=
  foldl (fun r c => let! cm := r in Connected cm c epoch) (Ok cm) l.

Lemma connect_all_ok cm l cm' : cm_ok cm -> connect_all cm l = Ok cm' -> cm_ok cm'.
Proof.
  intros Hcm. revert cm'. induction l as [|c l IH] using rev_ind; intros cm'; [by intros [= <-]|].
  unfold connect_all in *. rewrite foldl_snoc. intros (cm1 & E1 & E2)%rbind_Ok. eapply Connected_ok; [by eapply IH|done].
Qed.

Lemma new_manager_ok c : cm_ok (new_manager c).
Proof. split; [intros p pi Hp; simpl in Hp; by apply lookup_empty_Some in Hp|done]. Qed.

Definition tag_all (cm : BasicConnMgr) (l : list ID) : res BasicConnMgr :=
  foldl (fun r p => let! cm := r in TagPeer cm p "kad" 5 epoch) (Ok cm) l.

Lemma tag_all_ok cm l cm' : Forall is_bytes l -> cm_ok cm -> tag_all cm l = Ok cm' -> cm_ok cm'.
Proof.
  intros Hl Hcm. revert cm'. induction l as [|p l IH] using rev_ind; intros cm'; [by intros [= <-]|].
  apply Forall_app in Hl as [Hl Hp]. apply Forall_cons_1 in Hp as [Hp _].
  unfold tag_all in *. rewrite foldl_snoc. intros (cm1 & E1 & E2)%rbind_Ok. eapply TagPeer_ok; [done|by eapply IH|done].
Qed.

(** A low watermark of [low], some peers tagged, the connections of [l] opened, and some
    peers protected. *)
Definition example (low : Z) (tagged prot : list ID) (l : list Conn) : res BasicConnMgr :=
  let! cm := NewConnManager low (2 * low) [WithGracePeriod (30 * second)] in
  let! cm := tag_all cm tagged in
  let! cm := connect_all cm l in
  Ok (foldl (fun cm p => Protect cm p "relay") cm prot).

Lemma example_ok low tagged prot l cm : Forall is_bytes tagged -> example low tagged prot l = Ok cm -> cm_ok cm.
Proof.
  unfold example. intros Ht (cm0 & [= <-] & H)%rbind_Ok. apply rbind_Ok in H as (cm1 & H1 & H). apply rbind_Ok in H as (cm2 & H2 & [= <-]).
  apply tag_all_ok in H1; [|done|apply new_manager_ok]. apply connect_all_ok in H2; [|done]. clear -H2.
  revert cm2 H2. induction prot as [|p prot IH]; intros cm2 H2; [done|]. apply IH. by destruct H2.
Qed.

Definition busy : BasicConnMgr :=
  the (new_manager {| highWater := 0; lowWater := 0; gracePeriod := 0; silencePeriod := 0; resolution := 0 |})
    (example 2 [[2]] [[3]] [1; 2; 3; 5; 6; 9]%positive).

Lemma busy_ok : cm_ok busy.
Proof. eapply example_ok; [|apply the_Ok; by vm_compute]. by repeat constructor. Qed.

(** Peers 1 and 3, of which 3 is protected and has most of the connections. *)
Definition guarded : BasicConnMgr :=
  the (new_manager {| highWater := 0; lowWater := 0; gracePeriod := 0; silencePeriod := 0; resolution := 0 |})
    (example 1 [] [[3]] [1; 5; 3; 7; 11]%positive).

Lemma guarded_ok : cm_ok guarded.
Proof. eapply example_ok; [|apply the_Ok; by vm_compute]. constructor. Qed.

Lemma trim_safe_witness :
  length (trim busy example_stat (epoch + minute)).2 = 3%nat /\ NoDup (trim busy example_stat (epoch + minute)).2.
Proof.
  split; [by vm_compute|]. destruct (trim busy example_stat (epoch + minute)) as [cm1 closed] eqn:Et.
  by destruct (trim_safe busy example_stat (epoch + minute) cm1 closed busy_ok Et) as (Hnd & _ & _).
Defined.

Lemma trim_settles_witness :
  exists cm1 closed cm2, trim busy example_stat (epoch + minute) = (cm1, closed) /\
    disconnect_all cm1 closed = Ok cm2 /\ eligible_conns cm2 (epoch + minute) <= 2.
Proof.
  assert (lowWater (cfg busy) = 2 /\ highWater (cfg busy) = 4 /\ tracked (peers busy) = 6) as (Hl & Hh & Ht).
  { split_and!; by vm_compute. }
  destruct (trim busy example_stat (epoch + minute)) as [cm1 closed] eqn:Et.
  destruct (trim_settles busy example_stat (epoch + minute) cm1 closed busy_ok ltac:(lia) ltac:(lia) ltac:(lia) Et) as (cm2 & E2 & _ & Hle & _).
  exists cm1, closed, cm2. split_and!; [done|done|lia].
Defined.

Lemma force_trim_unprotected_witness :
  length (ForceTrim busy example_stat epoch).2 = 5%nat /\ [3]%positive ## (ForceTrim busy example_stat epoch).2.
Proof.
  assert (lowWater (cfg busy) = 2 /\ connCount busy = 6 /\ unprotected_conns busy = 5 /\ protected busy !! [3] = Some {["relay"]}) as (Hl & Hn & Hu & Hp).
  { split_and!; by vm_compute. }
  destruct (force_trim_unprotected busy example_stat epoch busy_ok) as (_ & _ & Hc); [lia|].
  split; [by vm_compute|].
  intros c ->%list_elem_of_singleton [_ H]%Hc. change (RemotePeer 3%positive) with [3] in H. congruence.
Defined.

Lemma force_trim_short_witness : connCount guarded = 5 /\ zlen (ForceTrim guarded example_stat epoch).2 = 2.
Proof.
  assert (lowWater (cfg guarded) = 1 /\ connCount guarded = 5 /\ unprotected_conns guarded = 2) as (Hl & Hn & Hu).
  { split_and!; by vm_compute. }
  destruct (force_trim_short guarded example_stat epoch guarded_ok) as (H & _); [lia|]. split; [done|lia].
Defined.

Lemma trim_uncounted_witness :
  connCount guarded = 5 /\ highWater (cfg guarded) = 2 /\ (trim guarded example_stat epoch).2 = [].
Proof.
  assert (lowWater (cfg guarded) = 1 /\ eligible_conns guarded epoch = 0) as (? & ?) by (split; by vm_compute).
  split_and!; [by vm_compute..|]. apply (trim_uncounted guarded example_stat epoch guarded_ok). lia.
Defined.

(** When the unprotected connections are less than half of what an emergency is to close,
    they are selected a second time and counted again, and too few are closed. *)
Example force_trim_twice :
  is_ok (example 1 [[0]; [2]; [3]] [[0]; [2]; [3]] [1; 2; 3; 4]%positive) = true /\
  (let cm := the busy (example 1 [[0]; [2]; [3]] [[0]; [2]; [3]] [1; 2; 3; 4]%positive) in
   (lowWater (cfg cm), connCount cm, (ForceTrim cm example_stat epoch).2) = (1, 4, [1; 1; 4]%positive)).
Proof. split; by vm_compute. Qed.
