(* ===== verification/Decay.v ===== *)
(** * Decaying tags, and the histories of the connection manager

    src/myvendor/go-libp2p, p2p/net/connmgr/decay.go and core/connmgr/presets.go: tags
    whose value decays with time.  A bump, a removal and the closing of a tag are queued in
    one channel each; the goroutine [process] takes from whichever it likes, and ticks.
    [step] is one call of the API or one turn of that goroutine; what holds of every
    reachable state holds in any order of them.

    A tag is a pointer into [store]; decay and bump functions are arguments of
    [RegisterDecayingTag], and those of presets.go are definitions here.  A decay function
    may read the clock. *)

From Stdlib Require Import SpecFloat.
From stdpp Require Import pretty.
From S2P Require Import Prelude GoLib Scope ConnMgr.

Definition DecayFn := Z -> DecayingValue -> Z * bool.
Definition BumpFn := DecayingValue -> Z -> Z.

(** ** Presets *)

Definition DecayNone : DecayFn := fun _ v => (DValue v, false).

Definition DecayFixed (minuend : Z) : DecayFn := fun _ v =>
  let v' := wraps 64 (DValue v - minuend) in (v', v' <=? 0).

(** [int(math.Floor(f))] *)
Definition ffloor (f : float64) : Z :=
  match f with
  | S754_finite s m e => Z.shiftl (if s then Zneg m else Zpos m) e
  | _ => 0
  end.

(** What [int] makes of a value that is not finite is the platform's; here 0. *)
Definition DecayLinear (coef : float64) : DecayFn := fun _ v =>
  let f := fmul (fof_int (DValue v)) coef in
  (ffloor f, match f with S754_nan => false | S754_infinity s => s | _ => ffloor f <=? 0 end).

(** [time.Until(LastVisit) >= after] *)
Definition DecayExpireWhenInactive (after : Z) : DecayFn := fun now v =>
  (0, after <=? time_sub (LastVisit v) now).

Definition BumpSumUnbounded : BumpFn := fun v delta => wraps 64 (DValue v + delta).

Definition BumpSumBounded (min max : Z) : BumpFn := fun v delta =>
  let v' := wraps 64 (DValue v + delta) in
  if max <=? v' then max else if v' <=? min then min else v'.

Definition BumpOverwrite : BumpFn := fun _ delta => delta.

(** ** The decayer *)

Record decayingTag := {
  name : string; interval : Z; nextTick : Z; decayFn : DecayFn; bumpFn : BumpFn; closed : bool
}.

Record bumpCmd := { bump_peer : ID; bump_tag : positive; delta : Z }.
Record removeCmd := { rm_peer : ID; rm_tag : positive }.

Inductive Stage := Running | Closing | Done.

Record Manager := {
  mgr : BasicConnMgr;
  store : gmap positive decayingTag;
  knownTags : gmap string positive;
  lastTick : Z;
  bumpTagCh : list bumpCmd;
  removeTagCh : list removeCmd;
  closeTagCh : list positive;
  stage : Stage
}.

Definition NewDecayer (cm : BasicConnMgr) (now : Z) : Manager := {|
  mgr := cm; store := ∅; knownTags := ∅; lastTick := now; bumpTagCh := []; removeTagCh := []; closeTagCh := [];
  stage := Running |}.

Definition set_mgr (cm : BasicConnMgr) (m : Manager) : Manager := {|
  mgr := cm; store := store m; knownTags := knownTags m; lastTick := lastTick m; bumpTagCh := bumpTagCh m;
  removeTagCh := removeTagCh m; closeTagCh := closeTagCh m; stage := stage m |}.
Definition set_tagstore (st : gmap positive decayingTag) (known : gmap string positive) (m : Manager) : Manager := {|
  mgr := mgr m; store := st; knownTags := known; lastTick := lastTick m; bumpTagCh := bumpTagCh m;
  removeTagCh := removeTagCh m; closeTagCh := closeTagCh m; stage := stage m |}.
Definition set_lastTick (t : Z) (m : Manager) : Manager := {|
  mgr := mgr m; store := store m; knownTags := knownTags m; lastTick := t; bumpTagCh := bumpTagCh m;
  removeTagCh := removeTagCh m; closeTagCh := closeTagCh m; stage := stage m |}.
Definition set_queues (b : list bumpCmd) (r : list removeCmd) (c : list positive) (m : Manager) : Manager := {|
  mgr := mgr m; store := store m; knownTags := knownTags m; lastTick := lastTick m; bumpTagCh := b;
  removeTagCh := r; closeTagCh := c; stage := stage m |}.
Definition set_stage (s : Stage) (m : Manager) : Manager := {|
  mgr := mgr m; store := store m; knownTags := knownTags m; lastTick := lastTick m; bumpTagCh := bumpTagCh m;
  removeTagCh := removeTagCh m; closeTagCh := closeTagCh m; stage := s |}.

Definition RegisterDecayingTag (m : Manager) (nm : string) (iv : Z) (df : DecayFn) (bf : BumpFn) : Manager * res positive :=
  match knownTags m !! nm with
  | Some _ => (m, Fail ("decaying tag with name " +:+ nm +:+ " already exists"))
  | None =>
      let iv := if iv <? resolution (cfg (mgr m)) then resolution (cfg (mgr m)) else iv in
      let tag := fresh (dom (store m)) in
      let t := {| name := nm; interval := iv; nextTick := lastTick m + iv; decayFn := df; bumpFn := bf; closed := false |} in
      (set_tagstore (<[tag := t]> (store m)) (<[nm := tag]> (knownTags m)) m, Ok tag)
  end.

(** ** The API of a tag *)

Definition queueCap : Z := 128.

Inductive tagError := ErrClosed | ErrQueueFull (len : Z).

Definition Bump (m : Manager) (t : positive) (p : ID) (d : Z) : Manager * option tagError :=
  match store m !! t with
  | None => (m, None)
  | Some tag =>
      if closed tag then (m, Some ErrClosed)
      else if zlen (bumpTagCh m) <? queueCap
      then (set_queues (bumpTagCh m ++ [{| bump_peer := p; bump_tag := t; delta := d |}]) (removeTagCh m) (closeTagCh m) m, None)
      else (m, Some (ErrQueueFull (zlen (bumpTagCh m))))
  end.

Definition Remove (m : Manager) (t : positive) (p : ID) : Manager * option tagError :=
  match store m !! t with
  | None => (m, None)
  | Some tag =>
      if closed tag then (m, Some ErrClosed)
      else if zlen (removeTagCh m) <? queueCap
      then (set_queues (bumpTagCh m) (removeTagCh m ++ [{| rm_peer := p; rm_tag := t |}]) (closeTagCh m) m, None)
      else (m, Some (ErrQueueFull (zlen (removeTagCh m))))
  end.

Definition mark_closed (tag : decayingTag) : decayingTag := {|
  name := name tag; interval := interval tag; nextTick := nextTick tag; decayFn := decayFn tag;
  bumpFn := bumpFn tag; closed := true |}.

Definition CloseTag (m : Manager) (t : positive) : Manager * option tagError :=
  match store m !! t with
  | None => (m, None)
  | Some tag =>
      if closed tag then (m, None)
      else
        let m := set_tagstore (<[t := mark_closed tag]> (store m)) (knownTags m) m in
        if zlen (closeTagCh m) <? queueCap
        then (set_queues (bumpTagCh m) (removeTagCh m) (closeTagCh m ++ [t]) m, None)
        else (m, Some (ErrQueueFull (zlen (closeTagCh m))))
  end.

(** [decayer.Close]; closing a closed channel panics.  The caller then waits for [Done]. *)
Definition Close (m : Manager) : res Manager :=
  match stage m with
  | Done => Ok m
  | Closing => Panic
  | Running => Ok (set_stage Closing m)
  end.

Section process.
Context `{MR : !MapRange}.

(** ** The turns of [process] *)

(** A decaying value of a peer, in the loop over them. *)
Definition decay_value (st : gmap positive decayingTag) (visit : gset positive) (now : Z) (pi : peerInfo)
  (e : positive * DecayingValue) : peerInfo :=
  let '(t, v) := e in
  if decide (t ∈ visit) then
    match st !! t with
    | None => pi
    | Some tag =>
        let '(after, rm) := decayFn tag now v in
        if rm then with_decaying (delete t (decaying pi)) (value pi + (0 - DValue v)) pi
        else with_decaying
               (<[t := {| DTag := DTag v; DPeer := DPeer v; Added := Added v; LastVisit := now; DValue := after |}]> (decaying pi))
               (value pi + (after - DValue v)) pi
    end
  else pi.

Definition decay_peer (st : gmap positive decayingTag) (visit : gset positive) (now : Z) (pi : peerInfo) : peerInfo :=
  foldl (decay_value st visit now) pi (range_map 7 (decaying pi)).

Definition due (st : gmap positive decayingTag) (now : Z) (t : positive) : bool :=
  match st !! t with Some tag => negb (time_after (nextTick tag) now) | None => false end.

Definition postpone (tag : decayingTag) : decayingTag := {|
  name := name tag; interval := interval tag; nextTick := nextTick tag + interval tag; decayFn := decayFn tag;
  bumpFn := bumpFn tag; closed := closed tag |}.

Definition visited (m : Manager) (now : Z) : gset positive :=
  list_to_set (filter (fun t => due (store m) now t = true) (range_map 8 (knownTags m)).*2).

Definition tick (m : Manager) (now : Z) : Manager :=
  let visit := visited m now in
  let m := set_lastTick now m in
  let m := set_mgr (set_peers (decay_peer (store m) visit now <$> peers (mgr m)) (mgr m)) m in
  set_tagstore (map_imap (fun t tag => Some (if decide (t ∈ visit) then postpone tag else tag)) (store m)) (knownTags m) m.

Definition apply_bump (m : Manager) (now : Z) : res Manager :=
  match bumpTagCh m with
  | [] => Ok m
  | bmp :: rest =>
      let m := set_queues rest (removeTagCh m) (closeTagCh m) m in
      let p := bump_peer bmp in let t := bump_tag bmp in
      let! _ := get p in
      let pi := tagInfoFor (peers (mgr m)) p now in
      let v := match decaying pi !! t with
        | Some v => v
        | None => {| DTag := t; DPeer := p; Added := now; LastVisit := now; DValue := 0 |}
        end in
      match store m !! DTag v with
      | None => Panic
      | Some tag =>
          let after := bumpFn tag v (delta bmp) in
          let v' := {| DTag := DTag v; DPeer := DPeer v; Added := Added v; LastVisit := now; DValue := after |} in
          Ok (set_mgr (put_peer p (with_decaying (<[t := v']> (decaying pi)) (value pi + (after - DValue v)) pi) (mgr m)) m)
      end
  end.

Definition apply_remove (m : Manager) (now : Z) : res Manager :=
  match removeTagCh m with
  | [] => Ok m
  | rm :: rest =>
      let m := set_queues (bumpTagCh m) rest (closeTagCh m) m in
      let p := rm_peer rm in
      let! _ := get p in
      let pi := tagInfoFor (peers (mgr m)) p now in
      match decaying pi !! rm_tag rm with
      | None => Ok (set_mgr (put_peer p pi (mgr m)) m)
      | Some v =>
          Ok (set_mgr (put_peer p (with_decaying (delete (rm_tag rm) (decaying pi)) (value pi - DValue v) pi) (mgr m)) m)
      end
  end.

Definition drop_tag (t : positive) (pi : peerInfo) : peerInfo :=
  match decaying pi !! t with
  | Some v => with_decaying (delete t (decaying pi)) (value pi - DValue v) pi
  | None => pi
  end.

Definition apply_close (m : Manager) : Manager :=
  match closeTagCh m with
  | [] => m
  | t :: rest =>
      let m := set_queues (bumpTagCh m) (removeTagCh m) rest m in
      let m := match store m !! t with
        | Some tag => set_tagstore (store m) (delete (name tag) (knownTags m)) m
        | None => m
        end in
      set_mgr (set_peers (drop_tag t <$> peers (mgr m)) (mgr m)) m
  end.
End process.

(** ** Histories *)

Section histories.
Context `{MR : !MapRange} `{GS : !GoSort} `{NW : !Network}.

(** A call of the API, a notification or a turn of a goroutine; a call that panics is none. *)
Inductive step (m : Manager) : Manager -> Prop :=
  | step_tag p tag val now cm : is_bytes p -> TagPeer (mgr m) p tag val now = Ok cm -> step m (set_mgr cm m)
  | step_untag p tag cm : UntagPeer (mgr m) p tag = Ok cm -> step m (set_mgr cm m)
  | step_upsert p tag f now cm : is_bytes p -> UpsertTag (mgr m) p tag f now = Ok cm -> step m (set_mgr cm m)
  | step_protect p tag : step m (set_mgr (Protect (mgr m) p tag) m)
  | step_unprotect p tag : step m (set_mgr (Unprotect (mgr m) p tag).1 m)
  | step_connected c now cm : Connected (mgr m) c now = Ok cm -> step m (set_mgr cm m)
  | step_disconnected c cm : Disconnected (mgr m) c = Ok cm -> step m (set_mgr cm m)
  | step_trim count stat now : step m (set_mgr (doTrim (mgr m) count stat now).1 m)
  | step_background stat now : step m (set_mgr (background (mgr m) stat now).1 m)
  | step_force stat now : step m (set_mgr (ForceTrim (mgr m) stat now).1 m)
  | step_register nm iv df bf : step m (RegisterDecayingTag m nm iv df bf).1
  | step_bump t p d : is_bytes p -> step m (Bump m t p d).1
  | step_remove t p : is_bytes p -> step m (Remove m t p).1
  | step_close_tag t : step m (CloseTag m t).1
  | step_close m' : Close m = Ok m' -> step m m'
  | step_tick now : stage m <> Done -> step m (tick m now)
  | step_apply_bump now m' : stage m <> Done -> apply_bump m now = Ok m' -> step m m'
  | step_apply_remove now m' : stage m <> Done -> apply_remove m now = Ok m' -> step m m'
  | step_apply_close : stage m <> Done -> step m (apply_close m)
  | step_done : stage m = Closing -> step m (set_stage Done m).

Definition reachable (m : Manager) : Prop := exists c now, rtc step (NewDecayer (new_manager c) now) m.

Record m_ok (m : Manager) : Prop := {
  m_cm : cm_ok (mgr m);
  m_tags : forall p pi t v, peers (mgr m) !! p = Some pi -> decaying pi !! t = Some v -> is_Some (store m !! t);
  m_bumps : forall b, b ∈ bumpTagCh m -> is_bytes (bump_peer b) /\ is_Some (store m !! bump_tag b);
  m_removes : forall r, r ∈ removeTagCh m -> is_bytes (rm_peer r);
  m_known : forall n t, knownTags m !! n = Some t -> exists tag, store m !! t = Some tag /\ name tag = n
}.

(** What a tick leaves of a decaying value. *)
Definition decayed (st : gmap positive decayingTag) (visit : gset positive) (now : Z) (t : positive) (v : DecayingValue)
  : option DecayingValue :=
  if decide (t ∈ visit) then
    match st !! t with
    | None => Some v
    | Some tag =>
        let '(after, rm) := decayFn tag now v in
        if rm then None
        else Some {| DTag := DTag v; DPeer := DPeer v; Added := Added v; LastVisit := now; DValue := after |}
    end
  else Some v.

Lemma decay_value_spec st visit now p pi t v : peer_ok p pi -> decaying pi !! t = Some v ->
  let r := decay_value st visit now pi (t, v) in
  peer_ok p r /\ conns r = conns pi /\ firstSeen r = firstSeen pi /\ tags r = tags pi /\
  decaying r = partial_alter (fun _ => decayed st visit now t v) t (decaying pi).
Proof.
  intros Hok Hv. unfold decay_value, decayed.
  assert (decaying pi = partial_alter (fun _ => Some v) t (decaying pi)) as Hsame by exact (eq_sym (insert_id _ _ _ Hv)).
  case_decide; [|done]. destruct (st !! t) as [tag|]; [|done]. destruct (decayFn tag now v) as [after rm].
  destruct rm; simpl; (split; [|done]); (apply with_decaying_ok; [done|..]).
  - intros t' x [_ Hx]%lookup_delete_Some. by eapply ok_decaying.
  - f_equal. rewrite msum_remove, Hv. lia.
  - intros t' x [[<- <-]|[_ Hx]]%lookup_insert_Some; simpl; by eapply ok_decaying.
  - f_equal. rewrite msum_put, Hv. simpl. lia.
Qed.

Lemma decay_fold st visit now p l : forall pi, peer_ok p pi -> NoDup l.*1 ->
  (forall e, e ∈ l -> decaying pi !! e.1 = Some e.2) ->
  let r := foldl (decay_value st visit now) pi l in
  peer_ok p r /\ conns r = conns pi /\ firstSeen r = firstSeen pi /\ tags r = tags pi /\
  forall t, decaying r !! t =
    if decide (t ∈ l.*1) then decaying pi !! t ≫= decayed st visit now t else decaying pi !! t.
Proof.
  induction l as [|[t v] l IH]; intros pi Hok Hnd Hl.
  { simpl. by split_and!. }
  csimpl in Hnd. apply NoDup_cons in Hnd as [Ht Hnd]. pose proof (Hl (t, v) (list_elem_of_here _ _)) as Hv. simpl in Hv.
  destruct (decay_value_spec st visit now p pi t v Hok Hv) as (Hok1 & C1 & F1 & T1 & D1).
  destruct (IH (decay_value st visit now pi (t, v)) Hok1 Hnd) as (Hok2 & C2 & F2 & T2 & D2).
  { intros e He. rewrite D1. rewrite lookup_partial_alter_ne; [apply Hl; set_solver|].
    intros ->. apply Ht, list_elem_of_fmap. by exists e. }
  cbn [foldl]. split_and!; [done|congruence..|]. intros t'. rewrite D2, D1. csimpl.
  destruct (decide (t' = t)) as [->|Hne].
  - rewrite decide_False by done. rewrite decide_True by set_solver. by rewrite lookup_partial_alter_eq, Hv.
  - rewrite lookup_partial_alter_ne by done. destruct (decide (t' ∈ l.*1)); [rewrite decide_True by set_solver; done|].
    by rewrite decide_False by set_solver.
Qed.

Lemma decay_peer_spec st visit now p pi : peer_ok p pi ->
  let r := decay_peer st visit now pi in
  peer_ok p r /\ conns r = conns pi /\ firstSeen r = firstSeen pi /\ tags r = tags pi /\
  forall t, decaying r !! t = decaying pi !! t ≫= decayed st visit now t.
Proof.
  intros Hok. destruct (decay_fold st visit now p (range_map 7 (decaying pi)) pi Hok (NoDup_range_keys _ _)) as (H1 & H2 & H3 & H4 & H5).
  { intros [t v] Hin. by apply elem_of_range in Hin. }
  fold (decay_peer st visit now pi) in *. split_and!; try done. intros t. rewrite H5. case_decide as Hd; [done|].
  destruct (decaying pi !! t) as [v|] eqn:E; [|done]. exfalso. apply Hd, list_elem_of_fmap. exists (t, v).
  by rewrite elem_of_range.
Qed.

Lemma drop_tag_spec p pi t : peer_ok p pi ->
  peer_ok p (drop_tag t pi) /\ conns (drop_tag t pi) = conns pi /\ firstSeen (drop_tag t pi) = firstSeen pi /\
  decaying (drop_tag t pi) = delete t (decaying pi).
Proof.
  intros Hok. unfold drop_tag. destruct (decaying pi !! t) as [v|] eqn:E.
  - split; [|done]. apply with_decaying_ok; [done| |f_equal; rewrite msum_remove, E; lia].
    intros t' x [_ Hx]%lookup_delete_Some. by eapply ok_decaying.
  - by rewrite delete_id.
Qed.

(** Changing every entry without touching its connections. *)
Lemma cm_ok_fmap cm f : cm_ok cm -> (forall p pi, peers cm !! p = Some pi -> peer_ok p (f pi) /\ conns (f pi) = conns pi) ->
  cm_ok (set_peers (f <$> peers cm) cm).
Proof.
  intros Hcm Hf. split; simpl.
  - intros p pi Hp. rewrite lookup_fmap in Hp. apply fmap_Some in Hp as (pi0 & Hp & ->). by apply Hf.
  - rewrite (ok_count _ Hcm). f_equal. unfold tracked. clear Hcm.
    induction (peers cm) as [|p pi ps Hp IH] using map_ind; [by rewrite fmap_empty|].
    rewrite fmap_insert, !msum_insert_new by (done || by rewrite lookup_fmap, Hp).
    rewrite IH.
    + unfold numConns. destruct (Hf p pi (lookup_insert_eq _ _ _)) as [_ ->]. done.
    + intros q qi Hq. apply Hf. rewrite lookup_insert_ne; [done|]. by intros ->; rewrite Hp in Hq.
Qed.

(** Entries whose decaying values are new or were there. *)
Definition dec_sub (ps ps' : gmap ID peerInfo) : Prop := forall p pi', ps' !! p = Some pi' ->
  decaying pi' = ∅ \/ exists pi, ps !! p = Some pi /\ decaying pi' = decaying pi.

Lemma dec_sub_put ps p pi : decaying pi = decaying (tagInfoFor ps p 0) -> dec_sub ps (<[p := pi]> ps).
Proof.
  intros H q qi [[<- <-]|[_ Hq]]%lookup_insert_Some; [|eauto]. rewrite H. unfold tagInfoFor.
  destruct (ps !! p) as [pi0|] eqn:E; [right; eauto|by left].
Qed.

Lemma dec_sub_sub ps ps' : (forall p pi, ps' !! p = Some pi -> ps !! p = Some pi) -> dec_sub ps ps'.
Proof. intros H p pi' Hp. right. eauto. Qed.

Lemma TagPeer_dec cm p tag val now cm' : TagPeer cm p tag val now = Ok cm' -> dec_sub (peers cm) (peers cm').
Proof.
  intros (b & Hb & [= <-])%rbind_Ok. apply dec_sub_put. unfold tagInfoFor. by destruct (peers cm !! p).
Qed.

Lemma UntagPeer_dec cm p tag cm' : UntagPeer cm p tag = Ok cm' -> dec_sub (peers cm) (peers cm').
Proof.
  intros (b & Hb & E)%rbind_Ok. destruct (peers cm !! p) as [pi|] eqn:Ep; injection E as <-; [|by apply dec_sub_sub].
  apply dec_sub_put. unfold tagInfoFor. by rewrite Ep.
Qed.

Lemma Connected_dec cm c now cm' : Connected cm c now = Ok cm' -> dec_sub (peers cm) (peers cm').
Proof.
  unfold Connected. intros (b & Hb & E)%rbind_Ok. set (pinfo := match peers cm !! _ with Some pi => _ | None => _ end) in E.
  assert (decaying pinfo = decaying (tagInfoFor (peers cm) (RemotePeer c) 0)) as Hd.
  { subst pinfo. unfold tagInfoFor. destruct (peers cm !! RemotePeer c) as [pi|]; [|done]. by destruct (temp pi). }
  destruct (conns pinfo !! c); injection E as <-; by apply dec_sub_put.
Qed.

Lemma Disconnected_dec cm c cm' : Disconnected cm c = Ok cm' -> dec_sub (peers cm) (peers cm').
Proof.
  unfold Disconnected. intros (b & Hb & E)%rbind_Ok. destruct (peers cm !! RemotePeer c) as [pi|] eqn:Ep; [|by injection E as <-; apply dec_sub_sub].
  destruct (conns pi !! c); injection E as <-; [|by apply dec_sub_sub]. case_decide.
  - apply dec_sub_sub. intros p pi'. simpl. intros [_ Hp]%lookup_delete_Some. done.
  - apply dec_sub_put. unfold tagInfoFor. by rewrite Ep.
Qed.

Lemma trim_dec cm stat now : dec_sub (peers cm) (peers (trim cm stat now).1).
Proof.
  apply dec_sub_sub. unfold trim, getConnsToClose. repeat case_match; simplify_eq/=; try done.
  intros p pi. pose proof (select_sub (SortByValueAndStreams stat false (candidates cm now))
    (numConnsOf (candidates cm now) - lowWater (cfg cm)) (peers cm) [] p pi) as H'.
  match goal with E : select_conns _ _ _ _ = _ |- _ => by rewrite E in H' end.
Qed.

Lemma m_ok_mgr m cm : m_ok m -> cm_ok cm -> dec_sub (peers (mgr m)) (peers cm) -> m_ok (set_mgr cm m).
Proof.
  intros [H1 H2 H3 H4 H5] Hcm Hd. split; simpl; try done. intros p pi t v Hp Ht.
  destruct (Hd p pi Hp) as [E|(pi0 & Hp0 & E)]; rewrite E in Ht; [by apply lookup_empty_Some in Ht|eauto].
Qed.

Lemma trimmed_ok now cm : cm_ok cm -> cm_ok (trimmed now cm).
Proof. by intros []. Qed.

Lemma doTrim_ok cm count stat now : cm_ok cm ->
  cm_ok (doTrim cm count stat now).1 /\ dec_sub (peers cm) (peers (doTrim cm count stat now).1).
Proof.
  intros Hcm. unfold doTrim. case_match; [|split; [done|by apply dec_sub_sub]].
  pose proof (trim_ok cm stat now Hcm) as H1. pose proof (trim_dec cm stat now) as H2.
  destruct (trim cm stat now) as [cm1 l]. split; [by apply trimmed_ok|done].
Qed.

Lemma background_ok cm stat now : cm_ok cm ->
  cm_ok (background cm stat now).1 /\ dec_sub (peers cm) (peers (background cm stat now).1).
Proof.
  intros Hcm. unfold background. case_match; [split; [done|by apply dec_sub_sub]|].
  split; [by apply trim_ok|apply trim_dec].
Qed.

Lemma ForceTrim_ok cm stat now : cm_ok cm ->
  cm_ok (ForceTrim cm stat now).1 /\ dec_sub (peers cm) (peers (ForceTrim cm stat now).1).
Proof. intros Hcm. unfold ForceTrim. case_match; (split; [|by apply dec_sub_sub]); [done|by apply trimmed_ok]. Qed.

Lemma m_ok_stage m s : m_ok m -> m_ok (set_stage s m).
Proof. by intros []. Qed.

Lemma known_store m : m_ok m -> forall t, t ∈ (range_map 8 (knownTags m)).*2 -> is_Some (store m !! t).
Proof.
  intros Hm t Ht. apply list_elem_of_fmap in Ht as ([n t'] & -> & Hin). apply elem_of_range in Hin.
  destruct (m_known _ Hm _ _ Hin) as (tag & Ht & _). eauto.
Qed.

(** The tags keep their names, and none is lost. *)
Lemma m_ok_tags m st known : m_ok m ->
  (forall t tag, store m !! t = Some tag -> exists tag', st !! t = Some tag' /\ name tag' = name tag) ->
  (forall n t, known !! n = Some t -> exists tag, st !! t = Some tag /\ name tag = n) ->
  m_ok (set_tagstore st known m).
Proof.
  intros [H1 H2 H3 H4 H5] Hst Hk. assert (forall t, is_Some (store m !! t) -> is_Some (st !! t)) as Hs.
  { intros t [tag Ht]. destruct (Hst _ _ Ht) as (tag' & Ht' & _). eauto. }
  split; simpl; try done.
  - intros p pi t v Hp Ht. eauto.
  - intros b Hb. destruct (H3 b Hb). eauto.
Qed.

Lemma tick_ok m now : m_ok m -> m_ok (tick m now).
Proof.
  intros Hm. unfold tick. set (visit := visited m now).
  assert (m_ok (set_mgr (set_peers (decay_peer (store m) visit now <$> peers (mgr m)) (mgr m)) (set_lastTick now m))) as H1.
  { pose proof Hm as [C1 C2 C3 C4 C5]. split; simpl; try done.
    - apply cm_ok_fmap; [done|]. intros p pi Hp. destruct (decay_peer_spec (store m) visit now p pi (ok_peers _ C1 _ _ Hp)) as (? & ? & _).
      done.
    - intros p pi' t v Hp Ht. rewrite lookup_fmap in Hp. apply fmap_Some in Hp as (pi & Hp & ->).
      destruct (decay_peer_spec (store m) visit now p pi (ok_peers _ C1 _ _ Hp)) as (_ & _ & _ & _ & Hd).
      rewrite Hd in Ht. apply bind_Some in Ht as (v0 & Hv0 & _). eauto. }
  apply (m_ok_tags _ _ _ H1); simpl.
  - intros t tag Ht. rewrite map_lookup_imap, Ht. simpl. eexists. split; [done|]. by case_decide.
  - intros n t Hn. destruct (m_known _ Hm _ _ Hn) as (tag & Ht & <-). rewrite map_lookup_imap, Ht. simpl.
    eexists. split; [done|]. by case_decide.
Qed.

Lemma m_ok_put m p pi : m_ok m -> peer_ok p pi -> numConns pi = connsOf (peers (mgr m)) p ->
  (forall t v, decaying pi !! t = Some v -> is_Some (store m !! t)) ->
  m_ok (set_mgr (put_peer p pi (mgr m)) m).
Proof.
  intros [H1 H2 H3 H4 H5] Hpi Hn Hd. split; simpl; try done; [by apply cm_ok_retag|].
  intros q qi t v [[_ <-]|[_ Hq]]%lookup_insert_Some Ht; [by eapply Hd|by eapply H2].
Qed.

Lemma tagInfoFor_tags m p now t v : m_ok m -> decaying (tagInfoFor (peers (mgr m)) p now) !! t = Some v -> is_Some (store m !! t).
Proof.
  intros Hm. unfold tagInfoFor. destruct (peers (mgr m) !! p) as [pi|] eqn:E; [by apply (m_tags _ Hm p pi)|].
  simpl. intros Hv. by apply lookup_empty_Some in Hv.
Qed.

(** The value a bump finds, with its tag and its peer. *)
Definition bumped (m : Manager) (now : Z) (p : ID) (t : positive) : DecayingValue :=
  match decaying (tagInfoFor (peers (mgr m)) p now) !! t with
  | Some v => v
  | None => {| DTag := t; DPeer := p; Added := now; LastVisit := now; DValue := 0 |}
  end.

Lemma bumped_spec m now p t b : m_ok m -> is_bytes p -> get p = Ok b ->
  DTag (bumped m now p t) = t /\ DPeer (bumped m now p t) = p /\
  DValue (bumped m now p t) = match decaying (tagInfoFor (peers (mgr m)) p now) !! t with Some v => DValue v | None => 0 end.
Proof.
  intros Hm Hp Hb. unfold bumped. destruct (decaying _ !! t) as [v|] eqn:E; [|done].
  by destruct (ok_decaying _ _ (tagInfoFor_ok (mgr m) p now b (m_cm _ Hm) Hp Hb) t v E).
Qed.

Lemma apply_bump_ok m now m' : m_ok m -> apply_bump m now = Ok m' -> m_ok m'.
Proof.
  intros Hm. unfold apply_bump. destruct (bumpTagCh m) as [|bmp rest] eqn:Eq; [by intros [= <-]|].
  assert (m_ok (set_queues rest (removeTagCh m) (closeTagCh m) m)) as Hm1.
  { destruct Hm as [H1 H2 H3 H4 H5]. split; simpl; try done. intros b Hb. apply H3. rewrite Eq. set_solver. }
  destruct (m_bumps _ Hm bmp) as [Hb Ht]; [rewrite Eq; set_solver|]. intros (b & Hp & E)%rbind_Ok.
  fold (bumped (set_queues rest (removeTagCh m) (closeTagCh m) m) now (bump_peer bmp) (bump_tag bmp)) in E.
  destruct (bumped_spec _ now _ (bump_tag bmp) b Hm1 Hb Hp) as (Hdt & Hdp & Hdv). set (v := bumped _ _ _ _) in *.
  destruct (store _ !! DTag v) as [tag|] eqn:Es; [|done]. injection E as <-.
  pose proof (tagInfoFor_ok _ (bump_peer bmp) now b (m_cm _ Hm1) Hb Hp) as Hok.
  apply (m_ok_put (set_queues rest (removeTagCh m) (closeTagCh m) m)); [done| | |].
  - apply with_decaying_ok; [done| |].
    + intros t x [[<- <-]|[_ Hx]]%lookup_insert_Some; simpl; [by rewrite Hdt, Hdp|by apply (ok_decaying _ _ Hok)].
    + f_equal. rewrite msum_put, Hdv. simpl. case_match; lia.
  - exact (connsOf_tagInfoFor (mgr m) (bump_peer bmp) now).
  - intros t x. simpl. intros [[<- _]|[_ Hx]]%lookup_insert_Some; [done|by eapply (tagInfoFor_tags _ _ _ _ _ Hm1)].
Qed.

Lemma apply_remove_ok m now m' : m_ok m -> apply_remove m now = Ok m' -> m_ok m'.
Proof.
  intros Hm. unfold apply_remove. destruct (removeTagCh m) as [|rm rest] eqn:Eq; [by intros [= <-]|].
  assert (m_ok (set_queues (bumpTagCh m) rest (closeTagCh m) m)) as Hm1.
  { destruct Hm as [H1 H2 H3 H4 H5]. split; simpl; try done. intros b Hb. apply H4. rewrite Eq. set_solver. }
  pose proof (m_removes _ Hm rm ltac:(rewrite Eq; set_solver)) as Hb. intros (b & Hp & E)%rbind_Ok.
  pose proof (tagInfoFor_ok _ (rm_peer rm) now b (m_cm _ Hm1) Hb Hp) as Hok.
  pose proof (connsOf_tagInfoFor (mgr m) (rm_peer rm) now) as Hn.
  cbn [mgr set_queues] in E, Hok. destruct (decaying _ !! rm_tag rm) as [v|] eqn:Ev; injection E as <-;
    (apply (m_ok_put (set_queues (bumpTagCh m) rest (closeTagCh m) m)); [done|..|]); try done.
  - apply with_decaying_ok; [done| |f_equal; rewrite msum_remove, Ev; lia].
    intros t x [_ Hx]%lookup_delete_Some. by apply (ok_decaying _ _ Hok).
  - intros t x. simpl. intros [_ Hx]%lookup_delete_Some. by eapply (tagInfoFor_tags _ _ _ _ _ Hm1).
  - intros t x Hx. by eapply (tagInfoFor_tags _ _ _ _ _ Hm1).
Qed.

Lemma apply_close_ok m : m_ok m -> m_ok (apply_close m).
Proof.
  intros Hm. unfold apply_close. destruct (closeTagCh m) as [|t rest] eqn:Eq; [done|].
  set (m1 := match store _ !! t with Some tag => _ | None => _ end).
  assert (m_ok m1) as Hm1.
  { destruct Hm as [H1 H2 H3 H4 H5]. subst m1. case_match; split; simpl; try done.
    intros n t' [_ Hn]%lookup_delete_Some. by apply H5. }
  clearbody m1. clear Hm. split; simpl; try apply Hm1.
  - apply cm_ok_fmap; [apply Hm1|]. intros p pi Hp. destruct (drop_tag_spec p pi t (ok_peers _ (m_cm _ Hm1) _ _ Hp)) as (? & ? & _). done.
  - intros p pi' t' v Hp Hv. rewrite lookup_fmap in Hp. apply fmap_Some in Hp as (pi & Hp & ->).
    destruct (drop_tag_spec p pi t (ok_peers _ (m_cm _ Hm1) _ _ Hp)) as (_ & _ & _ & Hd). rewrite Hd in Hv.
    apply lookup_delete_Some in Hv as [_ Hv]. by eapply m_tags.
Qed.

Lemma RegisterDecayingTag_ok m nm iv df bf : m_ok m -> m_ok (RegisterDecayingTag m nm iv df bf).1.
Proof.
  intros Hm. unfold RegisterDecayingTag. destruct (knownTags m !! nm) eqn:E; [done|]. cbn [fst].
  assert (store m !! fresh (dom (store m)) = None) as Hf by apply not_elem_of_dom, is_fresh.
  apply m_ok_tags; [done| |].
  - intros t tag Ht. exists tag. rewrite lookup_insert_ne; [done|]. intros <-. by rewrite Hf in Ht.
  - intros n t [[<- <-]|[_ Hn]]%lookup_insert_Some; [eexists; by rewrite lookup_insert_eq|].
    destruct (m_known _ Hm _ _ Hn) as (tag & Ht & Hname). exists tag. split; [|done]. rewrite lookup_insert_ne; [done|].
    intros <-. by rewrite Hf in Ht.
Qed.

Lemma Bump_ok m t p d : is_bytes p -> m_ok m -> m_ok (Bump m t p d).1.
Proof.
  intros Hp Hm. unfold Bump. destruct (store m !! t) as [tag|] eqn:E; [|done]. case_match; [done|]. case_match; [|done].
  destruct Hm as [H1 H2 H3 H4 H5]. split; simpl; try done.
  intros b [Hb| ->%list_elem_of_singleton]%elem_of_app; [by apply H3|]. simpl. by rewrite E.
Qed.

Lemma Remove_ok m t p : is_bytes p -> m_ok m -> m_ok (Remove m t p).1.
Proof.
  intros Hp Hm. unfold Remove. destruct (store m !! t) as [tag|] eqn:E; [|done]. case_match; [done|]. case_match; [|done].
  destruct Hm as [H1 H2 H3 H4 H5]. split; simpl; try done.
  intros b [Hb| ->%list_elem_of_singleton]%elem_of_app; [by apply H4|done].
Qed.

Lemma CloseTag_ok m t : m_ok m -> m_ok (CloseTag m t).1.
Proof.
  intros Hm. unfold CloseTag. destruct (store m !! t) as [tag|] eqn:E; [|done]. destruct (closed tag); [done|].
  assert (m_ok (set_tagstore (<[t:=mark_closed tag]> (store m)) (knownTags m) m)) as H1.
  { assert (forall t0 tag0, store m !! t0 = Some tag0 ->
      exists tag', <[t:=mark_closed tag]> (store m) !! t0 = Some tag' /\ name tag' = name tag0) as Hst.
    { intros t0 tag0 Ht0. destruct (decide (t = t0)) as [<-|Hne].
      - exists (mark_closed tag). rewrite lookup_insert_eq. split; [done|]. rewrite E in Ht0. by injection Ht0 as ->.
      - exists tag0. by rewrite lookup_insert_ne. }
    apply m_ok_tags; [done|done|]. intros n t0 Hn. destruct (m_known _ Hm _ _ Hn) as (tag0 & Ht0 & <-). eauto. }
  case_match; [|done]. destruct H1 as [C1 C2 C3 C4 C5]. by split.
Qed.

Lemma manager_step_ok m m' : m_ok m -> step m m' -> m_ok m'.
Proof.
  intros Hm Hs. pose proof (m_cm _ Hm) as Hcm. destruct Hs.
  - apply m_ok_mgr; [done|by eapply TagPeer_ok|by eapply TagPeer_dec].
  - apply m_ok_mgr; [done|by eapply UntagPeer_ok|by eapply UntagPeer_dec].
  - apply m_ok_mgr; [done|by eapply UpsertTag_ok|]. eapply (TagPeer_dec _ p tag (f (tagValue (tagInfoFor (peers (mgr m)) p now) tag)) now); eauto.
  - apply m_ok_mgr; [done|by destruct Hcm|by apply dec_sub_sub].
  - apply m_ok_mgr; [done|..]; unfold Unprotect; repeat case_match; try done; try (by apply dec_sub_sub); by destruct Hcm.
  - apply m_ok_mgr; [done|by eapply Connected_ok|by eapply Connected_dec].
  - apply m_ok_mgr; [done|by eapply Disconnected_ok|by eapply Disconnected_dec].
  - apply m_ok_mgr; [done|by apply doTrim_ok..].
  - apply m_ok_mgr; [done|by apply background_ok..].
  - apply m_ok_mgr; [done|by apply ForceTrim_ok..].
  - by apply RegisterDecayingTag_ok.
  - by apply Bump_ok.
  - by apply Remove_ok.
  - by apply CloseTag_ok.
  - unfold Close in H. destruct (stage m); simplify_eq; try done. by apply m_ok_stage.
  - by apply tick_ok.
  - by eapply apply_bump_ok.
  - by eapply apply_remove_ok.
  - by apply apply_close_ok.
  - by apply m_ok_stage.
Qed.

Lemma NewDecayer_ok c now : m_ok (NewDecayer (new_manager c) now).
Proof.
  split; simpl; try (intros *; set_solver); try done.
Qed.

Lemma reachable_ok m : reachable m -> m_ok m.
Proof.
  intros (c & now & Hr). pose proof (NewDecayer_ok c now) as Hok. revert Hok.
  induction Hr; [done|]. intros Hok. by apply IHHr, (manager_step_ok x).
Qed.

(** C23. In every history of tags, bumps, decay, connections, trims and closings, in any
    order, the value a peer is sorted by is the sum of its tags and of its decaying tags
    (in 64 bits), an entry is temporary exactly if it has no connection, every connection
    is filed under its peer, and the count of connections is that of those on file (in 32
    bits). *)
Theorem manager_consistent m : reachable m ->
  (forall p pi, peers (mgr m) !! p = Some pi ->
     value pi = wraps 64 (msum (fun _ v => v) (tags pi) + msum (fun _ v => DValue v) (decaying pi)) /\
     (temp pi = true <-> conns pi = ∅) /\
     (forall c, is_Some (conns pi !! c) -> RemotePeer c = p)) /\
  connCount (mgr m) = wraps 32 (msum (fun _ pi => Z.of_nat (size (conns pi))) (peers (mgr m))).
Proof.
  intros Hr%reachable_ok. pose proof (m_cm _ Hr) as Hcm. split; [|by apply ok_count].
  intros p pi Hp. destruct (ok_peers _ Hcm _ _ Hp) as [_ _ Hv Ht Hc _]. split; [done|]. split; [done|]. intros c [t H]. eauto.
Qed.

(** ** Values of one tag *)

(** A tag whose functions keep to [P]: the values it has at any peer are in [P]. *)
Definition keeps (P : Z -> Prop) (tag : decayingTag) : Prop :=
  (forall v d, P (bumpFn tag v d)) /\
  (forall now v after, P (DValue v) -> decayFn tag now v = (after, false) -> P after).

Definition holds (P : Z -> Prop) (t : positive) (m : Manager) : Prop :=
  forall tag, store m !! t = Some tag -> keeps P tag ->
  forall p pi v, peers (mgr m) !! p = Some pi -> decaying pi !! t = Some v -> P (DValue v).

Lemma holds_mgr P t m cm : holds P t m -> dec_sub (peers (mgr m)) (peers cm) -> holds P t (set_mgr cm m).
Proof.
  intros H Hd tag Ht Hk p pi v Hp Hv. simpl in *. destruct (Hd p pi Hp) as [E|(pi0 & Hp0 & E)]; rewrite E in Hv.
  - by apply lookup_empty_Some in Hv.
  - by eapply H.
Qed.

Lemma holds_same P t m m' : holds P t m -> mgr m' = mgr m ->
  (forall tag', store m' !! t = Some tag' -> keeps P tag' -> exists tag, store m !! t = Some tag /\ keeps P tag) -> holds P t m'.
Proof.
  intros H Hm Hs tag' Ht Hk p pi v Hp Hv. destruct (Hs tag' Ht Hk) as (tag & Ht0 & Hk0). rewrite Hm in Hp. by eapply H.
Qed.

Lemma holds_tick P t m now : m_ok m -> holds P t m -> holds P t (tick m now).
Proof.
  intros Hm H tag' Ht' Hk p pi' v' Hp Hv. unfold tick in Ht', Hp. simpl in Ht', Hp.
  rewrite lookup_fmap in Hp. apply fmap_Some in Hp as (pi & Hp & ->).
  destruct (decay_peer_spec (store m) (visited m now) now p pi (ok_peers _ (m_cm _ Hm) _ _ Hp)) as (_ & _ & _ & _ & Hd).
  rewrite Hd in Hv. apply bind_Some in Hv as (v & Hv & Hv'). rewrite map_lookup_imap in Ht'.
  destruct (store m !! t) as [tag|] eqn:Es; [|done]. simpl in Ht'. injection Ht' as <-.
  assert (keeps P tag) as Hk0 by by case_decide. pose proof (H tag Es Hk0 p pi v Hp Hv) as Hpv.
  unfold decayed in Hv'. case_decide; [|by simplify_eq]. rewrite Es in Hv'.
  destruct (decayFn tag now v) as [after []] eqn:Ed; simplify_eq/=. by apply (proj2 Hk0) in Ed.
Qed.

Lemma holds_bump P t m now m' : m_ok m -> apply_bump m now = Ok m' -> holds P t m -> holds P t m'.
Proof.
  unfold apply_bump. destruct (bumpTagCh m) as [|bmp rest] eqn:Eq; [by intros _ [= <-]|].
  intros Hm (b & Hp & E)%rbind_Ok H. destruct (m_bumps _ Hm bmp) as [Hb Hts]; [rewrite Eq; set_solver|]. cbn [mgr set_queues] in E.
  fold (bumped m now (bump_peer bmp) (bump_tag bmp)) in E.
  destruct (bumped_spec m now _ (bump_tag bmp) b Hm Hb Hp) as (Hdt & Hdp & Hdv). set (v := bumped _ _ _ _) in *.
  rewrite Hdt in E. destruct (store _ !! bump_tag bmp) as [tag|] eqn:Es; [|done]. injection E as <-.
  intros tag' Ht' Hk p pi x Hpi Hx. simpl in *.
  apply lookup_insert_Some in Hpi as [[<- <-]|[_ Hpi]]; [|by eapply H]. simpl in Hx.
  apply lookup_insert_Some in Hx as [[<- <-]|[_ Hx]].
  - simpl. assert (tag' = tag) as -> by congruence. apply Hk.
  - unfold tagInfoFor in Hx. destruct (peers (mgr m) !! bump_peer bmp) as [pi0|] eqn:E0; [by eapply H|].
    simpl in Hx. by apply lookup_empty_Some in Hx.
Qed.

Lemma holds_remove P t m now m' : apply_remove m now = Ok m' -> holds P t m -> holds P t m'.
Proof.
  unfold apply_remove. destruct (removeTagCh m) as [|rm rest]; [by intros [= <-]|].
  intros (b & Hp & E)%rbind_Ok H. cbn [mgr set_queues] in E.
  assert (forall x, decaying (tagInfoFor (peers (mgr m)) (rm_peer rm) now) !! t = Some x ->
    exists pi, peers (mgr m) !! rm_peer rm = Some pi /\ decaying pi !! t = Some x) as Ht.
  { intros x. unfold tagInfoFor. destruct (peers (mgr m) !! rm_peer rm) as [pi|]; [eauto|].
    simpl. intros Hx. by apply lookup_empty_Some in Hx. }
  destruct (decaying _ !! rm_tag rm) as [v|] eqn:Ev; injection E as <-; intros tag Htag Hk p pi x Hpi Hx; simpl in *;
    (apply lookup_insert_Some in Hpi as [[<- <-]|[_ Hpi]]; [|by eapply H]).
  - simpl in Hx. apply lookup_delete_Some in Hx as [_ Hx]. destruct (Ht _ Hx) as (pi & Hpi & Hx'). by eapply H.
  - destruct (Ht _ Hx) as (pi & Hpi & Hx'). by eapply H.
Qed.

Lemma holds_close P t m : m_ok m -> holds P t m -> holds P t (apply_close m).
Proof.
  intros Hm H. unfold apply_close. destruct (closeTagCh m) as [|t0 rest]; [done|].
  set (m1 := match store _ !! t0 with Some tag => _ | None => _ end).
  assert (mgr m1 = mgr m /\ store m1 = store m) as [E1 E2] by (subst m1; by case_match).
  clearbody m1. intros tag Ht Hk p pi' v Hp Hv. simpl in *. rewrite E1 in Hp. rewrite E2 in Ht.
  rewrite lookup_fmap in Hp. apply fmap_Some in Hp as (pi & Hp & ->).
  destruct (drop_tag_spec p pi t0 (ok_peers _ (m_cm _ Hm) _ _ Hp)) as (_ & _ & _ & Hd). rewrite Hd in Hv.
  apply lookup_delete_Some in Hv as [_ Hv]. by eapply H.
Qed.

Lemma holds_step P t m m' : m_ok m -> step m m' -> holds P t m -> holds P t m'.
Proof.
  intros Hm Hs H. pose proof (m_cm _ Hm) as Hcm. destruct Hs.
  - apply holds_mgr; [done|by eapply TagPeer_dec].
  - apply holds_mgr; [done|by eapply UntagPeer_dec].
  - apply holds_mgr; [done|]. eapply (TagPeer_dec _ p tag (f (tagValue (tagInfoFor (peers (mgr m)) p now) tag)) now); eauto.
  - apply holds_mgr; [done|by apply dec_sub_sub].
  - apply holds_mgr; [done|]. unfold Unprotect; repeat case_match; by apply dec_sub_sub.
  - apply holds_mgr; [done|by eapply Connected_dec].
  - apply holds_mgr; [done|by eapply Disconnected_dec].
  - apply holds_mgr; [done|by apply doTrim_ok].
  - apply holds_mgr; [done|by apply background_ok].
  - apply holds_mgr; [done|by apply ForceTrim_ok].
  - unfold RegisterDecayingTag. destruct (knownTags m !! nm); [done|]. cbn [fst].
    intros tag' Ht' Hk p pi v Hp Hv. simpl in *. destruct (m_tags _ Hm _ _ _ _ Hp Hv) as [tag Ht].
    rewrite lookup_insert_ne in Ht'; [exact (H tag' Ht' Hk p pi v Hp Hv)|]. intros E. apply (is_fresh (dom (store m))). rewrite E.
    apply elem_of_dom. eauto.
  - unfold Bump. by repeat case_match.
  - unfold Remove. by repeat case_match.
  - assert (forall tag, store m !! t0 = Some tag -> closed tag = false ->
      holds P t (set_tagstore (<[t0:=mark_closed tag]> (store m)) (knownTags m) m)) as Hx.
    { intros tag E _. apply (holds_same P t m); [done|done|]. simpl. intros tag' [[<- <-]|[_ Ht']]%lookup_insert_Some Hk; eauto. }
    unfold CloseTag. destruct (store m !! t0) as [tag|] eqn:E; [|done]. destruct (closed tag) eqn:Ec; [done|].
    specialize (Hx tag eq_refl Ec). case_match; [|done]. by eapply (holds_same P t _ _ Hx); [|eauto].
  - unfold Close in H0. destruct (stage m); by simplify_eq.
  - by apply holds_tick.
  - by eapply holds_bump.
  - by eapply holds_remove.
  - by apply holds_close.
  - done.
Qed.

Lemma reachable_holds P t m : reachable m -> holds P t m.
Proof.
  intros (c & now & Hr). pose proof (NewDecayer_ok c now) as Hok.
  assert (holds P t (NewDecayer (new_manager c) now)) as H.
  { intros tag _ _ p pi v Hp. simpl in Hp. by apply lookup_empty_Some in Hp. }
  revert Hok H. induction Hr as [|m1 m2 m3 Hs _ IH]; [done|]. intros Hok H. apply IH; [by eapply manager_step_ok|by eapply holds_step].
Qed.

(** A tag that sums bumps within [lo, hi] and decays by a fixed amount has, at every
    peer and after any history, a value within [lo, hi]. *)
Theorem bounded_tag m t tag lo hi d p pi v : reachable m -> store m !! t = Some tag ->
  bumpFn tag = BumpSumBounded lo hi -> decayFn tag = DecayFixed d ->
  lo <= 0 <= hi -> 0 <= d -> min_int64 <= lo - d -> hi <= max_int64 ->
  peers (mgr m) !! p = Some pi -> decaying pi !! t = Some v -> lo <= DValue v <= hi.
Proof.
  intros Hr Ht Hb Hd Hlo Hd0 Hmin Hmax. apply (reachable_holds (fun x => lo <= x <= hi) t m Hr tag Ht). split.
  - intros x delta. rewrite Hb. unfold BumpSumBounded. repeat case_match; lia.
  - intros now x after Hx. rewrite Hd. unfold DecayFixed, min_int64, max_int64 in *.
    rewrite wraps_small by lia. intros [= <- Hrm]. lia.
Qed.

(** What takes bumps from the queue panics only on a peer without an id. *)
Lemma bump_outcome m now bmp rest : m_ok m -> bumpTagCh m = bmp :: rest ->
  (apply_bump m now = Panic /\ bump_peer bmp = []) \/ (is_ok (apply_bump m now) = true /\ bump_peer bmp <> []).
Proof.
  intros Hm Eq. destruct (m_bumps _ Hm bmp) as [Hb [tag Ht]]; [rewrite Eq; set_solver|].
  unfold apply_bump. rewrite Eq. destruct (get (bump_peer bmp)) as [b| |] eqn:Eg; cbn [rbind].
  - right. cbn [mgr set_queues store]. fold (bumped m now (bump_peer bmp) (bump_tag bmp)).
    destruct (bumped_spec m now _ (bump_tag bmp) b Hm Hb Eg) as (-> & _). rewrite Ht. split; [done|]. by intros Hn; rewrite Hn in Eg.
  - unfold get in Eg. by destruct (last (bump_peer bmp)).
  - left. split; [done|]. unfold get in Eg. destruct (last (bump_peer bmp)) eqn:El; [done|]. by apply last_None in El.
Qed.

(** ** Ticks *)

Definition ticks (m : Manager) (ts : list Z) : Manager := foldl tick m ts.

Lemma visited_iff m now t : t ∈ visited m now <-> due (store m) now t = true /\ exists n, knownTags m !! n = Some t.
Proof.
  unfold visited. rewrite elem_of_list_to_set, list_elem_of_filter. split; intros [Hd Ht]; (split; [done|]).
  - apply list_elem_of_fmap in Ht as ([n t'] & -> & Hin). apply elem_of_range in Hin. by exists n.
  - destruct Ht as [n Hn]. apply list_elem_of_fmap. exists (n, t). by rewrite elem_of_range.
Qed.

Lemma tick_lookup m now p pi t : m_ok m -> peers (mgr m) !! p = Some pi ->
  exists pi', peers (mgr (tick m now)) !! p = Some pi' /\
    decaying pi' !! t = decaying pi !! t ≫= decayed (store m) (visited m now) now t.
Proof.
  intros Hm Hp. exists (decay_peer (store m) (visited m now) now pi). split; [unfold tick; simpl; by rewrite lookup_fmap, Hp|].
  by apply (decay_peer_spec _ _ now p pi), (ok_peers _ (m_cm _ Hm)).
Qed.

Lemma tick_store m now t tag : store m !! t = Some tag ->
  store (tick m now) !! t = Some (if decide (t ∈ visited m now) then postpone tag else tag).
Proof. intros Ht. unfold tick. simpl. by rewrite map_lookup_imap, Ht. Qed.

(** A tag that decays by a fixed amount loses it at each round that is due, and is
    gone after as many rounds as its value allows; the rounds may be late. *)
Theorem fixed_decay ts : forall m t tag d p pi v, reachable m ->
  store m !! t = Some tag -> knownTags m !! name tag = Some t -> decayFn tag = DecayFixed d ->
  0 < d <= max_int64 -> peers (mgr m) !! p = Some pi -> decaying pi !! t = Some v -> 0 < DValue v <= max_int64 ->
  (forall i now, ts !! i = Some now -> nextTick tag + Z.of_nat i * interval tag <= now) ->
  exists pi', peers (mgr (ticks m ts)) !! p = Some pi' /\
    DValue <$> decaying pi' !! t =
    (let left := DValue v - d * zlen ts in if 0 <? left then Some left else None).
Proof.
  assert (forall ts m t p pi, m_ok m -> peers (mgr m) !! p = Some pi -> decaying pi !! t = None ->
    exists pi', peers (mgr (ticks m ts)) !! p = Some pi' /\ decaying pi' !! t = None) as Hgone.
  { clear ts. induction ts as [|now ts IH]; intros m t p pi Hm Hp Hv; [by exists pi|].
    destruct (tick_lookup m now p pi t Hm Hp) as (pi1 & Hp1 & Hv1). rewrite Hv in Hv1.
    by apply (IH (tick m now) t p pi1); [apply tick_ok|..]. }
  intros m t tag d p pi v Hr%reachable_ok. revert m tag pi v Hr. induction ts as [|now ts IH]; intros m tag pi v Hm Ht Hk Hd Hd0 Hp Hv Hv0 Hts.
  { exists pi. split; [done|]. rewrite Hv. unfold zlen. simpl. rewrite Z.mul_0_r, Z.sub_0_r.
    by destruct (Z.ltb_spec 0 (DValue v)); [|lia]. }
  assert (t ∈ visited m now) as Hvis.
  { apply visited_iff. split; [|eauto]. unfold due, time_after. rewrite Ht. specialize (Hts 0%nat now eq_refl). lia. }
  destruct (tick_lookup m now p pi t Hm Hp) as (pi1 & Hp1 & Hv1). rewrite Hv in Hv1. simpl in Hv1.
  unfold decayed in Hv1. rewrite decide_True, Ht, Hd in Hv1 by done. unfold DecayFixed in Hv1.
  unfold max_int64 in *. rewrite wraps_small in Hv1 by lia. pose proof (tick_store m now t tag Ht) as Ht1.
  rewrite decide_True in Ht1 by done. cbn [ticks foldl]. fold (ticks (tick m now) ts). rewrite zlen_cons.
  destruct (Z.leb_spec (DValue v - d) 0).
  - destruct (Hgone ts (tick m now) t p pi1 (tick_ok _ _ Hm) Hp1 Hv1) as (pi' & Hp' & Hv'). exists pi'. split; [done|].
    rewrite Hv'. simpl. assert (0 <= zlen ts) by apply zlen_nonneg. destruct (Z.ltb_spec 0 (DValue v - d * (1 + zlen ts))); [nia|done].
  - destruct (IH (tick m now) (postpone tag) pi1 _ (tick_ok _ _ Hm) Ht1 Hk Hd Hd0 Hp1 Hv1) as (pi' & Hp' & Hv'); [simpl; lia| |].
    + intros i now' Hi. specialize (Hts (S i) now' Hi). simpl. lia.
    + exists pi'. split; [done|]. rewrite Hv'. simpl. by replace (DValue v - d - d * zlen ts) with (DValue v - d * (1 + zlen ts)) by lia.
Qed.

(** A tag that is not known is not visited. *)
Lemma unknown_stays ts : forall m t p pi, m_ok m -> (forall n, knownTags m !! n <> Some t) ->
  peers (mgr m) !! p = Some pi ->
  exists pi', peers (mgr (ticks m ts)) !! p = Some pi' /\ decaying pi' !! t = decaying pi !! t.
Proof.
  induction ts as [|now ts IH]; intros m t p pi Hm Hk Hp; [by exists pi|].
  destruct (tick_lookup m now p pi t Hm Hp) as (pi1 & Hp1 & Hv1).
  destruct (IH (tick m now) t p pi1 (tick_ok _ _ Hm) Hk Hp1) as (pi' & Hp' & Hv'). exists pi'. split; [done|].
  rewrite Hv', Hv1. destruct (decaying pi !! t) as [v|]; [|done]. simpl. unfold decayed.
  rewrite decide_False; [done|]. intros [_ [n Hn]]%visited_iff. by apply (Hk n).
Qed.
End histories.

(** The difference to a time that has passed is negative: no value ever expires, it only
    becomes 0. *)
Theorem expire_never after now v : 0 < after -> LastVisit v <= now -> DecayExpireWhenInactive after now v = (0, false).
Proof. intros Ha Hv. unfold DecayExpireWhenInactive, time_sub, min_int64, max_int64. f_equal. lia. Qed.

(** ** Examples *)

#[local] Existing Instance map_to_list_range.
#[local] Existing Instance insertion_go_sort.
#[local] Existing Instance example_network.

(** A tag is registered, and bumped by 5 for the peer 1. *)
Definition m_start : Manager :=
  NewDecayer (new_manager {| highWater := 200; lowWater := 100; gracePeriod := 30 * second; silencePeriod := 10 * second; resolution := minute |}) epoch.
Section scenario.
Variables (df : DecayFn) (bf : BumpFn).

Definition m_tag : Manager := (RegisterDecayingTag m_start "kad" minute df bf).1.
Definition m_bump : Manager := (Bump m_tag 1 [1] 5).1.
Definition m_applied : Manager := the m_bump (apply_bump m_bump epoch).

(** Or it is closed before the bump is taken from its queue, and [process] takes the
    closing first. *)
Definition m_closed : Manager := apply_close (CloseTag m_bump 1).1.
Definition m_orphan : Manager := the m_closed (apply_bump m_closed epoch).

Lemma one_bytes : is_bytes [1].
Proof. by repeat constructor. Qed.

Lemma bump_reachable : rtc step m_start m_bump.
Proof. eapply rtc_l; [apply (step_register m_start "kad" minute df bf)|]. apply rtc_once, (step_bump m_tag), one_bytes. Qed.

Lemma applied_reachable : reachable m_applied.
Proof.
  eexists _, _. eapply rtc_r; [apply bump_reachable|]. apply (step_apply_bump _ epoch); [done|]. apply the_Ok. by vm_compute.
Qed.

Lemma orphan_reachable : reachable m_orphan.
Proof.
  eexists _, _. etrans; [apply bump_reachable|]. eapply rtc_l; [apply (step_close_tag _ 1%positive)|].
  eapply rtc_l; [apply step_apply_close; by vm_compute|]. apply rtc_once, (step_apply_bump _ epoch); [by vm_compute|].
  apply the_Ok. by vm_compute.
Qed.

Lemma orphan_tag : (fun tag => (closed tag, decayFn tag)) <$> store m_orphan !! 1%positive = Some (true, df).
Proof. by vm_compute. Qed.

Lemma applied_tag : (fun tag => (name tag, decayFn tag, bumpFn tag, nextTick tag, interval tag)) <$> store m_applied !! 1%positive =
  Some ("kad", df, bf, epoch + minute, minute).
Proof. by vm_compute. Qed.
End scenario.

Notation kad x := (x (DecayFixed 2) (BumpSumBounded 0 10)).

(** A bump that was queued before its tag was closed may be applied after it: the peer
    then has the value of a tag that never decays, that cannot be removed, and whose
    closing says nothing. *)
Theorem orphan_stays : exists m t p, reachable m /\
  bumpTagCh m = [] /\ removeTagCh m = [] /\ closeTagCh m = [] /\
  (exists tag, store m !! t = Some tag /\ decayFn tag = DecayFixed 2 /\ closed tag = true) /\
  (Remove m t p = (m, Some ErrClosed) /\ CloseTag m t = (m, None)) /\
  forall ts, exists pi', peers (mgr (ticks m ts)) !! p = Some pi' /\ DValue <$> decaying pi' !! t = Some 5.
Proof.
  exists (kad m_orphan), 1%positive, [1]. pose proof (orphan_tag (DecayFixed 2) (BumpSumBounded 0 10)) as Ht.
  destruct (store (kad m_orphan) !! 1%positive) as [tag|] eqn:Et; [|done]. simpl in Ht. injection Ht as Hc Hd.
  split; [apply orphan_reachable|]. split_and!; [by vm_compute..| | | |].
  - exists tag. done.
  - unfold Remove. by rewrite Et, Hc.
  - unfold CloseTag. by rewrite Et, Hc.
  - intros ts. assert (DValue <$> (peers (mgr (kad m_orphan)) !! [1] ≫= fun pi => decaying pi !! 1%positive) = Some 5) as Hv by by vm_compute.
    destruct (peers (mgr (kad m_orphan)) !! [1]) as [pi|] eqn:Ep; [|done]. simpl in Hv.
    destruct (unknown_stays ts (kad m_orphan) 1%positive [1] pi) as (pi' & Hp' & Hv'); [by apply reachable_ok, orphan_reachable| |done|].
    + intros n Hn. assert (knownTags (kad m_orphan) = ∅) as E by by vm_compute. by rewrite E in Hn.
    + exists pi'. by rewrite Hv'.
Qed.

Lemma manager_consistent_witness : reachable (kad m_applied) /\ connCount (mgr (kad m_applied)) = 0.
Proof.
  pose proof (manager_consistent (kad m_applied) (applied_reachable _ _)) as [_ E]. split; [apply applied_reachable|].
  rewrite E. by vm_compute.
Defined.

Lemma applied_value : exists pi v, peers (mgr (kad m_applied)) !! [1] = Some pi /\ decaying pi !! 1%positive = Some v /\ DValue v = 5.
Proof.
  assert (DValue <$> (peers (mgr (kad m_applied)) !! [1] ≫= fun pi => decaying pi !! 1%positive) = Some 5) as Hv by by vm_compute.
  destruct (peers (mgr (kad m_applied)) !! [1]) as [pi|]; [|done]. simpl in Hv.
  destruct (decaying pi !! 1%positive) as [v|] eqn:Ev; [|done]. simpl in Hv. injection Hv as Hv. eauto.
Qed.

Lemma bounded_tag_witness : exists pi v, peers (mgr (kad m_applied)) !! [1] = Some pi /\ decaying pi !! 1%positive = Some v /\ 0 <= DValue v <= 10.
Proof.
  destruct applied_value as (pi & v & Hp & Hv & _). exists pi, v. split; [done|]. split; [done|].
  pose proof (applied_tag (DecayFixed 2) (BumpSumBounded 0 10)) as Ht.
  destruct (store (kad m_applied) !! 1%positive) as [tag|] eqn:Et; [|done]. simpl in Ht. injection Ht as _ Hd Hb _ _.
  by apply (bounded_tag (kad m_applied) 1%positive tag 0 10 2 [1] pi v (applied_reachable _ _) Et Hb Hd).
Defined.

Lemma fixed_decay_witness : exists pi', peers (mgr (ticks (kad m_applied) [epoch + minute; epoch + 2 * minute])) !! [1] = Some pi' /\
  DValue <$> decaying pi' !! 1%positive = Some 1.
Proof.
  destruct applied_value as (pi & v & Hp & Ev & Hv). pose proof (applied_tag (DecayFixed 2) (BumpSumBounded 0 10)) as Ht.
  destruct (store (kad m_applied) !! 1%positive) as [tag|] eqn:Et; [|done]. simpl in Ht. injection Ht as Hn Hd _ Hnt Hi.
  destruct (fixed_decay [epoch + minute; epoch + 2 * minute] (kad m_applied) 1%positive tag 2 [1] pi v
    (applied_reachable _ _) Et) as (pi' & Hp' & Hv').
  - rewrite Hn. by vm_compute.
  - exact Hd.
  - split; [lia|by vm_compute].
  - exact Hp.
  - exact Ev.
  - rewrite Hv. split; [lia|by vm_compute].
  - rewrite Hnt, Hi. intros [|[|i]] now; cbn [lookup list_lookup]; intros [= <-]; lia.
  - exists pi'. split; [exact Hp'|]. rewrite Hv', Hv. reflexivity.
Defined.

Lemma expire_never_witness :
  DecayExpireWhenInactive minute (epoch + 100 * minute) {| DTag := 1; DPeer := [1]; Added := epoch; LastVisit := epoch; DValue := 7 |} = (0, false).
Proof. apply expire_never; [done|]. cbn [LastVisit]. unfold minute, second. lia. Defined.
